(* ===== verification/_CoqProject ===== *)
-Q . S2P
Prelude.v
Text.v
Nostr.v
Scope.v
Filter.v
Subscription.v
Ifc.v
Conformance.v
Queue.v
ReplicaFence.v
KeysetPages.v
GitPerms.v
GitManifest.v
GitWire.v
GitStore.v
GitPublish.v
GitHistory.v
GitAnswers.v
GitRun.v
PairCrypto.v
Pairing.v
AuditLog.v
WakeLedger.v
AudioRoom.v
Mesh.v
HuddleMedia.v
HuddleControl.v
Effect.v
Kube.v
KubeDeploy.v
KubeCluster.v
KubeHistory.v
KubeSafety.v
KubeTiming.v
KubeRun.v
Directory.v
Register.v
Tunnel.v
TunnelSafety.v
TunnelRun.v
Postgres.v
PostgresRun.v
Credits.v
CreditsSpec.v
CreditsBooks.v
CreditsLocks.v
CreditsCalls.v
CreditsSafety.v
CreditsPricing.v
CreditsRun.v
Payments.v
PaymentsSpec.v
PaymentsBooks.v
PaymentsCalls.v
PaymentsSafety.v
PaymentsRun.v
