(* ===== verification/Prelude.v ===== *)
(** * A verified model of the Colony relay and agent harness

    Colony is a Nostr relay for teams of people and agents, with an agent
    harness that listens to it ([src/crates], Rust).  This library models the
    parts of it that decide something: who receives an event, whose turn an
    agent takes next, which push is allowed, what a replica may answer, what the
    relays of a mesh believe about each other, when a secret may leave a device.

    ** The parts and how they interact

    A client's event reaches the relay, is stored, and is fanned out to the live
    subscriptions ([Subscription] over [Filter] over [Nostr]).  An agent harness
    is one such subscriber: it admits an event to its durable [WakeLedger], files
    it under a session scope ([Scope]) in its [Queue], and runs one turn per
    scope; labels gathered on the way ([Ifc]) decide what may leave again.
    A push to a hosted repository must pass [GitPerms]; what it leaves in its
    workspace is published ([GitPublish]) to an object store ([GitStore]) as a
    manifest ([GitManifest]) the repository's pointer is swapped to, and fetched
    back by the same manifests ([GitWire] frames the advertisement).  History is read in
    keyset pages, from a replica when the fence proves it fresh enough
    ([KeysetPages] over [ReplicaFence]).  Appends to the [AuditLog] chain record
    what happened, and [Conformance] replays traces of a run against the
    tenant-isolation specification.  Several relays form a [Mesh]; a voice room
    ([AudioRoom]) may span them, its owner controlling it ([HuddleControl]) and
    every other relay forwarding its media ([HuddleMedia]).  Which relay owns a session
    is arbitrated in Redis ([Directory]); clients of the other relays reach the owner
    through a fenced stream ([Tunnel]).  A second device is
    given the account's key by [Pairing] over [PairCrypto].  An agent may run as a
    Pod of a Kubernetes cluster, where a deploy ([KubeDeploy] over the decisions of
    [Kube]) brings it up and replaces what is left of its previous life.  What an
    agent's model calls cost its owner goes through the gateway [Credits]: a hold on
    the account before the call, priced by [CreditsPricing], and its settlement after.
    The balance itself is bought: [Payments] turns a provider's verified notifications
    about a checkout into rows of the same ledger.

    ** Files and sources (under [src/crates] unless said otherwise)

    - [Prelude]: [result] and its [?], state with errors, [MapIter] (the order a
      hash map iterates in), stable sorting, saturating arithmetic, list lemmas.
    - [Text]: the [str] methods the code calls.  [Nostr]: events, tags, filters.
    - [Scope]: [buzz-core/src/nip10.rs], [buzz-acp/src/scope.rs].
    - [Filter]: [buzz-core/src/filter.rs].  [Subscription]:
      [buzz-relay/src/subscription.rs], a map per [DashMap].
    - [Ifc]: [ifc-core/src/lib.rs].
    - [Conformance]: [buzz-conformance/src/{lib,transitions,checker}.rs].
    - [Queue]: [EventQueue] of [buzz-acp/src/queue.rs].  [WakeLedger]:
      [buzz-acp/src/wake_ledger.rs] and its reader in [relay.rs].
    - [ReplicaFence]: [buzz-db/src/runtime/replica_fence.rs] and
      [src/migrations/0021], [0026].  [KeysetPages]: the page queries of
      [buzz-db/src/store/thread.rs], the routing of [buzz-db/src/runtime/mod.rs].
    - [GitPerms]: [buzz-core/src/git_perms.rs], roles of [channel.rs].
    - [GitManifest], [GitWire], [GitStore], [GitPublish]:
      [buzz-relay/src/api/git/{manifest,transport,store,hydrate,cas_publish,settings}.rs]
      and the seeding of [handlers/side_effects.rs].  [GitHistory] holds the
      invariant of the bucket and the specifications of reads and of the pointer
      swap, [GitAnswers] those of the handlers and the theorems, [GitRun] runs.
    - [PairCrypto], [Pairing]: [buzz-core/src/pairing/*.rs].
    - [AuditLog]: [buzz-audit/src/*.rs] and the [audit_log] table of
      [src/migrations/0001].
    - [AudioRoom]: [buzz-relay/src/audio/room.rs].  [HuddleMedia]:
      [audio/mesh.rs], [audio/wire.rs], parts of [audio/join.rs], [handler.rs] and
      [src/desktop/src-tauri/src/huddle/wire.rs].  [HuddleControl]: the owner
      registry and control acceptor of [audio/join.rs].
    - [Effect]: programs with effects on a shared world, and their logics.
    - [Directory]: [buzz-relay/src/tunnel/directory.rs].  [Register] is its abstract
      specification and the simulation of every script.  [Tunnel]:
      [tunnel/reliable.rs].  [TunnelSafety] runs both on many relays, [TunnelRun] is
      such a run.
    - [Kube], [KubeDeploy]: [buzz-backend-kubernetes/src/] ([naming.rs],
      [intent.rs], [pod.rs], [observe.rs], [classify.rs], [gc.rs]; [reconcile.rs],
      [main.rs]).  [KubeCluster] is the API server and everyone else, [KubeHistory]
      the invariant of what happened, [KubeSafety] and [KubeTiming] the theorems,
      [KubeRun] runs.
    - [Mesh]: [buzz-relay-mesh/src/{membership,gossip,registry,runtime,status}.rs].
    - [Postgres]: transactions of a PostgreSQL database, and their logic.  [Credits]:
      [buzz-db/src/store/credits_gateway.rs], the debit of [store/payments.rs], the
      tables of [src/migrations/0047], [0048] and [0055], and [settle_request],
      [recover_due] and [reconcile] of [buzz-relay/src/api/credits_gateway.rs].
      [CreditsSpec] is the abstract specification, [CreditsBooks] its invariant,
      [CreditsLocks] what locks keep, [CreditsCalls] the verification of each call,
      [CreditsSafety] the theorems, [CreditsRun] a run.  [CreditsPricing]:
      [api/credits_gateway_{metering,limits}.rs] and the charges and holds of
      [api/credits_gateway_upstream.rs].
    - [Payments]: the checkout intents and notifications of
      [buzz-db/src/store/payments.rs] on the tables of [src/migrations/0048] and [0054].
      [PaymentsSpec] is the abstract specification, [PaymentsBooks] its invariant,
      [PaymentsCalls] what locks keep and the verification of each call,
      [PaymentsSafety] the theorems, [PaymentsRun] a run.  [PostgresRun] computes the
      runs of both.

    A method [&mut self] is a function from the state record to the result and
    the new state, with the guards and early returns of the code in its order;
    what several tasks do at once is a step relation ([ReplicaFence], [Mesh],
    [AuditLog], [HuddleControl]) or a function argument standing for what other
    tasks do meanwhile.  A handler over the object store is a tree of requests
    ([prog]); any number of them, of any relays, run interleaved on one bucket
    ([sys_step]), and are verified one at a time in a logic of postconditions
    that tolerate the others ([wp], sound by [wp_sound]).  [Effect] is the same for
    any set of operations ([eff], [machine_step], [triple], [triple_sound]); the
    deploys of the Kubernetes backend, the calls of the session directory and the
    transactions of the credits gateway and of the payments are its programs.

    ** What is shown

    - Delivery: the indexed fan-out is the linear scan ([fan_out_exact]),
      revoking a channel stops its deliveries and only those
      ([revoke_channel_exact]), [filters_match] is NIP-01 ([filters_match_iff]).
    - Turns: which batch runs next ([flush_next_spec]), that nothing waiting is
      lost ([dispatch_delivers_all]), the invariant of the queue
      ([queue_invariant]); and that a handled event, in the run after, is behind the
      replay or refused until 512 other ids came ([handled_never_again]), which is as far
      as it goes ([handled_again_in_one_run]).
    - Repositories: one linear history per repository ([history_linear]), answers
      that say what happened ([push_truthful], [default_branch_truthful]), reads
      of one complete manifest ([read_consistent]) within limits whatever the
      bucket replies ([hydration_within_limits]), an advertisement that reads back
      ([advertisement_reads_back]).
    - Egress: [check_egress_decides].
    - Pushes: [evaluate_ref_update_iff] against a declarative policy, and
      [protection_enforced] from the tags of an announcement to a whole push.
    - Replicas: [fence_no_holes], [resolve_strongest]; on them, pages read from
      replicas are final ([covered_page_final], [thread_page_final]), a scroll
      across replicas misses nothing ([replica_scroll_complete]) and ends
      ([walk_terminates]).
    - Pairing: the payload moves only after both codes were compared, once
      ([secret_after_confirmation]), the transcript binds both sides
      ([transcript_binds]), honest devices complete ([pairing_completes]), the
      session implements the state machine ([session_refines_machine]), strangers
      change nothing ([stranger_refused]), sessions stay well formed
      ([session_well_formed]), the QR code reads back ([qr_roundtrip]).
    - Audit: every community has one linked chain under any interleaving
      ([audit_chains], [audit_serialised]) and tampering shows
      ([tamper_evident]), up to what the hash does not separate
      ([shifted_row_verifies]).
    - Conformance: the checker accepts exactly the conforming traces
      ([check_trace_iff]) and reports the first violation
      ([check_trace_first_violation]).
    - Mesh: gossip is faithful ([gossip_faithful]), spreads ([gossip_spreads]) and
      the table implements it ([mesh_refines_gossip]); dialling both ways keeps
      one connection ([tie_break_agrees]); who enters ([ready_anchored]).
    - Huddles: the room's invariant ([room_invariant]), the client's view of the
      owner's roster ([owner_control_view]), cleanup when a control stream or the
      relay ends ([teardown_complete], [attach_drain_race]), of all but a peer whose key
      was registered twice ([second_registration_leaks]).
    - Sessions across relays: every call of the directory is one atomic operation of a
      register per session ([directory_linearizable]), a generation has one owner
      ([generation_one_owner]), joins say what the directory says ([join_truthful]), a
      frame passes only under the live lease ([frames_fenced]), a lease is not lost in
      silence ([renewer_reports_loss]), and what is written on a stream is read from it
      ([reliable_bytes_arrive]).
    - Deploys, any number at once: no running agent is deleted
      ([running_never_deleted]), no Secret a Pod needs is taken away
      ([needed_secret_kept]), an answered name had started ([deploy_truthful]), a
      deploy ends by its deadline ([deploy_ends]) and leaves alone what it created
      ([no_delete_after_create]).
    - Credits, any number of calls at once: the tables move only by whole steps of the
      specification ([gateway_serializable]; a hold's payer is as its locked session and
      account say, while who owns the agent and whether the community is open are not
      locked and are of a moment before, [Past]), the books balance and no account is
      overdrawn ([books_balanced]), the daily cap and the in-flight limits hold
      ([limits_hold]), answers are true, of the account that pays ([admit_truthful]), and
      so are reported charges ([charged_as_told]), charges
      are exact ([charge_exact], [charge_decimal_exact]), a hold covers what it is for
      ([hold_covers_usage]), and a policy that does not parse fails closed
      ([environment_limits]).
    - Purchases, any number of checkouts and notifications at once: what an account was
      credited is what its paid intents granted, one row per payment
      ([purchases_exact]), outcomes are true and an event is processed once
      ([notification_truthful]), checkouts are true ([checkout_truthful]), and the tables
      move only by whole steps ([payments_serializable]).
    - Defects the model exhibits: [close_forgets_regression],
      [late_removal_drops_replacement], [shifted_row_verifies],
      [send_failure_skips_teardown], [one_rejected_ref_drops_push],
      [adopts_dying_winner], [gc_deletes_unmarked_pod], [late_doubt_refused],
      [long_session_refused], [second_registration_leaks] and [handled_again_in_one_run].

    The remaining theorems of each file state the behaviour of single operations.

    ** Conventions, bounds and fuel

    Machine integers are [Z], [N] or [nat] with the wrap-around or saturation the
    code has; clocks, random numbers and fresh identifiers are arguments; an
    [Instant] or [Duration] is a count of nanoseconds.  The [f64] jitter of the
    queue is the exact rational rounded to a nanosecond.  Iteration over a hash
    map goes through [MapIter]: an arbitrary permutation of its entries.

    Loops that are not structural take fuel, with a theorem that what they are
    given is enough: [enforce_cap_loop] and [pop_back_loop] (each turn removes an
    event), [drain_loop] ([dispatch_delivers_all]), [walk] ([walk_terminates])
    and [pkt_lines_from] ([pkt_lines_fuel]: a frame has at least four bytes).
    Programs over the object store are finite trees: every handler ends after
    finitely many requests.  The loops of a deploy end by the clock: their fuel is
    enough when it is at least the deadline over the time of the shortest operation
    ([deploy_ends]).  The loop of a lease renewer is unrolled to any number of turns
    ([renew_loop]); it has no other end than those stated.

    ** Assumptions

    - Third-party crates are classes with the laws the code relies on, each
      with a concrete instance: [PairOps]/[PairLaws] and [QrOps]/[QrLaws]
      (encryption, signatures, JSON, hex, percent-encoding, URLs),
      [AttestOps]/[AttestLaws] (attestations of the mesh), [AuditOps]/[AuditLaws] (a SHA-256
      digest has 32 bytes), [GitOps]/[GitLaws] (digests in hexadecimal, the JSON of
      a manifest reads back), [IdOps]/[IdLaws] (the text of hexadecimal bytes and of a
      UUID).  No law says a hash has no collisions: where it
      matters the theorem's alternative is a collision of the very inputs that were
      hashed ([transcript_binds], [tamper_evident]), or its hypothesis is that what was
      sent in this run has none ([no_collision], [ids_distinct]).
    - The object store performs a conditional write atomically, an [ETag] stands
      for one body of its key, and nothing is deleted; a request may fail in
      transport with or without having taken effect.
    - Redis evaluates a script at once and drops only keys that have an expiry; its
      generation keys have none.  Lua prints a generation exactly below 10^14, where
      the model of [Acquire] stops.  A call may fail with or without its effect.
      The identifiers of requests are well formed ([req_ok]), as their types make them.
    - PostgreSQL, in [ReplicaFence]: a transaction's rows become visible at once
      when it commits; the activity view shows every open transaction, masked
      ones without their start; the guard setting is armed on every session that
      writes; the writer's clock does not go back; a prepared transaction commits
      within the margin.  In [KeysetPages]: an event and its thread metadata are
      written by one transaction.  In [AuditLog]: an advisory lock is exclusive.
      In [Credits]: READ COMMITTED; row locks, advisory locks and the keys of new rows
      are held to the end of the transaction, and a statement waits for them; any
      statement may fail, a connection may be lost at any time, and a failed commit may
      have happened; requests and ledger entries are never deleted, nor (by the foreign
      keys) accounts they refer to.
      Other services write positive entries, or debits through
      [record_account_credit_debit], under sources of their own (not "ai:"); nothing in
      the repository writes others, and [purchases_exact] shows it of the purchases.
      In [Payments], likewise: nobody else writes purchases, or ledger rows with a
      reference.  The provider answers anything.  The cap theorem
      asks for a cap below [i64::MAX], where [saturating_add] would hide an excess.
    - The API server of Kubernetes gives each state of each object its own
      version, deletes only on a matching precondition, and lists what there is;
      nobody edits the labels, annotations or spec of a Pod or names a Secret of an
      attempt but the attempt; a container that ended under the policy [Never] stays
      ended; a generation is not drawn twice ([NewGeneration] is 32 random bits).
      The theorems of [KubeSafety] that name [prompt] ask that every Pod in the history was
      created within 1200 seconds of its Secret, which is what the collection's age gate
      is for; a deploy's own deadline is half of that.
    - A runtime id of the mesh is used by one boot of one relay.
    - Channels of the runtime are bounded queues; the disk and the network
      succeed or fail as an argument says.

    ** Not modelled

    The socket loops, HTTP handlers and SQL around these parts, the subprocesses
    and model clients of the agent, storage and media processing, the webhooks of the
    payment providers, the WhatsApp bridge, metrics, the command-line tools and the user interfaces: they
    move data between the modelled decisions and systems outside the
    repository.  Of the components here: the mapping of [SessionDirectory] to [HuddleDirectory]
    and the latter's dialling, of the credits gateway the HTTP authentication, the client
    of the model provider and its chain of models (its answers are arbitrary) and the bound
    on sessions, the QUIC transport and the failure detector's logarithm in
    the mesh, the file format of the wake ledger, the start-up checks of the
    commit-time guard.  Still to come are the staged sends of
    [whatsapp_stage.rs], the limits of [chat_limits.rs] and [company_spend.rs],
    the workflow schema and executor, the tool permissions of the agent, the storage
    sweep, the parsing around the Kubernetes backend, the money rails, the renewer of
    huddle leases, the replay guard and rate limiter of [buzz-auth] and the grants
    of the push gateway. *)

From stdpp Require Import base gmap strings list fin_maps sorting.
From Stdlib Require Import ZArith Lia.

Create HintDb colony discriminated.

(** ** Fallible code: Rust's [Result<A, E>] *)

Inductive result (E A : Type) : Type :=
  | Ok (a : A)
  | Err (e : E).
Arguments Ok {E A} _.
Arguments Err {E A} _.

#[export] Instance result_eq_dec {E A} `{EqDecision E, EqDecision A} :
  EqDecision (result E A).
Proof. solve_decision. Defined.

(** The [?] operator: stdpp's [x ← e; k] on [result]. *)
#[export] Instance result_ret {E} : MRet (result E) := λ A a, Ok a.
#[export] Instance result_bind {E} : MBind (result E) := λ A B k r,
  match r with Ok a => k a | Err e => Err e end.

Definition is_Ok {E A} (r : result E A) : Prop := match r with Ok _ => True | Err _ => False end.

(** ** State with errors: [&mut self] methods returning [Result]

    The state survives an error return, as it does in the code: whatever was
    assigned before the [return Err(..)] stays assigned. *)

Definition SE (S E A : Type) : Type := S → result E A * S.

#[export] Instance se_ret {S E} : MRet (SE S E) := λ A a s, (Ok a, s).
#[export] Instance se_bind {S E} : MBind (SE S E) := λ A B k m s,
  match m s with
  | (Ok a, s') => k a s'
  | (Err e, s') => (Err e, s')
  end.
Definition se_throw {S E A} (e : E) : SE S E A := λ s, (Err e, s).
Definition se_get {S E} : SE S E S := λ s, (Ok s, s).
Definition se_modify {S E} (f : S → S) : SE S E unit := λ s, (Ok tt, f s).
Definition se_lift {S E A} (r : result E A) : SE S E A := λ s, (r, s).

(** A computation that returns [Ok] went through each of its parts. *)
Lemma se_bind_ok {S E A B} (m : SE S E A) (k : A → SE S E B) s b s' :
  (m ≫= k) s = (Ok b, s') ↔ ∃ a s1, m s = (Ok a, s1) ∧ k a s1 = (Ok b, s').
Proof.
  unfold mbind, se_bind. destruct (m s) as [[a|e] s1].
  - split; [by eexists _, _|]. by intros (? & ? & [= <- <-] & ?).
  - split; [done|]. by intros (? & ? & ? & ?).
Qed.

Lemma se_get_bind {S E B} (k : S → SE S E B) s : (x ← se_get; k x) s = k s s.
Proof. done. Qed.

Lemma se_modify_bind {S E B} (f : S → S) (k : SE S E B) s : (_ ← se_modify f; k) s = k (f s).
Proof. done. Qed.

(** [m] only reads the state. *)
Definition reads {S E A} (m : SE S E A) : Prop := ∀ s, (m s).2 = s.

(** After a computation that only reads, what comes next starts from the same
    state or does not start. *)
Lemma reads_bind {S E A B} (m : SE S E A) (k : A → SE S E B) s :
  reads m → (m ≫= k) s = match (m s).1 with Ok a => k a s | Err e => (Err e, s) end.
Proof. intros Hm. specialize (Hm s). unfold mbind, se_bind. by destruct (m s) as [[a|e] s1]; simpl in *; subst. Qed.

Lemma reads_cases {S E A B} (m : SE S E A) (k : A → SE S E B) s res s' :
  reads m → (m ≫= k) s = (res, s') →
  (∃ a, m s = (Ok a, s) ∧ k a s = (res, s')) ∨ (∃ e, m s = (Err e, s) ∧ res = Err e ∧ s' = s).
Proof.
  intros Hm. rewrite reads_bind by done. specialize (Hm s).
  destruct (m s) as [[a|e] s1]; simpl in *; subst; [eauto|]. intros [= <- <-]. eauto.
Qed.

Declare Scope colony_scope.
Delimit Scope colony_scope with colony.

(** [guard_else b e]: [if !b { return Err(e) }]. *)
Notation "'guard?' b 'else' e" := (if b then mret tt else se_throw e)
  (at level 10, b at level 99, e at level 99) : colony_scope.

(** ** Machine integers, kept in [Z] with their wrap-around or saturation *)

Definition u64_max : Z := 2 ^ 64 - 1.
Definition u64_saturating_add (a b : Z) : Z := Z.min (a + b) u64_max.
Definition saturating_sub (a b : Z) : Z := Z.max (a - b) 0.
Definition u8_wrapping_add (a b : Z) : Z := (a + b) `mod` 256.
Definition u64_wrapping_add (a b : Z) : Z := (a + b) `mod` 2 ^ 64.
(** [x.clamp(lo, hi)] *)
Definition clamp (x lo hi : Z) : Z := Z.min (Z.max x lo) hi.

(** ** Tactics *)

(** Split the conjunctions and existentials of the context. *)
Ltac deconj :=
  repeat match goal with
  | H : _ ∧ _ |- _ => destruct H
  | H : ∃ _, _ |- _ => destruct H
  end.

(** Case analysis on every [match]/[if] of the goal, keeping the equations. *)
Ltac case_all :=
  repeat (case_match; try done; simplify_eq/=).

(** Turn boolean tests of the code into propositions. *)
Ltac bool_to_prop :=
  repeat match goal with
  | H : andb _ _ = true |- _ => apply andb_true_iff in H as [??]
  | H : orb _ _ = false |- _ => apply orb_false_iff in H as [??]
  | H : negb _ = true |- _ => apply negb_true_iff in H
  | H : negb _ = false |- _ => apply negb_false_iff in H
  | H : bool_decide _ = true |- _ => apply bool_decide_eq_true_1 in H
  | H : bool_decide _ = false |- _ => apply bool_decide_eq_false_1 in H
  | H : (_ <? _)%Z = true |- _ => apply Z.ltb_lt in H
  | H : (_ <? _)%Z = false |- _ => apply Z.ltb_ge in H
  | H : (_ <=? _)%Z = true |- _ => apply Z.leb_le in H
  | H : (_ <=? _)%Z = false |- _ => apply Z.leb_gt in H
  end.

(** ** Iteration over a [HashMap] or [DashMap]

    The order in which [HashMap::iter] yields the entries is unspecified; every
    entry comes exactly once.  Code that iterates is modelled against this
    interface, so its theorems hold for every order. *)

Class MapIter (K : Type) `{Countable K} := {
  map_iter : ∀ {V : Type}, gmap K V → list (K * V);
  map_iter_perm : ∀ {V : Type} (m : gmap K V), map_iter m ≡ₚ map_to_list m;
}.

(** One order the standard library may choose, used by the witnesses. *)
#[export] Instance map_iter_list (K : Type) `{Countable K} : MapIter K | 100 := {|
  map_iter V m := map_to_list m;
  map_iter_perm V m := reflexivity _;
|}.

Section map_iter.
Context `{Countable K} {MI : MapIter K} {V : Type}.
Implicit Types (m : gmap K V).

Lemma elem_of_map_iter m k v : (k, v) ∈ map_iter m ↔ m !! k = Some v.
Proof. rewrite (map_iter_perm m). apply elem_of_map_to_list. Qed.

Lemma NoDup_map_iter_fst m : NoDup (map_iter m).*1.
Proof. rewrite (map_iter_perm m). apply NoDup_fst_map_to_list. Qed.

Lemma NoDup_map_iter m : NoDup (map_iter m).
Proof. rewrite (map_iter_perm m). apply NoDup_map_to_list. Qed.

Lemma map_iter_keys m k : k ∈ (map_iter m).*1 ↔ is_Some (m !! k).
Proof.
  rewrite list_elem_of_fmap. split.
  - intros ([k' v] & -> & Hin). apply elem_of_map_iter in Hin. by exists v.
  - intros [v Hv]. exists (k, v). split; [done|]. by apply elem_of_map_iter.
Qed.
End map_iter.

(** Filtering a list of distinct keys keeps them distinct. *)
Lemma NoDup_fst_filter {K V} (P : K * V → Prop) `{∀ x, Decision (P x)} (l : list (K * V)) :
  NoDup l.*1 → NoDup (filter P l).*1.
Proof.
  induction l as [|[k v] l IH]; simpl; [done|]. intros [Hk Hnd]%NoDup_cons.
  rewrite filter_cons. case_decide; simpl; [|auto]. apply NoDup_cons. split; [|auto].
  intros ([k' v'] & -> & Hin)%list_elem_of_fmap. apply list_elem_of_filter in Hin as [_ Hin].
  apply Hk, list_elem_of_fmap. by eexists.
Qed.

#[export] Hint Resolve NoDup_map_iter NoDup_map_iter_fst : colony.

(** ** [Iterator::min_by_key]: the first of the minimal elements *)

Fixpoint min_by_key_from {A} (key : A → Z) (best : A) (l : list A) : A :=
  match l with
  | [] => best
  | x :: l' => min_by_key_from key (if (key x <? key best)%Z then x else best) l'
  end.

Definition min_by_key {A} (key : A → Z) (l : list A) : option A :=
  match l with
  | [] => None
  | x :: l' => Some (min_by_key_from key x l')
  end.

Lemma min_by_key_from_spec {A} (key : A → Z) best l :
  min_by_key_from key best l ∈ best :: l ∧
  (∀ y, y ∈ best :: l → key (min_by_key_from key best l) ≤ key y)%Z.
Proof.
  revert best. induction l as [|x l IH]; intros best; cbn [min_by_key_from].
  - split; [left|]. intros y [->|[]%not_elem_of_nil]%elem_of_cons. lia.
  - destruct (IH (if (key x <? key best)%Z then x else best)) as [Hin Hmin]. split.
    + destruct (key x <? key best)%Z; set_solver.
    + intros y Hy. destruct (Z.ltb_spec (key x) (key best)) as [Hlt|Hge].
      * apply elem_of_cons in Hy as [->|Hy]; [|by apply Hmin].
        etransitivity; [apply Hmin; left|lia].
      * apply elem_of_cons in Hy as [->|[->|Hy]%elem_of_cons].
        -- apply Hmin. left.
        -- etransitivity; [apply Hmin; left|lia].
        -- apply Hmin. by right.
Qed.

Lemma min_by_key_Some {A} (key : A → Z) l x :
  min_by_key key l = Some x → x ∈ l ∧ ∀ y, y ∈ l → (key x ≤ key y)%Z.
Proof. destruct l; simpl; [done|]. intros [= <-]. apply min_by_key_from_spec. Qed.

Lemma min_by_key_None {A} (key : A → Z) (l : list A) : min_by_key key l = None ↔ l = [].
Proof. by destruct l. Qed.

(** ** [slice::sort_by_key]: a stable sort *)

Fixpoint insert_by_key {A} (key : A → Z) (x : A) (l : list A) : list A :=
  match l with
  | [] => [x]
  | y :: l' => if (key x <=? key y)%Z then x :: y :: l' else y :: insert_by_key key x l'
  end.

Definition sort_by_key {A} (key : A → Z) (l : list A) : list A :=
  foldr (insert_by_key key) [] l.

Section sort_by_key.
Context {A : Type} (key : A → Z).

Definition key_le (x y : A) : Prop := (key x ≤ key y)%Z.

Lemma insert_by_key_perm x l : insert_by_key key x l ≡ₚ x :: l.
Proof.
  induction l as [|y l IH]; simpl; [done|]. case_match; [done|].
  rewrite IH. apply Permutation_swap.
Qed.

Lemma sort_by_key_perm l : sort_by_key key l ≡ₚ l.
Proof. induction l as [|x l IH]; simpl; [done|]. by rewrite insert_by_key_perm, IH. Qed.

Lemma sort_by_key_length l : length (sort_by_key key l) = length l.
Proof. apply Permutation_length, sort_by_key_perm. Qed.

Lemma insert_by_key_sorted x l :
  StronglySorted key_le l → StronglySorted key_le (insert_by_key key x l).
Proof.
  induction 1 as [|y l Hl IH Hy]; simpl; [repeat constructor|].
  destruct (Z.leb_spec (key x) (key y)) as [Hle|Hgt].
  - constructor; [by constructor|]. constructor; [done|].
    eapply Forall_impl; [exact Hy|]. unfold key_le. intros; simpl in *; lia.
  - constructor; [done|]. rewrite insert_by_key_perm. constructor; [unfold key_le; lia|done].
Qed.

Lemma sort_by_key_sorted l : StronglySorted key_le (sort_by_key key l).
Proof. induction l; simpl; [constructor|]. by apply insert_by_key_sorted. Qed.

(** Elements with equal keys keep their order. *)
Lemma insert_by_key_filter k x l :
  filter (λ y, key y = k) (insert_by_key key x l) = filter (λ y, key y = k) (x :: l).
Proof.
  induction l as [|y l IH]; simpl; [done|].
  destruct (Z.leb_spec (key x) (key y)) as [Hle|Hgt]; [done|].
  rewrite !filter_cons in *. rewrite IH.
  repeat case_decide; try done. lia.
Qed.

Lemma sort_by_key_stable k l :
  filter (λ y, key y = k) (sort_by_key key l) = filter (λ y, key y = k) l.
Proof.
  induction l as [|x l IH]; [done|]. simpl sort_by_key. rewrite insert_by_key_filter.
  rewrite !filter_cons. by rewrite IH.
Qed.

(** Sorting a sorted list changes nothing. *)
Lemma sort_by_key_id l : StronglySorted key_le l → sort_by_key key l = l.
Proof.
  induction 1 as [|x l Hl IH Hx]; simpl; [done|]. rewrite IH.
  destruct l as [|y l]; simpl; [done|]. apply Forall_cons in Hx as [Hx _].
  unfold key_le in Hx. by destruct (Z.leb_spec (key x) (key y)); [|lia].
Qed.

(** With distinct keys the result depends on the elements only. *)
Lemma sort_by_key_unique l l' :
  l ≡ₚ l' → NoDup (map key l) → sort_by_key key l = sort_by_key key l'.
Proof.
  intros Hp Hnd. eapply (StronglySorted_unique_strong key_le).
  - intros x y Hx Hy H1 H2. rewrite sort_by_key_perm in Hx. rewrite sort_by_key_perm, <-Hp in Hy.
    apply list_elem_of_lookup in Hx as [i Hi]. apply list_elem_of_lookup in Hy as [j Hj].
    assert (i = j) as ->; [|congruence].
    apply (NoDup_lookup (map key l) i j (key x)); [done|by rewrite list_lookup_fmap, Hi|].
    rewrite list_lookup_fmap, Hj. simpl. f_equal. unfold key_le in *. lia.
  - apply sort_by_key_sorted.
  - apply sort_by_key_sorted.
  - by rewrite !sort_by_key_perm.
Qed.
End sort_by_key.

(** ** Sums of [usize] over the entries of a map *)

Definition sum_with {A} (f : A → nat) (l : list A) : nat := foldr (λ x n, f x + n) 0 l.

Lemma sum_with_perm {A} (f : A → nat) l l' : l ≡ₚ l' → sum_with f l = sum_with f l'.
Proof. induction 1; simpl; lia. Qed.

Lemma sum_with_app {A} (f : A → nat) l l' : sum_with f (l ++ l') = sum_with f l + sum_with f l'.
Proof. induction l; simpl; lia. Qed.

Lemma sum_with_pos {A} (f : A → nat) l : 0 < sum_with f l ↔ ∃ x, x ∈ l ∧ 0 < f x.
Proof.
  induction l as [|x l IH]; simpl.
  - split; [lia|]. intros (? & []%not_elem_of_nil & _).
  - split.
    + intros H. destruct (decide (0 < f x)) as [Hx|Hx]; [exists x; set_solver|].
      destruct IH as [IH _]. destruct IH as (y & Hy & Hf); [lia|]. exists y. set_solver.
    + intros (y & [->|Hy]%elem_of_cons & Hf); [lia|].
      destruct IH as [_ IH]. enough (0 < sum_with f l) by lia. apply IH. eauto.
Qed.

(** ** Sums over a map *)

Definition zsum {K V} `{Countable K} (f : K → V → Z) (m : gmap K V) : Z := map_fold (λ k v n, f k v + n)%Z 0%Z m.

Section zsum.
Context {K V : Type} `{Countable K}.
Implicit Types (f g : K → V → Z) (m : gmap K V).
Local Open Scope Z_scope.

Lemma zsum_empty f : zsum f ∅ = 0.
Proof. apply map_fold_empty. Qed.

Lemma zsum_insert f m k v : m !! k = None → zsum f (<[k := v]> m) = f k v + zsum f m.
Proof. intros. unfold zsum. rewrite map_fold_insert_L; [done| |done]. intros. lia. Qed.

Lemma zsum_delete f m k v : m !! k = Some v → zsum f m = f k v + zsum f (delete k m).
Proof.
  intros Hk. rewrite <-(insert_delete_id m k v Hk) at 1. apply zsum_insert, lookup_delete_eq.
Qed.

Lemma zsum_replace f m k u v : m !! k = Some u → zsum f (<[k := v]> m) = zsum f m - f k u + f k v.
Proof.
  intros Hk. rewrite (zsum_delete f m k u Hk), <-insert_delete_eq, zsum_insert by apply lookup_delete_eq. lia.
Qed.

Lemma zsum_alter f m k u h : m !! k = Some u → zsum f (alter h k m) = zsum f m - f k u + f k (h u).
Proof.
  intros Hk. rewrite <-(zsum_replace f m k u (h u) Hk). f_equal. apply map_eq. intros j.
  destruct (decide (j = k)) as [->|].
  - by rewrite lookup_alter_eq, lookup_insert_eq, Hk.
  - by rewrite lookup_alter_ne, lookup_insert_ne by congruence.
Qed.

Lemma zsum_nonneg f m : (∀ k v, m !! k = Some v → 0 ≤ f k v) → 0 ≤ zsum f m.
Proof.
  induction m as [|k v m Hk IH] using map_ind; intros Hf; [by rewrite zsum_empty|].
  rewrite zsum_insert by done. specialize (Hf k v) as Hv. rewrite lookup_insert_eq in Hv.
  assert (0 ≤ zsum f m); [|specialize (Hv eq_refl); lia].
  apply IH. intros j w Hj. apply Hf. rewrite lookup_insert_ne; [done|congruence].
Qed.

End zsum.

Section zsum_compare.
Context {K V W : Type} `{Countable K}.
Implicit Types (f : K → V → Z) (g : K → W → Z) (m : gmap K V).
Local Open Scope Z_scope.

(** Sums compare where every key does; a key that is missing counts nothing. *)
Lemma zsum_mono f g m (m' : gmap K W) :
  (∀ k, default 0 (f k <$> m !! k) ≤ default 0 (g k <$> m' !! k)) → zsum f m ≤ zsum g m'.
Proof.
  revert m'. induction m as [|k v m Hk IH] using map_ind; intros m' Hle.
  - rewrite zsum_empty.
    induction m' as [|k w m' Hk IH] using map_ind; [by rewrite zsum_empty|].
    rewrite zsum_insert by done. pose proof (Hle k) as Hw. rewrite lookup_empty, lookup_insert_eq in Hw. simpl in Hw.
    assert (0 ≤ zsum g m'); [|lia]. apply IH. intros j. specialize (Hle j).
    destruct (decide (j = k)) as [->|]; [by rewrite Hk|by rewrite lookup_insert_ne in Hle by congruence].
  - rewrite zsum_insert by done. pose proof (Hle k) as Hv. rewrite lookup_insert_eq in Hv. simpl in Hv.
    assert (zsum f m ≤ zsum g (delete k m')).
    { apply IH. intros j. specialize (Hle j). destruct (decide (j = k)) as [->|].
      - by rewrite Hk, lookup_delete_eq.
      - by rewrite lookup_insert_ne in Hle by congruence; rewrite lookup_delete_ne by congruence. }
    destruct (m' !! k) as [w|] eqn:Hw; simpl in Hv.
    + rewrite (zsum_delete g m' k w) by done. lia.
    + rewrite (delete_id m' k Hw) in *. lia.
Qed.

End zsum_compare.

Lemma zsum_agree {K V W} `{Countable K} (f : K → V → Z) (g : K → W → Z) (m : gmap K V) (m' : gmap K W) :
  (∀ k, default 0%Z (f k <$> m !! k) = default 0%Z (g k <$> m' !! k)) → zsum f m = zsum g m'.
Proof. intros Heq. apply Z.le_antisymm; apply zsum_mono; intros k; by rewrite (Heq k). Qed.

Lemma list_filter_all {A} (P : A → Prop) `{∀ x, Decision (P x)} (l : list A) :
  Forall P l → filter P l = l.
Proof. induction 1; [done|]. rewrite filter_cons, decide_True by done. by f_equal. Qed.
