(* ===== verification/Text.v ===== *)
(** * Text: the [str] methods the components share

    A string is its UTF-8 bytes, so [len()] is [String.length]; the separators
    the code looks for are ASCII. *)

From stdpp Require Import base strings list sorting.
From Stdlib Require Import ZArith NArith Ascii Lia.
From S2P Require Import Prelude.

Local Open Scope string_scope.
Local Open Scope list_scope.

(** [s.split(c).collect()] *)
Fixpoint split_on (sep : ascii) (s : string) : list string :=
  match s with
  | EmptyString => [""]
  | String c s' =>
      if bool_decide (c = sep) then "" :: split_on sep s'
      else match split_on sep s' with
           | [] => [String c ""]
           | part :: parts => String c part :: parts
           end
  end.

(** [s.split_once(c)] *)
Fixpoint split_once (sep : ascii) (s : string) : option (string * string) :=
  match s with
  | EmptyString => None
  | String c s' =>
      if bool_decide (c = sep) then Some ("", s')
      else '(a, b) ← split_once sep s'; Some (String c a, b)
  end.

(** [parts.join(c)] *)
Fixpoint join_on (sep : ascii) (parts : list string) : string :=
  match parts with
  | [] => ""
  | [p] => p
  | p :: ps => p +:+ String sep (join_on sep ps)
  end.

Fixpoint string_contains (c : ascii) (s : string) : bool :=
  match s with
  | EmptyString => false
  | String d s' => bool_decide (d = c) || string_contains c s'
  end.

Fixpoint chars_all (p : ascii → bool) (s : string) : bool :=
  match s with
  | EmptyString => true
  | String c s' => p c && chars_all p s'
  end.

(** [s.strip_prefix(p)] *)
Fixpoint strip_prefix (p s : string) : option string :=
  match p, s with
  | EmptyString, _ => Some s
  | String c p', String d s' => if bool_decide (c = d) then strip_prefix p' s' else None
  | String _ _, EmptyString => None
  end.

(** [c.is_ascii_hexdigit()] *)
Definition is_ascii_hexdigit (c : ascii) : bool :=
  let n := nat_of_ascii c in
  ((48 <=? n) && (n <=? 57) || (65 <=? n) && (n <=? 70) || (97 <=? n) && (n <=? 102))%nat.

Definition is_ascii_alphanumeric (c : ascii) : bool :=
  let n := nat_of_ascii c in
  ((48 <=? n) && (n <=? 57) || (65 <=? n) && (n <=? 90) || (97 <=? n) && (n <=? 122))%nat.

(** [a.starts_with(b)] *)
Fixpoint starts_with (a b : string) : bool :=
  match b, a with
  | EmptyString, _ => true
  | String c b', String d a' => bool_decide (c = d) && starts_with a' b'
  | String _ _, EmptyString => false
  end.

(** [s.contains(pat)] *)
Fixpoint str_contains (s pat : string) : bool :=
  starts_with s pat ||
  match s with EmptyString => false | String _ s' => str_contains s' pat end.

(** [s.strip_suffix(suf)] *)
Fixpoint strip_suffix (suf s : string) : option string :=
  if bool_decide (s = suf) then Some ""
  else match s with EmptyString => None | String c s' => String c <$> strip_suffix suf s' end.

Definition ends_with (s suf : string) : bool := bool_decide (is_Some (strip_suffix suf s)).

(** [s.trim()]: the UTF-8 bytes of the characters that are [White_Space]. *)
Definition white_space : list (list ascii) :=
  map (map ascii_of_nat)
    ([[9]; [10]; [11]; [12]; [13]; [32]; [194; 133]; [194; 160]; [225; 154; 128]]
     ++ map (λ n, [226; 128; n]) (seq 128 11 ++ [168; 169; 175]) ++ [[226; 129; 159]; [227; 128; 128]])%nat.

Fixpoint drop_first (fuel : nat) (pats : list (list ascii)) (l : list ascii) : list ascii :=
  match fuel with
  | O => l
  | S fuel' =>
      match find (λ p, bool_decide (p `prefix_of` l)) pats with
      | Some p => drop_first fuel' pats (drop (length p) l)
      | None => l
      end
  end.

Definition trim (s : string) : string :=
  let l := drop_first (String.length s) white_space (String.list_ascii_of_string s) in
  String.string_of_list_ascii
    (reverse (drop_first (length l) (reverse <$> white_space) (reverse l))).

(** [s.to_ascii_lowercase()] *)
Definition lower_char (c : ascii) : ascii :=
  let n := nat_of_ascii c in
  if ((65 <=? n) && (n <=? 90))%nat then ascii_of_nat (n + 32) else c.

Fixpoint to_ascii_lowercase (s : string) : string :=
  match s with
  | EmptyString => EmptyString
  | String c s' => String (lower_char c) (to_ascii_lowercase s')
  end.

(** Whether bytes are UTF-8, as [std::str::from_utf8] decides it. *)
Fixpoint utf8_ok (l : list nat) : bool :=
  let cont x := ((128 <=? x) && (x <=? 191))%nat in
  match l with
  | [] => true
  | a :: l1 =>
      if (a <? 128)%nat then utf8_ok l1
      else
        match l1 with
        | [] => false
        | b :: l2 =>
            if ((194 <=? a) && (a <=? 223))%nat then cont b && utf8_ok l2
            else
              match l2 with
              | [] => false
              | c :: l3 =>
                  if ((224 <=? a) && (a <=? 239))%nat then
                    cont b && cont c && negb ((a =? 224) && (b <? 160))%nat
                    && negb ((a =? 237) && (160 <=? b))%nat && utf8_ok l3
                  else
                    match l3 with
                    | [] => false
                    | d :: l4 =>
                        ((240 <=? a) && (a <=? 244))%nat && cont b && cont c && cont d
                        && negb ((a =? 240) && (b <? 144))%nat
                        && negb ((a =? 244) && (144 <=? b))%nat && utf8_ok l4
                    end
              end
        end
  end.
Definition from_utf8 (s : string) : option string :=
  if utf8_ok (map nat_of_ascii (String.list_ascii_of_string s)) then Some s else None.

(** [s.lines()] *)
Definition lines (s : string) : list string :=
  let parts := split_on (ascii_of_nat 10) s in
  let parts := if bool_decide (last parts = Some "") then removelast parts else parts in
  map (λ l, default l (strip_suffix (String (ascii_of_nat 13) "") l)) parts.

(** [s.parse::<u32>()]: an optional plus sign, then digits, no overflow. *)
Definition u32_max : N := 4294967295.

Fixpoint parse_digits (acc : N) (s : string) : option N :=
  match s with
  | EmptyString => Some acc
  | String c s' =>
      let n := N_of_ascii c in
      if ((48 <=? n) && (n <=? 57))%N then
        let acc := (acc * 10 + (n - 48))%N in
        if (acc <=? u32_max)%N then parse_digits acc s' else None
      else None
  end.

Definition parse_u32 (s : string) : option N :=
  match (match s with String "+"%char s' => s' | _ => s end) with
  | EmptyString => None
  | digits => parse_digits 0 digits
  end.

(** [s.parse::<u64>()] *)
Definition U64_MAX : N := 18446744073709551615.

Fixpoint parse_digits_u64 (acc : N) (s : string) : option N :=
  match s with
  | EmptyString => Some acc
  | String c s' =>
      let n := N_of_ascii c in
      if ((48 <=? n) && (n <=? 57))%N then
        let acc := (acc * 10 + (n - 48))%N in
        if (acc <=? U64_MAX)%N then parse_digits_u64 acc s' else None
      else None
  end.

Definition parse_u64 (s : string) : option N :=
  match (match s with String "+"%char s' => s' | _ => s end) with
  | EmptyString => None
  | digits => parse_digits_u64 0 digits
  end.

(** [n.to_string()]: the digits of [n] before [acc]. *)
Fixpoint decimal_digits (fuel : nat) (n : N) (acc : string) : string :=
  let acc := String (ascii_of_N (48 + n mod 10)) acc in
  match fuel with
  | O => acc
  | S fuel => if (n / 10 =? 0)%N then acc else decimal_digits fuel (n / 10) acc
  end.
Definition decimal (n : N) : string := decimal_digits (N.size_nat n) n "".

(** ** Lemmas *)

Lemma string_app_cons c (a b : string) : String c a +:+ b = String c (a +:+ b).
Proof. done. Qed.

Lemma string_app_assoc (a b c : string) : a +:+ (b +:+ c) = (a +:+ b) +:+ c.
Proof. induction a as [|x a IH]; [done|]. by rewrite !string_app_cons, IH. Qed.

Lemma string_app_nil (a : string) : a +:+ "" = a.
Proof. induction a as [|x a IH]; [done|]. by rewrite string_app_cons, IH. Qed.

Lemma string_length_app (a b : string) :
  String.length (a +:+ b) = (String.length a + String.length b)%nat.
Proof. induction a as [|x a IH]; [done|]. rewrite string_app_cons. simpl. by rewrite IH. Qed.

Lemma string_app_inj (a b c d : string) :
  String.length a = String.length c → a +:+ b = c +:+ d → a = c ∧ b = d.
Proof.
  revert c. induction a as [|x a IH]; intros [|y c] Hlen Heq; [done..|]. injection Hlen as Hlen.
  rewrite !string_app_cons in Heq. injection Heq as -> Heq. by apply IH in Heq as [-> ->].
Qed.

Lemma starts_with_refl a : starts_with a a = true.
Proof. induction a as [|c a IH]; simpl; [done|]. by rewrite bool_decide_eq_true_2, IH. Qed.

Lemma starts_with_app a b : starts_with a b = true ↔ ∃ t, a = (b +:+ t)%string.
Proof.
  revert a. induction b as [|c b IH]; intros a; simpl.
  - split; [by eexists|by destruct a].
  - destruct a as [|d a]; [split; [done|by intros [? [=]]]|].
    simpl. rewrite andb_true_iff, bool_decide_eq_true, IH. split.
    + intros [-> [t ->]]. by exists t.
    + intros [t [= -> ->]]. eauto.
Qed.

(** A prefix of the same length is the whole string. *)
Lemma starts_with_same_length a b :
  String.length a = String.length b → starts_with a b = bool_decide (a = b).
Proof.
  revert a. induction b as [|c b IH]; intros [|d a] Hlen; simplify_eq/=; [done|].
  rewrite IH by lia. repeat case_bool_decide; simplify_eq/=; done.
Qed.

Lemma strip_prefix_Some p s t : strip_prefix p s = Some t ↔ s = p +:+ t.
Proof.
  revert s. induction p as [|c p IH]; intros s.
  - change ("" +:+ t) with t. simpl. split; congruence.
  - change (String c p +:+ t) with (String c (p +:+ t)). destruct s as [|d s]; simpl; [done|].
    case_bool_decide; subst; [|split; congruence]. rewrite IH. split; congruence.
Qed.

Lemma drop_first_id (ok : ascii → bool) fuel pats l :
  forallb (λ p, match p with c :: _ => negb (ok c) | [] => false end) pats = true →
  Forall (λ c, ok c = true) l → drop_first fuel pats l = l.
Proof.
  intros Hp Hl. destruct fuel as [|fuel]; [done|]. simpl. destruct (find _ pats) as [p|] eqn:Hf; [|done].
  apply find_some in Hf as [Hin [l' ->]%bool_decide_eq_true]. rewrite forallb_forall in Hp.
  specialize (Hp p Hin). destruct p as [|c p]; [done|]. inversion Hl as [|?? Hc]. by rewrite Hc in Hp.
Qed.

Lemma chars_all_list p s : chars_all p s = true → Forall (λ c, p c = true) (String.list_ascii_of_string s).
Proof. induction s as [|c s IH]; simpl; [constructor|]. intros [? ?]%andb_true_iff. constructor; auto. Qed.

(** Text of hexadecimal digits has nothing to trim. *)
Lemma trim_hex s : chars_all is_ascii_hexdigit s = true → trim s = s.
Proof.
  intros Hs%chars_all_list. unfold trim. rewrite (drop_first_id is_ascii_hexdigit _ white_space) by done.
  rewrite (drop_first_id is_ascii_hexdigit); [|by vm_compute|by apply Forall_reverse].
  by rewrite reverse_involutive, String.string_of_list_ascii_of_string.
Qed.

Lemma chars_all_impl (p q : ascii → bool) s :
  (∀ c, p c = true → q c = true) → chars_all p s = true → chars_all q s = true.
Proof.
  intros Hpq. induction s as [|c s IH]; simpl; [done|].
  intros [Hc Hs]%andb_true_iff. by rewrite Hpq, IH.
Qed.

Lemma chars_all_contains p c s :
  p c = false → chars_all p s = true → string_contains c s = false.
Proof.
  intros Hc. induction s as [|d s IH]; simpl; [done|]. intros [Hd Hs]%andb_true_iff.
  apply orb_false_iff. split; [|by apply IH]. apply bool_decide_eq_false_2. intros ->. congruence.
Qed.

Lemma string_contains_app c a b :
  string_contains c (a +:+ b) = string_contains c a || string_contains c b.
Proof.
  induction a as [|d a IH]; [done|]. rewrite string_app_cons. simpl. by rewrite IH, orb_assoc.
Qed.

Section split.
Context (sep : ascii).

Lemma split_on_ne s : split_on sep s ≠ [].
Proof. destruct s as [|c s]; simpl; [done|]. case_bool_decide; [done|]. by case_match. Qed.

Lemma split_on_cons c s :
  c ≠ sep → ∃ p ps, split_on sep s = p :: ps ∧ split_on sep (String c s) = String c p :: ps.
Proof.
  intros Hc. simpl. rewrite bool_decide_eq_false_2 by done.
  destruct (split_on sep s) as [|p ps] eqn:E; [by apply split_on_ne in E|]. eauto.
Qed.

Lemma join_split_on s : join_on sep (split_on sep s) = s.
Proof.
  induction s as [|c s IH]; [done|]. destruct (decide (c = sep)) as [->|Hc].
  - simpl. rewrite bool_decide_eq_true_2 by done.
    destruct (split_on sep s) eqn:E; [by apply split_on_ne in E|].
    cbn in IH |- *. by rewrite <-IH.
  - destruct (split_on_cons c s Hc) as (p & ps & E & ->). rewrite E in IH.
    rewrite <-IH. by destruct ps.
Qed.

Lemma split_on_none p : string_contains sep p = false → split_on sep p = [p].
Proof.
  induction p as [|c p IH]; [done|]. simpl. intros [Hc Hp]%orb_false_iff.
  rewrite Hc, IH by done. done.
Qed.

Lemma split_on_app p t :
  string_contains sep p = false → split_on sep (p +:+ String sep t) = p :: split_on sep t.
Proof.
  induction p as [|c p IH]; simpl.
  - intros _. by rewrite bool_decide_eq_true_2.
  - intros [Hc Hp]%orb_false_iff. by rewrite Hc, IH by done.
Qed.

Lemma split_on_join parts :
  parts ≠ [] → Forall (λ p, string_contains sep p = false) parts →
  split_on sep (join_on sep parts) = parts.
Proof.
  intros Hne Hall. induction Hall as [|p ps Hp Hps IH]; [done|].
  destruct ps as [|p' ps]; [by apply split_on_none|].
  change (join_on sep (p :: p' :: ps)) with (p +:+ String sep (join_on sep (p' :: ps))).
  by rewrite split_on_app, IH.
Qed.

Lemma split_once_app p t :
  string_contains sep p = false → split_once sep (p +:+ String sep t) = Some (p, t).
Proof.
  induction p as [|c p IH]; simpl.
  - intros _. by rewrite bool_decide_eq_true_2.
  - intros [Hc Hp]%orb_false_iff. by rewrite Hc, IH by done.
Qed.
End split.

(** ** Sorting by a string key *)

(** [sort_by_key(|x| key(x))] for a string key *)
Definition by_id {A} (f : A → string) : relation A := λ a b, String.le (f a) (f b).
#[export] Instance by_id_dec {A} (f : A → string) : RelDecision (by_id f).
Proof. intros a b. unfold by_id. apply _. Defined.
#[export] Instance by_id_trans {A} (f : A → string) : Transitive (by_id f).
Proof. intros a b c. unfold by_id. by intros ->. Qed.
#[export] Instance by_id_total {A} (f : A → string) : Total (by_id f).
Proof. intros a b. unfold by_id. apply (total String.le). Qed.

Lemma sort_by_id_perm {A} (f : A → string) l l' :
  l ≡ₚ l' → NoDup (f <$> l) → merge_sort (by_id f) l = merge_sort (by_id f) l'.
Proof.
  intros Hp Hnd. eapply (StronglySorted_unique_strong (by_id f)).
  - intros x y. rewrite !merge_sort_Permutation, <-Hp. intros [i Hi]%list_elem_of_lookup [j Hj]%list_elem_of_lookup H1 H2.
    assert (f x = f y) as Hf by (by apply (anti_symm String.le)).
    assert (i = j) as ->; [|congruence].
    apply (NoDup_lookup _ i j (f x) Hnd); rewrite list_lookup_fmap; [by rewrite Hi|by rewrite Hj, Hf].
  - apply StronglySorted_merge_sort; apply _.
  - apply StronglySorted_merge_sort; apply _.
  - by rewrite !merge_sort_Permutation.
Qed.

Lemma lower_char_idem c : lower_char (lower_char c) = lower_char c.
Proof. by destruct c as [[] [] [] [] [] [] [] []]. Qed.

Lemma to_ascii_lowercase_idem s : to_ascii_lowercase (to_ascii_lowercase s) = to_ascii_lowercase s.
Proof. induction s as [|c s IH]; simpl; [done|]. by rewrite lower_char_idem, IH. Qed.

(** *** Numbers *)

Lemma parse_digit a n acc :
  (n < 10)%N → (a * 10 + n <= U64_MAX)%N →
  parse_digits_u64 a (String (ascii_of_N (48 + n)) acc) = parse_digits_u64 (a * 10 + n) acc.
Proof.
  intros Hn Hmax. cbn [parse_digits_u64]. rewrite N_ascii_embedding by lia.
  replace ((48 <=? 48 + n) && (48 + n <=? 57))%N with true by (symmetry; apply andb_true_iff; rewrite !N.leb_le; lia).
  replace (48 + n - 48)%N with n by lia. by apply N.leb_le in Hmax as ->.
Qed.

Lemma parse_decimal_digits fuel n acc :
  (n < 2 ^ N.of_nat fuel)%N → (n <= U64_MAX)%N →
  parse_digits_u64 0 (decimal_digits fuel n acc) = parse_digits_u64 n acc.
Proof.
  revert n acc. induction fuel as [|fuel IH]; intros n acc Hn Hmax.
  - assert (n = 0)%N as -> by (simpl in Hn; lia). by apply (parse_digit 0 0).
  - cbn [decimal_digits]. pose proof (N.div_mod n 10 ltac:(lia)) as Hdm. pose proof (N.mod_lt n 10 ltac:(lia)) as Hlt.
    rewrite Nat2N.inj_succ, N.pow_succ_r' in Hn.
    set (q := (n / 10)%N) in *. set (r := (n mod 10)%N) in *. clearbody q r. subst n.
    destruct (N.eqb_spec q 0) as [->|Hnz]; [|rewrite IH by lia]; rewrite parse_digit by lia; f_equal; lia.
Qed.

Lemma decimal_nonempty fuel n acc : ∃ m s, (m < 10)%N ∧ decimal_digits fuel n acc = String (ascii_of_N (48 + m)) s.
Proof.
  revert n acc. induction fuel as [|fuel IH]; intros n acc; cbn [decimal_digits].
  - eexists _, _. split; [|done]. apply N.mod_lt. lia.
  - destruct (_ =? _)%N; [|apply IH]. eexists _, _. split; [|done]. apply N.mod_lt. lia.
Qed.

Lemma of_nat_size n : N.of_nat (N.size_nat n) = N.size n.
Proof.
  destruct n as [|p]; [done|]. simpl. induction p as [p IH|p IH|]; [| |done];
    cbn [Pos.size_nat Pos.size]; rewrite Nat2N.inj_succ, IH; by rewrite <-N.succ_pos_spec.
Qed.

Lemma parse_decimal n : (n <= U64_MAX)%N → parse_u64 (decimal n) = Some n.
Proof.
  intros Hn. unfold parse_u64. destruct (decimal_nonempty (N.size_nat n) n "") as (m & s & Hm & Heq).
  assert (match decimal n with String "+"%char s' => s' | _ => decimal n end = decimal n) as ->.
  { unfold decimal. rewrite Heq. do 10 (destruct m as [|m] using N.peano_ind; [done|clear IHm]). lia. }
  unfold decimal. rewrite Heq, <-Heq. rewrite parse_decimal_digits; [done| |done].
  rewrite of_nat_size. apply N.size_gt.
Qed.
