(* ===== verification/Nostr.v ===== *)
(** * Nostr data as the relay reads it

    Events, tags and filters are types of the third-party [nostr] crate; the
    code reads them only through accessors, so the records below hold exactly
    what those accessors return.  [Event::id] is its [to_hex()] text (64
    lowercase hex digits), [PublicKey] its hex text, [Kind] its [u16] number,
    timestamps are seconds ([u64]); a [Uuid] is its canonical text form, the
    only thing besides equality the code observes.  A [BTreeSet] or [BTreeMap]
    of a filter is the list of its entries. *)

From stdpp Require Import base gmap strings list.
From Stdlib Require Import ZArith Ascii.
From S2P Require Import Prelude.

Abbreviation Uuid := string.
Abbreviation CommunityId := Uuid.
Abbreviation Kind := Z.

(** A tag: [tag.as_slice()], [tag.kind().to_string()] and [tag.content()]. *)
Record Tag : Type := MkTag {
  tag_slice : list string;
  tag_kind : string;
  tag_content : option string;
}.

Record Event : Type := MkEvent {
  ev_id : string;
  ev_pubkey : string;
  ev_created_at : Z;
  ev_kind : Kind;
  ev_tags : list Tag;
  ev_text : string;
}.

Record StoredEvent : Type := MkStored {
  event : Event;
  channel_id : option Uuid;
}.

(** [nostr::Filter]: the keys of [generic_tags] are the tag letters. *)
Record Filter : Type := MkFilter {
  f_ids : option (list string);
  f_authors : option (list string);
  f_kinds : option (list Kind);
  f_since : option Z;
  f_until : option Z;
  f_generic_tags : list (string * list string);
}.

#[export] Instance Tag_eq_dec : EqDecision Tag.
Proof. solve_decision. Defined.
#[export] Instance Event_eq_dec : EqDecision Event.
Proof. solve_decision. Defined.
#[export] Instance Filter_eq_dec : EqDecision Filter.
Proof. solve_decision. Defined.

(** The unconstrained filter, [Filter::new()]. *)
Definition filter_new : Filter := MkFilter None None None None None [].

(** [generic_tags.get(letter)] *)
Fixpoint tags_get (letter : string) (l : list (string * list string)) : option (list string) :=
  match l with
  | [] => None
  | (k, vs) :: l' => if bool_decide (k = letter) then Some vs else tags_get letter l'
  end.

Lemma tags_get_in letter l vs : tags_get letter l = Some vs → (letter, vs) ∈ l.
Proof.
  induction l as [|[k ws] l IH]; simpl; [done|].
  case_bool_decide; [|intros; right; by apply IH].
  intros [= ->]. subst. left.
Qed.
