(* ===== verification/Scope.v ===== *)
(** * Session scopes and NIP-10 threads

    [crates/buzz-core/src/nip10.rs] (thread markers), [parse_thread_tags] of
    [crates/buzz-acp/src/queue.rs] and [crates/buzz-acp/src/scope.rs]
    (the key of an agent session).  Strings are their UTF-8 bytes; the code
    looks at ASCII characters only. *)

From stdpp Require Import base gmap strings list.
From Stdlib Require Import ZArith Ascii.
From S2P Require Import Prelude Text Nostr.

Local Open Scope string_scope.
Local Open Scope list_scope.

(** ** NIP-10 markers *)

Record ThreadMarkers : Type := MkMarkers {
  root : option string;
  reply : option string;
}.

Definition resolve (m : ThreadMarkers) : option (string * string) :=
  match root m, reply m with
  | Some r, Some p => Some (r, p)
  | None, Some p => Some (p, p)
  | Some _, None | None, None => None
  end.

Fixpoint string_all (p : ascii → bool) (s : string) : bool :=
  match s with
  | EmptyString => true
  | String c s' => p c && string_all p s'
  end.

Definition is_event_id_hex (id : string) : bool :=
  bool_decide (String.length id = 64%nat) && string_all is_ascii_hexdigit id.

(** One turn of the loop: [parts.len() >= 4] makes the three indexings total. *)
Definition parse_marker (markers : ThreadMarkers) (parts : list string) : ThreadMarkers :=
  match parts with
  | name :: id :: _ :: marker :: _ =>
      if bool_decide (name = "e") && is_event_id_hex id then
        if bool_decide (marker = "root") then MkMarkers (Some id) (reply markers)
        else if bool_decide (marker = "reply") then MkMarkers (root markers) (Some id)
        else markers
      else markers
  | _ => markers
  end.

Definition parse_thread_markers_from_parts (tags : list (list string)) : ThreadMarkers :=
  fold_left parse_marker tags (MkMarkers None None).

Definition parse_thread_markers (tags : list Tag) : ThreadMarkers :=
  parse_thread_markers_from_parts (map tag_slice tags).

(** ** [parse_thread_tags] *)

Record ThreadTags : Type := MkThreadTags {
  root_event_id : option string;
  parent_event_id : option string;
  mentioned_pubkeys : list string;
}.

Definition mention_of (tag : Tag) : option string :=
  match tag_slice tag with
  | name :: value :: _ => if bool_decide (name = "p") then Some value else None
  | _ => None
  end.

Definition parse_thread_tags (ev : Event) : ThreadTags :=
  let markers := parse_thread_markers (ev_tags ev) in
  let mentions := omap mention_of (ev_tags ev) in
  match resolve markers with
  | Some (r, p) => MkThreadTags (Some r) (Some p) mentions
  | None => MkThreadTags None None mentions
  end.

(** ** Session scopes *)

Inductive SessionPolicy : Type := PolicyChannel | PolicyThread.

Inductive SessionScope : Type :=
  | Conversation (channel : Uuid)
  | Thread (channel : Uuid) (root_id : string).

#[export] Instance SessionPolicy_eq_dec : EqDecision SessionPolicy.
Proof. solve_decision. Defined.
#[export] Instance SessionScope_eq_dec : EqDecision SessionScope.
Proof. solve_decision. Defined.
#[export] Instance SessionScope_countable : Countable SessionScope.
Proof.
  apply (inj_countable'
    (λ s, match s with Conversation c => (c, None) | Thread c r => (c, Some r) end)
    (λ p, match p.2 with None => Conversation p.1 | Some r => Thread p.1 r end)).
  by intros [].
Defined.

Definition scope_channel (s : SessionScope) : Uuid :=
  match s with Conversation c => c | Thread c _ => c end.

Definition scope_root_event_id (s : SessionScope) : option string :=
  match s with Conversation _ => None | Thread _ r => Some r end.

Definition is_thread (s : SessionScope) : bool :=
  match s with Thread _ _ => true | Conversation _ => false end.

Definition derive (policy : SessionPolicy) (channel : Uuid) (is_dm : bool) (ev : Event)
    : SessionScope :=
  if is_dm || bool_decide (policy = PolicyChannel) then Conversation channel
  else
    let r := match root_event_id (parse_thread_tags ev) with
             | Some r => r
             | None => ev_id ev
             end in
    Thread channel (to_ascii_lowercase r).

(** ** What the markers mean *)

(** The id a tag contributes as a marker named [name]. *)
Definition marker_id (name : string) (parts : list string) : option string :=
  match parts with
  | tag :: id :: _ :: marker :: _ =>
      if bool_decide (tag = "e") && is_event_id_hex id && bool_decide (marker = name)
      then Some id else None
  | _ => None
  end.

(** The last valid [name] marker of an event. *)
Definition last_marker (name : string) (tags : list Tag) : option string :=
  last (omap (marker_id name) (map tag_slice tags)).

Lemma parse_marker_root m parts :
  root (parse_marker m parts) =
  match marker_id "root" parts with Some i => Some i | None => root m end.
Proof.
  unfold parse_marker, marker_id.
  destruct parts as [|t [|i [|w [|k ?]]]]; try done.
  repeat case_bool_decide; subst; simpl; try done; by destruct (is_event_id_hex i).
Qed.

Lemma parse_marker_reply m parts :
  reply (parse_marker m parts) =
  match marker_id "reply" parts with Some i => Some i | None => reply m end.
Proof.
  unfold parse_marker, marker_id.
  destruct parts as [|t [|i [|w [|k ?]]]]; try done.
  repeat case_bool_decide; subst; simpl; try done; by destruct (is_event_id_hex i).
Qed.

Lemma last_cons_default {A} (x : A) l : last (x :: l) = Some (default x (last l)).
Proof. rewrite last_cons. by destruct (last l). Qed.

Lemma last_marker_step {A B} (f : A → option B) x l (d : option B) :
  default d (Some <$> last (omap f (x :: l))) =
  default (match f x with Some i => Some i | None => d end) (Some <$> last (omap f l)).
Proof.
  change (omap f (x :: l)) with (match f x with Some y => y :: omap f l | None => omap f l end).
  destruct (f x); [|done]. rewrite last_cons_default. by destruct (last (omap f l)).
Qed.

Lemma fold_markers tags m :
  fold_left parse_marker tags m =
  MkMarkers (default (root m) (Some <$> last (omap (marker_id "root") tags)))
            (default (reply m) (Some <$> last (omap (marker_id "reply") tags))).
Proof.
  revert m. induction tags as [|t tags IH]; intros m; [by destruct m|].
  cbn [fold_left]. by rewrite IH, parse_marker_root, parse_marker_reply, !last_marker_step.
Qed.

Lemma parse_thread_markers_last tags :
  parse_thread_markers tags = MkMarkers (last_marker "root" tags) (last_marker "reply" tags).
Proof.
  unfold parse_thread_markers, parse_thread_markers_from_parts. rewrite fold_markers.
  unfold last_marker. simpl. f_equal; by destruct (last _).
Qed.

(** An event is a reply when it has a valid [reply] marker; its thread is named
    by the last valid [root] marker, else by the [reply] marker. *)
Definition thread_of (ev : Event) : string :=
  match last_marker "reply" (ev_tags ev) with
  | None => ev_id ev
  | Some p => default p (last_marker "root" (ev_tags ev))
  end.

Lemma root_event_id_thread ev :
  default (ev_id ev) (root_event_id (parse_thread_tags ev)) = thread_of ev.
Proof.
  unfold parse_thread_tags, thread_of, resolve. rewrite parse_thread_markers_last. simpl.
  by destruct (last_marker "root" _), (last_marker "reply" _).
Qed.

Lemma derive_thread_of channel ev :
  derive PolicyThread channel false ev = Thread channel (to_ascii_lowercase (thread_of ev)).
Proof.
  unfold derive. rewrite bool_decide_eq_false_2 by done. simpl.
  rewrite <-root_event_id_thread. by destruct (root_event_id _).
Qed.

(** The session of an admitted event: a conversation for direct messages
    and under the channel policy, otherwise the thread named by the last valid
    [root] marker of a reply (its [reply] marker when it has none) and by the
    event itself when it is not a reply, with letter case normalised. *)
Theorem derive_spec (policy : SessionPolicy) (channel : Uuid) (is_dm : bool) (ev : Event) :
  derive policy channel is_dm ev =
  (if is_dm then Conversation channel
   else match policy with
        | PolicyChannel => Conversation channel
        | PolicyThread =>
            Thread channel (to_ascii_lowercase
              (match last_marker "reply" (ev_tags ev), last_marker "root" (ev_tags ev) with
               | None, _ => ev_id ev
               | Some _, Some r => r
               | Some p, None => p
               end))
        end)
  ∧ scope_channel (derive policy channel is_dm ev) = channel.
Proof.
  split.
  - destruct is_dm, policy; try done. rewrite derive_thread_of. unfold thread_of.
    by destruct (last_marker "reply" (ev_tags ev)), (last_marker "root" (ev_tags ev)).
  - unfold derive. by case_match.
Qed.

(** A reply lands in the session of the event it answers: with the thread
    policy, a reply whose markers name a top-level event - whatever the letter
    case the client wrote the id in - is given that event's scope. *)
Theorem reply_joins_thread (channel : Uuid) (top rep : Event) (p : string)
    (Htop : last_marker "reply" (ev_tags top) = None)
    (Hrep : last_marker "reply" (ev_tags rep) = Some p)
    (Hroot : to_ascii_lowercase (default p (last_marker "root" (ev_tags rep))) =
             to_ascii_lowercase (ev_id top)) :
  derive PolicyThread channel false rep = derive PolicyThread channel false top.
Proof. rewrite !derive_thread_of. unfold thread_of. by rewrite Htop, Hrep, Hroot. Qed.

Definition hex_id (c : ascii) : string := String.string_of_list_ascii (repeat c 64).

Lemma reply_joins_thread_witness :
  let top := MkEvent (hex_id "a"%char) "alice" 1 9 [] "hi" in
  let rep := MkEvent (hex_id "c"%char) "bob" 2 9
    [MkTag ["e"; hex_id "A"%char; ""; "reply"] "e" (Some (hex_id "A"%char))] "hello" in
  derive PolicyThread "ch" false rep = derive PolicyThread "ch" false top.
Proof.
  intros top rep. apply (reply_joins_thread "ch" top rep (hex_id "A"%char));
    vm_compute; reflexivity.
Defined.
