(* ===== verification/Filter.v ===== *)
(** * NIP-01 filter matching ([crates/buzz-core/src/filter.rs])

    Filters are OR-ed, the fields of one filter are AND-ed, and a [#h]
    constraint falls back to the stored channel of an event that carries no
    [h] tag.  [filters_match] is the executable translation; [matches] is the
    declarative specification it is proved against. *)

From stdpp Require Import base gmap strings list.
From Stdlib Require Import ZArith Ascii.
From S2P Require Import Prelude Text Nostr.

Local Open Scope string_scope.
Local Open Scope list_scope.

Definition KIND_DM_VISIBILITY : Z := 30622.
Definition KIND_AGENT_TURN_METRIC : Z := 44200.

(** [ids.iter().any(|id| event_id_hex.starts_with(&id.to_hex()))] *)
Definition ids_match (ids : list string) (event_id_hex : string) : bool :=
  existsb (λ id, starts_with event_id_hex id) ids.

(** The values of the event's tags named [tag_key_str]. *)
Definition event_tag_values (tag_key_str : string) (tags : list Tag) : list string :=
  omap tag_content (filter (λ t, tag_kind t = tag_key_str) tags).

Definition event_has_tag (tag_key_str : string) (tags : list Tag) : bool :=
  existsb (λ t, bool_decide (tag_kind t = tag_key_str)) tags.

(** One turn of the [generic_tags] loop; [false] is its [return false]. *)
Definition generic_tag_match (ev : StoredEvent) (entry : string * list string) : bool :=
  let '(tag_key_str, tag_values) := entry in
  let has_match :=
    existsb (λ filter_val,
      existsb (λ event_val, bool_decide (event_val = filter_val))
        (event_tag_values tag_key_str (ev_tags (event ev)))) tag_values in
  if negb has_match && bool_decide (tag_key_str = "h"%string) then
    let event_has_h_tags := event_has_tag "h" (ev_tags (event ev)) in
    if negb event_has_h_tags then
      match channel_id ev with
      | Some ch_str => existsb (λ v, bool_decide (v = ch_str)) tag_values
      | None => false
      end
    else false
  else has_match.

Definition filter_match_one (f : Filter) (ev : StoredEvent) : bool :=
  match f_kinds f with
  | Some kinds => bool_decide (ev_kind (event ev) ∈ kinds)
  | None => true
  end &&
  match f_authors f with
  | Some authors => bool_decide (ev_pubkey (event ev) ∈ authors)
  | None => true
  end &&
  match f_since f with
  | Some since => negb (ev_created_at (event ev) <? since)%Z
  | None => true
  end &&
  match f_until f with
  | Some until => negb (until <? ev_created_at (event ev))%Z
  | None => true
  end &&
  match f_ids f with
  | Some ids => ids_match ids (ev_id (event ev))
  | None => true
  end &&
  forallb (generic_tag_match ev) (f_generic_tags f).

Definition filters_match (filters : list Filter) (ev : StoredEvent) : bool :=
  existsb (λ f, filter_match_one f ev) filters.

Definition reader_authorized_for_event (ev : Event) (reader_pubkey_hex : string) : bool :=
  if negb (bool_decide (ev_kind ev = KIND_DM_VISIBILITY))
     && negb (bool_decide (ev_kind ev = KIND_AGENT_TURN_METRIC))
  then true
  else existsb (λ t, bool_decide (tag_content t = Some reader_pubkey_hex))
         (filter (λ t, tag_kind t = "p"%string) (ev_tags ev)).

(** ** Specification *)

(** The event carries a tag named [k] with value [v]. *)
Definition carries (ev : Event) (k v : string) : Prop :=
  ∃ t, t ∈ ev_tags ev ∧ tag_kind t = k ∧ tag_content t = Some v.

Definition no_tag (ev : Event) (k : string) : Prop :=
  ∀ t, t ∈ ev_tags ev → tag_kind t ≠ k.

(** One [#k] constraint: some listed value is carried, or, for [#h] on an
    event without [h] tags, the stored channel is listed. *)
Definition tag_constraint (ev : StoredEvent) (k : string) (vs : list string) : Prop :=
  (∃ v, v ∈ vs ∧ carries (event ev) k v) ∨
  (k = "h"%string ∧ no_tag (event ev) "h" ∧ ∃ ch, channel_id ev = Some ch ∧ ch ∈ vs).

Record matches_one (f : Filter) (ev : StoredEvent) : Prop := {
  m_kinds : ∀ ks, f_kinds f = Some ks → ev_kind (event ev) ∈ ks;
  m_authors : ∀ authors, f_authors f = Some authors → ev_pubkey (event ev) ∈ authors;
  m_since : ∀ since, f_since f = Some since → (since ≤ ev_created_at (event ev))%Z;
  m_until : ∀ until, f_until f = Some until → (ev_created_at (event ev) ≤ until)%Z;
  m_ids : ∀ ids, f_ids f = Some ids →
            ∃ id, id ∈ ids ∧ starts_with (ev_id (event ev)) id = true;
  m_tags : ∀ k vs, (k, vs) ∈ f_generic_tags f → tag_constraint ev k vs;
}.

Definition matches (filters : list Filter) (ev : StoredEvent) : Prop :=
  ∃ f, f ∈ filters ∧ matches_one f ev.

(** ** Reflection lemmas *)

Lemma existsb_elem {A} (p : A → bool) (l : list A) :
  existsb p l = true ↔ ∃ x, x ∈ l ∧ p x = true.
Proof. rewrite existsb_exists. by setoid_rewrite <-list_elem_of_In. Qed.

Lemma forallb_elem {A} (p : A → bool) (l : list A) :
  forallb p l = true ↔ ∀ x, x ∈ l → p x = true.
Proof. rewrite forallb_forall. by setoid_rewrite <-list_elem_of_In. Qed.

Lemma event_tag_values_spec ev k v :
  v ∈ event_tag_values k (ev_tags ev) ↔ carries ev k v.
Proof.
  unfold event_tag_values, carries. rewrite list_elem_of_omap.
  setoid_rewrite list_elem_of_filter. firstorder.
Qed.

Lemma event_has_tag_false ev k : event_has_tag k (ev_tags ev) = false ↔ no_tag ev k.
Proof.
  unfold event_has_tag, no_tag. rewrite <-not_true_iff_false, existsb_elem.
  setoid_rewrite bool_decide_eq_true. firstorder.
Qed.

Lemma has_match_spec ev k vs :
  existsb (λ filter_val, existsb (λ event_val, bool_decide (event_val = filter_val))
     (event_tag_values k (ev_tags ev))) vs = true ↔ ∃ v, v ∈ vs ∧ carries ev k v.
Proof.
  rewrite existsb_elem. setoid_rewrite existsb_elem.
  setoid_rewrite bool_decide_eq_true. setoid_rewrite event_tag_values_spec. naive_solver.
Qed.

Lemma generic_tag_match_spec ev k vs :
  generic_tag_match ev (k, vs) = true ↔ tag_constraint ev k vs.
Proof.
  unfold generic_tag_match, tag_constraint. rewrite <-has_match_spec.
  destruct (existsb _ _) eqn:E; simpl; [intuition|].
  rewrite <-event_has_tag_false.
  case_bool_decide as Hk; [subst k|naive_solver].
  destruct (event_has_tag _ _); simpl; [naive_solver|].
  destruct (channel_id ev) as [ch|]; [|naive_solver].
  rewrite existsb_elem. setoid_rewrite bool_decide_eq_true. naive_solver.
Qed.

Lemma opt_field {A} (o : option A) (p : A → bool) :
  match o with Some x => p x | None => true end = true ↔ ∀ x, o = Some x → p x = true.
Proof. destruct o; naive_solver. Qed.

Lemma filter_match_one_spec f ev : filter_match_one f ev = true ↔ matches_one f ev.
Proof.
  unfold filter_match_one. rewrite !andb_true_iff, forallb_elem.
  rewrite !opt_field. unfold ids_match. setoid_rewrite existsb_elem.
  setoid_rewrite bool_decide_eq_true. setoid_rewrite negb_true_iff.
  setoid_rewrite Z.ltb_ge. split.
  - intros [[[[[? ?] ?] ?] ?] Ht]. split; auto.
    intros k vs Hin. apply generic_tag_match_spec. by apply Ht.
  - intros []. split_and!; auto. intros [k vs] Hin. apply generic_tag_match_spec. auto.
Qed.

Lemma filters_match_spec fs ev : filters_match fs ev = true ↔ matches fs ev.
Proof.
  unfold filters_match, matches. rewrite existsb_elem.
  by setoid_rewrite filter_match_one_spec.
Qed.

(** ** Properties *)

(** [filters_match] decides NIP-01 matching: some filter has all of its
    fields satisfied, each [#k] constraint by a carried tag value or, for [#h]
    on an event without [h] tags only, by the event's stored channel. *)
Theorem filters_match_iff (fs : list Filter) (ev : StoredEvent) :
  filters_match fs ev = true ↔ matches fs ev.
Proof. apply filters_match_spec. Qed.

(** Result-level read gate: an event of a viewer-private kind is readable
    exactly by the reader named in one of its [p] tags, every other event by
    anyone. *)
Theorem reader_authorized_spec (ev : Event) (reader : string) :
  reader_authorized_for_event ev reader = true ↔
  (ev_kind ev = KIND_DM_VISIBILITY ∨ ev_kind ev = KIND_AGENT_TURN_METRIC →
   carries ev "p" reader).
Proof.
  unfold reader_authorized_for_event, carries.
  assert (existsb (λ t, bool_decide (tag_content t = Some reader))
            (filter (λ t, tag_kind t = "p"%string) (ev_tags ev)) = true ↔
          ∃ t, t ∈ ev_tags ev ∧ tag_kind t = "p"%string ∧ tag_content t = Some reader) as Hp.
  { rewrite existsb_elem. setoid_rewrite list_elem_of_filter.
    setoid_rewrite bool_decide_eq_true. firstorder. }
  repeat case_bool_decide; simpl; rewrite ?Hp; tauto.
Qed.

(** "Prefix matching on event ids" never matches a proper prefix: event
    ids are full 64-digit hex strings on both sides, so the [starts_with] test
    of the [ids] field is membership. *)
Theorem ids_match_is_membership (ids : list string) (id : string)
    (Hlen : String.length id = 64%nat)
    (Hids : Forall (λ i, String.length i = 64%nat) ids) :
  ids_match ids id = bool_decide (id ∈ ids).
Proof.
  induction Hids as [|i ids Hi Hids IH].
  - symmetry. apply bool_decide_eq_false. apply not_elem_of_nil.
  - unfold ids_match in *. simpl. rewrite IH, starts_with_same_length by congruence.
    symmetry. repeat case_bool_decide; simpl; set_solver.
Qed.

Definition w_id (c : Ascii.ascii) : string := String.string_of_list_ascii (repeat c 64).

Lemma ids_match_is_membership_witness :
  ids_match [w_id "a"%char; w_id "b"%char] (w_id "b"%char) = bool_decide (w_id "b"%char ∈ [w_id "a"%char; w_id "b"%char]).
Proof.
  apply (ids_match_is_membership [w_id "a"%char; w_id "b"%char] (w_id "b"%char)).
  - vm_compute. reflexivity.
  - repeat constructor.
Defined.
