(* ===== verification/Subscription.v ===== *)
(** * Subscription registry ([crates/buzz-relay/src/subscription.rs])

    The relay's in-memory registry of live subscriptions and its five fan-out
    indexes.  The state is one record with a map per [DashMap]; every method is
    a function on it, with its early returns.  [DashMap]/[HashMap] iteration
    goes through [MapIter].  Metrics gauges are not modelled.

    The theorems show that the indexes never lose or leak a subscription:
    every operation preserves [index_ok], and under it [fan_out_scoped]
    delivers exactly to the subscriptions a scan of the authoritative table
    would select. *)

From stdpp Require Import base gmap strings list fin_maps.
From Stdlib Require Import ZArith.
From S2P Require Import Prelude Nostr Filter.

Local Open Scope string_scope.
Local Open Scope list_scope.

Abbreviation ConnId := Uuid.
Abbreviation SubId := string.

(** ** Data *)

Inductive SubscriptionScope : Type :=
  | Global
  | Channels (channels : list Uuid).

#[export] Instance SubscriptionScope_eq_dec : EqDecision SubscriptionScope.
Proof. solve_decision. Defined.

Definition matches_channel (self : SubscriptionScope) (channel_id : option Uuid) : bool :=
  match self, channel_id with
  | Global, None => true
  | Channels channels, Some ch => bool_decide (ch ∈ channels)
  | _, _ => false
  end.

Definition channel_ids (self : SubscriptionScope) : list Uuid :=
  match self with Global => [] | Channels channels => channels end.

Definition is_global (self : SubscriptionScope) : bool :=
  match self with Global => true | _ => false end.

Record SubEntry : Type := MkEntry {
  sub_filters : list Filter;
  sub_community : CommunityId;
  sub_scope : SubscriptionScope;
}.

Record RemovedSubscription : Type := MkRemoved {
  rem_community_id : CommunityId;
  rem_scope : SubscriptionScope;
}.

Record ChannelSubscriptionUpdate : Type := MkUpdate {
  upd_sub_id : SubId;
  upd_removed : bool;
}.

(** [GlobalPKindIndexKey] *)
Abbreviation GlobalPKindIndexKey := (CommunityId * Kind * string)%type.
(** [(CommunityId, IndexKey { channel_id, kind })] *)
Abbreviation ChannelKindKey := (CommunityId * Uuid * Kind)%type.

Abbreviation Members := (list (ConnId * SubId)).

Record SubscriptionRegistry : Type := MkRegistry {
  subs : gmap ConnId (gmap SubId SubEntry);
  channel_kind_index : gmap ChannelKindKey Members;
  channel_wildcard_index : gmap (CommunityId * Uuid) Members;
  global_kind_index : gmap (CommunityId * Kind) Members;
  global_p_kind_index : gmap GlobalPKindIndexKey Members;
  global_wildcard_index : gmap CommunityId Members;
}.

Definition registry_new : SubscriptionRegistry := MkRegistry ∅ ∅ ∅ ∅ ∅ ∅.

(** The [seen.insert(x)] / [vec.push(x)] idiom: first occurrences, in order. *)
Definition push_new {A} `{EqDecision A} (acc : list A) (x : A) : list A :=
  if bool_decide (x ∈ acc) then acc else acc ++ [x].

(** [extract_kinds_from_filters] *)
Fixpoint extract_kinds_loop (kinds : list Kind) (filters : list Filter) :
    option (list Kind) :=
  match filters with
  | [] => Some kinds
  | f :: fs =>
      match f_kinds f with
      | Some filter_kinds => extract_kinds_loop (foldl push_new kinds filter_kinds) fs
      | None => None
      end
  end.
Definition extract_kinds_from_filters (filters : list Filter) : option (list Kind) :=
  extract_kinds_loop [] filters.

(** [extract_global_p_kind_index_keys] *)
Fixpoint extract_p_keys_loop (c : CommunityId) (keys : list GlobalPKindIndexKey)
    (filters : list Filter) : option (list GlobalPKindIndexKey) :=
  match filters with
  | [] => Some keys
  | f :: fs =>
      match f_kinds f with
      | None => None
      | Some [] => extract_p_keys_loop c keys fs
      | Some kinds =>
          match tags_get "p" (f_generic_tags f) with
          | None => None
          | Some [] => None
          | Some p_values =>
              extract_p_keys_loop c
                (foldl push_new keys (kind ← kinds; p ← p_values; [(c, kind, p)])) fs
          end
      end
  end.
Definition extract_global_p_kind_index_keys (c : CommunityId) (filters : list Filter) :
    option (list GlobalPKindIndexKey) :=
  extract_p_keys_loop c [] filters.

(** [event_p_tag_values] *)
Definition event_p_tag_values (ev : Event) : list string :=
  foldl push_new [] (omap tag_content (filter (λ t, tag_kind t = "p"%string) (ev_tags ev))).

(** ** Index maps *)

Section index.
Context {K : Type} `{Countable K}.

(** [index.entry(key).or_default().push(member)] *)
Definition index_push (x : ConnId * SubId) (idx : gmap K Members) (key : K) : gmap K Members :=
  <[key := default [] (idx !! key) ++ [x]]> idx.

(** [get_mut], [retain] out one member, and drop the entry when it empties. *)
Definition index_remove (x : ConnId * SubId) (idx : gmap K Members) (key : K) : gmap K Members :=
  match idx !! key with
  | None => idx
  | Some entries =>
      let entries' := filter (λ e, e ≠ x) entries in
      match entries' with
      | [] => delete key idx
      | _ => <[key := entries']> idx
      end
  end.
End index.

(** ** Registration and removal *)

Definition with_channel_kind f (r : SubscriptionRegistry) : SubscriptionRegistry :=
  MkRegistry (subs r) (f (channel_kind_index r)) (channel_wildcard_index r)
    (global_kind_index r) (global_p_kind_index r) (global_wildcard_index r).
Definition with_channel_wildcard f (r : SubscriptionRegistry) : SubscriptionRegistry :=
  MkRegistry (subs r) (channel_kind_index r) (f (channel_wildcard_index r))
    (global_kind_index r) (global_p_kind_index r) (global_wildcard_index r).
Definition with_global_kind f (r : SubscriptionRegistry) : SubscriptionRegistry :=
  MkRegistry (subs r) (channel_kind_index r) (channel_wildcard_index r)
    (f (global_kind_index r)) (global_p_kind_index r) (global_wildcard_index r).
Definition with_global_p_kind f (r : SubscriptionRegistry) : SubscriptionRegistry :=
  MkRegistry (subs r) (channel_kind_index r) (channel_wildcard_index r)
    (global_kind_index r) (f (global_p_kind_index r)) (global_wildcard_index r).
Definition with_global_wildcard f (r : SubscriptionRegistry) : SubscriptionRegistry :=
  MkRegistry (subs r) (channel_kind_index r) (channel_wildcard_index r)
    (global_kind_index r) (global_p_kind_index r) (f (global_wildcard_index r)).
Definition with_subs f (r : SubscriptionRegistry) : SubscriptionRegistry :=
  MkRegistry (f (subs r)) (channel_kind_index r) (channel_wildcard_index r)
    (global_kind_index r) (global_p_kind_index r) (global_wildcard_index r).

(** The index half of [register_with_scope]. *)
Definition add_to_index (c : CommunityId) (x : ConnId * SubId) (filters : list Filter)
    (scope : SubscriptionScope) (r : SubscriptionRegistry) : SubscriptionRegistry :=
  match scope with
  | Channels chs =>
      foldl (λ r ch_id,
        match extract_kinds_from_filters filters with
        | None => with_channel_wildcard (λ i, index_push x i (c, ch_id)) r
        | Some [] => r
        | Some kinds =>
            with_channel_kind (λ i, foldl (λ i kind, index_push x i (c, ch_id, kind)) i kinds) r
        end) r chs
  | Global =>
      match extract_global_p_kind_index_keys c filters with
      | Some keys => with_global_p_kind (λ i, foldl (index_push x) i keys) r
      | None =>
          match extract_kinds_from_filters filters with
          | None => with_global_wildcard (λ i, index_push x i c) r
          | Some [] => r
          | Some kinds =>
              with_global_kind (λ i, foldl (λ i kind, index_push x i (c, kind)) i kinds) r
          end
      end
  end.

(** [remove_from_index] *)
Definition remove_from_index (x : ConnId * SubId) (filters : list Filter)
    (c : CommunityId) (scope : SubscriptionScope) (r : SubscriptionRegistry) :
    SubscriptionRegistry :=
  match scope with
  | Channels chs =>
      foldl (λ r ch_id,
        match extract_kinds_from_filters filters with
        | None => with_channel_wildcard (λ i, index_remove x i (c, ch_id)) r
        | Some [] => r
        | Some kinds =>
            with_channel_kind (λ i, foldl (λ i kind, index_remove x i (c, ch_id, kind)) i kinds) r
        end) r chs
  | Global =>
      match extract_global_p_kind_index_keys c filters with
      | Some keys => with_global_p_kind (λ i, foldl (index_remove x) i keys) r
      | None =>
          match extract_kinds_from_filters filters with
          | None => with_global_wildcard (λ i, index_remove x i c) r
          | Some [] => r
          | Some kinds =>
              with_global_kind (λ i, foldl (λ i kind, index_remove x i (c, kind)) i kinds) r
          end
      end
  end.

#[global] Arguments add_to_index : simpl never.
#[global] Arguments remove_from_index : simpl never.

(** [remove_subscription] *)
Definition remove_subscription (conn_id : ConnId) (sub_id : SubId) (r : SubscriptionRegistry) :
    option RemovedSubscription * SubscriptionRegistry :=
  match subs r !! conn_id with
  | None => (None, r)
  | Some conn_subs =>
      match conn_subs !! sub_id with
      | None => (None, r)
      | Some (MkEntry filters c scope) =>
          let r1 := with_subs (<[conn_id := delete sub_id conn_subs]>) r in
          (Some (MkRemoved c scope), remove_from_index (conn_id, sub_id) filters c scope r1)
      end
  end.

(** [self.subs.entry(conn_id).or_default().insert(sub_id, entry)] *)
Definition subs_insert (conn_id : ConnId) (sub_id : SubId) (e : SubEntry)
    (m : gmap ConnId (gmap SubId SubEntry)) : gmap ConnId (gmap SubId SubEntry) :=
  <[conn_id := <[sub_id := e]> (default ∅ (m !! conn_id))]> m.

(** [register_with_scope] *)
Definition register_with_scope (c : CommunityId) (conn_id : ConnId) (sub_id : SubId)
    (filters : list Filter) (scope : SubscriptionScope) (r : SubscriptionRegistry) :
    option RemovedSubscription * SubscriptionRegistry :=
  let '(removed, r1) := remove_subscription conn_id sub_id r in
  let r2 := with_subs (subs_insert conn_id sub_id (MkEntry filters c scope)) r1 in
  (removed, add_to_index c (conn_id, sub_id) filters scope r2).

Definition register_scoped (c : CommunityId) (conn_id : ConnId) (sub_id : SubId)
    (filters : list Filter) (channel_id : option Uuid) (r : SubscriptionRegistry) :=
  let scope := match channel_id with Some ch => Channels [ch] | None => Global end in
  register_with_scope c conn_id sub_id filters scope r.

Definition register_channels_scoped (c : CommunityId) (conn_id : ConnId) (sub_id : SubId)
    (filters : list Filter) (chs : list Uuid) (r : SubscriptionRegistry) :=
  register_with_scope c conn_id sub_id filters (Channels chs) r.

Section with_iter.
Context {MI : MapIter string}.

(** [remove_connection] *)
Definition remove_connection (conn_id : ConnId) (r : SubscriptionRegistry) :
    list RemovedSubscription * SubscriptionRegistry :=
  match subs r !! conn_id with
  | None => ([], r)
  | Some conn_subs =>
      foldl (λ '(removed, r) '(sub_id, MkEntry filters c scope),
          (removed ++ [MkRemoved c scope],
           remove_from_index (conn_id, sub_id) filters c scope r))
        ([], with_subs (delete conn_id) r) (map_iter conn_subs)
  end.

(** One turn of the loop of [remove_channel_subscriptions_scoped]; the
    [let ... else] exits leave the registry as it is. *)
Definition revoke_one (c : CommunityId) (conn_id : ConnId) (channel_id : Uuid)
    (acc : list ChannelSubscriptionUpdate * SubscriptionRegistry) (sub_id : SubId) :
    list ChannelSubscriptionUpdate * SubscriptionRegistry :=
  let '(updates, r) := acc in
  match subs r !! conn_id with
  | None => acc
  | Some conn_subs =>
      match conn_subs !! sub_id with
      | None | Some (MkEntry _ _ Global) => acc
      | Some (MkEntry filters c' (Channels chs)) =>
          let chs' := filter (λ ch, ch ≠ channel_id) chs in
          let removed := bool_decide (chs' = []) in
          let conn_subs' :=
            if removed then delete sub_id conn_subs
            else <[sub_id := MkEntry filters c' (Channels chs')]> conn_subs in
          let r1 := remove_from_index (conn_id, sub_id) filters c (Channels [channel_id]) r in
          (updates ++ [MkUpdate sub_id removed], with_subs (<[conn_id := conn_subs']>) r1)
      end
  end.

(** The [sub_ids] collected before the loop. *)
Definition revoked_sub_ids (c : CommunityId) (conn_id : ConnId) (channel_id : Uuid)
    (r : SubscriptionRegistry) : list SubId :=
  match subs r !! conn_id with
  | None => []
  | Some conn_subs =>
      (filter (λ '(_, e), sub_community e = c ∧ channel_id ∈ channel_ids (sub_scope e))
         (map_iter conn_subs)).*1
  end.

(** [remove_channel_subscriptions_scoped] *)
Definition remove_channel_subscriptions_scoped (c : CommunityId) (conn_id : ConnId)
    (channel_id : Uuid) (r : SubscriptionRegistry) :
    list ChannelSubscriptionUpdate * SubscriptionRegistry :=
  foldl (revoke_one c conn_id channel_id) ([], r) (revoked_sub_ids c conn_id channel_id r).
End with_iter.

(** ** Fan-out *)

(** The live entry behind a [(conn_id, sub_id)] pair. *)
Definition lookup_sub (r : SubscriptionRegistry) (x : ConnId * SubId) : option SubEntry :=
  conn_subs ← subs r !! x.1; conn_subs !! x.2.

Definition entry_matches (c : CommunityId) (ev : StoredEvent) (e : SubEntry) : bool :=
  bool_decide (sub_community e = c)
    && matches_channel (sub_scope e) (channel_id ev)
    && filters_match (sub_filters e) ev.

(** [push_match]: [seen] is the set of the pairs already in [results]. *)
Definition push_match (r : SubscriptionRegistry) (c : CommunityId) (ev : StoredEvent)
    (results : list (ConnId * SubId)) (x : ConnId * SubId) : list (ConnId * SubId) :=
  match lookup_sub r x with
  | Some e => if entry_matches c ev e then push_new results x else results
  | None => results
  end.

(** The candidates [fan_out_scoped] snapshots, in the order it visits them. *)
Definition fan_out_candidates (r : SubscriptionRegistry) (c : CommunityId) (ev : StoredEvent) :
    list (ConnId * SubId) :=
  match channel_id ev with
  | Some ch =>
      default [] (channel_kind_index r !! (c, ch, ev_kind (event ev)))
        ++ default [] (channel_wildcard_index r !! (c, ch))
  | None =>
      (p ← event_p_tag_values (event ev);
       default [] (global_p_kind_index r !! (c, ev_kind (event ev), p)))
        ++ default [] (global_kind_index r !! (c, ev_kind (event ev)))
        ++ default [] (global_wildcard_index r !! c)
  end.

(** [fan_out_scoped] *)
Definition fan_out_scoped (r : SubscriptionRegistry) (c : CommunityId) (ev : StoredEvent) :
    list (ConnId * SubId) :=
  foldl (push_match r c ev) [] (fan_out_candidates r c ev).

(** ** Queries *)

Definition get_filters (r : SubscriptionRegistry) (conn_id : ConnId) (sub_id : SubId) :
    option (list Filter) :=
  sub_filters <$> lookup_sub r (conn_id, sub_id).

Definition total_connections (r : SubscriptionRegistry) : nat := size (subs r).

Section queries.
Context {MI : MapIter string} {MK : MapIter ChannelKindKey}.

Definition total_subscriptions (r : SubscriptionRegistry) : nat :=
  sum_list_with (λ '(_, conn_subs), size (conn_subs : gmap SubId SubEntry)) (map_iter (subs r)).

Definition per_community_subscriptions (r : SubscriptionRegistry) : gmap CommunityId nat :=
  foldl (λ counts '(_, conn_subs),
    foldl (λ counts '(_, e),
        <[sub_community e := S (default 0 (counts !! sub_community e))]> counts)
      counts (map_iter (conn_subs : gmap SubId SubEntry)))
    ∅ (map_iter (subs r)).

(** [channel_subscriber_conns_scoped]; the returned [Vec] is the set. *)
Definition channel_subscriber_conns_scoped (r : SubscriptionRegistry) (c : CommunityId)
    (ch : Uuid) : gset ConnId :=
  let kinded := foldl (λ conns '((c', ch', _), entries),
      if bool_decide (c' = c ∧ ch' = ch)
      then conns ∪ list_to_set (entries : Members).*1 else conns)
    ∅ (map_iter (channel_kind_index r)) in
  match channel_wildcard_index r !! (c, ch) with
  | Some entries => kinded ∪ list_to_set entries.*1
  | None => kinded
  end.
End queries.

(** ** The [seen]/[push] idiom *)

Lemma elem_of_push_new {A} `{EqDecision A} (acc : list A) x y :
  y ∈ push_new acc x ↔ y ∈ acc ∨ y = x.
Proof.
  unfold push_new. case_bool_decide as Hx; [naive_solver|].
  by rewrite elem_of_app, list_elem_of_singleton.
Qed.

Lemma elem_of_foldl_push_new {A} `{EqDecision A} (xs acc : list A) y :
  y ∈ foldl push_new acc xs ↔ y ∈ acc ∨ y ∈ xs.
Proof.
  revert acc. induction xs as [|x xs IH]; intros acc; simpl; [set_solver|].
  rewrite IH, elem_of_push_new. set_solver.
Qed.

Lemma NoDup_push_new {A} `{EqDecision A} (acc : list A) x :
  NoDup acc → NoDup (push_new acc x).
Proof.
  intros. unfold push_new. case_bool_decide; [done|].
  apply NoDup_app. split_and!; [done|set_solver|apply NoDup_singleton].
Qed.

(** ** What the key extraction returns *)

Lemma extract_kinds_loop_spec acc fs :
  match extract_kinds_loop acc fs with
  | None => ∃ f, f ∈ fs ∧ f_kinds f = None
  | Some ks =>
      (∀ f, f ∈ fs → ∃ fk, f_kinds f = Some fk) ∧
      ∀ k, k ∈ ks ↔ k ∈ acc ∨ ∃ f fk, f ∈ fs ∧ f_kinds f = Some fk ∧ k ∈ fk
  end.
Proof.
  revert acc. induction fs as [|f fs IH]; intros acc; simpl; [set_solver|].
  destruct (f_kinds f) as [fk|] eqn:Ef; [|exists f; set_solver].
  specialize (IH (foldl push_new acc fk)). destruct (extract_kinds_loop _ _) as [ks|].
  - destruct IH as [Hall Hks]. split.
    + intros g [->|]%elem_of_cons; eauto.
    + intros k. rewrite Hks, elem_of_foldl_push_new. setoid_rewrite elem_of_cons. naive_solver.
  - destruct IH as (g & ? & ?). exists g. set_solver.
Qed.

Lemma extract_kinds_None fs : extract_kinds_from_filters fs = None →
  ∃ f, f ∈ fs ∧ f_kinds f = None.
Proof.
  unfold extract_kinds_from_filters. intros H.
  pose proof (extract_kinds_loop_spec [] fs) as Hs. by rewrite H in Hs.
Qed.

Lemma extract_kinds_Some fs ks f k : extract_kinds_from_filters fs = Some ks →
  f ∈ fs → (∀ fk, f_kinds f = Some fk → k ∈ fk) → k ∈ ks.
Proof.
  unfold extract_kinds_from_filters. intros H Hf Hk.
  pose proof (extract_kinds_loop_spec [] fs) as Hs. rewrite H in Hs.
  destruct Hs as [Hall Hks]. destruct (Hall f Hf) as [fk Hfk]. apply Hks. eauto 10.
Qed.

Lemma extract_p_keys_loop_spec c acc fs keys :
  extract_p_keys_loop c acc fs = Some keys →
  (∀ key, key ∈ acc → key ∈ keys) ∧
  ∀ f, f ∈ fs → ∃ fk, f_kinds f = Some fk ∧ ∀ k, k ∈ fk →
    ∃ ps, tags_get "p" (f_generic_tags f) = Some ps ∧ ∀ p, p ∈ ps → (c, k, p) ∈ keys.
Proof.
  revert acc. induction fs as [|f fs IH]; intros acc; simpl.
  { intros [= ->]. split; [done|]. by intros f ?%not_elem_of_nil. }
  destruct (f_kinds f) as [[|k0 fk]|] eqn:Ek; [|destruct (tags_get _ _) as [[|p0 ps]|] eqn:Ep|];
    try done; intros [Hacc Hall]%IH.
  - split; [done|]. intros g [->|Hg]%elem_of_cons; [|by apply Hall].
    exists []. split; [done|]. by intros ? ?%not_elem_of_nil.
  - assert (∀ key, key ∈ acc ∨ (key ∈ (kind ← k0 :: fk; p ← p0 :: ps; [(c, kind, p)])) →
              key ∈ keys) as Hk.
    { intros key Hkey. by apply Hacc, elem_of_foldl_push_new. }
    split; [auto|]. intros g [->|Hg]%elem_of_cons; [|by apply Hall].
    exists (k0 :: fk). split; [done|]. intros k Hin. exists (p0 :: ps). split; [done|].
    intros p Hp. apply Hk. right. apply list_elem_of_bind. exists k. split; [|done].
    apply list_elem_of_bind. exists p. split; [|done]. by apply list_elem_of_singleton.
Qed.

Lemma elem_of_event_p_tag_values ev v : v ∈ event_p_tag_values ev ↔ carries ev "p" v.
Proof.
  unfold event_p_tag_values. rewrite elem_of_foldl_push_new, <-event_tag_values_spec.
  unfold event_tag_values. set_solver.
Qed.

(** ** The five indexes as one relation

    A [position] is one key of one index; [positions] lists the keys under
    which registration files a subscription. *)

Inductive position : Type :=
  | PChannelKind (k : ChannelKindKey)
  | PChannelWild (k : CommunityId * Uuid)
  | PGlobalKind (k : CommunityId * Kind)
  | PGlobalP (k : GlobalPKindIndexKey)
  | PGlobalWild (k : CommunityId).

#[export] Instance position_eq_dec : EqDecision position.
Proof. solve_decision. Defined.

Definition bucket (r : SubscriptionRegistry) (p : position) : option Members :=
  match p with
  | PChannelKind k => channel_kind_index r !! k
  | PChannelWild k => channel_wildcard_index r !! k
  | PGlobalKind k => global_kind_index r !! k
  | PGlobalP k => global_p_kind_index r !! k
  | PGlobalWild k => global_wildcard_index r !! k
  end.
Definition members (r : SubscriptionRegistry) (p : position) : Members :=
  default [] (bucket r p).

(** The keys of one channel of a channel scope. *)
Definition channel_positions (c : CommunityId) (filters : list Filter) (ch : Uuid) :
    list position :=
  match extract_kinds_from_filters filters with
  | None => [PChannelWild (c, ch)]
  | Some kinds => (λ k, PChannelKind (c, ch, k)) <$> kinds
  end.

Definition positions (c : CommunityId) (filters : list Filter) (scope : SubscriptionScope) :
    list position :=
  match scope with
  | Channels chs => chs ≫= channel_positions c filters
  | Global =>
      match extract_global_p_kind_index_keys c filters with
      | Some keys => PGlobalP <$> keys
      | None =>
          match extract_kinds_from_filters filters with
          | None => [PGlobalWild c]
          | Some kinds => (λ k, PGlobalKind (c, k)) <$> kinds
          end
      end
  end.

Definition entry_positions (e : SubEntry) : list position :=
  positions (sub_community e) (sub_filters e) (sub_scope e).

(** One index update, at one position. *)
Definition index_op : Type :=
  ∀ K (E : EqDecision K) (C : Countable K), gmap K Members → K → gmap K Members.
Definition update_at (f : index_op) (r : SubscriptionRegistry) (p : position) : SubscriptionRegistry :=
  match p with
  | PChannelKind k => with_channel_kind (λ i, f _ _ _ i k) r
  | PChannelWild k => with_channel_wildcard (λ i, f _ _ _ i k) r
  | PGlobalKind k => with_global_kind (λ i, f _ _ _ i k) r
  | PGlobalP k => with_global_p_kind (λ i, f _ _ _ i k) r
  | PGlobalWild k => with_global_wildcard (λ i, f _ _ _ i k) r
  end.
Definition push_at (x : ConnId * SubId) : SubscriptionRegistry → position → SubscriptionRegistry :=
  update_at (λ K _ _, index_push x).
Definition remove_at (x : ConnId * SubId) : SubscriptionRegistry → position → SubscriptionRegistry :=
  update_at (λ K _ _, index_remove x).

(** The filing code of one channel, for either direction. *)
Lemma channel_positions_fold (f : index_op) c filters r ch :
  match extract_kinds_from_filters filters with
  | None => with_channel_wildcard (λ i, f _ _ _ i (c, ch)) r
  | Some [] => r
  | Some kinds =>
      with_channel_kind (λ i, foldl (λ i kind, f _ _ _ i (c, ch, kind)) i kinds) r
  end = foldl (update_at f) r (channel_positions c filters ch).
Proof.
  unfold channel_positions. destruct (extract_kinds_from_filters filters) as [ks|]; [|done].
  assert (∀ r, with_channel_kind (λ i, foldl (λ i kind, f _ _ _ i (c, ch, kind)) i ks) r
    = foldl (update_at f) r ((λ k, PChannelKind (c, ch, k)) <$> ks)) as Hk.
  { clear r. induction ks as [|k ks IH]; intros r; simpl; [by destruct r|].
    rewrite <-IH. by destruct r. }
  rewrite <-Hk. destruct ks; [|done]. by destruct r.
Qed.

Lemma positions_fold (f : index_op) c filters scope r :
  match scope with
  | Channels chs =>
      foldl (λ r ch_id,
        match extract_kinds_from_filters filters with
        | None => with_channel_wildcard (λ i, f _ _ _ i (c, ch_id)) r
        | Some [] => r
        | Some kinds =>
            with_channel_kind (λ i, foldl (λ i kind, f _ _ _ i (c, ch_id, kind)) i kinds) r
        end) r chs
  | Global =>
      match extract_global_p_kind_index_keys c filters with
      | Some keys => with_global_p_kind (λ i, foldl (f _ _ _) i keys) r
      | None =>
          match extract_kinds_from_filters filters with
          | None => with_global_wildcard (λ i, f _ _ _ i c) r
          | Some [] => r
          | Some kinds =>
              with_global_kind (λ i, foldl (λ i kind, f _ _ _ i (c, kind)) i kinds) r
          end
      end
  end = foldl (update_at f) r (positions c filters scope).
Proof.
  destruct scope as [|chs]; simpl.
  - destruct (extract_global_p_kind_index_keys c filters) as [keys|].
    { revert r. induction keys as [|k keys IH]; intros r; simpl; [by destruct r|].
      rewrite <-IH. by destruct r. }
    destruct (extract_kinds_from_filters filters) as [ks|]; [|done].
    assert (∀ r, with_global_kind (λ i, foldl (λ i kind, f _ _ _ i (c, kind)) i ks) r
      = foldl (update_at f) r ((λ k, PGlobalKind (c, k)) <$> ks)) as Hk.
    { clear r. induction ks as [|k ks IH]; intros r; simpl; [by destruct r|].
      rewrite <-IH. by destruct r. }
    rewrite <-Hk. destruct ks; [|done]. by destruct r.
  - revert r. induction chs as [|ch chs IH]; intros r; simpl; [done|].
    rewrite IH, foldl_app. f_equal. apply channel_positions_fold.
Qed.

(** [register_with_scope] files, and [remove_from_index] unfiles, a
    subscription at exactly the keys of [positions]. *)
Lemma add_to_index_fold c x filters scope r :
  add_to_index c x filters scope r = foldl (push_at x) r (positions c filters scope).
Proof. apply (positions_fold (λ K _ _, index_push x)). Qed.

Lemma remove_from_index_fold x filters c scope r :
  remove_from_index x filters c scope r = foldl (remove_at x) r (positions c filters scope).
Proof. apply (positions_fold (λ K _ _, index_remove x)). Qed.

Lemma subs_update_at f r p : subs (update_at f r p) = subs r.
Proof. by destruct p. Qed.

Lemma subs_update_fold f r ps : subs (foldl (update_at f) r ps) = subs r.
Proof. revert r. induction ps as [|p ps IH]; intros r; simpl; [done|]. by rewrite IH, subs_update_at. Qed.

Lemma bucket_push_at x r p q :
  bucket (push_at x r p) q = if decide (p = q) then Some (members r p ++ [x]) else bucket r q.
Proof.
  unfold members. destruct p, q; simpl; try done; unfold index_push;
    rewrite lookup_insert; repeat case_decide; simplify_eq/=; done.
Qed.

Lemma bucket_remove_at x r p q :
  bucket (remove_at x r p) q =
    if decide (p = q) then
      match filter (λ e, e ≠ x) (members r p) with [] => None | l => Some l end
    else bucket r q.
Proof.
  unfold members. destruct p as [k|k|k|k|k], q as [k'|k'|k'|k'|k']; simpl; try done;
    unfold index_remove; destruct (_ !! k) as [l|] eqn:E; simpl;
    try destruct (filter _ l) eqn:El; rewrite ?lookup_delete, ?lookup_insert;
    repeat case_decide; simplify_eq/=; congruence.
Qed.

Lemma members_push_at x r p q y :
  y ∈ members (push_at x r p) q ↔ y ∈ members r q ∨ (y = x ∧ p = q).
Proof.
  unfold members at 1. rewrite bucket_push_at. case_decide as Hpq; simpl.
  - subst q. rewrite elem_of_app, list_elem_of_singleton. naive_solver.
  - unfold members. naive_solver.
Qed.

Lemma members_remove_at x r p q y :
  y ∈ members (remove_at x r p) q ↔ y ∈ members r q ∧ ¬ (y = x ∧ p = q).
Proof.
  unfold members at 1. rewrite bucket_remove_at. case_decide as Hpq; simpl.
  - subst q. trans (y ∈ filter (λ e, e ≠ x) (members r p)).
    { by destruct (filter _ _). }
    rewrite list_elem_of_filter. naive_solver.
  - unfold members. naive_solver.
Qed.

Lemma members_push_fold x ps r q y :
  y ∈ members (foldl (push_at x) r ps) q ↔ y ∈ members r q ∨ (y = x ∧ q ∈ ps).
Proof.
  revert r. induction ps as [|p ps IH]; intros r; simpl; [set_solver|].
  rewrite IH, members_push_at. set_solver.
Qed.

Lemma members_remove_fold x ps r q y :
  y ∈ members (foldl (remove_at x) r ps) q ↔ y ∈ members r q ∧ ¬ (y = x ∧ q ∈ ps).
Proof.
  revert r. induction ps as [|p ps IH]; intros r; simpl; [set_solver|].
  rewrite IH, members_remove_at. set_solver.
Qed.

(** No operation leaves an empty bucket behind. *)
Definition tidy (r : SubscriptionRegistry) : Prop := ∀ p, bucket r p ≠ Some [].

Lemma tidy_push_fold x ps r : tidy r → tidy (foldl (push_at x) r ps).
Proof.
  revert r. induction ps as [|p ps IH]; intros r Hr; simpl; [done|].
  apply IH. intros q. rewrite bucket_push_at. case_decide; [|apply Hr].
  by destruct (members r p).
Qed.

Lemma tidy_remove_fold x ps r : tidy r → tidy (foldl (remove_at x) r ps).
Proof.
  revert r. induction ps as [|p ps IH]; intros r Hr; simpl; [done|].
  apply IH. intros q. rewrite bucket_remove_at. case_decide; [|apply Hr].
  by destruct (filter _ _).
Qed.

(** The registry's invariant: a pair is filed at a key exactly when it is a
    live subscription that registration files there. *)
Record index_ok (r : SubscriptionRegistry) : Prop := {
  ok_members : ∀ x p,
    x ∈ members r p ↔ ∃ e, lookup_sub r x = Some e ∧ p ∈ entry_positions e;
  ok_tidy : tidy r;
}.

Lemma members_with_subs f r p : members (with_subs f r) p = members r p.
Proof. by destruct p. Qed.

Lemma tidy_with_subs f r : tidy r → tidy (with_subs f r).
Proof. intros Hr p. specialize (Hr p). by destruct p. Qed.

Lemma lookup_sub_subs r r' x : subs r = subs r' → lookup_sub r x = lookup_sub r' x.
Proof. intros H. unfold lookup_sub. by rewrite H. Qed.

Lemma subs_add_to_index c x filters scope r : subs (add_to_index c x filters scope r) = subs r.
Proof. rewrite add_to_index_fold. apply subs_update_fold. Qed.

Lemma subs_remove_from_index x filters c scope r :
  subs (remove_from_index x filters c scope r) = subs r.
Proof. rewrite remove_from_index_fold. apply subs_update_fold. Qed.

#[export] Hint Rewrite subs_add_to_index subs_remove_from_index : core.

Lemma lookup_sub_delete conn sub m x (r : SubscriptionRegistry) :
  subs r !! conn = Some m →
  lookup_sub (with_subs (<[conn := delete sub m]>) r) x
  = if decide (x = (conn, sub)) then None else lookup_sub r x.
Proof.
  intros Hm. destruct x as [cn sb]. unfold lookup_sub; simpl.
  rewrite lookup_insert. case_decide as Hc; simpl.
  - subst cn. rewrite lookup_delete, Hm. simpl. repeat case_decide; simplify_eq/=; done.
  - rewrite decide_False; naive_solver.
Qed.

Lemma lookup_sub_insert conn sub e x (r : SubscriptionRegistry) :
  lookup_sub (with_subs (subs_insert conn sub e) r) x
  = if decide (x = (conn, sub)) then Some e else lookup_sub r x.
Proof.
  destruct x as [cn sb]. unfold lookup_sub, subs_insert; simpl.
  rewrite lookup_insert. case_decide as Hc; simpl.
  - subst cn. rewrite lookup_insert.
    destruct (subs r !! conn) as [m|]; simpl; repeat case_decide; simplify_eq/=; done.
  - rewrite decide_False; naive_solver.
Qed.

Lemma lookup_sub_Some r conn sub e :
  lookup_sub r (conn, sub) = Some e ↔ ∃ m, subs r !! conn = Some m ∧ m !! sub = Some e.
Proof. unfold lookup_sub; simpl. apply bind_Some. Qed.

(** ** [remove_subscription] *)

Lemma remove_subscription_lookup conn sub r x :
  lookup_sub (remove_subscription conn sub r).2 x
  = if decide (x = (conn, sub)) then None else lookup_sub r x.
Proof.
  unfold remove_subscription.
  destruct (subs r !! conn) as [m|] eqn:Em; [destruct (m !! sub) as [[fs c sc]|] eqn:Es|]; simpl.
  - erewrite lookup_sub_subs by apply subs_remove_from_index. by apply lookup_sub_delete.
  - case_decide; [|done]. subst. unfold lookup_sub; simpl. by rewrite Em.
  - case_decide; [|done]. subst. unfold lookup_sub; simpl. by rewrite Em.
Qed.

Lemma remove_subscription_result conn sub r :
  (remove_subscription conn sub r).1
  = (λ e, MkRemoved (sub_community e) (sub_scope e)) <$> lookup_sub r (conn, sub).
Proof.
  unfold remove_subscription, lookup_sub; simpl.
  destruct (subs r !! conn) as [m|]; [simpl; destruct (m !! sub) as [[]|]|]; done.
Qed.

Lemma remove_subscription_ok conn sub r :
  index_ok r → index_ok (remove_subscription conn sub r).2.
Proof.
  intros [Hm Ht]. pose proof (remove_subscription_lookup conn sub r) as Hl. revert Hl.
  unfold remove_subscription.
  destruct (subs r !! conn) as [m|] eqn:Em; [destruct (m !! sub) as [[fs c sc]|] eqn:Es|]; simpl.
  - intros Hl. split.
    + intros x p. rewrite Hl, remove_from_index_fold, members_remove_fold, members_with_subs, Hm.
      assert (lookup_sub r (conn, sub) = Some (MkEntry fs c sc)) as He.
      { apply lookup_sub_Some. eauto. }
      case_decide as Hx; [subst x; rewrite He|naive_solver].
      split; [|naive_solver]. intros [(e & [= <-] & ?) Hn]. by destruct Hn.
    + rewrite remove_from_index_fold. by apply tidy_remove_fold, tidy_with_subs.
  - by intros _; split.
  - by intros _; split.
Qed.

(** ** [register_with_scope] *)

Lemma register_lookup c conn sub fs scope r x :
  lookup_sub (register_with_scope c conn sub fs scope r).2 x
  = if decide (x = (conn, sub)) then Some (MkEntry fs c scope) else lookup_sub r x.
Proof.
  unfold register_with_scope.
  pose proof (remove_subscription_lookup conn sub r x) as Hl.
  destruct (remove_subscription conn sub r) as [rem r1]; simpl in *.
  erewrite lookup_sub_subs by apply subs_add_to_index.
  rewrite lookup_sub_insert, Hl. by case_decide.
Qed.

Lemma register_ok c conn sub fs scope r :
  index_ok r → index_ok (register_with_scope c conn sub fs scope r).2.
Proof.
  intros Hr. pose proof (register_lookup c conn sub fs scope r) as Hl. revert Hl.
  unfold register_with_scope.
  pose proof (remove_subscription_lookup conn sub r) as Hl1.
  destruct (remove_subscription_ok conn sub r Hr) as [Hm Ht].
  destruct (remove_subscription conn sub r) as [rem r1]; simpl in *. intros Hl. split.
  - intros x p. rewrite Hl, add_to_index_fold, members_push_fold, members_with_subs, Hm, Hl1.
    case_decide as Hx; unfold entry_positions; naive_solver.
  - rewrite add_to_index_fold. by apply tidy_push_fold, tidy_with_subs.
Qed.

(** ** [remove_connection] *)

Section remove_connection.
Context {MI : MapIter string}.

(** Removing the index entries of a list of a connection's subscriptions. *)
Lemma remove_many conn (l : list (SubId * SubEntry)) acc r :
  let r' := (foldl (λ '(removed, r) '(sub_id, MkEntry filters c scope),
                (removed ++ [MkRemoved c scope],
                 remove_from_index (conn, sub_id) filters c scope r)) (acc, r) l).2 in
  subs r' = subs r ∧
  (tidy r → tidy r') ∧
  ∀ y p, y ∈ members r' p ↔
    y ∈ members r p ∧ ∀ s e, (s, e) ∈ l → ¬ (y = (conn, s) ∧ p ∈ entry_positions e).
Proof.
  revert acc r. induction l as [|[s [fs c sc]] l IH]; intros acc r; simpl.
  { split_and!; [done|done|set_solver]. }
  destruct (IH (acc ++ [MkRemoved c sc]) (remove_from_index (conn, s) fs c sc r))
    as (Hs & Ht & Hm).
  split_and!.
  - by rewrite Hs, subs_remove_from_index.
  - intros. apply Ht. rewrite remove_from_index_fold. by apply tidy_remove_fold.
  - intros y p. rewrite Hm, remove_from_index_fold, members_remove_fold.
    setoid_rewrite elem_of_cons. split.
    + intros [[Hy Hn] Hall]. split; [done|]. intros s' e [[= -> ->]|]; [done|by apply Hall].
    + intros [Hy Hall]. split_and!; [done|apply (Hall s (MkEntry fs c sc)); by left|naive_solver].
Qed.

Lemma remove_connection_lookup conn r x :
  lookup_sub (remove_connection conn r).2 x
  = if decide (x.1 = conn) then None else lookup_sub r x.
Proof.
  unfold remove_connection. destruct x as [cn s].
  destruct (subs r !! conn) as [m|] eqn:Em; simpl.
  - destruct (remove_many conn (map_iter m) [] (with_subs (delete conn) r)) as (Hs & _ & _).
    unfold lookup_sub. rewrite Hs. simpl. rewrite lookup_delete. repeat case_decide; naive_solver.
  - case_decide; [|done]. subst. unfold lookup_sub; simpl. by rewrite Em.
Qed.

Lemma remove_connection_ok conn r : index_ok r → index_ok (remove_connection conn r).2.
Proof.
  intros [Hm Ht]. pose proof (remove_connection_lookup conn r) as Hl. revert Hl.
  unfold remove_connection.
  destruct (subs r !! conn) as [m|] eqn:Em; [|by intros _; split].
  destruct (remove_many conn (map_iter m) [] (with_subs (delete conn) r)) as (Hs & Ht' & Hm').
  intros Hl. split; [|by apply Ht', tidy_with_subs].
  intros [cn s] p. rewrite Hl, Hm', members_with_subs, Hm. simpl.
  setoid_rewrite elem_of_map_iter. case_decide as Hc.
  - subst cn. split; [|naive_solver]. intros [(e & He & Hp) Hall]. exfalso.
    apply lookup_sub_Some in He as (m' & ? & He). simplify_eq. by eapply Hall.
  - naive_solver.
Qed.

(** ** [remove_channel_subscriptions_scoped] *)

Lemma elem_of_channel_positions_ch c fs ch p :
  p ∈ channel_positions c fs ch →
  (∃ k, p = PChannelKind (c, ch, k)) ∨ p = PChannelWild (c, ch).
Proof.
  unfold channel_positions. destruct (extract_kinds_from_filters fs).
  - rewrite list_elem_of_fmap. naive_solver.
  - rewrite list_elem_of_singleton. naive_solver.
Qed.

(** Unfiling one channel leaves the positions of the remaining channels. *)
Lemma positions_without c fs chs ch p :
  p ∈ positions c fs (Channels (filter (λ ch', ch' ≠ ch) chs)) ↔
  p ∈ positions c fs (Channels chs) ∧ p ∉ positions c fs (Channels [ch]).
Proof.
  simpl. rewrite app_nil_r, !list_elem_of_bind. setoid_rewrite list_elem_of_filter. split.
  - intros (ch' & Hp & Hne & Hin). split; [eauto|]. intros Hp'.
    destruct (elem_of_channel_positions_ch _ _ _ _ Hp) as [[k ->]| ->];
      destruct (elem_of_channel_positions_ch _ _ _ _ Hp') as [[k' ?]|?]; simplify_eq.
  - intros [(ch' & Hp & Hin) Hn]. exists ch'. split_and!; [done| |done]. by intros ->.
Qed.

(** The entry of a subscription once [ch] is revoked from it. *)
Definition revoked_entry (ch : Uuid) (e : SubEntry) : option SubEntry :=
  match sub_scope e with
  | Global => Some e
  | Channels chs =>
      let chs' := filter (λ ch', ch' ≠ ch) chs in
      if bool_decide (chs' = []) then None
      else Some (MkEntry (sub_filters e) (sub_community e) (Channels chs'))
  end.

Lemma revoke_one_ok c conn ch acc r sub :
  index_ok r →
  (∀ e, lookup_sub r (conn, sub) = Some e → sub_community e = c) →
  let r' := (revoke_one c conn ch (acc, r) sub).2 in
  index_ok r' ∧
  ∀ x, lookup_sub r' x
       = if decide (x = (conn, sub)) then lookup_sub r x ≫= revoked_entry ch
         else lookup_sub r x.
Proof.
  intros Hr Hc. unfold revoke_one; simpl.
  destruct (subs r !! conn) as [m|] eqn:Em; simpl.
  2:{ split; [done|]. intros x. case_decide; [subst|done].
      unfold lookup_sub; simpl. by rewrite Em. }
  destruct (m !! sub) as [e|] eqn:Es.
  2:{ split; [done|]. intros x. case_decide; [subst|done].
      unfold lookup_sub; simpl. rewrite Em; simpl. by rewrite Es. }
  assert (lookup_sub r (conn, sub) = Some e) as He by (apply lookup_sub_Some; eauto).
  specialize (Hc e He).
  destruct e as [fs c' [|chs]]; simpl in Hc; subst c'; simpl.
  { split; [done|]. intros x. case_decide; [|done]. subst. by rewrite He. }
  set (r1 := remove_from_index (conn, sub) fs c (Channels [ch]) r).
  assert (subs r1 = subs r) as Hs1 by apply subs_remove_from_index.
  assert (r1 = foldl (remove_at (conn, sub)) r (positions c fs (Channels [ch]))) as Hr1
    by apply remove_from_index_fold.
  clearbody r1.
  assert (∀ x, lookup_sub (with_subs (<[conn :=
      if bool_decide (filter (λ ch0, ch0 ≠ ch) chs = []) then delete sub m
      else <[sub := MkEntry fs c (Channels (filter (λ ch0, ch0 ≠ ch) chs))]> m]>) r1) x
    = if decide (x = (conn, sub)) then lookup_sub r x ≫= revoked_entry ch
      else lookup_sub r x) as Hl.
  { intros [cn s]. unfold lookup_sub; simpl. rewrite lookup_insert, Hs1. case_decide as Hcn; simpl; [subst cn|].
    - rewrite Em; simpl. case_decide as Hs; simplify_eq/=.
      + rewrite Es; simpl. unfold revoked_entry; simpl.
        case_bool_decide; [apply lookup_delete_eq|apply lookup_insert_eq].
      + case_bool_decide; [apply lookup_delete_ne|apply lookup_insert_ne]; naive_solver.
    - rewrite decide_False by naive_solver. done. }
  split; [|exact Hl]. destruct Hr as [Hm Ht]. split.
  - intros x p. rewrite Hl, members_with_subs, Hr1, members_remove_fold, Hm.
    case_decide as Hx; [subst x; rewrite He; simpl|naive_solver].
    unfold revoked_entry; simpl. pose proof (positions_without c fs chs ch p) as Hp.
    unfold entry_positions. case_bool_decide as Hnil.
    + rewrite Hnil in Hp. simpl in Hp. split; [|naive_solver].
      intros [(e & [= <-] & Hin) Hn]. exfalso. apply (not_elem_of_nil p), Hp. naive_solver.
    + split.
      * intros [(e & [= <-] & Hin) Hn]. eexists. split; [done|]. simpl in *. naive_solver.
      * intros (e & [= <-] & Hin). simpl in *. naive_solver.
  - apply tidy_with_subs. rewrite Hr1. by apply tidy_remove_fold.
Qed.
End remove_connection.

#[global] Arguments revoke_one : simpl never.

Section revoke.
Context {MI : MapIter string}.

Lemma revoke_loop c conn ch (l : list SubId) acc r :
  index_ok r → NoDup l →
  (∀ s e, s ∈ l → lookup_sub r (conn, s) = Some e → sub_community e = c) →
  let r' := (foldl (revoke_one c conn ch) (acc, r) l).2 in
  index_ok r' ∧
  ∀ x, lookup_sub r' x
       = if decide (x.1 = conn ∧ x.2 ∈ l) then lookup_sub r x ≫= revoked_entry ch
         else lookup_sub r x.
Proof.
  revert acc r. induction l as [|s l IH]; intros acc r Hr Hnd Hc; simpl.
  { split; [done|]. intros x. rewrite decide_False; [done|]. set_solver. }
  apply NoDup_cons in Hnd as [Hs Hnd].
  destruct (revoke_one_ok c conn ch acc r s Hr) as [Hr1 Hl1]; [intros e; apply Hc; by left|].
  destruct (revoke_one c conn ch (acc, r) s) as [acc1 r1]; simpl in *.
  destruct (IH acc1 r1) as [Hr' Hl']; [done..| |].
  { intros s' e Hin. rewrite Hl1, decide_False by naive_solver. apply Hc. by right. }
  split; [exact Hr'|]. intros [cn s']. rewrite Hl', Hl1. simpl.
  pose proof (elem_of_cons l s' s). repeat case_decide; naive_solver.
Qed.

Lemma elem_of_revoked_sub_ids c conn ch r s :
  s ∈ revoked_sub_ids c conn ch r ↔
  ∃ e, lookup_sub r (conn, s) = Some e ∧ sub_community e = c ∧ ch ∈ channel_ids (sub_scope e).
Proof.
  unfold revoked_sub_ids. setoid_rewrite lookup_sub_Some.
  destruct (subs r !! conn) as [m|]; [|set_solver].
  rewrite list_elem_of_fmap. setoid_rewrite list_elem_of_filter. split.
  - intros ([s' e] & -> & [? ?] & Hin). apply elem_of_map_iter in Hin. exists e. naive_solver.
  - intros (e & (m' & [= <-] & ?) & ? & ?). exists (s, e). split_and!; [done..|].
    by apply elem_of_map_iter.
Qed.

Lemma NoDup_revoked_sub_ids c conn ch r : NoDup (revoked_sub_ids c conn ch r).
Proof.
  unfold revoked_sub_ids. destruct (subs r !! conn) as [m|]; [|constructor].
  apply NoDup_fst_filter, NoDup_map_iter_fst.
Qed.

Lemma remove_channel_lookup c conn ch r x :
  index_ok r →
  lookup_sub (remove_channel_subscriptions_scoped c conn ch r).2 x
  = e ← lookup_sub r x;
    if decide (x.1 = conn ∧ sub_community e = c ∧ ch ∈ channel_ids (sub_scope e))
    then revoked_entry ch e else Some e.
Proof.
  intros Hr. unfold remove_channel_subscriptions_scoped.
  destruct (revoke_loop c conn ch (revoked_sub_ids c conn ch r) [] r) as [_ Hl];
    [done|apply NoDup_revoked_sub_ids| |].
  { intros s e (e' & ? & ? & ?)%elem_of_revoked_sub_ids ?. naive_solver. }
  rewrite Hl. destruct x as [cn s]; simpl. pose proof (elem_of_revoked_sub_ids c conn ch r s).
  destruct (lookup_sub r (cn, s)) as [e|] eqn:E; simpl; repeat case_decide; naive_solver.
Qed.

Lemma remove_channel_ok c conn ch r :
  index_ok r → index_ok (remove_channel_subscriptions_scoped c conn ch r).2.
Proof.
  intros Hr. unfold remove_channel_subscriptions_scoped.
  apply revoke_loop; [done|apply NoDup_revoked_sub_ids|].
  intros s e (e' & ? & ? & ?)%elem_of_revoked_sub_ids ?. naive_solver.
Qed.
End revoke.

(** ** Fan-out *)

(** The index keys an event reaches. *)
Definition event_positions (c : CommunityId) (ev : StoredEvent) : list position :=
  match channel_id ev with
  | Some ch => [PChannelKind (c, ch, ev_kind (event ev)); PChannelWild (c, ch)]
  | None =>
      ((λ p, PGlobalP (c, ev_kind (event ev), p)) <$> event_p_tag_values (event ev))
        ++ [PGlobalKind (c, ev_kind (event ev)); PGlobalWild c]
  end.

Lemma fan_out_candidates_positions r c ev :
  fan_out_candidates r c ev = event_positions c ev ≫= members r.
Proof.
  unfold fan_out_candidates, event_positions, members.
  destruct (channel_id ev); simpl; rewrite ?bind_app; simpl; rewrite ?app_nil_r; [done|].
  by rewrite list_fmap_bind.
Qed.

(** A matching subscription is filed under a key the event reaches. *)
Lemma matching_position c ev e :
  entry_matches c ev e = true → ∃ p, p ∈ entry_positions e ∧ p ∈ event_positions c ev.
Proof.
  unfold entry_matches, entry_positions, event_positions.
  rewrite !andb_true_iff, bool_decide_eq_true, filters_match_spec.
  intros [[Hc Hsc] (f & Hf & Hm)]. destruct e as [fs c' sc]; simpl in *; subst c'.
  destruct sc as [|chs], (channel_id ev) as [ch|] eqn:Ech; simpl in Hsc; try done.
  - unfold positions. destruct (extract_global_p_kind_index_keys c fs) as [keys|] eqn:Ek.
    + destruct (extract_p_keys_loop_spec _ _ _ _ Ek) as [_ Hall].
      destruct (Hall f Hf) as (fk & Hfk & Hps).
      destruct (Hps (ev_kind (event ev))) as (ps & Hget & Hkeys); [by eapply m_kinds|].
      destruct (m_tags _ _ Hm "p" ps) as [(v & Hv & Hcar)|[? _]]; [by apply tags_get_in| |done].
      exists (PGlobalP (c, ev_kind (event ev), v)). split.
      * apply list_elem_of_fmap. eauto.
      * apply elem_of_app. left. apply list_elem_of_fmap. exists v. split; [done|].
        by apply elem_of_event_p_tag_values.
    + destruct (extract_kinds_from_filters fs) as [ks|] eqn:Eks; [|exists (PGlobalWild c); set_solver].
      exists (PGlobalKind (c, ev_kind (event ev))). split; [|set_solver].
      apply list_elem_of_fmap. eexists; split; [done|].
      eapply extract_kinds_Some; [done..|]. intros. by eapply m_kinds.
  - apply bool_decide_eq_true in Hsc. unfold positions.
    setoid_rewrite list_elem_of_bind. unfold channel_positions.
    destruct (extract_kinds_from_filters fs) as [ks|] eqn:Eks;
      [exists (PChannelKind (c, ch, ev_kind (event ev)))|exists (PChannelWild (c, ch))];
      (split; [exists ch; split; [|done]|set_solver]); [|set_solver].
    apply list_elem_of_fmap. eexists; split; [done|].
    eapply extract_kinds_Some; [done..|]. intros. by eapply m_kinds.
Qed.

(** Delivering from any list of candidates, however stale. *)
Lemma push_match_fold r c ev cands acc x :
  x ∈ foldl (push_match r c ev) acc cands ↔
  x ∈ acc ∨ (x ∈ cands ∧ ∃ e, lookup_sub r x = Some e ∧ entry_matches c ev e = true).
Proof.
  revert acc. induction cands as [|y cands IH]; intros acc; simpl; [set_solver|].
  rewrite IH, elem_of_cons.
  assert (x ∈ push_match r c ev acc y ↔ x ∈ acc ∨
    (x = y ∧ ∃ e, lookup_sub r x = Some e ∧ entry_matches c ev e = true)) as Hy; [|rewrite Hy; tauto].
  unfold push_match. destruct (lookup_sub r y) as [e|] eqn:Ey.
  - destruct (entry_matches c ev e) eqn:Em; [rewrite elem_of_push_new|].
    + split; [|tauto]. intros [?| ->]; eauto.
    + split; [tauto|]. intros [?|(-> & e' & ? & ?)]; [done|congruence].
  - split; [tauto|]. intros [?|(-> & e' & ? & ?)]; [done|congruence].
Qed.

Lemma NoDup_push_match_fold r c ev cands acc :
  NoDup acc → NoDup (foldl (push_match r c ev) acc cands).
Proof.
  revert acc. induction cands as [|y cands IH]; intros acc Hnd; simpl; [done|].
  apply IH. unfold push_match. repeat case_match; auto using NoDup_push_new.
Qed.

Lemma elem_of_fan_out r c ev x :
  index_ok r →
  x ∈ fan_out_scoped r c ev ↔ ∃ e, lookup_sub r x = Some e ∧ entry_matches c ev e = true.
Proof.
  intros [Hm _]. unfold fan_out_scoped. rewrite push_match_fold, fan_out_candidates_positions.
  rewrite list_elem_of_bind. split; [set_solver|].
  intros (e & He & Hmatch). right. split; [|eauto].
  destruct (matching_position _ _ _ Hmatch) as (p & Hp & Hev). exists p.
  split; [|done]. apply Hm. eauto.
Qed.

(** ** Reachable registries *)

Section reachable.
Context {MI : MapIter string}.

(** One call of a mutating method, with any arguments. *)
Inductive registry_step : SubscriptionRegistry → SubscriptionRegistry → Prop :=
  | step_register c conn sub fs ch r :
      registry_step r (register_scoped c conn sub fs ch r).2
  | step_register_channels c conn sub fs chs r :
      registry_step r (register_channels_scoped c conn sub fs chs r).2
  | step_remove_subscription conn sub r :
      registry_step r (remove_subscription conn sub r).2
  | step_remove_connection conn r :
      registry_step r (remove_connection conn r).2
  | step_remove_channel c conn ch r :
      registry_step r (remove_channel_subscriptions_scoped c conn ch r).2.

Definition reachable (r : SubscriptionRegistry) : Prop := rtc registry_step registry_new r.

Lemma step_ok r r' : registry_step r r' → index_ok r → index_ok r'.
Proof.
  destruct 1; intros; auto using remove_subscription_ok, remove_connection_ok, remove_channel_ok;
    by apply register_ok.
Qed.

Lemma new_ok : index_ok registry_new.
Proof.
  split; [|by intros []; simpl; rewrite lookup_empty].
  intros [conn sub] p. unfold members, lookup_sub.
  destruct p; simpl; rewrite !lookup_empty; simpl; set_solver.
Qed.

Lemma reachable_ok r : reachable r → index_ok r.
Proof.
  unfold reachable. intros H. pose proof new_ok as H0. revert H0.
  induction H; eauto using step_ok.
Qed.

(** ** Properties *)

(** Index integrity: in every registry any sequence of method calls can
    produce, a subscription is filed under an index key exactly when it is
    live and registration files it there (nothing stale, nothing missing),
    and no empty bucket remains. *)
Theorem registry_index_integrity (r : SubscriptionRegistry) (Hr : reachable r) :
  (∀ x p, x ∈ members r p ↔ ∃ e, lookup_sub r x = Some e ∧ p ∈ entry_positions e) ∧
  (∀ p, bucket r p ≠ Some []).
Proof. destruct (reachable_ok r Hr). done. Qed.

(** C2. Fan-out equals the linear scan it replaces: the indexed
    [fan_out_scoped] returns, without duplicates, exactly the live
    subscriptions of the event's community whose scope covers the event's
    channel (global scopes only for channel-less events) and one of whose
    filters matches it. *)
Theorem fan_out_exact (r : SubscriptionRegistry) (c : CommunityId) (ev : StoredEvent)
    (Hr : reachable r) :
  NoDup (fan_out_scoped r c ev) ∧
  ∀ x, x ∈ fan_out_scoped r c ev ↔
    ∃ e, lookup_sub r x = Some e ∧ sub_community e = c ∧
         matches_channel (sub_scope e) (channel_id ev) = true ∧
         matches (sub_filters e) ev.
Proof.
  split; [apply NoDup_push_match_fold; constructor|].
  intros x. rewrite elem_of_fan_out by (by apply reachable_ok). unfold entry_matches.
  setoid_rewrite andb_true_iff. setoid_rewrite andb_true_iff.
  setoid_rewrite filters_match_spec. setoid_rewrite bool_decide_eq_true. naive_solver.
Qed.

(** Stale candidate snapshots cannot leak: delivering from an arbitrary
    list of candidate pairs (for example one read before a concurrent
    replacement moved the subscription) reaches only pairs whose current
    entry is in the event's community, covers its channel and matches it. *)
Theorem stale_candidates_safe (r : SubscriptionRegistry) (c : CommunityId)
    (ev : StoredEvent) (cands : list (ConnId * SubId)) x
    (Hx : x ∈ foldl (push_match r c ev) [] cands) :
  ∃ e, lookup_sub r x = Some e ∧ sub_community e = c ∧
       matches_channel (sub_scope e) (channel_id ev) = true ∧
       matches (sub_filters e) ev.
Proof.
  apply push_match_fold in Hx as [[]%not_elem_of_nil|(_ & e & He & Hm)].
  exists e. revert Hm. unfold entry_matches.
  rewrite !andb_true_iff, filters_match_spec, bool_decide_eq_true. naive_solver.
Qed.

(** Revoking a channel: after [remove_channel_subscriptions_scoped] no
    event of that channel and community reaches the connection, while every
    delivery to another connection, of another channel, of another community
    or of a global event is unchanged. *)
Theorem revoke_channel_exact (r : SubscriptionRegistry) (c : CommunityId) (conn : ConnId)
    (ch : Uuid) (Hr : reachable r) (c' : CommunityId) (ev : StoredEvent) (x : ConnId * SubId) :
  x ∈ fan_out_scoped (remove_channel_subscriptions_scoped c conn ch r).2 c' ev ↔
  x ∈ fan_out_scoped r c' ev ∧ ¬ (x.1 = conn ∧ c' = c ∧ channel_id ev = Some ch).
Proof.
  apply reachable_ok in Hr.
  rewrite !elem_of_fan_out by auto using remove_channel_ok.
  rewrite remove_channel_lookup by done.
  destruct (lookup_sub r x) as [e|] eqn:He; simpl; [|naive_solver].
  assert (∀ o : option SubEntry, (∃ e', o = Some e' ∧ entry_matches c' ev e' = true) ↔
    match o with Some e' => entry_matches c' ev e' = true | None => False end) as Hex.
  { intros [e'|]; naive_solver. }
  rewrite !Hex. case_decide as Hc.
  - destruct Hc as (Hx & Hec & Hch). unfold revoked_entry, entry_matches.
    destruct e as [fs ec [|chs]]; simpl in *; [set_solver|].
    destruct (channel_id ev) as [ch'|]; simpl; [|case_bool_decide; simpl; rewrite ?andb_false_r; naive_solver].
    case_bool_decide as Hnil; simpl.
    + split; [done|]. rewrite !andb_true_iff, !bool_decide_eq_true.
      intros [[[Hc' Hin] _] Hne]. apply (not_elem_of_nil ch'). rewrite <-Hnil.
      apply list_elem_of_filter. split; [|done]. intros ->. naive_solver.
    + rewrite !andb_true_iff, !bool_decide_eq_true, list_elem_of_filter. naive_solver.
  - split; [|naive_solver]. intros Hm. split; [done|]. intros (Hx & -> & Hch).
    apply Hc. revert Hm. unfold entry_matches. rewrite !andb_true_iff, bool_decide_eq_true, Hch.
    destruct (sub_scope e); simpl; [naive_solver|]. rewrite bool_decide_eq_true. naive_solver.
Qed.

(** Registration replaces and isolates: the returned value is the scope
    of the subscription it replaced, afterwards the pair is delivered by its
    new community, scope and filters only, and the deliveries of every other
    pair are unchanged. *)
Theorem register_replaces (r : SubscriptionRegistry) (c : CommunityId) (conn : ConnId)
    (sub : SubId) (fs : list Filter) (scope : SubscriptionScope) (Hr : reachable r) :
  let out := register_with_scope c conn sub fs scope r in
  out.1 = (λ e, MkRemoved (sub_community e) (sub_scope e)) <$> lookup_sub r (conn, sub) ∧
  ∀ c' ev x,
    x ∈ fan_out_scoped out.2 c' ev ↔
    if decide (x = (conn, sub))
    then c' = c ∧ matches_channel scope (channel_id ev) = true ∧ matches fs ev
    else x ∈ fan_out_scoped r c' ev.
Proof.
  apply reachable_ok in Hr. simpl. split.
  - rewrite <-remove_subscription_result. unfold register_with_scope. by destruct (remove_subscription _ _ _).
  - intros c' ev x. rewrite elem_of_fan_out by (by apply register_ok).
    rewrite register_lookup. case_decide; [|by rewrite elem_of_fan_out].
    unfold entry_matches. rewrite <-filters_match_spec. split.
    + intros (e & [= <-] & Hm). simpl in Hm. bool_to_prop. naive_solver.
    + intros (-> & Hs & Hf). eexists. split; [done|]. simpl.
      by rewrite Hs, Hf, bool_decide_eq_true_2.
Qed.

(** Disconnecting: after [remove_connection] nothing is delivered to the
    connection, and deliveries to every other connection are unchanged. *)
Theorem remove_connection_exact (r : SubscriptionRegistry) (conn : ConnId) (Hr : reachable r)
    (c : CommunityId) (ev : StoredEvent) (x : ConnId * SubId) :
  x ∈ fan_out_scoped (remove_connection conn r).2 c ev ↔
  x.1 ≠ conn ∧ x ∈ fan_out_scoped r c ev.
Proof.
  apply reachable_ok in Hr.
  rewrite !elem_of_fan_out by auto using remove_connection_ok.
  rewrite remove_connection_lookup. case_decide; naive_solver.
Qed.
End reachable.

(** ** Which connections a revocation has to visit *)

Section subscriber_conns.
Context {MI : MapIter string} {MK : MapIter ChannelKindKey}.

Lemma subscriber_fold c ch (l : list (ChannelKindKey * Members)) acc conn :
  conn ∈ foldl (λ conns '((c', ch', _), entries),
      if bool_decide (c' = c ∧ ch' = ch)
      then conns ∪ list_to_set (entries : Members).*1 else conns)
    acc l ↔
  conn ∈ (acc : gset ConnId) ∨
  ∃ k entries sub, ((c, ch, k), entries) ∈ l ∧ (conn, sub) ∈ entries.
Proof.
  revert acc. induction l as [|[[[c' ch'] k] entries] l IH]; intros acc; simpl; [set_solver|].
  rewrite IH. setoid_rewrite elem_of_cons. case_bool_decide as Hk.
  - destruct Hk as [-> ->].
    rewrite elem_of_union, elem_of_list_to_set, list_elem_of_fmap. split.
    + intros [[?|([cn sub] & -> & ?)]|(k' & es & sub & ? & ?)]; [by left| |]; right.
      * exists k, entries, sub. eauto.
      * exists k', es, sub. eauto.
    + intros [?|(k' & es & sub & [[= -> ->]|?] & ?)]; [by left; left| |].
      * left. right. exists (conn, sub). done.
      * right. exists k', es, sub. done.
  - split; [|naive_solver]. intros [?|(k' & es & sub & ? & ?)]; [by left|].
    right. exists k', es, sub. eauto.
Qed.

Lemma bucket_members r p l : bucket r p = Some l → members r p = l.
Proof. unfold members. by intros ->. Qed.

(** [channel_subscriber_conns_scoped] is complete for revocation: in a
    reachable registry it returns exactly the connections holding a
    subscription of the community that covers the channel, except those whose
    filters list only empty [kinds] and can match nothing. *)
Theorem channel_subscribers_exact (r : SubscriptionRegistry) (c : CommunityId) (ch : Uuid)
    (Hr : reachable r) (conn : ConnId) :
  conn ∈ channel_subscriber_conns_scoped r c ch ↔
  ∃ sub e, lookup_sub r (conn, sub) = Some e ∧ sub_community e = c ∧
           ch ∈ channel_ids (sub_scope e) ∧
           extract_kinds_from_filters (sub_filters e) ≠ Some [].
Proof.
  apply reachable_ok in Hr as [Hm _].
  trans (∃ sub, ∃ p, (conn, sub) ∈ members r p ∧
           (p = PChannelWild (c, ch) ∨ ∃ k, p = PChannelKind (c, ch, k))).
  - unfold channel_subscriber_conns_scoped.
    assert (∀ X : gset ConnId, conn ∈ match channel_wildcard_index r !! (c, ch) with
         | Some entries => X ∪ list_to_set entries.*1 | None => X end ↔
       conn ∈ X ∨ ∃ sub, (conn, sub) ∈ members r (PChannelWild (c, ch))) as Hw.
    { intros X. unfold members; simpl. destruct (_ !! _) as [es|]; simpl; [|set_solver].
      rewrite elem_of_union, elem_of_list_to_set, list_elem_of_fmap. split.
      - intros [?|([cn s] & -> & ?)]; eauto.
      - intros [?|[s ?]]; [by left|right]. by exists (conn, s). }
    rewrite Hw, subscriber_fold. setoid_rewrite elem_of_map_iter. split.
    + intros [[[]%not_elem_of_empty|(k & es & sub & Hes & Hin)]|[sub Hin]]; exists sub.
      * exists (PChannelKind (c, ch, k)). split; [|eauto].
        by rewrite (bucket_members r (PChannelKind (c, ch, k)) es Hes).
      * exists (PChannelWild (c, ch)). eauto.
    + intros (sub & p & Hin & [-> | [k ->]]); [by right; exists sub|left; right].
      unfold members in Hin; simpl in Hin.
      destruct (channel_kind_index r !! (c, ch, k)) as [es|] eqn:E; [|set_solver].
      exists k, es, sub. done.
  - setoid_rewrite Hm. split.
    + intros (sub & p & (e & He & Hp) & Hpos). exists sub, e. split; [done|].
      destruct e as [fs c' [|chs]]; unfold entry_positions, positions in Hp; simpl in *.
      { repeat case_match; set_solver. }
      apply list_elem_of_bind in Hp as (ch' & Hp & Hch').
      unfold channel_positions in Hp. destruct (extract_kinds_from_filters fs) as [ks|].
      * apply list_elem_of_fmap in Hp as (k & -> & Hk). destruct Hpos as [?|[k' ?]]; [done|].
        simplify_eq. split_and!; [done|done|]. intros [= ->]. set_solver.
      * apply list_elem_of_singleton in Hp as ->. destruct Hpos as [?|[k' ?]]; [|done].
        simplify_eq. done.
    + intros (sub & e & He & <- & Hch & Hk). exists sub.
      destruct e as [fs c' [|chs]]; simpl in *; [set_solver|].
      destruct (extract_kinds_from_filters fs) as [[|k ks]|] eqn:E; [done| |];
        [exists (PChannelKind (c', ch, k))|exists (PChannelWild (c', ch))];
        (split; [|by eauto]); (eexists; split; [done|]);
        unfold entry_positions, positions; simpl; apply list_elem_of_bind; exists ch;
        (split; [|done]); unfold channel_positions; rewrite E; set_solver.
Qed.
End subscriber_conns.

Lemma subs_register_fresh c conn sub fs scope r :
  subs r !! conn = None →
  subs (register_with_scope c conn sub fs scope r).2
  = <[conn := {[ sub := MkEntry fs c scope ]}]> (subs r).
Proof.
  intros Hr. unfold register_with_scope, remove_subscription. rewrite Hr. simpl.
  rewrite subs_add_to_index. unfold subs_insert; simpl. by rewrite Hr.
Qed.

Lemma subs_remove_only conn sub e r m :
  subs r = <[conn := {[ sub := e ]}]> m →
  subs (remove_subscription conn sub r).2 = <[conn := ∅]> m.
Proof.
  intros Hr. unfold remove_subscription. rewrite Hr, lookup_insert_eq, lookup_singleton_eq.
  destruct e as [fs c sc]. simpl. rewrite subs_remove_from_index. simpl.
  by rewrite Hr, insert_insert_eq, delete_singleton_eq.
Qed.

(** Documentation divergence: [total_connections] is described as the number of
    connections with at least one active subscription, but closing the last
    subscription of a connection leaves its empty entry behind, so the
    connection is still counted. *)
Theorem total_connections_counts_idle (c : CommunityId) (conn : ConnId) (sub : SubId)
    (fs : list Filter) (ch : option Uuid) :
  let r := (remove_subscription conn sub (register_scoped c conn sub fs ch registry_new).2).2 in
  total_connections r = 1 ∧ ∀ x, lookup_sub r x = None.
Proof.
  simpl. split.
  - unfold total_connections, register_scoped.
    erewrite subs_remove_only by (by apply subs_register_fresh). simpl.
    by rewrite map_size_insert_None by apply lookup_empty.
  - intros x. rewrite remove_subscription_lookup. case_decide; [done|].
    unfold register_scoped. rewrite register_lookup, decide_False by done.
    unfold lookup_sub. simpl. by rewrite lookup_empty.
Qed.

(** ** Witnesses *)

Definition w_tag (k v : string) : Tag := MkTag [k; v] k (Some v).
Definition w_event (kind : Kind) (tags : list Tag) : Event :=
  MkEvent "e1" "author" 100%Z kind tags "hello".
Definition w_kinds (ks : list Kind) : Filter := MkFilter None None (Some ks) None None [].

(** One connection follows two channels and another the community's mentions. *)
Definition w_registry : SubscriptionRegistry :=
  (register_scoped "c" "conn2" "s" [MkFilter None None (Some [9%Z]) None None [("p", ["bob"])]] None
    (register_channels_scoped "c" "conn1" "s" [w_kinds [9%Z]; w_kinds [7%Z]] ["ch1"; "ch2"]
      registry_new).2).2.

Lemma w_registry_reachable : reachable w_registry.
Proof.
  eapply rtc_l; [apply (step_register_channels "c" "conn1" "s" [w_kinds [9%Z]; w_kinds [7%Z]] ["ch1"; "ch2"])|].
  eapply rtc_l; [|apply rtc_refl]. apply step_register.
Qed.

Lemma registry_index_integrity_witness :
  reachable w_registry ∧ ("conn1", "s") ∈ members w_registry (PChannelKind ("c", "ch2", 7%Z)) ∧
  ((∀ x p, x ∈ members w_registry p ↔
      ∃ e, lookup_sub w_registry x = Some e ∧ p ∈ entry_positions e) ∧
   (∀ p, bucket w_registry p ≠ Some [])).
Proof.
  split_and!; [apply w_registry_reachable|vm_compute; left|..];
    apply (registry_index_integrity w_registry w_registry_reachable).
Defined.

Definition w_channel_event : StoredEvent := MkStored (w_event 7%Z []) (Some "ch2").
Definition w_global_event : StoredEvent := MkStored (w_event 9%Z [w_tag "p" "bob"]) None.

Lemma fan_out_exact_witness :
  fan_out_scoped w_registry "c" w_global_event = [("conn2", "s")] ∧
  ∃ e, lookup_sub w_registry ("conn2", "s") = Some e ∧ sub_community e = "c" ∧
       matches_channel (sub_scope e) (channel_id w_global_event) = true ∧
       matches (sub_filters e) w_global_event.
Proof.
  split; [vm_compute; reflexivity|].
  apply (fan_out_exact w_registry "c" w_global_event w_registry_reachable).
  vm_compute. left.
Defined.

Lemma stale_candidates_safe_witness :
  ∃ e, lookup_sub w_registry ("conn1", "s") = Some e ∧ sub_community e = "c" ∧
       matches_channel (sub_scope e) (channel_id w_channel_event) = true ∧
       matches (sub_filters e) w_channel_event.
Proof.
  apply (stale_candidates_safe w_registry "c" w_channel_event
           [("conn2", "s"); ("gone", "s"); ("conn1", "s")]).
  vm_compute. left.
Defined.

Lemma revoke_channel_exact_witness :
  ("conn1", "s") ∉ fan_out_scoped
    (remove_channel_subscriptions_scoped "c" "conn1" "ch2" w_registry).2 "c" w_channel_event.
Proof.
  intros H.
  apply (revoke_channel_exact w_registry "c" "conn1" "ch2" w_registry_reachable) in H as [_ H].
  by apply H.
Defined.

Lemma register_replaces_witness :
  let out := register_with_scope "c" "conn1" "s" [filter_new] (Channels ["ch9"]) w_registry in
  out.1 = Some (MkRemoved "c" (Channels ["ch1"; "ch2"])) ∧
  ("conn1", "s") ∉ fan_out_scoped out.2 "c" w_channel_event.
Proof.
  destruct (register_replaces w_registry "c" "conn1" "s" [filter_new] (Channels ["ch9"])
              w_registry_reachable) as [H1 H2].
  split; [rewrite H1; vm_compute; reflexivity|].
  intros H. apply H2 in H. vm_compute in H. destruct H as (_ & H & _). discriminate H.
Defined.

Lemma remove_connection_exact_witness :
  ("conn2", "s") ∈ fan_out_scoped (remove_connection "conn1" w_registry).2 "c" w_global_event.
Proof.
  apply (remove_connection_exact w_registry "conn1" w_registry_reachable).
  split; [discriminate|vm_compute; left].
Defined.

Lemma channel_subscribers_exact_witness :
  "conn1" ∈ channel_subscriber_conns_scoped w_registry "c" "ch1".
Proof.
  apply (channel_subscribers_exact w_registry "c" "ch1" w_registry_reachable).
  exists "s". eexists. split_and!; [vm_compute; reflexivity|reflexivity|vm_compute; left|discriminate].
Defined.
