(* ===== verification/Ifc.v ===== *)
(** * Information-flow labels ([crates/ifc-core/src/lib.rs])

    Reader-set labels, their lattice operations, and the monotone [FlowState]
    that decides whether accumulated information may leave.  [BTreeSet] is a
    finite set; universes and principals are any types with decidable
    equality (and an order for principals, which only [BTreeSet] needs). *)

From stdpp Require Import base gmap list.
From S2P Require Import Prelude.

Section ifc.
Context {Universe : Type} `{EqDecision Universe}.
Context {Principal : Type} `{Countable Principal}.

Inductive ReaderSet : Type :=
  | Everyone
  | Only (readers : gset Principal).

#[global] Instance ReaderSet_eq_dec : EqDecision ReaderSet.
Proof. solve_decision. Defined.

Definition rs_can_flow_to (self destination : ReaderSet) : bool :=
  match self, destination with
  | Everyone, _ => true
  | Only _, Everyone => false
  | Only source, Only dest => bool_decide (dest ⊆ source)
  end.

Definition rs_join (self other : ReaderSet) : ReaderSet :=
  match self, other with
  | Everyone, value | value, Everyone => value
  | Only l, Only r => Only (l ∩ r)
  end.

Definition rs_meet (self other : ReaderSet) : ReaderSet :=
  match self, other with
  | Everyone, _ | _, Everyone => Everyone
  | Only l, Only r => Only (l ∪ r)
  end.

Definition explicit_readers (self : ReaderSet) : option (gset Principal) :=
  match self with Everyone => None | Only readers => Some readers end.

Definition explicit_count (self : ReaderSet) : option nat :=
  size <$> explicit_readers self.

Record ConfidentialityLabel : Type := Label {
  universe : Universe;
  readers_of : ReaderSet;
}.

#[global] Instance ConfidentialityLabel_eq_dec : EqDecision ConfidentialityLabel.
Proof. solve_decision. Defined.

Inductive LabelError : Type := EmptyReaderSet | CrossUniverse.

Definition label_public (u : Universe) : ConfidentialityLabel := Label u Everyone.

Definition label_restricted (u : Universe) (readers : gset Principal) :
    result LabelError ConfidentialityLabel :=
  if bool_decide (readers = ∅) then Err EmptyReaderSet
  else Ok (Label u (Only readers)).

Definition label_restricted_to (u : Universe) (p : Principal) : ConfidentialityLabel :=
  Label u (Only {[ p ]}).

Definition is_public (l : ConfidentialityLabel) : bool :=
  match readers_of l with Everyone => true | Only _ => false end.

Definition reader_count (l : ConfidentialityLabel) : option nat :=
  explicit_count (readers_of l).

Definition can_flow_to (self destination : ConfidentialityLabel) : bool :=
  bool_decide (universe self = universe destination)
    && rs_can_flow_to (readers_of self) (readers_of destination).

Definition label_join (self other : ConfidentialityLabel) :
    result LabelError ConfidentialityLabel :=
  if bool_decide (universe self ≠ universe other) then Err CrossUniverse
  else Ok (Label (universe self) (rs_join (readers_of self) (readers_of other))).

Record FlowState : Type := Flow {
  accumulated : option ConfidentialityLabel;
  unresolved_input : bool;
}.

Definition flow_default : FlowState := Flow None false.

(** [FlowState::observe] *)
Definition observe (s : FlowState) (label : ConfidentialityLabel) : FlowState :=
  match accumulated s with
  | None => Flow (Some label) (unresolved_input s)
  | Some existing =>
      match label_join existing label with
      | Ok combined => Flow (Some combined) (unresolved_input s)
      | Err _ => Flow (Some existing) true
      end
  end.

Definition mark_unknown (s : FlowState) : FlowState := Flow (accumulated s) true.

Inductive EgressError : Type :=
  | UnresolvedInput
  | DestinationUniverseMismatch
  | DestinationWidensReaders.

(** [FlowState::check_egress] *)
Definition check_egress (s : FlowState) (destination : ConfidentialityLabel) :
    result EgressError unit :=
  if unresolved_input s then Err UnresolvedInput
  else match accumulated s with
  | None => Ok tt
  | Some acc =>
      if bool_decide (universe acc ≠ universe destination)
      then Err DestinationUniverseMismatch
      else if negb (rs_can_flow_to (readers_of acc) (readers_of destination))
      then Err DestinationWidensReaders
      else Ok tt
  end.

Definition has_observed_input (s : FlowState) : bool :=
  match accumulated s with Some _ => true | None => false end.

(** [FlowState::snapshot]: an inert copy of both fields. *)
Record FlowSnapshot : Type := Snapshot {
  snap_accumulated : option ConfidentialityLabel;
  snap_unresolved_input : bool;
}.

Definition snapshot (s : FlowState) : FlowSnapshot :=
  Snapshot (accumulated s) (unresolved_input s).

(** ** A computation boundary: a sequence of admitted inputs *)

Inductive Input : Type :=
  | Observed (l : ConfidentialityLabel)
  | UnknownInput.

Definition admit_input (s : FlowState) (i : Input) : FlowState :=
  match i with Observed l => observe s l | UnknownInput => mark_unknown s end.

Definition run_inputs (ins : list Input) : FlowState := foldl admit_input flow_default ins.

(** ** Reader-set lemmas *)

Lemma rs_can_flow_to_spec a b :
  rs_can_flow_to a b = true ↔
  match a, b with
  | Everyone, _ => True
  | Only _, Everyone => False
  | Only s, Only d => d ⊆ s
  end.
Proof. destruct a, b; simpl; rewrite ?bool_decide_eq_true; split; done. Qed.

Lemma rs_can_flow_to_join a b d :
  rs_can_flow_to (rs_join a b) d = true ↔
  rs_can_flow_to a d = true ∧ rs_can_flow_to b d = true.
Proof.
  rewrite !rs_can_flow_to_spec. destruct a, b, d; simpl; try tauto.
  set_solver.
Qed.

Lemma can_flow_to_spec l d :
  can_flow_to l d = true ↔
  universe l = universe d ∧ rs_can_flow_to (readers_of l) (readers_of d) = true.
Proof. unfold can_flow_to. rewrite andb_true_iff, bool_decide_eq_true. done. Qed.

Lemma label_join_inv a b :
  (universe a = universe b
     ∧ label_join a b = Ok (Label (universe a) (rs_join (readers_of a) (readers_of b))))
  ∨ (universe a ≠ universe b ∧ label_join a b = Err CrossUniverse).
Proof. unfold label_join. case_bool_decide; [right|left]; naive_solver. Qed.

Lemma run_inputs_snoc ins i : run_inputs (ins ++ [i]) = admit_input (run_inputs ins) i.
Proof. unfold run_inputs. by rewrite foldl_snoc. Qed.

(** The inputs of a run, abstractly: all labels share a universe. *)
Definition one_universe (ins : list Input) : Prop :=
  ∀ l1 l2, Observed l1 ∈ ins → Observed l2 ∈ ins → universe l1 = universe l2.

Lemma observed_snoc ins i l :
  Observed l ∈ ins ++ [i] ↔ Observed l ∈ ins ∨ i = Observed l.
Proof. rewrite elem_of_app, list_elem_of_singleton. intuition congruence. Qed.

Lemma unknown_snoc ins i :
  UnknownInput ∈ ins ++ [i] ↔ UnknownInput ∈ ins ∨ i = UnknownInput.
Proof. rewrite elem_of_app, list_elem_of_singleton. intuition congruence. Qed.

(** What the accumulated label says about the admitted inputs. *)
Definition flow_inv (ins : list Input) (s : FlowState) : Prop :=
  match accumulated s with
  | None => ∀ l, Observed l ∉ ins
  | Some acc =>
      (∃ l, Observed l ∈ ins ∧ universe l = universe acc) ∧
      (unresolved_input s = false →
         (∀ l, Observed l ∈ ins → universe l = universe acc) ∧
         ∀ d, rs_can_flow_to (readers_of acc) d = true ↔
              ∀ l, Observed l ∈ ins → rs_can_flow_to (readers_of l) d = true)
  end.

Lemma flow_inv_run ins : flow_inv ins (run_inputs ins).
Proof.
  induction ins as [|i ins IH] using rev_ind.
  { intros l. apply not_elem_of_nil. }
  rewrite run_inputs_snoc. unfold flow_inv in *.
  destruct i as [l|]; simpl; [unfold observe|].
  2:{ destruct (accumulated _) as [acc|] eqn:E; [|intros l; rewrite observed_snoc; naive_solver].
      setoid_rewrite observed_snoc. split; [|done]. naive_solver. }
  destruct (accumulated (run_inputs ins)) as [acc|] eqn:E; simpl.
  - destruct IH as [(l0 & Hl0 & Hu) Hres].
    destruct (label_join_inv acc l) as [[Heq ->]|[Hne ->]]; simpl; setoid_rewrite observed_snoc.
    + split; [by eauto|]. intros Hf. destruct (Hres Hf) as [Hall Hd].
      split; [naive_solver|]. intros d. rewrite rs_can_flow_to_join, Hd. naive_solver.
    + split; [by eauto|done].
  - setoid_rewrite observed_snoc. naive_solver.
Qed.

Lemma unresolved_run ins :
  unresolved_input (run_inputs ins) = false ↔ UnknownInput ∉ ins ∧ one_universe ins.
Proof.
  induction ins as [|i ins IH] using rev_ind.
  { split; [|done]. intros _. split; [apply not_elem_of_nil|]. by intros ?? ?%not_elem_of_nil. }
  pose proof (flow_inv_run ins) as Hinv. unfold flow_inv in Hinv.
  rewrite run_inputs_snoc, unknown_snoc. unfold one_universe in *.
  setoid_rewrite observed_snoc.
  destruct i as [l|]; simpl; [unfold observe|naive_solver].
  destruct (accumulated (run_inputs ins)) as [acc|] eqn:E; simpl; [|rewrite IH; naive_solver].
  destruct Hinv as [(l0 & Hl0 & Hu) Hres].
  destruct (label_join_inv acc l) as [[Heq ->]|[Hne ->]]; simpl.
  - rewrite IH. split; [|naive_solver]. intros [Hno Hone]. split; [naive_solver|].
    assert (∀ l', Observed l' ∈ ins → universe l' = universe l) by (intros; rewrite <-Heq, <-Hu; eauto).
    intros l1 l2 [?|?] [?|?]; simplify_eq; eauto. symmetry; eauto.
  - split; [done|]. intros [_ Hone]. destruct Hne. rewrite <-Hu. eauto.
Qed.

(** The decision of [check_egress] as a function of the inputs alone. *)
Lemma check_egress_run ins d :
  check_egress (run_inputs ins) d = Ok tt ↔
  UnknownInput ∉ ins ∧ ∀ l, Observed l ∈ ins → can_flow_to l d = true.
Proof.
  pose proof (flow_inv_run ins) as Hinv. pose proof (unresolved_run ins) as Hun.
  unfold flow_inv in Hinv. unfold check_egress. setoid_rewrite can_flow_to_spec.
  destruct (unresolved_input _) eqn:Eu.
  { split; [done|]. intros [Hno Hall]. destruct Hun as [_ Hun]. discriminate Hun.
    split; [done|]. intros l1 l2 H1 H2. destruct (Hall _ H1), (Hall _ H2). congruence. }
  destruct Hun as [[Hno Hone] _]; [done|].
  destruct (accumulated _) as [acc|]; [|naive_solver].
  destruct Hinv as [(l0 & Hl0 & Hu) Hres]. destruct (Hres eq_refl) as [Hall Hd].
  case_bool_decide as Hne; [|destruct (rs_can_flow_to _ _) eqn:Hr; simpl].
  - split; [done|]. intros [_ Hfl]. destruct Hne. rewrite <-Hu. by apply Hfl.
  - rewrite Hd in Hr. split; [|done]. intros _. split; [done|].
    intros l Hl. split; [rewrite <-Hne; by apply Hall|by apply Hr].
  - split; [done|]. intros [_ Hfl]. enough (false = true) by done. rewrite <-Hr.
    apply Hd. intros l Hl. by apply Hfl.
Qed.

Lemma check_egress_unresolved ins d :
  check_egress (run_inputs ins) d = Err UnresolvedInput ↔
  ¬ (UnknownInput ∉ ins ∧ one_universe ins).
Proof.
  rewrite <-unresolved_run. unfold check_egress.
  destruct (unresolved_input _); [naive_solver|].
  split; [|by intros []]. destruct (accumulated _) as [acc|]; [|done]. by repeat case_match.
Qed.

Lemma check_egress_mismatch ins d :
  check_egress (run_inputs ins) d = Err DestinationUniverseMismatch ↔
  (UnknownInput ∉ ins ∧ one_universe ins) ∧
  ∃ l, Observed l ∈ ins ∧ universe l ≠ universe d.
Proof.
  pose proof (flow_inv_run ins) as Hinv. unfold flow_inv in Hinv.
  rewrite <-unresolved_run. unfold check_egress.
  destruct (unresolved_input _); [naive_solver|].
  destruct (accumulated _) as [acc|]; [|naive_solver].
  destruct Hinv as [(l0 & Hl0 & Hu) Hres]. destruct (Hres eq_refl) as [Hall _].
  case_bool_decide as Hne.
  - split; [|done]. intros _. split; [done|]. exists l0. by rewrite Hu.
  - split; [by case_match|]. intros (_ & l & Hl & Hul). destruct Hul.
    by rewrite (Hall l Hl).
Qed.

(** Every result of [check_egress] other than success is one of its errors. *)
Lemma check_egress_cases (s : FlowState) d :
  check_egress s d = Ok tt ∨ ∃ e, check_egress s d = Err e.
Proof. destruct (check_egress s d) as [[]|e]; eauto. Qed.

(** The decision of [FlowState::check_egress] after any sequence of
    [observe] and [mark_unknown] calls, on every branch: egress is allowed
    exactly when no input was unknown and every observed label may flow to
    the destination (nothing admitted earlier is forgotten by the joins);
    [UnresolvedInput] is reported exactly when an input was unknown or two
    inputs came from different universes; [DestinationUniverseMismatch] only
    when all inputs share a universe other than the destination's. *)
Theorem check_egress_decides (ins : list Input) (d : ConfidentialityLabel) :
  (check_egress (run_inputs ins) d = Ok tt ↔
     UnknownInput ∉ ins ∧ (∀ l, Observed l ∈ ins → can_flow_to l d = true)) ∧
  (check_egress (run_inputs ins) d = Err UnresolvedInput ↔
     ¬ (UnknownInput ∉ ins ∧ one_universe ins)) ∧
  (check_egress (run_inputs ins) d = Err DestinationUniverseMismatch ↔
     (UnknownInput ∉ ins ∧ one_universe ins) ∧
     ∃ l, Observed l ∈ ins ∧ universe l ≠ universe d).
Proof.
  split_and!; auto using check_egress_run, check_egress_unresolved, check_egress_mismatch.
Qed.

(** Reader sets form a lattice under [can_flow_to]: the relation is a
    partial order, [join] is the least label both inputs flow to, and [meet]
    the greatest label that flows to both. *)
Theorem reader_set_lattice :
  (∀ a, rs_can_flow_to a a = true) ∧
  (∀ a b c, rs_can_flow_to a b = true → rs_can_flow_to b c = true →
     rs_can_flow_to a c = true) ∧
  (∀ a b, rs_can_flow_to a b = true → rs_can_flow_to b a = true → a = b) ∧
  (∀ a b d, rs_can_flow_to (rs_join a b) d = true ↔
     rs_can_flow_to a d = true ∧ rs_can_flow_to b d = true) ∧
  (∀ a b s, rs_can_flow_to s (rs_meet a b) = true ↔
     rs_can_flow_to s a = true ∧ rs_can_flow_to s b = true).
Proof.
  split_and!.
  - intros a. rewrite rs_can_flow_to_spec. by destruct a.
  - intros a b c. rewrite !rs_can_flow_to_spec. destruct a, b, c; naive_solver set_solver.
  - intros a b. rewrite !rs_can_flow_to_spec. destruct a, b; try done.
    intros. f_equal. set_solver.
  - apply rs_can_flow_to_join.
  - intros a b s. rewrite !rs_can_flow_to_spec. destruct a, b, s; simpl; set_solver.
Qed.
End ifc.
