(* ===== verification/Conformance.v ===== *)
(** * Trace conformance checker

    [crates/buzz-conformance/src]: the trace schema of [lib.rs], [check_step] and
    [check_row_labels] of [transitions.rs] and [check_trace] of [checker.rs].
    Labels and ids are opaque strings; the human-readable [detail] of an error is
    kept as the data it prints.

    [conforms] says declaratively what the checker is there to enforce - one
    tenant throughout, no foreign row, no foreign claim behind an [Allow], no
    unknown exit, every required action present - and the claims relate the two. *)

From stdpp Require Import base gmap strings list sorting.
From Stdlib Require Import ZArith Lia.
From S2P Require Import Prelude.

(** ** The trace schema *)

Definition SCHEMA_VERSION : Z := 1.

Abbreviation CommunityLabel := string.
Abbreviation ChannelLabel := string.
Abbreviation OpaqueId := string.

Inductive Verdict := Allow | Deny.
Inductive SanitizedReason := Restricted | Invalid | ServerError.

#[export] Instance Verdict_eq_dec : EqDecision Verdict.
Proof. solve_decision. Defined.

Record AbstractState := {
  resolved_community : CommunityLabel;
  bound_host : string;
  actor : string;
}.

#[export] Instance AbstractState_eq_dec : EqDecision AbstractState.
Proof. solve_decision. Defined.

Inductive TraceAction :=
  | WriteInsert (msg_id : OpaqueId) (channel : ChannelLabel) (claimed : option CommunityLabel)
  | WriteInsertGlobal (msg_id : OpaqueId) (claimed : option CommunityLabel)
  | WriteDuplicate (msg_id : OpaqueId) (channel : ChannelLabel) (claimed : option CommunityLabel)
  | SanitizedError (reason : SanitizedReason)
  | AuthCheck (channel : ChannelLabel) (claimed : option CommunityLabel) (verdict : Verdict)
  | ReadMessageRows (channel : option ChannelLabel) (row_communities : list CommunityLabel)
  | ReadByIdRows (channel : option ChannelLabel) (row_communities : list CommunityLabel)
  | ReadHostFeedRows (row_communities : list CommunityLabel)
  | ImplBug (bug : string).

Definition kind (a : TraceAction) : string :=
  match a with
  | WriteInsert _ _ _ => "write_insert"
  | WriteInsertGlobal _ _ => "write_insert_global"
  | WriteDuplicate _ _ _ => "write_duplicate"
  | SanitizedError _ => "sanitized_error"
  | AuthCheck _ _ _ => "auth_check"
  | ReadMessageRows _ _ => "read_message_rows"
  | ReadByIdRows _ _ => "read_by_id_rows"
  | ReadHostFeedRows _ => "read_host_feed_rows"
  | ImplBug _ => "impl_bug"
  end.

Record TraceStep := {
  schema_version : Z;
  action : TraceAction;
  state_after : AbstractState;
}.

Definition new_step (a : TraceAction) (s : AbstractState) : TraceStep :=
  {| schema_version := SCHEMA_VERSION; action := a; state_after := s |}.

Definition action_channel (a : TraceAction) : option ChannelLabel :=
  match a with
  | WriteInsert _ c _ | WriteDuplicate _ c _ | AuthCheck c _ _ => Some c
  | ReadMessageRows c _ | ReadByIdRows c _ => c
  | WriteInsertGlobal _ _ | ReadHostFeedRows _ | SanitizedError _ | ImplBug _ => None
  end.

(** ** The transition checks *)

Inductive TransitionError :=
  | SchemaVersion (step_index : nat) (found : Z)
  | IllegalTransition (step_index : nat) (claimed resolved : CommunityLabel)
  | StateMismatch (step_index : nat) (bootstrap step : string)
  | NonInterference (step_index : nat) (foreign : CommunityLabel)
  | EmptyTrace
  | ImplBugEmitted (bug : string)
  | NeverEmitted (missing : list string).

Record ModelState := {
  model_community : CommunityLabel;
  model_host : string;
  model_actor : string;
}.

Definition bootstrap (first : AbstractState) : ModelState := {|
  model_community := resolved_community first;
  model_host := bound_host first;
  model_actor := actor first |}.

Definition check_row_labels (i : nat) (model : ModelState) (rows : list CommunityLabel)
    : result TransitionError unit :=
  match find (λ c, bool_decide (c ≠ model_community model)) rows with
  | Some foreign => Err (NonInterference i foreign)
  | None => Ok tt
  end.

Definition check_action (i : nat) (model : ModelState) (a : TraceAction)
    : result TransitionError unit :=
  match a with
  | WriteInsert _ _ _ | WriteInsertGlobal _ _ | WriteDuplicate _ _ _ => Ok tt
  | SanitizedError reason =>
      match reason with Restricted | Invalid | ServerError => Ok tt end
  | AuthCheck _ claimed verdict =>
      match verdict, claimed with
      | Allow, Some c =>
          if bool_decide (c ≠ model_community model)
          then Err (IllegalTransition i c (model_community model)) else Ok tt
      | _, _ => Ok tt
      end
  | ReadMessageRows _ rows | ReadByIdRows _ rows | ReadHostFeedRows rows =>
      check_row_labels i model rows
  | ImplBug bug => Err (ImplBugEmitted bug)
  end.

Definition check_step (i : nat) (model : ModelState) (step : TraceStep)
    : result TransitionError unit :=
  let s := state_after step in
  if bool_decide (resolved_community s ≠ model_community model) then
    Err (StateMismatch i (model_community model) (resolved_community s))
  else if bool_decide (bound_host s ≠ model_host model) then
    Err (StateMismatch i (model_host model) (bound_host s))
  else if bool_decide (actor s ≠ model_actor model) then
    Err (StateMismatch i (model_actor model) (actor s))
  else check_action i model (action step).

(** ** The replay engine *)

Record Scenario := {
  trace : list TraceStep;
  required_critical_actions : gset string;
}.

Definition unstructured (t : list TraceStep) : Scenario :=
  {| trace := t; required_critical_actions := ∅ |}.
Definition require (k : string) (s : Scenario) : Scenario :=
  {| trace := trace s; required_critical_actions := {[ k ]} ∪ required_critical_actions s |}.

Fixpoint check_steps (i : nat) (model : ModelState) (steps : list TraceStep)
    : result TransitionError unit :=
  match steps with
  | [] => Ok tt
  | step :: steps' =>
      if bool_decide (schema_version step ≠ SCHEMA_VERSION)
      then Err (SchemaVersion i (schema_version step))
      else _ ← check_step i model step; check_steps (S i) model steps'
  end.

Definition seen (steps : list TraceStep) : gset string := list_to_set ((λ s, kind (action s)) <$> steps).

Definition missing (s : Scenario) : list string :=
  merge_sort String.le (elements (required_critical_actions s ∖ seen (trace s))).

Definition check_trace (s : Scenario) : result TransitionError unit :=
  match trace s with
  | [] => Err EmptyTrace
  | first :: _ =>
      if bool_decide (schema_version first ≠ SCHEMA_VERSION)
      then Err (SchemaVersion 0 (schema_version first))
      else
        _ ← check_steps 0 (bootstrap (state_after first)) (trace s);
        match missing s with
        | [] => Ok tt
        | l => Err (NeverEmitted l)
        end
  end.

(** ** The specification *)

Definition rows_of (a : TraceAction) : list CommunityLabel :=
  match a with
  | ReadMessageRows _ rows | ReadByIdRows _ rows | ReadHostFeedRows rows => rows
  | _ => []
  end.

(** What an action may be, seen from one tenant: it returns that tenant's rows
    only ([Inv_NonInterference]), it allows nothing on a foreign claim, and it is
    not the guard of an unrecorded exit. *)
Definition allowed (c : CommunityLabel) (a : TraceAction) : Prop :=
  (∀ l, l ∈ rows_of a → l = c) ∧
  (∀ ch claim, a = AuthCheck ch (Some claim) Allow → claim = c) ∧
  (∀ bug, a ≠ ImplBug bug).

Definition step_conforms (st : AbstractState) (s : TraceStep) : Prop :=
  schema_version s = SCHEMA_VERSION ∧ state_after s = st ∧ allowed (resolved_community st) (action s).

Definition conforms (s : Scenario) : Prop :=
  trace s ≠ [] ∧
  (∃ st, Forall (step_conforms st) (trace s)) ∧
  ∀ k, k ∈ required_critical_actions s → ∃ step, step ∈ trace s ∧ kind (action step) = k.

(** ** Lemmas *)

Lemma find_some_iff {A} (p : A → bool) l x :
  find p l = Some x → ∃ l1 l2, l = l1 ++ x :: l2 ∧ p x = true ∧ Forall (λ y, p y = false) l1.
Proof.
  induction l as [|y l IH]; [done|]. simpl. destruct (p y) eqn:Hy.
  - intros [= <-]. exists [], l. auto.
  - intros (l1 & l2 & -> & Hx & Hl)%IH. exists (y :: l1), l2. auto.
Qed.

Lemma check_row_labels_ok i model rows :
  check_row_labels i model rows = Ok tt ↔ ∀ l, l ∈ rows → l = model_community model.
Proof.
  unfold check_row_labels. split.
  - intros H l Hl. destruct (find _ rows) eqn:Hf; [done|].
    pose proof (find_none _ _ Hf l (proj1 (list_elem_of_In _ _) Hl)) as Hn. simpl in Hn.
    apply bool_decide_eq_false in Hn. by apply dec_stable.
  - intros H. destruct (find _ rows) as [x|] eqn:Hf; [|done].
    apply find_some_iff in Hf as (l1 & l2 & -> & Hx%bool_decide_eq_true & _). destruct Hx. apply H. set_solver.
Qed.

Lemma check_action_ok i model a :
  check_action i model a = Ok tt ↔ allowed (model_community model) a.
Proof.
  unfold allowed. destruct a as [| | |[]|ch claimed verdict| | | |bug]; simpl;
    try (rewrite check_row_labels_ok; naive_solver);
    try (split; [intros _; split_and!; [by intros ? ?%elem_of_nil|done|done]|done]).
  - destruct verdict, claimed as [c|]; try (split; [intros _; split_and!; [by intros ? ?%elem_of_nil|done|done]|done]).
    destruct (bool_decide_reflect (c ≠ model_community model)) as [Hc|Hc].
    + split; [done|]. intros (_ & H & _). destruct Hc. by eapply H.
    + split; [intros _|done]. split_and!; [by intros ? ?%elem_of_nil| |done].
      intros ch' claim [= -> ->]. by apply dec_stable.
  - split; [done|]. intros (_ & _ & H). by destruct (H bug).
Qed.

Lemma check_step_ok i st step :
  check_step i (bootstrap st) step = Ok tt ↔
  state_after step = st ∧ allowed (resolved_community st) (action step).
Proof.
  unfold check_step. simpl. rewrite <-(check_action_ok i (bootstrap st)).
  destruct st as [c h a], (state_after step) as [c' h' a']; simpl.
  destruct (bool_decide_reflect (c' ≠ c)) as [| ->%dec_stable]; [naive_solver|].
  destruct (bool_decide_reflect (h' ≠ h)) as [| ->%dec_stable]; [naive_solver|].
  destruct (bool_decide_reflect (a' ≠ a)) as [| ->%dec_stable]; naive_solver.
Qed.

Lemma check_steps_ok i st steps :
  check_steps i (bootstrap st) steps = Ok tt ↔ Forall (step_conforms st) steps.
Proof.
  revert i. induction steps as [|s steps IH]; intros i; simpl; [split; [constructor|done]|].
  rewrite Forall_cons. unfold step_conforms at 1.
  destruct (bool_decide_reflect (schema_version s ≠ SCHEMA_VERSION)) as [Hv|Hv%dec_stable]; [naive_solver|].
  destruct (check_step i (bootstrap st) s) as [[]|e] eqn:Hs; simpl.
  - rewrite IH. apply check_step_ok in Hs. tauto.
  - split; [done|]. intros ((_ & H) & _). apply (check_step_ok i) in H. congruence.
Qed.

Lemma elem_of_seen k steps : k ∈ seen steps ↔ ∃ s, s ∈ steps ∧ kind (action s) = k.
Proof. unfold seen. rewrite elem_of_list_to_set, list_elem_of_fmap. naive_solver. Qed.

Lemma elem_of_missing k s :
  k ∈ missing s ↔ k ∈ required_critical_actions s ∧ ¬ ∃ step, step ∈ trace s ∧ kind (action step) = k.
Proof. unfold missing. by rewrite merge_sort_Permutation, elem_of_elements, elem_of_difference, elem_of_seen. Qed.

Lemma missing_nil s :
  missing s = [] ↔ ∀ k, k ∈ required_critical_actions s → ∃ step, step ∈ trace s ∧ kind (action step) = k.
Proof.
  split.
  - intros H k Hk. destruct (decide (k ∈ seen (trace s))) as [Hs|Hs]; [by apply elem_of_seen|].
    assert (k ∈ missing s) as Hm by (apply elem_of_missing; rewrite <-elem_of_seen; done).
    rewrite H in Hm. by apply elem_of_nil in Hm.
  - intros H. destruct (missing s) as [|k l] eqn:Hm; [done|].
    assert (k ∈ missing s) as [Hk Hn]%elem_of_missing by (rewrite Hm; left). destruct Hn. auto.
Qed.

(** An error of the step loop: every earlier step conforms, and this one is the
    first that does not. *)
Lemma check_steps_err i model st steps e :
  model = bootstrap st → check_steps i model steps = Err e →
  ∃ pre step post, steps = pre ++ step :: post ∧ Forall (step_conforms st) pre ∧
    ¬ step_conforms st step ∧
    (schema_version step ≠ SCHEMA_VERSION ∧ e = SchemaVersion (i + length pre) (schema_version step)
     ∨ schema_version step = SCHEMA_VERSION ∧ check_step (i + length pre) model step = Err e).
Proof.
  intros ->. revert i. induction steps as [|s steps IH]; intros i; [done|]. simpl.
  destruct (bool_decide_reflect (schema_version s ≠ SCHEMA_VERSION)) as [Hv|Hv%dec_stable].
  { intros [= <-]. exists [], s, steps. rewrite Nat.add_0_r. split_and!; [done|constructor| |by left].
    by intros (? & _). }
  destruct (check_step i (bootstrap st) s) as [[]|e'] eqn:Hs; simpl.
  - intros (pre & step & post & -> & Hpre & Hn & Herr)%IH. exists (s :: pre), step, post.
    simpl. rewrite <-Nat.add_succ_comm. split_and!; [done| |done|done].
    constructor; [|done]. split; [done|]. by apply check_step_ok in Hs.
  - intros [= <-]. exists [], s, steps. rewrite Nat.add_0_r. split_and!; [done|constructor| |by right].
    intros (_ & H). apply (check_step_ok i) in H. congruence.
Qed.

(** ** The claims *)

(** The checker accepts exactly the conforming scenarios; whether it does so
    does not depend on the order of the steps. *)
Theorem check_trace_iff s :
  (check_trace s = Ok tt ↔ conforms s) ∧
  (∀ t, t ≡ₚ trace s →
     check_trace {| trace := t; required_critical_actions := required_critical_actions s |} = Ok tt
     ↔ check_trace s = Ok tt).
Proof.
  assert (∀ s, check_trace s = Ok tt ↔ conforms s) as Hiff.
  { clear s. intros s. unfold check_trace, conforms. rewrite <-missing_nil.
    destruct (trace s) as [|first rest] eqn:Ht; [naive_solver|].
    destruct (bool_decide_reflect (schema_version first ≠ SCHEMA_VERSION)) as [Hv|Hv%dec_stable].
    { split; [done|]. intros (_ & (st & [(? & _) _]%Forall_cons) & _). done. }
    destruct (check_steps 0 (bootstrap (state_after first)) (first :: rest)) as [[]|e] eqn:Hs; cbn -[missing].
    - apply check_steps_ok in Hs. destruct (missing s); naive_solver.
    - split; [done|]. intros (_ & (st & Hst) & _).
      assert (state_after first = st) as <- by (by apply Forall_cons in Hst as [(_ & ? & _) _]).
      apply (check_steps_ok 0) in Hst. congruence. }
  split; [done|]. intros t Hp. rewrite !Hiff. unfold conforms. simpl.
  assert (∀ P, Forall P t ↔ Forall P (trace s)) as Hf by (intros P; by rewrite Hp).
  assert (t = [] ↔ trace s = []) as Hn.
  { split; intros H; [rewrite H in Hp; by apply Permutation_nil_l in Hp|rewrite H in Hp; by apply Permutation_nil_r in Hp]. }
  assert (∀ x, x ∈ t ↔ x ∈ trace s) as Hel by (intros x; by rewrite Hp).
  setoid_rewrite Hf. setoid_rewrite Hel. naive_solver.
Qed.

(** A rejection is the first violation and says what it is.  A step error
    names the first step that does not conform to the first step's tenant, all
    earlier ones conforming: a foreign row really is on it, an [Allow] was really
    claimed for the other community, the state really changed.  A coverage error
    after them lists exactly the required kinds that never occurred, in order. *)
Theorem check_trace_first_violation s first rest e :
  trace s = first :: rest → check_trace s = Err e →
  let st := state_after first in
  (∃ l, e = NeverEmitted l ∧ l ≠ [] ∧ Forall (step_conforms st) (trace s) ∧ Sorted String.le l ∧
     ∀ k, k ∈ l ↔ k ∈ required_critical_actions s ∧ ¬ ∃ step, step ∈ trace s ∧ kind (action step) = k) ∨
  ∃ pre step post, trace s = pre ++ step :: post ∧ Forall (step_conforms st) pre ∧
    match e with
    | SchemaVersion i v => i = length pre ∧ v = schema_version step ∧ v ≠ SCHEMA_VERSION
    | StateMismatch i _ _ => i = length pre ∧ state_after step ≠ st
    | NonInterference i c => i = length pre ∧ state_after step = st ∧
        c ∈ rows_of (action step) ∧ c ≠ resolved_community st
    | IllegalTransition i c r => i = length pre ∧ state_after step = st ∧ r = resolved_community st ∧
        c ≠ r ∧ ∃ ch, action step = AuthCheck ch (Some c) Allow
    | ImplBugEmitted bug => state_after step = st ∧ action step = ImplBug bug
    | EmptyTrace | NeverEmitted _ => False
    end.
Proof.
  intros Ht He st. unfold check_trace in He. rewrite Ht in He.
  destruct (bool_decide_reflect (schema_version first ≠ SCHEMA_VERSION)) as [Hv|Hv].
  { injection He as <-. right. exists [], first, rest. split_and!; [done|constructor|done..]. }
  fold st in He.
  destruct (check_steps 0 (bootstrap st) (first :: rest)) as [[]|e'] eqn:Hs; unfold mbind, result_bind in He.
  - left. apply check_steps_ok in Hs. exists (missing s).
    destruct (missing s) as [|k l] eqn:Hm; [done|]. injection He as <-.
    split_and!; [done|done|by rewrite Ht|rewrite <-Hm; apply (Sorted_merge_sort String.le)|].
    intros k'. rewrite <-Hm. apply elem_of_missing.
  - right. injection He as ->. rewrite Ht.
    destruct (check_steps_err _ _ st _ _ eq_refl Hs) as (pre & step & post & Hsplit & Hpre & _ & Herr).
    exists pre, step, post. split_and!; [done|done|].
    destruct Herr as [[Hn ->]|[_ Herr]]; [done|]. simpl in Herr. unfold check_step in Herr. simpl in Herr.
    destruct (bool_decide_reflect (resolved_community (state_after step) ≠ resolved_community st));
      [injection Herr as <-; split; [done|congruence]|].
    destruct (bool_decide_reflect (bound_host (state_after step) ≠ bound_host st));
      [injection Herr as <-; split; [done|congruence]|].
    destruct (bool_decide_reflect (actor (state_after step) ≠ actor st));
      [injection Herr as <-; split; [done|congruence]|].
    assert (state_after step = st) as Hst.
    { destruct (state_after step), st; simpl in *. f_equal; by apply dec_stable. }
    assert (∀ rows, check_row_labels (length pre) (bootstrap st) rows = Err e →
              ∃ c, e = NonInterference (length pre) c ∧ c ∈ rows ∧ c ≠ resolved_community st) as Hrows.
    { intros rows. unfold check_row_labels. destruct (find _ rows) as [c|] eqn:Hf; [|done]. intros [= <-].
      apply find_some_iff in Hf as (l1 & l2 & -> & Hc%bool_decide_eq_true & _). exists c.
      split_and!; [done|set_solver|done]. }
    destruct (action step) as [| | |[]|ch [claim|] []|ch rows|ch rows|rows|bug] eqn:Ha; simpl in Herr; try done.
    + destruct (bool_decide_reflect (claim ≠ resolved_community st)); [|done].
      injection Herr as <-. split_and!; [done|done|done|done|]. by exists ch.
    + destruct (Hrows _ Herr) as (c & -> & ? & ?). done.
    + destruct (Hrows _ Herr) as (c & -> & ? & ?). done.
    + destruct (Hrows _ Herr) as (c & -> & ? & ?). done.
    + injection Herr as <-. done.
Qed.

(** ** Witness: a read that leaks a row of another community *)

Definition tenant : AbstractState :=
  {| resolved_community := "acme"; bound_host := "h1"; actor := "a1" |}.
Definition leaking : Scenario :=
  unstructured [new_step (WriteInsert "m1" "general" None) tenant;
                new_step (ReadMessageRows None ["acme"; "other"]%string) tenant].

Lemma check_trace_first_violation_witness :
  check_trace leaking = Err (NonInterference 1 "other") ∧
  ∃ pre step post, trace leaking = pre ++ step :: post ∧ "other"%string ∈ rows_of (action step).
Proof.
  split; [by vm_compute|].
  destruct (check_trace_first_violation leaking (new_step (WriteInsert "m1" "general" None) tenant)
    [new_step (ReadMessageRows None ["acme"; "other"]%string) tenant] (NonInterference 1 "other")
    eq_refl ltac:(by vm_compute)) as [(l & H & _)|(pre & step & post & H1 & _ & _ & _ & H2 & _)].
  - discriminate H.
  - exists pre, step, post. split; [exact H1|exact H2].
Defined.
