(* ===== verification/Queue.v ===== *)
(** * The agent's event queue ([crates/buzz-acp/src/queue.rs])

    One partition ([SessionScope]) per agent session, at most one turn in
    flight per partition, with retry backoff, cancelled carryover and events
    withheld while a native steer is pending.

    [Instant] is a [Z] of nanoseconds and every call that reads the clock takes
    [now]; [requeue] also takes the subsecond nanoseconds it uses as jitter.
    The jittered delay is the exact rational value rounded to a nanosecond (the
    code computes it in [f64]).  [IntoScope] is the identity on scopes and
    [Conversation] on channel ids, so operations take a [SessionScope]. *)

From stdpp Require Import base gmap strings list fin_maps sorting.
From Stdlib Require Import ZArith Lia.
From S2P Require Import Prelude Nostr Scope.

Local Open Scope string_scope.
Local Open Scope list_scope.

(** ** Constants and data *)

Definition MAX_PENDING_PER_SCOPE : nat := 500.
Definition MAX_PENDING_PER_CHANNEL : nat := 500.
Definition MAX_BATCH_EVENTS : nat := 50.
Definition MAX_RETRIES : Z := 10.
Definition BASE_RETRY_DELAY_SECS : Z := 5.
Definition MAX_RETRY_DELAY_SECS : Z := 300.
Definition IN_FLIGHT_DEADLINE_BUFFER_SECS : Z := 100.
Definition DEFAULT_IN_FLIGHT_DEADLINE_SECS : Z := 7300.

Definition nanos_per_sec : Z := 1000000000.
(** [Duration::from_secs] *)
Definition from_secs (s : Z) : Z := (s * nanos_per_sec)%Z.

Record QueuedEvent : Type := MkQueued {
  qe_channel_id : Uuid;
  qe_scope : SessionScope;
  qe_event : Event;
  qe_received_at : Z;
  qe_prompt_tag : string;
}.

Record BatchEvent : Type := MkBatchEvent {
  be_event : Event;
  be_prompt_tag : string;
  be_received_at : Z;
}.

Inductive CancelReason : Type := Interrupt | Steer.

Record FlushBatch : Type := MkBatch {
  fb_channel_id : Uuid;
  fb_scope : SessionScope;
  fb_events : list BatchEvent;
  fb_cancelled_events : list BatchEvent;
  fb_cancel_reason : option CancelReason;
}.

Inductive DedupMode : Type := Drop | QueueMode.

Record EventQueue : Type := MkQueue {
  queues : gmap SessionScope (list QueuedEvent);
  in_flight_scopes : gset SessionScope;
  in_flight_deadlines : gmap SessionScope Z;
  in_flight_batch_sizes : gmap SessionScope nat;
  retry_after : gmap SessionScope Z;
  retry_counts : gmap SessionScope Z;
  dedup_mode : DedupMode;
  cancelled_batches : gmap SessionScope (list BatchEvent);
  finished_turns : list (string * bool);
  cancel_reasons : gmap SessionScope CancelReason;
  withheld_native_steer : gmap SessionScope (list QueuedEvent);
  in_flight_deadline : Z;
}.

#[export] Instance DedupMode_eq_dec : EqDecision DedupMode.
Proof. solve_decision. Defined.
#[export] Instance CancelReason_eq_dec : EqDecision CancelReason.
Proof. solve_decision. Defined.
#[export] Instance BatchEvent_eq_dec : EqDecision BatchEvent.
Proof. solve_decision. Defined.
#[export] Instance QueuedEvent_eq_dec : EqDecision QueuedEvent.
Proof. solve_decision. Defined.
#[export] Instance FlushBatch_eq_dec : EqDecision FlushBatch.
Proof. solve_decision. Defined.

(** Assignments to one field (or to the in-flight fields together). *)
Definition set_queues (m : gmap SessionScope (list QueuedEvent)) (q : EventQueue) : EventQueue :=
  MkQueue m (in_flight_scopes q) (in_flight_deadlines q) (in_flight_batch_sizes q)
    (retry_after q) (retry_counts q) (dedup_mode q) (cancelled_batches q)
    (finished_turns q) (cancel_reasons q) (withheld_native_steer q)
    (in_flight_deadline q).
Definition set_in_flight (fl : gset SessionScope) (dl : gmap SessionScope Z)
    (sz : gmap SessionScope nat) (q : EventQueue) : EventQueue :=
  MkQueue (queues q) fl dl sz (retry_after q) (retry_counts q) (dedup_mode q)
    (cancelled_batches q) (finished_turns q) (cancel_reasons q)
    (withheld_native_steer q) (in_flight_deadline q).
Definition set_retry (ra rc : gmap SessionScope Z) (q : EventQueue) : EventQueue :=
  MkQueue (queues q) (in_flight_scopes q) (in_flight_deadlines q) (in_flight_batch_sizes q)
    ra rc (dedup_mode q) (cancelled_batches q) (finished_turns q) (cancel_reasons q)
    (withheld_native_steer q) (in_flight_deadline q).
Definition set_cancelled (cb : gmap SessionScope (list BatchEvent))
    (cr : gmap SessionScope CancelReason) (q : EventQueue) : EventQueue :=
  MkQueue (queues q) (in_flight_scopes q) (in_flight_deadlines q) (in_flight_batch_sizes q)
    (retry_after q) (retry_counts q) (dedup_mode q) cb (finished_turns q) cr
    (withheld_native_steer q) (in_flight_deadline q).
Definition set_finished_turns (l : list (string * bool)) (q : EventQueue) : EventQueue :=
  MkQueue (queues q) (in_flight_scopes q) (in_flight_deadlines q) (in_flight_batch_sizes q)
    (retry_after q) (retry_counts q) (dedup_mode q) (cancelled_batches q) l
    (cancel_reasons q) (withheld_native_steer q) (in_flight_deadline q).
Definition set_withheld (m : gmap SessionScope (list QueuedEvent)) (q : EventQueue) : EventQueue :=
  MkQueue (queues q) (in_flight_scopes q) (in_flight_deadlines q) (in_flight_batch_sizes q)
    (retry_after q) (retry_counts q) (dedup_mode q) (cancelled_batches q)
    (finished_turns q) (cancel_reasons q) m (in_flight_deadline q).
Definition set_deadline (d : Z) (q : EventQueue) : EventQueue :=
  MkQueue (queues q) (in_flight_scopes q) (in_flight_deadlines q) (in_flight_batch_sizes q)
    (retry_after q) (retry_counts q) (dedup_mode q) (cancelled_batches q)
    (finished_turns q) (cancel_reasons q) (withheld_native_steer q) d.

Definition queue_new (mode : DedupMode) : EventQueue :=
  MkQueue ∅ ∅ ∅ ∅ ∅ ∅ mode ∅ [] ∅ ∅ (from_secs DEFAULT_IN_FLIGHT_DEADLINE_SECS).

Definition with_in_flight_deadline (q : EventQueue) (max_turn_duration_secs : Z) : EventQueue :=
  set_deadline (from_secs (max_turn_duration_secs + IN_FLIGHT_DEADLINE_BUFFER_SECS)) q.

Definition extend_in_flight_deadline (now : Z) (scope : SessionScope) (max_turn_secs : Z)
    (q : EventQueue) : EventQueue :=
  match in_flight_deadlines q !! scope with
  | None => q
  | Some current =>
      let extended := (now + from_secs (max_turn_secs + IN_FLIGHT_DEADLINE_BUFFER_SECS))%Z in
      if (current <? extended)%Z then
        set_in_flight (in_flight_scopes q) (<[scope := extended]> (in_flight_deadlines q))
          (in_flight_batch_sizes q) q
      else q
  end.

(** ** Lists as deques *)

(** [entry(scope).or_default()] *)
Definition queue_of (m : gmap SessionScope (list QueuedEvent)) (scope : SessionScope)
    : list QueuedEvent := default [] (m !! scope).

(** Store a partition, removing its entry when it is empty. *)
Definition put_back (scope : SessionScope) (l : list QueuedEvent)
    (m : gmap SessionScope (list QueuedEvent)) : gmap SessionScope (list QueuedEvent) :=
  if bool_decide (l = []) then delete scope m else <[scope := l]> m.

(** [while queue.len() > MAX_PENDING_PER_SCOPE { queue.pop_back(); }]; the fuel
    is the length, which every turn decreases. *)
Fixpoint pop_back_loop (fuel : nat) (l : list QueuedEvent) : list QueuedEvent :=
  if (MAX_PENDING_PER_SCOPE <? length l)%nat then
    match fuel with
    | O => l
    | S fuel => pop_back_loop fuel (removelast l)
    end
  else l.
Definition trim_scope (l : list QueuedEvent) : list QueuedEvent := pop_back_loop (length l) l.

(** [for x in xs.rev() { queue.push_front(x) }] *)
Definition push_front_all (xs queue : list QueuedEvent) : list QueuedEvent :=
  fold_left (λ q x, x :: q) (rev xs) queue.

Definition head_received_at (entry : SessionScope * list QueuedEvent) : Z :=
  match entry.2 with [] => 0 | x :: _ => qe_received_at x end.

Definition is_empty {A} (l : list A) : bool := match l with [] => true | _ => false end.

Definition to_batch_event (x : QueuedEvent) : BatchEvent :=
  MkBatchEvent (qe_event x) (qe_prompt_tag x) (qe_received_at x).

Definition to_queued (channel_id : Uuid) (scope : SessionScope) (be : BatchEvent) : QueuedEvent :=
  MkQueued channel_id scope (be_event be) (be_received_at be) (be_prompt_tag be).

(** Position of the event with this id, [iter().position(..)]. *)
Definition position_of (event_id : string) (l : list QueuedEvent) : option nat :=
  fst <$> list_find (λ x, ev_id (qe_event x) = event_id) l.

Section queue.
Context {MI : MapIter SessionScope}.

(** ** The aggregate cap *)

Definition channel_event_total (q : EventQueue) (ch : Uuid) : nat :=
  sum_with (λ e, length e.2) (filter (λ e, scope_channel e.1 = ch) (map_iter (queues q))).

Definition cap_victim (q : EventQueue) (ch : Uuid) : option SessionScope :=
  fst <$> min_by_key head_received_at
    (filter (λ e, scope_channel e.1 = ch ∧ is_empty e.2 = false) (map_iter (queues q))).

(** [if let Some(q) = queues.get_mut(&scope) { pop_front; remove if empty }] *)
Definition pop_victim (scope : SessionScope) (q : EventQueue) : EventQueue :=
  match queues q !! scope with
  | None => q
  | Some l =>
      set_queues (put_back scope (tail l) (queues q)) q
  end.

Fixpoint enforce_cap_loop (fuel : nat) (ch : Uuid) (q : EventQueue) : EventQueue :=
  if (MAX_PENDING_PER_CHANNEL <? channel_event_total q ch)%nat then
    match fuel with
    | O => q
    | S fuel =>
        match cap_victim q ch with
        | None => q
        | Some scope => enforce_cap_loop fuel ch (pop_victim scope q)
        end
    end
  else q.

(** Every turn removes one event, so the total is enough fuel. *)
Definition enforce_channel_cap (ch : Uuid) (q : EventQueue) : EventQueue :=
  enforce_cap_loop (channel_event_total q ch) ch q.

(** ** Admission *)

Definition push (ev : QueuedEvent) (q : EventQueue) : bool * EventQueue :=
  if bool_decide (dedup_mode q = Drop) && bool_decide (qe_scope ev ∈ in_flight_scopes q)
  then (false, q)
  else
    let queue := queue_of (queues q) (qe_scope ev) in
    let queue := if (MAX_PENDING_PER_SCOPE <=? length queue)%nat then tail queue else queue in
    let q := set_queues (<[qe_scope ev := queue ++ [ev]]> (queues q)) q in
    (true, enforce_channel_cap (qe_channel_id ev) q).

(** ** Expiry of turns that never reported completion *)

Definition recover_withheld_for_expired_scope (scope : SessionScope) (q : EventQueue)
    : EventQueue :=
  match withheld_native_steer q !! scope with
  | None => q
  | Some entries =>
      let q := set_withheld (delete scope (withheld_native_steer q)) q in
      let queue := trim_scope (push_front_all entries (queue_of (queues q) scope)) in
      enforce_channel_cap (scope_channel scope)
        (set_queues (<[scope := queue]> (queues q)) q)
  end.

Definition expire_one (q : EventQueue) (scope : SessionScope) : EventQueue :=
  recover_withheld_for_expired_scope scope
    (set_in_flight (in_flight_scopes q ∖ {[scope]}) (delete scope (in_flight_deadlines q))
       (delete scope (in_flight_batch_sizes q)) q).

Definition expired_scopes (now : Z) (q : EventQueue) : list SessionScope :=
  (filter (λ e, e.2 ≤ now)%Z (map_iter (in_flight_deadlines q))).*1.

Definition expire_in_flight (now : Z) (q : EventQueue) : EventQueue :=
  fold_left expire_one (expired_scopes now q) q.

(** ** Dispatch *)

Definition ready (now : Z) (q : EventQueue) (e : SessionScope * list QueuedEvent) : bool :=
  negb (is_empty e.2) && bool_decide (e.1 ∉ in_flight_scopes q) &&
  match retry_after q !! e.1 with None => true | Some t => (t <=? now)%Z end.

Definition pick_ready (now : Z) (q : EventQueue) : option SessionScope :=
  fst <$> min_by_key head_received_at (filter (λ e, ready now q e = true) (map_iter (queues q))).

Definition idle_cancelled (q : EventQueue) : option SessionScope :=
  snd <$> list_find (λ s, s ∉ in_flight_scopes q) (map_iter (cancelled_batches q)).*1.

Definition start_turn (now : Z) (scope : SessionScope) (size : nat) (q : EventQueue)
    : EventQueue :=
  set_in_flight ({[scope]} ∪ in_flight_scopes q)
    (<[scope := (now + in_flight_deadline q)%Z]> (in_flight_deadlines q))
    (<[scope := size]> (in_flight_batch_sizes q)) q.

Definition flush_cancelled (now : Z) (scope : SessionScope) (q : EventQueue)
    : FlushBatch * EventQueue :=
  let cancelled := default [] (cancelled_batches q !! scope) in
  let reason := cancel_reasons q !! scope in
  let q := set_cancelled (delete scope (cancelled_batches q))
             (delete scope (cancel_reasons q)) q in
  (MkBatch (scope_channel scope) scope cancelled [] reason,
   start_turn now scope (length cancelled) q).

Definition flush_scope (now : Z) (scope : SessionScope) (q : EventQueue)
    : FlushBatch * EventQueue :=
  let queue := queue_of (queues q) scope in
  let drain_count := Nat.min MAX_BATCH_EVENTS (length queue) in
  let events := sort_by_key (λ be, ev_created_at (be_event be))
                  (map to_batch_event (take drain_count queue)) in
  let rest := drop drain_count queue in
  let q := set_queues (put_back scope rest (queues q)) q in
  let q := start_turn now scope (length events) q in
  let cancelled_events := default [] (cancelled_batches q !! scope) in
  let cancel_reason :=
    if is_empty cancelled_events then None else cancel_reasons q !! scope in
  let q := set_cancelled (delete scope (cancelled_batches q))
             (delete scope (cancel_reasons q)) q in
  (MkBatch (scope_channel scope) scope events cancelled_events cancel_reason, q).

Definition flush_next (now : Z) (q : EventQueue) : option FlushBatch * EventQueue :=
  let q := expire_in_flight now q in
  match pick_ready now q with
  | Some scope => let '(b, q') := flush_scope now scope q in (Some b, q')
  | None =>
      match idle_cancelled q with
      | Some scope => let '(b, q') := flush_cancelled now scope q in (Some b, q')
      | None => (None, q)
      end
  end.

Definition has_flushable_work (now : Z) (q : EventQueue) : bool * EventQueue :=
  let q := expire_in_flight now q in
  (existsb (ready now q) (map_iter (queues q)) ||
   existsb (λ s, bool_decide (s ∉ in_flight_scopes q)) (map_iter (cancelled_batches q)).*1, q).

(** ** Completion and retry *)

Definition mark_complete (now : Z) (scope : SessionScope) (q : EventQueue) : EventQueue :=
  let q := set_in_flight (in_flight_scopes q ∖ {[scope]}) (delete scope (in_flight_deadlines q))
             (delete scope (in_flight_batch_sizes q)) q in
  match retry_after q !! scope with
  | Some deadline =>
      if (now <? deadline)%Z then q
      else set_retry (delete scope (retry_after q)) (delete scope (retry_counts q)) q
  | None => set_retry (retry_after q) (delete scope (retry_counts q)) q
  end.

(** Seconds before jitter: [BASE * 2^(attempt-1)], the shift at most 6, capped. *)
Definition capped_secs (attempt : Z) : Z :=
  Z.min (Z.min (BASE_RETRY_DELAY_SECS * Z.shiftl 1 (Z.min (attempt - 1) 6)) u64_max)
    MAX_RETRY_DELAY_SECS.

(** [capped_secs * (0.8 + (nanos / u32::MAX) * 0.4)] seconds, in nanoseconds. *)
Definition retry_delay (attempt nanos : Z) : Z :=
  let u32_max := (2 ^ 32 - 1)%Z in
  let num := (capped_secs attempt * nanos_per_sec * (4 * u32_max + 2 * nanos))%Z in
  let den := (5 * u32_max)%Z in
  ((2 * num + den) / (2 * den))%Z.

Definition requeue (now nanos : Z) (batch : FlushBatch) (q : EventQueue)
    : option FlushBatch * EventQueue :=
  let scope := fb_scope batch in
  let attempt := (default 0 (retry_counts q !! scope) + 1)%Z in
  let q := set_retry (retry_after q) (<[scope := attempt]> (retry_counts q)) q in
  if (MAX_RETRIES <? attempt)%Z then
    (Some batch, set_retry (delete scope (retry_after q)) (delete scope (retry_counts q)) q)
  else
    let delay := retry_delay attempt nanos in
    let queue := trim_scope
      (push_front_all (map (to_queued (fb_channel_id batch) scope) (fb_events batch))
         (queue_of (queues q) scope)) in
    let q := set_queues (<[scope := queue]> (queues q)) q in
    let q := set_retry (<[scope := (now + delay)%Z]> (retry_after q)) (retry_counts q) q in
    (None, enforce_channel_cap (fb_channel_id batch) q).

(** The cancelled carryover of a held batch goes back before what a
    concurrent cancel staged; the staged reason wins. *)
Definition restore_carryover (batch : FlushBatch) (q : EventQueue) : EventQueue :=
  let scope := fb_scope batch in
  if is_empty (fb_cancelled_events batch) then q
  else
    let existing := default [] (cancelled_batches q !! scope) in
    set_cancelled (<[scope := fb_cancelled_events batch ++ existing]> (cancelled_batches q))
      (match fb_cancel_reason batch with
       | Some reason =>
           match cancel_reasons q !! scope with
           | Some _ => cancel_reasons q
           | None => <[scope := reason]> (cancel_reasons q)
           end
       | None => cancel_reasons q
       end) q.

Definition requeue_preserve_timestamps (batch : FlushBatch) (q : EventQueue) : EventQueue :=
  let scope := fb_scope batch in
  let q := restore_carryover batch q in
  let queue := trim_scope
    (push_front_all (map (to_queued (fb_channel_id batch) scope) (fb_events batch))
       (queue_of (queues q) scope)) in
  enforce_channel_cap (fb_channel_id batch) (set_queues (<[scope := queue]> (queues q)) q).

Definition requeue_as_cancelled (batch : FlushBatch) (reason : CancelReason) (q : EventQueue)
    : EventQueue :=
  let scope := fb_scope batch in
  let entry := default [] (cancelled_batches q !! scope) in
  set_cancelled
    (<[scope := (entry ++ fb_cancelled_events batch) ++ fb_events batch]> (cancelled_batches q))
    (<[scope := reason]> (cancel_reasons q)) q.

(** ** Queries *)

Definition has_undispatched_work (q : EventQueue) : bool :=
  existsb (λ e, negb (is_empty e.2) && bool_decide (e.1 ∉ in_flight_scopes q))
    (map_iter (queues q)) ||
  existsb (λ s, bool_decide (s ∉ in_flight_scopes q)) (map_iter (cancelled_batches q)).*1 ||
  existsb (λ e, negb (is_empty e.2) && bool_decide (e.1 ∉ in_flight_scopes q))
    (map_iter (withheld_native_steer q)).

Definition pending_channels (q : EventQueue) : nat := size (queues q).

Definition pending_events (q : EventQueue) : list Event :=
  map qe_event (concat (map_iter (queues q)).*2).

Definition holds_event (event_id : string) (q : EventQueue) : bool :=
  existsb (λ x, bool_decide (ev_id (qe_event x) = event_id)) (concat (map_iter (queues q)).*2) ||
  existsb (λ x, bool_decide (ev_id (be_event x) = event_id))
    (concat (map_iter (cancelled_batches q)).*2).

Definition record_finished_turn (turn_id : string) (answered : bool) (q : EventQueue)
    : EventQueue :=
  set_finished_turns (finished_turns q ++ [(turn_id, answered)]) q.

Definition take_finished_turns (q : EventQueue) : list (string * bool) * EventQueue :=
  (finished_turns q, set_finished_turns [] q).

Definition has_pending_scope (scope : SessionScope) (q : EventQueue) : bool :=
  match queues q !! scope with Some l => negb (is_empty l) | None => false end ||
  match cancelled_batches q !! scope with Some l => negb (is_empty l) | None => false end.

Definition is_scope_in_flight (scope : SessionScope) (q : EventQueue) : bool :=
  bool_decide (scope ∈ in_flight_scopes q).

Definition has_in_flight (q : EventQueue) : bool := bool_decide (in_flight_scopes q ≠ ∅).

(** ** Leaving a channel *)

Definition not_of_channel {V} (ch : Uuid) (e : SessionScope * V) : Prop :=
  scope_channel e.1 ≠ ch.

Definition drain_one (acc : list string * gmap SessionScope (list QueuedEvent))
    (scope : SessionScope) : list string * gmap SessionScope (list QueuedEvent) :=
  let '(ids, m) := acc in
  match m !! scope with
  | None => (ids, m)
  | Some l => (ids ++ map (λ x, ev_id (qe_event x)) l, delete scope m)
  end.

Definition drain_channel (ch : Uuid) (q : EventQueue) : list string * EventQueue :=
  let scopes := filter (λ s, scope_channel s = ch) (map_iter (queues q)).*1 in
  let '(ids, m) := fold_left drain_one scopes ([], queues q) in
  let q := set_queues m q in
  let q := set_retry (filter (not_of_channel ch) (retry_after q))
             (filter (not_of_channel ch) (retry_counts q)) q in
  let q := set_cancelled (filter (not_of_channel ch) (cancelled_batches q))
             (filter (not_of_channel ch) (cancel_reasons q)) q in
  (ids, set_withheld (filter (not_of_channel ch) (withheld_native_steer q)) q).

(** ** Native steer: events withheld while a steer is being delivered *)

Definition mark_native_steer_pending (scope : SessionScope) (event_id : string)
    (q : EventQueue) : bool * EventQueue :=
  match queues q !! scope with
  | None => (false, q)
  | Some l =>
      match position_of event_id l with
      | None => (false, q)
      | Some pos =>
          match l !! pos with
          | None => (false, q)
          | Some qe =>
              let q := set_queues (put_back scope (delete pos l) (queues q)) q in
              let w := default [] (withheld_native_steer q !! scope) in
              (true, set_withheld (<[scope := w ++ [qe]]> (withheld_native_steer q)) q)
          end
      end
  end.

Definition release_native_steer (scope : SessionScope) (event_id : string) (q : EventQueue)
    : EventQueue :=
  match withheld_native_steer q !! scope with
  | None => q
  | Some entries =>
      match position_of event_id entries with
      | None => q
      | Some pos =>
          match entries !! pos with
          | None => q
          | Some qe =>
              let q := set_withheld
                (put_back scope (delete pos entries) (withheld_native_steer q)) q in
              let queue := trim_scope (qe :: queue_of (queues q) scope) in
              enforce_channel_cap (scope_channel scope)
                (set_queues (<[scope := queue]> (queues q)) q)
          end
      end
  end.

Definition retain_other (event_id : string) (m : gmap SessionScope (list QueuedEvent))
    (scope : SessionScope) : gmap SessionScope (list QueuedEvent) :=
  match m !! scope with
  | None => m
  | Some l =>
      put_back scope (filter (λ x, ev_id (qe_event x) ≠ event_id) l) m
  end.

Definition remove_event (scope : SessionScope) (event_id : string) (q : EventQueue)
    : EventQueue :=
  let q := set_withheld (retain_other event_id (withheld_native_steer q) scope) q in
  set_queues (retain_other event_id (queues q) scope) q.

Definition keeps_retry_count (q : EventQueue) (e : SessionScope * Z) : bool :=
  bool_decide (is_Some (retry_after q !! e.1)) ||
  match queues q !! e.1 with Some l => negb (is_empty l) | None => false end ||
  bool_decide (e.1 ∈ in_flight_scopes q).

Definition compact_expired_state (now : Z) (q : EventQueue) : EventQueue :=
  let q := set_retry (filter (λ e, now < e.2)%Z (retry_after q)) (retry_counts q) q in
  set_retry (retry_after q) (filter (λ e, keeps_retry_count q e = true) (retry_counts q)) q.
End queue.

Local Open Scope nat_scope.

(** ** Deques *)

Lemma is_empty_false {A} (l : list A) : is_empty l = false ↔ l ≠ [].
Proof. by destruct l. Qed.

Lemma is_empty_true {A} (l : list A) : is_empty l = true ↔ l = [].
Proof. by destruct l. Qed.

Lemma removelast_take {A} (l : list A) : removelast l = take (length l - 1) l.
Proof.
  induction l as [|x l IH]; [done|]. cbn [removelast length].
  destruct l as [|y l]; [done|]. rewrite IH. cbn [length].
  by replace (S (S (length l)) - 1) with (S (S (length l) - 1)) by lia.
Qed.

Lemma pop_back_loop_take fuel l :
  length l ≤ fuel → pop_back_loop fuel l = take MAX_PENDING_PER_SCOPE l.
Proof.
  revert l. induction fuel as [|fuel IH]; intros l Hlen; cbn [pop_back_loop].
  - destruct l; simpl in *; [done|lia].
  - destruct (Nat.ltb_spec MAX_PENDING_PER_SCOPE (length l)); [|by rewrite take_ge].
    rewrite removelast_take, IH by (rewrite length_take; lia).
    rewrite take_take. f_equal. lia.
Qed.

Lemma trim_scope_take l : trim_scope l = take MAX_PENDING_PER_SCOPE l.
Proof. by apply pop_back_loop_take. Qed.

Lemma push_front_all_app xs l : push_front_all xs l = xs ++ l.
Proof.
  unfold push_front_all. rewrite <-fold_left_rev_right, rev_involutive. induction xs; simpl; congruence.
Qed.

Lemma queue_of_put s l m s' :
  queue_of (put_back s l m) s' = if decide (s' = s) then l else queue_of m s'.
Proof.
  unfold queue_of, put_back. case_bool_decide; case_decide; subst;
    by rewrite ?lookup_delete_eq, ?lookup_insert_eq, ?lookup_delete_ne, ?lookup_insert_ne.
Qed.

Lemma queue_of_insert s l m s' :
  queue_of (<[s := l]> m) s' = if decide (s' = s) then l else queue_of m s'.
Proof.
  unfold queue_of. case_decide; subst; by rewrite ?lookup_insert_eq, ?lookup_insert_ne.
Qed.

Lemma queue_of_delete s m s' :
  queue_of (delete s m) s' = if decide (s' = s) then [] else queue_of m s'.
Proof.
  unfold queue_of. case_decide; subst; by rewrite ?lookup_delete_eq, ?lookup_delete_ne.
Qed.

Lemma queue_of_lookup m s l : m !! s = Some l → queue_of m s = l.
Proof. unfold queue_of. by intros ->. Qed.

Lemma position_of_lookup id l i :
  position_of id l = Some i → ∃ x, l !! i = Some x ∧ ev_id (qe_event x) = id.
Proof.
  unfold position_of. intros H. apply fmap_Some in H as ([j x] & Hf & ->).
  apply list_find_Some in Hf as (? & ? & _). eauto.
Qed.

Lemma position_of_None id l :
  position_of id l = None ↔ ∀ x, x ∈ l → ev_id (qe_event x) ≠ id.
Proof.
  unfold position_of. rewrite fmap_None, list_find_None, Forall_forall. done.
Qed.

(** ** The number of events queued for a channel *)

Definition weight (ch : Uuid) (e : SessionScope * list QueuedEvent) : nat :=
  if decide (scope_channel e.1 = ch) then length e.2 else 0.

Definition chan_total (m : gmap SessionScope (list QueuedEvent)) (ch : Uuid) : nat :=
  sum_with (weight ch) (map_to_list m).

Lemma chan_total_delete m s ch :
  chan_total m ch = weight ch (s, queue_of m s) + chan_total (delete s m) ch.
Proof.
  unfold queue_of, chan_total. destruct (m !! s) as [l|] eqn:E; simpl.
  - rewrite <-(insert_delete_id m s l E) at 1.
    rewrite (sum_with_perm _ _ _ (map_to_list_insert _ _ _ (lookup_delete_eq m s))). done.
  - rewrite delete_id by done. unfold weight. simpl. by case_decide.
Qed.

Lemma chan_total_insert m s l ch :
  chan_total (<[s := l]> m) ch = weight ch (s, l) + chan_total (delete s m) ch.
Proof.
  rewrite (chan_total_delete _ s). f_equal.
  - by rewrite queue_of_insert, decide_True.
  - by rewrite delete_insert_eq.
Qed.

Lemma chan_total_put m s l ch :
  chan_total (put_back s l m) ch = weight ch (s, l) + chan_total (delete s m) ch.
Proof.
  unfold put_back. case_bool_decide; subst; [|apply chan_total_insert].
  unfold weight. simpl. by case_decide.
Qed.

Lemma weight_other s l ch : scope_channel s ≠ ch → weight ch (s, l) = 0.
Proof. intros. unfold weight. simpl. by rewrite decide_False. Qed.

Lemma chan_total_put_other m s l ch :
  scope_channel s ≠ ch → chan_total (put_back s l m) ch = chan_total m ch.
Proof.
  intros. rewrite chan_total_put, (chan_total_delete m s), !weight_other by done. done.
Qed.

Lemma chan_total_insert_other m s l ch :
  scope_channel s ≠ ch → chan_total (<[s := l]> m) ch = chan_total m ch.
Proof.
  intros. rewrite chan_total_insert, (chan_total_delete m s), !weight_other by done. done.
Qed.

Lemma chan_total_queue_of m s : length (queue_of m s) ≤ chan_total m (scope_channel s).
Proof.
  rewrite (chan_total_delete m s). unfold weight. simpl. rewrite decide_True by done. lia.
Qed.

Lemma chan_total_pos m ch :
  0 < chan_total m ch ↔ ∃ s l, m !! s = Some l ∧ l ≠ [] ∧ scope_channel s = ch.
Proof.
  unfold chan_total. rewrite sum_with_pos. split.
  - intros ([s l] & Hin & Hw). apply elem_of_map_to_list in Hin. unfold weight in Hw.
    simpl in Hw. case_decide; [|lia]. exists s, l. split_and!; try done. intros ->. simpl in Hw. lia.
  - intros (s & l & Hm & Hl & Hs). exists (s, l). split; [by apply elem_of_map_to_list|].
    unfold weight. simpl. rewrite decide_True by done. destruct l; simpl; [done|lia].
Qed.

Lemma sum_with_weight_filter ch l :
  sum_with (λ e, length e.2) (filter (λ e, scope_channel e.1 = ch) l) = sum_with (weight ch) l.
Proof.
  induction l as [|e l IH]; [done|]. rewrite filter_cons.
  change (sum_with (weight ch) (e :: l)) with (weight ch e + sum_with (weight ch) l).
  rewrite <-IH. unfold weight. by case_decide.
Qed.

Section cap.
Context {MI : MapIter SessionScope}.
Implicit Types (q : EventQueue) (s : SessionScope) (ch : Uuid).

Lemma channel_event_total_eq q ch : channel_event_total q ch = chan_total (queues q) ch.
Proof.
  unfold channel_event_total, chan_total. rewrite sum_with_weight_filter.
  apply sum_with_perm, map_iter_perm.
Qed.

(** The victim is the channel's partition with the oldest head. *)
Lemma cap_victim_spec q ch s :
  cap_victim q ch = Some s →
  ∃ x l, queue_of (queues q) s = x :: l ∧ scope_channel s = ch ∧ is_Some (queues q !! s) ∧
    ∀ s' y l', queue_of (queues q) s' = y :: l' → scope_channel s' = ch →
      (qe_received_at x ≤ qe_received_at y)%Z.
Proof.
  unfold cap_victim. intros H. apply fmap_Some in H as ([s0 l0] & Hm & ->). simpl.
  apply min_by_key_Some in Hm as [Hin Hmin].
  apply list_elem_of_filter in Hin as [[Hch Hne] Hin]. simpl in *.
  apply elem_of_map_iter in Hin. destruct l0 as [|x l]; [done|].
  exists x, l. rewrite (queue_of_lookup _ _ _ Hin). split_and!; try done.
  intros s' y l' Hs' Hch'. unfold queue_of in Hs'.
  destruct (queues q !! s') as [l2|] eqn:E; simplify_eq/=.
  apply (Hmin (s', y :: l')). apply list_elem_of_filter. split; [done|].
  by apply elem_of_map_iter.
Qed.

Lemma cap_victim_exists q ch : 0 < chan_total (queues q) ch → is_Some (cap_victim q ch).
Proof.
  intros (s & l & Hm & Hl & Hs)%chan_total_pos. unfold cap_victim. apply fmap_is_Some.
  destruct (min_by_key _ _) eqn:E; [by eexists|]. apply min_by_key_None in E.
  assert ((s, l) ∈ filter (λ e, scope_channel e.1 = ch ∧ is_empty e.2 = false)
    (map_iter (queues q))) as Hin.
  { apply list_elem_of_filter. split; [split; [done|by apply is_empty_false]|].
    by apply elem_of_map_iter. }
  rewrite E in Hin. by apply not_elem_of_nil in Hin.
Qed.

Lemma pop_victim_queues q s :
  is_Some (queues q !! s) →
  pop_victim s q = set_queues (put_back s (tail (queue_of (queues q) s)) (queues q)) q.
Proof. intros [l Hl]. unfold pop_victim, queue_of. by rewrite Hl. Qed.

Lemma set_queues_id q : set_queues (queues q) q = q.
Proof. by destruct q. Qed.

(** What the loop does: it leaves [n] fewer events than it found, each queue
    a suffix of what it was, and touches nothing else. *)
Record capped (ch : Uuid) (q q' : EventQueue) : Prop := {
  capped_frame : q' = set_queues (queues q') q;
  capped_suffix : ∀ s, ∃ n, queue_of (queues q') s = drop n (queue_of (queues q) s);
  capped_other : ∀ s, scope_channel s ≠ ch → queues q' !! s = queues q !! s;
  capped_keys : ∀ s, is_Some (queues q' !! s) → is_Some (queues q !! s);
  capped_total : ∀ ch', ch' ≠ ch → chan_total (queues q') ch' = chan_total (queues q) ch';
}.

Lemma capped_refl ch q : capped ch q q.
Proof. split; [by rewrite set_queues_id|by exists 0|done..]. Qed.

Lemma capped_trans ch q1 q2 q3 : capped ch q1 q2 → capped ch q2 q3 → capped ch q1 q3.
Proof.
  intros [F1 S1 O1 K1 T1] [F2 S2 O2 K2 T2]. split.
  - rewrite F2, F1. by destruct q1.
  - intros s. destruct (S1 s) as [n1 H1], (S2 s) as [n2 H2].
    exists (n1 + n2). by rewrite H2, H1, drop_drop.
  - intros s Hs. by rewrite O2, O1.
  - auto.
  - intros ch' Hch. by rewrite T2, T1.
Qed.

Lemma lookup_put s l m s' :
  s' ≠ s → put_back s l m !! s' = m !! s'.
Proof.
  intros. unfold put_back. case_bool_decide; by rewrite ?lookup_delete_ne, ?lookup_insert_ne.
Qed.

Lemma capped_pop ch q s :
  is_Some (queues q !! s) → scope_channel s = ch → capped ch q (pop_victim s q).
Proof.
  intros Hs Hch. rewrite pop_victim_queues by done. split; simpl.
  - done.
  - intros s'. rewrite queue_of_put. case_decide; subst; [|by exists 0].
    exists 1. by destruct (queue_of _ _).
  - intros s' Hs'. apply lookup_put. congruence.
  - intros s'. destruct (decide (s' = s)) as [->|]; [done|]. by rewrite lookup_put.
  - intros ch' Hch'. apply chan_total_put_other. congruence.
Qed.

Lemma chan_total_pop q s :
  is_Some (queues q !! s) → queue_of (queues q) s ≠ [] →
  chan_total (queues q) (scope_channel s) =
  S (chan_total (queues (pop_victim s q)) (scope_channel s)).
Proof.
  intros Hs Hne. rewrite pop_victim_queues by done. simpl.
  rewrite chan_total_put, (chan_total_delete (queues q) s). unfold weight. simpl.
  rewrite !decide_True by done. destruct (queue_of _ _); simpl; [done|lia].
Qed.

Lemma enforce_cap_loop_spec fuel ch q :
  chan_total (queues q) ch ≤ fuel →
  let q' := enforce_cap_loop fuel ch q in
  capped ch q q' ∧
  chan_total (queues q') ch = Nat.min (chan_total (queues q) ch) MAX_PENDING_PER_CHANNEL.
Proof.
  revert q. induction fuel as [|fuel IH]; intros q Hfuel; cbn [enforce_cap_loop];
    rewrite channel_event_total_eq;
    destruct (Nat.ltb_spec MAX_PENDING_PER_CHANNEL (chan_total (queues q) ch)) as [Hlt|Hge];
    try (split; [apply capped_refl|lia]); try lia.
  destruct (cap_victim_exists q ch) as [s Hs]; [lia|]. rewrite Hs.
  apply cap_victim_spec in Hs as (x & l & Hl & Hch & Hk & _).
  assert (S (chan_total (queues (pop_victim s q)) ch) = chan_total (queues q) ch) as Hstep.
  { rewrite <-Hch, <-chan_total_pop; [done|done|]. by rewrite Hl. }
  destruct (IH (pop_victim s q)) as [Hc Ht]; [lia|]. split.
  - eapply capped_trans; [by apply capped_pop|done].
  - rewrite Ht. unfold MAX_PENDING_PER_CHANNEL in *. lia.
Qed.

Lemma enforce_channel_cap_capped ch q : capped ch q (enforce_channel_cap ch q).
Proof. apply enforce_cap_loop_spec. by rewrite channel_event_total_eq. Qed.

Lemma enforce_channel_cap_total ch q :
  chan_total (queues (enforce_channel_cap ch q)) ch =
  Nat.min (chan_total (queues q) ch) MAX_PENDING_PER_CHANNEL.
Proof. apply enforce_cap_loop_spec. by rewrite channel_event_total_eq. Qed.

Lemma enforce_channel_cap_id ch q :
  chan_total (queues q) ch ≤ MAX_PENDING_PER_CHANNEL → enforce_channel_cap ch q = q.
Proof.
  intros H. unfold enforce_channel_cap. destruct (channel_event_total q ch) eqn:E;
    cbn [enforce_cap_loop]; rewrite channel_event_total_eq;
    by destruct (Nat.ltb_spec MAX_PENDING_PER_CHANNEL (chan_total (queues q) ch)); [lia|].
Qed.
End cap.

(** ** The invariant *)

Definition at_home (m : gmap SessionScope (list QueuedEvent)) : Prop :=
  ∀ s x, x ∈ queue_of m s → qe_scope x = s ∧ qe_channel_id x = scope_channel s.

Record queue_wf (q : EventQueue) : Prop := {
  wf_total : ∀ ch, chan_total (queues q) ch ≤ MAX_PENDING_PER_CHANNEL;
  wf_home : at_home (queues q);
  wf_withheld_home : at_home (withheld_native_steer q);
  wf_withheld_nonempty : ∀ s, withheld_native_steer q !! s ≠ Some [];
  wf_deadlines : dom (in_flight_deadlines q) = in_flight_scopes q;
  wf_sizes : dom (in_flight_batch_sizes q) = in_flight_scopes q;
  wf_reasons : dom (cancel_reasons q) ⊆ dom (cancelled_batches q);
  wf_retries : ∀ s n, retry_counts q !! s = Some n → (1 ≤ n ≤ MAX_RETRIES)%Z;
}.

(** Batches name the channel of their scope. *)
Definition batch_ok (b : FlushBatch) : Prop := fb_channel_id b = scope_channel (fb_scope b).

(** One call of a mutating method; [queue_step] leaves the queries out. *)
Inductive queue_step {MI : MapIter SessionScope} (q : EventQueue) : EventQueue → Prop :=
  | step_push ev : qe_channel_id ev = scope_channel (qe_scope ev) →
      queue_step q (push ev q).2
  | step_flush now : queue_step q (flush_next now q).2
  | step_has_work now : queue_step q (has_flushable_work now q).2
  | step_complete now s : queue_step q (mark_complete now s q)
  | step_requeue now nanos b : batch_ok b → queue_step q (requeue now nanos b q).2
  | step_hold b : batch_ok b → queue_step q (requeue_preserve_timestamps b q)
  | step_cancelled b r : queue_step q (requeue_as_cancelled b r q)
  | step_extend now s secs : queue_step q (extend_in_flight_deadline now s secs q)
  | step_set_deadline secs : queue_step q (with_in_flight_deadline q secs)
  | step_record t a : queue_step q (record_finished_turn t a q)
  | step_take : queue_step q (take_finished_turns q).2
  | step_drain ch : queue_step q (drain_channel ch q).2
  | step_withhold s id : queue_step q (mark_native_steer_pending s id q).2
  | step_release s id : queue_step q (release_native_steer s id q)
  | step_remove s id : queue_step q (remove_event s id q)
  | step_compact now : queue_step q (compact_expired_state now q).

Definition queue_reachable {MI : MapIter SessionScope} (mode : DedupMode) (q : EventQueue)
    : Prop := rtc queue_step (queue_new mode) q.

Lemma chan_total_empty ch : chan_total ∅ ch = 0.
Proof. unfold chan_total. by rewrite map_to_list_empty. Qed.

Lemma queue_of_empty s : queue_of ∅ s = [].
Proof. unfold queue_of. by rewrite lookup_empty. Qed.

Lemma queue_new_wf mode : queue_wf (queue_new mode).
Proof.
  split; simpl; try (by rewrite ?dom_empty_L); try done.
  - intros ch. rewrite chan_total_empty. lia.
  - intros s x. rewrite queue_of_empty. by intros []%not_elem_of_nil.
  - intros s x. rewrite queue_of_empty. by intros []%not_elem_of_nil.
Qed.

Lemma at_home_put s l m :
  at_home m → (∀ x, x ∈ l → qe_scope x = s ∧ qe_channel_id x = scope_channel s) →
  at_home (put_back s l m).
Proof. intros Hm Hl s' x. rewrite queue_of_put. case_decide; subst; [apply Hl|apply Hm]. Qed.

Lemma at_home_insert s l m :
  at_home m → (∀ x, x ∈ l → qe_scope x = s ∧ qe_channel_id x = scope_channel s) →
  at_home (<[s := l]> m).
Proof. intros Hm Hl s' x. rewrite queue_of_insert. case_decide; subst; [apply Hl|apply Hm]. Qed.

Lemma at_home_delete s m : at_home m → at_home (delete s m).
Proof. intros Hm s' x. rewrite queue_of_delete. case_decide; [set_solver|apply Hm]. Qed.

Lemma put_nonempty s l m : (∀ s', m !! s' ≠ Some []) → ∀ s', put_back s l m !! s' ≠ Some [].
Proof.
  intros Hm s'. destruct (decide (s' = s)) as [->|].
  - unfold put_back. case_bool_decide; rewrite ?lookup_delete_eq, ?lookup_insert_eq; congruence.
  - by rewrite lookup_put.
Qed.

Section wf.
Context {MI : MapIter SessionScope}.
Implicit Types (q : EventQueue) (s : SessionScope) (ch : Uuid).

Lemma at_home_capped ch q q' : capped ch q q' → at_home (queues q) → at_home (queues q').
Proof.
  intros Hc Hh s x Hx. destruct (capped_suffix _ _ _ Hc s) as [n Hn]. rewrite Hn in Hx.
  apply Hh. rewrite <-(take_drop n). set_solver.
Qed.

(** The cap repairs a queue to which one partition was written. *)
Lemma enforce_wf q s l :
  queue_wf q → (∀ x, x ∈ l → qe_scope x = s ∧ qe_channel_id x = scope_channel s) →
  queue_wf (enforce_channel_cap (scope_channel s) (set_queues (<[s := l]> (queues q)) q)).
Proof.
  intros Hwf Hl. set (q1 := set_queues _ q).
  pose proof (enforce_channel_cap_capped (scope_channel s) q1) as Hc.
  pose proof (enforce_channel_cap_total (scope_channel s) q1) as Ht.
  set (q2 := enforce_channel_cap (scope_channel s) q1) in *.
  assert (∀ ch, chan_total (queues q2) ch ≤ MAX_PENDING_PER_CHANNEL) as Htot.
  { intros ch. destruct (decide (ch = scope_channel s)) as [->|Hne]; [lia|].
    rewrite (capped_total _ _ _ Hc ch Hne). simpl.
    rewrite chan_total_insert_other by done. apply Hwf. }
  assert (at_home (queues q2)) as Hhome.
  { apply (at_home_capped _ _ _ Hc). simpl. apply at_home_insert; [apply Hwf|done]. }
  rewrite (capped_frame _ _ _ Hc). destruct Hwf. by split.
Qed.

Lemma put_wf q s l :
  queue_wf q → l ⊆ queue_of (queues q) s → length l ≤ length (queue_of (queues q) s) →
  queue_wf (set_queues (put_back s l (queues q)) q).
Proof.
  intros Hwf Hsub Hlen. destruct Hwf as [Htot Hhome]. split; simpl; try done.
  - intros ch. specialize (Htot ch). rewrite chan_total_put.
    rewrite (chan_total_delete _ s) in Htot. unfold weight in *. simpl in *.
    case_decide; lia.
  - apply at_home_put; [done|]. intros x Hx. by apply Hhome, Hsub.
Qed.

Lemma set_withheld_wf q m :
  queue_wf q → at_home m → (∀ s, m !! s ≠ Some []) → queue_wf (set_withheld m q).
Proof. intros [] ??. by split. Qed.

Lemma set_in_flight_wf q fl dl sz :
  queue_wf q → dom dl = fl → dom sz = fl → queue_wf (set_in_flight fl dl sz q).
Proof. intros [] ??. by split. Qed.

Lemma set_retry_wf q ra rc :
  queue_wf q → (∀ s n, rc !! s = Some n → (1 ≤ n ≤ MAX_RETRIES)%Z) →
  queue_wf (set_retry ra rc q).
Proof. intros [] ?. by split. Qed.

Lemma set_cancelled_wf q cb cr :
  queue_wf q → dom cr ⊆ dom cb → queue_wf (set_cancelled cb cr q).
Proof. intros [] ?. by split. Qed.

Lemma end_turn_wf q s :
  queue_wf q →
  queue_wf (set_in_flight (in_flight_scopes q ∖ {[s]}) (delete s (in_flight_deadlines q))
              (delete s (in_flight_batch_sizes q)) q).
Proof.
  intros Hwf. apply set_in_flight_wf; [done|..]; rewrite dom_delete_L;
    by rewrite ?(wf_deadlines _ Hwf), ?(wf_sizes _ Hwf).
Qed.

Lemma start_turn_wf now s n q : queue_wf q → queue_wf (start_turn now s n q).
Proof.
  intros Hwf. apply set_in_flight_wf; [done|..]; rewrite dom_insert_L;
    by rewrite ?(wf_deadlines _ Hwf), ?(wf_sizes _ Hwf).
Qed.

Lemma drop_cancelled_wf q s :
  queue_wf q →
  queue_wf (set_cancelled (delete s (cancelled_batches q)) (delete s (cancel_reasons q)) q).
Proof.
  intros Hwf. apply set_cancelled_wf; [done|]. rewrite !dom_delete_L.
  pose proof (wf_reasons _ Hwf). set_solver.
Qed.

Lemma recover_wf s q : queue_wf q → queue_wf (recover_withheld_for_expired_scope s q).
Proof.
  intros Hwf. unfold recover_withheld_for_expired_scope. case_match eqn:E; [|done].
  apply (enforce_wf (set_withheld _ q)).
  - apply set_withheld_wf; [done|apply at_home_delete, Hwf|].
    intros s'. destruct (decide (s' = s)) as [->|];
      rewrite ?lookup_delete_eq, ?lookup_delete_ne; [done|apply Hwf|done].
  - intros x. rewrite trim_scope_take, push_front_all_app. intros Hx%subseteq_take.
    apply elem_of_app in Hx as [Hx|Hx]; [|by apply Hwf].
    apply (wf_withheld_home _ Hwf). by rewrite (queue_of_lookup _ _ _ E).
Qed.

Lemma expire_one_wf q s : queue_wf q → queue_wf (expire_one q s).
Proof. intros. by apply recover_wf, end_turn_wf. Qed.

Lemma expire_in_flight_wf now q : queue_wf q → queue_wf (expire_in_flight now q).
Proof.
  unfold expire_in_flight. generalize (expired_scopes now q). intros l. revert q.
  induction l as [|s l IH]; intros q Hwf; simpl; [done|]. by apply IH, expire_one_wf.
Qed.

Lemma flush_scope_wf now s q : queue_wf q → queue_wf (flush_scope now s q).2.
Proof.
  intros Hwf. unfold flush_scope. cbn [snd].
  apply drop_cancelled_wf, start_turn_wf, put_wf; [done|apply subseteq_drop|].
  rewrite length_drop. lia.
Qed.

Lemma flush_cancelled_wf now s q : queue_wf q → queue_wf (flush_cancelled now s q).2.
Proof. intros Hwf. unfold flush_cancelled. cbn [snd]. by apply start_turn_wf, drop_cancelled_wf. Qed.

Lemma flush_next_wf now q : queue_wf q → queue_wf (flush_next now q).2.
Proof.
  intros Hwf%(expire_in_flight_wf now). unfold flush_next. cbv zeta.
  set (q' := expire_in_flight now q) in *. clearbody q'.
  destruct (pick_ready now q') as [s|].
  - pose proof (flush_scope_wf now s q' Hwf). by destruct (flush_scope now s q').
  - destruct (idle_cancelled q') as [s|]; [|done].
    pose proof (flush_cancelled_wf now s q' Hwf). by destruct (flush_cancelled now s q').
Qed.

Lemma push_wf ev q :
  queue_wf q → qe_channel_id ev = scope_channel (qe_scope ev) → queue_wf (push ev q).2.
Proof.
  intros Hwf Hev. unfold push. case_match; [done|]. cbn [snd]. rewrite Hev.
  apply enforce_wf; [done|].
  intros x [Hx| ->%list_elem_of_singleton]%elem_of_app; [|done]. apply Hwf.
  case_match; [|done]. by destruct (queue_of _ _); [|right].
Qed.

Lemma mark_complete_wf now s q : queue_wf q → queue_wf (mark_complete now s q).
Proof.
  intros Hwf%(end_turn_wf q s). unfold mark_complete. cbv zeta.
  set (q' := set_in_flight _ _ _ q) in *. clearbody q'.
  assert (queue_wf (set_retry (retry_after q') (delete s (retry_counts q')) q')) as H.
  { apply set_retry_wf; [done|]. intros s' n [_ ?]%lookup_delete_Some. by eapply wf_retries. }
  repeat case_match; try done. by destruct H.
Qed.

Lemma push_batch_wf s (b : FlushBatch) q :
  queue_wf q → batch_ok b → fb_scope b = s →
  queue_wf (enforce_channel_cap (fb_channel_id b) (set_queues (<[s := trim_scope
    (push_front_all (map (to_queued (fb_channel_id b) s) (fb_events b))
       (queue_of (queues q) s))]> (queues q)) q)).
Proof.
  intros Hwf Hb Hs. unfold batch_ok in Hb. rewrite Hb, Hs. apply enforce_wf; [done|].
  intros x. rewrite trim_scope_take, push_front_all_app. intros Hx%subseteq_take.
  apply elem_of_app in Hx as [Hx|Hx]; [|by apply Hwf].
  apply list_elem_of_In, in_map_iff in Hx as (be & <- & _). done.
Qed.

Lemma requeue_wf now nanos b q :
  queue_wf q → batch_ok b → queue_wf (requeue now nanos b q).2.
Proof.
  intros Hwf Hb. unfold requeue. cbv zeta. set (n := (default 0 _ + 1)%Z).
  assert (1 ≤ n)%Z as Hn.
  { unfold n. destruct (retry_counts q !! fb_scope b) eqn:E; simpl; [|lia].
    apply (wf_retries _ Hwf) in E. lia. }
  destruct (Z.ltb_spec MAX_RETRIES n) as [Hlt|Hge]; cbn [snd].
  - destruct Hwf as [????????]. split; try done. simpl.
    intros s' m [? Hm]%lookup_delete_Some. rewrite lookup_insert_ne in Hm by done. eauto.
  - set (ra := <[fb_scope b := _]> _).
    change (set_retry ra _ (set_queues ?m _)) with
      (set_queues m (set_retry ra (<[fb_scope b := n]> (retry_counts q)) q)).
    apply (push_batch_wf _ b (set_retry ra (<[fb_scope b := n]> (retry_counts q)) q)); try done.
    apply set_retry_wf; [done|]. intros s' m. rewrite lookup_insert.
    case_decide; [intros [= <-]; lia|]. apply (wf_retries _ Hwf).
Qed.

Lemma restore_carryover_wf b q : queue_wf q → queue_wf (restore_carryover b q).
Proof.
  intros Hwf. unfold restore_carryover. case_match; [done|].
  apply set_cancelled_wf; [done|]. pose proof (wf_reasons _ Hwf).
  rewrite dom_insert_L. repeat case_match; rewrite ?dom_insert_L; set_solver.
Qed.

Lemma hold_wf b q : queue_wf q → batch_ok b → queue_wf (requeue_preserve_timestamps b q).
Proof.
  intros Hwf Hb. unfold requeue_preserve_timestamps. cbv zeta.
  apply push_batch_wf; [by apply restore_carryover_wf|done..].
Qed.

Lemma requeue_as_cancelled_wf b r q : queue_wf q → queue_wf (requeue_as_cancelled b r q).
Proof.
  intros Hwf. apply set_cancelled_wf; [done|]. rewrite !dom_insert_L.
  pose proof (wf_reasons _ Hwf). set_solver.
Qed.

Lemma extend_wf now s secs q : queue_wf q → queue_wf (extend_in_flight_deadline now s secs q).
Proof.
  intros Hwf. unfold extend_in_flight_deadline. case_match eqn:E; [|done]. case_match; [|done].
  apply set_in_flight_wf; [done|..|apply Hwf].
  rewrite dom_insert_L, (wf_deadlines _ Hwf). apply elem_of_dom_2 in E.
  rewrite (wf_deadlines _ Hwf) in E. set_solver.
Qed.

Lemma retain_other_home id m s : at_home m → at_home (retain_other id m s).
Proof.
  intros Hm. unfold retain_other. case_match eqn:E; [|done]. apply at_home_put; [done|].
  intros x [_ Hx]%list_elem_of_filter. apply Hm. by rewrite (queue_of_lookup _ _ _ E).
Qed.

Lemma remove_event_wf s id q : queue_wf q → queue_wf (remove_event s id q).
Proof.
  intros Hwf. unfold remove_event. cbv zeta.
  assert (queue_wf (set_withheld (retain_other id (withheld_native_steer q) s) q)) as H1.
  { apply set_withheld_wf; [done|apply retain_other_home, Hwf|]. unfold retain_other.
    case_match; [apply put_nonempty|]; apply Hwf. }
  set (q' := set_withheld _ q) in *. clearbody q'.
  unfold retain_other. case_match eqn:E; [|by rewrite set_queues_id].
  apply put_wf; [done|..]; rewrite (queue_of_lookup _ _ _ E).
  - intros x. by rewrite list_elem_of_filter; intros [].
  - apply length_filter.
Qed.

Lemma withhold_wf s id q : queue_wf q → queue_wf (mark_native_steer_pending s id q).2.
Proof.
  intros Hwf. unfold mark_native_steer_pending. repeat case_match; try done. cbn [snd].
  rename H into E, H1 into Hi.
  apply set_withheld_wf; simpl.
  - apply put_wf; [done|..]; rewrite (queue_of_lookup _ _ _ E);
      [apply list_subseteq_delete|rewrite length_delete by eauto; lia].
  - apply at_home_insert; [apply Hwf|].
    intros x [Hx| ->%list_elem_of_singleton]%elem_of_app;
      [by apply (wf_withheld_home _ Hwf)|].
    apply Hwf. rewrite (queue_of_lookup _ _ _ E). by eapply list_elem_of_lookup_2.
  - intros s'. rewrite lookup_insert. case_decide; [|apply Hwf].
    intros [= Hnil]. by apply app_eq_nil in Hnil as [_ ?].
Qed.

Lemma release_wf s id q : queue_wf q → queue_wf (release_native_steer s id q).
Proof.
  intros Hwf. unfold release_native_steer. repeat case_match; try done.
  rename H into E, H1 into Hi.
  assert (∀ x, x ∈ l → qe_scope x = s ∧ qe_channel_id x = scope_channel s) as Hl.
  { intros x Hx. apply (wf_withheld_home _ Hwf). by rewrite (queue_of_lookup _ _ _ E). }
  apply (enforce_wf (set_withheld _ q)).
  - apply set_withheld_wf; [done|apply at_home_put|apply put_nonempty; apply Hwf].
    + apply Hwf.
    + intros x Hx%list_subseteq_delete. auto.
  - intros x. rewrite trim_scope_take. intros Hx%subseteq_take.
    apply elem_of_cons in Hx as [->|Hx]; [|by apply Hwf].
    by eapply Hl, list_elem_of_lookup_2.
Qed.

Lemma compact_wf now q : queue_wf q → queue_wf (compact_expired_state now q).
Proof.
  intros Hwf. unfold compact_expired_state. cbv zeta. destruct Hwf as [????????].
  split; try done. simpl. intros s n [Hn _]%map_lookup_filter_Some. eauto.
Qed.

Lemma drain_fold_lookup scopes ids m s :
  (fold_left drain_one scopes (ids, m)).2 !! s = if decide (s ∈ scopes) then None else m !! s.
Proof.
  revert ids m. induction scopes as [|s' scopes IH]; intros ids m; [done|].
  cbn [fold_left drain_one]. destruct (m !! s') as [l|] eqn:E; rewrite IH.
  - destruct (decide (s = s')) as [->|Hne].
    + rewrite lookup_delete_eq. repeat case_decide; set_solver.
    + rewrite lookup_delete_ne by done. repeat case_decide; set_solver.
  - destruct (decide (s = s')) as [->|Hne]; [rewrite E|]; repeat case_decide; set_solver.
Qed.

Lemma drain_fold_ids scopes ids m :
  NoDup scopes →
  (fold_left drain_one scopes (ids, m)).1 =
  ids ++ concat (map (λ s, map (λ x, ev_id (qe_event x)) (queue_of m s)) scopes).
Proof.
  intros Hnd. revert ids m. induction Hnd as [|s scopes Hs Hnd IH]; intros ids m.
  - simpl. by rewrite app_nil_r.
  - cbn [fold_left drain_one map concat]. unfold queue_of at 1.
    destruct (m !! s) as [l|] eqn:E; rewrite IH; simpl; [|done].
    rewrite <-app_assoc. do 3 f_equal. apply map_ext_in. intros s' Hin%list_elem_of_In.
    rewrite queue_of_delete, decide_False; [done|]. by intros ->.
Qed.

Lemma drain_fold_total scopes ids m ch :
  chan_total (fold_left drain_one scopes (ids, m)).2 ch ≤ chan_total m ch.
Proof.
  revert ids m. induction scopes as [|s scopes IH]; intros ids m; [done|].
  cbn [fold_left drain_one]. destruct (m !! s); rewrite IH; [|done].
  rewrite (chan_total_delete m s). lia.
Qed.

Lemma drain_channel_parts ch q :
  ∃ ids m,
    fold_left drain_one (filter (λ s, scope_channel s = ch) (map_iter (queues q)).*1)
      ([], queues q) = (ids, m) ∧
    (drain_channel ch q).1 = ids ∧
    queues (drain_channel ch q).2 = m ∧
    m = filter (not_of_channel ch) (queues q).
Proof.
  destruct (fold_left drain_one _ _) as [ids m] eqn:E. exists ids, m.
  unfold drain_channel. cbv zeta. rewrite E. split_and!; try done.
  apply map_eq. intros s. replace m with (ids, m).2 by done. rewrite <-E, drain_fold_lookup.
  destruct (queues q !! s) as [l|] eqn:Es.
  - assert (s ∈ (map_iter (queues q)).*1) as Hin by (apply map_iter_keys; by eexists).
    case_decide as Hd; rewrite list_elem_of_filter in Hd.
    + symmetry. apply map_lookup_filter_None. right. intros l' _. unfold not_of_channel. tauto.
    + symmetry. apply map_lookup_filter_Some. split; [done|]. unfold not_of_channel.
      simpl. tauto.
  - replace (if decide _ then _ else _) with (@None (list QueuedEvent)) by by case_decide.
    symmetry. apply map_lookup_filter_None. by left.
Qed.

Lemma filter_home ch m : at_home m → at_home (filter (not_of_channel ch) m).
Proof.
  intros Hm s x. unfold queue_of. destruct (filter _ m !! s) as [l|] eqn:E; simpl.
  - apply map_lookup_filter_Some in E as [E _]. intros Hx. apply Hm.
    by rewrite (queue_of_lookup _ _ _ E).
  - by intros []%not_elem_of_nil.
Qed.

Lemma drain_wf ch q : queue_wf q → queue_wf (drain_channel ch q).2.
Proof.
  intros Hwf. destruct (drain_channel_parts ch q) as (ids & m & E & _ & Hm & Hf).
  pose proof Hwf as [Htot Hhome Hwh Hwn Hd Hs Hr Hc].
  split.
  - intros ch'. rewrite Hm. replace m with (ids, m).2 by done. rewrite <-E, drain_fold_total.
    apply Htot.
  - rewrite Hm, Hf. by apply filter_home.
  - unfold drain_channel. rewrite E. simpl. by apply filter_home.
  - unfold drain_channel. rewrite E. simpl. intros s [Hn _]%map_lookup_filter_Some. by eapply Hwn.
  - unfold drain_channel. by rewrite E.
  - unfold drain_channel. by rewrite E.
  - unfold drain_channel. rewrite E. simpl. intros s. rewrite !elem_of_dom.
    intros [r [Hlk Hn]%map_lookup_filter_Some].
    assert (s ∈ dom (cancelled_batches q)) as [b Hb]%elem_of_dom
      by (apply Hr, elem_of_dom; by eexists).
    exists b. by apply map_lookup_filter_Some.
  - unfold drain_channel. rewrite E. simpl. intros s n [Hn _]%map_lookup_filter_Some. eauto.
Qed.

Lemma queue_step_wf q q' : queue_step q q' → queue_wf q → queue_wf q'.
Proof.
  intros [] Hwf; try (by destruct Hwf).
  - by apply push_wf.
  - by apply flush_next_wf.
  - by apply expire_in_flight_wf.
  - by apply mark_complete_wf.
  - by apply requeue_wf.
  - by apply hold_wf.
  - by apply requeue_as_cancelled_wf.
  - by apply extend_wf.
  - by apply drain_wf.
  - by apply withhold_wf.
  - by apply release_wf.
  - by apply remove_event_wf.
  - by apply compact_wf.
Qed.

Lemma queue_reachable_wf mode q : queue_reachable mode q → queue_wf q.
Proof.
  intros H. unfold queue_reachable in H.
  assert (queue_wf (queue_new mode)) as H0 by apply queue_new_wf. revert H H0.
  induction 1; eauto using queue_step_wf.
Qed.
End wf.

(** ** Expiry *)

Section expiry.
Context {MI : MapIter SessionScope}.
Implicit Types (q : EventQueue) (s : SessionScope) (ch : Uuid).

Lemma recover_frame s q :
  let q' := recover_withheld_for_expired_scope s q in
  in_flight_scopes q' = in_flight_scopes q ∧ in_flight_deadlines q' = in_flight_deadlines q ∧
  retry_after q' = retry_after q ∧ retry_counts q' = retry_counts q ∧
  cancelled_batches q' = cancelled_batches q ∧ cancel_reasons q' = cancel_reasons q ∧
  dedup_mode q' = dedup_mode q ∧ in_flight_deadline q' = in_flight_deadline q.
Proof.
  cbv zeta. unfold recover_withheld_for_expired_scope. case_match; [|done].
  rewrite (capped_frame _ _ _ (enforce_channel_cap_capped _ _)). done.
Qed.

Lemma expire_fold_frame l q :
  let q' := fold_left expire_one l q in
  in_flight_scopes q' = in_flight_scopes q ∖ list_to_set l ∧
  retry_after q' = retry_after q ∧ retry_counts q' = retry_counts q ∧
  cancelled_batches q' = cancelled_batches q ∧ cancel_reasons q' = cancel_reasons q ∧
  in_flight_deadline q' = in_flight_deadline q.
Proof.
  cbv zeta. revert q. induction l as [|s l IH]; intros q; cbn [fold_left].
  - split_and!; try done. simpl. set_solver.
  - destruct (IH (expire_one q s)) as (Hf & -> & -> & -> & -> & ->).
    pose proof (recover_frame s (set_in_flight (in_flight_scopes q ∖ {[s]})
      (delete s (in_flight_deadlines q)) (delete s (in_flight_batch_sizes q)) q)) as Hr.
    cbv zeta in Hr. simpl in Hr. destruct Hr as (Hr & _ & Hrest).
    unfold expire_one in *. rewrite Hr in Hf. split; [|tauto].
    rewrite Hf. simpl. set_solver.
Qed.

Lemma elem_of_expired_scopes now q s :
  s ∈ expired_scopes now q ↔ ∃ d, in_flight_deadlines q !! s = Some d ∧ (d ≤ now)%Z.
Proof.
  unfold expired_scopes. rewrite list_elem_of_fmap. split.
  - intros ([s' d] & -> & [Hd Hin]%list_elem_of_filter). apply elem_of_map_iter in Hin. eauto.
  - intros (d & Hin & Hd). exists (s, d). split; [done|]. apply list_elem_of_filter.
    split; [done|]. by apply elem_of_map_iter.
Qed.

(** Expiry releases exactly the turns whose deadline has passed. *)
Lemma expire_in_flight_scopes now q s :
  queue_wf q →
  s ∈ in_flight_scopes (expire_in_flight now q) ↔
  ∃ d, in_flight_deadlines q !! s = Some d ∧ (now < d)%Z.
Proof.
  intros Hwf. unfold expire_in_flight.
  destruct (expire_fold_frame (expired_scopes now q) q) as [Hf _]. rewrite Hf.
  rewrite elem_of_difference, elem_of_list_to_set, elem_of_expired_scopes.
  rewrite <-(wf_deadlines _ Hwf), elem_of_dom. split.
  - intros [[d Hd] Hn]. exists d. split; [done|]. apply Z.lt_nge. eauto.
  - intros (d & Hd & Hlt). split; [by eexists|]. intros (d' & ? & ?). simplify_eq. lia.
Qed.

Lemma expire_cancelled now q :
  cancelled_batches (expire_in_flight now q) = cancelled_batches q ∧
  cancel_reasons (expire_in_flight now q) = cancel_reasons q ∧
  retry_after (expire_in_flight now q) = retry_after q ∧
  in_flight_deadline (expire_in_flight now q) = in_flight_deadline q.
Proof.
  pose proof (expire_fold_frame (expired_scopes now q) q) as H. cbv zeta in H.
  unfold expire_in_flight. tauto.
Qed.
End expiry.

(** ** Dispatch *)

(** A scope that may be dispatched: no turn in flight and no active throttle. *)
Definition may_run (now : Z) (q : EventQueue) (s : SessionScope) : Prop :=
  s ∉ in_flight_scopes q ∧ ∀ t, retry_after q !! s = Some t → (t ≤ now)%Z.

Lemma ready_true now q e :
  ready now q e = true ↔ e.2 ≠ [] ∧ may_run now q e.1.
Proof.
  unfold ready, may_run.
  rewrite !andb_true_iff, bool_decide_eq_true, negb_true_iff, is_empty_false.
  destruct (retry_after q !! e.1) as [t|].
  - rewrite Z.leb_le. split.
    + intros [[? ?] ?]. split_and!; try done. by intros ? [= <-].
    + intros (? & ? & H). split_and!; try done. by apply H.
  - naive_solver.
Qed.

Section dispatch.
Context {MI : MapIter SessionScope}.
Implicit Types (q : EventQueue) (s : SessionScope) (ch : Uuid).

Lemma pick_ready_Some now q s :
  pick_ready now q = Some s →
  may_run now q s ∧ ∃ x l, queues q !! s = Some (x :: l) ∧
    ∀ s' y l', queues q !! s' = Some (y :: l') → may_run now q s' →
      (qe_received_at x ≤ qe_received_at y)%Z.
Proof.
  unfold pick_ready. intros H. apply fmap_Some in H as ([s0 l0] & Hm & ->). simpl.
  apply min_by_key_Some in Hm as [Hin Hmin].
  apply list_elem_of_filter in Hin as [[Hne Hrun]%ready_true Hin]. simpl in *.
  apply elem_of_map_iter in Hin. split; [done|]. destruct l0 as [|x l]; [done|].
  exists x, l. split; [done|]. intros s' y l' Hs' Hrun'.
  apply (Hmin (s', y :: l')). apply list_elem_of_filter. split; [by apply ready_true|].
  by apply elem_of_map_iter.
Qed.

Lemma pick_ready_None now q :
  pick_ready now q = None ↔ ∀ s l, queues q !! s = Some l → may_run now q s → l = [].
Proof.
  unfold pick_ready. rewrite fmap_None, min_by_key_None. split.
  - intros H s l Hs Hrun. destruct l as [|x l]; [done|exfalso].
    assert ((s, x :: l) ∈ filter (λ e, ready now q e = true) (map_iter (queues q))) as Hin.
    { apply list_elem_of_filter. split; [by apply ready_true|]. by apply elem_of_map_iter. }
    rewrite H in Hin. by apply not_elem_of_nil in Hin.
  - intros H. destruct (filter _ _) as [|[s l] r] eqn:E; [done|exfalso].
    assert ((s, l) ∈ filter (λ e, ready now q e = true) (map_iter (queues q))) as Hin
      by (rewrite E; left).
    apply list_elem_of_filter in Hin as [[Hne Hrun]%ready_true Hin].
    apply elem_of_map_iter in Hin. eauto.
Qed.

Lemma idle_cancelled_Some q s :
  idle_cancelled q = Some s → is_Some (cancelled_batches q !! s) ∧ s ∉ in_flight_scopes q.
Proof.
  unfold idle_cancelled. intros H. apply fmap_Some in H as ([i s0] & Hf & ->).
  apply list_find_Some in Hf as (Hl & Hs & _). simpl. split; [|done].
  apply map_iter_keys. by eapply list_elem_of_lookup_2.
Qed.

Lemma idle_cancelled_None q :
  idle_cancelled q = None ↔ ∀ s, is_Some (cancelled_batches q !! s) → s ∈ in_flight_scopes q.
Proof.
  unfold idle_cancelled. rewrite fmap_None, list_find_None, Forall_forall. split.
  - intros H s Hs. apply dec_stable. intros Hn. eapply H; [|done]. by apply map_iter_keys.
  - intros H s Hs. apply map_iter_keys in Hs. auto.
Qed.

Lemma existsb_ready now q :
  existsb (ready now q) (map_iter (queues q)) = true ↔ pick_ready now q ≠ None.
Proof.
  rewrite pick_ready_None, existsb_exists. split.
  - intros ([s l] & Hin & [Hne Hrun]%ready_true) H. apply list_elem_of_In in Hin.
    apply elem_of_map_iter in Hin. by apply Hne, (H s l).
  - intros H. destruct (pick_ready now q) as [s|] eqn:E; [|by rewrite pick_ready_None in E].
    apply pick_ready_Some in E as (Hrun & x & l & Hs & _). exists (s, x :: l).
    split; [|by apply ready_true]. by apply list_elem_of_In, elem_of_map_iter.
Qed.

Lemma existsb_idle q :
  existsb (λ s, bool_decide (s ∉ in_flight_scopes q)) (map_iter (cancelled_batches q)).*1 = true
  ↔ idle_cancelled q ≠ None.
Proof.
  rewrite existsb_exists. split.
  - intros (s & Hin & Hs%bool_decide_eq_true) H. apply list_elem_of_In, map_iter_keys in Hin.
    rewrite idle_cancelled_None in H. auto.
  - intros H. destruct (idle_cancelled q) as [s|] eqn:E; [|done].
    apply idle_cancelled_Some in E as [Hs Hn]. exists s.
    split; [by apply list_elem_of_In, map_iter_keys|]. by apply bool_decide_eq_true.
Qed.
End dispatch.

(** What a dispatched batch is, relative to the queue [q] it was taken from
    (after expiry) and the queue [q'] left behind. *)
Definition dispatched (now : Z) (q : EventQueue) (b : FlushBatch) (q' : EventQueue) : Prop :=
  let s := fb_scope b in
  batch_ok b ∧
  in_flight_scopes q' = {[s]} ∪ in_flight_scopes q ∧
  in_flight_deadlines q' = <[s := (now + in_flight_deadline q)%Z]> (in_flight_deadlines q) ∧
  cancelled_batches q' = delete s (cancelled_batches q) ∧
  retry_after q' = retry_after q ∧ retry_counts q' = retry_counts q ∧
  (∀ s', s' ≠ s → queues q' !! s' = queues q !! s').

(** The regular case: the first 50 events of the ready scope with the oldest
    head, stably sorted by creation time, with the scope's carryover. *)
Definition dispatched_queued (now : Z) (q : EventQueue) (b : FlushBatch) (q' : EventQueue)
    : Prop :=
  let s := fb_scope b in
  let taken := map to_batch_event (take MAX_BATCH_EVENTS (queue_of (queues q) s)) in
  may_run now q s ∧ fb_events b ≠ [] ∧ length (fb_events b) ≤ MAX_BATCH_EVENTS ∧
  (∀ s' x l y l', queue_of (queues q) s = x :: l → queue_of (queues q) s' = y :: l' →
     may_run now q s' → (qe_received_at x ≤ qe_received_at y)%Z) ∧
  fb_events b ≡ₚ taken ∧
  StronglySorted (λ x y, ev_created_at (be_event x) ≤ ev_created_at (be_event y))%Z (fb_events b) ∧
  (∀ t, filter (λ x, ev_created_at (be_event x) = t) (fb_events b) =
        filter (λ x, ev_created_at (be_event x) = t) taken) ∧
  queue_of (queues q') s = drop MAX_BATCH_EVENTS (queue_of (queues q) s) ∧
  fb_cancelled_events b = default [] (cancelled_batches q !! s).

(** The fallback: nothing queued may run, and an idle scope's cancelled events
    are dispatched again as they were. *)
Definition dispatched_cancelled (now : Z) (q : EventQueue) (b : FlushBatch) (q' : EventQueue)
    : Prop :=
  let s := fb_scope b in
  s ∉ in_flight_scopes q ∧ (∀ s', may_run now q s' → queue_of (queues q) s' = []) ∧
  cancelled_batches q !! s = Some (fb_events b) ∧ fb_cancelled_events b = [] ∧
  queues q' = queues q.

Lemma take_drop_min {A} n (l : list A) :
  take (n `min` length l) l = take n l ∧ drop (n `min` length l) l = drop n l.
Proof.
  destruct (le_ge_dec n (length l)).
  - by replace (n `min` length l) with n by lia.
  - replace (n `min` length l) with (length l) by lia. by rewrite !take_ge, !drop_ge by lia.
Qed.

Section flush.
Context {MI : MapIter SessionScope}.
Implicit Types (q : EventQueue) (s : SessionScope) (ch : Uuid).

Lemma flush_scope_spec now s q :
  pick_ready now q = Some s →
  let '(b, q') := flush_scope now s q in
  fb_scope b = s ∧ dispatched now q b q' ∧ dispatched_queued now q b q'.
Proof.
  intros (Hrun & x & l & Hs & Hmin)%pick_ready_Some. unfold flush_scope. cbv zeta.
  destruct (take_drop_min MAX_BATCH_EVENTS (queue_of (queues q) s)) as [-> ->].
  split; [done|]. unfold dispatched, dispatched_queued. cbn [fb_scope fb_events].
  pose proof (sort_by_key_perm (λ be, ev_created_at (be_event be))
    (map to_batch_event (take MAX_BATCH_EVENTS (queue_of (queues q) s)))) as Hp.
  pose proof (Permutation_length Hp) as Hlen. rewrite length_map, length_take in Hlen.
  assert (queue_of (queues q) s = x :: l) as Hq by by apply queue_of_lookup.
  split; split_and!; simpl; try done.
  - intros s' Hs'. by apply lookup_put.
  - intros Hnil. rewrite Hnil, Hq in Hlen. done.
  - rewrite Hlen. lia.
  - intros s' x' l1 y l' Hx Hy Hrun'. rewrite Hq in Hx. simplify_eq.
    unfold queue_of in Hy. destruct (queues q !! s') as [l2|] eqn:E; simplify_eq/=.
    by eapply Hmin.
  - apply sort_by_key_sorted.
  - intros t. apply (sort_by_key_stable (λ be, ev_created_at (be_event be))).
  - by rewrite queue_of_put, decide_True.
Qed.

Lemma flush_cancelled_spec now s q :
  pick_ready now q = None → idle_cancelled q = Some s →
  let '(b, q') := flush_cancelled now s q in
  fb_scope b = s ∧ dispatched now q b q' ∧ dispatched_cancelled now q b q'.
Proof.
  intros Hp [[l Hl] Hs]%idle_cancelled_Some. unfold flush_cancelled. cbv zeta.
  unfold dispatched, dispatched_cancelled. simpl. rewrite Hl. split_and!; try done.
  intros s'. unfold queue_of. rewrite pick_ready_None in Hp.
  destruct (queues q !! s') eqn:E; simpl; eauto.
Qed.

Lemma flush_next_cases now q :
  let q0 := expire_in_flight now q in
  let '(r, q') := flush_next now q in
  match r with
  | Some b => dispatched now q0 b q' ∧ (dispatched_queued now q0 b q' ∨ dispatched_cancelled now q0 b q')
  | None => q' = q0 ∧ pick_ready now q0 = None ∧ idle_cancelled q0 = None
  end.
Proof.
  cbv zeta. unfold flush_next. cbv zeta. set (q0 := expire_in_flight now q).
  destruct (pick_ready now q0) as [s|] eqn:Ep.
  - pose proof (flush_scope_spec now s q0 Ep) as H. destruct (flush_scope now s q0). tauto.
  - destruct (idle_cancelled q0) as [s|] eqn:Ei; [|done].
    pose proof (flush_cancelled_spec now s q0 Ep Ei) as H.
    destruct (flush_cancelled now s q0). tauto.
Qed.
End flush.

(** ** Retry delays *)

Lemma capped_secs_bounds n : (1 ≤ n)%Z → (5 ≤ capped_secs n ≤ 300)%Z.
Proof.
  intros Hn. unfold capped_secs, BASE_RETRY_DELAY_SECS, MAX_RETRY_DELAY_SECS, u64_max.
  rewrite Z.shiftl_1_l.
  assert (1 ≤ 2 ^ Z.min (n - 1) 6)%Z as H1 by (apply (Z.pow_le_mono_r 2 0); lia).
  assert (2 ^ Z.min (n - 1) 6 ≤ 2 ^ 6)%Z as H2 by (apply Z.pow_le_mono_r; lia).
  lia.
Qed.

Lemma retry_delay_bounds n nanos :
  (1 ≤ n)%Z → (0 ≤ nanos < nanos_per_sec)%Z →
  (800000000 * capped_secs n ≤ retry_delay n nanos ≤ 893200000 * capped_secs n)%Z.
Proof.
  intros Hn Hnanos. pose proof (capped_secs_bounds n Hn) as Hc. unfold retry_delay.
  cbv zeta. generalize dependent (capped_secs n). intros c Hc. unfold nanos_per_sec in *.
  assert (0 ≤ c * nanos ≤ c * 1000000000)%Z as Hk by nia.
  split.
  - apply Z.div_le_lower_bound; [lia|]. nia.
  - apply Z.lt_succ_r, Z.div_lt_upper_bound; [lia|]. nia.
Qed.

(** ** Holding and requeueing *)

Lemma to_queued_roundtrip s x :
  qe_scope x = s → qe_channel_id x = scope_channel s →
  to_queued (scope_channel s) s (to_batch_event x) = x.
Proof. destruct x. simpl. by intros -> ->. Qed.

Lemma map_to_queued_roundtrip s l :
  (∀ x, x ∈ l → qe_scope x = s ∧ qe_channel_id x = scope_channel s) →
  map (to_queued (scope_channel s) s) (map to_batch_event l) = l.
Proof.
  intros Hl. rewrite map_map. rewrite <-(map_id l) at 2. apply map_ext_in.
  intros x Hx%list_elem_of_In. destruct (Hl x Hx). by apply to_queued_roundtrip.
Qed.

Section hold.
Context {MI : MapIter SessionScope}.
Implicit Types (q : EventQueue) (s : SessionScope) (ch : Uuid).

(** Writing a partition back without exceeding the caps evicts nothing. *)
Lemma store_within_cap q s l :
  (∀ ch, chan_total (queues q) ch ≤ MAX_PENDING_PER_CHANNEL) →
  chan_total (<[s := l]> (queues q)) (scope_channel s) ≤ MAX_PENDING_PER_CHANNEL →
  enforce_channel_cap (scope_channel s) (set_queues (<[s := trim_scope l]> (queues q)) q) =
  set_queues (<[s := l]> (queues q)) q.
Proof.
  intros Hq Hl.
  assert (trim_scope l = l) as Ht.
  { rewrite trim_scope_take, take_ge; [done|]. etransitivity; [|exact Hl].
    rewrite <-(decide_True (P:=s = s) l [] eq_refl) at 1.
    etransitivity; [|apply chan_total_queue_of]. by rewrite queue_of_insert, !decide_True. }
  rewrite Ht. by apply enforce_channel_cap_id.
Qed.

Lemma chan_total_perm m s l ch :
  length l = length (queue_of m s) → chan_total (<[s := l]> m) ch = chan_total m ch.
Proof.
  intros Hl. rewrite chan_total_insert, (chan_total_delete m s). unfold weight. simpl.
  by rewrite Hl.
Qed.

Lemma hold_within_cap b q :
  queue_wf q → batch_ok b →
  let s := fb_scope b in
  let l := map (to_queued (scope_channel s) s) (fb_events b) ++ queue_of (queues q) s in
  chan_total (<[s := l]> (queues q)) (scope_channel s) ≤ MAX_PENDING_PER_CHANNEL →
  requeue_preserve_timestamps b q = set_queues (<[s := l]> (queues q)) (restore_carryover b q).
Proof.
  intros Hwf Hb s l Hl. unfold requeue_preserve_timestamps. cbv zeta.
  assert (queues (restore_carryover b q) = queues q) as Hq
    by (unfold restore_carryover; by case_match).
  unfold batch_ok in Hb. fold s. fold s in Hb. rewrite Hb, push_front_all_app, Hq. fold l.
  rewrite <-Hq. apply store_within_cap; rewrite ?Hq; [apply Hwf|done].
Qed.

(** What dispatch from a queue keeps so that the batch can be handed back. *)
Lemma hold_after_flush_scope now s q b q1 :
  queue_wf q → pick_ready now q = Some s → flush_scope now s q = (b, q1) →
  let l := map (to_queued (scope_channel s) s) (fb_events b)
             ++ drop MAX_BATCH_EVENTS (queue_of (queues q) s) in
  fb_scope b = s ∧ l ≡ₚ queue_of (queues q) s ∧
  requeue_preserve_timestamps b q1 =
    set_queues (<[s := l]> (queues q1)) (restore_carryover b q1).
Proof.
  intros Hwf Hp Hf l. pose proof (flush_scope_wf now s q Hwf) as Hwf1.
  pose proof (flush_scope_spec now s q Hp) as Hspec. rewrite Hf in Hwf1, Hspec.
  destruct Hspec as (Hs & (Hb & _ & _ & _ & _ & _ & Hother) & (_ & _ & _ & _ & Hperm & _ & _ & Hdrop & _)).
  rewrite Hs in *.
  assert (l ≡ₚ queue_of (queues q) s) as Hl.
  { unfold l. rewrite (Permutation_map _ Hperm), map_to_queued_roundtrip; [by rewrite take_drop|].
    intros x Hx%subseteq_take. by apply (wf_home _ Hwf). }
  split_and!; [done..|]. rewrite hold_within_cap; rewrite ?Hs, ?Hdrop; try done.
  fold l. rewrite chan_total_insert.
  replace (delete s (queues q1)) with (delete s (queues q)).
  - unfold weight. simpl. rewrite decide_True, (Permutation_length Hl) by done.
    pose proof (wf_total _ Hwf (scope_channel s)) as Ht. rewrite (chan_total_delete _ s) in Ht.
    unfold weight in Ht. simpl in Ht. by rewrite decide_True in Ht.
  - apply map_eq. intros s'. destruct (decide (s' = s)) as [->|].
    + by rewrite !lookup_delete_eq.
    + rewrite !lookup_delete_ne by done. symmetry. by apply Hother.
Qed.

Lemma flush_scope_reasons now s q b q1 :
  flush_scope now s q = (b, q1) →
  cancel_reasons q1 = delete s (cancel_reasons q) ∧
  (fb_cancelled_events b ≠ [] → fb_cancel_reason b = cancel_reasons q !! s).
Proof.
  unfold flush_scope. cbv zeta. intros Hf. injection Hf as <- <-. split; [done|].
  cbn [fb_cancelled_events fb_cancel_reason]. intros Hne.
  by destruct (default [] _).
Qed.

Lemma restore_carryover_batches s b q m :
  fb_scope b = s → cancelled_batches q = delete s m →
  fb_cancelled_events b = default [] (m !! s) →
  ∀ s', default [] (cancelled_batches (restore_carryover b q) !! s') = default [] (m !! s').
Proof.
  intros Hs Hq Hb s'. unfold restore_carryover. rewrite Hs.
  destruct (fb_cancelled_events b) as [|x l]; simpl; rewrite Hq.
  - destruct (decide (s' = s)) as [->|]; [by rewrite lookup_delete_eq|by rewrite lookup_delete_ne].
  - rewrite lookup_delete_eq. simpl. rewrite app_nil_r.
    destruct (decide (s' = s)) as [->|];
      [by rewrite lookup_insert_eq|by rewrite lookup_insert_ne, lookup_delete_ne].
Qed.

Lemma restore_carryover_reason b q :
  fb_cancelled_events b ≠ [] → cancel_reasons q !! fb_scope b = None →
  cancel_reasons (restore_carryover b q) !! fb_scope b = fb_cancel_reason b.
Proof.
  intros Hne Hq. unfold restore_carryover. destruct (fb_cancelled_events b); [done|]. simpl.
  rewrite Hq. destruct (fb_cancel_reason b); [by rewrite lookup_insert_eq|done].
Qed.
End hold.


(** ** Native steer *)

Lemma delete_put s l m : delete s (put_back s l m) = delete s m.
Proof.
  unfold put_back. case_bool_decide; [by rewrite delete_delete_eq|by rewrite delete_insert_eq].
Qed.

Lemma position_of_split id l i :
  position_of id l = Some i →
  ∃ x pre post, l = pre ++ x :: post ∧ ev_id (qe_event x) = id ∧
    (∀ y, y ∈ pre → ev_id (qe_event y) ≠ id) ∧ l !! i = Some x ∧ delete i l = pre ++ post.
Proof.
  unfold position_of. intros H. apply fmap_Some in H as ([j x] & Hf & ->).
  apply list_find_Some in Hf as (Hl & Hx & Hpre). simpl.
  exists x, (take j l), (drop (S j) l). split_and!; try done.
  - symmetry. by apply take_drop_middle.
  - intros y (k & Hy & Hk)%elem_of_take. by apply (Hpre k).
  - apply delete_take_drop.
Qed.

Lemma position_of_last id w x :
  (∀ y, y ∈ w → ev_id (qe_event y) ≠ id) → ev_id (qe_event x) = id →
  position_of id (w ++ [x]) = Some (length w).
Proof.
  intros Hw Hx. unfold position_of. apply fmap_Some. exists (length w, x). split; [|done].
  apply list_find_Some. split_and!; [by apply list_lookup_middle|done|].
  intros j y Hy Hj. apply Hw. rewrite lookup_app_l in Hy by done.
  by eapply list_elem_of_lookup_2.
Qed.

Section steer.
Context {MI : MapIter SessionScope}.
Implicit Types (q : EventQueue) (s : SessionScope) (ch : Uuid).

Lemma withhold_spec s id q :
  let '(found, q1) := mark_native_steer_pending s id q in
  if found then ∃ x pre post,
    queue_of (queues q) s = pre ++ x :: post ∧ ev_id (qe_event x) = id ∧
    (∀ y, y ∈ pre → ev_id (qe_event y) ≠ id) ∧
    q1 = set_withheld
           (<[s := queue_of (withheld_native_steer q) s ++ [x]]> (withheld_native_steer q))
           (set_queues (put_back s (pre ++ post) (queues q)) q)
  else q1 = q ∧ ∀ y, y ∈ queue_of (queues q) s → ev_id (qe_event y) ≠ id.
Proof.
  unfold mark_native_steer_pending, queue_of. destruct (queues q !! s) as [l|]; simpl.
  - destruct (position_of id l) as [i|] eqn:Ep; [|by rewrite position_of_None in Ep].
    apply position_of_split in Ep as (x & pre & post & -> & Hx & Hpre & Hl & ->).
    rewrite Hl. by exists x, pre, post.
  - split; [done|]. intros y []%not_elem_of_nil.
Qed.

Lemma release_spec s id q w x :
  queue_wf q → withheld_native_steer q !! s = Some (w ++ [x]) →
  (∀ y, y ∈ w → ev_id (qe_event y) ≠ id) → ev_id (qe_event x) = id →
  chan_total (<[s := x :: queue_of (queues q) s]> (queues q)) (scope_channel s)
    ≤ MAX_PENDING_PER_CHANNEL →
  release_native_steer s id q =
    set_queues (<[s := x :: queue_of (queues q) s]> (queues q))
      (set_withheld (put_back s w (withheld_native_steer q)) q).
Proof.
  intros Hwf Hs Hw Hx Htot. unfold release_native_steer.
  rewrite Hs, position_of_last, list_lookup_middle, delete_middle, app_nil_r by done.
  cbv zeta. apply (store_within_cap (set_withheld _ q)); [apply Hwf|done].
Qed.

Lemma retain_other_queue_of id m s s' :
  queue_of (retain_other id m s) s' =
  if decide (s' = s) then filter (λ x, ev_id (qe_event x) ≠ id) (queue_of m s)
  else queue_of m s'.
Proof.
  unfold retain_other. destruct (m !! s) as [l|] eqn:E.
  - by rewrite queue_of_put, (queue_of_lookup _ _ _ E).
  - case_decide; subst; [|done]. unfold queue_of. by rewrite E.
Qed.
End steer.

(** ** Draining a channel *)

Lemma filter_fst {K V} (P : K → Prop) `{∀ k, Decision (P k)} (l : list (K * V)) :
  filter P l.*1 = (filter (λ e, P e.1) l).*1.
Proof.
  induction l as [|e l IH]; [done|]. rewrite fmap_cons, !filter_cons.
  case_decide; [|done]. by rewrite IH.
Qed.

Lemma map_fst_queue_of {B} (f : list QueuedEvent → B) m l :
  (∀ e, e ∈ l → m !! e.1 = Some e.2) →
  map (λ s, f (queue_of m s)) l.*1 = map (λ e, f e.2) l.
Proof.
  induction l as [|e l IH]; intros Hl; [done|]. cbn. rewrite IH by set_solver.
  by rewrite (queue_of_lookup _ _ _ (Hl e ltac:(left))).
Qed.

(** ** Eviction order *)

(** Every partition of the channel is in arrival order. *)
Definition in_arrival_order (q : EventQueue) (ch : Uuid) : Prop :=
  ∀ s, scope_channel s = ch → StronglySorted (key_le qe_received_at) (queue_of (queues q) s).

(** The events of [s] that are queued in [q] and no longer in [q']. *)
Definition evicted (q q' : EventQueue) (s : SessionScope) : list QueuedEvent :=
  take (length (queue_of (queues q) s) - length (queue_of (queues q') s))
    (queue_of (queues q) s).

Section eviction.
Context {MI : MapIter SessionScope}.
Implicit Types (q : EventQueue) (s : SessionScope) (ch : Uuid).

Lemma pop_victim_queue_of q s s' :
  is_Some (queues q !! s) →
  queue_of (queues (pop_victim s q)) s' =
  if decide (s' = s) then tail (queue_of (queues q) s) else queue_of (queues q) s'.
Proof. intros Hs. rewrite pop_victim_queues by done. apply queue_of_put. Qed.

Lemma capped_length ch q q' s :
  capped ch q q' → length (queue_of (queues q') s) ≤ length (queue_of (queues q) s).
Proof. intros Hc. destruct (capped_suffix _ _ _ Hc s) as [n ->]. rewrite length_drop. lia. Qed.

Lemma sorted_head x l y :
  StronglySorted (key_le qe_received_at) (x :: l) → y ∈ x :: l →
  (qe_received_at x ≤ qe_received_at y)%Z.
Proof.
  intros [_ Hx]%StronglySorted_inv [->|Hy]%elem_of_cons; [lia|].
  rewrite Forall_forall in Hx. by apply Hx.
Qed.

Lemma enforce_cap_loop_oldest fuel ch q :
  chan_total (queues q) ch ≤ fuel → in_arrival_order q ch →
  let q' := enforce_cap_loop fuel ch q in
  ∀ s e s' e', scope_channel s = ch → scope_channel s' = ch →
    e ∈ evicted q q' s → e' ∈ queue_of (queues q') s' →
    (qe_received_at e ≤ qe_received_at e')%Z.
Proof.
  revert q. induction fuel as [|fuel IH]; intros q Hfuel Hord; cbn [enforce_cap_loop];
    rewrite channel_event_total_eq;
    destruct (Nat.ltb_spec MAX_PENDING_PER_CHANNEL (chan_total (queues q) ch)) as [Hlt|Hge];
    try lia; try (intros s e s' e' _ _ He; unfold evicted in He;
      rewrite Nat.sub_diag in He; by apply not_elem_of_nil in He).
  destruct (cap_victim_exists q ch) as [v Hv]; [lia|]. rewrite Hv.
  apply cap_victim_spec in Hv as (x & l & Hl & Hch & Hk & Hmin).
  set (q1 := pop_victim v q).
  assert (S (chan_total (queues q1) ch) = chan_total (queues q) ch) as Hstep.
  { unfold q1. rewrite <-Hch, <-chan_total_pop; [done|done|]. by rewrite Hl. }
  assert (∀ s, queue_of (queues q1) s = if decide (s = v) then l else queue_of (queues q) s)
    as Hq1 by (intros s; unfold q1; by rewrite pop_victim_queue_of, Hl).
  assert (in_arrival_order q1 ch) as Hord1.
  { intros s Hs. rewrite Hq1. case_decide; [|by apply Hord]. subst s.
    specialize (Hord v Hs). rewrite Hl in Hord. by apply StronglySorted_inv in Hord as [? _]. }
  pose proof (enforce_cap_loop_spec fuel ch q1 ltac:(lia)) as [Hc _].
  specialize (IH q1 ltac:(lia) Hord1). cbv zeta in IH.
  set (q' := enforce_cap_loop fuel ch q1) in *. cbv zeta.
  assert (∀ s' e', scope_channel s' = ch → e' ∈ queue_of (queues q') s' →
    (qe_received_at x ≤ qe_received_at e')%Z) as Hx.
  { intros s' e' Hs' He'. destruct (capped_suffix _ _ _ Hc s') as [n Hn]. rewrite Hn in He'.
    apply subseteq_drop in He'. rewrite Hq1 in He'. case_decide.
    - subst. apply (sorted_head x l); [rewrite <-Hl; by apply Hord|by right].
    - destruct (queue_of (queues q) s') as [|y l'] eqn:E; [by apply not_elem_of_nil in He'|].
      etransitivity; [by eapply (Hmin s')|]. apply (sorted_head y l'); [|done].
      rewrite <-E. by apply Hord. }
  intros s e s' e' Hs Hs' He He'. unfold evicted in He. pose proof (capped_length ch q1 q' s Hc) as Hlen.
  rewrite Hq1 in Hlen. destruct (decide (s = v)) as [->|Hne].
  - rewrite Hl in He. cbn [length] in He.
    replace (S (length l) - _) with (S (length l - length (queue_of (queues q') v))) in He by lia.
    cbn [take] in He. apply elem_of_cons in He as [->|He]; [by eapply Hx|].
    apply (IH v e s' e'); try done. unfold evicted. by rewrite Hq1, decide_True.
  - apply (IH s e s' e'); try done. unfold evicted. by rewrite Hq1, decide_False.
Qed.
End eviction.

(** ** Draining by dispatch *)

(** All values of a map of lists. *)
Definition all_of {A} (m : gmap SessionScope (list A)) : list A := concat (map_to_list m).*2.

Lemma all_of_delete {A} (m : gmap SessionScope (list A)) s :
  all_of m ≡ₚ default [] (m !! s) ++ all_of (delete s m).
Proof.
  unfold all_of. destruct (m !! s) as [l|] eqn:E; simpl.
  - rewrite <-(insert_delete_id m s l E) at 1.
    by rewrite (map_to_list_insert _ _ _ (lookup_delete_eq m s)).
  - by rewrite delete_id.
Qed.

Lemma all_of_nil {A} (m : gmap SessionScope (list A)) :
  (∀ s l, m !! s = Some l → l = []) → all_of m = [].
Proof.
  intros Hm. unfold all_of.
  assert (∀ e, e ∈ map_to_list m → e.2 = []) as H
    by (intros [s l] Hin%elem_of_map_to_list; by eapply Hm).
  induction (map_to_list m) as [|e l IH]; [done|]. cbn. rewrite (H e) by left.
  apply IH. intros e' He'. apply H. by right.
Qed.

Section drain_loop.
Context {MI : MapIter SessionScope}.
Implicit Types (q : EventQueue) (s : SessionScope) (ch : Uuid).

(** Dispatch and complete until there is nothing left to run. *)
Fixpoint drain_loop (fuel : nat) (now : Z) (q : EventQueue) : list FlushBatch * EventQueue :=
  match fuel with
  | O => ([], q)
  | S fuel =>
      match flush_next now q with
      | (None, q') => ([], q')
      | (Some b, q') =>
          let '(bs, q'') := drain_loop fuel now (mark_complete now (fb_scope b) q') in
          (b :: bs, q'')
      end
  end.

(** The events a queue still has to deliver. *)
Definition undelivered q : list BatchEvent :=
  map to_batch_event (all_of (queues q)) ++ all_of (cancelled_batches q).

Definition batch_events (b : FlushBatch) : list BatchEvent :=
  fb_events b ++ fb_cancelled_events b.

(** Nothing in flight and every backoff over. *)
Definition at_rest (now : Z) q : Prop :=
  in_flight_scopes q = ∅ ∧ ∀ s t, retry_after q !! s = Some t → (t ≤ now)%Z.

Definition work_left q : nat := length (all_of (queues q)) + size (cancelled_batches q).

Lemma at_rest_expire now q : queue_wf q → at_rest now q → expire_in_flight now q = q.
Proof.
  intros Hwf [Hf _]. unfold expire_in_flight.
  assert (expired_scopes now q = []) as ->; [|done].
  destruct (expired_scopes now q) as [|s l] eqn:E; [done|exfalso].
  assert (s ∈ expired_scopes now q) as Hs by (rewrite E; left).
  apply elem_of_expired_scopes in Hs as (d & Hd & _). apply elem_of_dom_2 in Hd.
  rewrite (wf_deadlines _ Hwf), Hf in Hd. set_solver.
Qed.

Lemma at_rest_may_run now q s : at_rest now q → may_run now q s.
Proof. intros [Hf Hr]. split; [rewrite Hf; set_solver|apply Hr]. Qed.

Lemma mark_complete_tables now s q :
  queues (mark_complete now s q) = queues q ∧
  cancelled_batches (mark_complete now s q) = cancelled_batches q ∧
  in_flight_scopes (mark_complete now s q) = in_flight_scopes q ∖ {[s]} ∧
  (∀ s' t, retry_after (mark_complete now s q) !! s' = Some t → retry_after q !! s' = Some t).
Proof.
  unfold mark_complete. cbv zeta. repeat case_match; simpl; split_and!; try done.
  by intros s' t [_ ?]%lookup_delete_Some.
Qed.

Lemma dispatched_at_rest now q b q' :
  at_rest now q → dispatched now q b q' → at_rest now (mark_complete now (fb_scope b) q').
Proof.
  intros [Hf Hr] (_ & Hf' & _ & _ & Hr' & _).
  destruct (mark_complete_tables now (fb_scope b) q') as (_ & _ & Hm & Hmr). split.
  - rewrite Hm, Hf', Hf. set_solver.
  - intros s t Ht%Hmr. rewrite Hr' in Ht. eauto.
Qed.

(** One dispatch moves exactly the batch out of what is undelivered. *)
Lemma flush_scope_undelivered now s q b q' :
  pick_ready now q = Some s → flush_scope now s q = (b, q') →
  undelivered q ≡ₚ batch_events b ++ undelivered q' ∧ work_left q' < work_left q.
Proof.
  intros Hp Hf. pose proof (flush_scope_spec now s q Hp) as H. rewrite Hf in H.
  destruct H as (Hs & (_ & _ & _ & Hcb & _ & _ & Hother) &
    (_ & Hne & _ & _ & Hperm & _ & _ & Hdrop & Hcarry)). rewrite Hs in *.
  assert (delete s (queues q') = delete s (queues q)) as Hdel.
  { apply map_eq. intros s'. destruct (decide (s' = s)) as [->|].
    - by rewrite !lookup_delete_eq.
    - rewrite !lookup_delete_ne by done. by apply Hother. }
  pose proof (all_of_delete (queues q) s) as H1. pose proof (all_of_delete (queues q') s) as H2.
  unfold queue_of in *. rewrite Hdrop, Hdel in H2.
  set (l := default [] (queues q !! s)) in *. rewrite <-(take_drop MAX_BATCH_EVENTS l) in H1 at 1.
  split.
  - unfold undelivered, batch_events. rewrite Hcarry, Hcb, Hperm, (all_of_delete (cancelled_batches q) s).
    rewrite (Permutation_map _ H1), (Permutation_map _ H2), !map_app. solve_Permutation.
  - unfold work_left. rewrite (Permutation_length H1), (Permutation_length H2), Hcb, !length_app.
    assert (0 < length (take MAX_BATCH_EVENTS l)).
    { rewrite <-(length_map to_batch_event), <-(Permutation_length Hperm).
      by destruct (fb_events b); [|simpl; lia]. }
    pose proof (map_size_delete s (cancelled_batches q)) as Hsz.
    unfold id in Hsz. destruct (cancelled_batches q !! s); lia.
Qed.

Lemma flush_cancelled_undelivered now s q b q' :
  idle_cancelled q = Some s → flush_cancelled now s q = (b, q') →
  undelivered q ≡ₚ batch_events b ++ undelivered q' ∧ work_left q' < work_left q.
Proof.
  intros [[l Hl] _]%idle_cancelled_Some Hf. unfold flush_cancelled in Hf. simplify_eq/=.
  unfold undelivered, batch_events, work_left. simpl. rewrite app_nil_r, Hl. simpl. split.
  - rewrite (all_of_delete (cancelled_batches q) s), Hl. simpl. solve_Permutation.
  - apply Nat.add_lt_mono_l. rewrite map_size_delete_Some by done.
    assert (size (cancelled_batches q) ≠ 0); [|lia].
    intros H0%map_size_empty_inv. by rewrite H0 in Hl.
Qed.

Lemma drain_loop_spec fuel now q :
  queue_wf q → at_rest now q → work_left q < fuel →
  let '(bs, q') := drain_loop fuel now q in
  undelivered q ≡ₚ concat (map batch_events bs) ∧ undelivered q' = [] ∧ at_rest now q'.
Proof.
  revert q. induction fuel as [|fuel IH]; intros q Hwf Hrest Hfuel; [lia|]. cbn [drain_loop].
  pose proof (flush_next_wf now q Hwf) as Hwf'. pose proof (flush_next_cases now q) as Hcases.
  revert Hwf' Hcases. unfold flush_next. cbv zeta. rewrite (at_rest_expire now q Hwf Hrest).
  assert (∀ b q', queue_wf q' → dispatched now q b q' →
    undelivered q ≡ₚ batch_events b ++ undelivered q' ∧ work_left q' < work_left q →
    let '(bs, q'') := (let '(bs, q'') := drain_loop fuel now (mark_complete now (fb_scope b) q')
                      in (b :: bs, q'')) in
    undelivered q ≡ₚ concat (map batch_events bs) ∧ undelivered q'' = [] ∧ at_rest now q'')
    as Hstep.
  { intros b q' Hwf' Hd [Hu Hw]. pose proof (dispatched_at_rest _ _ _ _ Hrest Hd) as Hr.
    destruct (mark_complete_tables now (fb_scope b) q') as (Hq & Hc & _ & _).
    specialize (IH (mark_complete now (fb_scope b) q') (mark_complete_wf _ _ _ Hwf') Hr).
    unfold work_left, undelivered in *. rewrite Hq, Hc in IH. specialize (IH ltac:(lia)).
    destruct (drain_loop _ _ _) as [bs q'']. destruct IH as (Hp & He & Hr'').
    split_and!; [|done|done]. rewrite Hu. simpl. by rewrite Hp. }
  destruct (pick_ready now q) as [s|] eqn:Ep.
  - destruct (flush_scope now s q) as [b q'] eqn:Ef. cbn [snd]. intros Hwf' [Hd _].
    apply Hstep; [done..|]. by eapply flush_scope_undelivered.
  - destruct (idle_cancelled q) as [s|] eqn:Ei.
    + destruct (flush_cancelled now s q) as [b q'] eqn:Ef. cbn [snd]. intros Hwf' [Hd _].
      apply Hstep; [done..|]. by eapply flush_cancelled_undelivered.
    + intros _ _. assert (undelivered q = []) as Hnil; [|by rewrite Hnil].
      unfold undelivered. rewrite !all_of_nil; [done|..].
      * rewrite idle_cancelled_None in Ei. intros s l Hs. exfalso.
        destruct Hrest as [Hf _]. specialize (Ei s ltac:(by eexists)). rewrite Hf in Ei. set_solver.
      * rewrite pick_ready_None in Ep. intros s l Hs.
        eapply Ep; [done|by apply at_rest_may_run].
Qed.
End drain_loop.

(** ** Properties *)

Section properties.
Context {MI : MapIter SessionScope}.
Implicit Types (q : EventQueue) (s : SessionScope) (ch : Uuid).

(** C37. Whatever sequence of calls is made, a channel never holds more than
    500 queued events over all its sessions (so no session does), every
    queued or withheld event sits in the partition of its own scope and
    channel, the scopes in flight are exactly those with an expiry deadline
    and a recorded batch size, a reason is kept only next to a cancelled
    batch, and retry counters stay between 1 and 10. *)
Theorem queue_invariant (mode : DedupMode) (q : EventQueue)
    (Hreach : queue_reachable mode q) :
  (∀ ch, channel_event_total q ch ≤ 500) ∧
  (∀ s, length (queue_of (queues q) s) ≤ 500) ∧
  (∀ s x, x ∈ queue_of (queues q) s ∨ x ∈ queue_of (withheld_native_steer q) s →
     qe_scope x = s ∧ qe_channel_id x = scope_channel s) ∧
  dom (in_flight_deadlines q) = in_flight_scopes q ∧
  dom (in_flight_batch_sizes q) = in_flight_scopes q ∧
  dom (cancel_reasons q) ⊆ dom (cancelled_batches q) ∧
  (∀ s n, retry_counts q !! s = Some n → (1 ≤ n ≤ 10)%Z).
Proof.
  apply queue_reachable_wf in Hreach as [Htot Hhome Hwh _ Hd Hs Hr Hc].
  split_and!; try done.
  - intros ch. rewrite channel_event_total_eq. apply Htot.
  - intros s. rewrite chan_total_queue_of. apply Htot.
  - intros s x [?|?]; auto.
Qed.

(** C1. Dispatch: after releasing the turns whose deadline has passed, a
    batch is taken from a scope with no turn in flight - from the ready scope
    with the oldest head its first 50 events, or from an idle scope its
    cancelled events when nothing queued may run - and the scope is then in
    flight with a fresh deadline; nothing else changes.  [None] is returned
    only when no queue may run and no idle scope has a cancelled batch. *)
Theorem flush_next_spec (mode : DedupMode) (now : Z) (q : EventQueue)
    (Hreach : queue_reachable mode q) :
  let q0 := expire_in_flight now q in
  (∀ s, s ∈ in_flight_scopes q0 ↔
     s ∈ in_flight_scopes q ∧ ∀ d, in_flight_deadlines q !! s = Some d → (now < d)%Z) ∧
  let '(r, q') := flush_next now q in
  match r with
  | Some b =>
      dispatched now q0 b q' ∧ fb_scope b ∉ in_flight_scopes q0 ∧
      (dispatched_queued now q0 b q' ∨ dispatched_cancelled now q0 b q')
  | None =>
      q' = q0 ∧
      (∀ s, may_run now q0 s → queue_of (queues q0) s = []) ∧
      (∀ s, is_Some (cancelled_batches q0 !! s) → s ∈ in_flight_scopes q0)
  end.
Proof.
  apply queue_reachable_wf in Hreach as Hwf. cbv zeta. split.
  - intros s. rewrite expire_in_flight_scopes by done. rewrite <-(wf_deadlines _ Hwf), elem_of_dom.
    split; [intros (d & Hd & Hlt); split; [by eexists|]; intros; by simplify_eq|].
    intros [[d Hd] H]. eauto.
  - pose proof (flush_next_cases now q) as H. cbv zeta in H.
    destruct (flush_next now q) as [[b|] q'].
    + split_and!; try tauto. destruct H as [_ [H|H]]; apply H.
    + destruct H as (Heq & Hp & Hi). split_and!; [done| |by apply idle_cancelled_None].
      intros s Hrun. unfold queue_of. destruct (queues _ !! s) eqn:E; [|done].
      simpl. rewrite pick_ready_None in Hp. eauto.
Qed.

(** [has_flushable_work] answers exactly whether [flush_next] would return
    a batch at the same instant, and performs the same expiry. *)
Theorem has_flushable_work_iff_flush (now : Z) (q : EventQueue) :
  ((has_flushable_work now q).1 = true ↔ is_Some (flush_next now q).1) ∧
  (has_flushable_work now q).2 = expire_in_flight now q ∧
  ((flush_next now q).1 = None → (flush_next now q).2 = (has_flushable_work now q).2).
Proof.
  unfold has_flushable_work, flush_next. cbv zeta. cbn [fst snd].
  set (q0 := expire_in_flight now q). rewrite orb_true_iff, existsb_ready, existsb_idle.
  destruct (pick_ready now q0) as [s|]; [destruct (flush_scope now s q0)|
    destruct (idle_cancelled q0) as [s|]; [destruct (flush_cancelled now s q0)|]];
    simpl; split_and!; try done; try (split; [by eexists|by auto]).
  split; [tauto|by intros [? ?]].
Qed.

(** Requeueing a failed batch: the first ten failures in a row put its
    events back at the front of their scope under a throttle of
    [min(5 * 2^min(n-1,6), 300)] seconds times a factor between 0.8 and
    0.8932; the eleventh returns the batch as a dead letter and clears the
    scope's retry state without touching the queue.  The carryover of
    cancelled events is not put back on either path. *)
Theorem requeue_spec (now nanos : Z) (batch : FlushBatch) (q : EventQueue)
    (Hcount : ∀ n, retry_counts q !! fb_scope batch = Some n → (1 ≤ n ≤ 10)%Z)
    (Hnanos : (0 ≤ nanos < 1000000000)%Z) :
  let s := fb_scope batch in
  let n := (default 0 (retry_counts q !! s) + 1)%Z in
  let '(r, q') := requeue now nanos batch q in
  cancelled_batches q' = cancelled_batches q ∧ cancel_reasons q' = cancel_reasons q ∧
  in_flight_scopes q' = in_flight_scopes q ∧
  if (n <=? 10)%Z then
    r = None ∧ retry_counts q' = <[s := n]> (retry_counts q) ∧
    (∃ d, retry_after q' = <[s := (now + d)%Z]> (retry_after q) ∧
       (800000000 * Z.min (5 * 2 ^ Z.min (n - 1) 6) 300 ≤ d
          ≤ 893200000 * Z.min (5 * 2 ^ Z.min (n - 1) 6) 300)%Z) ∧
    (∃ k, queue_of (queues q') s =
       drop k (take 500 (map (to_queued (fb_channel_id batch) s) (fb_events batch)
                         ++ queue_of (queues q) s)))
  else
    r = Some batch ∧ queues q' = queues q ∧
    retry_counts q' = delete s (retry_counts q) ∧ retry_after q' = delete s (retry_after q).
Proof.
  cbv zeta. unfold requeue. cbv zeta. set (s := fb_scope batch) in *.
  set (n := (default 0 (retry_counts q !! s) + 1)%Z).
  assert (1 ≤ n ≤ 11)%Z as Hn.
  { unfold n. destruct (retry_counts q !! s) eqn:E; simpl; [specialize (Hcount _ eq_refl)|]; lia. }
  unfold MAX_RETRIES. destruct (Z.ltb_spec 10 n) as [Hlt|Hge], (Z.leb_spec n 10); try lia.
  - simpl. by rewrite delete_insert_eq.
  - match goal with |- context [enforce_channel_cap ?c ?x] =>
      pose proof (enforce_channel_cap_capped c x) as Hc;
      set (q' := enforce_channel_cap c x) in * end.
    pose proof (capped_suffix _ _ _ Hc s) as [k Hk]. simpl in Hk.
    rewrite queue_of_insert, decide_True, trim_scope_take, push_front_all_app in Hk by done.
    pose proof (capped_frame _ _ _ Hc) as Hf. clearbody q'.
    split_and!; try done; try (by rewrite Hf); [|by exists k].
    exists (retry_delay n nanos). split; [by rewrite Hf|].
    pose proof (retry_delay_bounds n nanos) as Hb. unfold capped_secs in Hb.
    rewrite Z.shiftl_1_l in Hb. unfold nanos_per_sec, BASE_RETRY_DELAY_SECS,
      MAX_RETRY_DELAY_SECS, u64_max in Hb.
    assert (2 ^ Z.min (n - 1) 6 ≤ 2 ^ 6)%Z by (apply Z.pow_le_mono_r; lia). lia.
Qed.

(** Holding a batch loses nothing: when the batch just dispatched from a
    scope's queue is handed back, every scope has the events it had before
    the dispatch (in order, except that the returned ones come back sorted by
    creation time), the cancelled carryover and its reason are staged again,
    and no throttle or retry count was added. *)
Theorem hold_restores (mode : DedupMode) (now : Z) (q q1 : EventQueue) (b : FlushBatch)
    (Hreach : queue_reachable mode q)
    (Hflush : flush_next now q = (Some b, q1))
    (Hqueued : queue_of (queues (expire_in_flight now q)) (fb_scope b) ≠ [])
    (Hrun : may_run now (expire_in_flight now q) (fb_scope b)) :
  let q0 := expire_in_flight now q in
  let q2 := requeue_preserve_timestamps b q1 in
  let s := fb_scope b in
  (∀ s', queue_of (queues q2) s' ≡ₚ queue_of (queues q0) s') ∧
  (∀ s', s' ≠ s → queue_of (queues q2) s' = queue_of (queues q0) s') ∧
  queue_of (queues q2) s =
    map (to_queued (scope_channel s) s) (fb_events b) ++ drop 50 (queue_of (queues q0) s) ∧
  (∀ s', default [] (cancelled_batches q2 !! s') = default [] (cancelled_batches q0 !! s')) ∧
  (fb_cancelled_events b ≠ [] → cancel_reasons q2 !! s = cancel_reasons q0 !! s) ∧
  retry_after q2 = retry_after q0 ∧ retry_counts q2 = retry_counts q0.
Proof.
  apply queue_reachable_wf, (expire_in_flight_wf now) in Hreach as Hwf.
  revert Hflush Hqueued Hrun. unfold flush_next. cbv zeta.
  set (q0 := expire_in_flight now q) in *. clearbody q0. intros Hflush Hqueued Hrun.
  destruct (pick_ready now q0) as [s|] eqn:Ep; last first.
  { exfalso. rewrite pick_ready_None in Ep. unfold queue_of in Hqueued.
    destruct (queues q0 !! fb_scope b) eqn:E; [|done]. by apply Hqueued, (Ep (fb_scope b)). }
  destruct (flush_scope now s q0) as [b' q1'] eqn:Ef. simplify_eq.
  destruct (hold_after_flush_scope now s q0 b q1 Hwf Ep Ef) as (Hs & Hperm & Hhold).
  destruct (flush_scope_reasons now s q0 b q1 Ef) as [Hr1 Hr2].
  pose proof (flush_scope_spec now s q0 Ep) as Hspec. rewrite Ef in Hspec.
  destruct Hspec as (_ & (_ & _ & _ & Hcb & Hra & Hrc & Hother) & Hd).
  assert (fb_cancelled_events b = default [] (cancelled_batches q0 !! s)) as Hcarry
    by (rewrite <-Hs; apply Hd).
  rewrite Hs in *. clear Hd Hqueued Hrun Ef Ep.
  assert (∀ s', s' ≠ s → queue_of (queues (requeue_preserve_timestamps b q1)) s' =
    queue_of (queues q0) s') as Hother'.
  { intros s' Hs'. rewrite Hhold. simpl. rewrite queue_of_insert, decide_False by done.
    unfold queue_of. by rewrite Hother. }
  assert (queue_of (queues (requeue_preserve_timestamps b q1)) s =
    map (to_queued (scope_channel s) s) (fb_events b) ++ drop 50 (queue_of (queues q0) s))
    as Hat by (rewrite Hhold; simpl; by rewrite queue_of_insert, decide_True).
  split_and!; [|done|done|..].
  - intros s'. destruct (decide (s' = s)) as [->|]; [by rewrite Hat|by rewrite Hother'].
  - rewrite Hhold. simpl. by apply (restore_carryover_batches s).
  - intros Hne. rewrite Hhold, <-Hr2 by done. simpl. rewrite <-Hs.
    apply restore_carryover_reason; [done|].
    by rewrite Hr1, Hs, lookup_delete_eq.
  - rewrite Hhold. simpl. rewrite <-Hra. unfold restore_carryover. by case_match.
  - rewrite Hhold. simpl. rewrite <-Hrc. unfold restore_carryover. by case_match.
Qed.

(** Admission: an event is refused exactly when the queue drops duplicates
    and a turn is in flight for its scope, and nothing changes then.
    Otherwise it joins the back of its own partition; other channels are
    untouched, and of its channel's events only as many are given up as the
    two caps require. *)
Theorem push_spec (ev : QueuedEvent) (q : EventQueue)
    (Hev : qe_channel_id ev = scope_channel (qe_scope ev)) :
  let s := qe_scope ev in
  let ch := qe_channel_id ev in
  let '(accepted, q') := push ev q in
  if accepted then
    ¬ (dedup_mode q = Drop ∧ s ∈ in_flight_scopes q) ∧
    (∃ n, queue_of (queues q') s = drop n (queue_of (queues q) s ++ [ev])) ∧
    (∀ s', s' ≠ s → ∃ n, queue_of (queues q') s' = drop n (queue_of (queues q) s')) ∧
    (∀ s', scope_channel s' ≠ ch → queues q' !! s' = queues q !! s') ∧
    (length (queue_of (queues q) s) < 500 →
     channel_event_total q' ch = Nat.min (S (channel_event_total q ch)) 500) ∧
    q' = set_queues (queues q') q
  else dedup_mode q = Drop ∧ s ∈ in_flight_scopes q ∧ q' = q.
Proof.
  cbv zeta. unfold push. destruct (bool_decide (dedup_mode q = Drop) && _) eqn:Ed.
  { apply andb_true_iff in Ed as [?%bool_decide_eq_true ?%bool_decide_eq_true]. done. }
  set (l := if (_ <=? _)%nat then _ else _).
  assert (∃ n, l ++ [ev] = drop n (queue_of (queues q) (qe_scope ev) ++ [ev])) as [n Hn].
  { unfold l. case_match; [|by exists 0]. exists 1. apply leb_complete in H.
    destruct (queue_of _ _); [unfold MAX_PENDING_PER_SCOPE in H; simpl in H; lia|done]. }
  set (q1 := set_queues _ q).
  pose proof (enforce_channel_cap_capped (qe_channel_id ev) q1) as Hc.
  pose proof (enforce_channel_cap_total (qe_channel_id ev) q1) as Ht.
  pose proof (capped_frame _ _ _ Hc) as Hf.
  set (q2 := enforce_channel_cap _ q1) in *. split_and!.
  - intros [? ?]. by rewrite !bool_decide_eq_true_2 in Ed.
  - destruct (capped_suffix _ _ _ Hc (qe_scope ev)) as [m Hm]. simpl in Hm.
    rewrite queue_of_insert, decide_True in Hm by done. rewrite Hm, Hn.
    rewrite drop_drop. eauto.
  - intros s' Hs'. destruct (capped_suffix _ _ _ Hc s') as [m Hm]. simpl in Hm.
    rewrite queue_of_insert, decide_False in Hm by done. eauto.
  - intros s' Hs'. rewrite (capped_other _ _ _ Hc) by done. simpl.
    apply lookup_insert_ne. congruence.
  - intros Hlen. rewrite !channel_event_total_eq, Ht. f_equal. simpl.
    unfold l. rewrite (proj2 (Nat.leb_gt _ _)) by (unfold MAX_PENDING_PER_SCOPE; lia).
    rewrite chan_total_insert, Hev, (chan_total_delete (queues q) (qe_scope ev)).
    unfold weight. simpl. rewrite !decide_True, length_app by done. simpl. lia.
  - rewrite Hf at 1. by destruct q.
Qed.

(** The aggregate cap terminates within its bound and is fair: it leaves
    [min total 500] events of the channel, changes nothing outside it, and -
    the partitions being in arrival order - every event it evicts arrived no
    later than every event of the channel it keeps. *)
Theorem enforce_channel_cap_oldest (ch : Uuid) (q : EventQueue)
    (Hord : in_arrival_order q ch) :
  let q' := enforce_channel_cap ch q in
  channel_event_total q' ch = Nat.min (channel_event_total q ch) 500 ∧
  q' = set_queues (queues q') q ∧
  (∀ s, scope_channel s ≠ ch → queues q' !! s = queues q !! s) ∧
  (∀ s, evicted q q' s ++ queue_of (queues q') s = queue_of (queues q) s) ∧
  ∀ s e s' e', scope_channel s = ch → scope_channel s' = ch →
    e ∈ evicted q q' s → e' ∈ queue_of (queues q') s' →
    (qe_received_at e ≤ qe_received_at e')%Z.
Proof.
  pose proof (enforce_channel_cap_capped ch q) as Hc. cbv zeta. split_and!.
  - rewrite !channel_event_total_eq. apply enforce_channel_cap_total.
  - apply (capped_frame _ _ _ Hc).
  - apply (capped_other _ _ _ Hc).
  - intros s. unfold evicted. destruct (capped_suffix _ _ _ Hc s) as [n Hn]. rewrite Hn.
    rewrite length_drop.
    destruct (le_ge_dec n (length (queue_of (queues q) s))).
    + replace (_ - (_ - n)) with n by lia. apply take_drop.
    + rewrite (drop_ge _ n), app_nil_r by lia. apply take_ge. lia.
  - apply enforce_cap_loop_oldest; [by rewrite channel_event_total_eq|done].
Qed.

(** Removing the agent from a channel: exactly the queued events of that
    channel's scopes are dropped, and their ids returned, each as often as it
    was queued; every side table forgets the channel and keeps every other
    entry; turns in flight and their deadlines stay. *)
Theorem drain_channel_exact (ch : Uuid) (q : EventQueue) :
  let '(ids, q') := drain_channel ch q in
  ids ≡ₚ concat (map (λ e, map (λ x, ev_id (qe_event x)) e.2)
            (filter (λ e, scope_channel e.1 = ch) (map_to_list (queues q)))) ∧
  (∀ s, queues q' !! s = if decide (scope_channel s = ch) then None else queues q !! s) ∧
  (∀ s, retry_after q' !! s =
     if decide (scope_channel s = ch) then None else retry_after q !! s) ∧
  (∀ s, cancelled_batches q' !! s =
     if decide (scope_channel s = ch) then None else cancelled_batches q !! s) ∧
  (∀ s, withheld_native_steer q' !! s =
     if decide (scope_channel s = ch) then None else withheld_native_steer q !! s) ∧
  in_flight_scopes q' = in_flight_scopes q ∧
  in_flight_deadlines q' = in_flight_deadlines q.
Proof.
  destruct (drain_channel_parts ch q) as (ids & m & E & Hids & Hq & Hm).
  destruct (drain_channel ch q) as [ids' q'] eqn:Ed. simpl in *. subst ids'.
  assert (∀ {V} (t : gmap SessionScope V) s, filter (not_of_channel ch) t !! s =
    if decide (scope_channel s = ch) then None else t !! s) as Hfilter.
  { intros V t s. destruct (t !! s) as [v|] eqn:Ev; case_decide;
      rewrite ?map_lookup_filter_None, ?map_lookup_filter_Some; unfold not_of_channel; auto. }
  assert (q' = (drain_channel ch q).2) as Hq' by by rewrite Ed.
  unfold drain_channel in Hq'. rewrite E in Hq'. simpl in Hq'.
  split_and!; try (intros s; rewrite Hq', ?Hm; simpl; apply Hfilter); try by rewrite Hq'.
  - replace ids with (ids, m).1 by done. rewrite <-E, drain_fold_ids; simpl.
    + rewrite filter_fst, map_fst_queue_of, <-!flat_map_concat_map.
      2: { intros [s l] [_ Hin]%list_elem_of_filter. by apply elem_of_map_iter in Hin. }
      apply Permutation_flat_map. by rewrite (map_iter_perm (queues q)).
    + apply NoDup_filter, NoDup_map_iter_fst.
Qed.

(** A native steer withholds one queued event: the first with the given id
    leaves its partition for the side table, where dispatch cannot see it.
    Releasing it puts it at the head of the partition and leaves the side
    table as it was; removing it instead makes it vanish from both while every
    other event stays.  When the id is not queued nothing happens. *)
Theorem steer_withhold_exact (mode : DedupMode) (q : EventQueue) (s : SessionScope)
    (id : string) (Hreach : queue_reachable mode q)
    (Hfresh : ∀ y, y ∈ queue_of (withheld_native_steer q) s → ev_id (qe_event y) ≠ id) :
  let '(found, q1) := mark_native_steer_pending s id q in
  let q2 := release_native_steer s id q1 in
  let q3 := remove_event s id q1 in
  if found then ∃ x pre post,
    queue_of (queues q) s = pre ++ x :: post ∧ ev_id (qe_event x) = id ∧
    queue_of (queues q1) s = pre ++ post ∧
    queue_of (withheld_native_steer q1) s = queue_of (withheld_native_steer q) s ++ [x] ∧
    queue_of (queues q2) s = x :: pre ++ post ∧
    (∀ s', queue_of (withheld_native_steer q2) s' = queue_of (withheld_native_steer q) s') ∧
    (∀ s', s' ≠ s → queue_of (queues q2) s' = queue_of (queues q) s') ∧
    queue_of (queues q3) s = filter (λ y, ev_id (qe_event y) ≠ id) (pre ++ post) ∧
    (∀ s', queue_of (withheld_native_steer q3) s' = queue_of (withheld_native_steer q) s')
  else q1 = q ∧ ∀ y, y ∈ queue_of (queues q) s → ev_id (qe_event y) ≠ id.
Proof.
  apply queue_reachable_wf in Hreach as Hwf.
  pose proof (withhold_spec s id q) as Hm. pose proof (withhold_wf s id q Hwf) as Hwf1.
  destruct (mark_native_steer_pending s id q) as [[] q1]; [|done]. cbn [snd] in Hwf1.
  destruct Hm as (x & pre & post & Hq & Hx & Hpre & ->).
  set (w := queue_of (withheld_native_steer q) s) in *.
  assert (∀ s', queue_of (put_back s w (withheld_native_steer q)) s' =
    queue_of (withheld_native_steer q) s') as Hw
    by (intros s'; rewrite queue_of_put; case_decide; by subst).
  cbv zeta. exists x, pre, post. rewrite (release_spec s id _ w x); simpl; try done; cycle 1.
  - apply lookup_insert_eq.
  - rewrite queue_of_put, decide_True, chan_total_insert, delete_put by done.
    pose proof (wf_total _ Hwf (scope_channel s)) as Ht. rewrite (chan_total_delete _ s), Hq in Ht.
    unfold weight in *. simpl in *. rewrite decide_True in * by done.
    rewrite length_app in *. simpl in *. lia.
  - rewrite !queue_of_put, !queue_of_insert, !decide_True by done. split_and!; try done.
    + intros s'. rewrite queue_of_put, queue_of_insert. case_decide; [by subst|done].
    + intros s' Hs'. by rewrite queue_of_insert, queue_of_put, !decide_False.
    + by rewrite retain_other_queue_of, queue_of_put, !decide_True.
    + intros s'. rewrite retain_other_queue_of, !queue_of_insert.
      case_decide; [|done]. subst. rewrite decide_True, filter_app by done.
      rewrite filter_cons, decide_False, filter_nil, app_nil_r by tauto.
      apply list_filter_all. by apply Forall_forall.
Qed.

(** C30. Liveness, without loss or duplication: from a reachable queue with no
    turn in flight and no backoff running, dispatching and completing turns
    reaches an empty queue after at most one round per undelivered event and
    staged batch, and the batches dispatched hold, as a multiset, exactly the
    events that were waiting. *)
Theorem dispatch_delivers_all (mode : DedupMode) (now : Z) (q : EventQueue) (fuel : nat)
    (Hreach : queue_reachable mode q) (Hrest : at_rest now q)
    (Hfuel : work_left q < fuel) :
  let '(bs, q') := drain_loop fuel now q in
  undelivered q ≡ₚ concat (map batch_events bs) ∧ undelivered q' = [] ∧
  in_flight_scopes q' = ∅.
Proof.
  apply queue_reachable_wf in Hreach as Hwf.
  pose proof (drain_loop_spec fuel now q Hwf Hrest Hfuel) as H.
  destruct (drain_loop fuel now q) as [bs q']. destruct H as (Hp & He & [Hf _]). done.
Qed.
End properties.

(** ** Witnesses: a channel with two threads *)

Definition w_scope1 : SessionScope := Thread "ch" "r1".
Definition w_scope2 : SessionScope := Thread "ch" "r2".
Definition w_queued (id : string) (s : SessionScope) (created received : Z) : QueuedEvent :=
  MkQueued "ch" s (MkEvent id "alice" created 9 [] "hi") received "mention".
Definition w_e1 : QueuedEvent := w_queued "e1" w_scope1 20 100.
Definition w_e2 : QueuedEvent := w_queued "e2" w_scope1 10 101.
Definition w_e3 : QueuedEvent := w_queued "e3" w_scope2 30 102.
Definition w_q1 : EventQueue := (push w_e1 (queue_new QueueMode)).2.
Definition w_q2 : EventQueue := (push w_e2 w_q1).2.
Definition w_q3 : EventQueue := (push w_e3 w_q2).2.

Lemma w_q3_reachable : queue_reachable QueueMode w_q3.
Proof.
  eapply rtc_l; [by apply (step_push _ w_e1)|]. eapply rtc_l; [by apply (step_push _ w_e2)|].
  eapply rtc_l; [by apply (step_push _ w_e3)|]. apply rtc_refl.
Qed.

Lemma queue_invariant_witness :
  channel_event_total w_q3 "ch" = 3 ∧ (∀ s, length (queue_of (queues w_q3) s) ≤ 500).
Proof.
  split; [vm_compute; reflexivity|].
  destruct (queue_invariant QueueMode w_q3 w_q3_reachable) as (_ & H & _). exact H.
Defined.

Definition w_batch1 : FlushBatch :=
  MkBatch "ch" w_scope1 [to_batch_event w_e2; to_batch_event w_e1] [] None.

Lemma flush_next_spec_witness :
  (flush_next 200 w_q3).1 = Some w_batch1 ∧
  ∀ s, s ∈ in_flight_scopes (expire_in_flight 200 w_q3) ↔
    s ∈ in_flight_scopes w_q3 ∧ ∀ d, in_flight_deadlines w_q3 !! s = Some d → (200 < d)%Z.
Proof.
  split; [vm_compute; reflexivity|].
  destruct (flush_next_spec QueueMode 200 w_q3 w_q3_reachable) as [H _]. exact H.
Defined.

Lemma requeue_spec_witness :
  let '(r, q') := requeue 300 500 w_batch1 (flush_next 200 w_q3).2 in
  r = None ∧ cancelled_batches q' = cancelled_batches (flush_next 200 w_q3).2.
Proof.
  pose proof (requeue_spec 300 500 w_batch1 (flush_next 200 w_q3).2) as H. cbv zeta in H.
  assert (retry_counts (flush_next 200 w_q3).2 = ∅) as Hc by (vm_compute; reflexivity).
  rewrite Hc in H. specialize (H ltac:(intros n Hn; discriminate Hn) ltac:(lia)).
  destruct (requeue 300 500 w_batch1 (flush_next 200 w_q3).2) as [r q'].
  destruct H as (Hcb & _ & _ & Hr & _). split; [exact Hr|exact Hcb].
Defined.

Lemma hold_restores_witness :
  queue_of (queues (requeue_preserve_timestamps w_batch1 (flush_next 200 w_q3).2)) w_scope1
  ≡ₚ queue_of (queues (expire_in_flight 200 w_q3)) w_scope1.
Proof.
  destruct (hold_restores QueueMode 200 w_q3 (flush_next 200 w_q3).2 w_batch1) as [H _].
  - exact w_q3_reachable.
  - vm_compute. reflexivity.
  - vm_compute. discriminate.
  - split; [vm_compute; intros H; discriminate H|]. intros t H. vm_compute in H. discriminate H.
  - exact (H w_scope1).
Defined.

Lemma push_spec_witness :
  let '(accepted, q') := push w_e3 w_q2 in
  accepted = true ∧ q' = set_queues (queues q') w_q2.
Proof.
  pose proof (push_spec w_e3 w_q2 eq_refl) as H. cbv zeta in H.
  assert ((push w_e3 w_q2).1 = true) as Ha by (vm_compute; reflexivity).
  destruct (push w_e3 w_q2) as [a q']. simpl in Ha. subst a.
  destruct H as (_ & _ & _ & _ & _ & H). split; [reflexivity|exact H].
Defined.

Definition w_q4 : EventQueue :=
  set_queues (<[w_scope2 := [w_e3]]> {[w_scope1 := [w_e1; w_e2]]}) (queue_new QueueMode).

Lemma w_q4_order : in_arrival_order w_q4 "ch".
Proof.
  intros s _. unfold w_q4. cbn [queues set_queues]. rewrite queue_of_insert.
  case_decide; [repeat constructor|]. unfold queue_of. rewrite lookup_singleton.
  case_decide; repeat constructor. vm_compute. discriminate.
Qed.

Lemma enforce_channel_cap_oldest_witness :
  channel_event_total (enforce_channel_cap "ch" w_q4) "ch" = 3.
Proof.
  destruct (enforce_channel_cap_oldest "ch" w_q4 w_q4_order) as [H _]. rewrite H.
  vm_compute. reflexivity.
Defined.

Lemma steer_withhold_exact_witness :
  (mark_native_steer_pending w_scope1 "e2" w_q3).1 = true ∧
  let '(found, q1) := mark_native_steer_pending w_scope1 "e2" w_q3 in
  found = true → ∃ x rest,
    queue_of (queues (release_native_steer w_scope1 "e2" q1)) w_scope1 = x :: rest ∧
    ev_id (qe_event x) = "e2".
Proof.
  split; [vm_compute; reflexivity|].
  assert (∀ y, y ∈ queue_of (withheld_native_steer w_q3) w_scope1 → ev_id (qe_event y) ≠ "e2")
    as Hfresh.
  { intros y. assert (queue_of (withheld_native_steer w_q3) w_scope1 = []) as ->
      by (vm_compute; reflexivity). by intros []%not_elem_of_nil. }
  pose proof (steer_withhold_exact QueueMode w_q3 w_scope1 "e2" w_q3_reachable Hfresh) as H.
  cbv zeta in H. destruct (mark_native_steer_pending w_scope1 "e2" w_q3) as [[] q1];
    [|discriminate].
  intros _. destruct H as (x & pre & post & _ & Hx & _ & _ & H2 & _).
  exists x, (pre ++ post). split; [exact H2|exact Hx].
Defined.

Lemma dispatch_delivers_all_witness :
  undelivered w_q3 ≡ₚ concat (map batch_events (drain_loop 4 200 w_q3).1) ∧
  length (drain_loop 4 200 w_q3).1 = 2.
Proof.
  pose proof (dispatch_delivers_all QueueMode 200 w_q3 4 w_q3_reachable) as H.
  split; [|vm_compute; reflexivity].
  destruct (drain_loop 4 200 w_q3) as [bs q']. apply H.
  - split; [vm_compute; reflexivity|]. intros s t Ht. vm_compute in Ht. discriminate Ht.
  - vm_compute. repeat constructor.
Defined.
