(* ===== verification/ReplicaFence.v ===== *)
(** * Replica freshness fence

    [crates/buzz-db/src/runtime/replica_fence.rs] with the commit-time guard of
    [migrations/0021]: the ring of heartbeat tokens ([FenceInner]), the ordered
    handshake of one probe, and the writer database it runs against as a step
    relation in which transactions of any number of sessions interleave with
    every statement of the probe.

    [fence_no_holes] is the claim the module comment argues for ("there is no
    fourth bucket"): what a resolved entry proves about a reader's snapshot
    remains true of everything the writer will ever commit. *)

From stdpp Require Import base gmap strings list sorting.
From Stdlib Require Import ZArith Lia.
From S2P Require Import Prelude.

Local Open Scope Z_scope.

(** ** Constants: timestamps in microseconds, instants in nanoseconds *)

Definition second : Z := 1000000.
Definition millisecond : Z := 1000000.
Definition CREATED_AT_FLOOR_SECS : Z := 960.
Definition FENCE_CLOCK_MARGIN_SECS : Z := 5.
Definition PROBE_INTERVAL : Z := 500 * millisecond.
Definition FENCE_STALENESS : Z := 30000 * millisecond.
Definition RING_CAPACITY : nat := 120.
Definition i64_max : Z := 2 ^ 63 - 1.

(** The [const _: () = assert!(..)] of the source. *)
Lemma ring_outlasts_staleness : Z.of_nat RING_CAPACITY * PROBE_INTERVAL > FENCE_STALENESS.
Proof. by vm_compute. Qed.

(** [Instant::elapsed], which saturates at zero. *)
Definition elapsed (now i : Z) : Z := Z.max 0 (now - i).

(** ** The fence *)

Record TokenEntry := { token : Z; committed_at : Z; wall : Z }.

#[export] Instance TokenEntry_eq_dec : EqDecision TokenEntry.
Proof. solve_decision. Defined.

Record FenceInner := { epoch : option string; ring : list TokenEntry }.

Inductive RecordOutcome := Recorded | TokenRegression.

Inductive ResolveOutcome :=
  | Proved (entry : TokenEntry)
  | EpochMismatch
  | TokenBehind.

Definition proved (o : ResolveOutcome) : option TokenEntry :=
  match o with Proved e => Some e | _ => None end.

Definition new_fence : FenceInner := {| epoch := None; ring := [] |}.

Definition close (f : FenceInner) : FenceInner := {| epoch := epoch f; ring := [] |}.

(** [inner.ring.back().is_some_and(|last| token <= last.token)] *)
Definition regresses (tok : Z) (r : list TokenEntry) : bool :=
  match last r with Some e => tok <=? token e | None => false end.

(** The [pop_front] at capacity, then [push_back]. *)
Definition ring_push (e : TokenEntry) (r : list TokenEntry) : list TokenEntry :=
  (if bool_decide (length r = RING_CAPACITY) then tail r else r) ++ [e].

Definition record (tok : Z) (ep : string) (at_ : Z) (w : Z) (f : FenceInner)
    : RecordOutcome * FenceInner :=
  let e := {| token := tok; committed_at := at_; wall := w |} in
  if negb (bool_decide (epoch f = Some ep)) then
    (Recorded, {| epoch := Some ep; ring := ring_push e [] |})
  else if regresses tok (ring f) then (TokenRegression, {| epoch := epoch f; ring := [] |})
  else (Recorded, {| epoch := epoch f; ring := ring_push e (ring f) |}).

Definition resolve (observed_token : Z) (observed_epoch : string) (f : FenceInner)
    : ResolveOutcome :=
  let search :=
    match find (λ e, token e <=? observed_token) (reverse (ring f)) with
    | Some e => Proved e
    | None => TokenBehind
    end in
  match epoch f with
  | Some e => if bool_decide (e ≠ observed_epoch) then EpochMismatch else search
  | None => search
  end.

Definition newest (now : Z) (f : FenceInner) : option TokenEntry :=
  e ← last (ring f); if elapsed now (committed_at e) <=? FENCE_STALENESS then Some e else None.

Definition heartbeat_age (now : Z) (f : FenceInner) : option Z :=
  e ← last (ring f); Some (elapsed now (committed_at e)).

Definition verified_through (now : Z) (f : FenceInner) : option Z := wall <$> newest now f.

Definition covers (now ts : Z) (f : FenceInner) : bool :=
  match verified_through now f with Some fence => ts <=? fence | None => false end.

(** ** The activity scan *)

(** One row of [pg_stat_activity], as far as the query reads it; for
    [client_port], [datname] and [usename] only whether they are NULL matters. *)
Record Backend := {
  client_port : bool;
  backend_type : option string;
  state : option string;
  datname : bool;
  usename : bool;
  xact_start : option Z;
}.

(** [MASKED_ACTIVITY_PREDICATE], with SQL's three-valued comparisons resolved:
    every nullable operand is tested with [IS NULL] or under [COALESCE]. *)
Definition starting_up (b : Backend) : bool :=
  client_port b && bool_decide (xact_start b = None) &&
  (bool_decide (state b = Some "starting"%string) || (negb (datname b) && negb (usename b))).

Definition masked_activity (b : Backend) : bool :=
  negb (starting_up b) &&
  (bool_decide (backend_type b = None) ||
   (bool_decide (backend_type b = Some "client backend"%string) &&
    match state b with
    | None => false
    | Some s => bool_decide (s ≠ "idle"%string) && bool_decide (s ≠ "starting"%string)
    end &&
    bool_decide (xact_start b = None))).

Inductive ProbeError :=
  | WriterError (e : string)
  | MaskedActivity (masked : nat)
  | HeartbeatRowMissing.

(** SQL's [min] and [least] over timestamps, which skip NULLs. *)
Definition opt_min (a b : option Z) : option Z :=
  match a, b with
  | Some x, Some y => Some (Z.min x y)
  | Some x, None => Some x
  | None, _ => b
  end.
Definition min_list (l : list (option Z)) : option Z := foldr opt_min None l.

(** The scan over every other backend and over [pg_prepared_xacts]. *)
Definition activity_scan (others : list Backend) (prepared : list Z)
    : result ProbeError (option Z) :=
  let masked := length (filter (λ b, masked_activity b = true) others) in
  if (0 <? masked)%nat then Err (MaskedActivity masked)
  else Ok (opt_min (min_list (xact_start <$> others)) (min_list (Some <$> prepared))).

Record WriterSample := {
  sampled_at : Z;
  oldest_xact_start : option Z;
  sample_token : Z;
  sample_epoch : string;
  sample_committed_at : Z;
}.

Definition fence_wall (sample_s : Z) (oldest : option Z) : Z :=
  let lower := match oldest with Some o => Z.min o sample_s | None => sample_s end in
  lower - CREATED_AT_FLOOR_SECS * second - FENCE_CLOCK_MARGIN_SECS * second.

(** ** The writer database *)

Record Thread := {
  parent_event_id : option string;
  root_event_id : option string;
  depth : Z;
  broadcast : bool;
}.

(** A row of [events], joined with the [thread_metadata] row that the same
    transaction inserts. *)
Record Row := {
  r_community : string;
  r_id : string;
  r_channel : option string;
  r_created : Z;
  r_kind : Z;
  r_thread : option Thread;
}.

#[export] Instance Thread_eq_dec : EqDecision Thread.
Proof. solve_decision. Defined.
#[export] Instance Row_eq_dec : EqDecision Row.
Proof. solve_decision. Defined.

(** The primary key of [events]. *)
Definition row_key (r : Row) : string * Z * string := (r_community r, r_created r, r_id r).

(** [events_created_at_floor_guard]: [true] when the trigger does not raise.
    [floor_secs] is the session's [buzz.created_at_floor]. *)
Definition floor_guard (floor_secs : option Z) (clock : Z) (r : Row) : bool :=
  match floor_secs with
  | None => true
  | Some fl =>
      negb ((0 <? fl) && bool_decide (r_channel r ≠ None) && (r_created r <? clock - fl * second))
  end.

(** One commit record of the write-ahead log: an [events] transaction with its
    inserted rows and soft deletes, or a heartbeat. *)
Inductive LogEntry :=
  | LTx (ins : list Row) (del : list (string * Z * string))
  | LBeat (tok : Z) (ep : string).

Abbreviation Wal := (list (Z * LogEntry)).

Definition entry_rows (e : LogEntry) : list Row :=
  match e with LTx ins _ => ins | LBeat _ _ => [] end.
Definition entry_deletes (e : LogEntry) : list (string * Z * string) :=
  match e with LTx _ del => del | LBeat _ _ => [] end.

Definition inserted (p : Wal) : list Row := p ≫= λ e, entry_rows e.2.
Definition deleted (p : Wal) : list (string * Z * string) := p ≫= λ e, entry_deletes e.2.

(** What [SELECT token, epoch FROM replica_heartbeat WHERE id = 1] returns on a
    snapshot that has replayed [p]. *)
Definition observe_heartbeat (p : Wal) : option (Z * string) :=
  foldl (λ o e, match e.2 with LBeat t ep => Some (t, ep) | LTx _ _ => o end) None p.

(** An open transaction.  [seen] is what bounds it in the scan: [xact_start], or
    [pg_prepared_xacts.prepared] once prepared.  [guarded] holds the rows whose
    deferred guard has run, with the guard's clock; [logged] is set between the
    commit record and the moment the backend leaves [pg_stat_activity]. *)
Record OpenTx := {
  seen : Z;
  guarded : list (Z * Row);
  deletes : list (string * Z * string);
  is_prepared : bool;
  logged : bool;
}.

(** Where a probe stands between two awaits of [sample_writer] and
    [probe_once]. *)
Inductive ProbePc :=
  | Idle
  | Sampled (s : Z)
  | Scanned (s : Z) (oldest : option Z)
  | Committing (s : Z) (oldest : option Z) (at_ : Z)
  | Beaten (sample : WriterSample)
  | Regressed (w : Z)
  | Rotating (w : Z) (at_ : Z)
  | Rotated (tok : Z) (ep : string) (at_ : Z) (w : Z).

Record World := {
  clock : Z;
  instant : Z;
  open : gmap nat OpenTx;
  wal : Wal;
  hb_token : Z;
  hb_epoch : string;
  pc : ProbePc;
  fence : FenceInner;
}.

Definition set_open (o : gmap nat OpenTx) (w : World) : World :=
  {| clock := clock w; instant := instant w; open := o; wal := wal w; hb_token := hb_token w;
     hb_epoch := hb_epoch w; pc := pc w; fence := fence w |}.
Definition set_pc (p : ProbePc) (w : World) : World :=
  {| clock := clock w; instant := instant w; open := open w; wal := wal w; hb_token := hb_token w;
     hb_epoch := hb_epoch w; pc := p; fence := fence w |}.
Definition set_fence (f : FenceInner) (w : World) : World :=
  {| clock := clock w; instant := instant w; open := open w; wal := wal w; hb_token := hb_token w;
     hb_epoch := hb_epoch w; pc := pc w; fence := f |}.
(** Append a commit record, stamped with the present instant. *)
Definition append (e : LogEntry) (w : World) : World :=
  {| clock := clock w; instant := instant w; open := open w; wal := wal w ++ [(instant w, e)];
     hb_token := hb_token w; hb_epoch := hb_epoch w; pc := pc w; fence := fence w |}.
(** [UPDATE replica_heartbeat SET token = .., epoch = ..] and its commit. *)
Definition commit_beat (tok : Z) (ep : string) (w : World) : World :=
  {| clock := clock w; instant := instant w; open := open w;
     wal := wal w ++ [(instant w, LBeat tok ep)];
     hb_token := tok; hb_epoch := ep; pc := pc w; fence := fence w |}.
Definition tick (dc dn : Z) (w : World) : World :=
  {| clock := clock w + dc; instant := instant w + dn; open := open w; wal := wal w;
     hb_token := hb_token w; hb_epoch := hb_epoch w; pc := pc w; fence := fence w |}.

Definition begin_tx (now : Z) : OpenTx :=
  {| seen := now; guarded := []; deletes := []; is_prepared := false; logged := false |}.
Definition guard_tx (now : Z) (r : Row) (t : OpenTx) : OpenTx :=
  {| seen := seen t; guarded := guarded t ++ [(now, r)]; deletes := deletes t;
     is_prepared := is_prepared t; logged := logged t |}.
Definition delete_tx (k : string * Z * string) (t : OpenTx) : OpenTx :=
  {| seen := seen t; guarded := guarded t; deletes := k :: deletes t;
     is_prepared := is_prepared t; logged := logged t |}.
Definition prepare_tx (now : Z) (t : OpenTx) : OpenTx :=
  {| seen := now; guarded := guarded t; deletes := deletes t; is_prepared := true;
     logged := logged t |}.
Definition log_tx (t : OpenTx) : OpenTx :=
  {| seen := seen t; guarded := guarded t; deletes := deletes t; is_prepared := is_prepared t;
     logged := true |}.
Definition tx_entry (t : OpenTx) : LogEntry := LTx (guarded t).*2 (deletes t).

(** No heartbeat ever committed bears this epoch: [gen_random_uuid()]. *)
Definition fresh_epoch (ep : string) (w : World) : Prop :=
  ep ≠ hb_epoch w ∧ ∀ t tok, (t, LBeat tok ep) ∉ wal w.

(** The database and the other sessions: clients, other pods' probes, the
    operator who re-seeds the heartbeat row. *)
Inductive db_step (w : World) : World → Prop :=
  | step_tick dc dn : 0 ≤ dc → 0 ≤ dn → db_step w (tick dc dn w)
  | step_begin x : open w !! x = None →
      db_step w (set_open (<[x := begin_tx (clock w)]> (open w)) w)
  | step_guard x t r :
      open w !! x = Some t → is_prepared t = false → logged t = false →
      floor_guard (Some CREATED_AT_FLOOR_SECS) (clock w) r = true →
      (r_thread r ≠ None → r_channel r ≠ None) →
      db_step w (set_open (<[x := guard_tx (clock w) r t]> (open w)) w)
  | step_delete x t k :
      open w !! x = Some t → is_prepared t = false → logged t = false →
      db_step w (set_open (<[x := delete_tx k t]> (open w)) w)
  | step_prepare x t :
      open w !! x = Some t → is_prepared t = false → logged t = false →
      (* [PREPARE] runs the deferred guards and then takes [prepared] *)
      (∀ g r, (g, r) ∈ guarded t → clock w - g < FENCE_CLOCK_MARGIN_SECS * second) →
      db_step w (set_open (<[x := prepare_tx (clock w) t]> (open w)) w)
  | step_commit x t :
      open w !! x = Some t → logged t = false →
      NoDup (row_key <$> inserted (wal w) ++ (guarded t).*2) →
      db_step w (append (tx_entry t) (set_open (<[x := log_tx t]> (open w)) w))
  | step_end x t :
      open w !! x = Some t → logged t = true → db_step w (set_open (delete x (open w)) w)
  | step_rollback x t :
      open w !! x = Some t → logged t = false → db_step w (set_open (delete x (open w)) w)
  | step_other_beat :
      hb_token w < i64_max → db_step w (commit_beat (hb_token w + 1) (hb_epoch w) w)
  | step_reseed tok ep : fresh_epoch ep w → db_step w (commit_beat tok ep w).

(** How the views show the open transactions: a transaction that may still
    commit appears with its [xact_start], or as a row of an established session
    whose details are hidden, or among the prepared ones. *)
Definition hidden (b : Backend) : Prop :=
  (datname b = true ∨ usename b = true) ∧ state b = None ∧ backend_type b = None.
Definition shows (others : list Backend) (prepared : list Z) (o : gmap nat OpenTx) : Prop :=
  ∀ x t, o !! x = Some t → logged t = false →
    if is_prepared t then seen t ∈ prepared
    else ∃ b, b ∈ others ∧ (xact_start b = Some (seen t) ∨ hidden b).

(** [probe_once] after [sample_writer]: what is recorded, and where it goes on. *)
Definition record_sample (s : WriterSample) (f : FenceInner) : ProbePc * FenceInner :=
  let w := fence_wall (sampled_at s) (oldest_xact_start s) in
  match record (sample_token s) (sample_epoch s) (sample_committed_at s) w f with
  | (Recorded, f') => (Idle, f')
  | (TokenRegression, f') => (Regressed w, f')
  end.

Definition beaten (s : Z) (oldest : option Z) (at_ tok : Z) (ep : string) : WriterSample :=
  {| sampled_at := s; oldest_xact_start := oldest; sample_token := tok; sample_epoch := ep;
     sample_committed_at := at_ |}.

(** The probe of this pod, statement by statement; [probe_fail] is the error
    return of any of them, which [run_probe] answers with [close]. *)
Inductive probe_step (w : World) : World → Prop :=
  | probe_sample : pc w = Idle → probe_step w (set_pc (Sampled (clock w)) w)
  | probe_scan s others prepared oldest :
      pc w = Sampled s → shows others prepared (open w) →
      activity_scan others prepared = Ok oldest →
      probe_step w (set_pc (Scanned s oldest) w)
  | probe_instant s oldest :
      pc w = Scanned s oldest → probe_step w (set_pc (Committing s oldest (instant w)) w)
  | probe_beat s oldest at_ :
      pc w = Committing s oldest at_ → hb_token w < i64_max →
      probe_step w (set_pc (Beaten (beaten s oldest at_ (hb_token w + 1) (hb_epoch w)))
                      (commit_beat (hb_token w + 1) (hb_epoch w) w))
  | probe_record s :
      pc w = Beaten s →
      probe_step w (set_pc (record_sample s (fence w)).1 (set_fence (record_sample s (fence w)).2 w))
  | probe_rotate_instant wl :
      pc w = Regressed wl → probe_step w (set_pc (Rotating wl (instant w)) w)
  | probe_rotate wl at_ ep :
      pc w = Rotating wl at_ → hb_token w < i64_max → fresh_epoch ep w →
      probe_step w (set_pc (Rotated (hb_token w + 1) ep at_ wl) (commit_beat (hb_token w + 1) ep w))
  | probe_record_rotated tok ep at_ wl :
      pc w = Rotated tok ep at_ wl →
      probe_step w (set_pc Idle (set_fence (record tok ep at_ wl (fence w)).2 w))
  | probe_fail : probe_step w (set_pc Idle (set_fence (close (fence w)) w)).

Definition step (w w' : World) : Prop := db_step w w' ∨ probe_step w w'.
Definition steps : relation World := rtc step.

(** The freshly migrated database: the seed row of migration 0026, no fence. *)
Definition boot (now i : Z) (ep : string) : World :=
  {| clock := now; instant := i; open := ∅; wal := [(i, LBeat 0 ep)]; hb_token := 0;
     hb_epoch := ep; pc := Idle; fence := new_fence |}.
Definition reachable (w : World) : Prop := ∃ now i ep, steps (boot now i ep) w.

(** ** Lemmas on the fence *)

Lemma find_reverse_last {A} (p : A → bool) l x :
  find p (reverse l) = Some x →
  ∃ l1 l2, l = l1 ++ x :: l2 ∧ p x = true ∧ Forall (λ y, p y = false) l2.
Proof.
  induction l as [|y l IH] using rev_ind; [done|].
  rewrite reverse_snoc. simpl. destruct (p y) eqn:Hy.
  - intros [= <-]. exists l, []. auto.
  - intros (l1 & l2 & -> & Hx & Hl2)%IH. exists l1, (l2 ++ [y]). rewrite <-app_assoc.
    split_and!; [done|done|]. apply Forall_app. auto.
Qed.

Lemma find_reverse_none {A} (p : A → bool) l :
  find p (reverse l) = None ↔ Forall (λ y, p y = false) l.
Proof.
  induction l as [|y l IH] using rev_ind; [by split; [constructor|]|].
  rewrite reverse_snoc. simpl. rewrite Forall_app, Forall_singleton. destruct (p y); [|naive_solver].
  split; [done|]. by intros [_ ?].
Qed.

(** Only a retained entry is ever proved, and only under its own epoch. *)
Lemma resolve_proved tok ep f e :
  resolve tok ep f = Proved e →
  e ∈ ring f ∧ token e ≤ tok ∧ (epoch f = Some ep ∨ epoch f = None).
Proof.
  unfold resolve. intros Hr.
  assert (find (λ e, token e <=? tok) (reverse (ring f)) = Some e
          ∧ (epoch f = Some ep ∨ epoch f = None)) as [Hf He].
  { destruct (epoch f) as [e0|]; [destruct (bool_decide_reflect (e0 ≠ ep)) as [|Hd%dec_stable]; [done|]|];
      destruct (find _ _) eqn:Hf; simplify_eq/=; auto. }
  apply find_reverse_last in Hf as (l1 & l2 & Hl & Hle%Z.leb_le & _). split_and!; [|done|done].
  rewrite Hl. set_solver.
Qed.

Lemma ring_push_elem e r x : x ∈ ring_push e r → x = e ∨ x ∈ r.
Proof.
  unfold ring_push. rewrite elem_of_app, list_elem_of_singleton. case_bool_decide; [|tauto].
  destruct r; [tauto|]. simpl. rewrite elem_of_cons. tauto.
Qed.

Lemma record_elem tok ep at_ w f x :
  x ∈ ring (record tok ep at_ w f).2 →
  x = {| token := tok; committed_at := at_; wall := w |} ∨ x ∈ ring f ∧ epoch f = Some ep.
Proof.
  unfold record. destruct (bool_decide_reflect (epoch f = Some ep)); simpl.
  - destruct (regresses _ _); simpl; [by intros ?%elem_of_nil|]. intros [?|?]%ring_push_elem; auto.
  - intros [?|?]%ring_push_elem; [auto|]. by apply elem_of_nil in H.
Qed.

Lemma record_epoch tok ep at_ w f : epoch (record tok ep at_ w f).2 = Some ep.
Proof.
  unfold record. destruct (bool_decide_reflect (epoch f = Some ep)); simpl; [|done].
  by destruct (regresses _ _).
Qed.

(** ** The invariant *)

Definition slack : Z := (CREATED_AT_FLOOR_SECS + FENCE_CLOCK_MARGIN_SECS) * second.

(** No transaction that may still commit is older than [L]. *)
Definition bounded (L : Z) (w : World) : Prop :=
  L ≤ clock w ∧ ∀ x t, open w !! x = Some t → logged t = false → L ≤ seen t.

(** A commit record whose channel rows are all younger than the wall at [L]. *)
Definition above (L : Z) (e : LogEntry) : Prop :=
  ∀ r, r ∈ entry_rows e → r_channel r ≠ None → L - slack < r_created r.

(** From position [k] on, the log holds nothing below the wall, and never will. *)
Definition sealed (k : nat) (L : Z) (w : World) : Prop :=
  bounded L w ∧ ∀ j e, (k ≤ j)%nat → wal w !! j = Some e → above L e.2.

(** What a token stands for. *)
Definition proves (w : World) (tok : Z) (ep : string) (at_ wl : Z) : Prop :=
  ∃ k i L, wal w !! k = Some (i, LBeat tok ep) ∧ at_ ≤ i ∧ sealed k L w ∧ wl = L - slack.

Definition tx_ok (w : World) (t : OpenTx) : Prop :=
  seen t ≤ clock w ∧
  ∀ g r, (g, r) ∈ guarded t → r_channel r ≠ None → seen t - slack < r_created r.

(** Heartbeats of one epoch carry increasing tokens. *)
Definition beats_ok (w : World) : Prop :=
  (∀ i u t, wal w !! i = Some (u, LBeat t (hb_epoch w)) → t ≤ hb_token w) ∧
  (∀ i j u v t t' ep, (i < j)%nat → wal w !! i = Some (u, LBeat t ep) →
     wal w !! j = Some (v, LBeat t' ep) → t < t').

Definition times_ok (w : World) : Prop :=
  (∀ i u e, wal w !! i = Some (u, e) → u ≤ instant w) ∧
  (∀ i j u v e e', (i < j)%nat → wal w !! i = Some (u, e) → wal w !! j = Some (v, e') → u ≤ v).

Definition pc_ok (w : World) : Prop :=
  match pc w with
  | Idle => True
  | Sampled s => s ≤ clock w
  | Scanned s o => ∃ L, bounded L w ∧ fence_wall s o = L - slack
  | Committing s o at_ => at_ ≤ instant w ∧ ∃ L, bounded L w ∧ fence_wall s o = L - slack
  | Beaten s => proves w (sample_token s) (sample_epoch s) (sample_committed_at s)
                  (fence_wall (sampled_at s) (oldest_xact_start s))
  | Regressed wl => ∃ L, bounded L w ∧ wl = L - slack
  | Rotating wl at_ => at_ ≤ instant w ∧ ∃ L, bounded L w ∧ wl = L - slack
  | Rotated tok ep at_ wl => proves w tok ep at_ wl
  end.

Definition fence_ok (w : World) : Prop :=
  ∀ e, e ∈ ring (fence w) →
    ∃ ep, epoch (fence w) = Some ep ∧ proves w (token e) ep (committed_at e) (wall e).

(** What a step of anyone does to the database, as far as proofs rely on it:
    time moves on, the log grows by entries above every bound, and no
    transaction becomes older. *)
Record grows (w w' : World) : Prop := {
  gr_clock : clock w ≤ clock w';
  gr_instant : instant w ≤ instant w';
  gr_wal : wal w `prefix_of` wal w';
  gr_bounded : ∀ L, bounded L w → bounded L w';
  gr_above : ∀ L j e, bounded L w → wal w !! j = None → wal w' !! j = Some e → above L e.2;
}.

Lemma grows_sealed k L w w' : grows w w' → sealed k L w → sealed k L w'.
Proof.
  intros G [Hb Hs]. split; [by apply G|]. intros j e Hj He.
  destruct (wal w !! j) as [e'|] eqn:Hje.
  - assert (wal w' !! j = Some e') as He' by (by eapply prefix_lookup_Some, G). simplify_eq. eauto.
  - eapply gr_above; eauto.
Qed.

Lemma grows_proves w w' tok ep at_ wl :
  grows w w' → proves w tok ep at_ wl → proves w' tok ep at_ wl.
Proof.
  intros G (k & i & L & Hk & Hi & Hs & ->). exists k, i, L. split_and!; [|done| |done].
  - eapply prefix_lookup_Some; [done|apply G].
  - by eapply grows_sealed.
Qed.

Lemma grows_refl w w' :
  clock w' = clock w → instant w' = instant w → open w' = open w → wal w' = wal w → grows w w'.
Proof.
  intros Hc Hi Ho Hw. split; rewrite ?Hc, ?Hi, ?Hw; [done|done|done| |].
  - intros L [? ?]. split; [by rewrite Hc|by rewrite Ho].
  - intros L j e _ -> [=].
Qed.

Lemma lookup_snoc_inv {A} (l : list A) x j y :
  (l ++ [x]) !! j = Some y → l !! j = Some y ∨ j = length l ∧ y = x.
Proof.
  intros H. destruct (decide (j < length l)%nat).
  - left. by rewrite lookup_app_l in H.
  - right. rewrite lookup_app_r in H by lia. apply list_lookup_singleton_Some in H as [? ->]. split; [lia|done].
Qed.

(** A heartbeat is above every bound, and a transaction's record is above those
    it was open under. *)
Lemma grows_append w w' e :
  clock w' = clock w → instant w' = instant w → wal w' = wal w ++ [e] →
  (∀ x t, open w' !! x = Some t → logged t = false → ∃ t0, open w !! x = Some t0 ∧
     logged t0 = false ∧ seen t0 = seen t) →
  (∀ L, bounded L w → above L e.2) → grows w w'.
Proof.
  intros Hc Hi Hw Ho Ha. split; rewrite ?Hc, ?Hi, ?Hw; [done|done|by apply prefix_app_r| |].
  - intros L [Hb Hl]. split; [by rewrite Hc|]. intros x t Hx Hlog.
    destruct (Ho x t Hx Hlog) as (t0 & ? & ? & <-). eauto.
  - intros L j y Hb Hn [Hy|[_ ->]]%lookup_snoc_inv; [congruence|eauto].
Qed.

(** A step that leaves the log alone and only touches one open transaction. *)
Lemma grows_open w o :
  (∀ x t, o !! x = Some t → logged t = false →
     seen t = clock w ∨ ∃ t0, open w !! x = Some t0 ∧ logged t0 = false ∧ seen t0 = seen t) →
  grows w (set_open o w).
Proof.
  intros Ho. split; simpl; [done|done|done| |intros ??? _ ->; done].
  intros L [Hb Hl]. split; [done|]. simpl. intros x t Hx Hlog.
  destruct (Ho x t Hx Hlog) as [->|(t0 & ? & ? & <-)]; [done|eauto].
Qed.

Lemma grows_beat tok ep w : grows w (commit_beat tok ep w).
Proof.
  eapply grows_append; [done..| |]; simpl; [eauto|]. by intros L _ r ?%elem_of_nil.
Qed.

Lemma tx_above w t L : tx_ok w t → L ≤ seen t → above L (tx_entry t).
Proof.
  intros [_ Ht] HL r Hr Hch. simpl in Hr. apply list_elem_of_fmap in Hr as ([g r'] & -> & Hin).
  specialize (Ht _ _ Hin Hch). simpl in *. lia.
Qed.

Lemma db_step_grows w w' : (∀ x t, open w !! x = Some t → tx_ok w t) → db_step w w' → grows w w'.
Proof.
  intros Htx Hs. destruct Hs.
  - split; simpl; [lia|lia|done| |intros ??? _ ->; done]. intros L [? ?]. split; simpl; [lia|done].
  - apply grows_open. intros y t [[<- <-]|[? ?]]%lookup_insert_Some; simpl; eauto.
  - apply grows_open. intros y t' [[<- <-]|[? ?]]%lookup_insert_Some; simpl; eauto.
  - apply grows_open. intros y t' [[<- <-]|[? ?]]%lookup_insert_Some; simpl; eauto.
  - apply grows_open. intros y t' [[<- <-]|[? ?]]%lookup_insert_Some; simpl; eauto.
  - eapply grows_append; [done..| |]; simpl.
    + intros y t' [[<- <-]|[? ?]]%lookup_insert_Some; [done|eauto].
    + intros L [_ Hb]. eapply tx_above; eauto.
  - apply grows_open. intros y t' [? ?]%lookup_delete_Some; eauto.
  - apply grows_open. intros y t' [? ?]%lookup_delete_Some; eauto.
  - apply grows_beat.
  - apply grows_beat.
Qed.

Lemma probe_step_grows w w' : probe_step w w' → grows w w'.
Proof.
  destruct 1; try (by apply grows_refl).
  all: eapply grows_append; [done..| |]; simpl; [eauto|]; by intros L _ r0 ?%elem_of_nil.
Qed.

Lemma pc_ok_grows w w' : grows w w' → pc w' = pc w → pc_ok w → pc_ok w'.
Proof.
  intros G Hpc. unfold pc_ok. rewrite Hpc. pose proof (gr_clock _ _ G). pose proof (gr_instant _ _ G).
  destruct (pc w); try done; try (by apply grows_proves).
  - lia.
  - intros (L & ? & ?). exists L. split; [by apply G|done].
  - intros (? & L & ? & ?). split; [lia|]. exists L. split; [by apply G|done].
  - intros (L & ? & ?). exists L. split; [by apply G|done].
  - intros (? & L & ? & ?). split; [lia|]. exists L. split; [by apply G|done].
Qed.

Lemma fence_ok_grows w w' : grows w w' → fence w' = fence w → fence_ok w → fence_ok w'.
Proof.
  intros G Hf Hok e He. rewrite Hf in *. destruct (Hok e He) as (ep & ? & ?). exists ep.
  split; [done|]. by eapply grows_proves.
Qed.

(** *** Heartbeats and commit times *)

Lemma beats_same w w' :
  wal w' = wal w → hb_token w' = hb_token w → hb_epoch w' = hb_epoch w → beats_ok w → beats_ok w'.
Proof. unfold beats_ok. by intros -> -> ->. Qed.

Lemma beats_append_tx w i ins del :
  beats_ok w → ∀ w', wal w' = wal w ++ [(i, LTx ins del)] → hb_token w' = hb_token w →
  hb_epoch w' = hb_epoch w → beats_ok w'.
Proof.
  intros [B1 B2] w' Hw Ht He. unfold beats_ok. rewrite Hw, Ht, He. split.
  - intros j u t [Hj|[_ [=]]]%lookup_snoc_inv. eauto.
  - intros j k u v t t' ep Hjk [Hj|[_ [=]]]%lookup_snoc_inv [Hk|[_ [=]]]%lookup_snoc_inv. eauto.
Qed.

Lemma beats_commit tok ep w :
  beats_ok w → (∀ i u t, wal w !! i = Some (u, LBeat t ep) → t < tok) →
  beats_ok (commit_beat tok ep w).
Proof.
  intros [B1 B2] Hlt. split; simpl.
  - intros j u t [Hj|[_ [=-> ->]]]%lookup_snoc_inv; [|done]. apply Hlt in Hj. lia.
  - intros j k u v t t' ep' Hjk [Hj|[-> [=-> -> ->]]]%lookup_snoc_inv.
    + intros [Hk|[_ [=-> -> ->]]]%lookup_snoc_inv; eauto.
    + intros [Hk%lookup_lt_Some|[-> _]]%lookup_snoc_inv; lia.
Qed.

Lemma beats_next w : beats_ok w → beats_ok (commit_beat (hb_token w + 1) (hb_epoch w) w).
Proof.
  intros B. apply beats_commit; [done|]. destruct B as [B _]. intros i u t H%B. lia.
Qed.

Lemma beats_fresh tok ep w : fresh_epoch ep w → beats_ok w → beats_ok (commit_beat tok ep w).
Proof.
  intros [_ Hf] B. apply beats_commit; [done|]. intros i u t H%list_elem_of_lookup_2.
  by apply Hf in H.
Qed.

Lemma times_later w w' : wal w' = wal w → instant w ≤ instant w' → times_ok w → times_ok w'.
Proof.
  unfold times_ok. intros -> Hle [T1 T2]. split; [|done]. intros i u e H%T1. lia.
Qed.

Lemma times_append w w' e :
  wal w' = wal w ++ [(instant w, e)] → instant w' = instant w → times_ok w → times_ok w'.
Proof.
  unfold times_ok. intros -> -> [T1 T2]. split.
  - intros i u e' [?|[_ [=-> ->]]]%lookup_snoc_inv; [eauto|done].
  - intros i j u v e1 e2 Hij [Hi|[-> _]]%lookup_snoc_inv [Hj|[-> Hj]]%lookup_snoc_inv.
    + eauto.
    + simplify_eq. eauto.
    + apply lookup_lt_Some in Hj. lia.
    + lia.
Qed.

(** *** Transactions *)

Lemma tx_ok_later w w' t : clock w ≤ clock w' → tx_ok w t → tx_ok w' t.
Proof. intros Hc [H1 H2]. split; [lia|done]. Qed.

Lemma slack_floor : slack = CREATED_AT_FLOOR_SECS * second + FENCE_CLOCK_MARGIN_SECS * second.
Proof. reflexivity. Qed.

Lemma guard_passes now r :
  floor_guard (Some CREATED_AT_FLOOR_SECS) now r = true → r_channel r ≠ None →
  now - CREATED_AT_FLOOR_SECS * second ≤ r_created r.
Proof.
  unfold floor_guard. intros H Hc. apply negb_true_iff, andb_false_iff in H as [H|H].
  - rewrite andb_false_iff in H. destruct H as [H|H]; [done|]. by apply bool_decide_eq_false in H.
  - by apply Z.ltb_ge in H.
Qed.

Lemma margin_pos : 0 < FENCE_CLOCK_MARGIN_SECS * second.
Proof. done. Qed.

(** A guarded row is above the floor at the clock of its guard, and the guard
    never runs before the transaction's start: strengthened form of [tx_ok]. *)
Definition guards_ok (t : OpenTx) : Prop :=
  ∀ g r, (g, r) ∈ guarded t → r_channel r ≠ None → g - CREATED_AT_FLOOR_SECS * second ≤ r_created r.

Record TxInv (w : World) (t : OpenTx) : Prop := {
  tx_seen : seen t ≤ clock w;
  tx_guard : guards_ok t;
  tx_slack : ∀ g r, (g, r) ∈ guarded t → seen t < g + FENCE_CLOCK_MARGIN_SECS * second;
}.

Lemma TxInv_ok w t : TxInv w t → tx_ok w t.
Proof.
  intros [H1 H2 H3]. split; [done|]. intros g r Hin Hc. specialize (H2 _ _ Hin Hc).
  specialize (H3 _ _ Hin). rewrite slack_floor. lia.
Qed.

Lemma TxInv_later w w' t : clock w ≤ clock w' → TxInv w t → TxInv w' t.
Proof. intros ? []. split; [lia|done|done]. Qed.

Definition txs_inv (w : World) : Prop := ∀ x t, open w !! x = Some t → TxInv w t.

Lemma txs_insert w x t : txs_inv w → TxInv w t → txs_inv (set_open (<[x := t]> (open w)) w).
Proof.
  intros H Ht y t'. simpl. by intros [[<- <-]|[_ Hy]]%lookup_insert_Some; (eapply TxInv_later; [|eauto]).
Qed.

Lemma txs_delete w x : txs_inv w → txs_inv (set_open (delete x (open w)) w).
Proof. intros H y t'. simpl. intros [_ Hy]%lookup_delete_Some. by eapply TxInv_later; [|eauto]. Qed.

Lemma txs_step w w' : txs_inv w → db_step w w' → txs_inv w'.
Proof.
  intros H Hs. destruct Hs as [dc dn ? ?|x Hx|x t r Hx Hp Hl Hg|x t k Hx|x t Hx ? ? Hg|x t Hx|x t Hx|x t Hx| |].
  - intros y t Hy. eapply TxInv_later; [|eauto]. simpl. lia.
  - apply txs_insert; [done|]. split; simpl; [done|by intros ?? ?%elem_of_nil..].
  - apply txs_insert; [done|]. destruct (H _ _ Hx) as [Ha Hb Hc]. split; [done| |]; simpl.
    + intros g r' [Hin|[= -> ->]%list_elem_of_singleton]%elem_of_app Hch; [eauto|by apply guard_passes].
    + intros g r' [Hin|[= -> ->]%list_elem_of_singleton]%elem_of_app; [eauto|].
      pose proof margin_pos. lia.
  - apply txs_insert; [done|]. by destruct (H _ _ Hx).
  - apply txs_insert; [done|]. destruct (H _ _ Hx) as [Ha Hb Hc]. split; simpl; [done|done|].
    intros g r Hin. specialize (Hg _ _ Hin). lia.
  - intros y t' Hy. eapply (TxInv_later w); [done|]. simpl in Hy.
    apply lookup_insert_Some in Hy as [[<- <-]|[_ Hy]]; [by destruct (H _ _ Hx)|eauto].
  - by apply txs_delete.
  - by apply txs_delete.
  - intros y t Hy. eapply TxInv_later; [|eauto]. done.
  - intros y t Hy. eapply TxInv_later; [|eauto]. done.
Qed.

Lemma txs_tx_ok w : txs_inv w → ∀ x t, open w !! x = Some t → tx_ok w t.
Proof. intros H x t Hx. eapply TxInv_ok, H, Hx. Qed.

(** *** The invariant of the whole world *)

Record Inv (w : World) : Prop := {
  inv_tx : txs_inv w;
  inv_beats : beats_ok w;
  inv_times : times_ok w;
  inv_pc : pc_ok w;
  inv_fence : fence_ok w;
}.

Lemma Inv_boot now i ep : Inv (boot now i ep).
Proof.
  split.
  - intros x t. simpl. by rewrite lookup_empty.
  - split; simpl; [by intros [|[|]] ?? ?; simplify_eq/=|].
    intros [|j] [|k] ????? Hjk ??; simplify_eq/=; lia.
  - split; simpl; [by intros [|[|]] ?? ?; simplify_eq/=|].
    intros [|j] [|k] ???? Hjk ??; simplify_eq/=; lia.
  - done.
  - by intros e ?%elem_of_nil.
Qed.

Lemma Inv_db w w' : Inv w → db_step w w' → Inv w'.
Proof.
  intros [Htx Hb Ht Hpc Hf] Hs.
  assert (grows w w') as G by (eapply db_step_grows; [by apply txs_tx_ok|done]).
  split; [by eapply txs_step| | | |].
  - destruct Hs; try (by eapply beats_same).
    + by eapply beats_append_tx.
    + by apply beats_next.
    + by apply beats_fresh.
  - destruct Hs; first [by eapply times_append | by eapply (times_later w); [|simpl; lia|]].
  - eapply pc_ok_grows; [done| |done]. by destruct Hs.
  - eapply fence_ok_grows; [done| |done]. by destruct Hs.
Qed.

(** *** The probe *)

Lemma min_list_le l t : Some t ∈ l → ∃ m, min_list l = Some m ∧ m ≤ t.
Proof.
  induction l as [|o l IH]; [by intros ?%elem_of_nil|]. cbn [min_list foldr]. fold (min_list l).
  intros [<-|H]%elem_of_cons.
  - destruct (min_list l) as [m|]; simpl; eexists; (split; [done|lia]).
  - destruct (IH H) as (m & -> & Hm). destruct o; simpl; eexists; (split; [done|lia]).
Qed.

Lemma opt_min_le_l a b m : a = Some m → ∃ n, opt_min a b = Some n ∧ n ≤ m.
Proof. intros ->. destruct b; simpl; eexists; (split; [done|lia]). Qed.

Lemma opt_min_le_r a b m : b = Some m → ∃ n, opt_min a b = Some n ∧ n ≤ m.
Proof. intros ->. destruct a; simpl; eexists; (split; [done|lia]). Qed.

Lemma hidden_masked b : hidden b → masked_activity b = true.
Proof.
  intros (Hs & Hst & Hty). unfold masked_activity, starting_up. rewrite Hty, Hst.
  destruct (client_port b), (datname b), (usename b); try (by destruct Hs);
    (destruct (bool_decide (xact_start b = None)); done).
Qed.

(** The scan fails closed: whatever it returns bounds every transaction that may
    still commit. *)
Lemma activity_scan_bounds others prepared o oldest x t :
  shows others prepared o → activity_scan others prepared = Ok oldest →
  o !! x = Some t → logged t = false → ∃ m, oldest = Some m ∧ m ≤ seen t.
Proof.
  unfold activity_scan. intros Hsh Hscan Hx Hl. specialize (Hsh x t Hx Hl).
  destruct (filter _ others) as [|b0 l0] eqn:Hf; simpl in Hscan; [|done]. injection Hscan as <-.
  destruct (is_prepared t).
  - destruct (min_list_le (Some <$> prepared) (seen t)) as (m & Hm & Hle).
    { by apply list_elem_of_fmap_2. }
    eapply opt_min_le_r in Hm as (n & Hn & ?). exists n. split; [exact Hn|lia].
  - destruct Hsh as (b & Hb & [Hb'|Hh%hidden_masked]).
    + destruct (min_list_le (xact_start <$> others) (seen t)) as (m & Hm & Hle).
      { rewrite <-Hb'. by apply list_elem_of_fmap_2. }
      eapply opt_min_le_l in Hm as (n & Hn & ?). exists n. split; [exact Hn|lia].
    + assert (b ∈ filter (λ b, masked_activity b = true) others) as Hin
        by (by apply list_elem_of_filter). rewrite Hf in Hin. by apply elem_of_nil in Hin.
Qed.

Lemma scan_bounded w s others prepared oldest :
  s ≤ clock w → shows others prepared (open w) → activity_scan others prepared = Ok oldest →
  ∃ L, bounded L w ∧ fence_wall s oldest = L - slack.
Proof.
  intros Hs Hsh Hscan. exists (match oldest with Some o => Z.min o s | None => s end). split.
  - split; [destruct oldest; lia|]. intros x t Hx Hl.
    destruct (activity_scan_bounds _ _ _ _ _ _ Hsh Hscan Hx Hl) as (m & -> & ?). lia.
  - unfold fence_wall. rewrite slack_floor. destruct oldest; lia.
Qed.

(** A heartbeat committed now proves every bound that holds now. *)
Lemma beat_proves tok ep w L at_ :
  bounded L w → at_ ≤ instant w → proves (commit_beat tok ep w) tok ep at_ (L - slack).
Proof.
  intros Hb Hat. exists (length (wal w)), (instant w), L. simpl. split_and!; [|done| |done].
  - rewrite lookup_app_r by lia. by rewrite Nat.sub_diag.
  - split; [by apply (grows_beat tok ep w)|]. simpl.
    intros j e Hj [H%lookup_lt_Some|[_ ->]]%lookup_snoc_inv; [lia|]. by intros r ?%elem_of_nil.
Qed.

Lemma record_fence_ok w w' tok ep at_ wl :
  grows w w' → fence_ok w → proves w' tok ep at_ wl →
  fence w' = (record tok ep at_ wl (fence w)).2 → fence_ok w'.
Proof.
  intros G Hf Hp Hfe e. rewrite Hfe. intros He. exists ep. rewrite record_epoch. split; [done|].
  apply record_elem in He as [->|[He Hep]]; [done|].
  destruct (Hf e He) as (ep' & Hep' & Hpr). simplify_eq. by eapply grows_proves.
Qed.

Lemma record_sample_fence s f :
  (record_sample s f).2 =
  (record (sample_token s) (sample_epoch s) (sample_committed_at s)
     (fence_wall (sampled_at s) (oldest_xact_start s)) f).2.
Proof. unfold record_sample. by destruct (record _ _ _ _ _) as [[] ?]. Qed.

Lemma probe_step_pc w w' : Inv w → probe_step w w' → pc_ok w'.
Proof.
  intros [_ _ _ Hpc _] Hs. pose proof (probe_step_grows _ _ Hs) as G. unfold pc_ok in Hpc.
  destruct Hs as [Hw|s others prepared oldest Hw|s oldest Hw|s oldest at_ Hw|s Hw|wl Hw|wl at_ ep Hw|tok ep at_ wl Hw|];
    try rewrite Hw in Hpc; unfold pc_ok; simpl.
  - done.
  - by eapply scan_bounded.
  - done.
  - destruct Hpc as (Hat & L & HL & ->). by apply beat_proves.
  - unfold record_sample. destruct (record _ _ _ _ _) as [[] f']; simpl; [done|].
    destruct Hpc as (k & i & L & _ & _ & [Hb _] & ->). exists L. split; [|done]. exact Hb.
  - done.
  - destruct Hpc as (Hat & L & HL & ->). by apply beat_proves.
  - done.
  - done.
Qed.

Lemma Inv_probe w w' : Inv w → probe_step w w' → Inv w'.
Proof.
  intros Hinv Hs. pose proof (probe_step_grows _ _ Hs) as G. pose proof (probe_step_pc _ _ Hinv Hs) as Hpc'.
  destruct Hinv as [Htx Hb Ht Hpc Hf]. unfold pc_ok in Hpc. split; [| | |done|].
  - intros x t Hx. eapply TxInv_later; [apply G|]. apply (Htx x). by destruct Hs.
  - destruct Hs; try (by eapply beats_same); [by apply (beats_next w)|by apply (beats_fresh _ _ w)].
  - destruct Hs; first [by eapply times_append | by eapply (times_later w); [|simpl; lia|]].
  - destruct Hs as [| | | |s Hw| | |tok ep at_ wl Hw|];
      try (eapply fence_ok_grows; [exact G|done|exact Hf]).
    + rewrite Hw in Hpc. eapply record_fence_ok; [exact G|done| |simpl; apply record_sample_fence].
      by eapply grows_proves.
    + rewrite Hw in Hpc. eapply record_fence_ok; [exact G|done| |done]. by eapply grows_proves.
    + by intros e ?%elem_of_nil.
Qed.

Lemma Inv_step w w' : Inv w → step w w' → Inv w' ∧ grows w w'.
Proof.
  intros H [Hs|Hs]; (split; [by eauto using Inv_db, Inv_probe|]).
  - eapply db_step_grows; [|done]. by apply txs_tx_ok, H.
  - by apply probe_step_grows.
Qed.

Lemma Inv_reachable w : reachable w → Inv w.
Proof.
  intros (now & i & ep & Hs). pose proof (Inv_boot now i ep) as H. revert H.
  induction Hs as [|w1 w2 w3 H1 _ IH]; [done|]. intros H. apply IH. by eapply Inv_step.
Qed.

Lemma steps_grow w w' : Inv w → steps w w' → Inv w' ∧ wal w `prefix_of` wal w'
  ∧ (∀ k L, sealed k L w → sealed k L w').
Proof.
  intros H Hs. induction Hs as [|w1 w2 w3 H1 _ IH]; [done|].
  destruct (Inv_step _ _ H H1) as [H2 G]. destruct (IH H2) as (? & ? & ?). split_and!; [done| |].
  - etrans; [apply G|done].
  - intros k L Hk. eauto using grows_sealed.
Qed.

(** *** Rows: the primary key, and threads only in channels *)

Lemma inserted_app p q : inserted (p ++ q) = inserted p ++ inserted q.
Proof. apply bind_app. Qed.
Lemma deleted_app p q : deleted (p ++ q) = deleted p ++ deleted q.
Proof. apply bind_app. Qed.

Definition threaded_in_channel (r : Row) : Prop := r_thread r ≠ None → r_channel r ≠ None.

Record rows_ok (w : World) : Prop := {
  rows_keys : NoDup (row_key <$> inserted (wal w));
  rows_channel : Forall threaded_in_channel (inserted (wal w));
  rows_open : ∀ x t, open w !! x = Some t → Forall threaded_in_channel (guarded t).*2;
}.

Lemma rows_ok_same w w' :
  inserted (wal w') = inserted (wal w) → open w' = open w → rows_ok w → rows_ok w'.
Proof. intros Hi Ho [H1 H2 H3]. split; rewrite ?Hi, ?Ho; done. Qed.

Lemma rows_ok_open w x t :
  Forall threaded_in_channel (guarded t).*2 → rows_ok w → rows_ok (set_open (<[x := t]> (open w)) w).
Proof.
  intros Ht [H1 H2 H3]. split; [done|done|]. simpl.
  by intros y t' [[<- <-]|[_ Hy]]%lookup_insert_Some; [|eauto].
Qed.

Lemma rows_ok_delete w x : rows_ok w → rows_ok (set_open (delete x (open w)) w).
Proof. intros [H1 H2 H3]. split; [done|done|]. simpl. intros y t [_ Hy]%lookup_delete_Some. eauto. Qed.

Lemma inserted_beat w tok ep : inserted (wal (commit_beat tok ep w)) = inserted (wal w).
Proof. simpl. by rewrite inserted_app, app_nil_r. Qed.

Lemma rows_ok_db w w' : rows_ok w → db_step w w' → rows_ok w'.
Proof.
  intros H Hs. destruct Hs as [dc dn|x|x t r Hx ? ? ? Hr|x t k Hx|x t Hx|x t Hx Hl Hnd|x t Hx|x t Hx|?|?].
  - by apply (rows_ok_same w).
  - apply rows_ok_open; [constructor|done].
  - apply rows_ok_open; [|done]. simpl. rewrite fmap_app. apply Forall_app.
    split; [by eapply (rows_open _ H)|]. constructor; [exact Hr|constructor].
  - apply rows_ok_open; [|done]. simpl. by eapply (rows_open _ H).
  - apply rows_ok_open; [|done]. simpl. by eapply (rows_open _ H).
  - destruct (rows_ok_open w x (log_tx t)) as [Ha Hb Hc]; [simpl; by eapply (rows_open _ H)|done|].
    assert (inserted (wal w ++ [(instant w, tx_entry t)]) = inserted (wal w) ++ (guarded t).*2) as Hi.
    { rewrite inserted_app. f_equal. apply app_nil_r. }
    split; simpl; rewrite ?Hi; [done| |done]. apply Forall_app. split; [done|]. by eapply (rows_open _ H).
  - by apply rows_ok_delete.
  - by apply rows_ok_delete.
  - by eapply (rows_ok_same w); [apply inserted_beat|..].
  - by eapply (rows_ok_same w); [apply inserted_beat|..].
Qed.

Lemma rows_ok_probe w w' : rows_ok w → probe_step w w' → rows_ok w'.
Proof.
  intros H Hs. destruct Hs; try (by apply (rows_ok_same w)).
  - eapply (rows_ok_same w); [apply (inserted_beat w)|done|done].
  - eapply (rows_ok_same w); [apply (inserted_beat w)|done|done].
Qed.

Lemma steps_rows w w' : rows_ok w → steps w w' → rows_ok w'.
Proof.
  intros H Hs. induction Hs as [|w1 w2 w3 [H1|H1] _ IH]; [done|..]; apply IH.
  - by eapply rows_ok_db.
  - by eapply rows_ok_probe.
Qed.

Lemma reachable_rows w : reachable w → rows_ok w.
Proof.
  intros (now & i & ep & Hs). eapply steps_rows; [|exact Hs].
  split; simpl; [constructor|constructor|]. intros x t. by rewrite lookup_empty.
Qed.

(** ** What a proved entry proves *)

Lemma observe_heartbeat_snoc p e :
  observe_heartbeat (p ++ [e]) =
  match e.2 with LBeat t ep => Some (t, ep) | LTx _ _ => observe_heartbeat p end.
Proof. unfold observe_heartbeat. by rewrite foldl_snoc. Qed.

Lemma observe_heartbeat_lookup p tok ep :
  observe_heartbeat p = Some (tok, ep) → ∃ j u, p !! j = Some (u, LBeat tok ep).
Proof.
  induction p as [|[u e] p IH] using rev_ind; [done|]. rewrite observe_heartbeat_snoc. simpl.
  destruct e as [ins del|t e].
  - intros (j & v & Hj)%IH. exists j, v. by apply lookup_app_l_Some.
  - intros [= -> ->]. exists (length p), u. rewrite lookup_app_r by lia. by rewrite Nat.sub_diag.
Qed.

(** The heartbeat behind a proved entry lies inside the reader's snapshot. *)
Lemma proved_inside w p tok ep e :
  Inv w → p `prefix_of` wal w → observe_heartbeat p = Some (tok, ep) →
  resolve tok ep (fence w) = Proved e →
  ∃ k i L, (k < length p)%nat ∧ wal w !! k = Some (i, LBeat (token e) ep) ∧ committed_at e ≤ i
    ∧ sealed k L w ∧ wall e = L - slack.
Proof.
  intros [_ [_ Hb] _ _ Hf] Hp Hobs (He & Hle & Hep)%resolve_proved.
  destruct (Hf e He) as (ep' & Hep' & k & i & L & Hk & Hi & Hs & Hw).
  assert (ep' = ep) as -> by (destruct Hep; congruence).
  exists k, i, L. split_and!; [|done..].
  destruct (observe_heartbeat_lookup _ _ _ Hobs) as (j & u & Hj).
  pose proof (lookup_lt_Some _ _ _ Hj). eapply prefix_lookup_Some in Hj; [|exact Hp].
  destruct (decide (k < length p)%nat) as [|Hge]; [done|].
  assert (tok < token e) by (eapply (Hb j k); [lia|done|done]). lia.
Qed.

Lemma elem_of_inserted r p :
  r ∈ inserted p ↔ ∃ j i e, p !! j = Some (i, e) ∧ r ∈ entry_rows e.
Proof.
  unfold inserted. rewrite list_elem_of_bind. split.
  - intros ([i e] & Hr & [j Hj]%list_elem_of_lookup). eauto.
  - intros (j & i & e & Hj & Hr). exists (i, e). split; [done|]. by eapply list_elem_of_lookup_2.
Qed.

Lemma no_holes w w' p tok ep e r :
  Inv w → steps w w' → p `prefix_of` wal w → observe_heartbeat p = Some (tok, ep) →
  resolve tok ep (fence w) = Proved e →
  r ∈ inserted (wal w') → r_channel r ≠ None → r_created r ≤ wall e → r ∈ inserted p.
Proof.
  intros Hinv Hs Hp Hobs Hres (j & i & x & Hj & Hr)%elem_of_inserted Hch Hle.
  destruct (proved_inside _ _ _ _ _ Hinv Hp Hobs Hres) as (k & i' & L & Hk & _ & _ & Hseal & Hw).
  destruct (steps_grow _ _ Hinv Hs) as (_ & Hpre & Hsealed).
  destruct (decide (j < k)%nat) as [Hjk|Hjk].
  - apply elem_of_inserted. exists j, i, x. split; [|done].
    destruct (lookup_lt_is_Some_2 p j) as [y Hy]; [lia|].
    assert (wal w' !! j = Some y) by (eapply prefix_lookup_Some; [exact Hy|by etrans]). congruence.
  - destruct (Hsealed _ _ Hseal) as [_ Hab]. specialize (Hab j (i, x) ltac:(lia) Hj r Hr Hch). lia.
Qed.

Lemma fresh_inside w w' p tok ep e j i x :
  Inv w → steps w w' → p `prefix_of` wal w → observe_heartbeat p = Some (tok, ep) →
  resolve tok ep (fence w) = Proved e →
  wal w' !! j = Some (i, x) → i < committed_at e → p !! j = Some (i, x).
Proof.
  intros Hinv Hs Hp Hobs Hres Hj Hi.
  destruct (proved_inside _ _ _ _ _ Hinv Hp Hobs Hres) as (k & i' & L & Hk & Hk' & Hc & _).
  destruct (steps_grow _ _ Hinv Hs) as ([_ _ [_ Ht] _ _] & Hpre & _).
  eapply prefix_lookup_Some in Hk'; [|exact Hpre].
  destruct (decide (j < k)%nat) as [Hjk|Hjk].
  - destruct (lookup_lt_is_Some_2 p j) as [y Hy]; [lia|].
    assert (wal w' !! j = Some y) by (eapply prefix_lookup_Some; [exact Hy|by etrans]). congruence.
  - destruct (decide (j = k)) as [->|]; [simplify_eq; lia|].
    assert (i' ≤ i) by (eapply (Ht k j); [lia|done|done]). lia.
Qed.

(** The fence as the handlers use it: any history of [record] and [close]. *)
Inductive fence_history : FenceInner → Prop :=
  | fh_new : fence_history new_fence
  | fh_record tok ep at_ w f : fence_history f → fence_history (record tok ep at_ w f).2
  | fh_close f : fence_history f → fence_history (close f).

Definition token_lt (a b : TokenEntry) : Prop := token a < token b.

Record ring_ok (f : FenceInner) : Prop := {
  ring_sorted : StronglySorted token_lt (ring f);
  ring_bound : (length (ring f) ≤ RING_CAPACITY)%nat;
  ring_epoch : epoch f = None → ring f = [];
}.

Lemma StronglySorted_snoc {A} (R : relation A) l x :
  StronglySorted R l → Forall (λ y, R y x) l → StronglySorted R (l ++ [x]).
Proof.
  induction 1 as [|y l Hl IH Hy]; simpl; [repeat constructor|]. intros [Hx Hf]%Forall_cons.
  constructor; [auto|]. apply Forall_app. auto.
Qed.

Lemma sorted_last_max l e : StronglySorted token_lt l → last l = Some e → Forall (λ y, token y ≤ token e) l.
Proof.
  induction 1 as [|y l Hl IH Hy]; [done|]. destruct l as [|z l]; simpl in *.
  - intros [= ->]. by constructor.
  - intros H. specialize (IH H). constructor; [|done].
    apply Forall_cons in Hy as [Hyz _]. apply Forall_cons in IH as [Hz _]. unfold token_lt in *. lia.
Qed.

Lemma ring_push_ok e r :
  StronglySorted token_lt r → (length r ≤ RING_CAPACITY)%nat → regresses (token e) r = false →
  StronglySorted token_lt (ring_push e r) ∧ (length (ring_push e r) ≤ RING_CAPACITY)%nat.
Proof.
  intros Hs Hl Hr.
  assert (Forall (λ y, token_lt y e) r) as Hlt.
  { unfold regresses in Hr. destruct (last r) as [z|] eqn:Hz.
    - apply Z.leb_gt in Hr. eapply Forall_impl; [by eapply sorted_last_max|].
      unfold token_lt. simpl. intros. lia.
    - apply last_None in Hz as ->. constructor. }
  unfold ring_push. case_bool_decide as Hc.
  - destruct r as [|z r]; simpl; [split; [repeat constructor|done]|].
    apply StronglySorted_inv in Hs as [Hs _]. apply Forall_cons in Hlt as [_ Hlt].
    split; [by apply StronglySorted_snoc|]. rewrite length_app. simpl in *. lia.
  - split; [by apply StronglySorted_snoc|]. rewrite length_app. simpl. lia.
Qed.

Lemma fence_history_ok f : fence_history f → ring_ok f.
Proof.
  induction 1 as [|tok ep at_ w f _ [Hs Hl He]|f _ [Hs Hl He]].
  - split; [constructor|simpl; lia|done].
  - set (e := {| token := tok; committed_at := at_; wall := w |}).
    unfold record. destruct (bool_decide_reflect (epoch f = Some ep)) as [Hep|Hep]; simpl.
    + destruct (regresses tok (ring f)) eqn:Hr; simpl.
      * split; [constructor|simpl; lia|done].
      * destruct (ring_push_ok e (ring f) Hs Hl Hr). split; [done|done|]. simpl. by rewrite Hep.
    + split; [|by vm_compute; lia|done]. simpl. repeat constructor.
  - split; [constructor|simpl; lia|done].
Qed.

(** A timeline change: the writer comes back from a backup that kept the first
    [n] commits.  Its heartbeat row is the one the backup holds, epoch included;
    the relay and its fence keep running. *)
Definition restore (n : nat) (tok : Z) (ep : string) (w : World) : World :=
  {| clock := clock w; instant := instant w; open := ∅; wal := take n (wal w); hb_token := tok;
     hb_epoch := ep; pc := pc w; fence := fence w |}.

(** One whole probe with nothing else going on. *)
Lemma quiet_probe w f' :
  pc w = Idle → open w = ∅ → hb_token w < i64_max →
  record (hb_token w + 1) (hb_epoch w) (instant w) (fence_wall (clock w) None) (fence w)
    = (Recorded, f') →
  steps w (set_pc Idle (set_fence f' (commit_beat (hb_token w + 1) (hb_epoch w) w))).
Proof.
  intros Hpc Ho Ht Hr.
  eapply rtc_l; [right; by apply probe_sample|].
  eapply rtc_l; [right; eapply (probe_scan _ _ [] []); [done| |done]|].
  { intros x t. simpl. by rewrite Ho, lookup_empty. }
  eapply rtc_l; [right; by eapply probe_instant|].
  eapply rtc_l; [right; eapply probe_beat; [done|done]|].
  eapply rtc_l; [right; by eapply probe_record|]. simpl. unfold record_sample, beaten. simpl.
  rewrite Hr. simpl. apply rtc_refl.
Qed.

(** One whole transaction of one row with nothing else going on. *)
Lemma quiet_commit w r :
  open w = ∅ → floor_guard (Some CREATED_AT_FLOOR_SECS) (clock w) r = true → threaded_in_channel r →
  NoDup (row_key <$> inserted (wal w) ++ [r]) →
  steps w (append (LTx [r] []) (set_open ∅ w)).
Proof.
  intros Ho Hg Ht Hnd.
  set (t := guard_tx (clock w) r (begin_tx (clock w))).
  eapply rtc_l; [left; apply (step_begin _ 0%nat); by rewrite Ho, lookup_empty|].
  eapply rtc_l; [left; apply (step_guard _ 0%nat (begin_tx (clock w)) r); simpl|].
  { by rewrite lookup_insert_eq. } { done. } { done. } { done. } { done. }
  eapply rtc_l; [left; apply (step_commit _ 0%nat t); simpl|].
  { by rewrite lookup_insert_eq. } { done. } { done. }
  eapply rtc_l; [left; apply (step_end _ 0%nat (log_tx t)); simpl|].
  { by rewrite lookup_insert_eq. } { done. }
  simpl. rewrite Ho, !insert_insert_eq, delete_insert_id by apply lookup_empty. apply rtc_refl.
Qed.

(** ** A run: a message is written, time passes, the pod probes *)

Module Scenario.
(** A reply that was also broadcast to the channel. *)
Definition reply : Thread :=
  {| parent_event_id := Some "root"%string; root_event_id := Some "root"%string; depth := 1; broadcast := true |}.
Definition hello : Row :=
  {| r_community := "acme"; r_id := "r1"; r_channel := Some "general"%string; r_created := 0;
     r_kind := 9; r_thread := Some reply |}.
Definition start : World := boot 0 0 "epoch-1".
Definition written : World := append (LTx [hello] []) (set_open ∅ start).
Definition later : World := tick (2000 * second) (2000000 * millisecond) written.
Definition entry1 : TokenEntry :=
  {| token := 1; committed_at := 2000000 * millisecond; wall := 1035 * second |}.
Definition probed : World :=
  set_pc Idle (set_fence {| epoch := Some "epoch-1"%string; ring := [entry1] |}
    (commit_beat 1 "epoch-1" later)).

Lemma start_written : steps start written.
Proof. apply quiet_commit; [done|done|done|]. simpl. apply NoDup_singleton. Qed.

Lemma start_probed : steps start probed.
Proof.
  etrans; [apply start_written|]. eapply rtc_l; [left; by apply (step_tick _ (2000 * second) (2000000 * millisecond))|].
  by apply (quiet_probe later {| epoch := Some "epoch-1"%string; ring := [entry1] |}).
Qed.

Lemma probed_reachable : reachable probed.
Proof. exists 0, 0, "epoch-1"%string. apply start_probed. Qed.

(** The same database after three heartbeats of other pods and a probe of this
    one, whose next probe fails; then it is restored to its first commit. *)
Definition beats : World :=
  commit_beat 3 "epoch-1" (commit_beat 2 "epoch-1" (commit_beat 1 "epoch-1" start)).
Definition entry4 : TokenEntry := {| token := 4; committed_at := 0; wall := -965 * second |}.
Definition healthy : World :=
  set_pc Idle (set_fence {| epoch := Some "epoch-1"%string; ring := [entry4] |}
    (commit_beat 4 "epoch-1" beats)).
Definition restored : World :=
  restore 1 0 "epoch-1" (set_pc Idle (set_fence (close (fence healthy)) healthy)).
Definition restored_written : World := append (LTx [hello] []) (set_open ∅ restored).
Definition restored_later : World := tick (2000 * second) (2000000 * millisecond) restored_written.
Definition restored_probed : World :=
  set_pc Idle (set_fence {| epoch := Some "epoch-1"%string; ring := [entry1] |}
    (commit_beat 1 "epoch-1" restored_later)).

Lemma healthy_reachable : reachable healthy.
Proof.
  exists 0, 0, "epoch-1"%string.
  do 3 (eapply rtc_l; [left; by apply (step_other_beat _)|]).
  by apply (quiet_probe beats {| epoch := Some "epoch-1"%string; ring := [entry4] |}).
Qed.

Lemma restored_steps : steps restored restored_probed.
Proof.
  etrans; [apply (quiet_commit restored hello); [done|done|done|apply NoDup_singleton]|].
  eapply rtc_l; [left; by apply (step_tick _ (2000 * second) (2000000 * millisecond))|].
  by apply (quiet_probe restored_later {| epoch := Some "epoch-1"%string; ring := [entry1] |}).
Qed.
End Scenario.

(** ** The claims *)

(** C4. No holes, at any replica, ever: let a pod's fence resolve a reader's
    heartbeat observation to a retained entry, with transactions of all other
    sessions interleaved with every statement of every probe in any way.  Then
    the reader's snapshot holds every channel row at or below the entry's wall
    that the writer has committed or will commit at any later time, and every
    commit, of whatever kind, that was older than the entry's [committed_at]. *)
Theorem fence_no_holes w w' p tok ep e :
  reachable w → steps w w' → p `prefix_of` wal w → observe_heartbeat p = Some (tok, ep) →
  resolve tok ep (fence w) = Proved e →
  (∀ r, r ∈ inserted (wal w') → r_channel r ≠ None → r_created r ≤ wall e → r ∈ inserted p)
  ∧ (∀ j i x, wal w' !! j = Some (i, x) → i < committed_at e → p !! j = Some (i, x)).
Proof.
  intros Hr Hs Hp Ho Hres. apply Inv_reachable in Hr.
  split; intros; [by eapply no_holes|by eapply fresh_inside].
Qed.

Lemma fence_no_holes_witness :
  resolve 1 "epoch-1" (fence Scenario.probed) = Proved Scenario.entry1
  ∧ Scenario.hello ∈ inserted (wal Scenario.probed).
Proof.
  split; [done|].
  assert (Hres : resolve 1 "epoch-1" (fence Scenario.probed) = Proved Scenario.entry1) by done.
  apply (fence_no_holes Scenario.probed Scenario.probed (wal Scenario.probed) 1 "epoch-1" Scenario.entry1
           Scenario.probed_reachable (rtc_refl _ _) (reflexivity _) eq_refl Hres).
  - apply list_elem_of_here.
  - done.
  - by vm_compute.
Defined.

(** The ring, after any sequence of records and closes: it holds at most
    [RING_CAPACITY] entries in strictly increasing token order, and [resolve]
    answers the strongest entry the observation supports - the greatest retained
    token not above the observed one, under the ring's own epoch - or says
    exactly why there is none. *)
Theorem resolve_strongest f tok ep :
  fence_history f →
  StronglySorted token_lt (ring f) ∧ (length (ring f) ≤ RING_CAPACITY)%nat ∧
  match resolve tok ep f with
  | Proved e =>
      epoch f = Some ep ∧ e ∈ ring f ∧ token e ≤ tok ∧
      ∀ e', e' ∈ ring f → token e' ≤ tok → token e' ≤ token e
  | EpochMismatch => ∃ e0, epoch f = Some e0 ∧ e0 ≠ ep
  | TokenBehind => epoch f ∈ [None; Some ep] ∧ ∀ e, e ∈ ring f → tok < token e
  end.
Proof.
  intros [Hs Hl He]%fence_history_ok. split_and!; [done|done|].
  destruct (resolve tok ep f) as [e| |] eqn:Hr.
  - destruct (resolve_proved _ _ _ _ Hr) as (Hin & Hle & Hep).
    split_and!; [|done|done|].
    { destruct Hep as [|Hn]; [done|]. rewrite (He Hn) in Hin. by apply elem_of_nil in Hin. }
    intros e' He' Hle'.
    assert (find (λ e, token e <=? tok) (reverse (ring f)) = Some e) as Hf.
    { unfold resolve in Hr. repeat (case_match; simplify_eq/=; try done). }
    apply find_reverse_last in Hf as (l1 & l2 & Hring & _ & Hl2).
    rewrite Hring in He', Hs. apply elem_of_app in He' as [He'|[->|He']%elem_of_cons]; [|done|].
    + assert (token_lt e' e) by (by eapply StronglySorted_app_1_elem_of; [exact Hs| |left]).
      unfold token_lt in *. lia.
    + rewrite Forall_forall in Hl2. apply Hl2, Z.leb_gt in He'. lia.
  - unfold resolve in Hr. destruct (epoch f) as [e0|]; [|by case_match].
    exists e0. split; [done|]. by destruct (bool_decide_reflect (e0 ≠ ep)); [|case_match].
  - unfold resolve in Hr.
    assert (epoch f ∈ [None; Some ep] ∧ find (λ e, token e <=? tok) (reverse (ring f)) = None) as [H1 H2].
    { destruct (epoch f) as [e0|].
      - destruct (bool_decide_reflect (e0 ≠ ep)) as [| ->%dec_stable]; [done|].
        split; [set_solver|]. by case_match.
      - split; [set_solver|]. by case_match. }
    split; [done|]. rewrite find_reverse_none, Forall_forall in H2.
    intros e Hin. by apply Z.leb_gt, H2.
Qed.

Lemma resolve_strongest_witness :
  fence_history (record 7 "e" 0 50 (record 3 "e" 0 20 new_fence).2).2
  ∧ (epoch (record 7 "e" 0 50 (record 3 "e" 0 20 new_fence).2).2 = Some "e"%string
     ∧ {| token := 3; committed_at := 0; wall := 20 |} ∈ ring (record 7 "e" 0 50 (record 3 "e" 0 20 new_fence).2).2).
Proof.
  assert (fence_history (record 7 "e" 0 50 (record 3 "e" 0 20 new_fence).2).2) as H
    by (repeat constructor).
  split; [exact H|].
  destruct (proj2 (proj2 (resolve_strongest _ 5 "e" H))) as (He & Hin & _). split; [exact He|exact Hin].
Defined.

(** [close] drops what regression detection needs.  With the ring intact a
    token at or below the newest of its epoch is a [TokenRegression], which makes
    the probe rotate the epoch; after the [close] of any failed probe the same
    token is recorded, and every observation at or above it proves it.  So a
    writer restored from a backup that kept the epoch, with one probe failing
    meanwhile, leaves a reader of the abandoned timeline proving coverage: there
    is a run in which the observation of such a reader resolves to an entry
    although the writer holds a channel row below the wall that the reader
    misses. *)
Theorem close_forgets_regression :
  (∀ f ep e tok at_ w, epoch f = Some ep → last (ring f) = Some e → tok ≤ token e →
     (record tok ep at_ w f).1 = TokenRegression ∧
     (record tok ep at_ w (close f)).1 = Recorded ∧
     ∀ o, tok ≤ o → resolve o ep (record tok ep at_ w (close f)).2
                     = Proved {| token := tok; committed_at := at_; wall := w |}) ∧
  ∃ w0 w1 w2 e r,
    reachable w0 ∧ observe_heartbeat (wal w0) = Some (4, "epoch-1"%string) ∧
    is_Some (proved (resolve 4 "epoch-1" (fence w0))) ∧
    probe_step w0 w1 ∧ steps (restore 1 0 "epoch-1" w1) w2 ∧
    resolve 4 "epoch-1" (fence w2) = Proved e ∧
    r ∈ inserted (wal w2) ∧ r_channel r ≠ None ∧ r_created r ≤ wall e ∧ r ∉ inserted (wal w0).
Proof.
  split.
  - intros f ep e tok at_ w Hep Hl Hle. unfold record, regresses, resolve, close. simpl.
    rewrite Hep, Hl, (bool_decide_eq_true_2 (Some ep = Some ep)) by done.
    apply Z.leb_le in Hle as ->. split_and!; [done|done|]. intros o Ho%Z.leb_le. simpl.
    rewrite bool_decide_eq_false_2 by congruence. by rewrite Ho.
  - exists Scenario.healthy, (set_pc Idle (set_fence (close (fence Scenario.healthy)) Scenario.healthy)),
      Scenario.restored_probed, Scenario.entry1, Scenario.hello.
    split_and!.
    + apply Scenario.healthy_reachable.
    + done.
    + by eexists.
    + apply probe_fail.
    + apply Scenario.restored_steps.
    + done.
    + apply list_elem_of_here.
    + done.
    + by vm_compute.
    + by intros ?%elem_of_nil.
Qed.
