(* ===== verification/KeysetPages.v ===== *)
(** * Keyset pages and where they are read

    The SQL of [crates/buzz-db/src/store/thread.rs] (channel windows and thread
    pages) over the rows a session sees, the route decision of
    [crates/buzz-db/src/runtime/mod.rs] ([route_read], [proved_reader]) over the
    fence of [ReplicaFence], and the two compositions of them that
    [get_channel_window_with_session] and [get_thread_replies] make.

    Pages are exact: a covered page is the page the writer would serve at any
    later time, so a client may scroll across replicas. *)

From stdpp Require Import base gmap strings list sorting.
From Stdlib Require Import ZArith Lia.
From S2P Require Import Prelude ReplicaFence.

Local Open Scope Z_scope.

(** ** Order and limit *)

(** [ORDER BY .. LIMIT n] under an order given as a relation. *)
Section order_limit.
Context {A : Type} (R : relation A) `{!RelDecision R, !Transitive R, !Total R}.

Definition order_limit (n : nat) (l : list A) : list A := take n (merge_sort R l).

Lemma merge_sort_elem x (l : list A) : x ∈ merge_sort R l ↔ x ∈ l.
Proof. by rewrite merge_sort_Permutation. Qed.

(** Rows that the order tells apart come out in one way only. *)
Lemma merge_sort_same l l' :
  NoDup l → NoDup l' → (∀ x, x ∈ l ↔ x ∈ l') →
  (∀ x y, x ∈ l → y ∈ l → R x y → R y x → x = y) → merge_sort R l = merge_sort R l'.
Proof.
  intros Hn Hn' Hel Hanti. assert (l ≡ₚ l') as Hp by (by apply NoDup_Permutation).
  eapply (StronglySorted_unique_strong R); [|by apply StronglySorted_merge_sort..|].
  - intros x y. rewrite !merge_sort_elem, <-Hel. by apply Hanti.
  - by rewrite !merge_sort_Permutation.
Qed.

(** Whatever is not on a full page sorts after all of it. *)
Lemma take_sorted_after n l x y :
  StronglySorted R l → x ∈ l → x ∉ take n l → y ∈ take n l → R y x.
Proof.
  intros Hs Hx Hn Hy. rewrite <-(take_drop n l) in Hs, Hx.
  apply elem_of_app in Hx as [|Hx]; [done|]. by eapply StronglySorted_app_1_elem_of.
Qed.

(** Two sorted lists agree on a first page when one is part of the other and
    has every element up to that page's last one. *)
Lemma take_sorted_agree n l1 l2 t :
  StronglySorted R l1 → StronglySorted R l2 → NoDup l1 → NoDup l2 →
  (∀ x, x ∈ l1 → x ∈ l2) → (∀ x y, x ∈ l2 → y ∈ l2 → R x y → R y x → x = y) →
  last (take n l1) = Some t → length (take n l1) = n → (∀ x, x ∈ l2 → R x t → x ∈ l1) →
  take n l2 = take n l1.
Proof.
  revert l2 n. induction l1 as [|a l1 IH]; intros l2 n Hs1 Hs2 Hn1 Hn2 Hsub Hanti Hlast Hlen Hcov.
  { by rewrite take_nil in Hlast. }
  destruct n as [|n]; [done|]. simpl in Hlast, Hlen. injection Hlen as Hlen.
  assert (R a t) as Hat.
  { apply StronglySorted_inv in Hs1 as [_ Ha]. rewrite Forall_forall in Ha.
    apply last_Some_elem_of, elem_of_cons in Hlast as [->|Ht].
    - by destruct (total R a a).
    - apply Ha. by eapply elem_of_take in Ht as (i & Hi & _); eapply list_elem_of_lookup_2. }
  destruct l2 as [|b l2]; [specialize (Hsub a ltac:(left)); by apply elem_of_nil in Hsub|].
  pose proof (proj2 (StronglySorted_inv Hs1)) as Ha. pose proof (proj2 (StronglySorted_inv Hs2)) as Hb.
  rewrite Forall_forall in Ha, Hb.
  apply NoDup_cons in Hn1 as [Hna Hn1]. apply NoDup_cons in Hn2 as [Hnb Hn2].
  assert (a = b) as <-.
  { assert (a ∈ b :: l2) as Hin by (apply Hsub; left). apply elem_of_cons in Hin as [|Hin]; [done|].
    pose proof (Hb _ Hin) as Hba.
    assert (b ∈ a :: l1) as Hin1 by (apply Hcov; [left|by etrans]).
    apply elem_of_cons in Hin1 as [|Hin1]; [done|].
    apply Hanti; [by right|left|by apply Ha|done]. }
  simpl. f_equal. destruct n as [|n]; [done|].
  apply (IH l2 (S n)).
  - by eapply StronglySorted_inv.
  - by eapply StronglySorted_inv.
  - done.
  - done.
  - intros x Hx. assert (x ∈ a :: l2) as Hin by (apply Hsub; by right).
    apply elem_of_cons in Hin as [->|]; [done|done].
  - intros x y Hx Hy. apply Hanti; by right.
  - destruct (take (S n) l1) as [|z l] eqn:Hz; [done|]. done.
  - done.
  - intros x Hx Hxt. assert (x ∈ a :: l1) as Hin by (apply Hcov; [by right|done]).
    apply elem_of_cons in Hin as [->|]; [done|done].
Qed.
End order_limit.

(** ** The rows a session sees *)

(** Rows inserted and not soft-deleted in what the session has replayed. *)
Definition live (p : Wal) : list Row := filter (λ r, row_key r ∉ deleted p) (inserted p).

Lemma elem_of_live r p : r ∈ live p ↔ r ∈ inserted p ∧ row_key r ∉ deleted p.
Proof. unfold live. rewrite list_elem_of_filter. tauto. Qed.

(** A cursor: the [(created_at, id)] of the last row of the previous page. *)
Definition Cursor : Type := Z * string.

(** *** Channel windows: [ORDER BY e.created_at DESC, e.id ASC] *)

Definition window_order (a b : Row) : Prop :=
  r_created b < r_created a ∨ (r_created a = r_created b ∧ String.le (r_id a) (r_id b)).

#[export] Instance window_order_dec : RelDecision window_order.
Proof. intros a b. unfold window_order. apply _. Defined.
#[export] Instance window_order_trans : Transitive window_order.
Proof.
  intros a b c [H|[H Hi]] [H'|[H' Hi']]; unfold window_order; [left; lia..|].
  right. split; [lia|]. by etrans.
Qed.
#[export] Instance window_order_total : Total window_order.
Proof.
  intros a b. unfold window_order. destruct (Z.lt_trichotomy (r_created a) (r_created b)) as [|[H|]]; [by auto| |by auto].
  destruct (total String.le (r_id a) (r_id b)); auto.
Qed.

(** The [WHERE] clause: channel, live top-level rows (or broadcast replies),
    kinds - an empty kind filter is no filter. *)
Definition top_level (r : Row) : bool :=
  match r_thread r with
  | None => true
  | Some t => bool_decide (depth t = 0) || (bool_decide (depth t = 1) && broadcast t)
  end.
Definition kind_allowed (kinds : option (list Z)) (r : Row) : bool :=
  match kinds with
  | None | Some [] => true
  | Some ks => bool_decide (r_kind r ∈ ks)
  end.
(** [e.created_at < ts OR (e.created_at = ts AND e.id > id)] *)
Definition after_cursor (cursor : option Cursor) (r : Row) : bool :=
  match cursor with
  | None => true
  | Some (ts, id) => (r_created r <? ts) ||
      (bool_decide (r_created r = ts) && negb (bool_decide (String.le (r_id r) id)))
  end.
Definition in_window (community channel : string) (kinds : option (list Z)) (r : Row) : bool :=
  bool_decide (r_community r = community) && bool_decide (r_channel r = Some channel) &&
  top_level r && kind_allowed kinds r.

Record ChannelWindow := {
  window_rows : list Row;
  has_more : bool;
  next_cursor : option Cursor;
}.

Definition scan_position (r : Row) : Cursor := (r_created r, r_id r).

Definition get_channel_window_on (rows : list Row) (community channel : string) (limit : nat)
    (cursor : option Cursor) (kinds : option (list Z)) : ChannelWindow :=
  let matching := filter (λ r, in_window community channel kinds r && after_cursor cursor r = true) rows in
  let db_rows := order_limit window_order (limit + 1) matching in
  let more := bool_decide (limit < length db_rows)%nat in
  let page := take limit db_rows in
  {| window_rows := page; has_more := more;
     next_cursor := if more then scan_position <$> last page else None |}.

(** *** Thread pages: [ORDER BY tm.event_created_at ASC, tm.event_id ASC] *)

Definition thread_order (a b : Row) : Prop :=
  r_created a < r_created b ∨ (r_created a = r_created b ∧ String.le (r_id a) (r_id b)).

#[export] Instance thread_order_dec : RelDecision thread_order.
Proof. intros a b. unfold thread_order. apply _. Defined.
#[export] Instance thread_order_trans : Transitive thread_order.
Proof.
  intros a b c [H|[H Hi]] [H'|[H' Hi']]; unfold thread_order; [left; lia..|].
  right. split; [lia|]. by etrans.
Qed.
#[export] Instance thread_order_total : Total thread_order.
Proof.
  intros a b. unfold thread_order. destruct (Z.lt_trichotomy (r_created a) (r_created b)) as [|[H|]]; [by auto| |by auto].
  destruct (total String.le (r_id a) (r_id b)); auto.
Qed.

(** The opaque cursor: eight big-endian bytes of seconds, then the event id.
    [from_timestamp] is chrono's [DateTime::from_timestamp(secs, 0)]. *)
Definition be_bytes (s : string) : Z :=
  foldl (λ acc c, acc * 256 + Z.of_N (Ascii.N_of_ascii c)) 0 (String.list_ascii_of_string s).
Definition i64_from_be_bytes (s : string) : Z :=
  let u := be_bytes s in if u <? 2 ^ 63 then u else u - 2 ^ 64.
Definition decode_cursor (from_timestamp : Z → option Z) (cursor : option string)
    : option (Z * option string) :=
  bytes ← cursor;
  if (8 <=? String.length bytes)%nat then
    ts ← from_timestamp (i64_from_be_bytes (String.substring 0 8 bytes));
    Some (ts, if (8 <? String.length bytes)%nat
              then Some (String.substring 8 (String.length bytes - 8) bytes) else None)
  else None.

Definition after_reply (key : option (Z * option string)) (r : Row) : bool :=
  match key with
  | None => true
  | Some (ts, Some id) => (ts <? r_created r) ||
      (bool_decide (r_created r = ts) && negb (bool_decide (String.le (r_id r) id)))
  | Some (ts, None) => ts <? r_created r
  end.
Definition in_thread (community root : string) (depth_limit : option Z) (r : Row) : bool :=
  bool_decide (r_community r = community) &&
  match r_thread r with
  | None => false
  | Some t => bool_decide (root_event_id t = Some root) &&
      match depth_limit with None => true | Some d => depth t <=? d end
  end.

Definition get_thread_replies_on (from_timestamp : Z → option Z) (rows : list Row)
    (community root : string) (depth_limit : option Z) (limit : nat) (cursor : option string)
    : list Row :=
  order_limit thread_order limit
    (filter (λ r, in_thread community root depth_limit r
                  && after_reply (decode_cursor from_timestamp cursor) r = true) rows).

(** ** The route decision *)

Inductive RoutePredicate :=
  | Bounded
  | Covered (upper : Z)
  | CoveredPostVerified
  | BoundedOrCovered (upper : Z).

Inductive RouteDecision :=
  | Replica (entry : TokenEntry) (reason : string)
  | Writer (reason : string).

Definition from_channel_cursor (cursor : option Cursor) : RoutePredicate :=
  match cursor with
  | Some (ts, _) => Covered ts
  | None => Bounded
  end.

(** Of the [EventQuery] only [channel_id] and [until] matter. *)
Definition for_query (channel_id : option string) (until : option Z) (routing_enabled : bool)
    : RoutePredicate :=
  if negb routing_enabled then Bounded
  else match channel_id, until with
       | Some _, Some upper => BoundedOrCovered upper
       | _, _ => Bounded
       end.

Definition read_budget_from_ms (ms : Z) : option Z :=
  if ms =? 0 then None else Some (Z.min (ms * millisecond) FENCE_STALENESS).

(** What the reader session answered: a failed checkout, begin or observation
    with its reason, or the heartbeat row, which may be missing. *)
Definition proved_reader (session : result string (option (Z * string))) (f : FenceInner)
    : result string TokenEntry :=
  obs ← session;
  match obs with
  | None => Err "reader_validation_error"%string
  | Some (tok, ep) =>
      match resolve tok ep f with
      | Proved entry => Ok entry
      | EpochMismatch => Err "reader_validation_error"%string
      | TokenBehind => Err "reader_token_behind"%string
      end
  end.

Definition bounded_precheck (newest_entry : TokenEntry) (now : Z) (budget : option Z)
    : result string unit :=
  match budget with
  | Some b => if elapsed now (committed_at newest_entry) <=? b then Ok tt else Err "stale"%string
  | None => Err "disabled"%string
  end.
Definition covered_precheck (newest_entry : TokenEntry) (upper : Z) : result string unit :=
  if upper <=? wall newest_entry then Ok tt else Err "stale"%string.

Definition precheck (newest_entry : TokenEntry) (now : Z) (budget : option Z) (p : RoutePredicate)
    : result string unit :=
  match p with
  | Bounded => bounded_precheck newest_entry now budget
  | Covered upper => covered_precheck newest_entry upper
  | CoveredPostVerified => Ok tt
  | BoundedOrCovered upper =>
      match covered_precheck newest_entry upper with
      | Ok _ => Ok tt
      | Err _ => bounded_precheck newest_entry now budget
      end
  end.

Definition bounded_holds (entry : TokenEntry) (now : Z) (budget : option Z) : bool :=
  match budget with Some b => elapsed now (committed_at entry) <=? b | None => false end.

Definition verdict (entry : TokenEntry) (now : Z) (budget : option Z) (p : RoutePredicate)
    : option string :=
  let covered upper := upper <=? wall entry in
  let fresh := if bounded_holds entry now budget then Some "fresh"%string else None in
  match p with
  | Bounded => fresh
  | Covered upper => if covered upper then Some "covered"%string else None
  | CoveredPostVerified => Some "covered"%string
  | BoundedOrCovered upper => if covered upper then Some "covered"%string else fresh
  end.

(** The fence is read twice, before the reader checkout ([f0], at [t0]) and
    after the observation ([f1], at [t1]); probes may have run in between. *)
Definition route_read (read_pool : bool) (budget : option Z) (f0 : FenceInner) (t0 : Z)
    (session : result string (option (Z * string))) (f1 : FenceInner) (t1 : Z)
    (predicate : RoutePredicate) : RouteDecision :=
  if negb read_pool then Writer "disabled"
  else match newest t0 f0 with
  | None => Writer "uninitialized"
  | Some n =>
      match precheck n t0 budget predicate with
      | Err reason => Writer reason
      | Ok _ =>
          match proved_reader session f1 with
          | Err reason => Writer reason
          | Ok entry =>
              match verdict entry t1 budget predicate with
              | Some reason => Replica entry reason
              | None => Writer "stale"
              end
          end
      end
  end.

(** ** The routed pages

    [replica] is what the page query on the proved session sees, or its
    failure; [writer] the rows of the writer, should the page run there. *)
Definition get_channel_window (decision : RouteDecision) (replica : result string (list Row))
    (writer : list Row) (community channel : string) (limit : nat) (cursor : option Cursor)
    (kinds : option (list Z)) : ChannelWindow :=
  let on rows := get_channel_window_on rows community channel limit cursor kinds in
  match decision with
  | Replica _ _ => match replica with Ok rows => on rows | Err _ => on writer end
  | Writer _ => on writer
  end.

Definition thread_predicate (cursor : option string) : RoutePredicate :=
  match cursor with Some _ => CoveredPostVerified | None => Bounded end.

(** [full && below_fence] *)
Definition post_verified (limit : nat) (entry : TokenEntry) (replies : list Row) : bool :=
  (limit <=? length replies)%nat &&
  match last replies with Some tail => r_created tail <=? wall entry | None => false end.

Definition get_thread_replies (from_timestamp : Z → option Z) (decision : RouteDecision)
    (replica : result string (list Row)) (writer : list Row) (community root : string)
    (depth_limit : option Z) (limit : nat) (cursor : option string) : list Row :=
  let on rows := get_thread_replies_on from_timestamp rows community root depth_limit limit cursor in
  match decision with
  | Writer _ => on writer
  | Replica entry _ =>
      match replica with
      | Err _ => on writer
      | Ok rows =>
          let replies := on rows in
          if bool_decide (cursor = None) || post_verified limit entry replies then replies
          else on writer
      end
  end.

(** ** Lemmas on windows *)

(** What comes after a page's scan position is what does not sort up to it. *)
Lemma after_scan t r : after_cursor (Some (scan_position t)) r = true ↔ ¬ window_order r t.
Proof.
  unfold after_cursor, scan_position, window_order.
  destruct (Z.ltb_spec (r_created r) (r_created t)), (bool_decide_reflect (r_created r = r_created t)),
    (bool_decide_reflect (String.le (r_id r) (r_id t))); simpl; split; try done; try lia;
    intros; try (intros [?|[? ?]]; [lia|try lia; done]); naive_solver lia.
Qed.

Lemma after_reply_key t r :
  after_reply (Some (r_created t, Some (r_id t))) r = true ↔ ¬ thread_order r t.
Proof.
  unfold after_reply, thread_order.
  destruct (Z.ltb_spec (r_created t) (r_created r)), (bool_decide_reflect (r_created r = r_created t)),
    (bool_decide_reflect (String.le (r_id r) (r_id t))); simpl; split; try done; try lia;
    intros; try (intros [?|[? ?]]; [lia|try lia; done]); naive_solver lia.
Qed.

Lemma after_cursor_created ts id r : after_cursor (Some (ts, id)) r = true → r_created r ≤ ts.
Proof.
  unfold after_cursor. destruct (Z.ltb_spec (r_created r) ts); [lia|].
  destruct (bool_decide_reflect (r_created r = ts)); [lia|done].
Qed.

Lemma after_cursor_trans cur t r :
  after_cursor cur t = true → after_cursor (Some (scan_position t)) r = true →
  after_cursor cur r = true.
Proof.
  destruct cur as [[ts id]|]; [|done].
  set (c := {| r_community := ""; r_id := id; r_channel := None; r_created := ts; r_kind := 0; r_thread := None |}).
  change (Some (ts, id)) with (Some (scan_position c)). rewrite !after_scan. intros H1 H2 H3.
  apply H1. destruct (total window_order t r) as [|?]; [by etrans|done].
Qed.

Section window.
Context (community channel : string) (kinds : option (list Z)).

Definition matching (cursor : option Cursor) (rows : list Row) : list Row :=
  filter (λ r, in_window community channel kinds r && after_cursor cursor r = true) rows.

(** The whole history the window scrolls through, in its order. *)
Definition scroll_order (cursor : option Cursor) (rows : list Row) : list Row :=
  merge_sort window_order (matching cursor rows).

Abbreviation window limit cursor rows := (get_channel_window_on rows community channel limit cursor kinds).

Lemma elem_of_window_matching cur rows r :
  r ∈ matching cur rows ↔
  r ∈ rows ∧ in_window community channel kinds r = true ∧ after_cursor cur r = true.
Proof. unfold matching. rewrite list_elem_of_filter, andb_true_iff. tauto. Qed.

Lemma in_window_channel r : in_window community channel kinds r = true →
  r_community r = community ∧ r_channel r = Some channel.
Proof. unfold in_window. intros H. bool_to_prop. done. Qed.

(** Rows of one window that sort alike are one row. *)
Definition distinct (rows : list Row) : Prop := NoDup (row_key <$> rows).

Lemma distinct_NoDup rows : distinct rows → NoDup rows.
Proof. apply NoDup_fmap_1. Qed.

Lemma distinct_key rows x y :
  distinct rows → x ∈ rows → y ∈ rows → row_key x = row_key y → x = y.
Proof.
  unfold distinct. intros Hnd [i Hi]%list_elem_of_lookup [j Hj]%list_elem_of_lookup Hk.
  assert (i = j) as ->; [|congruence].
  apply (NoDup_lookup _ i j (row_key x) Hnd); rewrite list_lookup_fmap; [by rewrite Hi|rewrite Hj; simpl; by rewrite Hk].
Qed.

Lemma distinct_order rows x y :
  distinct rows → x ∈ rows → y ∈ rows → r_community x = r_community y →
  window_order x y → window_order y x → x = y.
Proof.
  intros Hd Hx Hy Hc [H1|[H1 H1']] [H2|[H2 H2']]; try lia.
  apply (distinct_key rows); [done..|]. unfold row_key. rewrite Hc, H1. f_equal. by apply (anti_symm String.le).
Qed.

Lemma matching_order rows cur x y :
  distinct rows → x ∈ matching cur rows → y ∈ matching cur rows →
  window_order x y → window_order y x → x = y.
Proof.
  intros Hd (Hx & [Hcx _]%in_window_channel & _)%elem_of_window_matching
    (Hy & [Hcy _]%in_window_channel & _)%elem_of_window_matching.
  apply (distinct_order rows); congruence.
Qed.

Lemma matching_NoDup rows cur : distinct rows → NoDup (matching cur rows).
Proof. intros H. by apply NoDup_filter, distinct_NoDup. Qed.

Lemma scroll_sorted cur rows : StronglySorted window_order (scroll_order cur rows).
Proof. apply StronglySorted_merge_sort; apply _. Qed.

(** The page, its [has_more] and its cursor in terms of the whole scroll. *)
Lemma window_page limit cur rows : window_rows (window limit cur rows) = take limit (scroll_order cur rows).
Proof. simpl. unfold order_limit. rewrite take_take. f_equal. lia. Qed.

Lemma window_more limit cur rows :
  has_more (window limit cur rows) = bool_decide (limit < length (scroll_order cur rows))%nat.
Proof. simpl. unfold order_limit. rewrite length_take. apply bool_decide_ext. unfold scroll_order, matching. lia. Qed.

Lemma window_cursor limit cur rows :
  next_cursor (window limit cur rows) =
  if bool_decide (limit < length (scroll_order cur rows))%nat
  then scan_position <$> last (take limit (scroll_order cur rows)) else None.
Proof. rewrite <-window_more, <-window_page. done. Qed.

Lemma window_ext limit cur rows rows' :
  scroll_order cur rows = scroll_order cur rows' → window limit cur rows = window limit cur rows'.
Proof. intros H. unfold get_channel_window_on, order_limit. unfold scroll_order, matching in H. by rewrite H. Qed.

Lemma scroll_order_same cur rows rows' :
  distinct rows → distinct rows' →
  (∀ r, r ∈ matching cur rows ↔ r ∈ matching cur rows') → scroll_order cur rows = scroll_order cur rows'.
Proof.
  intros Hd Hd' Hel. apply merge_sort_same; [apply _..|by apply matching_NoDup|by apply matching_NoDup|done|].
  intros x y Hx Hy. by apply (matching_order rows cur).
Qed.

(** The scroll from a page's own cursor is what the page left. *)
Lemma next_page_is_rest n cur rows t :
  distinct rows → last (take n (scroll_order cur rows)) = Some t →
  scroll_order (Some (scan_position t)) rows = drop n (scroll_order cur rows).
Proof.
  intros Hd Ht. set (l := scroll_order cur rows) in *.
  assert (Hs : StronglySorted window_order l) by apply scroll_sorted.
  assert (Hel : ∀ x, x ∈ l ↔ x ∈ matching cur rows) by (intros x; apply merge_sort_elem).
  assert (Hnd : NoDup l) by (unfold l, scroll_order; rewrite merge_sort_Permutation; by apply matching_NoDup).
  assert (Htin : t ∈ take n l) by (by apply last_Some_elem_of).
  assert (Htl : t ∈ l) by (rewrite <-(take_drop n l); set_solver).
  assert (Hbefore : ∀ x, x ∈ take n l → window_order x t).
  { intros x Hx. apply last_Some in Ht as [l0 Ht]. rewrite Ht in Hx.
    assert (StronglySorted window_order (take n l)) as Hst by
      (rewrite <-(take_drop n l) in Hs; by eapply StronglySorted_app_1_l).
    rewrite Ht in Hst. apply elem_of_app in Hx as [Hx| ->%list_elem_of_singleton].
    - eapply StronglySorted_app_1_elem_of; [exact Hst|done|left].
    - by destruct (total window_order t t). }
  assert (Hafter : ∀ x, x ∈ drop n l ↔ x ∈ matching (Some (scan_position t)) rows).
  { intros x. rewrite elem_of_window_matching, after_scan. split.
    - intros Hx. assert (x ∈ l) as Hxl by (rewrite <-(take_drop n l); set_solver).
      pose proof (proj1 (elem_of_window_matching _ _ _) (proj1 (Hel x) Hxl)) as (? & ? & _).
      split_and!; [done|done|]. intros Hxt.
      assert (window_order t x) as Htx.
      { rewrite <-(take_drop n l) in Hs. by eapply StronglySorted_app_1_elem_of. }
      assert (x = t) as -> by (apply (matching_order rows cur); [done|by apply Hel..|done|done]).
      rewrite <-(take_drop n l) in Hnd. apply NoDup_app in Hnd as (_ & Hdis & _). by eapply Hdis.
    - intros (Hr & Hin & Hnot).
      assert (x ∈ l) as Hxl.
      { apply Hel, elem_of_window_matching. split_and!; [done|done|]. eapply after_cursor_trans.
        - apply Hel, elem_of_window_matching in Htl. apply Htl.
        - by apply after_scan. }
      rewrite <-(take_drop n l) in Hxl. apply elem_of_app in Hxl as [Hx|]; [|done].
      by destruct Hnot; apply Hbefore. }
  eapply (StronglySorted_unique_strong window_order).
  - intros x y Hx Hy. assert (x ∈ drop n l) by (apply Hafter; by rewrite <-merge_sort_elem).
    apply (matching_order rows cur); [done|apply Hel; rewrite <-(take_drop n l); set_solver..].
  - apply scroll_sorted.
  - rewrite <-(take_drop n l) in Hs. by eapply StronglySorted_app_1_r.
  - apply NoDup_Permutation.
    + unfold scroll_order. rewrite merge_sort_Permutation. by apply matching_NoDup.
    + rewrite <-(take_drop n l) in Hnd. by apply NoDup_app in Hnd as (_ & _ & ?).
    + intros x. unfold scroll_order. by rewrite merge_sort_elem, Hafter.
Qed.

(** A client's scroll: page after page, each from the last one's cursor. *)
Fixpoint walk (fuel limit : nat) (cur : option Cursor) (rows : list Row) : option (list Row) :=
  match fuel with
  | O => None
  | S fuel' =>
      let w := window limit cur rows in
      match next_cursor w with
      | None => Some (window_rows w)
      | Some c => rest ← walk fuel' limit (Some c) rows; Some (window_rows w ++ rest)
      end
  end.

Lemma next_cursor_some limit cur rows :
  (0 < limit)%nat →
  (next_cursor (window limit cur rows) = None
   ∧ window_rows (window limit cur rows) = scroll_order cur rows) ∨
  ∃ t, next_cursor (window limit cur rows) = Some (scan_position t)
   ∧ last (take limit (scroll_order cur rows)) = Some t
   ∧ (limit < length (scroll_order cur rows))%nat.
Proof.
  intros Hl. rewrite window_cursor, window_page. case_bool_decide as Hm.
  - right. destruct (last (take limit _)) as [t|] eqn:Ht; [by exists t|].
    apply last_None in Ht. apply (f_equal length) in Ht. rewrite length_take in Ht. simpl in Ht. lia.
  - left. split; [done|]. apply take_ge. lia.
Qed.

Lemma walk_lemma limit rows : (0 < limit)%nat → distinct rows → ∀ fuel cur,
  (length (scroll_order cur rows) < fuel)%nat → walk fuel limit cur rows = Some (scroll_order cur rows).
Proof.
  intros Hl Hd. induction fuel as [|fuel IH]; intros cur Hf; [lia|].
  simpl walk. destruct (next_cursor_some limit cur rows Hl) as [[Hn Hp]|(t & Hn & Ht & Hm)]; simpl in *; rewrite Hn.
  - by rewrite Hp.
  - rewrite IH.
    + simpl. rewrite (next_page_is_rest limit cur rows t) by done.
      pose proof (window_page limit cur rows) as Hp. simpl in Hp. rewrite Hp. by rewrite take_drop.
    + rewrite (next_page_is_rest limit cur rows t) by done. rewrite length_drop. lia.
Qed.
End window.

(** ** Lemmas on routed reads *)

(** What a predicate demands of the entry a session proved. *)
Definition satisfied (budget : option Z) (now : Z) (p : RoutePredicate) (e : TokenEntry) : Prop :=
  let fresh := ∃ b, budget = Some b ∧ now - b ≤ committed_at e in
  match p with
  | Bounded => fresh
  | Covered upper => upper ≤ wall e
  | CoveredPostVerified => True
  | BoundedOrCovered upper => upper ≤ wall e ∨ fresh
  end.

Lemma bounded_holds_fresh e now budget :
  bounded_holds e now budget = true → ∃ b, budget = Some b ∧ now - b ≤ committed_at e.
Proof.
  unfold bounded_holds, elapsed. destruct budget as [b|]; [|done]. intros H%Z.leb_le. exists b. split; [done|lia].
Qed.

Lemma verdict_satisfied e now budget p reason :
  verdict e now budget p = Some reason → satisfied budget now p e.
Proof.
  unfold verdict, satisfied. destruct p as [|u| |u]; [|destruct (Z.leb_spec u (wall e)); by intros|by intros|].
  - destruct (bounded_holds e now budget) eqn:Hb; [|done]. intros _. by apply bounded_holds_fresh.
  - destruct (Z.leb_spec u (wall e)); [by left|]. right.
    destruct (bounded_holds e now budget) eqn:Hb; [|done]. by apply bounded_holds_fresh.
Qed.

Lemma route_replica rp budget f0 t0 session f1 t1 pred e reason :
  route_read rp budget f0 t0 session f1 t1 pred = Replica e reason →
  ∃ tok ep, session = Ok (Some (tok, ep)) ∧ resolve tok ep f1 = Proved e
    ∧ satisfied budget t1 pred e.
Proof.
  unfold route_read. destruct rp; [|done]. simpl.
  destruct (newest t0 f0) as [n|]; [|done]. destruct (precheck _ _ _ _); [|done].
  unfold proved_reader. destruct session as [[[tok ep]|]|]; try done. simpl.
  destruct (resolve tok ep f1) as [e'| |] eqn:Hr; try done. simpl.
  destruct (verdict e' t1 budget pred) as [r|] eqn:Hv; [|done]. intros [= -> ->].
  exists tok, ep. split_and!; [done|done|]. by eapply verdict_satisfied.
Qed.

(** Nothing the snapshot shows has been deleted since. *)
Definition undisturbed (p q : Wal) : Prop := ∀ r, r ∈ live p → row_key r ∉ deleted q.

Lemma distinct_filter (P : Row → Prop) `{∀ r, Decision (P r)} rows :
  distinct rows → distinct (filter P rows).
Proof.
  unfold distinct. induction rows as [|r rows IH]; [done|]. rewrite fmap_cons.
  intros [Hr Hnd]%NoDup_cons. rewrite filter_cons. case_decide; [|auto]. rewrite fmap_cons.
  apply NoDup_cons. split; [|auto]. intros (r' & Hk & Hin)%list_elem_of_fmap.
  apply Hr. rewrite Hk. apply list_elem_of_fmap_2. by apply list_elem_of_filter in Hin as [_ ?].
Qed.

(** A session that resolved an entry, seen from any later time. *)
Section covered.
Context (w w' : World) (p : Wal) (tok : Z) (ep : string) (e : TokenEntry).
Context (Hreach : reachable w) (Hsteps : steps w w') (Hp : p `prefix_of` wal w).
Context (Hobs : observe_heartbeat p = Some (tok, ep)) (Hres : resolve tok ep (fence w) = Proved e).

Lemma later_prefix : p `prefix_of` wal w'.
Proof.
  etrans; [exact Hp|]. destruct (steps_grow _ _ (Inv_reachable _ Hreach) Hsteps) as (_ & ? & _). done.
Qed.

Lemma later_distinct : distinct (live (wal w')).
Proof.
  assert (rows_ok w') as [Hk _ _] by (eapply steps_rows; [by apply reachable_rows|done]).
  by apply distinct_filter.
Qed.

Lemma snapshot_distinct : distinct (live p).
Proof.
  assert (rows_ok w) as [Hk _ _] by (by apply reachable_rows).
  destruct Hp as [q Hq]. rewrite Hq, inserted_app, fmap_app in Hk. apply NoDup_app in Hk as [Hk _].
  by apply distinct_filter.
Qed.

Lemma inserted_later r : r ∈ inserted p → r ∈ inserted (wal w').
Proof. destruct later_prefix as [q ->]. rewrite inserted_app. set_solver. Qed.

Lemma deleted_later k : k ∈ deleted p → k ∈ deleted (wal w').
Proof. destruct later_prefix as [q ->]. rewrite deleted_app. set_solver. Qed.

(** Below the wall, what lives at the writer is in the snapshot. *)
Lemma live_covered r :
  r ∈ live (wal w') → r_channel r ≠ None → r_created r ≤ wall e → r ∈ live p.
Proof.
  intros [Hi Hd]%elem_of_live Hc Hle. apply elem_of_live. split.
  - eapply no_holes; [by apply Inv_reachable|exact Hsteps|exact Hp|exact Hobs|exact Hres|done..].
  - intros Hk. by apply Hd, deleted_later.
Qed.

Lemma live_kept r : undisturbed p (wal w') → r ∈ live p → r ∈ live (wal w').
Proof.
  intros Hu Hr. apply elem_of_live. split; [|by apply Hu].
  apply inserted_later. by apply elem_of_live in Hr as [? _].
Qed.

Lemma thread_channel r : r ∈ live (wal w') → threaded_in_channel r.
Proof.
  intros [Hr _]%elem_of_live.
  assert (rows_ok w') as [_ Hc _] by (eapply steps_rows; [by apply reachable_rows|done]).
  rewrite Forall_forall in Hc. by apply Hc.
Qed.
End covered.

(** A channel page answered by a replica: some pod's route decision, at some
    moment, on some snapshot. *)
Section replica_pages.
Context (community channel : string) (kinds : option (list Z)) (limit : nat).

Definition covered_page (w' : World) (cur : Cursor) (p : Wal) (W : ChannelWindow) : Prop :=
  ∃ w rp budget f0 t0 t1 e reason,
    reachable w ∧ steps w w' ∧ p `prefix_of` wal w ∧
    route_read rp budget f0 t0 (Ok (observe_heartbeat p)) (fence w) t1
      (from_channel_cursor (Some cur)) = Replica e reason ∧
    W = get_channel_window (Replica e reason) (Ok (live p)) [] community channel limit (Some cur) kinds.

(** A scroll of pages that replicas answered, possibly each another replica, at
    another moment and through another pod; [ps] are their snapshots. *)
Inductive replica_scroll (w' : World) : Cursor → list Wal → list Row → Prop :=
  | scroll_last cur p W :
      covered_page w' cur p W → next_cursor W = None → replica_scroll w' cur [p] (window_rows W)
  | scroll_more cur p W c ps rest :
      covered_page w' cur p W → next_cursor W = Some c → replica_scroll w' c ps rest →
      replica_scroll w' cur (p :: ps) (window_rows W ++ rest).

Abbreviation scroll := (scroll_order community channel kinds).

Lemma covered_page_window w' cur p W : covered_page w' cur p W →
  W = get_channel_window_on (live p) community channel limit (Some cur) kinds
  ∧ distinct (live p) ∧ distinct (live (wal w'))
  ∧ (∀ r, r ∈ matching community channel kinds (Some cur) (live (wal w')) → r ∈ live p)
  ∧ (undisturbed p (wal w') → ∀ r, r ∈ live p → r ∈ live (wal w')).
Proof.
  intros (w & rp & budget & f0 & t0 & t1 & e & reason & Hr & Hs & Hp & Hroute & ->).
  apply route_replica in Hroute as (tok & ep & [= Hobs] & Hres & Hcov). destruct cur as [ts id]. simpl in Hcov.
  split_and!; [done|by eapply snapshot_distinct|by eapply later_distinct| |].
  - intros r (Hl & Hin & Haft)%elem_of_window_matching.
    eapply live_covered; [exact Hr|exact Hs|exact Hp|exact Hobs|exact Hres|done| |].
    + apply in_window_channel in Hin as [_ ->]. done.
    + apply after_cursor_created in Haft. lia.
  - intros Hu r Hl. by eapply live_kept.
Qed.

(** An undisturbed covered page scrolls on exactly like the writer. *)
Lemma covered_scroll w' cur p W :
  covered_page w' cur p W → undisturbed p (wal w') →
  scroll (Some cur) (live p) = scroll (Some cur) (live (wal w')).
Proof.
  intros (_ & Hd & Hd' & Hcov & Hkept)%covered_page_window Hu. apply scroll_order_same; [done|done|].
  intros r. split.
  - intros (Hl & ? & ?)%elem_of_window_matching. apply elem_of_window_matching. auto.
  - intros Hm. apply elem_of_window_matching. split; [by apply Hcov|]. by apply elem_of_window_matching in Hm as [_ ?].
Qed.

Lemma covered_no_hole w' cur p W r :
  (0 < limit)%nat → covered_page w' cur p W →
  r ∈ matching community channel kinds (Some cur) (live (wal w')) →
  r ∈ window_rows W ∨ ∃ c, next_cursor W = Some c ∧ after_cursor (Some c) r = true.
Proof.
  intros Hl Hc Hr. destruct (covered_page_window _ _ _ _ Hc) as (-> & Hd & _ & Hcov & _).
  assert (r ∈ scroll (Some cur) (live p)) as Hin.
  { unfold scroll_order. rewrite merge_sort_elem. apply elem_of_window_matching.
    split; [by apply Hcov|]. by apply elem_of_window_matching in Hr as [_ ?]. }
  destruct (next_cursor_some community channel kinds limit (Some cur) (live p) Hl)
    as [[_ ->]|(t & Hn & Ht & Hm)]; [by left|].
  rewrite window_page, Hn. rewrite <-(take_drop limit) in Hin.
  apply elem_of_app in Hin as [Hin|Hin]; [by left|right]. exists (scan_position t). split; [done|].
  erewrite <-next_page_is_rest in Hin by done. unfold scroll_order in Hin.
  by rewrite merge_sort_elem, elem_of_window_matching in Hin; destruct Hin as (_ & _ & ?).
Qed.
End replica_pages.

Section thread_page.
Context (from_timestamp : Z → option Z) (community root : string) (depth_limit : option Z)
  (limit : nat) (cursor : option string).

Definition thread_matching (rows : list Row) : list Row :=
  filter (λ r, in_thread community root depth_limit r
               && after_reply (decode_cursor from_timestamp cursor) r = true) rows.

Lemma elem_of_thread_matching rows r :
  r ∈ thread_matching rows ↔ r ∈ rows ∧ in_thread community root depth_limit r = true
    ∧ after_reply (decode_cursor from_timestamp cursor) r = true.
Proof. unfold thread_matching. rewrite list_elem_of_filter, andb_true_iff. tauto. Qed.

Lemma in_thread_threaded r : in_thread community root depth_limit r = true →
  r_community r = community ∧ r_thread r ≠ None.
Proof. unfold in_thread. intros H. bool_to_prop. by destruct (r_thread r). Qed.

Lemma thread_matching_order rows x y :
  distinct rows → x ∈ thread_matching rows → y ∈ thread_matching rows →
  thread_order x y → thread_order y x → x = y.
Proof.
  intros Hd (Hx & [Hcx _]%in_thread_threaded & _)%elem_of_thread_matching
    (Hy & [Hcy _]%in_thread_threaded & _)%elem_of_thread_matching [H1|[H1 H1']] [H2|[H2 H2']]; try lia.
  apply (distinct_key rows); [done..|]. unfold row_key. rewrite Hcx, Hcy, H1. f_equal.
  by apply (anti_symm String.le).
Qed.

Lemma thread_sorted rows : StronglySorted thread_order (merge_sort thread_order (thread_matching rows)).
Proof. apply StronglySorted_merge_sort; apply _. Qed.

Lemma thread_sorted_NoDup rows : distinct rows → NoDup (merge_sort thread_order (thread_matching rows)).
Proof. intros H. rewrite merge_sort_Permutation. by apply NoDup_filter, distinct_NoDup. Qed.

Abbreviation replies := (get_thread_replies_on from_timestamp).

Lemma elem_of_replies rows r :
  r ∈ replies rows community root depth_limit limit cursor → r ∈ thread_matching rows.
Proof.
  intros (i & Hi & _)%elem_of_take. apply (merge_sort_elem thread_order). by eapply list_elem_of_lookup_2.
Qed.

(** A full page over some of the rows, among them all that sort up to its last
    one, is the page over all of them. *)
Lemma thread_page_agree rows rows' t :
  distinct rows → distinct rows' →
  (∀ r, r ∈ thread_matching rows' → thread_order r t → r ∈ thread_matching rows) →
  last (replies rows community root depth_limit limit cursor) = Some t →
  length (replies rows community root depth_limit limit cursor) = limit →
  (∀ r, r ∈ thread_matching rows' → thread_order r t →
     r ∈ replies rows community root depth_limit limit cursor) ∧
  ((∀ r, r ∈ thread_matching rows → r ∈ thread_matching rows') →
     replies rows community root depth_limit limit cursor
     = replies rows' community root depth_limit limit cursor).
Proof.
  intros Hd Hd' Hlow Ht Hlen. pose proof (last_Some_elem_of _ _ Ht) as Htin. split.
  - intros r Hm Ho. pose proof (Hlow _ Hm Ho) as Hmp.
    destruct (decide (r ∈ replies rows community root depth_limit limit cursor)) as [|Hnot]; [done|].
    assert (thread_order t r) as Hto.
    { eapply (take_sorted_after thread_order limit); [apply thread_sorted| |exact Hnot|exact Htin].
      by apply merge_sort_elem. }
    assert (r = t) as -> by (eapply thread_matching_order; [exact Hd|exact Hmp|by apply elem_of_replies|done..]).
    done.
  - intros Hsub. symmetry.
    eapply (take_sorted_agree thread_order limit _ _ t);
      [apply thread_sorted|apply thread_sorted|by apply thread_sorted_NoDup|by apply thread_sorted_NoDup| | |exact Ht|exact Hlen|].
    + intros x. rewrite !(merge_sort_elem thread_order). auto.
    + intros x y. rewrite !(merge_sort_elem thread_order). by apply thread_matching_order.
    + intros x. rewrite !(merge_sort_elem thread_order). auto.
Qed.
End thread_page.

(** ** The claims *)

(** What a routed read is worth.  Let [route_read] send a read to a replica
    whose snapshot is [p], through a fence of any reachable world.  For a covered
    predicate the snapshot holds every channel row up to the predicate's bound,
    of all that is ever committed; for a bounded one it holds every commit, of any
    kind, older than the budget; and without a budget no bounded read is routed. *)
Theorem route_read_sound w w' p rp budget f0 t0 t1 pred e reason :
  reachable w → steps w w' → p `prefix_of` wal w →
  route_read rp budget f0 t0 (Ok (observe_heartbeat p)) (fence w) t1 pred = Replica e reason →
  let complete upper := ∀ r, r ∈ inserted (wal w') → r_channel r ≠ None → r_created r ≤ upper →
                          r ∈ inserted p in
  let recent := ∃ b, budget = Some b ∧
                  ∀ j i x, wal w' !! j = Some (i, x) → i < t1 - b → p !! j = Some (i, x) in
  complete (wall e) ∧
  match pred with
  | Bounded => recent
  | Covered upper => complete upper
  | CoveredPostVerified => True
  | BoundedOrCovered upper => complete upper ∨ recent
  end.
Proof.
  intros Hr Hs Hp (tok & ep & [= Hobs] & Hres & Hsat)%route_replica complete recent.
  apply Inv_reachable in Hr.
  assert (complete (wall e)) as Hc by (intros r; by eapply no_holes).
  assert (∀ u, u ≤ wall e → complete u) as Hcov by (intros u Hu r ???; apply Hc; [done|done|lia]).
  assert ((∃ b, budget = Some b ∧ t1 - b ≤ committed_at e) → recent) as Hrec.
  { intros (b & Hb & Hle). exists b. split; [done|]. intros j i x Hj Hi.
    eapply fresh_inside; [exact Hr|exact Hs|exact Hp|exact Hobs|exact Hres|done|lia]. }
  split; [done|]. destruct pred; simpl in Hsat; [auto|auto|done|]. destruct Hsat; auto.
Qed.

(** A covered channel page is final.  When a cursor page is routed to a
    replica, no channel row that is live at the writer at any later time and
    belongs on the page is missing from it: the row is on the page, or the page
    has a next cursor and the row comes after it.  If moreover nothing the
    snapshot shows has been deleted, the page - rows, [has_more] and cursor - is
    the one the writer would serve. *)
Theorem covered_page_final w' community channel kinds limit cur p W :
  (0 < limit)%nat → covered_page community channel kinds limit w' cur p W →
  (∀ r, r ∈ live (wal w') → in_window community channel kinds r = true →
     after_cursor (Some cur) r = true →
     r ∈ window_rows W ∨ ∃ c, next_cursor W = Some c ∧ after_cursor (Some c) r = true) ∧
  (undisturbed p (wal w') →
     W = get_channel_window (Writer "stale") (Err "") (live (wal w')) community channel limit (Some cur) kinds).
Proof.
  intros Hl Hc. split.
  - intros r Hr Hin Haft. eapply covered_no_hole; [done|exact Hc|]. by apply elem_of_window_matching.
  - intros Hu. pose proof (covered_scroll _ _ _ _ _ _ _ _ Hc Hu) as Heq.
    destruct (covered_page_window _ _ _ _ _ _ _ _ Hc) as [-> _]. by apply window_ext.
Qed.

(** C18. Scrolling across replicas.  Pages served one after the other from the
    cursor of the last, each by whatever replica some pod routed it to, at any
    lag its fence admits, together hold every row of the channel that is live at
    the end and lies below the first cursor; and when nothing they showed was
    deleted they are exactly those rows, once each, in order. *)
Theorem replica_scroll_complete w' community channel kinds limit cur ps out :
  (0 < limit)%nat → replica_scroll community channel kinds limit w' cur ps out →
  (∀ r, r ∈ live (wal w') → in_window community channel kinds r = true →
     after_cursor (Some cur) r = true → r ∈ out) ∧
  (Forall (λ p, undisturbed p (wal w')) ps →
     out = scroll_order community channel kinds (Some cur) (live (wal w'))).
Proof.
  intros Hl. induction 1 as [cur p W Hc Hn|cur p W c ps rest Hc Hn _ [IH1 IH2]]; (split; [intros r Hr Hin Haft|]).
  - destruct (covered_no_hole _ _ _ _ _ _ _ _ r Hl Hc) as [|(c & Hn' & _)]; [by apply elem_of_window_matching|done|congruence].
  - intros [Hu _]%Forall_cons. pose proof (covered_scroll _ _ _ _ _ _ _ _ Hc Hu) as <-.
    destruct (covered_page_window _ _ _ _ _ _ _ _ Hc) as [-> _].
    destruct (next_cursor_some community channel kinds limit (Some cur) (live p) Hl)
      as [[_ ->]|(t & Hn' & _)]; [done|congruence].
  - apply elem_of_app.
    destruct (covered_no_hole _ _ _ _ _ _ _ _ r Hl Hc) as [|(c' & Hn' & ?)]; [by apply elem_of_window_matching|by left|].
    right. apply IH1; [done|done|]. congruence.
  - intros [Hu Hus]%Forall_cons. rewrite (IH2 Hus). clear IH1 IH2.
    pose proof (covered_scroll _ _ _ _ _ _ _ _ Hc Hu) as Heq.
    destruct (covered_page_window _ _ _ _ _ _ _ _ Hc) as (-> & Hd & Hd' & _).
    destruct (next_cursor_some community channel kinds limit (Some cur) (live p) Hl)
      as [[Hn' _]|(t & Hn' & Ht & _)]; [congruence|].
    rewrite Hn' in Hn. injection Hn as <-. rewrite window_page, Heq. rewrite Heq in Ht.
    rewrite (next_page_is_rest community channel kinds limit (Some cur) (live (wal w')) t) by done.
    apply take_drop.
Qed.

(** A served thread page is final.  A cursor page of a thread that a replica
    produced is served only if it is full and ends at or below the proved wall,
    and is re-read on the writer otherwise; a served one misses no reply that is
    live at the writer at any later time and sorts up to its last row, and if
    nothing the snapshot shows has been deleted it is the writer's page. *)
Theorem thread_page_final w w' p rp budget f0 t0 t1 e reason from_timestamp writer community root depth_limit limit c :
  reachable w → steps w w' → p `prefix_of` wal w →
  route_read rp budget f0 t0 (Ok (observe_heartbeat p)) (fence w) t1 (thread_predicate (Some c)) = Replica e reason →
  let on rows := get_thread_replies_on from_timestamp rows community root depth_limit limit (Some c) in
  let served := get_thread_replies from_timestamp (Replica e reason) (Ok (live p)) writer
                  community root depth_limit limit (Some c) in
  if post_verified limit e (on (live p)) then
    served = on (live p) ∧
    (∀ r t, r ∈ thread_matching from_timestamp community root depth_limit (Some c) (live (wal w')) →
       last served = Some t → thread_order r t → r ∈ served) ∧
    (undisturbed p (wal w') → served = on (live (wal w')))
  else served = on writer.
Proof.
  intros Hr Hs Hp (tok & ep & [= Hobs] & Hres & _)%route_replica on served.
  unfold served, get_thread_replies. fold on. rewrite (bool_decide_eq_false_2 (Some c = None)) by done.
  simpl. change (get_thread_replies_on _ (live p) _ _ _ _ _) with (on (live p)).
  destruct (post_verified limit e (on (live p))) eqn:Hpv; [|done]. split; [done|].
  unfold post_verified in Hpv. apply andb_true_iff in Hpv as [Hfull Htail]. apply Nat.leb_le in Hfull.
  destruct (last (on (live p))) as [t|] eqn:Ht; [|done]. apply Z.leb_le in Htail.
  assert (Hlen : length (on (live p)) = limit).
  { apply Nat.le_antisymm; [|done]. unfold on, get_thread_replies_on, order_limit. rewrite length_take. lia. }
  destruct (thread_page_agree from_timestamp community root depth_limit limit (Some c) (live p) (live (wal w')) t)
    as [Hholes Hsame]; [by eapply snapshot_distinct|by eapply later_distinct| |exact Ht|exact Hlen|].
  - intros r (Hl & Hin & Haft)%elem_of_thread_matching Ho. apply elem_of_thread_matching. split_and!; [|done|done].
    eapply live_covered; [exact Hr|exact Hs|exact Hp|exact Hobs|exact Hres|done| |].
    + eapply thread_channel; [exact Hr|exact Hs|done|]. by apply in_thread_threaded in Hin as [_ ?].
    + destruct Ho as [|[? _]]; lia.
  - split; [intros r t' Hm [= <-] Ho; by apply Hholes|].
    intros Hu. apply Hsame. intros x (Hl & ? & ?)%elem_of_thread_matching.
    apply elem_of_thread_matching. split_and!; [by eapply live_kept|done|done].
Qed.

(** Scrolling ends: over rows that do not change, following [next_cursor]
    with any positive page size takes at most one page more than there are
    matching rows, and collects the matching rows once each, newest first. *)
Theorem walk_terminates community channel kinds limit cur rows :
  (0 < limit)%nat → distinct rows →
  walk community channel kinds (S (length (matching community channel kinds cur rows))) limit cur rows
    = Some (scroll_order community channel kinds cur rows)
  ∧ scroll_order community channel kinds cur rows ≡ₚ matching community channel kinds cur rows
  ∧ StronglySorted window_order (scroll_order community channel kinds cur rows).
Proof.
  intros Hl Hd. split_and!.
  - apply walk_lemma; [done|done|]. unfold scroll_order. rewrite merge_sort_Permutation. lia.
  - apply merge_sort_Permutation.
  - apply scroll_sorted.
Qed.

(** ** Witnesses: the scenario of [ReplicaFence] *)

Module Pages.
Import ReplicaFence.Scenario.

Definition now : Z := 2000000 * millisecond.
Definition snapshot : Wal := wal probed.
Definition cursor : Cursor := (second, "zz"%string).

Lemma routed pred : pred = Covered second ∨ pred = CoveredPostVerified →
  route_read true None (fence probed) now (Ok (observe_heartbeat snapshot)) (fence probed) now pred
  = Replica entry1 "covered".
Proof. by intros [->| ->]. Qed.

Lemma page : covered_page "acme" "general" None 10 probed cursor snapshot
  {| window_rows := [hello]; has_more := false; next_cursor := None |}.
Proof.
  exists probed, true, None, (fence probed), now, now, entry1, "covered"%string.
  split_and!; [apply probed_reachable|apply rtc_refl|done|apply routed; by left|]. by vm_compute.
Qed.
End Pages.

Lemma route_read_sound_witness : Scenario.hello ∈ inserted Pages.snapshot.
Proof.
  eapply (route_read_sound Scenario.probed Scenario.probed Pages.snapshot _ _ _ _ _ _ _ _ Scenario.probed_reachable
           (rtc_refl _ _) (reflexivity _) (Pages.routed (Covered second) (or_introl eq_refl))).
  - apply list_elem_of_here.
  - done.
  - by vm_compute.
Defined.

Lemma covered_page_final_witness :
  [Scenario.hello] = window_rows (get_channel_window (Writer "stale") (Err "") (live (wal Scenario.probed))
                       "acme" "general" 10 (Some Pages.cursor) None).
Proof.
  destruct (covered_page_final Scenario.probed "acme" "general" None 10 Pages.cursor Pages.snapshot _
              ltac:(lia) Pages.page) as [_ H].
  by rewrite <-H; [|intros r _ ?%elem_of_nil].
Defined.

Lemma replica_scroll_complete_witness : Scenario.hello ∈ [Scenario.hello].
Proof.
  apply (replica_scroll_complete Scenario.probed "acme" "general" None 10 Pages.cursor [Pages.snapshot] [Scenario.hello]).
  - lia.
  - exact (scroll_last _ _ _ _ _ Pages.cursor Pages.snapshot _ Pages.page eq_refl).
  - by vm_compute; left.
  - by vm_compute.
  - by vm_compute.
Defined.

Lemma thread_page_final_witness :
  get_thread_replies (λ _, None) (Replica Scenario.entry1 "covered") (Ok (live Pages.snapshot)) []
    "acme" "root" None 1 (Some ""%string) = [Scenario.hello].
Proof.
  exact (proj1 (thread_page_final Scenario.probed Scenario.probed Pages.snapshot _ _ _ _ _ _ _ (λ _, None) []
                  "acme" "root" None 1 "" Scenario.probed_reachable (rtc_refl _ _) (reflexivity _)
                  (Pages.routed CoveredPostVerified (or_intror eq_refl)))).
Defined.

Lemma walk_terminates_witness : walk "acme" "general" None 2 1 None [Scenario.hello] = Some [Scenario.hello].
Proof.
  apply (walk_terminates "acme" "general" None 1 None [Scenario.hello]); [lia|apply NoDup_singleton].
Defined.
