(* ===== verification/GitPerms.v ===== *)
(** * Git push policy ([crates/buzz-core/src/git_perms.rs],
    [MemberRole] of [crates/buzz-core/src/channel.rs])

    Ref patterns, protection tags, the union of the rules that match a ref and
    the decision on a push.  Strings are their UTF-8 bytes, so [len()] is
    [String.length]; the characters the code looks for are ASCII. *)

From stdpp Require Import base gmap strings list sorting.
From Stdlib Require Import ZArith Ascii Lia.
From S2P Require Import Prelude Text Nostr.

Local Open Scope string_scope.
Local Open Scope list_scope.

(** ** Roles *)

Inductive MemberRole : Type := Owner | Admin | Member | Guest | Bot.

#[export] Instance MemberRole_eq_dec : EqDecision MemberRole.
Proof. solve_decision. Defined.

Definition role_as_str (r : MemberRole) : string :=
  match r with
  | Owner => "owner" | Admin => "admin" | Member => "member" | Guest => "guest" | Bot => "bot"
  end.

Definition is_elevated (r : MemberRole) : bool :=
  match r with Owner | Admin => true | _ => false end.

Definition permission_level (r : MemberRole) : Z :=
  match r with Owner => 4 | Admin => 3 | Member => 2 | Guest => 1 | Bot => 0 end.

Definition has_at_least (r required : MemberRole) : bool :=
  (permission_level required <=? permission_level r)%Z.

(** [s.parse::<MemberRole>()]; the caller discards the error text. *)
Definition role_from_str (s : string) : option MemberRole :=
  if bool_decide (s = "owner") then Some Owner
  else if bool_decide (s = "admin") then Some Admin
  else if bool_decide (s = "member") then Some Member
  else if bool_decide (s = "guest") then Some Guest
  else if bool_decide (s = "bot") then Some Bot
  else None.

Definition slash : ascii := "/"%char.

Abbreviation split_slash := (split_on slash).

Definition literal_char (c : ascii) : bool :=
  is_ascii_alphanumeric c || bool_decide (c = "."%char) || bool_decide (c = "_"%char)
  || bool_decide (c = "-"%char).

(** ** Ref patterns *)

Definition MAX_PROTECTION_RULES : nat := 50.
Definition MAX_PATTERN_LENGTH : nat := 256.
Definition MAX_WILDCARDS_PER_PATTERN : nat := 3.

Inductive PatternSegment : Type :=
  | Literal (s : string)
  | Wildcard
  | RecursiveWildcard.

Record RefPattern : Type := MkPattern {
  raw : string;
  segments : list PatternSegment;
}.

Inductive PatternError : Type :=
  | EmptyPattern
  | TooLong
  | MissingRefsPrefix
  | InvalidSegment (s : string)
  | TooManyWildcards.

#[export] Instance PatternSegment_eq_dec : EqDecision PatternSegment.
Proof. solve_decision. Defined.
#[export] Instance RefPattern_eq_dec : EqDecision RefPattern.
Proof. solve_decision. Defined.
#[export] Instance PatternError_eq_dec : EqDecision PatternError.
Proof. solve_decision. Defined.

(** The segment loop: [parts] are the parts not yet read (the one at hand is
    the last when nothing follows it), [wildcard_count] those counted. *)
Fixpoint parse_parts (wildcard_count : nat) (parts : list string)
    : result PatternError (list PatternSegment) :=
  match parts with
  | [] => Ok []
  | part :: rest =>
      if bool_decide (part = "**") then
        if bool_decide (rest ≠ []) then Err (InvalidSegment "** must be the last segment")
        else if (MAX_WILDCARDS_PER_PATTERN <? S wildcard_count)%nat then Err TooManyWildcards
        else segs ← parse_parts (S wildcard_count) rest; Ok (RecursiveWildcard :: segs)
      else if bool_decide (part = "*") then
        if (MAX_WILDCARDS_PER_PATTERN <? S wildcard_count)%nat then Err TooManyWildcards
        else segs ← parse_parts (S wildcard_count) rest; Ok (Wildcard :: segs)
      else if bool_decide (part = "") then Err (InvalidSegment "")
      else if string_contains "*"%char part || string_contains "?"%char part
              || string_contains "["%char part || string_contains "]"%char part then
        Err (InvalidSegment part)
      else if negb (chars_all literal_char part) then Err (InvalidSegment part)
      else segs ← parse_parts wildcard_count rest; Ok (Literal part :: segs)
  end.

Definition pattern_parse (pattern : string) : result PatternError RefPattern :=
  if bool_decide (pattern = "") then Err EmptyPattern
  else if (MAX_PATTERN_LENGTH <? String.length pattern)%nat then Err TooLong
  else if negb (starts_with pattern "refs/") then Err MissingRefsPrefix
  else segs ← parse_parts 0 (split_slash pattern); Ok (MkPattern pattern segs).

(** One pair of the zipped segments; [None] is the [unreachable!()] panic. *)
Definition segment_matches (pat : PatternSegment) (seg : string) : option bool :=
  match pat with
  | Wildcard => Some true
  | Literal lit => Some (bool_decide (lit = seg))
  | RecursiveWildcard => None
  end.

(** [zip(..).all(..)], which stops at the first pair that does not match. *)
Fixpoint zip_all (pats : list PatternSegment) (segs : list string) : option bool :=
  match pats, segs with
  | pat :: pats, seg :: segs =>
      b ← segment_matches pat seg; if b : bool then zip_all pats segs else Some false
  | _, _ => Some true
  end.

Definition try_matches (p : RefPattern) (ref_name : string) : option bool :=
  let ref_segments := split_slash ref_name in
  if bool_decide (last (segments p) = Some RecursiveWildcard) then
    let prefix_len := (length (segments p) - 1)%nat in
    if (length ref_segments <=? prefix_len)%nat then Some false
    else zip_all (take prefix_len (segments p)) (take prefix_len ref_segments)
  else if bool_decide (length ref_segments ≠ length (segments p)) then Some false
  else zip_all (segments p) ref_segments.

(** [matches]; a panic would abort the caller, and cannot happen on a pattern
    that [pattern_parse] returned. *)
Definition matches (p : RefPattern) (ref_name : string) : bool :=
  default false (try_matches p ref_name).

(** ** Ref updates *)

Inductive UpdateKind : Type := Create | FastForward | NonFastForward | Delete.

#[export] Instance UpdateKind_eq_dec : EqDecision UpdateKind.
Proof. solve_decision. Defined.

Definition ZERO_OID : string := "0000000000000000000000000000000000000000".

Definition classify (old_oid new_oid : string) (is_ancestor : bool) : UpdateKind :=
  if bool_decide (old_oid = ZERO_OID) then Create
  else if bool_decide (new_oid = ZERO_OID) then Delete
  else if is_ancestor then FastForward
  else NonFastForward.

Record RefUpdate : Type := MkUpdate {
  ru_ref_name : string;
  ru_kind : UpdateKind;
  ru_old_oid : string;
  ru_new_oid : string;
}.

(** ** Protection rules *)

Record ProtectionRule : Type := MkRule {
  pattern : RefPattern;
  push_role : option MemberRole;
  no_force_push : bool;
  no_delete : bool;
  require_patch : bool;
}.

Inductive RuleParseError : Type :=
  | TooFewValues
  | TooManyRules
  | InvalidPattern (e : PatternError)
  | UnknownRule (s : string)
  | InvalidRole (s : string).

(** [match existing { None => role, Some(e) => stricter of the two }] *)
Definition stricter (existing : option MemberRole) (role : MemberRole) : option MemberRole :=
  match existing with
  | None => Some role
  | Some e => Some (if (permission_level e <? permission_level role)%Z then role else e)
  end.

(** One turn of the rule loop over the accumulated rule and unknown strings. *)
Definition parse_rule (acc : ProtectionRule * list string) (rule_str : string)
    : result RuleParseError (ProtectionRule * list string) :=
  let '(MkRule p role nfp nd rp, unknown) := acc in
  match strip_prefix "push:" rule_str with
  | Some role_str =>
      match role_from_str role_str with
      | None => Err (InvalidRole role_str)
      | Some r =>
          if bool_decide (r = Bot) || bool_decide (r = Guest) then Err (InvalidRole role_str)
          else Ok (MkRule p (stricter role r) nfp nd rp, unknown)
      end
  | None =>
      if bool_decide (rule_str = "no-force-push") then Ok (MkRule p role true nd rp, unknown)
      else if bool_decide (rule_str = "no-delete") then Ok (MkRule p role nfp true rp, unknown)
      else if bool_decide (rule_str = "require-patch") then Ok (MkRule p role nfp nd true, unknown)
      else Ok (MkRule p role nfp nd rp, unknown ++ [rule_str])
  end.

Fixpoint parse_rules (acc : ProtectionRule * list string) (rules : list string)
    : result RuleParseError (ProtectionRule * list string) :=
  match rules with
  | [] => Ok acc
  | r :: rules => acc' ← parse_rule acc r; parse_rules acc' rules
  end.

Definition parse_protection_tag_with_warnings (values : list string)
    : result RuleParseError (ProtectionRule * list string) :=
  match values with
  | value :: rule1 :: rules =>
      match pattern_parse value with
      | Err e => Err (InvalidPattern e)
      | Ok p => parse_rules (MkRule p None false false false, []) (rule1 :: rules)
      end
  | _ => Err TooFewValues
  end.

Definition parse_protection_tag (values : list string) : result RuleParseError ProtectionRule :=
  r ← parse_protection_tag_with_warnings values; Ok r.1.

Record ParsedProtection : Type := MkParsed {
  rules : list ProtectionRule;
  unknown_rules : list string;
}.

Fixpoint parse_tags_loop (acc : ParsedProtection) (tags : list (list string))
    : result RuleParseError ParsedProtection :=
  match tags with
  | [] => Ok acc
  | tag :: tags =>
      if bool_decide (head tag ≠ Some "buzz-protect") then parse_tags_loop acc tags
      else if (MAX_PROTECTION_RULES <=? length (rules acc))%nat then Err TooManyRules
      else
        r ← parse_protection_tag_with_warnings (tail tag);
        parse_tags_loop (MkParsed (rules acc ++ [r.1]) (unknown_rules acc ++ r.2)) tags
  end.

Definition parse_protection_tags (tags : list (list string))
    : result RuleParseError ParsedProtection :=
  parse_tags_loop (MkParsed [] []) tags.

Definition default_min_role (ref_name : string) (kind : UpdateKind) : MemberRole :=
  let is_branch := starts_with ref_name "refs/heads/" in
  let is_tag := starts_with ref_name "refs/tags/" in
  match kind with
  | Create => if is_branch || is_tag then Member else Admin
  | FastForward => if is_branch then Member else if is_tag then Admin else Admin
  | NonFastForward => Admin
  | Delete => Admin
  end.

(** ** Effective rules and the decision *)

Record EffectiveRules : Type := MkEffective {
  e_push_role : option MemberRole;
  e_no_force_push : bool;
  e_no_delete : bool;
  e_require_patch : bool;
  has_explicit_match : bool;
}.

Definition add_rule (ref_name : string) (e : EffectiveRules) (rule : ProtectionRule)
    : EffectiveRules :=
  if negb (matches (pattern rule) ref_name) then e
  else MkEffective
    (match push_role rule with
     | Some role => stricter (e_push_role e) role
     | None => e_push_role e
     end)
    (e_no_force_push e || no_force_push rule)
    (e_no_delete e || no_delete rule)
    (e_require_patch e || require_patch rule)
    true.

Definition for_ref (ref_name : string) (rs : list ProtectionRule) : EffectiveRules :=
  fold_left (add_rule ref_name) rs (MkEffective None false false false false).

Record Denial : Type := MkDenial { d_ref_name : string; reason : string }.

#[export] Instance Denial_eq_dec : EqDecision Denial.
Proof. solve_decision. Defined.

Definition min_role_for (e : EffectiveRules) (default_role : MemberRole) : MemberRole :=
  match e_push_role e with
  | Some explicit =>
      if (permission_level default_role <=? permission_level explicit)%Z then explicit
      else default_role
  | None => default_role
  end.

Definition evaluate_ref_update (update : RefUpdate) (role : MemberRole)
    (rs : list ProtectionRule) : result Denial unit :=
  let effective := for_ref (ru_ref_name update) rs in
  let default_role := default_min_role (ru_ref_name update) (ru_kind update) in
  if negb (has_explicit_match effective) then
    if negb (has_at_least role default_role) then
      Err (MkDenial (ru_ref_name update)
        ("requires " +:+ role_as_str default_role +:+ " role (you have " +:+ role_as_str role
           +:+ "), using built-in defaults"))
    else Ok tt
  else if e_require_patch effective then
    Err (MkDenial (ru_ref_name update)
      "direct push denied: require-patch is set, submit a NIP-34 patch")
  else
    let min_role := min_role_for effective default_role in
    if negb (has_at_least role min_role) then
      Err (MkDenial (ru_ref_name update)
        ("requires " +:+ role_as_str min_role +:+ " role (you have " +:+ role_as_str role +:+ ")"))
    else if e_no_force_push effective && bool_decide (ru_kind update = NonFastForward) then
      Err (MkDenial (ru_ref_name update) "non-fast-forward update denied: no-force-push is set")
    else if e_no_delete effective && bool_decide (ru_kind update = Delete) then
      Err (MkDenial (ru_ref_name update) "ref deletion denied: no-delete is set")
    else Ok tt.

Definition denial_of (role : MemberRole) (rs : list ProtectionRule) (update : RefUpdate)
    : option Denial :=
  match evaluate_ref_update update role rs with Ok _ => None | Err d => Some d end.

Definition evaluate_push (updates : list RefUpdate) (role : MemberRole)
    (rs : list ProtectionRule) : result (list Denial) unit :=
  let denials := omap (denial_of role rs) updates in
  match denials with [] => Ok tt | _ => Err denials end.

Local Open Scope nat_scope.

(** ** Splitting and joining at slashes *)

Abbreviation join_slash := (join_on slash).

(** ** What a parsed pattern looks like *)

Definition seg_text (seg : PatternSegment) : string :=
  match seg with Literal s => s | Wildcard => "*" | RecursiveWildcard => "**" end.

Definition seg_ok (seg : PatternSegment) : Prop :=
  match seg with
  | Literal s => s ≠ "" ∧ chars_all literal_char s = true
  | _ => True
  end.

(** Valid literals, and [**] at the end only. *)
Fixpoint segs_ok (segs : list PatternSegment) : Prop :=
  match segs with
  | [] => True
  | seg :: rest => seg_ok seg ∧ (seg = RecursiveWildcard → rest = []) ∧ segs_ok rest
  end.

Definition wild_count (segs : list PatternSegment) : nat :=
  length (filter (λ seg, seg = Wildcard ∨ seg = RecursiveWildcard) segs).

Definition wf_pattern (p : RefPattern) : Prop :=
  raw p = join_slash (map seg_text (segments p)) ∧
  String.length (raw p) ≤ MAX_PATTERN_LENGTH ∧
  (∃ seg rest, segments p = Literal "refs" :: seg :: rest) ∧
  segs_ok (segments p) ∧
  wild_count (segments p) ≤ MAX_WILDCARDS_PER_PATTERN.

Lemma literal_lacks c s :
  literal_char c = false → chars_all literal_char s = true → string_contains c s = false.
Proof.
  intros Hc. induction s as [|d s IH]; simpl; [done|]. intros [Hd Hs]%andb_true_iff.
  rewrite IH, orb_false_r by done. apply bool_decide_eq_false. intros ->. congruence.
Qed.

Lemma wild_count_cons seg segs :
  wild_count (seg :: segs) =
  match seg with Literal _ => wild_count segs | _ => S (wild_count segs) end.
Proof.
  unfold wild_count. rewrite filter_cons. destruct seg; case_decide as H; simpl; try done;
    naive_solver.
Qed.

Lemma seg_text_no_slash seg : seg_ok seg → string_contains slash (seg_text seg) = false.
Proof. destruct seg as [s| |]; simpl; [|done..]. intros [_ Hs]. by apply literal_lacks. Qed.

Lemma segs_ok_no_slash segs :
  segs_ok segs → Forall (λ p, string_contains slash p = false) (map seg_text segs).
Proof.
  induction segs as [|seg segs IH]; simpl; [constructor|]. intros (Hs & _ & Hok).
  constructor; [by apply seg_text_no_slash|auto].
Qed.

(** How the loop reads one part. *)
Lemma parse_parts_literal wc s rest :
  s ≠ "" → chars_all literal_char s = true →
  parse_parts wc (s :: rest) =
  (segs ← parse_parts wc rest; Ok (Literal s :: segs)).
Proof.
  intros Hs Hl. cbn [parse_parts].
  assert (string_contains "*"%char s = false) as Hstar by by apply literal_lacks.
  rewrite !bool_decide_eq_false_2 by (try done; intros ->; discriminate Hstar).
  rewrite Hstar, Hl. by rewrite !(literal_lacks _ s).
Qed.

Lemma parse_parts_iff wc parts segs :
  wc ≤ MAX_WILDCARDS_PER_PATTERN →
  parse_parts wc parts = Ok segs ↔
  map seg_text segs = parts ∧ segs_ok segs ∧ wc + wild_count segs ≤ MAX_WILDCARDS_PER_PATTERN.
Proof.
  revert wc segs. induction parts as [|part rest IH]; intros wc segs Hwc.
  { simpl. split; [intros [= <-]|intros (?%map_eq_nil & _); by subst].
    split_and!; try done. unfold wild_count. simpl. lia. }
  split.
  - cbn [parse_parts]. repeat case_bool_decide; subst.
    + done.
    + destruct (Nat.ltb_spec MAX_WILDCARDS_PER_PATTERN (S wc)) as [Hlt|Hge]; [done|].
      simpl. intros [= <-]. split_and!; try done. unfold wild_count. simpl. lia.
    + destruct (Nat.ltb_spec MAX_WILDCARDS_PER_PATTERN (S wc)) as [Hlt|Hge]; [done|].
      destruct (parse_parts (S wc) rest) as [segs'|] eqn:E; [|done]. simpl. intros [= <-].
      apply IH in E as (Ht & Hok & Hw); [|lia]. rewrite wild_count_cons. simpl.
      split_and!; try done; [by rewrite Ht|lia].
    + done.
    + case_match; [done|]. destruct (chars_all literal_char part) eqn:Hl; [|done]. simpl.
      destruct (parse_parts wc rest) as [segs'|] eqn:E; [|done]. simpl. intros [= <-].
      apply IH in E as (Ht & Hok & Hw); [|lia]. rewrite wild_count_cons. simpl.
      split_and!; try done. by rewrite Ht.
  - intros (Ht & Hok & Hw). destruct segs as [|seg segs]; [done|].
    rewrite wild_count_cons in Hw. simpl in Ht, Hok. destruct Hok as (Hs & Hlast & Hok).
    injection Ht as Hp Ht. destruct seg as [s| |]; simpl in Hp, Hs; subst part.
    + destruct Hs as [Hs Hl]. rewrite parse_parts_literal by done.
      rewrite (proj2 (IH wc segs Hwc)); done.
    + cbn [parse_parts]. rewrite bool_decide_eq_false_2, bool_decide_eq_true_2 by done.
      rewrite (proj2 (Nat.ltb_ge _ _)) by (unfold MAX_WILDCARDS_PER_PATTERN in *; lia).
      rewrite (proj2 (IH (S wc) segs ltac:(lia))); [done|]. split_and!; try done. lia.
    + cbn [parse_parts]. rewrite bool_decide_eq_true_2 by done.
      rewrite Hlast in Ht by done. rewrite bool_decide_eq_false_2 by (subst; simpl; tauto).
      rewrite (proj2 (Nat.ltb_ge _ _)) by (unfold MAX_WILDCARDS_PER_PATTERN in *; lia).
      rewrite (proj2 (IH (S wc) segs ltac:(lia))); [done|]. rewrite Hlast in * by done.
      split_and!; try done. unfold wild_count in *. simpl in *. lia.
Qed.

Lemma starts_with_refs s :
  starts_with s "refs/" = true ↔ ∃ p ps, split_slash s = "refs" :: p :: ps.
Proof.
  rewrite starts_with_app. split.
  - intros [t ->]. change ("refs/" +:+ t) with ("refs" +:+ String slash t).
    rewrite split_on_app by done. destruct (split_slash t) eqn:E; [by apply split_on_ne in E|]. eauto.
  - intros (p & ps & E). rewrite <-(join_split_on slash s), E. by exists (join_slash (p :: ps)).
Qed.

Lemma pattern_parse_wf s p : pattern_parse s = Ok p ↔ raw p = s ∧ wf_pattern p.
Proof.
  unfold pattern_parse, wf_pattern. split.
  - case_bool_decide; [done|]. destruct (Nat.ltb_spec MAX_PATTERN_LENGTH (String.length s)); [done|].
    destruct (starts_with s "refs/") eqn:Hs; [|done]. simpl.
    destruct (parse_parts 0 (split_slash s)) as [segs|] eqn:E; [|done]. simpl. intros [= <-]. simpl.
    apply parse_parts_iff in E as (Ht & Hok & Hw); [|unfold MAX_WILDCARDS_PER_PATTERN; lia].
    split_and!; try done.
    + by rewrite Ht, join_split_on.
    + apply starts_with_refs in Hs as (q & qs & Hq). rewrite Hq in Ht.
      destruct segs as [|[l| |] [|seg rest]]; simplify_eq/=. eauto.
  - intros [<- (Hraw & Hlen & (seg & rest & Hseg) & Hok & Hw)].
    assert (split_slash (raw p) = map seg_text (segments p)) as Hsplit.
    { rewrite Hraw. apply split_on_join; [by rewrite Hseg|by apply segs_ok_no_slash]. }
    assert (starts_with (raw p) "refs/" = true) as Hs.
    { apply starts_with_refs. rewrite Hsplit, Hseg. simpl. eauto. }
    rewrite bool_decide_eq_false_2 by (intros H; rewrite H in Hs; done).
    rewrite (proj2 (Nat.ltb_ge _ _) Hlen), Hs. simpl.
    rewrite (proj2 (parse_parts_iff 0 _ (segments p) ltac:(unfold MAX_WILDCARDS_PER_PATTERN; lia))).
    + by destruct p.
    + by rewrite Hsplit.
Qed.

(** ** Matching *)

(** The declarative meaning of a pattern on the segments of a ref. *)
Inductive ref_match : list PatternSegment → list string → Prop :=
  | match_nil : ref_match [] []
  | match_literal l pats segs : ref_match pats segs → ref_match (Literal l :: pats) (l :: segs)
  | match_wildcard s pats segs : ref_match pats segs → ref_match (Wildcard :: pats) (s :: segs)
  | match_recursive s segs : ref_match [RecursiveWildcard] (s :: segs).

Definition plain (pats : list PatternSegment) : Prop := Forall (λ p, p ≠ RecursiveWildcard) pats.

Lemma segs_ok_plain_prefix pats pat : segs_ok (pats ++ [pat]) → plain pats.
Proof.
  induction pats as [|p pats IH]; simpl; [constructor|]. intros (_ & Hlast & Hok).
  constructor; [|by apply IH]. intros Hp. apply Hlast in Hp. by apply app_eq_nil in Hp as [_ ?].
Qed.

Lemma segs_ok_plain pats :
  segs_ok pats → last pats ≠ Some RecursiveWildcard → plain pats.
Proof.
  intros Hok Hl. destruct pats as [|p pats] using rev_ind; [constructor|]. clear IHpats.
  rewrite last_snoc in Hl. apply Forall_app. split; [by eapply segs_ok_plain_prefix|].
  constructor; [|constructor]. congruence.
Qed.

Lemma zip_all_plain pats segs :
  plain pats → length segs = length pats →
  ∃ b : bool, zip_all pats segs = Some b ∧ (b = true ↔ ref_match pats segs).
Proof.
  intros Hp. revert segs. induction Hp as [|pat pats Hpat Hp IH]; intros [|seg segs] Hlen; simplify_eq/=.
  - exists true. split; [done|]. split; [constructor|done].
  - destruct (IH segs Hlen) as (b & Hb & Hiff).
    destruct pat as [l| |]; simpl; [case_bool_decide; subst| |done].
    + exists b. split; [done|]. rewrite Hiff. split; [by constructor|by inversion 1].
    + exists false. split; [done|]. split; [done|]. inversion 1; congruence.
    + exists b. split; [done|]. rewrite Hiff. split; [by constructor|by inversion 1].
Qed.

Lemma ref_match_length pats segs : plain pats → ref_match pats segs → length segs = length pats.
Proof.
  induction 2 as [| | |]; simpl; try done; inversion H; subst; try (f_equal; auto). done.
Qed.

Lemma ref_match_recursive pats segs :
  plain pats →
  ref_match (pats ++ [RecursiveWildcard]) segs ↔
  length pats < length segs ∧ ref_match pats (take (length pats) segs).
Proof.
  intros Hp. revert segs. induction Hp as [|pat pats Hpat Hp IH]; intros segs; simpl.
  - destruct segs as [|s segs]; simpl.
    + split; [by inversion 1|lia].
    + split; [intros _; split; [lia|constructor]|intros _; constructor].
  - destruct segs as [|s segs]; simpl; [split; [by inversion 1|lia]|].
    split.
    + inversion 1; subst; try done;
        (rewrite IH in *; deconj; split; [lia|by constructor]).
    + intros [Hlen Hm]. assert (length pats < length segs) by lia.
      inversion Hm; subst; [constructor; by apply IH..|done].
Qed.

Lemma try_matches_spec p ref_name :
  segs_ok (segments p) →
  ∃ b, try_matches p ref_name = Some b ∧
       (b = true ↔ ref_match (segments p) (split_slash ref_name)).
Proof.
  intros Hok. unfold try_matches. set (rs := split_slash ref_name).
  case_bool_decide as Hl.
  - apply last_Some in Hl as [pats Hpats].
    rewrite Hpats in *. assert (plain pats) as Hp by by eapply segs_ok_plain_prefix.
    rewrite length_app. simpl. replace (length pats + 1 - 1) with (length pats) by lia.
    rewrite take_app_length. destruct (Nat.leb_spec (length rs) (length pats)) as [Hle|Hgt].
    + exists false. split; [done|]. rewrite ref_match_recursive by done. split; [done|lia].
    + destruct (zip_all_plain pats (take (length pats) rs)) as (b & Hb & Hiff); [done| |].
      * rewrite length_take. lia.
      * exists b. split; [done|]. rewrite Hiff, ref_match_recursive by done. tauto.
  - assert (plain (segments p)) as Hp by by apply segs_ok_plain.
    case_bool_decide as Hlen.
    + exists false. split; [done|]. split; [done|]. intros H. by apply ref_match_length in H.
    + by apply zip_all_plain.
Qed.

(** ** The union of the matching rules *)

Definition matching (ref_name : string) (rs : list ProtectionRule) : list ProtectionRule :=
  filter (λ r, matches (pattern r) ref_name = true) rs.

Definition role_le (a b : MemberRole) : Prop := (permission_level a ≤ permission_level b)%Z.

Lemma permission_level_inj a b : permission_level a = permission_level b → a = b.
Proof. by destruct a, b. Qed.

Lemma has_at_least_le r r' : has_at_least r r' = true ↔ role_le r' r.
Proof. unfold has_at_least, role_le. apply Z.leb_le. Qed.

(** [acc] is the strictest of the roles of [rs], or [None] when none has one. *)
Definition strictest (acc : option MemberRole) (rs : list ProtectionRule) : Prop :=
  match acc with
  | None => ∀ r, r ∈ rs → push_role r = None
  | Some m => (∃ r, r ∈ rs ∧ push_role r = Some m) ∧
              ∀ r m', r ∈ rs → push_role r = Some m' → role_le m' m
  end.

Lemma strictest_step acc rs r m :
  strictest acc rs → push_role r = Some m → strictest (stricter acc m) (rs ++ [r]).
Proof.
  intros Hs Hr. unfold stricter. destruct acc as [e|]; simpl in *.
  - destruct Hs as [(r0 & Hin & Hr0) Hle].
    destruct (Z.ltb_spec (permission_level e) (permission_level m)) as [Hlt|Hge]; split.
    + exists r. split; [set_solver|done].
    + intros r1 m' [Hin1| ->%list_elem_of_singleton]%elem_of_app Hm'; unfold role_le.
      * specialize (Hle _ _ Hin1 Hm'). unfold role_le in Hle. lia.
      * simplify_eq. lia.
    + exists r0. split; [set_solver|done].
    + intros r1 m' [Hin1| ->%list_elem_of_singleton]%elem_of_app Hm'; [eauto|].
      simplify_eq. done.
  - split; [exists r; split; [set_solver|done]|].
    intros r1 m' [Hin1| ->%list_elem_of_singleton]%elem_of_app Hm'.
    + apply Hs in Hin1. congruence.
    + simplify_eq. unfold role_le. lia.
Qed.

Lemma strictest_none acc rs r : strictest acc rs → push_role r = None → strictest acc (rs ++ [r]).
Proof.
  intros Hs Hr. destruct acc as [e|]; simpl in *.
  - destruct Hs as [(r0 & Hin & Hr0) Hle]. split; [exists r0; split; [set_solver|done]|].
    intros r1 m' [Hin1| ->%list_elem_of_singleton]%elem_of_app Hm'; [eauto|congruence].
  - intros r1 [Hin1| ->%list_elem_of_singleton]%elem_of_app; auto.
Qed.

Lemma strictest_unique a b rs : strictest a rs → strictest b rs → a = b.
Proof.
  destruct a as [a|], b as [b|]; simpl; try done.
  - intros [(r & Hr & Ha) Hla] [(r' & Hr' & Hb) Hlb]. f_equal. apply permission_level_inj.
    specialize (Hla _ _ Hr' Hb). specialize (Hlb _ _ Hr Ha). unfold role_le in *. lia.
  - intros [(r & Hr & Ha) _] H. by rewrite (H r Hr) in Ha.
  - intros H [(r & Hr & Hb) _]. by rewrite (H r Hr) in Hb.
Qed.

Definition effective_of (e : EffectiveRules) (ms : list ProtectionRule) : Prop :=
  strictest (e_push_role e) ms ∧
  e_no_force_push e = existsb no_force_push ms ∧
  e_no_delete e = existsb no_delete ms ∧
  e_require_patch e = existsb require_patch ms ∧
  has_explicit_match e = negb (bool_decide (ms = [])).

Lemma add_rule_effective ref_name e ms r :
  effective_of e ms → effective_of (add_rule ref_name e r) (ms ++ matching ref_name [r]).
Proof.
  intros (Hs & Hf & Hd & Hp & He). unfold matching, add_rule. rewrite filter_cons, filter_nil.
  destruct (matches (pattern r) ref_name) eqn:Em; simpl.
  - unfold effective_of. simpl. rewrite !existsb_app, Hf, Hd, Hp. simpl. rewrite !orb_false_r.
    split_and!; try done.
    + destruct (push_role r) as [m|] eqn:Er; [by apply strictest_step|by apply strictest_none].
    + rewrite bool_decide_eq_false_2; [done|]. by intros [_ ?]%app_eq_nil.
  - by rewrite app_nil_r.
Qed.

Lemma for_ref_effective ref_name rs : effective_of (for_ref ref_name rs) (matching ref_name rs).
Proof.
  unfold for_ref.
  assert (∀ e ms, effective_of e ms →
    effective_of (fold_left (add_rule ref_name) rs e) (ms ++ matching ref_name rs)) as H.
  { induction rs as [|r rs IH]; intros e ms He; simpl.
    - unfold matching. by rewrite filter_nil, app_nil_r.
    - unfold matching. change (r :: rs) with ([r] ++ rs). rewrite filter_app, app_assoc.
      by apply IH, add_rule_effective. }
  apply (H _ []). split_and!; try done. by intros r []%not_elem_of_nil.
Qed.

Lemma effective_unique e e' ms ms' :
  effective_of e ms → effective_of e' ms' → ms ≡ₚ ms' → e = e'.
Proof.
  intros (Hs & Hf & Hd & Hp & He) (Hs' & Hf' & Hd' & Hp' & He') Hperm.
  assert (strictest (e_push_role e) ms') as Hs2.
  { destruct (e_push_role e); simpl in *; [|by setoid_rewrite <-Hperm].
    by setoid_rewrite <-Hperm. }
  pose proof (strictest_unique _ _ _ Hs2 Hs') as Hrole.
  assert (∀ f : ProtectionRule → bool, existsb f ms = existsb f ms') as Hex.
  { intros f. clear -Hperm. induction Hperm; simpl; try congruence.
    by rewrite !orb_assoc, (orb_comm (f _)). }
  assert (bool_decide (ms = []) = bool_decide (ms' = [])) as Hnil.
  { apply bool_decide_ext. split; intros ->; [by apply Permutation_nil in Hperm|].
    symmetry in Hperm. by apply Permutation_nil in Hperm. }
  destruct e, e'; simpl in *. congruence.
Qed.

(** ** Parsing rules *)

(** What one rule string says, and the rules it may name as pusher. *)
Definition names (s : string) (rs : list string) : bool := bool_decide (s ∈ rs).

Definition push_role_ok (r : option MemberRole) : Prop :=
  match r with None => True | Some m => role_le Member m end.

Definition at_least (r : option MemberRole) (m : MemberRole) : Prop :=
  ∃ m', r = Some m' ∧ role_le m m'.

Lemma stricter_at_least r m : at_least (stricter r m) m.
Proof.
  unfold stricter, at_least, role_le. destruct r as [e|]; [|eauto with lia].
  destruct (Z.ltb_spec (permission_level e) (permission_level m)); eauto with lia.
Qed.

Lemma stricter_keeps r m m' : at_least r m' → at_least (stricter r m) m'.
Proof.
  unfold stricter, at_least, role_le. intros (e & -> & He).
  destruct (Z.ltb_spec (permission_level e) (permission_level m)); eexists; split; try done; lia.
Qed.

Lemma parse_rule_spec rule unk s rule' unk' :
  parse_rule (rule, unk) s = Ok (rule', unk') →
  pattern rule' = pattern rule ∧
  no_force_push rule' = no_force_push rule || bool_decide (s = "no-force-push") ∧
  no_delete rule' = no_delete rule || bool_decide (s = "no-delete") ∧
  require_patch rule' = require_patch rule || bool_decide (s = "require-patch") ∧
  (∀ m, at_least (push_role rule) m → at_least (push_role rule') m) ∧
  (∀ t r, s = "push:" +:+ t → role_from_str t = Some r → at_least (push_role rule') r) ∧
  (push_role_ok (push_role rule) → push_role_ok (push_role rule')).
Proof.
  destruct rule as [p role nfp nd rp]. unfold parse_rule.
  destruct (strip_prefix "push:" s) as [t|] eqn:Es.
  - apply strip_prefix_Some in Es as ->. destruct (role_from_str t) as [r|] eqn:Er; [|done].
    destruct (bool_decide (r = Bot) || _) eqn:Eb; [done|]. intros [= <- <-]. cbn [pattern
      push_role no_force_push no_delete require_patch]. apply orb_false_iff in Eb as [Eb1 Eb2].
    bool_to_prop.
    rewrite !bool_decide_eq_false_2, !orb_false_r by done. split_and!; try done.
    + intros m. apply stricter_keeps.
    + intros t' r' Ht Hr'. simplify_eq/=. apply stricter_at_least.
    + intros Hrole. unfold stricter, push_role_ok, role_le in *.
      destruct role as [e|]; [case_match; [|done]|]; by destruct r.
  - assert (∀ t, s ≠ "push:" +:+ t) as Hno by (intros t Ht; apply strip_prefix_Some in Ht; congruence).
    repeat case_bool_decide; intros [= <- <-]; subst; cbn; rewrite ?orb_true_r, ?orb_false_r;
      split_and!; try done; intros t r Ht; by apply Hno in Ht.
Qed.

Lemma parse_rules_spec rs rule unk rule' unk' :
  parse_rules (rule, unk) rs = Ok (rule', unk') →
  pattern rule' = pattern rule ∧
  no_force_push rule' = no_force_push rule || names "no-force-push" rs ∧
  no_delete rule' = no_delete rule || names "no-delete" rs ∧
  require_patch rule' = require_patch rule || names "require-patch" rs ∧
  (∀ m, at_least (push_role rule) m → at_least (push_role rule') m) ∧
  (∀ t r, "push:" +:+ t ∈ rs → role_from_str t = Some r → at_least (push_role rule') r) ∧
  (push_role_ok (push_role rule) → push_role_ok (push_role rule')).
Proof.
  assert (∀ x s rs, bool_decide (s = x) || names x rs = names x (s :: rs)) as Hnames.
  { intros x s rs0. unfold names. destruct (decide (s = x)) as [->|Hne].
    - rewrite (bool_decide_eq_true_2 (x = x)), (bool_decide_eq_true_2 (x ∈ x :: rs0)); set_solver.
    - rewrite bool_decide_eq_false_2 by done. simpl. apply bool_decide_ext. set_solver. }
  revert rule unk. induction rs as [|s rs IH]; intros rule unk; cbn [parse_rules].
  - intros [= <- <-]. unfold names. rewrite !bool_decide_eq_false_2 by set_solver.
    rewrite !orb_false_r. split_and!; try done. set_solver.
  - destruct (parse_rule (rule, unk) s) as [[r1 u1]|] eqn:E; [|done]. simpl. intros H.
    apply parse_rule_spec in E as (P1 & F1 & D1 & R1 & K1 & T1 & O1).
    apply IH in H as (P2 & F2 & D2 & R2 & K2 & T2 & O2).
    rewrite P2, F2, D2, R2, P1, F1, D1, R1, <-!orb_assoc, !Hnames. split_and!; try done; auto.
    intros t r [Ht|Ht]%elem_of_cons Hr; [|by eapply T2]. by eapply K2, T1.
Qed.

(** A parsed tag: its pattern, and its rule strings as a rule. *)
Lemma parse_tag_spec values rule unk :
  parse_protection_tag_with_warnings values = Ok (rule, unk) →
  ∃ value rs, values = value :: rs ∧ rs ≠ [] ∧ pattern_parse value = Ok (pattern rule) ∧
    no_force_push rule = names "no-force-push" rs ∧ no_delete rule = names "no-delete" rs ∧
    require_patch rule = names "require-patch" rs ∧
    (∀ t r, "push:" +:+ t ∈ rs → role_from_str t = Some r → at_least (push_role rule) r) ∧
    push_role_ok (push_role rule).
Proof.
  unfold parse_protection_tag_with_warnings. destruct values as [|value [|r1 rs]]; [done..|].
  destruct (pattern_parse value) as [p|] eqn:Ep; [|done]. intros H.
  apply parse_rules_spec in H as (P & F & D & R & _ & T & O). cbn in P, F, D, R, O.
  exists value, (r1 :: rs). split_and!; try done; [congruence|by apply O].
Qed.

Lemma parse_tags_loop_spec tags acc pp :
  parse_tags_loop acc tags = Ok pp →
  length (rules acc) ≤ MAX_PROTECTION_RULES →
  length (rules pp) ≤ MAX_PROTECTION_RULES ∧
  (∀ r, r ∈ rules acc → r ∈ rules pp) ∧
  (∀ vs, "buzz-protect" :: vs ∈ tags → ∃ r unk, r ∈ rules pp ∧
     parse_protection_tag_with_warnings vs = Ok (r, unk)) ∧
  (∀ r, r ∈ rules pp → r ∈ rules acc ∨ ∃ vs unk, "buzz-protect" :: vs ∈ tags ∧
     parse_protection_tag_with_warnings vs = Ok (r, unk)).
Proof.
  revert acc. induction tags as [|tag tags IH]; intros acc; cbn [parse_tags_loop].
  { intros [= <-] Hlen. split_and!; try done; [set_solver|auto]. }
  case_bool_decide as Hhead.
  - intros H Hlen. destruct (IH acc H Hlen) as (Hl & Hacc & Hin & Hout). split_and!; try done.
    + intros vs [Heq|Hvs]%elem_of_cons; [by subst|auto].
    + intros r Hr. destruct (Hout r Hr) as [?|(vs & unk & ? & ?)]; [by left|right].
      exists vs, unk. split; [by right|done].
  - destruct tag as [|h vs]; [done|]. simpl in Hhead. injection Hhead as ->.
    destruct (Nat.leb_spec MAX_PROTECTION_RULES (length (rules acc))) as [|Hlt]; [done|].
    destruct (parse_protection_tag_with_warnings (tail _)) as [[r1 u1]|] eqn:E; [|done]. simpl in *.
    intros H _. apply IH in H as (Hl & Hacc & Hin & Hout); [|simpl; rewrite length_app; simpl; lia].
    simpl in *. split_and!; try done.
    + intros r Hr. apply Hacc. set_solver.
    + intros vs' [Heq|Hvs]%elem_of_cons; [|auto]. simplify_eq. exists r1, u1.
      split; [apply Hacc; set_solver|done].
    + intros r Hr. destruct (Hout r Hr) as [[?| ->%list_elem_of_singleton]%elem_of_app|(vs' & unk & ? & ?)].
      * by left.
      * right. exists vs, u1. split; [left|done].
      * right. exists vs', unk. split; [by right|done].
Qed.

(** ** The decision *)

(** One matching rule lets the update through. *)
Definition rule_permits (u : RefUpdate) (role : MemberRole) (r : ProtectionRule) : Prop :=
  require_patch r = false ∧
  (∀ m, push_role r = Some m → role_le m role) ∧
  (no_force_push r = true → ru_kind u ≠ NonFastForward) ∧
  (no_delete r = true → ru_kind u ≠ Delete).

Definition update_permitted (u : RefUpdate) (role : MemberRole) (rs : list ProtectionRule) : Prop :=
  role_le (default_min_role (ru_ref_name u) (ru_kind u)) role ∧
  ∀ r, r ∈ rs → matches (pattern r) (ru_ref_name u) = true → rule_permits u role r.

Lemma elem_of_matching name rs r :
  r ∈ matching name rs ↔ r ∈ rs ∧ matches (pattern r) name = true.
Proof. unfold matching. rewrite list_elem_of_filter. tauto. Qed.

Lemma existsb_false_elem (f : ProtectionRule → bool) ms :
  existsb f ms = false ↔ ∀ r, r ∈ ms → f r = false.
Proof.
  induction ms as [|r ms IH]; simpl; [split; [set_solver|done]|].
  rewrite orb_false_iff, IH. setoid_rewrite elem_of_cons. naive_solver.
Qed.

Lemma min_role_spec e d role ms :
  strictest (e_push_role e) ms →
  has_at_least role (min_role_for e d) = true ↔
  role_le d role ∧ ∀ r m, r ∈ ms → push_role r = Some m → role_le m role.
Proof.
  intros Hs. unfold min_role_for. rewrite has_at_least_le. unfold strictest, role_le in *.
  destruct (e_push_role e) as [x|].
  - destruct Hs as [(r0 & Hr0 & Hx) Hle].
    destruct (Z.leb_spec (permission_level d) (permission_level x)) as [Hd|Hd]; split.
    + intros H. split; [lia|]. intros r m Hr Hm. specialize (Hle r m Hr Hm). lia.
    + intros [_ H]. eauto.
    + intros H. split; [done|]. intros r m Hr Hm. specialize (Hle r m Hr Hm). lia.
    + tauto.
  - split; [|tauto]. intros H. split; [done|]. intros r m Hr Hm. rewrite (Hs r Hr) in Hm. done.
Qed.

(** A flag that some matching rule sets denies exactly its kind of update. *)
Lemma flag_denies (f : ProtectionRule → bool) ms b (kind k : UpdateKind) :
  b = existsb f ms →
  (b && bool_decide (kind = k) = true → ∃ r, r ∈ ms ∧ f r = true ∧ kind = k) ∧
  (b && bool_decide (kind = k) = false → ∀ r, r ∈ ms → f r = true → kind ≠ k).
Proof.
  intros ->. split.
  - intros [(r & Hr & Hf)%existsb_exists Hk%bool_decide_eq_true]%andb_true_iff.
    exists r. by rewrite list_elem_of_In.
  - intros Hb r Hr Hf ->. rewrite bool_decide_eq_true_2, andb_true_r in Hb by done.
    rewrite existsb_false_elem in Hb. rewrite Hb in Hf; done.
Qed.

Lemma evaluate_ref_update_ok u role rs :
  evaluate_ref_update u role rs = Ok tt ↔ update_permitted u role rs.
Proof.
  unfold evaluate_ref_update, update_permitted, rule_permits.
  destruct (for_ref_effective (ru_ref_name u) rs) as (Hs & Hf & Hd & Hp & He).
  set (e := for_ref (ru_ref_name u) rs) in *. set (ms := matching (ru_ref_name u) rs) in *.
  assert (∀ r, r ∈ ms ↔ r ∈ rs ∧ matches (pattern r) (ru_ref_name u) = true) as Hms
    by (intros r; apply elem_of_matching).
  set (d := default_min_role _ _). pose proof (min_role_spec e d role ms Hs) as Hrole.
  clearbody e ms d. rewrite He. destruct (decide (ms = [])) as [->|Hne].
  { rewrite bool_decide_eq_true_2 by done. cbn [negb].
    destruct (has_at_least role d) eqn:Hd0; cbn [negb].
    - apply has_at_least_le in Hd0. split; [intros _; split; [done|]|done].
      intros r Hr Hm. exfalso. eapply not_elem_of_nil, Hms. eauto.
    - split; [done|]. intros [Hle%has_at_least_le _]. congruence. }
  rewrite bool_decide_eq_false_2 by done. cbn [negb].
  destruct (e_require_patch e).
  { split; [done|]. intros [_ H]. symmetry in Hp. apply existsb_exists in Hp as (r & Hr & Hrp).
    apply list_elem_of_In, Hms in Hr as [Hr Hm]. destruct (H r Hr Hm) as [? _]. congruence. }
  symmetry in Hp. rewrite existsb_false_elem in Hp.
  destruct (has_at_least role (min_role_for e d)); cbn [negb]; last first.
  { split; [done|]. intros [Hle H]. exfalso. apply diff_false_true, Hrole. split; [done|].
    intros r m Hr Hm. apply Hms in Hr as [Hr Hmt]. destruct (H r Hr Hmt) as (_ & Hx & _). auto. }
  destruct Hrole as [[Hle Hroles] _]; [done|].
  destruct (flag_denies _ _ _ (ru_kind u) NonFastForward Hf) as [Hf1 Hf2].
  destruct (flag_denies _ _ _ (ru_kind u) Delete Hd) as [Hd1 Hd2].
  destruct (e_no_force_push e && _) eqn:Ef.
  { split; [done|]. intros [_ H]. destruct (Hf1 eq_refl) as (r & Hr & Hx & Hk).
    apply Hms in Hr as [Hr Hm]. destruct (H r Hr Hm) as (_ & _ & Hnf & _). by apply Hnf in Hx. }
  destruct (e_no_delete e && _) eqn:Ed.
  { split; [done|]. intros [_ H]. destruct (Hd1 eq_refl) as (r & Hr & Hx & Hk).
    apply Hms in Hr as [Hr Hm]. destruct (H r Hr Hm) as (_ & _ & _ & Hnd). by apply Hnd in Hx. }
  split; [|done]. intros _. split; [done|]. intros r Hr Hm.
  assert (r ∈ ms) as Hin by by apply Hms. split_and!; eauto.
Qed.

Lemma evaluate_denial_name u role rs d :
  evaluate_ref_update u role rs = Err d → d_ref_name d = ru_ref_name u.
Proof. unfold evaluate_ref_update. repeat case_match; by intros [= <-]. Qed.

Lemma evaluate_result_cases u role rs :
  evaluate_ref_update u role rs = Ok tt ∨ ∃ d, evaluate_ref_update u role rs = Err d.
Proof. destruct (evaluate_ref_update u role rs) as [[]|]; eauto. Qed.

Lemma update_permitted_mono u role rs rs' :
  rs ⊆ rs' → update_permitted u role rs' → update_permitted u role rs.
Proof. intros Hsub [Hd H]. split; [done|]. intros r Hr. apply H. by apply Hsub. Qed.

Lemma evaluate_push_permitted us role rs :
  evaluate_push us role rs = Ok tt ↔ ∀ u, u ∈ us → update_permitted u role rs.
Proof.
  setoid_rewrite <-evaluate_ref_update_ok. unfold evaluate_push.
  induction us as [|u us IH]; [split; [set_solver|done]|].
  setoid_rewrite elem_of_cons.
  destruct (evaluate_ref_update u role rs) as [[]|d] eqn:E.
  - assert (denial_of role rs u = None) as Hd by (unfold denial_of; by rewrite E).
    cbn. rewrite Hd. etransitivity; [exact IH|]. naive_solver.
  - assert (denial_of role rs u = Some d) as Hd by (unfold denial_of; by rewrite E).
    cbn. rewrite Hd. split; [done|]. intros H. specialize (H u (or_introl eq_refl)). congruence.
Qed.

(** ** Properties *)

(** A push is decided by the declarative policy: one ref update is allowed
    exactly when the pusher's role reaches the built-in default for that ref
    and kind of update and every rule whose pattern matches the ref permits it
    (no required patch, role at least its push role, no forbidden force push or
    deletion).  So adding rules never allows more, and rules can only
    strengthen the defaults. *)
Theorem evaluate_ref_update_iff (u : RefUpdate) (role : MemberRole) (rs : list ProtectionRule) :
  (evaluate_ref_update u role rs = Ok tt ↔ update_permitted u role rs) ∧
  (∀ rs', rs ⊆ rs' →
     evaluate_ref_update u role rs' = Ok tt → evaluate_ref_update u role rs = Ok tt) ∧
  (∀ d, evaluate_ref_update u role rs = Err d → d_ref_name d = ru_ref_name u).
Proof.
  split_and!; [apply evaluate_ref_update_ok| |apply evaluate_denial_name].
  intros rs' Hsub. rewrite !evaluate_ref_update_ok. by apply update_permitted_mono.
Qed.

(** A push is atomic: it is accepted exactly when every one of its updates
    is permitted, and otherwise the answer names, in order, exactly the refs
    whose update is not. *)
Theorem evaluate_push_atomic (us : list RefUpdate) (role : MemberRole)
    (rs : list ProtectionRule) :
  (evaluate_push us role rs = Ok tt ↔ ∀ u, u ∈ us → update_permitted u role rs) ∧
  (∀ ds, evaluate_push us role rs = Err ds →
     ds ≠ [] ∧
     map d_ref_name ds =
       map ru_ref_name (filter (λ u, evaluate_ref_update u role rs ≠ Ok tt) us)).
Proof.
  split; [apply evaluate_push_permitted|].
  assert (map d_ref_name (omap (denial_of role rs) us) =
    map ru_ref_name (filter (λ u, evaluate_ref_update u role rs ≠ Ok tt) us)) as Hnames.
  { induction us as [|u us IH]; [done|]. rewrite filter_cons. cbn.
    unfold denial_of at 1. destruct (evaluate_ref_update u role rs) as [[]|d] eqn:E.
    - by rewrite decide_False by tauto.
    - rewrite decide_True by done. cbn. f_equal; [by eapply evaluate_denial_name|done]. }
  unfold evaluate_push. destruct (omap (denial_of role rs) us) as [|d ds']; [done|].
  by intros ds [= <-].
Qed.

(** The effective rules of a ref are the union of the rules that match it:
    the strictest of their push roles and the disjunction of each flag; their
    order does not matter. *)
Theorem for_ref_union (ref_name : string) (rs : list ProtectionRule) :
  effective_of (for_ref ref_name rs) (matching ref_name rs) ∧
  ∀ rs', rs ≡ₚ rs' → for_ref ref_name rs = for_ref ref_name rs'.
Proof.
  split; [apply for_ref_effective|]. intros rs' Hperm.
  eapply effective_unique; [apply for_ref_effective..|]. unfold matching. by rewrite Hperm.
Qed.

(** Parsing a ref pattern accepts exactly the well-formed patterns and
    loses nothing: the result prints back to the input, starts with the literal
    [refs] and at least one more segment, has valid literals, at most three
    wildcards and at most 256 bytes, and [**] only at its end; conversely every
    such pattern is the parse of its own text. *)
Theorem pattern_parse_roundtrip (s : string) (p : RefPattern) :
  pattern_parse s = Ok p ↔
  raw p = s ∧ s = join_slash (map seg_text (segments p)) ∧
  String.length s ≤ 256 ∧ (∃ seg rest, segments p = Literal "refs" :: seg :: rest) ∧
  segs_ok (segments p) ∧ wild_count (segments p) ≤ 3.
Proof. rewrite pattern_parse_wf. unfold wf_pattern. split; intros [<- ?]; done. Qed.

(** On a pattern that parsed, matching never reaches its [unreachable!()]
    and decides the declarative relation: [*] stands for one segment, a final
    [**] for one or more, a literal for itself. *)
Theorem matches_decides (s ref_name : string) (p : RefPattern) (Hp : pattern_parse s = Ok p) :
  is_Some (try_matches p ref_name) ∧
  (matches p ref_name = true ↔ ref_match (segments p) (split_slash ref_name)).
Proof.
  apply pattern_parse_wf in Hp as [_ (_ & _ & _ & Hok & _)].
  destruct (try_matches_spec p ref_name Hok) as (b & Hb & Hiff). split; [by eexists|].
  unfold matches. by rewrite Hb.
Qed.

Definition w_pattern : RefPattern :=
  MkPattern "refs/heads/**" [Literal "refs"; Literal "heads"; RecursiveWildcard].

Lemma matches_decides_witness :
  is_Some (try_matches w_pattern "refs/heads/a/b") ∧
  (matches w_pattern "refs/heads/a/b" = true ↔
   ref_match (segments w_pattern) (split_slash "refs/heads/a/b")).
Proof.
  apply (matches_decides "refs/heads/**" "refs/heads/a/b" w_pattern). vm_compute. reflexivity.
Defined.

(** C20. From the repository announcement to the decision: when the tags parse
    and a push is accepted, every [buzz-protect] tag was honoured - for every
    pushed ref its pattern stands for, no deletion under [no-delete], no
    non-fast-forward under [no-force-push], no direct push under
    [require-patch], and never a role below the one a [push:] rule names. *)
Theorem protection_enforced (tags : list (list string)) (pp : ParsedProtection)
    (us : list RefUpdate) (role : MemberRole) (pat : string) (strs : list string) (u : RefUpdate)
    (Htags : parse_protection_tags tags = Ok pp)
    (Hpush : evaluate_push us role (rules pp) = Ok tt)
    (Htag : "buzz-protect" :: pat :: strs ∈ tags)
    (Hu : u ∈ us) :
  ∃ p, pattern_parse pat = Ok p ∧
  (ref_match (segments p) (split_slash (ru_ref_name u)) →
     ("no-delete" ∈ strs → ru_kind u ≠ Delete) ∧
     ("no-force-push" ∈ strs → ru_kind u ≠ NonFastForward) ∧
     "require-patch" ∉ strs ∧
     ∀ t r, "push:" +:+ t ∈ strs → role_from_str t = Some r → role_le r role).
Proof.
  apply parse_tags_loop_spec in Htags as (_ & _ & Hin & _); [|simpl; lia].
  destruct (Hin _ Htag) as (r & unk & Hr & Hparse).
  apply parse_tag_spec in Hparse as (v & rs & Hv & _ & Hp & Hf & Hd & Hrp & Ht & _).
  simplify_eq. exists (pattern r). split; [done|]. intros Hm.
  apply pattern_parse_wf in Hp as [_ (_ & _ & _ & Hok & _)].
  destruct (try_matches_spec (pattern r) (ru_ref_name u) Hok) as (b & Hb & Hiff).
  pose proof (proj1 (evaluate_push_permitted _ _ _) Hpush) as Hall. destruct (Hall u Hu) as [_ Hperm].
  destruct (Hperm r Hr) as (H1 & H2 & H3 & H4).
  { unfold matches. rewrite Hb. by apply Hiff. }
  split_and!.
  - intros Hs. apply H4. rewrite Hd. by apply bool_decide_eq_true.
  - intros Hs. apply H3. rewrite Hf. by apply bool_decide_eq_true.
  - intros Hs. rewrite H1 in Hrp. symmetry in Hrp. by apply bool_decide_eq_false in Hrp.
  - intros t m Hs Hm'. destruct (Ht t m Hs Hm') as (m' & Hpr & Hle). unfold role_le in *.
    specialize (H2 _ Hpr). lia.
Qed.

(** Accepted protection tags: at most 50 rules, each the parse of one
    [buzz-protect] tag with a pattern and at least one rule string, and never a
    push role that only bots or guests would reach. *)
Theorem parsed_protection_ok (tags : list (list string)) (pp : ParsedProtection)
    (Htags : parse_protection_tags tags = Ok pp) :
  length (rules pp) ≤ 50 ∧
  (∀ vs, "buzz-protect" :: vs ∈ tags →
     ∃ r, r ∈ rules pp ∧ parse_protection_tag vs = Ok r) ∧
  (∀ r, r ∈ rules pp → push_role_ok (push_role r) ∧
     ∃ pat strs, "buzz-protect" :: pat :: strs ∈ tags ∧ strs ≠ [] ∧
       pattern_parse pat = Ok (pattern r)).
Proof.
  apply parse_tags_loop_spec in Htags as (Hlen & _ & Hin & Hout); [|simpl; lia].
  split_and!; [done|..].
  - intros vs Hvs. destruct (Hin vs Hvs) as (r & unk & Hr & Hp). exists r. split; [done|].
    unfold parse_protection_tag. by rewrite Hp.
  - intros r Hr. destruct (Hout r Hr) as [[]%not_elem_of_nil|(vs & unk & Hvs & Hp)].
    apply parse_tag_spec in Hp as (pat & strs & -> & Hne & Hpat & _ & _ & _ & _ & Hrole).
    split; [done|]. exists pat, strs. done.
Qed.

Definition w_tags : list (list string) :=
  [["d"; "repo"]; ["buzz-protect"; "refs/heads/*"; "push:admin"; "no-delete"]].
Definition w_rule : ProtectionRule :=
  MkRule (MkPattern "refs/heads/*" [Literal "refs"; Literal "heads"; Wildcard])
    (Some Admin) false true false.
Definition w_update : RefUpdate := MkUpdate "refs/heads/main" FastForward "a" "b".

Lemma protection_enforced_witness :
  ∃ p, pattern_parse "refs/heads/*" = Ok p ∧
  (ref_match (segments p) (split_slash "refs/heads/main") →
     ("no-delete" ∈ ["push:admin"; "no-delete"] → FastForward ≠ Delete) ∧
     ("no-force-push" ∈ ["push:admin"; "no-delete"] → FastForward ≠ NonFastForward) ∧
     "require-patch" ∉ ["push:admin"; "no-delete"] ∧
     ∀ t r, "push:" +:+ t ∈ ["push:admin"; "no-delete"] → role_from_str t = Some r →
       role_le r Owner).
Proof.
  apply (protection_enforced w_tags (MkParsed [w_rule] []) [w_update] Owner "refs/heads/*"
    ["push:admin"; "no-delete"] w_update).
  - vm_compute. reflexivity.
  - vm_compute. reflexivity.
  - right. left.
  - left.
Defined.

Lemma parsed_protection_ok_witness : length (rules (MkParsed [w_rule] [])) ≤ 50.
Proof.
  destruct (parsed_protection_ok w_tags (MkParsed [w_rule] [])) as [H _];
    [vm_compute; reflexivity|exact H].
Defined.
