(* ===== verification/GitManifest.v ===== *)
(** * Hosted repositories: the manifest

    [crates/buzz-relay/src/api/git/manifest.rs], and the pure steps of
    [cas_publish.rs] that compose the next manifest.  SHA-256 and the JSON form of
    a manifest are the operations of [GitOps]; a [BTreeMap] is a finite map walked
    in key order ([btree_entries]). *)

From stdpp Require Import base gmap strings list sorting.
From Stdlib Require Import ZArith Lia Ascii.
From S2P Require Import Prelude Text.

Local Open Scope list_scope.

(** ** The manifest *)

Definition MANIFEST_VERSION : Z := 1.
Definition MAX_MANIFEST_PACKS : nat := 128.
Definition PACK_COMPACTION_THRESHOLD : nat := MAX_MANIFEST_PACKS * 3 / 4.
Definition MAX_MANIFEST_REFS : Z := 10000.

Record Manifest := {
  m_version : Z;
  m_head : string;
  m_refs : gmap string string;
  m_packs : list string;
  m_parent : option string;
}.

Inductive ManifestError :=
  | Serde
  | UnsupportedVersion (got expected : Z)
  | UnsafeRefName (name : string)
  | MalformedOid (refname oid : string)
  | EmptyHead
  | MalformedParent (p : string)
  | TooManyPacks (got max : nat)
  | TooManyRefs (got max : Z)
  | MalformedPackKey (key : string).

(** The hex SHA-256, and [serde_json] on manifests. *)
Class GitOps := {
  sha256_hex : string → string;
  to_vec : Manifest → string;
  from_slice : string → option Manifest;
}.

Definition is_safe_refname (s : string) : bool :=
  if negb (starts_with s "refs/") then false
  else if str_contains s ".." || str_contains s "//" || starts_with s "/" || ends_with s "/" then false
  else chars_all (λ c, is_ascii_alphanumeric c ||
                       bool_decide (c ∈ ["/"; "_"; "."; "-"]%char)) s.

Definition is_hex_oid (s : string) : bool :=
  (bool_decide (String.length s = 40%nat) || bool_decide (String.length s = 64%nat))
  && chars_all is_ascii_hexdigit s.

Definition is_lower_hexdigit (c : ascii) : bool :=
  let n := nat_of_ascii c in
  ((48 <=? n) && (n <=? 57) || (97 <=? n) && (n <=? 102))%nat.

Definition is_manifest_digest (s : string) : bool :=
  bool_decide (String.length s = 64%nat) && chars_all is_lower_hexdigit s.

Definition is_pack_key (s : string) : bool :=
  match strip_prefix "packs/" s with Some digest => is_manifest_digest digest | None => false end.

Definition pointer_key (community owner repo : string) : string :=
  ("repos/" +:+ community +:+ "/" +:+ owner +:+ "/" +:+ default repo (strip_suffix ".git" repo)
   +:+ "/pointer")%stdpp.

(** [for (k, v) in &map] of a [BTreeMap] *)
Definition btree_entries (m : gmap string string) : list (string * string) :=
  merge_sort (by_id fst) (map_to_list m).

Fixpoint check_refs (entries : list (string * string)) : result ManifestError unit :=
  match entries with
  | [] => Ok tt
  | (refname, oid) :: rest =>
      if negb (is_safe_refname refname) then Err (UnsafeRefName refname)
      else if negb (is_hex_oid oid) then Err (MalformedOid refname oid)
      else check_refs rest
  end.

Fixpoint check_packs (keys : list string) : result ManifestError unit :=
  match keys with
  | [] => Ok tt
  | pack :: rest => if negb (is_pack_key pack) then Err (MalformedPackKey pack) else check_packs rest
  end.

Definition validate (m : Manifest) : result ManifestError unit :=
  if (MAX_MANIFEST_PACKS <? length (m_packs m))%nat
  then Err (TooManyPacks (length (m_packs m)) MAX_MANIFEST_PACKS)
  else if (MAX_MANIFEST_REFS <? Z.of_nat (size (m_refs m)))%Z
  then Err (TooManyRefs (Z.of_nat (size (m_refs m))) MAX_MANIFEST_REFS)
  else if bool_decide (m_head m = "") then Err EmptyHead
  else if negb (is_safe_refname (m_head m)) then Err (UnsafeRefName (m_head m))
  else
    _ ← check_refs (btree_entries (m_refs m));
    _ ← check_packs (m_packs m);
    match m_parent m with
    | Some p => if negb (is_manifest_digest p) then Err (MalformedParent p) else Ok tt
    | None => Ok tt
    end.

(** [packs.sort(); packs.dedup()] *)
Fixpoint dedup (l : list string) : list string :=
  match l with
  | x :: (y :: _) as l' => if bool_decide (x = y) then dedup l' else x :: dedup l'
  | _ => l
  end.
Definition sort_dedup (l : list string) : list string := dedup (merge_sort (by_id id) l).

Definition with_packs (packs : list string) (m : Manifest) : Manifest := {|
  m_version := m_version m; m_head := m_head m; m_refs := m_refs m; m_packs := packs;
  m_parent := m_parent m |}.

Definition canonical_bytes `{GitOps} (m : Manifest) : string :=
  to_vec (with_packs (sort_dedup (m_packs m)) m).

Definition from_bytes `{GitOps} (bytes : string) : result ManifestError Manifest :=
  match from_slice bytes with
  | None => Err Serde
  | Some m =>
      if negb (bool_decide (m_version m = MANIFEST_VERSION))
      then Err (UnsupportedVersion (m_version m) MANIFEST_VERSION) else Ok m
  end.

(** ** Composing the next manifest *)

Definition resolve_published_head (refs : gmap string string) (observed_head parent_head : string)
    : string :=
  let is_published_branch name :=
    starts_with name "refs/heads/" && bool_decide (is_Some (refs !! name)) in
  if is_published_branch observed_head then observed_head
  else if is_published_branch parent_head then parent_head
  else
    match find (λ preferred, bool_decide (is_Some (refs !! preferred)))
               ["refs/heads/main"; "refs/heads/master"] with
    | Some preferred => preferred
    | None =>
        match find (λ name, starts_with name "refs/heads/") (btree_entries refs).*1 with
        | Some branch => branch
        | None => if negb (bool_decide (observed_head = "")) then observed_head else parent_head
        end
    end.

Definition should_compact (parent_pack_count threshold : nat) : bool :=
  (threshold <=? parent_pack_count)%nat.

Definition compacted_pack_set_is_usable (parent_pack_count compacted_pack_count : nat) : bool :=
  ((compacted_pack_count <? parent_pack_count) ||
   ((MAX_MANIFEST_PACKS <=? parent_pack_count) && (compacted_pack_count <=? MAX_MANIFEST_PACKS)))%nat.

Definition compose_after (parent : Manifest) (parent_digest : option string) (head : string)
    (refs : gmap string string) (new_pack_key : option string) : Manifest :=
  let packs :=
    match new_pack_key with
    | Some k => if bool_decide (k ∈ m_packs parent) then m_packs parent else m_packs parent ++ [k]
    | None => m_packs parent
    end in
  {| m_version := MANIFEST_VERSION; m_head := head; m_refs := refs;
     m_packs := sort_dedup packs; m_parent := parent_digest |}.

Definition compose_compacted_after (parent_digest : option string) (head : string)
    (refs : gmap string string) (compacted_pack_keys : list string) : Manifest :=
  {| m_version := MANIFEST_VERSION; m_head := head; m_refs := refs;
     m_packs := sort_dedup compacted_pack_keys; m_parent := parent_digest |}.

(** [DEFAULT_HEAD] and the manifest a new announcement seeds. *)
Definition DEFAULT_HEAD : string := "refs/heads/main".
Definition empty_manifest : Manifest := {|
  m_version := MANIFEST_VERSION; m_head := DEFAULT_HEAD; m_refs := ∅; m_packs := []; m_parent := None |}.

(** What the code relies on: a digest is 64 lowercase hex digits, and [serde_json]
    reads back what it wrote. *)
Class GitLaws `{GO : GitOps} := {
  digest_shape s : is_manifest_digest (sha256_hex s) = true;
  json_roundtrip m : from_slice (to_vec m) = Some m;
}.

(** ** Lemmas: sorting and deduplication *)

Lemma dedup_cons2 x y l :
  dedup (x :: y :: l) = if bool_decide (x = y) then dedup (y :: l) else x :: dedup (y :: l).
Proof. done. Qed.

Lemma dedup_elem x l : x ∈ dedup l ↔ x ∈ l.
Proof.
  induction l as [|y [|z l] IH]; [done|done|]. rewrite dedup_cons2. case_bool_decide as Hyz; [subst; rewrite IH; set_solver|]. rewrite !elem_of_cons in *. tauto.
Qed.

Lemma dedup_sorted l : StronglySorted (by_id id) l → StronglySorted (by_id id) (dedup l) ∧ NoDup (dedup l).
Proof.
  induction l as [|y [|z l] IH]; intros Hs.
  { split; [done|constructor]. }
  { split; [done|apply NoDup_singleton]. }
  apply StronglySorted_inv in Hs as [Hs Hy]. destruct (IH Hs) as [Hd Hn].
  rewrite dedup_cons2. case_bool_decide as Hyz; [done|]. split.
  - constructor; [done|]. apply Forall_forall. intros x Hx. rewrite dedup_elem in Hx.
    rewrite Forall_forall in Hy. by apply Hy.
  - constructor; [|done]. intros Hx. rewrite dedup_elem in Hx.
    assert (by_id id z y) as Hzy.
    { apply elem_of_cons in Hx as [->|Hx]; [done|]. apply StronglySorted_inv in Hs as [_ Hz].
      rewrite Forall_forall in Hz. by apply Hz. }
    inversion Hy as [|?? Hyz']. apply Hyz. by apply (anti_symm String.le).
Qed.

Lemma dedup_id l : NoDup l → dedup l = l.
Proof.
  induction l as [|y [|z l] IH]; intros Hn; [done|done|]. apply NoDup_cons in Hn as [Hy Hn].
  rewrite dedup_cons2. rewrite bool_decide_eq_false_2 by (intros ->; apply Hy; left). by f_equal; apply IH.
Qed.

Lemma sort_dedup_elem x l : x ∈ sort_dedup l ↔ x ∈ l.
Proof. unfold sort_dedup. by rewrite dedup_elem, merge_sort_Permutation. Qed.

Lemma sort_dedup_idem l : sort_dedup (sort_dedup l) = sort_dedup l.
Proof.
  unfold sort_dedup at 1. destruct (dedup_sorted (merge_sort (by_id id) l)) as [Hs Hn].
  { apply StronglySorted_merge_sort; apply _. }
  assert (merge_sort (by_id id) (sort_dedup l) = sort_dedup l) as ->; [|by apply dedup_id].
  eapply (StronglySorted_unique_strong (by_id id)).
  - intros x y _ _ H1 H2. by apply (anti_symm String.le).
  - apply StronglySorted_merge_sort; apply _.
  - done.
  - apply merge_sort_Permutation.
Qed.

Lemma sort_dedup_length l : (length (sort_dedup l) ≤ length l)%nat.
Proof.
  unfold sort_dedup. rewrite <-(merge_sort_Permutation (by_id id) l) at 2.
  generalize (merge_sort (by_id id) l) as k. intros k.
  induction k as [|x [|y k] IH]; [done|done|]. rewrite dedup_cons2. case_bool_decide; simpl in *; lia.
Qed.

(** ** Lemmas: valid manifests *)

Definition is_canonical (m : Manifest) : Prop := sort_dedup (m_packs m) = m_packs m.

Lemma from_bytes_canonical `{GitLaws} m :
  is_canonical m → m_version m = MANIFEST_VERSION → from_bytes (canonical_bytes m) = Ok m.
Proof.
  intros Hc Hv. unfold from_bytes, canonical_bytes. rewrite json_roundtrip. unfold is_canonical in Hc.
  rewrite Hc. destruct m as [v h r p q]. simpl in *. by rewrite Hv.
Qed.

Lemma lower_hexdigit_hexdigit c : is_lower_hexdigit c = true → is_ascii_hexdigit c = true.
Proof.
  unfold is_lower_hexdigit, is_ascii_hexdigit. intros [H|H]%orb_true_iff; rewrite H; [done|].
  by rewrite !orb_true_r.
Qed.

Lemma digest_hex d : is_manifest_digest d = true →
  String.length d = 64%nat ∧ chars_all is_ascii_hexdigit d = true.
Proof.
  intros [Hl%bool_decide_eq_true Hc]%andb_true_iff. split; [done|].
  eapply chars_all_impl; [|exact Hc]. apply lower_hexdigit_hexdigit.
Qed.

Lemma digest_trim d : is_manifest_digest d = true → trim d = d.
Proof. intros [_ H]%digest_hex. by apply trim_hex. Qed.

Lemma btree_entries_perm m : btree_entries m ≡ₚ map_to_list m.
Proof. apply merge_sort_Permutation. Qed.

Lemma elem_of_btree_entries m k v : (k, v) ∈ btree_entries m ↔ m !! k = Some v.
Proof. by rewrite btree_entries_perm, elem_of_map_to_list. Qed.

Lemma check_refs_ok l :
  check_refs l = Ok tt ↔ Forall (λ e, is_safe_refname e.1 = true ∧ is_hex_oid e.2 = true) l.
Proof.
  induction l as [|[r o] l IH]; [by split; [constructor|]|]. simpl. rewrite Forall_cons, <-IH. simpl.
  destruct (is_safe_refname r), (is_hex_oid o); simpl; naive_solver.
Qed.

Lemma check_refs_map (m : gmap string string) :
  Forall (λ e, is_safe_refname e.1 = true ∧ is_hex_oid e.2 = true) (btree_entries m)
  ↔ ∀ r o, m !! r = Some o → is_safe_refname r = true ∧ is_hex_oid o = true.
Proof.
  rewrite Forall_forall. split.
  - intros H r o Hr. by apply (H (r, o)), elem_of_btree_entries.
  - intros H [r o] Hr%elem_of_btree_entries. by apply H.
Qed.

Lemma check_packs_ok l : check_packs l = Ok tt ↔ Forall (λ k, is_pack_key k = true) l.
Proof.
  induction l as [|k l IH]; [by split; [constructor|]|]. simpl. rewrite Forall_cons, <-IH.
  destruct (is_pack_key k); simpl; naive_solver.
Qed.

(** What [validate] accepts. *)
Definition manifest_ok (m : Manifest) : Prop :=
  (length (m_packs m) ≤ MAX_MANIFEST_PACKS)%nat ∧
  (Z.of_nat (size (m_refs m)) ≤ MAX_MANIFEST_REFS)%Z ∧
  m_head m ≠ "" ∧ is_safe_refname (m_head m) = true ∧
  (∀ r o, m_refs m !! r = Some o → is_safe_refname r = true ∧ is_hex_oid o = true) ∧
  Forall (λ k, is_pack_key k = true) (m_packs m) ∧
  (∀ p, m_parent m = Some p → is_manifest_digest p = true).

Lemma bind_Ok_tt {E A} (r : result E unit) (k : result E A) a :
  (_ ← r; k) = Ok a ↔ r = Ok tt ∧ k = Ok a.
Proof. destruct r as [[]|]; simpl; naive_solver. Qed.

Lemma validate_ok m : validate m = Ok tt ↔ manifest_ok m.
Proof.
  unfold validate, manifest_ok. destruct (Nat.ltb_spec MAX_MANIFEST_PACKS (length (m_packs m))).
  { split; [done|intros; lia]. }
  destruct (Z.ltb_spec MAX_MANIFEST_REFS (Z.of_nat (size (m_refs m)))); [split; [done|intros; lia]|].
  case_bool_decide; [naive_solver|]. destruct (is_safe_refname (m_head m)); simpl; [|naive_solver].
  rewrite !bind_Ok_tt, check_refs_ok, check_packs_ok, check_refs_map.
  assert ((match m_parent m with Some p => if negb (is_manifest_digest p) then Err (MalformedParent p) else Ok tt
    | None => Ok tt end) = Ok tt ↔ ∀ p, m_parent m = Some p → is_manifest_digest p = true) as ->.
  { destruct (m_parent m) as [p|]; [|naive_solver]. destruct (is_manifest_digest p) eqn:Hp; simpl.
    - split; [by intros _ ? [= <-]|done].
    - split; [done|]. intros Hq. specialize (Hq p eq_refl). congruence. }
  simpl. naive_solver.
Qed.
