(* ===== verification/GitWire.v ===== *)
(** * Hosted repositories: what goes over the wire

    The pkt-line framing of [crates/buzz-relay/src/api/git/transport.rs]: the
    encoder, the iterator that reads [receive-pack]'s report ([PktLineIter],
    [receive_pack_report_rejected]) and the ref advertisement built straight from
    a manifest.  Bytes are [string]s. *)

From stdpp Require Import base gmap strings list.
From Stdlib Require Import ZArith Lia Ascii.
From S2P Require Import Prelude Text GitManifest.

Local Open Scope list_scope.

(** ** Framing *)

Definition hex_digit (n : nat) : ascii :=
  ascii_of_nat (if (n <? 10)%nat then 48 + n else 87 + n).

(** [format!("{len:04x}")], for what four digits can hold. *)
Definition hex4 (n : nat) : string :=
  String (hex_digit (n / 4096)) (String (hex_digit (n / 256 mod 16))
    (String (hex_digit (n / 16 mod 16)) (String (hex_digit (n mod 16)) ""))).

Definition PKT_LINE_MAX_PAYLOAD : N := 65531.

Definition pkt_line (payload : string) : string :=
  if bool_decide (PKT_LINE_MAX_PAYLOAD < N.of_nat (String.length payload))%N then "0004"
  else (hex4 (String.length payload + 4) +:+ payload)%stdpp.

(** [usize::from_str_radix(s, 16)] *)
Definition from_hex_digit (c : ascii) : option nat :=
  let n := nat_of_ascii c in
  if ((48 <=? n) && (n <=? 57))%nat then Some (n - 48)
  else if ((65 <=? n) && (n <=? 70))%nat then Some (n - 55)
  else if ((97 <=? n) && (n <=? 102))%nat then Some (n - 87)
  else None.

Fixpoint hex_digits (acc : nat) (s : string) : option nat :=
  match s with
  | EmptyString => Some acc
  | String c s' => d ← from_hex_digit c; hex_digits (acc * 16 + d) s'
  end.

Definition from_str_radix_16 (s : string) : option nat :=
  match s with
  | EmptyString => None
  | String c s' =>
      if bool_decide (c = "+"%char)
      then match s' with EmptyString => None | _ => hex_digits 0 s' end
      else hex_digits 0 s
  end.

Fixpoint str_take (n : nat) (s : string) : string :=
  match n, s with
  | S n', String c s' => String c (str_take n' s')
  | _, _ => ""
  end.
Fixpoint str_drop (n : nat) (s : string) : string :=
  match n, s with
  | S n', String _ s' => str_drop n' s'
  | _, _ => s
  end.

(** [PktLineIter]: every turn consumes at least four bytes, so the length is
    enough fuel. *)
Fixpoint pkt_lines_from (fuel : nat) (buf : string) : list string :=
  match fuel with
  | O => []
  | S fuel' =>
      if (String.length buf <? 4)%nat then []
      else
        match from_str_radix_16 (str_take 4 buf) with
        | None => []
        | Some len =>
            if (len <? 4)%nat then pkt_lines_from fuel' (str_drop 4 buf)
            else if (String.length buf <? len)%nat then []
            else str_take (len - 4) (str_drop 4 buf) :: pkt_lines_from fuel' (str_drop len buf)
        end
  end.
Definition pkt_lines (buf : string) : list string := pkt_lines_from (String.length buf) buf.

Definition receive_pack_report_rejected (stdout : string) : bool :=
  existsb (λ payload,
    match payload with
    | String c inner =>
        if bool_decide (nat_of_ascii c = 1%nat) then existsb (λ line, starts_with line "ng ") (pkt_lines inner)
        else if bool_decide (nat_of_ascii c = 2%nat ∨ nat_of_ascii c = 3%nat) then false
        else starts_with payload "ng "
    | EmptyString => false
    end) (pkt_lines stdout).

(** ** The advertisement *)

Definition MAX_FAST_PATH_REFNAME_LEN : Z := 4096.

Definition fast_path_eligible (manifest : Manifest) : bool :=
  let entries := btree_entries (m_refs manifest) in
  if existsb (λ e, starts_with e.1 "refs/tags/") entries then false
  else if negb (bool_decide (is_Some (m_refs manifest !! m_head manifest))) then false
  else forallb (λ e, is_safe_refname e.1 &&
                     bool_decide (Z.of_nat (String.length e.1) ≤ MAX_FAST_PATH_REFNAME_LEN)%Z &&
                     is_hex_oid e.2) entries.

Definition newline : string := String (ascii_of_nat 10) "".
Definition nul : string := String (ascii_of_nat 0) "".

Definition advertised_caps (head object_format : string) : string :=
  ("multi_ack thin-pack side-band side-band-64k ofs-delta shallow " +:+
   "deepen-since deepen-not deepen-relative no-progress include-tag " +:+
   "multi_ack_detailed no-done symref=HEAD:" +:+ head +:+ " object-format=" +:+ object_format +:+
   " agent=buzz-git")%stdpp.

Definition service_line : string := ("# service=git-upload-pack" +:+ newline)%stdpp.
Definition head_line (manifest : Manifest) : string :=
  let head_oid := default "" (m_refs manifest !! m_head manifest) in
  let object_format := if bool_decide (String.length head_oid = 64%nat) then "sha256" else "sha1" in
  (head_oid +:+ " HEAD" +:+ nul +:+ advertised_caps (m_head manifest) object_format +:+ newline)%stdpp.
Definition ref_line (e : string * string) : string := (e.2 +:+ " " +:+ e.1 +:+ newline)%stdpp.

Definition concat_strings (l : list string) : string := foldr String.append "" l.

Definition build_upload_pack_advertisement (manifest : Manifest) : string :=
  (pkt_line service_line +:+ "0000" +:+ pkt_line (head_line manifest) +:+
   concat_strings (pkt_line ∘ ref_line <$> btree_entries (m_refs manifest)) +:+ "0000")%stdpp.

(** ** Lemmas *)

Lemma from_hex_digit_of n : (n < 16)%nat → from_hex_digit (hex_digit n) = Some n.
Proof. intros H. do 16 (destruct n as [|n]; [done|]). lia. Qed.

Lemma hex_digit_plus n : (n < 16)%nat → hex_digit n ≠ "+"%char.
Proof. intros H. do 16 (destruct n as [|n]; [done|]). lia. Qed.

Lemma hex_digits_four a b c d : (a < 16)%nat → (b < 16)%nat → (c < 16)%nat → (d < 16)%nat →
  hex_digits 0 (String (hex_digit a) (String (hex_digit b) (String (hex_digit c) (String (hex_digit d) ""))))
  = Some (((a * 16 + b) * 16 + c) * 16 + d)%nat.
Proof. intros. cbn [hex_digits]. by rewrite !from_hex_digit_of. Qed.

Lemma hex4_read n : (N.of_nat n < 65536)%N → from_str_radix_16 (hex4 n) = Some n.
Proof.
  intros H. unfold from_str_radix_16, hex4.
  assert (n / 4096 < 16)%nat as Hn by (apply Nat.Div0.div_lt_upper_bound; lia).
  rewrite bool_decide_eq_false_2 by (by apply hex_digit_plus).
  rewrite hex_digits_four by (done || (apply Nat.mod_upper_bound; lia)). f_equal.
  replace (n / 4096)%nat with (n / 16 / 16 / 16)%nat by (rewrite !Nat.Div0.div_div; done).
  replace (n / 256)%nat with (n / 16 / 16)%nat by (rewrite !Nat.Div0.div_div; done).
  pose proof (Nat.div_mod_eq n 16). pose proof (Nat.div_mod_eq (n / 16) 16).
  pose proof (Nat.div_mod_eq (n / 16 / 16) 16). lia.
Qed.

Lemma hex4_length n : String.length (hex4 n) = 4%nat.
Proof. done. Qed.

Lemma str_take_app a b : str_take (String.length a) (a +:+ b)%stdpp = a.
Proof. induction a as [|c a IH]; [by destruct b|]. simpl. by f_equal. Qed.

Lemma str_drop_app a b : str_drop (String.length a) (a +:+ b)%stdpp = b.
Proof. induction a as [|c a IH]; [by destruct b|]. exact IH. Qed.

Lemma str_drop_length n s : String.length (str_drop n s) = (String.length s - n)%nat.
Proof. revert s. induction n as [|n IH]; intros [|c s]; simpl; [done..|]. by rewrite IH. Qed.

(** More fuel than the length changes nothing. *)
Lemma pkt_lines_fuel fuel fuel' buf :
  (String.length buf ≤ fuel)%nat → (String.length buf ≤ fuel')%nat →
  pkt_lines_from fuel buf = pkt_lines_from fuel' buf.
Proof.
  revert fuel' buf. induction fuel as [|fuel IH]; intros [|fuel'] buf H H'; cbn [pkt_lines_from]; [done| | |].
  - by rewrite (proj2 (Nat.ltb_lt _ _)) by lia.
  - by rewrite (proj2 (Nat.ltb_lt _ _)) by lia.
  - destruct (Nat.ltb_spec (String.length buf) 4); [done|]. destruct (from_str_radix_16 _) as [len|]; [|done].
    destruct (Nat.ltb_spec len 4); [apply IH; rewrite str_drop_length; lia|].
    destruct (Nat.ltb_spec (String.length buf) len); [done|]. f_equal. apply IH; rewrite str_drop_length; lia.
Qed.

Lemma pkt_lines_cons payload rest :
  (N.of_nat (String.length payload) ≤ PKT_LINE_MAX_PAYLOAD)%N →
  pkt_lines (pkt_line payload +:+ rest)%stdpp = payload :: pkt_lines rest.
Proof.
  intros H. unfold pkt_line. rewrite bool_decide_eq_false_2 by lia. rewrite <-string_app_assoc.
  unfold PKT_LINE_MAX_PAYLOAD in H. set (n := String.length payload) in *.
  set (buf := (hex4 (n + 4) +:+ (payload +:+ rest))%stdpp).
  assert (String.length buf = n + 4 + String.length rest)%nat as Hlen.
  { unfold buf. rewrite !string_length_app, hex4_length. lia. }
  unfold pkt_lines at 1. rewrite Hlen. replace (n + 4 + String.length rest)%nat with (S (n + 3 + String.length rest)) by lia.
  cbn [pkt_lines_from]. rewrite Hlen, (proj2 (Nat.ltb_ge _ _)) by lia.
  assert (str_take 4 buf = hex4 (n + 4)) as -> by apply (str_take_app (hex4 (n + 4))).
  assert (str_drop 4 buf = payload +:+ rest)%stdpp as -> by apply (str_drop_app (hex4 (n + 4))).
  rewrite hex4_read by lia. rewrite !(proj2 (Nat.ltb_ge _ _)) by lia.
  replace (n + 4 - 4)%nat with n by lia. unfold n at 1. rewrite str_take_app. f_equal.
  assert (str_drop (n + 4) buf = rest) as ->.
  { unfold buf. rewrite string_app_assoc. set (a := (hex4 (n + 4) +:+ payload)%stdpp).
    assert (n + 4 = String.length a)%nat as -> by (unfold a; rewrite string_length_app, hex4_length; lia).
    apply str_drop_app. }
  apply pkt_lines_fuel; lia.
Qed.

Lemma pkt_lines_flush rest : pkt_lines ("0000" +:+ rest)%stdpp = pkt_lines rest.
Proof.
  transitivity (pkt_lines_from (3 + String.length rest) rest); [reflexivity|].
  apply pkt_lines_fuel; lia.
Qed.

Lemma pkt_lines_list payloads rest :
  Forall (λ p, N.of_nat (String.length p) ≤ PKT_LINE_MAX_PAYLOAD)%N payloads →
  pkt_lines (concat_strings (pkt_line <$> payloads) +:+ rest)%stdpp = payloads ++ pkt_lines rest.
Proof.
  induction 1 as [|p payloads Hp _ IH]; [done|].
  change (concat_strings (pkt_line <$> p :: payloads)) with
    (pkt_line p +:+ concat_strings (pkt_line <$> payloads))%stdpp.
  rewrite <-string_app_assoc, pkt_lines_cons by done. simpl. by rewrite IH.
Qed.

Lemma pkt_lines_flush_end : pkt_lines "0000" = [].
Proof. done. Qed.

Lemma fast_path_entries m :
  fast_path_eligible m = true →
  (∃ oid, m_refs m !! m_head m = Some oid) ∧
  ∀ r o, m_refs m !! r = Some o →
    starts_with r "refs/tags/" = false ∧ (Z.of_nat (String.length r) ≤ 4096)%Z ∧ is_hex_oid o = true.
Proof.
  unfold fast_path_eligible. destruct (existsb _ _) eqn:He; [done|]. case_bool_decide as Hh; [|done]. simpl.
  intros Hall. rewrite forallb_forall in Hall. split; [by destruct Hh; eexists|]. intros r o Hr.
  apply elem_of_btree_entries in Hr. specialize (Hall (r, o) (proj1 (list_elem_of_In _ _) Hr)). simpl in Hall.
  apply andb_true_iff in Hall as [[_ Hl%bool_decide_eq_true]%andb_true_iff Ho]. split_and!; [|done|done].
  destruct (starts_with r "refs/tags/") eqn:Ht; [|done]. apply Bool.not_true_iff_false in He. destruct He.
  apply existsb_exists. exists (r, o). split; [by apply list_elem_of_In|done].
Qed.

Lemma hex_oid_length o : is_hex_oid o = true → (String.length o ≤ 64)%nat.
Proof.
  unfold is_hex_oid. intros [[H|H]%orb_true_iff _]%andb_true_iff; apply bool_decide_eq_true in H; lia.
Qed.

(** A manifest the fast path accepts is advertised in frames that read back
    exactly: the service line, the head with its capabilities, then every ref with
    its object in key order, and no tag. *)
Theorem advertisement_reads_back m :
  fast_path_eligible m = true →
  pkt_lines (build_upload_pack_advertisement m)
  = service_line :: head_line m :: (ref_line <$> btree_entries (m_refs m)) ∧
  ∀ r, is_Some (m_refs m !! r) → starts_with r "refs/tags/" = false.
Proof.
  intros [(oid & Hh) Hr]%fast_path_entries. split; [|by intros r [o Ho]; apply (Hr r o)].
  unfold build_upload_pack_advertisement.
  rewrite pkt_lines_cons by (vm_compute; discriminate). f_equal. rewrite pkt_lines_flush.
  destruct (Hr _ _ Hh) as (_ & Hhl & Ho%hex_oid_length).
  rewrite pkt_lines_cons.
  - f_equal. rewrite list_fmap_compose, pkt_lines_list, pkt_lines_flush_end, app_nil_r; [done|].
    apply Forall_fmap, Forall_forall. intros [r o] (_ & Hl & Hol%hex_oid_length)%elem_of_btree_entries%Hr.
    simpl. unfold ref_line, PKT_LINE_MAX_PAYLOAD. rewrite !string_length_app. simpl. lia.
  - unfold head_line, advertised_caps, PKT_LINE_MAX_PAYLOAD. rewrite Hh. simpl default.
    rewrite !string_length_app. case_bool_decide; simpl; lia.
Qed.
