(* ===== verification/GitStore.v ===== *)
(** * Hosted repositories: programs over an object store

    [crates/buzz-relay/src/api/git/store.rs]: the requests a relay makes to the
    bucket and how it classifies the answers ([put_immutable], [get_pointer],
    [put_pointer], ...).  A handler is a [prog]: a tree of requests whose
    continuations take the answer; any number of them, of any relays, run
    interleaved, one request at a time, on the [World], the record of every write
    the bucket was sent.

    [wp i p S Q] is the program logic the handlers are verified in: along any
    interference that keeps the invariant, [p] keeps it too, is in [S] after each
    of its writes and ends in [Q].  [wp_sound] discharges it for every reachable
    system. *)

From stdpp Require Import base gmap strings list.
From Stdlib Require Import ZArith Lia Ascii.
From S2P Require Import Prelude Text GitManifest.

Local Open Scope list_scope.

(** ** Requests and answers *)

Inductive Precond := IfNoneMatchStar | IfMatch (etag : string).

#[export] Instance Precond_eq_dec : EqDecision Precond.
Proof. solve_decision. Defined.

Inductive PutReply := PutOk (etag : option string) | PutPreconditionFailed | PutFailed.
Inductive GetReply := GetOk (etag : option string) (body : string) | GetMissing | GetFailed.
Inductive HeadReply := HeadOk (content_length : option Z) | HeadMissing | HeadFailed.

Inductive prog (A : Type) : Type :=
  | Ret (a : A)
  | Put (key body : string) (cond : Precond) (k : PutReply → prog A)
  | Get (key : string) (k : GetReply → prog A)
  | Head (key : string) (k : HeadReply → prog A).
Arguments Ret {A} a.
Arguments Put {A} key body cond k.
Arguments Get {A} key k.
Arguments Head {A} key k.

Fixpoint prog_bind {A B} (p : prog A) (f : A → prog B) : prog B :=
  match p with
  | Ret a => f a
  | Put key body cond k => Put key body cond (λ r, prog_bind (k r) f)
  | Get key k => Get key (λ r, prog_bind (k r) f)
  | Head key k => Head key (λ r, prog_bind (k r) f)
  end.

(** [async fn ... -> Result<A, E>] with the [?] operator *)
Definition PE (E A : Type) : Type := prog (result E A).
#[export] Instance pe_ret {E} : MRet (PE E) := λ A a, Ret (Ok a).
#[export] Instance pe_bind {E} : MBind (PE E) := λ A B f p,
  prog_bind p (λ r, match r with Ok a => f a | Err e => Ret (Err e) end).
Definition ok {E A} (a : A) : PE E A := Ret (Ok a).
Definition throw {E A} (e : E) : PE E A := Ret (Err e).
Definition pe_lift {E A} (r : result E A) : PE E A := Ret r.

(** [.map_err(f)] *)
Definition map_err {E F A} (f : E → F) (p : PE E A) : PE F A :=
  prog_bind p (λ r, Ret match r with Ok a => Ok a | Err e => Err (f e) end).

(** A future dropped before it is done: [cut n] gives up before request [n]. *)
Fixpoint cut {A} (n : option nat) (p : prog A) : prog (option A) :=
  match p, n with
  | Ret a, _ => Ret (Some a)
  | _, Some O => Ret None
  | Put key body cond k, _ => Put key body cond (λ r, cut (pred <$> n) (k r))
  | Get key k, _ => Get key (λ r, cut (pred <$> n) (k r))
  | Head key k, _ => Head key (λ r, cut (pred <$> n) (k r))
  end.

(** ** [GitStore] *)

Inductive StoreError :=
  | NotFound (key : string)
  | ObjectTooLarge (key : string) (size max : Z)
  | DigestMismatch (key expected actual : string)
  | StoreBackend.

Inductive CasOutcome := Won (etag : string) | LostRace.

Definition str_len (s : string) : Z := Z.of_nat (String.length s).

Section store.
Context `{GO : GitOps}.

Definition content_key (prefix bytes : string) : string :=
  (prefix +:+ "/" +:+ sha256_hex bytes)%stdpp.

Definition idx_key_for_pack_digest (pack_digest : string) : result StoreError string :=
  if negb (bool_decide (String.length pack_digest = 64%nat)) || negb (chars_all is_ascii_hexdigit pack_digest)
  then Err StoreBackend else Ok ("idx/" +:+ pack_digest)%stdpp.

(** A 412 on a create-only write means the object is there already. *)
Definition put_create_only (key body : string) : PE StoreError string :=
  Put key body IfNoneMatchStar (λ r,
    match r with
    | PutOk _ => ok key
    | PutPreconditionFailed => ok key
    | PutFailed => throw StoreBackend
    end).

Definition put_immutable (prefix bytes : string) : PE StoreError string :=
  put_create_only (content_key prefix bytes) bytes.

Definition put_pack (bytes : string) : PE StoreError string := put_immutable "packs" bytes.
Definition put_manifest (bytes : string) : PE StoreError string := put_immutable "manifests" bytes.

Definition put_idx (pack_digest idx_bytes : string) : PE StoreError string :=
  key ← pe_lift (idx_key_for_pack_digest pack_digest);
  put_create_only key idx_bytes.

Definition get (key : string) : PE StoreError string :=
  Get key (λ r,
    match r with
    | GetOk _ body => ok body
    | GetMissing => throw (NotFound key)
    | GetFailed => throw StoreBackend
    end).

Definition check_digest (key expected bytes : string) : result StoreError string :=
  if negb (bool_decide (sha256_hex bytes = expected))
  then Err (DigestMismatch key expected (sha256_hex bytes)) else Ok bytes.

Definition get_verified (key expected : string) : PE StoreError string :=
  bytes ← get key; pe_lift (check_digest key expected bytes).

Definition get_limited (key : string) (max_bytes : Z) : PE StoreError string :=
  Head key (λ r,
    match r with
    | HeadMissing => throw (NotFound key)
    | HeadFailed => throw StoreBackend
    | HeadOk content_length =>
        let too_large :=
          match content_length with Some n => bool_decide (max_bytes < n)%Z | None => false end in
        if too_large then throw (ObjectTooLarge key (default 0%Z content_length) max_bytes)
        else
          bytes ← get key;
          if bool_decide (max_bytes < str_len bytes)%Z
          then throw (ObjectTooLarge key (str_len bytes) max_bytes) else ok bytes
    end).

Definition get_verified_limited (key expected : string) (max_bytes : Z) : PE StoreError string :=
  bytes ← get_limited key max_bytes; pe_lift (check_digest key expected bytes).

Definition get_pointer (key : string) : PE StoreError (option (string * string)) :=
  Get key (λ r,
    match r with
    | GetOk (Some etag) body => ok (Some (etag, body))
    | GetOk None _ => throw StoreBackend
    | GetMissing => ok None
    | GetFailed => throw StoreBackend
    end).

Definition classify_cas (r : PutReply) : result StoreError CasOutcome :=
  match r with
  | PutOk (Some etag) => Ok (Won etag)
  | PutOk None => Err StoreBackend
  | PutPreconditionFailed => Ok LostRace
  | PutFailed => Err StoreBackend
  end.

Definition put_pointer (key body : string) (precond : Precond) : PE StoreError CasOutcome :=
  Put key body precond (λ r, Ret (classify_cas r)).
End store.

(** ** The bucket *)

(** A write request: [a_etag] is the version it made, if it took effect. *)
Record Access := { a_key : string; a_body : string; a_etag : option string; a_author : nat }.

(** Every write request so far, oldest first. *)
Definition World : Type := list Access.

Definition effect_on (key : string) (a : Access) : option (string * string) :=
  if bool_decide (a_key a = key) then (λ e, (e, a_body a)) <$> a_etag a else None.

(** The version and body the bucket holds under a key. *)
Definition current (key : string) (w : World) : option (string * string) := last (omap (effect_on key) w).

Definition allowed (cond : Precond) (cur : option (string * string)) : bool :=
  match cond, cur with
  | IfNoneMatchStar, None => true
  | IfNoneMatchStar, Some _ => false
  | IfMatch e, Some (e', _) => bool_decide (e = e')
  | IfMatch _, None => false
  end.

(** An [ETag] identifies what it was given for: no key has one [ETag] for two bodies. *)
Definition etag_fits (w : World) (key body etag : string) : Prop :=
  ∀ a, a ∈ w → a_key a = key → a_etag a = Some etag → a_body a = body.

Definition access (i : nat) (key body : string) (etag : option string) : Access :=
  {| a_key := key; a_body := body; a_etag := etag; a_author := i |}.

(** A conditional write takes effect or is refused atomically; a request that fails
    in transport may or may not have taken effect. *)
Inductive put_result (i : nat) (key body : string) (cond : Precond) (w : World) : PutReply → World → Prop :=
  | put_effective etag reply :
      allowed cond (current key w) = true → etag_fits w key body etag →
      reply ∈ [PutOk (Some etag); PutOk None; PutFailed] →
      put_result i key body cond w reply (w ++ [access i key body (Some etag)])
  | put_refused :
      allowed cond (current key w) = false →
      put_result i key body cond w PutPreconditionFailed (w ++ [access i key body None])
  | put_lost : put_result i key body cond w PutFailed (w ++ [access i key body None]).

Definition get_result (key : string) (w : World) (reply : GetReply) : Prop :=
  reply = GetFailed ∨
  match current key w with
  | Some (e, b) => reply = GetOk (Some e) b ∨ reply = GetOk None b
  | None => reply = GetMissing
  end.

(** [Content-Length] is not relied upon. *)
Definition head_result (key : string) (w : World) (reply : HeadReply) : Prop :=
  reply = HeadFailed ∨
  match current key w with
  | Some _ => ∃ n, reply = HeadOk n
  | None => reply = HeadMissing
  end.

Inductive exec {A} (i : nat) : prog A → World → prog A → World → Prop :=
  | exec_put key body cond k w reply w' :
      put_result i key body cond w reply w' → exec i (Put key body cond k) w (k reply) w'
  | exec_get key k w reply : get_result key w reply → exec i (Get key k) w (k reply) w
  | exec_head key k w reply : head_result key w reply → exec i (Head key k) w (k reply) w.

(** ** Systems of programs *)

(** A request being handled: what it asks, how many writes the bucket had been sent
    when it came in, and what is left to do. *)
Record Proc (Req Out : Type) := { p_req : Req; p_start : nat; p_prog : prog Out }.
Arguments p_req {Req Out} _.
Arguments p_start {Req Out} _.
Arguments p_prog {Req Out} _.
Arguments Build_Proc {Req Out} _ _ _.

(** Requests come in at any time; [program] is the handler of a request, and the
    position of a request in [procs] is the author of its writes. *)
Record Sys (Req Out : Type) := { world : World; procs : list (Proc Req Out) }.
Arguments world {Req Out} _.
Arguments procs {Req Out} _.

Section system.
Context {Req Out : Type} (program : Req → prog Out).

Inductive sys_step : Sys Req Out → Sys Req Out → Prop :=
  | sys_arrive s r :
      sys_step s {| world := world s; procs := procs s ++ [Build_Proc r (length (world s)) (program r)] |}
  | sys_run s i pr p' w' :
      procs s !! i = Some pr → exec i (p_prog pr) (world s) p' w' →
      sys_step s {| world := w'; procs := <[i := Build_Proc (p_req pr) (p_start pr) p']> (procs s) |}.

Inductive sys_reachable : Sys Req Out → Prop :=
  | sys_start : sys_reachable {| world := []; procs := [] |}
  | sys_next s s' : sys_reachable s → sys_step s s' → sys_reachable s'.
End system.

(** ** The logic *)

Section logic.
Context `{GO : GitOps} (Inv : World → Prop).

(** No two bodies that were sent share a digest. *)
Definition no_collision (w : World) : Prop :=
  ∀ a b, a ∈ w → b ∈ w → sha256_hex (a_body a) = sha256_hex (a_body b) → a_body a = a_body b.

(** What others may do to the world while [i] waits. *)
Definition env (i : nat) (w w' : World) : Prop :=
  Inv w' ∧ ∃ l, w' = w ++ l ∧ Forall (λ a, a_author a ≠ i) l.

Fixpoint wp {A} (i : nat) (p : prog A) (S : World → Prop) (Q : A → World → Prop) (w : World) : Prop :=
  match p with
  | Ret a => ∀ w1, env i w w1 → Q a w1
  | Put key body cond k =>
      ∀ w1 reply w2, env i w w1 → put_result i key body cond w1 reply w2 → no_collision w2 →
        Inv w2 ∧ S w2 ∧ wp i (k reply) S Q w2
  | Get key k => ∀ w1 reply, env i w w1 → get_result key w1 reply → wp i (k reply) S Q w1
  | Head key k => ∀ w1 reply, env i w w1 → head_result key w1 reply → wp i (k reply) S Q w1
  end.

Lemma env_refl i w : Inv w → env i w w.
Proof. intros H. split; [done|]. exists []. by rewrite app_nil_r. Qed.

Lemma env_trans i w1 w2 w3 : env i w1 w2 → env i w2 w3 → env i w1 w3.
Proof.
  intros [_ (l & -> & Hl)] [Hi (l' & -> & Hl')]. split; [done|]. exists (l ++ l').
  rewrite <-app_assoc. split; [done|by apply Forall_app].
Qed.

Lemma wp_env {A} i (p : prog A) S Q w w' : wp i p S Q w → env i w w' → wp i p S Q w'.
Proof.
  intros H He. destruct p; simpl in *.
  - intros w1 H1. apply H. by eapply env_trans.
  - intros w1 reply w2 H1. eapply H. by eapply env_trans.
  - intros w1 reply H1. apply H. by eapply env_trans.
  - intros w1 reply H1. apply H. by eapply env_trans.
Qed.

Lemma wp_wait {A} i (p : prog A) S Q w : (∀ w', env i w w' → wp i p S Q w') → wp i p S Q w.
Proof.
  assert (∀ w1, env i w w1 → env i w1 w1) as Hrefl by (by intros w1 [H _]; apply env_refl).
  destruct p; simpl; intros H w1.
  - intros H1. apply (H _ H1). by eapply Hrefl.
  - intros reply w2 H1. by apply (H _ H1), Hrefl.
  - intros reply H1. by apply (H _ H1), Hrefl.
  - intros reply H1. by apply (H _ H1), Hrefl.
Qed.

Lemma wp_mono {A} i (p : prog A) (S S' : World → Prop) (Q Q' : A → World → Prop) w :
  wp i p S Q w → (∀ w', Inv w' → S w' → S' w') → (∀ a w', Inv w' → Q a w' → Q' a w') →
  wp i p S' Q' w.
Proof.
  intros H HS HQ. revert w H. induction p as [a|key body cond k IH|key k IH|key k IH]; simpl; intros w H.
  - intros w1 He. apply HQ; [apply He|by apply H].
  - intros w1 reply w2 He Hp Hn. destruct (H _ _ _ He Hp Hn) as (? & ? & ?). split_and!; auto.
  - intros. apply IH. by eapply H.
  - intros. apply IH. by eapply H.
Qed.

Lemma wp_bind {A B} i (p : prog A) (f : A → prog B) S Q w :
  wp i p S (λ a, wp i (f a) S Q) w → wp i (prog_bind p f) S Q w.
Proof.
  revert w. induction p as [a|key body cond k IH|key k IH|key k IH]; simpl; intros w H.
  - by apply wp_wait.
  - intros w1 reply w2 He Hp Hn. destruct (H _ _ _ He Hp Hn) as (? & ? & ?). split_and!; auto.
  - intros. apply IH. by eapply H.
  - intros. apply IH. by eapply H.
Qed.

(** A program that is dropped keeps what it kept all along. *)
Lemma wp_cut {A} i n (p : prog A) S Q w :
  (∀ w1 w2, env i w1 w2 → S w1 → S w2) → S w → wp i p S Q w →
  wp i (cut n p) S (λ r w', match r with Some a => Q a w' | None => S w' end) w.
Proof.
  intros HS. revert n w. induction p as [a|key body cond k IH|key k IH|key k IH]; intros n w Hw H.
  - by destruct n as [[]|].
  - destruct n as [[|n]|]; simpl in *; [by intros w1 He; eapply HS| |];
      intros w1 reply w2 He Hp Hn; destruct (H _ _ _ He Hp Hn) as (? & ? & ?); split_and!; auto.
  - destruct n as [[|n]|]; simpl in *; [by intros w1 He; eapply HS| |]; intros; apply IH; eauto.
  - destruct n as [[|n]|]; simpl in *; [by intros w1 He; eapply HS| |]; intros; apply IH; eauto.
Qed.

Lemma no_collision_app w l : no_collision (w ++ l) → no_collision w.
Proof. intros H a b Ha Hb. apply H; set_solver. Qed.

Lemma put_result_app i key body cond w reply w' :
  put_result i key body cond w reply w' → ∃ a, w' = w ++ [a] ∧ a_author a = i.
Proof. by destruct 1; eexists. Qed.

Section soundness.
Context {Req Out : Type} (program : Req → prog Out) (post : Req → nat → nat → Out → World → Prop).
Hypothesis inv_nil : Inv [].
Hypothesis program_wp : ∀ r i w,
  Inv w → Forall (λ a, a_author a ≠ i) w → wp i (program r) (λ _, True) (post r i (length w)) w.

Record sys_inv (s : Sys Req Out) : Prop := {
  si_inv : Inv (world s);
  si_authors : Forall (λ a, (a_author a < length (procs s))%nat) (world s);
  si_procs i pr : procs s !! i = Some pr → wp i (p_prog pr) (λ _, True) (post (p_req pr) i (p_start pr)) (world s);
}.

Lemma exec_wp {A} i (p p' : prog A) w w' S Q :
  exec i p w p' w' → Inv w → no_collision w' → wp i p S Q w →
  Inv w' ∧ wp i p' S Q w' ∧ ∃ l, w' = w ++ l ∧ Forall (λ a, a_author a = i) l.
Proof.
  intros [key body cond k w0 reply w1 Hp|key k w0 reply Hr|key k w0 reply Hr] Hi Hn Hwp; simpl in Hwp.
  - destruct (Hwp _ _ _ (env_refl i _ Hi) Hp Hn) as (? & _ & ?). split_and!; [done|done|].
    apply put_result_app in Hp as (a & -> & Ha). exists [a]. by repeat constructor.
  - split_and!; [done|by eapply Hwp; [apply env_refl|]|]. exists []. by rewrite app_nil_r.
  - split_and!; [done|by eapply Hwp; [apply env_refl|]|]. exists []. by rewrite app_nil_r.
Qed.

Lemma sys_inv_step s s' : sys_inv s → sys_step program s s' → no_collision (world s') → sys_inv s'.
Proof.
  intros [Hi Ha Hp] Hstep Hn. destruct Hstep as [s r|s i pr p' w' Hi' He]; simpl in *.
  - split; simpl; [done| |].
    + eapply Forall_impl; [exact Ha|]. simpl. intros a ?. rewrite length_app. simpl. lia.
    + intros i pr [H|[Hlen H]]%lookup_app_Some; [by apply Hp|].
      apply list_lookup_singleton_Some in H as [Hz <-]. apply program_wp; [done|].
      eapply Forall_impl; [exact Ha|]. simpl. lia.
  - destruct (exec_wp _ _ _ _ _ _ _ He Hi Hn (Hp _ _ Hi')) as (Hinv & Hwp & l & Hl & Hauth).
    pose proof (lookup_lt_Some _ _ _ Hi') as Hlt. split; simpl; [done| |].
    + rewrite length_insert, Hl. apply Forall_app. split; [done|].
      eapply Forall_impl; [exact Hauth|]. simpl. intros a ->. done.
    + intros j pr' [(-> & <- & _)|[Hne Hj]]%list_lookup_insert_Some; [done|].
      eapply wp_env; [by apply Hp|]. split; [done|]. exists l. split; [done|].
      eapply Forall_impl; [exact Hauth|]. simpl. congruence.
Qed.

(** Every reachable system whose bodies do not collide keeps the invariant, and
    whatever has finished satisfies its postcondition. *)
Lemma wp_sound s :
  sys_reachable program s → no_collision (world s) →
  Inv (world s) ∧ ∀ i r start a,
    procs s !! i = Some (Build_Proc r start (Ret a)) → post r i start a (world s).
Proof.
  intros Hr Hn. assert (sys_inv s) as [Hi _ Hp].
  { induction Hr as [|s s' Hr IH Hstep]; [split; simpl; [done|constructor|done]|].
    eapply sys_inv_step; [|exact Hstep|done]. apply IH.
    destruct Hstep as [|s i pr p' w' Hi He]; simpl in *; [done|].
    destruct He as [? ? ? ? ? ? w1 Hp| | ]; [|done|done].
    apply put_result_app in Hp as (a & -> & _). by eapply no_collision_app. }
  split; [done|]. intros i r start a H. apply (Hp _ _ H). by apply env_refl.
Qed.
End soundness.
End logic.
