(* ===== verification/GitPublish.v ===== *)
(** * Hosted repositories: the handlers that read and move the pointer

    [crates/buzz-relay/src/api/git]: [load_pointer] and the hydration of
    [hydrate.rs], [cas_publish] of [cas_publish.rs], [finalize_push] of
    [transport.rs], the default branch of [settings.rs], and the seeding of a new
    repository's pointer in [handlers/side_effects.rs], as programs over the
    bucket of [GitStore].

    What [git] does in the ephemeral workspace is the [Workspace] a push ends up
    with; the community's serving lease and the publication of the ref-state event
    are outcomes ([Lease]); of the pack cache only hits and misses are modelled.
    Error texts, logging and metrics are left out. *)

From stdpp Require Import base gmap strings list.
From Stdlib Require Import ZArith Lia Ascii.
From S2P Require Import Prelude Text GitManifest GitWire GitStore.

Local Open Scope list_scope.

(** ** Reading *)

Inductive HydrateError :=
  | InvalidPointer
  | HManifest (e : ManifestError)
  | HStore (e : StoreError)
  | Hydrate
  | HResourceLimit.

Definition MAX_MANIFEST_BYTES : Z := 4 * 1024 * 1024.

Definition is_hex64 (digest : string) : bool :=
  bool_decide (String.length digest = 64%nat) && chars_all is_ascii_hexdigit digest.

Record HydrationOptions := {
  pack_cache : string → option string;   (** the packs the cache holds, by digest *)
  index_ok : string → bool;              (** whether [git index-pack] accepts a pack *)
  scratch_ok : bool;                     (** tempdir and [git init] succeed *)
  max_pack_bytes : Z;
  max_repo_bytes : Z;
}.

(** The ephemeral bare repository: what was written into it. *)
Record HydratedRepo := {
  hr_refs : gmap string string;
  hr_head : string;
  hr_packs : list string;
  hydrated_bytes : Z;
}.

Record ParentState := {
  if_match : option string;
  parent_digest : option string;
  ps_parent : Manifest;
}.

Definition fresh : ParentState := {|
  if_match := None; parent_digest := None;
  ps_parent := {| m_version := MANIFEST_VERSION; m_head := ""; m_refs := ∅; m_packs := []; m_parent := None |} |}.

Definition from_loaded (etag digest : string) (parent : Manifest) : ParentState :=
  {| if_match := Some etag; parent_digest := Some digest; ps_parent := parent |}.

Section read.
Context `{GO : GitOps}.

Definition hydrate_get (key digest : string) (max_bytes : Z) : PE HydrateError string :=
  map_err (λ e, match e with ObjectTooLarge _ _ _ => HResourceLimit | e => HStore e end)
    (get_verified_limited key digest max_bytes).

Definition load_pointer (pkey : string) : PE HydrateError (option (string * string * Manifest)) :=
  p ← map_err HStore (get_pointer pkey);
  match p with
  | None => ok None
  | Some (etag, pointer_bytes) =>
      let digest := trim pointer_bytes in
      if negb (is_hex64 digest) then throw InvalidPointer
      else
        manifest_bytes ← hydrate_get ("manifests/" +:+ digest)%stdpp digest MAX_MANIFEST_BYTES;
        match from_bytes manifest_bytes with
        | Err e => throw (HManifest e)
        | Ok manifest =>
            match validate manifest with
            | Err e => throw (HManifest e)
            | Ok _ => ok (Some (etag, digest, manifest))
            end
        end
  end.

(** [GitPackCache::materialize_pack]: the verified bytes of a pack. *)
Definition materialize_pack (options : HydrationOptions) (key digest : string) : PE HydrateError string :=
  if negb (is_hex64 digest) then throw Hydrate
  else
    match pack_cache options digest with
    | Some bytes => ok bytes
    | None =>
        bytes ← hydrate_get key digest (max_pack_bytes options);
        if index_ok options bytes then ok bytes else throw Hydrate
    end.

(** Phase 1: one pack at a time. *)
Fixpoint fetch_packs (options : HydrationOptions) (keys : list string) (total : Z) (packs : list string)
    : PE HydrateError (list string * Z) :=
  match keys with
  | [] => ok (packs, total)
  | key :: rest =>
      match strip_prefix "packs/" key with
      | None => throw Hydrate
      | Some digest =>
          bytes ← materialize_pack options key digest;
          if bool_decide (max_pack_bytes options < str_len bytes)%Z then throw HResourceLimit
          else if bool_decide (u64_max < total + str_len bytes)%Z then throw HResourceLimit
          else if bool_decide (max_repo_bytes options < total + str_len bytes)%Z then throw HResourceLimit
          else fetch_packs options rest (total + str_len bytes)%Z (packs ++ [bytes])
      end
  end.

(** Phase 2: the loose refs, in order. *)
Fixpoint install_refs (entries : list (string * string)) : result HydrateError unit :=
  match entries with
  | [] => Ok tt
  | (refname, oid) :: rest =>
      if negb (is_safe_refname refname) then Err Hydrate
      else if negb (is_hex_oid oid) then Err Hydrate
      else install_refs rest
  end.

Definition materialize_manifest (options : HydrationOptions) (manifest : Manifest)
    : PE HydrateError HydratedRepo :=
  if negb (scratch_ok options) then throw Hydrate
  else
    r ← fetch_packs options (m_packs manifest) 0 [];
    _ ← pe_lift (install_refs (btree_entries (m_refs manifest)));
    if negb (is_safe_refname (m_head manifest)) then throw Hydrate
    else ok {| hr_refs := m_refs manifest; hr_head := m_head manifest; hr_packs := r.1; hydrated_bytes := r.2 |}.

Definition hydrate_for_read (pkey : string) (options : HydrationOptions)
    : PE HydrateError (option HydratedRepo) :=
  p ← load_pointer pkey;
  match p with
  | None => ok None
  | Some (_, _, manifest) => r ← materialize_manifest options manifest; ok (Some r)
  end.

Definition hydrate_for_write (pkey : string) (options : HydrationOptions)
    : PE HydrateError (HydratedRepo * ParentState) :=
  p ← load_pointer pkey;
  match p with
  | Some (etag, digest, manifest) =>
      r ← materialize_manifest options manifest;
      ok (r, from_loaded etag digest manifest)
  | None =>
      if negb (scratch_ok options) then throw Hydrate
      else ok ({| hr_refs := ∅; hr_head := DEFAULT_HEAD; hr_packs := []; hydrated_bytes := 0 |}, fresh)
  end.
End read.

(** ** Publishing a push *)

Inductive CasError :=
  | Conflict (winner_manifest : Manifest) (winner_manifest_key : string)
  | ManifestReadFailed
  | ManifestInvalid (e : ManifestError)
  | CasBackend (e : StoreError)
  | PackCapture
  | ResourceLimit.

(** How the [git] run of a compaction fails: outright, or over the object limit. *)
Inductive CompactFailure := CompactFailed | TooManyObjects.

(** The workspace after [receive-pack]: what the [git] subprocesses answer, [None]
    or an error when one fails.  [compact] is the run of [pack-objects] that writes
    bounded packs, each with its index; [op_cut] is the request before which the
    ten-minute limit on compaction strikes, if it does. *)
Record Workspace := {
  for_each_ref : option string;
  symbolic_ref : option (option string);
  pack_objects : string → option string;
  compact : string → result CompactFailure (list (string * string));
  compaction_permit : bool;
  op_cut : option nat;
  index_pack : string → option string;
}.

Record PublishLimits := { parent_hydrated_bytes : Z; pl_max_pack_bytes : Z; pl_max_repo_bytes : Z }.

Record CasSuccess := { cs_manifest : Manifest; cs_manifest_key : string }.

Definition MAX_REF_SNAPSHOT_BYTES : Z := 4 * 1024 * 1024.

Fixpoint snapshot_refs (refs_lines : list string) (refs : gmap string string)
    : result CasError (gmap string string) :=
  match refs_lines with
  | [] => Ok refs
  | line :: rest =>
      match split_once " "%char line with
      | None => snapshot_refs rest refs
      | Some (name, oid) =>
          if negb (bool_decide (String.length oid = 40%nat)) || negb (chars_all is_ascii_hexdigit oid)
          then snapshot_refs rest refs
          else if bool_decide (MAX_MANIFEST_REFS ≤ Z.of_nat (size refs))%Z
                  && bool_decide (refs !! name = None)
          then Err ResourceLimit
          else snapshot_refs rest (<[name := oid]> refs)
      end
  end.

Definition snapshot_workspace_state (ws : Workspace) : result CasError (gmap string string * string) :=
  match for_each_ref ws with
  | None => Err PackCapture
  | Some refs_stdout =>
      if bool_decide (MAX_REF_SNAPSHOT_BYTES < str_len refs_stdout)%Z then Err ResourceLimit
      else
        refs ← snapshot_refs (lines (default "" (from_utf8 refs_stdout))) ∅;
        match symbolic_ref ws with
        | None => Err PackCapture
        | Some (Some stdout) => Ok (refs, trim stdout)
        | Some None => Ok (refs, "")
        end
  end.

Definition nl : string := String (ascii_of_nat 10) "".

(** The oids of the refs, one per line. *)
Definition oid_lines (prefix : string) (oids : list string) : string :=
  foldr (λ oid acc, prefix +:+ oid +:+ nl +:+ acc)%stdpp "" oids.

Definition capture_pack (ws : Workspace) (refs_before refs_after : gmap string string)
    (max_pack : Z) : result CasError (option string) :=
  if bool_decide (refs_after = ∅) then Ok None
  else
    let stdin := (oid_lines "" (btree_entries refs_after).*2
                  +:+ oid_lines "^" (btree_entries refs_before).*2)%stdpp in
    match pack_objects ws stdin with
    | None => Err PackCapture
    | Some out =>
        if bool_decide (max_pack < str_len out)%Z then Err ResourceLimit
        else if bool_decide (out = "") then Ok None else Ok (Some out)
    end.

(** [seen_oids.insert(oid)] keeps the first of each. *)
Fixpoint first_seen (seen oids : list string) : list string :=
  match oids with
  | [] => []
  | oid :: rest =>
      if bool_decide (oid ∈ seen) then first_seen seen rest else oid :: first_seen (oid :: seen) rest
  end.

Fixpoint check_compacted (limits : PublishLimits) (packs : list (string * string)) (total : Z)
    : result CasError Z :=
  match packs with
  | [] => Ok total
  | (pack, idx) :: rest =>
      if bool_decide (pl_max_pack_bytes limits < str_len pack)%Z then Err ResourceLimit
      else if bool_decide (u64_max < total + str_len pack)%Z then Err ResourceLimit
      else if bool_decide (pl_max_repo_bytes limits < total + str_len pack)%Z then Err ResourceLimit
      else if bool_decide (pl_max_pack_bytes limits < str_len idx)%Z then Err ResourceLimit
      else check_compacted limits rest (total + str_len pack)%Z
  end.

Definition capture_compacted_packs (ws : Workspace) (refs_after : gmap string string)
    (limits : PublishLimits) : result CasError (list (string * string)) :=
  if bool_decide (refs_after = ∅) then Ok []
  else
    packs ←
      match compact ws (oid_lines "" (first_seen [] (btree_entries refs_after).*2)) with
      | Ok packs => Ok packs
      | Err CompactFailed => Err PackCapture
      | Err TooManyObjects => Err ResourceLimit
      end;
    if (MAX_MANIFEST_PACKS <? length packs)%nat then Err ResourceLimit
    else (_ ← check_compacted limits packs 0; Ok packs).

Section publish.
Context `{GO : GitOps}.

Definition digest_from_pack_key (key : string) : result CasError string :=
  match strip_prefix "packs/" key with
  | Some digest => if is_hex64 digest then Ok digest else Err (CasBackend StoreBackend)
  | None => Err (CasBackend StoreBackend)
  end.

Definition digest_from_manifest_key (key : string) : result CasError string :=
  match strip_prefix "manifests/" key with
  | Some digest => Ok digest
  | None => Err (CasBackend StoreBackend)
  end.

(** Whether the index sidecar was written is not looked at. *)
Fixpoint upload_compacted_packs (packs : list (string * string)) (keys : list string)
    : PE CasError (list string) :=
  match packs with
  | [] => ok (sort_dedup keys)
  | (pack, idx) :: rest =>
      pack_key ← map_err CasBackend (put_pack pack);
      pack_digest ← pe_lift (digest_from_pack_key pack_key);
      prog_bind (put_idx pack_digest idx) (λ _, upload_compacted_packs rest (keys ++ [pack_key]))
  end.

Definition prepare_compaction (ws : Workspace) (refs_after : gmap string string) (limits : PublishLimits)
    (packs_before : nat) : PE CasError (list string) :=
  compacted ← pe_lift (capture_compacted_packs ws refs_after limits);
  if negb (compacted_pack_set_is_usable packs_before (length compacted)) then throw ResourceLimit
  else upload_compacted_packs compacted [].

Definition write_idx_sidecar (ws : Workspace) (pack_key pack_bytes : string) : PE CasError unit :=
  pack_digest ← pe_lift (digest_from_pack_key pack_key);
  match index_pack ws pack_bytes with
  | None => throw PackCapture
  | Some idx_bytes => _ ← map_err CasBackend (put_idx pack_digest idx_bytes); ok tt
  end.

Definition read_winner_after_conflict (pkey : string) : PE CasError (Manifest * string) :=
  p ← map_err CasBackend (get_pointer pkey);
  match p with
  | None => throw ManifestReadFailed
  | Some (_, body) =>
      let digest := trim body in
      if negb (is_hex64 digest) then throw ManifestReadFailed
      else
        let manifest_key := ("manifests/" +:+ digest)%stdpp in
        bytes ← map_err (λ e, match e with
                              | DigestMismatch _ _ _ | NotFound _ => ManifestReadFailed
                              | other => CasBackend other
                              end) (get_verified manifest_key digest);
        match from_bytes bytes with
        | Err _ => throw ManifestReadFailed
        | Ok winner => ok (winner, manifest_key)
        end
  end.

(** The outcome of the compaction attempt: the manifest it makes, or its failure. *)
Definition try_compaction (ws : Workspace) (parent_state : ParentState) (limits : PublishLimits)
    (threshold : nat) (refs_after : gmap string string) (head : string)
    : prog (option (result CasError Manifest)) :=
  let packs_before := length (m_packs (ps_parent parent_state)) in
  if should_compact packs_before threshold then
    if compaction_permit ws then
      prog_bind (cut (op_cut ws) (prepare_compaction ws refs_after limits packs_before)) (λ r,
        Ret (Some match r with
             | Some (Ok pack_keys) =>
                 Ok (compose_compacted_after (parent_digest parent_state) head refs_after pack_keys)
             | Some (Err e) => Err e
             | None => Err PackCapture
             end))
    else Ret (Some (Err PackCapture))
  else Ret None.

Definition publish_delta (ws : Workspace) (parent_state : ParentState) (limits : PublishLimits)
    (refs_after : gmap string string) (head : string) (compaction_failure : option CasError)
    : PE CasError Manifest :=
  pack_bytes ← pe_lift (capture_pack ws (m_refs (ps_parent parent_state)) refs_after (pl_max_pack_bytes limits));
  new_pack_key ←
    match pack_bytes with
    | None => ok None
    | Some bytes =>
        if (MAX_MANIFEST_PACKS <=? length (m_packs (ps_parent parent_state)))%nat
        then throw (default ResourceLimit compaction_failure)
        else if bool_decide (u64_max < parent_hydrated_bytes limits + str_len bytes)%Z then throw ResourceLimit
        else if bool_decide (pl_max_repo_bytes limits < parent_hydrated_bytes limits + str_len bytes)%Z
        then throw ResourceLimit
        else
          pack_key ← map_err CasBackend (put_pack bytes);
          prog_bind (write_idx_sidecar ws pack_key bytes) (λ _, ok (Some pack_key))
    end;
  ok (compose_after (ps_parent parent_state) (parent_digest parent_state) head refs_after new_pack_key).

(** The commit: validate, write the manifest, swap the pointer. *)
Definition commit_manifest (pkey : string) (parent_state : ParentState) (m_after : Manifest)
    : PE CasError CasSuccess :=
  match validate m_after with
  | Err e => throw (ManifestInvalid e)
  | Ok _ =>
      manifest_key ← map_err CasBackend (put_manifest (canonical_bytes m_after));
      manifest_digest ← pe_lift (digest_from_manifest_key manifest_key);
      let precond := match if_match parent_state with Some e => IfMatch e | None => IfNoneMatchStar end in
      cas_outcome ← map_err CasBackend (put_pointer pkey manifest_digest precond);
      match cas_outcome with
      | Won _ => ok {| cs_manifest := m_after; cs_manifest_key := manifest_key |}
      | LostRace =>
          winner ← read_winner_after_conflict pkey;
          throw (Conflict winner.1 winner.2)
      end
  end.

Definition cas_publish_inner (pkey : string) (ws : Workspace) (parent_state : ParentState)
    (limits : PublishLimits) (compaction_threshold : nat) : PE CasError CasSuccess :=
  snapshot ← pe_lift (snapshot_workspace_state ws);
  let refs_after := snapshot.1 in
  let head := resolve_published_head refs_after snapshot.2 (m_head (ps_parent parent_state)) in
  prog_bind (try_compaction ws parent_state limits compaction_threshold refs_after head) (λ compaction,
    m_after ←
      match compaction with
      | Some (Ok manifest) => ok manifest
      | Some (Err failure) => publish_delta ws parent_state limits refs_after head (Some failure)
      | None => publish_delta ws parent_state limits refs_after head None
      end;
    commit_manifest pkey parent_state m_after).

Definition cas_publish (pkey : string) (ws : Workspace) (parent_state : ParentState)
    (limits : PublishLimits) : PE CasError CasSuccess :=
  cas_publish_inner pkey ws parent_state limits PACK_COMPACTION_THRESHOLD.
End publish.

(** ** The push handler *)

(** The repository a request names. *)
Record RepoAddress := { community : string; owner : string; repo_name : string }.
Definition address_key (a : RepoAddress) : string := pointer_key (community a) (owner a) (repo_name a).

(** What the community's serving lease does during a request: whether it is
    granted and found valid, the request to the bucket before which its loss is
    noticed, if it is, and whether it is valid when the operation is over. *)
Record Lease := {
  acquired : bool;
  verified : bool;
  lost_at : option nat;
  still_held : bool;
  finished : bool;
}.

(** [ServingWrite::protect] *)
Definition protect {A} (lease : Lease) (operation : prog A) : PE unit A :=
  if negb (verified lease) then throw tt
  else prog_bind (cut (lost_at lease) operation) (λ r,
    match r with
    | None => throw tt
    | Some a => if still_held lease then ok a else throw tt
    end).

(** What [receive-pack] leaves behind for a hydrated repository. *)
Record Received := {
  pack_stdout : string;
  exit_success : bool;
  workspace : Workspace;
}.
Definition pack_ok (r : Received) : bool :=
  exit_success r && negb (receive_pack_report_rejected (pack_stdout r)).

Inductive PushResponse :=
  | GitResponse (stdout : string)
  | ServiceUnavailable
  | HttpConflict
  | BadRequest
  | PayloadTooLarge
  | InternalServerError.

Record PushRequest := {
  push_repo : RepoAddress;
  push_options : HydrationOptions;
  push_git : HydratedRepo → option Received;  (** [None]: the hook or the subprocess failed *)
  push_lease : Lease;
  push_publication_ok : bool;                 (** the ref-state event was built and stored *)
}.

Definition push_pkey (req : PushRequest) : string := address_key (push_repo req).

Section handlers.
Context `{GO : GitOps}.

(** What [finalize_push] does once the pointer has moved. *)
Definition after_commit (req : PushRequest) (received : Received) (parent_state : ParentState)
    (success : CasSuccess) : PushResponse :=
  let manifest_changed :=
    match parent_digest parent_state, strip_prefix "manifests/" (cs_manifest_key success) with
    | Some before, Some after => negb (bool_decide (before = after))
    | _, _ => true
    end in
  let publication_result := if manifest_changed then push_publication_ok req else true in
  if negb (finished (push_lease req)) then ServiceUnavailable
  else if negb publication_result then InternalServerError
  else GitResponse (pack_stdout received).

Definition finalize_push (req : PushRequest) (repo : HydratedRepo) (parent_state : ParentState)
    (received : Received) : prog PushResponse :=
  if negb (pack_ok received) then Ret (GitResponse (pack_stdout received))
  else if negb (acquired (push_lease req)) then Ret ServiceUnavailable
  else if negb (verified (push_lease req)) then Ret ServiceUnavailable
  else
    let limits := {| parent_hydrated_bytes := hydrated_bytes repo;
                     pl_max_pack_bytes := max_pack_bytes (push_options req);
                     pl_max_repo_bytes := max_repo_bytes (push_options req) |} in
    prog_bind (protect (push_lease req) (cas_publish (push_pkey req) (workspace received) parent_state limits))
      (λ r, Ret
        match r with
        | Err _ => ServiceUnavailable
        | Ok (Ok success) => after_commit req received parent_state success
        | Ok (Err (Conflict _ _)) => HttpConflict
        | Ok (Err (ManifestInvalid _)) => BadRequest
        | Ok (Err ResourceLimit) => PayloadTooLarge
        | Ok (Err _) => InternalServerError
        end).

Definition receive_pack (req : PushRequest) : prog PushResponse :=
  prog_bind (hydrate_for_write (push_pkey req) (push_options req)) (λ r,
    match r with
    | Err HResourceLimit => Ret PayloadTooLarge
    | Err _ => Ret InternalServerError
    | Ok (repo, parent_state) =>
        match push_git req repo with
        | None => Ret InternalServerError
        | Some received => finalize_push req repo parent_state received
        end
    end).

(** ** The default branch *)

Inductive SetResponse :=
  | SetDone (digest : string) (changed : bool)
  | SetNotFound
  | SetConflict
  | SetBadRequest
  | SetBackend
  | SetUnavailable.

Record SetRequest := {
  set_repo : RepoAddress;
  branch : string;
  expected_manifest : string;
  set_lease : Lease;
  set_publication_ok : bool;
}.

Definition set_pkey (req : SetRequest) : string := address_key (set_repo req).

Definition invalid_branch (b : string) : bool :=
  bool_decide (b = "") || bool_decide (1024 < str_len b)%Z || starts_with b "-"
  || negb (is_safe_refname ("refs/heads/" +:+ b)%stdpp) || ends_with b "."
  || existsb (λ part, starts_with part "." || ends_with part ".lock") (split_on "/"%char b).

Definition set_head (head digest : string) (m : Manifest) : Manifest := {|
  m_version := m_version m; m_head := head; m_refs := m_refs m; m_packs := m_packs m;
  m_parent := Some digest |}.

(** [DefaultBranchSnapshot::set], on the snapshot [(etag, digest, manifest)]. *)
Definition snapshot_set (pkey etag digest : string) (manifest : Manifest) (req : SetRequest)
    : PE SetResponse (string * bool) :=
  if negb (bool_decide (digest = expected_manifest req)) then throw SetConflict
  else
    let head := ("refs/heads/" +:+ branch req)%stdpp in
    if invalid_branch (branch req) then throw SetBadRequest
    else if negb (bool_decide (is_Some (m_refs manifest !! head))) then throw SetBadRequest
    else
      let changed := negb (bool_decide (m_head manifest = head)) in
      new_digest ←
        (if changed then
           let m := set_head head digest manifest in
           match validate m with
           | Err _ => throw SetBackend
           | Ok _ =>
               key ← map_err (λ _, SetBackend) (put_manifest (canonical_bytes m));
               match strip_prefix "manifests/" key with
               | None => throw SetBackend
               | Some d => ok d
               end
           end
         else ok digest);
      outcome ← map_err (λ _, SetBackend) (put_pointer pkey new_digest (IfMatch etag));
      match outcome with
      | Won _ => ok (new_digest, changed)
      | LostRace => throw SetConflict
      end.

Definition set_default_branch (req : SetRequest) : prog SetResponse :=
  prog_bind (load_pointer (set_pkey req)) (λ p,
    match p with
    | Err _ => Ret SetBackend
    | Ok None => Ret SetNotFound
    | Ok (Some (etag, digest, manifest)) =>
        if negb (acquired (set_lease req)) then Ret SetUnavailable
        else if negb (verified (set_lease req)) then Ret SetBackend
        else
          prog_bind (protect (set_lease req) (snapshot_set (set_pkey req) etag digest manifest req)) (λ r, Ret
            match r with
            | Err _ => SetBackend
            | Ok (Err response) => response
            | Ok (Ok (new_digest, changed)) =>
                if negb (finished (set_lease req)) then SetBackend
                else if changed && negb (set_publication_ok req) then SetBackend
                else SetDone new_digest changed
            end)
    end).

(** ** Seeding a new repository *)

Definition seed_manifest_pointer (pkey : string) : PE unit unit :=
  match validate empty_manifest with
  | Err _ => throw tt
  | Ok _ =>
      manifest_key ← map_err (λ _, tt) (put_manifest (canonical_bytes empty_manifest));
      match strip_prefix "manifests/" manifest_key with
      | None => throw tt
      | Some digest =>
          outcome ← map_err (λ _, tt) (put_pointer pkey digest IfNoneMatchStar);
          match outcome with
          | Won _ => ok tt
          | LostRace =>
              p ← map_err (λ _, tt) (get_pointer pkey);
              match p with
              | None => throw tt
              | Some (_, body) => if bool_decide (trim body = digest) then ok tt else throw tt
              end
          end
      end
  end.

Definition ensure_manifest_pointer (pkey : string) : PE unit unit :=
  existing ← map_err (λ _, tt) (get_pointer pkey);
  match existing with
  | Some _ => ok tt
  | None => seed_manifest_pointer pkey
  end.

(** ** Requests *)

Inductive Request :=
  | PushR (req : PushRequest)
  | SetR (req : SetRequest)
  | SeedR (repo : RepoAddress)
  | EnsureR (repo : RepoAddress)
  | ReadR (repo : RepoAddress) (options : HydrationOptions).

Inductive Outcome :=
  | PushDone (r : PushResponse)
  | SetOutcome (r : SetResponse)
  | SeedDone (r : result unit unit)
  | ReadDone (r : result HydrateError (option HydratedRepo)).

Definition request_key (r : Request) : string :=
  match r with
  | PushR req => push_pkey req
  | SetR req => set_pkey req
  | SeedR a | EnsureR a | ReadR a _ => address_key a
  end.

Definition handle (r : Request) : prog Outcome :=
  match r with
  | PushR req => prog_bind (receive_pack req) (λ a, Ret (PushDone a))
  | SetR req => prog_bind (set_default_branch req) (λ a, Ret (SetOutcome a))
  | SeedR repo => prog_bind (seed_manifest_pointer (address_key repo)) (λ a, Ret (SeedDone a))
  | EnsureR repo => prog_bind (ensure_manifest_pointer (address_key repo)) (λ a, Ret (SeedDone a))
  | ReadR repo options => prog_bind (hydrate_for_read (address_key repo) options) (λ a, Ret (ReadDone a))
  end.
End handlers.
