(* ===== verification/GitHistory.v ===== *)
(** * Hosted repositories: one linear history per repository

    Any number of pushes, default-branch changes, seedings and reads, of any
    relays, run interleaved on one bucket.  [good] is the invariant of the bucket:
    content-addressed objects are what their keys say and are never overwritten,
    and every pointer write publishes a complete manifest on top of the one the
    pointer held.  From it: no lost update, a truthful answer to every push, and
    consistent reads. *)

From stdpp Require Import base gmap strings list.
From Stdlib Require Import ZArith Lia Ascii.
From S2P Require Import Prelude Text GitManifest GitWire GitStore GitPublish.

Local Open Scope list_scope.

Section history.
Context `{GL : GitLaws}.

(** ** The invariant *)

Definition pack_key (d : string) : string := ("packs/" +:+ d)%stdpp.
Definition manifest_key (d : string) : string := ("manifests/" +:+ d)%stdpp.
Definition immutable (key : string) : Prop := ∃ d, key = pack_key d ∨ key = manifest_key d.
Definition is_pointer (key : string) : Prop := starts_with key "repos/" = true.

(** A manifest that is complete in the bucket under a digest. *)
Definition published (w : World) (d : string) (m : Manifest) : Prop :=
  (∃ e, current (manifest_key d) w = Some (e, canonical_bytes m)) ∧
  is_canonical m ∧ m_version m = MANIFEST_VERSION ∧ manifest_ok m ∧
  ∀ k, k ∈ m_packs m → is_Some (current k w).

(** A pointer write: the first publishes a root, a later one a child of what the
    pointer held, or what it held again. *)
Definition commit_ok (w : World) (key body : string) : Prop :=
  ∃ m, published w body m ∧
    match current key w with
    | None => m_parent m = None
    | Some (_, prev) => body = prev ∨ m_parent m = Some prev
    end.

Definition access_ok (w : World) (a : Access) : Prop :=
  ∀ e, a_etag a = Some e →
    etag_fits w (a_key a) (a_body a) e ∧
    (∀ d, a_key a = pack_key d ∨ a_key a = manifest_key d →
       sha256_hex (a_body a) = d ∧ current (a_key a) w = None) ∧
    (is_pointer (a_key a) → commit_ok w (a_key a) (a_body a)).

Inductive good : World → Prop :=
  | good_nil : good []
  | good_snoc w a : good w → access_ok w a → good (w ++ [a]).

Lemma good_snoc_inv w a : good (w ++ [a]) → good w ∧ access_ok w a.
Proof. inversion 1 as [Hn|w' a' Hg Ha Heq]; [by destruct w|]. by apply app_inj_2 in Heq as [-> [= ->]]. Qed.

Lemma good_app w l : good (w ++ l) → good w.
Proof.
  induction l as [|a l IH] using rev_ind; [by rewrite app_nil_r|]. rewrite app_assoc.
  intros [H _]%good_snoc_inv. auto.
Qed.

(** ** Lemmas: the bucket *)

Lemma current_snoc key w a :
  current key (w ++ [a]) = match effect_on key a with Some x => Some x | None => current key w end.
Proof.
  unfold current. rewrite omap_app. simpl. destruct (effect_on key a); simpl; [apply last_snoc|by rewrite app_nil_r].
Qed.

Lemma effect_on_Some key a e b :
  effect_on key a = Some (e, b) ↔ a_key a = key ∧ a_etag a = Some e ∧ a_body a = b.
Proof.
  unfold effect_on. case_bool_decide; [|naive_solver]. destruct (a_etag a); simpl; naive_solver.
Qed.

Lemma current_elem key w e b :
  current key w = Some (e, b) → ∃ a, a ∈ w ∧ a_key a = key ∧ a_etag a = Some e ∧ a_body a = b.
Proof.
  unfold current. intros (a & Ha & He)%last_Some_elem_of%list_elem_of_omap.
  apply effect_on_Some in He. by exists a.
Qed.

Lemma pack_key_inj d d' : pack_key d = pack_key d' → d = d'.
Proof. by injection 1. Qed.
Lemma manifest_key_inj d d' : manifest_key d = manifest_key d' → d = d'.
Proof. by injection 1. Qed.

Lemma immutable_current_digest w key e b d :
  good w → current key w = Some (e, b) → key = pack_key d ∨ key = manifest_key d → sha256_hex b = d.
Proof.
  intros Hg. revert e b. induction Hg as [|w a Hg IH Ha]; intros e b; [done|]. rewrite current_snoc.
  destruct (effect_on key a) as [[e' b']|] eqn:He; [|apply IH].
  intros [= -> ->] Hk. apply effect_on_Some in He as (<- & He & <-). by destruct (Ha _ He) as (_ & Hd & _); apply Hd.
Qed.

(** An object once written stays what it is. *)
Lemma immutable_persists w l key x :
  good (w ++ l) → immutable key → current key w = Some x → current key (w ++ l) = Some x.
Proof.
  intros Hg (d & Hk) Hc. induction l as [|a l IH] using rev_ind; [by rewrite app_nil_r|].
  rewrite app_assoc in Hg |- *. apply good_snoc_inv in Hg as [Hg Ha]. specialize (IH Hg).
  rewrite current_snoc. destruct (effect_on key a) as [[e b]|] eqn:He; [|done].
  apply effect_on_Some in He as (Hkey & He & _). destruct (Ha _ He) as (_ & Hd & _).
  rewrite Hkey, IH in Hd. by destruct (Hd d Hk).
Qed.

Lemma published_persists w l d m : good (w ++ l) → published w d m → published (w ++ l) d m.
Proof.
  intros Hg ([e He] & Hc & Hv & Hok & Hp). split_and!; [|done|done|done|].
  - exists e. apply immutable_persists; [done|by exists d; right|done].
  - intros k Hk. destruct (Hp k Hk) as [x Hx]. exists x. apply immutable_persists; [done| |done].
    destruct Hok as (_ & _ & _ & _ & _ & Hpk & _). rewrite Forall_forall in Hpk. specialize (Hpk k Hk).
    unfold is_pack_key in Hpk. destruct (strip_prefix "packs/" k) as [d'|] eqn:Hd; [|done].
    exists d'. left. by apply strip_prefix_Some in Hd.
Qed.

(** What a pointer holds is published. *)
Lemma pointer_published w key e b :
  good w → is_pointer key → current key w = Some (e, b) → ∃ m, published w b m.
Proof.
  intros Hg Hk. revert e b. induction Hg as [|w a Hg IH Ha]; intros e b; [done|]. rewrite current_snoc.
  assert (good (w ++ [a])) as Hg' by by constructor.
  destruct (effect_on key a) as [[e' b']|] eqn:He.
  - intros [= -> ->]. apply effect_on_Some in He as (<- & He & <-).
    destruct (Ha _ He) as (_ & _ & Hc). destruct (Hc Hk) as (m & Hm & _). exists m. by apply published_persists.
  - intros H. destruct (IH _ _ H) as [m Hm]. exists m. by apply published_persists.
Qed.

Lemma published_digest w d m : good w → published w d m → sha256_hex (canonical_bytes m) = d.
Proof. intros Hg ([e He] & _). by eapply immutable_current_digest; [| |right]. Qed.

(** An [ETag] a pointer had stands for one body. *)
Lemma etag_body w key e b b' a :
  good w → current key w = Some (e, b) → a ∈ w → a_key a = key → a_etag a = Some e → a_body a = b' → b' = b.
Proof.
  intros Hg. revert b. induction Hg as [|w x Hg IH Hx]; intros b; [done|]. rewrite current_snoc.
  intros Hc Ha Hk He Hb. apply elem_of_app in Ha as [Ha| ->%list_elem_of_singleton].
  - destruct (effect_on key x) as [[e' b'']|] eqn:Hex; [|by apply IH].
    injection Hc as -> ->. apply effect_on_Some in Hex as (Hk' & He' & <-).
    destruct (Hx _ He') as (Hf & _). rewrite <-Hb. apply Hf; [done|congruence|congruence].
  - assert (effect_on key x = Some (e, b')) as Hex by (by apply effect_on_Some).
    rewrite Hex in Hc. by injection Hc.
Qed.

(** ** Triples *)

Definition grow (w w' : World) : Prop := good w' ∧ ∃ l, w' = w ++ l.

Lemma grow_refl w : good w → grow w w.
Proof. intros H. split; [done|]. exists []. by rewrite app_nil_r. Qed.
Lemma grow_trans w1 w2 w3 : grow w1 w2 → grow w2 w3 → grow w1 w3.
Proof. intros [_ (l & ->)] [H (l' & ->)]. split; [done|]. exists (l ++ l'). by rewrite app_assoc. Qed.
Lemma env_grow i w w' : env good i w w' → grow w w'.
Proof. intros [H (l & -> & _)]. split; [done|by eexists]. Qed.
Lemma published_grow w w' d m : grow w w' → published w d m → published w' d m.
Proof. intros [H (l & ->)]. by apply published_persists. Qed.

(** The versions of pointers [i] has made. *)
Definition is_commit_of (i : nat) (a : Access) : Prop :=
  a_author a = i ∧ is_Some (a_etag a) ∧ is_pointer (a_key a).
#[local] Instance is_commit_of_dec i a : Decision (is_commit_of i a).
Proof. unfold is_commit_of, is_pointer. apply _. Defined.
Definition own (i : nat) (w : list Access) : list Access := filter (is_commit_of i) w.

Lemma own_env i w w' : env good i w w' → own i w' = own i w.
Proof.
  intros [_ (l & -> & Hl)]. unfold own. rewrite filter_app.
  assert (filter (is_commit_of i) l = []) as ->; [|by rewrite app_nil_r]. apply elem_of_nil_inv. intros a [[Ha _] Hin]%list_elem_of_filter.
  rewrite Forall_forall in Hl. by apply (Hl a).
Qed.

(** [p] makes no pointer version, and ends in [Q]. *)
Definition quiet {A} (i : nat) (p : prog A) (Q : A → World → Prop) (w : World) : Prop :=
  wp good i p (λ w', own i w' = own i w ∧ grow w w') (λ a w', own i w' = own i w ∧ grow w w' ∧ Q a w') w.

Lemma quiet_ret {A} i (a : A) (Q : A → World → Prop) w : (∀ w', grow w w' → Q a w') → quiet i (Ret a) Q w.
Proof.
  intros H w1 He. split_and!; [by apply own_env|by eapply env_grow|]. by apply H, (env_grow i).
Qed.

Lemma quiet_mono {A} i (p : prog A) (Q R : A → World → Prop) w :
  quiet i p Q w → (∀ a w', grow w w' → Q a w' → R a w') → quiet i p R w.
Proof. intros H HQ. eapply wp_mono; [exact H|done|]. intros a w' _ (? & ? & ?). auto. Qed.

Lemma quiet_bind {A B} i (p : prog A) (f : A → prog B) (Q : A → World → Prop) R w :
  quiet i p Q w → (∀ a w', grow w w' → Q a w' → quiet i (f a) R w') → quiet i (prog_bind p f) R w.
Proof.
  intros H Hf. apply wp_bind. eapply wp_mono; [exact H|done|]. intros a w' _ (Ho & Hg & HQ).
  eapply wp_mono; [by apply Hf| |].
  - intros w'' _ [Ho' Hg']. split; [by rewrite Ho'|by eapply grow_trans].
  - intros b w'' _ (Ho' & Hg' & HR). split_and!; [by rewrite Ho'|by eapply grow_trans|done].
Qed.

Lemma quiet_bind_pe {E A B} i (p : PE E A) (f : A → PE E B) Q (R : result E B → World → Prop) w :
  quiet i p Q w → (∀ a w', grow w w' → Q (Ok a) w' → quiet i (f a) R w') →
  (∀ e w' w'', grow w w' → grow w' w'' → Q (Err e) w' → R (Err e) w'') →
  quiet i (x ← p; f x) R w.
Proof.
  intros H Hf He. eapply quiet_bind; [exact H|]. intros [a|e] w' Hg HQ; [by apply Hf|].
  apply quiet_ret. intros w'' Hg'. by eapply He.
Qed.

Lemma quiet_map_err {E F A} i (g : E → F) (p : PE E A) Q (R : result F A → World → Prop) w :
  quiet i p Q w →
  (∀ a w' w'', grow w w' → grow w' w'' → Q (Ok a) w' → R (Ok a) w'') →
  (∀ e w' w'', grow w w' → grow w' w'' → Q (Err e) w' → R (Err (g e)) w'') →
  quiet i (map_err g p) R w.
Proof.
  intros H Ha He. eapply quiet_bind; [exact H|]. intros [a|e] w' Hg HQ; apply quiet_ret; intros; eauto.
Qed.

Lemma quiet_cut {A} i n (p : prog A) Q w :
  good w → quiet i p Q w →
  quiet i (cut n p) (λ r w', match r with Some a => Q a w' | None => True end) w.
Proof.
  intros Hw H. eapply wp_mono; [eapply (wp_cut good i n p (λ w', own i w' = own i w ∧ grow w w') _ w)|by intros w' _|].
  - intros w1 w2 He [Ho Hg]. split; [by rewrite (own_env _ _ _ He)|].
    eapply grow_trans; [exact Hg|by eapply env_grow].
  - split; [done|by apply grow_refl].
  - exact H.
  - by intros [a|] w' _; [|intros [? ?]].
Qed.

(** ** The requests *)

Lemma own_snoc_quiet i w a : ¬ is_commit_of i a → own i (w ++ [a]) = own i w.
Proof. intros H. unfold own. by rewrite filter_app, filter_cons_False, filter_nil, app_nil_r. Qed.

Lemma good_refused w i key body : good w → good (w ++ [access i key body None]).
Proof. intros H. constructor; [done|]. by intros e. Qed.

Lemma quiet_get {A} i key (k : GetReply → prog A) Q w :
  (∀ w1 reply, grow w w1 → get_result key w1 reply → quiet i (k reply) Q w1) → quiet i (Get key k) Q w.
Proof.
  intros H w1 reply He Hr. specialize (H _ _ (env_grow _ _ _ He) Hr). eapply wp_mono; [exact H| |].
  - intros w' _ [Ho Hg]. rewrite Ho, (own_env _ _ _ He). split; [done|].
    eapply grow_trans; [by eapply env_grow|done].
  - intros a w' _ (Ho & Hg & HQ). rewrite Ho, (own_env _ _ _ He). split_and!; [done| |done].
    eapply grow_trans; [by eapply env_grow|done].
Qed.

Lemma quiet_head {A} i key (k : HeadReply → prog A) Q w :
  (∀ w1 reply, grow w w1 → head_result key w1 reply → quiet i (k reply) Q w1) → quiet i (Head key k) Q w.
Proof.
  intros H w1 reply He Hr. specialize (H _ _ (env_grow _ _ _ He) Hr). eapply wp_mono; [exact H| |].
  - intros w' _ [Ho Hg]. rewrite Ho, (own_env _ _ _ He). split; [done|].
    eapply grow_trans; [by eapply env_grow|done].
  - intros a w' _ (Ho & Hg & HQ). rewrite Ho, (own_env _ _ _ He). split_and!; [done| |done].
    eapply grow_trans; [by eapply env_grow|done].
Qed.

(** A create-only write of something that is no pointer: of a content-addressed
    object, or of a key that nothing relies on. *)
Lemma quiet_put_new {A} i key body (k : PutReply → prog A) Q w :
  ¬ is_pointer key →
  (∀ d, key = pack_key d ∨ key = manifest_key d → sha256_hex body = d) →
  (∀ w2 reply, grow w w2 →
     reply = PutFailed ∨ (immutable key → ∃ e, current key w2 = Some (e, body)) → quiet i (k reply) Q w2) →
  quiet i (Put key body IfNoneMatchStar k) Q w.
Proof.
  intros Hnp Hd H w1 reply w2 He Hp Hn.
  assert (∃ a, w2 = w1 ++ [a] ∧ ¬ is_commit_of i a ∧ good w2 ∧
    (reply = PutFailed ∨ (immutable key → ∃ e, current key w2 = Some (e, body)))) as (a & -> & Ha & Hg & Hr).
  { destruct He as [Hg1 _]. destruct Hp as [etag reply Hal Hf Hr|Hal|].
    - eexists. split; [done|]. assert (current key w1 = None) as Hc.
      { simpl in Hal. by destruct (current key w1). }
      assert (good (w1 ++ [access i key body (Some etag)])) as Hg.
      { constructor; [done|]. intros e [= ->]. simpl. split_and!; [done| |done]. intros d Hk.
        split; [by apply Hd|done]. }
      split_and!; [by intros (_ & _ & ?)|done|]. right. intros _. exists etag. rewrite current_snoc.
      unfold effect_on. simpl. by rewrite bool_decide_eq_true_2.
    - eexists. split; [done|]. split_and!; [by intros (_ & [? ?] & _)|by apply good_refused|]. right.
      intros (d & Hk). simpl in Hal. destruct (current key w1) as [[e b]|] eqn:Hc; [|done].
      exists e. rewrite current_snoc. unfold effect_on. simpl. rewrite bool_decide_eq_true_2 by done. simpl.
      rewrite Hc. do 2 f_equal. pose proof (immutable_current_digest _ _ _ _ _ Hg1 Hc Hk) as Hb.
      apply current_elem in Hc as (a & Ha & _ & _ & <-).
      apply (Hn a (access i key body None)); [set_solver|set_solver|]. simpl. by rewrite (Hd d Hk).
    - eexists. split; [done|]. split_and!; [by intros (_ & [? ?] & _)|by apply good_refused|]. by left. }
  assert (grow w (w1 ++ [a])) as Hgr.
  { split; [done|]. destruct He as [_ (l & -> & _)]. exists (l ++ [a]). by rewrite app_assoc. }
  assert (own i (w1 ++ [a]) = own i w) as Ho by (rewrite own_snoc_quiet by done; by apply own_env).
  split_and!; [done|done|done|]. specialize (H _ _ Hgr Hr). eapply wp_mono; [exact H| |].
  - intros w' _ [Ho' Hg']. rewrite Ho', Ho. split; [done|by eapply grow_trans].
  - intros x w' _ (Ho' & Hg' & HQ). rewrite Ho', Ho. split_and!; [done|by eapply grow_trans|done].
Qed.

Lemma stored_grow w w' key x : grow w w' → immutable key → current key w = Some x → current key w' = Some x.
Proof. intros [Hg (l & ->)]. by apply immutable_persists. Qed.

(** The post of a create-only write. *)
Definition created (key body : string) (r : result StoreError string) (w : World) : Prop :=
  match r with
  | Ok k => k = key ∧ (immutable key → ∃ e, current key w = Some (e, body))
  | Err e => e = StoreBackend
  end.

Lemma put_create_only_spec i key body w :
  ¬ is_pointer key →
  (∀ d, key = pack_key d ∨ key = manifest_key d → sha256_hex body = d) →
  quiet i (put_create_only key body) (created key body) w.
Proof.
  intros Hnp Hd. apply quiet_put_new; [done|done|]. intros w2 reply Hg Hr.
  assert (∀ w', grow w2 w' → reply ≠ PutFailed → immutable key → ∃ e, current key w' = Some (e, body)) as Hs.
  { intros w' Hw' Hf Him. destruct Hr as [->|Hr]; [done|]. destruct (Hr Him) as [e He].
    exists e. by eapply stored_grow. }
  destruct reply; apply quiet_ret; intros w' Hw'; simpl; [split; [done|]|split; [done|]|done];
    intros Him; by apply Hs.
Qed.

Lemma put_pack_spec i bytes w : quiet i (put_pack bytes) (created (pack_key (sha256_hex bytes)) bytes) w.
Proof.
  apply put_create_only_spec; [done|]. intros d [Hd|Hd]; [by apply pack_key_inj in Hd|done].
Qed.

Lemma put_manifest_spec i bytes w :
  quiet i (put_manifest bytes) (created (manifest_key (sha256_hex bytes)) bytes) w.
Proof.
  apply put_create_only_spec; [done|]. intros d [Hd|Hd]; [done|by apply manifest_key_inj in Hd].
Qed.

Lemma put_idx_spec i d idx w : quiet i (put_idx d idx) (λ _ _, True) w.
Proof.
  unfold put_idx, idx_key_for_pack_digest. destruct (_ || _); [by apply quiet_ret|].
  change (quiet i (put_create_only ("idx/" +:+ d)%stdpp idx) (λ _ _, True) w).
  eapply quiet_mono; [apply put_create_only_spec; [done|]|done]. by intros d' [?|?].
Qed.

(** ** Reads *)

(** At some moment since the world had [start] writes. *)
Definition during (start : nat) (w : World) (P : World → Prop) : Prop :=
  ∃ w1, grow w1 w ∧ (start ≤ length w1)%nat ∧ good w1 ∧ P w1.

Lemma during_grow start w w' P : grow w w' → during start w P → during start w' P.
Proof. intros Hg (w1 & H1 & Hs & Hg1 & HP). exists w1. split_and!; [by eapply grow_trans|done|done|done]. Qed.

Lemma grow_length w w' : grow w w' → (length w ≤ length w')%nat.
Proof. intros [_ (l & ->)]. rewrite length_app. lia. Qed.

Lemma get_stored_spec i key x w :
  immutable key → good w → current key w = Some x →
  quiet i (get key) (λ r _, match r with Ok b => b = x.2 | Err e => e = StoreBackend end) w.
Proof.
  intros Him Hg Hc. apply quiet_get. intros w1 reply Hw1 Hr.
  pose proof (stored_grow _ _ _ _ Hw1 Him Hc) as Hc1. unfold get_result in Hr. rewrite Hc1 in Hr.
  destruct x as [e b]. destruct Hr as [->|[->| ->]]; by apply quiet_ret.
Qed.

Lemma get_limited_stored_spec i key x max w :
  immutable key → good w → current key w = Some x →
  quiet i (get_limited key max) (λ r _, match r with
    | Ok b => b = x.2 ∧ (str_len b ≤ max)%Z
    | Err e => e = StoreBackend ∨ ∃ n m, e = ObjectTooLarge key n m end) w.
Proof.
  intros Him Hg Hc. apply quiet_head. intros w1 reply Hw1 Hr.
  pose proof (stored_grow _ _ _ _ Hw1 Him Hc) as Hc1. unfold head_result in Hr. rewrite Hc1 in Hr.
  destruct Hr as [->|[n ->]]; [apply quiet_ret; by left|].
  destruct (match n with Some n => _ | None => _ end); [apply quiet_ret; intros; right; eauto|].
  eapply quiet_bind_pe; [by apply get_stored_spec; [..|apply Hw1|]| |by intros e ? ? _ _ ->; left].
  intros b w2 Hw2 ->. case_bool_decide; apply quiet_ret; intros; [right; eauto|split; [done|lia]].
Qed.

Lemma get_verified_limited_spec i key x d max w :
  key = pack_key d ∨ key = manifest_key d → good w → current key w = Some x →
  quiet i (get_verified_limited key d max) (λ r _, match r with
    | Ok b => b = x.2 ∧ (str_len b ≤ max)%Z
    | Err e => e = StoreBackend ∨ ∃ n m, e = ObjectTooLarge key n m end) w.
Proof.
  intros Hk Hg Hc. assert (immutable key) as Him by by exists d.
  eapply quiet_bind_pe; [by apply get_limited_stored_spec| |done].
  intros b w1 Hw1 [-> Hl]. destruct x as [e b]. apply quiet_ret. intros w2 _. unfold check_digest. simpl.
  by rewrite (immutable_current_digest _ _ _ _ _ Hg Hc Hk), bool_decide_eq_true_2.
Qed.

Lemma get_pointer_spec i pkey w :
  quiet i (get_pointer pkey) (λ r w', match r with
    | Ok p => during (length w) w' (λ w1, current pkey w1 = p)
    | Err e => e = StoreBackend end) w.
Proof.
  apply quiet_get. intros w1 reply Hw1 Hr. unfold get_result in Hr.
  assert (∀ p w', grow w1 w' → current pkey w1 = p → during (length w) w' (λ w1, current pkey w1 = p)) as Hd.
  { intros p w' Hw' Hp. exists w1. split_and!; [done|by apply grow_length|apply Hw1|done]. }
  destruct (current pkey w1) as [[e b]|]; destruct Hr as [->|Hr].
  - by apply quiet_ret.
  - destruct Hr as [-> | ->]; apply quiet_ret; [|done]. intros w' Hw'. by apply Hd.
  - by apply quiet_ret.
  - subst reply. apply quiet_ret. intros w' Hw'. by apply Hd.
Qed.

Lemma address_key_pointer a : is_pointer (address_key a).
Proof. by apply starts_with_app; eexists. Qed.

(** A transport failure, or a size limit. *)
Definition transport_or_size (e : HydrateError) : Prop := e = HStore StoreBackend ∨ e = HResourceLimit.

Lemma hydrate_get_spec i key x d max w :
  key = pack_key d ∨ key = manifest_key d → good w → current key w = Some x →
  quiet i (hydrate_get key d max) (λ r _, match r with
    | Ok b => b = x.2 ∧ (str_len b ≤ max)%Z
    | Err e => transport_or_size e end) w.
Proof.
  intros Hk Hg Hc. eapply quiet_map_err; [by apply get_verified_limited_spec|done|].
  intros e w1 w2 _ _ [->|(n & m & ->)]; [by left|by right].
Qed.

Lemma published_digest_shape w d m : good w → published w d m → is_manifest_digest d = true.
Proof. intros Hg Hp. rewrite <-(published_digest _ _ _ Hg Hp). apply digest_shape. Qed.

Lemma digest_hex64 d : is_manifest_digest d = true → is_hex64 d = true.
Proof. intros [Hl Hc]%digest_hex. unfold is_hex64. by rewrite Hl, Hc. Qed.

(** What [load_pointer] answers: the pointer as it was at some moment since, with
    the manifest it named; it fails only in transport or for size. *)
Definition loaded (start : nat) (pkey : string)
    (r : result HydrateError (option (string * string * Manifest))) (w : World) : Prop :=
  match r with
  | Ok None => during start w (λ w1, current pkey w1 = None)
  | Ok (Some (e, d, m)) => during start w (λ w1, current pkey w1 = Some (e, d)) ∧ published w d m
  | Err e => transport_or_size e
  end.

Lemma load_pointer_spec i pkey w :
  is_pointer pkey → quiet i (load_pointer pkey) (loaded (length w) pkey) w.
Proof.
  intros Hk. eapply quiet_bind_pe.
  { eapply (quiet_map_err _ _ _ _ (λ r w', match r with
      | Ok p => during (length w) w' (λ w1, current pkey w1 = p) | Err e => transport_or_size e end));
      [apply get_pointer_spec| |].
    - intros p w1 w2 _ Hw2 Hd. by eapply during_grow.
    - intros e w1 w2 _ _ ->. by left. }
  2: done.
  intros [[e d]|] w1 Hw1 Hd; [|by apply quiet_ret; intros; eapply during_grow].
  assert (∃ m, published w1 d m) as [m Hm].
  { destruct Hd as (w0 & Hw0 & _ & Hg0 & Hc). destruct (pointer_published _ _ _ _ Hg0 Hk Hc) as [m Hm].
    exists m. by eapply published_grow. }
  pose proof (published_digest_shape _ _ _ (proj1 Hw1) Hm) as Hs.
  cbv zeta. rewrite (digest_trim _ Hs), (digest_hex64 _ Hs). simpl.
  pose proof Hm as ([e' He'] & Hcan & Hv & Hok & _).
  eapply quiet_bind_pe; [by eapply hydrate_get_spec; [right| |exact He']; [|apply Hw1]| |done].
  intros b w2 Hw2 [-> _]. simpl. rewrite (from_bytes_canonical _ Hcan Hv), (proj2 (validate_ok m) Hok).
  apply quiet_ret. intros w3 Hw3. split.
  - eapply during_grow; [|exact Hd]. by eapply grow_trans.
  - eapply published_grow; [|exact Hm]. by eapply grow_trans.
Qed.

(** The cache holds what it verified. *)
Definition cache_ok (options : HydrationOptions) : Prop :=
  ∀ d b, pack_cache options d = Some b → sha256_hex b = d.

Lemma pack_key_digest k : is_pack_key k = true → ∃ d, k = pack_key d ∧ is_manifest_digest d = true.
Proof.
  unfold is_pack_key. destruct (strip_prefix "packs/" k) as [d|] eqn:Hd; [|done].
  intros H. exists d. split; [|done]. by apply strip_prefix_Some in Hd.
Qed.

(** Failures of the relay's own machine. *)
Definition local_failure (e : HydrateError) : Prop := transport_or_size e ∨ e = Hydrate.

Lemma materialize_pack_spec i options d w x :
  good w → is_manifest_digest d = true → current (pack_key d) w = Some x →
  quiet i (materialize_pack options (pack_key d) d) (λ r _, match r with
    | Ok b => cache_ok options → sha256_hex b = d | Err e => local_failure e end) w.
Proof.
  intros Hg Hd Hx. unfold materialize_pack. rewrite (digest_hex64 _ Hd). simpl.
  destruct (pack_cache options d) as [b|] eqn:Hb; [apply quiet_ret; intros w' _ Hc; by eapply Hc|].
  eapply quiet_bind_pe; [by eapply hydrate_get_spec; [left| |]| |by intros; left].
  intros b w1 Hw1 [-> _]. destruct x as [e b]. destruct (index_ok _ _); apply quiet_ret; intros; [|by right].
  by eapply immutable_current_digest; [exact Hg|exact Hx|left].
Qed.

Lemma fetch_packs_spec i options keys total acc w :
  good w → Forall (λ k, is_pack_key k = true) keys →
  (∀ k, k ∈ keys → is_Some (current k w)) →
  quiet i (fetch_packs options keys total acc) (λ r _, match r with
    | Ok (packs, _) => cache_ok options →
        ∃ new, packs = acc ++ new ∧ Forall2 (λ k b, k = pack_key (sha256_hex b)) keys new
    | Err e => local_failure e end) w.
Proof.
  intros Hg. revert total acc w Hg. induction keys as [|k keys IH]; intros total acc w Hg Hk Hs; cbn [fetch_packs].
  { apply quiet_ret. intros w' _ _. exists []. by rewrite app_nil_r. }
  apply Forall_cons in Hk as [Hk Hks]. destruct (pack_key_digest _ Hk) as (d & -> & Hd).
  assert (strip_prefix "packs/" (pack_key d) = Some d) as -> by by apply strip_prefix_Some.
  destruct (Hs (pack_key d)) as [x Hx]; [left|].
  eapply quiet_bind_pe; [by eapply materialize_pack_spec| |done]. intros b w1 Hw1 Hb.
  do 3 (case_bool_decide; [by apply quiet_ret; intros; left; right|]).
  eapply quiet_mono; [apply IH; [apply Hw1|done|]|].
  - intros k Hin. destruct (Hs k) as [y Hy]; [by right|]. exists y.
    eapply stored_grow; [exact Hw1| |exact Hy]. rewrite Forall_forall in Hks.
    destruct (pack_key_digest _ (Hks k Hin)) as (d' & -> & _). exists d'. by left.
  - intros [[packs n]|e] w2 _; [|done]. intros Hnew Hc. destruct (Hnew Hc) as (new & -> & Hn). exists (b :: new).
    rewrite <-app_assoc. split; [done|]. constructor; [by rewrite Hb|done].
Qed.

(** A hydrated repository is the manifest's. *)
Definition hydrated (m : Manifest) (repo : HydratedRepo) : Prop :=
  hr_refs repo = m_refs m ∧ hr_head repo = m_head m ∧
  Forall2 (λ k b, k = pack_key (sha256_hex b)) (m_packs m) (hr_packs repo).

Lemma install_refs_ok l :
  Forall (λ e, is_safe_refname e.1 = true ∧ is_hex_oid e.2 = true) l → install_refs l = Ok tt.
Proof. induction 1 as [|[r o] l [H1 H2] _ IH]; [done|]. simpl in *. by rewrite H1, H2. Qed.

Lemma materialize_manifest_spec i options d m w :
  good w → published w d m →
  quiet i (materialize_manifest options m) (λ r _, match r with
    | Ok repo => cache_ok options → hydrated m repo | Err e => local_failure e end) w.
Proof.
  intros Hg (_ & _ & _ & (_ & _ & _ & Hh & Hr & Hp & _) & Hs). unfold materialize_manifest.
  destruct (scratch_ok options); [|by apply quiet_ret; intros; right]. simpl.
  eapply quiet_bind_pe; [by apply fetch_packs_spec| |done]. intros [packs n] w1 Hw1 Hnew.
  rewrite install_refs_ok by by apply check_refs_map. rewrite Hh. simpl. apply quiet_ret. intros w2 _ Hc.
  by destruct (Hnew Hc) as (new & -> & ?).
Qed.

(** ** Commits *)

Definition quietly (i : nat) (w w' : World) : Prop := own i w' = own i w ∧ grow w w'.

(** [i] replaced what the pointer held by a complete manifest, [P] of the two. *)
Definition replaced (i : nat) (pkey : string) (P : option string → string → Manifest → Prop) (w : World) (a : Access)
    : Prop :=
  ∃ before after e d m, a = access i pkey d (Some e) ∧ w = before ++ a :: after ∧
    published w d m ∧ P (snd <$> current pkey before) d m.

(** Exactly one version of the pointer was made, or at most one. *)
Definition committed (i : nat) (pkey : string) (P : option string → string → Manifest → Prop) (w w' : World) : Prop :=
  grow w w' ∧ ∃ a, own i w' = own i w ++ [a] ∧ replaced i pkey P w' a.
Definition may_commit (i : nat) (pkey : string) (P : option string → string → Manifest → Prop) (w w' : World) : Prop :=
  quietly i w w' ∨ committed i pkey P w w'.

Lemma replaced_grow i pkey P w w' a : grow w w' → replaced i pkey P w a → replaced i pkey P w' a.
Proof.
  intros Hg (b & c & e & d & m & -> & -> & Hp & HP). pose proof Hg as [_ (l & ->)].
  exists b, (c ++ l), e, d, m. split_and!; [done|by rewrite <-app_assoc|by eapply published_grow|done].
Qed.

Lemma quietly_refl i w : good w → quietly i w w.
Proof. intros H. split; [done|by apply grow_refl]. Qed.
Lemma quietly_trans i w1 w2 w3 : quietly i w1 w2 → quietly i w2 w3 → quietly i w1 w3.
Proof. intros [H1 G1] [H2 G2]. split; [by rewrite H2|by eapply grow_trans]. Qed.
Lemma quietly_env i w w' : env good i w w' → quietly i w w'.
Proof. intros H. split; [by apply own_env|by eapply env_grow]. Qed.
Lemma committed_before i pkey P w1 w2 w3 : quietly i w1 w2 → committed i pkey P w2 w3 → committed i pkey P w1 w3.
Proof.
  intros [H1 G1] [G2 (a & H2 & Hr)]. split; [by eapply grow_trans|]. exists a. by rewrite H2, H1.
Qed.
Lemma committed_after i pkey P w1 w2 w3 : committed i pkey P w1 w2 → quietly i w2 w3 → committed i pkey P w1 w3.
Proof.
  intros [G1 (a & H1 & Hr)] [H2 G2]. split; [by eapply grow_trans|]. exists a.
  split; [by rewrite H2|by eapply replaced_grow].
Qed.
Lemma may_commit_before i pkey P w1 w2 w3 : quietly i w1 w2 → may_commit i pkey P w2 w3 → may_commit i pkey P w1 w3.
Proof. intros H [Hq|Hc]; [left; by eapply quietly_trans|right; by eapply committed_before]. Qed.
Lemma may_commit_after i pkey P w1 w2 w3 : may_commit i pkey P w1 w2 → quietly i w2 w3 → may_commit i pkey P w1 w3.
Proof. intros [Hq|Hc] H; [left; by eapply quietly_trans|right; by eapply committed_after]. Qed.
Lemma committed_mono i pkey (P P' : option string → string → Manifest → Prop) w w' :
  (∀ b d m, P b d m → P' b d m) → committed i pkey P w w' → committed i pkey P' w w'.
Proof.
  intros HP [G (a & Ho & b & c & e & d & m & H)]. split; [done|]. exists a. split; [done|].
  exists b, c, e, d, m. naive_solver.
Qed.
Lemma may_commit_mono i pkey (P P' : option string → string → Manifest → Prop) w w' :
  (∀ b d m, P b d m → P' b d m) → may_commit i pkey P w w' → may_commit i pkey P' w w'.
Proof. intros HP [H|H]; [by left|right; by eapply committed_mono]. Qed.

Lemma quiet_wp {A} i (p : prog A) Q (S : World → Prop) (R : A → World → Prop) w :
  quiet i p Q w → (∀ w', quietly i w w' → S w') →
  (∀ a w', quietly i w w' → Q a w' → R a w') → wp good i p S R w.
Proof. intros H HS HR. eapply wp_mono; [exact H|intros w' _; apply HS|]. intros a w' _ (? & ? & ?). by apply HR. Qed.

(** A program that may commit, after one that does not. *)
Lemma quiet_then {A B} i (p : prog A) (f : A → prog B) Q (S : World → Prop) R w :
  quiet i p Q w → (∀ w', quietly i w w' → S w') →
  (∀ a w', quietly i w w' → Q a w' → wp good i (f a) S R w') → wp good i (prog_bind p f) S R w.
Proof. intros H HS Hf. apply wp_bind. by eapply quiet_wp. Qed.

Lemma wp_ret {A} i (a : A) S (Q : A → World → Prop) w :
  (∀ w', quietly i w w' → Q a w') → wp good i (Ret a) S Q w.
Proof. intros H w1 He. by apply H, quietly_env. Qed.

Lemma quiet_then_pe {E A B} i (p : PE E A) (f : A → PE E B) Q (S : World → Prop) R w :
  quiet i p Q w → (∀ w', quietly i w w' → S w') →
  (∀ a w', quietly i w w' → Q (Ok a) w' → wp good i (f a) S R w') →
  (∀ e w' w'', quietly i w w' → quietly i w' w'' → Q (Err e) w' → R (Err e) w'') →
  wp good i (x ← p; f x) S R w.
Proof.
  intros H HS Hf He. eapply quiet_then; [exact H|done|]. intros [a|e] w' Hq HQ; [by apply Hf|].
  apply wp_ret. intros w'' Hq'. by eapply He.
Qed.

(** What a handler knows of the pointer it read. *)
Definition observed (pkey : string) (if_match parent_digest : option string) (w : World) : Prop :=
  match if_match with
  | None => parent_digest = None
  | Some e => ∃ a d, a ∈ w ∧ a_key a = pkey ∧ a_etag a = Some e ∧ a_body a = d ∧ parent_digest = Some d
  end.

Lemma observed_grow pkey e d w w' : grow w w' → observed pkey e d w → observed pkey e d w'.
Proof.
  intros [_ (l & ->)]. destruct e as [e|]; [|done]. intros (a & d' & Ha & H). exists a, d'.
  split; [set_solver|done].
Qed.

Definition precond_of (if_match : option string) : Precond :=
  match if_match with Some e => IfMatch e | None => IfNoneMatchStar end.

Lemma observed_allowed pkey im pd w :
  good w → observed pkey im pd w → allowed (precond_of im) (current pkey w) = true →
  snd <$> current pkey w = pd.
Proof.
  intros Hg Hobs Hal. destruct im as [e|]; simpl in *.
  - destruct (current pkey w) as [[e' b]|] eqn:Hcur; [|done]. apply bool_decide_eq_true in Hal as <-.
    destruct Hobs as (a & d & Ha & Hka & Hea & Hba & ->). simpl.
    by rewrite (etag_body _ _ _ _ _ _ Hg Hcur Ha Hka Hea Hba).
  - by destruct (current pkey w).
Qed.

Lemma good_commit i pkey d etag w :
  good w → is_pointer pkey → etag_fits w pkey d etag → commit_ok w pkey d →
  good (w ++ [access i pkey d (Some etag)]).
Proof.
  intros Hg Hk Hf Hc. constructor; [done|]. intros e [= ->]. simpl. split_and!; [done| |done].
  by intros d' [-> | ->].
Qed.

Lemma committed_snoc i pkey (P : option string → string → Manifest → Prop) w w1 d m etag :
  own i w1 = own i w → grow w w1 → is_pointer pkey → published w1 d m →
  good (w1 ++ [access i pkey d (Some etag)]) → P (snd <$> current pkey w1) d m →
  committed i pkey P w (w1 ++ [access i pkey d (Some etag)]).
Proof.
  intros Ho Hg Hk Hp Hga HP. assert (grow w1 (w1 ++ [access i pkey d (Some etag)])) as Hg1 by (split; [done|by eexists]).
  split; [by eapply grow_trans|]. exists (access i pkey d (Some etag)). split.
  - unfold own. rewrite filter_app, filter_cons_True, filter_nil by (by split_and!; [|eexists|]).
    fold (own i w1). by rewrite Ho.
  - exists w1, [], etag, d, m. split_and!; [done|done|by eapply published_grow|done].
Qed.

Lemma put_pointer_spec i pkey d m im pd w :
  is_pointer pkey → published w d m → observed pkey im pd w →
  m_parent m = pd ∨ pd = Some d →
  let P := (λ b d' m', b = pd ∧ d' = d ∧ m' = m) in
  wp good i (put_pointer pkey d (precond_of im)) (may_commit i pkey P w)
    (λ r w', match r with
     | Ok (Won _) => committed i pkey P w w'
     | Ok LostRace => quietly i w w' ∧
         during (length w) w' (λ w1, allowed (precond_of im) (current pkey w1) = false)
     | Err e => e = StoreBackend ∧ may_commit i pkey P w w' end) w.
Proof.
  intros Hk Hpub Hobs Hpar P w1 reply w2 He Hp _.
  pose proof (quietly_env _ _ _ He) as [Ho Hg]. pose proof (proj1 He) as Hg1.
  assert (good (w1 ++ [access i pkey d None])) as Hg2 by by apply good_refused.
  assert (quietly i w (w1 ++ [access i pkey d None])) as Hq.
  { split; [rewrite own_snoc_quiet; [done|by intros (_ & [? ?] & _)]|]. eapply grow_trans; [exact Hg|].
    split; [done|by eexists]. }
  destruct Hp as [etag reply Hal Hf Hr|Hal|].
  - assert (committed i pkey P w (w1 ++ [access i pkey d (Some etag)])) as Hc.
    { apply (observed_grow _ _ _ _ _ Hg) in Hobs. apply (published_grow _ _ _ _ Hg) in Hpub.
      assert (snd <$> current pkey w1 = pd) as Hpd by by eapply observed_allowed.
      assert (good (w1 ++ [access i pkey d (Some etag)])) as Hga.
      { apply good_commit; [done..|]. exists m. split; [done|].
        destruct (current pkey w1) as [[e' b]|]; simpl in Hpd; subst pd; [|by destruct Hpar].
        destruct Hpar as [Hpar|[= <-]]; auto. }
      by eapply committed_snoc. }
    split_and!; [by destruct Hc as [[] _]|by right|]. apply wp_ret. intros w' Hw'.
    assert (committed i pkey P w w') as Hc' by by eapply committed_after.
    rewrite !elem_of_cons in Hr. destruct Hr as [->|[->|[->|Hr]]]; simpl; [done|by split; [|right]|by split; [|right]|].
    by apply not_elem_of_nil in Hr.
  - split_and!; [done|by left|]. apply wp_ret. intros w' Hw'. simpl.
    split; [by eapply quietly_trans|]. exists w1. split_and!; [|by apply grow_length|done|done].
    eapply grow_trans; [|apply Hw']. split; [done|by eexists].
  - split_and!; [done|by left|]. apply wp_ret. intros w' Hw'. split; [done|left]. by eapply quietly_trans.
Qed.
End history.
