(* ===== verification/GitAnswers.v ===== *)
(** * Hosted repositories: what the answers mean

    Specifications of the requests of [GitPublish] over the invariant of
    [GitHistory], and the theorems they add up to: the pointer of a repository has
    one linear history, the answer to a push or a default-branch change says what
    it did, and a read answers with a complete repository the pointer named. *)

From stdpp Require Import base gmap strings list.
From Stdlib Require Import ZArith Lia Ascii.
From S2P Require Import Prelude Text GitManifest GitWire GitStore GitPublish GitHistory.

Local Open Scope list_scope.

Section answers.
Context `{GL : GitLaws}.

(** ** Making a manifest *)

Definition stored (keys : list string) (w : World) : Prop := ∀ k, k ∈ keys → is_Some (current k w).

Lemma pack_keys_immutable k : is_pack_key k = true → immutable k.
Proof. intros (d & -> & _)%pack_key_digest. exists d. by left. Qed.

Lemma stored_list_grow keys w w' :
  grow w w' → Forall (λ k, is_pack_key k = true) keys → stored keys w → stored keys w'.
Proof.
  intros Hg Hk Hs k Hin. destruct (Hs k Hin) as [x Hx]. exists x.
  eapply stored_grow; [exact Hg| |exact Hx]. rewrite Forall_forall in Hk. by apply pack_keys_immutable, Hk.
Qed.

(** A new pack is stored under its key. *)
Definition pack_stored (k : string) (w : World) : Prop := is_pack_key k = true ∧ is_Some (current k w).

Lemma pack_stored_grow k w w' : grow w w' → pack_stored k w → pack_stored k w'.
Proof.
  intros Hg [Hk [x Hx]]. split; [done|]. exists x. eapply stored_grow; [exact Hg|by apply pack_keys_immutable|done].
Qed.

Lemma pack_key_is_pack_key bytes : is_pack_key (pack_key (sha256_hex bytes)) = true.
Proof.
  unfold is_pack_key. assert (strip_prefix "packs/" (pack_key (sha256_hex bytes)) = Some (sha256_hex bytes)) as ->.
  { by apply strip_prefix_Some. }
  apply digest_shape.
Qed.

Lemma put_pack_stored i bytes w :
  quiet i (put_pack bytes) (λ r w', match r with Ok k => pack_stored k w' | Err _ => True end) w.
Proof.
  eapply quiet_mono; [apply put_pack_spec|]. intros [k|e] w' _; [|done]. intros [-> Hs]. split.
  - apply pack_key_is_pack_key.
  - destruct Hs as [e He]; [by eexists; left|by eexists].
Qed.

Lemma quiet_true {E A B} i (p : PE E A) (f : A → PE E B) w :
  quiet i p (λ _ _, True) w → (∀ a w', grow w w' → quiet i (f a) (λ _ _, True) w') →
  quiet i (x ← p; f x) (λ _ _, True) w.
Proof. intros H Hf. eapply quiet_bind_pe; [exact H|by intros; apply Hf|done]. Qed.

Lemma quiet_lift {E A B} i (r : result E A) (f : A → PE E B) R w :
  (∀ a, r = Ok a → quiet i (f a) R w) → (∀ e w', r = Err e → grow w w' → R (Err e) w') →
  quiet i (x ← pe_lift r; f x) R w.
Proof. destruct r as [a|e]; intros Hf He; [by apply Hf|]. apply quiet_ret. intros w' Hw'. by apply He. Qed.

Lemma quiet_weaken {A} i (p : prog A) Q w : quiet i p Q w → quiet i p (λ _ _, True) w.
Proof. intros H. by eapply quiet_mono. Qed.

(** An error that reports no conflict. *)
Definition plain (e : CasError) : Prop := match e with Conflict _ _ => False | _ => True end.

Lemma digest_from_pack_key_err k e : digest_from_pack_key k = Err e → plain e.
Proof.
  unfold digest_from_pack_key. destruct (strip_prefix _ _); [|by intros [= <-]].
  destruct (is_hex64 _); [done|by intros [= <-]].
Qed.

Lemma check_compacted_err limits packs total e : check_compacted limits packs total = Err e → plain e.
Proof.
  revert total. induction packs as [|[pack idx] packs IH]; intros total; cbn [check_compacted]; [done|].
  do 4 (case_bool_decide; [by intros [= <-]|]). apply IH.
Qed.

Lemma capture_compacted_packs_err ws refs limits e :
  capture_compacted_packs ws refs limits = Err e → plain e.
Proof.
  unfold capture_compacted_packs. case_bool_decide; [done|].
  destruct (compact _ _) as [packs|[]]; simpl; [|by intros [= <-]..].
  destruct (MAX_MANIFEST_PACKS <? length packs)%nat; [by intros [= <-]|].
  destruct (check_compacted limits packs 0) eqn:Hc; simpl; [done|]. intros [= <-]. by eapply check_compacted_err.
Qed.

Lemma upload_compacted_packs_spec i packs keys w :
  Forall (λ k, pack_stored k w) keys →
  quiet i (upload_compacted_packs packs keys) (λ r w', match r with
    | Ok ks => sort_dedup ks = ks ∧ Forall (λ k, pack_stored k w') ks
    | Err e => plain e end) w.
Proof.
  revert keys w. induction packs as [|[pack idx] packs IH]; intros keys w Hk; cbn [upload_compacted_packs].
  { apply quiet_ret. intros w' Hw'. split; [apply sort_dedup_idem|]. apply Forall_forall. intros k Hin.
    rewrite sort_dedup_elem in Hin. rewrite Forall_forall in Hk. eapply pack_stored_grow; [exact Hw'|by apply Hk]. }
  eapply (quiet_bind_pe _ _ _ (λ r w', match r with Ok k => pack_stored k w' | Err e => plain e end)); [| |done].
  { eapply quiet_map_err; [apply put_pack_stored| |done]. intros k w1 w2 _ Hw2. by apply pack_stored_grow. }
  intros k w1 Hw1 Hs. apply quiet_lift; [|by intros e w' He _; eapply digest_from_pack_key_err]. intros d _.
  eapply quiet_bind; [apply put_idx_spec|]. intros _ w2 Hw2 _. apply IH.
  apply Forall_app. split.
  - eapply Forall_impl; [exact Hk|]. intros k' Hk'. eapply pack_stored_grow; [|exact Hk'].
    by eapply grow_trans.
  - constructor; [|done]. by eapply pack_stored_grow.
Qed.

Lemma prepare_compaction_spec i ws refs limits n w :
  quiet i (prepare_compaction ws refs limits n) (λ r w', match r with
    | Ok ks => sort_dedup ks = ks ∧ Forall (λ k, pack_stored k w') ks
    | Err e => plain e end) w.
Proof.
  apply quiet_lift; [|by intros e w' He _; eapply capture_compacted_packs_err]. intros packs _. destruct (negb _); [by apply quiet_ret|].
  by apply upload_compacted_packs_spec.
Qed.

(** A manifest whose packs are all stored, on top of [pd], with these refs and head. *)
Definition composed (pd : option string) (head : string) (refs : gmap string string) (m : Manifest)
    (w : World) : Prop :=
  m_version m = MANIFEST_VERSION ∧ m_head m = head ∧ m_refs m = refs ∧ m_parent m = pd ∧
  is_canonical m ∧ Forall (λ k, pack_stored k w) (m_packs m).

Lemma composed_grow pd head refs m w w' : grow w w' → composed pd head refs m w → composed pd head refs m w'.
Proof.
  intros Hg (? & ? & ? & ? & ? & Hk). split_and!; [done..|]. eapply Forall_impl; [exact Hk|].
  intros k. by apply pack_stored_grow.
Qed.

Lemma try_compaction_spec i ws ps limits n refs head w :
  good w →
  quiet i (try_compaction ws ps limits n refs head) (λ r w', match r with
    | Some (Ok m) => composed (parent_digest ps) head refs m w'
    | Some (Err e) => plain e
    | None => True end) w.
Proof.
  intros Hg. unfold try_compaction. destruct (should_compact _ _); [|by apply quiet_ret].
  destruct (compaction_permit ws); [|by apply quiet_ret].
  eapply quiet_bind; [apply quiet_cut; [done|apply prepare_compaction_spec]|].
  intros [[ks|e]|] w1 Hw1 HQ; apply quiet_ret; intros w2 Hw2; [|done..].
  destruct HQ as [Hs Hk]. eapply composed_grow; [exact Hw2|]. unfold composed, is_canonical. simpl.
  by rewrite !Hs.
Qed.

(** The packs of what a handler read. *)
Definition parent_packs_stored (ps : ParentState) (w : World) : Prop :=
  Forall (λ k, pack_stored k w) (m_packs (ps_parent ps)).

Lemma compose_after_composed ps head refs nk w :
  parent_packs_stored ps w → (∀ k, nk = Some k → pack_stored k w) →
  composed (parent_digest ps) head refs (compose_after (ps_parent ps) (parent_digest ps) head refs nk) w.
Proof.
  unfold parent_packs_stored. rewrite Forall_forall. intros Hp Hn. unfold composed, is_canonical. simpl.
  split_and!; [done..|apply sort_dedup_idem|]. apply Forall_forall. intros k Hk. rewrite sort_dedup_elem in Hk.
  destruct nk as [k'|]; [|by apply Hp]. case_bool_decide; [by apply Hp|].
  apply elem_of_app in Hk as [Hk| ->%list_elem_of_singleton]; [by apply Hp|by apply Hn].
Qed.

Lemma write_idx_sidecar_spec i ws key bytes w : quiet i (write_idx_sidecar ws key bytes) (λ _ _, True) w.
Proof.
  apply quiet_lift; [|done]. intros d _. destruct (index_pack ws bytes) as [idx|]; [|by apply quiet_ret].
  apply quiet_true; [|by intros; apply quiet_ret]. by eapply quiet_map_err; [apply put_idx_spec| |].
Qed.

Lemma capture_pack_err ws before after max e : capture_pack ws before after max = Err e → plain e.
Proof.
  unfold capture_pack. case_bool_decide; [done|]. cbv zeta. destruct (pack_objects _ _); [|by intros [= <-]].
  case_bool_decide; [by intros [= <-]|]. by case_bool_decide.
Qed.

Lemma publish_delta_spec i ws ps limits refs head cf w :
  parent_packs_stored ps w → (∀ e, cf = Some e → plain e) →
  quiet i (publish_delta ws ps limits refs head cf) (λ r w', match r with
    | Ok m => composed (parent_digest ps) head refs m w'
    | Err e => plain e end) w.
Proof.
  intros Hp Hcf. apply quiet_lift; [|by intros e w' He _; eapply capture_pack_err]. intros pack _.
  eapply (quiet_bind_pe _ _ _ (λ r w', match r with
    | Ok nk => ∀ k, nk = Some k → pack_stored k w' | Err e => plain e end)); [| |done].
  - destruct pack as [bytes|]; [|by apply quiet_ret].
    destruct (_ <=? _)%nat; [apply quiet_ret; intros _ _; destruct cf; [by apply Hcf|done]|].
    repeat match goal with |- context [if ?b then throw _ else _] => destruct b; [by apply quiet_ret|] end.
    eapply quiet_bind_pe; [eapply (quiet_map_err _ _ _ _ (λ r w', match r with Ok k => pack_stored k w' | Err e => plain e end));
      [apply put_pack_stored|intros k w1 w2 _ Hw2; by apply pack_stored_grow|done]| |done].
    intros k w1 Hw1 Hk. eapply quiet_bind; [apply write_idx_sidecar_spec|].
    intros _ w2 Hw2 _. apply quiet_ret. intros w3 Hw3 k' [= <-].
    eapply pack_stored_grow; [|exact Hk]. by eapply grow_trans.
  - intros nk w1 Hw1 Hn. apply quiet_ret. intros w2 Hw2. eapply composed_grow; [exact Hw2|].
    apply compose_after_composed; [|done]. eapply Forall_impl; [exact Hp|]. intros k. by apply pack_stored_grow.
Qed.

(** ** The commit *)

(** The answer of a publication: [P] holds of what it published, and of what that
    replaced.  [im] is the pointer version that was read. *)
Definition cas_post (i : nat) (pkey : string) (P : option string → string → Manifest → Prop)
    (im : option string) (w : World) (r : result CasError CasSuccess) (w' : World) : Prop :=
  match r with
  | Ok s => committed i pkey (λ b d m, P b d m ∧ cs_manifest s = m ∧ cs_manifest_key s = manifest_key d) w w'
  | Err (CasBackend _) => may_commit i pkey P w w'
  | Err (Conflict _ _) => quietly i w w' ∧ during (length w) w' (λ w1, fst <$> current pkey w1 ≠ im)
  | Err _ => quietly i w w'
  end.

Lemma during_before w0 w w' P : grow w0 w → during (length w) w' P → during (length w0) w' P.
Proof. intros Hg%grow_length (w1 & H1 & Hl & H2). exists w1. split_and!; [done|lia|apply H2..]. Qed.

Lemma cas_post_before i pkey P im w0 w r w' :
  quietly i w0 w → cas_post i pkey P im w r w' → cas_post i pkey P im w0 r w'.
Proof.
  intros Hq. destruct r as [s|[| | | | |]]; simpl.
  - by apply committed_before.
  - intros [H1 H2]. split; [by eapply quietly_trans|eapply during_before, H2; apply Hq].
  - by apply quietly_trans.
  - by apply quietly_trans.
  - by apply may_commit_before.
  - by apply quietly_trans.
  - by apply quietly_trans.
Qed.

Lemma cas_post_quiet_err i pkey P im w e w' :
  (∀ m k, e ≠ Conflict m k) → quietly i w w' → cas_post i pkey P im w (Err e) w'.
Proof. destruct e; simpl; intros H Hq; try done; [naive_solver|by left]. Qed.

Lemma cas_post_mono i pkey (P P' : option string → string → Manifest → Prop) im w r w' :
  (∀ b d m, P b d m → P' b d m) → cas_post i pkey P im w r w' → cas_post i pkey P' im w r w'.
Proof.
  intros HP. destruct r as [s|[| | | | |]]; simpl; [|done|done|done| |done|done].
  - apply committed_mono. naive_solver.
  - by apply may_commit_mono.
Qed.

Lemma allowed_moved im cur : allowed (precond_of im) cur = false → fst <$> cur ≠ im.
Proof.
  destruct im as [e|]; destruct cur as [[e' b]|]; simpl; try done.
  intros H%bool_decide_eq_false. congruence.
Qed.

Lemma wp_bind_post {A B} i (p : prog A) (f : A → prog B) S Q (R : B → World → Prop) w :
  wp good i p S Q w → (∀ a w', good w' → Q a w' → wp good i (f a) S R w') → wp good i (prog_bind p f) S R w.
Proof. intros H Hf. apply wp_bind. eapply wp_mono; [exact H|done|auto]. Qed.

Lemma wp_then_quiet {A B} i (p : prog A) (f : A → prog B) S Q (R : B → World → Prop) w :
  wp good i p S Q w →
  (∀ a w', good w' → Q a w' → quiet i (f a) (λ b _, ∀ w'', quietly i w' w'' → R b w'') w' ∧
     ∀ w'', quietly i w' w'' → S w'') →
  wp good i (prog_bind p f) S R w.
Proof.
  intros H Hf. eapply wp_bind_post; [exact H|]. intros a w' Hg HQ. destruct (Hf a w' Hg HQ) as [Hq HS].
  eapply quiet_wp; [exact Hq|exact HS|]. intros b w'' Hw'' HR. by apply HR.
Qed.

Lemma read_winner_after_conflict_spec i pkey w :
  quiet i (read_winner_after_conflict pkey) (λ _ _, True) w.
Proof.
  apply quiet_true; [by eapply quiet_map_err; [apply get_pointer_spec| |]|].
  intros [[e body]|] w1 Hw1; [|by apply quiet_ret]. cbv zeta. destruct (negb _); [by apply quiet_ret|].
  apply quiet_true.
  - eapply quiet_map_err; [|done|done]. apply quiet_true.
    + apply quiet_get. intros w2 [? ?| |] _ _; by apply quiet_ret.
    + intros b w2 _. by apply quiet_ret.
  - intros b w2 _. destruct (from_bytes b); by apply quiet_ret.
Qed.

(** What a handler has read, and may publish on. *)
Definition parent_ready (pkey : string) (ps : ParentState) (w : World) : Prop :=
  observed pkey (if_match ps) (parent_digest ps) w ∧ parent_packs_stored ps w.

Lemma parent_ready_grow pkey ps w w' : grow w w' → parent_ready pkey ps w → parent_ready pkey ps w'.
Proof.
  intros Hg [Ho Hp]. split; [by eapply observed_grow|]. eapply Forall_impl; [exact Hp|].
  intros k. by apply pack_stored_grow.
Qed.

(** A valid manifest is put and found published. *)
Lemma put_manifest_published {E} i (g : StoreError → E) m w :
  manifest_ok m → m_version m = MANIFEST_VERSION → is_canonical m → Forall (λ k, pack_stored k w) (m_packs m) →
  quiet i (map_err g (put_manifest (canonical_bytes m))) (λ r w', match r with
    | Ok key => ∃ d, key = manifest_key d ∧ published w' d m
    | Err e => e = g StoreBackend end) w.
Proof.
  intros Hok Hv Hc Hp. eapply quiet_map_err; [apply put_manifest_spec| |by intros e w1 w2 _ _ ->].
  intros key w1 w2 Hw1 Hw2 [-> Hs]. assert (immutable (manifest_key (sha256_hex (canonical_bytes m)))) as Him.
  { by eexists; right. }
  destruct (Hs Him) as [e He]. exists (sha256_hex (canonical_bytes m)). split; [done|].
  split_and!; [exists e; by eapply stored_grow|done..|]. intros k Hk. rewrite Forall_forall in Hp.
  eapply (pack_stored_grow _ w); [by eapply grow_trans|by apply Hp].
Qed.

Lemma strip_manifest_key d : strip_prefix "manifests/" (manifest_key d) = Some d.
Proof. by apply strip_prefix_Some. Qed.

Lemma bind_lift {E A B} (a : A) (f : A → PE E B) : (pe_lift (Ok a) ≫= f) = f a.
Proof. done. Qed.

Lemma put_pointer_from {E} i (g : StoreError → E) pkey d m ps (P : option string → string → Manifest → Prop) w0 w :
  is_pointer pkey → quietly i w0 w → published w d m → parent_ready pkey ps w →
  m_parent m = parent_digest ps ∨ parent_digest ps = Some d → P (parent_digest ps) d m →
  wp good i (map_err g (put_pointer pkey d (precond_of (if_match ps)))) (may_commit i pkey P w0)
    (λ r w', match r with
     | Ok (Won _) => committed i pkey P w0 w'
     | Ok LostRace => quietly i w0 w' ∧ during (length w0) w' (λ w1, fst <$> current pkey w1 ≠ if_match ps)
     | Err e => e = g StoreBackend ∧ may_commit i pkey P w0 w' end) w.
Proof.
  intros Hk Hq Hpub [Hobs _] Hpar HP.
  assert (∀ b d' m', b = parent_digest ps ∧ d' = d ∧ m' = m → P b d' m') as HP' by by intros b d' m' (-> & -> & ->).
  eapply wp_bind_post.
  { eapply wp_mono; [by apply put_pointer_spec| |intros a w' _ H; exact H].
    intros w' _ H. eapply may_commit_mono; [exact HP'|]. by eapply may_commit_before. }
  intros [[e|]|e] w1 Hg1 H; apply wp_ret; intros w2 Hw2.
  - eapply committed_after; [|exact Hw2]. eapply committed_mono; [exact HP'|]. by eapply committed_before.
  - destruct H as [H1 H2]. split; [eapply quietly_trans; [exact Hq|by eapply quietly_trans]|].
    eapply during_before; [apply Hq|]. eapply during_grow; [apply Hw2|].
    destruct H2 as (w3 & ? & ? & ? & H2). exists w3. split_and!; [done..|by apply allowed_moved].
  - destruct H as [-> H]. split; [done|]. eapply may_commit_after; [|exact Hw2].
    eapply may_commit_mono; [exact HP'|]. by eapply may_commit_before.
Qed.

Lemma commit_manifest_spec i pkey ps head refs m (P : option string → string → Manifest → Prop) w :
  is_pointer pkey → good w → parent_ready pkey ps w → composed (parent_digest ps) head refs m w →
  (∀ d, P (parent_digest ps) d m) →
  wp good i (commit_manifest pkey ps m) (may_commit i pkey P w) (cas_post i pkey P (if_match ps) w) w.
Proof.
  intros Hk Hg Hr (Hv & Hh & Hrf & Hpar & Hc & Hp) HP. unfold commit_manifest.
  destruct (validate m) as [[]|e] eqn:Hval; [|by apply wp_ret]. apply validate_ok in Hval.
  eapply quiet_then_pe; [by apply put_manifest_published|by left| |].
  2: { intros e w1 w2 Hw1 Hw2 ->. left. by eapply quietly_trans. }
  intros key w1 Hw1 (d & -> & Hpub). unfold digest_from_manifest_key. rewrite strip_manifest_key, bind_lift.
  eapply wp_bind_post.
  { eapply wp_mono; [eapply (put_pointer_from _ _ _ _ m _ (λ b d' m', P b d' m' ∧ m = m' ∧ d = d'));
      [done|done|done|by eapply parent_ready_grow; [apply Hw1|]|by left|done]| |intros a w' _ H; exact H].
    intros w' _. apply may_commit_mono. naive_solver. }
  intros [[etag|]|e] w2 Hg2 H.
  - apply wp_ret. intros w3 Hw3. eapply committed_after; [|exact Hw3]. eapply committed_mono; [|exact H].
    by intros b d' m' (? & -> & ->).
  - destruct H as [Hq Hd]. eapply quiet_wp; [eapply (quiet_bind_pe _ _ _ _ (λ r _, ∃ e, r = Err e));
      [apply read_winner_after_conflict_spec|intros; apply quiet_ret; by eexists|by eexists]| |].
    { intros w3 Hw3. left. by eapply quietly_trans. }
    intros r w3 Hw3 [e ->]. assert (quietly i w w3) as H3 by by eapply quietly_trans.
    destruct e; simpl; [split; [done|by eapply during_grow; [apply Hw3|]]|done|done|by left|done|done].
  - destruct H as [-> H]. apply wp_ret. intros w3 Hw3. eapply may_commit_after; [|exact Hw3].
    eapply may_commit_mono; [|exact H]. naive_solver.
Qed.

(** What a push publishes: the refs of the workspace and the head they resolve to,
    on the manifest that was read. *)
Definition push_commit (ps : ParentState) (ws : Workspace) (b : option string) (d : string) (m : Manifest) : Prop :=
  b = parent_digest ps ∧ m_parent m = parent_digest ps ∧
  ∃ sym, snapshot_workspace_state ws = Ok (m_refs m, sym) ∧
    m_head m = resolve_published_head (m_refs m) sym (m_head (ps_parent ps)).

Lemma composed_push_commit ps ws refs sym m w d :
  snapshot_workspace_state ws = Ok (refs, sym) →
  composed (parent_digest ps) (resolve_published_head refs sym (m_head (ps_parent ps))) refs m w →
  push_commit ps ws (parent_digest ps) d m.
Proof. intros Hs (_ & Hh & <- & Hp & _). split_and!; [done|done|]. by exists sym. Qed.

Lemma snapshot_no_conflict ws e : snapshot_workspace_state ws = Err e → e = PackCapture ∨ e = ResourceLimit.
Proof.
  unfold snapshot_workspace_state. destruct (for_each_ref ws) as [out|]; [|naive_solver].
  case_bool_decide; [naive_solver|]. destruct (snapshot_refs _ _) as [refs|e'] eqn:Hr; simpl.
  - destruct (symbolic_ref ws) as [[?|]|]; naive_solver.
  - intros [= ->]. clear H. revert Hr. generalize (∅ : gmap string string).
    induction (lines _) as [|l ls IH]; intros refs; simpl; [done|].
    destruct (split_once _ _) as [[? ?]|]; [|by apply IH]. destruct (_ || _); [by apply IH|].
    destruct (_ && _); [naive_solver|by apply IH].
Qed.

Lemma cas_publish_spec i pkey ws ps limits w :
  is_pointer pkey → good w → parent_ready pkey ps w →
  wp good i (cas_publish pkey ws ps limits) (may_commit i pkey (push_commit ps ws) w)
    (cas_post i pkey (push_commit ps ws) (if_match ps) w) w.
Proof.
  intros Hk Hg Hr. unfold cas_publish, cas_publish_inner.
  destruct (snapshot_workspace_state ws) as [[refs sym]|e] eqn:Hs.
  2: { apply wp_ret. intros w' Hw'. by destruct (snapshot_no_conflict _ _ Hs) as [-> | ->]. }
  rewrite bind_lift. cbv zeta. simpl fst. simpl snd.
  set (head := resolve_published_head refs sym _).
  eapply quiet_then; [by apply try_compaction_spec|by left|]. intros c w1 Hw1 Hc.
  eapply (quiet_then_pe _ _ _ (λ r w', match r with
    | Ok m => composed (parent_digest ps) head refs m w' | Err e => plain e end)).
  - assert (parent_packs_stored ps w1) as Hp by by eapply parent_ready_grow; [apply Hw1|].
    destruct c as [[m|e]|]; [|apply publish_delta_spec; [done|naive_solver]..].
    apply quiet_ret. intros w' Hw'. by eapply composed_grow.
  - intros w2 Hw2. left. by eapply quietly_trans.
  - intros m w2 Hw2 Hm. assert (quietly i w w2) as H2 by by eapply quietly_trans.
    eapply wp_mono; [eapply (commit_manifest_spec _ _ _ _ _ _ (push_commit ps ws)); [done|apply H2|by eapply parent_ready_grow; [apply H2|]|exact Hm|]| |].
    + intros d. by eapply composed_push_commit.
    + intros w' _. by apply may_commit_before.
    + intros r w' _. by apply cas_post_before.
  - intros e w2 w3 Hw2 Hw3 He. apply cas_post_quiet_err; [by intros m k ->|].
    eapply quietly_trans; [exact Hw1|by eapply quietly_trans].
Qed.

(** ** The lease *)

(** An operation under the lease: cut short, or done and possibly too late. *)
Lemma protect_spec {A} i pkey P lease (p : prog A) (Q : A → World → Prop) w0 w :
  good w → quietly i w0 w → (∀ a w1 w2, Q a w1 → quietly i w1 w2 → Q a w2) →
  (∀ a w', Q a w' → may_commit i pkey P w0 w') →
  wp good i p (may_commit i pkey P w0) Q w →
  wp good i (protect lease p) (may_commit i pkey P w0)
    (λ r w', match r with Ok a => Q a w' | Err _ => may_commit i pkey P w0 w' end) w.
Proof.
  intros Hg Hq Hst Hm H. unfold protect. destruct (verified lease); cbn [negb].
  2: { apply (wp_ret i (Err tt)). intros w' Hw'. left. by eapply quietly_trans. }
  eapply wp_bind_post.
  - apply wp_cut; [|by left|exact H]. intros w1 w2 He Hm1. eapply may_commit_after; [exact Hm1|by eapply quietly_env].
  - intros [a|] w1 Hg1 HQ.
    + destruct (still_held lease).
      * apply (wp_ret i (Ok a)). intros w2. by apply Hst.
      * apply (wp_ret i (Err tt)). intros w2 Hw2. eapply Hm, Hst; [exact HQ|exact Hw2].
    + apply (wp_ret i (Err tt)). intros w2 Hw2. by eapply may_commit_after.
Qed.

Lemma cas_post_after i pkey P im w0 r w1 w2 :
  cas_post i pkey P im w0 r w1 → quietly i w1 w2 → cas_post i pkey P im w0 r w2.
Proof.
  intros H Hq. destruct r as [s|[| | | | |]]; simpl in *; try by eapply quietly_trans.
  - by eapply committed_after.
  - destruct H as [H1 H2]. split; [by eapply quietly_trans|by eapply during_grow; [apply Hq|]].
  - by eapply may_commit_after.
Qed.

Lemma cas_post_may_commit i pkey P im w0 r w1 : cas_post i pkey P im w0 r w1 → may_commit i pkey P w0 w1.
Proof.
  destruct r as [s|[| | | | |]]; simpl; try (by left); try done.
  - intros H. right. eapply committed_mono; [|exact H]. naive_solver.
  - intros [H _]. by left.
Qed.

(** ** Pushes *)

(** What a push hydrated: the repository the pointer named at some moment since the
    push came in, or the empty one if the pointer was absent then. *)
Definition read_parent (start : nat) (pkey : string) (options : HydrationOptions) (repo : HydratedRepo)
    (ps : ParentState) (w : World) : Prop :=
  (∃ e d m, ps = from_loaded e d m ∧ during start w (λ w1, current pkey w1 = Some (e, d)) ∧
     published w d m ∧ (cache_ok options → hydrated m repo)) ∨
  (ps = fresh ∧ during start w (λ w1, current pkey w1 = None) ∧
     repo = {| hr_refs := ∅; hr_head := DEFAULT_HEAD; hr_packs := []; hydrated_bytes := 0 |}).

Lemma read_parent_grow start pkey options repo ps w w' :
  grow w w' → read_parent start pkey options repo ps w → read_parent start pkey options repo ps w'.
Proof.
  intros Hg [(e & d & m & -> & Hd & Hp & Hh)|(-> & Hd & ->)].
  - left. exists e, d, m. split_and!; [done|by eapply during_grow|by eapply published_grow|done].
  - right. split_and!; [done|by eapply during_grow|done].
Qed.

Lemma from_loaded_parent_ready start pkey e d m w :
  during start w (λ w1, current pkey w1 = Some (e, d)) → published w d m → parent_ready pkey (from_loaded e d m) w.
Proof.
  intros (w1 & [_ (l & ->)] & _ & _ & Hc) Hp. split.
  - apply current_elem in Hc as (a & Ha & Hk & He & Hb). exists a, d. split_and!; [set_solver|done..].
  - destruct Hp as (_ & _ & _ & (_ & _ & _ & _ & _ & Hpk & _) & Hs). unfold parent_packs_stored. simpl.
    apply Forall_forall. intros k Hk. rewrite Forall_forall in Hpk. split; [by apply Hpk|by apply Hs].
Qed.

Lemma read_parent_parent_ready start pkey options repo ps w :
  read_parent start pkey options repo ps w → parent_ready pkey ps w.
Proof.
  intros [(e & d & m & -> & Hd & Hp & _)|(-> & _ & _)]; [by eapply from_loaded_parent_ready|].
  split; [done|by constructor].
Qed.

Lemma hydrate_for_write_spec i pkey options w :
  is_pointer pkey →
  quiet i (hydrate_for_write pkey options) (λ r w', match r with
    | Ok (repo, ps) => read_parent (length w) pkey options repo ps w'
    | Err _ => True end) w.
Proof.
  intros Hk. eapply quiet_bind_pe; [by apply load_pointer_spec| |done].
  intros [[[e d] m]|] w1 Hw1 Hl.
  - destruct Hl as [Hd Hp]. eapply quiet_bind_pe; [by apply (materialize_manifest_spec _ _ d); [apply Hw1|]| |done].
    intros repo w2 Hw2 Hh. apply (quiet_ret i (Ok (repo, from_loaded e d m))). intros w3 Hw3.
    assert (grow w1 w3) as H3 by by eapply grow_trans.
    left. exists e, d, m. split_and!; [done|by eapply during_grow|by eapply published_grow|done].
  - destruct (scratch_ok options); cbn [negb]; [|by apply (quiet_ret i (Err Hydrate))].
    eapply (quiet_ret i (Ok _)). intros w2 Hw2. right. split_and!; [done|by eapply during_grow|done].
Qed.

(** [i] has made exactly one version of a pointer: of what the push left in the
    workspace, on what the push had read. *)
Definition pushed (i : nat) (req : PushRequest) (ps : ParentState) (received : Received) (w : World) : Prop :=
  ∃ a, own i w = [a] ∧ replaced i (push_pkey req) (push_commit ps (workspace received)) w a.

(** What the answer to push [i] means in a bucket [w]. *)
Definition push_truth (i start : nat) (req : PushRequest) (resp : PushResponse) (w : World) : Prop :=
  let read repo ps := read_parent start (push_pkey req) (push_options req) repo ps w in
  match resp with
  | GitResponse out =>
      ∃ repo ps received, read repo ps ∧ push_git req repo = Some received ∧ out = pack_stdout received ∧
        if pack_ok received then pushed i req ps received w else own i w = []
  | HttpConflict =>
      own i w = [] ∧ ∃ repo ps, read repo ps ∧
        during start w (λ w1, fst <$> current (push_pkey req) w1 ≠ if_match ps)
  | BadRequest | PayloadTooLarge => own i w = []
  | ServiceUnavailable | InternalServerError =>
      own i w = [] ∨ ∃ repo ps received, read repo ps ∧ push_git req repo = Some received ∧
        pack_ok received = true ∧ pushed i req ps received w
  end.

Lemma quietly_nil i w w' : own i w = [] → quietly i w w' → own i w' = [].
Proof. by intros H [-> _]. Qed.

Lemma committed_nil i pkey P w w' :
  own i w = [] → committed i pkey P w w' → ∃ a, own i w' = [a] ∧ replaced i pkey P w' a.
Proof. intros H (_ & a & Ho & Hr). exists a. by rewrite Ho, H. Qed.

Lemma may_commit_nil i pkey P w w' :
  own i w = [] → may_commit i pkey P w w' →
  own i w' = [] ∨ ∃ a, own i w' = [a] ∧ replaced i pkey P w' a.
Proof. intros H [Hq|Hc]; [left; by eapply quietly_nil|right; by eapply committed_nil]. Qed.

(** The answers [finalize_push] gives once it has published, or has failed to. *)
Definition push_response (req : PushRequest) (received : Received) (ps : ParentState)
    (r : result unit (result CasError CasSuccess)) : PushResponse :=
  match r with
  | Err _ => ServiceUnavailable
  | Ok (Ok success) => after_commit req received ps success
  | Ok (Err (Conflict _ _)) => HttpConflict
  | Ok (Err (ManifestInvalid _)) => BadRequest
  | Ok (Err ResourceLimit) => PayloadTooLarge
  | Ok (Err _) => InternalServerError
  end.

Lemma push_response_truth i start req repo ps received r w w' :
  let P := push_commit ps (workspace received) in
  own i w = [] → (start ≤ length w)%nat → grow w w' →
  read_parent start (push_pkey req) (push_options req) repo ps w → push_git req repo = Some received →
  pack_ok received = true →
  match r with
  | Ok a => cas_post i (push_pkey req) P (if_match ps) w a w'
  | Err _ => may_commit i (push_pkey req) P w w' end →
  push_truth i start req (push_response req received ps r) w'.
Proof.
  intros P Ho Hst Hg Hread Hgit Hok Hr. apply (read_parent_grow _ _ _ _ _ _ _ Hg) in Hread.
  assert (may_commit i (push_pkey req) P w w' → own i w' = [] ∨ ∃ repo ps received,
      read_parent start (push_pkey req) (push_options req) repo ps w' ∧ push_git req repo = Some received ∧
      pack_ok received = true ∧ pushed i req ps received w') as Hunsure.
  { intros [Hn|Ha]%(may_commit_nil _ _ _ _ _ Ho); [by left|right]. by exists repo, ps, received. }
  destruct r as [[success|e]|[]]; [|destruct e; simpl in Hr|by apply Hunsure].
  - assert (may_commit i (push_pkey req) P w w') as Hm by by eapply cas_post_may_commit.
    apply (committed_mono _ _ _ P) in Hr; [|naive_solver]. apply (committed_nil _ _ _ _ _ Ho) in Hr.
    unfold push_response, after_commit. cbv zeta. destruct (finished _); cbn [negb]; [|by apply Hunsure].
    match goal with |- context [if negb ?x then _ else _] => destruct x end; cbn [negb]; [|by apply Hunsure].
    exists repo, ps, received. by rewrite Hok.
  - destruct Hr as [Hq Hd]. split; [by eapply quietly_nil|]. exists repo, ps. split; [done|].
    destruct Hd as (w1 & ? & Hl & ?). exists w1. split_and!; [done|lia|tauto..].
  - left. by eapply quietly_nil.
  - by eapply quietly_nil.
  - by apply Hunsure.
  - left. by eapply quietly_nil.
  - by eapply quietly_nil.
Qed.

Lemma finalize_push_spec i start req repo ps received w :
  good w → own i w = [] → (start ≤ length w)%nat →
  read_parent start (push_pkey req) (push_options req) repo ps w → push_git req repo = Some received →
  wp good i (finalize_push req repo ps received) (λ _, True) (λ resp w', push_truth i start req resp w') w.
Proof.
  intros Hg Ho Hst Hread Hgit. unfold finalize_push. destruct (pack_ok received) eqn:Hok; cbn [negb].
  2: { apply wp_ret. intros w' Hw'. exists repo, ps, received. rewrite Hok.
       split_and!; [eapply read_parent_grow; [apply Hw'|done]|done|done|by eapply quietly_nil]. }
  destruct (acquired _); cbn [negb]; [|apply wp_ret; intros w' Hw'; left; by eapply quietly_nil].
  destruct (verified _) eqn:Hv; cbn [negb]; [|apply wp_ret; intros w' Hw'; left; by eapply quietly_nil].
  cbv zeta. set (limits := Build_PublishLimits _ _ _). set (P := push_commit ps (workspace received)).
  eapply wp_bind_post.
  - eapply wp_mono; [eapply (protect_spec i (push_pkey req) P _ _ (cas_post i (push_pkey req) P (if_match ps) w) w)| |].
    + done.
    + by apply quietly_refl.
    + intros a w1 w2. apply cas_post_after.
    + apply cas_post_may_commit.
    + apply cas_publish_spec; [apply address_key_pointer|done|by eapply read_parent_parent_ready].
    + done.
    + intros r w' _ H. exact H.
  - intros r w1 Hg1 Hr. apply (wp_ret _ (push_response req received ps r)). intros w2 Hw2.
    apply (push_response_truth _ _ _ repo _ _ _ w); try done.
    + destruct r as [a|[]]; [apply cas_post_may_commit in Hr|]; eapply may_commit_after in Hr; try exact Hw2;
        by destruct Hr as [[_ ?]|[? _]].
    + destruct r as [a|[]]; [by eapply cas_post_after|by eapply may_commit_after].
Qed.

Lemma receive_pack_spec i req w :
  good w → own i w = [] →
  wp good i (receive_pack req) (λ _, True) (λ resp w', push_truth i (length w) req resp w') w.
Proof.
  intros Hg Ho. eapply quiet_then; [apply hydrate_for_write_spec, address_key_pointer|done|].
  intros [[repo ps]|e] w1 Hw1 Hr.
  - destruct (push_git req repo) as [received|] eqn:Hgit.
    + apply finalize_push_spec; [apply Hw1|by eapply quietly_nil|by apply grow_length, Hw1|done|done].
    + apply wp_ret. intros w2 Hw2. left. by eapply quietly_nil, quietly_trans; [|exact Hw1|].
  - destruct e; apply wp_ret; intros w2 Hw2; try left; by eapply quietly_nil, quietly_trans; [|exact Hw1|].
Qed.

(** ** Default branches *)

(** What a change of the default branch publishes: the expected manifest with the new
    head; the same one again if it has that head already. *)
Definition set_commit (req : SetRequest) (digest : string) (changed : bool) (b : option string) (d : string)
    (m : Manifest) : Prop :=
  b = Some (expected_manifest req) ∧ d = digest ∧
  m_head m = ("refs/heads/" +:+ branch req)%stdpp ∧ is_Some (m_refs m !! m_head m) ∧
  if changed then m_parent m = Some (expected_manifest req) else digest = expected_manifest req.

(** The refs and packs are those of the manifest it was asked for. *)
Definition same_contents (w : World) (d : string) (m : Manifest) : Prop :=
  ∃ m0, published w d m0 ∧ m_refs m = m_refs m0 ∧ m_packs m = m_packs m0.

Definition set_done (i : nat) (req : SetRequest) (digest : string) (changed : bool) (w : World) : Prop :=
  ∃ a, own i w = [a] ∧
    replaced i (set_pkey req) (λ b d m, set_commit req digest changed b d m ∧ same_contents w (expected_manifest req) m) w a.

(** What the answer to default-branch change [i] means in a bucket [w]. *)
Definition set_truth (i start : nat) (req : SetRequest) (resp : SetResponse) (w : World) : Prop :=
  match resp with
  | SetDone digest changed => set_done i req digest changed w
  | SetNotFound => own i w = [] ∧ during start w (λ w1, current (set_pkey req) w1 = None)
  | SetConflict | SetBadRequest | SetUnavailable => own i w = []
  | SetBackend => own i w = [] ∨ ∃ digest changed, set_done i req digest changed w
  end.

Lemma published_canonical w d m : published w d m → is_canonical m ∧ m_version m = MANIFEST_VERSION.
Proof. by intros (_ & ? & ? & _). Qed.

(** The manifest with the new head, put. *)
Lemma put_set_head i e d m head start pkey w :
  during start w (λ w1, current pkey w1 = Some (e, d)) → published w d m → validate (set_head head d m) = Ok tt →
  quiet i (map_err (λ _, SetBackend) (put_manifest (canonical_bytes (set_head head d m)))) (λ r w', match r with
    | Ok key => ∃ d', key = manifest_key d' ∧ published w' d' (set_head head d m)
    | Err e => e = SetBackend end) w.
Proof.
  intros Hd Hp Hv. destruct (published_canonical _ _ _ Hp). apply put_manifest_published; [by apply validate_ok|done|done|].
  by apply (from_loaded_parent_ready start pkey e d m).
Qed.

Lemma new_digest_spec i start pkey e d m head w :
  during start w (λ w1, current pkey w1 = Some (e, d)) → published w d m →
  let changed := negb (bool_decide (m_head m = head)) in
  quiet i
    (if changed then
       match validate (set_head head d m) with
       | Err _ => throw SetBackend
       | Ok _ =>
           key ← map_err (λ _, SetBackend) (put_manifest (canonical_bytes (set_head head d m)));
           match strip_prefix "manifests/" key with None => throw SetBackend | Some d => ok d end
       end
     else ok d)
    (λ r w', match r with
     | Ok d' => ∃ m', published w' d' m' ∧ m_head m' = head ∧ m_refs m' = m_refs m ∧ m_packs m' = m_packs m ∧
         if changed then m_parent m' = Some d else d' = d
     | Err e => e = SetBackend end) w.
Proof.
  intros Hd Hp changed.
  subst changed. destruct (bool_decide_reflect (m_head m = head)) as [Heq|Hne]; cbn [negb].
  - apply (quiet_ret _ (Ok d)). intros w' Hw'. exists m. split_and!; [by eapply published_grow|done..].
  - destruct (validate _) as [[]|] eqn:Hv; [|by apply (quiet_ret _ (Err SetBackend))].
    eapply quiet_bind_pe; [by eapply put_set_head| |done]. intros key w1 Hw1 (d' & -> & Hp').
    rewrite strip_manifest_key. apply (quiet_ret _ (Ok d')). intros w2 Hw2.
    exists (set_head head d m). split_and!; [by eapply published_grow|done..].
Qed.

Definition kept (req : SetRequest) (d : string) (m m' : Manifest) : Prop :=
  d = expected_manifest req ∧ m_refs m' = m_refs m ∧ m_packs m' = m_packs m.

Definition set_post (i : nat) (req : SetRequest) (d : string) (m : Manifest) (w : World)
    (r : result SetResponse (string * bool)) (w' : World) : Prop :=
  match r with
  | Ok (digest, changed) =>
      committed i (set_pkey req) (λ b d' m', set_commit req digest changed b d' m' ∧ kept req d m m') w w'
  | Err SetBackend => may_commit i (set_pkey req)
      (λ b d' m', (∃ digest changed, set_commit req digest changed b d' m') ∧ kept req d m m') w w'
  | Err (SetConflict | SetBadRequest) => quietly i w w'
  | Err _ => False
  end.

Lemma snapshot_set_spec i start req e d m w :
  good w → during start w (λ w1, current (set_pkey req) w1 = Some (e, d)) → published w d m →
  wp good i (snapshot_set (set_pkey req) e d m req)
    (may_commit i (set_pkey req)
      (λ b d' m', (∃ digest changed, set_commit req digest changed b d' m') ∧ kept req d m m') w)
    (set_post i req d m w) w.
Proof.
  intros Hg Hd Hp. unfold snapshot_set.
  case_bool_decide as Hexp; cbn [negb]; [|by apply (wp_ret _ (Err SetConflict))]. cbv zeta.
  destruct (invalid_branch _); [by apply (wp_ret _ (Err SetBadRequest))|].
  case_bool_decide as Hhead; cbn [negb]; [|by apply (wp_ret _ (Err SetBadRequest))].
  set (head := ("refs/heads/" +:+ branch req)%stdpp) in *.
  set (P := λ b d' m', (∃ digest changed, set_commit req digest changed b d' m') ∧ kept req d m m').
  assert (is_pointer (set_pkey req)) as Hk by apply address_key_pointer.
  set (changed := negb (bool_decide (m_head m = head))).
  eapply (quiet_then_pe _ _ _ (λ r w', match r with
    | Ok d' => ∃ m', published w' d' m' ∧ m_head m' = head ∧ m_refs m' = m_refs m ∧ m_packs m' = m_packs m ∧
        if changed then m_parent m' = Some d else d' = d
    | Err e => e = SetBackend end)).
  - by eapply new_digest_spec.
  - by left.
  - intros d' w1 Hw1 (m' & Hp' & Hh' & Hr' & Hpk' & Hpar').
    assert (set_commit req d' changed (Some d) d' m') as Hcommit.
    { rewrite Hexp. split_and!; [done|done|done|by rewrite Hh', Hr'|]. by rewrite <-Hexp. }
    change (IfMatch e) with (precond_of (if_match (from_loaded e d m))).
    eapply wp_bind_post.
    + eapply wp_mono; [eapply (put_pointer_from _ _ _ _ m' _ (λ b d0 m0, b = Some d ∧ d0 = d' ∧ m0 = m'))| |].
      * done.
      * exact Hw1.
      * done.
      * eapply parent_ready_grow; [apply Hw1|by eapply from_loaded_parent_ready].
      * destruct changed; [by left|by right; subst d'].
      * done.
      * intros w2 _. apply may_commit_mono. intros b d0 m0 (-> & -> & ->). split_and!; [by eexists _, _|done..].
      * intros r w2 _ H. exact H.
    + intros [[etag|]|err] w2 Hg2 H.
      * apply (wp_ret _ (Ok (d', changed))). intros w3 Hw3. eapply committed_after; [|exact Hw3].
        eapply committed_mono; [|exact H]. by intros b d0 m0 (-> & -> & ->).
      * apply (wp_ret _ (Err SetConflict)). intros w3 Hw3. by eapply quietly_trans; [apply H|].
      * destruct H as [-> H]. apply (wp_ret _ (Err SetBackend)). intros w3 Hw3.
        eapply may_commit_after; [|exact Hw3]. eapply may_commit_mono; [|exact H].
        intros b d0 m0 (-> & -> & ->). split_and!; [by eexists _, _|done..].
  - intros err w1 w2 Hw1 Hw2 ->. left. by eapply quietly_trans.
Qed.

Lemma set_truth_of_post i start req d m r w w' :
  own i w = [] → published w' d m → set_post i req d m w r w' →
  match r with
  | Ok (digest, changed) => set_done i req digest changed w'
  | Err resp => set_truth i start req resp w'
  end.
Proof.
  intros Ho Hp. assert (∀ a digest changed,
    replaced i (set_pkey req) (λ b d' m', set_commit req digest changed b d' m' ∧ kept req d m m') w' a →
    replaced i (set_pkey req) (λ b d m, set_commit req digest changed b d m ∧ same_contents w' (expected_manifest req) m) w' a)
    as Hrep.
  { intros a digest changed (b & c & e & d' & m' & -> & -> & Hp' & Hc & -> & Hr & Hk).
    exists b, c, e, d', m'. split_and!; [done|done|done|done|]. by exists m. }
  destruct r as [[digest changed]|[]]; simpl; try done.
  - intros (a & Ha & Hr)%(committed_nil _ _ _ _ _ Ho). exists a. split; [done|by apply Hrep].
  - by apply quietly_nil.
  - by apply quietly_nil.
  - intros [Hn|(a & Ha & Hr)]%(may_commit_nil _ _ _ _ _ Ho); [by left|right].
    destruct Hr as (b & c & e & d' & m' & -> & -> & Hp' & (digest & changed & Hc) & Hk).
    exists digest, changed, (access i (set_pkey req) d' (Some e)). split; [done|]. apply Hrep.
    exists b, c, e, d', m'. by split_and!.
Qed.

Lemma set_post_after i req d m w r w1 w2 :
  set_post i req d m w r w1 → quietly i w1 w2 → set_post i req d m w r w2.
Proof.
  destruct r as [[digest changed]|[]]; simpl; try done; intros H Hq;
    [by eapply committed_after|by eapply quietly_trans|by eapply quietly_trans|by eapply may_commit_after].
Qed.

Lemma set_post_may_commit i req d m w r w1 :
  set_post i req d m w r w1 →
  may_commit i (set_pkey req) (λ b d' m', (∃ digest changed, set_commit req digest changed b d' m') ∧ kept req d m m') w w1.
Proof.
  destruct r as [[digest changed]|[]]; simpl; try done; [|by left|by left].
  intros H. right. eapply committed_mono; [|exact H]. naive_solver.
Qed.

Lemma set_done_backend i start req digest changed w : set_done i req digest changed w → set_truth i start req SetBackend w.
Proof. right. by exists digest, changed. Qed.

Lemma set_default_branch_spec i req w :
  good w → own i w = [] →
  wp good i (set_default_branch req) (λ _, True) (λ resp w', set_truth i (length w) req resp w') w.
Proof.
  intros Hg Ho. eapply quiet_then; [apply load_pointer_spec, address_key_pointer|done|].
  assert (∀ resp, match resp with SetUnavailable | SetBackend => True | _ => False end →
    ∀ w1 w2, quietly i w w1 → quietly i w1 w2 → set_truth i (length w) req resp w2) as Hnil.
  { intros resp Hresp w1 w2 H1 H2. assert (own i w2 = []) as Hn by by eapply quietly_nil, quietly_trans; [|exact H1|].
    destruct resp; simpl; try done. by left. }
  intros [[[[e d] m]|]|err] w1 Hw1 Hl; cbn beta iota.
  - destruct Hl as [Hd Hp]. destruct (acquired _); cbn [negb]; [|apply wp_ret; intros w2; by apply Hnil].
    destruct (verified _); cbn [negb]; [|apply wp_ret; intros w2; by apply Hnil].
    assert (own i w1 = []) as Ho1 by by eapply quietly_nil.
    eapply wp_bind_post.
    + eapply wp_mono; [eapply (protect_spec i (set_pkey req) _ _ _ (set_post i req d m w1) w1)| |].
      * apply Hw1.
      * by apply quietly_refl; apply Hw1.
      * intros a w2 w3. apply set_post_after.
      * apply set_post_may_commit.
      * eapply snapshot_set_spec; [apply Hw1|exact Hd|done].
      * done.
      * intros r w2 _ H. exact H.
    + intros r w2 Hg2 Hr. apply wp_ret. intros w3 Hw3.
      assert (∀ a, set_post i req d m w1 a w2 → match a with
        | Ok (digest, changed) => set_done i req digest changed w3 | Err resp => set_truth i (length w) req resp w3 end)
        as Hans.
      { intros a Ha. pose proof (set_post_after _ _ _ _ _ _ _ _ Ha Hw3) as Ha'.
        eapply set_truth_of_post; [exact Ho1| |exact Ha']. eapply published_grow; [|exact Hp].
        apply set_post_may_commit in Ha' as [[_ ?]|[? _]]; done. }
      destruct r as [[[digest changed]|resp]|[]].
      * apply (Hans (Ok (digest, changed))) in Hr. destruct (finished _); cbn [negb]; [|by eapply set_done_backend].
        destruct (changed && _); [by eapply set_done_backend|exact Hr].
      * by apply (Hans (Err resp)).
      * by apply (Hans (Err SetBackend)).
  - apply wp_ret. intros w2 Hw2. split; [by eapply quietly_nil, quietly_trans; [|exact Hw1|]|].
    by eapply during_grow; [apply Hw2|].
  - apply wp_ret. intros w2. by apply Hnil.
Qed.

(** ** Seeding and reading *)

Lemma current_grow key w w' : grow w w' → is_Some (current key w) → is_Some (current key w').
Proof.
  intros [_ (l & ->)] H. induction l as [|a l IH] using rev_ind; [by rewrite app_nil_r|].
  rewrite app_assoc, current_snoc. by destruct (effect_on key a).
Qed.

Lemma replaced_current i pkey P w a : good w → replaced i pkey P w a → is_Some (current pkey w).
Proof.
  intros Hg (b & c & e & d & m & -> & -> & _). apply (current_grow _ (b ++ [access i pkey d (Some e)])).
  - split; [done|]. exists c. by rewrite <-app_assoc.
  - rewrite current_snoc. unfold effect_on. simpl. by rewrite bool_decide_eq_true_2.
Qed.

Lemma get_pointer_seen {E} i (g : StoreError → E) pkey w :
  quiet i (map_err g (get_pointer pkey)) (λ r w', match r with
    | Ok (Some _) => is_Some (current pkey w') | _ => True end) w.
Proof.
  eapply quiet_map_err; [apply get_pointer_spec| |done]. intros [x|] w1 w2 Hw1 Hw2 Hd; [|done].
  destruct Hd as (w3 & Hw3 & _ & _ & Hc). eapply current_grow; [exact Hw2|].
  by eapply current_grow; [exact Hw3|eexists].
Qed.

(** Seeding makes at most the first version of the pointer, and succeeds only if
    there is one. *)
Definition seed_commit (b : option string) (d : string) (m : Manifest) : Prop := b = None ∧ m = empty_manifest.
Definition seed_post (i : nat) (pkey : string) (w : World) (r : result unit unit) (w' : World) : Prop :=
  may_commit i pkey seed_commit w w' ∧ (r = Ok tt → is_Some (current pkey w')).

Lemma seed_post_before i pkey w0 w r w' : quietly i w0 w → seed_post i pkey w r w' → seed_post i pkey w0 r w'.
Proof. intros Hq [Hm Hr]. split; [by eapply may_commit_before|done]. Qed.

Lemma seed_manifest_pointer_spec i pkey w :
  is_pointer pkey → good w →
  wp good i (seed_manifest_pointer pkey) (may_commit i pkey seed_commit w) (seed_post i pkey w) w.
Proof.
  intros Hk Hg. unfold seed_manifest_pointer. assert (validate empty_manifest = Ok tt) as Hv by done.
  rewrite Hv. apply validate_ok in Hv.
  assert (∀ r w', r ≠ Ok tt → quietly i w w' → seed_post i pkey w r w') as Hquiet by (split; [by left|done]).
  eapply (quiet_then_pe _ _ _ (λ r w', match r with
    | Ok key => ∃ d, key = manifest_key d ∧ published w' d empty_manifest | Err e => e = tt end)).
  { apply put_manifest_published; [done|done|done|by constructor]. }
  { by left. }
  2: { intros e w1 w2 Hw1 Hw2 _. apply Hquiet; [done|by eapply quietly_trans]. }
  intros key w1 Hw1 (d & -> & Hp). rewrite strip_manifest_key.
  change IfNoneMatchStar with (precond_of (if_match fresh)). eapply wp_bind_post.
  { eapply (put_pointer_from _ _ _ _ empty_manifest fresh seed_commit w); [done|done|done|split; [done|by constructor]|by left|done]. }
  intros [[etag|]|e] w2 Hg2 H.
  - apply (wp_ret _ (Ok tt)). intros w3 Hw3. assert (committed i pkey seed_commit w w3) as Hc by by eapply committed_after.
    split; [by right|]. intros _. destruct Hc as ([Hg3 _] & a & _ & Hr). by eapply replaced_current.
  - destruct H as [Hq _]. eapply quiet_then_pe.
    + apply get_pointer_seen.
    + intros w3 Hw3. left. by eapply quietly_trans.
    + intros [[e body]|] w3 Hw3 HQ; [|apply (wp_ret _ (Err tt)); intros w4 Hw4; apply Hquiet; [done|]].
      * assert (∀ w4, quietly i w3 w4 → quietly i w w4) as H4.
        { intros w4 Hw4. eapply quietly_trans; [exact Hq|by eapply quietly_trans]. }
        case_bool_decide; [apply (wp_ret _ (Ok tt))|apply (wp_ret _ (Err tt))]; intros w4 Hw4.
        -- split; [left; by apply H4|]. intros _. by eapply current_grow; [apply Hw4|].
        -- by apply Hquiet; [|apply H4].
      * eapply quietly_trans; [exact Hq|by eapply quietly_trans].
    + intros e w3 w4 Hw3 Hw4 _. apply Hquiet; [done|]. eapply quietly_trans; [exact Hq|by eapply quietly_trans].
  - destruct H as [-> H]. apply (wp_ret _ (Err tt)). intros w3 Hw3. split; [by eapply may_commit_after|done].
Qed.

Lemma ensure_manifest_pointer_spec i pkey w :
  is_pointer pkey → good w →
  wp good i (ensure_manifest_pointer pkey) (may_commit i pkey seed_commit w) (seed_post i pkey w) w.
Proof.
  intros Hk Hg. eapply quiet_then_pe.
  - apply get_pointer_seen.
  - by left.
  - intros [x|] w1 Hw1 HQ.
    + apply (wp_ret _ (Ok tt)). intros w2 Hw2. split; [left; by eapply quietly_trans|].
      intros _. by eapply current_grow; [apply Hw2|].
    + eapply wp_mono; [apply seed_manifest_pointer_spec; [done|apply Hw1]| |].
      * intros w2 _. by apply may_commit_before.
      * intros r w2 _. by apply seed_post_before.
  - intros e w1 w2 Hw1 Hw2 _. split; [left; by eapply quietly_trans|done].
Qed.

(** What the answer to a read means: a complete repository the pointer named at some
    moment since the read came in. *)
Definition read_truth (start : nat) (pkey : string) (r : result HydrateError (option HydratedRepo)) (w : World) : Prop :=
  match r with
  | Ok None => during start w (λ w1, current pkey w1 = None)
  | Ok (Some repo) => ∃ e d m,
      during start w (λ w1, current pkey w1 = Some (e, d)) ∧ published w d m ∧ hydrated m repo
  | Err e => local_failure e
  end.

Lemma hydrate_for_read_spec i pkey options w :
  is_pointer pkey →
  quiet i (hydrate_for_read pkey options) (λ r w', cache_ok options → read_truth (length w) pkey r w') w.
Proof.
  intros Hk. eapply quiet_bind_pe; [by apply load_pointer_spec| |by intros e w1 w2 _ _ He _; left].
  intros [[[e d] m]|] w1 Hw1 Hl; [|by apply (quiet_ret _ (Ok None)); intros w2 Hw2 _; eapply during_grow].
  destruct Hl as [Hd Hp].
  eapply quiet_bind_pe; [by apply (materialize_manifest_spec _ _ d); [apply Hw1|]| |done].
  intros repo w2 Hw2 Hh. apply (quiet_ret _ (Ok (Some repo))). intros w3 Hw3 Hc.
  assert (grow w1 w3) as H3 by by eapply grow_trans.
  exists e, d, m. split_and!; [by eapply during_grow|by eapply published_grow|by apply Hh].
Qed.

(** ** Every request *)

Definition seed_truth (i : nat) (pkey : string) (r : result unit unit) (w : World) : Prop :=
  (own i w = [] ∨ ∃ a, own i w = [a] ∧ replaced i pkey seed_commit w a) ∧
  (r = Ok tt → is_Some (current pkey w)).

Definition truth (r : Request) (i start : nat) (out : Outcome) (w : World) : Prop :=
  match r, out with
  | PushR req, PushDone resp => push_truth i start req resp w
  | SetR req, SetOutcome resp => set_truth i start req resp w
  | SeedR repo, SeedDone res | EnsureR repo, SeedDone res => seed_truth i (address_key repo) res w
  | ReadR repo options, ReadDone res =>
      own i w = [] ∧ (cache_ok options → read_truth start (address_key repo) res w)
  | _, _ => False
  end.

Lemma own_fresh i w : Forall (λ a, a_author a ≠ i) w → own i w = [].
Proof.
  rewrite Forall_forall. intros H. apply elem_of_nil_inv. intros a [[Ha _] Hin]%list_elem_of_filter.
  by apply (H a).
Qed.

Lemma wp_map {A B} i (p : prog A) (f : A → B) (S : World → Prop) (Q : A → World → Prop) (R : B → World → Prop) w :
  wp good i p S Q w → (∀ a w', Q a w' → R (f a) w') → wp good i (prog_bind p (λ a, Ret (f a))) (λ _, True) R w.
Proof.
  intros H Hf. revert w H. induction p as [a|key body cond k IH|key k IH|key k IH]; simpl; intros w H.
  - intros w1 He. by apply Hf, H.
  - intros w1 reply w2 He Hp Hn. destruct (H _ _ _ He Hp Hn) as (? & _ & ?). auto.
  - intros w1 reply He Hr. by eapply IH, H.
  - intros w1 reply He Hr. by eapply IH, H.
Qed.

Lemma seed_post_truth i pkey w r w' : own i w = [] → seed_post i pkey w r w' → seed_truth i pkey r w'.
Proof. intros Ho [Hm Hr]. split; [by eapply may_commit_nil|done]. Qed.

(** Every request keeps the invariant, and its answer is true. *)
Lemma handle_spec r i w :
  good w → Forall (λ a, a_author a ≠ i) w → wp good i (handle r) (λ _, True) (truth r i (length w)) w.
Proof.
  intros Hg Ho%own_fresh. destruct r as [req|req|repo|repo|repo options].
  - by eapply wp_map; [by apply receive_pack_spec|].
  - by eapply wp_map; [by apply set_default_branch_spec|].
  - eapply wp_map; [by apply seed_manifest_pointer_spec; [apply address_key_pointer|]|].
    intros res w'. by apply seed_post_truth.
  - eapply wp_map; [by apply ensure_manifest_pointer_spec; [apply address_key_pointer|]|].
    intros res w'. by apply seed_post_truth.
  - eapply wp_map; [by apply hydrate_for_read_spec, address_key_pointer|].
    intros res w' (Hn & _ & Hr). split; [by rewrite Hn|done].
Qed.

Lemma handled s :
  sys_reachable handle s → no_collision (world s) →
  good (world s) ∧ ∀ i r start out,
    procs s !! i = Some (Build_Proc r start (Ret out)) → truth r i start out (world s).
Proof.
  intros Hr Hn. eapply (wp_sound good handle (λ r i start out w, truth r i start out w)); [constructor| |done|done].
  intros r i w. apply handle_spec.
Qed.

(** ** One linear history *)

(** The digests a pointer was given, one for each write that took effect. *)
Definition versions (key : string) (w : list Access) : list string := omap (λ a, snd <$> effect_on key a) w.

(** Each manifest's parent is the one before it; the first has none. *)
Fixpoint linked (parent : option string) (h : list (string * Manifest)) : Prop :=
  match h with
  | [] => True
  | (d, m) :: h' => m_parent m = parent ∧ linked (Some d) h'
  end.

Lemma dedup_snoc l x : dedup (l ++ [x]) = if bool_decide (last l = Some x) then dedup l else dedup l ++ [x].
Proof.
  induction l as [|y [|z l] IH]; [done| |].
  - simpl. destruct (decide (y = x)) as [->|Hne]; [by rewrite !bool_decide_eq_true_2|].
    by rewrite !bool_decide_eq_false_2 by congruence.
  - change (last (y :: z :: l)) with (last (z :: l)).
    change (dedup ((y :: z :: l) ++ [x])) with
      (if bool_decide (y = z) then dedup ((z :: l) ++ [x]) else y :: dedup ((z :: l) ++ [x])).
    rewrite IH. rewrite dedup_cons2. destruct (bool_decide (y = z)), (bool_decide (last (z :: l) = Some x)); done.
Qed.

Lemma linked_snoc_manifest p h d m :
  linked p (h ++ [(d, m)]) ↔ linked p h ∧ m_parent m = (if last h is Some x then Some x.1 else p).
Proof.
  revert p. induction h as [|[d' m'] h IH]; intros p; simpl; [naive_solver|]. rewrite IH.
  destruct h as [|y h]; [simpl; naive_solver|].
  change (last ((d', m') :: y :: h)) with (last (y :: h)). destruct (last (y :: h)) eqn:Hl; [naive_solver|].
  by apply last_None in Hl.
Qed.

Lemma published_unique w d m m' : published w d m → published w d m' → m = m'.
Proof.
  intros ([e He] & Hc & Hv & _) ([e' He'] & Hc' & Hv' & _). rewrite He in He'. injection He' as _ Heq.
  pose proof (from_bytes_canonical _ Hc Hv) as H1. pose proof (from_bytes_canonical _ Hc' Hv') as H2.
  rewrite Heq in H1. congruence.
Qed.

Lemma linked_lookup p h i d m :
  linked p h → h !! i = Some (d, m) →
  m_parent m = match i with O => p | S j => fst <$> h !! j end.
Proof.
  revert p i. induction h as [|[d' m'] h IH]; intros p i Hl Hi; [done|]. destruct Hl as [Hp Hl].
  destruct i as [|i]; [by injection Hi as -> ->|]. rewrite (IH _ _ Hl Hi). by destruct i.
Qed.

Lemma linked_distinct w h i j d m m' :
  Forall (λ x, published w x.1 x.2) h → linked None h →
  h !! i = Some (d, m) → h !! j = Some (d, m') → i = j.
Proof.
  intros Hp Hl. rewrite Forall_lookup in Hp. revert j d m m'. induction i as [|i IH]; intros j d m m' Hi Hj.
  all: assert (m = m') as <- by (eapply published_unique; [exact (Hp _ _ Hi)|exact (Hp _ _ Hj)]).
  all: pose proof (linked_lookup _ _ _ _ _ Hl Hi) as H1; pose proof (linked_lookup _ _ _ _ _ Hl Hj) as H2.
  all: assert (∀ n x, h !! S n = Some x → is_Some (h !! n)) as Hpre
    by (intros n x Hx%lookup_lt_Some; apply lookup_lt_is_Some; lia).
  - destruct j as [|j]; [done|]. cbv iota in H1, H2. destruct (Hpre _ _ Hj) as [x Hx]. rewrite Hx in H2. simpl in H2. congruence.
  - destruct (Hpre _ _ Hi) as [[d1 m1] Hx]. cbv iota in H1. rewrite Hx in H1. simpl in H1. destruct j as [|j]; [congruence|].
    destruct (Hpre _ _ Hj) as [[d2 m2] Hy]. cbv iota in H2. rewrite Hy in H2. simpl in H2.
    assert (d1 = d2) as -> by congruence. f_equal. by eapply IH.
Qed.

Lemma linked_NoDup w h :
  Forall (λ x, published w x.1 x.2) h → linked None h → NoDup h.*1.
Proof.
  intros Hp Hl. apply NoDup_alt. intros i j d Hi Hj. rewrite list_lookup_fmap in Hi, Hj.
  destruct (h !! i) as [[d1 m1]|] eqn:H1; [|done]. destruct (h !! j) as [[d2 m2]|] eqn:H2; [|done].
  simpl in *. simplify_eq. by eapply linked_distinct.
Qed.

Lemma versions_snoc key w a :
  versions key (w ++ [a]) = versions key w ++ (if effect_on key a is Some x then [x.2] else []).
Proof. unfold versions. rewrite omap_app. simpl. by destruct (effect_on key a). Qed.

Lemma versions_last key w : last (versions key w) = snd <$> current key w.
Proof.
  induction w as [|a w IH] using rev_ind; [done|]. rewrite versions_snoc, current_snoc.
  destruct (effect_on key a); [by rewrite last_snoc|by rewrite app_nil_r].
Qed.

Lemma last_fst (h : list (string * Manifest)) : last h.*1 = fst <$> last h.
Proof. apply fmap_last. Qed.

Lemma good_linear w key :
  good w → is_pointer key →
  ∃ h, dedup (versions key w) = h.*1 ∧ Forall (λ x, published w x.1 x.2) h ∧ linked None h ∧
    last h.*1 = snd <$> current key w.
Proof.
  intros Hg Hk. induction Hg as [|w a Hg (h & Hv & Hp & Hl & Hc) Ha]; [by exists []|].
  assert (grow w (w ++ [a])) as Hgr by (split; [by constructor|by eexists]).
  assert (Forall (λ x, published (w ++ [a]) x.1 x.2) h) as Hp'.
  { eapply Forall_impl; [exact Hp|]. intros x. by apply published_grow. }
  rewrite versions_snoc, current_snoc. destruct (effect_on key a) as [[e b]|] eqn:He.
  2: { exists h. by rewrite app_nil_r. }
  apply effect_on_Some in He as (<- & He & <-). destruct (Ha _ He) as (_ & _ & Hcommit).
  destruct (Hcommit Hk) as (m & Hm & Hpar). apply (published_grow _ _ _ _ Hgr) in Hm. simpl.
  rewrite dedup_snoc, versions_last. case_bool_decide as Hlast.
  { exists h. by rewrite Hc. }
  exists (h ++ [(a_body a, m)]). rewrite fmap_app, Hv. split_and!; [done| | |apply last_snoc].
  - apply Forall_app. split; [done|by apply Forall_singleton].
  - apply linked_snoc_manifest. split; [done|]. rewrite last_fst in Hc.
    destruct (current (a_key a) w) as [[e' prev]|]; simpl in *.
    + destruct (last h) as [x|]; [|done]. destruct Hpar as [Hb|Hpar]; [by rewrite Hb in Hlast|]. injection Hc as Hc. rewrite Hpar. simpl. by rewrite Hc.
    + by destruct (last h).
Qed.

(** C8. However the pushes, default-branch changes and seedings of any relays
    interleave, a repository has one linear history: the digests its pointer was
    given, without repetitions, are published manifests, whose packs are all stored,
    each the child of the one before it and the first a root; no digest comes back
    once it was replaced.  So no update is lost and no two updates fork. *)
Theorem history_linear s repo :
  sys_reachable handle s → no_collision (world s) →
  ∃ h, dedup (versions (address_key repo) (world s)) = h.*1 ∧
    Forall (λ x, published (world s) x.1 x.2) h ∧ linked None h ∧ NoDup h.*1 ∧
    last h.*1 = snd <$> current (address_key repo) (world s).
Proof.
  intros Hr Hn. destruct (handled s Hr Hn) as [Hg _].
  destruct (good_linear _ _ Hg (address_key_pointer repo)) as (h & Hv & Hp & Hl & Hc).
  exists h. split_and!; [done|done|done|by eapply linked_NoDup|done].
Qed.

(** C10. The answer to a push is true: a report of success came with exactly one
    version of the pointer, of the refs and head the push left in its workspace, on
    exactly the version it had read since it came in; a rejected report, 409, 400
    and 413 came with none, 409 moreover with the pointer seen moved; only 500 and
    503 leave open whether that one version was made. *)
Theorem push_truthful s i req start resp :
  sys_reachable handle s → no_collision (world s) →
  procs s !! i = Some (Build_Proc (PushR req) start (Ret (PushDone resp))) →
  push_truth i start req resp (world s).
Proof. intros Hr Hn Hp. by apply (proj2 (handled s Hr Hn)) in Hp. Qed.

(** The answer to a default-branch change is true: success came with exactly one
    version of the pointer, which replaced the expected manifest and differs from it
    only in the head, now a branch it has; a refusal came with none. *)
Theorem default_branch_truthful s i req start resp :
  sys_reachable handle s → no_collision (world s) →
  procs s !! i = Some (Build_Proc (SetR req) start (Ret (SetOutcome resp))) →
  set_truth i start req resp (world s).
Proof. intros Hr Hn Hp. by apply (proj2 (handled s Hr Hn)) in Hp. Qed.

(** C21. A read whose pack cache holds what it verified serves the refs, head and packs
    of a manifest the pointer named at some moment since the read came in, every pack
    by the bytes its key is the digest of, however many pushes land meanwhile; it
    fails only in transport, for size, or on its own machine. *)
Theorem read_consistent s i repo options start r :
  sys_reachable handle s → no_collision (world s) → cache_ok options →
  procs s !! i = Some (Build_Proc (ReadR repo options) start (Ret (ReadDone r))) →
  read_truth start (address_key repo) r (world s).
Proof. intros Hr Hn Hc Hp. apply (proj2 (handled s Hr Hn)) in Hp as [_ Ht]. by apply Ht. Qed.

(** ** A push of which one ref is rejected *)

(** The status report of [git receive-pack] as the side-band carries it: the status
    lines are frames of their own inside one frame of channel 1. *)
Definition status_report (lines : list string) : string :=
  (pkt_line (String (ascii_of_nat 1) (concat_strings (pkt_line <$> lines) +:+ "0000")) +:+ "0000")%stdpp.

Fixpoint frames_length (lines : list string) : nat :=
  match lines with [] => O | l :: ls => String.length l + 4 + frames_length ls end.

Lemma concat_pkt_lines_length lines :
  Forall (λ p, N.of_nat (String.length p) ≤ PKT_LINE_MAX_PAYLOAD)%N lines →
  String.length (concat_strings (pkt_line <$> lines)) = frames_length lines.
Proof.
  induction 1 as [|p lines Hp _ IH]; [done|].
  change (concat_strings (pkt_line <$> p :: lines)) with (pkt_line p +:+ concat_strings (pkt_line <$> lines))%stdpp.
  rewrite string_length_app, IH. unfold pkt_line. rewrite bool_decide_eq_false_2 by lia.
  rewrite string_length_app. change (String.length (hex4 _)) with 4%nat. cbn [frames_length]. lia.
Qed.

Lemma status_report_rejected lines line :
  (N.of_nat (frames_length lines) + 5 ≤ PKT_LINE_MAX_PAYLOAD)%N →
  line ∈ lines → starts_with line "ng " = true → receive_pack_report_rejected (status_report lines) = true.
Proof.
  intros Hlen Hin Hng. assert (Forall (λ p, N.of_nat (String.length p) ≤ PKT_LINE_MAX_PAYLOAD)%N lines) as Hall.
  { apply Forall_forall. intros p Hp. clear Hin Hng. induction lines as [|q lines IH]; [by apply not_elem_of_nil in Hp|].
    cbn [frames_length] in Hlen. apply elem_of_cons in Hp as [->|Hp]; [lia|]. apply IH; [lia|done]. }
  unfold status_report, receive_pack_report_rejected. rewrite pkt_lines_cons.
  - cbn [existsb]. rewrite (bool_decide_eq_true_2 (nat_of_ascii _ = 1%nat)) by done.
    rewrite pkt_lines_list by done. apply orb_true_iff. left. apply existsb_exists. exists line.
    split; [|done]. apply list_elem_of_In, elem_of_app. by left.
  - cbn [String.length]. rewrite string_length_app, concat_pkt_lines_length by done.
    change (String.length "0000") with 4%nat. lia.
Qed.

(** A push of which [git] rejects one ref publishes nothing, however many refs it
    accepted: the client is sent the report all the same, its [ok] lines included. *)
Theorem one_rejected_ref_drops_push s i req start out :
  sys_reachable handle s → no_collision (world s) →
  procs s !! i = Some (Build_Proc (PushR req) start (Ret (PushDone (GitResponse out)))) →
  (∀ repo received, push_git req repo = Some received → ∃ lines line,
     pack_stdout received = status_report lines ∧
     (N.of_nat (frames_length lines) + 5 ≤ PKT_LINE_MAX_PAYLOAD)%N ∧
     line ∈ lines ∧ starts_with line "ng " = true) →
  own i (world s) = [] ∧
  ∃ repo received, push_git req repo = Some received ∧ out = pack_stdout received.
Proof.
  intros Hr Hn Hp Hgit. apply (proj2 (handled s Hr Hn)) in Hp as (repo & ps & received & _ & Hg & -> & Hown).
  destruct (Hgit _ _ Hg) as (lines & line & Ho & Hl & Hin & Hng).
  unfold pack_ok in Hown. rewrite Ho, (status_report_rejected _ _ Hl Hin Hng), andb_false_r in Hown.
  split; [done|]. by exists repo, received.
Qed.

(** ** Limits *)

(** What holds of the answer whatever the bucket replies. *)
Fixpoint whatever {A} (p : prog A) (Q : A → Prop) : Prop :=
  match p with
  | Ret a => Q a
  | Put _ _ _ k => ∀ r, whatever (k r) Q
  | Get _ k => ∀ r, whatever (k r) Q
  | Head _ k => ∀ r, whatever (k r) Q
  end.

Lemma whatever_bind {A B} (p : prog A) (f : A → prog B) Q R :
  whatever p Q → (∀ a, Q a → whatever (f a) R) → whatever (prog_bind p f) R.
Proof. induction p; simpl; auto. Qed.

Lemma whatever_mono {A} (p : prog A) (Q R : A → Prop) : whatever p Q → (∀ a, Q a → R a) → whatever p R.
Proof. intros H HQ. induction p; simpl in *; auto. Qed.

Lemma whatever_true {A} (p : prog A) : whatever p (λ _, True).
Proof. induction p; simpl; auto. Qed.

Lemma whatever_bind_pe {E A B} (p : PE E A) (f : A → PE E B) (Q : A → Prop) (R : B → Prop) :
  whatever p (λ r, ∀ a, r = Ok a → Q a) → (∀ a, Q a → whatever (f a) (λ r, ∀ b, r = Ok b → R b)) →
  whatever (x ← p; f x) (λ r, ∀ b, r = Ok b → R b).
Proof. intros H Hf. eapply whatever_bind; [exact H|]. intros [a|e] Ha; [by apply Hf, Ha|done]. Qed.

Definition total_bytes (packs : list string) : Z := foldr (λ b n, str_len b + n)%Z 0%Z packs.

Lemma total_bytes_app p q : total_bytes (p ++ q) = (total_bytes p + total_bytes q)%Z.
Proof. unfold total_bytes. induction p as [|b p IH]; simpl; [done|]. rewrite IH. lia. Qed.

Lemma fetch_packs_bounded options keys total acc :
  (total = total_bytes acc ∧ total ≤ Z.max 0 (max_repo_bytes options) ∧ total ≤ u64_max)%Z →
  Forall (λ b, str_len b ≤ max_pack_bytes options)%Z acc →
  whatever (fetch_packs options keys total acc) (λ r, ∀ x, r = Ok x →
    length x.1 = (length acc + length keys)%nat ∧
    Forall (λ b, str_len b ≤ max_pack_bytes options)%Z x.1 ∧
    x.2 = total_bytes x.1 ∧ (x.2 ≤ Z.max 0 (max_repo_bytes options))%Z ∧ (x.2 ≤ u64_max)%Z).
Proof.
  revert total acc. induction keys as [|k keys IH]; intros total acc (Ht & Hr & Hu) Ha; cbn [fetch_packs].
  { intros x [= <-]. simpl. split_and!; [lia|done..]. }
  destruct (strip_prefix _ _) as [d|]; [|done]. eapply whatever_bind; [apply whatever_true|].
  intros [bytes|e] _; [|done]. do 3 (case_bool_decide; [done|]).
  assert (total_bytes (acc ++ [bytes]) = total + str_len bytes)%Z as Htb.
  { rewrite total_bytes_app, Ht. unfold total_bytes. simpl. lia. }
  eapply whatever_mono; [apply IH|].
  - split; [done|lia].
  - apply Forall_app. split; [done|]. apply Forall_singleton. lia.
  - intros r Hq x Hx. destruct (Hq x Hx) as (Hl & H3). split; [|done].
    rewrite length_app in Hl. simpl in *. lia.
Qed.

(** A workspace that is safe to hand to [git]: ref names that stay inside it, object
    names, and no more than the limits. *)
Definition within_limits (options : HydrationOptions) (repo : HydratedRepo) : Prop :=
  is_safe_refname (hr_head repo) = true ∧
  (∀ r o, hr_refs repo !! r = Some o → is_safe_refname r = true ∧ is_hex_oid o = true) ∧
  (Z.of_nat (size (hr_refs repo)) ≤ MAX_MANIFEST_REFS)%Z ∧
  (length (hr_packs repo) ≤ MAX_MANIFEST_PACKS)%nat ∧
  Forall (λ b, str_len b ≤ max_pack_bytes options)%Z (hr_packs repo) ∧
  hydrated_bytes repo = total_bytes (hr_packs repo) ∧
  (hydrated_bytes repo ≤ Z.max 0 (max_repo_bytes options))%Z ∧ (hydrated_bytes repo ≤ u64_max)%Z.

Lemma materialize_manifest_bounded options m :
  manifest_ok m → whatever (materialize_manifest options m) (λ r, ∀ repo, r = Ok repo → within_limits options repo).
Proof.
  intros (Hp & Hn & _ & Hh & Hr & _). unfold materialize_manifest. destruct (scratch_ok options); [|done].
  eapply whatever_bind_pe; [apply fetch_packs_bounded; [|by constructor]; unfold total_bytes, u64_max; simpl; lia|].
  intros [packs n] (Hl & Hb & Ht & Hm & Hu). destruct (install_refs _); [|done].
  destruct (is_safe_refname (m_head m)) eqn:Hs; [|done]. intros repo [= <-]. unfold within_limits. simpl in *.
  split_and!; try done. lia.
Qed.

Lemma load_pointer_valid pkey :
  whatever (load_pointer pkey) (λ r, ∀ p, r = Ok p → ∀ e d m, p = Some (e, d, m) → manifest_ok m).
Proof.
  apply (whatever_bind_pe _ _ (λ _, True)); [by eapply whatever_mono; [apply whatever_true|]|].
  intros [[e body]|] _; [|by intros p [= <-]]. cbv zeta. destruct (negb _); [done|].
  eapply whatever_bind; [apply whatever_true|]. intros [b|err] _; [|done]. simpl.
  destruct (from_bytes b) as [m|]; [|done]. destruct (validate m) as [[]|] eqn:Hv; [|done].
  intros p [= <-] e' d m' [= <- <- <-]. by apply validate_ok.
Qed.

(** Whatever a faulty or hostile bucket replies, a repository that is hydrated, to
    be read or to be pushed to, has ref names that cannot leave the workspace, at most
    10000 refs and 128 packs, no pack over the pack limit and no more bytes in all
    than the repository limit, counted without overflow. *)
Theorem hydration_within_limits pkey options :
  whatever (hydrate_for_read pkey options) (λ r, ∀ repo, r = Ok (Some repo) → within_limits options repo) ∧
  whatever (hydrate_for_write pkey options) (λ r, ∀ repo ps, r = Ok (repo, ps) → within_limits options repo).
Proof.
  split.
  - eapply (whatever_mono _ (λ r, ∀ o, r = Ok o → ∀ repo, o = Some repo → within_limits options repo)); [|naive_solver].
    eapply whatever_bind_pe; [apply load_pointer_valid|]. intros [[[e d] m]|] Hm; [|by intros o [= <-]].
    eapply whatever_bind_pe; [by apply materialize_manifest_bounded, (Hm e d m)|].
    by intros repo Hrepo o [= <-] repo' [= <-].
  - eapply (whatever_mono _ (λ r, ∀ o, r = Ok o → within_limits options o.1)); [|intros r Hr repo ps; apply Hr].
    eapply whatever_bind_pe; [apply load_pointer_valid|]. intros [[[e d] m]|] Hm.
    + eapply whatever_bind_pe; [by apply materialize_manifest_bounded, (Hm e d m)|].
      by intros repo Hrepo o [= <-].
    + destruct (scratch_ok options); [|done]. intros o [= <-]. unfold within_limits, total_bytes, u64_max. simpl.
      split_and!; try done; try lia.
Qed.
End answers.
