(* ===== verification/GitRun.v ===== *)
(** * Hosted repositories: runs

    An executable scheduler for the systems of [GitStore] whose runs are reachable,
    a concrete instance of the digest and of the manifest's encoding, and a run in
    which two pushes race for one repository: the theorems of [GitAnswers] apply to
    it. *)

From stdpp Require Import base gmap strings list.
From Stdlib Require Import ZArith Lia Ascii NArith.
From S2P Require Import Prelude Text GitManifest GitWire GitStore GitPublish GitHistory GitAnswers.

Local Open Scope list_scope.

(** ** Scheduling *)

#[export] Instance etag_fits_dec w key body etag : Decision (etag_fits w key body etag).
Proof.
  destruct (decide (Forall (λ a, a_key a = key → a_etag a = Some etag → a_body a = body) w)) as [H|H];
    rewrite Forall_forall in H; [by left|by right].
Defined.

(** A fresh version for each write. *)
Definition etag_at (w : World) : string := String.concat "" (repeat "e" (length w)).

(** One request of a program, answered as a bucket without failures does. *)
Definition serve {A} (i : nat) (p : prog A) (w : World) : option (prog A * World) :=
  match p with
  | Ret _ => None
  | Put key body cond k =>
      if allowed cond (current key w) then
        if bool_decide (etag_fits w key body (etag_at w))
        then Some (k (PutOk (Some (etag_at w))), w ++ [access i key body (Some (etag_at w))])
        else None
      else Some (k PutPreconditionFailed, w ++ [access i key body None])
  | Get key k => Some (k match current key w with Some (e, b) => GetOk (Some e) b | None => GetMissing end, w)
  | Head key k => Some (k match current key w with Some _ => HeadOk None | None => HeadMissing end, w)
  end.

Lemma serve_exec {A} i (p p' : prog A) w w' : serve i p w = Some (p', w') → exec i p w p' w'.
Proof.
  destruct p as [a|key body cond k|key k|key k]; simpl; [done| | |].
  - destruct (allowed cond (current key w)) eqn:Hal.
    + destruct (bool_decide _) eqn:Hf; [|done]. apply bool_decide_eq_true in Hf. intros [= <- <-].
      constructor. econstructor; [done|done|]. by left.
    + intros [= <- <-]. constructor. by apply put_refused.
  - intros [= <- <-]. constructor. right. by destruct (current key w) as [[e b]|]; [left|].
  - intros [= <- <-]. constructor. right. by destruct (current key w); [eexists|].
Qed.

Section scheduler.
Context {Req Out : Type} (program : Req → prog Out).

Inductive Cmd := Arrive (r : Req) | Run (i : nat).

Definition schedule1 (s : Sys Req Out) (c : Cmd) : option (Sys Req Out) :=
  match c with
  | Arrive r => Some {| world := world s; procs := procs s ++ [Build_Proc r (length (world s)) (program r)] |}
  | Run i =>
      pr ← procs s !! i;
      pw ← serve i (p_prog pr) (world s);
      Some {| world := pw.2; procs := <[i := Build_Proc (p_req pr) (p_start pr) pw.1]> (procs s) |}
  end.

Fixpoint schedule (s : Sys Req Out) (l : list Cmd) : option (Sys Req Out) :=
  match l with
  | [] => Some s
  | c :: l' => s' ← schedule1 s c; schedule s' l'
  end.

Lemma schedule_reachable s l s' :
  sys_reachable program s → schedule s l = Some s' → sys_reachable program s'.
Proof.
  revert s. induction l as [|c l IH]; intros s Hr; simpl; [by intros [= <-]|].
  destruct (schedule1 s c) as [s1|] eqn:Hs; [|done]. simpl. apply IH. econstructor; [done|].
  destruct c as [r|i]; simpl in Hs; [injection Hs as <-; constructor|].
  destruct (procs s !! i) as [pr|] eqn:Hp; [|done]. simpl in Hs.
  destruct (serve i (p_prog pr) (world s)) as [[p' w']|] eqn:Hv; [|done]. injection Hs as <-.
  by econstructor; [|apply serve_exec].
Qed.
End scheduler.
Arguments Arrive {Req} r.
Arguments Run {Req} i.

(** ** A concrete digest and encoding *)

Definition hex_char (n : N) : ascii :=
  ascii_of_N (if (n <? 10)%N then 48 + n else 87 + n).

Fixpoint hex_string (k : nat) (n : N) : string :=
  match k with
  | O => ""
  | S k' => String (hex_char (n mod 16)) (hex_string k' (n / 16))
  end.

Fixpoint fold_bytes (s : string) (acc : N) : N :=
  match s with
  | "" => acc
  | String c s' => fold_bytes s' (N.land (acc * 31 + N_of_ascii c + 1) 18446744073709551615)
  end%N.

(** Strings and lists with terminators. *)
Fixpoint put_str (s rest : string) : string :=
  match s with
  | "" => String ";" rest
  | String c s' => String "." (String c (put_str s' rest))
  end.

Fixpoint take_str (s : string) : option (string * string) :=
  match s with
  | String "." (String c s') => x ← take_str s'; Some (String c x.1, x.2)
  | String ";" s' => Some ("", s')
  | _ => None
  end.

Lemma take_put_str s rest : take_str (put_str s rest) = Some (s, rest).
Proof. induction s as [|c s IH]; [done|]. simpl. by rewrite IH. Qed.

Fixpoint put_strs (l : list string) : string :=
  match l with [] => "" | s :: l' => put_str s (put_strs l') end.

Fixpoint take_strs (n : nat) (s : string) : list string :=
  match n, s with
  | S n', String _ _ => match take_str s with Some (x, rest) => x :: take_strs n' rest | None => [] end
  | _, _ => []
  end.

Lemma put_str_length s rest : (String.length rest < String.length (put_str s rest))%nat.
Proof. induction s as [|c s IH]; simpl in *; lia. Qed.

Lemma take_put_strs l n : (String.length (put_strs l) ≤ n)%nat → take_strs n (put_strs l) = l.
Proof.
  revert n. induction l as [|s l IH]; intros n Hn; [by destruct n|]. cbn [put_strs] in *.
  pose proof (put_str_length s (put_strs l)). destruct n as [|n]; [lia|]. cbn [take_strs].
  rewrite take_put_str, IH by lia. by destruct s.
Qed.

(** A manifest is its version in unary, head, parent, packs, and refs. *)
Fixpoint unary (n : nat) : string := match n with O => "" | S n' => String "1" (unary n') end.
Definition version_str (v : Z) : string := put_strs [unary (Z.to_nat v); unary (Z.to_nat (- v))].
Definition version_of (s : string) : Z :=
  match take_strs (String.length s) s with [p; q] => Z.of_nat (String.length p) - Z.of_nat (String.length q) | _ => 0 end.

Lemma unary_length n : String.length (unary n) = n.
Proof. induction n as [|n IH]; simpl; [done|by rewrite IH]. Qed.

Lemma version_of_str v : version_of (version_str v) = v.
Proof. unfold version_of, version_str. rewrite take_put_strs by done. rewrite !unary_length. lia. Qed.

Fixpoint flatten (l : list (string * string)) : list string :=
  match l with [] => [] | (a, b) :: l' => a :: b :: flatten l' end.
Fixpoint unflatten (l : list string) : list (string * string) :=
  match l with a :: b :: l' => (a, b) :: unflatten l' | _ => [] end.

Lemma unflatten_flatten l : unflatten (flatten l) = l.
Proof. induction l as [|[a b] l IH]; simpl; [done|by rewrite IH]. Qed.

Definition text (m : Manifest) : string :=
  put_strs [version_str (m_version m); m_head m; put_strs (option_list (m_parent m)); put_strs (m_packs m);
            put_strs (flatten (map_to_list (m_refs m)))].
Definition strs (s : string) : list string := take_strs (String.length s) s.
Definition of_text (s : string) : option Manifest :=
  match strs s with
  | [v; h; q; p; r] => Some {| m_version := version_of v; m_head := h; m_refs := list_to_map (unflatten (strs r));
                              m_packs := strs p; m_parent := head (strs q) |}
  | _ => None
  end.

Definition run_ops : GitOps := {|
  sha256_hex s := hex_string 64 (fold_bytes s 0);
  to_vec := text;
  from_slice := of_text |}.

Lemma hex_char_hex n : (n < 16)%N → is_lower_hexdigit (hex_char n) = true.
Proof.
  intros Hn. destruct n as [|p]; [done|]. do 4 (destruct p as [p|p|]; try done); lia.
Qed.

Lemma hex_string_shape k n :
  String.length (hex_string k n) = k ∧ chars_all is_lower_hexdigit (hex_string k n) = true.
Proof.
  revert n. induction k as [|k IH]; intros n; [done|]. simpl. destruct (IH (n / 16)%N) as [-> ->].
  rewrite hex_char_hex; [done|]. apply N.mod_lt. lia.
Qed.

Lemma run_laws : @GitLaws run_ops.
Proof.
  split.
  - intros s. unfold is_manifest_digest. destruct (hex_string_shape 64 (fold_bytes s 0)) as [Hl Hc].
    change (sha256_hex s) with (hex_string 64 (fold_bytes s 0)). rewrite Hl, Hc. done.
  - intros [v h r p q]. change (of_text (text {| m_version := v; m_head := h; m_refs := r; m_packs := p; m_parent := q |})
      = Some {| m_version := v; m_head := h; m_refs := r; m_packs := p; m_parent := q |}).
    unfold of_text, text, strs. rewrite (take_put_strs [_; _; _; _; _]) by done.
    cbn [m_version m_head m_refs m_packs m_parent]. rewrite !take_put_strs by done.
    rewrite version_of_str, unflatten_flatten, list_to_map_to_list. by destruct q.
Qed.

(** ** A race *)

#[local] Existing Instance run_ops.
#[local] Existing Instance run_laws.

Definition run_repo : RepoAddress := {| community := "c1"; owner := "npub"; repo_name := "demo" |}.
Definition run_options : HydrationOptions := {|
  pack_cache _ := None; index_ok _ := true; scratch_ok := true;
  max_pack_bytes := 1000; max_repo_bytes := 10000 |}.
Definition good_lease : Lease :=
  {| acquired := true; verified := true; lost_at := None; still_held := true; finished := true |}.

Definition run_oid (c : string) : string := String.concat "" (repeat c 40).

(** A workspace left with two branches. *)
Definition run_workspace (oid pack : string) : Workspace := {|
  for_each_ref := Some ("refs/heads/dev " +:+ oid +:+ nl +:+ "refs/heads/main " +:+ oid +:+ nl)%stdpp;
  symbolic_ref := Some (Some ("refs/heads/main" +:+ nl)%stdpp);
  pack_objects _ := Some pack; compact _ := Err CompactFailed; compaction_permit := false; op_cut := None;
  index_pack _ := Some "idx" |}.

Definition run_push (oid pack : string) : PushRequest := {|
  push_repo := run_repo; push_options := run_options;
  push_git _ := Some {| pack_stdout := pkt_line "unpack ok"; exit_success := true; workspace := run_workspace oid pack |};
  push_lease := good_lease; push_publication_ok := true |}.

Definition run_set (expected : string) : SetRequest := {|
  set_repo := run_repo; branch := "dev"; expected_manifest := expected; set_lease := good_lease;
  set_publication_ok := true |}.

Definition times (n i : nat) : list (@Cmd Request) := repeat (Run i) n.

(** The repository is seeded; two pushes hydrate it, the second commits first; then
    it is read. *)
Definition race : list (@Cmd Request) :=
  Arrive (SeedR run_repo) :: times 2 0 ++
  [Arrive (PushR (run_push (run_oid "a") "PACK-A")); Arrive (PushR (run_push (run_oid "b") "PACK-B"))] ++
  times 3 1 ++ times 7 2 ++ times 6 1 ++ [Arrive (ReadR run_repo run_options)] ++ times 5 3.

Definition start : Sys Request Outcome := {| world := []; procs := [] |}.
Definition raced : option (Sys Request Outcome) := schedule handle start race.

(** The collisions among what was sent, by computation. *)
Definition collision_free (w : World) : bool :=
  let l := map (λ a, (sha256_hex (a_body a), a_body a)) w in
  forallb (λ x, forallb (λ y, negb (bool_decide (x.1 = y.1)) || bool_decide (x.2 = y.2)) l) l.

Lemma collision_free_spec w : collision_free w = true → no_collision w.
Proof.
  unfold collision_free. rewrite forallb_forall. intros H a b Ha Hb Heq.
  assert (∀ c : Access, c ∈ (w : list Access) → In (sha256_hex (a_body c), a_body c) (map (λ a, (sha256_hex (a_body a), a_body a)) w)) as Hin.
  { intros c Hc. apply in_map_iff. exists c. split; [done|by apply list_elem_of_In]. }
  specialize (H _ (Hin a Ha)). rewrite forallb_forall in H. specialize (H _ (Hin b Hb)). simpl in H.
  rewrite bool_decide_eq_true_2 in H by done. by apply bool_decide_eq_true in H.
Qed.

Definition raced_system : Sys Request Outcome := default start raced.

Lemma raced_reachable : sys_reachable handle raced_system.
Proof.
  apply (schedule_reachable handle start race); [constructor|]. unfold raced_system, raced.
  assert (match schedule handle start race with Some _ => true | None => false end = true) as H by by vm_compute.
  by destruct (schedule handle start race).
Qed.

Lemma raced_no_collision : no_collision (world raced_system).
Proof. apply collision_free_spec. by vm_compute. Qed.

Lemma history_linear_witness :
  sys_reachable handle raced_system ∧ no_collision (world raced_system) ∧
  ∃ h, dedup (versions (address_key run_repo) (world raced_system)) = h.*1 ∧
    Forall (λ x, published (world raced_system) x.1 x.2) h ∧ linked None h ∧ NoDup h.*1 ∧
    last h.*1 = snd <$> current (address_key run_repo) (world raced_system).
Proof.
  split; [apply raced_reachable|]. split; [apply raced_no_collision|].
  apply (history_linear raced_system run_repo raced_reachable raced_no_collision).
Defined.

(** The push that came second to commit is told so; the first, that it succeeded. *)
Lemma push_truthful_witness :
  push_truth 1 2 (run_push (run_oid "a") "PACK-A") HttpConflict (world raced_system) ∧
  push_truth 2 2 (run_push (run_oid "b") "PACK-B") (GitResponse (pkt_line "unpack ok")) (world raced_system).
Proof.
  split; apply (push_truthful raced_system); [apply raced_reachable|apply raced_no_collision|by vm_compute|
    apply raced_reachable|apply raced_no_collision|by vm_compute].
Defined.

Lemma read_consistent_witness :
  ∃ repo, procs raced_system !! 3%nat = Some (Build_Proc (ReadR run_repo run_options) 10 (Ret (ReadDone (Ok (Some repo))))) ∧
    hr_packs repo = ["PACK-B"] ∧ read_truth 10 (address_key run_repo) (Ok (Some repo)) (world raced_system).
Proof.
  eexists. split; [by vm_compute|]. split; [by vm_compute|].
  apply (read_consistent raced_system 3 run_repo run_options);
    [apply raced_reachable|apply raced_no_collision|done|by vm_compute].
Defined.

(** The default branch of what the race left is changed to another of its branches. *)
Definition raced_digest : string := default "" (snd <$> current (address_key run_repo) (world raced_system)).
Definition rebranch : list (@Cmd Request) := Arrive (SetR (run_set raced_digest)) :: times 5 4.
Definition rebranched_system : Sys Request Outcome := default start (schedule handle raced_system rebranch).

Lemma rebranched_reachable : sys_reachable handle rebranched_system.
Proof.
  apply (schedule_reachable handle raced_system rebranch); [apply raced_reachable|]. unfold rebranched_system.
  assert (match schedule handle raced_system rebranch with Some _ => true | None => false end = true) as H by by vm_compute.
  by destruct (schedule handle raced_system rebranch).
Qed.

Lemma rebranched_no_collision : no_collision (world rebranched_system).
Proof. apply collision_free_spec. by vm_compute. Qed.

Lemma default_branch_truthful_witness :
  ∃ digest, procs rebranched_system !! 4%nat
    = Some (Build_Proc (SetR (run_set raced_digest)) 10 (Ret (SetOutcome (SetDone digest true)))) ∧
    set_truth 4 10 (run_set raced_digest) (SetDone digest true) (world rebranched_system).
Proof.
  eexists. split; [by vm_compute|].
  apply (default_branch_truthful rebranched_system 4 (run_set raced_digest) 10);
    [apply rebranched_reachable|apply rebranched_no_collision|by vm_compute].
Defined.

(** A push of two branches, one of them declined by the hook: the client is told that
    [main] was updated, and the pointer did not move. *)
Definition mixed_report : list string := ["unpack ok"; "ok refs/heads/main"; "ng refs/heads/dev hook declined"].
Definition mixed_push : PushRequest := {|
  push_repo := run_repo; push_options := run_options;
  push_git _ := Some {| pack_stdout := status_report mixed_report; exit_success := true;
                        workspace := run_workspace (run_oid "a") "PACK-A" |};
  push_lease := good_lease; push_publication_ok := true |}.
Definition declined_system : Sys Request Outcome :=
  default start (schedule handle start [Arrive (PushR mixed_push); Run 0%nat]).

Lemma declined_reachable : sys_reachable handle declined_system.
Proof. apply (schedule_reachable handle start [Arrive (PushR mixed_push); Run 0%nat]); [constructor|done]. Qed.

Lemma one_rejected_ref_drops_push_witness :
  own 0 (world declined_system) = [] ∧
  ∃ repo received, push_git mixed_push repo = Some received ∧ status_report mixed_report = pack_stdout received.
Proof.
  apply (one_rejected_ref_drops_push declined_system 0 mixed_push 0);
    [apply declined_reachable|by intros a b Ha; apply not_elem_of_nil in Ha|by vm_compute|].
  intros repo received [= <-]. exists mixed_report, "ng refs/heads/dev hook declined". split_and!; [done|done| |done].
  right. right. left.
Defined.

(** ** An advertisement *)

Definition advertised : Manifest := {|
  m_version := MANIFEST_VERSION; m_head := "refs/heads/main";
  m_refs := {[ "refs/heads/main" := run_oid "a"; "refs/heads/dev" := run_oid "b" ]}; m_packs := []; m_parent := None |}.

Lemma advertisement_reads_back_witness :
  fast_path_eligible advertised = true ∧
  pkt_lines (build_upload_pack_advertisement advertised)
  = service_line :: head_line advertised :: (ref_line <$> btree_entries (m_refs advertised)) ∧
  ∀ r, is_Some (m_refs advertised !! r) → starts_with r "refs/tags/" = false.
Proof. split; [by vm_compute|apply advertisement_reads_back; by vm_compute]. Defined.
