(* ===== verification/PairCrypto.v ===== *)
(** * Device pairing: messages, key derivation and the QR code
      ([crates/buzz-core/src/pairing/{mod,types,crypto,qr}.rs])

    The third-party crates ([nostr], [serde_json], [hex], [percent_encoding],
    [url]) are the operations of the classes [PairOps] and [QrOps]; what the
    code relies on is in [PairLaws] and [QrLaws].  A [PublicKey] is its
    lowercase hex text, a [[u8; 32]] a list of 32 bytes, an error of a crate is
    its [Display] text.  [zeroize] overwrites memory nothing reads again. *)

From stdpp Require Import base gmap strings list pretty.
From Stdlib Require Import ZArith NArith Ascii Lia.
From Stdlib Require Strings.Byte.
From S2P Require Import Prelude Text Nostr.

Local Open Scope string_scope.
Local Open Scope list_scope.
Local Open Scope nat_scope.

Abbreviation bytes := (list Byte.byte).
Abbreviation PublicKey := string.

#[export] Instance byte_eqdec : EqDecision Byte.byte := Byte.byte_eq_dec.

(** ** Messages and errors *)

Inductive PayloadType : Type := Nsec | Bunker | Connect | Custom.
Inductive AbortReason : Type := SasMismatchReason | UserDenied | Timeout | ProtocolError | Unknown.

Inductive PairingMessage : Type :=
  | Offer (session_id : string) (version : N)
  | SasConfirm (transcript_hash : string)
  | Payload (payload_type : PayloadType) (payload : string)
  | Complete (success : bool)
  | Abort (reason : AbortReason).

(** What the text inside [InvalidQr] says, one constructor per message. *)
Inductive QrReason : Type :=
  | UriTooLong (n : nat)
  | BadPrefix
  | MissingQuery
  | BadPubkeyText (s : string)
  | BadPubkey (e : string)
  | UnsupportedVersion (v : N)
  | MissingSecret
  | BadSecretText (s : string)
  | BadSecretHex
  | SecretLength
  | ZeroSecret
  | NoRelay
  | BadRelayUrl (relay e : string)
  | BadRelayScheme (scheme : string)
  | RelayNoHost (relay : string).

Inductive PairingError : Type :=
  | InvalidQr (why : QrReason)
  | InvalidSessionId
  | SasMismatch
  | TranscriptMismatch
  | UnexpectedMessage (expected got : string)
  | SessionExpired
  | Nip44 (e : string)
  | JsonError (e : string)
  | InvalidPubkey (e : string)
  | SigningError (e : string).

#[export] Instance PayloadType_eq_dec : EqDecision PayloadType.
Proof. solve_decision. Defined.
#[export] Instance AbortReason_eq_dec : EqDecision AbortReason.
Proof. solve_decision. Defined.
#[export] Instance PairingMessage_eq_dec : EqDecision PairingMessage.
Proof. solve_decision. Defined.
#[export] Instance QrReason_eq_dec : EqDecision QrReason.
Proof. solve_decision. Defined.
#[export] Instance PairingError_eq_dec : EqDecision PairingError.
Proof. solve_decision. Defined.

(** ** The crates underneath *)

(** An event as it travels: [unsigned_event] with its signature. *)
Record SignedEvent : Type := MkSigned { unsigned_event : Event; sig : string }.

Class PairOps : Type := {
  SecretKey : Type;
  public_key : SecretKey → PublicKey;
  pk_to_bytes : PublicKey → bytes;
  generate_shared_key : SecretKey → PublicKey → result string bytes;
  hkdf_extract : bytes → bytes → bytes;
  hkdf_expand : bytes → bytes → nat → bytes;
  (* the last argument is the nonce drawn *)
  nip44_encrypt : SecretKey → PublicKey → string → Z → result string string;
  nip44_decrypt : SecretKey → PublicKey → string → result string string;
  (* kind, tags, content, created_at; the last argument is the auxiliary randomness *)
  sign_with_keys : SecretKey → Kind → list Tag → string → Z → Z → result string SignedEvent;
  verify : SignedEvent → result string unit;
  message_to_json : PairingMessage → result string string;
  message_from_json : string → result string PairingMessage;
  hex_encode : bytes → string;
  hex_decode : string → option bytes;
}.

(** The documented behaviour the protocol rests on.  [good_key] is a public key
    that is a point of the curve. *)
Class PairLaws `{PairOps} : Type := {
  good_key : PublicKey → Prop;
  public_key_good sk : good_key (public_key sk);
  good_key_bytes pk : good_key pk → length (pk_to_bytes pk) = 32;
  shared_key_ok sk pk : good_key pk →
    ∃ k, generate_shared_key sk pk = Ok k ∧ length k = 32;
  shared_key_good sk pk k : generate_shared_key sk pk = Ok k → good_key pk;
  shared_key_sym a b :
    generate_shared_key a (public_key b) = generate_shared_key b (public_key a);
  hkdf_expand_length prk info n : length (hkdf_expand prk info n) = n;
  nip44_roundtrip a b text nonce : (1 ≤ Z.of_nat (String.length text) ≤ 65535)%Z →
    ∃ c, nip44_encrypt a (public_key b) text nonce = Ok c ∧
         132 ≤ String.length c ∧ (Z.of_nat (String.length c) ≤ 87472)%Z ∧
         nip44_decrypt b (public_key a) c = Ok text;
  sign_ok sk kind tags content at_ aux :
    ∃ e, sign_with_keys sk kind tags content at_ aux = Ok e ∧
         verify e = Ok tt ∧
         ev_pubkey (unsigned_event e) = public_key sk ∧
         ev_kind (unsigned_event e) = kind ∧
         ev_tags (unsigned_event e) = tags ∧
         ev_text (unsigned_event e) = content;
  message_roundtrip msg :
    ∃ j, message_to_json msg = Ok j ∧ message_from_json j = Ok msg ∧ 1 ≤ String.length j;
  hex_roundtrip b : hex_decode (hex_encode b) = Some b;
}.

(** ** [crypto.rs] *)

Definition INFO_SESSION_ID : bytes := String.list_byte_of_string "nostr-pair-session-id".
Definition INFO_SAS : bytes := String.list_byte_of_string "nostr-pair-sas-v1".
Definition INFO_TRANSCRIPT : bytes := String.list_byte_of_string "nostr-pair-transcript-v1".

(** [u32::from_be_bytes([b[0], b[1], b[2], b[3]])]; the code indexes an array of
    32 bytes, so a short list does not arise. *)
Definition u32_from_be_bytes (b : bytes) : N :=
  foldl (λ acc i, acc * 256 + Byte.to_N (default Byte.x00 (b !! i)))%N 0%N [0; 1; 2; 3].

Section crypto.
Context `{PairOps}.

Definition hkdf32 (salt ikm info : bytes) : bytes :=
  let prk := hkdf_extract salt ikm in
  let okm := hkdf_expand prk info 32 in
  take 32 okm.

Definition derive_session_id (session_secret : bytes) : bytes :=
  hkdf32 [] session_secret INFO_SESSION_ID.

Definition derive_sas (ecdh_shared session_secret : bytes) : N * bytes :=
  let sas_input := hkdf32 session_secret ecdh_shared INFO_SAS in
  let sas_code := (u32_from_be_bytes sas_input mod 1000000)%N in
  (sas_code, sas_input).

Definition derive_transcript_hash
    (session_id source_pubkey target_pubkey sas_input session_secret : bytes) : bytes :=
  let transcript := session_id ++ source_pubkey ++ target_pubkey ++ sas_input in
  hkdf32 session_secret transcript INFO_TRANSCRIPT.
End crypto.

(** [format!("{code:06}")]: decimal, padded with zeros to six digits. *)
Definition digit (n : N) : ascii := ascii_of_N (48 + n).

Fixpoint fixed_digits (width : nat) (n : N) : string :=
  match width with
  | O => ""
  | S w => fixed_digits w (n / 10) +:+ String (digit (n mod 10)) ""
  end.

Definition format_sas (code : N) : string :=
  if (code <? 1000000)%N then fixed_digits 6 code else pretty code.

Definition ct_eq (a b : bytes) : bool := bool_decide (a = b).

(** ** [qr.rs] *)

Record QrPayload : Type := MkQr {
  source_pubkey : PublicKey;
  qr_secret : bytes;
  relays : list string;
  version : N;
}.

Class QrOps : Type := {
  pk_from_hex : string → result string PublicKey;
  percent_encode_non_alphanumeric : string → string;
  percent_decode_lossy : string → string;
  (* scheme and host *)
  url_parse : string → result string (string * option string);
}.

Definition is_lowercase_hex (c : ascii) : bool :=
  let n := nat_of_ascii c in ((48 <=? n) && (n <=? 57) || (97 <=? n) && (n <=? 102))%nat.

(** [s.len() == 64 && s.chars().all(is_lowercase_hex)] *)
Definition hex64 (s : string) : bool :=
  bool_decide (String.length s = 64) && chars_all is_lowercase_hex s.

Section qr.
Context `{PairOps, QrOps}.

Definition url_encode (s : string) : string := percent_encode_non_alphanumeric s.
Definition url_decode (s : string) : string := percent_decode_lossy s.

Definition encode_qr (payload : QrPayload) : string :=
  let uri := "nostrpair://" +:+ source_pubkey payload +:+ "?secret=" +:+ hex_encode (qr_secret payload) in
  let uri := foldl (λ uri relay, uri +:+ "&relay=" +:+ url_encode relay) uri (relays payload) in
  uri +:+ "&v=1".

(** One turn of the loop over the query parameters. *)
Definition query_turn (acc : option string * list string * option N) (pair_ : string)
    : option string * list string * option N :=
  let '(secret_hex, rs, v) := acc in
  match split_once "="%char pair_ with
  | Some (key, value) =>
      if bool_decide (key = "secret") then (Some value, rs, v)
      else if bool_decide (key = "relay") then (secret_hex, rs ++ [url_decode value], v)
      else if bool_decide (key = "v") then (secret_hex, rs, parse_u32 value)
      else (secret_hex, rs, v)
  | None => (secret_hex, rs, v)
  end.

Definition check_relay (relay : string) : result PairingError unit :=
  match url_parse relay with
  | Err e => Err (InvalidQr (BadRelayUrl relay e))
  | Ok (scheme, host) =>
      if bool_decide (scheme = "wss") || bool_decide (scheme = "ws") then
        match host with
        | None => Err (InvalidQr (RelayNoHost relay))
        | Some _ => Ok tt
        end
      else Err (InvalidQr (BadRelayScheme scheme))
  end.

Fixpoint check_relays (rs : list string) : result PairingError unit :=
  match rs with
  | [] => Ok tt
  | relay :: rs => _ ← check_relay relay; check_relays rs
  end.

Definition decode_secret (secret_hex : option string) : result PairingError bytes :=
  match secret_hex with
  | None => Err (InvalidQr MissingSecret)
  | Some s =>
      if hex64 s then
        match hex_decode s with
        | None => Err (InvalidQr BadSecretHex)
        | Some b =>
            if bool_decide (length b = 32) then
              if bool_decide (b = replicate 32 Byte.x00) then Err (InvalidQr ZeroSecret) else Ok b
            else Err (InvalidQr SecretLength)
        end
      else Err (InvalidQr (BadSecretText s))
  end.

Definition decode_qr (uri : string) : result PairingError QrPayload :=
  if (2048 <? String.length uri)%nat then Err (InvalidQr (UriTooLong (String.length uri)))
  else match strip_prefix "nostrpair://" uri with
  | None => Err (InvalidQr BadPrefix)
  | Some rest =>
  match split_once "?"%char rest with
  | None => Err (InvalidQr MissingQuery)
  | Some (pubkey_hex, query) =>
  if negb (hex64 pubkey_hex) then Err (InvalidQr (BadPubkeyText pubkey_hex))
  else match pk_from_hex pubkey_hex with
  | Err e => Err (InvalidQr (BadPubkey e))
  | Ok pk =>
      let '(secret_hex, rs, v) := foldl query_turn (None, [], None) (split_on "&"%char query) in
      let v := default 1%N v in
      if negb (bool_decide (v = 1%N)) then Err (InvalidQr (UnsupportedVersion v))
      else
        secret ← decode_secret secret_hex;
        if bool_decide (rs = []) then Err (InvalidQr NoRelay)
        else
          _ ← check_relays rs;
          Ok (MkQr pk secret rs v)
  end end end.
End qr.

(** What the QR code relies on.  [rust_string] holds of the byte strings that
    are valid UTF-8, the only ones a [String] can be. *)
Class QrLaws `{PairLaws, QrOps} : Type := {
  rust_string : string → Prop;
  good_key_text pk : good_key pk → hex64 pk = true ∧ pk_from_hex pk = Ok pk;
  hex_encode_text b : length b = 32 → hex64 (hex_encode b) = true;
  percent_text s :
    chars_all (λ c, is_ascii_alphanumeric c || bool_decide (c = "%"%char))
      (percent_encode_non_alphanumeric s) = true;
  percent_roundtrip s : rust_string s → percent_decode_lossy (percent_encode_non_alphanumeric s) = s;
}.

(** ** The key derivation *)

Section crypto_facts.
Context `{PairLaws}.

Lemma hkdf32_length salt ikm info : length (hkdf32 salt ikm info) = 32.
Proof. unfold hkdf32. rewrite length_take, hkdf_expand_length. done. Qed.

Lemma derive_sas_bound k secret : (fst (derive_sas k secret) < 1000000)%N.
Proof. cbn [fst derive_sas]. apply N.mod_lt. done. Qed.

Lemma derive_sas_code k secret code input :
  derive_sas k secret = (code, input) → code = (u32_from_be_bytes input mod 1000000)%N.
Proof. by intros [= <- <-]. Qed.

(** Two different pairs of salt and key material with one transcript hash. *)
Definition hkdf_collision (x y : bytes * bytes) : Prop :=
  x ≠ y ∧ hkdf32 x.1 x.2 INFO_TRANSCRIPT = hkdf32 y.1 y.2 INFO_TRANSCRIPT.

(** Two runs that derive the same transcript hash agree on everything that goes
    into it, or their own two inputs are a collision. *)
Lemma transcript_hash_binds sid spk tpk sas secret sid' spk' tpk' sas' secret' :
  length sid = length sid' → length spk = length spk' → length tpk = length tpk' →
  derive_transcript_hash sid spk tpk sas secret
    = derive_transcript_hash sid' spk' tpk' sas' secret' →
  (sid = sid' ∧ spk = spk' ∧ tpk = tpk' ∧ sas = sas' ∧ secret = secret') ∨
  hkdf_collision (secret, sid ++ spk ++ tpk ++ sas) (secret', sid' ++ spk' ++ tpk' ++ sas').
Proof.
  intros H1 H2 H3 Heq.
  destruct (decide ((secret, sid ++ spk ++ tpk ++ sas) = (secret', sid' ++ spk' ++ tpk' ++ sas')))
    as [[= -> Ht]|Hne].
  - left. apply app_inj_1 in Ht as [-> Ht]; [|done]. apply app_inj_1 in Ht as [-> Ht]; [|done].
    apply app_inj_1 in Ht as [-> ->]; done.
  - right. split; [exact Hne|exact Heq].
Qed.
End crypto_facts.

(** ** The displayed code *)

Lemma fixed_digits_length w n : String.length (fixed_digits w n) = w.
Proof.
  revert n. induction w as [|w IH]; intros n; simpl; [done|].
  rewrite string_length_app, IH. simpl. lia.
Qed.

Lemma digit_inj a b : (a < 10)%N → (b < 10)%N → digit a = digit b → a = b.
Proof.
  intros Ha Hb Heq. apply (f_equal N_of_ascii) in Heq. unfold digit in Heq.
  rewrite !N_ascii_embedding in Heq by lia. lia.
Qed.

Lemma fixed_digits_inj w a b :
  (a < 10 ^ N.of_nat w)%N → (b < 10 ^ N.of_nat w)%N →
  fixed_digits w a = fixed_digits w b → a = b.
Proof.
  revert a b. induction w as [|w IH]; intros a b Ha Hb Heq.
  - simpl in *. lia.
  - rewrite Nat2N.inj_succ, N.pow_succ_r' in Ha, Hb. cbn [fixed_digits] in Heq.
    apply string_app_inj in Heq as [Hhi Hlo]; [|by rewrite !fixed_digits_length].
    apply IH in Hhi; [|apply N.Div0.div_lt_upper_bound; lia..].
    injection Hlo as Hlo. apply digit_inj in Hlo; [|apply N.mod_lt; done..].
    rewrite (N.div_mod a 10), (N.div_mod b 10) by done. lia.
Qed.

Lemma format_sas_length code : (code < 1000000)%N → String.length (format_sas code) = 6.
Proof. intros Hc. unfold format_sas. apply N.ltb_lt in Hc as ->. apply fixed_digits_length. Qed.

Lemma format_sas_inj a b :
  (a < 1000000)%N → (b < 1000000)%N → format_sas a = format_sas b → a = b.
Proof.
  intros Ha Hb. unfold format_sas. rewrite (proj2 (N.ltb_lt _ _) Ha), (proj2 (N.ltb_lt _ _) Hb).
  apply (fixed_digits_inj 6); done.
Qed.

(** ** The QR code *)

Section qr_facts.
Context `{QrLaws}.

(** The URI of [encode_qr] with [v] as the text of its version parameter. *)
Definition query_parts (payload : QrPayload) (v : string) : list string :=
  ("secret=" +:+ hex_encode (qr_secret payload))
    :: map (λ r, "relay=" +:+ url_encode r) (relays payload) ++ ["v=" +:+ v].

Definition qr_uri_with (payload : QrPayload) (v : string) : string :=
  "nostrpair://" +:+ source_pubkey payload +:+ String "?" (join_on "&" (query_parts payload v)).

(** The payloads a device displays and a scanner accepts. *)
Definition relay_ok (r : string) : Prop :=
  rust_string r ∧ ∃ scheme host, url_parse r = Ok (scheme, Some host) ∧ (scheme = "wss" ∨ scheme = "ws").

Definition payload_ok (p : QrPayload) : Prop :=
  good_key (source_pubkey p) ∧ length (qr_secret p) = 32 ∧
  qr_secret p ≠ replicate 32 Byte.x00 ∧ relays p ≠ [] ∧ Forall relay_ok (relays p) ∧
  version p = 1%N.

Lemma foldl_params uri rs v :
  foldl (λ u r, u +:+ "&relay=" +:+ url_encode r) uri rs +:+ "&v=" +:+ v
  = uri +:+ String "&" (join_on "&" (map (λ r, "relay=" +:+ url_encode r) rs ++ ["v=" +:+ v])).
Proof.
  revert uri. induction rs as [|r rs IH]; intros uri; [done|].
  cbn [foldl map app]. rewrite IH, <-string_app_assoc. f_equal.
  by destruct rs.
Qed.

Lemma encode_qr_uri p : encode_qr p = qr_uri_with p "1".
Proof.
  unfold encode_qr, qr_uri_with, query_parts. change "&v=1" with ("&v=" +:+ "1").
  rewrite foldl_params, <-!string_app_assoc.
  do 3 f_equal. by destruct (relays p).
Qed.

Lemma hex64_no c s : is_lowercase_hex c = false → hex64 s = true → string_contains c s = false.
Proof. intros Hc [_ Hs]%andb_true_iff. by eapply chars_all_contains. Qed.

Lemma url_encode_no c s :
  is_ascii_alphanumeric c || bool_decide (c = "%"%char) = false →
  string_contains c (url_encode s) = false.
Proof. intros Hc.
  apply (chars_all_contains (λ c, is_ascii_alphanumeric c || bool_decide (c = "%"%char)));
    [exact Hc|apply percent_text]. Qed.

Lemma query_parts_ok p v :
  length (qr_secret p) = 32 → string_contains "&" v = false →
  Forall (λ q, string_contains "&" q = false) (query_parts p v).
Proof.
  intros Hlen Hv. constructor.
  { rewrite string_contains_app. apply hex64_no; [done|]. by apply hex_encode_text. }
  apply Forall_app. split; [|constructor; [by rewrite string_contains_app|constructor]].
  apply Forall_fmap, Forall_forall. intros r _.
  unfold compose. rewrite string_contains_app. by apply url_encode_no.
Qed.

Lemma query_turn_secret s l v x : query_turn (s, l, v) ("secret=" +:+ x) = (Some x, l, v).
Proof.
  unfold query_turn. change ("secret=" +:+ x) with ("secret" +:+ String "=" x).
  by rewrite split_once_app.
Qed.

Lemma query_turn_relay s l v x :
  query_turn (s, l, v) ("relay=" +:+ x) = (s, l ++ [url_decode x], v).
Proof.
  unfold query_turn. change ("relay=" +:+ x) with ("relay" +:+ String "=" x).
  by rewrite split_once_app.
Qed.

Lemma query_turn_v s l v x : query_turn (s, l, v) ("v=" +:+ x) = (s, l, parse_u32 x).
Proof.
  unfold query_turn. change ("v=" +:+ x) with ("v" +:+ String "=" x).
  by rewrite split_once_app.
Qed.

Lemma query_turn_relays rs acc :
  Forall rust_string rs →
  foldl query_turn acc (map (λ r, "relay=" +:+ url_encode r) rs)
  = (acc.1.1, acc.1.2 ++ rs, acc.2).
Proof.
  intros Hrs. revert acc. induction Hrs as [|r rs Hr Hrs IH]; intros [[s l] v]; cbn [foldl map fst snd].
  - by rewrite app_nil_r.
  - rewrite query_turn_relay, IH. cbn [fst snd]. unfold url_decode, url_encode. rewrite percent_roundtrip by done.
    by rewrite <-app_assoc.
Qed.

Lemma check_relays_ok rs : Forall relay_ok rs → check_relays rs = Ok tt.
Proof.
  induction 1 as [|r rs (_ & sch & h & Hr & Hs) _ IH]; [done|]. cbn [check_relays].
  unfold check_relay. rewrite Hr.
  assert (bool_decide (sch = "wss") || bool_decide (sch = "ws") = true) as ->.
  { destruct Hs as [->| ->]; done. }
  exact IH.
Qed.

(** Decoding such a URI reads back what was encoded, whatever stands for the
    version; the version decides through [parse_u32]. *)
Lemma decode_uri_with p v :
  payload_ok p → string_contains "&" v = false → String.length (qr_uri_with p v) ≤ 2048 →
  decode_qr (qr_uri_with p v)
  = let n := default 1%N (parse_u32 v) in
    if bool_decide (n = 1%N) then Ok p else Err (InvalidQr (UnsupportedVersion n)).
Proof.
  intros (Hk & Hlen & Hnz & Hne & Hrs & Hv1) Hv Huri. unfold decode_qr.
  apply Nat.ltb_ge in Huri as ->.
  unfold qr_uri_with. rewrite (proj2 (strip_prefix_Some _ _ _) eq_refl).
  destruct (good_key_text _ Hk) as [Ht Hfrom].
  rewrite split_once_app by (by apply hex64_no). rewrite Ht. cbn [negb]. rewrite Hfrom.
  rewrite split_on_join; [|done|by apply query_parts_ok].
  unfold query_parts. cbn [foldl]. rewrite foldl_app.
  rewrite query_turn_secret.
  rewrite query_turn_relays by (by eapply Forall_impl; [exact Hrs|intros ? [??]]).
  cbn [foldl fst snd app].
  rewrite query_turn_v.
  case_bool_decide as Hn; [|done]. rewrite Hn. cbn [negb].
  unfold decode_secret. rewrite hex_encode_text, hex_roundtrip by done.
  rewrite (bool_decide_eq_true_2 _ Hlen), (bool_decide_eq_false_2 _ Hnz).
  cbn [mbind result_bind]. rewrite (bool_decide_eq_false_2 _ Hne).
  rewrite check_relays_ok by done. cbn. destruct p; simpl in *. by subst.
Qed.

(** What [decode_qr] hands out is a payload fit for a session. *)
Lemma check_relays_inv rs :
  check_relays rs = Ok tt →
  Forall (λ r, ∃ scheme host, url_parse r = Ok (scheme, Some host) ∧
               (scheme = "wss" ∨ scheme = "ws")) rs.
Proof.
  induction rs as [|r rs IH]; [constructor|]. cbn [check_relays]. unfold check_relay.
  destruct (url_parse r) as [[sch host]|] eqn:Hr; [|done].
  destruct (bool_decide (sch = "wss") || bool_decide (sch = "ws")) eqn:Hs; [|done].
  destruct host as [h|]; [|done]. cbn. intros Hrest. constructor; [|by apply IH].
  exists sch, h. split; [done|]. apply orb_true_iff in Hs. by rewrite !bool_decide_eq_true in Hs.
Qed.

Lemma decode_secret_inv o b :
  decode_secret o = Ok b → length b = 32 ∧ b ≠ replicate 32 Byte.x00.
Proof.
  unfold decode_secret. destruct o as [s|]; [|done]. destruct (hex64 s); [|done].
  destruct (hex_decode s) as [b'|]; [|done].
  repeat case_bool_decide; intros; by simplify_eq.
Qed.

(** The QR code carries the payload: decoding the URI of a payload with a
    non-zero secret and reachable relays gives the payload back, and whatever
    URI decodes has version 1, a non-zero 32-byte secret, and at least one
    relay, each a WebSocket URL with a host. *)
Theorem qr_roundtrip p uri p' :
  payload_ok p → String.length (encode_qr p) ≤ 2048 → decode_qr uri = Ok p' →
  decode_qr (encode_qr p) = Ok p ∧
  version p' = 1%N ∧ length (qr_secret p') = 32 ∧ qr_secret p' ≠ replicate 32 Byte.x00 ∧
  relays p' ≠ [] ∧
  Forall (λ r, ∃ scheme host, url_parse r = Ok (scheme, Some host) ∧
               (scheme = "wss" ∨ scheme = "ws")) (relays p').
Proof.
  intros Hp Hlen Hd. split.
  - rewrite encode_qr_uri in *. by rewrite decode_uri_with.
  - unfold decode_qr in Hd. destruct (_ <? _); [done|]. destruct (strip_prefix _ _) as [rest|]; [|done].
    destruct (split_once _ rest) as [[pk query]|]; [|done]. destruct (hex64 pk); [|done]. simpl in Hd.
    destruct (pk_from_hex pk) as [pk'|]; [|done].
    destruct (foldl _ _ _) as [[sec rs] v]. case_bool_decide as Hv; [|done]. simpl in Hd.
    destruct (decode_secret sec) as [b|] eqn:Hb; [|done]. apply decode_secret_inv in Hb as [Hb1 Hb2].
    cbn in Hd. case_bool_decide as Hrs; [done|].
    destruct (check_relays rs) as [[]|] eqn:Hc; [|done]. apply check_relays_inv in Hc.
    by injection Hd as <-.
Qed.

(** A version the parser cannot read counts as version 1: the URI of a valid
    payload whose version parameter is not a [u32] (too large, or no number at
    all) decodes like version 1, while 2 is refused. *)
Theorem qr_unreadable_version p v :
  payload_ok p → string_contains "&" v = false → String.length (qr_uri_with p v) ≤ 2048 →
  (parse_u32 v = None → decode_qr (qr_uri_with p v) = Ok p) ∧
  (v = "2" → decode_qr (qr_uri_with p v) = Err (InvalidQr (UnsupportedVersion 2))).
Proof.
  intros Hp Hv Hlen. rewrite decode_uri_with by done. split; [by intros ->|by intros ->].
Qed.
End qr_facts.

(** ** A concrete instance

    Keys of one byte, real hexadecimal and percent encodings, a cipher that only
    pads: enough to run the protocol and to see that the laws can hold. *)

Module Toy.

Definition nibble (n : N) : ascii := ascii_of_N (if (n <? 10)%N then 48 + n else 87 + n).
Definition unnibble (c : ascii) : option N :=
  let n := N_of_ascii c in
  if ((48 <=? n) && (n <=? 57))%N then Some (n - 48)%N
  else if ((97 <=? n) && (n <=? 102))%N then Some (n - 87)%N
  else None.

Fixpoint to_hex (b : bytes) : string :=
  match b with
  | [] => ""
  | x :: b =>
      String (nibble (Byte.to_N x / 16)) (String (nibble (Byte.to_N x mod 16)) (to_hex b))
  end.

Fixpoint of_hex (s : string) : option bytes :=
  match s with
  | EmptyString => Some []
  | String c (String d s) =>
      hi ← unnibble c; lo ← unnibble d; x ← Byte.of_N (hi * 16 + lo); b ← of_hex s; Some (x :: b)
  | String _ EmptyString => None
  end.

Lemma hex_roundtrip b : of_hex (to_hex b) = Some b.
Proof.
  induction b as [|x b IH]; [done|]. cbn [to_hex of_hex]. rewrite IH. by destruct x.
Qed.

Lemma hex_text b : String.length (to_hex b) = 2 * length b ∧ chars_all is_lowercase_hex (to_hex b) = true.
Proof.
  induction b as [|x b [IH1 IH2]]; [done|]. cbn [to_hex]. split.
  - cbn [String.length length]. lia.
  - cbn [chars_all]. rewrite IH2. by destruct x.
Qed.

Definition key : Type := Byte.byte.
Definition pub (k : key) : PublicKey := to_hex (replicate 31 Byte.x00 ++ [k]).
Definition key_of (pk : PublicKey) : option key :=
  b ← of_hex pk; k ← last b; if bool_decide (pk = pub k) then Some k else None.

Lemma key_of_public k : key_of (pub k) = Some k.
Proof.
  unfold key_of. rewrite (hex_roundtrip _ : of_hex (pub k) = Some _).
  cbn [mbind option_bind]. rewrite last_snoc. cbn [mbind option_bind]. by rewrite bool_decide_eq_true_2.
Qed.

Lemma key_of_Some pk k : key_of pk = Some k → pk = pub k.
Proof.
  intros (b & _ & (k' & _ & Hk)%bind_Some)%bind_Some. case_bool_decide; by simplify_eq.
Qed.

Definition mix (a b : key) : bytes :=
  replicate 30 Byte.x00 ++ (if (Byte.to_N a <=? Byte.to_N b)%N then [a; b] else [b; a]).

Lemma mix_sym a b : mix a b = mix b a.
Proof.
  unfold mix. f_equal. destruct (N.leb_spec (Byte.to_N a) (Byte.to_N b)),
    (N.leb_spec (Byte.to_N b) (Byte.to_N a)); try done; [|lia].
  assert (Byte.to_N a = Byte.to_N b) as Heq by lia. apply (f_equal Byte.of_N) in Heq.
  rewrite !Byte.of_to_N in Heq. by injection Heq as ->.
Qed.

Definition pad : string :=
  "xxxxxxxxxxxxxxxxxxxxxxxxxxxxxxxxxxxxxxxxxxxxxxxxxxxxxxxxxxxxxxxxxxxxxxxxxxxxxxxxxxxxxxxxxxxxxxxxxxxxxxxxxxxxxxxxxxxxxxxxxxxxxxxxxxxx".

Fixpoint drop_chars (n : nat) (s : string) : string :=
  match n, s with S n, String _ s => drop_chars n s | _, _ => s end.

Fixpoint pos_text (p : positive) : string :=
  match p with xH => "h" | xO p => String "o" (pos_text p) | xI p => String "i" (pos_text p) end.
Fixpoint text_pos (s : string) : option (positive * string) :=
  match s with
  | String "h"%char s => Some (xH, s)
  | String "o"%char s => '(p, s) ← text_pos s; Some (xO p, s)
  | String "i"%char s => '(p, s) ← text_pos s; Some (xI p, s)
  | _ => None
  end.

Lemma text_pos_text p s : text_pos (pos_text p +:+ s) = Some (p, s).
Proof.
  induction p as [p IH|p IH|]; cbn [pos_text]; rewrite ?string_app_cons; cbn [text_pos]; [|  |done];
    by rewrite IH.
Qed.

Definition to_json (m : PairingMessage) : string :=
  match m with
  | Offer sid v => String "O" (pos_text (N.succ_pos v) +:+ sid)
  | SasConfirm h => String "S" h
  | Payload Nsec p => String "1" p
  | Payload Bunker p => String "2" p
  | Payload Connect p => String "3" p
  | Payload Custom p => String "4" p
  | Complete true => "T"
  | Complete false => "F"
  | Abort SasMismatchReason => "5"
  | Abort UserDenied => "6"
  | Abort Timeout => "7"
  | Abort ProtocolError => "8"
  | Abort Unknown => "9"
  end.

Definition from_json (s : string) : result string PairingMessage :=
  match s with
  | String "O"%char s =>
      match text_pos s with Some (p, sid) => Ok (Offer sid (Pos.pred_N p)) | None => Err "json" end
  | String "S"%char h => Ok (SasConfirm h)
  | String "1"%char p => Ok (Payload Nsec p)
  | String "2"%char p => Ok (Payload Bunker p)
  | String "3"%char p => Ok (Payload Connect p)
  | String "4"%char p => Ok (Payload Custom p)
  | String "T"%char _ => Ok (Complete true)
  | String "F"%char _ => Ok (Complete false)
  | String "5"%char _ => Ok (Abort SasMismatchReason)
  | String "6"%char _ => Ok (Abort UserDenied)
  | String "7"%char _ => Ok (Abort Timeout)
  | String "8"%char _ => Ok (Abort ProtocolError)
  | String "9"%char _ => Ok (Abort Unknown)
  | _ => Err "json"
  end.

Lemma json_roundtrip m : from_json (to_json m) = Ok m.
Proof.
  destruct m as [sid v|h|[] p|[]|[]]; try done. cbn [to_json from_json].
  by rewrite text_pos_text, N.pos_pred_succ.
Qed.

Definition ops : PairOps := {|
  SecretKey := key;
  public_key := pub;
  pk_to_bytes pk := default [] (of_hex pk);
  generate_shared_key sk pk :=
    match key_of pk with Some k => Ok (mix sk k) | None => Err "malformed public key" end;
  hkdf_extract salt ikm := salt ++ ikm;
  hkdf_expand prk info n := take n (prk ++ replicate n Byte.x00);
  nip44_encrypt sk pk text _ :=
    match key_of pk with Some k => Ok (pad +:+ text) | None => Err "key" end;
  nip44_decrypt sk pk text :=
    match key_of pk with Some k => Ok (drop_chars 132 text) | None => Err "key" end;
  sign_with_keys sk kind tags content at_ _ :=
    Ok (MkSigned (MkEvent content (pub sk) at_ kind tags content) "signed");
  verify e := if bool_decide (sig e = "signed") then Ok tt else Err "bad signature";
  message_to_json m := Ok (to_json m);
  message_from_json := from_json;
  hex_encode := to_hex;
  hex_decode := of_hex;
|}.

Lemma public_key_length k : length (default [] (of_hex (pub k))) = 32.
Proof. unfold pub. by rewrite hex_roundtrip. Qed.

Lemma laws : @PairLaws ops.
Proof.
  refine (@Build_PairLaws ops (λ pk, is_Some (key_of pk)) _ _ _ _ _ _ _ _ _ _);
    cbn -[key_of pub mix pad to_json from_json to_hex of_hex bool_decide].
  - intros k. rewrite key_of_public. by eexists.
  - intros pk [k ->%key_of_Some]. apply public_key_length.
  - intros sk pk [k Hk]. rewrite Hk. eexists. split; [done|]. unfold mix. by case_match.
  - intros sk pk k. destruct (key_of pk); [by eexists|done].
  - intros a b. rewrite !key_of_public. by rewrite mix_sym.
  - intros prk info n. rewrite length_take, length_app, length_replicate. lia.
  - intros a b text _ Hlen. rewrite !key_of_public. eexists. split; [done|].
    rewrite string_length_app. change (String.length pad) with 132. split; [lia|]. split; [lia|done].
  - intros sk kind tags content at_ _. eexists. split; [done|]. cbn.
    by rewrite bool_decide_eq_true_2.
  - intros msg. eexists. split; [done|]. split; [apply json_roundtrip|].
    destruct msg as [| |[]|[]|[]]; cbn; lia.
  - apply hex_roundtrip.
Defined.

(** Percent encoding of the bytes that are not letters or digits. *)
Fixpoint percent_encode (s : string) : string :=
  match s with
  | EmptyString => ""
  | String c s =>
      if is_ascii_alphanumeric c then String c (percent_encode s)
      else String "%" (String (nibble (N_of_ascii c / 16)) (String (nibble (N_of_ascii c mod 16)) (percent_encode s)))
  end.

Fixpoint percent_decode (s : string) : string :=
  match s with
  | String "%"%char (String c (String d s)) =>
      match unnibble c, unnibble d with
      | Some hi, Some lo => String (ascii_of_N (hi * 16 + lo)) (percent_decode s)
      | _, _ => String "%" (String c (String d (percent_decode s)))
      end
  | String c s => String c (percent_decode s)
  | EmptyString => ""
  end.

Lemma percent_roundtrip s : percent_decode (percent_encode s) = s.
Proof.
  induction s as [|c s IH]; [done|]. cbn [percent_encode].
  remember (percent_encode s) as e eqn:He; clear He.
  destruct c as [[] [] [] [] [] [] [] []]; vm_compute is_ascii_alphanumeric; cbv iota;
    lazy [nibble unnibble N_of_ascii N_of_digits N.div N.modulo]; simpl; by rewrite IH.
Qed.

Lemma nibble_text c :
  is_ascii_alphanumeric (nibble (N_of_ascii c / 16)) = true ∧
  is_ascii_alphanumeric (nibble (N_of_ascii c mod 16)) = true.
Proof. by destruct c as [[] [] [] [] [] [] [] []]. Qed.

Lemma percent_text s :
  chars_all (λ c, is_ascii_alphanumeric c || bool_decide (c = "%"%char)) (percent_encode s) = true.
Proof.
  induction s as [|c s IH]; [done|]. cbn [percent_encode].
  destruct (is_ascii_alphanumeric c) eqn:Hc; cbn [chars_all].
  - by rewrite Hc, IH.
  - destruct (nibble_text c) as [-> ->]. by rewrite IH.
Qed.

Definition qr_ops : QrOps := {|
  pk_from_hex s := Ok s;
  percent_encode_non_alphanumeric := percent_encode;
  percent_decode_lossy := percent_decode;
  url_parse s :=
    match strip_prefix "wss://" s with
    | Some host => Ok ("wss", if bool_decide (host = "") then None else Some host)
    | None => Err "relative URL without a base"
    end;
|}.

Lemma qr_laws : @QrLaws ops laws qr_ops.
Proof.
  refine (@Build_QrLaws ops laws qr_ops (λ _, True) _ _ _ _);
    cbn -[key_of pub percent_encode percent_decode to_hex of_hex hex64].
  - intros pk [k ->%key_of_Some]. split; [|done].
    unfold hex64, pub. destruct (hex_text (replicate 31 Byte.x00 ++ [k])) as [-> ->]. done.
  - intros b Hb. unfold hex64. destruct (hex_text b) as [-> ->]. by rewrite Hb.
  - apply percent_text.
  - intros s _. apply percent_roundtrip.
Defined.

Definition secret : bytes := replicate 32 Byte.x07.
Definition payload : QrPayload := MkQr (pub Byte.x05) secret ["wss://relay.example/?a=1&b"] 1.

Lemma payload_good : @payload_ok ops laws qr_ops qr_laws payload.
Proof.
  split; [exists Byte.x05; apply key_of_public|]. split; [done|]. split; [done|]. split; [done|].
  split; [|done]. apply Forall_singleton. split; [done|].
  exists "wss", "relay.example/?a=1&b". split; [done|by left].
Qed.
End Toy.

Lemma qr_roundtrip_witness :
  @decode_qr Toy.ops Toy.qr_ops (@encode_qr Toy.ops Toy.qr_ops Toy.payload) = Ok Toy.payload ∧
  version Toy.payload = 1%N ∧ length (qr_secret Toy.payload) = 32.
Proof.
  destruct (@qr_roundtrip Toy.ops Toy.laws Toy.qr_ops Toy.qr_laws Toy.payload
    (@encode_qr Toy.ops Toy.qr_ops Toy.payload) Toy.payload Toy.payload_good) as (H1 & H2 & H3 & _).
  - apply Nat.leb_le. vm_compute. reflexivity.
  - vm_compute. reflexivity.
  - split; [exact H1|]. split; [exact H2|exact H3].
Defined.

Lemma qr_unreadable_version_witness :
  @decode_qr Toy.ops Toy.qr_ops
    (@qr_uri_with Toy.ops Toy.qr_ops Toy.payload "4294967298") = Ok Toy.payload ∧
  @decode_qr Toy.ops Toy.qr_ops (@qr_uri_with Toy.ops Toy.qr_ops Toy.payload "two") = Ok Toy.payload.
Proof.
  split.
  - apply (@qr_unreadable_version Toy.ops Toy.laws Toy.qr_ops Toy.qr_laws Toy.payload "4294967298");
      [exact Toy.payload_good|reflexivity|apply Nat.leb_le; vm_compute; reflexivity|reflexivity].
  - apply (@qr_unreadable_version Toy.ops Toy.laws Toy.qr_ops Toy.qr_laws Toy.payload "two");
      [exact Toy.payload_good|reflexivity|apply Nat.leb_le; vm_compute; reflexivity|reflexivity].
Defined.
