(* ===== verification/Pairing.v ===== *)
(** * Device pairing: the session ([crates/buzz-core/src/pairing/session.rs])

    Each [&mut self] method is a computation in [SE PairingSession PairingError];
    what it reads from the outside (the two clocks, the jitter, the encryption
    nonce and the signing randomness) is its [Env].  An [Instant] and a
    [Duration] are nanoseconds, a Unix time seconds.  [processed_ids] holds the
    hex text of the event ids.  The [Drop] implementations only zero memory. *)

From stdpp Require Import base gmap strings list pretty.
From Stdlib Require Import ZArith NArith Lia.
From S2P Require Import Prelude Text Nostr PairCrypto.

Local Open Scope string_scope.
Local Open Scope list_scope.

(** [Duration::from_secs(120)] *)
Definition DEFAULT_TIMEOUT : Z := 120 * 1000000000.

Definition KIND_PAIRING : Kind := 24134.

Inductive Role : Type := Source | Target.

Inductive SessionState : Type :=
  | Waiting
  | Confirming
  | AwaitingConfirmation
  | Transferring
  | PayloadExchanged
  | Completed
  | Aborted.

#[export] Instance Role_eq_dec : EqDecision Role.
Proof. solve_decision. Defined.
#[export] Instance SessionState_eq_dec : EqDecision SessionState.
Proof. solve_decision. Defined.

(** What a call reads from its surroundings. *)
Record Env : Type := MkEnv {
  instant_now : Z;
  unix_now : Z;
  random_u64 : Z;
  nonce : Z;
  aux_rand : Z;
}.

(** [{:?}] *)
Definition state_debug (s : SessionState) : string :=
  match s with
  | Waiting => "Waiting"
  | Confirming => "Confirming"
  | AwaitingConfirmation => "AwaitingConfirmation"
  | Transferring => "Transferring"
  | PayloadExchanged => "PayloadExchanged"
  | Completed => "Completed"
  | Aborted => "Aborted"
  end.

Definition role_debug (r : Role) : string :=
  match r with Source => "Source" | Target => "Target" end.

Definition message_name (m : PairingMessage) : string :=
  match m with
  | Offer _ _ => "offer"
  | SasConfirm _ => "sas-confirm"
  | Payload _ _ => "payload"
  | Complete _ => "complete"
  | Abort _ => "abort"
  end.

Definition unexpected (expected : string) (got : PairingMessage) : PairingError :=
  UnexpectedMessage expected (message_name got).

Section session.
Context `{PairOps}.

Record PairingSession : Type := MkSession {
  role : Role;
  state : SessionState;
  keys : SecretKey;
  session_secret : bytes;
  relay_urls : list string;
  peer_pubkey : option PublicKey;
  session_id : bytes;
  sas_code : option N;
  sas_input : option bytes;
  processed_ids : gset string;
  created_at : Z;
  timeout : Z;
}.

Abbreviation M := (SE PairingSession PairingError).

Definition set_state (st : SessionState) (s : PairingSession) : PairingSession :=
  MkSession (role s) st (keys s) (session_secret s) (relay_urls s) (peer_pubkey s) (session_id s)
    (sas_code s) (sas_input s) (processed_ids s) (created_at s) (timeout s).
Definition set_peer (peer : PublicKey) (s : PairingSession) : PairingSession :=
  MkSession (role s) (state s) (keys s) (session_secret s) (relay_urls s) (Some peer) (session_id s)
    (sas_code s) (sas_input s) (processed_ids s) (created_at s) (timeout s).
Definition set_sas (code : N) (input : bytes) (s : PairingSession) : PairingSession :=
  MkSession (role s) (state s) (keys s) (session_secret s) (relay_urls s) (peer_pubkey s)
    (session_id s) (Some code) (Some input) (processed_ids s) (created_at s) (timeout s).
Definition add_processed (id : string) (s : PairingSession) : PairingSession :=
  MkSession (role s) (state s) (keys s) (session_secret s) (relay_urls s) (peer_pubkey s)
    (session_id s) (sas_code s) (sas_input s) ({[id]} ∪ processed_ids s) (created_at s) (timeout s).

Definition pubkey (s : PairingSession) : PublicKey := public_key (keys s).

(** ** Checks *)

Definition is_expired (env : Env) (s : PairingSession) : bool :=
  (timeout s <? saturating_sub (instant_now env) (created_at s))%Z.

Definition check_expired (env : Env) : M unit :=
  s ← se_get; if is_expired env s then se_throw SessionExpired else mret tt.

Definition expect_state (expected : SessionState) : M unit :=
  s ← se_get;
  if bool_decide (state s ≠ expected)
  then se_throw (UnexpectedMessage ("state " +:+ state_debug expected)
                   ("state " +:+ state_debug (state s)))
  else mret tt.

Definition expect_role (expected : Role) : M unit :=
  s ← se_get;
  if bool_decide (role s ≠ expected)
  then se_throw (UnexpectedMessage ("role " +:+ role_debug expected)
                   ("role " +:+ role_debug (role s)))
  else mret tt.

(** A tag [["p", our key, ..]]. *)
Definition p_tag_to (our_pk : PublicKey) (t : Tag) : bool :=
  bool_decide (tag_slice t !! 0%nat = Some "p") && bool_decide (tag_slice t !! 1%nat = Some our_pk).

Definition validate_event_basics (event : SignedEvent) : M unit :=
  s ← se_get;
  match verify event with
  | Err e => se_throw (InvalidPubkey ("event verification failed: " +:+ e))
  | Ok _ =>
      let e := unsigned_event event in
      if bool_decide (ev_id e ∈ processed_ids s)
      then se_throw (UnexpectedMessage "new event" "duplicate event id")
      else if bool_decide (ev_kind e ≠ KIND_PAIRING)
      then se_throw (UnexpectedMessage ("kind " +:+ pretty KIND_PAIRING)
                       ("kind " +:+ pretty (ev_kind e)))
      else if existsb (p_tag_to (pubkey s)) (ev_tags e) then mret tt
      else se_throw (InvalidPubkey "event p-tag does not match our ephemeral pubkey")
  end.

Definition validate_event_from_peer (event : SignedEvent) : M unit :=
  _ ← validate_event_basics event;
  s ← se_get;
  match peer_pubkey s with
  | Some expected =>
      if bool_decide (ev_pubkey (unsigned_event event) ≠ expected)
      then se_throw (InvalidPubkey ("event from " +:+ ev_pubkey (unsigned_event event)
                                      +:+ " but expected " +:+ expected))
      else mret tt
  | None => mret tt
  end.

Definition record_event (event : SignedEvent) : M unit :=
  se_modify (add_processed (ev_id (unsigned_event event))).

(** ** Building and opening events *)

(** [Tag::public_key(peer)] *)
Definition tag_public_key (peer : PublicKey) : Tag := MkTag ["p"; peer] "p" (Some peer).

Definition build_event (env : Env) (message : PairingMessage) (s : PairingSession)
    : result PairingError SignedEvent :=
  match peer_pubkey s with
  | None => Err (InvalidPubkey "no peer pubkey set")
  | Some peer =>
  match message_to_json message with
  | Err e => Err (JsonError e)
  | Ok plaintext =>
  match nip44_encrypt (keys s) peer plaintext (nonce env) with
  | Err e => Err (Nip44 e)
  | Ok encrypted =>
      let jitter := (random_u64 env `mod` 31)%Z in
      let ts := saturating_sub (unix_now env) jitter in
      match sign_with_keys (keys s) KIND_PAIRING [tag_public_key peer] encrypted ts (aux_rand env) with
      | Err e => Err (SigningError e)
      | Ok event => Ok event
      end
  end end end.

Definition build (env : Env) (message : PairingMessage) : M SignedEvent :=
  s ← se_get; se_lift (build_event env message s).

Definition content_len (event : SignedEvent) : Z :=
  Z.of_nat (String.length (ev_text (unsigned_event event))).

Definition decrypt_message (event : SignedEvent) (s : PairingSession)
    : result PairingError PairingMessage :=
  if negb ((132 <=? content_len event) && (content_len event <=? 87472))%Z
  then Err (UnexpectedMessage "NIP-44 content (132–87472 chars)" (pretty (content_len event) +:+ " chars"))
  else match nip44_decrypt (keys s) (ev_pubkey (unsigned_event event)) (ev_text (unsigned_event event)) with
  | Err e => Err (Nip44 e)
  | Ok decrypted =>
      let n := Z.of_nat (String.length decrypted) in
      if (65535 <? n)%Z
      then Err (UnexpectedMessage "plaintext ≤ 65535 bytes" (pretty n +:+ " bytes"))
      else match message_from_json decrypted with
           | Err e => Err (JsonError e)
           | Ok m => Ok m
           end
  end.

Definition decrypt (event : SignedEvent) : M PairingMessage :=
  s ← se_get; se_lift (decrypt_message event s).

(** [hex::decode(..).ok().and_then(|b| <[u8; 32]>::try_from(b).ok())] *)
Definition decode32 (text : string) : option bytes :=
  b ← hex_decode text; if bool_decide (length b = 32%nat) then Some b else None.

(** [opt.ok_or(e)?] *)
Definition ok_or {A} (o : option A) (e : PairingError) : M A :=
  match o with Some a => mret a | None => se_throw e end.

(** ** The source *)

(** [sk] and [secret] are the fresh key and the random bytes. *)
Definition new_source (env : Env) (sk : SecretKey) (secret : bytes) (relay_url : string)
    : PairingSession * QrPayload :=
  (MkSession Source Waiting sk secret [relay_url] None (derive_session_id secret) None None ∅
     (instant_now env) DEFAULT_TIMEOUT,
   MkQr (public_key sk) secret [relay_url] 1).

Definition handle_offer (env : Env) (event : SignedEvent) : M string :=
  _ ← check_expired env;
  _ ← expect_state Waiting;
  _ ← expect_role Source;
  _ ← validate_event_basics event;
  msg ← decrypt event;
  match msg with
  | Offer session_id_hex version =>
      if bool_decide (version ≠ 1%N)
      then se_throw (UnexpectedMessage "version 1" ("version " +:+ pretty version))
      else
        s ← se_get;
        match decode32 session_id_hex with
        | Some id =>
            if ct_eq id (session_id s) then
              let peer := ev_pubkey (unsigned_event event) in
              _ ← se_modify (set_peer peer);
              match generate_shared_key (keys s) peer with
              | Err e => se_throw (SigningError e)
              | Ok ecdh =>
                  let '(code, input) := derive_sas ecdh (session_secret s) in
                  _ ← se_modify (set_sas code input);
                  _ ← se_modify (set_state Confirming);
                  _ ← record_event event;
                  mret (format_sas code)
              end
            else se_throw InvalidSessionId
        | None => se_throw InvalidSessionId
        end
  | other => se_throw (unexpected "offer" other)
  end.

Definition confirm_sas (env : Env) : M SignedEvent :=
  _ ← check_expired env;
  _ ← expect_state Confirming;
  _ ← expect_role Source;
  s ← se_get;
  input ← ok_or (sas_input s) SasMismatch;
  peer ← ok_or (peer_pubkey s) (InvalidPubkey "no peer");
  let transcript_hash := derive_transcript_hash (session_id s) (pk_to_bytes (pubkey s))
                           (pk_to_bytes peer) input (session_secret s) in
  event ← build env (SasConfirm (hex_encode transcript_hash));
  _ ← se_modify (set_state Transferring);
  mret event.

(** [handle_return_payload] and [handle_payload] differ in the role only. *)
Definition receive_payload (r : Role) (env : Env) (event : SignedEvent) : M (PayloadType * string) :=
  _ ← check_expired env;
  _ ← expect_state Transferring;
  _ ← expect_role r;
  _ ← validate_event_from_peer event;
  msg ← decrypt event;
  match msg with
  | Payload payload_type payload =>
      _ ← se_modify (set_state PayloadExchanged);
      _ ← record_event event;
      mret (payload_type, payload)
  | other => se_throw (unexpected "payload" other)
  end.

Definition handle_return_payload : Env → SignedEvent → M (PayloadType * string) :=
  receive_payload Source.

Definition send_source_complete (env : Env) (success : bool) : M SignedEvent :=
  _ ← check_expired env;
  _ ← expect_state PayloadExchanged;
  _ ← expect_role Source;
  event ← build env (Complete success);
  _ ← se_modify (set_state (if success then Completed else Aborted));
  mret event.

Definition send_payload (env : Env) (payload_type : PayloadType) (payload : string) : M SignedEvent :=
  _ ← check_expired env;
  _ ← expect_state Transferring;
  _ ← expect_role Source;
  event ← build env (Payload payload_type payload);
  _ ← se_modify (set_state PayloadExchanged);
  mret event.

Definition handle_complete (env : Env) (event : SignedEvent) : M unit :=
  _ ← check_expired env;
  _ ← expect_state PayloadExchanged;
  _ ← expect_role Source;
  _ ← validate_event_from_peer event;
  msg ← decrypt event;
  match msg with
  | Complete true =>
      _ ← se_modify (set_state Completed);
      record_event event
  | Complete false =>
      _ ← se_modify (set_state Aborted);
      se_throw (UnexpectedMessage "complete(success=true)" "complete(success=false)")
  | other => se_throw (unexpected "complete" other)
  end.

(** ** The target *)

Definition new_target (env : Env) (sk : SecretKey) (qr : QrPayload)
    : result PairingError (PairingSession * SignedEvent) :=
  let id := derive_session_id (qr_secret qr) in
  match generate_shared_key sk (source_pubkey qr) with
  | Err e => Err (SigningError e)
  | Ok ecdh =>
      let '(code, input) := derive_sas ecdh (qr_secret qr) in
      let session := MkSession Target Waiting sk (qr_secret qr) (relays qr) (Some (source_pubkey qr))
                       id (Some code) (Some input) ∅ (instant_now env) DEFAULT_TIMEOUT in
      event ← build_event env (Offer (hex_encode id) 1) session;
      Ok (set_state Confirming session, event)
  end.

Definition handle_sas_confirm (env : Env) (event : SignedEvent) : M string :=
  _ ← check_expired env;
  _ ← expect_state Confirming;
  _ ← expect_role Target;
  _ ← validate_event_from_peer event;
  msg ← decrypt event;
  match msg with
  | SasConfirm received_hash =>
      s ← se_get;
      input ← ok_or (sas_input s) SasMismatch;
      peer ← ok_or (peer_pubkey s) (InvalidPubkey "no peer");
      let expected_hash := derive_transcript_hash (session_id s) (pk_to_bytes peer)
                             (pk_to_bytes (pubkey s)) input (session_secret s) in
      let matches := match decode32 received_hash with
                     | Some rb => ct_eq rb expected_hash
                     | None => false
                     end in
      if negb matches then
        _ ← se_modify (set_state Aborted);
        se_throw TranscriptMismatch
      else
        _ ← se_modify (set_state AwaitingConfirmation);
        _ ← record_event event;
        code ← ok_or (sas_code s) SasMismatch;
        mret (format_sas code)
  | other => se_throw (unexpected "sas-confirm" other)
  end.

Definition confirm_target_sas (env : Env) : M unit :=
  _ ← check_expired env;
  _ ← expect_state AwaitingConfirmation;
  _ ← expect_role Target;
  se_modify (set_state Transferring).

Definition handle_payload : Env → SignedEvent → M (PayloadType * string) :=
  receive_payload Target.

Definition send_complete (env : Env) : M SignedEvent :=
  _ ← check_expired env;
  _ ← expect_state PayloadExchanged;
  _ ← expect_role Target;
  event ← build env (Complete true);
  _ ← se_modify (set_state Completed);
  mret event.

(** ** Either side *)

Definition terminal (st : SessionState) : bool :=
  match st with Completed | Aborted => true | _ => false end.

Definition reject_terminal : M unit :=
  s ← se_get;
  if terminal (state s)
  then se_throw (UnexpectedMessage "non-terminal state" ("state " +:+ state_debug (state s)))
  else mret tt.

Definition abort (env : Env) (reason : AbortReason) : M (option SignedEvent) :=
  _ ← reject_terminal;
  s ← se_get;
  match peer_pubkey s with
  | None => _ ← se_modify (set_state Aborted); mret None
  | Some _ =>
      event ← build env (Abort reason);
      _ ← se_modify (set_state Aborted);
      mret (Some event)
  end.

Definition handle_abort (event : SignedEvent) : M AbortReason :=
  _ ← reject_terminal;
  s ← se_get;
  match peer_pubkey s with
  | None => se_throw (InvalidPubkey "cannot accept abort before peer is known")
  | Some _ =>
      _ ← validate_event_from_peer event;
      msg ← decrypt event;
      match msg with
      | Abort reason =>
          _ ← se_modify (set_state Aborted);
          _ ← record_event event;
          mret reason
      | other => se_throw (unexpected "abort" other)
      end
  end.

(** The code displayed, and the URI of the QR code (source only). *)
Definition displayed_sas (s : PairingSession) : option string := format_sas <$> sas_code s.

Definition qr_uri `{QrOps} (s : PairingSession) : option string :=
  if bool_decide (role s ≠ Source) then None
  else Some (encode_qr (MkQr (pubkey s) (session_secret s) (relay_urls s) 1)).
End session.

(** ** The protocol as a state machine

    A [Call] is one call of the interface by the application; [perform] runs
    it.  [machine] is the protocol on states alone. *)

Inductive Call : Type :=
  | HandleOffer (e : SignedEvent)
  | ConfirmSas
  | HandleReturnPayload (e : SignedEvent)
  | SendSourceComplete (success : bool)
  | SendPayload (payload_type : PayloadType) (payload : string)
  | HandleComplete (e : SignedEvent)
  | HandleSasConfirm (e : SignedEvent)
  | ConfirmTargetSas
  | HandlePayload (e : SignedEvent)
  | SendComplete
  | SendAbort (reason : AbortReason)
  | HandleAbort (e : SignedEvent).

Inductive Answer : Type :=
  | Code (sas : string)
  | Publish (e : SignedEvent)
  | Received (payload_type : PayloadType) (payload : string)
  | Done
  | AbortSent (e : option SignedEvent)
  | AbortReceived (reason : AbortReason).

Definition machine (r : Role) (st : SessionState) (c : Call) : option SessionState :=
  match c, r, st with
  | HandleOffer _, Source, Waiting => Some Confirming
  | ConfirmSas, Source, Confirming => Some Transferring
  | HandleReturnPayload _, Source, Transferring => Some PayloadExchanged
  | SendPayload _ _, Source, Transferring => Some PayloadExchanged
  | SendSourceComplete success, Source, PayloadExchanged =>
      Some (if success then Completed else Aborted)
  | HandleComplete _, Source, PayloadExchanged => Some Completed
  | HandleSasConfirm _, Target, Confirming => Some AwaitingConfirmation
  | ConfirmTargetSas, Target, AwaitingConfirmation => Some Transferring
  | HandlePayload _, Target, Transferring => Some PayloadExchanged
  | SendComplete, Target, PayloadExchanged => Some Completed
  | SendAbort _, _, st | HandleAbort _, _, st => if terminal st then None else Some Aborted
  | _, _, _ => None
  end.

(** The event a call consumes. *)
Definition call_event (c : Call) : option SignedEvent :=
  match c with
  | HandleOffer e | HandleReturnPayload e | HandleComplete e | HandleSasConfirm e
  | HandlePayload e | HandleAbort e => Some e
  | _ => None
  end.

(** The calls through which the secret leaves or enters. *)
Definition payload_call (c : Call) : bool :=
  match c with
  | HandleReturnPayload _ | SendPayload _ _ | HandlePayload _ => true
  | _ => false
  end.

Section perform.
Context `{PairOps}.

Definition perform (env : Env) (c : Call) : SE PairingSession PairingError Answer :=
  match c with
  | HandleOffer e => code ← handle_offer env e; mret (Code code)
  | ConfirmSas => e ← confirm_sas env; mret (Publish e)
  | HandleReturnPayload e => p ← handle_return_payload env e; mret (Received p.1 p.2)
  | SendSourceComplete success => e ← send_source_complete env success; mret (Publish e)
  | SendPayload t p => e ← send_payload env t p; mret (Publish e)
  | HandleComplete e => _ ← handle_complete env e; mret Done
  | HandleSasConfirm e => code ← handle_sas_confirm env e; mret (Code code)
  | ConfirmTargetSas => _ ← confirm_target_sas env; mret Done
  | HandlePayload e => p ← handle_payload env e; mret (Received p.1 p.2)
  | SendComplete => e ← send_complete env; mret (Publish e)
  | SendAbort reason => e ← abort env reason; mret (AbortSent e)
  | HandleAbort e => reason ← handle_abort e; mret (AbortReceived reason)
  end.

(** A history: the calls made since [s0] with what they returned. *)
Inductive history (s0 : PairingSession) :
    list (Call * result PairingError Answer) → PairingSession → Prop :=
  | history_nil : history s0 [] s0
  | history_snoc h s env c r s' :
      history s0 h s → perform env c s = (r, s') → history s0 (h ++ [(c, r)]) s'.

(** What the checks on an incoming event establish. *)
Definition addressed (s : PairingSession) (e : SignedEvent) : Prop :=
  is_Ok (verify e) ∧ ev_id (unsigned_event e) ∉ processed_ids s ∧
  ev_kind (unsigned_event e) = KIND_PAIRING ∧
  existsb (p_tag_to (pubkey s)) (ev_tags (unsigned_event e)) = true.

Definition from_peer (s : PairingSession) (e : SignedEvent) : Prop :=
  addressed s e ∧ ∀ p, peer_pubkey s = Some p → ev_pubkey (unsigned_event e) = p.

(** [s] unexpired, in state [st] and of role [r]. *)
Definition at_gate (env : Env) (st : SessionState) (r : Role) (s : PairingSession) : Prop :=
  is_expired env s = false ∧ state s = st ∧ role s = r.
End perform.

(** ** What the checks establish *)

Section checks.
Context `{PairOps}.
Implicit Types (s : PairingSession) (e : SignedEvent).

Ltac read_only := intros s; unfold mbind, se_bind, se_get, se_throw, se_lift, mret, se_ret; simpl;
  repeat case_match; simplify_eq/=; done.

Lemma check_expired_reads env : reads (check_expired env).
Proof. unfold check_expired. read_only. Qed.
Lemma expect_state_reads st : reads (expect_state st).
Proof. unfold expect_state. read_only. Qed.
Lemma expect_role_reads r : reads (expect_role r).
Proof. unfold expect_role. read_only. Qed.
Lemma validate_basics_reads e : reads (validate_event_basics e).
Proof. unfold validate_event_basics. read_only. Qed.
Lemma validate_peer_reads e : reads (validate_event_from_peer e).
Proof.
  unfold validate_event_from_peer. intros s. rewrite reads_bind by apply validate_basics_reads.
  case_match; [|done]. unfold mbind, se_bind, se_get, se_throw. repeat case_match; simplify_eq/=; done.
Qed.
Lemma build_reads env msg : reads (build env msg).
Proof. done. Qed.
Lemma decrypt_reads e : reads (decrypt e).
Proof. done. Qed.
Lemma ok_or_ok {A} (o : option A) er s a s' : ok_or o er s = (Ok a, s') → o = Some a.
Proof. destruct o; [|done]. by intros [= ->]. Qed.
Lemma ok_or_reads {A} (o : option A) er : reads (ok_or o er).
Proof. by destruct o. Qed.
Lemma reject_terminal_reads : reads reject_terminal.
Proof. unfold reject_terminal. read_only. Qed.

Lemma gate_ok env st r s {A} (k : SE PairingSession PairingError A) :
  at_gate env st r s →
  (_ ← check_expired env; _ ← expect_state st; _ ← expect_role r; k) s = k s.
Proof.
  intros (He & Hst & Hr).
  unfold check_expired, expect_state, expect_role, mbind, se_bind, se_get. rewrite He. simpl.
  rewrite bool_decide_eq_false_2 by auto. simpl. by rewrite bool_decide_eq_false_2 by auto.
Qed.

Lemma gate_cases env st r s {A} (k : SE PairingSession PairingError A) res s' :
  (_ ← check_expired env; _ ← expect_state st; _ ← expect_role r; k) s = (res, s') →
  (at_gate env st r s ∧ k s = (res, s')) ∨ (∃ er, res = Err er ∧ s' = s).
Proof.
  intros [([] & He & Hk)|(er & _ & -> & ->)]%reads_cases; [|eauto|apply check_expired_reads].
  apply reads_cases in Hk as [([] & Hst & Hk)|(er & _ & -> & ->)]; [|eauto|apply expect_state_reads].
  apply reads_cases in Hk as [([] & Hr & Hk)|(er & _ & -> & ->)]; [|eauto|apply expect_role_reads].
  left. split; [|done]. unfold check_expired, expect_state, expect_role, mbind, se_bind, se_get in *.
  simpl in *. split_and!.
  - by destruct (is_expired env s).
  - clear Hr. by case_bool_decide.
  - clear Hst. by case_bool_decide.
Qed.

Lemma basics_iff e s : (∃ u, validate_event_basics e s = (Ok u, s)) ↔ addressed s e.
Proof.
  unfold validate_event_basics, addressed, mbind, se_bind, se_get, se_throw. simpl.
  destruct (verify e) as [u|er]; simpl; [|split; [by intros [? ?]|by intros ([] & _)]].
  repeat case_bool_decide; [by split; [intros [? ?]|intros (_ & ? & _)]
    |by split; [intros [? ?]|intros (_ & _ & ? & _)]|].
  destruct (existsb _ _) eqn:Hp; simpl.
  - split; [|by eexists]. intros _. done.
  - split; [by intros [? ?]|]. by intros (_ & _ & _ & ?).
Qed.

Lemma from_peer_iff e s : (∃ u, validate_event_from_peer e s = (Ok u, s)) ↔ from_peer s e.
Proof.
  unfold validate_event_from_peer, from_peer. rewrite <-basics_iff.
  rewrite reads_bind by apply validate_basics_reads.
  pose proof (validate_basics_reads e s) as Hr.
  destruct (validate_event_basics e s) as [[u|er] s1]; simpl in *; subst.
  - unfold mbind, se_bind, se_get. destruct (peer_pubkey s) as [p|]; simpl.
    + case_bool_decide as Hne; split.
      * by intros [? ?].
      * intros [_ Hp]. by destruct Hne; apply Hp.
      * intros _. split; [by eexists|]. intros ? [= <-].
        done.
      * by eexists.
    + split; [|by eexists]. intros _. split; [by eexists|done].
  - split; [by intros [? ?]|]. by intros [[? ?] _].
Qed.

Lemma basics_cases e s {A} (k : SE PairingSession PairingError A) res s' :
  (_ ← validate_event_basics e; k) s = (res, s') →
  (addressed s e ∧ k s = (res, s')) ∨ (∃ er, res = Err er ∧ s' = s).
Proof.
  intros [(u & Hv & Hk)|(er & _ & -> & ->)]%reads_cases; [|eauto|apply validate_basics_reads].
  left. split; [|done]. apply basics_iff. eauto.
Qed.

Lemma peer_cases e s {A} (k : SE PairingSession PairingError A) res s' :
  (_ ← validate_event_from_peer e; k) s = (res, s') →
  (from_peer s e ∧ k s = (res, s')) ∨ (∃ er, res = Err er ∧ s' = s).
Proof.
  intros [(u & Hv & Hk)|(er & _ & -> & ->)]%reads_cases; [|eauto|apply validate_peer_reads].
  left. split; [|done]. apply from_peer_iff. eauto.
Qed.

Lemma peer_ok e s {A} (k : SE PairingSession PairingError A) :
  from_peer s e → (_ ← validate_event_from_peer e; k) s = k s.
Proof.
  intros [u Hv]%from_peer_iff. rewrite reads_bind by apply validate_peer_reads. by rewrite Hv.
Qed.

Lemma basics_ok e s {A} (k : SE PairingSession PairingError A) :
  addressed s e → (_ ← validate_event_basics e; k) s = k s.
Proof.
  intros [u Hv]%basics_iff. rewrite reads_bind by apply validate_basics_reads. by rewrite Hv.
Qed.

Lemma build_bind env msg s e {A} (k : SignedEvent → SE PairingSession PairingError A) :
  build_event env msg s = Ok e → (x ← build env msg; k x) s = k e s.
Proof. intros Hb. unfold build, mbind, se_bind, se_get, se_lift. by rewrite Hb. Qed.

Lemma decrypt_bind e s msg {A} (k : PairingMessage → SE PairingSession PairingError A) :
  decrypt_message e s = Ok msg → (x ← decrypt e; k x) s = k msg s.
Proof. intros Hd. unfold decrypt, mbind, se_bind, se_get, se_lift. by rewrite Hd. Qed.

Lemma ok_or_bind {A B} (o : option A) er a (k : A → SE PairingSession PairingError B) s :
  o = Some a → (x ← ok_or o er; k x) s = k a s.
Proof. by intros ->. Qed.

Lemma decrypt_cases e s {A} (k : PairingMessage → SE PairingSession PairingError A) res s' :
  (msg ← decrypt e; k msg) s = (res, s') →
  (∃ msg, decrypt_message e s = Ok msg ∧ k msg s = (res, s')) ∨ (∃ er, res = Err er ∧ s' = s).
Proof.
  intros [(m & Hv & Hk)|(er & _ & -> & ->)]%reads_cases; [|eauto|apply decrypt_reads].
  left. exists m. split; [|done]. by injection Hv.
Qed.

Lemma build_cases env msg s {A} (k : SignedEvent → SE PairingSession PairingError A) res s' :
  (e ← build env msg; k e) s = (res, s') →
  (∃ e, build_event env msg s = Ok e ∧ k e s = (res, s')) ∨ (∃ er, res = Err er ∧ s' = s).
Proof.
  intros [(m & Hv & Hk)|(er & _ & -> & ->)]%reads_cases; [|eauto|apply build_reads].
  left. exists m. split; [|done]. by injection Hv.
Qed.
End checks.

(** ** Each call: when it succeeds, what it leaves behind *)

Section calls.
Context `{PairOps}.
Implicit Types (s : PairingSession) (e : SignedEvent).

Abbreviation id_of e := (ev_id (unsigned_event e)).
Abbreviation author e := (ev_pubkey (unsigned_event e)).

(** The session after an accepted offer of [peer] with shared key [ecdh]. *)
Definition offered (ecdh : bytes) e s : PairingSession :=
  let '(code, input) := derive_sas ecdh (session_secret s) in
  add_processed (id_of e) (set_state Confirming (set_sas code input (set_peer (author e) s))).

Lemma handle_offer_spec env e s res s' :
  handle_offer env e s = (res, s') →
  (∃ ecdh hex, at_gate env Waiting Source s ∧ addressed s e ∧
     decrypt_message e s = Ok (Offer hex 1) ∧ decode32 hex = Some (session_id s) ∧
     generate_shared_key (keys s) (author e) = Ok ecdh ∧
     res = Ok (format_sas (derive_sas ecdh (session_secret s)).1) ∧ s' = offered ecdh e s) ∨
  (∃ er, res = Err er ∧ (s' = s ∨
     (at_gate env Waiting Source s ∧ addressed s e ∧ s' = set_peer (author e) s ∧
      ¬ is_Ok (generate_shared_key (keys s) (author e))))).
Proof.
  unfold handle_offer. intros [[Hg Hk]|(er & -> & ->)]%gate_cases; [|eauto].
  apply basics_cases in Hk as [[Ha Hk]|(er & -> & ->)]; [|eauto].
  apply decrypt_cases in Hk as [(msg & Hd & Hk)|(er & -> & ->)]; [|eauto].
  destruct msg as [hex v| | | |]; try (injection Hk as <- <-; by eauto).
  case_bool_decide as Hv; [injection Hk as <- <-; by eauto|].
  subst v.
  unfold mbind at 1, se_bind at 1, se_get in Hk.
  destruct (decode32 hex) as [id|] eqn:Hdec; [|injection Hk as <- <-; by eauto].
  unfold ct_eq in Hk. case_bool_decide as Hid; [subst id|injection Hk as <- <-; by eauto].
  unfold mbind, se_bind, se_modify, record_event in Hk.
  destruct (generate_shared_key _ _) as [ecdh|er] eqn:Hecdh.
  - left. exists ecdh, hex. injection Hk as <- <-. done.
  - right. injection Hk as <- <-. exists (SigningError er). split; [done|]. right. split_and!; try done. by intros [].
Qed.

Lemma confirm_sas_spec env s res s' :
  confirm_sas env s = (res, s') →
  (∃ input peer e, at_gate env Confirming Source s ∧ sas_input s = Some input ∧
     peer_pubkey s = Some peer ∧
     build_event env (SasConfirm (hex_encode (derive_transcript_hash (session_id s)
       (pk_to_bytes (pubkey s)) (pk_to_bytes peer) input (session_secret s)))) s = Ok e ∧
     res = Ok e ∧ s' = set_state Transferring s) ∨
  (∃ er, res = Err er ∧ s' = s).
Proof.
  unfold confirm_sas. intros [[Hg Hk]|(er & -> & ->)]%gate_cases; [|eauto].
  unfold mbind at 1, se_bind at 1, se_get in Hk.
  apply reads_cases in Hk as [(input & Hi & Hk)|(er & _ & -> & ->)];
    [|eauto|apply ok_or_reads].
  apply reads_cases in Hk as [(peer & Hp & Hk)|(er & _ & -> & ->)];
    [|eauto|apply ok_or_reads].
  apply build_cases in Hk as [(e & Hb & Hk)|(er & -> & ->)]; [|eauto].
  left. exists input, peer, e. injection Hk as <- <-. split_and!; try done.
  - by eapply ok_or_ok.
  - by eapply ok_or_ok.
Qed.

Lemma receive_payload_spec r env e s res s' :
  receive_payload r env e s = (res, s') →
  (∃ t p, at_gate env Transferring r s ∧ from_peer s e ∧ decrypt_message e s = Ok (Payload t p) ∧
     res = Ok (t, p) ∧ s' = add_processed (id_of e) (set_state PayloadExchanged s)) ∨
  (∃ er, res = Err er ∧ s' = s).
Proof.
  unfold receive_payload. intros [[Hg Hk]|(er & -> & ->)]%gate_cases; [|eauto].
  apply peer_cases in Hk as [[Hp Hk]|(er & -> & ->)]; [|eauto].
  apply decrypt_cases in Hk as [(msg & Hd & Hk)|(er & -> & ->)]; [|eauto].
  destruct msg; injection Hk as <- <-; eauto 10.
Qed.

(** Building an event and moving on. *)
Lemma send_spec env st r msg st' s res s' :
  (_ ← check_expired env; _ ← expect_state st; _ ← expect_role r;
   e ← build env msg; _ ← se_modify (set_state st'); mret e) s = (res, s') →
  (∃ e, at_gate env st r s ∧ build_event env msg s = Ok e ∧ res = Ok e ∧ s' = set_state st' s) ∨
  (∃ er, res = Err er ∧ s' = s).
Proof.
  intros [[Hg Hk]|(er & -> & ->)]%gate_cases; [|eauto].
  apply build_cases in Hk as [(e & Hb & Hk)|(er & -> & ->)]; [|eauto].
  injection Hk as <- <-. eauto 10.
Qed.

Lemma handle_complete_spec env e s res s' :
  handle_complete env e s = (res, s') →
  (at_gate env PayloadExchanged Source s ∧ from_peer s e ∧
     decrypt_message e s = Ok (Complete true) ∧
     res = Ok tt ∧ s' = add_processed (id_of e) (set_state Completed s)) ∨
  (∃ er, res = Err er ∧ (s' = s ∨
     (at_gate env PayloadExchanged Source s ∧ from_peer s e ∧
      decrypt_message e s = Ok (Complete false) ∧ s' = set_state Aborted s))).
Proof.
  unfold handle_complete. intros [[Hg Hk]|(er & -> & ->)]%gate_cases; [|eauto].
  apply peer_cases in Hk as [[Hp Hk]|(er & -> & ->)]; [|eauto].
  apply decrypt_cases in Hk as [(msg & Hd & Hk)|(er & -> & ->)]; [|eauto].
  destruct msg as [| | |[]|]; injection Hk as <- <-; eauto 10.
Qed.

Lemma handle_sas_confirm_spec env e s res s' :
  handle_sas_confirm env e s = (res, s') →
  (∃ input peer code text, at_gate env Confirming Target s ∧ from_peer s e ∧
     sas_input s = Some input ∧ peer_pubkey s = Some peer ∧ sas_code s = Some code ∧
     decrypt_message e s = Ok (SasConfirm text) ∧
     decode32 text = Some (derive_transcript_hash (session_id s) (pk_to_bytes peer)
                             (pk_to_bytes (pubkey s)) input (session_secret s)) ∧
     res = Ok (format_sas code) ∧
     s' = add_processed (id_of e) (set_state AwaitingConfirmation s)) ∨
  (∃ er, res = Err er ∧ (s' = s ∨
     (at_gate env Confirming Target s ∧ from_peer s e ∧ er = TranscriptMismatch ∧
      s' = set_state Aborted s) ∨
     (at_gate env Confirming Target s ∧ sas_code s = None ∧ s' = add_processed (id_of e) (set_state AwaitingConfirmation s)))).
Proof.
  unfold handle_sas_confirm. intros [[Hg Hk]|(er & -> & ->)]%gate_cases; [|eauto].
  apply peer_cases in Hk as [[Hf Hk]|(er & -> & ->)]; [|eauto].
  apply decrypt_cases in Hk as [(msg & Hd & Hk)|(er & -> & ->)]; [|eauto].
  destruct msg as [|text| | |]; try (injection Hk as <- <-; by eauto).
  unfold mbind at 1, se_bind at 1, se_get in Hk.
  apply reads_cases in Hk as [(input & Hi & Hk)|(er & _ & -> & ->)];
    [|eauto|apply ok_or_reads].
  apply reads_cases in Hk as [(peer & Hp & Hk)|(er & _ & -> & ->)];
    [|eauto|apply ok_or_reads].
  apply ok_or_ok in Hi, Hp.
  destruct (decode32 text) as [rb|] eqn:Htext; [|injection Hk as <- <-; by eauto 10].
  unfold ct_eq in Hk. case_bool_decide as Hrb; [subst rb|injection Hk as <- <-; by eauto 10].
  unfold mbind, se_bind, se_modify, record_event in Hk. simpl in Hk.
  destruct (sas_code s) as [code|] eqn:Hc; simpl in Hk; injection Hk as <- <-.
  - left. exists input, peer, code, text. done.
  - right. eauto 10.
Qed.

Lemma confirm_target_spec env s res s' :
  confirm_target_sas env s = (res, s') →
  (at_gate env AwaitingConfirmation Target s ∧ res = Ok tt ∧ s' = set_state Transferring s) ∨
  (∃ er, res = Err er ∧ s' = s).
Proof.
  unfold confirm_target_sas. intros [[Hg Hk]|(er & -> & ->)]%gate_cases; [|eauto].
  injection Hk as <- <-. eauto.
Qed.

Lemma abort_spec env reason s res s' :
  abort env reason s = (res, s') →
  (∃ o, terminal (state s) = false ∧ res = Ok o ∧ s' = set_state Aborted s) ∨
  (∃ er, res = Err er ∧ s' = s).
Proof.
  unfold abort. intros [([] & Ht & Hk)|(er & _ & -> & ->)]%reads_cases;
    [|eauto|apply reject_terminal_reads].
  assert (terminal (state s) = false) as Hns.
  { unfold reject_terminal, mbind, se_bind, se_get in Ht. by destruct (terminal (state s)). }
  unfold mbind at 1, se_bind at 1, se_get in Hk. destruct (peer_pubkey s) as [p|].
  - apply build_cases in Hk as [(e & Hb & Hk)|(er & -> & ->)]; [|eauto].
    injection Hk as <- <-. eauto.
  - injection Hk as <- <-. eauto.
Qed.

Lemma handle_abort_spec e s res s' :
  handle_abort e s = (res, s') →
  (∃ reason, terminal (state s) = false ∧ is_Some (peer_pubkey s) ∧ from_peer s e ∧
     decrypt_message e s = Ok (Abort reason) ∧ res = Ok reason ∧ s' = add_processed (id_of e) (set_state Aborted s)) ∨
  (∃ er, res = Err er ∧ s' = s).
Proof.
  unfold handle_abort. intros [([] & Ht & Hk)|(er & _ & -> & ->)]%reads_cases;
    [|eauto|apply reject_terminal_reads].
  assert (terminal (state s) = false) as Hns.
  { unfold reject_terminal, mbind, se_bind, se_get in Ht. by destruct (terminal (state s)). }
  unfold mbind at 1, se_bind at 1, se_get in Hk.
  destruct (peer_pubkey s) as [p|] eqn:Hp; [|injection Hk as <- <-; by eauto].
  apply peer_cases in Hk as [[Hf Hk]|(er & -> & ->)]; [|eauto].
  apply decrypt_cases in Hk as [(msg & Hd & Hk)|(er & -> & ->)]; [|eauto].
  destruct msg as [| | | |reason]; injection Hk as <- <-; eauto 10.
Qed.
End calls.

(** ** Each call as a step of the machine *)

Section steps.
Context `{PairOps}.
Implicit Types (s : PairingSession) (e : SignedEvent).

Abbreviation id_of e := (ev_id (unsigned_event e)).
Abbreviation author e := (ev_pubkey (unsigned_event e)).

Definition record_call (c : Call) s : PairingSession :=
  match call_event c with Some e => add_processed (id_of e) s | None => s end.

(** Checks on the event a call consumes; the offer comes before there is a peer. *)
Definition incoming_ok (c : Call) s : Prop :=
  match c with
  | HandleOffer e => addressed s e
  | _ => match call_event c with Some e => from_peer s e | None => True end
  end.

(** What a successful call leaves behind in state [st']. *)
Definition effect (c : Call) (st' : SessionState) s s' : Prop :=
  match c with
  | HandleOffer e =>
      ∃ ecdh, generate_shared_key (keys s) (author e) = Ok ecdh ∧ s' = offered ecdh e s
  | _ => s' = record_call c (set_state st' s)
  end.

(** The three refusals that still change the session. *)
Definition derailed (c : Call) s s' : Prop :=
  match c with
  | HandleOffer e => state s = Waiting ∧ addressed s e ∧ s' = set_peer (author e) s ∧
      ¬ is_Ok (generate_shared_key (keys s) (author e))
  | HandleSasConfirm e => state s = Confirming ∧ role s = Target ∧ from_peer s e ∧
      s' = set_state Aborted s
  | HandleComplete e => state s = PayloadExchanged ∧ role s = Source ∧ from_peer s e ∧
      decrypt_message e s = Ok (Complete false) ∧ s' = set_state Aborted s
  | _ => False
  end.

(** A session is well formed: its id is that of its secret, and the code it
    shows is the one derived from the shared key with the peer it is locked to. *)
Definition session_wf s : Prop :=
  session_id s = derive_session_id (session_secret s) ∧
  match sas_code s, sas_input s with
  | Some code, Some input =>
      state s ≠ Waiting ∧
      ∃ p ecdh, peer_pubkey s = Some p ∧ generate_shared_key (keys s) p = Ok ecdh ∧
                derive_sas ecdh (session_secret s) = (code, input)
  | None, None => state s = Waiting ∨ state s = Aborted
  | _, _ => False
  end.

Lemma perform_map {A} (m : SE PairingSession PairingError A) (f : A → Answer) s res s' :
  (a ← m; mret (f a)) s = (res, s') →
  ∃ res0, m s = (res0, s') ∧
    match res0 with Ok a => res = Ok (f a) | Err er => res = Err er end.
Proof.
  unfold mbind, se_bind. destruct (m s) as [[a|er] s1]; intros [= <- <-]; by eexists.
Qed.

Lemma at_gate_machine env st r s : at_gate env st r s → role s = r ∧ state s = st.
Proof. by intros (_ & ? & ?). Qed.

Ltac take_edge Hst Hr := rewrite Hst, Hr; split; [done|]; by eexists.

Lemma perform_spec env c s res s' :
  session_wf s → perform env c s = (res, s') →
  match res with
  | Ok _ => incoming_ok c s ∧
      ∃ st', machine (role s) (state s) c = Some st' ∧ effect c st' s s'
  | Err _ => s' = s ∨ derailed c s s'
  end.
Proof.
  intros [_ Hwf] Hp.
  destruct c; cbn [perform] in Hp; apply perform_map in Hp as (res0 & Hp & Hres).
  - apply handle_offer_spec in Hp as [(k & hex & (_ & Hst & Hr) & Ha & _ & _ & Hk & -> & ->)|
      (er & -> & Hs)]; subst res.
    + rewrite Hst, Hr. split; [done|]. eexists. split; [done|]. by exists k.
    + destruct Hs as [->|((_ & ? & _) & ? & -> & ?)]; [by left|right; done].
  - apply confirm_sas_spec in Hp as [(? & ? & ev & (_ & Hst & Hr) & _ & _ & _ & -> & ->)|
      (er & -> & ->)]; subst res; [|by left].
    take_edge Hst Hr.
  - apply receive_payload_spec in Hp as [(? & ? & (_ & Hst & Hr) & Hf & _ & -> & ->)|
      (er & -> & ->)]; subst res; [|by left].
    take_edge Hst Hr.
  - apply send_spec in Hp as [(ev & (_ & Hst & Hr) & _ & -> & ->)|(er & -> & ->)]; subst res; [|by left].
    take_edge Hst Hr.
  - apply send_spec in Hp as [(ev & (_ & Hst & Hr) & _ & -> & ->)|(er & -> & ->)]; subst res; [|by left].
    take_edge Hst Hr.
  - apply handle_complete_spec in Hp as [((_ & Hst & Hr) & Hf & _ & -> & ->)|(er & -> & Hs)];
      subst res.
    + take_edge Hst Hr.
    + destruct Hs as [->|((_ & ? & ?) & ? & ? & ->)]; [by left|right; done].
  - apply handle_sas_confirm_spec in Hp as
      [(? & ? & ? & ? & (_ & Hst & Hr) & Hf & _ & _ & _ & _ & _ & -> & ->)|(er & -> & Hs)];
      subst res.
    + take_edge Hst Hr.
    + destruct Hs as [->|[((_ & ? & ?) & ? & _ & ->)|((_ & Hst & _) & Hnone & _)]];
        [by left|right; done|].
      rewrite Hnone, Hst in Hwf. destruct (sas_input s); [done|]. by destruct Hwf.
  - apply confirm_target_spec in Hp as [((_ & Hst & Hr) & -> & ->)|(er & -> & ->)]; subst res; [|by left].
    take_edge Hst Hr.
  - apply receive_payload_spec in Hp as [(? & ? & (_ & Hst & Hr) & Hf & _ & -> & ->)|
      (er & -> & ->)]; subst res; [|by left].
    take_edge Hst Hr.
  - apply send_spec in Hp as [(ev & (_ & Hst & Hr) & _ & -> & ->)|(er & -> & ->)]; subst res; [|by left].
    take_edge Hst Hr.
  - apply abort_spec in Hp as [(ev & Ht & -> & ->)|(er & -> & ->)]; subst res; [|by left].
    split; [done|]. exists Aborted. cbn. by rewrite Ht.
  - apply handle_abort_spec in Hp as [(? & Ht & _ & Hf & _ & -> & ->)|(er & -> & ->)];
      subst res; [|by left].
    split; [done|]. exists Aborted. cbn. by rewrite Ht.
Qed.

Lemma effect_state c st' s s' : effect c st' s s' → machine (role s) (state s) c = Some st' →
  state s' = st'.
Proof.
  destruct c; cbn [effect]; [|by intros ->..].
  intros (k & _ & ->) Hm. cbn. destruct (role s), (state s); by simplify_eq/=.
Qed.

(** What no call changes. *)
Definition same_identity s s' : Prop :=
  role s' = role s ∧ keys s' = keys s ∧ session_secret s' = session_secret s ∧
  relay_urls s' = relay_urls s ∧ session_id s' = session_id s ∧
  created_at s' = created_at s ∧ timeout s' = timeout s.

Lemma perform_identity env c s res s' :
  session_wf s → perform env c s = (res, s') → same_identity s s'.
Proof.
  intros Hwf Hp. apply perform_spec in Hp; [|done]. unfold same_identity. destruct res as [o|er].
  - destruct Hp as (_ & st' & _ & He).
    destruct c; cbn [effect] in He; [destruct He as (k & _ & ->)|subst..]; done.
  - destruct Hp as [->|Hd]; [done|].
    destruct c; cbn [derailed] in Hd; try done; decompose [and] Hd; by subst.
Qed.

Lemma machine_not_waiting r st c st' : machine r st c = Some st' → st' ≠ Waiting.
Proof. destruct c, r, st; cbn; intros; simplify_eq; try done. by case_match. Qed.

(** Without an offer, a session that has no code yet can only be aborted. *)
Lemma machine_no_code r st c st' :
  (∀ e, c ≠ HandleOffer e) → machine r st c = Some st' → st = Waiting ∨ st = Aborted → st' = Aborted.
Proof.
  intros Hc Hm [-> | ->]; destruct c, r; cbn in Hm; simplify_eq; try done; by edestruct Hc.
Qed.

Lemma wf_keep s s' :
  session_wf s → session_id s' = session_id s → session_secret s' = session_secret s →
  keys s' = keys s → peer_pubkey s' = peer_pubkey s → sas_code s' = sas_code s →
  sas_input s' = sas_input s → state s' ≠ Waiting →
  (state s = Waiting ∨ state s = Aborted → state s' = Aborted) → session_wf s'.
Proof.
  intros [Hid Hsas] H1 H2 H3 H4 H5 H6 Hw Ha. unfold session_wf.
  rewrite H1, H2, H3, H4, H5, H6. split; [done|].
  destruct (sas_code s), (sas_input s); try done; [by destruct Hsas|]. right. auto.
Qed.

Lemma perform_wf env c s res s' :
  session_wf s → perform env c s = (res, s') → session_wf s'.
Proof.
  intros Hwf Hp. pose proof (perform_spec _ _ _ _ _ Hwf Hp) as Hs. destruct res as [o|er].
  - destruct Hs as (_ & st' & Hm & He). pose proof (machine_not_waiting _ _ _ _ Hm) as Hw.
    destruct c; cbn [effect] in He; [|subst s'; apply (wf_keep s); try done; cbn;
      intros Hs; by apply (machine_no_code _ _ _ _) in Hm..].
    destruct He as (k & Hk & ->). destruct Hwf as [Hid _]. split; [done|]. cbn. split; [done|].
    by exists (author e), k.
  - destruct Hs as [->|Hd]; [done|].
    destruct c; cbn [derailed] in Hd; try done; decompose [and] Hd; clear Hd; subst s';
      [|by apply (wf_keep s)..].
    destruct Hwf as [Hid Hsas]. split; [done|]. cbn.
    destruct (sas_code s), (sas_input s); try done. by destruct Hsas.
Qed.

Lemma history_wf s0 h s : session_wf s0 → history s0 h s → session_wf s ∧ same_identity s0 s.
Proof.
  intros H0. induction 1 as [|h s env c r s' _ [IH1 IH2] Hp].
  - done.
  - split; [by eapply perform_wf|]. apply perform_identity in Hp; [|done].
    unfold same_identity in *. intuition congruence.
Qed.
End steps.

(** ** Histories: what must have happened before the secret moves *)

Section histories.
Context `{PairOps}.
Implicit Types (s : PairingSession) (e : SignedEvent).

Abbreviation History := (list (Call * result PairingError Answer)).
Implicit Types (h : History).

(** A session as the two constructors make it. *)
Definition fresh s : Prop :=
  (∃ env sk secret url, s = (new_source env sk secret url).1) ∨
  (∃ env sk qr e, new_target env sk qr = Ok (s, e)).

(** The code was shown by [c1], then the user confirmed it through [c2]. *)
Definition shows_code (c : Call) : bool :=
  match c with HandleOffer _ | HandleSasConfirm _ => true | _ => false end.
Definition user_confirms (c : Call) : bool :=
  match c with ConfirmSas | ConfirmTargetSas => true | _ => false end.

Definition shown (code : string) h : Prop :=
  ∃ c, shows_code c = true ∧ (c, Ok (Code code)) ∈ h.
Definition confirmed (code : string) h : Prop :=
  ∃ h1 h2 c o, h = h1 ++ (c, Ok o) :: h2 ∧ user_confirms c = true ∧ shown code h1.

(** No payload was sent or accepted in [h]. *)
Definition quiet h : Prop := ∀ c o, (c, Ok o) ∈ h → payload_call c = false.

(** Any payload call that succeeded came after the confirmation of [s]'s code
    and is the only one. *)
Definition exchanged s h : Prop :=
  ∀ h1 c o h2, h = h1 ++ (c, Ok o) :: h2 → payload_call c = true →
    (∃ code, displayed_sas s = Some code ∧ confirmed code h1) ∧ quiet h1 ∧ quiet h2.

Definition phase s h : Prop :=
  match role s, state s with
  | Source, Waiting | Target, Confirming => quiet h
  | Source, Confirming | Target, AwaitingConfirmation =>
      quiet h ∧ ∃ code, displayed_sas s = Some code ∧ shown code h
  | _, Transferring => quiet h ∧ ∃ code, displayed_sas s = Some code ∧ confirmed code h
  | _, (PayloadExchanged | Completed | Aborted) => exchanged s h
  | Source, AwaitingConfirmation | Target, Waiting => False
  end.

Lemma fresh_wf s : fresh s →
  session_wf s ∧ processed_ids s = ∅ ∧
  state s = match role s with Source => Waiting | Target => Confirming end.
Proof.
  intros [(env & sk & secret & url & ->)|(env & sk & qr & e & Hn)].
  - split; [|done]. split; [done|]. by left.
  - unfold new_target in Hn. destruct (generate_shared_key sk (source_pubkey qr)) as [k|] eqn:Hk; [|done].
    destruct (derive_sas k (qr_secret qr)) as [code input] eqn:Hsas.
    destruct (build_event _ _ _) as [ev|]; [|done]. injection Hn as <- <-.
    split; [|done]. split; [done|]. cbn. split; [done|]. by exists (source_pubkey qr), k.
Qed.

Lemma quiet_app h h' : quiet (h ++ h') ↔ quiet h ∧ quiet h'.
Proof.
  unfold quiet. split.
  - intros Hq. split; intros c o Hin; eapply Hq, elem_of_app; eauto.
  - intros [Hq Hq'] c o [Hin|Hin]%elem_of_app; eauto.
Qed.
Lemma quiet_one c r : payload_call c = false ∨ ¬ is_Ok r → quiet [(c, r)].
Proof. intros Hc c' o Hin. apply list_elem_of_singleton in Hin. injection Hin as -> <-. by destruct Hc as [|[]]. Qed.
Lemma quiet_exchanged s h : quiet h → exchanged s h.
Proof.
  intros Hq h1 c o h2 -> Hc. apply quiet_app in Hq as [_ Hq].
  by rewrite (Hq c o) in Hc; [|left].
Qed.
Lemma shown_snoc code h x : shown code h → shown code (h ++ [x]).
Proof. intros (c & Hc & Hin). exists c. split; [done|]. apply elem_of_app. by left. Qed.
Lemma confirmed_snoc code h x : confirmed code h → confirmed code (h ++ [x]).
Proof.
  intros (h1 & h2 & c & o & -> & Hc & Hs). exists h1, (h2 ++ [x]), c, o.
  by rewrite <-app_assoc.
Qed.

Lemma exchanged_snoc s s' h c r :
  exchanged s h → (∀ code, displayed_sas s = Some code → displayed_sas s' = Some code) →
  payload_call c = false ∨ ¬ is_Ok r → exchanged s' (h ++ [(c, r)]).
Proof.
  intros Hx Hsas Hc h1 c' o h2 Heq Hc'. destruct h2 as [|x h2 _] using rev_ind.
  - apply app_inj_tail in Heq as [-> [= -> ->]]. destruct Hc as [Hc|[]]; [congruence|done].
  - rewrite app_comm_cons, app_assoc in Heq. apply app_inj_tail in Heq as [-> <-].
    destruct (Hx h1 c' o h2 eq_refl Hc') as ((code & Hd & Hcode) & Hq1 & Hq2).
    split; [eauto|]. split; [done|]. apply quiet_app. split; [done|]. by apply quiet_one.
Qed.

Lemma exchanged_now s h c r :
  quiet h → (∃ code, displayed_sas s = Some code ∧ confirmed code h) → exchanged s (h ++ [(c, r)]).
Proof.
  intros Hq Hcode h1 c' o h2 Heq Hc'. destruct h2 as [|x h2 _] using rev_ind.
  - apply app_inj_tail in Heq as [-> [= -> ->]]. split; [done|]. split; [done|].
    intros ?? []%not_elem_of_nil.
  - rewrite app_comm_cons, app_assoc in Heq. apply app_inj_tail in Heq as [-> <-].
    apply quiet_app in Hq as [_ Hq]. by rewrite (Hq c' o) in Hc'; [|left].
Qed.

(** The code a session shows never changes. *)
Lemma displayed_stays env c s res s' code :
  session_wf s → perform env c s = (res, s') →
  displayed_sas s = Some code → displayed_sas s' = Some code.
Proof.
  intros Hwf Hp Hd. pose proof (perform_spec _ _ _ _ _ Hwf Hp) as Hs. destruct res as [o|er].
  - destruct Hs as (_ & st' & Hm & He).
    destruct c; cbn [effect] in He; try by subst s'.
    destruct Hwf as [_ Hsas]. unfold displayed_sas in Hd.
    destruct (sas_code s); [|done]. destruct (sas_input s); [|done].
    destruct Hsas as [Hw _]. destruct (role s), (state s); by simplify_eq/=.
  - destruct Hs as [->|Hs]; [done|].
    destruct c; cbn [derailed] in Hs; try done; decompose [and] Hs; by subst.
Qed.

(** A call that shows a code answers the one the session displays. *)
Lemma shows_displayed env c s o s' :
  shows_code c = true → perform env c s = (Ok o, s') →
  ∃ code, o = Code code ∧ displayed_sas s' = Some code.
Proof.
  intros Hc Hp. destruct c; try done; cbn [perform] in Hp;
    apply perform_map in Hp as (res0 & Hp & Hres).
  - apply handle_offer_spec in Hp as [(k & hex & _ & _ & _ & _ & _ & -> & ->)|(er & -> & _)]; [|done].
    injection Hres as ->. by eexists.
  - apply handle_sas_confirm_spec in Hp as
      [(? & ? & code & ? & _ & _ & _ & _ & Hcode & _ & _ & -> & ->)|(er & -> & _)]; [|done].
    injection Hres as ->. eexists. split; [done|]. unfold displayed_sas. cbn. by rewrite Hcode.
Qed.

Lemma shown_now env c s o s' h :
  shows_code c = true → perform env c s = (Ok o, s') →
  ∃ code, displayed_sas s' = Some code ∧ shown code (h ++ [(c, Ok o)]).
Proof.
  intros Hc Hp. destruct (shows_displayed _ _ _ _ _ Hc Hp) as (code & -> & Hcode).
  exists code. split; [done|]. exists c. split; [done|]. apply elem_of_app. right. left.
Qed.

Lemma phase_exchanged s h : phase s h → exchanged s h.
Proof.
  unfold phase. destruct (role s), (state s); intros; try done;
    try (destruct_and?; by apply quiet_exchanged); by apply quiet_exchanged.
Qed.

(** Adding a call that did not succeed. *)
Lemma phase_err s s' h c er :
  role s' = role s → state s' = state s → sas_code s' = sas_code s →
  phase s h → phase s' (h ++ [(c, Err er)]).
Proof.
  intros Hr Hst Hc. unfold phase, displayed_sas. rewrite Hr, Hst, Hc.
  assert (quiet h → quiet (h ++ [(c, Err er)])) as Hq.
  { intros Hq. apply quiet_app. split; [done|]. apply quiet_one. right. by intros []. }
  destruct (role s), (state s); try done;
    try (intros [? (code & ? & ?)]; split; [by apply Hq|exists code; eauto using shown_snoc, confirmed_snoc]);
    intros Hx; (eapply exchanged_snoc; [exact Hx| |right; by intros []]);
    unfold displayed_sas; by rewrite Hc.
Qed.

Lemma phase_step env c s h res s' :
  session_wf s → perform env c s = (res, s') → phase s h → phase s' (h ++ [(c, res)]).
Proof.
  intros Hwf Hp Hph. pose proof (perform_spec _ _ _ _ _ Hwf Hp) as Hs.
  pose proof (perform_identity _ _ _ _ _ Hwf Hp) as [Hrole _].
  assert (∀ r', payload_call c = false ∨ ¬ is_Ok r' → exchanged s' (h ++ [(c, r')])) as Hx.
  { intros r' Hr'. eapply exchanged_snoc; [by apply phase_exchanged| |done].
    intros code. by eapply displayed_stays. }
  destruct res as [o|er].
  - destruct Hs as (_ & st' & Hm & He). apply effect_state in He as Hst'; [|done].
    assert (payload_call c = false → quiet h → quiet (h ++ [(c, Ok o)])) as Hq.
    { intros. apply quiet_app. split; [done|]. apply quiet_one. by left. }
    assert (∀ code, displayed_sas s = Some code → displayed_sas s' = Some code) as Hd
      by (intros code; by eapply displayed_stays).
    unfold phase in *. rewrite Hrole, Hst'. clear Hrole Hst' He.
    destruct c, (role s), (state s); cbn in Hm; simplify_eq; try (by apply Hx; left);
      try (destruct Hph as [Hqh (code & Hc & Hh)]);
      try (apply exchanged_now; [done|]; eauto);
      try (split; [by apply Hq|]; exists code; split; [by apply Hd|];
           exists h, [], ConfirmSas, o; done);
      try (split; [by apply Hq|]; exists code; split; [by apply Hd|];
           exists h, [], ConfirmTargetSas, o; done);
      try (split; [by apply Hq|]; by eapply shown_now).
    destruct success; apply Hx; by left.
  - destruct Hs as [->|Hd]; [by apply (phase_err s)|].
    destruct c; cbn [derailed] in Hd; try done; decompose [and] Hd; clear Hd; subst s';
      [by apply (phase_err s)| |];
      (unfold phase; cbn; destruct (role s); apply Hx; right; by intros []).
Qed.

Lemma history_phase s0 h s :
  fresh s0 → history s0 h s → session_wf s ∧ phase s h.
Proof.
  intros Hf Hh. destruct (fresh_wf _ Hf) as (Hwf & _ & Hst).
  split; [by eapply history_wf|].
  induction Hh as [|h s env c r s' Hh IH Hp].
  - unfold phase. rewrite Hst. destruct (role s0); by intros ?? []%not_elem_of_nil.
  - eapply phase_step; [|done|done]. by eapply history_wf.
Qed.
End histories.

(** ** An honest pair *)

Section honest.
Context `{PairLaws}.
Implicit Types (s t : PairingSession) (e : SignedEvent).

Definition json_fits (msg : PairingMessage) : Prop :=
  ∀ j, message_to_json msg = Ok j → (Z.of_nat (String.length j) ≤ 65535)%Z.

(** Event ids are SHA-256 digests: among the events [l], those that say something
    different have different ids. *)
Definition ids_distinct (l : list SignedEvent) : Prop :=
  ∀ e e', e ∈ l → e' ∈ l → ev_text (unsigned_event e) ≠ ev_text (unsigned_event e') →
    ev_id (unsigned_event e) ≠ ev_id (unsigned_event e').

(** [e] carries [msg] from the holder of [sk] to the holder of [sk']. *)
Definition carries (e : SignedEvent) (msg : PairingMessage) (sk sk' : SecretKey) : Prop :=
  ev_pubkey (unsigned_event e) = public_key sk ∧
  (∀ t, keys t = sk' → decrypt_message e t = Ok msg) ∧
  (∀ t, keys t = sk' → ev_id (unsigned_event e) ∉ processed_ids t → addressed t e) ∧
  ∃ at_ aux, sign_with_keys sk KIND_PAIRING [tag_public_key (public_key sk')]
               (ev_text (unsigned_event e)) at_ aux = Ok e.

Lemma build_carries env msg s sk' :
  peer_pubkey s = Some (public_key sk') → json_fits msg →
  ∃ e, build_event env msg s = Ok e ∧ carries e msg (keys s) sk'.
Proof.
  intros Hp Hfit. unfold build_event. rewrite Hp.
  destruct (message_roundtrip msg) as (j & Hj & Hback & H1). rewrite Hj.
  destruct (nip44_roundtrip (keys s) sk' j (nonce env)) as (c & Hc & Hlo & Hhi & Hdec).
  { split; [lia|by apply Hfit]. }
  rewrite Hc. destruct (sign_ok (keys s) KIND_PAIRING [tag_public_key (public_key sk')] c
    (saturating_sub (unix_now env) (random_u64 env `mod` 31)) (aux_rand env))
    as (e & Hs & Hver & Hpk & Hkind & Htags & Htext).
  rewrite Hs. exists e. split; [done|]. split; [done|]. split_and!.
  - intros t Hkt. unfold decrypt_message, content_len. rewrite Htext, Hpk, Hkt.
    replace ((132 <=? Z.of_nat (String.length c)) && (Z.of_nat (String.length c) <=? 87472))%Z
      with true by (symmetry; apply andb_true_iff; split; apply Z.leb_le; lia).
    cbn [negb]. rewrite Hdec.
    replace (65535 <? Z.of_nat (String.length j))%Z with false
      by (symmetry; apply Z.ltb_ge; specialize (Hfit j Hj); lia).
    by rewrite Hback.
  - intros t Hkt Hid. split; [by rewrite Hver|]. split; [done|]. split; [done|].
    rewrite Htags. cbn. unfold p_tag_to, pubkey. cbn. rewrite Hkt.
    by rewrite !bool_decide_eq_true_2.
  - rewrite Htext. eauto.
Qed.

Lemma carries_ids l e e' msg msg' sk sk' t :
  ids_distinct l → e ∈ l → e' ∈ l → carries e msg sk sk' → carries e' msg' sk sk' → keys t = sk' →
  msg ≠ msg' → ev_id (unsigned_event e) ≠ ev_id (unsigned_event e').
Proof.
  intros Hno He He' (Hpk & Hd & _) (Hpk' & Hd' & _) Ht Hne.
  apply Hno; [done..|]. intros Htext. apply Hne.
  specialize (Hd t Ht). specialize (Hd' t Ht).
  unfold decrypt_message, content_len in *. rewrite Htext, Hpk in Hd. rewrite Hpk' in Hd'. congruence.
Qed.

(** A run between the two devices: the events sent so far, in order, with the
    value, if no call has failed. *)
Definition Run (A : Type) : Type := list SignedEvent * option A.
Definition run_ret {A} (a : A) : Run A := ([], Some a).
Definition run_bind {A B} (f : A → Run B) (r : Run A) : Run B :=
  match r with
  | (sent, Some a) => (sent ++ (f a).1, (f a).2)
  | (sent, None) => (sent, None)
  end.
#[local] Instance run_mret : MRet Run := @run_ret.
#[local] Instance run_mbind : MBind Run := @run_bind.

(** A call on a session, and one whose event goes to the peer. *)
Definition local {S E A} (r : result E A * S) : Run (A * S) :=
  match r with (Ok a, s) => ([], Some (a, s)) | (Err _, _) => ([], None) end.
Definition sends {S E} (r : result E SignedEvent * S) : Run (SignedEvent * S) :=
  match r with (Ok e, s) => ([e], Some (e, s)) | (Err _, _) => ([], None) end.

(** From the accepted offer on, every message delivered: the code on the
    target's screen, what it received, the final states. *)
Definition exchange (env : nat → Env) (src tgt : PairingSession) (ty : PayloadType) (payload : string)
    : Run (string * (PayloadType * string) * SessionState * SessionState) :=
  '(confirm, src) ← sends (confirm_sas (env 3%nat) src);
  '(code', tgt) ← local (handle_sas_confirm (env 4%nat) confirm tgt);
  '(_, tgt) ← local (confirm_target_sas (env 5%nat) tgt);
  '(sent, src) ← sends (send_payload (env 6%nat) ty payload src);
  '(got, tgt) ← local (handle_payload (env 7%nat) sent tgt);
  '(complete, tgt) ← sends (send_complete (env 8%nat) tgt);
  '(_, src) ← local (handle_complete (env 9%nat) complete src);
  mret (code', got, state src, state tgt).

(** The whole run: both codes, what was received, the final states. *)
Definition honest_run (env : nat → Env) (sks skt : SecretKey) (secret : bytes) (url : string)
    (ty : PayloadType) (payload : string)
    : Run (string * string * (PayloadType * string) * SessionState * SessionState) :=
  let '(src, qr) := new_source (env 0%nat) sks secret url in
  '(offer, tgt) ← sends (match new_target (env 1%nat) skt qr with
                         | Ok (tgt, offer) => (Ok offer, tgt)
                         | Err er => (Err er, src)
                         end);
  '(code, src) ← local (handle_offer (env 2%nat) offer src);
  '(code', got, st, st') ← exchange env src tgt ty payload;
  mret (code, code', got, st, st').

Lemma decode32_encode b : length b = 32%nat → decode32 (hex_encode b) = Some b.
Proof.
  intros Hb. unfold decode32. rewrite hex_roundtrip. cbn. by rewrite bool_decide_eq_true_2.
Qed.

(** The handlers of the honest case, one by one. *)
Lemma handle_offer_ok env e s sk' ecdh :
  at_gate env Waiting Source s → carries e (Offer (hex_encode (session_id s)) 1) sk' (keys s) →
  length (session_id s) = 32%nat → ev_id (unsigned_event e) ∉ processed_ids s →
  generate_shared_key (keys s) (public_key sk') = Ok ecdh →
  handle_offer env e s
  = (Ok (format_sas (derive_sas ecdh (session_secret s)).1), offered ecdh e s).
Proof.
  intros Hg (Hpk & Hd & Ha & _) Hlen Hid Hk. unfold handle_offer. rewrite gate_ok by done.
  rewrite basics_ok by by apply Ha. rewrite (decrypt_bind _ _ _ _ (Hd _ eq_refl)).
  rewrite bool_decide_eq_false_2 by auto. rewrite se_get_bind, decode32_encode by done.
  unfold ct_eq. rewrite bool_decide_eq_true_2 by done. rewrite se_modify_bind.
  unfold offered. by rewrite Hpk, Hk.
Qed.

Lemma confirm_sas_ok env s input sk' :
  at_gate env Confirming Source s → sas_input s = Some input →
  peer_pubkey s = Some (public_key sk') →
  let msg := SasConfirm (hex_encode (derive_transcript_hash (session_id s) (pk_to_bytes (pubkey s))
               (pk_to_bytes (public_key sk')) input (session_secret s))) in
  json_fits msg →
  ∃ e, confirm_sas env s = (Ok e, set_state Transferring s) ∧ carries e msg (keys s) sk'.
Proof.
  intros Hg Hi Hp msg Hfit. destruct (build_carries env msg s sk' Hp Hfit) as (e & Hb & Hc).
  exists e. split; [|done]. unfold confirm_sas. rewrite gate_ok by done.
  rewrite se_get_bind, (ok_or_bind _ _ _ _ _ Hi), (ok_or_bind _ _ _ _ _ Hp).
  by rewrite (build_bind _ _ _ _ _ Hb).
Qed.

(** An event of the peer passes the checks. *)
Lemma carried_from_peer e msg sk t :
  peer_pubkey t = Some (public_key sk) → carries e msg sk (keys t) →
  ev_id (unsigned_event e) ∉ processed_ids t → from_peer t e ∧ decrypt_message e t = Ok msg.
Proof.
  intros Hp (Hpk & Hd & Ha & _) Hid. split; [|by apply Hd]. split; [by apply Ha|].
  rewrite Hp. by intros ? [= <-].
Qed.

Lemma handle_sas_confirm_ok env e t code input sk :
  at_gate env Confirming Target t → peer_pubkey t = Some (public_key sk) →
  sas_input t = Some input → sas_code t = Some code →
  carries e (SasConfirm (hex_encode (derive_transcript_hash (session_id t)
    (pk_to_bytes (public_key sk)) (pk_to_bytes (pubkey t)) input (session_secret t)))) sk (keys t) →
  ev_id (unsigned_event e) ∉ processed_ids t →
  handle_sas_confirm env e t
  = (Ok (format_sas code), add_processed (ev_id (unsigned_event e)) (set_state AwaitingConfirmation t)).
Proof.
  intros Hg Hp Hi Hcode Hc Hid. destruct (carried_from_peer _ _ _ _ Hp Hc Hid) as [Hf Hd].
  unfold handle_sas_confirm. rewrite gate_ok, peer_ok, (decrypt_bind _ _ _ _ Hd) by done.
  rewrite se_get_bind, (ok_or_bind _ _ _ _ _ Hi), (ok_or_bind _ _ _ _ _ Hp).
  rewrite decode32_encode by apply hkdf32_length. unfold ct_eq.
  rewrite bool_decide_eq_true_2 by done. cbn [negb]. rewrite se_modify_bind.
  unfold record_event. rewrite se_modify_bind. by rewrite (ok_or_bind _ _ code).
Qed.

Lemma receive_payload_ok r env e t sk ty payload :
  at_gate env Transferring r t → peer_pubkey t = Some (public_key sk) →
  carries e (Payload ty payload) sk (keys t) → ev_id (unsigned_event e) ∉ processed_ids t →
  receive_payload r env e t
  = (Ok (ty, payload), add_processed (ev_id (unsigned_event e)) (set_state PayloadExchanged t)).
Proof.
  intros Hg Hp Hc Hid. destruct (carried_from_peer _ _ _ _ Hp Hc Hid) as [Hf Hd].
  unfold receive_payload. by rewrite gate_ok, peer_ok, (decrypt_bind _ _ _ _ Hd).
Qed.

Lemma handle_complete_ok env e s sk' :
  at_gate env PayloadExchanged Source s → peer_pubkey s = Some (public_key sk') →
  carries e (Complete true) sk' (keys s) → ev_id (unsigned_event e) ∉ processed_ids s →
  handle_complete env e s
  = (Ok tt, add_processed (ev_id (unsigned_event e)) (set_state Completed s)).
Proof.
  intros Hg Hp Hc Hid. destruct (carried_from_peer _ _ _ _ Hp Hc Hid) as [Hf Hd].
  unfold handle_complete. by rewrite gate_ok, peer_ok, (decrypt_bind _ _ _ _ Hd).
Qed.

Lemma send_ok env st r msg st' s sk' :
  at_gate env st r s → peer_pubkey s = Some (public_key sk') → json_fits msg →
  ∃ e, (_ ← check_expired env; _ ← expect_state st; _ ← expect_role r;
        e ← build env msg; _ ← se_modify (set_state st'); mret e) s = (Ok e, set_state st' s) ∧
       carries e msg (keys s) sk'.
Proof.
  intros Hg Hp Hfit. destruct (build_carries env msg s sk' Hp Hfit) as (e & Hb & Hc).
  exists e. split; [|done]. by rewrite gate_ok, (build_bind _ _ _ _ _ Hb).
Qed.

Lemma new_target_ok env sk sks ecdh secret rs v :
  json_fits (Offer (hex_encode (derive_session_id secret)) 1) →
  generate_shared_key sk (public_key sks) = Ok ecdh →
  ∃ e, carries e (Offer (hex_encode (derive_session_id secret)) 1) sk sks ∧
    new_target env sk (MkQr (public_key sks) secret rs v)
    = Ok (MkSession Target Confirming sk secret rs (Some (public_key sks)) (derive_session_id secret)
            (Some (derive_sas ecdh secret).1) (Some (derive_sas ecdh secret).2) ∅
            (instant_now env) DEFAULT_TIMEOUT, e).
Proof.
  intros Hfit Hk.
  set (s0 := MkSession Target Waiting sk secret rs (Some (public_key sks)) (derive_session_id secret)
            (Some (derive_sas ecdh secret).1) (Some (derive_sas ecdh secret).2) ∅
            (instant_now env) DEFAULT_TIMEOUT).
  destruct (build_carries env (Offer (hex_encode (derive_session_id secret)) 1) s0 sks eq_refl Hfit)
    as (e & Hb & Hc).
  exists e. split; [done|]. unfold new_target. cbn [source_pubkey qr_secret relays]. rewrite Hk.
  cbn [derive_sas]. change (build_event env _ _) with
    (build_event env (Offer (hex_encode (derive_session_id secret)) 1) s0). by rewrite Hb.
Qed.
End honest.

Section theorems.
Context `{PairLaws}.
Implicit Types (s t : PairingSession) (e : SignedEvent).

(** All calls happen within the lifetime of the session. *)
Definition in_time (env : nat → Env) : Prop :=
  ∀ i, (instant_now (env 0%nat) ≤ instant_now (env i) ≤ instant_now (env 0%nat) + DEFAULT_TIMEOUT)%Z.

(** What the exchange sends fits into a NIP-44 message. *)
Definition exchange_fits (secret : bytes) (ty : PayloadType) (payload : string) : Prop :=
  json_fits (Offer (hex_encode (derive_session_id secret)) 1) ∧
  (∀ hash, length hash = 32%nat → json_fits (SasConfirm (hex_encode hash))) ∧
  json_fits (Payload ty payload) ∧ json_fits (Complete true).

Lemma in_time_ok env i s :
  in_time env → (created_at s = instant_now (env 0%nat) ∨ created_at s = instant_now (env 1%nat)) →
  timeout s = DEFAULT_TIMEOUT → is_expired (env i) s = false.
Proof.
  intros Ht Hc Hto. unfold is_expired, saturating_sub. rewrite Hto. apply Z.ltb_ge.
  pose proof (Ht i). pose proof (Ht 1%nat). unfold DEFAULT_TIMEOUT in *. lia.
Qed.

Ltac gate Ht := split; [by apply (in_time_ok _ _ _ Ht); auto|done].
Ltac among := repeat first [left|right].
Ltac next := cbn [local sends mbind run_mbind run_bind fst snd app].

(** From the accepted offer on. *)
Lemma exchange_completes env src tgt offer sks skt code input ty payload :
  in_time env → exchange_fits (session_secret src) ty payload →
  ids_distinct (offer :: (exchange env src tgt ty payload).1) →
  role src = Source → state src = Confirming → keys src = sks →
  peer_pubkey src = Some (public_key skt) → sas_input src = Some input →
  processed_ids src = {[ev_id (unsigned_event offer)]} →
  created_at src = instant_now (env 0%nat) → timeout src = DEFAULT_TIMEOUT →
  carries offer (Offer (hex_encode (derive_session_id (session_secret src))) 1) skt sks →
  role tgt = Target → state tgt = Confirming → keys tgt = skt →
  peer_pubkey tgt = Some (public_key sks) → sas_input tgt = Some input → sas_code tgt = Some code →
  session_id tgt = session_id src → session_secret tgt = session_secret src → processed_ids tgt = ∅ →
  created_at tgt = instant_now (env 1%nat) → timeout tgt = DEFAULT_TIMEOUT →
  (exchange env src tgt ty payload).2
  = Some (format_sas code, (ty, payload), Completed, Completed).
Proof.
  destruct src, tgt; cbn [role state keys session_secret session_id peer_pubkey sas_input
    sas_code processed_ids created_at timeout].
  intros Ht (Hf1 & Hf2 & Hf3 & Hf4) Hno -> -> -> -> -> -> -> -> Hco -> -> -> -> -> -> -> -> -> -> ->.
  revert Hno.
  match goal with |- _ → (exchange _ ?s ?t _ _).2 = _ => set (src := s); set (tgt := t) end.
  unfold exchange. destruct (confirm_sas_ok (env 3%nat) src input skt) as (confirm & -> & Hcc);
    [gate Ht|done|done|apply Hf2, hkdf32_length|]. next.
  rewrite (handle_sas_confirm_ok (env 4%nat) confirm tgt code input sks);
    [|gate Ht|done|done|done|done|set_solver]. next.
  unfold confirm_target_sas. rewrite gate_ok by gate Ht. unfold se_modify. next.
  destruct (send_ok (env 6%nat) Transferring Source (Payload ty payload) PayloadExchanged
    (set_state Transferring src) skt) as (sent & Hsent & Hcs); [gate Ht|done|done|].
  unfold send_payload. rewrite Hsent. next. intros Hno.
  pose proof (carries_ids _ confirm sent _ _ _ _ tgt Hno ltac:(among) ltac:(among) Hcc Hcs eq_refl)
    as Hids. revert Hno.
  unfold handle_payload. erewrite receive_payload_ok; [|gate Ht|done|exact Hcs|cbn; set_solver]. next.
  match goal with |- context [send_complete _ ?s] =>
    destruct (send_ok (env 8%nat) PayloadExchanged Target (Complete true) Completed s sks)
      as (complete & Hc & Hcd); [gate Ht|done|done|] end.
  unfold send_complete. rewrite Hc. next. intros Hno.
  pose proof (carries_ids _ offer complete _ _ _ _ src Hno ltac:(among) ltac:(among) Hco Hcd eq_refl)
    as Hids'.
  rewrite (handle_complete_ok (env 9%nat) complete _ skt); [done|gate Ht|done|done|cbn; set_solver].
Qed.

(** C35. Pairing delivers: when both devices follow the protocol within the
    lifetime of the session, the offer, the confirmation, the payload and the
    completion are all accepted, both screens show the same six-digit code, the
    target receives exactly the payload the source sent, and both end
    [Completed]; provided the texts fit their messages and no two of the events
    sent in this run, with different texts, have one id. *)
Theorem pairing_completes env sks skt secret url ty payload :
  in_time env → exchange_fits secret ty payload →
  ids_distinct (honest_run env sks skt secret url ty payload).1 →
  ∃ code, (honest_run env sks skt secret url ty payload).2
          = Some (code, code, (ty, payload), Completed, Completed) ∧ String.length code = 6%nat.
Proof.
  intros Ht (Hf1 & Hf2 & Hf3 & Hf4). unfold honest_run, new_source.
  destruct (shared_key_ok skt (public_key sks)) as (k & Hk & _); [apply public_key_good|].
  destruct (new_target_ok (env 1%nat) skt sks k secret [url] 1) as (offer & Hco & ->); [done..|].
  rewrite shared_key_sym in Hk.
  intros Hno. exists (format_sas (derive_sas k secret).1).
  split; [|apply format_sas_length, derive_sas_bound].
  destruct (derive_sas k secret) as [code input] eqn:Hsas. revert Hno. next.
  rewrite (handle_offer_ok (env 2%nat) offer _ skt k);
    [|gate Ht|done|apply hkdf32_length|set_solver|done].
  cbn [session_secret]. unfold offered. cbn [session_secret]. next.
  destruct Hco as [Hpk Hco]. rewrite Hsas, Hpk. next. intros Hno.
  match type of Hno with context [exchange env ?s ?t ty payload] =>
    pose proof (exchange_completes env s t offer sks skt code input ty payload Ht) as Hex;
    set (r := exchange env s t ty payload) in * end.
  assert (ids_distinct (offer :: r.1)) as Hno'.
  { destruct r as [l [[[[??]?]?]|]]; cbn in Hno; [rewrite app_nil_r in Hno|]; exact Hno. }
  specialize (Hex ltac:(done) Hno' eq_refl eq_refl eq_refl eq_refl eq_refl (right_id_L ∅ (∪) _)
    eq_refl eq_refl (conj Hpk Hco) eq_refl eq_refl eq_refl eq_refl eq_refl eq_refl eq_refl eq_refl
    eq_refl eq_refl eq_refl).
  destruct r as [l o]. cbn in Hex. by rewrite Hex.
Qed.

(** C3. The secret moves only after both steps of the confirmation: in every
    history of calls on a fresh session, whatever the events, their order and
    the interleaving, a payload is sent or accepted only after the session
    showed its code and, later, the user confirmed it; and at most one payload
    call ever succeeds. *)
Theorem secret_after_confirmation s0 h s h1 c o h2 :
  fresh s0 → history s0 h s → h = h1 ++ (c, Ok o) :: h2 → payload_call c = true →
  (∃ code, displayed_sas s = Some code ∧ confirmed code h1) ∧ quiet h1 ∧ quiet h2.
Proof.
  intros Hf Hh Heq Hc. destruct (history_phase _ _ _ Hf Hh) as [_ Hph].
  by apply (phase_exchanged _ _ Hph h1 c o h2).
Qed.

(** The hash [confirm_sas] sends. *)
Definition source_transcript s : option bytes :=
  input ← sas_input s; peer ← peer_pubkey s;
  Some (derive_transcript_hash (session_id s) (pk_to_bytes (pubkey s)) (pk_to_bytes peer) input
          (session_secret s)).

Lemma wf_peer_bytes s p : session_wf s → is_Some (sas_input s) → peer_pubkey s = Some p →
  length (pk_to_bytes p) = 32%nat.
Proof.
  intros [_ Hsas] [i Hi] Hp. rewrite Hi in Hsas. destruct (sas_code s); [|done].
  destruct Hsas as (_ & p' & k & Hp' & Hk & _). simplify_eq.
  eapply good_key_bytes, shared_key_good, Hk.
Qed.

(** What a session hashes as the source or as the target of its pairing: the
    salt, its secret, and the material: the session id, the two keys, the code's
    input. *)
Definition transcript_inputs (r : Role) s : option (bytes * bytes) :=
  input ← sas_input s; peer ← peer_pubkey s;
  let '(source, target) := match r with Source => (pubkey s, peer) | Target => (peer, pubkey s) end in
  Some (session_secret s, session_id s ++ pk_to_bytes source ++ pk_to_bytes target ++ input).

(** C29. The confirmation binds the whole session: when a target accepts a
    confirmation that carries the hash a source sends, whoever relayed it, then
    the two hold the same secret, each is the peer the other is locked to, and
    the code the target shows is the source's; unless what these two sessions
    hashed, the source's inputs and the target's, are themselves two different
    HKDF inputs with one output. *)
Theorem transcript_binds env e s t hash code t' :
  session_wf s → session_wf t → source_transcript s = Some hash →
  decrypt_message e t = Ok (SasConfirm (hex_encode hash)) →
  handle_sas_confirm env e t = (Ok code, t') →
  (session_secret s = session_secret t ∧
   pk_to_bytes <$> peer_pubkey t = Some (pk_to_bytes (pubkey s)) ∧
   pk_to_bytes <$> peer_pubkey s = Some (pk_to_bytes (pubkey t)) ∧
   displayed_sas s = Some code) ∨
  ∃ x y, transcript_inputs Source s = Some x ∧ transcript_inputs Target t = Some y ∧
    hkdf_collision x y.
Proof.
  intros Hs Ht Hhash Hd Hok. unfold source_transcript in Hhash.
  destruct (sas_input s) as [input|] eqn:Hin; [|done].
  destruct (peer_pubkey s) as [peer|] eqn:Hpeer; [|done]. injection Hhash as <-.
  apply handle_sas_confirm_spec in Hok as [(input' & peer' & n & text & _ & _ & Hin' & Hpeer' & Hn &
    Hd' & Hdec & [= ->] & _)|(er & ? & _)]; [|done].
  rewrite Hd in Hd'. injection Hd' as <-. rewrite decode32_encode in Hdec by apply hkdf32_length.
  injection Hdec as Hhash. apply transcript_hash_binds in Hhash as [(H1 & H2 & H3 & H4 & H5)|Hcol].
  - left. rewrite Hpeer'. cbn. rewrite H2, H3. split_and!; try done.
    unfold displayed_sas. destruct Hs as [_ Hs], Ht as [_ Ht]. rewrite Hin in Hs.
    rewrite Hn, Hin' in Ht. destruct (sas_code s) as [n'|]; [|done].
    destruct Hs as (_ & ? & ? & _ & _ & Hs%derive_sas_code).
    destruct Ht as (_ & ? & ? & _ & _ & Ht%derive_sas_code). cbn. by subst.
  - right. unfold transcript_inputs. rewrite Hin, Hpeer, Hin', Hpeer'. by do 2 eexists.
  - destruct Hs as [-> _], Ht as [-> _]. unfold derive_session_id. by rewrite !hkdf32_length.
  - rewrite (good_key_bytes (pubkey s)) by apply public_key_good.
    symmetry. eapply wf_peer_bytes; [exact Ht| |done]. by eexists.
  - rewrite (good_key_bytes (pubkey t)) by apply public_key_good.
    eapply wf_peer_bytes; [exact Hs| |done]. by eexists.
Qed.
End theorems.

Section interface.
Context `{PairOps}.
Implicit Types (s t : PairingSession) (e : SignedEvent).

(** C38. The session implements the protocol: every successful call takes the
    edge of [machine], every refused call leaves the state alone, except that a
    wrong transcript hash and a reported failure abort the session. *)
Theorem session_refines_machine s0 h s env c res s' :
  fresh s0 → history s0 h s → perform env c s = (res, s') →
  match res with
  | Ok _ => machine (role s) (state s) c = Some (state s')
  | Err _ => state s' = state s ∨
      (state s' = Aborted ∧
       match c with
       | HandleSasConfirm _ => role s = Target ∧ state s = Confirming
       | HandleComplete e => role s = Source ∧ state s = PayloadExchanged ∧
           decrypt_message e s = Ok (Complete false)
       | _ => False
       end)
  end.
Proof.
  intros Hf Hh Hp. destruct (history_wf _ _ _ (proj1 (fresh_wf _ Hf)) Hh) as [Hwf _].
  pose proof (perform_spec _ _ _ _ _ Hwf Hp) as Hs. destruct res as [o|er].
  - destruct Hs as (_ & st' & Hm & He). by rewrite (effect_state _ _ _ _ He Hm).
  - destruct Hs as [->|Hd]; [by left|]. destruct c; cbn [derailed] in Hd; try done;
      decompose [and] Hd; clear Hd; subst s'; [by left|by right..].
Qed.

(** C40. Every session is well formed at every moment: its id is the one derived
    from its secret, its code is the one derived from the shared key with the
    peer it is locked to, and no call changes role, keys, secret, relays or
    lifetime. *)
Theorem session_well_formed s0 h s :
  fresh s0 → history s0 h s → session_wf s ∧ same_identity s0 s.
Proof. intros Hf Hh. by eapply history_wf; [apply fresh_wf|]. Qed.

(** A stranger cannot move a session: an event that fails verification, is
    of another kind, not addressed to this session or already processed, or is
    not from the peer the session is locked to, is refused by every handler and
    leaves the session exactly as it was. *)
Theorem stranger_refused s0 h s env c e res s' :
  fresh s0 → history s0 h s → call_event c = Some e → perform env c s = (res, s') →
  ¬ addressed s e ∨ (state s ≠ Waiting ∧ peer_pubkey s ≠ Some (ev_pubkey (unsigned_event e))) →
  ¬ is_Ok res ∧ s' = s.
Proof.
  intros Hf Hh He Hp Hbad. destruct (history_wf _ _ _ (proj1 (fresh_wf _ Hf)) Hh) as [Hwf _].
  pose proof (perform_spec _ _ _ _ _ Hwf Hp) as Hs.
  assert (from_peer s e → state s = Aborted) as Hno.
  { intros [Ha Hp']. destruct Hbad as [?|[Hw Hpeer]]; [done|].
    destruct Hwf as [_ Hsas]. destruct (sas_code s), (sas_input s); try done.
    - destruct Hsas as (_ & p & k & Hpk & _). by rewrite Hpk, (Hp' p Hpk) in Hpeer.
    - by destruct Hsas as [?|?]. }
  destruct res as [o|er].
  - exfalso. destruct Hs as (Hin & st' & Hm & _).
    destruct c; cbn in He, Hin; simplify_eq;
      try (rewrite (Hno Hin) in Hm; by destruct (role s)).
    destruct Hbad as [?|[Hw _]]; [done|]. by destruct (role s), (state s).
  - split; [by intros []|]. destruct Hs as [->|Hd]; [done|exfalso].
    destruct c; cbn in He, Hd; simplify_eq; try done; decompose [and] Hd; clear Hd;
      try (match goal with Hp' : from_peer s e |- _ => specialize (Hno Hp'); congruence end).
    by destruct Hbad as [?|[Hw _]].
Qed.

(** The ids of the events whose handler succeeded. *)
Definition accepted_id (x : Call * result PairingError Answer) : option string :=
  match x with
  | (c, Ok _) => ev_id ∘ unsigned_event <$> call_event c
  | (_, Err _) => None
  end.

Lemma perform_processed env c s res s' :
  session_wf s → perform env c s = (res, s') →
  match accepted_id (c, res) with
  | Some id => id ∉ processed_ids s ∧ processed_ids s' = {[id]} ∪ processed_ids s
  | None => processed_ids s' = processed_ids s
  end.
Proof.
  intros Hwf Hp. pose proof (perform_spec _ _ _ _ _ Hwf Hp) as Hs. destruct res as [o|er].
  - destruct Hs as (Hin & st' & _ & He).
    destruct c; cbn in Hin, He |- *; try (subst s'; done);
      try (split; [apply Hin|by subst s']).
    destruct He as (k & _ & ->). split; [apply Hin|done].
  - cbn. destruct Hs as [->|Hd]; [done|].
    destruct c; cbn in Hd; try done; decompose [and] Hd; by subst.
Qed.

Lemma history_accepted s0 h s :
  session_wf s0 → processed_ids s0 = ∅ → history s0 h s →
  NoDup (omap accepted_id h) ∧ processed_ids s = list_to_set (omap accepted_id h).
Proof.
  intros Hwf H0. induction 1 as [|h s env c r s' Hh [IHd IHs] Hp]; [split; [constructor|done]|].
  apply perform_processed in Hp; [|by eapply history_wf]. rewrite omap_app. cbn [omap list_omap].
  destruct (accepted_id (c, r)) as [id|]; [|by rewrite app_nil_r, Hp].
  destruct Hp as [Hnew ->]. rewrite IHs in Hnew |- *. split.
  - apply NoDup_app. split; [done|]. split; [|by apply NoDup_singleton].
    intros x Hx ->%list_elem_of_singleton. by apply Hnew, elem_of_list_to_set.
  - rewrite list_to_set_app_L. cbn. set_solver.
Qed.

Lemma perform_terminal env c s res s' :
  session_wf s → terminal (state s) = true → perform env c s = (res, s') → ¬ is_Ok res ∧ s' = s.
Proof.
  intros Hwf Ht Hp. apply perform_spec in Hp; [|done]. destruct res as [o|er].
  - destruct Hp as (_ & st' & Hm & _). by destruct c, (role s), (state s).
  - split; [by intros []|]. destruct Hp as [->|Hd]; [done|].
    destruct c; cbn in Hd; try done; decompose [and] Hd; rewrite H0 in Ht; done.
Qed.

(** Nothing is accepted twice and the end is final: the accepted events of
    a history are pairwise distinct, and once a session is completed or aborted
    no call succeeds or changes it. *)
Theorem accepted_once s0 h s :
  fresh s0 → history s0 h s →
  NoDup (omap accepted_id h) ∧
  (terminal (state s) = true → ∀ env c res s', perform env c s = (res, s') → ¬ is_Ok res ∧ s' = s).
Proof.
  intros Hf Hh. destruct (fresh_wf _ Hf) as (Hwf0 & Hids & _). split.
  - by eapply (history_accepted s0 h s).
  - intros Ht env c res s' Hp. by eapply perform_terminal; [eapply history_wf|..].
Qed.
End interface.

(** ** Concrete runs *)

Module Runs.
#[local] Existing Instance Toy.ops.
#[local] Existing Instance Toy.laws.

Fixpoint run_calls (l : list (Env * Call)) (s : PairingSession)
    : list (Call * result PairingError Answer) * PairingSession :=
  match l with
  | [] => ([], s)
  | (env, c) :: l =>
      let '(r, s) := perform env c s in
      let '(h, s) := run_calls l s in ((c, r) :: h, s)
  end.

Lemma history_cons s0 env c r s1 h s :
  perform env c s0 = (r, s1) → history s1 h s → history s0 ((c, r) :: h) s.
Proof.
  intros Hp. induction 1 as [|h s env' c' r' s' _ IH Hp'].
  - change [(c, r)] with ([] ++ [(c, r)]). by eapply history_snoc; [constructor|].
  - change ((c, r) :: h ++ [(c', r')]) with (((c, r) :: h) ++ [(c', r')]). by eapply history_snoc.
Qed.

Lemma run_history l s : history s (run_calls l s).1 (run_calls l s).2.
Proof.
  revert s. induction l as [|[env c] l IH]; intros s; cbn [run_calls]; [constructor|].
  destruct (perform env c s) as [r s1] eqn:Hp. specialize (IH s1).
  destruct (run_calls l s1) as [h s2]. by eapply history_cons.
Qed.

Definition env (i : nat) : Env := MkEnv (Z.of_nat (Nat.min i 9)) 1700000000 7 0 0.
Definition url : string := "wss://relay".
Definition source0 : PairingSession := (new_source (env 0) Byte.x05 Toy.secret url).1.
Definition qr0 : QrPayload := (new_source (env 0) Byte.x05 Toy.secret url).2.
Definition target0 : option (PairingSession * SignedEvent) :=
  match new_target (env 1) Byte.x09 qr0 with Ok x => Some x | Err _ => None end.
Definition no_event : SignedEvent := MkSigned (MkEvent "" "" 0 0 [] "") "".
Definition offer : SignedEvent := default no_event (snd <$> target0).
Definition target : PairingSession := default source0 (fst <$> target0).

(** The source's calls: offer in, user confirms, payload out. *)
Definition source_run :=
  run_calls [(env 2, HandleOffer offer); (env 3, ConfirmSas); (env 6, SendPayload Nsec "nsec1x")] source0.

Definition source1 : PairingSession := (run_calls [(env 2, HandleOffer offer)] source0).2.

Definition answer_event (x : option (Call * result PairingError Answer)) : SignedEvent :=
  match x with Some (_, Ok (Publish e)) => e | _ => no_event end.
Definition confirm_event : SignedEvent := answer_event (source_run.1 !! 1%nat).
Definition payload_event : SignedEvent := answer_event (source_run.1 !! 2%nat).

Definition target_run :=
  run_calls [(env 4, HandleSasConfirm confirm_event); (env 5, ConfirmTargetSas);
             (env 7, HandlePayload payload_event); (env 8, SendComplete)] target.

Lemma source_fresh : fresh source0.
Proof. left. by eexists _, _, _, _. Qed.
Lemma target_fresh : fresh target.
Proof.
  right. exists (env 1), Byte.x09, qr0, offer.
  assert (match new_target (env 1) Byte.x09 qr0 with Ok _ => true | Err _ => false end = true) as Hok
    by (vm_compute; reflexivity).
  unfold target, offer, target0. destruct (@new_target Toy.ops (env 1) Byte.x09 qr0) as [[s e]|]; done.
Qed.

Lemma fst_pair {A B} (x : A * B) a : x.1 = a → x = (a, x.2).
Proof. by destruct x; intros <-. Qed.

Lemma env_in_time : in_time env.
Proof. intros i. unfold env, DEFAULT_TIMEOUT. cbn [instant_now]. lia. Qed.

Lemma run_fits : exchange_fits Toy.secret Nsec "nsec1x".
Proof.
  split; [|split; [|split]].
  - intros j [= <-]. vm_compute. discriminate.
  - intros hash Hlen j [= <-]. cbn [String.length Toy.to_json].
    destruct (Toy.hex_text hash) as [-> _]. rewrite Hlen. lia.
  - intros j [= <-]. vm_compute. discriminate.
  - intros j [= <-]. vm_compute. discriminate.
Qed.

Definition sent : list SignedEvent :=
  (honest_run env Byte.x05 Byte.x09 Toy.secret url Nsec "nsec1x").1.

Lemma sent_distinct : ids_distinct sent.
Proof.
  assert (Forall (λ e, Forall (λ e', ev_id (unsigned_event e) = ev_id (unsigned_event e') →
    ev_text (unsigned_event e) = ev_text (unsigned_event e')) sent) sent) as Hall.
  { apply (bool_decide_unpack _). vm_compute. done. }
  rewrite Forall_forall in Hall. intros e e' He He' Hne Hid. apply Hne.
  specialize (Hall _ He). rewrite Forall_forall in Hall. by apply Hall.
Qed.
End Runs.

#[local] Existing Instance Toy.ops.
#[local] Existing Instance Toy.laws.

Lemma pairing_completes_witness :
  ∃ code, (@honest_run Toy.ops Runs.env Byte.x05 Byte.x09 Toy.secret Runs.url Nsec "nsec1x").2
          = Some (code, code, (Nsec, "nsec1x"), Completed, Completed) ∧ String.length code = 6%nat.
Proof.
  exact (@pairing_completes Toy.ops Toy.laws Runs.env Byte.x05 Byte.x09 Toy.secret Runs.url Nsec
    "nsec1x" Runs.env_in_time Runs.run_fits Runs.sent_distinct).
Defined.


Lemma secret_after_confirmation_witness :
  (∃ code, displayed_sas Runs.source_run.2 = Some code ∧ confirmed code (take 2 Runs.source_run.1)) ∧
  (∃ code, displayed_sas Runs.target_run.2 = Some code ∧ confirmed code (take 2 Runs.target_run.1)).
Proof.
  split.
  - destruct (secret_after_confirmation Runs.source0 Runs.source_run.1 Runs.source_run.2
      (take 2 Runs.source_run.1) (SendPayload Nsec "nsec1x") (Publish Runs.payload_event) []) as [H _].
    + exact Runs.source_fresh.
    + apply Runs.run_history.
    + vm_compute. reflexivity.
    + reflexivity.
    + exact H.
  - destruct (secret_after_confirmation Runs.target Runs.target_run.1 Runs.target_run.2
      (take 2 Runs.target_run.1) (HandlePayload Runs.payload_event) (Received Nsec "nsec1x")
      (drop 3 Runs.target_run.1)) as [H _].
    + exact Runs.target_fresh.
    + apply Runs.run_history.
    + vm_compute. reflexivity.
    + reflexivity.
    + exact H.
Defined.

(** The source after the offer, before and after its confirmation. *)
Lemma transcript_binds_witness :
  session_secret Runs.source1 = session_secret Runs.target ∧
  displayed_sas Runs.source1 = Some "901063".
Proof.
  set (s := Runs.source1).
  assert (session_wf s) as Hs.
  { exact (proj1 (history_wf Runs.source0 _ s (proj1 (fresh_wf _ Runs.source_fresh))
      (Runs.run_history _ _))). }
  assert (session_wf Runs.target) as Ht by apply (proj1 (fresh_wf _ Runs.target_fresh)).
  destruct (@transcript_binds Toy.ops Toy.laws (Runs.env 4) Runs.confirm_event s Runs.target
    (default [] (source_transcript s)) "901063"
    (handle_sas_confirm (Runs.env 4) Runs.confirm_event Runs.target).2 Hs Ht)
    as [(H1 & _ & _ & H4)|H].
  - vm_compute. reflexivity.
  - vm_compute. reflexivity.
  - apply Runs.fst_pair. vm_compute. reflexivity.
  - split; [exact H1|exact H4].
  - assert (transcript_inputs Source s = transcript_inputs Target Runs.target) as Heq
      by (vm_compute; reflexivity).
    destruct H as (x & y & Hx & Hy & Hne & _). rewrite Heq, Hy in Hx. congruence.
Defined.

Lemma session_refines_machine_witness :
  machine Source Waiting (HandleOffer Runs.offer) = Some Confirming.
Proof.
  refine (session_refines_machine Runs.source0 [] Runs.source0 (Runs.env 2) (HandleOffer Runs.offer)
    (Ok (Code "901063")) (perform (Runs.env 2) (HandleOffer Runs.offer) Runs.source0).2
    Runs.source_fresh (history_nil _) _).
  apply Runs.fst_pair. vm_compute. reflexivity.
Defined.

Lemma session_well_formed_witness :
  session_wf Runs.target_run.2 ∧ same_identity Runs.target Runs.target_run.2.
Proof.
  exact (session_well_formed Runs.target Runs.target_run.1 Runs.target_run.2 Runs.target_fresh
    (Runs.run_history _ _)).
Defined.

(** The source cannot confirm to itself: its own event is not addressed to it;
    and an offer from elsewhere comes too late. *)
Lemma stranger_refused_witness :
  ¬ is_Ok (perform (Runs.env 7) (HandleComplete Runs.payload_event) Runs.source_run.2).1 ∧
  (perform (Runs.env 7) (HandleComplete Runs.payload_event) Runs.source_run.2).2 = Runs.source_run.2.
Proof.
  refine (stranger_refused Runs.source0 Runs.source_run.1 Runs.source_run.2 (Runs.env 7)
    (HandleComplete Runs.payload_event) Runs.payload_event _ _ Runs.source_fresh
    (Runs.run_history _ _) eq_refl (surjective_pairing _) _).
  right. split; vm_compute; discriminate.
Defined.

Lemma accepted_once_witness :
  NoDup (omap accepted_id Runs.target_run.1) ∧
  ∀ env c res s', perform env c Runs.target_run.2 = (res, s') → ¬ is_Ok res ∧ s' = Runs.target_run.2.
Proof.
  destruct (accepted_once Runs.target Runs.target_run.1 Runs.target_run.2 Runs.target_fresh
    (Runs.run_history _ _)) as [H1 H2].
  split; [exact H1|]. apply H2. vm_compute. reflexivity.
Defined.
