(* ===== verification/AuditLog.v ===== *)
(** * Audit log: one hash chain per community

    [crates/buzz-audit/src]: the hash preimage of [hash.rs], the append and the
    verification of [service.rs], the actions of [action.rs], over the
    [audit_log] table with its primary key and unique index.  Appends to one
    community are serialised by its advisory lock, so a history is a sequence of
    appends by any communities in any interleaving.

    Byte strings are [string]s; a community id is its sixteen bytes; timestamps
    are nanoseconds and sequence numbers unbounded.  The JSON column gives back the
    value it was given: PostgreSQL may reorder an object's keys, which
    [canonical_object_perm] shows not to matter. *)

From stdpp Require Import base gmap strings list sorting.
From Stdlib Require Import ZArith Lia Ascii.
From S2P Require Import Prelude Text.

Local Open Scope Z_scope.

(** SHA-256, [chrono]'s RFC 3339 rendering and [serde_json]'s string escaping. *)
Class AuditOps := {
  sha256 : string → string;
  to_rfc3339 : Z → string;
  json_string : string → string;
}.
Class AuditLaws `{AO : AuditOps} := {
  sha256_length : ∀ s, String.length (sha256 s) = 32%nat;
}.

(** ** Actions *)

Inductive AuditAction :=
  | EventCreated | EventDeleted | ChannelCreated | ChannelUpdated | ChannelDeleted
  | MemberAdded | MemberRemoved | AuthSuccess | AuthFailure | RateLimitExceeded
  | MediaUploaded | WhatsappContactUpdated | WhatsappSendingPauseChanged.

#[export] Instance AuditAction_eq_dec : EqDecision AuditAction.
Proof. solve_decision. Defined.

Definition as_str (a : AuditAction) : string :=
  match a with
  | EventCreated => "event_created"
  | EventDeleted => "event_deleted"
  | ChannelCreated => "channel_created"
  | ChannelUpdated => "channel_updated"
  | ChannelDeleted => "channel_deleted"
  | MemberAdded => "member_added"
  | MemberRemoved => "member_removed"
  | AuthSuccess => "auth_success"
  | AuthFailure => "auth_failure"
  | RateLimitExceeded => "rate_limit_exceeded"
  | MediaUploaded => "media_uploaded"
  | WhatsappContactUpdated => "whatsapp_contact_updated"
  | WhatsappSendingPauseChanged => "whatsapp_sending_pause_changed"
  end.

Definition ALL : list AuditAction :=
  [EventCreated; EventDeleted; ChannelCreated; ChannelUpdated; ChannelDeleted; MemberAdded;
   MemberRemoved; AuthSuccess; AuthFailure; RateLimitExceeded; MediaUploaded;
   WhatsappContactUpdated; WhatsappSendingPauseChanged].

Definition from_str (s : string) : option AuditAction :=
  find (λ a, bool_decide (as_str a = s)) ALL.

Lemma from_as_str a : from_str (as_str a) = Some a.
Proof. by destruct a; vm_compute. Qed.

(** ** Canonical JSON *)

(** [serde_json::Value]; a number is the text it prints as, an object its entries
    in map order. *)
Inductive Json :=
  | JNull
  | JBool (b : bool)
  | JNumber (text : string)
  | JString (s : string)
  | JArray (items : list Json)
  | JObject (entries : list (string * Json)).

(** [parts] separated by commas, between two delimiters. *)
Definition bracketed (l r : string) (parts : list string) : string :=
  (l +:+ join_on "," parts +:+ r)%stdpp.

(** [canonical_json]: the entries of the [BTreeMap] come in key order. *)
Fixpoint canonical_json `{AuditOps} (v : Json) : string :=
  match v with
  | JNull => "null"
  | JBool b => if b then "true" else "false"
  | JNumber t => t
  | JString s => json_string s
  | JArray items => bracketed "[" "]" (canonical_json <$> items)
  | JObject entries =>
      bracketed "{" "}"
        (snd <$> merge_sort (by_id fst)
           ((λ kv, (kv.1, (json_string kv.1 +:+ ":" +:+ canonical_json kv.2)%stdpp)) <$> entries))
  end.

(** The order of an object's entries does not matter. *)
Lemma canonical_object_perm `{AuditOps} m m' :
  m ≡ₚ m' → NoDup m.*1 → canonical_json (JObject m) = canonical_json (JObject m').
Proof.
  intros Hp Hnd. simpl. do 2 f_equal. apply sort_by_id_perm; [by apply fmap_Permutation|].
  by rewrite <-list_fmap_compose.
Qed.

(** ** Entries and rows *)

Record NewAuditEntry := {
  new_community_id : string;
  new_action : AuditAction;
  new_actor_pubkey : option string;
  new_object_id : option string;
  new_detail : Json;
}.

Record AuditEntry := {
  community_id : string;
  seq : Z;
  hash : string;
  prev_hash : option string;
  action : AuditAction;
  actor_pubkey : option string;
  object_id : option string;
  detail : Json;
  created_at : Z;
}.

(** A row of [audit_log]: the action is text, the timestamp microseconds. *)
Record AuditRow := {
  row_community : string;
  row_seq : Z;
  row_hash : string;
  row_prev_hash : option string;
  row_action : string;
  row_actor_pubkey : option string;
  row_object_id : option string;
  row_detail : Json;
  row_created_us : Z;
}.

Inductive AuditError :=
  | Database
  | ChainViolation (at_seq : Z)
  | HashMismatch (at_seq : Z)
  | UnknownAction
  | Serialization.

Definition zero_char : ascii := Ascii.ascii_of_N 0.
Definition one_char : ascii := Ascii.ascii_of_N 1.

Fixpoint repeat_char (n : nat) (c : ascii) : string :=
  match n with O => EmptyString | S n' => String c (repeat_char n' c) end.
Definition GENESIS_HASH : string := repeat_char 32 zero_char.

(** [trunc_subsecs(6)] *)
Definition to_storage_precision (t : Z) : Z := t / 1000 * 1000.

(** [i64::to_be_bytes] *)
Fixpoint be_bytes (n : nat) (z : Z) : string :=
  match n with
  | O => EmptyString
  | S n' => String (Ascii.ascii_of_N (Z.to_N (z / 256 ^ Z.of_nat n' mod 256))) (be_bytes n' z)
  end.
Definition i64_to_be_bytes (z : Z) : string := be_bytes 8 z.

(** The presence tag and the bytes of an optional field. *)
Definition tagged (o : option string) : string :=
  match o with
  | Some s => String one_char s
  | None => String zero_char EmptyString
  end.

Section audit.
Context `{AO : AuditOps}.

(** Everything [compute_hash] feeds to the hasher, in order. *)
Definition preimage (e : AuditEntry) : string :=
  (community_id e +:+ i64_to_be_bytes (seq e) +:+ to_rfc3339 (to_storage_precision (created_at e))
   +:+ as_str (action e) +:+ tagged (actor_pubkey e) +:+ tagged (object_id e)
   +:+ canonical_json (detail e) +:+ default GENESIS_HASH (prev_hash e))%stdpp.

Definition compute_hash (e : AuditEntry) : string := sha256 (preimage e).

Definition log_timestamp (now : Z) : Z := to_storage_precision now.

Definition to_row (e : AuditEntry) : AuditRow := {|
  row_community := community_id e; row_seq := seq e; row_hash := hash e;
  row_prev_hash := prev_hash e; row_action := as_str (action e);
  row_actor_pubkey := actor_pubkey e; row_object_id := object_id e;
  row_detail := detail e; row_created_us := created_at e / 1000 |}.

Definition row_to_audit_entry (r : AuditRow) : result AuditError AuditEntry :=
  match from_str (row_action r) with
  | None => Err UnknownAction
  | Some a => Ok {|
      community_id := row_community r; seq := row_seq r; hash := row_hash r;
      prev_hash := row_prev_hash r; action := a; actor_pubkey := row_actor_pubkey r;
      object_id := row_object_id r; detail := row_detail r;
      created_at := row_created_us r * 1000 |}
  end.

(** ** Appending *)

Definition community_rows (c : string) (table : list AuditRow) : list AuditRow :=
  filter (λ r, row_community r = c) table.

(** [ORDER BY seq DESC LIMIT 1] *)
Definition head_row (c : string) (table : list AuditRow) : option AuditRow :=
  last (sort_by_key row_seq (community_rows c table)).

(** The primary key and the unique index on [(community_id, hash)]. *)
Definition conflicts (r : AuditRow) (table : list AuditRow) : bool :=
  bool_decide (Exists (λ r', row_community r' = row_community r ∧
                             (row_seq r' = row_seq r ∨ row_hash r' = row_hash r)) table).

Definition with_hash (h : string) (e : AuditEntry) : AuditEntry := {|
  community_id := community_id e; seq := seq e; hash := h; prev_hash := prev_hash e;
  action := action e; actor_pubkey := actor_pubkey e; object_id := object_id e;
  detail := detail e; created_at := created_at e |}.

(** The entry [log_inner] builds on the head it read. *)
Definition next_entry (now : Z) (e : NewAuditEntry) (head : option AuditRow) : AuditEntry :=
  let '(prev_seq, prev) :=
    match head with Some r => (row_seq r, Some (row_hash r)) | None => (0, None) end in
  let a := {|
    community_id := new_community_id e; seq := prev_seq + 1; hash := EmptyString;
    prev_hash := prev; action := new_action e; actor_pubkey := new_actor_pubkey e;
    object_id := new_object_id e; detail := new_detail e; created_at := log_timestamp now |} in
  with_hash (compute_hash a) a.

Definition log_inner (now : Z) (e : NewAuditEntry) (table : list AuditRow)
    : result AuditError AuditEntry * list AuditRow :=
  let entry := next_entry now e (head_row (new_community_id e) table) in
  if conflicts (to_row entry) table then (Err Database, table)
  else (Ok entry, table ++ [to_row entry]).

(** ** Verifying *)

Definition select_range (c : string) (from_seq to_seq : Z) (table : list AuditRow) : list AuditRow :=
  sort_by_key row_seq (filter (λ r, row_community r = c ∧ from_seq ≤ row_seq r ≤ to_seq) table).

Fixpoint verify_rows (expected_prev : option string) (rows : list AuditRow) : result AuditError bool :=
  match rows with
  | [] => Ok true
  | row :: rows' =>
      entry ← row_to_audit_entry row;
      if bool_decide (is_Some expected_prev) && bool_decide (prev_hash entry ≠ expected_prev)
      then Err (ChainViolation (seq entry))
      else if bool_decide (compute_hash entry ≠ hash entry) then Err (HashMismatch (seq entry))
      else verify_rows (Some (hash entry)) rows'
  end.

Definition verify_chain (c : string) (from_seq to_seq : Z) (table : list AuditRow)
    : result AuditError bool :=
  match select_range c from_seq to_seq table with
  | [] => Ok false
  | rows => verify_rows None rows
  end.

(** [rows.iter().map(row_to_audit_entry).collect()] *)
Definition parse_rows (rows : list AuditRow) : result AuditError (list AuditEntry) :=
  foldr (λ r acc, e ← row_to_audit_entry r; es ← acc; Ok (e :: es)) (Ok []) rows.

Definition get_entries (c : string) (from_seq : Z) (limit : nat) (table : list AuditRow)
    : result AuditError (list AuditEntry) :=
  parse_rows (take limit (sort_by_key row_seq
    (filter (λ r, row_community r = c ∧ from_seq ≤ row_seq r) table))).

(** ** Lemmas: rows *)

Lemma StronglySorted_filter {A} (R : relation A) P `{!∀ x, Decision (P x)} l :
  StronglySorted R l → StronglySorted R (filter P l).
Proof.
  induction 1 as [|x l _ IH Hx]; [constructor|]. rewrite filter_cons. case_decide; [|done].
  constructor; [done|]. apply Forall_forall. intros y [_ Hy]%list_elem_of_filter.
  by eapply Forall_forall in Hx.
Qed.

Lemma storage_idem t : to_storage_precision (to_storage_precision t) = to_storage_precision t.
Proof. unfold to_storage_precision. by rewrite Z.div_mul by done. Qed.

Lemma timestamp_roundtrip now : log_timestamp now / 1000 * 1000 = log_timestamp now.
Proof. apply storage_idem. Qed.

(** A row is genuine when it parses and carries the hash of what it says. *)
Definition row_genuine (r : AuditRow) : Prop :=
  ∃ e, row_to_audit_entry r = Ok e ∧ compute_hash e = row_hash r.

(** What goes into the hash of a row. *)
Definition row_preimage (r : AuditRow) : string :=
  match row_to_audit_entry r with Ok e => preimage e | Err _ => EmptyString end.

Lemma row_genuine_hash r : row_genuine r → row_hash r = sha256 (row_preimage r).
Proof. intros (e & He & <-). unfold row_preimage. by rewrite He. Qed.

(** An entry survives the trip through the table, and so does its hash. *)
Lemma row_roundtrip e :
  created_at e = to_storage_precision (created_at e) → row_to_audit_entry (to_row e) = Ok e.
Proof.
  intros Hc. unfold row_to_audit_entry. simpl. rewrite from_as_str. f_equal.
  unfold to_storage_precision in Hc. rewrite <-Hc. by destruct e.
Qed.

Lemma next_entry_row now e head :
  row_to_audit_entry (to_row (next_entry now e head)) = Ok (next_entry now e head)
  ∧ row_genuine (to_row (next_entry now e head)).
Proof.
  assert (row_to_audit_entry (to_row (next_entry now e head)) = Ok (next_entry now e head)) as Hr.
  { apply row_roundtrip. unfold next_entry. destruct head; simpl; symmetry; apply storage_idem. }
  split; [done|]. exists (next_entry now e head). split; [done|].
  unfold next_entry. by destruct head.
Qed.

(** ** Lemmas: the chain *)

Fixpoint chained (n : Z) (prev : option string) (rows : list AuditRow) : Prop :=
  match rows with
  | [] => True
  | r :: rows' => row_seq r = n ∧ row_prev_hash r = prev ∧ row_genuine r ∧
                  chained (n + 1) (Some (row_hash r)) rows'
  end.

Lemma chained_seq n prev rows i r :
  chained n prev rows → rows !! i = Some r → row_seq r = n + Z.of_nat i.
Proof.
  revert n prev i. induction rows as [|r' rows IH]; intros n prev [|i]; [done|done| |]; simpl.
  - intros (? & _) [= <-]. lia.
  - intros (_ & _ & _ & H) Hi. rewrite (IH _ _ _ H Hi). lia.
Qed.

Lemma chained_sorted n prev rows : chained n prev rows → StronglySorted (key_le row_seq) rows.
Proof.
  revert n prev. induction rows as [|r rows IH]; intros n prev; [constructor|].
  intros (Hn & _ & _ & H). constructor; [by eapply IH|].
  apply Forall_forall. intros r' [i Hi]%list_elem_of_lookup. unfold key_le.
  rewrite (chained_seq _ _ _ _ _ H Hi), Hn. lia.
Qed.

Lemma chained_snoc n prev rows r :
  chained n prev rows → row_seq r = n + Z.of_nat (length rows) →
  row_prev_hash r = match last rows with Some l => Some (row_hash l) | None => prev end →
  row_genuine r → chained n prev (rows ++ [r]).
Proof.
  revert n prev. induction rows as [|r' rows IH]; intros n prev; simpl.
  - intros _ Hs Hp Hg. split_and!; [lia|done|done|done].
  - intros (Hn & Hpr & Hg & Hc) Hs Hp Hgr. split_and!; [done|done|done|].
    apply IH; [done|lia| |done]. rewrite last_cons in Hp. by destruct (last rows).
Qed.

Definition chain_ok (c : string) (table : list AuditRow) : Prop := chained 1 None (community_rows c table).

Lemma community_rows_app c t t' : community_rows c (t ++ t') = community_rows c t ++ community_rows c t'.
Proof. apply filter_app. Qed.

Lemma head_row_last c table : chain_ok c table → head_row c table = last (community_rows c table).
Proof. intros H. unfold head_row. by rewrite sort_by_key_id by (by eapply chained_sorted). Qed.

Lemma next_entry_fields now e head :
  let a := next_entry now e head in
  row_community (to_row a) = new_community_id e ∧
  row_seq (to_row a) = match head with Some r => row_seq r + 1 | None => 1 end ∧
  row_prev_hash (to_row a) = match head with Some r => Some (row_hash r) | None => None end ∧
  action a = new_action e ∧ actor_pubkey a = new_actor_pubkey e ∧ object_id a = new_object_id e ∧
  detail a = new_detail e.
Proof. unfold next_entry. by destruct head. Qed.

Lemma chain_ok_append now e table :
  (∀ c, chain_ok c table) →
  ∀ c, chain_ok c (table ++ [to_row (next_entry now e (head_row (new_community_id e) table))]).
Proof.
  intros H c. unfold chain_ok. rewrite community_rows_app.
  destruct (next_entry_fields now e (head_row (new_community_id e) table)) as (Hc & Hs & Hp & _).
  set (r := to_row _) in *. unfold community_rows at 2. rewrite filter_cons, filter_nil.
  case_decide as Hd; [|by rewrite app_nil_r; apply H].
  assert (new_community_id e = c) as Hec by congruence. rewrite Hec in Hs, Hp.
  rewrite head_row_last in Hs, Hp by apply H.
  apply chained_snoc; [apply H| |by destruct (last _)|apply next_entry_row].
  destruct (last (community_rows c table)) as [l|] eqn:Hl.
  - rewrite Hs. rewrite last_lookup in Hl. rewrite (chained_seq _ _ _ _ _ (H c) Hl).
    apply lookup_lt_Some in Hl. lia.
  - apply last_None in Hl as ->. done.
Qed.

Lemma verify_rows_chained n prev rows ep :
  chained n prev rows → (ep = None ∨ ep = prev) → verify_rows ep rows = Ok true.
Proof.
  revert n prev ep. induction rows as [|r rows IH]; intros n prev ep; [done|].
  intros (_ & Hp & (e & He & Hh) & Hc) Hep. simpl. rewrite He. simpl.
  assert (prev_hash e = row_prev_hash r ∧ hash e = row_hash r) as [Hpe Hhe].
  { unfold row_to_audit_entry in He. by destruct (from_str _); simplify_eq. }
  rewrite Hpe, Hp, Hhe, Hh, (bool_decide_eq_false_2 (row_hash r ≠ row_hash r)) by auto.
  replace (bool_decide (is_Some ep) && bool_decide (prev ≠ ep)) with false.
  2: { destruct Hep as [-> | ->]; [by rewrite bool_decide_eq_false_2 by (by intros [? ?])|].
       rewrite (bool_decide_eq_false_2 (prev ≠ prev)) by auto. by rewrite andb_false_r. }
  eapply IH; [exact Hc|by right].
Qed.

(** A range of a chain is a chain. *)
Lemma chained_range n prev rows lo hi :
  chained n prev rows →
  ∃ prev', (lo ≤ n → prev' = prev) ∧
           chained (Z.max n lo) prev' (filter (λ r, lo ≤ row_seq r ≤ hi) rows).
Proof.
  revert n prev. induction rows as [|r rows IH]; intros n prev; [by exists prev|].
  intros Hall. pose proof Hall as (Hn & Hp & Hg & Hc).
  destruct (IH _ _ Hc) as (prev' & Heq & Hch). rewrite filter_cons. case_decide as Hd.
  - exists prev. split; [done|]. rewrite Z.max_l by lia. split_and!; [done|done|done|].
    rewrite Heq, Z.max_l in Hch by lia. exact Hch.
  - destruct (decide (lo ≤ n)) as [Hlo|Hlo].
    + exists prev. split; [done|]. replace (filter _ rows) with (@nil AuditRow); [done|].
      symmetry. apply elem_of_nil_inv. intros x [Hx [i Hi]%list_elem_of_lookup]%list_elem_of_filter.
      pose proof (chained_seq _ _ _ _ _ Hc Hi). lia.
    + exists prev'. split; [lia|]. replace (Z.max n lo) with (Z.max (n + 1) lo) by lia. exact Hch.
Qed.

Lemma list_filter_range c lo hi table :
  filter (λ r, lo ≤ row_seq r ≤ hi) (community_rows c table)
  = filter (λ r, row_community r = c ∧ lo ≤ row_seq r ≤ hi) table.
Proof. unfold community_rows. rewrite list_filter_filter. apply list_filter_iff. tauto. Qed.

Lemma select_range_chain c lo hi table :
  chain_ok c table →
  select_range c lo hi table = filter (λ r, lo ≤ row_seq r ≤ hi) (community_rows c table)
  ∧ ∃ prev, chained (Z.max 1 lo) prev (select_range c lo hi table).
Proof.
  intros H. destruct (chained_range _ _ _ lo hi H) as (prev & _ & Hc).
  assert (select_range c lo hi table = filter (λ r, lo ≤ row_seq r ≤ hi) (community_rows c table)) as Heq.
  { unfold select_range. rewrite <-(list_filter_range c), sort_by_key_id; [done|].
    by eapply chained_sorted. }
  split; [done|]. exists prev. by rewrite Heq.
Qed.

Lemma verify_chain_ok c lo hi table :
  chain_ok c table →
  verify_chain c lo hi table =
    Ok (bool_decide (Z.max lo 1 ≤ Z.min hi (Z.of_nat (length (community_rows c table))))).
Proof.
  intros H. unfold verify_chain.
  destruct (select_range_chain c lo hi table H) as (Heq & prev & Hc). case_match eqn:Hs.
  - rewrite bool_decide_eq_false_2; [done|]. intros Hle.
    destruct (lookup_lt_is_Some_2 (community_rows c table) (Z.to_nat (Z.max lo 1 - 1))) as [r Hr]; [lia|].
    pose proof (chained_seq _ _ _ _ _ H Hr) as Hq. symmetry in Heq.
    apply filter_nil_not_elem_of with (x := r) in Heq; [|lia].
    apply Heq. by eapply list_elem_of_lookup_2.
  - rewrite (verify_rows_chained _ _ _ None Hc) by by left. do 2 f_equal. symmetry.
    apply bool_decide_eq_true_2.
    assert (a ∈ filter (λ r, lo ≤ row_seq r ≤ hi) (community_rows c table)) as Ha.
    { rewrite <-Heq. apply list_elem_of_here. }
    apply list_elem_of_filter in Ha as [Hr [i Hi]%list_elem_of_lookup].
    pose proof (chained_seq _ _ _ _ _ H Hi). apply lookup_lt_Some in Hi. lia.
Qed.

(** ** Concurrent appends under the advisory locks *)

(** Where a call of [log] holding its community's lock stands. *)
Inductive LogPhase :=
  | Locked
  | Prepared (now : Z) (e : NewAuditEntry) (entry : AuditEntry)
  | Finished.

Record AuditState := { table : list AuditRow; holders : gmap string LogPhase }.
Definition empty_log : AuditState := {| table := []; holders := ∅ |}.

(** [log] takes the lock, reads the head and builds the entry, commits the insert
    or fails, and unlocks; any other call may step in between. *)
Inductive log_step : AuditState → AuditState → Prop :=
  | step_lock st c :
      holders st !! c = None →
      log_step st {| table := table st; holders := <[c := Locked]> (holders st) |}
  | step_prepare st now e :
      holders st !! new_community_id e = Some Locked →
      log_step st
        {| table := table st;
           holders := <[new_community_id e :=
                          Prepared now e (next_entry now e (head_row (new_community_id e) (table st)))]>
                        (holders st) |}
  | step_commit st c now e entry :
      holders st !! c = Some (Prepared now e entry) →
      conflicts (to_row entry) (table st) = false →
      log_step st {| table := table st ++ [to_row entry]; holders := <[c := Finished]> (holders st) |}
  | step_unlock st c phase :
      holders st !! c = Some phase →
      log_step st {| table := table st; holders := delete c (holders st) |}.

Inductive log_reachable : AuditState → Prop :=
  | log_start : log_reachable empty_log
  | log_next st st' : log_reachable st → log_step st st' → log_reachable st'.

(** The calls [(now, entry)] one after the other, all of them succeeding. *)
Fixpoint log_all (table : list AuditRow) (calls : list (Z * NewAuditEntry))
    : result AuditError (list AuditRow) :=
  match calls with
  | [] => Ok table
  | (now, e) :: calls' =>
      match log_inner now e table with
      | (Ok _, table') => log_all table' calls'
      | (Err err, _) => Err err
      end
  end.

Lemma log_all_app table calls calls' :
  log_all table (calls ++ calls') = (t ← log_all table calls; log_all t calls').
Proof.
  revert table. induction calls as [|[now e] calls IH]; intros table; [done|]. simpl.
  destruct (log_inner now e table) as [[|] t']; [apply IH|done].
Qed.

(** The invariant: sequential history, chains, and no head moving under a holder. *)
Record audit_inv (st : AuditState) : Prop := {
  inv_sequential : ∃ calls, log_all [] calls = Ok (table st);
  inv_chains c : chain_ok c (table st);
  inv_prepared c now e entry :
    holders st !! c = Some (Prepared now e entry) →
    new_community_id e = c ∧ entry = next_entry now e (head_row c (table st));
}.

Lemma head_row_other c r T : row_community r ≠ c → head_row c (T ++ [r]) = head_row c T.
Proof.
  intros H. unfold head_row. rewrite community_rows_app. unfold community_rows at 2.
  by rewrite filter_cons_False, filter_nil, app_nil_r by done.
Qed.

Lemma audit_inv_step st st' : audit_inv st → log_step st st' → audit_inv st'.
Proof.
  intros [(calls & Hseq) Hch Hprep] Hstep. destruct Hstep as [st c Hc|st now e Hc|st c now e entry Hc Hcf|st c ph Hc];
    split; simpl; [by eexists|done| |by eexists|done| | | | |by eexists|done|].
  - intros c' now e entry H. apply lookup_insert_Some in H as [[_ H]|[_ H]]; [done|]. by eapply Hprep.
  - intros c' now' e' entry H. apply lookup_insert_Some in H as [[<- H]|[_ H]]; [by simplify_eq|].
    by eapply Hprep.
  - destruct (Hprep _ _ _ _ Hc) as [<- ->]. exists (calls ++ [(now, e)]).
    rewrite log_all_app, Hseq. simpl. unfold log_inner. by rewrite Hcf.
  - destruct (Hprep _ _ _ _ Hc) as [<- ->]. by apply chain_ok_append.
  - intros c' now' e' entry' H. apply lookup_insert_Some in H as [[_ H]|[Hne H]]; [done|].
    destruct (Hprep _ _ _ _ H) as [? ->]. split; [done|]. rewrite head_row_other; [done|].
    destruct (Hprep _ _ _ _ Hc) as [<- ->]. by destruct (next_entry_fields now e (head_row (new_community_id e) (table st))) as [-> _].
  - intros c' now e entry H. apply lookup_delete_Some in H as [_ H]. by eapply Hprep.
Qed.

Lemma audit_inv_reachable st : log_reachable st → audit_inv st.
Proof.
  induction 1; [|by eapply audit_inv_step]. split; simpl; [by exists []|done|].
  intros c now e entry. by rewrite lookup_empty.
Qed.

(** ** Reading *)

Lemma from_str_Some s a : from_str s = Some a → as_str a = s.
Proof. unfold from_str. intros H%find_some. destruct H as [_ H]. by apply bool_decide_eq_true in H. Qed.

Lemma row_parse_back r e : row_to_audit_entry r = Ok e → to_row e = r.
Proof.
  unfold row_to_audit_entry. destruct (from_str _) as [a|] eqn:Ha; [|done]. intros [= <-].
  unfold to_row. simpl. rewrite (from_str_Some _ _ Ha), Z.div_mul by done. by destruct r.
Qed.

Lemma chained_genuine n prev rows r : chained n prev rows → r ∈ rows → row_genuine r.
Proof.
  revert n prev. induction rows as [|r' rows IH]; intros n prev; [by intros _ ?%not_elem_of_nil|].
  intros (_ & _ & Hg & Hc) [-> | Hin]%elem_of_cons; [done|by eapply IH].
Qed.

Lemma parse_rows_genuine rows :
  Forall row_genuine rows → ∃ es, parse_rows rows = Ok es ∧ to_row <$> es = rows.
Proof.
  induction 1 as [|r rows (e & He & _) _ (es & Hes & Hr)]; [by exists []|].
  exists (e :: es). simpl. rewrite He. simpl. rewrite Hes. simpl. split; [done|].
  change (to_row e :: (to_row <$> es) = r :: rows).
  by rewrite (row_parse_back _ _ He), Hr.
Qed.

Lemma chained_prev n prev rows i r :
  chained n prev rows → rows !! i = Some r →
  row_prev_hash r = match i with O => prev | S j => row_hash <$> rows !! j end.
Proof.
  revert n prev i. induction rows as [|r' rows IH]; intros n prev [|i]; [done|done| |].
  - by intros (_ & ? & _) [= <-].
  - intros (_ & _ & _ & H) Hi. rewrite (IH _ _ _ H Hi). by destruct i.
Qed.

Lemma chain_get_entries c from_seq limit T :
  chain_ok c T →
  ∃ es, get_entries c from_seq limit T = Ok es ∧
        to_row <$> es = take limit (filter (λ r, from_seq ≤ row_seq r) (community_rows c T)).
Proof.
  intros H. unfold get_entries.
  assert (sort_by_key row_seq (filter (λ r, row_community r = c ∧ from_seq ≤ row_seq r) T)
          = filter (λ r, from_seq ≤ row_seq r) (community_rows c T)) as ->.
  { rewrite <-(sort_by_key_id row_seq (filter _ (community_rows c T))).
    - unfold community_rows. rewrite list_filter_filter. f_equal. apply list_filter_iff. tauto.
    - apply StronglySorted_filter. by eapply chained_sorted. }
  apply parse_rows_genuine, Forall_take, Forall_forall. intros r [_ Hr]%list_elem_of_filter.
  by eapply chained_genuine.
Qed.

(** C34. Whatever the interleaving of appends to all communities: the rows of a
    community are numbered 1, 2, 3, ...; the first has no predecessor and each
    other one carries the hash of the row before it; [verify_chain] answers true
    on every range that meets the chain and false on every other; and
    [get_entries] returns the entries of the rows from the one asked for. *)
Theorem audit_chains st c :
  log_reachable st →
  let rows := community_rows c (table st) in
  row_seq <$> rows = seqZ 1 (Z.of_nat (length rows)) ∧
  (∀ i r, rows !! i = Some r →
     row_prev_hash r = match i with O => None | S j => row_hash <$> rows !! j end) ∧
  (∀ lo hi, verify_chain c lo hi (table st) =
     Ok (bool_decide (Z.max lo 1 ≤ Z.min hi (Z.of_nat (length rows))))) ∧
  (∀ from_seq limit, ∃ es, get_entries c from_seq limit (table st) = Ok es ∧
     to_row <$> es = take limit (filter (λ r, from_seq ≤ row_seq r) rows)).
Proof.
  intros [_ Hch _]%audit_inv_reachable rows. specialize (Hch c). split_and!.
  - apply list_eq. intros i. rewrite list_lookup_fmap. destruct (rows !! i) as [r|] eqn:Hi; simpl.
    + rewrite (chained_seq _ _ _ _ _ Hch Hi). symmetry. apply lookup_seqZ.
      apply lookup_lt_Some in Hi. lia.
    + symmetry. apply lookup_ge_None in Hi. apply lookup_ge_None. rewrite length_seqZ. lia.
  - intros i r Hi. by eapply chained_prev.
  - intros. by apply verify_chain_ok.
  - intros. by apply chain_get_entries.
Qed.

(** The advisory locks serialise the appends: however calls interleave, the
    table is what the committed calls, one after the other and all successful,
    write; and a call that has read its community's head still finds it there, so
    the entry it inserts is the one an undisturbed call would insert, and its
    sequence number is free. *)
Theorem audit_serialised st :
  log_reachable st →
  (∃ calls, log_all [] calls = Ok (table st)) ∧
  ∀ c now e entry,
    holders st !! c = Some (Prepared now e entry) →
    community_id entry = c ∧
    (∀ r, r ∈ community_rows c (table st) → row_seq r ≠ seq entry) ∧
    log_inner now e (table st) =
      if conflicts (to_row entry) (table st) then (Err Database, table st)
      else (Ok entry, table st ++ [to_row entry]).
Proof.
  intros [Hseq Hch Hp]%audit_inv_reachable. split; [done|]. intros c now e entry H.
  destruct (Hp _ _ _ _ H) as [<- ->]. set (c := new_community_id e).
  destruct (next_entry_fields now e (head_row c (table st))) as (Hc & Hs & _). simpl in Hc, Hs.
  split_and!; [done| |done]. intros r [i Hi]%list_elem_of_lookup.
  rewrite Hs, (chained_seq _ _ _ _ _ (Hch c) Hi), head_row_last by apply Hch.
  pose proof (lookup_lt_Some _ _ _ Hi) as Hlt. rewrite last_lookup.
  destruct (_ !! pred _) as [l|] eqn:Hl.
  - rewrite (chained_seq _ _ _ _ _ (Hch c) Hl). lia.
  - apply lookup_ge_None in Hl. lia.
Qed.

(** ** Tampering *)

(** Everything before the predecessor's hash. *)
Definition preimage_body (e : AuditEntry) : string :=
  (community_id e +:+ i64_to_be_bytes (seq e) +:+ to_rfc3339 (to_storage_precision (created_at e))
   +:+ as_str (action e) +:+ tagged (actor_pubkey e) +:+ tagged (object_id e)
   +:+ canonical_json (detail e))%stdpp.

Lemma preimage_split e : preimage e = (preimage_body e +:+ default GENESIS_HASH (prev_hash e))%stdpp.
Proof. unfold preimage, preimage_body. by rewrite !string_app_assoc. Qed.

(** What [verify_chain] accepts: every row genuine, every one after the first linked. *)
Fixpoint linked (expected_prev : option string) (rows : list AuditRow) : Prop :=
  match rows with
  | [] => True
  | r :: rows' => (is_Some expected_prev → row_prev_hash r = expected_prev) ∧ row_genuine r ∧
                  linked (Some (row_hash r)) rows'
  end.

Lemma verify_rows_linked ep rows : verify_rows ep rows = Ok true → linked ep rows.
Proof.
  revert ep. induction rows as [|r rows IH]; intros ep; [done|]. simpl.
  destruct (row_to_audit_entry r) as [e|] eqn:He; [|done]. simpl.
  assert (prev_hash e = row_prev_hash r ∧ hash e = row_hash r) as [-> Hhe].
  { unfold row_to_audit_entry in He. by destruct (from_str _); simplify_eq. }
  destruct (_ && _) eqn:Hl; [done|].
  destruct (bool_decide (compute_hash e ≠ hash e)) eqn:Hh; [done|]. intros Hv.
  apply bool_decide_eq_false, dec_stable in Hh. split_and!; [|exists e; by rewrite Hh|rewrite <-Hhe; by apply IH].
  intros Hs. apply andb_false_iff in Hl as [Hl|Hl]; apply bool_decide_eq_false in Hl; [done|].
  by apply dec_stable in Hl.
Qed.

Lemma linked_snoc ep rows r :
  linked ep (rows ++ [r]) →
  linked ep rows ∧ row_genuine r ∧ ∀ l, last rows = Some l → row_prev_hash r = Some (row_hash l).
Proof.
  revert ep. induction rows as [|r' rows IH]; intros ep; simpl; [by intros (_ & Hg & _)|].
  intros (Hp & Hg & H). destruct (IH _ H) as (Hl & Hgr & Hlast). split_and!; [exact Hp|exact Hg|exact Hl|exact Hgr|].
  intros l Hll. change (last (r' :: rows) = Some l) in Hll. rewrite last_cons in Hll.
  destruct (last rows) as [l'|] eqn:Hr; simplify_eq; [by apply Hlast|].
  apply last_None in Hr as ->. destruct H as [H _]. by apply H.
Qed.

Lemma linked_genuine ep rows r : linked ep rows → r ∈ rows → row_genuine r.
Proof.
  revert ep. induction rows as [|z rows IH]; intros ep; [by intros _ ?%not_elem_of_nil|].
  intros (_ & Hg & H) [-> | Hin]%elem_of_cons; [done|by eapply IH].
Qed.

Lemma chained_linked n prev rows : chained n prev rows → linked prev rows.
Proof.
  revert n prev. induction rows as [|r rows IH]; [done|].
  intros n prev (_ & Hp & Hg & Hc). split_and!; [by intros _|exact Hg|by eapply IH].
Qed.

Lemma chained_prev_length `{!AuditLaws} n prev rows r :
  String.length (default GENESIS_HASH prev) = 32%nat →
  chained n prev rows → r ∈ rows → String.length (default GENESIS_HASH (row_prev_hash r)) = 32%nat.
Proof.
  revert n prev. induction rows as [|r' rows IH]; intros n prev; [by intros _ _ ?%not_elem_of_nil|].
  intros Hlen (_ & Hp & Hg & Hc) [-> | Hin]%elem_of_cons; [by rewrite Hp|].
  eapply IH; [|exact Hc|done]. simpl. rewrite (row_genuine_hash _ Hg). apply sha256_length.
Qed.

Lemma string_app_inj_r (a b c d : string) :
  String.length b = String.length d → (a +:+ b)%stdpp = (c +:+ d)%stdpp → b = d.
Proof.
  intros Hlen Heq. assert (String.length a = String.length c) as Ha.
  { apply (f_equal String.length) in Heq. rewrite !string_length_app in Heq. lia. }
  by apply (string_app_inj _ _ _ _ Ha) in Heq as [_ ->].
Qed.

Lemma genuine_preimage r :
  row_genuine r → ∃ b, row_preimage r = (b +:+ default GENESIS_HASH (row_prev_hash r))%stdpp.
Proof.
  intros (e & He & _). exists (preimage_body e). unfold row_preimage. rewrite He, preimage_split.
  unfold row_to_audit_entry in He. by destruct (from_str _); simplify_eq.
Qed.

(** No two rows, one of each list, show a collision of the hash. *)
Definition no_collision (rows rows' : list AuditRow) : Prop :=
  ∀ r r', r ∈ rows → r' ∈ rows' →
    sha256 (row_preimage r) = sha256 (row_preimage r') → row_preimage r = row_preimage r'.

(** A linked list that ends in the hash a chain ends in is, content for content,
    a tail of the chain. *)
Lemma linked_is_tail `{!AuditLaws} rows' rows :
  linked None rows' → chained 1 None rows → (length rows' ≤ length rows)%nat →
  (∀ l', last rows' = Some l' → row_hash <$> last rows = Some (row_hash l')) →
  no_collision rows rows' →
  row_preimage <$> rows' = drop (length rows - length rows') (row_preimage <$> rows).
Proof.
  intros Hl' Hc. assert (∀ r, r ∈ rows → String.length (default GENESIS_HASH (row_prev_hash r)) = 32%nat) as Hlen.
  { intros r Hr. by apply (chained_prev_length 1 None rows). }
  apply chained_linked in Hc. revert rows Hl' Hc Hlen.
  induction rows' as [|x' l' IH] using rev_ind; intros rows Hl' Hc Hlen Hle Hlast Hno.
  { simpl. rewrite drop_ge; [done|]. rewrite length_fmap. lia. }
  rewrite length_app in Hle |- *. simpl in Hle |- *.
  specialize (Hlast x' (last_snoc _ _)).
  destruct rows as [|x l _] using rev_ind; [simpl in Hle; lia|].
  rewrite last_snoc in Hlast. injection Hlast as Hh. rewrite length_app in Hle |- *. simpl in Hle |- *.
  apply linked_snoc in Hl' as (Hl' & Hg' & Hp'). apply linked_snoc in Hc as (Hc & Hg & Hp).
  assert (row_preimage x = row_preimage x') as Heq.
  { apply Hno; [set_solver|set_solver|]. by rewrite <-!row_genuine_hash. }
  rewrite !fmap_app. simpl. rewrite Heq.
  replace (length l + 1 - (length l' + 1))%nat with (length l - length l')%nat by lia.
  rewrite drop_app_le by (rewrite length_fmap; lia). f_equal.
  apply IH; [done|done|intros; apply Hlen; set_solver|lia| |intros r r' ??; apply Hno; set_solver].
  intros y' Hy'. specialize (Hp' _ Hy').
  destruct (last l) as [y|] eqn:Hy; [|by apply last_None in Hy as ->; apply last_Some_elem_of in Hy';
    destruct l'; [by apply not_elem_of_nil in Hy'|simpl in Hle; lia]].
  specialize (Hp _ eq_refl). simpl. f_equal.
  destruct (genuine_preimage _ Hg) as [b Hb], (genuine_preimage _ Hg') as [b' Hb'].
  rewrite Hb, Hb' in Heq. apply string_app_inj_r in Heq; [by rewrite Hp, Hp' in Heq|].
  rewrite Hlen by set_solver. rewrite Hp'. simpl.
  assert (row_genuine y') as Hgy by (by apply (linked_genuine None l'), last_Some_elem_of).
  by rewrite (row_genuine_hash _ Hgy), sha256_length.
Qed.

(** The primary key. *)
Definition row_key (r : AuditRow) : string * Z := (row_community r, row_seq r).

Lemma select_range_length c n T :
  NoDup (row_key <$> T) → (length (select_range c 1 (Z.of_nat n) T) ≤ n)%nat.
Proof.
  intros Hnd. unfold select_range. rewrite sort_by_key_length.
  set (l := filter _ T). rewrite <-(length_fmap row_seq l).
  replace n with (length (seqZ 1 (Z.of_nat n))) at 1 by (rewrite length_seqZ; lia).
  apply submseteq_length, NoDup_submseteq.
  - apply NoDup_fmap_2_strong.
    + intros x y [[Hx _] Hx']%list_elem_of_filter [[Hy _] Hy']%list_elem_of_filter Hs.
      apply list_elem_of_lookup in Hx' as [i Hi], Hy' as [j Hj].
      enough (i = j) as -> by congruence. eapply NoDup_lookup; [exact Hnd|by rewrite list_lookup_fmap, Hi|].
      rewrite list_lookup_fmap, Hj. simpl. unfold row_key. by rewrite Hx, Hy, Hs.
    + apply NoDup_filter. by eapply NoDup_fmap_1.
  - intros s (r & -> & [[_ Hr] _]%list_elem_of_filter)%list_elem_of_fmap.
    apply elem_of_seqZ. lia.
Qed.

(** The rows that show a collision. *)
Definition collision (rows rows' : list AuditRow) : Prop :=
  ∃ r r', r ∈ rows ∧ r' ∈ rows' ∧
    row_preimage r ≠ row_preimage r' ∧ sha256 (row_preimage r) = sha256 (row_preimage r').

Lemma collision_dec rows rows' : collision rows rows' ∨ no_collision rows rows'.
Proof.
  destruct (decide (Exists (λ r, Exists (λ r', row_preimage r ≠ row_preimage r' ∧
    sha256 (row_preimage r) = sha256 (row_preimage r')) rows') rows)) as [H|H].
  - left. apply Exists_exists in H as (r & Hr & (r' & Hr' & H)%Exists_exists). by exists r, r'.
  - right. intros r r' Hr Hr' Hs. destruct (decide (row_preimage r = row_preimage r')) as [|Hne]; [done|].
    destruct H. apply Exists_exists. exists r. split; [done|]. apply Exists_exists. by exists r'.
Qed.

(** C33. The chain shows tampering.  Take any table that keeps the primary key, in
    which a community's chain verifies over the length it had and still ends in
    the hash it ended in: either two rows exhibit a SHA-256 collision, or the rows
    that verified carry, in order, exactly the hashed content of the last of the
    rows that were written, so nothing was altered, inserted, reordered or
    dropped except for a prefix. *)
Theorem tamper_evident `{!AuditLaws} st c T' :
  log_reachable st → NoDup (row_key <$> T') →
  let rows := community_rows c (table st) in
  let rows' := select_range c 1 (Z.of_nat (length rows)) T' in
  verify_chain c 1 (Z.of_nat (length rows)) T' = Ok true →
  row_hash <$> last rows' = row_hash <$> last rows →
  collision rows rows' ∨
  row_preimage <$> rows' = drop (length rows - length rows') (row_preimage <$> rows).
Proof.
  intros [_ Hch _]%audit_inv_reachable Hnd rows rows' Hv Hlast.
  destruct (collision_dec rows rows') as [|Hno]; [by left|right].
  apply linked_is_tail; [|apply Hch|by apply select_range_length| |done].
  - unfold verify_chain in Hv. fold rows' in Hv. destruct rows' as [|r l]; [done|].
    by apply verify_rows_linked.
  - intros l' Hl'. by rewrite <-Hlast, Hl'.
Qed.

(** ** What the hash does not see *)

(** Two rows [verify_chain] cannot tell apart. *)
Definition same_to_verifier (r r' : AuditRow) : Prop :=
  row_community r = row_community r' ∧ row_seq r = row_seq r' ∧ row_hash r = row_hash r' ∧
  row_prev_hash r = row_prev_hash r' ∧ row_action r = row_action r' ∧
  row_preimage r = row_preimage r'.

#[export] Instance same_to_verifier_refl : Reflexive same_to_verifier.
Proof. by intros r. Qed.

Lemma select_range_same c lo hi T T' :
  Forall2 same_to_verifier T T' →
  Forall2 same_to_verifier (select_range c lo hi T) (select_range c lo hi T').
Proof.
  intros H. unfold select_range. induction H as [|r r' T T' Hr _ IH]; [constructor|].
  rewrite !filter_cons. pose proof Hr as (Hc & Hs & _). rewrite Hc, Hs. case_decide; [|done].
  simpl. revert IH. generalize (sort_by_key row_seq (filter (λ r, row_community r = c ∧ lo ≤ row_seq r ≤ hi) T)).
  generalize (sort_by_key row_seq (filter (λ r, row_community r = c ∧ lo ≤ row_seq r ≤ hi) T')).
  intros l' l. induction 1 as [|x x' l l' Hx Hl IH]; [by constructor; [|constructor]|]. simpl.
  pose proof Hx as (_ & Hsx & _). rewrite Hs, Hsx. case_match; by constructor; [|try constructor].
Qed.

Lemma verify_rows_same ep rows rows' :
  Forall2 same_to_verifier rows rows' → verify_rows ep rows = verify_rows ep rows'.
Proof.
  intros H. revert ep. induction H as [|r r' rows rows' (Hc & Hs & Hh & Hp & Ha & Hi) _ IH]; [done|].
  intros ep. simpl. unfold row_preimage, row_to_audit_entry in *. rewrite <-Ha in *.
  destruct (from_str _) as [a|]; [|done]. simpl in *. unfold compute_hash. rewrite Hi, Hs, Hh, Hp.
  by rewrite IH.
Qed.

Lemma verify_chain_same c lo hi T T' :
  Forall2 same_to_verifier T T' → verify_chain c lo hi T = verify_chain c lo hi T'.
Proof.
  intros H%(select_range_same c lo hi). unfold verify_chain.
  pose proof (verify_rows_same None _ _ H) as Hv. by destruct H.
Qed.

Definition with_actor_object (actor object : string) (r : AuditRow) : AuditRow := {|
  row_community := row_community r; row_seq := row_seq r; row_hash := row_hash r;
  row_prev_hash := row_prev_hash r; row_action := row_action r;
  row_actor_pubkey := Some actor; row_object_id := Some object;
  row_detail := row_detail r; row_created_us := row_created_us r |}.

(** The hash does not separate its fields.  An actor and an object that are
    both present are hashed as tag, actor, tag, object with no lengths, so a byte
    1 inside the actor's key serves as the object's tag: the row that ends the
    actor there and gives the rest to the object has the same hash, and every
    range of every table in which it replaces the original verifies as before. *)
Theorem shifted_row_verifies c lo hi T1 T2 r a b o :
  let r1 := with_actor_object (a +:+ String one_char b)%stdpp o r in
  let r2 := with_actor_object a (b +:+ String one_char o)%stdpp r in
  r1 ≠ r2 ∧ verify_chain c lo hi (T1 ++ r1 :: T2) = verify_chain c lo hi (T1 ++ r2 :: T2).
Proof.
  intros r1 r2. split.
  - intros [= H _]. apply (f_equal String.length) in H. rewrite string_length_app in H. simpl in H. lia.
  - apply verify_chain_same, Forall2_app; [by apply Forall_Forall2_diag, Forall_true|].
    constructor; [|by apply Forall_Forall2_diag, Forall_true]. split_and!; [done..|].
    unfold row_preimage, row_to_audit_entry. simpl. destruct (from_str _) as [x|]; [|done].
    unfold preimage. simpl. do 4 f_equal. rewrite !string_app_cons, <-!string_app_assoc. f_equal.
Qed.

End audit.

(** ** A concrete log *)

Definition toy_ops : AuditOps := {|
  sha256 s := be_bytes 32 (Z.of_nat (String.length s));
  to_rfc3339 := be_bytes 8;
  json_string s := s |}.
#[local] Existing Instance toy_ops.

Lemma be_bytes_length n z : String.length (be_bytes n z) = n.
Proof. induction n as [|n IH]; simpl; congruence. Qed.

#[local] Instance toy_audit_laws : AuditLaws.
Proof. constructor. intros s. apply (be_bytes_length 32). Qed.

Definition toy_entry (c : string) : NewAuditEntry := {|
  new_community_id := c; new_action := EventCreated; new_actor_pubkey := Some "alice";
  new_object_id := None; new_detail := JNull |}.

(** Two communities log at once; the first to prepare is the last to commit. *)
Definition toy_first (c : string) : AuditEntry := next_entry 5000 (toy_entry c) None.
Definition toy_state : AuditState := {|
  table := [to_row (toy_first "B"); to_row (toy_first "A")];
  holders := <["A" := Finished]> (<["B" := Finished]> (<["B" := Prepared 5000 (toy_entry "B") (toy_first "B")]>
    (<["A" := Prepared 5000 (toy_entry "A") (toy_first "A")]> (<["B" := Locked]> (<["A" := Locked]> ∅))))) |}.

Lemma toy_reachable : log_reachable toy_state.
Proof.
  pose proof log_start as H.
  eapply log_next in H; [|by apply (step_lock _ "A")].
  eapply log_next in H; [|by apply (step_lock _ "B")].
  eapply log_next in H; [|by apply (step_prepare _ 5000 (toy_entry "A"))].
  eapply log_next in H; [|by apply (step_prepare _ 5000 (toy_entry "B"))].
  eapply log_next in H; [|by apply (step_commit _ "B" 5000 (toy_entry "B") (toy_first "B"))].
  eapply log_next in H; [|by apply (step_commit _ "A" 5000 (toy_entry "A") (toy_first "A"))].
  exact H.
Qed.

Lemma audit_chains_witness :
  verify_chain "A" 1 1 (table toy_state) = Ok true ∧
  verify_chain "A" 2 7 (table toy_state) = Ok false.
Proof.
  destruct (audit_chains toy_state "A" toy_reachable) as (_ & _ & H & _).
  split; rewrite H; vm_compute; reflexivity.
Defined.

Lemma audit_serialised_witness :
  ∃ calls, log_all [] calls = Ok (table toy_state).
Proof. exact (proj1 (audit_serialised toy_state toy_reachable)). Defined.

Lemma tamper_evident_witness :
  let T' := reverse (table toy_state) in
  collision (community_rows "A" (table toy_state)) (select_range "A" 1 1 T') ∨
  row_preimage <$> select_range "A" 1 1 T' = row_preimage <$> community_rows "A" (table toy_state).
Proof.
  apply (tamper_evident toy_state "A" (reverse (table toy_state)) toy_reachable).
  - vm_compute. apply NoDup_cons. split; [|apply NoDup_singleton]. intros [=]%list_elem_of_singleton.
  - vm_compute. reflexivity.
  - vm_compute. reflexivity.
Defined.
