(* ===== verification/WakeLedger.v ===== *)
(** * The wake ledger ([crates/buzz-acp/src/wake_ledger.rs])

    The durable record of the events an agent handled: admission and
    deduplication, commit before a turn with rollback when the file cannot be
    written, settling, redelivery after a restart, and the replay floor.

    Times are unix seconds ([u64] in [Z]).  The file system is outside the
    model: [ledger_open] takes the outcome of [read_file], and every operation
    that may write takes [disk_ok], whether [write_file] would succeed now;
    [write_file] is atomic, so [written] is what the next [ledger_open] reads. *)

From stdpp Require Import base gmap strings list fin_maps sorting pretty.
From Stdlib Require Import ZArith Lia.
From S2P Require Import Prelude Nostr.

Local Open Scope string_scope.
Local Open Scope list_scope.

(** ** Constants and data *)

Definition SINCE_SKEW_SECS : Z := 5.
Definition MAX_LOOKBACK_SECS : Z := 7 * 24 * 60 * 60.
Definition MAX_HANDLED : nat := 512.
Definition SETTLE_SECS : Z := 30.
Definition WRITE_RETRY_SECS : Z := 30.
Definition MAX_REDELIVERIES : Z := 3.
Definition REDELIVERY_BACKOFF_SECS : list Z := [0; 30; 120]%Z.
Definition MAX_ABANDONED : nat := 32.
Definition MAX_TURNS : nat := 64.
Definition FILE_VERSION : Z := 1.

Record HandledEvent : Type := MkHandled { he_id : string; he_created_at : Z }.

Record InFlightEvent : Type := MkInFlight {
  ie_id : string;
  ie_created_at : Z;
  ie_restarts : Z;
  ie_last_attempt : Z;
}.

Record LedgerFile : Type := MkFile {
  lf_version : Z;
  lf_relay_url : string;
  lf_agent_pubkey : string;
  lf_floor : Z;
  lf_evicted_floor : Z;
  lf_handled : list HandledEvent;
  lf_in_flight : list InFlightEvent;
  lf_abandoned : list HandledEvent;
}.

Inductive Admission : Type := Duplicate | Live | CaughtUp.

Inductive SyncOutcome : Type := Unchanged | Written | Deferred | Failed.

#[export] Instance HandledEvent_eq_dec : EqDecision HandledEvent.
Proof. solve_decision. Defined.
#[export] Instance InFlightEvent_eq_dec : EqDecision InFlightEvent.
Proof. solve_decision. Defined.
#[export] Instance LedgerFile_eq_dec : EqDecision LedgerFile.
Proof. solve_decision. Defined.
#[export] Instance Admission_eq_dec : EqDecision Admission.
Proof. solve_decision. Defined.
#[export] Instance SyncOutcome_eq_dec : EqDecision SyncOutcome.
Proof. solve_decision. Defined.

Definition is_saved (o : SyncOutcome) : bool :=
  match o with Unchanged | Written => true | _ => false end.

Record WakeLedger : Type := MkLedger {
  path : string;
  relay_url : string;
  agent_pubkey : string;
  catch_up_since : option Z;
  live_cutoff : Z;
  baseline : Z;
  settle_until : Z;
  newest_received : option Z;
  handled : list HandledEvent;
  handled_ids : gset string;
  committed : gset string;
  evicted_floor : Z;
  released : gmap string Z;
  in_flight : gmap string InFlightEvent;
  carried : gmap string Z;
  abandoned : list HandledEvent;
  stopped : list HandledEvent;
  turns : list (string * list string);
  written : option LedgerFile;
  retry_at : option Z;
}.

(** Assignments to the fields a method updates together. *)
Definition set_window (cs : option Z) (b : Z) (l : WakeLedger)
    : WakeLedger :=
  MkLedger (path l) (relay_url l) (agent_pubkey l) cs (live_cutoff l) b (settle_until l)
    (newest_received l) (handled l) (handled_ids l) (committed l) (evicted_floor l)
    (released l) (in_flight l) (carried l) (abandoned l) (stopped l) (turns l)
    (written l) (retry_at l).
Definition set_newest (n : option Z) (l : WakeLedger)
    : WakeLedger :=
  MkLedger (path l) (relay_url l) (agent_pubkey l) (catch_up_since l) (live_cutoff l)
    (baseline l) (settle_until l) n (handled l) (handled_ids l) (committed l)
    (evicted_floor l) (released l) (in_flight l) (carried l) (abandoned l) (stopped l)
    (turns l) (written l) (retry_at l).
Definition set_seen (h : list HandledEvent) (hi : gset string) (co : gset string) (ef : Z) (l : WakeLedger)
    : WakeLedger :=
  MkLedger (path l) (relay_url l) (agent_pubkey l) (catch_up_since l) (live_cutoff l)
    (baseline l) (settle_until l) (newest_received l) h hi co ef (released l)
    (in_flight l) (carried l) (abandoned l) (stopped l) (turns l) (written l)
    (retry_at l).
Definition set_flight (r : gmap string Z) (f : gmap string InFlightEvent) (c : gmap string Z) (l : WakeLedger)
    : WakeLedger :=
  MkLedger (path l) (relay_url l) (agent_pubkey l) (catch_up_since l) (live_cutoff l)
    (baseline l) (settle_until l) (newest_received l) (handled l) (handled_ids l)
    (committed l) (evicted_floor l) r f c (abandoned l) (stopped l) (turns l)
    (written l) (retry_at l).
Definition set_given_up (a : list HandledEvent) (st : list HandledEvent) (l : WakeLedger)
    : WakeLedger :=
  MkLedger (path l) (relay_url l) (agent_pubkey l) (catch_up_since l) (live_cutoff l)
    (baseline l) (settle_until l) (newest_received l) (handled l) (handled_ids l)
    (committed l) (evicted_floor l) (released l) (in_flight l) (carried l) a st
    (turns l) (written l) (retry_at l).
Definition set_turns (t : list (string * list string)) (l : WakeLedger)
    : WakeLedger :=
  MkLedger (path l) (relay_url l) (agent_pubkey l) (catch_up_since l) (live_cutoff l)
    (baseline l) (settle_until l) (newest_received l) (handled l) (handled_ids l)
    (committed l) (evicted_floor l) (released l) (in_flight l) (carried l)
    (abandoned l) (stopped l) t (written l) (retry_at l).
Definition set_disk (w : option LedgerFile) (r : option Z) (l : WakeLedger)
    : WakeLedger :=
  MkLedger (path l) (relay_url l) (agent_pubkey l) (catch_up_since l) (live_cutoff l)
    (baseline l) (settle_until l) (newest_received l) (handled l) (handled_ids l)
    (committed l) (evicted_floor l) (released l) (in_flight l) (carried l)
    (abandoned l) (stopped l) (turns l) w r.

(** ** Remembering ids *)

(** [while handled.len() > MAX_HANDLED { .. }]; the fuel is the length. *)
Fixpoint evict_loop (fuel : nat) (l : WakeLedger) : WakeLedger :=
  if (MAX_HANDLED <? length (handled l))%nat then
    match fuel, handled l with
    | S fuel, evicted :: rest =>
        evict_loop fuel
          (set_seen rest (handled_ids l ∖ {[he_id evicted]}) (committed l ∖ {[he_id evicted]})
             (Z.max (evicted_floor l)
                (u64_saturating_add (he_created_at evicted) (SINCE_SKEW_SECS + 1))) l)
    | _, _ => l
    end
  else l.

Definition remember (entry : HandledEvent) (l : WakeLedger) : WakeLedger :=
  if bool_decide (he_id entry ∈ handled_ids l) then l
  else
    let l := set_seen (handled l ++ [entry]) ({[he_id entry]} ∪ handled_ids l)
               (committed l) (evicted_floor l) l in
    evict_loop (length (handled l)) l.

(** [while xs.len() > n { xs.pop_front(); }] *)
Definition keep_last {A} (n : nat) (xs : list A) : list A := drop (length xs - n) xs.

(** ** What a previous run left in flight *)

Definition backoff_for (restarts : Z) : Z :=
  nth (Z.to_nat (Z.min restarts 2)) REDELIVERY_BACKOFF_SECS 0%Z.

(** [restarts] is a [u32]; a written file never has more than [MAX_REDELIVERIES], so the
    addition does not wrap. *)
Definition recover_one (now : Z) (l : WakeLedger) (entry : InFlightEvent) : WakeLedger :=
  let next := (ie_restarts entry + 1)%Z in
  let pause := backoff_for (ie_restarts entry) in
  let h := MkHandled (ie_id entry) (ie_created_at entry) in
  if (MAX_REDELIVERIES <? next)%Z then
    let l := remember h l in
    set_given_up (keep_last MAX_ABANDONED (abandoned l ++ [h])) (stopped l ++ [h]) l
  else if (now <? u64_saturating_add (ie_last_attempt entry) pause)%Z then
    let l := remember h l in
    set_flight (released l) (<[ie_id entry := entry]> (in_flight l)) (carried l) l
  else
    set_flight (<[ie_id entry := ie_created_at entry]> (released l)) (in_flight l)
      (<[ie_id entry := next]> (carried l)) l.

Definition recover_interrupted (events : list InFlightEvent) (now : Z) (l : WakeLedger)
    : WakeLedger := fold_left (recover_one now) events l.

(** The file as [ledger_open] accepts it: readable, this version, this agent. *)
Definition usable (read : result string (option LedgerFile)) (url pubkey : string)
    : option LedgerFile :=
  match read with
  | Ok (Some f) =>
      if bool_decide (lf_version f = FILE_VERSION) && bool_decide (lf_relay_url f = url)
         && bool_decide (lf_agent_pubkey f = pubkey)
      then Some f else None
  | Ok None => None
  | Err _ => None
  end.

Definition restore_abandoned (l : WakeLedger) (entry : HandledEvent) : WakeLedger :=
  let l := remember entry l in
  set_given_up (abandoned l ++ [entry]) (stopped l) l.

(** [floor.clamp(now - lookback, now).min(startup_watermark).max(evicted_floor)] *)
Definition replay_start (f : LedgerFile) (now startup_watermark : Z) : Z :=
  Z.max (Z.min (clamp (lf_floor f) (saturating_sub now MAX_LOOKBACK_SECS) now)
           startup_watermark) (lf_evicted_floor f).

Definition ledger_open (file_path : string) (read : result string (option LedgerFile))
    (url pubkey : string) (now startup_watermark : Z) : WakeLedger :=
  let loaded := usable read url pubkey in
  let ef := match loaded with Some f => lf_evicted_floor f | None => 0%Z end in
  let since := (λ f, replay_start f now startup_watermark) <$> loaded in
  let l := MkLedger file_path url pubkey since (saturating_sub startup_watermark SINCE_SKEW_SECS)
             (default startup_watermark since) (u64_saturating_add now SETTLE_SECS) None
             [] ∅ ∅ ef ∅ ∅ ∅ [] [] [] None None in
  let '(h, fl, ab) := match loaded with
                      | Some f => (lf_handled f, lf_in_flight f, lf_abandoned f)
                      | None => ([], [], [])
                      end in
  let l := fold_left (λ l entry, remember entry l) h l in
  let l := fold_left restore_abandoned ab l in
  let l := recover_interrupted fl now l in
  match catch_up_since l with
  | Some s => let s := Z.max s (evicted_floor l) in set_window (Some s) s l
  | None => l
  end.

(** ** Admission *)

Definition admit_event (ev : Event) (now : Z) (l : WakeLedger) : Admission * WakeLedger :=
  let created_at := ev_created_at ev in
  let seen_at := Z.min created_at now in
  let l := set_newest (Some (match newest_received l with
                             | Some newest => Z.max newest seen_at
                             | None => seen_at
                             end)) l in
  let l := set_flight (delete (ev_id ev) (released l)) (in_flight l) (carried l) l in
  if bool_decide (ev_id ev ∈ handled_ids l) then (Duplicate, l)
  else
    let l := remember (MkHandled (ev_id ev) created_at) l in
    (if bool_decide (is_Some (catch_up_since l)) && (created_at <? live_cutoff l)%Z
     then CaughtUp else Live, l).

(** ** The file *)

Definition in_flight_le (a b : InFlightEvent) : Prop :=
  (ie_created_at a < ie_created_at b)%Z ∨
  ie_created_at a = ie_created_at b ∧ String.leb (ie_id a) (ie_id b) = true.
#[export] Instance in_flight_le_dec a b : Decision (in_flight_le a b).
Proof. unfold in_flight_le. apply _. Defined.

(** [iter().min()] *)
Definition list_min (l : list Z) : option Z :=
  match l with [] => None | x :: l' => Some (fold_left Z.min l' x) end.

(** What a newly committed id looked like before. *)
Abbreviation Undo := (string * option InFlightEvent * option Z)%type.

Section ledger.
Context {MI : MapIter string}.

Definition waiting (l : WakeLedger) (pending : list Event) : list Event :=
  filter (λ ev, ev_id ev ∉ committed l) pending.

Definition caught_up (l : WakeLedger) (now : Z) : Z :=
  if (now <? settle_until l)%Z then baseline l
  else Z.max (default (baseline l) (newest_received l)) (baseline l).

Definition unhandled_times (l : WakeLedger) (pending : list Event) : list Z :=
  map ev_created_at (waiting l pending) ++ (map_iter (released l)).*2
    ++ map ie_created_at (map_iter (in_flight l)).*2.

Definition snapshot (pending : list Event) (now : Z) (l : WakeLedger) : LedgerFile :=
  let pending_ids := map ev_id (waiting l pending) in
  let up := caught_up l now in
  let floor := Z.max (match list_min (unhandled_times l pending) with
                      | Some lowest => Z.min lowest up
                      | None => up
                      end) (evicted_floor l) in
  MkFile FILE_VERSION (relay_url l) (agent_pubkey l) floor (evicted_floor l)
    (filter (λ e, he_id e ∉ pending_ids ∧ in_flight l !! he_id e = None) (handled l))
    (merge_sort in_flight_le (map_iter (in_flight l)).*2)
    (abandoned l).

Definition write_snapshot (disk_ok : bool) (pending : list Event) (now : Z) (l : WakeLedger)
    : SyncOutcome * WakeLedger :=
  let file := snapshot pending now l in
  if bool_decide (written l = Some file) then (Unchanged, set_disk (written l) None l)
  else if disk_ok then (Written, set_disk (Some file) None l)
  else (Failed, set_disk (written l) (Some (u64_saturating_add now WRITE_RETRY_SECS)) l).

Definition sync (disk_ok : bool) (pending : list Event) (now : Z) (l : WakeLedger)
    : SyncOutcome * WakeLedger :=
  if match retry_at l with Some t => (now <? t)%Z | None => false end then (Deferred, l)
  else write_snapshot disk_ok pending now l.

Definition write_failed (l : WakeLedger) : bool := bool_decide (is_Some (retry_at l)).

Definition ledger_retry_delay (now : Z) (l : WakeLedger) : option Z :=
  match retry_at l with
  | Some t => if (now <? t)%Z then Some (t - now)%Z else None
  | None => None
  end.

(** ** Commit before a turn *)

Definition commit_one (now : Z) (acc : WakeLedger * list Undo) (ev : Event)
    : WakeLedger * list Undo :=
  let '(l, newly) := acc in
  let id := ev_id ev in
  let l := remember (MkHandled id (ev_created_at ev)) l in
  if bool_decide (id ∈ committed l) then (l, newly)
  else
    let l := set_seen (handled l) (handled_ids l) ({[id]} ∪ committed l) (evicted_floor l) l in
    let c := carried l !! id in
    let previous := in_flight l !! id in
    let restarts := match c with
                    | Some r => r
                    | None => match previous with Some e => ie_restarts e | None => 0%Z end
                    end in
    let l := set_flight (released l)
               (<[id := MkInFlight id (ev_created_at ev) restarts now]> (in_flight l))
               (delete id (carried l)) l in
    (l, newly ++ [(id, previous, c)]).

Definition rollback_one (l : WakeLedger) (u : Undo) : WakeLedger :=
  let '(id, previous, c) := u in
  let l := set_seen (handled l) (handled_ids l) (committed l ∖ {[id]}) (evicted_floor l) l in
  set_flight (released l)
    (match previous with
     | Some entry => <[id := entry]> (in_flight l)
     | None => delete id (in_flight l)
     end)
    (match c with Some restarts => <[id := restarts]> (carried l) | None => carried l end) l.

Definition commit (disk_ok : bool) (events pending : list Event) (now : Z) (l : WakeLedger)
    : SyncOutcome * WakeLedger :=
  let '(l, newly) := fold_left (commit_one now) events (l, []) in
  let '(outcome, l) := sync disk_ok pending now l in
  (outcome, if is_saved outcome then l else fold_left rollback_one newly l).

(** ** Turns *)

Definition push_missing (existing : list string) (id : string) : list string :=
  if bool_decide (id ∈ existing) then existing else existing ++ [id].

Fixpoint extend_turn (turn_id : string) (ids : list string) (ts : list (string * list string))
    : option (list (string * list string)) :=
  match ts with
  | [] => None
  | (t, existing) :: ts =>
      if bool_decide (t = turn_id) then Some ((t, fold_left push_missing ids existing) :: ts)
      else cons (t, existing) <$> extend_turn turn_id ids ts
  end.

Definition attach_to_turn (turn_id : string) (ids : list string) (l : WakeLedger) : WakeLedger :=
  match extend_turn turn_id ids (turns l) with
  | Some ts => set_turns ts l
  | None => set_turns (keep_last MAX_TURNS (turns l ++ [(turn_id, ids)])) l
  end.

Definition finish_turn (disk_ok : bool) (turn_id : string) (answered : bool)
    (pending : list Event) (now : Z) (l : WakeLedger) : SyncOutcome * WakeLedger :=
  match list_find (λ t : string * list string, t.1 = turn_id) (turns l) with
  | None => sync disk_ok pending now l
  | Some (position, (_, ids)) =>
      let l := set_turns (delete position (turns l)) l in
      let l := if answered then
                 set_flight (released l) (fold_left (λ m id, delete id m) ids (in_flight l))
                   (carried l) l
               else l in
      sync disk_ok pending now l
  end.

Definition take_stopped_event (event_id : string) (l : WakeLedger) : bool * WakeLedger :=
  let after := filter (λ e, he_id e ≠ event_id) (stopped l) in
  (bool_decide (length after ≠ length (stopped l)), set_given_up (abandoned l) after l).

Definition is_redelivery (event_id : string) (l : WakeLedger) : bool :=
  bool_decide (is_Some (carried l !! event_id)).

Definition settle_answered (disk_ok : bool) (event_id : string) (pending : list Event) (now : Z)
    (l : WakeLedger) : SyncOutcome * WakeLedger :=
  sync disk_ok pending now
    (set_flight (released l) (delete event_id (in_flight l)) (delete event_id (carried l)) l).

(** ** Try again *)

Definition reopen_one (l : WakeLedger) (r : string * Z * Z) : WakeLedger :=
  let '(id, created_at, restarts) := r in
  let l := set_seen (filter (λ e, he_id e ≠ id) (handled l)) (handled_ids l ∖ {[id]})
             (committed l) (evicted_floor l) l in
  let l := set_given_up (abandoned l) (filter (λ e, he_id e ≠ id) (stopped l)) l in
  set_flight (<[id := created_at]> (released l)) (in_flight l) (<[id := restarts]> (carried l)) l.

Definition paused_entries (floor : Z) (l : WakeLedger) : list InFlightEvent :=
  filter (λ e, (floor ≤ ie_created_at e)%Z ∧ ie_id e ∈ handled_ids l ∧ ie_id e ∉ committed l)
    (map_iter (in_flight l)).*2.

Definition reopen_for_retry (floor : Z) (l : WakeLedger) : nat * WakeLedger :=
  let given_up := filter (λ e, (floor ≤ he_created_at e)%Z) (abandoned l) in
  let kept := filter (λ e, ¬ (floor ≤ he_created_at e)%Z) (abandoned l) in
  let paused := paused_entries floor l in
  let reopened :=
    map (λ e, (he_id e, he_created_at e, 0%Z)) given_up ++
    map (λ e, (ie_id e, ie_created_at e,
               (Z.min (ie_restarts e) (MAX_REDELIVERIES - 1) + 1)%Z)) paused in
  let l := set_given_up kept (stopped l) l in
  let l := set_flight (released l)
             (fold_left (λ m e, delete (ie_id e) m) paused (in_flight l)) (carried l) l in
  let l := match list_min (map (λ r : string * Z * Z, r.1.2) reopened) with
           | None => l
           | Some lowest =>
               let since := Z.max (match catch_up_since l with
                                   | Some s => Z.min s lowest
                                   | None => lowest
                                   end) (evicted_floor l) in
               set_window (Some since) (Z.min (baseline l) since) l
           end in
  (length reopened, fold_left reopen_one reopened l).

(** ** Handing events back *)

Definition forget_one (ids : list string) (acc : WakeLedger * list HandledEvent)
    (entry : HandledEvent) : WakeLedger * list HandledEvent :=
  let '(l, kept) := acc in
  if bool_decide (he_id entry ∈ ids) then
    let l := set_seen (handled l) (handled_ids l ∖ {[he_id entry]})
               (committed l ∖ {[he_id entry]}) (evicted_floor l) l in
    (set_flight (<[he_id entry := he_created_at entry]> (released l))
       (delete (he_id entry) (in_flight l)) (carried l) l, kept)
  else (l, kept ++ [entry]).

Definition forget_events (disk_ok : bool) (ids : list string) (pending : list Event) (now : Z)
    (l : WakeLedger) : SyncOutcome * WakeLedger :=
  let '(l', kept) := fold_left (forget_one ids) (handled l) (l, []) in
  write_snapshot disk_ok pending now
    (set_seen kept (handled_ids l') (committed l') (evicted_floor l') l').
End ledger.

Local Open Scope nat_scope.

(** ** Exclusion: what keeps an event from running twice *)

(** The event [id] created at [c] will not be delivered again: it is still
    remembered, or the replay window starts after it. *)
Definition evicted_past (l : WakeLedger) (c : Z) : Prop :=
  (u64_saturating_add c (SINCE_SKEW_SECS + 1) ≤ evicted_floor l)%Z.

Definition excluded (l : WakeLedger) (id : string) (c : Z) : Prop :=
  MkHandled id c ∈ handled l ∨ evicted_past l c.

(** The handled list and the set of its ids agree. *)
Definition seen_wf (l : WakeLedger) : Prop :=
  handled_ids l = list_to_set (map he_id (handled l)) ∧ NoDup (map he_id (handled l)).

Record ledger_wf (l : WakeLedger) : Prop := {
  wf_seen : seen_wf l;
  wf_bound : length (handled l) ≤ MAX_HANDLED;
  wf_in_flight : ∀ k e, in_flight l !! k = Some e → ie_id e = k ∧ (ie_restarts e ≤ MAX_REDELIVERIES)%Z;
  wf_carried : ∀ k n, carried l !! k = Some n → (n ≤ MAX_REDELIVERIES)%Z;
  wf_turns : length (turns l) ≤ MAX_TURNS;
}.

(** [l'] differs from [l] in what is remembered only, and excludes no less. *)
Record seen_frame (l l' : WakeLedger) : Prop := {
  sf_frame : l' = set_seen (handled l') (handled_ids l') (committed l') (evicted_floor l') l;
  sf_floor : (evicted_floor l ≤ evicted_floor l')%Z;
  sf_committed : committed l' ⊆ committed l;
  sf_excluded : ∀ id c, excluded l id c → excluded l' id c;
}.

Lemma seen_frame_refl l : seen_frame l l.
Proof. split; [by destruct l|lia|done|done]. Qed.

Lemma seen_frame_trans l1 l2 l3 : seen_frame l1 l2 → seen_frame l2 l3 → seen_frame l1 l3.
Proof.
  intros [F1 L1 C1 X1] [F2 L2 C2 X2]. split.
  - rewrite F2, F1. by destruct l1.
  - lia.
  - set_solver.
  - auto.
Qed.

Lemma elem_of_handled_ids l id : seen_wf l → id ∈ handled_ids l ↔ ∃ c, MkHandled id c ∈ handled l.
Proof.
  intros [-> _]. rewrite elem_of_list_to_set, list_elem_of_In, in_map_iff. split.
  - intros ([i c] & <- & Hin%list_elem_of_In). eauto.
  - intros [c Hc%list_elem_of_In]. by exists (MkHandled id c).
Qed.

(** Forgetting the oldest id. *)
Definition evict_step (l : WakeLedger) (evicted : HandledEvent) (rest : list HandledEvent)
    : WakeLedger :=
  set_seen rest (handled_ids l ∖ {[he_id evicted]}) (committed l ∖ {[he_id evicted]})
    (Z.max (evicted_floor l) (u64_saturating_add (he_created_at evicted) (SINCE_SKEW_SECS + 1))) l.

Lemma evict_step_frame l e rest : handled l = e :: rest → seen_frame l (evict_step l e rest).
Proof.
  intros Hl. split; simpl; [done|lia|set_solver|].
  intros id c [Hin|Hpast]; unfold excluded, evicted_past in *; simpl in *.
  - rewrite Hl in Hin. apply elem_of_cons in Hin as [<-|Hin]; [right; simpl; lia|by left].
  - right. lia.
Qed.

Lemma evict_step_seen l e rest : handled l = e :: rest → seen_wf l → seen_wf (evict_step l e rest).
Proof.
  intros Hl [Hids Hnd]. rewrite Hl in *. simpl in *. apply NoDup_cons in Hnd as [He Hnd].
  split; simpl; [|done]. rewrite Hids.
  assert (he_id e ∉ (list_to_set (map he_id rest) : gset string))
    by by rewrite elem_of_list_to_set.
  set_solver.
Qed.

Lemma evict_loop_spec fuel l :
  seen_wf l → length (handled l) ≤ fuel →
  let l' := evict_loop fuel l in
  seen_frame l l' ∧ seen_wf l' ∧
  handled l' = drop (length (handled l) - MAX_HANDLED) (handled l).
Proof.
  revert l. induction fuel as [|fuel IH]; intros l Hwf Hfuel; cbn [evict_loop];
    destruct (Nat.ltb_spec MAX_HANDLED (length (handled l))) as [Hlt|Hge]; try lia;
    try (split_and!; [apply seen_frame_refl|done|];
         replace (length (handled l) - MAX_HANDLED) with 0 by lia; done).
  destruct (handled l) as [|e rest] eqn:Hl; [simpl in Hlt; lia|].
  fold (evict_step l e rest). simpl in Hfuel, Hlt.
  destruct (IH (evict_step l e rest)) as (Hf & Hw & Hh); [by apply evict_step_seen|simpl; lia|].
  simpl in Hh. split_and!; [|done|].
  - eapply seen_frame_trans; [by apply evict_step_frame|done].
  - rewrite Hh. cbn [length]. replace (S (length rest) - MAX_HANDLED)
      with (S (length rest - MAX_HANDLED)) by lia. done.
Qed.

Lemma remember_spec entry l :
  seen_wf l →
  let l' := remember entry l in
  seen_frame l l' ∧ seen_wf l' ∧
  (length (handled l) ≤ MAX_HANDLED → length (handled l') ≤ MAX_HANDLED) ∧
  he_id entry ∈ handled_ids l' ∧
  (he_id entry ∉ handled_ids l → excluded l' (he_id entry) (he_created_at entry)) ∧
  (∀ e, e ∈ handled l' → e ∈ handled l ∨ e = entry ∧ he_id entry ∉ handled_ids l).
Proof.
  intros Hwf. cbv zeta. unfold remember. case_bool_decide as Hin.
  { split_and!; try done; [apply seen_frame_refl|auto]. }
  cbv zeta. set (l1 := set_seen _ _ _ _ l).
  assert (seen_wf l1) as Hwf1.
  { destruct Hwf as [Hids Hnd]. split; simpl; rewrite map_app; simpl.
    - rewrite list_to_set_app_L, Hids. simpl. set_solver.
    - apply NoDup_app. split_and!; [done| |repeat constructor; set_solver].
      intros x Hx ->%list_elem_of_singleton. apply Hin. rewrite Hids. by apply elem_of_list_to_set. }
  assert (seen_frame l l1) as Hf1.
  { split; simpl; [done|lia|done|]. intros id c [Hx|Hx]; [left; set_solver|by right]. }
  destruct (evict_loop_spec (length (handled l1)) l1 Hwf1 ltac:(lia)) as (Hf & Hw & Hh).
  fold (handled l1). set (l' := evict_loop _ l1) in *.
  change (handled l1) with (handled l ++ [entry]) in Hh. rewrite length_app in Hh. simpl in Hh.
  assert (entry ∈ handled l') as Hlast.
  { rewrite Hh, drop_app_le by (unfold MAX_HANDLED; lia). set_solver. }
  split_and!; try done.
  - by eapply seen_frame_trans.
  - intros _. rewrite Hh, length_drop, length_app. simpl. lia.
  - apply elem_of_handled_ids; [done|]. exists (he_created_at entry). by destruct entry.
  - intros _. left. by destruct entry.
  - intros e He. rewrite Hh in He. apply subseteq_drop in He. set_solver.
Qed.

Lemma seen_frame_fields l l' :
  seen_frame l l' →
  in_flight l' = in_flight l ∧ carried l' = carried l ∧ released l' = released l ∧
  turns l' = turns l ∧ catch_up_since l' = catch_up_since l ∧ abandoned l' = abandoned l ∧
  stopped l' = stopped l ∧ written l' = written l ∧ retry_at l' = retry_at l ∧
  relay_url l' = relay_url l ∧ agent_pubkey l' = agent_pubkey l ∧ live_cutoff l' = live_cutoff l.
Proof. intros [-> _ _ _]. done. Qed.

Lemma remember_wf entry l : ledger_wf l → ledger_wf (remember entry l).
Proof.
  intros [Hs Hb Hf Hc Ht].
  destruct (remember_spec entry l Hs) as (Hfr & Hs' & Hb' & _).
  destruct (seen_frame_fields _ _ Hfr) as (E1 & E2 & E3 & E4 & _).
  split; rewrite ?E1, ?E2, ?E4; auto.
Qed.

(** ** Commit and rollback *)

Definition undo_id (u : Undo) : string := u.1.1.

Definition restarts_of (l : WakeLedger) (id : string) : Z :=
  match carried l !! id with
  | Some r => r
  | None => match in_flight l !! id with Some e => ie_restarts e | None => 0%Z end
  end.

Definition commit_entry (now : Z) (l : WakeLedger) (ev : Event) : InFlightEvent :=
  MkInFlight (ev_id ev) (ev_created_at ev) (restarts_of l (ev_id ev)) now.

Record commit_inv (now : Z) (l0 : WakeLedger) (evs : list Event) (l : WakeLedger)
    (newly : list Undo) : Prop := {
  ci_base : ledger_wf l0;
  ci_wf : ledger_wf l;
  ci_excluded : ∀ id c, excluded l0 id c → excluded l id c;
  ci_committed : committed l ⊆ committed l0 ∪ list_to_set (map undo_id newly);
  ci_nodup : NoDup (map undo_id newly);
  ci_ids : ∀ id, id ∈ map undo_id newly → id ∈ map ev_id evs;
  ci_undo : ∀ id p c, (id, p, c) ∈ newly →
    p = in_flight l0 !! id ∧ c = carried l0 !! id ∧ carried l !! id = None;
  ci_other : ∀ k, k ∉ map undo_id newly →
    in_flight l !! k = in_flight l0 !! k ∧ carried l !! k = carried l0 !! k;
  ci_new : ∀ ev, ev ∈ evs → ev_id ev ∉ committed l0 →
    in_flight l !! ev_id ev = Some (commit_entry now l0 ev);
  ci_frame : written l = written l0 ∧ released l = released l0 ∧ turns l = turns l0 ∧
    abandoned l = abandoned l0 ∧ stopped l = stopped l0 ∧ retry_at l = retry_at l0 ∧
    catch_up_since l = catch_up_since l0;
}.

Lemma restarts_of_bound l id : ledger_wf l → (restarts_of l id ≤ MAX_REDELIVERIES)%Z.
Proof.
  intros Hwf. unfold restarts_of. destruct (carried l !! id) eqn:Ec; [by eapply wf_carried|].
  destruct (in_flight l !! id) as [e|] eqn:Ef; [|unfold MAX_REDELIVERIES; lia].
  by destruct (wf_in_flight _ Hwf _ _ Ef).
Qed.

Lemma commit_inv_nil now l : ledger_wf l → commit_inv now l [] l [].
Proof. intros Hwf. split; simpl; try done; try set_solver. constructor. Qed.

Lemma undo_id_in id p c (us : list Undo) : (id, p, c) ∈ us → id ∈ map undo_id us.
Proof. rewrite !list_elem_of_In, in_map_iff. intros H. by exists (id, p, c). Qed.

Lemma commit_step now l0 evs l newly ev :
  commit_inv now l0 evs l newly → ev_id ev ∉ map ev_id evs →
  let '(l', newly') := commit_one now (l, newly) ev in
  commit_inv now l0 (evs ++ [ev]) l' newly'.
Proof.
  intros H Hev. unfold commit_one. set (h := MkHandled (ev_id ev) (ev_created_at ev)).
  destruct (remember_spec h l (wf_seen _ (ci_wf _ _ _ _ _ H))) as (Hfr & _).
  pose proof (remember_wf h l (ci_wf _ _ _ _ _ H)) as Hwf.
  destruct (seen_frame_fields _ _ Hfr) as (E1 & E2 & E3 & E4 & E5 & E6 & E7 & E8 & E9 & _).
  pose proof (sf_committed _ _ Hfr) as Hco. pose proof (sf_excluded _ _ Hfr) as Hex.
  set (l1 := remember h l) in *. clearbody l1. destruct H as [Hbase _ He Hc Hn Hi Hu Ho Hnew Hf].
  assert (ev_id ev ∉ map undo_id newly) as Hfresh by (intros Hx; by apply Hev, Hi).
  destruct (Ho _ Hfresh) as [Ho1 Ho2].
  assert (∀ e, e ∈ evs → ev_id e ≠ ev_id ev) as Hdiff.
  { intros e Hin Heq. apply Hev. rewrite <-Heq. apply list_elem_of_In, in_map, list_elem_of_In, Hin. }
  case_bool_decide as Hin.
  - split; rewrite ?E1, ?E2; auto.
    + set_solver.
    + intros id Hid. rewrite map_app. apply elem_of_app. left. by apply Hi.
    + intros e [Hev'| ->%list_elem_of_singleton]%elem_of_app Hnc; [auto|]. exfalso.
      apply Hco, Hc, elem_of_union in Hin as [?|?%elem_of_list_to_set]; done.
    + rewrite E3, E4, E5, E6, E7, E8, E9. done.
  - cbv zeta. change (in_flight (set_seen ?a ?b ?c ?d ?x)) with (in_flight x).
    change (carried (set_seen ?a ?b ?c ?d ?x)) with (carried x).
    rewrite E1, E2, Ho1, Ho2. split; simpl; rewrite ?E1, ?E2.
    + exact Hbase.
    + destruct Hwf as [Hs Hb Hwf3 Hwf4 Ht]. split; try done; simpl; rewrite ?E1, ?E2.
      * intros k e. rewrite lookup_insert. case_decide as Hk.
        -- intros [= <-]. simpl. split; [done|].
           subst k. exact (restarts_of_bound l0 (ev_id ev) Hbase).
        -- rewrite E1 in Hwf3. apply Hwf3.
      * intros k n [_ Hk]%lookup_delete_Some. rewrite E2 in Hwf4. eauto.
    + intros id c Hx. apply He, Hex in Hx. exact Hx.
    + rewrite map_app, list_to_set_app_L. simpl. clear -Hco Hc. set_solver.
    + rewrite map_app. apply NoDup_app. split_and!; [done| |repeat constructor; set_solver].
      intros x Hx ->%list_elem_of_singleton. done.
    + intros id. rewrite !map_app. unfold undo_id at 2. simpl. set_solver.
    + intros id p c [Hx|Hx]%elem_of_app.
      * destruct (Hu _ _ _ Hx) as (-> & -> & Hnone). split_and!; try done.
        rewrite lookup_delete_ne; [done|]. intros <-. by eapply Hfresh, undo_id_in.
      * apply list_elem_of_singleton in Hx. simplify_eq. split_and!; try done. apply lookup_delete_eq.
    + intros k Hk. rewrite map_app in Hk. unfold undo_id at 2 in Hk. simpl in Hk.
      rewrite lookup_insert_ne, lookup_delete_ne by set_solver. apply Ho. set_solver.
    + intros e [Hin'| ->%list_elem_of_singleton]%elem_of_app Hnc.
      * rewrite lookup_insert_ne by (intros Heq; by eapply Hdiff). auto.
      * by rewrite lookup_insert_eq.
    + rewrite E3, E4, E5, E6, E7, E8, E9. done.
Qed.

Lemma commit_fold now l0 evs : ∀ done l newly,
  commit_inv now l0 done l newly → NoDup (map ev_id (done ++ evs)) →
  let '(l', newly') := fold_left (commit_one now) evs (l, newly) in
  commit_inv now l0 (done ++ evs) l' newly'.
Proof.
  induction evs as [|ev evs IH]; intros done l newly H Hnd; [by rewrite app_nil_r|].
  cbn [fold_left]. assert (ev_id ev ∉ map ev_id done) as Hev.
  { rewrite map_app in Hnd. apply NoDup_app in Hnd as (_ & Hd & _). intros Hin.
    by eapply Hd; [|left]. }
  pose proof (commit_step now l0 done l newly ev H Hev) as Hs.
  destruct (commit_one now (l, newly) ev) as [l1 newly1].
  replace (done ++ ev :: evs) with ((done ++ [ev]) ++ evs) in * by by rewrite <-app_assoc.
  by apply IH.
Qed.

Lemma rollback_spec us l :
  NoDup (map undo_id us) →
  let l' := fold_left rollback_one us l in
  (∀ id p c, (id, p, c) ∈ us → in_flight l' !! id = p ∧
     carried l' !! id = match c with Some r => Some r | None => carried l !! id end) ∧
  (∀ k, k ∉ map undo_id us →
     in_flight l' !! k = in_flight l !! k ∧ carried l' !! k = carried l !! k) ∧
  committed l' = committed l ∖ list_to_set (map undo_id us) ∧
  handled l' = handled l ∧ handled_ids l' = handled_ids l ∧ evicted_floor l' = evicted_floor l ∧
  released l' = released l ∧ turns l' = turns l ∧ written l' = written l ∧
  abandoned l' = abandoned l ∧ stopped l' = stopped l ∧ catch_up_since l' = catch_up_since l.
Proof.
  revert l. induction us as [|[[id p] c] us IH]; intros l Hnd; cbn [fold_left].
  - split_and!; try done; [by intros ??? []%not_elem_of_nil|]. simpl. set_solver.
  - cbn [map] in Hnd. apply NoDup_cons in Hnd as [Hid Hnd].
    change (undo_id (id, p, c)) with id in *.
    set (l1 := rollback_one l (id, p, c)).
    assert (in_flight l1 = match p with Some e => <[id := e]> (in_flight l)
                                      | None => delete id (in_flight l) end) as F1 by done.
    assert (carried l1 = match c with Some r => <[id := r]> (carried l)
                                    | None => carried l end) as F2 by done.
    assert (committed l1 = committed l ∖ {[id]}) as F3 by done.
    destruct (IH l1 Hnd) as (Hin & Hout & Hco & Hrest).
    destruct (Hout id Hid) as [Hf Hc]. split_and!; try apply Hrest.
    + intros id' p' c' [Heq|Hx]%elem_of_cons.
      * injection Heq as -> -> ->. rewrite Hf, Hc, F1, F2. split.
        -- destruct p; [apply lookup_insert_eq|apply lookup_delete_eq].
        -- destruct c; [apply lookup_insert_eq|done].
      * destruct (Hin _ _ _ Hx) as [-> ->]. split; [done|]. destruct c'; [done|].
        rewrite F2. destruct c; [|done]. apply lookup_insert_ne.
        intros <-. by eapply Hid, undo_id_in.
    + intros k Hk. cbn [map] in Hk. change (undo_id (id, p, c)) with id in Hk.
      apply not_elem_of_cons in Hk as [Hne Hk].
      destruct (Hout k Hk) as [-> ->]. rewrite F1, F2. split; [destruct p|destruct c];
        by rewrite ?lookup_insert_ne, ?lookup_delete_ne.
    + rewrite Hco, F3. cbn [map list_to_set]. change (undo_id (id, p, c)) with id.
      clear. set_solver.
Qed.

(** ** The other operations keep the invariant *)

Lemma delete_fold_lookup {A B} (f : B → string) (bs : list B) (m : gmap string A) k :
  fold_left (λ m b, delete (f b) m) bs m !! k =
  if decide (k ∈ map f bs) then None else m !! k.
Proof.
  revert m. induction bs as [|b bs IH]; intros m; [done|]. cbn [fold_left map]. rewrite IH.
  destruct (decide (k = f b)) as [->|Hne].
  - rewrite lookup_delete_eq. repeat case_decide; set_solver.
  - rewrite lookup_delete_ne by done. repeat case_decide; set_solver.
Qed.

Lemma set_flight_wf l r f c :
  ledger_wf l →
  (∀ k e, f !! k = Some e → ie_id e = k ∧ (ie_restarts e ≤ MAX_REDELIVERIES)%Z) →
  (∀ k n, c !! k = Some n → (n ≤ MAX_REDELIVERIES)%Z) →
  ledger_wf (set_flight r f c l).
Proof. intros [] ??. by split. Qed.

Lemma set_turns_wf l t : ledger_wf l → length t ≤ MAX_TURNS → ledger_wf (set_turns t l).
Proof. intros [] ?. by split. Qed.

Lemma set_disk_wf l w r : ledger_wf l → ledger_wf (set_disk w r l).
Proof. intros []. by split. Qed.

Lemma set_given_up_wf l a st : ledger_wf l → ledger_wf (set_given_up a st l).
Proof. intros []. by split. Qed.

Lemma set_window_wf l s b : ledger_wf l → ledger_wf (set_window s b l).
Proof. intros []. by split. Qed.

Lemma admit_wf ev now l : ledger_wf l → ledger_wf (admit_event ev now l).2.
Proof.
  intros Hwf. unfold admit_event. cbv zeta. case_bool_decide; cbn [snd].
  - by destruct Hwf.
  - apply remember_wf. by destruct Hwf.
Qed.

Lemma extend_turn_length t ids ts ts' : extend_turn t ids ts = Some ts' → length ts' = length ts.
Proof.
  revert ts'. induction ts as [|[t0 ex] ts IH]; intros ts'; simpl; [done|].
  case_bool_decide; [by intros [= <-]|]. intros (ts1 & H1 & ->)%fmap_Some. simpl. f_equal. auto.
Qed.

Lemma attach_wf t ids l : ledger_wf l → ledger_wf (attach_to_turn t ids l).
Proof.
  intros Hwf. unfold attach_to_turn. destruct (extend_turn _ _ _) as [ts|] eqn:E.
  - apply set_turns_wf; [done|]. rewrite (extend_turn_length _ _ _ _ E). apply Hwf.
  - apply set_turns_wf; [done|]. unfold keep_last. rewrite length_drop. lia.
Qed.

(** Dropping one id from what is remembered. *)
Lemma forget_id_seen l id :
  seen_wf l →
  seen_wf (set_seen (filter (λ e, he_id e ≠ id) (handled l)) (handled_ids l ∖ {[id]})
             (committed l) (evicted_floor l) l).
Proof.
  intros [Hids Hnd]. split; simpl.
  - apply set_eq. intros x. rewrite elem_of_difference, Hids, !elem_of_list_to_set, not_elem_of_singleton.
    rewrite !list_elem_of_In, !in_map_iff. setoid_rewrite <-list_elem_of_In.
    setoid_rewrite list_elem_of_filter. naive_solver.
  - change (filter _ (handled l)) with (filter (λ e, he_id e ≠ id) (handled l)).
    clear Hids. induction (handled l) as [|e h IH]; [constructor|].
    cbn [map] in Hnd. apply NoDup_cons in Hnd as [He Hnd]. rewrite filter_cons.
    case_decide; [|by apply IH]. cbn [map]. apply NoDup_cons. split; [|by apply IH].
    intros Hin. apply He. rewrite list_elem_of_In, in_map_iff in *.
    destruct Hin as (e' & <- & Hin%list_elem_of_In). apply list_elem_of_filter in Hin as [_ Hin].
    exists e'. by rewrite <-list_elem_of_In.
Qed.

Lemma reopen_one_wf l id c n :
  ledger_wf l → (n ≤ MAX_REDELIVERIES)%Z → ledger_wf (reopen_one l (id, c, n)).
Proof.
  intros [Hs Hb Hf Hc Ht] Hn. unfold reopen_one. split; simpl.
  - apply (forget_id_seen l id Hs).
  - etransitivity; [apply length_filter|done].
  - done.
  - intros k m. rewrite lookup_insert. case_decide; [by intros [= <-]|apply Hc].
  - done.
Qed.

Lemma reopen_fold_wf rs l :
  ledger_wf l → (∀ r, r ∈ rs → (r.2 ≤ MAX_REDELIVERIES)%Z) →
  ledger_wf (fold_left reopen_one rs l).
Proof.
  revert l. induction rs as [|[[id c] n] rs IH]; intros l Hwf Hrs; [done|]. cbn [fold_left].
  apply IH; [|set_solver]. apply reopen_one_wf; [done|]. by apply (Hrs (id, c, n)); left.
Qed.

(** What [forget_events] does to the list, id by id. *)
Lemma forget_fold ids es l kept :
  let '(l', kept') := fold_left (forget_one ids) es (l, kept) in
  kept' = kept ++ filter (λ e, he_id e ∉ ids) es ∧
  handled_ids l' = handled_ids l ∖ list_to_set (map he_id (filter (λ e, he_id e ∈ ids) es)) ∧
  evicted_floor l' = evicted_floor l ∧ turns l' = turns l ∧ carried l' = carried l ∧
  (∀ k, in_flight l' !! k = in_flight l !! k ∨ in_flight l' !! k = None).
Proof.
  revert l kept. induction es as [|e es IH]; intros l kept.
  - cbn. rewrite app_nil_r. split_and!; try done; [set_solver|by left].
  - cbn [fold_left]. unfold forget_one at 2. rewrite !filter_cons. case_bool_decide as Hin.
    + match goal with |- context [fold_left _ _ (?x, _)] => set (l1 := x) end.
      specialize (IH l1 kept). destruct (fold_left _ es (l1, kept)) as [l' kept'].
      destruct IH as (-> & Hids & He & Ht & Hc & Hf). rewrite decide_False by tauto.
      rewrite decide_True by done. split_and!; try done.
      * rewrite Hids. simpl. set_solver.
      * intros k. destruct (Hf k) as [-> | ->]; [|by right]. simpl.
        destruct (decide (k = he_id e)) as [->|]; [right; apply lookup_delete_eq|left; by apply lookup_delete_ne].
    + specialize (IH l (kept ++ [e])). destruct (fold_left _ es (l, kept ++ [e])) as [l' kept'].
      destruct IH as (-> & Hids & Hrest). rewrite decide_True by done. rewrite decide_False by done.
      split_and!; try tauto. by rewrite <-app_assoc.
Qed.

Lemma keep_others_seen l (ids : list string) :
  seen_wf l →
  seen_wf (set_seen (filter (λ e, he_id e ∉ ids) (handled l))
    (handled_ids l ∖ list_to_set (map he_id (filter (λ e, he_id e ∈ ids) (handled l))))
    (committed l) (evicted_floor l) l).
Proof.
  intros [Hids Hnd]. split; simpl.
  - apply set_eq. intros x. rewrite elem_of_difference, Hids, !elem_of_list_to_set.
    rewrite !list_elem_of_In, !in_map_iff. setoid_rewrite <-list_elem_of_In.
    setoid_rewrite list_elem_of_filter. split.
    + intros [(e & <- & He) Hn]. exists e. split; [done|]. split; [|done]. intros Hi.
      apply Hn. eauto.
    + intros (e & <- & Hn & He). split; [eauto|]. intros (e' & Heq & Hi & _). congruence.
  - clear Hids. induction (handled l) as [|e h IH]; [constructor|].
    cbn [map] in Hnd. apply NoDup_cons in Hnd as [He Hnd]. rewrite filter_cons.
    case_decide; [|by apply IH]. cbn [map]. apply NoDup_cons. split; [|by apply IH].
    intros Hin. apply He. rewrite list_elem_of_In, in_map_iff in *.
    destruct Hin as (e' & <- & Hin%list_elem_of_In). apply list_elem_of_filter in Hin as [_ Hin].
    exists e'. by rewrite <-list_elem_of_In.
Qed.

Section properties.
Context {MI : MapIter string}.

Lemma write_snapshot_spec ok pending now l :
  let '(o, l') := write_snapshot ok pending now l in
  l' = set_disk (written l') (retry_at l') l ∧
  (if is_saved o then written l' = Some (snapshot pending now l) else written l' = written l).
Proof.
  unfold write_snapshot. cbv zeta. case_bool_decide as Hw; [by split|].
  by destruct ok.
Qed.

Lemma sync_spec ok pending now l :
  let '(o, l') := sync ok pending now l in
  l' = set_disk (written l') (retry_at l') l ∧
  (if is_saved o then written l' = Some (snapshot pending now l) else written l' = written l).
Proof.
  unfold sync. destruct (match retry_at l with Some t => (now <? t)%Z | None => false end).
  - by destruct l.
  - apply write_snapshot_spec.
Qed.

Lemma snapshot_in_flight pending now l e :
  e ∈ lf_in_flight (snapshot pending now l) ↔ ∃ k, in_flight l !! k = Some e.
Proof.
  simpl. rewrite merge_sort_Permutation, list_elem_of_fmap. split.
  - intros ([k x] & -> & Hin%elem_of_map_iter). eauto.
  - intros [k Hk]. exists (k, e). split; [done|]. by apply elem_of_map_iter.
Qed.

Lemma write_snapshot_wf ok pending now l :
  ledger_wf l → ledger_wf (write_snapshot ok pending now l).2.
Proof.
  intros Hwf. pose proof (write_snapshot_spec ok pending now l) as H.
  destruct (write_snapshot ok pending now l) as [o l']. destruct H as [H _]. simpl. rewrite H.
  by apply set_disk_wf.
Qed.

Lemma sync_wf ok pending now l : ledger_wf l → ledger_wf (sync ok pending now l).2.
Proof.
  intros Hwf. pose proof (sync_spec ok pending now l) as H.
  destruct (sync ok pending now l) as [o l']. destruct H as [H _]. simpl. rewrite H.
  by apply set_disk_wf.
Qed.

Lemma finish_wf ok t a pending now l :
  ledger_wf l → ledger_wf (finish_turn ok t a pending now l).2.
Proof.
  intros Hwf. unfold finish_turn. destruct (list_find _ _) as [[i [t' ids]]|] eqn:E; [|by apply sync_wf].
  apply sync_wf. apply list_find_Some in E as (Hl & _).
  assert (ledger_wf (set_turns (delete i (turns l)) l)) as H1.
  { apply set_turns_wf; [done|]. rewrite length_delete by eauto. pose proof (wf_turns _ Hwf). lia. }
  destruct a; [|done]. apply set_flight_wf; [done| |apply Hwf].
  intros k e. simpl. change (fold_left _ ids (in_flight l))
    with (fold_left (λ m id, delete ((λ x : string, x) id) m) ids (in_flight l)).
  rewrite delete_fold_lookup. case_decide; [done|]. apply (wf_in_flight _ Hwf).
Qed.

Lemma settle_wf ok id pending now l :
  ledger_wf l → ledger_wf (settle_answered ok id pending now l).2.
Proof.
  intros Hwf. apply sync_wf, set_flight_wf; [done|..].
  - intros k e [_ ?]%lookup_delete_Some. by apply Hwf.
  - intros k n [_ ?]%lookup_delete_Some. by eapply wf_carried.
Qed.

Lemma commit_wf ok events pending now l :
  ledger_wf l → NoDup (map ev_id events) → ledger_wf (commit ok events pending now l).2.
Proof.
  intros Hwf Hnd. unfold commit.
  pose proof (commit_fold now l events [] l [] (commit_inv_nil now l Hwf) Hnd) as H.
  destruct (fold_left (commit_one now) events (l, [])) as [l1 newly]. simpl in H.
  pose proof (sync_wf ok pending now l1 (ci_wf _ _ _ _ _ H)) as Hwf2.
  pose proof (sync_spec ok pending now l1) as Hs.
  destruct (sync ok pending now l1) as [o l2]. destruct Hs as [Hl2 _]. cbn [snd] in *.
  destruct (is_saved o); [done|].
  destruct (rollback_spec newly l2 (ci_nodup _ _ _ _ _ H))
    as (R1 & R2 & R3 & R4 & R5 & R6 & R7 & R8 & _).
  destruct Hwf2 as [[Hs1 Hs2] Hb Hf Hc Ht]. split; rewrite ?R4, ?R8; try done.
  - split; by rewrite ?R5, ?R4.
  - intros k e Hk. destruct (decide (k ∈ map undo_id newly)) as [Hin|Hin].
    + apply list_elem_of_In, in_map_iff in Hin as ([[id p] c] & <- & Hin%list_elem_of_In).
      destruct (R1 _ _ _ Hin) as [Hr _], (ci_undo _ _ _ _ _ H _ _ _ Hin) as [Hp _].
      unfold undo_id in *. simpl in *. apply (wf_in_flight _ Hwf). congruence.
    + destruct (R2 k Hin) as [Hr _]. rewrite Hr in Hk. auto.
  - intros k n Hk. destruct (decide (k ∈ map undo_id newly)) as [Hin|Hin].
    + apply list_elem_of_In, in_map_iff in Hin as ([[id p] c] & <- & Hin%list_elem_of_In).
      destruct (R1 _ _ _ Hin) as [_ Hr], (ci_undo _ _ _ _ _ H _ _ _ Hin) as (_ & Hcc & _).
      unfold undo_id in *. simpl in *. rewrite Hr in Hk. destruct c as [r|]; [|by eapply Hc].
      simplify_eq. by eapply wf_carried.
    + destruct (R2 k Hin) as [_ Hr]. rewrite Hr in Hk. eauto.
Qed.

Lemma forget_wf ok ids pending now l :
  ledger_wf l → ledger_wf (forget_events ok ids pending now l).2.
Proof.
  intros [Hs Hb Hf Hc Ht]. unfold forget_events.
  pose proof (forget_fold ids (handled l) l []) as H.
  destruct (fold_left (forget_one ids) (handled l) (l, [])) as [l' kept].
  destruct H as (Hk & Hids & He & Htt & Hcc & Hff). simpl in Hk. apply write_snapshot_wf.
  split; simpl; rewrite ?Htt, ?Hcc; try done.
  - pose proof (keep_others_seen l ids Hs) as [H1 H2]. simpl in H1, H2.
    split; simpl; rewrite ?Hids, ?Hk; done.
  - rewrite Hk. etransitivity; [apply length_filter|done].
  - intros k e Hke. destruct (Hff k) as [Hx|Hx]; rewrite Hx in Hke; [eauto|done].
Qed.

Lemma reopen_wf floor l : ledger_wf l → ledger_wf (reopen_for_retry floor l).2.
Proof.
  intros Hwf. unfold reopen_for_retry. cbv zeta. cbn [snd]. apply reopen_fold_wf.
  - set (l2 := set_flight _ _ _ _).
    assert (ledger_wf l2) as H2.
    { apply set_flight_wf; [by apply set_given_up_wf| |apply Hwf]. intros k e. simpl.
      rewrite delete_fold_lookup. case_decide; [done|]. apply (wf_in_flight _ Hwf). }
    clearbody l2. case_match; [by apply set_window_wf|done].
  - intros [[id c] n] Hin. apply elem_of_app in Hin as [Hin|Hin];
      apply list_elem_of_In, in_map_iff in Hin as (e & [= <- <- <-] & _); simpl;
      unfold MAX_REDELIVERIES; lia.
Qed.

(** One call of a mutating method; batches name distinct events. *)
Inductive ledger_op : Type :=
  | OpAdmit (ev : Event) (now : Z)
  | OpCommit (ok : bool) (events pending : list Event) (now : Z)
  | OpAttach (turn : string) (ids : list string)
  | OpFinish (ok : bool) (turn : string) (answered : bool) (pending : list Event) (now : Z)
  | OpTakeStopped (id : string)
  | OpSettle (ok : bool) (id : string) (pending : list Event) (now : Z)
  | OpReopen (floor : Z)
  | OpForget (ok : bool) (ids : list string) (pending : list Event) (now : Z)
  | OpSync (ok : bool) (pending : list Event) (now : Z).

Definition run_op (op : ledger_op) (l : WakeLedger) : WakeLedger :=
  match op with
  | OpAdmit ev now => (admit_event ev now l).2
  | OpCommit ok events pending now => (commit ok events pending now l).2
  | OpAttach turn ids => attach_to_turn turn ids l
  | OpFinish ok turn answered pending now => (finish_turn ok turn answered pending now l).2
  | OpTakeStopped id => (take_stopped_event id l).2
  | OpSettle ok id pending now => (settle_answered ok id pending now l).2
  | OpReopen floor => (reopen_for_retry floor l).2
  | OpForget ok ids pending now => (forget_events ok ids pending now l).2
  | OpSync ok pending now => (sync ok pending now l).2
  end.

Definition op_ok (op : ledger_op) : Prop :=
  match op with OpCommit _ events _ _ => NoDup (map ev_id events) | _ => True end.

(** The operation does not hand the event [id] back for another run. *)
Definition keeps (id : string) (op : ledger_op) : Prop :=
  match op with OpReopen _ => False | OpForget _ ids _ _ => id ∉ ids | _ => True end.

Lemma run_op_wf op l : ledger_wf l → op_ok op → ledger_wf (run_op op l).
Proof.
  intros Hwf Hop. destruct op; simpl.
  - by apply admit_wf.
  - by apply commit_wf.
  - by apply attach_wf.
  - by apply finish_wf.
  - by apply set_given_up_wf.
  - by apply settle_wf.
  - by apply reopen_wf.
  - by apply forget_wf.
  - by apply sync_wf.
Qed.

Lemma excluded_eq l l' id c :
  handled l' = handled l → evicted_floor l' = evicted_floor l →
  excluded l id c → excluded l' id c.
Proof. unfold excluded, evicted_past. by intros -> ->. Qed.

Lemma sync_excluded ok pending now l id c :
  excluded l id c → excluded (sync ok pending now l).2 id c.
Proof.
  pose proof (sync_spec ok pending now l) as H. destruct (sync ok pending now l) as [o l'].
  destruct H as [H _]. simpl. rewrite H. by apply excluded_eq.
Qed.

Lemma admit_excluded ev now l id c :
  seen_wf l → excluded l id c → excluded (admit_event ev now l).2 id c.
Proof.
  intros Hs Hx. unfold admit_event. cbv zeta. case_bool_decide; cbn [snd]; [done|].
  match goal with |- excluded (remember ?h ?x) _ _ =>
    destruct (remember_spec h x Hs) as (Hfr & _); apply (sf_excluded _ _ Hfr) end.
  exact Hx.
Qed.

Lemma commit_spec (ok : bool) (events pending : list Event) (now : Z) (l : WakeLedger)
    (Hwf : ledger_wf l) (Hnd : NoDup (map ev_id events)) :
  let '(o, l') := commit ok events pending now l in
  (∀ id c, excluded l id c → excluded l' id c) ∧
  if is_saved o then
    ∃ f, written l' = Some f ∧
    ∀ ev, ev ∈ events → ev_id ev ∉ committed l →
      in_flight l' !! ev_id ev = Some (commit_entry now l ev) ∧
      commit_entry now l ev ∈ lf_in_flight f ∧
      ∀ c, MkHandled (ev_id ev) c ∉ lf_handled f
  else
    in_flight l' = in_flight l ∧ carried l' = carried l ∧ released l' = released l ∧
    written l' = written l ∧ committed l' ⊆ committed l.
Proof.
  unfold commit.
  pose proof (commit_fold now l events [] l [] (commit_inv_nil now l Hwf) Hnd) as H.
  destruct (fold_left (commit_one now) events (l, [])) as [l1 newly]. simpl in H.
  pose proof (sync_spec ok pending now l1) as Hs.
  destruct (sync ok pending now l1) as [o l2]. destruct Hs as [Hl2 Hw].
  destruct H as [_ _ Hex Hco Hn _ Hu Ho Hnew (Hwr & Hrel & _)]. destruct (is_saved o).
  - split; [rewrite Hl2; exact Hex|]. eexists. split; [exact Hw|]. intros ev Hev Hc.
    assert (in_flight l1 !! ev_id ev = Some (commit_entry now l ev)) as Hfl by auto.
    split_and!; [by rewrite Hl2|apply snapshot_in_flight; by eexists|].
    intros c Hin. simpl in Hin. apply list_elem_of_filter in Hin as [[_ Hnone] _].
    simpl in Hnone. congruence.
  - destruct (rollback_spec newly l2 Hn) as (R1 & R2 & R3 & R4 & R5 & R6 & R7 & _ & R9 & _).
    assert (in_flight l2 = in_flight l1 ∧ carried l2 = carried l1 ∧ committed l2 = committed l1 ∧
      handled l2 = handled l1 ∧ evicted_floor l2 = evicted_floor l1 ∧ released l2 = released l1)
      as (F1 & F2 & F3 & F4 & F5 & F6) by by rewrite Hl2.
    split; [|split_and!].
    + intros id c Hx. apply Hex in Hx. unfold excluded, evicted_past in *.
      by rewrite R4, R6, F4, F5.
    + apply map_eq. intros k. destruct (decide (k ∈ map undo_id newly)) as [Hk|Hk].
      * apply list_elem_of_In, in_map_iff in Hk as ([[id p] c] & <- & Hin%list_elem_of_In).
        destruct (R1 _ _ _ Hin) as [Hr _], (Hu _ _ _ Hin) as [Hp _]. unfold undo_id. simpl. congruence.
      * destruct (R2 k Hk) as [-> _]. rewrite F1. by apply Ho.
    + apply map_eq. intros k. destruct (decide (k ∈ map undo_id newly)) as [Hk|Hk].
      * apply list_elem_of_In, in_map_iff in Hk as ([[id p] c] & <- & Hin%list_elem_of_In).
        destruct (R1 _ _ _ Hin) as [_ Hr], (Hu _ _ _ Hin) as (_ & Hc & Hnone).
        unfold undo_id. simpl. rewrite Hr, F2, Hnone, Hc. by destruct (carried l !! id).
      * destruct (R2 k Hk) as [_ ->]. rewrite F2. by apply Ho.
    + by rewrite R7, F6.
    + by rewrite R9, Hw.
    + rewrite R3, F3. clear -Hco. set_solver.
Qed.

Lemma commit_excluded ok events pending now l id c :
  ledger_wf l → NoDup (map ev_id events) → excluded l id c →
  excluded (commit ok events pending now l).2 id c.
Proof.
  intros Hwf Hnd Hx. pose proof (commit_spec ok events pending now l Hwf Hnd) as H.
  destruct (commit ok events pending now l) as [o l']. by apply H.
Qed.

Lemma finish_excluded ok t a pending now l id c :
  excluded l id c → excluded (finish_turn ok t a pending now l).2 id c.
Proof.
  intros Hx. unfold finish_turn. destruct (list_find _ _) as [[i [t' ids]]|];
    apply sync_excluded; [by destruct a|done].
Qed.

Lemma forget_excluded ok ids pending now l id c :
  id ∉ ids → excluded l id c → excluded (forget_events ok ids pending now l).2 id c.
Proof.
  intros Hid Hx. unfold forget_events. pose proof (forget_fold ids (handled l) l []) as H.
  destruct (fold_left (forget_one ids) (handled l) (l, [])) as [l' kept].
  destruct H as (-> & _ & He & _). simpl.
  match goal with |- excluded (write_snapshot ?a ?b ?c0 ?x).2 _ _ =>
    pose proof (write_snapshot_spec a b c0 x) as Hw; destruct (write_snapshot a b c0 x) as [o l2] end.
  destruct Hw as [-> _]. simpl. destruct Hx as [Hx|Hx].
  - left. simpl. by apply list_elem_of_filter.
  - right. unfold evicted_past in *. simpl. by rewrite He.
Qed.

Lemma run_op_excluded op l id c :
  ledger_wf l → op_ok op → keeps id op → excluded l id c → excluded (run_op op l) id c.
Proof.
  intros Hwf Hop Hk Hx. destruct op; simpl in *.
  - apply admit_excluded; [apply Hwf|done].
  - by apply commit_excluded.
  - unfold attach_to_turn. by case_match.
  - by apply finish_excluded.
  - done.
  - by apply sync_excluded.
  - done.
  - by apply forget_excluded.
  - by apply sync_excluded.
Qed.

Lemma run_ops_excluded ops l id c :
  ledger_wf l → Forall op_ok ops → Forall (keeps id) ops → excluded l id c →
  ledger_wf (fold_left (λ l op, run_op op l) ops l) ∧
  excluded (fold_left (λ l op, run_op op l) ops l) id c.
Proof.
  intros Hwf Hops. revert l Hwf. induction Hops as [|op ops Hop Hops IH]; intros l Hwf Hk Hx; [done|].
  apply Forall_cons in Hk as [Hk1 Hk]. cbn [fold_left].
  apply IH; [by apply run_op_wf|done|by apply run_op_excluded].
Qed.

(** *** How long an id is remembered: until 512 others were remembered after it *)

(** The ids of the events a call names, and those of a run. *)
Definition op_ids (op : ledger_op) : gset string :=
  match op with
  | OpAdmit ev _ => {[ev_id ev]}
  | OpCommit _ events _ _ => list_to_set (map ev_id events)
  | _ => ∅
  end.
Definition run_ids (ops : list ledger_op) : gset string := ⋃ (map op_ids ops).

(** [h] is remembered, and only ids of [others] after it. *)
Definition remembered_before (h : HandledEvent) (others : gset string) (l : WakeLedger) : Prop :=
  ∃ older younger, handled l = older ++ h :: younger ∧ ∀ e, e ∈ younger → he_id e ∈ others.

Lemma remember_keeps h others entry l :
  seen_wf l → he_id h ∉ others → size others < MAX_HANDLED →
  he_id entry ∈ others ∨ he_id entry = he_id h →
  remembered_before h others l → remembered_before h others (remember entry l).
Proof.
  intros Hwf Hh Hsize Hentry (older & younger & Hl & Hy). unfold remember.
  case_bool_decide as Hin; [by exists older, younger|]. cbv zeta. set (l1 := set_seen _ _ _ _ l).
  destruct Hwf as [Hids Hnd].
  assert (seen_wf l1) as Hwf1.
  { split; simpl; rewrite map_app; simpl.
    - rewrite list_to_set_app_L, Hids. simpl. set_solver.
    - apply NoDup_app. split_and!; [done| |repeat constructor; set_solver].
      intros x Hx ->%list_elem_of_singleton. apply Hin. rewrite Hids. by apply elem_of_list_to_set. }
  destruct Hentry as [Hentry|Heq].
  2:{ destruct Hin. rewrite Hids, Hl, Heq, elem_of_list_to_set, map_app. set_solver. }
  destruct (evict_loop_spec (length (handled l1)) l1 Hwf1 ltac:(lia)) as (_ & _ & Hd).
  change (remembered_before h others (evict_loop (length (handled l1)) l1)).
  unfold remembered_before. rewrite Hd. change (handled l1) with (handled l ++ [entry]).
  assert (length (younger ++ [entry]) ≤ size others) as Hlen.
  { destruct Hwf1 as [_ Hnd1]. simpl in Hnd1. rewrite Hl, <-app_assoc in Hnd1. simpl in Hnd1.
    rewrite map_app in Hnd1. apply NoDup_app in Hnd1 as (_ & _ & [_ Hnd1]%NoDup_cons).
    rewrite <-(length_map he_id), <-(size_list_to_set (C := gset string)) by done.
    apply subseteq_size. intros x. rewrite elem_of_list_to_set, list_elem_of_In, in_map_iff.
    intros (e & <- & He%list_elem_of_In). apply elem_of_app in He as [He| ->%list_elem_of_singleton]; auto. }
  rewrite Hl, <-app_assoc. simpl. rewrite length_app in Hlen.
  rewrite drop_app_le by (rewrite !length_app in *; simpl in *; rewrite length_app; simpl in *; lia).
  eexists _, (younger ++ [entry]). split; [reflexivity|].
  intros e [He| ->%list_elem_of_singleton]%elem_of_app; auto.
Qed.

Lemma commit_fold_keeps h others now evs l newly :
  seen_wf l → he_id h ∉ others → size others < MAX_HANDLED →
  (∀ ev, ev ∈ evs → ev_id ev ∈ others ∨ ev_id ev = he_id h) →
  remembered_before h others l →
  remembered_before h others (fold_left (commit_one now) evs (l, newly)).1.
Proof.
  intros Hs Hh Hsize. revert l newly Hs. induction evs as [|ev evs IH]; intros l newly Hs Hev Hb; [done|].
  cbn [fold_left]. destruct (commit_one now (l, newly) ev) as [l1 newly1] eqn:Heq.
  assert (handled l1 = handled (remember (MkHandled (ev_id ev) (ev_created_at ev)) l) ∧ seen_wf l1)
    as [Hl1 Hs1].
  { destruct (remember_spec (MkHandled (ev_id ev) (ev_created_at ev)) l Hs) as (_ & Hs' & _).
    unfold commit_one in Heq. case_bool_decide; simplify_eq/=; done. }
  apply IH; [done|set_solver|]. unfold remembered_before. rewrite Hl1.
  apply remember_keeps; [done..| |done]. apply Hev. left.
Qed.

Lemma run_op_keeps h others op l :
  ledger_wf l → op_ok op → keeps (he_id h) op → he_id h ∉ others → size others < MAX_HANDLED →
  op_ids op ⊆ others ∪ {[he_id h]} →
  remembered_before h others l → remembered_before h others (run_op op l).
Proof.
  intros Hwf Hop Hk Hh Hsize Hids Hb.
  assert (∀ l', handled l' = handled l → remembered_before h others l') as Hsame.
  { intros l' Hl. unfold remembered_before. by rewrite Hl. }
  assert (∀ ok pending now l0, handled (sync ok pending now l0).2 = handled l0) as Hsync.
  { intros ok pending now l0. pose proof (sync_spec ok pending now l0) as H.
    destruct (sync ok pending now l0) as [o l']. destruct H as [-> _]. done. }
  destruct op; simpl in *.
  - unfold admit_event. cbv zeta. case_bool_decide; cbn [snd]; [by apply Hsame|].
    apply remember_keeps; [apply Hwf|done|done|set_solver|by apply Hsame].
  - unfold commit. pose proof (commit_fold now l events [] l [] (commit_inv_nil now l Hwf) Hop) as Hinv.
    pose proof (commit_fold_keeps h others now events l [] (wf_seen _ Hwf) Hh Hsize) as Hfold.
    destruct (fold_left (commit_one now) events (l, [])) as [l1 newly]. simpl in Hinv, Hfold.
    specialize (Hsync ok pending now l1). destruct (sync ok pending now l1) as [o l2]. simpl in Hsync.
    assert (remembered_before h others l1) as Hl1.
    { apply Hfold; [|done]. intros ev Hev.
      assert (ev_id ev ∈ others ∪ {[he_id h]}) as H%elem_of_union; [|set_solver]. apply Hids.
      apply elem_of_list_to_set. apply list_elem_of_In, in_map, list_elem_of_In, Hev. }
    assert (remembered_before h others l2) as Hl2 by (unfold remembered_before; by rewrite Hsync).
    destruct (is_saved o); [done|]. simpl.
    destruct (rollback_spec newly l2 (ci_nodup _ _ _ _ _ Hinv)) as (_ & _ & _ & Hr & _).
    unfold remembered_before. by rewrite Hr.
  - unfold attach_to_turn. case_match; by apply Hsame.
  - unfold finish_turn. destruct (list_find _ _) as [[i [t' ts]]|]; apply Hsame; rewrite Hsync; [|done].
    by destruct answered.
  - by apply Hsame.
  - apply Hsame. unfold settle_answered. by rewrite Hsync.
  - done.
  - unfold forget_events. pose proof (forget_fold ids (handled l) l []) as H.
    destruct (fold_left (forget_one ids) (handled l) (l, [])) as [l' kept].
    destruct H as (-> & _). simpl.
    match goal with |- remembered_before _ _ (write_snapshot ?a ?b ?c0 ?x).2 =>
      pose proof (write_snapshot_spec a b c0 x) as Hw; destruct (write_snapshot a b c0 x) as [o l2] end.
    destruct Hw as [-> _]. destruct Hb as (older & younger & Hl & Hy).
    exists (filter (λ e, he_id e ∉ ids) older), (filter (λ e, he_id e ∉ ids) younger). simpl. split.
    + by rewrite Hl, filter_app, filter_cons, decide_True.
    + intros e [_ He]%list_elem_of_filter. auto.
  - apply Hsame, Hsync.
Qed.

Lemma run_ops_keep h others ops l :
  ledger_wf l → Forall op_ok ops → Forall (keeps (he_id h)) ops →
  he_id h ∉ others → size others < MAX_HANDLED → run_ids ops ⊆ others ∪ {[he_id h]} →
  remembered_before h others l →
  remembered_before h others (fold_left (λ l op, run_op op l) ops l).
Proof.
  intros Hwf Hops. revert l Hwf. induction Hops as [|op ops Hop Hops IH];
    intros l Hwf Hk Hh Hsize Hids Hb; [done|].
  apply Forall_cons in Hk as [Hk1 Hk]. unfold run_ids in *. cbn [fold_left map union_list] in *.
  apply IH; [by apply run_op_wf|done..|set_solver|]. apply run_op_keeps; [done..|set_solver|done].
Qed.

(** ** Opening the file again *)

Lemma remember_fold_fresh h l :
  seen_wf l → NoDup (map he_id (handled l ++ h)) → length (handled l ++ h) ≤ MAX_HANDLED →
  let l' := fold_left (λ l entry, remember entry l) h l in
  seen_frame l l' ∧ seen_wf l' ∧ handled l' = handled l ++ h ∧ evicted_floor l' = evicted_floor l.
Proof.
  revert l. induction h as [|e h IH]; intros l Hs Hnd Hlen; cbn [fold_left].
  - rewrite app_nil_r. split_and!; try done. apply seen_frame_refl.
  - destruct (remember_spec e l Hs) as (Hfr & Hs' & _).
    assert (he_id e ∉ handled_ids l) as He.
    { destruct Hs as [-> _]. rewrite elem_of_list_to_set. rewrite map_app in Hnd.
      apply NoDup_app in Hnd as (_ & Hd & _). intros Hin. by eapply Hd; [|left]. }
    assert (handled (remember e l) = handled l ++ [e] ∧
      evicted_floor (remember e l) = evicted_floor l) as [Hh Hf].
    { unfold remember. rewrite bool_decide_eq_false_2 by done. cbv zeta. simpl.
      rewrite length_app in *. simpl in Hlen.
      replace (length (handled l) + length [e]) with (S (length (handled l))) by (simpl; lia).
      cbn [evict_loop]. simpl. rewrite length_app. simpl.
      rewrite (proj2 (Nat.ltb_ge _ _)) by lia. done. }
    destruct (IH (remember e l) Hs') as (Hfr2 & Hs2 & Hh2 & Hf2).
    + by rewrite Hh, <-app_assoc.
    + by rewrite Hh, <-app_assoc.
    + split_and!; [by eapply seen_frame_trans|done| |congruence].
      by rewrite Hh2, Hh, <-app_assoc.
Qed.

Lemma restore_abandoned_spec l e :
  seen_wf l →
  let l' := restore_abandoned l e in
  seen_wf l' ∧ (∀ id c, excluded l id c → excluded l' id c) ∧
  (evicted_floor l ≤ evicted_floor l')%Z ∧
  (length (handled l) ≤ MAX_HANDLED → length (handled l') ≤ MAX_HANDLED) ∧
  catch_up_since l' = catch_up_since l ∧ in_flight l' = in_flight l ∧ carried l' = carried l ∧
  released l' = released l ∧ turns l' = turns l ∧
  (∀ id, id ∈ handled_ids l' → id ∈ handled_ids l ∨ id = he_id e).
Proof.
  intros Hs. destruct (remember_spec e l Hs) as (Hfr & Hs' & Hb & _ & _ & Hin).
  destruct (seen_frame_fields _ _ Hfr) as (E1 & E2 & E3 & E4 & E5 & _).
  unfold restore_abandoned. cbv zeta. split_and!; try done.
  - intros id c Hx. apply (sf_excluded _ _ Hfr) in Hx. exact Hx.
  - apply (sf_floor _ _ Hfr).
  - intros id Hid. simpl in Hid. apply elem_of_handled_ids in Hid as [c Hc]; [|done].
    destruct (Hin _ Hc) as [Hold|[<- _]]; [left; apply elem_of_handled_ids; eauto|by right].
Qed.

Lemma restore_abandoned_fold es l :
  seen_wf l →
  let l' := fold_left restore_abandoned es l in
  seen_wf l' ∧ (∀ id c, excluded l id c → excluded l' id c) ∧
  (evicted_floor l ≤ evicted_floor l')%Z ∧
  (length (handled l) ≤ MAX_HANDLED → length (handled l') ≤ MAX_HANDLED) ∧
  catch_up_since l' = catch_up_since l ∧ in_flight l' = in_flight l ∧ carried l' = carried l ∧
  released l' = released l ∧ turns l' = turns l ∧
  (∀ id, id ∈ handled_ids l' → id ∈ handled_ids l ∨ id ∈ map he_id es).
Proof.
  revert l. induction es as [|e es IH]; intros l Hs; cbn [fold_left].
  { split_and!; try done; auto. }
  destruct (restore_abandoned_spec l e Hs) as (Hs1 & X1 & F1 & B1 & C1 & I1 & K1 & R1 & T1 & H1).
  destruct (IH (restore_abandoned l e) Hs1) as (Hs2 & X2 & F2 & B2 & C2 & I2 & K2 & R2 & T2 & H2).
  split_and!; try congruence; auto; [lia|].
  intros id Hid. apply H2 in Hid as [Hid|Hid]; [|right; by right].
  apply H1 in Hid as [Hid| ->]; [by left|right; left].
Qed.

(** How [recover_interrupted] sorts one entry of the file. *)
Inductive Fate : Type := GivenUp | Paused | Redelivered (count : Z).

Definition fate (now : Z) (e : InFlightEvent) : Fate :=
  if (3 <? ie_restarts e + 1)%Z then GivenUp
  else if (now <? u64_saturating_add (ie_last_attempt e) (backoff_for (ie_restarts e)))%Z
  then Paused else Redelivered (ie_restarts e + 1).

Definition meets_fate (now : Z) (l : WakeLedger) (e : InFlightEvent) : Prop :=
  let id := ie_id e in
  match fate now e with
  | GivenUp => MkHandled id (ie_created_at e) ∈ stopped l ∧ excluded l id (ie_created_at e)
  | Paused => in_flight l !! id = Some e ∧ excluded l id (ie_created_at e)
  | Redelivered n => carried l !! id = Some n ∧ released l !! id = Some (ie_created_at e) ∧
                     id ∉ handled_ids l
  end.

(** What recovering entries named [ids] leaves alone. *)
Record recovered (ids : list string) (l l' : WakeLedger) : Prop := {
  rc_seen : seen_wf l';
  rc_excluded : ∀ id c, excluded l id c → excluded l' id c;
  rc_floor : (evicted_floor l ≤ evicted_floor l')%Z;
  rc_bound : length (handled l) ≤ MAX_HANDLED → length (handled l') ≤ MAX_HANDLED;
  rc_window : catch_up_since l' = catch_up_since l ∧ turns l' = turns l;
  rc_stopped : ∀ e, e ∈ stopped l → e ∈ stopped l';
  rc_other : ∀ k, k ∉ ids → in_flight l' !! k = in_flight l !! k ∧
    carried l' !! k = carried l !! k ∧ released l' !! k = released l !! k ∧
    (k ∈ handled_ids l' → k ∈ handled_ids l);
}.

Lemma recovered_refl l : seen_wf l → recovered [] l l.
Proof. intros. by split. Qed.

Lemma recovered_trans i1 i2 l1 l2 l3 :
  recovered i1 l1 l2 → recovered i2 l2 l3 → recovered (i1 ++ i2) l1 l3.
Proof.
  intros [S1 X1 F1 B1 [W1 T1] St1 O1] [S2 X2 F2 B2 [W2 T2] St2 O2].
  split; auto; [lia|split; congruence|].
  intros k [H1 H2]%not_elem_of_app. destruct (O1 k H1) as (A1 & A2 & A3 & A4).
  destruct (O2 k H2) as (C1 & C2 & C3 & C4). split_and!; try congruence. auto.
Qed.

Lemma recover_one_spec now l e :
  seen_wf l → ie_id e ∉ handled_ids l →
  let l' := recover_one now l e in
  recovered [ie_id e] l l' ∧ meets_fate now l' e.
Proof.
  intros Hs Hnew. set (h := MkHandled (ie_id e) (ie_created_at e)).
  destruct (remember_spec h l Hs) as (Hfr & Hs' & Hb & _ & Hx & Hin).
  destruct (seen_frame_fields _ _ Hfr) as (E1 & E2 & E3 & E4 & E5 & E6 & E7 & _).
  specialize (Hx Hnew). simpl in Hx.
  assert (∀ k, k ∉ [ie_id e] → k ∈ handled_ids (remember h l) → k ∈ handled_ids l) as Hids.
  { intros k Hk Hkin. apply elem_of_handled_ids in Hkin as [c Hc]; [|done].
    destruct (Hin _ Hc) as [Hold|[Heq _]]; [apply elem_of_handled_ids; eauto|].
    simplify_eq. set_solver. }
  unfold recover_one, meets_fate, fate. fold h. cbv zeta. change MAX_REDELIVERIES with 3%Z.
  destruct (3 <? ie_restarts e + 1)%Z; [|destruct (now <? _)%Z].
  - split; [|split; [simpl; set_solver|exact Hx]]. split; simpl; try done.
    + intros id c Hy. by apply (sf_excluded _ _ Hfr) in Hy.
    + apply (sf_floor _ _ Hfr).
    + rewrite E7. set_solver.
    + intros k Hk. rewrite E1, E2, E3. auto.
  - split; [|split; [simpl; apply lookup_insert_eq|exact Hx]]. split; simpl; try done.
    + intros id c Hy. by apply (sf_excluded _ _ Hfr) in Hy.
    + apply (sf_floor _ _ Hfr).
    + by rewrite E7.
    + intros k Hk. rewrite lookup_insert_ne by set_solver. rewrite E1, E2, E3. auto.
  - split; [|simpl; by rewrite !lookup_insert_eq]. split; simpl; try done.
    intros k Hk. rewrite !lookup_insert_ne by set_solver. done.
Qed.

Lemma meets_fate_recovered now ids l l' e :
  recovered ids l l' → ie_id e ∉ ids → meets_fate now l e → meets_fate now l' e.
Proof.
  intros [S1 X1 F1 B1 W1 St1 O1] He. destruct (O1 _ He) as (A1 & A2 & A3 & A4).
  unfold meets_fate. destruct (fate now e).
  - intros [? ?]. split; auto.
  - intros [? ?]. split; [congruence|auto].
  - intros (? & ? & ?). split_and!; [congruence..|auto].
Qed.

Lemma recover_interrupted_spec now es l :
  seen_wf l → NoDup (map ie_id es) → (∀ e, e ∈ es → ie_id e ∉ handled_ids l) →
  let l' := recover_interrupted es now l in
  recovered (map ie_id es) l l' ∧ ∀ e, e ∈ es → meets_fate now l' e.
Proof.
  revert l. induction es as [|e es IH]; intros l Hs Hnd Hnew; unfold recover_interrupted;
    cbn [fold_left].
  { split; [by apply recovered_refl|]. by intros e []%not_elem_of_nil. }
  cbn [map] in Hnd. apply NoDup_cons in Hnd as [He Hnd].
  destruct (recover_one_spec now l e Hs) as [Hr Hm]; [by apply Hnew; left|].
  destruct (IH (recover_one now l e)) as [Hr2 Hm2]; [by apply (rc_seen _ _ _ Hr)|done| |].
  { intros e' He' Hin. apply (rc_other _ _ _ Hr) in Hin; [by eapply Hnew; [right|]|].
    intros Heq%list_elem_of_singleton. apply He. rewrite <-Heq.
    apply list_elem_of_In, in_map, list_elem_of_In, He'. }
  split; [exact (recovered_trans [ie_id e] _ _ _ _ Hr Hr2)|].
  intros e' [->|He']%elem_of_cons; [|by apply Hm2]. by eapply meets_fate_recovered.
Qed.

Lemma usable_snapshot pending now l :
  usable (Ok (Some (snapshot pending now l))) (relay_url l) (agent_pubkey l) =
  Some (snapshot pending now l).
Proof. unfold usable. simpl. by rewrite !bool_decide_eq_true_2. Qed.

Lemma snapshot_in_flight_nodup pending now l :
  ledger_wf l → NoDup (map ie_id (lf_in_flight (snapshot pending now l))).
Proof.
  intros Hwf. simpl. assert (map ie_id (map_iter (in_flight l)).*2 = (map_iter (in_flight l)).*1) as Hk.
  { assert (∀ k e, (k, e) ∈ map_iter (in_flight l) → ie_id e = k) as H.
    { intros k e Hin%elem_of_map_iter. by apply (wf_in_flight _ Hwf). }
    induction (map_iter (in_flight l)) as [|[k e] es IH]; [done|]. cbn. f_equal.
    - apply H. left.
    - apply IH. intros k' e' Hin. apply H. by right. }
  rewrite (Permutation_map ie_id (merge_sort_Permutation in_flight_le _)), Hk.
  apply NoDup_map_iter_fst.
Qed.

Lemma filter_handled_nodup (P : HandledEvent → Prop) `{∀ e, Decision (P e)} h :
  NoDup (map he_id h) → NoDup (map he_id (filter P h)).
Proof.
  induction h as [|e h IH]; [done|]. cbn [map]. intros [He Hnd]%NoDup_cons.
  rewrite filter_cons. case_decide; [|by apply IH]. cbn [map]. apply NoDup_cons. split; [|by apply IH].
  intros Hin. apply He. rewrite list_elem_of_In, in_map_iff in *.
  destruct Hin as (e' & <- & Hin%list_elem_of_In). apply list_elem_of_filter in Hin as [_ Hin].
  exists e'. by rewrite <-list_elem_of_In.
Qed.

(** No id is both in flight and given up on. *)
Definition abandoned_apart (l : WakeLedger) : Prop :=
  ∀ e, e ∈ abandoned l → in_flight l !! he_id e = None.

Lemma open_snapshot file_path pending now l now' sw :
  ledger_wf l → abandoned_apart l →
  let f := snapshot pending now l in
  let l' := ledger_open file_path (Ok (Some f)) (relay_url l) (agent_pubkey l) now' sw in
  catch_up_since l' = Some (Z.max (replay_start f now' sw) (evicted_floor l')) ∧
  (evicted_floor l ≤ evicted_floor l')%Z ∧
  seen_wf l' ∧
  (∀ e, e ∈ lf_handled f → excluded l' (he_id e) (he_created_at e)) ∧
  (∀ k e, in_flight l !! k = Some e → meets_fate now' l' e).
Proof.
  intros Hwf Hapart f l'. pose proof (usable_snapshot pending now l) as Hu. fold f in Hu.
  unfold l', ledger_open. rewrite Hu. cbn [fmap option_fmap option_map default].
  match goal with |- context [fold_left (λ l e, remember e l) _ ?x] => set (l0 := x) end.
  assert (NoDup (map he_id (lf_handled f))) as Hnd by by apply filter_handled_nodup, Hwf.
  destruct (remember_fold_fresh (lf_handled f) l0) as (Hfr & Hs1 & Hh1 & Hf1); [by split; [|constructor]|done| |].
  { simpl. etransitivity; [apply length_filter|apply Hwf]. }
  set (l1 := fold_left (λ l e, remember e l) (lf_handled f) l0) in *.
  destruct (restore_abandoned_fold (lf_abandoned f) l1 Hs1)
    as (Hs2 & X2 & F2 & B2 & C2 & I2 & K2 & R2 & T2 & H2).
  set (l2 := fold_left restore_abandoned (lf_abandoned f) l1) in *.
  destruct (recover_interrupted_spec now' (lf_in_flight f) l2 Hs2) as [Hr Hm].
  { by apply snapshot_in_flight_nodup. }
  { intros e [k Hk]%snapshot_in_flight Hin. destruct (wf_in_flight _ Hwf _ _ Hk) as [<- _].
    apply H2 in Hin as [Hin|Hin].
    - apply elem_of_handled_ids in Hin as [c Hc]; [|done]. rewrite Hh1 in Hc. simpl in Hc.
      apply list_elem_of_filter in Hc as [[_ Hnone] _]. simpl in Hnone. congruence.
    - apply list_elem_of_In, in_map_iff in Hin as (a & Ha & Hin%list_elem_of_In).
      apply Hapart in Hin. rewrite Ha in Hin. congruence. }
  set (l3 := recover_interrupted (lf_in_flight f) now' l2) in *.
  assert (catch_up_since l3 = Some (replay_start f now' sw)) as Hsince.
  { destruct (rc_window _ _ _ Hr) as [-> _]. rewrite C2.
    by destruct (seen_frame_fields _ _ Hfr) as (_ & _ & _ & _ & -> & _). }
  rewrite Hsince. split_and!; simpl; try done.
  - etransitivity; [|apply (rc_floor _ _ _ Hr)]. etransitivity; [|exact F2]. by rewrite Hf1.
  - apply (rc_seen _ _ _ Hr).
  - intros e He. apply (rc_excluded _ _ _ Hr), X2. left. rewrite Hh1. simpl. by destruct e.
  - intros k e Hk. apply Hm. apply snapshot_in_flight. eauto.
Qed.

Lemma recover_one_wf now l e : ledger_wf l → ledger_wf (recover_one now l e).
Proof.
  intros Hwf. unfold recover_one. cbv zeta. set (h := MkHandled _ _).
  pose proof (remember_wf h l Hwf) as Hr.
  destruct (Z.ltb_spec MAX_REDELIVERIES (ie_restarts e + 1)); [by apply set_given_up_wf|].
  destruct (now <? _)%Z; apply set_flight_wf; try done.
  - intros k x. rewrite lookup_insert. case_decide; [intros [= <-]; split; [done|lia]|].
    apply (wf_in_flight _ Hr).
  - apply (wf_carried _ Hr).
  - apply (wf_in_flight _ Hwf).
  - intros k n. rewrite lookup_insert. case_decide; [intros [= <-]; lia|]. apply (wf_carried _ Hwf).
Qed.

Lemma fold_left_wf {B} (f : WakeLedger → B → WakeLedger) bs l :
  (∀ l b, ledger_wf l → ledger_wf (f l b)) → ledger_wf l → ledger_wf (fold_left f bs l).
Proof. intros Hf. revert l. induction bs as [|b bs IH]; intros l Hl; [done|]. by apply IH, Hf. Qed.

Lemma ledger_open_wf file_path read url pubkey now sw :
  ledger_wf (ledger_open file_path read url pubkey now sw).
Proof.
  unfold ledger_open. cbv zeta.
  match goal with |- context [MkLedger ?a ?b ?c ?d ?e ?f ?g ?h ?i ?j ?k ?l ?m ?n ?o ?p ?q ?r ?s ?t] =>
    set (l0 := MkLedger a b c d e f g h i j k l m n o p q r s t) end.
  assert (ledger_wf l0) as H0.
  { split; simpl; try (unfold MAX_HANDLED, MAX_TURNS; lia); try done. split; [done|constructor]. }
  clearbody l0.
  destruct (match usable read url pubkey with Some f => _ | None => _ end) as [[h fl] ab].
  match goal with |- context [recover_interrupted fl now ?x] => set (l2 := x) end.
  assert (ledger_wf (recover_interrupted fl now l2)) as H3.
  { apply fold_left_wf; [intros; by apply recover_one_wf|].
    apply fold_left_wf; [intros; by apply set_given_up_wf, remember_wf|].
    apply fold_left_wf; [intros; by apply remember_wf|done]. }
  case_match; [by apply set_window_wf|done].
Qed.

Lemma list_min_Some zs z : list_min zs = Some z → z ∈ zs ∧ ∀ y, y ∈ zs → (z ≤ y)%Z.
Proof.
  destruct zs as [|x zs]; simpl; [done|]. intros [= <-]. revert x.
  induction zs as [|y zs IH]; intros x; simpl.
  - split; [left|]. intros y [->|[]%not_elem_of_nil]%elem_of_cons. lia.
  - destruct (IH (Z.min x y)) as [Hin Hle]. split.
    + apply elem_of_cons in Hin as [->|Hin]; [|right; by right].
      destruct (Z.min_spec x y) as [[_ ->]|[_ ->]]; [left|right; left].
    + intros w [->|[->|Hw]%elem_of_cons]%elem_of_cons.
      * etransitivity; [apply Hle; left|lia].
      * etransitivity; [apply Hle; left|lia].
      * apply Hle. by right.
Qed.

Lemma list_min_None zs : list_min zs = None → zs = [].
Proof. by destruct zs. Qed.

(** The floor written to the file, from below and from above. *)
Lemma snapshot_floor_le pending now l c :
  c ∈ unhandled_times l pending →
  (lf_floor (snapshot pending now l) ≤ Z.max c (evicted_floor l))%Z.
Proof.
  intros Hc. simpl. destruct (list_min (unhandled_times l pending)) as [z|] eqn:E.
  - apply list_min_Some in E as [_ Hle]. specialize (Hle c Hc). lia.
  - apply list_min_None in E. rewrite E in Hc. by apply not_elem_of_nil in Hc.
Qed.

Lemma unhandled_in_flight l pending k e :
  in_flight l !! k = Some e → ie_created_at e ∈ unhandled_times l pending.
Proof.
  intros Hk. unfold unhandled_times. rewrite !elem_of_app. right. right.
  apply list_elem_of_In, in_map, list_elem_of_In, list_elem_of_fmap.
  exists (k, e). split; [done|]. by apply elem_of_map_iter.
Qed.

Lemma unhandled_released l pending k c :
  released l !! k = Some c → c ∈ unhandled_times l pending.
Proof.
  intros Hk. unfold unhandled_times. rewrite !elem_of_app. right. left.
  apply list_elem_of_fmap. exists (k, c). split; [done|]. by apply elem_of_map_iter.
Qed.

Lemma unhandled_pending l pending ev :
  ev ∈ pending → ev_id ev ∉ committed l → ev_created_at ev ∈ unhandled_times l pending.
Proof.
  intros Hev Hc. unfold unhandled_times. rewrite !elem_of_app. left.
  apply list_elem_of_In, in_map, list_elem_of_In. unfold waiting. by apply list_elem_of_filter.
Qed.

Lemma replay_start_le f now sw x :
  (lf_floor f ≤ x)%Z → (lf_evicted_floor f ≤ x)%Z → (now - MAX_LOOKBACK_SECS ≤ x)%Z → (0 ≤ x)%Z →
  (replay_start f now sw ≤ x)%Z.
Proof. unfold replay_start, clamp, saturating_sub. lia. Qed.

Definition reopened_id (r : string * Z * Z) : string := r.1.1.

Lemma reopen_fold_spec rs l :
  let l' := fold_left reopen_one rs l in
  (∀ k, k ∈ map reopened_id rs → k ∉ handled_ids l' ∧ is_Some (carried l' !! k)) ∧
  (∀ k, k ∉ handled_ids l → k ∉ handled_ids l') ∧
  (∀ k, is_Some (carried l !! k) → is_Some (carried l' !! k)) ∧
  (∀ id c, id ∉ map reopened_id rs → excluded l id c → excluded l' id c) ∧
  evicted_floor l' = evicted_floor l ∧ catch_up_since l' = catch_up_since l ∧
  abandoned l' = abandoned l.
Proof.
  revert l. induction rs as [|[[id c] n] rs IH]; intros l; cbn [fold_left].
  { split_and!; try done. by intros k []%not_elem_of_nil. }
  destruct (IH (reopen_one l (id, c, n))) as (Hin & Hout & Hcar & Hex & He & Hw & Ha).
  split_and!; try done.
  - intros k [->|Hk]%elem_of_cons; [|by apply Hin].
    change (reopened_id (id, c, n)) with id. split; [apply Hout; simpl; set_solver|].
    apply Hcar. simpl. rewrite lookup_insert_eq. by eexists.
  - intros k Hk. apply Hout. simpl. set_solver.
  - intros k Hk. apply Hcar. simpl. rewrite lookup_insert. case_decide; [by eexists|done].
  - intros i c' Hi Hx. cbn [map] in Hi. change (reopened_id (id, c, n)) with id in Hi.
    apply not_elem_of_cons in Hi as [Hne Hi]. apply Hex; [done|]. destruct Hx as [Hx|Hx].
    + left. simpl. by apply list_elem_of_filter.
    + by right.
Qed.

Lemma reopen_reaches floor l r :
  let l' := (reopen_for_retry floor l).2 in
  let given_up := filter (λ e, (floor ≤ he_created_at e)%Z) (abandoned l) in
  r ∈ map (λ e, (he_id e, he_created_at e, 0%Z)) given_up ++
      map (λ e, (ie_id e, ie_created_at e,
                 (Z.min (ie_restarts e) (MAX_REDELIVERIES - 1) + 1)%Z)) (paused_entries floor l) →
  r.1.1 ∉ handled_ids l' ∧ is_redelivery r.1.1 l' = true ∧
  ∃ since, catch_up_since l' = Some since ∧ (since ≤ Z.max r.1.2 (evicted_floor l'))%Z.
Proof.
  cbv zeta. intros Hr. unfold reopen_for_retry. cbv zeta. cbn [snd].
  match type of Hr with r ∈ ?x => set (rs := x) in * end.
  destruct (list_min (map (λ r : string * Z * Z, r.1.2) rs)) as [lowest|] eqn:Em.
  - match goal with |- context [fold_left reopen_one rs ?x] => set (l2 := x) end.
    destruct (reopen_fold_spec rs l2) as (Hin & _ & _ & _ & He & Hw & _).
    destruct (Hin r.1.1) as [Hn Hc].
    { apply list_elem_of_In, in_map_iff. exists r. by rewrite <-list_elem_of_In. }
    split_and!; [done|by apply bool_decide_eq_true|]. eexists. split; [rewrite Hw; reflexivity|].
    rewrite He. simpl. apply list_min_Some in Em as [_ Hle].
    assert (lowest ≤ r.1.2)%Z.
    { apply Hle. apply list_elem_of_In, in_map_iff. exists r. by rewrite <-list_elem_of_In. }
    destruct (catch_up_since l); lia.
  - apply list_min_None, map_eq_nil in Em. rewrite Em in Hr. by apply not_elem_of_nil in Hr.
Qed.

(** Whatever file it starts from and whatever calls follow, the ledger
    remembers at most 512 ids, each once, with a set that agrees with its list;
    every event in flight is filed under its id, no event is delivered again
    more than three times, and at most 64 turns are tracked. *)
Theorem ledger_invariant (file_path url pubkey : string)
    (read : result string (option LedgerFile)) (now sw : Z) (ops : list ledger_op)
    (Hops : Forall op_ok ops) :
  let l := fold_left (λ l op, run_op op l) ops (ledger_open file_path read url pubkey now sw) in
  length (handled l) ≤ 512 ∧ NoDup (map he_id (handled l)) ∧
  handled_ids l = list_to_set (map he_id (handled l)) ∧
  (∀ k e, in_flight l !! k = Some e → ie_id e = k ∧ (ie_restarts e ≤ 3)%Z) ∧
  (∀ k n, carried l !! k = Some n → (n ≤ 3)%Z) ∧
  length (turns l) ≤ 64.
Proof.
  cbv zeta. pose proof (ledger_open_wf file_path read url pubkey now sw) as Hwf.
  assert (∀ l, ledger_wf l → ledger_wf (fold_left (λ l op, run_op op l) ops l)) as H.
  { induction Hops as [|op ops Hop Hops IH]; intros l Hl; [done|]. by apply IH, run_op_wf. }
  apply H in Hwf as [[Hids Hnd] Hb Hf Hc Ht]. done.
Qed.

(** C25. Once handled, not again.  Take an event that is excluded - remembered,
    or evicted behind the floor - whose turn is over and which no longer waits
    in the queue, and let the next run open the written file and make any calls
    that do not hand the event back (no "try again", and it is not among the ids
    forgotten).  Either it is so old that this run's replay starts at least six
    seconds after it, beyond the five seconds of skew the relay is asked for; or
    the run starts out remembering it, and refuses it as a duplicate as long as
    fewer than 512 other ids stand after it in the list or come with the run's
    calls.  Whatever came: when it is no longer refused, the exclusion boundary
    has passed it, and with it the replay start of the run after. *)
Theorem handled_never_again (file_path : string) (pending : list Event) (now now' sw : Z)
    (l : WakeLedger) (ops : list ledger_op) (ev : Event) (at_ : Z)
    (Hwf : ledger_wf l) (Hapart : abandoned_apart l)
    (Hx : excluded l (ev_id ev) (ev_created_at ev))
    (Hdone : in_flight l !! ev_id ev = None)
    (Hwait : ev_id ev ∉ map ev_id (waiting l pending))
    (Hops : Forall op_ok ops) (Hkeep : Forall (keeps (ev_id ev)) ops) :
  let f := snapshot pending now l in
  let l1 := ledger_open file_path (Ok (Some f)) (relay_url l) (agent_pubkey l) now' sw in
  let l2 := fold_left (λ l op, run_op op l) ops l1 in
  let behind z := (u64_saturating_add (ev_created_at ev) (SINCE_SKEW_SECS + 1) ≤ z)%Z in
  (∃ since, catch_up_since l1 = Some since ∧
    (behind since ∨
     ∃ older younger,
       handled l1 = older ++ MkHandled (ev_id ev) (ev_created_at ev) :: younger ∧
       let others : gset string := (list_to_set (map he_id younger) ∪ run_ids ops) ∖ {[ev_id ev]} in
       (size others < 512 → (admit_event ev at_ l2).1 = Duplicate))) ∧
  ((admit_event ev at_ l2).1 = Duplicate ∨ behind (evicted_floor l2)).
Proof.
  cbv zeta. destruct (open_snapshot file_path pending now l now' sw Hwf Hapart)
    as (Hsince & Hfloor & Hseen & Hhandled & _).
  set (l1 := ledger_open _ _ _ _ _ _) in *.
  assert (excluded l1 (ev_id ev) (ev_created_at ev)) as Hx1.
  { destruct Hx as [Hin|Hpast].
    - apply (Hhandled (MkHandled (ev_id ev) (ev_created_at ev))). simpl.
      by apply list_elem_of_filter.
    - right. unfold evicted_past in *. lia. }
  assert (ledger_wf l1) as Hwf1 by apply ledger_open_wf.
  destruct (run_ops_excluded ops l1 (ev_id ev) (ev_created_at ev)) as [Hwf2 Hx2]; [done..|].
  assert (∀ c, MkHandled (ev_id ev) c ∈ handled (fold_left (λ l op, run_op op l) ops l1) →
    (admit_event ev at_ (fold_left (λ l op, run_op op l) ops l1)).1 = Duplicate) as Hdup.
  { intros c Hin. unfold admit_event. simpl. rewrite bool_decide_eq_true_2; [done|].
    apply elem_of_handled_ids; [apply Hwf2|eauto]. }
  split.
  - eexists. split; [exact Hsince|]. destruct Hx1 as [Hin|Hpast]; [right|left; unfold evicted_past in *; lia].
    apply list_elem_of_split in Hin as (older & younger & Hl). exists older, younger. split; [done|].
    intros Hsize.
    destruct (run_ops_keep (MkHandled (ev_id ev) (ev_created_at ev))
      ((list_to_set (map he_id younger) ∪ run_ids ops) ∖ {[ev_id ev]}) ops l1)
      as (older2 & younger2 & Hl2 & _); [done..|set_solver|exact Hsize| | |].
    + simpl. intros x Hx'. destruct (decide (x = ev_id ev)); set_solver.
    + exists older, younger. split; [done|]. intros e He. apply elem_of_difference. split.
      * apply elem_of_union_l, elem_of_list_to_set, list_elem_of_In, in_map, list_elem_of_In, He.
      * intros Heq%elem_of_singleton. destruct Hwf1 as [[_ Hnd] _ _ _ _].
        rewrite Hl, map_app in Hnd. apply NoDup_app in Hnd as (_ & _ & [Hnd _]%NoDup_cons).
        apply Hnd. simpl. rewrite <-Heq. apply list_elem_of_In, in_map, list_elem_of_In, He.
    + apply (Hdup (ev_created_at ev)). rewrite Hl2. set_solver.
  - destruct Hx2 as [Hin|Hpast]; [left; eauto|by right].
Qed.

(** What a restart does with a turn that was cut off: the event is given up
    after three redeliveries and listed for the listener to say so, paused
    while its backoff runs (still in flight, and excluded), or else delivered
    again with one more attempt counted - it is not a duplicate then, and the
    replay reaches back to it unless it is older than seven days or than an
    evicted id. *)
Theorem interrupted_fate (file_path : string) (pending : list Event) (now now' sw : Z)
    (l : WakeLedger) (k : string) (e : InFlightEvent)
    (Hwf : ledger_wf l) (Hapart : abandoned_apart l) (Hk : in_flight l !! k = Some e) :
  let f := snapshot pending now l in
  let l' := ledger_open file_path (Ok (Some f)) (relay_url l) (agent_pubkey l) now' sw in
  e ∈ lf_in_flight f ∧ meets_fate now' l' e ∧
  ∀ ev at_, ev_id ev = k → fate now' e = Redelivered (ie_restarts e + 1) →
    (admit_event ev at_ l').1 ≠ Duplicate ∧ is_redelivery k l' = true ∧
    ∃ since, catch_up_since l' = Some since ∧
      (since ≤ Z.max (Z.max (ie_created_at e) (now' - MAX_LOOKBACK_SECS))
                 (Z.max (evicted_floor l') 0))%Z.
Proof.
  cbv zeta. destruct (open_snapshot file_path pending now l now' sw Hwf Hapart)
    as (Hsince & Hfloor & Hseen & _ & Hfate).
  split; [apply snapshot_in_flight; eauto|]. specialize (Hfate k e Hk). split; [done|].
  intros ev at_ Hev Hf. unfold meets_fate in Hfate. rewrite Hf in Hfate.
  destruct (wf_in_flight _ Hwf _ _ Hk) as [Hid _]. rewrite Hid in Hfate.
  destruct Hfate as (Hc & Hr & Hn). split_and!.
  - unfold admit_event. cbv zeta. rewrite Hev, bool_decide_eq_false_2 by done. cbn [fst].
    by case_match.
  - unfold is_redelivery. rewrite Hc. by apply bool_decide_eq_true.
  - eexists. split; [exact Hsince|]. apply Z.max_lub; [|lia].
    pose proof (snapshot_floor_le pending now l (ie_created_at e)
      (unhandled_in_flight l pending k e Hk)).
    apply replay_start_le; [lia|simpl; lia|lia|lia].
Qed.

(** The floor that is saved never passes an event that still has to run:
    it is at most the creation time of every uncommitted queued event, every
    event handed back and every event in flight, raised only by the eviction
    boundary, which it never falls below; and no such event is listed as
    handled. *)
Theorem snapshot_floor (pending : list Event) (now : Z) (l : WakeLedger) :
  let f := snapshot pending now l in
  (evicted_floor l ≤ lf_floor f)%Z ∧ lf_evicted_floor f = evicted_floor l ∧
  (∀ ev, ev ∈ pending → ev_id ev ∉ committed l →
     (lf_floor f ≤ Z.max (ev_created_at ev) (evicted_floor l))%Z ∧
     ∀ c, MkHandled (ev_id ev) c ∉ lf_handled f) ∧
  (∀ k c, released l !! k = Some c → (lf_floor f ≤ Z.max c (evicted_floor l))%Z) ∧
  (∀ k e, in_flight l !! k = Some e →
     (lf_floor f ≤ Z.max (ie_created_at e) (evicted_floor l))%Z ∧ e ∈ lf_in_flight f ∧
     ∀ c, MkHandled k c ∉ lf_handled f).
Proof.
  cbv zeta. split_and!; [simpl; lia|done|..].
  - intros ev Hev Hc. split; [by apply snapshot_floor_le, unhandled_pending|].
    intros c Hin. simpl in Hin. apply list_elem_of_filter in Hin as [[Hn _] _]. apply Hn. simpl.
    apply list_elem_of_In, in_map, list_elem_of_In. unfold waiting. by apply list_elem_of_filter.
  - intros k c Hk. by eapply snapshot_floor_le, unhandled_released.
  - intros k e Hk. split_and!; [by eapply snapshot_floor_le, unhandled_in_flight| |].
    + apply snapshot_in_flight. eauto.
    + intros c Hin. simpl in Hin. apply list_elem_of_filter in Hin as [[_ Hn] _]. simpl in Hn.
      congruence.
Qed.

(** "Try again": every event given up on or paused by the backoff, created
    at or after the floor the person asked for, is delivered again - it leaves
    the handled ids, counts as a redelivery, and the subscription reaches back
    to it unless an evicted id forbids that - while the events given up on
    earlier stay so and every event not brought back stays excluded. *)
Theorem reopen_brings_back (floor : Z) (l : WakeLedger) (Hwf : ledger_wf l) :
  let l' := (reopen_for_retry floor l).2 in
  let back id c := id ∉ handled_ids l' ∧ is_redelivery id l' = true ∧
    ∃ since, catch_up_since l' = Some since ∧ (since ≤ Z.max c (evicted_floor l'))%Z in
  (∀ e, e ∈ abandoned l → (floor ≤ he_created_at e)%Z → back (he_id e) (he_created_at e)) ∧
  (∀ k e, in_flight l !! k = Some e → (floor ≤ ie_created_at e)%Z →
     k ∈ handled_ids l → k ∉ committed l → back k (ie_created_at e)) ∧
  abandoned l' = filter (λ e, ¬ (floor ≤ he_created_at e)%Z) (abandoned l) ∧
  (∀ id c, excluded l id c →
     (∀ e, e ∈ abandoned l → (floor ≤ he_created_at e)%Z → he_id e ≠ id) →
     (∀ e, in_flight l !! id = Some e → (floor ≤ ie_created_at e)%Z →
        id ∈ committed l ∨ id ∉ handled_ids l) →
     excluded l' id c).
Proof.
  cbv zeta. split_and!.
  - intros e He Hf. apply (reopen_reaches floor l (he_id e, he_created_at e, 0%Z)).
    apply elem_of_app. left. apply list_elem_of_In, in_map_iff. exists e. split; [done|].
    apply list_elem_of_In, list_elem_of_filter. done.
  - intros k e Hk Hf Hh Hc. destruct (wf_in_flight _ Hwf _ _ Hk) as [<- _].
    apply (reopen_reaches floor l (ie_id e, ie_created_at e,
      (Z.min (ie_restarts e) (MAX_REDELIVERIES - 1) + 1)%Z)).
    apply elem_of_app. right. apply list_elem_of_In, in_map_iff. exists e. split; [done|].
    apply list_elem_of_In, list_elem_of_filter. split; [done|].
    apply list_elem_of_fmap. exists (ie_id e, e). split; [done|]. by apply elem_of_map_iter.
  - unfold reopen_for_retry. cbv zeta. cbn [snd].
    match goal with |- abandoned (fold_left reopen_one ?rs ?x) = _ =>
      destruct (reopen_fold_spec rs x) as (_ & _ & _ & _ & _ & _ & ->) end.
    by case_match.
  - intros id c Hx Hab Hfl. unfold reopen_for_retry. cbv zeta. cbn [snd].
    match goal with |- excluded (fold_left reopen_one ?rs ?x) _ _ =>
      destruct (reopen_fold_spec rs x) as (_ & _ & _ & Hex & _); apply Hex end.
    + rewrite map_app, !map_map. intros Hin. apply elem_of_app in Hin as [Hin|Hin];
        apply list_elem_of_In, in_map_iff in Hin as (e & Heq & Hin%list_elem_of_In);
        apply list_elem_of_filter in Hin; cbn in Heq.
      * destruct Hin as [Hf Hin]. by eapply Hab.
      * destruct Hin as [(Hf & Hh & Hc) Hin]. apply list_elem_of_fmap in Hin as ([k e'] & -> & Hin).
        apply elem_of_map_iter in Hin. simpl in *.
        destruct (wf_in_flight _ Hwf _ _ Hin) as [Hk _]. rewrite Hk in *. subst k.
        by destruct (Hfl e' Hin Hf).
    + case_match; exact Hx.
Qed.

(** Commit is all or nothing.  When the file was written, every event not
    committed before is in flight in memory and in the file, with the
    redelivery count it had; when it was not, what is in flight, what is carried
    and what the file holds are exactly as before and no id is committed that
    was not.  Either way nothing that was excluded can run again. *)
Theorem commit_atomic (ok : bool) (events pending : list Event) (now : Z) (l : WakeLedger)
    (Hwf : ledger_wf l) (Hnd : NoDup (map ev_id events)) :
  let '(o, l') := commit ok events pending now l in
  (∀ id c, excluded l id c → excluded l' id c) ∧
  if is_saved o then
    ∃ f, written l' = Some f ∧
    ∀ ev, ev ∈ events → ev_id ev ∉ committed l →
      in_flight l' !! ev_id ev = Some (commit_entry now l ev) ∧
      commit_entry now l ev ∈ lf_in_flight f ∧
      ∀ c, MkHandled (ev_id ev) c ∉ lf_handled f
  else
    in_flight l' = in_flight l ∧ carried l' = carried l ∧ released l' = released l ∧
    written l' = written l ∧ committed l' ⊆ committed l.
Proof. by apply commit_spec. Qed.
End properties.

(** ** Witnesses: one mention, committed, answered or cut off *)

Definition w_event : Event := MkEvent "e1" "alice" 990 9 [] "hi".
Definition w_open : WakeLedger := ledger_open "wake.json" (Ok None) "relay" "me" 1000 1000.
Definition w_ops : list ledger_op :=
  [OpAdmit w_event 1000; OpCommit true [w_event] [] 1001; OpAttach "t1" ["e1"]].
(** The turn is running, and the turn was answered. *)
Definition w_running : WakeLedger := fold_left (λ l op, run_op op l) w_ops w_open.
Definition w_answered : WakeLedger := (finish_turn true "t1" true [] 1002 w_running).2.
Definition w_entry : InFlightEvent := MkInFlight "e1" 990 0 1001.

Lemma w_ops_ok : Forall op_ok w_ops.
Proof. repeat constructor. set_solver. Qed.

Lemma w_running_wf : ledger_wf w_running.
Proof.
  unfold w_running, w_ops. cbn [fold_left]. apply run_op_wf; [|done]. apply run_op_wf.
  - apply run_op_wf; [|done]. apply ledger_open_wf.
  - repeat constructor. set_solver.
Qed.

Lemma w_answered_wf : ledger_wf w_answered.
Proof. apply finish_wf, w_running_wf. Qed.

Lemma commit_atomic_witness :
  let '(o, l') := commit true [w_event] [] 1001 w_open in
  is_saved o = true ∧ ∀ id c, excluded w_open id c → excluded l' id c.
Proof.
  pose proof (commit_atomic true [w_event] [] 1001 w_open) as H.
  assert (is_saved (commit true [w_event] [] 1001 w_open).1 = true) as Ho
    by (vm_compute; reflexivity).
  destruct (commit true [w_event] [] 1001 w_open) as [o l']. split; [exact Ho|].
  apply H; [apply ledger_open_wf|]. constructor; [apply not_elem_of_nil|constructor].
Defined.

Lemma ledger_invariant_witness : length (handled w_running) ≤ 512.
Proof.
  destruct (ledger_invariant "wake.json" "relay" "me" (Ok None) 1000 1000 w_ops w_ops_ok)
    as [H _]. exact H.
Defined.

Lemma w_nothing_abandoned l : abandoned l = [] → abandoned_apart l.
Proof. intros Hl e. rewrite Hl. by intros []%not_elem_of_nil. Qed.

(** An older event waits in the queue and holds the floor: the next run replays
    from it, with the answered event inside the window. *)
Definition w_old : Event := MkEvent "e0" "alice" 100 9 [] "first".
Definition w_next (ops : list ledger_op) : WakeLedger :=
  fold_left (λ l op, run_op op l) ops
    (ledger_open "wake.json" (Ok (Some (snapshot [w_old] 1002 w_answered))) (relay_url w_answered)
       (agent_pubkey w_answered) 2000 2000).

Lemma handled_never_again_witness :
  let l1 := ledger_open "wake.json" (Ok (Some (snapshot [w_old] 1002 w_answered)))
              (relay_url w_answered) (agent_pubkey w_answered) 2000 2000 in
  catch_up_since l1 = Some 100%Z ∧
  (admit_event w_event 2001 (fold_left (λ l op, run_op op l) [OpAdmit w_old 2000] l1)).1 = Duplicate.
Proof.
  pose proof (handled_never_again "wake.json" [w_old] 1002 2000 2000 w_answered
    [OpAdmit w_old 2000] w_event 2001 w_answered_wf) as H. cbv zeta in *.
  match type of H with context [catch_up_since ?x] =>
    assert (catch_up_since x = Some 100%Z) as Hw by (vm_compute; reflexivity);
    assert (handled x = [MkHandled "e1" 990]) as Hh by (vm_compute; reflexivity) end.
  split; [exact Hw|]. rewrite Hw, Hh in H.
  destruct H as [(since & [= <-] & [H|(older & younger & Hl & H)]) _].
  - apply w_nothing_abandoned. vm_compute. reflexivity.
  - left. vm_compute. left.
  - vm_compute. reflexivity.
  - assert (map ev_id (waiting w_answered [w_old]) = ["e0"%string]) as -> by (vm_compute; reflexivity).
    apply not_elem_of_cons. split; [discriminate|apply not_elem_of_nil].
  - repeat constructor.
  - repeat constructor.
  - by apply Z.leb_le in H.
  - apply H. assert (younger = []) as ->.
    { clear -Hl. destruct older as [|x [|y older]]; cbn [app] in Hl;
        [by injection Hl|discriminate Hl|discriminate Hl]. }
    apply Nat.ltb_lt. vm_compute. reflexivity.
Defined.

(** The replay of one run can run a handled event again.  512 messages sent while
    the employee was away, delivered newest first, push the answered event out of
    the list before its own copy arrives: it is admitted as new, although this
    run asked the relay for everything since long before it. *)
Definition w_backlog : list ledger_op :=
  map (λ i, OpAdmit (MkEvent (pretty i) "bob" 1500 9 [] "hi") 2000)
    (seq 1 512).

Theorem handled_again_in_one_run :
  excluded w_answered "e1" 990 ∧ Forall op_ok w_backlog ∧ Forall (keeps "e1") w_backlog ∧
  catch_up_since (w_next w_backlog) = Some 100%Z ∧
  (admit_event w_event 2001 (w_next w_backlog)).1 = CaughtUp.
Proof.
  split; [left; vm_compute; left|].
  split; [|split; [|split; vm_compute; reflexivity]];
    apply Forall_forall; intros op (i & -> & _)%list_elem_of_fmap; exact I.
Qed.

Lemma interrupted_fate_witness :
  let f := snapshot [] 1002 w_running in
  let l' := ledger_open "wake.json" (Ok (Some f)) (relay_url w_running)
              (agent_pubkey w_running) 2000 2000 in
  w_entry ∈ lf_in_flight f ∧ meets_fate 2000 l' w_entry.
Proof.
  destruct (interrupted_fate "wake.json" [] 1002 2000 2000 w_running "e1" w_entry) as (H1 & H2 & _).
  - exact w_running_wf.
  - apply w_nothing_abandoned. vm_compute. reflexivity.
  - vm_compute. reflexivity.
  - exact (conj H1 H2).
Defined.

Lemma reopen_brings_back_witness :
  abandoned (reopen_for_retry 0 w_running).2 =
  filter (λ e, ¬ (0 ≤ he_created_at e)%Z) (abandoned w_running).
Proof.
  destruct (reopen_brings_back 0 w_running w_running_wf) as (_ & _ & H & _). exact H.
Defined.
