(* ===== verification/AudioRoom.v ===== *)
(** * Audio rooms ([crates/buzz-relay/src/audio/room.rs])

    Admission under one lock (cap, version pin, routing index and its reuse
    epoch), the ordered roster log, frame fan-out, and the registry of rooms.

    A peer's two channels are the messages queued in them; [try_send] drops
    when the channel is full.  [Uuid::new_v4] is an argument.  The guard lock is
    never poisoned (nothing panics while it is held, see [add_peer_at_index]),
    so a method that takes it is one step.  [roster_tx] is the list of deltas
    sent; a lagging receiver is the receiver's concern.  [u8] indices and epochs
    and the [u64] revision are [Z] with their wrap-around. *)

From stdpp Require Import base gmap strings list fin_maps sorting.
From Stdlib Require Import ZArith Lia.
From S2P Require Import Prelude Nostr.

Local Open Scope list_scope.

Definition AUDIO_CHANNEL_CAPACITY : nat := 8.
Definition CTRL_CHANNEL_CAPACITY : nat := 32.
Definition MAX_PEERS_PER_ROOM : nat := 25.

Abbreviation Bytes := (list Z).

Inductive PeerCtrl : Type := Json (s : string) | Close.

(** [ctrl_open] turns false when the control channel overflowed and its sender
    was dropped; the messages queued before stay readable. *)
Record AudioPeer : Type := MkPeer {
  pubkey : string;
  audio_queue : list Bytes;
  ctrl_queue : list PeerCtrl;
  ctrl_open : bool;
  peer_index : Z;
  epoch : Z;
  protocol_version : Z;
}.

Record RosterPeer : Type := MkRosterPeer { rp_pubkey : string; rp_index : Z; rp_epoch : Z }.
Record RosterSnapshot : Type := MkSnapshot { rs_revision : Z; rs_peers : list RosterPeer }.
Record RosterDelta : Type := MkDelta {
  rd_revision : Z;
  joined : option RosterPeer;
  left_ : option RosterPeer;
}.

Inductive AdmissionError : Type :=
  | Ended
  | Full
  | VersionMismatch (pinned requested : Z).

Record AdmissionGuard : Type := MkGuard {
  next_candidate : Z;
  active_indices : gset Z;
  index_epochs : gmap Z Z;
  ended : bool;
  pinned_version : option Z;
  roster_revision : Z;
}.

Record Room : Type := MkRoom {
  room_community : CommunityId;
  room_channel : Uuid;
  peers : gmap Uuid AudioPeer;
  guard : AdmissionGuard;
  roster_log : list RosterDelta;
}.

#[export] Instance RosterPeer_eq_dec : EqDecision RosterPeer.
Proof. solve_decision. Defined.
#[export] Instance AdmissionError_eq_dec : EqDecision AdmissionError.
Proof. solve_decision. Defined.

(** ** The index allocator *)

Definition guard_new : AdmissionGuard := MkGuard 0 ∅ ∅ false None 0.

Definition epoch_slot (g : AdmissionGuard) (idx : Z) : Z := default 0%Z (index_epochs g !! idx).

Definition next_epoch_for (idx : Z) (g : AdmissionGuard) : Z * AdmissionGuard :=
  let e := epoch_slot g idx in
  (e, MkGuard (next_candidate g) (active_indices g)
        (<[idx := u8_wrapping_add e 1]> (index_epochs g)) (ended g) (pinned_version g)
        (roster_revision g)).

(** [if idx == 254 { 0 } else { idx + 1 }] *)
Definition after_index (idx : Z) : Z := if bool_decide (idx = 254)%Z then 0%Z else u8_wrapping_add idx 1.

Fixpoint alloc_loop (turns : nat) (g : AdmissionGuard) : option (Z * Z) * AdmissionGuard :=
  match turns with
  | O => (None, g)
  | S turns =>
      let idx := next_candidate g in
      let g := MkGuard (after_index idx) (active_indices g) (index_epochs g) (ended g)
                 (pinned_version g) (roster_revision g) in
      if bool_decide (idx ∈ active_indices g) then alloc_loop turns g
      else
        let g := MkGuard (next_candidate g) ({[idx]} ∪ active_indices g) (index_epochs g) (ended g)
                   (pinned_version g) (roster_revision g) in
        let '(e, g) := next_epoch_for idx g in
        (Some (idx, e), g)
  end.

Definition alloc (g : AdmissionGuard) : option (Z * Z) * AdmissionGuard := alloc_loop 255 g.

(** ** The room *)

Definition room_new (community : CommunityId) (channel : Uuid) : Room :=
  MkRoom community channel ∅ guard_new [].

Definition set_guard (g : AdmissionGuard) (r : Room) : Room :=
  MkRoom (room_community r) (room_channel r) (peers r) g (roster_log r).
Definition set_peers (ps : gmap Uuid AudioPeer) (r : Room) : Room :=
  MkRoom (room_community r) (room_channel r) ps (guard r) (roster_log r).

Definition set_ended (b : bool) (g : AdmissionGuard) : AdmissionGuard :=
  MkGuard (next_candidate g) (active_indices g) (index_epochs g) b (pinned_version g)
    (roster_revision g).
Definition set_pin (v : option Z) (g : AdmissionGuard) : AdmissionGuard :=
  MkGuard (next_candidate g) (active_indices g) (index_epochs g) (ended g) v (roster_revision g).
Definition set_revision (n : Z) (g : AdmissionGuard) : AdmissionGuard :=
  MkGuard (next_candidate g) (active_indices g) (index_epochs g) (ended g) (pinned_version g) n.
Definition set_active (next : Z) (s : gset Z) (g : AdmissionGuard) : AdmissionGuard :=
  MkGuard next s (index_epochs g) (ended g) (pinned_version g) (roster_revision g).

Definition room_is_empty (r : Room) : bool := bool_decide (peers r = ∅).

Definition mark_ended (r : Room) : bool * Room :=
  (room_is_empty r, set_guard (set_ended true (guard r)) r).

Definition clear_ended (r : Room) : Room := set_guard (set_ended false (guard r)) r.

(** [pinned_version.get_or_insert(v)] *)
Definition get_or_insert (v : Z) (p : option Z) : option Z :=
  match p with Some x => Some x | None => Some v end.

(** Insert the peer, advance the revision and publish the delta. *)
Definition publish_join (id : Uuid) (key : string) (version idx e : Z) (g : AdmissionGuard)
    (r : Room) : Room * Z :=
  let ps := <[id := MkPeer key [] [] true idx e version]> (peers r) in
  let revision := u64_wrapping_add (roster_revision g) 1 in
  (MkRoom (room_community r) (room_channel r) ps (set_revision revision g)
     (roster_log r ++ [MkDelta revision (Some (MkRosterPeer key idx e)) None]), revision).

Definition version_check (g : AdmissionGuard) (requested : Z) : option AdmissionError :=
  match pinned_version g with
  | Some pinned => if bool_decide (pinned ≠ requested) then Some (VersionMismatch pinned requested)
                   else None
  | None => None
  end.

(** [add_peer]: peer index, epoch and revision on success. *)
Definition add_peer (id : Uuid) (key : string) (requested_version : Z) (r : Room)
    : result AdmissionError (Z * Z * Z) * Room :=
  if ended (guard r) then (Err Ended, r)
  else if (MAX_PEERS_PER_ROOM <=? size (peers r))%nat then (Err Full, r)
  else match version_check (guard r) requested_version with
  | Some e => (Err e, r)
  | None =>
      match alloc (guard r) with
      | (None, g) => (Err Full, set_guard g r)
      | (Some (idx, e), g) =>
          let g := set_pin (get_or_insert requested_version (pinned_version g)) g in
          let '(r, revision) := publish_join id key requested_version idx e g r in
          (Ok (idx, e, revision), r)
      end
  end.

(** [add_peer_at_index].  [peer_index + 1] overflows for the index 255 (a panic
    with overflow checks, a wrap to 0 without); owners allocate 0..=254. *)
Definition add_peer_at_index (id : Uuid) (key : string) (requested_version idx : Z) (r : Room)
    : result AdmissionError (Z * Z) * Room :=
  if ended (guard r) then (Err Ended, r)
  else if (MAX_PEERS_PER_ROOM <=? size (peers r))%nat
          || bool_decide (idx ∈ active_indices (guard r)) then (Err Full, r)
  else match version_check (guard r) requested_version with
  | Some e => (Err e, r)
  | None =>
      let g := set_pin (get_or_insert requested_version (pinned_version (guard r))) (guard r) in
      let g := set_active (next_candidate g) ({[idx]} ∪ active_indices g) g in
      let '(e, g) := next_epoch_for idx g in
      let g := set_active (after_index idx) (active_indices g) g in
      let '(r, revision) := publish_join id key requested_version idx e g r in
      (Ok (e, revision), r)
  end.

Definition publish_leave (id : Uuid) (p : AudioPeer) (r : Room) : RosterDelta * Room :=
  let g := set_active (next_candidate (guard r)) (active_indices (guard r) ∖ {[peer_index p]})
             (guard r) in
  let revision := u64_wrapping_add (roster_revision g) 1 in
  let delta := MkDelta revision None (Some (MkRosterPeer (pubkey p) (peer_index p) (epoch p))) in
  (delta, MkRoom (room_community r) (room_channel r) (delete id (peers r)) (set_revision revision g)
            (roster_log r ++ [delta])).

Definition remove_peer (id : Uuid) (r : Room) : option RosterDelta * Room :=
  match peers r !! id with
  | None => (None, r)
  | Some p => let '(delta, r) := publish_leave id p r in (Some delta, r)
  end.

Definition remove_peer_and_check_ended (id : Uuid) (r : Room)
    : option (RosterDelta * bool) * Room :=
  match peers r !! id with
  | None => (None, r)
  | Some p =>
      let '(delta, r) := publish_leave id p r in
      if negb (ended (guard r)) && room_is_empty r
      then (Some (delta, true), set_guard (set_ended true (guard r)) r)
      else (Some (delta, false), r)
  end.

(** ** Frames and control messages *)

(** [audio_tx.try_send] *)
Definition send_audio (frame : Bytes) (p : AudioPeer) : AudioPeer :=
  if (length (audio_queue p) <? AUDIO_CHANNEL_CAPACITY)%nat then
    MkPeer (pubkey p) (audio_queue p ++ [frame]) (ctrl_queue p) (ctrl_open p) (peer_index p)
      (epoch p)      (protocol_version p)
  else p.

Definition frame_prefix (p : AudioPeer) : Bytes :=
  if (3 <=? protocol_version p)%Z then [peer_index p; epoch p] else [peer_index p].

Definition broadcast_frame (sender_id : Uuid) (frame : Bytes) (r : Room) : Room :=
  match peers r !! sender_id with
  | None => r
  | Some s =>
      let prefixed := frame_prefix s ++ frame in
      set_peers (map_imap (λ id p, Some (if bool_decide (id = sender_id) then p
                                         else send_audio prefixed p)) (peers r)) r
  end.

Definition deliver_prefixed (author_index : Z) (prefixed : Bytes) (r : Room) : Room :=
  set_peers (map_imap (λ _ p, Some (if bool_decide (peer_index p = author_index) then p
                                    else send_audio prefixed p)) (peers r)) r.

(** [ctrl_tx.try_send]; a channel that is full is closed for its receiver. *)
Definition send_ctrl (msg : PeerCtrl) (p : AudioPeer) : AudioPeer :=
  let ok := ctrl_open p && (length (ctrl_queue p) <? CTRL_CHANNEL_CAPACITY)%nat in
  MkPeer (pubkey p) (audio_queue p) (if ok then ctrl_queue p ++ [msg] else ctrl_queue p) ok
    (peer_index p) (epoch p) (protocol_version p).

Definition broadcast_control (json : string) (r : Room) : Room :=
  set_peers (map_imap (λ _ p, Some (send_ctrl (Json json) p)) (peers r)) r.

Definition roster_entry (p : AudioPeer) : RosterPeer :=
  MkRosterPeer (pubkey p) (peer_index p) (epoch p).

Section room.
Context {MI : MapIter Uuid}.

Definition roster_snapshot (r : Room) : RosterSnapshot :=
  MkSnapshot (roster_revision (guard r))
    (sort_by_key rp_index (map roster_entry (map_iter (peers r)).*2)).

Definition peer_pubkeys (r : Room) : list (string * Z) :=
  map (λ p, (pubkey p, peer_index p)) (map_iter (peers r)).*2.
End room.

(** ** The registry of rooms

    [Arc<Room>] is shared between the registry and the connections: a room is an
    address in [heap], which an eviction leaves alive for whoever still holds
    it. *)

Abbreviation RoomKey := (CommunityId * Uuid)%type.
Abbreviation RoomRef := nat.

Record AudioRoomManager : Type := MkManager {
  rooms : gmap RoomKey RoomRef;
  heap : list Room;
}.

Definition manager_new : AudioRoomManager := MkManager ∅ [].

Definition get_or_create (community : CommunityId) (channel : Uuid) (m : AudioRoomManager)
    : RoomRef * AudioRoomManager :=
  match rooms m !! (community, channel) with
  | Some a => (a, m)
  | None =>
      let a := length (heap m) in
      (a, MkManager (<[(community, channel) := a]> (rooms m))
            (heap m ++ [room_new community channel]))
  end.

Definition get_room (community : CommunityId) (channel : Uuid) (m : AudioRoomManager)
    : option RoomRef := rooms m !! (community, channel).

Definition get_unambiguous_by_channel {MI : MapIter RoomKey} (channel : Uuid)
    (m : AudioRoomManager) : option RoomRef :=
  match filter (λ e : RoomKey * RoomRef, e.1.2 = channel) (map_iter (rooms m)) with
  | [e] => Some e.2
  | _ => None
  end.

Definition cleanup_if_empty (community : CommunityId) (channel : Uuid) (m : AudioRoomManager)
    : bool * AudioRoomManager :=
  match rooms m !! (community, channel) ≫= λ a, heap m !! a with
  | Some r => if room_is_empty r
              then (true, MkManager (delete (community, channel) (rooms m)) (heap m))
              else (false, m)
  | None => (false, m)
  end.

(** ** Steps of a room

    Every method takes the guard lock or touches one shard entry at a time, so
    a concurrent execution is a sequence of these steps.  [Uuid::new_v4] gives
    an id no peer has; owner-assigned indices are in 0..=254. *)

Inductive room_op : Type :=
  | OpAdd (id : Uuid) (key : string) (version : Z)
  | OpAddAt (id : Uuid) (key : string) (version idx : Z)
  | OpRemove (id : Uuid)
  | OpRemoveCheck (id : Uuid)
  | OpMarkEnded
  | OpClearEnded
  | OpFrame (sender : Uuid) (frame : Bytes)
  | OpDeliver (author : Z) (prefixed : Bytes)
  | OpControl (json : string).

Definition room_step (op : room_op) (r : Room) : Room :=
  match op with
  | OpAdd id key v => (add_peer id key v r).2
  | OpAddAt id key v idx => (add_peer_at_index id key v idx r).2
  | OpRemove id => (remove_peer id r).2
  | OpRemoveCheck id => (remove_peer_and_check_ended id r).2
  | OpMarkEnded => (mark_ended r).2
  | OpClearEnded => clear_ended r
  | OpFrame s f => broadcast_frame s f r
  | OpDeliver a f => deliver_prefixed a f r
  | OpControl j => broadcast_control j r
  end.

Definition op_ok (op : room_op) (r : Room) : Prop :=
  match op with
  | OpAdd id _ _ => peers r !! id = None
  | OpAddAt id _ _ idx => peers r !! id = None ∧ (0 ≤ idx ≤ 254)%Z
  | _ => True
  end.

Inductive room_steps : Room → Room → Prop :=
  | steps_refl r : room_steps r r
  | steps_more r r' op : room_steps r r' → op_ok op r' → room_steps r (room_step op r').

Definition room_reachable (r : Room) : Prop :=
  ∃ community channel, room_steps (room_new community channel) r.

(** How often index [i] was given out in a stretch of the roster log. *)
Definition joins_at (i : Z) (log : list RosterDelta) : Z :=
  Z.of_nat (length (filter (λ d, rp_index <$> joined d = Some i) log)).

Record room_inv (r : Room) : Prop := {
  inv_active i : i ∈ active_indices (guard r) ↔ ∃ id p, peers r !! id = Some p ∧ peer_index p = i;
  inv_inj id1 id2 p1 p2 : peers r !! id1 = Some p1 → peers r !! id2 = Some p2 →
    peer_index p1 = peer_index p2 → id1 = id2;
  inv_cap : size (peers r) ≤ MAX_PEERS_PER_ROOM;
  inv_next : (0 ≤ next_candidate (guard r) ≤ 254)%Z;
  inv_index id p : peers r !! id = Some p → (0 ≤ peer_index p ≤ 254)%Z;
  inv_pin id p : peers r !! id = Some p → pinned_version (guard r) = Some (protocol_version p);
  inv_revision : roster_revision (guard r) = (Z.of_nat (length (roster_log r)) `mod` 2 ^ 64)%Z;
  inv_log k d : roster_log r !! k = Some d → rd_revision d = ((Z.of_nat k + 1) `mod` 2 ^ 64)%Z;
  inv_one k d : roster_log r !! k = Some d →
    (∃ p, joined d = Some p ∧ left_ d = None) ∨ (∃ p, joined d = None ∧ left_ d = Some p);
  inv_slots i : epoch_slot (guard r) i = (joins_at i (roster_log r) `mod` 256)%Z;
  inv_epochs k d rp : roster_log r !! k = Some d → joined d = Some rp →
    rp_epoch rp = (joins_at (rp_index rp) (take k (roster_log r)) `mod` 256)%Z;
  inv_occupant id p : peers r !! id = Some p →
    epoch p = ((joins_at (peer_index p) (roster_log r) - 1) `mod` 256)%Z;
  inv_queues id p : peers r !! id = Some p →
    length (audio_queue p) ≤ AUDIO_CHANNEL_CAPACITY ∧ length (ctrl_queue p) ≤ CTRL_CHANNEL_CAPACITY;
}.

(** The guard after handing index [idx] to a peer speaking [v]. *)
Record grants (idx v : Z) (g g' : AdmissionGuard) : Prop := {
  gr_free : idx ∉ active_indices g;
  gr_range : (0 ≤ idx ≤ 254)%Z;
  gr_active : active_indices g' = {[idx]} ∪ active_indices g;
  gr_epochs : index_epochs g' = <[idx := u8_wrapping_add (epoch_slot g idx) 1]> (index_epochs g);
  gr_next : (0 ≤ next_candidate g' ≤ 254)%Z;
  gr_pin : pinned_version g' = Some v;
  gr_pinned : pinned_version g = None ∨ pinned_version g = Some v;
  gr_revision : roster_revision g' = roster_revision g;
}.

Lemma joins_at_app i l l' : joins_at i (l ++ l') = (joins_at i l + joins_at i l')%Z.
Proof. unfold joins_at. rewrite filter_app, length_app. lia. Qed.

Lemma joins_at_join i rev rp :
  joins_at i [MkDelta rev (Some rp) None] = if decide (rp_index rp = i) then 1%Z else 0%Z.
Proof.
  unfold joins_at. rewrite filter_cons, filter_nil. simpl.
  repeat case_decide; simplify_eq/=; done.
Qed.

Lemma joins_at_leave i rev rp : joins_at i [MkDelta rev None (Some rp)] = 0%Z.
Proof. done. Qed.

Lemma u64_next n : u64_wrapping_add (n `mod` 2 ^ 64) 1 = ((n + 1) `mod` 2 ^ 64)%Z.
Proof. unfold u64_wrapping_add. by rewrite Zplus_mod_idemp_l. Qed.

Lemma u8_next n : u8_wrapping_add (n `mod` 256) 1 = ((n + 1) `mod` 256)%Z.
Proof. unfold u8_wrapping_add. by rewrite Zplus_mod_idemp_l. Qed.

Lemma log_step_inv r (d : RosterDelta) :
  room_inv r → rd_revision d = u64_wrapping_add (roster_revision (guard r)) 1 →
  rd_revision d = (Z.of_nat (length (roster_log r ++ [d])) `mod` 2 ^ 64)%Z ∧
  (∀ k d', (roster_log r ++ [d]) !! k = Some d' →
     rd_revision d' = ((Z.of_nat k + 1) `mod` 2 ^ 64)%Z).
Proof.
  intros Hi Hd. rewrite (inv_revision _ Hi), u64_next in Hd. rewrite length_app. simpl.
  rewrite Nat2Z.inj_add. split; [done|].
  intros k d' [[_ Hk]|[-> <-]]%lookup_snoc_Some; [by apply (inv_log _ Hi)|done].
Qed.

Lemma take_snoc_le {A} k (l : list A) x : k ≤ length l → take k (l ++ [x]) = take k l.
Proof. apply take_app_le. Qed.

Lemma join_inv id key v idx e g r :
  room_inv r → peers r !! id = None → size (peers r) < MAX_PEERS_PER_ROOM →
  grants idx v (guard r) g → e = epoch_slot (guard r) idx →
  room_inv (publish_join id key v idx e g r).1.
Proof.
  intros Hi Hid Hsz Hg ->. unfold publish_join. simpl. rewrite (gr_revision _ _ _ _ Hg).
  set (d := MkDelta _ _ _). destruct (log_step_inv r d Hi eq_refl) as [Hrev Hlog].
  assert (Hje : ∀ i, joins_at i [d] = if decide (idx = i) then 1%Z else 0%Z)
    by (intros i; apply joins_at_join).
  pose proof (inv_slots _ Hi idx) as Hslot.
  constructor; simpl; try done.
  - intros i. rewrite (gr_active _ _ _ _ Hg), elem_of_union, elem_of_singleton, (inv_active _ Hi). split.
    + intros [->|(id' & p & Hp & <-)].
      * exists id. eexists. by rewrite lookup_insert_eq.
      * exists id', p. rewrite lookup_insert_ne; [done|]. by intros ->; simplify_eq.
    + intros (id' & p & [[<- <-]|[? Hp]]%lookup_insert_Some & Hx); [by left|right; eauto].
  - assert (Hno : ∀ id' p, peers r !! id' = Some p → peer_index p = idx → False).
    { intros id' p Hp Hx. apply (gr_free _ _ _ _ Hg), (inv_active _ Hi). eauto. }
    intros id1 id2 p1 p2 [[<- <-]|[? Hp]]%lookup_insert_Some
      [[<- <-]|[? Hp']]%lookup_insert_Some Heq; simpl in *; try done.
    + by destruct (Hno _ _ Hp').
    + by destruct (Hno _ _ Hp).
    + by eapply (inv_inj _ Hi).
  - rewrite map_size_insert_None by done. lia.
  - apply (gr_next _ _ _ _ Hg).
  - intros id' p [[<- <-]|[? Hp]]%lookup_insert_Some; [apply Hg|by eapply (inv_index _ Hi)].
  - intros id' p [[<- <-]|[? Hp]]%lookup_insert_Some; simpl; rewrite (gr_pin _ _ _ _ Hg); [done|].
    pose proof (inv_pin _ Hi _ _ Hp). by destruct (gr_pinned _ _ _ _ Hg); congruence.
  - intros k d' [[_ Hl]|[-> <-]]%lookup_snoc_Some; [by eapply (inv_one _ Hi)|left; by eexists].
  - intros i. rewrite joins_at_app, Hje. unfold epoch_slot. simpl. rewrite (gr_epochs _ _ _ _ Hg).
    case_decide; subst.
    + rewrite lookup_insert_eq. simpl. rewrite Hslot. apply u8_next.
    + rewrite lookup_insert_ne by done. rewrite Z.add_0_r. apply (inv_slots _ Hi).
  - intros k d' rp [[Hk Hl]|[-> <-]]%lookup_snoc_Some Hj.
    + rewrite take_snoc_le by lia. by eapply (inv_epochs _ Hi).
    + rewrite take_app_length. simplify_eq/=. apply Hslot.
  - intros id' p [[<- <-]|[? Hp]]%lookup_insert_Some; simpl; rewrite joins_at_app, Hje.
    + rewrite decide_True by done. rewrite Hslot. f_equal. lia.
    + rewrite decide_False, Z.add_0_r; [by eapply (inv_occupant _ Hi)|].
      intros ->. apply (gr_free _ _ _ _ Hg), (inv_active _ Hi). eauto.
  - intros id' p [[<- <-]|[? Hp]]%lookup_insert_Some; simpl; [lia|by eapply (inv_queues _ Hi)].
Qed.

Lemma leave_inv id p r :
  room_inv r → peers r !! id = Some p → room_inv (publish_leave id p r).2.
Proof.
  intros Hi Hid. unfold publish_leave. simpl. set (d := MkDelta _ _ _).
  destruct (log_step_inv r d Hi eq_refl) as [Hrev Hlog].
  assert (Hje : ∀ i, joins_at i (roster_log r ++ [d]) = joins_at i (roster_log r))
    by (intros i; rewrite joins_at_app; unfold d; rewrite joins_at_leave; lia).
  constructor; simpl; try done.
  - intros i. rewrite elem_of_difference, elem_of_singleton, (inv_active _ Hi). split.
    + intros [(id' & q & Hq & <-) Hne]. exists id', q. by rewrite lookup_delete_ne by congruence.
    + intros (id' & q & [Hne Hq]%lookup_delete_Some & <-). split; [by eauto|].
      intros Heq. by apply Hne, (inv_inj _ Hi _ _ _ _ Hid Hq).
  - intros id1 id2 p1 p2 [_ H1]%lookup_delete_Some [_ H2]%lookup_delete_Some. by apply (inv_inj _ Hi).
  - rewrite map_size_delete_Some by eauto. pose proof (inv_cap _ Hi). lia.
  - apply (inv_next _ Hi).
  - intros id' q [_ Hq]%lookup_delete_Some. by eapply (inv_index _ Hi).
  - intros id' q [_ Hq]%lookup_delete_Some. by eapply (inv_pin _ Hi).
  - intros k d' [[_ Hl]|[-> <-]]%lookup_snoc_Some; [by eapply (inv_one _ Hi)|right; by eexists].
  - intros i. rewrite Hje. apply (inv_slots _ Hi).
  - intros k d' rp [[Hk Hl]|[-> <-]]%lookup_snoc_Some Hj; [|done].
    rewrite take_snoc_le by lia. by eapply (inv_epochs _ Hi).
  - intros id' q [_ Hq]%lookup_delete_Some. rewrite Hje. by eapply (inv_occupant _ Hi).
  - intros id' q [_ Hq]%lookup_delete_Some. by eapply (inv_queues _ Hi).
Qed.

(** Frames and control messages touch the queues only. *)
Record same_seat (p p' : AudioPeer) : Prop := {
  ss_key : pubkey p' = pubkey p;
  ss_index : peer_index p' = peer_index p;
  ss_epoch : epoch p' = epoch p;
  ss_version : protocol_version p' = protocol_version p;
}.

Lemma send_audio_seat f p : same_seat p (send_audio f p).
Proof. unfold send_audio. by case_match. Qed.

Lemma send_ctrl_seat c p : same_seat p (send_ctrl c p).
Proof. done. Qed.

Lemma send_audio_bounded f p :
  length (audio_queue p) ≤ AUDIO_CHANNEL_CAPACITY →
  length (audio_queue (send_audio f p)) ≤ AUDIO_CHANNEL_CAPACITY.
Proof.
  unfold send_audio. case_match eqn:Hlt; [|done]. apply Nat.ltb_lt in Hlt. simpl.
  rewrite length_app. simpl. lia.
Qed.

Lemma send_ctrl_bounded c p :
  length (ctrl_queue p) ≤ CTRL_CHANNEL_CAPACITY →
  length (ctrl_queue (send_ctrl c p)) ≤ CTRL_CHANNEL_CAPACITY.
Proof.
  unfold send_ctrl. simpl. case_match eqn:Hlt; [|done]. intros _.
  apply andb_true_iff in Hlt as [_ Hlt%Nat.ltb_lt]. rewrite length_app. simpl. lia.
Qed.

Lemma queues_inv (f : Uuid → AudioPeer → AudioPeer) r :
  room_inv r → (∀ id p, same_seat p (f id p)) →
  (∀ id p, length (audio_queue p) ≤ AUDIO_CHANNEL_CAPACITY →
     length (ctrl_queue p) ≤ CTRL_CHANNEL_CAPACITY →
     length (audio_queue (f id p)) ≤ AUDIO_CHANNEL_CAPACITY ∧
     length (ctrl_queue (f id p)) ≤ CTRL_CHANNEL_CAPACITY) →
  room_inv (set_peers (map_imap (λ id p, Some (f id p)) (peers r)) r).
Proof.
  intros Hi Hs Hq.
  assert (Hl : ∀ id p, map_imap (λ id p, Some (f id p)) (peers r) !! id = Some p →
            ∃ q, peers r !! id = Some q ∧ p = f id q).
  { intros id p. rewrite map_lookup_imap. intros (q & -> & [= <-])%bind_Some. eauto. }
  unfold set_peers. constructor; simpl; try apply Hi.
  - intros i. rewrite (inv_active _ Hi). split.
    + intros (id & p & Hp & <-). exists id, (f id p). rewrite map_lookup_imap, Hp.
      split; [done|apply Hs].
    + intros (id & p & (q & Hp & ->)%Hl & <-). exists id, q. split; [done|]. symmetry. apply Hs.
  - intros id1 id2 p1 p2 (q1 & H1 & ->)%Hl (q2 & H2 & ->)%Hl.
    rewrite !(ss_index _ _ (Hs _ _)). by apply (inv_inj _ Hi).
  - etrans; [|apply (inv_cap _ Hi)]. rewrite <-!size_dom. apply subseteq_size, dom_imap_subseteq.
  - intros id p (q & Hp & ->)%Hl. rewrite (ss_index _ _ (Hs _ _)). by eapply (inv_index _ Hi).
  - intros id p (q & Hp & ->)%Hl. rewrite (ss_version _ _ (Hs _ _)). by eapply (inv_pin _ Hi).
  - intros id p (q & Hp & ->)%Hl. rewrite (ss_index _ _ (Hs _ _)), (ss_epoch _ _ (Hs _ _)).
    by eapply (inv_occupant _ Hi).
  - intros id p (q & Hp & ->)%Hl. by apply Hq; eapply (inv_queues _ Hi).
Qed.

(** *** The index allocator finds the first free index of the rotation *)

Lemma after_index_mod i : (0 ≤ i ≤ 254)%Z → after_index i = ((i + 1) `mod` 255)%Z.
Proof.
  intros Hr. unfold after_index, u8_wrapping_add. case_bool_decide as Hb; subst; [done|].
  rewrite !Z.mod_small by lia. done.
Qed.

Lemma alloc_loop_finds n k (g : AdmissionGuard) :
  k < n → (0 ≤ next_candidate g ≤ 254)%Z →
  (∀ j, j < k → ((next_candidate g + Z.of_nat j) `mod` 255)%Z ∈ active_indices g) →
  ((next_candidate g + Z.of_nat k) `mod` 255)%Z ∉ active_indices g →
  let idx := ((next_candidate g + Z.of_nat k) `mod` 255)%Z in
  alloc_loop n g =
    (Some (idx, epoch_slot g idx),
     MkGuard (after_index idx) ({[idx]} ∪ active_indices g)
       (<[idx := u8_wrapping_add (epoch_slot g idx) 1]> (index_epochs g)) (ended g)
       (pinned_version g) (roster_revision g)).
Proof.
  revert n g. induction k as [|k IH]; intros [|n] g Hk Hr Ha Hf; try lia; cbn zeta; simpl.
  - rewrite Z.add_0_r, Z.mod_small in * by lia. by rewrite bool_decide_false.
  - assert (H0 : next_candidate g ∈ active_indices g).
    { specialize (Ha 0 ltac:(lia)). by rewrite Z.add_0_r, Z.mod_small in Ha by lia. }
    rewrite bool_decide_true by done.
    assert (Hm : ∀ j, ((after_index (next_candidate g) + Z.of_nat j) `mod` 255)%Z
                      = ((next_candidate g + Z.of_nat (S j)) `mod` 255)%Z).
    { intros j. rewrite after_index_mod, Zplus_mod_idemp_l by done. f_equal. lia. }
    set (g1 := MkGuard (after_index (next_candidate g)) (active_indices g) (index_epochs g)
                 (ended g) (pinned_version g) (roster_revision g)).
    assert (Hn1 : (0 ≤ next_candidate g1 ≤ 254)%Z).
    { simpl. rewrite after_index_mod by done.
      pose proof (Z.mod_pos_bound (next_candidate g + 1) 255). lia. }
    specialize (IH n g1 ltac:(lia) Hn1). simpl in IH. rewrite Hm in IH. apply IH; [|done].
    intros j Hj. rewrite Hm. apply Ha. lia.
Qed.

Lemma size_list_to_set_le (l : list Z) : size (list_to_set l : gset Z) ≤ length l.
Proof.
  induction l as [|x l IH]; [done|]. cbn [list_to_set length].
  change (list_to_set (x :: l) : gset Z) with ({[x]} ∪ list_to_set l : gset Z).
  rewrite size_union_alt, size_singleton.
  assert (size ((list_to_set l : gset Z) ∖ {[x]}) ≤ size (list_to_set l : gset Z))
    by (apply subseteq_size; set_solver). lia.
Qed.

Lemma active_size r : room_inv r → size (active_indices (guard r)) ≤ size (peers r).
Proof.
  intros Hi. etrans; [apply subseteq_size|etrans; [apply (size_list_to_set_le
    (peer_index <$> (map_to_list (peers r)).*2))|]].
  - intros i Hin. apply (inv_active _ Hi) in Hin as (id & p & Hp & <-).
    apply elem_of_list_to_set, list_elem_of_fmap. exists p. split; [done|].
    apply list_elem_of_fmap. exists (id, p). split; [done|]. by apply elem_of_map_to_list.
  - by rewrite !length_fmap, length_map_to_list.
Qed.

(** The least witness of a decidable property below a bound, or none. *)
Lemma least_below (P : nat → Prop) `{∀ n, Decision (P n)} n :
  (∃ k, k < n ∧ P k ∧ ∀ j, j < k → ¬ P j) ∨ (∀ k, k < n → ¬ P k).
Proof.
  induction n as [|n [(k & ? & ? & ?)|IH]]; [right; lia|left; exists k; split_and!; auto; lia|].
  destruct (decide (P n)) as [Hp|Hp].
  - left. exists n. split_and!; [lia|done|done].
  - right. intros k Hk. destruct (decide (k = n)) as [->|]; [done|apply IH; lia].
Qed.

Lemma next_free r :
  room_inv r → size (peers r) < 255 →
  ∃ k, k < 255 ∧ ((next_candidate (guard r) + Z.of_nat k) `mod` 255)%Z ∉ active_indices (guard r) ∧
    ∀ j, j < k →
      ((next_candidate (guard r) + Z.of_nat j) `mod` 255)%Z ∈ active_indices (guard r).
Proof.
  intros Hi Hsz. set (n := next_candidate (guard r)).
  destruct (least_below (λ k, (n + Z.of_nat k) `mod` 255 ∉ active_indices (guard r))%Z 255)
    as [(k & Hk & Hf & Hm)|Hno].
  - exists k. split_and!; [done|done|]. intros j Hj%Hm. by apply dec_stable in Hj.
  - exfalso. set (l := (λ k, (n + Z.of_nat k) `mod` 255)%Z <$> seq 0 255).
    assert (Hnd : NoDup l).
    { apply NoDup_fmap_2_strong; [|apply NoDup_seq]. intros x y Hx%elem_of_seq Hy%elem_of_seq Heq.
      rewrite (Z.add_comm n), (Z.add_comm n (Z.of_nat y)) in Heq.
      assert (Z.of_nat x - Z.of_nat y = 255 * ((Z.of_nat x + n) / 255 - (Z.of_nat y + n) / 255))%Z.
      { pose proof (Z.div_mod (Z.of_nat x + n) 255). pose proof (Z.div_mod (Z.of_nat y + n) 255). lia. }
      lia. }
    assert (Hsub : list_to_set l ⊆ active_indices (guard r)).
    { intros i (k & -> & Hk%elem_of_seq)%elem_of_list_to_set%list_elem_of_fmap.
      eapply dec_stable, Hno. lia. }
    apply subseteq_size in Hsub. rewrite size_list_to_set in Hsub by done.
    unfold l in Hsub. rewrite length_fmap, length_seq in Hsub.
    pose proof (active_size _ Hi). lia.
Qed.

(** *** Each step keeps the invariant *)

Lemma version_check_None g v :
  version_check g v = None ↔ pinned_version g = None ∨ pinned_version g = Some v.
Proof.
  unfold version_check. destruct (pinned_version g) as [p|]; [|by split; auto].
  case_bool_decide as Hb; split; intros Hx; destruct_or?; simplify_eq; auto.
Qed.

Lemma add_peer_joins id key v r :
  room_inv r → ended (guard r) = false → size (peers r) < MAX_PEERS_PER_ROOM →
  version_check (guard r) v = None →
  ∃ k g, let idx := ((next_candidate (guard r) + Z.of_nat k) `mod` 255)%Z in
    grants idx v (guard r) g ∧ ended g = false ∧
    (∀ j, j < k →
      ((next_candidate (guard r) + Z.of_nat j) `mod` 255)%Z ∈ active_indices (guard r)) ∧
    add_peer id key v r =
      (Ok (idx, epoch_slot (guard r) idx, u64_wrapping_add (roster_revision (guard r)) 1),
       (publish_join id key v idx (epoch_slot (guard r) idx) g r).1).
Proof.
  intros Hi He Hsz Hv. unfold add_peer. rewrite He, Hv.
  rewrite (proj2 (Nat.leb_gt _ _) Hsz). unfold alloc.
  destruct (next_free r Hi) as (k & Hk & Hf & Hm); [unfold MAX_PEERS_PER_ROOM in *; lia|].
  pose proof (alloc_loop_finds 255 k (guard r) Hk (inv_next _ Hi) Hm Hf) as Ha. cbn zeta in Ha.
  rewrite Ha. clear Ha. exists k. cbn zeta.
  set (idx := ((next_candidate (guard r) + Z.of_nat k) `mod` 255)%Z) in *.
  assert (Hidx : (0 ≤ idx ≤ 254)%Z) by (pose proof (Z.mod_pos_bound
    (next_candidate (guard r) + Z.of_nat k) 255); unfold idx; lia).
  exists (set_pin (get_or_insert v (pinned_version (guard r)))
    (MkGuard (after_index idx) ({[idx]} ∪ active_indices (guard r))
       (<[idx := u8_wrapping_add (epoch_slot (guard r) idx) 1]> (index_epochs (guard r)))
       (ended (guard r)) (pinned_version (guard r)) (roster_revision (guard r)))).
  split_and!; [|done|done|done].
  - constructor; simpl; try done.
    + rewrite after_index_mod by done. pose proof (Z.mod_pos_bound (idx + 1) 255). lia.
    + apply version_check_None in Hv as [-> | ->]; done.
    + by apply version_check_None.
Qed.

Lemma add_at_joins id key v idx r :
  ended (guard r) = false → size (peers r) < MAX_PEERS_PER_ROOM → (0 ≤ idx ≤ 254)%Z →
  idx ∉ active_indices (guard r) → version_check (guard r) v = None →
  ∃ g, grants idx v (guard r) g ∧ ended g = false ∧
    add_peer_at_index id key v idx r =
      (Ok (epoch_slot (guard r) idx, u64_wrapping_add (roster_revision (guard r)) 1),
       (publish_join id key v idx (epoch_slot (guard r) idx) g r).1).
Proof.
  intros He Hsz Hidx Hf Hv. unfold add_peer_at_index. rewrite He, Hv.
  rewrite (proj2 (Nat.leb_gt _ _) Hsz), bool_decide_false by done.
  exists (MkGuard (after_index idx) ({[idx]} ∪ active_indices (guard r))
    (<[idx := u8_wrapping_add (epoch_slot (guard r) idx) 1]> (index_epochs (guard r)))
    (ended (guard r)) (get_or_insert v (pinned_version (guard r))) (roster_revision (guard r))).
  split_and!; [|done|done]. constructor; simpl; try done.
  - rewrite after_index_mod by done. pose proof (Z.mod_pos_bound (idx + 1) 255). lia.
  - apply version_check_None in Hv as [-> | ->]; done.
  - by apply version_check_None.
Qed.

(** A refused admission changes nothing. *)
Lemma add_peer_refused id key v r :
  room_inv r →
  ended (guard r) = true ∨ MAX_PEERS_PER_ROOM ≤ size (peers r) ∨ version_check (guard r) v ≠ None →
  (add_peer id key v r).2 = r.
Proof.
  intros Hi Hr. unfold add_peer. case_match; [done|]. case_match eqn:Hsz; [done|].
  case_match eqn:Hv; [done|]. apply Nat.leb_gt in Hsz. destruct_or? Hr; [done|lia|done].
Qed.

Lemma add_at_refused id key v idx r :
  ended (guard r) = true ∨ MAX_PEERS_PER_ROOM ≤ size (peers r) ∨ idx ∈ active_indices (guard r) ∨
    version_check (guard r) v ≠ None →
  (add_peer_at_index id key v idx r).2 = r.
Proof.
  intros Hr. unfold add_peer_at_index. case_match; [done|]. case_match eqn:Hsz; [done|].
  case_match eqn:Hv; [done|]. bool_to_prop. apply Nat.leb_gt in H0. destruct_or? Hr; [done|lia|done|done].
Qed.

Lemma guard_only_inv f r :
  room_inv r →
  (∀ g, active_indices (f g) = active_indices g ∧ next_candidate (f g) = next_candidate g ∧
        pinned_version (f g) = pinned_version g ∧ roster_revision (f g) = roster_revision g ∧
        index_epochs (f g) = index_epochs g) →
  room_inv (set_guard (f (guard r)) r).
Proof.
  intros Hi Hf. destruct (Hf (guard r)) as (Ha & Hn & Hp & Hr & He).
  constructor; simpl; unfold epoch_slot; rewrite ?Ha, ?Hn, ?Hp, ?Hr, ?He; apply Hi.
Qed.

Lemma set_ended_inv b r : room_inv r → room_inv (set_guard (set_ended b (guard r)) r).
Proof. intros Hi. by apply guard_only_inv. Qed.

Lemma room_new_inv c ch : room_inv (room_new c ch).
Proof.
  constructor; simpl; try done; unfold MAX_PEERS_PER_ROOM; try lia.
  - intros i. split; [set_solver|]. by intros (? & ? & ?%lookup_empty_Some & _).
  - rewrite map_size_empty. lia.
Qed.

Lemma step_inv op r : room_inv r → op_ok op r → room_inv (room_step op r).
Proof.
  intros Hi Hok. destruct op as [id key v|id key v idx|id|id| | |s f|a f|j]; simpl in *.
  - destruct (ended (guard r)) eqn:He; [by rewrite add_peer_refused by auto|].
    destruct (decide (MAX_PEERS_PER_ROOM ≤ size (peers r))); [by rewrite add_peer_refused by auto|].
    destruct (version_check (guard r) v) eqn:Hv; [by rewrite add_peer_refused by (rewrite ?Hv; auto)|].
    destruct (add_peer_joins id key v r) as (k & g & Hg & _ & _ & ->); try done; [lia|].
    apply join_inv; try done. lia.
  - destruct Hok as [Hid Hidx]. destruct (ended (guard r)) eqn:He; [by rewrite add_at_refused by auto|].
    destruct (decide (MAX_PEERS_PER_ROOM ≤ size (peers r))); [by rewrite add_at_refused by auto|].
    destruct (decide (idx ∈ active_indices (guard r))); [by rewrite add_at_refused by auto|].
    destruct (version_check (guard r) v) eqn:Hv; [by rewrite add_at_refused by (rewrite ?Hv; auto)|].
    destruct (add_at_joins id key v idx r) as (g & Hg & _ & ->); try done; [lia|].
    apply join_inv; try done. lia.
  - unfold remove_peer. destruct (peers r !! id) as [p|] eqn:Hp; [|done].
    destruct (publish_leave id p r) as [d r'] eqn:Hl. simpl. change r' with (d, r').2.
    rewrite <-Hl. by apply leave_inv.
  - unfold remove_peer_and_check_ended. destruct (peers r !! id) as [p|] eqn:Hp; [|done].
    destruct (publish_leave id p r) as [d r'] eqn:Hl.
    assert (room_inv r') by (change r' with (d, r').2; rewrite <-Hl; by apply leave_inv).
    case_match; [|done]. by apply set_ended_inv.
  - by apply set_ended_inv.
  - by apply set_ended_inv.
  - unfold broadcast_frame. case_match; [|done].
    eapply (queues_inv (λ id p, if bool_decide (id = s) then p else send_audio _ p)); [done| |].
    + intros. by case_bool_decide; [|apply send_audio_seat].
    + intros. case_bool_decide; [done|]. split; [by apply send_audio_bounded|].
      unfold send_audio. by case_match.
  - eapply (queues_inv (λ id p, if bool_decide (peer_index p = a) then p else send_audio _ p)); [done| |].
    + intros. by case_bool_decide; [|apply send_audio_seat].
    + intros. case_bool_decide; [done|]. split; [by apply send_audio_bounded|].
      unfold send_audio. by case_match.
  - apply (queues_inv (λ _ p, send_ctrl (Json j) p)); [done|done|].
    intros. split; [done|by apply send_ctrl_bounded].
Qed.

(** *** Reachable rooms *)

Lemma steps_inv r r' : room_inv r → room_steps r r' → room_inv r'.
Proof. intros Hi Hs. induction Hs; [done|]. by apply step_inv; [apply IHHs|]. Qed.

Lemma reachable_inv r : room_reachable r → room_inv r.
Proof. intros (c & ch & Hs). eapply steps_inv; [apply room_new_inv|done]. Qed.

(** *** The roster log replays to the roster *)

(** What a delta does to a roster kept in index order. *)
Definition apply_delta (roster : list RosterPeer) (d : RosterDelta) : list RosterPeer :=
  let kept := match left_ d with
              | Some gone => filter (λ p, rp_index p ≠ rp_index gone) roster
              | None => roster
              end in
  sort_by_key rp_index (match joined d with Some new => new :: kept | None => kept end).

Definition replay (log : list RosterDelta) : list RosterPeer := foldl apply_delta [] log.

Definition room_roster (ps : gmap Uuid AudioPeer) : list RosterPeer :=
  (λ e : Uuid * AudioPeer, roster_entry e.2) <$> map_to_list ps.

Lemma replay_snoc log d : replay (log ++ [d]) = apply_delta (replay log) d.
Proof. unfold replay. by rewrite foldl_app. Qed.

Lemma room_roster_NoDup r : room_inv r → NoDup (rp_index <$> room_roster (peers r)).
Proof.
  intros Hi. unfold room_roster. rewrite <-list_fmap_compose. simpl.
  apply NoDup_fmap_2_strong; [|apply NoDup_map_to_list].
  intros [i p] [j q] Hp%elem_of_map_to_list Hq%elem_of_map_to_list Heq. simpl in Heq.
  assert (i = j) as -> by (eapply (inv_inj _ Hi); eauto). congruence.
Qed.

Lemma roster_join id p ps :
  ps !! id = None → room_roster (<[id := p]> ps) ≡ₚ roster_entry p :: room_roster ps.
Proof. intros Hid. unfold room_roster. by rewrite map_to_list_insert. Qed.

Lemma roster_leave id p ps :
  ps !! id = Some p → room_roster ps ≡ₚ roster_entry p :: room_roster (delete id ps).
Proof.
  intros Hid. unfold room_roster. symmetry.
  apply (fmap_Permutation (λ e : Uuid * AudioPeer, roster_entry e.2) _ _
    (map_to_list_delete _ _ _ Hid)).
Qed.

Lemma roster_queues (f : Uuid → AudioPeer → AudioPeer) r :
  room_inv r → (∀ id p, same_seat p (f id p)) →
  room_roster (map_imap (λ id p, Some (f id p)) (peers r)) ≡ₚ room_roster (peers r).
Proof.
  intros Hi Hf.
  assert (He : ∀ id p, roster_entry (f id p) = roster_entry p)
    by (intros id p; unfold roster_entry; by destruct (Hf id p) as [-> -> -> _]).
  unfold room_roster. generalize (peers r). intros ps.
  induction ps as [|id p ps Hn IH] using map_ind; [by rewrite map_imap_empty|].
  rewrite map_imap_insert. cbn beta iota.
  rewrite !map_to_list_insert; simpl; [by rewrite He, IH|done|by rewrite map_lookup_imap, Hn].
Qed.

(** What a step does to the peers and the log. *)
Inductive step_shape (r r' : Room) : Prop :=
  | shape_join id p rev :
      peers r !! id = None → peers r' = <[id := p]> (peers r) →
      roster_log r' = roster_log r ++ [MkDelta rev (Some (roster_entry p)) None] → step_shape r r'
  | shape_leave id p rev :
      peers r !! id = Some p → peers r' = delete id (peers r) →
      roster_log r' = roster_log r ++ [MkDelta rev None (Some (roster_entry p))] → step_shape r r'
  | shape_quiet :
      room_roster (peers r') ≡ₚ room_roster (peers r) → roster_log r' = roster_log r →
      step_shape r r'.

Lemma step_has_shape op r : room_inv r → op_ok op r → step_shape r (room_step op r).
Proof.
  intros Hi Hok. destruct op as [id key v|id key v idx|id|id| | |s f|a f|j]; simpl in *.
  - unfold add_peer. repeat case_match; simpl; try by apply shape_quiet.
    unfold publish_join in *. simplify_eq/=. by eapply shape_join.
  - destruct Hok as [Hid _]. unfold add_peer_at_index, publish_join.
    repeat case_match; simplify_eq/=; try by apply shape_quiet. by eapply shape_join.
  - unfold remove_peer, publish_leave. case_match; simpl; [by eapply shape_leave|by apply shape_quiet].
  - unfold remove_peer_and_check_ended, publish_leave. case_match; [|by apply shape_quiet].
    case_match; simpl; by eapply shape_leave.
  - by apply shape_quiet.
  - by apply shape_quiet.
  - unfold broadcast_frame. case_match; [|by apply shape_quiet]. apply shape_quiet; [|done]. simpl.
    eapply (roster_queues (λ id p, if bool_decide (id = s) then p else send_audio _ p)); [done|].
    intros. by case_bool_decide; [|apply send_audio_seat].
  - apply shape_quiet; [|done]. simpl.
    eapply (roster_queues (λ id p, if bool_decide (peer_index p = a) then p else send_audio _ p)); [done|].
    intros. by case_bool_decide; [|apply send_audio_seat].
  - apply shape_quiet; [|done]. by apply (roster_queues (λ _ p, send_ctrl (Json j) p)).
Qed.

Lemma roster_join_delta roster rev (new : RosterPeer) :
  apply_delta roster (MkDelta rev (Some new) None) = sort_by_key rp_index (new :: roster).
Proof. done. Qed.

(** Distinct indices: removing an entry is filtering its index out. *)
Lemma filter_out_index (gone : RosterPeer) l :
  NoDup (rp_index <$> gone :: l) →
  filter (λ p, rp_index p ≠ rp_index gone) (gone :: l) = l.
Proof.
  cbn [fmap list_fmap]. intros [Hn _]%NoDup_cons.
  rewrite filter_cons, decide_False by (intros H; by apply H).
  apply list_filter_all, Forall_forall. intros q Hq Heq. apply Hn. rewrite <-Heq.
  by apply list_elem_of_fmap_2.
Qed.

Lemma shape_replay r r' :
  room_inv r → room_inv r' → step_shape r r' →
  sort_by_key rp_index (room_roster (peers r)) = replay (roster_log r) →
  sort_by_key rp_index (room_roster (peers r')) = replay (roster_log r').
Proof.
  intros Hi Hi' Hs Heq. pose proof (room_roster_NoDup _ Hi) as Hnd.
  pose proof (room_roster_NoDup _ Hi') as Hnd'.
  destruct Hs as [id p rev Hid Hp Hl|id p rev Hid Hp Hl|Hp Hl]; rewrite Hl, ?replay_snoc, <-Heq.
  - rewrite roster_join_delta. apply sort_by_key_unique; [|done]. rewrite Hp, roster_join by done.
    by rewrite sort_by_key_perm.
  - unfold apply_delta. simpl. apply sort_by_key_unique; [|done]. rewrite Hp, sort_by_key_perm.
    pose proof (roster_leave _ _ _ Hid) as Hrl. rewrite Hrl in Hnd. rewrite Hrl.
    apply Permutation_refl'. symmetry. by apply (filter_out_index (roster_entry p)).
  - by apply sort_by_key_unique.
Qed.

Lemma steps_replay r r' :
  room_inv r → room_steps r r' →
  sort_by_key rp_index (room_roster (peers r)) = replay (roster_log r) →
  sort_by_key rp_index (room_roster (peers r')) = replay (roster_log r').
Proof.
  intros Hi Hs. induction Hs as [|r r' op Hs IH Hok]; [done|]. intros Heq.
  assert (room_inv r') by by eapply steps_inv. eapply shape_replay; [done| | |by apply IH].
  - by apply step_inv.
  - by apply step_has_shape.
Qed.

(** The log only grows. *)
Lemma steps_log_prefix r r' : room_inv r → room_steps r r' → roster_log r `prefix_of` roster_log r'.
Proof.
  intros Hi Hs. induction Hs as [|r r' op Hs IH Hok]; [done|]. etrans; [by apply IH|].
  destruct (step_has_shape op r') as [???? ? ->|???? ? ->|? ->]; try done;
    [by eapply steps_inv|by apply prefix_app_r..].
Qed.

Section reachable.
Context {MI : MapIter Uuid}.

Lemma snapshot_replays r :
  room_reachable r → rs_peers (roster_snapshot r) = replay (roster_log r).
Proof.
  intros Hr. pose proof (reachable_inv _ Hr) as Hi. destruct Hr as (c & ch & Hs).
  unfold roster_snapshot. simpl. etrans; [|eapply (steps_replay (room_new c ch) r)];
    [|apply room_new_inv|done|done].
  symmetry. apply sort_by_key_unique; [|by apply room_roster_NoDup].
  change (map roster_entry (map_iter (peers r)).*2)
    with (roster_entry <$> (snd <$> map_iter (peers r))).
  rewrite <-list_fmap_compose. unfold room_roster. by rewrite (map_iter_perm (peers r)).
Qed.
End reachable.

(** ** What the room promises *)

(** In every reachable room: at most 25 peers, each at its own routing
    index in 0..=254 and the set of active indices is exactly theirs; every
    peer speaks the pinned protocol version; the revision is the number of
    roster changes so far each published delta is one join or one
    leave and they carry consecutive revisions; the epoch of a join is the number of earlier joins at that index
    modulo 256; no channel holds more messages than its capacity. *)
Theorem room_invariant r : room_reachable r → room_inv r.
Proof. apply reachable_inv. Qed.

(** Admission, on every branch.  An ended room refuses with [Ended], a room
    of 25 peers with [Full], another protocol version with [VersionMismatch],
    in this order and leaving the room as it was.  Otherwise the peer is always
    admitted, at the first index of the rotation 0..=254 from the cursor that
    no peer holds, with the epoch that counts the earlier occupants of that
    index; the room is pinned to its version and the join is published. *)
Theorem add_peer_admission r id key v :
  room_reachable r →
  let g := guard r in
  let '(res, r') := add_peer id key v r in
  (ended g = true → res = Err Ended ∧ r' = r) ∧
  (ended g = false → MAX_PEERS_PER_ROOM ≤ size (peers r) → res = Err Full ∧ r' = r) ∧
  (ended g = false → size (peers r) < MAX_PEERS_PER_ROOM → ∀ pinned,
    pinned_version g = Some pinned → pinned ≠ v → res = Err (VersionMismatch pinned v) ∧ r' = r) ∧
  (ended g = false → size (peers r) < MAX_PEERS_PER_ROOM →
    pinned_version g = None ∨ pinned_version g = Some v →
    ∃ k, let idx := ((next_candidate g + Z.of_nat k) `mod` 255)%Z in
         let e := (joins_at idx (roster_log r) `mod` 256)%Z in
         let revision := (Z.of_nat (S (length (roster_log r))) `mod` 2 ^ 64)%Z in
      (∀ j, j < k → ((next_candidate g + Z.of_nat j) `mod` 255)%Z ∈ active_indices g) ∧
      (∀ id' p, peers r !! id' = Some p → peer_index p ≠ idx) ∧
      res = Ok (idx, e, revision) ∧
      peers r' = <[id := MkPeer key [] [] true idx e v]> (peers r) ∧
      pinned_version (guard r') = Some v ∧ ended (guard r') = false ∧
      roster_log r' = roster_log r ++ [MkDelta revision (Some (MkRosterPeer key idx e)) None]).
Proof.
  intros Hr. pose proof (reachable_inv _ Hr) as Hi. cbn zeta.
  destruct (add_peer id key v r) as [res r'] eqn:Ha. split_and!.
  - intros He. unfold add_peer in Ha. rewrite He in Ha. by simplify_eq.
  - intros He Hsz. unfold add_peer in Ha. rewrite He, (proj2 (Nat.leb_le _ _) Hsz) in Ha.
    by simplify_eq.
  - intros He Hsz pinned Hp Hne. unfold add_peer, version_check in Ha.
    rewrite He, (proj2 (Nat.leb_gt _ _) Hsz), Hp, bool_decide_true in Ha by done. by simplify_eq.
  - intros He Hsz Hp%version_check_None.
    destruct (add_peer_joins id key v r) as (k & g & Hg & He' & Hm & Heq); try done.
    rewrite Heq in Ha. simplify_eq/=. exists k. pose proof (gr_free _ _ _ _ Hg) as Hf.
    rewrite (gr_revision _ _ _ _ Hg), (gr_pin _ _ _ _ Hg), <-(inv_slots _ Hi), (inv_revision _ Hi).
    rewrite u64_next, Nat2Z.inj_succ. split_and!; try done.
    intros id' p Hid' Hx. apply Hf, (inv_active _ Hi). eauto.
Qed.

(** Fencing by epoch: when two joins were given the same index and the same
    epoch, at least 256 joins at that index lie from the first up to the
    second, so a frame of a departed occupant is told apart from its
    successors' for 255 reuses of the index. *)
Theorem epoch_fence r a b da db pa pb :
  room_reachable r → a < b →
  roster_log r !! a = Some da → joined da = Some pa →
  roster_log r !! b = Some db → joined db = Some pb →
  rp_index pa = rp_index pb → rp_epoch pa = rp_epoch pb →
  (256 ≤ joins_at (rp_index pa) (drop a (take b (roster_log r))))%Z.
Proof.
  intros Hr Hab Ha Hja Hb Hjb Hidx Hep. pose proof (reachable_inv _ Hr) as Hi.
  rewrite (inv_epochs _ Hi _ _ _ Ha Hja), (inv_epochs _ Hi _ _ _ Hb Hjb), <-Hidx in Hep.
  set (i := rp_index pa) in *. set (log := roster_log r) in *.
  assert (Hsplit : take b log = take a log ++ drop a (take b log)).
  { rewrite <-(take_drop a (take b log)) at 1. rewrite take_take. by rewrite Nat.min_l by lia. }
  assert (Hpos : (0 < joins_at i (drop a (take b log)))%Z).
  { assert (Hin : da ∈ drop a (take b log)).
    { apply list_elem_of_lookup. exists 0. rewrite lookup_drop, lookup_take_lt by lia.
      by rewrite Nat.add_0_r. }
    unfold joins_at. assert (Hf : da ∈ filter (λ d, rp_index <$> joined d = Some i) (drop a (take b log)))
      by (apply list_elem_of_filter; by rewrite Hja).
    destruct (filter _ _); [by apply not_elem_of_nil in Hf|simpl; lia]. }
  rewrite Hsplit, joins_at_app in Hep.
  set (x := joins_at i (take a log)) in *. set (y := joins_at i (drop a (take b log))) in *.
  pose proof (Z.div_mod x 256). pose proof (Z.div_mod (x + y) 256). lia.
Qed.

(** *** Ending a room *)

Definition room_run (ops : list room_op) (r : Room) : Room :=
  foldl (λ r op, room_step op r) r ops.

(** An ended, empty room. *)
Definition closed_at (r0 r : Room) : Prop :=
  ended (guard r) = true ∧ peers r = ∅ ∧ roster_log r = roster_log r0.

Lemma closed_step r0 r op : closed_at r0 r → op ≠ OpClearEnded → closed_at r0 (room_step op r).
Proof.
  intros (He & Hp & Hl) Hop. unfold closed_at.
  destruct op; simpl; unfold add_peer, add_peer_at_index, remove_peer, remove_peer_and_check_ended,
    broadcast_frame, deliver_prefixed, broadcast_control; rewrite ?Hp, ?He, ?map_imap_empty; done.
Qed.

Lemma closed_run r0 ops r :
  closed_at r0 r → OpClearEnded ∉ ops → closed_at r0 (room_run ops r).
Proof.
  revert r. induction ops as [|op ops IH]; intros r Hc; [done|].
  intros [Hne Hnin]%not_elem_of_cons. simpl. apply IH; [|done]. by apply closed_step.
Qed.

Lemma remove_check_ends id r d r1 :
  remove_peer_and_check_ended id r = (Some (d, true), r1) →
  ended (guard r) = false ∧ (∃ p, peers r = {[id := p]}) ∧ closed_at r1 r1.
Proof.
  unfold remove_peer_and_check_ended, publish_leave. destruct (peers r !! id) as [p|] eqn:Hp; [|done].
  case_match eqn:Hb; intros; simplify_eq. bool_to_prop. unfold room_is_empty in *. bool_to_prop.
  simpl in *. split_and!; [done| |split_and!; done].
  exists p. apply map_eq. intros j. destruct (decide (j = id)) as [->|Hne].
  - by rewrite lookup_singleton_eq.
  - rewrite lookup_singleton_ne by done. rewrite <-(lookup_delete_ne (peers r) id j) by done.
    by rewrite H0.
Qed.

(** The auto-end is won exactly once.  Removing a peer asks for the end of
    the room iff it was the last peer of a room not ended yet; from then on,
    until [clear_ended], whatever calls interleave, the room stays empty and
    ended, no join is admitted, no second removal reports anything and nothing
    is published. *)
Theorem auto_end_once id r ops :
  OpClearEnded ∉ ops →
  (∀ d r1, remove_peer_and_check_ended id r = (Some (d, true), r1) →
     ended (guard r) = false ∧ (∃ p, peers r = {[id := p]}) ∧
     let r2 := room_run ops r1 in
     peers r2 = ∅ ∧ ended (guard r2) = true ∧ roster_log r2 = roster_log r1 ∧
     (∀ id', remove_peer_and_check_ended id' r2 = (None, r2)) ∧
     (∀ id' key v, add_peer id' key v r2 = (Err Ended, r2)) ∧
     (∀ id' key v idx, add_peer_at_index id' key v idx r2 = (Err Ended, r2))) ∧
  (∀ p, peers r = {[id := p]} → ended (guard r) = false →
     ∃ d r1, remove_peer_and_check_ended id r = (Some (d, true), r1)).
Proof.
  intros Hops. split.
  - intros d r1 (He & Hp & Hc)%remove_check_ends. split; [done|]. split; [done|]. cbn zeta.
    destruct (closed_run _ ops _ Hc Hops) as (He2 & Hp2 & Hl2). split_and!; try done.
    + intros id'. unfold remove_peer_and_check_ended. by rewrite Hp2.
    + intros. unfold add_peer. by rewrite He2.
    + intros. unfold add_peer_at_index. by rewrite He2.
  - intros p Hp He. unfold remove_peer_and_check_ended, publish_leave, room_is_empty.
    rewrite Hp, lookup_singleton_eq. simpl. rewrite He, delete_singleton_eq. simpl. eauto.
Qed.

(** *** Fan-out *)

(** The peer after a frame was offered to it. *)
Lemma send_audio_queue frame q :
  audio_queue (send_audio frame q) =
    if (length (audio_queue q) <? AUDIO_CHANNEL_CAPACITY)%nat then audio_queue q ++ [frame]
    else audio_queue q.
Proof. unfold send_audio. by case_match. Qed.

Lemma send_audio_ctrl frame q : ctrl_queue (send_audio frame q) = ctrl_queue q.
Proof. unfold send_audio. by destruct (_ <? _). Qed.

(** Skipping by id and skipping by routing index agree. *)
Lemma broadcast_as_deliver r sender s frame :
  room_inv r → peers r !! sender = Some s →
  broadcast_frame sender frame r = deliver_prefixed (peer_index s) (frame_prefix s ++ frame) r.
Proof.
  intros Hi Hs. unfold broadcast_frame, deliver_prefixed. rewrite Hs. f_equal. apply map_eq.
  intros id. rewrite !map_lookup_imap. destruct (peers r !! id) as [q|] eqn:Hq; [|done].
  simpl. f_equal. case_bool_decide as H1; case_bool_decide as H2; try done; [congruence|].
  destruct H1. by eapply (inv_inj _ Hi).
Qed.

(** A frame reaches every other peer of the sender's room and nobody else:
    behind the sender's index, and its epoch in a room pinned to version 3 or
    later, it is appended to each channel that has space and dropped for the
    others, the sender's own channel is left alone and seats, guard and log do
    not change.  Skipping by id and skipping by routing index agree, so the
    mesh delivery of the same bytes has the same effect. *)
Theorem broadcast_frame_fanout r sender s v frame :
  room_reachable r → peers r !! sender = Some s → pinned_version (guard r) = Some v →
  let prefixed := (if (3 <=? v)%Z then [peer_index s; epoch s] else [peer_index s]) ++ frame in
  let r' := broadcast_frame sender frame r in
  peers r' !! sender = Some s ∧
  (∀ id q, id ≠ sender → peers r !! id = Some q →
     ∃ q', peers r' !! id = Some q' ∧ same_seat q q' ∧ ctrl_queue q' = ctrl_queue q ∧
       audio_queue q' = (if (length (audio_queue q) <? AUDIO_CHANNEL_CAPACITY)%nat
                         then audio_queue q ++ [prefixed] else audio_queue q)) ∧
  dom (peers r') = dom (peers r) ∧ guard r' = guard r ∧ roster_log r' = roster_log r ∧
  r' = deliver_prefixed (peer_index s) prefixed r.
Proof.
  intros Hr Hs Hv. pose proof (reachable_inv _ Hr) as Hi. cbn zeta.
  assert (Hpre : frame_prefix s = if (3 <=? v)%Z then [peer_index s; epoch s] else [peer_index s]).
  { unfold frame_prefix. pose proof (inv_pin _ Hi _ _ Hs) as Hp. rewrite Hv in Hp. by simplify_eq. }
  rewrite <-Hpre. pose proof (broadcast_as_deliver _ _ _ frame Hi Hs) as Hd.
  split_and!; [| | | | |exact Hd]; clear Hd; unfold broadcast_frame; rewrite Hs; simpl; try done.
  - rewrite map_lookup_imap, Hs. simpl. by rewrite bool_decide_true.
  - intros id q Hne Hq. rewrite map_lookup_imap, Hq. simpl. rewrite bool_decide_false by done.
    eexists. split; [done|]. split; [apply send_audio_seat|].
    split; [apply send_audio_ctrl|apply send_audio_queue].
  - apply set_eq. intros id. rewrite !elem_of_dom, map_lookup_imap. by destruct (peers r !! id).
Qed.

(** *** The registry *)

Inductive manager_steps : AudioRoomManager → Prop :=
  | ms_new : manager_steps manager_new
  | ms_get m c ch : manager_steps m → manager_steps (get_or_create c ch m).2
  | ms_cleanup m c ch : manager_steps m → manager_steps (cleanup_if_empty c ch m).2
  | ms_room m a r op :
      manager_steps m → heap m !! a = Some r → op_ok op r →
      manager_steps (MkManager (rooms m) (<[a := room_step op r]> (heap m))).

Lemma publish_same_room id key v idx e g r :
  room_community (publish_join id key v idx e g r).1 = room_community r ∧
  room_channel (publish_join id key v idx e g r).1 = room_channel r.
Proof. done. Qed.

(** A room never changes its community or channel. *)
Lemma step_same_room op r :
  room_community (room_step op r) = room_community r ∧
  room_channel (room_step op r) = room_channel r.
Proof.
  destruct op; simpl; unfold add_peer, add_peer_at_index, remove_peer, remove_peer_and_check_ended,
    broadcast_frame, publish_leave, publish_join; repeat case_match; simplify_eq/=; done.
Qed.

(** Every room of the heap is reachable and registered under its own key. *)
Definition manager_inv (m : AudioRoomManager) : Prop :=
  (∀ a r, heap m !! a = Some r → room_reachable r) ∧
  (∀ c ch a, rooms m !! (c, ch) = Some a →
     ∃ r, heap m !! a = Some r ∧ room_community r = c ∧ room_channel r = ch).

Lemma manager_steps_inv m : manager_steps m → manager_inv m.
Proof.
  induction 1 as [|m c ch _ [IHh IHr]|m c ch _ [IHh IHr]|m a r op _ [IHh IHr] Ha Hok].
  - split; [done|]. simpl. intros c ch a Ha. by rewrite lookup_empty in Ha.
  - unfold get_or_create. destruct (rooms m !! (c, ch)) as [a|] eqn:Hk; [by split|]. split; simpl.
    + intros a r [[_ Ha]|[_ <-]]%lookup_snoc_Some; [by eapply IHh|]. exists c, ch. constructor.
    + intros c' ch' a [[[= <- <-] <-]|[_ Ha]]%lookup_insert_Some.
      * exists (room_new c ch). split; [|done]. by apply list_lookup_middle.
      * destruct (IHr _ _ _ Ha) as (r & Hr & ? & ?). exists r. split; [|done].
        by apply lookup_app_l_Some.
  - unfold cleanup_if_empty. case_match; [|by split]. case_match; [|by split]. split; simpl; [done|].
    intros c' ch' a [_ Ha]%lookup_delete_Some. eauto.
  - split; simpl.
    + intros a' r' [(-> & <- & _)|[_ Ha']]%list_lookup_insert_Some; [|by eapply IHh].
      destruct (IHh _ _ Ha) as (c & ch & Hs). exists c, ch. by constructor.
    + intros c ch a' (r' & Hr' & Hc & Hch)%IHr. destruct (decide (a' = a)) as [->|Hne].
      * exists (room_step op r). destruct (step_same_room op r) as [-> ->]. simplify_eq.
        split; [|done]. apply list_lookup_insert_eq. by eapply lookup_lt_Some.
      * exists r'. by rewrite list_lookup_insert_ne by done.
Qed.

Lemma NoDup_only {A} (x : A) l : NoDup l → x ∈ l → (∀ y, y ∈ l → y = x) → l = [x].
Proof.
  intros Hnd Hx Hall. destruct l as [|y l]; [by apply not_elem_of_nil in Hx|].
  assert (y = x) as -> by (apply Hall; left). apply NoDup_cons in Hnd as [Hn _].
  destruct l as [|z l]; [done|]. destruct Hn. rewrite (Hall z) by (right; left). left.
Qed.

Lemma unambiguous_spec {MI : MapIter RoomKey} (m : AudioRoomManager) ch a :
  get_unambiguous_by_channel ch m = Some a ↔
    ∃ c, rooms m !! (c, ch) = Some a ∧ ∀ c', is_Some (rooms m !! (c', ch)) → c' = c.
Proof.
  unfold get_unambiguous_by_channel.
  set (l := filter (λ e : RoomKey * RoomRef, e.1.2 = ch) (map_iter (rooms m))).
  assert (Hl : ∀ c' ch' b, ((c', ch'), b) ∈ l ↔ ch' = ch ∧ rooms m !! (c', ch') = Some b).
  { intros c' ch' b. unfold l. by rewrite list_elem_of_filter, elem_of_map_iter. }
  assert (Hnd : NoDup l) by apply NoDup_filter, NoDup_map_iter. clearbody l. split.
  - destruct l as [|[[c ch'] b] [|]]; [done| |done]. intros [= ->].
    destruct (Hl c ch' a) as [[-> Ha] _]; [left|]. exists c. split; [done|].
    intros c' [b Hb]. assert (((c', ch), b) ∈ [((c, ch), a)]) as Hin by (by apply Hl).
    apply list_elem_of_singleton in Hin. by simplify_eq.
  - intros (c & Ha & Huniq). rewrite (NoDup_only ((c, ch), a) l); [done|done|by apply Hl|].
    intros [[c' ch'] b] [-> Hb]%Hl. assert (c' = c) as -> by (apply Huniq; by eexists). by simplify_eq.
Qed.

(** Tenants are kept apart.  Whatever joins, removals, frames and evictions
    happened, a key of the registry leads to a reachable room of that very
    community and channel, so two keys never share a room; looking a room up
    by channel alone answers only when exactly one community has a room there;
    [get_or_create] registers a new empty room only when there was none and
    leaves the other keys alone; an eviction removes only the asked key, and
    only when nobody is in its room. *)
Theorem manager_isolation {MI : MapIter RoomKey} (m : AudioRoomManager) :
  manager_steps m →
  (∀ c ch a, rooms m !! (c, ch) = Some a →
     ∃ r, heap m !! a = Some r ∧ room_community r = c ∧ room_channel r = ch ∧ room_reachable r) ∧
  (∀ k k' a, rooms m !! k = Some a → rooms m !! k' = Some a → k = k') ∧
  (∀ ch a, get_unambiguous_by_channel ch m = Some a ↔
     ∃ c, rooms m !! (c, ch) = Some a ∧ ∀ c', is_Some (rooms m !! (c', ch)) → c' = c) ∧
  (∀ c ch, let '(a, m') := get_or_create c ch m in
     get_room c ch m' = Some a ∧
     (∀ a', get_room c ch m = Some a' → a = a' ∧ m' = m) ∧
     (get_room c ch m = None → heap m' !! a = Some (room_new c ch) ∧ heap m !! a = None) ∧
     (∀ k, k ≠ (c, ch) → rooms m' !! k = rooms m !! k)) ∧
  (∀ c ch, let '(removed, m') := cleanup_if_empty c ch m in
     heap m' = heap m ∧ (∀ k, k ≠ (c, ch) → rooms m' !! k = rooms m !! k) ∧
     (removed = true ↔ ∃ a r, rooms m !! (c, ch) = Some a ∧ heap m !! a = Some r ∧ peers r = ∅) ∧
     get_room c ch m' = if removed then None else get_room c ch m).
Proof.
  intros [Hh Hr]%manager_steps_inv. split_and!.
  - intros c ch a (r & Ha & ? & ?)%Hr. exists r. split_and!; eauto.
  - intros [c ch] [c' ch'] a (r & Ha & <- & <-)%Hr (r' & Ha' & <- & <-)%Hr. by simplify_eq.
  - intros ch a. apply unambiguous_spec.
  - intros c ch. unfold get_or_create, get_room. destruct (rooms m !! (c, ch)) as [a|] eqn:Hk.
    + split_and!; try done. intros a' [= ->]. done.
    + simpl. split_and!; try done.
      * by rewrite lookup_insert_eq.
      * intros _. split; [by apply list_lookup_middle|]. by apply lookup_ge_None_2.
      * intros k Hne. by rewrite lookup_insert_ne.
  - intros c ch. unfold cleanup_if_empty, get_room.
    destruct (rooms m !! (c, ch)) as [a|] eqn:Hk; simpl.
    2: { split_and!; try done. split; [done|]. by intros (? & ? & ? & _). }
    destruct (heap m !! a) as [r|] eqn:Ha; simpl.
    2: { split_and!; try done. split; [done|]. intros (? & ? & ? & ? & _). by simplify_eq. }
    unfold room_is_empty. case_bool_decide as He; split_and!; try done; simpl.
    + intros k Hne. by rewrite lookup_delete_ne.
    + split; eauto.
    + by rewrite lookup_delete_eq.
    + split; [done|]. intros (? & ? & ? & ? & ?). by simplify_eq.
Qed.

(** ** Witnesses *)

Definition op_okb (op : room_op) (r : Room) : bool :=
  match op with
  | OpAdd id _ _ => bool_decide (peers r !! id = None)
  | OpAddAt id _ _ idx => bool_decide (peers r !! id = None) && (0 <=? idx)%Z && (idx <=? 254)%Z
  | _ => true
  end.

Fixpoint ops_okb (ops : list room_op) (r : Room) : bool :=
  match ops with
  | [] => true
  | op :: ops => op_okb op r && ops_okb ops (room_step op r)
  end.

Lemma run_steps ops r0 r : room_steps r0 r → ops_okb ops r = true → room_steps r0 (room_run ops r).
Proof.
  revert r. induction ops as [|op ops IH]; intros r Hs; [done|].
  cbn [ops_okb room_run foldl]. intros [Hop Hops]%andb_true_iff. apply IH; [|done].
  constructor; [done|]. destruct op; simpl in *; bool_to_prop; try done.
Qed.

Lemma run_reachable ops : ops_okb ops (room_new "c" "h") = true →
  room_reachable (room_run ops (room_new "c" "h")).
Proof. intros Hok. exists "c", "h". by apply run_steps; [constructor|]. Qed.

(** Two peers join, the first leaves, a third joins. *)
Definition demo_ops : list room_op :=
  [OpAdd "p1" "alice" 3; OpAdd "p2" "bob" 3; OpRemove "p1"; OpAddAt "p3" "carol" 3 0]%Z.
Definition demo_room : Room := room_run demo_ops (room_new "c" "h").

(** One peer comes and goes at index 7, often enough for its epoch to wrap. *)
Definition churn_ops : list room_op :=
  concat (replicate 257 [OpAddAt "p" "alice" 3 7; OpRemove "p"])%Z.
Definition churn_room : Room := room_run churn_ops (room_new "c" "h").

Lemma room_invariant_witness : room_reachable demo_room ∧ room_inv demo_room.
Proof.
  assert (Hr : room_reachable demo_room) by (apply run_reachable; vm_compute; reflexivity).
  split; [exact Hr|]. exact (room_invariant demo_room Hr).
Defined.

Lemma add_peer_admission_witness :
  room_reachable demo_room ∧
  (∃ k, (2 + Z.of_nat k) `mod` 255 = 2 ∧ (add_peer "p4" "dave" 3 demo_room).1 = Ok (2, 0, 5))%Z ∧
  (add_peer "p4" "dave" 2 demo_room).1 = Err (VersionMismatch 3 2).
Proof.
  assert (Hr : room_reachable demo_room) by (apply run_reachable; vm_compute; reflexivity).
  split; [exact Hr|]. pose proof (add_peer_admission demo_room "p4" "dave" 2 Hr) as Ha.
  cbn zeta in Ha. destruct (add_peer "p4" "dave" 2 demo_room) as [res r'].
  destruct Ha as (_ & _ & Hv & _). split.
  - exists 0. split; vm_compute; reflexivity.
  - apply Hv; [vm_compute; reflexivity|vm_compute; lia|vm_compute; reflexivity|lia].
Defined.

Lemma epoch_fence_witness :
  ∃ da db pa pb : _,
    roster_log churn_room !! 0 = Some da ∧ joined da = Some pa ∧
    roster_log churn_room !! 512 = Some db ∧ joined db = Some pb ∧
    rp_index pa = rp_index pb ∧ rp_epoch pa = rp_epoch pb ∧
    (256 ≤ joins_at (rp_index pa) (drop 0 (take 512 (roster_log churn_room))))%Z.
Proof.
  assert (Hr : room_reachable churn_room) by (apply run_reachable; vm_compute; reflexivity).
  set (p := MkRosterPeer "alice" 7 0). set (d := MkDelta 1 (Some p) None).
  set (d' := MkDelta 513 (Some p) None).
  assert (Ha : roster_log churn_room !! 0 = Some d) by (vm_compute; reflexivity).
  assert (Hb : roster_log churn_room !! 512 = Some d') by (vm_compute; reflexivity).
  exists d, d', p, p.
  refine (conj Ha (conj eq_refl (conj Hb (conj eq_refl (conj eq_refl (conj eq_refl _)))))).
  exact (epoch_fence churn_room 0 512 d d' p p Hr ltac:(lia) Ha eq_refl Hb eq_refl eq_refl eq_refl).
Defined.

Lemma auto_end_once_witness :
  let r := room_run [OpAdd "p1" "alice" 3]%Z (room_new "c" "h") in
  OpClearEnded ∉ [OpAdd "p2" "bob" 3; OpRemove "p1"]%Z ∧
  ∃ d r1, remove_peer_and_check_ended "p1" r = (Some (d, true), r1).
Proof.
  intros r. assert (Hops : OpClearEnded ∉ [OpAdd "p2" "bob" 3; OpRemove "p1"]%Z) by set_solver.
  split; [exact Hops|].
  apply (proj2 (auto_end_once "p1" r [OpAdd "p2" "bob" 3; OpRemove "p1"]%Z Hops)
           (MkPeer "alice" [] [] true 0 0 3)); vm_compute; reflexivity.
Defined.

Lemma broadcast_frame_fanout_witness :
  ∃ s, room_reachable demo_room ∧ peers demo_room !! "p3" = Some s ∧
    broadcast_frame "p3" [9]%Z demo_room = deliver_prefixed 0 ([0; 1] ++ [9])%Z demo_room.
Proof.
  assert (Hr : room_reachable demo_room) by (apply run_reachable; vm_compute; reflexivity).
  set (s := MkPeer "carol" [] [] true 0 1 3).
  assert (Hs : peers demo_room !! "p3" = Some s) by (vm_compute; reflexivity).
  assert (Hv : pinned_version (guard demo_room) = Some 3%Z) by (vm_compute; reflexivity).
  exists s. split; [exact Hr|]. split; [exact Hs|].
  destruct (broadcast_frame_fanout demo_room "p3" s 3 [9]%Z Hr Hs Hv) as (_ & _ & _ & _ & _ & Hd).
  exact Hd.
Defined.

Definition demo_manager : AudioRoomManager :=
  (get_or_create "c2" "h" (get_or_create "c1" "h" manager_new).2).2.

Lemma manager_isolation_witness :
  manager_steps demo_manager ∧ get_room "c1" "h" demo_manager = Some 0 ∧
  get_room "c2" "h" demo_manager = Some 1 ∧
  get_unambiguous_by_channel "h" demo_manager ≠ Some 0.
Proof.
  assert (Hm : manager_steps demo_manager) by (apply ms_get, ms_get, ms_new).
  split; [exact Hm|]. split; [vm_compute; reflexivity|]. split; [vm_compute; reflexivity|].
  destruct (manager_isolation demo_manager Hm) as (_ & _ & Hu & _).
  intros (c & Hc & Hall)%Hu. assert (H1 : "c1" = c) by (apply Hall; by eexists).
  assert (H2 : "c2" = c) by (apply Hall; by eexists). congruence.
Defined.
