(* ===== verification/Mesh.v ===== *)
(** * Relay mesh: membership, gossip and peer connections

    [crates/buzz-relay-mesh/src]: the gossip records and the pure scuttlebutt
    state of [gossip.rs], the membership table of [membership.rs] with its
    attested bootstrap from [registry.rs], and the peer connections of
    [runtime.rs] with the simultaneous-dial tie-break.

    The network is a step relation over the membership tables of any number of
    runtimes and the gossip in flight between them, which may be delivered late,
    repeatedly, out of order or never. *)

From stdpp Require Import base gmap strings list sorting.
From Stdlib Require Import ZArith Lia Ascii.
From S2P Require Import Prelude Text.

Local Open Scope Z_scope.

(** ** Gossip *)

Definition GOSSIP_PAYLOAD_VERSION : Z := 1.

(** A runtime id is kept as its hex string, which orders like its bytes; [load]
    is the bit pattern of the [f32]. *)
Record GossipRecord := {
  runtime_id : string;
  endpoint_addrs : list string;
  proto_version : Z;
  load : Z;
  draining : bool;
  capabilities : list string;
  version : Z;
  heartbeat_millis : Z;
}.

Definition new_record (id : string) (addrs : list string) (proto now : Z) : GossipRecord :=
  {| runtime_id := id; endpoint_addrs := addrs; proto_version := proto; load := 0;
     draining := false; capabilities := []; version := 1; heartbeat_millis := now |}.

(** [local_record.capabilities = capabilities();], before the relay joins. *)
Definition with_capabilities (caps : list string) (r : GossipRecord) : GossipRecord :=
  {| runtime_id := runtime_id r; endpoint_addrs := endpoint_addrs r; proto_version := proto_version r;
     load := load r; draining := draining r; capabilities := caps; version := version r;
     heartbeat_millis := heartbeat_millis r |}.

Record GossipDigestEntry := { entry_id : string; entry_version : Z }.

Inductive GossipMessage :=
  | Digest (v : Z) (entries : list GossipDigestEntry)
  | Delta (v : Z) (records : list GossipRecord).

(** [decode_message]; [from_bytes] is postcard's decoder. *)
Definition decode_message (from_bytes : string → option GossipMessage) (bytes : string)
    : result string GossipMessage :=
  match from_bytes bytes with
  | None => Err "frame decode"%string
  | Some m =>
      let v := match m with Digest v _ | Delta v _ => v end in
      if bool_decide (v = GOSSIP_PAYLOAD_VERSION) then Ok m
      else Err "unknown gossip payload version"%string
  end.

Definition entry_of (r : GossipRecord) : GossipDigestEntry :=
  {| entry_id := runtime_id r; entry_version := version r |}.

Definition digest_of (records : list GossipRecord) : GossipMessage :=
  Digest GOSSIP_PAYLOAD_VERSION (merge_sort (by_id entry_id) (entry_of <$> records)).

(** The digest as a map; a later entry for the same id wins. *)
Definition remote_versions (entries : list GossipDigestEntry) : gmap string Z :=
  list_to_map (reverse ((λ e, (entry_id e, entry_version e)) <$> entries)).

Definition behind (remote : gmap string Z) (r : GossipRecord) : bool :=
  match remote !! runtime_id r with None => true | Some v => v <? version r end.

Definition delta_of (records : list GossipRecord) (entries : list GossipDigestEntry)
    : GossipMessage :=
  let remote := remote_versions entries in
  Delta GOSSIP_PAYLOAD_VERSION
    (merge_sort (by_id runtime_id) (filter (λ r, behind remote r = true) records)).

(** The bump at the end of both [update_local]s. *)
Definition publish (now : Z) (r : GossipRecord) : GossipRecord :=
  {| runtime_id := runtime_id r; endpoint_addrs := endpoint_addrs r;
     proto_version := proto_version r; load := load r; draining := draining r;
     capabilities := capabilities r; version := u64_saturating_add (version r) 1;
     heartbeat_millis := now |}.

(** *** The pure scuttlebutt state *)

Record GossipState := { gs_records : gmap string GossipRecord }.

Section gossip_state.
Context {MI : MapIter string}.

Definition gs_new (local : GossipRecord) : GossipState :=
  {| gs_records := {[ runtime_id local := local ]} |}.
Definition gs_list (s : GossipState) : list GossipRecord := snd <$> map_iter (gs_records s).
Definition gs_update_local (id : string) (update : GossipRecord → GossipRecord) (now : Z)
    (s : GossipState) : option GossipRecord * GossipState :=
  match gs_records s !! id with
  | None => (None, s)
  | Some r => let r' := publish now (update r) in
              (Some r', {| gs_records := <[id := r']> (gs_records s) |})
  end.
Definition gs_digest (s : GossipState) : GossipMessage := digest_of (gs_list s).
Definition gs_delta_for (entries : list GossipDigestEntry) (s : GossipState) : GossipMessage :=
  delta_of (gs_list s) entries.

Definition newer (m : gmap string GossipRecord) (r : GossipRecord) : bool :=
  match m !! runtime_id r with None => true | Some e => version e <? version r end.

Fixpoint apply_delta (records : list GossipRecord) (s : GossipState) : list string * GossipState :=
  match records with
  | [] => ([], s)
  | r :: records' =>
      if newer (gs_records s) r then
        let '(changed, s') :=
          apply_delta records' {| gs_records := <[runtime_id r := r]> (gs_records s) |} in
        (runtime_id r :: changed, s')
      else apply_delta records' s
  end.
End gossip_state.

(** *** Suspicion: the samples of [PhiAccrual] *)

Record PhiAccrual := { samples : list Z; last_heartbeat : option Z; max_samples : nat }.

Definition new_phi (n : nat) : PhiAccrual :=
  {| samples := []; last_heartbeat := None; max_samples := Nat.max n 1 |}.
Definition default_phi : PhiAccrual := new_phi 100.

Definition observe (at_ : Z) (p : PhiAccrual) : PhiAccrual :=
  let samples' :=
    match last_heartbeat p with
    | Some prev =>
        if prev <? at_ then
          let s := samples p ++ [at_ - prev] in
          if (max_samples p <? length s)%nat then tail s else s
        else samples p
    | None => samples p
    end in
  {| samples := samples'; last_heartbeat := Some at_; max_samples := max_samples p |}.

(** ** The membership table *)

Inductive ConnectionState := Disconnected | Connecting | Connected | Suspect.

Record MeshPeerCounters := {
  streams_opened : Z;
  streams_received : Z;
  datagrams_sent : Z;
  datagrams_received : Z;
  gossip_frames_sent : Z;
  gossip_frames_received : Z;
  stale_generations : Z;
}.

Definition no_counters : MeshPeerCounters := {|
  streams_opened := 0; streams_received := 0; datagrams_sent := 0; datagrams_received := 0;
  gossip_frames_sent := 0; gossip_frames_received := 0; stale_generations := 0 |}.

Record PeerState := {
  record : GossipRecord;
  phi : PhiAccrual;
  connection_state : ConnectionState;
  counters : MeshPeerCounters;
}.

Record MeshMembership := {
  local_runtime_id : string;
  local_record : GossipRecord;
  peers : gmap string PeerState;
  drain_flag : bool;
  stale_generation_rejections : Z;
  foreign_relay_rejections : Z;
  expected_relay_pubkey : option string;
}.

Definition new_membership (local : GossipRecord) : MeshMembership := {|
  local_runtime_id := runtime_id local; local_record := local; peers := ∅; drain_flag := false;
  stale_generation_rejections := 0; foreign_relay_rejections := 0; expected_relay_pubkey := None |}.

Definition set_local (r : GossipRecord) (m : MeshMembership) : MeshMembership := {|
  local_runtime_id := local_runtime_id m; local_record := r; peers := peers m;
  drain_flag := drain_flag m; stale_generation_rejections := stale_generation_rejections m;
  foreign_relay_rejections := foreign_relay_rejections m;
  expected_relay_pubkey := expected_relay_pubkey m |}.
Definition set_peers (p : gmap string PeerState) (m : MeshMembership) : MeshMembership := {|
  local_runtime_id := local_runtime_id m; local_record := local_record m; peers := p;
  drain_flag := drain_flag m; stale_generation_rejections := stale_generation_rejections m;
  foreign_relay_rejections := foreign_relay_rejections m;
  expected_relay_pubkey := expected_relay_pubkey m |}.
Definition set_drain (m : MeshMembership) : MeshMembership := {|
  local_runtime_id := local_runtime_id m; local_record := local_record m; peers := peers m;
  drain_flag := true; stale_generation_rejections := stale_generation_rejections m;
  foreign_relay_rejections := foreign_relay_rejections m;
  expected_relay_pubkey := expected_relay_pubkey m |}.
Definition reject_foreign (m : MeshMembership) : MeshMembership := {|
  local_runtime_id := local_runtime_id m; local_record := local_record m; peers := peers m;
  drain_flag := drain_flag m; stale_generation_rejections := stale_generation_rejections m;
  foreign_relay_rejections := u64_wrapping_add (foreign_relay_rejections m) 1;
  expected_relay_pubkey := expected_relay_pubkey m |}.
Definition with_expected_relay_pubkey (k : string) (m : MeshMembership) : MeshMembership := {|
  local_runtime_id := local_runtime_id m; local_record := local_record m; peers := peers m;
  drain_flag := drain_flag m; stale_generation_rejections := stale_generation_rejections m;
  foreign_relay_rejections := foreign_relay_rejections m; expected_relay_pubkey := Some k |}.

(** A newer record of a known peer; a first record. *)
Definition refresh_peer (r : GossipRecord) (p : PeerState) : PeerState := {|
  record := r; phi := observe (heartbeat_millis r) (phi p); connection_state := Connected;
  counters := counters p |}.
Definition first_seen (r : GossipRecord) : PeerState := {|
  record := r; phi := observe (heartbeat_millis r) default_phi; connection_state := Connected;
  counters := no_counters |}.

Definition apply_gossip_record (r : GossipRecord) (m : MeshMembership) : bool * MeshMembership :=
  if bool_decide (runtime_id r = local_runtime_id m) then (false, m)
  else match peers m !! runtime_id r with
  | Some p =>
      if version r <=? version (record p) then (false, m)
      else (true, set_peers (<[runtime_id r := refresh_peer r p]> (peers m)) m)
  | None => (true, set_peers (<[runtime_id r := first_seen r]> (peers m)) m)
  end.

Definition apply_records (rs : list GossipRecord) (m : MeshMembership) : MeshMembership :=
  foldl (λ m r, (apply_gossip_record r m).2) m rs.

Definition set_connection_state (s : ConnectionState) (p : PeerState) : PeerState := {|
  record := record p; phi := phi p; connection_state := s; counters := counters p |}.
Definition mark_connection_state (id : string) (s : ConnectionState) (m : MeshMembership)
    : MeshMembership := set_peers (alter (set_connection_state s) id (peers m)) m.

Definition update_local (update : GossipRecord → GossipRecord) (now : Z) (m : MeshMembership)
    : GossipRecord * MeshMembership :=
  let r := publish now (update (local_record m)) in (r, set_local r m).

Definition start_draining (r : GossipRecord) : GossipRecord := {|
  runtime_id := runtime_id r; endpoint_addrs := endpoint_addrs r; proto_version := proto_version r;
  load := load r; draining := true; capabilities := capabilities r; version := version r;
  heartbeat_millis := heartbeat_millis r |}.
Definition begin_drain (now : Z) (m : MeshMembership) : MeshMembership :=
  (update_local start_draining now (set_drain m)).2.

Definition is_draining (m : MeshMembership) : bool := drain_flag m.

Definition has_peer (id : string) (m : MeshMembership) : bool := bool_decide (is_Some (peers m !! id)).

Definition update_peer_counters (f : MeshPeerCounters → MeshPeerCounters) (id : string)
    (m : MeshMembership) : MeshMembership :=
  set_peers (alter (λ p, {| record := record p; phi := phi p;
     connection_state := connection_state p; counters := f (counters p) |}) id (peers m)) m.

Definition record_gossip_frame_received : string → MeshMembership → MeshMembership :=
  update_peer_counters (λ c, {| streams_opened := streams_opened c;
    streams_received := streams_received c; datagrams_sent := datagrams_sent c;
    datagrams_received := datagrams_received c; gossip_frames_sent := gossip_frames_sent c;
    gossip_frames_received := u64_saturating_add (gossip_frames_received c) 1;
    stale_generations := stale_generations c |}).

Section membership.
Context {MI : MapIter string}.

Definition records (m : MeshMembership) : list GossipRecord :=
  ((λ kp, record kp.2) <$> map_iter (peers m)) ++ [local_record m].
Definition digest (m : MeshMembership) : GossipMessage := digest_of (records m).
Definition delta_for (entries : list GossipDigestEntry) (m : MeshMembership) : GossipMessage :=
  delta_of (records m) entries.
End membership.

(** ** Attested bootstrap *)

(** secp256k1 and SHA-256.  [pubkey_from_hex] answers the key's canonical hex. *)
Class AttestOps := {
  pubkey_from_hex : string → option string;
  xonly : string → option string;
  sig_from_str : string → option string;
  sha256 : string → string;
  verify_schnorr : string → string → string → bool;
}.

Definition ATTESTATION_CONTEXT : string := "buzz-relay-mesh-ready-v1".
Definition newline : string := String (Ascii.ascii_of_N 10) "".
Definition attestation_preimage (id relay_pubkey : string) : string :=
  (ATTESTATION_CONTEXT +:+ newline +:+ "runtime_pubkey=" +:+ id +:+ newline
     +:+ "relay_pubkey=" +:+ relay_pubkey)%stdpp.

Record ReadyRecord := {
  ready_runtime_id : string;
  ready_runtime_pubkey : string;
  ready_relay_pubkey : string;
  ready_relay_sig : string;
  ready_endpoint_addrs : list string;
  ready_proto_version : Z;
  ready_capabilities : list string;
}.

Section attest.
Context `{AT : AttestOps}.

Definition attestation_message (id relay_pubkey : string) : string :=
  sha256 (attestation_preimage id relay_pubkey).

Definition verify_attestation (id relay_pubkey relay_sig : string) : result string unit :=
  match pubkey_from_hex relay_pubkey with
  | None => Err "ready registry attestation invalid relay_pubkey"%string
  | Some pk =>
      match xonly pk with
      | None => Err "ready registry attestation relay_pubkey xonly conversion failed"%string
      | Some x =>
          match sig_from_str relay_sig with
          | None => Err "ready registry attestation invalid relay_sig"%string
          | Some sig =>
              if verify_schnorr sig (attestation_message id pk) x then Ok tt
              else Err "ready registry attestation signature verification failed"%string
          end
      end
  end.

Definition ready_verify (r : ReadyRecord) : result string unit :=
  if bool_decide (ready_runtime_pubkey r ≠ ready_runtime_id r)
  then Err "ready registry runtime_id/runtime_pubkey mismatch"%string
  else verify_attestation (ready_runtime_id r) (ready_relay_pubkey r) (ready_relay_sig r).

Definition ready_gossip (now : Z) (r : ReadyRecord) : GossipRecord := {|
  runtime_id := ready_runtime_id r; endpoint_addrs := ready_endpoint_addrs r;
  proto_version := ready_proto_version r; load := 0; draining := false;
  capabilities := ready_capabilities r; version := 1; heartbeat_millis := now |}.

(** One turn of the loop of [apply_ready_records]. *)
Definition apply_ready (now : Z) (m : MeshMembership) (r : ReadyRecord) : MeshMembership :=
  if bool_decide (ready_runtime_id r = local_runtime_id m) then m
  else if bool_decide (expected_relay_pubkey m = Some (ready_relay_pubkey r)) then
    match ready_verify r with
    | Err _ => m
    | Ok _ => (apply_gossip_record (ready_gossip now r) m).2
    end
  else reject_foreign m.

Definition apply_ready_records (now : Z) (rs : list ReadyRecord) (m : MeshMembership)
    : MeshMembership := foldl (apply_ready now) m rs.
End attest.

(** ** The runtime: control streams and peer connections *)

Section runtime.
Context {MI : MapIter string}.

(** A gossip frame on the control stream of [from]: a digest is answered, a
    delta applied. *)
Definition on_gossip (from : string) (msg : GossipMessage) (m : MeshMembership)
    : option GossipMessage * MeshMembership :=
  let m := record_gossip_frame_received from m in
  match msg with
  | Digest _ entries => (Some (delta_for entries m), m)
  | Delta _ rs => (None, apply_records rs m)
  end.

(** The tick of [gossip_tick_loop]: bump the local record, then send the digest. *)
Definition gossip_tick (now : Z) (m : MeshMembership) : GossipMessage * MeshMembership :=
  let m := (update_local id now m).2 in (digest m, m).
End runtime.

(** The smaller runtime id is the canonical dialer. *)
Definition new_connection_wins (local remote : string) (new_dialed_by_us : bool) : bool :=
  if String.ltb local remote then new_dialed_by_us else negb new_dialed_by_us.

(** An installed connection; its tasks run in [Conns] below. *)
Record PeerEntry := { conn : nat; control_tx : bool }.

Record Runtime := { membership : MeshMembership; connections : gmap string PeerEntry }.

(** [install_peer]: the result, and the connection whose tasks are aborted. *)
Definition install_peer (remote : string) (c : nat) (dialed_by_us : bool) (rt : Runtime)
    : bool * option nat * Runtime :=
  let local := local_runtime_id (membership rt) in
  let install replaced :=
    (true, replaced,
     {| membership := mark_connection_state remote Connected (membership rt);
        connections := <[remote := {| conn := c; control_tx := dialed_by_us |}]> (connections rt) |}) in
  match connections rt !! remote with
  | Some existing =>
      if negb (new_connection_wins local remote dialed_by_us) then (false, None, rt)
      else install (Some (conn existing))
  | None => install None
  end.

Definition remove_peer (remote : string) (rt : Runtime) : option nat * Runtime :=
  match connections rt !! remote with
  | Some entry =>
      (Some (conn entry),
       {| membership := mark_connection_state remote Disconnected (membership rt);
          connections := delete remote (connections rt) |})
  | None => (None, rt)
  end.

Section admission.
Context {MI : MapIter string} `{AT : AttestOps}.

(** [scan] is what [scan_ready] answers: the records whose key and attestation
    are right, or an error; [None] without a registry. *)
Definition rescan (scan : option (result string (list ReadyRecord))) (now : Z)
    (m : MeshMembership) : MeshMembership :=
  match scan with
  | Some (Ok rs) => apply_ready_records now rs m
  | _ => m
  end.

Definition is_known_peer (id : string) (scan : option (result string (list ReadyRecord))) (now : Z)
    (m : MeshMembership) : bool * MeshMembership :=
  if has_peer id m then (true, m)
  else let m := rescan scan now m in (has_peer id m, m).

(** [scan_ready] keeps a decoded value only under its own key and attested. *)
Definition READY_KEY_PREFIX : string := "mesh:ready:".
Definition ready_key (id : string) : string := (READY_KEY_PREFIX +:+ id)%stdpp.
Definition scan_entry (entry : string * option ReadyRecord) : option ReadyRecord :=
  r ← entry.2;
  if bool_decide (ready_key (ready_runtime_id r) = entry.1) then
    match ready_verify r with Ok _ => Some r | Err _ => None end
  else None.
Definition scan_ready (store : list (string * option ReadyRecord)) : list ReadyRecord :=
  omap scan_entry store.

(** Whom [reconcile_once] dials, after the rescan. *)
Definition dial_candidates (rt : Runtime) : list GossipRecord :=
  filter (λ r, runtime_id r ≠ local_runtime_id (membership rt) ∧ draining r = false
               ∧ connections rt !! runtime_id r = None) (records (membership rt)).
End admission.

(** *** The receive loops of the connections to one remote

    Each connection has a receive loop, parked in its await until the connection
    errors; then it calls [remove_peer].  [abort] ends a loop only at an await. *)

Inductive LoopState := Receiving | Removing.

Record Conns := { runtime : Runtime; loops : gmap nat LoopState }.

Definition abort (c : option nat) (ls : gmap nat LoopState) : gmap nat LoopState :=
  match c with
  | Some c => match ls !! c with Some Receiving => delete c ls | _ => ls end
  | None => ls
  end.

Inductive conn_step (remote : string) (s : Conns) : Conns → Prop :=
  | conn_installed c by_us replaced rt' :
      loops s !! c = None →
      install_peer remote c by_us (runtime s) = (true, replaced, rt') →
      conn_step remote s {| runtime := rt'; loops := <[c := Receiving]> (abort replaced (loops s)) |}
  | conn_refused c by_us rt' :
      install_peer remote c by_us (runtime s) = (false, None, rt') →
      conn_step remote s {| runtime := rt'; loops := loops s |}
  | conn_error c :
      loops s !! c = Some Receiving →
      conn_step remote s {| runtime := runtime s; loops := <[c := Removing]> (loops s) |}
  | conn_removed c removed rt' :
      loops s !! c = Some Removing →
      remove_peer remote (runtime s) = (removed, rt') →
      conn_step remote s {| runtime := rt'; loops := abort removed (delete c (loops s)) |}.

(** ** The network *)

(** [published] remembers every record a runtime has had as its own. *)
Record Net := {
  nodes : gmap string MeshMembership;
  flight : list (string * string * GossipMessage);
  published : gmap (string * Z) GossipRecord;
}.

Definition with_node (i : string) (m : MeshMembership) (n : Net) : Net := {|
  nodes := <[i := m]> (nodes n); flight := flight n; published := published n |}.
Definition announce (r : GossipRecord) (n : Net) : Net := {|
  nodes := nodes n; flight := flight n;
  published := <[(runtime_id r, version r) := r]> (published n) |}.
Definition send (msgs : list (string * string * GossipMessage)) (n : Net) : Net := {|
  nodes := nodes n; flight := msgs ++ flight n; published := published n |}.

Definition empty_net : Net := {| nodes := ∅; flight := []; published := ∅ |}.

Section net.
Context {MI : MapIter string} `{AT : AttestOps}.

Inductive net_step (n : Net) : Net → Prop :=
  | net_boot i addrs proto now caps key :
      (* runtime ids are unique to a boot *)
      nodes n !! i = None →
      let r := with_capabilities caps (new_record i addrs proto now) in
      let m := new_membership r in
      net_step n (announce r (with_node i
        (match key with Some k => with_expected_relay_pubkey k m | None => m end) n))
  | net_tick i m now targets :
      nodes n !! i = Some m → version (local_record m) < u64_max →
      let d := (gossip_tick now m).1 in
      let m' := (gossip_tick now m).2 in
      net_step n (send ((λ j, (i, j, d)) <$> targets) (announce (local_record m') (with_node i m' n)))
  | net_update i m now update :
      nodes n !! i = Some m → version (local_record m) < u64_max →
      (* the callers' updates touch load, addresses and capabilities *)
      (∀ r, runtime_id (update r) = runtime_id r ∧ version (update r) = version r
            ∧ draining (update r) = draining r) →
      let m' := (update_local update now m).2 in
      net_step n (announce (local_record m') (with_node i m' n))
  | net_drain i m now :
      nodes n !! i = Some m → version (local_record m) < u64_max →
      let m' := begin_drain now m in
      net_step n (announce (local_record m') (with_node i m' n))
  | net_seed i m now rs :
      nodes n !! i = Some m → net_step n (with_node i (apply_ready_records now rs m) n)
  | net_connection i m j s :
      nodes n !! i = Some m → net_step n (with_node i (mark_connection_state j s m) n)
  | net_deliver i j msg m :
      (i, j, msg) ∈ flight n → nodes n !! j = Some m →
      let reply := (on_gossip i msg m).1 in
      net_step n (send (match reply with Some d => [(j, i, d)] | None => [] end)
                    (with_node j (on_gossip i msg m).2 n)).

Definition net_steps : relation Net := rtc net_step.
Definition net_reachable (n : Net) : Prop := net_steps empty_net n.
End net.

(** ** Lemmas: the table as one map *)

(** Every record is kept under its own id, and the local id is not a peer. *)
Record wf (m : MeshMembership) : Prop := {
  wf_local : runtime_id (local_record m) = local_runtime_id m;
  wf_peer : ∀ k p, peers m !! k = Some p → runtime_id (record p) = k ∧ k ≠ local_runtime_id m;
}.

(** All records a runtime knows, its own included. *)
Definition view (m : MeshMembership) : gmap string GossipRecord :=
  <[local_runtime_id m := local_record m]> (record <$> peers m).
Definition known (m : MeshMembership) (x : string) : Z :=
  match view m !! x with Some r => version r | None => 0 end.

Lemma view_peer m x : x ≠ local_runtime_id m → view m !! x = record <$> peers m !! x.
Proof. intros Hx. unfold view. by rewrite lookup_insert_ne, lookup_fmap. Qed.

Lemma view_local m : view m !! local_runtime_id m = Some (local_record m).
Proof. apply lookup_insert_eq. Qed.

Lemma known_local m : known m (local_runtime_id m) = version (local_record m).
Proof. unfold known. by rewrite view_local. Qed.

Lemma view_Some m x r : view m !! x = Some r ↔
  (local_runtime_id m = x ∧ local_record m = r) ∨
  (local_runtime_id m ≠ x ∧ ∃ p, record p = r ∧ peers m !! x = Some p).
Proof. unfold view. rewrite lookup_insert_Some, lookup_fmap_Some. done. Qed.

Lemma view_id m x r : wf m → view m !! x = Some r → runtime_id r = x.
Proof.
  intros [Hl Hp] [[<- <-]|(Hx & p & <- & Hr)]%view_Some; [done|]. by apply Hp in Hr as [? _].
Qed.

Lemma view_ext m m' :
  local_runtime_id m' = local_runtime_id m → local_record m' = local_record m →
  record <$> peers m' = record <$> peers m → view m' = view m.
Proof. unfold view. by intros -> -> ->. Qed.

Section table.
Context {MI : MapIter string}.

Lemma elem_of_records m r : wf m → r ∈ records m ↔ view m !! runtime_id r = Some r.
Proof.
  intros [Hl Hp]. unfold records. rewrite elem_of_app, list_elem_of_singleton, list_elem_of_fmap. split.
  - intros [([k p] & -> & Hin)| ->]; [|by rewrite Hl, view_local].
    apply elem_of_map_iter in Hin. simpl. destruct (Hp _ _ Hin) as [-> Hk].
    by rewrite view_peer, Hin.
  - intros [[Hx <-]|(Hx & p & <- & Hr)]%view_Some; [by right|left]. exists (runtime_id (record p), p).
    split; [done|]. by apply elem_of_map_iter.
Qed.

Lemma records_NoDup m : wf m → NoDup (runtime_id <$> records m).
Proof.
  intros [Hl Hp]. unfold records. rewrite fmap_app, <-list_fmap_compose. apply NoDup_app.
  assert ((runtime_id ∘ (λ kp : string * PeerState, record kp.2)) <$> map_iter (peers m)
          = (map_iter (peers m)).*1) as ->.
  { apply list_fmap_ext. intros i [k p] Hi%list_elem_of_lookup_2. apply elem_of_map_iter in Hi.
    simpl. by apply Hp in Hi as [-> _]. }
  split_and!; [apply NoDup_map_iter_fst| |apply NoDup_singleton].
  intros x [p Hx]%map_iter_keys ->%list_elem_of_singleton. apply Hp in Hx as [_ []]. done.
Qed.

Lemma records_gs m : wf m → records m ≡ₚ gs_list {| gs_records := view m |}.
Proof.
  intros Hwf. apply NoDup_Permutation.
  - eapply NoDup_fmap_1. by apply records_NoDup.
  - unfold gs_list. simpl. apply (NoDup_fmap_1 runtime_id). rewrite <-list_fmap_compose.
    assert ((runtime_id ∘ snd) <$> map_iter (view m) = (map_iter (view m)).*1) as ->; [|apply NoDup_map_iter_fst].
    apply list_fmap_ext. intros i [k r] Hi%list_elem_of_lookup_2. apply elem_of_map_iter in Hi.
    simpl. by eapply view_id.
  - intros r. rewrite elem_of_records by done. unfold gs_list. rewrite list_elem_of_fmap. simpl. split.
    + intros Hr. exists (runtime_id r, r). split; [done|]. by apply elem_of_map_iter.
    + intros ([k r'] & -> & Hin%elem_of_map_iter). simpl. by rewrite (view_id _ _ _ Hwf Hin).
Qed.

Lemma wf_apply r m : wf m → wf (apply_gossip_record r m).2.
Proof.
  intros [Hl Hp]. unfold apply_gossip_record. case_bool_decide as Hid; [done|].
  destruct (peers m !! runtime_id r) as [p|] eqn:Hr; [case_match; [done|]|];
    (split; [done|]; simpl; intros k p'; intros [[<- <-]|[_ Hk]]%lookup_insert_Some; [done|by apply Hp]).
Qed.

Lemma wf_apply_records rs m : wf m → wf (apply_records rs m).
Proof. revert m. induction rs as [|r rs IH]; intros m Hm; [done|]. by apply IH, wf_apply. Qed.

Lemma apply_local r m :
  local_runtime_id (apply_gossip_record r m).2 = local_runtime_id m
  ∧ local_record (apply_gossip_record r m).2 = local_record m
  ∧ drain_flag (apply_gossip_record r m).2 = drain_flag m.
Proof. unfold apply_gossip_record. case_bool_decide; [done|]. by repeat case_match. Qed.

Lemma apply_records_local rs m :
  local_runtime_id (apply_records rs m) = local_runtime_id m
  ∧ local_record (apply_records rs m) = local_record m
  ∧ drain_flag (apply_records rs m) = drain_flag m.
Proof.
  revert m. induction rs as [|r rs IH]; intros m; [done|]. simpl.
  destruct (IH (apply_gossip_record r m).2) as (-> & -> & ->). apply apply_local.
Qed.

(** Applying a record is a merge by version on the map of all records. *)
Lemma view_apply r m :
  runtime_id r ≠ local_runtime_id m →
  (apply_gossip_record r m).1 = newer (view m) r ∧
  view (apply_gossip_record r m).2 =
    if newer (view m) r then <[runtime_id r := r]> (view m) else view m.
Proof.
  intros Hid. unfold apply_gossip_record, newer. rewrite bool_decide_eq_false_2 by done.
  rewrite view_peer by done. destruct (peers m !! runtime_id r) as [p|] eqn:Hp; simpl.
  - rewrite Z.leb_antisym. destruct (version (record p) <? version r); simpl; [|done]. split; [done|].
    unfold view. simpl. rewrite fmap_insert. by rewrite insert_insert_ne by done.
  - split; [done|]. unfold view. simpl. rewrite fmap_insert. by rewrite insert_insert_ne by done.
Qed.

Lemma known_apply r m x :
  0 ≤ version r →
  known m x ≤ known (apply_gossip_record r m).2 x ∧
  (x = runtime_id r → x ≠ local_runtime_id m → version r ≤ known (apply_gossip_record r m).2 x).
Proof.
  intros Hv. destruct (decide (runtime_id r = local_runtime_id m)) as [He|Hid].
  - unfold apply_gossip_record. rewrite bool_decide_eq_true_2 by done. simpl. split; [done|]. by intros ->.
  - destruct (view_apply r m Hid) as [_ Hview]. unfold known. rewrite Hview. unfold newer.
    destruct (view m !! runtime_id r) as [e|] eqn:He; [destruct (Z.ltb_spec (version e) (version r))|].
    + destruct (decide (x = runtime_id r)) as [->|Hx]; [rewrite lookup_insert_eq, He; lia|].
      rewrite lookup_insert_ne by done. naive_solver.
    + split; [done|]. intros -> _. rewrite He. lia.
    + destruct (decide (x = runtime_id r)) as [->|Hx]; [rewrite lookup_insert_eq, He; lia|].
      rewrite lookup_insert_ne by done. naive_solver.
Qed.

Lemma known_apply_records rs m x :
  Forall (λ r, 0 ≤ version r) rs →
  known m x ≤ known (apply_records rs m) x ∧
  (∀ r, r ∈ rs → x = runtime_id r → x ≠ local_runtime_id m → version r ≤ known (apply_records rs m) x).
Proof.
  revert m. induction rs as [|r rs IH]; intros m Hrs; simpl; [split; [done|by intros ? ?%elem_of_nil]|].
  apply Forall_cons in Hrs as [Hr Hrs]. destruct (known_apply r m x Hr) as [H1 H2].
  destruct (IH (apply_gossip_record r m).2 Hrs) as [H3 H4]. split; [lia|].
  intros r' [->|Hin]%elem_of_cons Hx Hl; [specialize (H2 Hx Hl); lia|].
  apply H4; [done|done|]. by destruct (apply_local r m) as (-> & _).
Qed.

(** A delta holds exactly the records the digest lacks or has older. *)
Lemma elem_of_delta es m r rs :
  wf m → delta_for es m = Delta GOSSIP_PAYLOAD_VERSION rs →
  r ∈ rs ↔ view m !! runtime_id r = Some r ∧ behind (remote_versions es) r = true.
Proof.
  intros Hwf [= <-]. rewrite merge_sort_Permutation, list_elem_of_filter, elem_of_records by done. tauto.
Qed.

Lemma remote_versions_elem es x v :
  remote_versions es !! x = Some v → {| entry_id := x; entry_version := v |} ∈ es.
Proof.
  unfold remote_versions. intros H%elem_of_list_to_map_2. rewrite elem_of_reverse in H.
  apply list_elem_of_fmap in H as ([x' v'] & [= -> ->] & ?). done.
Qed.

(** The core of anti-entropy: a delta computed from any digest the receiver once
    sent, applied to the receiver as it is now, brings it up to the sender. *)
Lemma delta_spreads es m m' rs x :
  wf m → Forall (λ r, 0 ≤ version r) rs →
  delta_for es m = Delta GOSSIP_PAYLOAD_VERSION rs →
  (∀ e, e ∈ es → entry_version e ≤ known m' (entry_id e)) →
  x ≠ local_runtime_id m' → known m x ≤ Z.max 0 (known (apply_records rs m') x).
Proof.
  intros Hwf Hrs Hd Hes Hx. destruct (known_apply_records rs m' x Hrs) as [H1 H2].
  unfold known at 1. destruct (view m !! x) as [r|] eqn:Hr; [|lia].
  pose proof (view_id _ _ _ Hwf Hr) as Hid.
  destruct (behind (remote_versions es) r) eqn:Hb.
  - assert (r ∈ rs) as Hin by (eapply elem_of_delta; [done|exact Hd|by rewrite Hid]).
    specialize (H2 r Hin (eq_sym Hid) Hx). lia.
  - unfold behind in Hb. rewrite Hid in Hb. destruct (remote_versions es !! x) as [v|] eqn:Hv; [|done].
    apply Z.ltb_ge in Hb. apply remote_versions_elem, Hes in Hv. simpl in Hv. lia.
Qed.

Lemma digest_entries m es e :
  wf m → digest m = Digest GOSSIP_PAYLOAD_VERSION es → e ∈ es → entry_version e = known m (entry_id e).
Proof.
  intros Hwf [= <-]. rewrite merge_sort_Permutation, list_elem_of_fmap.
  intros (r & -> & Hr%elem_of_records); [|done]. unfold known. simpl. by rewrite Hr.
Qed.
End table.

(** ** The invariant of the network *)

Section network.
Context {MI : MapIter string} `{AT : AttestOps}.

(** A record is a bootstrap hint, or exactly what its runtime published. *)
Definition authentic (n : Net) (r : GossipRecord) : Prop :=
  (version r = 1 ∧ draining r = false) ∨
  (1 ≤ version r ∧ published n !! (runtime_id r, version r) = Some r).

Definition msg_ok (n : Net) (i : string) (msg : GossipMessage) : Prop :=
  match msg with
  | Delta _ rs => Forall (authentic n) rs
  | Digest _ es => ∃ m, nodes n !! i = Some m ∧ ∀ e, e ∈ es → entry_version e ≤ known m (entry_id e)
  end.

Record node_ok (n : Net) (i : string) (m : MeshMembership) : Prop := {
  no_id : local_runtime_id m = i;
  no_wf : wf m;
  no_version : 1 ≤ version (local_record m);
  no_published : published n !! (i, version (local_record m)) = Some (local_record m);
  no_drain : drain_flag m = draining (local_record m);
  no_peers : ∀ x p, peers m !! x = Some p → authentic n (record p);
}.

Record NetInv (n : Net) : Prop := {
  ni_node : ∀ i m, nodes n !! i = Some m → node_ok n i m;
  ni_published : ∀ x v r, published n !! (x, v) = Some r →
    runtime_id r = x ∧ version r = v ∧
    ∃ m, nodes n !! x = Some m ∧ v ≤ version (local_record m);
  ni_drain : ∀ x v v' r r', published n !! (x, v) = Some r → published n !! (x, v') = Some r' →
    v ≤ v' → draining r = true → draining r' = true;
  ni_flight : ∀ i j msg, (i, j, msg) ∈ flight n → msg_ok n i msg;
}.

(** What every step does to what is known and published. *)
Definition extends (n n' : Net) : Prop :=
  published n ⊆ published n' ∧
  ∀ i m, nodes n !! i = Some m → ∃ m', nodes n' !! i = Some m' ∧ ∀ x, known m x ≤ known m' x.

#[local] Instance extends_preorder : PreOrder extends.
Proof.
  split.
  - intros n. split; [done|]. intros i m Hm. by exists m.
  - intros n1 n2 n3 [P1 N1] [P2 N2]. split; [by etrans|].
    intros i m Hm. destruct (N1 _ _ Hm) as (m2 & Hm2 & H2). destruct (N2 _ _ Hm2) as (m3 & Hm3 & H3).
    exists m3. split; [done|]. intros x. specialize (H2 x). specialize (H3 x). lia.
Qed.

Lemma authentic_mono n n' r : published n ⊆ published n' → authentic n r → authentic n' r.
Proof. intros Hs [?|[? H]]; [by left|right]. split; [done|]. by eapply lookup_weaken. Qed.

Lemma msg_ok_mono n n' i msg : extends n n' → msg_ok n i msg → msg_ok n' i msg.
Proof.
  intros [Hp Hn]. destruct msg as [v es|v rs]; simpl.
  - intros (m & Hm & Hes). destruct (Hn _ _ Hm) as (m' & Hm' & Hk). exists m'. split; [done|].
    intros e He. specialize (Hes e He). specialize (Hk (entry_id e)). lia.
  - intros H. eapply Forall_impl; [exact H|]. intros r. by apply authentic_mono.
Qed.

Lemma authentic_nonneg n rs : Forall (authentic n) rs → Forall (λ r, 0 ≤ version r) rs.
Proof. intros H. eapply Forall_impl; [exact H|]. intros r [[]|[]]; lia. Qed.

(** A runtime never hears of itself, so its table changes and its record stays. *)
Record evolves (n : Net) (m m' : MeshMembership) : Prop := {
  ev_id : local_runtime_id m' = local_runtime_id m;
  ev_local : local_record m' = local_record m;
  ev_drain : drain_flag m' = drain_flag m;
  ev_wf : wf m → wf m';
  ev_peers : (∀ x p, peers m !! x = Some p → authentic n (record p)) →
             ∀ x p, peers m' !! x = Some p → authentic n (record p);
  ev_known : ∀ x, known m x ≤ known m' x;
}.

Lemma evolves_refl n m : evolves n m m.
Proof. by split. Qed.

Lemma evolves_trans n m1 m2 m3 : evolves n m1 m2 → evolves n m2 m3 → evolves n m1 m3.
Proof.
  intros [A1 A2 A3 A4 A5 A6] [B1 B2 B3 B4 B5 B6].
  split; [congruence|congruence|congruence|auto|intros H; by apply B5, A5|].
  intros x. specialize (A6 x). specialize (B6 x). lia.
Qed.

(** Only the connection state or the counters of a peer change. *)
Lemma evolves_alter n m f x :
  (∀ p, record (f p) = record p) → evolves n m (set_peers (alter f x (peers m)) m).
Proof.
  intros Hf. assert (record <$> alter f x (peers m) = record <$> peers m) as Heq.
  { apply map_eq. intros y. rewrite !lookup_fmap. destruct (decide (y = x)) as [->|].
    - rewrite lookup_alter_eq. destruct (peers m !! x); simpl; [by rewrite Hf|done].
    - by rewrite lookup_alter_ne. }
  assert (∀ y p, alter f x (peers m) !! y = Some p → ∃ p0, peers m !! y = Some p0 ∧ record p = record p0) as Hal.
  { intros y p Hy. assert ((record <$> peers m) !! y = Some (record p)) as H by (by rewrite <-Heq, lookup_fmap, Hy).
    apply lookup_fmap_Some in H as (p0 & ? & ?). eauto. }
  split; [done|done|done| | |].
  - intros [H1 H2]. split; [done|]. simpl. intros k p (p0 & Hp0 & ->)%Hal. by apply H2.
  - simpl. intros H y p (p0 & Hp0 & ->)%Hal. eauto.
  - intros y. unfold known. by rewrite (view_ext m (set_peers (alter f x (peers m)) m)).
Qed.

Lemma evolves_apply n m r : authentic n r → evolves n m (apply_gossip_record r m).2.
Proof.
  intros Hr. destruct (apply_local r m) as (Ha & Hb & Hc).
  split; [done|done|done|by apply wf_apply| |].
  - intros H x p. unfold apply_gossip_record. case_bool_decide; [apply H|].
    repeat case_match; simpl; try apply H;
      (intros [[<- <-]|[_ Hx]]%lookup_insert_Some; [done|by eapply H]).
  - intros x. apply known_apply. destruct Hr as [[]|[]]; lia.
Qed.

Lemma evolves_apply_records n m rs : Forall (authentic n) rs → evolves n m (apply_records rs m).
Proof.
  revert m. induction rs as [|r rs IH]; intros m; [intros; apply evolves_refl|].
  intros [Hr Hrs]%Forall_cons. eapply evolves_trans; [by apply evolves_apply|by apply IH].
Qed.

Lemma evolves_ready n now rs m : evolves n m (apply_ready_records now rs m).
Proof.
  revert m. induction rs as [|r rs IH]; intros m; [apply evolves_refl|].
  eapply evolves_trans; [|apply IH]. unfold apply_ready. repeat case_bool_decide; [apply evolves_refl| |by split; try done; intros []; split].
  destruct (ready_verify r); [|apply evolves_refl]. apply evolves_apply. by left.
Qed.

Lemma on_gossip_evolves n i msg m : msg_ok n i msg → evolves n m (on_gossip i msg m).2.
Proof.
  intros Hmsg. unfold on_gossip.
  assert (evolves n m (record_gossip_frame_received i m)) as H by (by apply evolves_alter).
  destruct msg as [v es|v rs]; simpl; [done|]. eapply evolves_trans; [exact H|].
  by apply evolves_apply_records.
Qed.

Lemma inv_evolve n i m m' :
  NetInv n → nodes n !! i = Some m → evolves n m m' →
  NetInv (with_node i m' n) ∧ extends n (with_node i m' n).
Proof.
  intros Hinv Hm [Eid El Ed Ew Ep Ek].
  assert (extends n (with_node i m' n)) as Hext.
  { split; [done|]. simpl. intros j mj Hj. destruct (decide (i = j)) as [<-|].
    - simplify_eq. exists m'. by rewrite lookup_insert_eq.
    - exists mj. by rewrite lookup_insert_ne. }
  split; [|done]. destruct Hinv as [Hn Hp Hd Hf]. destruct (Hn _ _ Hm) as [H1 H2 H3 H4 H5 H6].
  split; simpl.
  - intros j mj [[<- <-]|[_ Hj]]%lookup_insert_Some; [|by destruct (Hn _ _ Hj)].
    split; simpl; rewrite ?El, ?Ed, ?Eid; [done|auto|done|done|done|exact (Ep H6)].
  - intros x v r Hr. destruct (Hp _ _ _ Hr) as (? & ? & mx & Hx & Hv). split_and!; [done|done|].
    destruct (decide (i = x)) as [<-|]; [|exists mx; by rewrite lookup_insert_ne].
    exists m'. rewrite lookup_insert_eq, El. split; [done|]. by simplify_eq.
  - done.
  - intros j k msg Hin. eapply msg_ok_mono; [exact Hext|by eapply Hf].
Qed.

(** A runtime publishes the next version of its own record. *)
Lemma inv_publish n i m m' :
  NetInv n → nodes n !! i = Some m →
  local_runtime_id m' = i → peers m' = peers m →
  runtime_id (local_record m') = i → version (local_record m') = version (local_record m) + 1 →
  drain_flag m' = draining (local_record m') →
  (draining (local_record m) = true → draining (local_record m') = true) →
  NetInv (announce (local_record m') (with_node i m' n)) ∧
  extends n (announce (local_record m') (with_node i m' n)).
Proof.
  intros Hinv Hm Hid Hpeers Hrid Hver Hdrain Hmono.
  destruct Hinv as [Hn Hp Hd Hf]. destruct (Hn _ _ Hm) as [H1 H2 H3 H4 H5 H6].
  assert (published n !! (i, version (local_record m')) = None) as Hfresh.
  { destruct (published n !! (i, version (local_record m'))) as [r|] eqn:Hr; [|done].
    destruct (Hp _ _ _ Hr) as (_ & _ & m0 & Hm0 & Hle).
    assert (m0 = m) as -> by congruence. lia. }
  assert (published n ⊆ published (announce (local_record m') (with_node i m' n))) as Hsub.
  { simpl. rewrite Hrid. by apply insert_subseteq. }
  assert (∀ x, known m x ≤ known m' x) as Hk.
  { intros x. destruct (decide (x = i)) as [->|Hx].
    - pose proof (known_local m) as K1. pose proof (known_local m') as K2.
      rewrite H1 in K1. rewrite Hid in K2. lia.
    - unfold known. rewrite !view_peer by congruence. by rewrite Hpeers. }
  assert (extends n (announce (local_record m') (with_node i m' n))) as Hext.
  { split; [done|]. simpl. intros j mj Hj. destruct (decide (i = j)) as [<-|].
    - simplify_eq. exists m'. by rewrite lookup_insert_eq.
    - exists mj. by rewrite lookup_insert_ne. }
  split; [|done]. split; simpl.
  - intros j mj [[<- <-]|[Hne Hj]]%lookup_insert_Some.
    + split; simpl; [done| |lia|by rewrite Hrid, lookup_insert_eq|done|].
      * split; [congruence|]. rewrite Hpeers, Hid, <-H1. apply H2.
      * rewrite Hpeers. intros x p Hx. eapply authentic_mono; [exact Hsub|by eapply H6].
    + destruct (Hn _ _ Hj) as [J1 J2 J3 J4 J5 J6]. split; simpl; [done|done|done| |done|].
      * rewrite Hrid, lookup_insert_ne by congruence. done.
      * intros x p Hx. eapply authentic_mono; [exact Hsub|by eapply J6].
  - rewrite Hrid. intros x v r [[[= <- <-] <-]|[Hne Hr]]%lookup_insert_Some.
    + split_and!; [done|done|]. exists m'. by rewrite lookup_insert_eq.
    + destruct (Hp _ _ _ Hr) as (? & ? & mx & Hx & Hv). split_and!; [done|done|].
      destruct (decide (i = x)) as [<-|]; [|exists mx; by rewrite lookup_insert_ne].
      exists m'. rewrite lookup_insert_eq. split; [done|]. simplify_eq. lia.
  - rewrite Hrid. intros x v v' r r' Hr Hr' Hle Hdr.
    assert (∀ y u s, published n !! (y, u) = Some s → y = i → u ≤ version (local_record m)) as Hbelow.
    { intros y u s Hs ->. destruct (Hp _ _ _ Hs) as (_ & _ & m0 & Hm0 & ?).
      assert (m0 = m) as -> by congruence. done. }
    apply lookup_insert_Some in Hr as [[[= <- <-] <-]|[Hne Hr]];
      apply lookup_insert_Some in Hr' as [[Heq <-]|[Hne' Hr']]; [done| |injection Heq as <- <-|].
    + specialize (Hbelow _ _ _ Hr' eq_refl). lia.
    + apply Hmono. eapply (Hd _ _ _ _ _ Hr H4); [|done]. by eapply Hbelow.
    + by eapply (Hd _ _ _ _ _ Hr Hr').
  - intros j k msg Hin. eapply msg_ok_mono; [exact Hext|by eapply Hf].
Qed.

Lemma inv_send n msgs :
  NetInv n → (∀ i j msg, (i, j, msg) ∈ msgs → msg_ok n i msg) →
  NetInv (send msgs n) ∧ extends n (send msgs n).
Proof.
  intros [Hn Hp Hd Hf] Hm. split; [|split; [done|intros i m Hi; by exists m]]. split; [| |exact Hd|].
  - intros i m Hi. by destruct (Hn _ _ Hi).
  - exact Hp.
  - intros i j msg [Hin|Hin]%elem_of_app; [by eapply Hm|by eapply Hf].
Qed.

(** A runtime that boots has published version 1 of its record and knows nobody. *)
Lemma inv_boot n i addrs proto now caps m :
  NetInv n → nodes n !! i = None →
  local_runtime_id m = i → local_record m = with_capabilities caps (new_record i addrs proto now) →
  peers m = ∅ → drain_flag m = false →
  NetInv (announce (with_capabilities caps (new_record i addrs proto now)) (with_node i m n)) ∧
  extends n (announce (with_capabilities caps (new_record i addrs proto now)) (with_node i m n)).
Proof.
  intros [Hn Hp Hd Hf] Hi Hid Hl Hpeers Hdr.
  assert (∀ v, published n !! (i, v) = None) as Hfresh.
  { intros v. destruct (published n !! (i, v)) as [r|] eqn:Hr; [|done].
    destruct (Hp _ _ _ Hr) as (_ & _ & m0 & Hm0 & _). congruence. }
  assert (published n ⊆ published (announce (with_capabilities caps (new_record i addrs proto now)) (with_node i m n))) as Hsub
    by (simpl; by apply insert_subseteq).
  assert (extends n (announce (with_capabilities caps (new_record i addrs proto now)) (with_node i m n))) as Hext.
  { split; [done|]. simpl. intros j mj Hj. exists mj. split; [|done].
    rewrite lookup_insert_ne; [done|]. intros ->. congruence. }
  split; [|done]. split; simpl.
  - intros j mj [[<- <-]|[Hne Hj]]%lookup_insert_Some.
    + split; simpl; rewrite ?Hl, ?Hpeers; simpl; [done| |lia|by rewrite lookup_insert_eq|done|].
      * split; [by rewrite Hl, Hid|]. by rewrite Hpeers.
      * intros x p. by rewrite lookup_empty.
    + destruct (Hn _ _ Hj) as [J1 J2 J3 J4 J5 J6]. split; simpl; [done|done|done| |done|].
      * rewrite lookup_insert_ne by congruence. done.
      * intros x p Hx. eapply authentic_mono; [exact Hsub|by eapply J6].
  - intros x v r [[[= <- <-] <-]|[Hne Hr]]%lookup_insert_Some.
    + split_and!; [done|done|]. exists m. rewrite lookup_insert_eq, Hl. split; [done|]. simpl. lia.
    + destruct (Hp _ _ _ Hr) as (? & ? & mx & Hx & Hv). split_and!; [done|done|].
      exists mx. rewrite lookup_insert_ne; [done|]. intros ->. congruence.
  - intros x v v' r r' Hr Hr' Hle Hdr'.
    apply lookup_insert_Some in Hr as [[[= <- <-] <-]|[Hne Hr]]; [done|].
    apply lookup_insert_Some in Hr' as [[Heq <-]|[Hne' Hr']].
    + injection Heq as <- <-. by rewrite Hfresh in Hr.
    + by eapply (Hd _ _ _ _ _ Hr Hr').
  - intros j k msg Hin. eapply msg_ok_mono; [exact Hext|by eapply Hf].
Qed.

Lemma publish_version now r : version r < u64_max → version (publish now r) = version r + 1.
Proof. intros H. simpl. unfold u64_saturating_add. lia. Qed.

Lemma inv_step n n' : NetInv n → net_step n n' → NetInv n' ∧ extends n n'.
Proof.
  intros Hinv Hs. destruct Hs as [i addrs proto now caps key Hi r m|i m now targets Hm Hv d m'|i m now update Hm Hv Hu m'
    |i m now Hm Hv m'|i m now rs Hm|i m j s Hm|i j msg m Hin Hm reply].
  - apply inv_boot; [done|done|by destruct key..].
  - destruct (ni_node _ Hinv _ _ Hm) as [H1 H2 H3 H4 H5 H6].
    destruct (inv_publish n i m m') as [Hinv' Hext'];
      [done|done|done|done|simpl; by rewrite (wf_local _ H2)|by apply publish_version|done|done|].
    destruct (inv_send (announce (local_record m') (with_node i m' n)) ((λ j, (i, j, d)) <$> targets)) as [? Hext''];
      [done| |split; [done|by etrans]].
    intros k j msg (t & [= -> -> ->] & _)%list_elem_of_fmap. simpl. exists m'.
    split; [simpl; by rewrite lookup_insert_eq|]. intros e He.
    assert (wf m') as Hwf.
    { destruct (ni_node _ Hinv' i m') as [_ ? _ _ _ _]; [simpl; by rewrite lookup_insert_eq|done]. }
    pose proof (digest_entries m' _ e Hwf eq_refl He). lia.
  - destruct (ni_node _ Hinv _ _ Hm) as [H1 H2 H3 H4 H5 H6].
    destruct (Hu (local_record m)) as (U1 & U2 & U3).
    apply (inv_publish n i m m'); [done|done|done|done| | | |]; simpl.
    + by rewrite U1, (wf_local _ H2).
    + rewrite U2. unfold u64_saturating_add. lia.
    + by rewrite U3.
    + by rewrite U3.
  - destruct (ni_node _ Hinv _ _ Hm) as [H1 H2 H3 H4 H5 H6].
    apply (inv_publish n i m m'); [done|done|done|done|simpl; by rewrite (wf_local _ H2)| |done|done].
    simpl. unfold u64_saturating_add. lia.
  - by apply (inv_evolve n i m); [done|done|apply evolves_ready].
  - by apply (inv_evolve n i m); [done|done|apply evolves_alter].
  - pose proof (ni_flight _ Hinv _ _ _ Hin) as Hmsg.
    destruct (inv_evolve n j m (on_gossip i msg m).2 Hinv Hm) as [Hinv' Hext'].
    { by apply on_gossip_evolves. }
    destruct (inv_send (with_node j (on_gossip i msg m).2 n)
      (match reply with Some d => [(j, i, d)] | None => [] end)) as [? Hext'']; [done| |split; [done|by etrans]].
    subst reply. destruct msg as [v es|v rs]; simpl; [|by intros ??? ?%elem_of_nil].
    intros k l msg [= -> -> ->]%list_elem_of_singleton. simpl.
    set (m0 := record_gossip_frame_received i m).
    assert (evolves n m m0) as Hev by (by apply evolves_alter).
    destruct (ni_node _ Hinv _ _ Hm) as [H1 H2 H3 H4 H5 H6].
    assert (wf m0) as Hwf by (by apply Hev).
    apply Forall_forall. intros r Hr. eapply elem_of_delta in Hr as [Hr _]; [|exact Hwf|done].
    apply (authentic_mono n); [done|].
    apply view_Some in Hr as [[_ <-]|(_ & p & <- & Hp)].
    + right. rewrite (ev_local _ _ _ Hev). split; [done|]. by rewrite (wf_local _ H2), H1.
    + eapply (ev_peers _ _ _ Hev); [exact H6|exact Hp].
Qed.

Lemma inv_steps n n' : NetInv n → net_steps n n' → NetInv n' ∧ extends n n'.
Proof.
  intros H Hs. induction Hs as [|n1 n2 n3 H1 _ IH]; [done|].
  destruct (inv_step _ _ H H1) as [H2 E2]. destruct (IH H2) as [H3 E3]. split; [done|by etrans].
Qed.

Lemma inv_reachable n : net_reachable n → NetInv n.
Proof.
  intros Hs. eapply inv_steps; [|exact Hs]. split; simpl.
  - intros i m. by rewrite lookup_empty.
  - intros x v r. by rewrite lookup_empty.
  - intros x v v' r r'. by rewrite lookup_empty.
  - by intros i j msg ?%elem_of_nil.
Qed.

(** ** The claims *)

(** What runtime [i] knew in one state reaches runtime [j] in a later one over a
    chain of exchanges: a digest that was once sent, the delta that answers it
    with what the sender knows by then, and the delta's delivery; anything else
    may happen in between. *)
Inductive relayed (n : Net) (i : string) : Net → string → Prop :=
  | relay_here n' : net_steps n n' → relayed n i n' i
  | relay_hop n1 j mj k v es n2 mk n' :
      relayed n i n1 j → nodes n1 !! j = Some mj →
      (k, j, Digest v es) ∈ flight n1 →
      net_steps (send [(j, k, delta_for es (record_gossip_frame_received k mj))]
                   (with_node j (record_gossip_frame_received k mj) n1)) n2 →
      nodes n2 !! k = Some mk →
      net_steps (with_node k (on_gossip j (delta_for es (record_gossip_frame_received k mj)) mk).2 n2) n' →
      relayed n i n' k.

Lemma known_received i m x : known (record_gossip_frame_received i m) x = known m x.
Proof.
  unfold known, view. simpl. f_equal. destruct (decide (x = local_runtime_id m)) as [->|Hx].
  - by rewrite !lookup_insert_eq.
  - rewrite !lookup_insert_ne, !lookup_fmap by done. destruct (decide (x = i)) as [->|].
    + rewrite lookup_alter_eq. by destruct (peers m !! i).
    + by rewrite lookup_alter_ne.
Qed.

(** Nobody knows a later version of a record than its own runtime. *)
Lemma known_own n i m x mx :
  NetInv n → nodes n !! i = Some m → nodes n !! x = Some mx → known m x ≤ known mx x.
Proof.
  intros Hinv Hm Hx. destruct (ni_node _ Hinv _ _ Hx) as [X1 X2 X3 X4 X5 X6].
  destruct (ni_node _ Hinv _ _ Hm) as [H1 H2 H3 H4 H5 H6].
  assert (known mx x = version (local_record mx)) as Hkx by (rewrite <-X1; apply known_local).
  unfold known at 1. destruct (view m !! x) as [r|] eqn:Hr; [|lia].
  apply view_Some in Hr as [[Hl <-]|(Hl & p & <- & Hp)].
  - assert (mx = m) as -> by congruence. lia.
  - destruct (wf_peer _ H2 _ _ Hp) as [Hid _]. destruct (H6 _ _ Hp) as [[-> _]|[_ Hpub]]; [lia|].
    rewrite Hid in Hpub. destruct (ni_published _ Hinv _ _ _ Hpub) as (_ & _ & m0 & Hm0 & ?).
    assert (m0 = mx) as -> by congruence. lia.
Qed.

Lemma relayed_reach n i n' j : NetInv n → relayed n i n' j → NetInv n' ∧ extends n n'.
Proof.
  intros Hinv. induction 1 as [n' Hs|n1 j mj k v es n2 mk n' Hr IH Hmj Hin Hs1 Hmk Hs2]; [by eapply inv_steps|].
  destruct IH as [H1 E1].
  assert (net_step n1 (send [(j, k, delta_for es (record_gossip_frame_received k mj))]
            (with_node j (record_gossip_frame_received k mj) n1))) as Hd1
    by (apply (net_deliver n1 k j (Digest v es) mj Hin Hmj)).
  destruct (inv_step _ _ H1 Hd1) as [H2 E2]. destruct (inv_steps _ _ H2 Hs1) as [H3 E3].
  assert (msg_ok n2 j (delta_for es (record_gossip_frame_received k mj))) as Hok.
  { eapply msg_ok_mono; [exact E3|]. eapply (ni_flight _ H2 j k). left. }
  destruct (inv_evolve n2 k mk _ H3 Hmk (on_gossip_evolves n2 j _ mk Hok)) as [H4 E4].
  destruct (inv_steps _ _ H4 Hs2) as [H5 E5]. split; [done|].
  etrans; [exact E1|]. etrans; [exact E2|]. etrans; [exact E3|]. etrans; [exact E4|done].
Qed.

(** C24. Gossip spreads.  Along any chain of digest/delta exchanges - however late
    each message is delivered, and whatever else happens in between - everything
    the first runtime knew, the last one knows at least as recently: about every
    runtime, itself included. *)
Theorem gossip_spreads n i n' j mi :
  net_reachable n → relayed n i n' j → nodes n !! i = Some mi →
  ∃ mj, nodes n' !! j = Some mj ∧ ∀ x, known mi x ≤ known mj x.
Proof.
  intros Hinv%inv_reachable Hrel Hi.
  induction Hrel as [n' Hs|n1 j mj k v es n2 mk n' Hr IH Hmj Hin Hs1 Hmk Hs2].
  { destruct (inv_steps _ _ Hinv Hs) as [_ [_ E]]. by apply E. }
  destruct (relayed_reach _ _ _ _ Hinv Hr) as [H1 E1]. destruct IH as (mj' & Hmj' & Hknow).
  assert (mj' = mj) as -> by congruence.
  set (mj1 := record_gossip_frame_received k mj) in *.
  assert (net_step n1 (send [(j, k, delta_for es mj1)] (with_node j mj1 n1))) as Hd1
    by (apply (net_deliver n1 k j (Digest v es) mj Hin Hmj)).
  destruct (inv_step _ _ H1 Hd1) as [H2 E2]. destruct (inv_steps _ _ H2 Hs1) as [H3 E3].
  assert (msg_ok n2 j (delta_for es mj1)) as Hok.
  { eapply msg_ok_mono; [exact E3|]. eapply (ni_flight _ H2 j k). left. }
  assert (msg_ok n2 k (Digest v es)) as (mk' & Hmk' & Hes).
  { eapply msg_ok_mono; [exact E3|]. eapply msg_ok_mono; [exact E2|]. by eapply (ni_flight _ H1 k j). }
  assert (mk' = mk) as -> by congruence.
  destruct (inv_evolve n2 k mk _ H3 Hmk (on_gossip_evolves n2 j _ mk Hok)) as [H4 _].
  destruct (inv_steps _ _ H4 Hs2) as [H5 [_ E5]].
  destruct (E5 k (on_gossip j (delta_for es mj1) mk).2) as (mk2 & Hmk2 & Hk2); [simpl; by rewrite lookup_insert_eq|].
  exists mk2. split; [done|]. intros x.
  assert (wf mj1) as Hwf by (destruct (ni_node _ H2 j mj1) as [_ ? _ _ _ _]; [simpl; by rewrite lookup_insert_eq|done]).
  destruct (ni_node _ H3 _ _ Hmk) as [K1 K2 K3 K4 K5 K6].
  destruct (decide (x = k)) as [->|Hx].
  - destruct (relayed_reach _ _ _ _ Hinv Hr) as [_ [_ Em]].
    assert (known mj k ≤ known mk k) as Hown.
    { destruct E2 as [_ E2]. destruct (E2 _ _ Hmj) as (ma & Hma & Ha).
      destruct E3 as [_ E3]. destruct (E3 _ _ Hma) as (mb & Hmb & Hb).
      pose proof (known_own _ _ _ _ _ H3 Hmb Hmk). specialize (Ha k). specialize (Hb k). lia. }
    pose proof (ev_known _ _ _ (on_gossip_evolves n2 j _ mk Hok) k).
    specialize (Hknow k). specialize (Hk2 k). lia.
  - pose proof (delta_spreads es mj1 (record_gossip_frame_received j mk) _ x Hwf
      (authentic_nonneg _ _ Hok) eq_refl) as Hsp.
    assert (0 ≤ known mk2 x) as Hpos.
    { unfold known. destruct (view mk2 !! x) as [r|] eqn:Hvr; [|done].
      destruct (inv_steps _ _ H4 Hs2) as [H6 _]. destruct (ni_node _ H6 _ _ Hmk2) as [L1 L2 L3 L4 L5 L6].
      apply view_Some in Hvr as [[_ <-]|(_ & p & <- & Hp)]; [lia|]. destruct (L6 _ _ Hp) as [[-> _]|[? _]]; lia. }
    assert (known mj1 x ≤ Z.max 0 (known (on_gossip j (delta_for es mj1) mk).2 x)) as Hle.
    { apply Hsp; [|simpl; congruence]. intros e He. rewrite known_received. by apply Hes. }
    unfold mj1 in Hle. rewrite known_received in Hle.
    specialize (Hknow x). specialize (Hk2 x). fold mj1 in Hle. lia.
Qed.

(** C23. Gossip is faithful.  In every reachable state of the network - runtimes
    booting, bumping, draining, seeded from the registry, exchanging gossip that
    is delivered late, twice or never - what a runtime holds about another is a
    bootstrap hint (version 1, not draining) or word for word the record that
    runtime published under that version, no later than its current one; and it
    says "draining" exactly for the versions published since the drain began. *)
Theorem gossip_faithful n i m x p :
  net_reachable n → nodes n !! i = Some m → peers m !! x = Some p →
  runtime_id (record p) = x ∧ x ≠ i ∧
  ((version (record p) = 1 ∧ draining (record p) = false) ∨
   ∃ mx, nodes n !! x = Some mx ∧ published n !! (x, version (record p)) = Some (record p) ∧
     version (record p) ≤ version (local_record mx) ∧
     (draining (record p) = true → is_draining mx = true) ∧
     (∀ v r, published n !! (x, v) = Some r → draining r = true → v ≤ version (record p) →
        draining (record p) = true)).
Proof.
  intros Hinv%inv_reachable Hm Hp. destruct (ni_node _ Hinv _ _ Hm) as [H1 H2 H3 H4 H5 H6].
  destruct (wf_peer _ H2 _ _ Hp) as [Hid Hx]. split_and!; [done|by rewrite <-H1|].
  destruct (H6 _ _ Hp) as [[? ?]|[_ Hpub]]; [by left|right]. rewrite Hid in Hpub.
  destruct (ni_published _ Hinv _ _ _ Hpub) as (_ & _ & mx & Hmx & Hle).
  exists mx. split_and!; [done|done|done| |].
  - intros Hd. destruct (ni_node _ Hinv _ _ Hmx) as [X1 X2 X3 X4 X5 X6].
    unfold is_draining. rewrite X5. by eapply (ni_drain _ Hinv _ _ _ _ _ Hpub X4).
  - intros v r Hr Hdr Hv. by eapply (ni_drain _ Hinv _ _ _ _ _ Hr Hpub).
Qed.
End network.

(** The membership table as the pure scuttlebutt state. *)
Definition abs (m : MeshMembership) : GossipState := {| gs_records := view m |}.

(** C31. The membership table implements the scuttlebutt state: its digests and
    deltas are those of the state it stands for, a bump of the local record is
    [update_local] there, and applying records that are not about the runtime
    itself is [apply_delta], with the same records taken.  A record about the
    runtime itself, which [apply_delta] would take, changes nothing. *)
Theorem mesh_refines_gossip {MI : MapIter string} m es update now rs :
  wf m →
  digest m = gs_digest (abs m) ∧
  delta_for es m = gs_delta_for es (abs m) ∧
  (let '(r, m') := update_local update now m in
   gs_update_local (local_runtime_id m) update now (abs m) = (Some r, abs m')) ∧
  (Forall (λ r, runtime_id r ≠ local_runtime_id m) rs →
   (apply_delta rs (abs m)).2 = abs (apply_records rs m)) ∧
  (∀ r, runtime_id r ≠ local_runtime_id m →
   (apply_delta [r] (abs m)).1 = if (apply_gossip_record r m).1 then [runtime_id r] else []) ∧
  (∀ r, runtime_id r = local_runtime_id m → apply_gossip_record r m = (false, m)).
Proof.
  intros Hwf. pose proof (records_gs m Hwf) as Hp. pose proof (records_NoDup m Hwf) as Hnd.
  split_and!.
  - unfold digest, gs_digest, digest_of. f_equal. apply sort_by_id_perm; [by apply fmap_Permutation|].
    by rewrite <-list_fmap_compose.
  - unfold delta_for, gs_delta_for, delta_of. f_equal. apply sort_by_id_perm; [by rewrite Hp|].
    eapply sublist_NoDup; [exact Hnd|]. apply fmap_sublist. apply sublist_filter.
  - unfold update_local, gs_update_local, abs. simpl. rewrite view_local. f_equal. f_equal.
    unfold view. simpl. by rewrite insert_insert_eq.
  - clear Hwf Hp Hnd. revert m. induction rs as [|r rs IH]; intros m; [done|].
    intros [Hr Hrs]%Forall_cons. destruct (view_apply r m Hr) as [_ Hv]. simpl.
    rewrite <-IH by (by destruct (apply_local r m) as (-> & _)). unfold abs. rewrite Hv.
    destruct (newer (view m) r); [|done]. by destruct (apply_delta rs _).
  - intros r Hr. destruct (view_apply r m Hr) as [-> _]. simpl. by destruct (newer (view m) r).
  - intros r Hr. unfold apply_gossip_record. by rewrite bool_decide_eq_true_2.
Qed.

(** ** Attestation *)

(** The relay keys, and that signatures made with them verify. *)
Class AttestLaws `{AT : AttestOps} := {
  Keys : Type;
  public_key : Keys → string;
  sign_schnorr : Keys → string → string;
  public_key_canonical : ∀ k, pubkey_from_hex (public_key k) = Some (public_key k);
  signature_verifies : ∀ k, ∃ x, xonly (public_key k) = Some x ∧
    ∀ d, ∃ s, sig_from_str (sign_schnorr k d) = Some s ∧ verify_schnorr s d x = true;
}.

Definition ready_new `{AttestLaws} (id : string) (k : Keys) (addrs : list string) (proto : Z)
    (caps : list string) : ReadyRecord := {|
  ready_runtime_id := id; ready_runtime_pubkey := id; ready_relay_pubkey := public_key k;
  ready_relay_sig := sign_schnorr k (attestation_message id (public_key k));
  ready_endpoint_addrs := addrs; ready_proto_version := proto; ready_capabilities := caps |}.

Lemma ready_new_verifies `{AttestLaws} id k addrs proto caps :
  ready_verify (ready_new id k addrs proto caps) = Ok tt.
Proof.
  unfold ready_verify, verify_attestation. simpl. rewrite bool_decide_eq_false_2 by (intros Hn; by apply Hn).
  rewrite public_key_canonical. destruct (signature_verifies k) as (x & -> & Hs).
  destruct (Hs (attestation_message id (public_key k))) as (s & -> & ->). done.
Qed.

Lemma has_peer_apply x r m :
  has_peer x (apply_gossip_record r m).2 = true →
  has_peer x m = true ∨ x = runtime_id r ∧ runtime_id r ≠ local_runtime_id m.
Proof.
  unfold has_peer. rewrite !bool_decide_eq_true. unfold apply_gossip_record. case_bool_decide; [by left|].
  destruct (decide (x = runtime_id r)) as [->|Hx]; [by right|left; revert H0].
  repeat case_match; simpl; by rewrite ?lookup_insert_ne.
Qed.

Lemma apply_has_peer r m :
  runtime_id r ≠ local_runtime_id m → has_peer (runtime_id r) (apply_gossip_record r m).2 = true.
Proof.
  intros Hr. unfold has_peer, apply_gossip_record. rewrite (bool_decide_eq_false_2 (runtime_id r = _)) by done.
  apply bool_decide_eq_true. destruct (peers m !! runtime_id r) as [p|] eqn:Hp; simpl; [|by rewrite lookup_insert_eq].
  case_match; simpl; [by rewrite Hp|by rewrite lookup_insert_eq].
Qed.

Lemma apply_anchor r m : expected_relay_pubkey (apply_gossip_record r m).2 = expected_relay_pubkey m.
Proof. unfold apply_gossip_record. by repeat case_match. Qed.

(** Attestation.  From the ready registry a runtime takes up only ids whose
    record is signed, over exactly this id, by the relay key it is anchored to;
    without an anchor it takes up none; and it does take up what any pod of the
    same deployment publishes about itself.  Gossip has no such check: a delta
    puts any id into the same table, anchored or not, attested or not. *)
Theorem ready_anchored {MI : MapIter string} `{AttestLaws} m now :
  (∀ rs x, has_peer x (apply_ready_records now rs m) = true →
     has_peer x m = true ∨
     ∃ r, r ∈ rs ∧ ready_runtime_id r = x ∧ ready_runtime_pubkey r = x ∧
          expected_relay_pubkey m = Some (ready_relay_pubkey r) ∧
          verify_attestation x (ready_relay_pubkey r) (ready_relay_sig r) = Ok tt) ∧
  (∀ rs, expected_relay_pubkey m = None → peers (apply_ready_records now rs m) = peers m) ∧
  (∀ id k addrs proto caps, id ≠ local_runtime_id m → expected_relay_pubkey m = Some (public_key k) →
     has_peer id (apply_ready_records now [ready_new id k addrs proto caps] m) = true) ∧
  (∀ from v r, runtime_id r ≠ local_runtime_id m →
     has_peer (runtime_id r) (on_gossip from (Delta v [r]) m).2 = true).
Proof.
  split_and!.
  - intros rs. revert m. induction rs as [|r rs IH]; intros m x Hx; [by left|].
    simpl in Hx. apply IH in Hx as [Hx|(r' & Hin & ? & ? & Hk & ?)].
    + unfold apply_ready in Hx. repeat case_bool_decide; [by left| |by left].
      destruct (ready_verify r) eqn:Hv; [|by left].
      apply has_peer_apply in Hx as [|[-> _]]; [by left|right]. exists r. simpl.
      unfold ready_verify in Hv. case_bool_decide as Hpk; [done|].
      assert (ready_runtime_pubkey r = ready_runtime_id r) by (by destruct (decide (ready_runtime_pubkey r = ready_runtime_id r))).
      destruct a. split_and!; [left|done|done|done|done].
    + right. exists r'. split_and!; [by right|done|done| |done]. rewrite <-Hk.
      unfold apply_ready. repeat case_bool_decide; [done| |done]. destruct (ready_verify r); [|done].
      symmetry. apply apply_anchor.
  - intros rs. revert m. induction rs as [|r rs IH]; intros m Hn; [done|]. simpl.
    assert (peers (apply_ready now m r) = peers m ∧ expected_relay_pubkey (apply_ready now m r) = None) as [Hp Ha].
    { unfold apply_ready. rewrite Hn. by repeat case_bool_decide. }
    by rewrite IH.
  - intros id k addrs proto caps Hid Hk. simpl. unfold apply_ready.
    rewrite bool_decide_eq_false_2 by done. rewrite bool_decide_eq_true_2 by done.
    rewrite ready_new_verifies. by apply (apply_has_peer (ready_gossip now (ready_new id k addrs proto caps))).
  - intros from v r Hr. simpl. by apply (apply_has_peer r).
Qed.

(** ** Connections *)

Lemma ltb_asym a b : String.ltb a b = true → String.ltb b a = false.
Proof. unfold String.ltb. rewrite (String.compare_antisym b a). by destruct (a ?= b)%string. Qed.

(** Connections coming up one after the other at one end. *)
Definition install_all (remote : string) (l : list (nat * bool)) (rt : Runtime) : Runtime :=
  foldl (λ rt cb, (install_peer remote cb.1 cb.2 rt).2) rt l.

Lemma install_local remote c by_us rt :
  local_runtime_id (membership (install_peer remote c by_us rt).2) = local_runtime_id (membership rt).
Proof. unfold install_peer. by repeat case_match. Qed.

(** The connection an end keeps: the canonical dialer's, else the first. *)
Definition keep (canonical_is_us : bool) (cur : option nat) (cb : nat * bool) : option nat :=
  match cur with
  | None => Some cb.1
  | Some c => Some (if Bool.eqb cb.2 canonical_is_us then cb.1 else c)
  end.

Lemma install_keep remote l rt :
  conn <$> connections (install_all remote l rt) !! remote =
  foldl (keep (String.ltb (local_runtime_id (membership rt)) remote)) (conn <$> connections rt !! remote) l.
Proof.
  revert rt. induction l as [|[c b] l IH]; intros rt; [done|]. simpl. rewrite IH, install_local. f_equal.
  unfold install_peer, new_connection_wins. simpl.
  destruct (connections rt !! remote) as [e|] eqn:He; simpl; [|by rewrite lookup_insert_eq].
  destruct (String.ltb (local_runtime_id (membership rt)) remote), b; simpl; rewrite ?lookup_insert_eq, ?He; done.
Qed.

(** Simultaneous dials.  Whatever the order in which each of two runtimes sees
    the connections that they dialed to each other come up, they end up with the
    same connection: the one dialed by the smaller id, if there is one. *)
Theorem tie_break_agrees a b rta rtb la lb :
  local_runtime_id (membership rta) = a → local_runtime_id (membership rtb) = b →
  String.ltb a b = true →
  connections rta !! b = None → connections rtb !! a = None →
  la ≡ₚ lb → NoDup la.*2 → la ≠ [] →
  ∃ c dialed_by_a, (c, dialed_by_a) ∈ la ∧ (∀ c', (c', true) ∈ la → c' = c) ∧
    conn <$> connections (install_all b la rta) !! b = Some c ∧
    conn <$> connections (install_all a ((λ cb, (cb.1, negb cb.2)) <$> lb) rtb) !! a = Some c.
Proof.
  intros Ha Hb Hlt Hca Hcb Hp Hnd Hne. rewrite !install_keep, Ha, Hb, Hca, Hcb, Hlt, (ltb_asym a b Hlt). simpl.
  destruct la as [|[c1 b1] [|[c2 b2] [|[c3 b3] la]]]; [done| | |].
  - apply Permutation_singleton_l in Hp as <-. exists c1, b1. simpl. split_and!; [left| |done|done].
    intros c' [= ->]%list_elem_of_singleton. done.
  - assert (b2 = negb b1) as ->.
    { simpl in Hnd. apply NoDup_cons in Hnd as [Hn _]. rewrite list_elem_of_singleton in Hn. by destruct b1, b2. }
    assert (lb = [(c1, b1); (c2, negb b1)] ∨ lb = [(c2, negb b1); (c1, b1)]) as Hlb.
    { apply Permutation_length_2_inv in Hp. tauto. }
    destruct b1.
    + exists c1, true. split_and!; [left| |done|by destruct Hlb as [-> | ->]].
      intros c' [[= ->]|[=]%list_elem_of_singleton]%elem_of_cons. done.
    + exists c2, true. split_and!; [right; left| |done|by destruct Hlb as [-> | ->]].
      intros c' [[=]|[= ->]%list_elem_of_singleton]%elem_of_cons. done.
  - exfalso. simpl in Hnd. apply NoDup_cons in Hnd as [H1 H2]. apply NoDup_cons in H2 as [H2 _].
    rewrite !elem_of_cons in H1. rewrite elem_of_cons in H2. destruct b1, b2, b3; tauto.
Qed.

(** A late removal.  [remove_peer] takes a runtime id, not a connection, and
    [abort] cannot stop a receive loop that already left its await.  So when a
    connection errors and, before its loop has removed it, a connection that wins
    the tie-break replaces it, the loop removes the replacement - which never
    failed - and aborts its tasks: the runtimes are left unconnected. *)
Theorem late_removal_drops_replacement remote rt e c by_us :
  connections rt !! remote = Some e → conn e ≠ c →
  new_connection_wins (local_runtime_id (membership rt)) remote by_us = true →
  ∃ s1 s2 s3,
    conn_step remote {| runtime := rt; loops := {[conn e := Receiving]} |} s1 ∧
    conn_step remote s1 s2 ∧
    conn <$> connections (runtime s2) !! remote = Some c ∧ loops s2 !! c = Some Receiving ∧
    conn_step remote s2 s3 ∧
    connections (runtime s3) !! remote = None ∧ loops s3 = ∅.
Proof.
  intros He Hc Hw.
  set (rt2 := {| membership := mark_connection_state remote Connected (membership rt);
                 connections := <[remote := {| conn := c; control_tx := by_us |}]> (connections rt) |}).
  set (rt3 := {| membership := mark_connection_state remote Disconnected (membership rt2);
                 connections := delete remote (connections rt2) |}).
  set (s1 := {| runtime := rt; loops := <[conn e := Removing]> {[conn e := Receiving]} |}).
  assert (Hl : loops s1 !! c = None) by (simpl; by rewrite lookup_insert_ne, lookup_singleton_ne).
  assert (Hab : abort (Some (conn e)) (loops s1) = loops s1) by (simpl; by rewrite lookup_insert_eq).
  exists s1, {| runtime := rt2; loops := <[c := Receiving]> (loops s1) |}, {| runtime := rt3; loops := ∅ |}.
  split_and!.
  - subst s1. apply (conn_error remote (Build_Conns rt _) (conn e)). simpl. apply lookup_singleton_eq.
  - rewrite <-Hab. apply (conn_installed remote s1 c by_us (Some (conn e)) rt2 Hl).
    unfold install_peer. simpl. by rewrite He, Hw.
  - simpl. by rewrite lookup_insert_eq.
  - simpl. by rewrite lookup_insert_eq.
  - assert (∅ = abort (Some c) (delete (conn e) (<[c:=Receiving]> (loops s1)))) as Hend.
    { assert (delete (conn e) (loops s1) = ∅) as Hd by (simpl; by rewrite delete_insert_eq, delete_singleton_eq).
      rewrite delete_insert_ne, Hd by done. simpl. by rewrite lookup_insert_eq, delete_insert_eq. }
    rewrite Hend. apply (conn_removed remote (Build_Conns rt2 _) (conn e) (Some c) rt3).
    + simpl. by rewrite lookup_insert_ne, lookup_insert_eq.
    + unfold remove_peer. simpl. by rewrite lookup_insert_eq.
  - simpl. by rewrite lookup_delete_eq.
  - done.
Qed.

(** ** Witnesses: two runtimes, with a toy signature scheme *)

Module Demo.
(** A key signs by prefixing itself. *)
Definition toy_attest : AttestOps := {|
  pubkey_from_hex := Some; xonly := Some; sig_from_str := Some; sha256 := id;
  verify_schnorr s d x := bool_decide (s = (x +:+ d)%stdpp) |}.
#[local] Existing Instance toy_attest.

Lemma toy_signature (k : string) : ∃ x, xonly k = Some x ∧
  ∀ d, ∃ s, sig_from_str (k +:+ d)%stdpp = Some s ∧ verify_schnorr s d x = true.
Proof.
  exists k. split; [done|]. intros d. eexists. split; [done|]. simpl. by apply bool_decide_eq_true.
Qed.

Definition toy_laws : AttestLaws := {|
  Keys := string; public_key := id; sign_schnorr k d := (k +:+ d)%stdpp;
  public_key_canonical k := eq_refl; signature_verifies := toy_signature |}.

Definition rec_a : GossipRecord := with_capabilities ["reliable-stream"] (new_record "aa" ["10.0.0.1:1"] 1 100).
Definition rec_b : GossipRecord := with_capabilities ["reliable-stream"] (new_record "bb" ["10.0.0.2:1"] 1 100).
Definition mem_a : MeshMembership := new_membership rec_a.
Definition mem_b : MeshMembership := new_membership rec_b.
Definition booted : Net :=
  announce rec_b (with_node "bb" mem_b (announce rec_a (with_node "aa" mem_a empty_net))).
(** b ticks and sends its digest to a; a answers; b applies the delta. *)
Definition digest_b : GossipMessage := (gossip_tick 200 mem_b).1.
Definition mem_b2 : MeshMembership := (gossip_tick 200 mem_b).2.
Definition ticked : Net :=
  send [("bb", "aa", digest_b)]%string (announce (local_record mem_b2) (with_node "bb" mem_b2 booted)).
Definition entries_b : list GossipDigestEntry := [{| entry_id := "bb"; entry_version := 2 |}].
Definition mem_a1 : MeshMembership := record_gossip_frame_received "bb" mem_a.
Definition delta_a : GossipMessage := delta_for entries_b mem_a1.
Definition answered : Net := send [("aa", "bb", delta_a)]%string (with_node "aa" mem_a1 ticked).
Definition mem_b3 : MeshMembership := (on_gossip "aa" delta_a mem_b2).2.
Definition applied : Net := with_node "bb" mem_b3 answered.

Lemma digest_b_eq : digest_b = Digest 1 entries_b.
Proof. by vm_compute. Qed.

Lemma booted_reachable : net_reachable booted.
Proof.
  eapply rtc_l; [apply (net_boot empty_net "aa" ["10.0.0.1:1"%string] 1 100 ["reliable-stream"%string] None); apply lookup_empty|].
  eapply rtc_l; [|apply rtc_refl].
  apply (net_boot (announce rec_a (with_node "aa" mem_a empty_net)) "bb" ["10.0.0.2:1"%string] 1 100 ["reliable-stream"%string] None).
  simpl. by rewrite lookup_insert_ne.
Qed.

Lemma booted_b : nodes booted !! "bb"%string = Some mem_b.
Proof. apply lookup_insert_eq. Qed.

Lemma ticked_reachable : net_reachable ticked.
Proof.
  eapply rtc_r; [apply booted_reachable|]. by apply (net_tick booted "bb" mem_b 200 ["aa"%string] booted_b).
Qed.

Lemma ticked_a : nodes ticked !! "aa"%string = Some mem_a.
Proof. simpl. rewrite !lookup_insert_ne by done. by rewrite lookup_insert_eq. Qed.

Lemma exchange : relayed ticked "aa" applied "bb".
Proof.
  apply (relay_hop ticked "aa" ticked "aa" mem_a "bb" 1 entries_b answered mem_b2 applied).
  - apply relay_here, rtc_refl.
  - apply ticked_a.
  - rewrite <-digest_b_eq. left.
  - apply rtc_refl.
  - simpl. by rewrite lookup_insert_ne, lookup_insert_eq.
  - apply rtc_refl.
Qed.

Lemma answered_reachable : net_reachable answered.
Proof.
  eapply rtc_r; [apply ticked_reachable|].
  apply (net_deliver ticked "bb" "aa" (Digest 1 entries_b) mem_a); [rewrite <-digest_b_eq; left|apply ticked_a].
Qed.

Lemma applied_reachable : net_reachable applied.
Proof.
  eapply rtc_r; [apply answered_reachable|].
  apply (net_deliver answered "aa" "bb" delta_a mem_b2); [left|].
  simpl. by rewrite lookup_insert_ne, lookup_insert_eq.
Qed.

Lemma applied_b : nodes applied !! "bb"%string = Some mem_b3.
Proof. apply lookup_insert_eq. Qed.

Lemma heard : peers mem_b3 !! "aa"%string = Some (first_seen rec_a).
Proof. by vm_compute. Qed.

Lemma wf_a : wf mem_a.
Proof. split; [done|]. simpl. intros k p. by rewrite lookup_empty. Qed.

Definition runtime_a : Runtime := {| membership := mem_a; connections := ∅ |}.
Definition runtime_b : Runtime := {| membership := mem_b; connections := ∅ |}.
Definition connected_a : Runtime :=
  {| membership := mem_a; connections := {["bb"%string := {| conn := 1; control_tx := true |}]} |}.
End Demo.

Lemma gossip_spreads_witness : ∃ mj, nodes Demo.applied !! "bb"%string = Some mj ∧ 1 ≤ known mj "aa".
Proof.
  destruct (gossip_spreads (AT:=Demo.toy_attest) Demo.ticked "aa" Demo.applied "bb" Demo.mem_a
              Demo.ticked_reachable Demo.exchange Demo.ticked_a) as (mj & Hmj & Hk).
  exists mj. split; [exact Hmj|]. exact (Hk "aa"%string).
Defined.

Lemma gossip_faithful_witness : runtime_id (record (first_seen Demo.rec_a)) = "aa"%string.
Proof.
  exact (proj1 (gossip_faithful (AT:=Demo.toy_attest) Demo.applied "bb" Demo.mem_b3 "aa" (first_seen Demo.rec_a)
                  Demo.applied_reachable Demo.applied_b Demo.heard)).
Defined.

Lemma mesh_refines_gossip_witness : digest Demo.mem_a = gs_digest (abs Demo.mem_a).
Proof. exact (proj1 (mesh_refines_gossip Demo.mem_a [] id 0 [] Demo.wf_a)). Defined.

Lemma ready_anchored_witness :
  has_peer "bb" (apply_ready_records (AT:=Demo.toy_attest) 0
    [ready_new (AT:=Demo.toy_attest) (H:=Demo.toy_laws) "bb" ("key"%string : Keys (AttestLaws:=Demo.toy_laws)) [] 1 []]
    (with_expected_relay_pubkey "key" Demo.mem_a)) = true.
Proof.
  apply (ready_anchored (H:=Demo.toy_laws) (with_expected_relay_pubkey "key" Demo.mem_a) 0).
  - done.
  - done.
Defined.

Lemma tie_break_agrees_witness :
  ∃ c, conn <$> connections (install_all "bb" [(1%nat, true); (2%nat, false)] Demo.runtime_a) !! "bb"%string = Some c
    ∧ conn <$> connections (install_all "aa" [(2%nat, true); (1%nat, false)] Demo.runtime_b) !! "aa"%string = Some c.
Proof.
  destruct (tie_break_agrees "aa" "bb" Demo.runtime_a Demo.runtime_b [(1%nat, true); (2%nat, false)]
              [(2%nat, false); (1%nat, true)] eq_refl eq_refl eq_refl eq_refl eq_refl)
    as (c & d & _ & _ & H1 & H2).
  - apply Permutation_swap.
  - by apply NoDup_cons; split; [intros ?%list_elem_of_singleton|apply NoDup_singleton].
  - done.
  - exists c. split; [exact H1|exact H2].
Defined.

Lemma late_removal_drops_replacement_witness :
  ∃ s1 s2 s3, conn_step "bb" {| runtime := Demo.connected_a; loops := {[1%nat := Receiving]} |} s1
    ∧ conn_step "bb" s1 s2 ∧ conn_step "bb" s2 s3 ∧ connections (runtime s3) !! "bb"%string = None.
Proof.
  destruct (late_removal_drops_replacement "bb" Demo.connected_a {| conn := 1; control_tx := true |} 2 true)
    as (s1 & s2 & s3 & H1 & H2 & _ & _ & H3 & H4 & _); [by vm_compute|done|done|].
  exists s1, s2, s3. split; [exact H1|]. split; [exact H2|]. split; [exact H3|exact H4].
Defined.
