(* ===== verification/HuddleMedia.v ===== *)
(** * Huddle media across pods ([crates/buzz-relay/src/audio/mesh.rs],
    [wire.rs], the media and owner-control parts of [join.rs] and [handler.rs],
    and the client's [desktop/src-tauri/src/huddle/wire.rs])

    The fence on generations, delivery of a datagram to the local room, the v2
    frame header of the client and of the relay, the forwarding of a remote
    client's frames, and the reader of the owner's roster control.

    A byte is a [Z] in 0..=255.  The postcard encoding of control messages is
    third-party: payloads are an abstract type with a decoder.  A send on a
    channel or stream whose failure the code looks at takes its outcome from the
    event that carries it.  Rendering to JSON is left structured
    ([ClientMsg]). *)

From stdpp Require Import base gmap strings list fin_maps sorting.
From Stdlib Require Import ZArith Lia.
From S2P Require Import Prelude Nostr AudioRoom.

Local Open Scope list_scope.

Abbreviation RuntimeId := string.

Record FencedHeader : Type := MkFenced {
  fh_session_id : Uuid;
  fh_generation : Z;
  fh_owner_runtime_id : RuntimeId;
}.

Record MeshDatagram : Type := MkDatagram {
  dg_fenced : FencedHeader;
  dg_seq : Z;
  dg_payload : Bytes;
}.

#[export] Instance FencedHeader_eq_dec : EqDecision FencedHeader.
Proof. solve_decision. Defined.

(** [MeshError]; the text of a foreign error is a string. *)
Inductive MeshError : Type :=
  | Encode (e : string)
  | Decode (e : string)
  | UnknownWireVersion (v : Z)
  | EmptyFrame
  | FrameTooLarge (size max : nat)
  | DatagramTooLarge (size max : nat)
  | PeerNotConnected (peer : RuntimeId)
  | PeerDraining (peer : RuntimeId)
  | StaleGeneration (session_id : Uuid) (frame_generation known_generation : Z)
  | NoActiveLease (session_id : Uuid) (frame_generation known_generation : Z)
      (frame_owner_runtime_id : RuntimeId)
  | OwnerMismatch (session_id : Uuid) (generation : Z)
      (frame_owner_runtime_id current_owner_runtime_id : RuntimeId)
  | FutureGeneration (session_id : Uuid) (frame_generation known_generation : Z)
  | Disabled
  | Transport (e : string)
  | Redis (e : string).

(** ** The generation floor *)

Abbreviation GenerationFloor := (gmap Uuid Z).

Inductive FenceVerdict : Type :=
  | Accept (advanced : bool)
  | RejectStale (known : Z).

Definition check_fence (session : Uuid) (generation : Z) (f : GenerationFloor)
    : FenceVerdict * GenerationFloor :=
  match f !! session with
  | Some known =>
      if (generation <? known)%Z then (RejectStale known, f)
      else (Accept (known <? generation)%Z,
            if (known <? generation)%Z then <[session := generation]> f else f)
  | None => (Accept false, <[session := generation]> f)
  end.

Definition forget (session : Uuid) (f : GenerationFloor) : GenerationFloor := delete session f.

(** ** Delivering a datagram *)

Definition on_media_datagram {MI : MapIter RoomKey} (d : MeshDatagram)
    (fm : GenerationFloor * AudioRoomManager)
    : FenceVerdict * (GenerationFloor * AudioRoomManager) :=
  let '(f, m) := fm in
  let session := fh_session_id (dg_fenced d) in
  let '(verdict, f) := check_fence session (fh_generation (dg_fenced d)) f in
  match verdict with
  | RejectStale _ => (verdict, (f, m))
  | Accept _ =>
      match get_unambiguous_by_channel session m with
      | None => (verdict, (f, m))
      | Some a =>
          match dg_payload d with
          | [] => (verdict, (f, m))
          | author_index :: rest =>
              (verdict, (f, MkManager (rooms m)
                             (alter (deliver_prefixed author_index (author_index :: rest)) a (heap m))))
          end
      end
  end.

(** ** The v2 frame header *)

Definition V2_HEADER_LEN : nat := 8.
Definition FLAG_DTX : Z := 1.

Record FrameHeader : Type := MkHeader { seq : Z; ts_48k : Z; level_dbov : Z; flags : Z }.

(** [from_be_bytes] and [to_be_bytes] *)
Definition from_be_bytes (bs : Bytes) : Z := foldl (λ n b, n * 256 + b)%Z 0%Z bs.
Fixpoint to_be_bytes (width : nat) (n : Z) : Bytes :=
  match width with
  | O => []
  | S width => to_be_bytes width (n / 256)%Z ++ [(n `mod` 256)%Z]
  end.

(** [b as i8] and [x as u8] *)
Definition as_i8 (b : Z) : Z := if (b <? 128)%Z then b else (b - 256)%Z.
Definition as_u8 (x : Z) : Z := (x `mod` 256)%Z.

Definition is_dtx (h : FrameHeader) : bool := negb (Z.land (flags h) FLAG_DTX =? 0)%Z.

(** [FrameHeader::parse] of the relay; the client's is the same text. *)
Definition parse (bytes : Bytes) : option (FrameHeader * Bytes) :=
  match bytes with
  | b0 :: b1 :: b2 :: b3 :: b4 :: b5 :: b6 :: b7 :: rest =>
      let raw_level := as_i8 b6 in
      Some (MkHeader (from_be_bytes [b0; b1]) (from_be_bytes [b2; b3; b4; b5])
              (if (-127 <=? raw_level)%Z && (raw_level <=? 0)%Z then raw_level else (-127)%Z) b7,
            rest)
  | _ => None
  end.

(** The client's [encode] and [parse_relay_frame]. *)
Definition encode (h : FrameHeader) : Bytes :=
  to_be_bytes 2 (seq h) ++ to_be_bytes 4 (ts_48k h) ++ [as_u8 (level_dbov h); flags h].

Definition parse_relay_frame (bytes : Bytes) : option (Z * FrameHeader * Bytes) :=
  match bytes with
  | [] => None
  | peer_index :: framed_audio =>
      '(header, opus_payload) ← parse framed_audio;
      match opus_payload with [] => None | _ => Some (peer_index, header, opus_payload) end
  end.

(** ** A client's binary frame *)

Definition MAX_AUDIO_FRAME_BYTES : nat := 4096.

(** What [recv_loop] lets through. *)
Definition frame_admissible (protocol_version : Z) (data : Bytes) : bool :=
  (length data <=? MAX_AUDIO_FRAME_BYTES) &&
  (if (2 <=? protocol_version)%Z then
     if (length data <=? V2_HEADER_LEN) then false
     else match parse data with Some (_, _ :: _) => true | _ => false end
   else true).

Definition media_datagram (idx e version : Z) (fenced : FencedHeader) (sq : Z) (frame : Bytes)
    : MeshDatagram :=
  MkDatagram fenced sq ((idx :: (if (3 <=? version)%Z then [e] else [])) ++ frame).

(** ** Roster control from the owner *)

(** [RosterEntry] of the wire has the fields of [RosterPeer]; [From] copies
    them. *)
Abbreviation RosterEntry := RosterPeer.

Inductive FenceRejection : Type :=
  | FrStaleGeneration | FrNoActiveLease | FrOwnerMismatch | FrFutureGeneration.

Definition from_mesh_error (e : MeshError) : option FenceRejection :=
  match e with
  | StaleGeneration _ _ _ => Some FrStaleGeneration
  | NoActiveLease _ _ _ _ => Some FrNoActiveLease
  | OwnerMismatch _ _ _ _ => Some FrOwnerMismatch
  | FutureGeneration _ _ _ => Some FrFutureGeneration
  | _ => None
  end.

Inductive RegisterRejection : Type :=
  | RoomFull
  | RoomEnded
  | RejVersionMismatch (pinned requested : Z)
  | Fenced (r : FenceRejection).

Definition admission_to_rejection (e : AdmissionError) : RegisterRejection :=
  match e with
  | Full => RoomFull
  | Ended => RoomEnded
  | VersionMismatch pinned requested => RejVersionMismatch pinned requested
  end.

Inductive HuddleControlMsg : Type :=
  | RegisterPeer (community_id : Uuid) (key : string) (version : Z)
  | PeerRegistered (key : string) (idx e : Z) (roster : RosterSnapshot)
  | RosterSnapshotMsg (revision : Z) (entries : list RosterEntry)
  | RosterDeltaMsg (revision : Z) (new gone : option RosterEntry)
  | RosterResync
  | RegisterRejected (key : string) (reason : RegisterRejection)
  | UnregisterPeer (key : string).

Inductive GoodbyeReason : Type := SessionEnded | Draining | GStaleGeneration.

Inductive HuddleTeardownCause : Type :=
  | OwnerLost | OwnerDraining | CauseSessionEnded | StreamClosed.

Definition from_goodbye (r : GoodbyeReason) : HuddleTeardownCause :=
  match r with
  | GStaleGeneration => OwnerLost
  | Draining => OwnerDraining
  | SessionEnded => CauseSessionEnded
  end.

(** The three JSON texts sent to the client. *)
Inductive ClientMsg : Type :=
  | CRoster (revision : Z) (entries : list RosterEntry)
  | CJoined (revision : Z) (p : RosterEntry)
  | CLeft (revision : Z) (p : RosterEntry).

(** A frame of a mesh stream; its Hello and gossip contents are not read
    here. *)
Inductive MeshStreamFrame (Payload : Type) : Type :=
  | Hello
  | Data (fenced : FencedHeader) (payload : Payload)
  | Goodbye (fenced : FencedHeader) (reason : GoodbyeReason)
  | Gossip.
Arguments Hello {Payload}.
Arguments Data {Payload} _ _.
Arguments Goodbye {Payload} _ _.
Arguments Gossip {Payload}.

Definition roster_delta_msg (d : RosterDelta) : HuddleControlMsg :=
  RosterDeltaMsg (rd_revision d) (joined d) (left_ d).

Definition roster_snapshot_msg {MI : MapIter Uuid} (r : Room) : HuddleControlMsg :=
  let s := roster_snapshot r in RosterSnapshotMsg (rs_revision s) (rs_peers s).

Section owner_control.
Context {Payload : Type}.
Context (encode_control : HuddleControlMsg → result MeshError Payload).
Context (decode_control : Payload → result MeshError HuddleControlMsg).

(** What [stream.recv_frame()] yields and whether the send made in the same
    turn, if there is one, succeeds. *)
Abbreviation StreamEvent := (result MeshError (option (MeshStreamFrame Payload)) * bool)%type.

(** What the reader did: texts to the client and resync requests. *)
Inductive ReaderAct : Type := ToClient (m : ClientMsg) | AskResync (payload : Payload).

(** One message of the owner: the revision after it and what is to be sent;
    [Err] is the teardown of a failed encoding. *)
Definition control_turn (revision : Z) (msg : HuddleControlMsg)
    : result HuddleTeardownCause (Z * option ReaderAct) :=
  match msg with
  | RosterSnapshotMsg next entries => Ok (next, Some (ToClient (CRoster next entries)))
  | RosterDeltaMsg next new gone =>
      if bool_decide (next = u64_wrapping_add revision 1) then
        Ok (next, match new, gone with
                  | Some p, _ => Some (ToClient (CJoined next p))
                  | None, Some p => Some (ToClient (CLeft next p))
                  | None, None => None
                  end)
      else if (next <=? revision)%Z then Ok (revision, None)
      else match encode_control RosterResync with
           | Ok payload => Ok (revision, Some (AskResync payload))
           | Err _ => Err StreamClosed
           end
  | _ => Ok (revision, None)
  end.

(** [read_owner_control]: [None] while the stream has more to come. *)
Fixpoint read_owner_control (evs : list StreamEvent) (revision : Z)
    : option HuddleTeardownCause * Z * list ReaderAct :=
  match evs with
  | [] => (None, revision, [])
  | (Ok (Some (Goodbye _ reason)), _) :: _ => (Some (from_goodbye reason), revision, [])
  | (Ok (Some (Data _ payload)), sent) :: evs =>
      match decode_control payload with
      | Err _ => read_owner_control evs revision
      | Ok msg =>
          match control_turn revision msg with
          | Err cause => (Some cause, revision, [])
          | Ok (revision, None) => read_owner_control evs revision
          | Ok (revision, Some act) =>
              if sent then
                let '(cause, final, acts) := read_owner_control evs revision in
                (cause, final, act :: acts)
              else (Some (match act with ToClient _ => CauseSessionEnded | _ => StreamClosed end),
                    revision, [])
          end
      end
  | (Ok (Some _), _) :: evs => read_owner_control evs revision
  | (Ok None, _) :: _ | (Err _, _) :: _ => (Some StreamClosed, revision, [])
  end.

(** The roster a client holds after the texts it was sent. *)
Definition client_apply (roster : list RosterEntry) (act : ReaderAct) : list RosterEntry :=
  match act with
  | ToClient (CRoster _ entries) => entries
  | ToClient (CJoined n p) => apply_delta roster (MkDelta n (Some p) None)
  | ToClient (CLeft n p) => apply_delta roster (MkDelta n None (Some p))
  | AskResync _ => roster
  end.

Definition client_roster (acts : list ReaderAct) (roster : list RosterEntry) : list RosterEntry :=
  foldl client_apply roster acts.

(** A message the owner may have sent while its room came to be [r]. *)
Definition from_history {MI : MapIter Uuid} (r : Room) (msg : HuddleControlMsg) : Prop :=
  match msg with
  | RosterSnapshotMsg _ _ => ∃ r0, room_reachable r0 ∧ room_steps r0 r ∧ msg = roster_snapshot_msg r0
  | RosterDeltaMsg _ _ _ => ∃ d, d ∈ roster_log r ∧ msg = roster_delta_msg d
  | _ => True
  end.
End owner_control.

(** ** Who owns a huddle *)

Record Ownership : Type := MkOwnership { owner_runtime_id : RuntimeId; generation : Z }.

(** [SessionLease] inside [HuddleLease]. *)
Record HuddleLease : Type := MkLease {
  lease_community_id : CommunityId;
  lease_session_id : Uuid;
  lease_owner_runtime_id : RuntimeId;
  lease_generation : Z;
}.

Inductive AcquireOutcome : Type := Acquired (l : HuddleLease) | Held (o : Ownership).

Inductive JoinOutcome : Type :=
  | LocalOwner (generation : Z)
  | RemoteOwner (owner : RuntimeId) (generation : Z).

Record ResolvedJoin : Type := MkResolved { outcome : JoinOutcome; acquired : option HuddleLease }.

(** The directory (Redis scripts) and the owner registry, as the join path uses
    them, over a state [W] that other tasks change while this one sleeps. *)
Record HuddleDirectory (W : Type) : Type := MkDirectory {
  owner_of : CommunityId → Uuid → SE W MeshError (option Ownership);
  acquire : CommunityId → Uuid → RuntimeId → SE W MeshError AcquireOutcome;
  validate : CommunityId → FencedHeader → SE W MeshError unit;
  lost_for : Uuid → W → bool;
  sleep : W → W;
}.
Arguments owner_of {W} _ _ _.
Arguments acquire {W} _ _ _ _.
Arguments validate {W} _ _ _.
Arguments lost_for {W} _ _ _.
Arguments sleep {W} _ _.

Definition OWNER_READY_MAX_ATTEMPTS : nat := 25.

Section join.
Context {W : Type} (dir : HuddleDirectory W).

Definition join_held (community : CommunityId) (session : Uuid) (local : RuntimeId)
    (o : Ownership) : SE W MeshError ResolvedJoin :=
  if bool_decide (owner_runtime_id o = local) then
    mret (MkResolved (LocalOwner (generation o)) None)
  else
    validate dir community (MkFenced session (generation o) (owner_runtime_id o));;
    mret (MkResolved (RemoteOwner (owner_runtime_id o) (generation o)) None).

Definition resolve_join (community : CommunityId) (session : Uuid) (local : RuntimeId)
    : SE W MeshError ResolvedJoin :=
  found ← owner_of dir community session;
  match found with
  | Some o => join_held community session local o
  | None =>
      got ← acquire dir community session local;
      match got with
      | Acquired l => mret (MkResolved (LocalOwner (lease_generation l)) (Some l))
      | Held o => join_held community session local o
      end
  end.

Fixpoint owner_ready_loop (attempts : nat) (community : CommunityId) (session : Uuid)
    (local : RuntimeId) : SE W MeshError ResolvedJoin :=
  match attempts with
  | O => se_throw (Transport "huddle owner not ready")
  | S attempts =>
      resolved ← resolve_join community session local;
      match outcome resolved, acquired resolved with
      | LocalOwner _, None =>
          w ← se_get;
          if lost_for dir session w then mret resolved
          else se_modify (sleep dir);; owner_ready_loop attempts community session local
      | _, _ => mret resolved
      end
  end.

Definition resolve_join_owner_ready (community : CommunityId) (session : Uuid)
    (local : RuntimeId) : SE W MeshError ResolvedJoin :=
  owner_ready_loop OWNER_READY_MAX_ATTEMPTS community session local.
End join.

(** ** The fence *)

Inductive fence_call : Type := FCheck (s : Uuid) (g : Z) | FForget (s : Uuid).

Definition fence_run (calls : list fence_call) : GenerationFloor :=
  foldl (λ f c, match c with
                | FCheck s g => (check_fence s g f).2
                | FForget s => forget s f
                end) ∅ calls.

(** The generations checked for session [s] since it was last forgotten. *)
Definition recent (s : Uuid) (calls : list fence_call) : list Z :=
  foldl (λ gs c, match c with
                 | FCheck s' g => if bool_decide (s' = s) then gs ++ [g] else gs
                 | FForget s' => if bool_decide (s' = s) then [] else gs
                 end) [] calls.

Definition is_max (k : Z) (gs : list Z) : Prop := k ∈ gs ∧ ∀ g, g ∈ gs → (g ≤ k)%Z.

Lemma is_max_snoc k gs g : is_max k gs → is_max (Z.max k g) (gs ++ [g]).
Proof.
  intros [Hk Hle]. split.
  - apply elem_of_app. destruct (Z.max_spec k g) as [[_ ->]|[_ ->]]; [right; left|by left].
  - intros x [Hx|Hx%list_elem_of_singleton]%elem_of_app; [specialize (Hle _ Hx)|]; lia.
Qed.

Lemma check_fence_lookup s g f s' :
  (check_fence s g f).2 !! s' =
    if bool_decide (s = s') then Some (match f !! s with Some k => Z.max k g | None => g end)
    else f !! s'.
Proof.
  unfold check_fence. destruct (f !! s) as [k|] eqn:Hs; case_bool_decide as Hb; subst.
  - destruct (Z.ltb_spec g k); simpl; [rewrite Hs; f_equal; lia|].
    destruct (Z.ltb_spec k g); [rewrite lookup_insert_eq|rewrite Hs]; f_equal; lia.
  - repeat case_match; simpl; rewrite ?lookup_insert_ne by done; done.
  - simpl. by rewrite lookup_insert_eq.
  - simpl. by rewrite lookup_insert_ne by done.
Qed.

Lemma fence_floor calls s :
  match fence_run calls !! s with
  | Some k => is_max k (recent s calls)
  | None => recent s calls = []
  end.
Proof.
  induction calls as [|c calls IH] using rev_ind; [done|].
  unfold fence_run, recent in *. rewrite !foldl_app. simpl. destruct c as [s' g|s'].
  - rewrite check_fence_lookup. case_bool_decide as Hb; [subst|done].
    destruct (foldl _ ∅ calls !! s) as [k|]; [by apply is_max_snoc|].
    rewrite IH. split; [left|]. by intros x ->%list_elem_of_singleton.
  - unfold forget. case_bool_decide as Hb; [subst; by rewrite lookup_delete_eq|].
    by rewrite lookup_delete_ne by done.
Qed.

(** The generation fence.  After any checks and forgets, a frame of a
    session is rejected exactly when a higher generation was checked for that
    session since it was last forgotten, and the verdict names the highest;
    otherwise it is accepted, as a takeover exactly when the session was known
    and every generation seen was lower.  Other sessions do not matter. *)
Theorem fence_decides calls s g :
  match (check_fence s g (fence_run calls)).1 with
  | RejectStale k => is_max k (recent s calls) ∧ (g < k)%Z
  | Accept advanced =>
      (∀ x, x ∈ recent s calls → (x ≤ g)%Z) ∧
      (advanced = true ↔ recent s calls ≠ [] ∧ ∀ x, x ∈ recent s calls → (x < g)%Z)
  end.
Proof.
  pose proof (fence_floor calls s) as Hf. unfold check_fence.
  destruct (fence_run calls !! s) as [k|].
  - destruct Hf as [Hin Hle]. destruct (Z.ltb_spec g k); simpl; [done|]. split.
    + intros x Hx%Hle. lia.
    + split.
      * intros Hlt%Z.ltb_lt. split; [by intros Heq; rewrite Heq in Hin; apply not_elem_of_nil in Hin|].
        intros x Hx%Hle. lia.
      * intros [_ Hall]. apply Z.ltb_lt, Hall, Hin.
  - rewrite Hf. simpl. split; [by intros x Hx%not_elem_of_nil|]. by split; [|intros [? _]].
Qed.

(** ** A remote frame is played as a local one *)

(** The frame of a client served by another relay has the same effect as a
    local one: when the datagram built for peer [p] of the owner's room passes
    the fence and names the only room of that channel, the owner's room becomes
    exactly what [broadcast_frame] makes of it; with a stale generation nothing
    is delivered. *)
Theorem remote_frame_as_local {MI : MapIter RoomKey} m f a r pid p session gen owner sq frame :
  manager_steps m → get_unambiguous_by_channel session m = Some a → heap m !! a = Some r →
  peers r !! pid = Some p →
  let d := media_datagram (peer_index p) (epoch p) (protocol_version p)
             (MkFenced session gen owner) sq frame in
  let '(verdict, (f', m')) := on_media_datagram d (f, m) in
  (verdict, f') = check_fence session gen f ∧ rooms m' = rooms m ∧
  match verdict with
  | Accept _ => heap m' = <[a := broadcast_frame pid frame r]> (heap m)
  | RejectStale _ => heap m' = heap m
  end.
Proof.
  intros Hm Hu Ha Hp. apply manager_steps_inv in Hm as [Hh _].
  pose proof (reachable_inv _ (Hh _ _ Ha)) as Hi. cbn zeta. unfold on_media_datagram. simpl.
  destruct (check_fence session gen f) as [[adv|k] f'] eqn:Hc; [|done]. rewrite Hu. simpl.
  split_and!; [done..|]. rewrite (broadcast_as_deliver _ _ _ frame Hi Hp).
  apply list_eq. intros b. rewrite list_lookup_alter. destruct (decide (b = a)) as [->|Hne].
  - rewrite Ha, list_lookup_insert_eq by (by eapply lookup_lt_Some). simpl.
    rewrite decide_True by done. unfold frame_prefix. by destruct (3 <=? protocol_version p)%Z.
  - by rewrite list_lookup_insert_ne, decide_False by done.
Qed.

(** ** The v2 header survives the whole path *)

Lemma from_be_bytes_snoc l b : from_be_bytes (l ++ [b]) = (from_be_bytes l * 256 + b)%Z.
Proof. unfold from_be_bytes. by rewrite foldl_app. Qed.

Lemma be_bytes_roundtrip w n :
  (0 ≤ n < 256 ^ Z.of_nat w)%Z → from_be_bytes (to_be_bytes w n) = n.
Proof.
  revert n. induction w as [|w IH]; intros n Hn.
  { change (256 ^ Z.of_nat 0)%Z with 1%Z in Hn. by assert (n = 0)%Z as -> by lia. }
  cbn [to_be_bytes]. rewrite from_be_bytes_snoc, IH; [pose proof (Z.div_mod n 256); lia|].
  rewrite Nat2Z.inj_succ, Z.pow_succ_r in Hn by lia.
  split; [apply Z.div_pos; lia|apply Z.div_lt_upper_bound; lia].
Qed.

Lemma as_i8_u8 x : (-128 ≤ x ≤ 127)%Z → as_i8 (as_u8 x) = x.
Proof.
  intros Hx. unfold as_i8, as_u8. destruct (Z.ltb_spec x 0).
  - rewrite <-(Z.mod_unique x 256 (-1) (x + 256)) by lia.
    destruct (Z.ltb_spec (x + 256) 128); lia.
  - rewrite Z.mod_small by lia. destruct (Z.ltb_spec x 128); lia.
Qed.

(** A header whose fields fit their widths. *)
Definition header_ok (h : FrameHeader) : Prop :=
  (0 ≤ seq h < 2 ^ 16 ∧ 0 ≤ ts_48k h < 2 ^ 32 ∧ -128 ≤ level_dbov h ≤ 127 ∧ 0 ≤ flags h < 256)%Z.

(** Out-of-range levels become the silence floor. *)
Definition canonical (h : FrameHeader) : FrameHeader :=
  MkHeader (seq h) (ts_48k h)
    (if (-127 <=? level_dbov h)%Z && (level_dbov h <=? 0)%Z then level_dbov h else (-127)%Z) (flags h).

Lemma parse_encode h opus : header_ok h → parse (encode h ++ opus) = Some (canonical h, opus).
Proof.
  intros (Hs & Ht & Hl & Hf).
  pose proof (be_bytes_roundtrip 2 (seq h) Hs) as E2.
  pose proof (be_bytes_roundtrip 4 (ts_48k h) Ht) as E4.
  unfold encode, canonical. cbn [to_be_bytes app] in *. cbn [parse app].
  rewrite E2, E4, as_i8_u8 by done. done.
Qed.

Lemma parse_short bytes : length bytes < V2_HEADER_LEN ↔ parse bytes = None.
Proof.
  unfold V2_HEADER_LEN.
  destruct bytes as [|? [|? [|? [|? [|? [|? [|? [|? ?]]]]]]]]; simpl; split; intros; try done; lia.
Qed.

(** A v2 frame end to end.  The client's header and Opus payload pass the
    relay's checks whenever the payload is not empty and the frame is at most
    4096 bytes, the relay reads the header the client wrote (a level outside
    -127..=0 reads as -127 and never drops the frame), and a receiver in a room
    pinned to version 2 parses what the fan-out hands it into the sender's
    index, the same header and the untouched payload.  Bytes shorter than a
    header never parse. *)
Theorem frame_end_to_end h opus p :
  header_ok h → opus ≠ [] → V2_HEADER_LEN + length opus ≤ MAX_AUDIO_FRAME_BYTES →
  protocol_version p = 2%Z →
  frame_admissible 2 (encode h ++ opus) = true ∧
  parse (encode h ++ opus) = Some (canonical h, opus) ∧
  parse_relay_frame (frame_prefix p ++ (encode h ++ opus)) =
    Some (peer_index p, canonical h, opus) ∧
  (∀ bytes, length bytes < V2_HEADER_LEN → parse bytes = None).
Proof.
  intros Hh Hne Hlen Hv. pose proof (parse_encode h opus Hh) as Hp. split_and!.
  - unfold frame_admissible. rewrite Hp.
    assert (length (encode h ++ opus) = V2_HEADER_LEN + length opus) as -> by (by rewrite length_app).
    rewrite (proj2 (Nat.leb_le _ _) Hlen). destruct opus as [|b opus]; [done|]. cbn [andb Z.leb].
    assert (V2_HEADER_LEN + length (b :: opus) <=? V2_HEADER_LEN = false) as ->; [|done].
    apply Nat.leb_gt. cbn [length]. lia.
  - done.
  - unfold frame_prefix. rewrite Hv. change (3 <=? 2)%Z with false. cbv iota.
    change ([peer_index p] ++ encode h ++ opus) with (peer_index p :: (encode h ++ opus)).
    unfold parse_relay_frame. rewrite Hp. simpl. by destruct opus.
  - intros bytes. apply parse_short.
Qed.

(** ** The roster a client sees through the owner's control stream *)

Section client_view.
Context {MIu : MapIter Uuid} {Payload : Type}.
Context (encode_control : HuddleControlMsg → result MeshError Payload).
Context (decode_control : Payload → result MeshError HuddleControlMsg).

(** Every roster message of a stream is one the owner sent. *)
Definition stream_of (r : Room) (evs : list (result MeshError (option (MeshStreamFrame Payload)) * bool)) : Prop :=
  ∀ fenced payload sent msg, (Ok (Some (Data fenced payload)), sent) ∈ evs →
    decode_control payload = Ok msg → from_history r msg.

(** The client shows the owner's roster as it was at revision [k]. *)
Definition shows (r : Room) (k : nat) (roster : list RosterEntry) : Prop :=
  k ≤ length (roster_log r) ∧ roster = replay (take k (roster_log r)).

Lemma log_delta_index r d :
  room_inv r → d ∈ roster_log r → (Z.of_nat (length (roster_log r)) < 2 ^ 64)%Z →
  ∃ k, roster_log r !! k = Some d ∧ rd_revision d = Z.of_nat (S k) ∧ S k ≤ length (roster_log r).
Proof.
  intros Hi (k & Hk)%list_elem_of_lookup Hlen. exists k.
  pose proof (lookup_lt_Some _ _ _ Hk). split; [done|]. split; [|lia].
  rewrite (inv_log _ Hi _ _ Hk), Z.mod_small by lia. lia.
Qed.

Lemma snapshot_shows r0 r :
  room_reachable r0 → room_steps r0 r → (Z.of_nat (length (roster_log r)) < 2 ^ 64)%Z →
  ∃ k, rs_revision (roster_snapshot r0) = Z.of_nat k ∧ shows r k (rs_peers (roster_snapshot r0)).
Proof.
  intros Hr0 Hs Hlen. pose proof (reachable_inv _ Hr0) as Hi.
  destruct (steps_log_prefix _ _ Hi Hs) as [l Hl].
  exists (length (roster_log r0)). rewrite Hl, length_app in Hlen. split.
  - unfold roster_snapshot. simpl. rewrite (inv_revision _ Hi), Z.mod_small; lia.
  - unfold shows. rewrite (snapshot_replays _ Hr0), Hl, take_app_length, length_app. split; [lia|done].
Qed.

(** One turn keeps the view in step with the revision, or asks for a resync. *)
Lemma control_turn_view r msg k roster rev' act :
  room_reachable r → (Z.of_nat (length (roster_log r)) < 2 ^ 64)%Z → from_history r msg →
  shows r k roster → control_turn encode_control (Z.of_nat k) msg = Ok (rev', act) →
  ∃ k', rev' = Z.of_nat k' ∧
    shows r k' (match act with Some a => client_apply roster a | None => roster end).
Proof.
  intros Hr Hlen Hmsg [Hk Hro] Hturn. pose proof (reachable_inv _ Hr) as Hi.
  destruct msg; simpl in *; simplify_eq; try by (exists k; by repeat split).
  - destruct Hmsg as (r0 & Hr0 & Hs & Heq). destruct (snapshot_shows _ _ Hr0 Hs Hlen) as (k' & Hk' & Hsh).
    exists k'. unfold roster_snapshot_msg in Heq. simplify_eq/=. done.
  - destruct Hmsg as (d & Hd & Heq). unfold roster_delta_msg in Heq. simplify_eq.
    destruct (log_delta_index _ _ Hi Hd Hlen) as (j & Hj & Hrev & Hjl).
    case_bool_decide as Hnext.
    + rewrite Hrev in Hnext. unfold u64_wrapping_add in Hnext.
      assert (j = k) as ->.
      { destruct (decide (Z.of_nat k + 1 = 2 ^ 64)%Z) as [Heq|]; [rewrite Heq, Z.mod_same in Hnext; lia|].
        rewrite Z.mod_small in Hnext; lia. } exists (S k). split; [simplify_eq; lia|]. split; [done|].
      rewrite (take_S_r _ _ _ Hj), replay_snoc. destruct d as [n new gone]. simpl in *.
      destruct (inv_one _ Hi _ _ Hj) as [(p & Hn & Hg)|(p & Hn & Hg)]; simpl in Hn, Hg; subst;
        by simplify_eq/=.
    + repeat case_match; simplify_eq; exists k; by repeat split.
Qed.

Lemma reader_view r evs k0 roster0 :
  room_reachable r → (Z.of_nat (length (roster_log r)) < 2 ^ 64)%Z →
  stream_of r evs → shows r k0 roster0 →
  let '(cause, rev, acts) := read_owner_control encode_control decode_control evs (Z.of_nat k0) in
  ∃ k, shows r k (client_roster acts roster0) ∧ (cause = None → rev = Z.of_nat k).
Proof.
  intros Hr Hlen. revert k0 roster0.
  induction evs as [|[[[fr|]|e] sent] evs IH]; intros k0 roster0 Hst Hsh; simpl; eauto.
  assert (Hst' : stream_of r evs) by (intros ?????; eapply Hst; right; eassumption).
  destruct fr as [|fenced payload|fenced reason|]; simpl; [by apply IH| |by eauto|by apply IH].
  destruct (decode_control payload) as [msg|] eqn:Hd; [|by apply IH].
  destruct (control_turn encode_control (Z.of_nat k0) msg) as [[rev' act]|cause] eqn:Ht; [|eauto].
  assert (Hmsg : from_history r msg) by (eapply Hst; [left|done]).
  destruct (control_turn_view r msg k0 roster0 rev' act Hr Hlen Hmsg Hsh Ht) as (k' & -> & Hsh').
  destruct act as [act|]; [|by apply IH]. destruct sent; [|by exists k0].
  specialize (IH k' _ Hst' Hsh').
  destruct (read_owner_control _ _ evs _) as [[cause final] acts]. exact IH.
Qed.

(** The deltas [ds], each sent and read without a failure. *)
Definition delivered (fenced : FencedHeader) (ds : list RosterDelta)
    (evs : list (result MeshError (option (MeshStreamFrame Payload)) * bool)) : Prop :=
  Forall2 (λ d ev, ∃ payload, decode_control payload = Ok (roster_delta_msg d) ∧
                     ev = (Ok (Some (Data fenced payload)), true)) ds evs.

Lemma delta_turn_next r k d :
  room_inv r → (Z.of_nat (length (roster_log r)) < 2 ^ 64)%Z → roster_log r !! k = Some d →
  ∃ act, control_turn encode_control (Z.of_nat k) (roster_delta_msg d) =
           Ok (Z.of_nat (S k), Some (ToClient act)).
Proof.
  intros Hi Hlen Hk. pose proof (lookup_lt_Some _ _ _ Hk).
  pose proof (inv_log _ Hi _ _ Hk) as Hrev. rewrite Z.mod_small in Hrev by lia.
  simpl. unfold u64_wrapping_add. rewrite Z.mod_small, bool_decide_true by lia.
  destruct (inv_one _ Hi _ _ Hk) as [(p & H1 & H2)|(p & H1 & H2)]; rewrite H1, ?H2, Hrev;
    eexists; do 2 f_equal; lia.
Qed.

Lemma delta_turn_stale r k j d :
  room_inv r → (Z.of_nat (length (roster_log r)) < 2 ^ 64)%Z → roster_log r !! j = Some d → j < k →
  k ≤ length (roster_log r) →
  control_turn encode_control (Z.of_nat k) (roster_delta_msg d) = Ok (Z.of_nat k, None).
Proof.
  intros Hi Hlen Hj Hlt Hk. pose proof (inv_log _ Hi _ _ Hj) as Hrev.
  rewrite Z.mod_small in Hrev by lia. simpl. rewrite bool_decide_false.
  - rewrite (proj2 (Z.leb_le _ _)); [done|lia].
  - unfold u64_wrapping_add. destruct (decide (Z.of_nat k + 1 = 2 ^ 64)%Z) as [Heq|].
    + rewrite Heq, Z.mod_same; lia.
    + rewrite Z.mod_small; lia.
Qed.

Lemma delivered_stream r fenced i evs :
  delivered fenced (drop i (roster_log r)) evs → stream_of r evs.
Proof.
  intros Hdel fenced' payload sent msg (n & Hn)%list_elem_of_lookup Hdec.
  destruct (Forall2_lookup_r _ _ _ _ _ Hdel Hn) as (d & Hd & payload' & Hdec' & Heq).
  simplify_eq. rewrite Hdec' in Hdec. injection Hdec as <-. exists d. split; [|done]. rewrite lookup_drop in Hd. by eapply list_elem_of_lookup_2.
Qed.

Lemma delivered_nil fenced evs : delivered fenced [] evs → evs = [].
Proof. by inversion 1. Qed.

(** Reading the deltas from position [i] on, at or before the view [k]. *)
Lemma deltas_catch_up r fenced ds i k evs :
  room_reachable r → (Z.of_nat (length (roster_log r)) < 2 ^ 64)%Z →
  drop i (roster_log r) = ds → i ≤ k → k ≤ length (roster_log r) → delivered fenced ds evs →
  ∃ acts, read_owner_control encode_control decode_control evs (Z.of_nat k) =
            (None, Z.of_nat (length (roster_log r)), acts) ∧ ∀ p, AskResync p ∉ acts.
Proof.
  intros Hr Hlen. pose proof (reachable_inv _ Hr) as Hi. revert i k evs.
  induction ds as [|d ds IH]; intros i k evs Hdrop Hik Hk Hdel.
  - apply delivered_nil in Hdel as ->. assert (k = length (roster_log r)) as ->.
    { apply (f_equal length) in Hdrop. rewrite length_drop in Hdrop. simpl in Hdrop. lia. }
    exists []. split; [done|]. intros p. apply not_elem_of_nil.
  - apply Forall2_cons_inv_l in Hdel as (ev & evs' & (payload & Hdec & ->) & Hdel & ->).
    assert (Hi0 : roster_log r !! i = Some d) by (rewrite <-(Nat.add_0_r i), <-lookup_drop, Hdrop; done).
    assert (Hdrop' : drop (S i) (roster_log r) = ds)
      by (rewrite <-Nat.add_1_r, <-drop_drop, Hdrop; done).
    cbn [read_owner_control]. rewrite Hdec. destruct (decide (i = k)) as [->|Hne].
    + destruct (delta_turn_next r k d Hi Hlen Hi0) as [act ->].
      pose proof (lookup_lt_Some _ _ _ Hi0).
      destruct (IH (S k) (S k) evs' Hdrop') as (acts & -> & Hno); [lia|lia|done|].
      exists (ToClient act :: acts). split; [done|]. intros p [?|?]%elem_of_cons; [done|].
      by eapply Hno.
    + rewrite (delta_turn_stale r k i d) by (done || lia). apply (IH (S i)); [done|lia|done|done].
Qed.

(** The view of a client behind another relay is never wrong, only old.
    Whatever roster messages of the owner are lost, duplicated or reordered,
    whichever frames do not decode and whenever a send fails, the texts
    forwarded to the client leave it with the owner's exact roster at some
    revision; while the stream runs that is the revision the reader tracks. *)
Theorem owner_control_view r evs k0 roster0 :
  room_reachable r → (Z.of_nat (length (roster_log r)) < 2 ^ 64)%Z →
  stream_of r evs → shows r k0 roster0 →
  let '(cause, rev, acts) := read_owner_control encode_control decode_control evs (Z.of_nat k0) in
  ∃ k, shows r k (client_roster acts roster0) ∧ (cause = None → rev = Z.of_nat k).
Proof. apply reader_view. Qed.

(** The client catches up.  Subscribed at or before the revision of its
    snapshot, a reader that loses nothing forwards every later change once, skips
    the earlier ones, asks for no resync and leaves the client with the owner's
    present roster; a delta beyond the next revision is not applied but answered
    by a resync request, and a snapshot brings any view up to date. *)
Theorem owner_control_catches_up r fenced i k0 roster0 evs :
  room_reachable r → (Z.of_nat (length (roster_log r)) < 2 ^ 64)%Z → shows r k0 roster0 → i ≤ k0 →
  delivered fenced (drop i (roster_log r)) evs →
  (∃ acts,
     read_owner_control encode_control decode_control evs (Z.of_nat k0) =
       (None, rs_revision (roster_snapshot r), acts) ∧
     (∀ p, AskResync p ∉ acts) ∧
     client_roster acts roster0 = rs_peers (roster_snapshot r)) ∧
  (∀ j d payload, roster_log r !! j = Some d → k0 < j → encode_control RosterResync = Ok payload →
     control_turn encode_control (Z.of_nat k0) (roster_delta_msg d) =
       Ok (Z.of_nat k0, Some (AskResync payload))) ∧
  (∃ act, control_turn encode_control (Z.of_nat k0) (roster_snapshot_msg r) =
            Ok (rs_revision (roster_snapshot r), Some act) ∧
          client_apply roster0 act = rs_peers (roster_snapshot r)).
Proof.
  intros Hr Hlen Hsh Hik Hdel. pose proof (reachable_inv _ Hr) as Hi.
  assert (Hrev : rs_revision (roster_snapshot r) = Z.of_nat (length (roster_log r))).
  { unfold roster_snapshot. simpl. rewrite (inv_revision _ Hi), Z.mod_small; lia. }
  split_and!; [| |by eexists].
  - destruct (deltas_catch_up r fenced _ i k0 evs Hr Hlen eq_refl Hik (proj1 Hsh) Hdel)
      as (acts & Heq & Hno).
    exists acts. rewrite Hrev. split; [done|]. split; [done|].
    assert (Hst : stream_of r evs) by by eapply delivered_stream.
    pose proof (reader_view r evs k0 roster0 Hr Hlen Hst Hsh) as Hv. rewrite Heq in Hv.
    destruct Hv as (k & [_ ->] & Hk). specialize (Hk eq_refl).
    rewrite (snapshot_replays _ Hr), firstn_all2 by lia. done.
  - intros j d payload Hj Hlt Henc. pose proof (inv_log _ Hi _ _ Hj) as Hd.
    pose proof (lookup_lt_Some _ _ _ Hj). rewrite Z.mod_small in Hd by lia.
    simpl. unfold u64_wrapping_add. rewrite Z.mod_small, bool_decide_false by lia.
    rewrite (proj2 (Z.leb_gt _ _)), Henc by lia. done.
Qed.
End client_view.

(** ** Joining never runs a huddle without a renewer *)

Section ready.
Context {W : Type} (dir : HuddleDirectory W).

(** What a resolution rests on, in the state [w'] it was returned in. *)
Definition rests_on (community : CommunityId) (session : Uuid) (local : RuntimeId)
    (res : ResolvedJoin) (w' : W) : Prop :=
  match outcome res, acquired res with
  | LocalOwner g, Some l =>
      g = lease_generation l ∧ ∃ w0, acquire dir community session local w0 = (Ok (Acquired l), w')
  | LocalOwner g, None => lost_for dir session w' = true
  | RemoteOwner o g, a =>
      a = None ∧ o ≠ local ∧ ∃ w0, validate dir community (MkFenced session g o) w0 = (Ok tt, w')
  end.

(** The reuse arm: this runtime is named the owner but minted nothing. *)
Definition reuses (res : ResolvedJoin) : Prop := ∃ g, res = MkResolved (LocalOwner g) None.

Lemma join_held_rests community session local o w res w' :
  join_held dir community session local o w = (Ok res, w') →
  reuses res ∨ rests_on community session local res w'.
Proof.
  unfold join_held. case_bool_decide as Ho; [intros [= <- <-]; left; by eexists|].
  unfold mbind, se_bind, mret, se_ret.
  destruct (validate dir _ _ w) as [[[]|e] w1] eqn:Hv; [|done]. intros [= <- <-]. right.
  split_and!; [done|done|by eexists].
Qed.

Lemma resolve_join_rests community session local w res w' :
  resolve_join dir community session local w = (Ok res, w') →
  reuses res ∨ rests_on community session local res w'.
Proof.
  unfold resolve_join, mbind, se_bind.
  destruct (owner_of dir community session w) as [[[o|]|e] w1] eqn:Ho; [|clear Ho|done].
  - apply join_held_rests.
  - destruct (acquire dir community session local w1) as [[[l|o]|e] w2] eqn:Ha; [| |done].
    + intros [= <- <-]. right. split; [done|by eexists].
    + apply join_held_rests.
Qed.

Lemma ready_loop_rests n community session local w res w' :
  owner_ready_loop dir n community session local w = (Ok res, w') →
  rests_on community session local res w'.
Proof.
  revert w. induction n as [|n IH]; intros w; [done|]. cbn [owner_ready_loop].
  unfold mbind at 1, se_bind at 1.
  destruct (resolve_join dir community session local w) as [[r0|e] w1] eqn:Hr; [|done].
  apply resolve_join_rests in Hr as [[g ->]|Hr]; simpl.
  - unfold mbind, se_bind, se_get, se_modify, mret, se_ret.
    destruct (lost_for dir session w1) eqn:Hl; [by intros [= <- <-]|apply IH].
  - destruct r0 as [[g|o g] [l|]]; simpl in *; try by intros [= <- <-].
    unfold mbind, se_bind, se_get, mret, se_ret. rewrite Hr. by intros [= <- <-].
Qed.

(** A join is never resolved to an owner without a renewer.  When it
    resolves at all, this runtime either just minted the lease whose generation
    it will use, or found a live entry of the owner registry after reading the
    directory, or goes to another owner whose header the directory has just
    validated; when 25 resolutions in a row name this runtime without a live
    entry the join fails. *)
Theorem owner_ready_rests community session local w :
  (∀ res w', resolve_join_owner_ready dir community session local w = (Ok res, w') →
     rests_on community session local res w') ∧
  ((∀ w0, ∃ g w1, resolve_join dir community session local w0 = (Ok (MkResolved (LocalOwner g) None), w1)
                  ∧ lost_for dir session w1 = false) →
   ∃ w', resolve_join_owner_ready dir community session local w =
           (Err (Transport "huddle owner not ready"), w')).
Proof.
  split; [intros res w'; apply ready_loop_rests|]. intros Hall. unfold resolve_join_owner_ready.
  generalize OWNER_READY_MAX_ATTEMPTS. intros n. revert w. induction n as [|n IH]; intros w; [by eexists|].
  cbn [owner_ready_loop]. destruct (Hall w) as (g & w1 & Hr & Hl).
  destruct (IH (sleep dir w1)) as [w' Hw']. exists w'.
  unfold mbind, se_bind, se_get, se_modify in *. rewrite Hr. simpl. by rewrite Hl.
Qed.
End ready.

(** ** Witnesses *)

Definition one_room : AudioRoomManager :=
  let m := (get_or_create "c" "h" manager_new).2 in
  MkManager (rooms m) (<[0 := room_step (OpAdd "p1" "alice" 3) (room_new "c" "h")]> (heap m)).

Lemma one_room_steps : manager_steps one_room.
Proof. apply ms_room; [apply ms_get, ms_new|vm_compute; reflexivity|vm_compute; reflexivity]. Qed.

Lemma remote_frame_as_local_witness :
  let p := MkPeer "alice" [] [] true 0 0 3 in
  let r := room_step (OpAdd "p1" "alice" 3)%Z (room_new "c" "h") in
  let d := media_datagram (peer_index p) (epoch p) (protocol_version p)
             (MkFenced "h" 5 "relay-b") 0 [9]%Z in
  let '(verdict, (f', m')) := on_media_datagram d (∅, one_room) in
  (verdict, f') = check_fence "h" 5 ∅ ∧ rooms m' = rooms one_room ∧
  match verdict with
  | Accept _ => heap m' = <[0 := broadcast_frame "p1" [9]%Z r]> (heap one_room)
  | RejectStale _ => heap m' = heap one_room
  end.
Proof.
  intros p r.
  assert (Hu : get_unambiguous_by_channel "h" one_room = Some 0) by (vm_compute; reflexivity).
  assert (Ha : heap one_room !! 0 = Some r) by (vm_compute; reflexivity).
  assert (Hp : peers r !! "p1" = Some p) by (vm_compute; reflexivity).
  exact (remote_frame_as_local one_room ∅ 0 r "p1" p "h" 5 "relay-b" 0 [9]%Z one_room_steps Hu Ha Hp).
Defined.

Lemma frame_end_to_end_witness :
  parse_relay_frame (frame_prefix (MkPeer "alice" [] [] true 7 0 2) ++
                     (encode (MkHeader 258 960 (-30) 1) ++ [5; 6])%Z) =
    Some (7, MkHeader 258 960 (-30) 1, [5; 6])%Z.
Proof.
  destruct (frame_end_to_end (MkHeader 258 960 (-30) 1) [5; 6]%Z
              (MkPeer "alice" [] [] true 7 0 2)) as (_ & _ & H & _);
    [unfold header_ok; simpl; lia|done|unfold V2_HEADER_LEN, MAX_AUDIO_FRAME_BYTES; simpl; lia|done|].
  exact H.
Defined.

(** A stream whose payloads are the messages themselves. *)
Abbreviation plain_encode := (λ msg : HuddleControlMsg, @Ok MeshError HuddleControlMsg msg).
Abbreviation plain_decode := (λ msg : HuddleControlMsg, @Ok MeshError HuddleControlMsg msg).

Lemma demo_reachable : room_reachable demo_room.
Proof. apply run_reachable. vm_compute. reflexivity. Qed.

Definition data_event (msg : HuddleControlMsg)
    : result MeshError (option (MeshStreamFrame HuddleControlMsg)) * bool :=
  (Ok (Some (Data (MkFenced "h" 5 "relay-b") msg)), true).

Lemma plain_stream r msgs :
  Forall (from_history r) msgs → stream_of plain_decode r (map data_event msgs).
Proof.
  intros Hall fenced payload sent msg (m & Heq & Hm)%list_elem_of_fmap Hdec.
  unfold data_event in Heq. injection Heq as _ -> _. injection Hdec as <-.
  rewrite Forall_forall in Hall. by apply Hall.
Qed.

(** The second and the first change arrive swapped; the first is forwarded and
    a resync asked for. *)
Lemma owner_control_view_witness :
  ∃ d0 d1, roster_log demo_room !! 0 = Some d0 ∧ roster_log demo_room !! 1 = Some d1 ∧
    let '(cause, rev, acts) :=
      read_owner_control plain_encode plain_decode
        [data_event (roster_delta_msg d1); data_event (roster_delta_msg d0)] (Z.of_nat 0) in
    ∃ k, shows demo_room k (client_roster acts []) ∧ (cause = None → rev = Z.of_nat k).
Proof.
  set (d0 := MkDelta 1 (Some (MkRosterPeer "alice" 0 0)) None).
  set (d1 := MkDelta 2 (Some (MkRosterPeer "bob" 1 0)) None).
  assert (H0 : roster_log demo_room !! 0 = Some d0) by (vm_compute; reflexivity).
  assert (H1 : roster_log demo_room !! 1 = Some d1) by (vm_compute; reflexivity).
  exists d0, d1. split; [exact H0|]. split; [exact H1|].
  apply (owner_control_view plain_encode plain_decode demo_room); [apply demo_reachable|vm_compute; reflexivity| |].
  - apply (plain_stream demo_room [roster_delta_msg d1; roster_delta_msg d0]).
    apply Forall_cons. split; [exists d1; split; [exact (list_elem_of_lookup_2 _ 1 _ H1)|reflexivity]|].
    apply Forall_singleton. exists d0. split; [exact (list_elem_of_lookup_2 _ 0 _ H0)|reflexivity].
  - split; [lia|reflexivity].
Defined.

Lemma owner_control_catches_up_witness :
  let r := room_run [OpAdd "p1" "alice" 3; OpAdd "p2" "bob" 3]%Z (room_new "c" "h") in
  let d1 := MkDelta 2 (Some (MkRosterPeer "bob" 1 0)) None in
  drop 1 (roster_log r) = [d1] ∧
  ∃ acts, read_owner_control plain_encode plain_decode [data_event (roster_delta_msg d1)] (Z.of_nat 1) =
            (None, rs_revision (roster_snapshot r), acts) ∧
          (∀ p, AskResync p ∉ acts) ∧
          client_roster acts [MkRosterPeer "alice" 0 0] = rs_peers (roster_snapshot r).
Proof.
  intros r d1. assert (Hr : room_reachable r) by (apply run_reachable; vm_compute; reflexivity).
  assert (Hd : drop 1 (roster_log r) = [d1]) by (vm_compute; reflexivity). split; [exact Hd|].
  destruct (owner_control_catches_up plain_encode plain_decode r (MkFenced "h" 5 "relay-b") 1 1
              [MkRosterPeer "alice" 0 0]%Z [data_event (roster_delta_msg d1)]) as (H & _ & _).
  - exact Hr.
  - vm_compute. reflexivity.
  - split; [vm_compute; lia|vm_compute; reflexivity].
  - lia.
  - rewrite Hd. constructor; [|constructor]. by eexists.
  - exact H.
Defined.

(** The registry entry of the winner shows up after one pause. *)
Definition late_directory : HuddleDirectory bool :=
  MkDirectory bool (λ _ _, se_lift (Ok (Some (MkOwnership "me" 7))))
    (λ _ _ _, se_throw EmptyFrame) (λ _ _, mret tt) (λ _ w, w) (λ _, true).

Lemma owner_ready_rests_witness :
  resolve_join_owner_ready late_directory "c" "h" "me" false =
    (Ok (MkResolved (LocalOwner 7) None), true) ∧
  rests_on late_directory "c" "h" "me" (MkResolved (LocalOwner 7) None) true.
Proof.
  assert (H : resolve_join_owner_ready late_directory "c" "h" "me" false =
    (Ok (MkResolved (LocalOwner 7) None), true)) by (vm_compute; reflexivity).
  split; [exact H|]. exact (proj1 (owner_ready_rests late_directory "c" "h" "me" false) _ _ H).
Defined.
