(* ===== verification/HuddleControl.v ===== *)
(** * The owner's side of a huddle spanning relays
    ([crates/buzz-relay/src/audio/join.rs])

    [HuddleOwnerRegistry] (one lease renewer per room, release and drain), and
    [HuddleControlAcceptor]: admission of the clients of another relay over one
    control stream, and their removal when the stream ends.

    A [CancellationToken] is a number and the registry keeps which tokens are
    cancelled; a spawned renewer is recorded with its lease and tokens.  The
    acceptor awaits the directory and the stream: what other tasks do meanwhile
    is a function argument ([o_await], [o_before]), and so are the outcomes of
    the directory and of each send.  The sinks spawned for remote peers are
    recorded.  Postcard and the JSON texts are arguments. *)

From stdpp Require Import base gmap strings list fin_maps sorting.
From Stdlib Require Import ZArith Lia.
From S2P Require Import Prelude Nostr AudioRoom HuddleMedia.

Local Open Scope list_scope.

Abbreviation Token := nat.

Record HuddleOwnerEntry : Type := MkEntry {
  e_lost : Token;
  e_draining : Token;
  e_cancel : Token;
  e_generation : Z;
}.

Record HuddleOwnerRegistry : Type := MkRegistry {
  entries : gmap Uuid HuddleOwnerEntry;
  draining : bool;
  cancelled : gset Token;
  next_token : Token;
  renewers : list (HuddleLease * Token * Token);
}.

Record HuddleOwnerSignals : Type := MkSignals { s_lost : Token; s_draining : Token }.

Definition registry_new : HuddleOwnerRegistry := MkRegistry ∅ false ∅ 0 [].

Definition is_draining (o : HuddleOwnerRegistry) : bool := draining o.
Definition registry_lost_for (session : Uuid) (o : HuddleOwnerRegistry) : option Token :=
  e_lost <$> entries o !! session.
Definition drain_for (session : Uuid) (o : HuddleOwnerRegistry) : option Token :=
  e_draining <$> entries o !! session.

(** [CancellationToken::new()], [cancel()], the map updates, and
    [spawn_observable_huddle_renewer], which makes the [lost] token. *)
Definition token_new (o : HuddleOwnerRegistry) : Token * HuddleOwnerRegistry :=
  (next_token o, MkRegistry (entries o) (draining o) (cancelled o) (S (next_token o)) (renewers o)).
Definition cancel (ts : list Token) (o : HuddleOwnerRegistry) : HuddleOwnerRegistry :=
  MkRegistry (entries o) (draining o) (list_to_set ts ∪ cancelled o) (next_token o) (renewers o).
Definition set_entries (es : gmap Uuid HuddleOwnerEntry) (o : HuddleOwnerRegistry)
    : HuddleOwnerRegistry :=
  MkRegistry es (draining o) (cancelled o) (next_token o) (renewers o).
Definition spawn_renewer (lease : HuddleLease) (c : Token) (o : HuddleOwnerRegistry)
    : Token * HuddleOwnerRegistry :=
  let '(lost, o) := token_new o in
  (lost, MkRegistry (entries o) (draining o) (cancelled o) (next_token o)
           (renewers o ++ [(lease, c, lost)])).

(** A renewer born cancelled: it only releases its lease. *)
Definition release_lease (lease : HuddleLease) (o : HuddleOwnerRegistry) : HuddleOwnerRegistry :=
  let '(c, o) := token_new o in
  (spawn_renewer lease c (cancel [c] o)).2.

(** [release] and [drain], fenced on the generation. *)
Definition release (session : Uuid) (generation : Z) (o : HuddleOwnerRegistry)
    : HuddleOwnerRegistry :=
  match entries o !! session with
  | Some e => if bool_decide (e_generation e = generation)
              then set_entries (delete session (entries o)) (cancel [e_cancel e] o)
              else o
  | None => o
  end.

Definition drain (session : Uuid) (generation : Z) (o : HuddleOwnerRegistry)
    : bool * HuddleOwnerRegistry :=
  match entries o !! session with
  | Some e => if bool_decide (e_generation e = generation)
              then (true, set_entries (delete session (entries o))
                            (cancel [e_draining e; e_cancel e] o))
              else (false, o)
  | None => (false, o)
  end.

(** [attach_signals] in three parts, between which [drain_all] may run: the
    first look at the flag, the installation, the second look. *)
Inductive attach_state : Type :=
  | Installed (s : HuddleOwnerSignals) (c : Token) (generation : Z)
  | Finished (s : HuddleOwnerSignals).

Definition attach_check (lease : HuddleLease) (o : HuddleOwnerRegistry)
    : option HuddleOwnerSignals * HuddleOwnerRegistry :=
  if is_draining o then
    let o := release_lease lease o in
    let '(d, o) := token_new o in
    let '(lost, o) := token_new (cancel [d] o) in
    (Some (MkSignals lost d), o)
  else (None, o).

Definition attach_install (session : Uuid) (lease : HuddleLease) (o : HuddleOwnerRegistry)
    : attach_state * HuddleOwnerRegistry :=
  match entries o !! session with
  | Some existing =>
      (Finished (MkSignals (e_lost existing) (e_draining existing)), release_lease lease o)
  | None =>
      let '(c, o) := token_new o in
      let '(lost, o) := spawn_renewer lease c o in
      let '(d, o) := token_new o in
      let g := lease_generation lease in
      (Installed (MkSignals lost d) c g,
       set_entries (<[session := MkEntry lost d c g]> (entries o)) o)
  end.

Definition attach_recheck (session : Uuid) (s : HuddleOwnerSignals) (c : Token) (g : Z)
    (o : HuddleOwnerRegistry) : HuddleOwnerRegistry :=
  if is_draining o then cancel [s_draining s; c] (drain session g o).2 else o.

Definition attach_signals (session : Uuid) (lease : HuddleLease) (o : HuddleOwnerRegistry)
    : HuddleOwnerSignals * HuddleOwnerRegistry :=
  match attach_check lease o with
  | (Some s, o) => (s, o)
  | (None, o) =>
      match attach_install session lease o with
      | (Finished s, o) => (s, o)
      | (Installed s c g, o) => (s, attach_recheck session s c g o)
      end
  end.

Definition begin_drain (o : HuddleOwnerRegistry) : HuddleOwnerRegistry :=
  MkRegistry (entries o) true (cancelled o) (next_token o) (renewers o).

Section drain_all.
Context {MI : MapIter Uuid}.

Definition owned_rooms (o : HuddleOwnerRegistry) : list (Uuid * Z) :=
  map (λ e, (e.1, e_generation e.2)) (map_iter (entries o)).

Definition drain_each (rs : list (Uuid * Z)) (o : HuddleOwnerRegistry)
    : nat * HuddleOwnerRegistry :=
  foldl (λ no r, let '(b, o) := drain r.1 r.2 no.2 in ((if b : bool then S no.1 else no.1), o))
    (0, o) rs.

Definition drain_all (o : HuddleOwnerRegistry) : nat * HuddleOwnerRegistry :=
  let o := begin_drain o in drain_each (owned_rooms o) o.
End drain_all.

(** ** The acceptor *)

Record Relay : Type := MkRelay { rl_rooms : AudioRoomManager; rl_owners : HuddleOwnerRegistry }.

(** The locals of [serve_control_loop]. *)
Record CtlLoop : Type := MkLoop {
  registered : gmap string Uuid;
  stream_community : option Uuid;
  roster_rx : option RoomRef;
  sinks : list (Uuid * RuntimeId * FencedHeader);
}.

Definition loop_new : CtlLoop := MkLoop ∅ None None [].

(** How a turn leaves the loop: [continue], [break], or a [?] that returns from
    the function. *)
Inductive flow : Type :=
  | Continue
  | Break (r : result MeshError unit) (teardown_reason : option GoodbyeReason)
  | Return (e : MeshError).

Inductive roster_event : Type := RosterNext (d : RosterDelta) | RosterLagged | RosterClosed.

Section acceptor.
Context {MI : MapIter Uuid} {Payload : Type}.
Context (encode_control : HuddleControlMsg → result MeshError Payload).
Context (decode_control : Payload → result MeshError HuddleControlMsg).
Context (render_joined render_left : Z → RosterPeer → string).
Context (local_runtime_id : RuntimeId).

Inductive loop_event : Type :=
  | EvDrain
  | EvLost
  | EvRoster (e : roster_event)
  | EvFrame (f : result MeshError (option (MeshStreamFrame Payload))).

(** What the world does in one turn: other tasks before it and while it awaits
    the directory, the directory's verdict, the outcome of the send and the
    fresh peer id. *)
Record Oracle : Type := MkOracle {
  o_before : Relay → Relay;
  o_await : Relay → Relay;
  o_validate : result MeshError unit;
  o_send : result MeshError unit;
  o_id : Uuid;
}.

Definition with_room (a : RoomRef) (f : Room → Room) (w : Relay) : Relay :=
  MkRelay (MkManager (rooms (rl_rooms w)) (alter f a (heap (rl_rooms w)))) (rl_owners w).

(** [rooms.get(community, session)] as an address and the room there. *)
Definition room_at (community session : Uuid) (w : Relay) : option (RoomRef * Room) :=
  a ← get_room community session (rl_rooms w); r ← heap (rl_rooms w) !! a; Some (a, r).

Definition broadcast_peer_left (d : RosterDelta) (r : Room) : Room :=
  match left_ d with
  | Some p => broadcast_control (render_left (rd_revision d) p) r
  | None => r
  end.

Definition remove_remote_peer (community session : Uuid) (gen : Z) (id : Uuid) (w : Relay) : Relay :=
  match room_at community session w with
  | None => w
  | Some (a, r) =>
      match remove_peer_and_check_ended id r with
      | (None, _) => w
      | (Some (delta, should_end), r) =>
          let w := with_room a (λ _, broadcast_peer_left delta r) w in
          if should_end then
            let '(removed, m) := cleanup_if_empty community session (rl_rooms w) in
            MkRelay m (if removed : bool then release session gen (rl_owners w) else rl_owners w)
          else w
      end
  end.

(** [register_remote_peer] on the room at [a]. *)
Definition register_remote_peer (a : RoomRef) (fenced : FencedHeader) (from : RuntimeId)
    (key : string) (version : Z) (id : Uuid) (w : Relay) (st : CtlLoop)
    : HuddleControlMsg * Relay * CtlLoop :=
  match heap (rl_rooms w) !! a with
  | None => (RegisterRejected key RoomEnded, w, st)
  | Some r =>
      match add_peer id key version r with
      | (Err e, r) => (RegisterRejected key (admission_to_rejection e), with_room a (λ _, r) w, st)
      | (Ok (idx, e, revision), r) =>
          let r := broadcast_control (render_joined revision (MkRosterPeer key idx e)) r in
          (PeerRegistered key idx e (roster_snapshot r), with_room a (λ _, r) w,
           MkLoop (<[key := id]> (registered st)) (stream_community st) (roster_rx st)
             (sinks st ++ [(id, from, fenced)]))
      end
  end.

(** [stream.send_frame(Data { payload: encode_control(&msg)? }).await]: the
    payload to send, or the error that [?] returns at once. *)
Definition send_control (msg : HuddleControlMsg) (o : Oracle)
    : result MeshError (Payload * result MeshError unit) :=
  payload ← encode_control msg; mret (payload, o_send o).

(** A send whose failure is returned by [?]. *)
Definition send_or_return (msg : HuddleControlMsg) (o : Oracle) : flow * list Payload :=
  match send_control msg o with
  | Ok (payload, Ok _) => (Continue, [payload])
  | Ok (_, Err e) | Err e => (Return e, [])
  end.

Definition roster_event_msg (community : option Uuid) (session : Uuid) (e : roster_event) (w : Relay)
    : option HuddleControlMsg :=
  match e with
  | RosterNext d => Some (roster_delta_msg d)
  | RosterLagged =>
      c ← community; ar ← room_at c session w; Some (roster_snapshot_msg ar.2)
  | RosterClosed => None
  end.

(** [RegisterPeer] once the community is latched.  The room is looked up before
    the directory is awaited and used after it. *)
Definition register_latched (fenced : FencedHeader) (from : RuntimeId) (community : Uuid)
    (key : string) (version : Z) (o : Oracle) (w : Relay) (st : CtlLoop)
    : flow * Relay * CtlLoop * list Payload :=
  if is_draining (rl_owners w) then (Break (Ok tt) (Some Draining), w, st, []) else
  let '(a, m) := get_or_create community (fh_session_id fenced) (rl_rooms w) in
  let w := o_await o (MkRelay m (rl_owners w)) in
  let finish '(reply, w, st) :=
    match send_control reply o with
    | Err e => (Return e, w, st, [])
    | Ok (payload, Err e) => (Break (Err e) None, w, st, [])
    | Ok (payload, Ok _) =>
        let rx := match reply with PeerRegistered _ _ _ _ => Some a | _ => roster_rx st end in
        (Continue, w, MkLoop (registered st) (stream_community st) rx (sinks st), [payload])
    end in
  match o_validate o with
  | Ok _ => finish (register_remote_peer a fenced from key version (o_id o) w st)
  | Err e =>
      match from_mesh_error e with
      | Some reason => finish (RegisterRejected key (Fenced reason), w, st)
      | None => (Break (Err e) None, w, st, [])
      end
  end.

Definition on_register (fenced : FencedHeader) (from : RuntimeId) (community : Uuid) (key : string)
    (version : Z) (o : Oracle) (w : Relay) (st : CtlLoop)
    : flow * Relay * CtlLoop * list Payload :=
  match stream_community st with
  | Some latched =>
      if bool_decide (latched ≠ community)
      then (Break (Err (Transport "huddle-control stream community changed")) None, w, st, [])
      else register_latched fenced from community key version o w st
  | None =>
      register_latched fenced from community key version o w
        (MkLoop (registered st) (Some community) (roster_rx st) (sinks st))
  end.

Definition on_unregister (fenced : FencedHeader) (key : string) (w : Relay) (st : CtlLoop)
    : Relay * CtlLoop :=
  match registered st !! key with
  | None => (w, st)
  | Some id =>
      (match stream_community st with
       | Some c => remove_remote_peer c (fh_session_id fenced) (fh_generation fenced) id w
       | None => w
       end,
       MkLoop (delete key (registered st)) (stream_community st) (roster_rx st) (sinks st))
  end.

Definition on_control (fenced : FencedHeader) (from : RuntimeId) (msg : HuddleControlMsg)
    (o : Oracle) (w : Relay) (st : CtlLoop) : flow * Relay * CtlLoop * list Payload :=
  match msg with
  | RegisterPeer community key version => on_register fenced from community key version o w st
  | UnregisterPeer key => let '(w, st) := on_unregister fenced key w st in (Continue, w, st, [])
  | RosterResync =>
      match c ← stream_community st; room_at c (fh_session_id fenced) w with
      | None => (Break (Ok tt) None, w, st, [])
      | Some (_, r) =>
          let '(fl, out) := send_or_return (roster_snapshot_msg r) o in (fl, w, st, out)
      end
  | _ => (Break (Err (Transport "huddle-control owner received an owner reply")) None, w, st, [])
  end.

(** One turn of the loop.  Without a subscription the roster arm never fires. *)
Definition loop_turn (fenced : FencedHeader) (from : RuntimeId) (ev : loop_event) (o : Oracle)
    (w : Relay) (st : CtlLoop) : flow * Relay * CtlLoop * list Payload :=
  match ev with
  | EvDrain => (Break (Ok tt) (Some Draining), w, st, [])
  | EvLost => (Break (Ok tt) (Some GStaleGeneration), w, st, [])
  | EvRoster e =>
      match roster_rx st with
      | None => (Continue, w, st, [])
      | Some _ =>
          match roster_event_msg (stream_community st) (fh_session_id fenced) e w with
          | None => (Break (Ok tt) None, w, st, [])
          | Some msg => let '(fl, out) := send_or_return msg o in (fl, w, st, out)
          end
      end
  | EvFrame (Ok (Some (Data f payload))) =>
      if bool_decide (f ≠ fenced) then
        (Break (Err (OwnerMismatch (fh_session_id fenced) (fh_generation f) (fh_owner_runtime_id f)
                       local_runtime_id)) None, w, st, [])
      else match decode_control payload with
           | Ok msg => on_control fenced from msg o w st
           | Err e => (Break (Err e) None, w, st, [])
           end
  | EvFrame (Ok (Some (Goodbye _ _))) | EvFrame (Ok None) => (Break (Ok tt) None, w, st, [])
  | EvFrame (Ok (Some _)) =>
      (Break (Err (Transport "huddle-control stream got unexpected frame")) None, w, st, [])
  | EvFrame (Err e) => (Break (Err e) None, w, st, [])
  end.

(** The teardown after [break]: every peer still registered is removed. *)
Definition teardown (fenced : FencedHeader) (st : CtlLoop) (w : Relay) : Relay :=
  match stream_community st with
  | Some c =>
      foldl (λ w e, remove_remote_peer c (fh_session_id fenced) (fh_generation fenced) (snd e) w) w
        (map_iter (registered st))
  | None => w
  end.

(** [serve_control_loop]: how the function ended ([None] while it runs), the
    relay, the loop's locals and the goodbye sent, if any.  A [Return] skips the
    teardown. *)
Fixpoint serve_control_loop (fenced : FencedHeader) (from : RuntimeId)
    (evs : list (loop_event * Oracle)) (w : Relay) (st : CtlLoop)
    : option flow * Relay * CtlLoop :=
  match evs with
  | [] => (None, w, st)
  | (ev, o) :: evs =>
      let '(fl, w, st, _) := loop_turn fenced from ev o (o_before o w) st in
      match fl with
      | Continue => serve_control_loop fenced from evs w st
      | Break _ _ => (Some fl, teardown fenced st w, st)
      | Return _ => (Some fl, w, st)
      end
  end.

(** [accept_inbound]: the structural checks on the Hello. *)
Definition accept_inbound (from sender : RuntimeId) (session : option (FencedHeader * bool))
    : result MeshError FencedHeader :=
  if bool_decide (sender ≠ from) then Err (Transport "hello.sender is not the authenticated peer")
  else match session with
  | None => Err (Transport "huddle-control stream Hello was not a session role")
  | Some (fenced, is_huddle_control) =>
      if negb is_huddle_control then Err (Transport "huddle-control acceptor got another profile")
      else if bool_decide (fh_owner_runtime_id fenced ≠ local_runtime_id) then
        Err (OwnerMismatch (fh_session_id fenced) (fh_generation fenced)
               (fh_owner_runtime_id fenced) local_runtime_id)
      else Ok fenced
  end.

(** *** Peers of a room under removal and admission *)

(** Peer [id] sits in the registered room of the huddle. *)
Definition present (community session : Uuid) (id : Uuid) (w : Relay) : Prop :=
  ∃ a r, room_at community session w = Some (a, r) ∧ is_Some (peers r !! id).

Lemma room_at_Some c s w a r :
  room_at c s w = Some (a, r) ↔ rooms (rl_rooms w) !! (c, s) = Some a ∧ heap (rl_rooms w) !! a = Some r.
Proof.
  unfold room_at, get_room. split.
  - intros (a' & Ha & (r' & Hr & [= -> ->])%bind_Some)%bind_Some. done.
  - intros [Ha Hr]. rewrite Ha. simpl. by rewrite Hr.
Qed.

Lemma room_at_with_room c s a f w :
  room_at c s (with_room a f w) =
    match room_at c s w with
    | Some (b, r) => Some (b, if decide (b = a) then f r else r)
    | None => None
    end.
Proof.
  unfold room_at, get_room, with_room. simpl. destruct (rooms (rl_rooms w) !! (c, s)) as [b|]; [|done].
  simpl. rewrite list_lookup_alter. destruct (heap (rl_rooms w) !! b) as [r|] eqn:Hb.
  - destruct (decide (a = b)) as [->|Hne]; simpl; [by rewrite Hb, decide_True by done|].
    by rewrite decide_False by congruence.
  - destruct (decide (a = b)) as [->|Hne]; simpl; [by rewrite Hb|done].
Qed.

Lemma broadcast_control_dom j r id :
  is_Some (peers (broadcast_control j r) !! id) ↔ is_Some (peers r !! id).
Proof.
  unfold broadcast_control. simpl. rewrite map_lookup_imap. destruct (peers r !! id); simpl; [|done].
  split; by eexists.
Qed.

Lemma broadcast_left_dom d r id :
  is_Some (peers (broadcast_peer_left d r) !! id) ↔ is_Some (peers r !! id).
Proof. unfold broadcast_peer_left. case_match; [apply broadcast_control_dom|done]. Qed.

Lemma remove_check_peers id r :
  match (remove_peer_and_check_ended id r).1 with
  | Some _ => peers (remove_peer_and_check_ended id r).2 = delete id (peers r)
  | None => peers r !! id = None ∧ (remove_peer_and_check_ended id r).2 = r
  end.
Proof.
  unfold remove_peer_and_check_ended, publish_leave. destruct (peers r !! id); [|done].
  simpl. by destruct (negb _ && _).
Qed.

(** Removal takes exactly the peer out, and perhaps the empty room. *)
Lemma remove_remote_present c s gen id w x :
  present c s x (remove_remote_peer c s gen id w) → present c s x w ∧ x ≠ id.
Proof.
  unfold remove_remote_peer. destruct (room_at c s w) as [[a r]|] eqn:Hat.
  2: { intros (a & r & Hat' & _). by rewrite Hat in Hat'. }
  pose proof (remove_check_peers id r) as Hp.
  destruct (remove_peer_and_check_ended id r) as [[[d b]|] r1]; simpl in Hp.
  2: { destruct Hp as [Hp _]. intros Hx. split; [done|]. intros ->.
       destruct Hx as (a' & r' & Hat' & [p Hp']). simplify_eq. }
  set (w1 := with_room a _ w).
  assert (Hone : present c s x w1 → present c s x w ∧ x ≠ id).
  { intros (a' & r' & Hat' & Hx). unfold w1 in Hat'. rewrite room_at_with_room, Hat in Hat'.
    simplify_eq. rewrite decide_True in Hx by done. apply broadcast_left_dom in Hx. rewrite Hp in Hx.
    destruct Hx as [p [Hne Hx]%lookup_delete_Some]. split; [|done]. exists a', r. by split; [|eexists]. }
  destruct b; [|done]. unfold cleanup_if_empty. clearbody w1.
  destruct (rooms (rl_rooms w1) !! (c, s)) as [a1|] eqn:Ha1; simpl.
  2: { intros (a' & r' & [Hat' _]%room_at_Some & _). simpl in Hat'. congruence. }
  destruct (heap (rl_rooms w1) !! a1) as [r2|] eqn:Hr2; simpl; [destruct (room_is_empty r2)|];
    intros (a' & r' & [Hat' Hr']%room_at_Some & Hx); simpl in *.
  - by rewrite lookup_delete_eq in Hat'.
  - apply Hone. exists a', r'. by rewrite room_at_Some.
  - simplify_eq.
Qed.

(** *** The teardown leaves nothing behind *)

Lemma teardown_present fenced st w c x :
  stream_community st = Some c →
  present c (fh_session_id fenced) x (teardown fenced st w) →
  present c (fh_session_id fenced) x w ∧ ∀ key, registered st !! key ≠ Some x.
Proof.
  intros Hc. unfold teardown. rewrite Hc. intros Hx.
  assert (Hfold : ∀ l w, present c (fh_session_id fenced) x
      (foldl (λ w e, remove_remote_peer c (fh_session_id fenced) (fh_generation fenced) (snd e) w) w l) →
      present c (fh_session_id fenced) x w ∧ ∀ e : string * Uuid, e ∈ l → x ≠ e.2).
  { intros l. induction l as [|e l IH]; intros w'; simpl.
    - intros H. split; [done|]. by intros e ?%not_elem_of_nil.
    - intros [[Hp Hne]%remove_remote_present Hall]%IH. split; [done|].
      by intros e' [->|He']%elem_of_cons; [|apply Hall]. }
  apply Hfold in Hx as [Hp Hall]. split; [done|]. intros key Hk.
  by apply (Hall (key, x)); [apply elem_of_map_iter|].
Qed.

(** The key a frame registers, if it registers one. *)
Definition event_key (ev : loop_event) : option string :=
  match ev with
  | EvFrame (Ok (Some (Data _ payload))) =>
      match decode_control payload with Ok (RegisterPeer _ key _) => Some key | _ => None end
  | _ => None
  end.

(** Other tasks never put one of this stream's fresh peers into the room. *)
Definition others_ok (c s : Uuid) (ids : list Uuid) (o : Oracle) : Prop :=
  o_id o ∈ ids ∧ ∀ w x, x ∈ ids →
    (present c s x (o_before o w) → present c s x w) ∧
    (present c s x (o_await o w) → present c s x w).

(** Turn [e] asked for [key] with the fresh peer id [x]. *)
Definition registers (key : string) (x : Uuid) (e : loop_event * Oracle) : Prop :=
  event_key e.1 = Some key ∧ o_id e.2 = x.

(** After [x] was registered under a key, the stream registered the key again:
    [registered] forgets [x]. *)
Definition overwritten (x : Uuid) (evs : list (loop_event * Oracle)) : Prop :=
  ∃ before first between again after key,
    evs = before ++ first :: between ++ again :: after ∧
    registers key x first ∧ event_key again.1 = Some key.

Lemma overwritten_app x p q : overwritten x p → overwritten x (p ++ q).
Proof.
  intros (l1 & e1 & l2 & e2 & l3 & key & -> & H). exists l1, e1, l2, e2, (l3 ++ q), key.
  split; [by simplify_list_eq|done].
Qed.

(** A stream that registers each key once overwrites nothing. *)
Lemma distinct_keys_kept x evs :
  NoDup (omap (λ e, event_key e.1) evs) → ¬ overwritten x evs.
Proof.
  intros Hnd (l1 & e1 & l2 & e2 & l3 & key & -> & [H1 _] & H2). revert Hnd.
  rewrite omap_app. simpl. rewrite H1, omap_app. simpl. rewrite H2.
  intros (_ & _ & [Hk _]%NoDup_cons)%NoDup_app. apply Hk, elem_of_app. right. by left.
Qed.

(** What the loop maintains after the turns [p]: its own peers in the room are in
    [registered], or their key was registered again. *)
Record loop_inv (c s : Uuid) (ids : list Uuid) (p : list (loop_event * Oracle)) (w : Relay)
    (st : CtlLoop) : Prop := {
  li_tracked x : x ∈ ids → present c s x w →
    (∃ key, registered st !! key = Some x) ∨ overwritten x p;
  li_past key x : registered st !! key = Some x → ∃ e, e ∈ p ∧ registers key x e;
  li_latched : stream_community st = None → registered st = ∅;
}.

Lemma get_or_create_present c c' s s' x w a m :
  get_or_create c' s' (rl_rooms w) = (a, m) →
  present c s x (MkRelay m (rl_owners w)) → present c s x w.
Proof.
  unfold get_or_create. destruct (rooms (rl_rooms w) !! (c', s')) as [a'|] eqn:Ha.
  - intros [= <- <-]. done.
  - intros [= <- <-] (b & r & [Hb Hr]%room_at_Some & Hx). simpl in *.
    apply lookup_insert_Some in Hb as [[_ <-]|[_ Hb]].
    + rewrite list_lookup_middle in Hr by done. simplify_eq. simpl in Hx. by destruct Hx.
    + apply lookup_snoc_Some in Hr as [[_ Hr]|[_ <-]]; [|by destruct Hx].
      exists b, r. by rewrite room_at_Some.
Qed.

Lemma add_peer_peers id key v r :
  match add_peer id key v r with
  | (Ok _, r') => ∃ p, peers r' = <[id := p]> (peers r)
  | (Err _, r') => peers r' = peers r
  end.
Proof. unfold add_peer, publish_join. repeat case_match; simplify_eq/=; eauto. Qed.

(** Admission adds one peer, under its key. *)
Lemma register_present a fenced from key version id w st reply w' st' c s x :
  register_remote_peer a fenced from key version id w st = (reply, w', st') →
  present c s x w' →
  stream_community st' = stream_community st ∧
  (present c s x w ∨ (x = id ∧ registered st' !! key = Some id)) ∧
  (registered st' = registered st ∨ registered st' = <[key := id]> (registered st)).
Proof.
  unfold register_remote_peer. destruct (heap (rl_rooms w) !! a) as [r|] eqn:Hr.
  2: { intros [= <- <- <-]. auto. }
  pose proof (add_peer_peers id key version r) as Hp.
  destruct (add_peer id key version r) as [[[[idx e] rev]|e] r1]; intros Heq; simplify_eq/=;
    intros (b & r2 & Hat & Hx); rewrite room_at_with_room in Hat;
    destruct (room_at c s w) as [[b' r']|] eqn:Hat'; try done; simplify_eq/=.
  - destruct Hp as [p Hp]. split; [done|]. split; [|by right].
    case_decide; subst; [|left; by exists b, r'].
    apply broadcast_control_dom in Hx. rewrite Hp in Hx. apply room_at_Some in Hat' as [Hb Hr'].
    simplify_eq. destruct (decide (x = id)) as [->|Hne]; [right; by rewrite lookup_insert_eq|].
    left. rewrite lookup_insert_ne in Hx by done. exists a, r. by rewrite room_at_Some.
  - split; [done|]. split; [|by left]. left. case_decide; subst; [|by exists b, r'].
    rewrite Hp in Hx. pose proof Hat' as Hat2. apply room_at_Some in Hat2 as [_ Hr'].
    simplify_eq. by exists a, r.
Qed.

Lemma loop_inv_weaken c s ids p q w w' st st' :
  loop_inv c s ids p w st → registered st' = registered st →
  (stream_community st' = None → stream_community st = None) →
  (∀ x, x ∈ ids → present c s x w' → present c s x w) → loop_inv c s ids (p ++ q) w' st'.
Proof.
  intros [Ht Hs Hl] Hr Hc Hw. split; rewrite ?Hr; [| |by auto].
  - intros x Hx Hp. destruct (Ht x Hx (Hw x Hx Hp)) as [Hk|Ho]; [by left|right].
    by apply overwritten_app.
  - intros key x Hk. destruct (Hs key x Hk) as (e & He & Hreg). exists e. split; [|done].
    apply elem_of_app. by left.
Qed.

Lemma loop_inv_rx c s ids p w st rx :
  loop_inv c s ids p w st →
  loop_inv c s ids p w (MkLoop (registered st) (stream_community st) rx (sinks st)).
Proof. by intros [Ht Hs Hl]. Qed.

Lemma loop_inv_register c s ids p e key id w st reply w' st' a fenced from version :
  loop_inv c s ids p w st → registers key id e → stream_community st ≠ None →
  register_remote_peer a fenced from key version id w st = (reply, w', st') →
  stream_community st' = stream_community st ∧ loop_inv c s ids (p ++ [e]) w' st'.
Proof.
  intros [Ht Hs _] Hreg Hlatch Heq.
  assert (Hshape : stream_community st' = stream_community st ∧
    (registered st' = registered st ∨ registered st' = <[key := id]> (registered st))).
  { unfold register_remote_peer in Heq. repeat case_match; simplify_eq/=; auto. }
  destruct Hshape as [Hc Hr]. split; [done|]. split.
  - intros x Hx Hp. destruct (register_present _ _ _ _ _ _ _ _ _ _ _ _ _ _ Heq Hp)
      as (_ & [Hp'|[-> Hk]] & _); [|left; by eexists].
    destruct (Ht x Hx Hp') as [[key' Hk']|Ho]; [|right; by apply overwritten_app].
    destruct Hr as [-> | ->]; [left; by eexists|].
    destruct (decide (key' = key)) as [->|Hne].
    + right. destruct (Hs _ _ Hk') as (e1 & (l1 & l2 & ->)%list_elem_of_split & He1).
      exists l1, e1, l2, e, [], key. split; [by rewrite <-app_assoc|]. split; [done|apply Hreg].
    + left. exists key'. by rewrite lookup_insert_ne.
  - intros key' x. assert (registered st !! key' = Some x →
      ∃ e0, e0 ∈ p ++ [e] ∧ registers key' x e0) as Hold.
    { intros Hk. destruct (Hs _ _ Hk) as (e0 & He0 & H0). exists e0. rewrite elem_of_app. auto. }
    destruct Hr as [-> | ->]; [done|]. intros [[<- <-]|[_ Hk]]%lookup_insert_Some; [|auto].
    exists e. rewrite elem_of_app, list_elem_of_singleton. auto.
  - by rewrite Hc.
Qed.

Lemma register_latched_inv c ids p ev fenced from c' key version o w st :
  loop_inv c (fh_session_id fenced) ids p w st → event_key ev = Some key →
  stream_community st ≠ None →
  others_ok c (fh_session_id fenced) ids o →
  let '(_, w', st', _) := register_latched fenced from c' key version o w st in
  stream_community st' = stream_community st ∧
  loop_inv c (fh_session_id fenced) ids (p ++ [(ev, o)]) w' st'.
Proof.
  intros Hi Hkey Hlatch [_ Hot]. unfold register_latched.
  assert (Hw : loop_inv c (fh_session_id fenced) ids (p ++ [(ev, o)]) w st)
    by (eapply loop_inv_weaken; [exact Hi|done|done|done]).
  destruct (is_draining (rl_owners w)); [done|].
  destruct (get_or_create c' (fh_session_id fenced) (rl_rooms w)) as [a m] eqn:Hg.
  set (w1 := o_await o _).
  assert (Hw1 : ∀ x, x ∈ ids → present c (fh_session_id fenced) x w1 →
                  present c (fh_session_id fenced) x w).
  { intros x Hx Hp. apply (Hot _ x Hx) in Hp. by eapply get_or_create_present. }
  destruct (o_validate o) as [|e].
  - destruct (register_remote_peer a fenced from key version (o_id o) w1 st) as [[reply w2] st2] eqn:Heq.
    assert (Hi1 : loop_inv c (fh_session_id fenced) ids p w1 st).
    { rewrite <-(app_nil_r p). eapply loop_inv_weaken; [exact Hi|done|done|exact Hw1]. }
    destruct (loop_inv_register _ _ _ _ (ev, o) _ _ _ _ _ _ _ _ _ _ _ Hi1 (conj Hkey eq_refl) Hlatch Heq) as [Hc Hi2].
    destruct (send_control reply o) as [[payload [|]]|]; [|done|done].
    split; [done|by apply loop_inv_rx].
  - assert (Hi1 : loop_inv c (fh_session_id fenced) ids (p ++ [(ev, o)]) w1 st)
      by (eapply loop_inv_weaken; [exact Hi|done|done|exact Hw1]).
    destruct (from_mesh_error e) as [reason|]; [|done].
    destruct (send_control (RegisterRejected key (Fenced reason)) o) as [[payload [|]]|];
      [|done|done].
    split; [done|by apply loop_inv_rx].
Qed.

Lemma unregister_inv c ids p fenced key w st :
  (stream_community st = None ∨ stream_community st = Some c) →
  loop_inv c (fh_session_id fenced) ids p w st →
  let '(w', st') := on_unregister fenced key w st in
  stream_community st' = stream_community st ∧
  loop_inv c (fh_session_id fenced) ids p w' st'.
Proof.
  intros Hc [Ht Hs Hl]. unfold on_unregister. destruct (registered st !! key) as [id|] eqn:Hk; [|by split].
  assert (Hc' : stream_community st = Some c).
  { destruct Hc as [Hc|Hc]; [|done]. rewrite (Hl Hc), lookup_empty in Hk. done. }
  rewrite Hc'. split; [done|]. split; simpl; [| |done].
  - intros x Hx [Hp Hne]%remove_remote_present.
    destruct (Ht x Hx Hp) as [[key' Hk']|Ho]; [left|by right]. exists key'.
    rewrite lookup_delete_ne; [done|]. intros ->. by simplify_eq.
  - by intros key' x [_ Hk']%lookup_delete_Some; apply Hs.
Qed.

(** What every turn keeps. *)
Definition turn_ok (c : Uuid) (fenced : FencedHeader) (ids : list Uuid) (p : list (loop_event * Oracle))
    (st : CtlLoop) (res : flow * Relay * CtlLoop * list Payload) : Prop :=
  let '(_, w', st', _) := res in
  (∀ c', stream_community st = Some c' → stream_community st' = Some c') ∧
  loop_inv c (fh_session_id fenced) ids p w' st'.

Lemma on_register_ok c ids p ev fenced from c' key version o w st :
  loop_inv c (fh_session_id fenced) ids p w st → event_key ev = Some key →
  others_ok c (fh_session_id fenced) ids o →
  turn_ok c fenced ids (p ++ [(ev, o)]) st (on_register fenced from c' key version o w st).
Proof.
  intros Hi Hkey Ho. unfold on_register, turn_ok.
  destruct (stream_community st) as [latched|] eqn:Hc.
  - case_bool_decide.
    + split; [intros c2 Hc2; congruence|]. eapply loop_inv_weaken; [exact Hi|done|done|done].
    + pose proof (register_latched_inv c ids p ev fenced from c' key version o w st Hi Hkey) as H1.
      destruct (register_latched _ _ _ _ _ _ _ _) as [[[fl w'] st'] out]. rewrite Hc in H1.
      destruct (H1 ltac:(done) Ho) as [Hc' Hi']. split; [intros c2 Hc2; congruence|done].
  - set (st1 := MkLoop _ _ _ _).
    assert (Hi1 : loop_inv c (fh_session_id fenced) ids p w st1).
    { destruct Hi as [Ht Hs Hl]. by split. }
    pose proof (register_latched_inv c ids p ev fenced from c' key version o w st1 Hi1 Hkey) as H1.
    destruct (register_latched _ _ _ _ _ _ _ _) as [[[fl w'] st'] out].
    destruct (H1 ltac:(done) Ho) as [Hc' Hi']. by split.
Qed.

Lemma loop_turn_ok c ids p fenced from ev o w st :
  (stream_community st = None ∨ stream_community st = Some c) →
  loop_inv c (fh_session_id fenced) ids p w st → others_ok c (fh_session_id fenced) ids o →
  turn_ok c fenced ids (p ++ [(ev, o)]) st
    (loop_turn fenced from ev o (o_before o w) st).
Proof.
  intros Hc Hi Ho.
  assert (Hback : ∀ x, x ∈ ids → present c (fh_session_id fenced) x (o_before o w) →
    present c (fh_session_id fenced) x w) by (intros x Hx; by apply Ho).
  assert (Hi1 : loop_inv c (fh_session_id fenced) ids p (o_before o w) st).
  { rewrite <-(app_nil_r p). by eapply loop_inv_weaken. }
  assert (Hi2 : loop_inv c (fh_session_id fenced) ids (p ++ [(ev, o)]) (o_before o w) st)
    by by eapply loop_inv_weaken.
  assert (Hw : ∀ fl out, turn_ok c fenced ids (p ++ [(ev, o)]) st (fl, o_before o w, st, out)) by done.
  unfold loop_turn. destruct ev as [| |e|[[[|f payload|f reason|]|]|e]]; try apply Hw.
  - destruct (roster_rx st); [|apply Hw].
    destruct (roster_event_msg _ _ _ _) as [msg|]; [|apply Hw].
    destruct (send_or_return msg o) as [fl out]. apply Hw.
  - case_bool_decide; [apply Hw|]. cbn [event_key] in *.
    destruct (decode_control payload) as [msg|e] eqn:Hdec; [|apply Hw].
    destruct msg as [c' key version| | | | | |key]; try apply Hw.
    + apply on_register_ok; [done| |done]. simpl. by rewrite Hdec.
    + simpl. destruct (stream_community st ≫= _) as [[a r]|]; [|apply Hw].
      destruct (send_or_return _ o) as [fl out]. apply Hw.
    + simpl. pose proof (unregister_inv c ids _ fenced key (o_before o w) st Hc Hi2) as Hu.
      destruct (on_unregister fenced key (o_before o w) st) as [w' st']. destruct Hu as [Hc' Hi'].
      split; [by intros c' Hx; rewrite Hc'|done].
Qed.

(** A latched community stays. *)
Lemma register_remote_community a fenced from key version id w st :
  stream_community (register_remote_peer a fenced from key version id w st).2 = stream_community st.
Proof.
  unfold register_remote_peer. destruct (heap (rl_rooms w) !! a) as [r|]; [|done].
  by destruct (add_peer id key version r) as [[[[idx e] rev]|e] r1].
Qed.

Lemma register_latched_community fenced from c key version o w st :
  stream_community (register_latched fenced from c key version o w st).1.2 = stream_community st.
Proof.
  unfold register_latched. destruct (is_draining _); [done|].
  destruct (get_or_create _ _ _) as [a m].
  pose proof (register_remote_community a fenced from key version (o_id o)
                (o_await o (MkRelay m (rl_owners w))) st) as Hc.
  destruct (o_validate o) as [|e].
  - destruct (register_remote_peer _ _ _ _ _ _ _ _) as [[reply w2] st2]. simpl in Hc.
    by destruct (send_control reply o) as [[payload [|]]|].
  - destruct (from_mesh_error e); [|done].
    by destruct (send_control _ o) as [[payload [|]]|].
Qed.

Lemma turn_community fenced from ev o w st c :
  stream_community st = Some c →
  stream_community (loop_turn fenced from ev o w st).1.2 = Some c.
Proof.
  intros Hc. destruct ev as [| |e|[[[|f payload|f reason|]|]|e]]; try done; simpl.
  - destruct (roster_rx st); [|done]. destruct (roster_event_msg _ _ _ _) as [msg|]; [|done].
    by destruct (send_or_return msg o).
  - case_bool_decide; [done|]. destruct (decode_control payload) as [[c' key version| | | | | |key]|e];
      try done; simpl.
    + unfold on_register. rewrite Hc. case_bool_decide; [done|]. by rewrite register_latched_community.
    + destruct (stream_community st ≫= _) as [[a r]|]; [|done].
      by destruct (send_or_return _ o).
    + unfold on_unregister. by destruct (registered st !! key).
Qed.

Lemma serve_community fenced from evs w st c :
  stream_community st = Some c → stream_community (serve_control_loop fenced from evs w st).2 = Some c.
Proof.
  revert w st. induction evs as [|[ev o] evs IH]; intros w st Hc; [done|]. simpl.
  pose proof (turn_community fenced from ev o (o_before o w) st c Hc) as Ht.
  destruct (loop_turn fenced from ev o (o_before o w) st) as [[[fl w'] st'] out]. simpl in Ht.
  by destruct fl; [apply IH| |].
Qed.

Lemma serve_tracks c ids p fenced from evs w st :
  let '(fl, w', st') := serve_control_loop fenced from evs w st in
  stream_community st' = Some c →
  loop_inv c (fh_session_id fenced) ids p w st →
  (∀ e, e ∈ evs → others_ok c (fh_session_id fenced) ids (snd e)) →
  (∃ res reason, fl = Some (Break res reason)) →
  ∀ x, x ∈ ids → present c (fh_session_id fenced) x w' → overwritten x (p ++ evs).
Proof.
  revert p w st. induction evs as [|[ev o] evs IH]; intros p w st; simpl.
  { intros _ _ _ (? & ? & ?). done. }
  pose proof (turn_community fenced from ev o (o_before o w) st) as Hcom.
  pose proof (loop_turn_ok c ids p fenced from ev o w st) as Hturn.
  destruct (loop_turn fenced from ev o (o_before o w) st) as [[[fl w1] st1] out] eqn:Ht.
  simpl in Hcom, Hturn.
  assert (Hback : ∀ st2, (∀ c', stream_community st1 = Some c' → stream_community st2 = Some c') →
    stream_community st2 = Some c → stream_community st = None ∨ stream_community st = Some c).
  { intros st2 H1 H2. destruct (stream_community st) as [c'|]; [right|by left].
    specialize (H1 _ (Hcom c' eq_refl)). congruence. }
  rewrite cons_middle, (assoc_L app).
  destruct fl as [|res reason|e]; cycle 1.
  - intros Hc Hi Ho _ x Hx Hp.
    destruct (Hturn (Hback st1 ltac:(done) Hc) Hi) as [_ Hi']; [apply (Ho (ev, o)); by left|].
    apply teardown_present in Hp as [Hp Hno]; [|done].
    destruct (li_tracked _ _ _ _ _ _ Hi' x Hx Hp) as [[key Hk]|Hov]; [by destruct (Hno key)|].
    by apply overwritten_app.
  - intros _ _ _ (? & ? & ?). done.
  - specialize (IH (p ++ [(ev, o)]) w1 st1).
    pose proof (serve_community fenced from evs w1 st1) as Hs.
    destruct (serve_control_loop fenced from evs w1 st1) as [[fl2 w2] st2].
    intros Hc Hi Ho Hfl.
    destruct (Hturn (Hback st2 Hs Hc) Hi) as [_ Hi']; [apply (Ho (ev, o)); by left|].
    apply IH; [done|done| |done]. intros e He. apply Ho. by right.
Qed.

(** C26. What a stream leaves behind.  Whatever the frames, verdicts and
    failures were and whatever other tasks did around each turn (short of putting
    one of its fresh peer ids into the room): when the loop is left by [break] and
    the function ends after its teardown, the only peers of the stream that can
    still be in the huddle's room are those whose key the stream registered a
    second time; every other peer it ever admitted is gone. *)
Theorem teardown_complete c ids fenced from evs w0 fl w st :
  serve_control_loop fenced from evs w0 loop_new = (fl, w, st) →
  (∃ res reason, fl = Some (Break res reason)) → stream_community st = Some c →
  (∀ e, e ∈ evs → others_ok c (fh_session_id fenced) ids (snd e)) →
  (∀ x, x ∈ ids → ¬ present c (fh_session_id fenced) x w0) →
  ∀ x, x ∈ ids → present c (fh_session_id fenced) x w → overwritten x evs.
Proof.
  intros Hs Hfl Hc Ho Hfresh.
  pose proof (serve_tracks c ids [] fenced from evs w0 loop_new) as Ht. rewrite Hs in Ht.
  apply Ht; [done| |done|done].
  split; simpl; [by intros x Hx ?%Hfresh|by intros key x ?%lookup_empty_Some|done].
Qed.

(** A failed roster send skips the teardown.  When the stream breaks while a
    roster change or a resync answer is being written, the function returns at
    once: nothing is removed, so every peer of the stream is still in the room,
    holding its index and its seat, and no later event of this stream can
    remove it. *)
Theorem send_failure_skips_teardown fenced from ev o evs w st err msg payload :
  (∃ e a, ev = EvRoster e ∧ roster_rx st = Some a ∧
     roster_event_msg (stream_community st) (fh_session_id fenced) e (o_before o w) = Some msg) ∨
  (∃ p c a r, ev = EvFrame (Ok (Some (Data fenced p))) ∧ decode_control p = Ok RosterResync ∧
     stream_community st = Some c ∧ room_at c (fh_session_id fenced) (o_before o w) = Some (a, r) ∧
     msg = roster_snapshot_msg r) →
  encode_control msg = Ok payload → o_send o = Err err →
  serve_control_loop fenced from ((ev, o) :: evs) w st = (Some (Return err), o_before o w, st) ∧
  ∀ c x, present c (fh_session_id fenced) x (o_before o w) →
    present c (fh_session_id fenced) x
      (serve_control_loop fenced from ((ev, o) :: evs) w st).1.2.
Proof.
  intros Hcase Henc Hsend.
  assert (Hs : send_or_return msg o = (Return err, [])).
  { unfold send_or_return, send_control. rewrite Henc. simpl. by rewrite Hsend. }
  assert (Heq : serve_control_loop fenced from ((ev, o) :: evs) w st =
                (Some (Return err), o_before o w, st)); [|by rewrite Heq].
  simpl. destruct Hcase as [(e & a & -> & Hrx & Hm)|(p & c & a & r & -> & Hd & Hc & Hr & ->)]; simpl.
  - by rewrite Hrx, Hm, Hs.
  - rewrite bool_decide_false by (intros H; by apply H). rewrite Hd. simpl. rewrite Hc. simpl.
    by rewrite Hr, Hs.
Qed.
End acceptor.

(** ** Attaching while the relay drains *)

Section race.
Context {MI : MapIter Uuid}.
Context (session : Uuid) (lease : HuddleLease).

Inductive attach_pc : Type :=
  | AStart
  | AChecked
  | AInstalled (s : HuddleOwnerSignals) (c : Token) (g : Z)
  | ADone (s : HuddleOwnerSignals).

Inductive drain_pc : Type :=
  | DStart
  | DFlagged
  | DDraining (rs : list (Uuid * Z))
  | DDone.

(** [attach_signals] and [drain_all], each map or flag access one step. *)
Inductive attach_step : attach_pc * HuddleOwnerRegistry → attach_pc * HuddleOwnerRegistry → Prop :=
  | as_refused o s o' : attach_check lease o = (Some s, o') → attach_step (AStart, o) (ADone s, o')
  | as_checked o o' : attach_check lease o = (None, o') → attach_step (AStart, o) (AChecked, o')
  | as_installed o s c g o' : attach_install session lease o = (Installed s c g, o') →
      attach_step (AChecked, o) (AInstalled s c g, o')
  | as_existing o s o' : attach_install session lease o = (Finished s, o') →
      attach_step (AChecked, o) (ADone s, o')
  | as_recheck o s c g :
      attach_step (AInstalled s c g, o) (ADone s, attach_recheck session s c g o).

Inductive drain_step : drain_pc * HuddleOwnerRegistry → drain_pc * HuddleOwnerRegistry → Prop :=
  | ds_flag o : drain_step (DStart, o) (DFlagged, begin_drain o)
  | ds_snapshot o : drain_step (DFlagged, o) (DDraining (owned_rooms o), o)
  | ds_drain r rs o : drain_step (DDraining (r :: rs), o) (DDraining rs, (drain r.1 r.2 o).2)
  | ds_drained o : drain_step (DDraining [], o) (DDone, o).

(** Any interleaving of one attach with one drain of the relay. *)
Inductive race_steps : attach_pc * drain_pc * HuddleOwnerRegistry →
    attach_pc * drain_pc * HuddleOwnerRegistry → Prop :=
  | race_refl st : race_steps st st
  | race_attach st a d o a' o' :
      race_steps st (a, d, o) → attach_step (a, o) (a', o') → race_steps st (a', d, o')
  | race_drain st a d o d' o' :
      race_steps st (a, d, o) → drain_step (d, o) (d', o') → race_steps st (a, d', o').

(** The lease handed in is being released by a cancelled renewer. *)
Definition lease_released (o : HuddleOwnerRegistry) : Prop :=
  ∃ c lost, (lease, c, lost) ∈ renewers o ∧ c ∈ cancelled o.

(** Entry [e] of room [s] is still due: not snapshotted yet, or on the list. *)
Definition due (d : drain_pc) (s : Uuid) (e : HuddleOwnerEntry) : Prop :=
  match d with
  | DStart | DFlagged => True
  | DDraining rs => (s, e_generation e) ∈ rs
  | DDone => False
  end.

Definition race_inv (st : attach_pc * drain_pc * HuddleOwnerRegistry) : Prop :=
  let '(a, d, o) := st in
  (draining o = false ↔ d = DStart) ∧
  (∀ s e, entries o !! s = Some e → due d s e ∨ ∃ sg c g, a = AInstalled sg c g ∧ s = session) ∧
  match a with
  | AStart | AChecked => True
  | AInstalled sg c g =>
      (∃ lost, (lease, c, lost) ∈ renewers o) ∧
      (∀ e, entries o !! session = Some e → e = MkEntry (s_lost sg) (s_draining sg) c g) ∧
      (entries o !! session = None → s_draining sg ∈ cancelled o ∧ c ∈ cancelled o)
  | ADone sg =>
      (s_draining sg ∈ cancelled o ∨
       ∃ e, entries o !! session = Some e ∧ e_draining e = s_draining sg) ∧
      (lease_released o ∨
       ∃ e lost, entries o !! session = Some e ∧ (lease, e_cancel e, lost) ∈ renewers o)
  end.

Lemma race_inv_start o : draining o = false → race_inv (AStart, DStart, o).
Proof. intros Hd. split; [by rewrite Hd|]. split; [|done]. intros s e _. by left. Qed.

Lemma drain_lookup s g o s' e :
  entries (drain s g o).2 !! s' = Some e →
  entries o !! s' = Some e ∧ (s' = s → e_generation e ≠ g).
Proof.
  unfold drain. destruct (entries o !! s) as [e'|] eqn:Hs; [|simpl; intros H; split; [done|congruence]].
  case_bool_decide as Hg; simpl.
  - intros [Hne H]%lookup_delete_Some. split; [done|]. intros ->. done.
  - intros H. split; [done|]. intros ->. by simplify_eq.
Qed.

(** What a drain leaves of the entry of [session]. *)
Lemma drain_effect s g o :
  let o' := (drain s g o).2 in
  draining o' = draining o ∧ renewers o' = renewers o ∧ cancelled o ⊆ cancelled o' ∧
  (∀ e, entries o !! session = Some e →
     entries o' !! session = Some e ∨
     entries o' !! session = None ∧ e_draining e ∈ cancelled o' ∧ e_cancel e ∈ cancelled o') ∧
  (entries o !! session = None → entries o' !! session = None).
Proof.
  cbn zeta. unfold drain. destruct (entries o !! s) as [e'|] eqn:Hs; [|split_and!; eauto].
  case_bool_decide as Hg; simpl; [|split_and!; eauto].
  split_and!; [done|done|set_solver| |].
  - intros e He. destruct (decide (s = session)) as [->|Hne].
    + right. simplify_eq. rewrite lookup_delete_eq. split; [done|]. set_solver.
    + left. by rewrite lookup_delete_ne.
  - intros He. destruct (decide (s = session)) as [->|Hne]; [by rewrite lookup_delete_eq|].
    by rewrite lookup_delete_ne.
Qed.

Lemma attach_installed_effect o s c g o' :
  attach_install session lease o = (Installed s c g, o') →
  entries o' = <[session := MkEntry (s_lost s) (s_draining s) c g]> (entries o) ∧
  draining o' = draining o ∧ ∃ lost, (lease, c, lost) ∈ renewers o'.
Proof.
  unfold attach_install. destruct (entries o !! session); [done|]. intros [= <- <- <- <-]. simpl.
  split; [done|]. split; [done|]. eexists. apply elem_of_app. right. left.
Qed.

Lemma attach_check_effect o s o' :
  attach_check lease o = (Some s, o') →
  draining o = true ∧ draining o' = true ∧ entries o' = entries o ∧
  s_draining s ∈ cancelled o' ∧ lease_released o'.
Proof.
  unfold attach_check, is_draining. destruct (draining o) eqn:Hd; [|done]. intros [= <- <-]. simpl.
  split_and!; [done|done|done|set_solver|].
  eexists _, _. simpl. split; [apply elem_of_app; right; left|]. set_solver.
Qed.

Lemma attach_existing_effect o s o' :
  attach_install session lease o = (Finished s, o') →
  ∃ e, entries o !! session = Some e ∧ s_draining s = e_draining e ∧
    draining o' = draining o ∧ entries o' = entries o ∧ lease_released o'.
Proof.
  unfold attach_install. destruct (entries o !! session) as [e|]; [|done]. intros [= <- <-].
  exists e. simpl. split_and!; try done.
  eexists _, _. simpl. split; [apply elem_of_app; right; left|]. set_solver.
Qed.

Lemma attach_step_inv a d o a' o' :
  race_inv (a, d, o) → attach_step (a, o) (a', o') → race_inv (a', d, o').
Proof.
  intros (Hf & Hdue & Ha) Hs. inversion Hs; subst; clear Hs.
  - match goal with H : attach_check _ _ = _ |- _ =>
      apply attach_check_effect in H as (Hd & Hd' & He & Hs & Hl) end.
    split; [rewrite Hd'; by rewrite Hd in Hf|]. split; [|by split; left].
    intros s0 e H0. rewrite He in H0. destruct (Hdue s0 e H0) as [?|(? & ? & ? & ? & _)]; [by left|done].
  - match goal with H : attach_check _ _ = _ |- _ => unfold attach_check in H; case_match end;
      simplify_eq. split; [done|]. split; [|done].
    intros s0 e H0. destruct (Hdue s0 e H0) as [?|(? & ? & ? & ? & _)]; [by left|done].
  - match goal with H : attach_install _ _ _ = _ |- _ =>
      apply attach_installed_effect in H as (Hen & Hd & Hr) end.
    split; [by rewrite Hd|]. split.
    + intros s0 e H0. rewrite Hen in H0. apply lookup_insert_Some in H0 as [[<- <-]|[Hne H0]].
      * right. by eexists _, _, _.
      * destruct (Hdue s0 e H0) as [?|(? & ? & ? & ? & _)]; [by left|done].
    + split; [done|]. rewrite Hen, lookup_insert_eq. split; [by intros e [= <-]|done].
  - match goal with H : attach_install _ _ _ = _ |- _ =>
      apply attach_existing_effect in H as (e & He & Hs & Hd & Hen & Hl) end.
    split; [by rewrite Hd|]. split.
    + intros s0 e0 H0. rewrite Hen in H0. destruct (Hdue s0 e0 H0) as [?|(? & ? & ? & ? & _)]; [by left|done].
    + split; [right; exists e; by rewrite Hen|by left].
  - destruct Ha as ([lost Hr] & Hours & Hgone). unfold attach_recheck, is_draining.
    destruct (draining o) eqn:Hd.
    + destruct (drain_effect session g o) as (Hd' & Hr' & Hsub & _ & Hnone).
      split; [simpl; by rewrite Hd', Hd|]. split.
      * simpl. intros s0 e [H0 Hg]%drain_lookup. left.
        destruct (Hdue s0 e H0) as [?|(? & ? & ? & [= <- <- <-] & ->)]; [done|].
        destruct (Hg eq_refl). by rewrite (Hours e H0).
      * simpl. split; [left; set_solver|]. left. exists c, lost. simpl. rewrite Hr'.
        split; [done|set_solver].
    + split; [by rewrite Hd|]. assert (d = DStart) as -> by by apply Hf. split; [intros; by left|].
      destruct (entries o !! session) as [e|] eqn:He.
      * specialize (Hours e eq_refl). subst e. split; right; eexists; [done|]. eexists. by split.
      * destruct (Hgone eq_refl). split; left; [done|]. exists c, lost. by split.
Qed.

Lemma drain_step_inv a d o d' o' :
  race_inv (a, d, o) → drain_step (d, o) (d', o') → race_inv (a, d', o').
Proof.
  intros (Hf & Hdue & Ha) Hs. inversion Hs; subst; clear Hs.
  - split; [by split|]. by split.
  - split; [split; intros Hx; [by apply Hf in Hx|done]|]. split; [|done].
    intros s e He. left. simpl. unfold owned_rooms. apply list_elem_of_fmap. exists (s, e).
    split; [done|]. by apply elem_of_map_iter.
  - destruct (drain_effect r.1 r.2 o) as (Hd' & Hr' & Hsub & Hkeep & Hnone).
    split; [rewrite Hd'; split; intros Hx; [by apply Hf in Hx|done]|]. split.
    + intros s e [He Hg]%drain_lookup. destruct (Hdue s e He) as [Hin|?]; [|by right]. left.
      simpl in *. apply elem_of_cons in Hin as [<-|Hin]; [by destruct (Hg eq_refl)|done].
    + destruct a as [| |sg c g|sg]; try done.
      * destruct Ha as ([lost Hr] & Hours & Hgone). rewrite Hr'. split; [by eexists|]. split.
        -- intros e [He _]%drain_lookup. by apply Hours.
        -- intros Hn. destruct (entries o !! session) as [e|] eqn:He.
           ++ specialize (Hours e eq_refl) as ->. destruct (Hkeep _ eq_refl) as [?|(_ & ? & ?)]; [congruence|done].
           ++ destruct (Hgone eq_refl). split; by apply Hsub.
      * destruct Ha as [Htok Hlease]. split.
        -- destruct Htok as [?|(e & He & <-)]; [left; by apply Hsub|].
           destruct (Hkeep e He) as [?|(_ & ? & _)]; [right; by eexists|by left].
        -- destruct Hlease as [(c & lost & ? & ?)|(e & lost & He & Hr)].
           ++ left. exists c, lost. rewrite Hr'. split; [done|by apply Hsub].
           ++ destruct (Hkeep e He) as [?|(_ & _ & ?)].
              ** right. exists e, lost. by rewrite Hr'.
              ** left. exists (e_cancel e), lost. by rewrite Hr'.
  - split; [split; intros Hx; [by apply Hf in Hx|done]|]. split; [|done].
    intros s e He. destruct (Hdue s e He) as [Hin|?]; [by apply not_elem_of_nil in Hin|by right].
Qed.

Lemma race_steps_inv st st' : race_inv st → race_steps st st' → race_inv st'.
Proof.
  intros Hi Hs. induction Hs as [|st a d o a' o' _ IH Hs|st a d o d' o' _ IH Hs]; [done| |].
  - by eapply attach_step_inv; [apply IH|].
  - by eapply drain_step_inv; [apply IH|].
Qed.

(** Shutdown leaves no huddle owned.  However one owner attaching a fresh
    lease interleaves with the drain of all rooms, once both are done the
    registry is empty, the drain signal the attaching connection holds has
    fired, and its lease is in the hands of a cancelled renewer, which releases
    it. *)
Theorem attach_drain_race o s o' :
  draining o = false → race_steps (AStart, DStart, o) (ADone s, DDone, o') →
  entries o' = ∅ ∧ is_draining o' = true ∧ s_draining s ∈ cancelled o' ∧
  ∃ c lost, (lease, c, lost) ∈ renewers o' ∧ c ∈ cancelled o'.
Proof.
  intros Hd Hs. pose proof (race_steps_inv _ _ (race_inv_start o Hd) Hs) as (Hf & Hdue & Htok & Hl).
  assert (He : entries o' = ∅).
  { apply map_eq. intros s0. rewrite lookup_empty. destruct (entries o' !! s0) as [e|] eqn:He; [|done].
    by destruct (Hdue s0 e He) as [[]|(? & ? & ? & ? & _)]. }
  rewrite He, lookup_empty in Htok, Hl. split; [done|].
  split; [apply not_false_is_true; intros Hx; by apply Hf in Hx|].
  destruct Htok as [?|(? & ? & _)]; [|done]. by destruct Hl as [?|(? & ? & ? & _)].
Qed.
End race.

(** ** Witnesses *)

Definition quiet_oracle (id : Uuid) (send : result MeshError unit) : Oracle :=
  MkOracle (λ w, w) (λ w, w) (Ok tt) send id.

Definition demo_fence : FencedHeader := MkFenced "h" 5 "relay-a".
Definition demo_relay : Relay := MkRelay manager_new registry_new.
Definition plain_frame (msg : HuddleControlMsg) : @loop_event HuddleControlMsg :=
  EvFrame (Ok (Some (Data demo_fence msg))).
Abbreviation render_nothing := (λ (_ : Z) (_ : RosterPeer), ""%string).

Definition demo_serve (evs : list (@loop_event HuddleControlMsg * Oracle))
    : option flow * Relay * CtlLoop :=
  serve_control_loop plain_encode plain_decode render_nothing render_nothing "relay-a"
    demo_fence "relay-b" evs demo_relay loop_new.

Definition demo_register : @loop_event HuddleControlMsg * Oracle :=
  (plain_frame (RegisterPeer "c" "alice" 3), quiet_oracle "p1" (Ok tt)).

Lemma quiet_others_ok c s ids id send :
  id ∈ ids → others_ok c s ids (quiet_oracle id send).
Proof. by intros Hid. Qed.

Lemma teardown_complete_witness :
  present "c" "h" "p1" (demo_serve [demo_register]).1.2 ∧
  ¬ present "c" "h" "p1" (demo_serve [demo_register; (EvFrame (Ok None), quiet_oracle "p1" (Ok tt))]).1.2.
Proof.
  split.
  - eexists _, _. split; [vm_compute; reflexivity|vm_compute; by eexists].
  - destruct (demo_serve [demo_register; (EvFrame (Ok None), quiet_oracle "p1" (Ok tt))])
      as [[fl w] st] eqn:Heq. cbn [fst snd].
    assert (Hfl : fl = Some (Break (Ok tt) None) ∧ stream_community st = Some "c"%string).
    { vm_compute in Heq. injection Heq as <- _ <-. split; reflexivity. }
    destruct Hfl as [Hfl Hc]. intros Hp.
    apply (distinct_keys_kept plain_decode "p1"
             [demo_register; (EvFrame (Ok None), quiet_oracle "p1" (Ok tt))]).
    { vm_compute. apply NoDup_singleton. }
    apply (teardown_complete plain_encode plain_decode render_nothing render_nothing "relay-a"
             "c" ["p1"%string] demo_fence "relay-b"
             [demo_register; (EvFrame (Ok None), quiet_oracle "p1" (Ok tt))] demo_relay fl w st);
      [exact Heq|by eexists _, _|exact Hc| | |left|exact Hp].
    + intros e [->|[->|[]%not_elem_of_nil]%elem_of_cons]%elem_of_cons; apply quiet_others_ok; left.
    + intros x Hx (a & r & Hat & _). apply room_at_Some in Hat as [Hat _]. done.
Defined.

(** A key registered twice leaks a peer: [registered] keeps one id per key, so
    the second registration of [alice] overwrites the first, and when the stream
    closes, the teardown removes the second peer only. *)
Theorem second_registration_leaks :
  let evs := [demo_register;
              (plain_frame (RegisterPeer "c" "alice" 3), quiet_oracle "p2" (Ok tt));
              (EvFrame (Ok None), quiet_oracle "p3" (Ok tt))] in
  (demo_serve evs).1.1 = Some (Break (Ok tt) None) ∧
  present "c" "h" "p1" (demo_serve evs).1.2 ∧
  ¬ present "c" "h" "p2" (demo_serve evs).1.2 ∧
  overwritten plain_decode "p1" evs.
Proof.
  split; [vm_compute; reflexivity|]. split; [|split].
  - eexists _, _. split; [vm_compute; reflexivity|vm_compute; by eexists].
  - intros (a & r & Hat & y & Hy). vm_compute in Hat. injection Hat as <- <-. discriminate Hy.
  - exists [], demo_register, [], (plain_frame (RegisterPeer "c" "alice" 3), quiet_oracle "p2" (Ok tt)),
      [(EvFrame (Ok None), quiet_oracle "p3" (Ok tt))], "alice"%string. by split.
Qed.

(** The stream to the other relay dies while a roster change is written. *)
Lemma send_failure_skips_teardown_witness :
  let '(_, w, st) := demo_serve [demo_register] in
  let o := quiet_oracle "p2" (Err (Transport "reset")) in
  let d := MkDelta 1 (Some (MkRosterPeer "alice" 0 0)) None in
  present "c" "h" "p1" w ∧
  serve_control_loop plain_encode plain_decode render_nothing render_nothing "relay-a"
    demo_fence "relay-b" [(EvRoster (RosterNext d), o)] w st = (Some (Return (Transport "reset")), w, st).
Proof.
  destruct (demo_serve [demo_register]) as [[fl w] st] eqn:Heq. cbv zeta.
  set (o := quiet_oracle "p2" (Err (Transport "reset"))).
  set (d := MkDelta 1 (Some (MkRosterPeer "alice" 0 0)) None).
  assert (Hrx : roster_rx st = Some 0 ∧ present "c" "h" "p1" w).
  { vm_compute in Heq. injection Heq as _ <- <-. split; [reflexivity|].
    eexists _, _. split; [vm_compute; reflexivity|vm_compute; by eexists]. }
  destruct Hrx as [Hrx Hp]. split; [exact Hp|].
  apply (send_failure_skips_teardown plain_encode plain_decode render_nothing render_nothing "relay-a"
           demo_fence "relay-b" (EvRoster (RosterNext d)) o [] w st (Transport "reset")
           (roster_delta_msg d) (roster_delta_msg d)); [|reflexivity|reflexivity].
  left. exists (RosterNext d), 0. split; [reflexivity|]. split; [exact Hrx|reflexivity].
Defined.

(** The flag is raised and the rooms listed between the owner's two looks. *)
Lemma attach_drain_race_witness :
  let lease := MkLease "c" "h" "relay-a" 7 in
  ∃ s o', race_steps "h" lease (AStart, DStart, registry_new) (ADone s, DDone, o') ∧
    entries o' = ∅ ∧ is_draining o' = true ∧ s_draining s ∈ cancelled o' ∧
    ∃ c lost, (lease, c, lost) ∈ renewers o' ∧ c ∈ cancelled o'.
Proof.
  intros lease. set (sg := MkSignals 1 2).
  set (o1 := (attach_install "h" lease (begin_drain registry_new)).2).
  exists sg, (attach_recheck "h" sg 0 7 o1).
  pose proof (ds_snapshot (begin_drain registry_new)) as Hsnap.
  assert (Hnil : owned_rooms (begin_drain registry_new) = []) by (vm_compute; reflexivity).
  rewrite Hnil in Hsnap. clear Hnil.
  assert (Hs : race_steps "h" lease (AStart, DStart, registry_new)
                 (ADone sg, DDone, attach_recheck "h" sg 0 7 o1)).
  { eapply race_attach; [|apply as_recheck]. eapply race_drain; [|apply ds_drained].
    eapply race_attach;
      [|apply (as_installed "h" lease (begin_drain registry_new)); reflexivity].
    eapply race_drain; [|exact Hsnap].
    eapply race_drain; [|apply (ds_flag registry_new)].
    eapply race_attach; [apply race_refl|apply as_checked; reflexivity]. }
  split; [exact Hs|]. exact (attach_drain_race "h" lease registry_new _ _ eq_refl Hs).
Defined.
