(* ===== verification/Effect.v ===== *)
(** * Programs with effects, and what many of them do to one world

    A handler is a tree of operations whose continuations take the reply
    ([eff]).  Any number of them run interleaved with each other and with steps of
    the outside, on a world that is the list of everything that happened
    ([machine_step]).  [triple] is a logic of postconditions for one program that
    tolerates all the others; [triple_sound] discharges it for every reachable
    machine.  [only] and [timely] are its counterparts for replies that are
    entirely arbitrary, and for a clock that advances with every operation. *)

From stdpp Require Import base list.
From Stdlib Require Import ZArith Lia.
From S2P Require Import Prelude.

Local Open Scope list_scope.

Lemma prefix_snoc {A} (l h : list A) e : l `prefix_of` h ++ [e] → l = h ++ [e] ∨ l `prefix_of` h.
Proof.
  intros [k Hk]. destruct k as [|e' k _] using rev_ind; [left; by rewrite app_nil_r in Hk|right].
  rewrite app_assoc in Hk. apply app_inj_tail in Hk as [-> _]. by apply prefix_app_r.
Qed.

(** ** Programs *)

Inductive eff (Op : Type) (Reply : Op → Type) (A : Type) : Type :=
  | Pure (a : A)
  | Perform (op : Op) (k : Reply op → eff Op Reply A).
Arguments Pure {Op Reply A} a.
Arguments Perform {Op Reply A} op k.

Section programs.
Context {Op : Type} {Reply : Op → Type}.

Fixpoint eff_bind {A B} (p : eff Op Reply A) (f : A → eff Op Reply B) : eff Op Reply B :=
  match p with
  | Pure a => f a
  | Perform op k => Perform op (λ r, eff_bind (k r) f)
  end.

Definition perform (op : Op) : eff Op Reply (Reply op) := Perform op Pure.

(** Nothing but [P]-operations, and what holds of the answer whatever is replied. *)
Fixpoint only {A} (P : Op → Prop) (p : eff Op Reply A) (Q : A → Prop) : Prop :=
  match p with
  | Pure a => Q a
  | Perform op k => P op ∧ ∀ r, only P (k r) Q
  end.

(** [.await?] *)
Definition try_bind {E A B} (p : eff Op Reply (result E A)) (f : A → eff Op Reply (result E B))
    : eff Op Reply (result E B) :=
  eff_bind p (λ r, match r with Ok a => f a | Err e => Pure (Err e) end).
End programs.

(** ** Machines *)

(** A program being run: what it was asked, how much had happened when it came, and
    what is left of it. *)
Record Task (Op : Type) (Reply : Op → Type) (Req Out : Type) :=
  { t_req : Req; t_start : nat; t_prog : eff Op Reply Out }.
Arguments t_req {Op Reply Req Out} _.
Arguments t_start {Op Reply Req Out} _.
Arguments t_prog {Op Reply Req Out} _.
Arguments Build_Task {Op Reply Req Out} _ _ _.

Record Machine (Op : Type) (Reply : Op → Type) (Req Out Entry : Type) :=
  { history : list Entry; tasks : list (Task Op Reply Req Out) }.
Arguments history {Op Reply Req Out Entry} _.
Arguments tasks {Op Reply Req Out Entry} _.

Section machine.
Context {Op : Type} {Reply : Op → Type} {Req Out Entry : Type}.
(** Who an entry is by; [None] is the outside. *)
Context (author : Entry → option nat).
(** What the world answers to an operation of a task, with what it adds to the
    history, and what the outside may add. *)
Context (react : nat → ∀ op : Op, list Entry → Reply op → list Entry → Prop) (outside : list Entry → Entry → Prop).
Context (program : Req → eff Op Reply Out).

Inductive machine_step : Machine Op Reply Req Out Entry → Machine Op Reply Req Out Entry → Prop :=
  | machine_arrive s r :
      machine_step s {| history := history s; tasks := tasks s ++ [Build_Task r (length (history s)) (program r)] |}
  | machine_run s i r n op k reply l :
      tasks s !! i = Some (Build_Task r n (Perform op k)) → react i op (history s) reply l →
      machine_step s {| history := history s ++ l; tasks := <[i := Build_Task r n (k reply)]> (tasks s) |}
  | machine_outside s e :
      outside (history s) e → machine_step s {| history := history s ++ [e]; tasks := tasks s |}.

Inductive machine_reachable : Machine Op Reply Req Out Entry → Prop :=
  | machine_start : machine_reachable {| history := []; tasks := [] |}
  | machine_next s s' : machine_reachable s → machine_step s s' → machine_reachable s'.

(** ** The logic *)

Context (Inv OkH : list Entry → Prop).

(** What happens while task [i] waits. *)
Definition meanwhile (i : nat) (h h' : list Entry) : Prop :=
  Inv h' ∧ OkH h' ∧ ∃ l, h' = h ++ l ∧ Forall (λ e, author e ≠ Some i) l.

Fixpoint triple {A} (i : nat) (p : eff Op Reply A) (Q : A → list Entry → Prop) (h : list Entry) : Prop :=
  match p with
  | Pure a => ∀ h1, meanwhile i h h1 → Q a h1
  | Perform op k => ∀ h1 reply l,
      meanwhile i h h1 → react i op h1 reply l → OkH (h1 ++ l) → Inv (h1 ++ l) ∧ triple i (k reply) Q (h1 ++ l)
  end.

Lemma meanwhile_refl i h : Inv h → OkH h → meanwhile i h h.
Proof. intros. split_and!; [done..|]. exists []. by rewrite app_nil_r. Qed.

Lemma meanwhile_trans i h1 h2 h3 : meanwhile i h1 h2 → meanwhile i h2 h3 → meanwhile i h1 h3.
Proof.
  intros (_ & _ & l & -> & Hl) (Hi & Ho & l' & -> & Hl'). split_and!; [done..|]. exists (l ++ l').
  rewrite <-app_assoc. split; [done|by apply Forall_app].
Qed.

Lemma triple_meanwhile {A} i (p : eff Op Reply A) Q h h' : triple i p Q h → meanwhile i h h' → triple i p Q h'.
Proof.
  intros H Hm. destruct p; simpl in *.
  - intros h1 H1. apply H. by eapply meanwhile_trans.
  - intros h1 reply l H1. eapply H. by eapply meanwhile_trans.
Qed.

Lemma triple_wait {A} i (p : eff Op Reply A) Q h : (∀ h', meanwhile i h h' → triple i p Q h') → triple i p Q h.
Proof.
  intros H. destruct p; simpl in *.
  - intros h1 H1. apply (H _ H1). apply meanwhile_refl; apply H1.
  - intros h1 reply l H1. apply (H _ H1), meanwhile_refl; apply H1.
Qed.

Lemma triple_mono {A} i (p : eff Op Reply A) (Q R : A → list Entry → Prop) h :
  triple i p Q h → (∀ a h', Inv h' → OkH h' → Q a h' → R a h') → triple i p R h.
Proof.
  intros H HQ. revert h H. induction p as [a|op k IH]; simpl; intros h H.
  - intros h1 H1. apply HQ; [apply H1..|by apply H].
  - intros h1 reply l H1 Hr Ho. destruct (H _ _ _ H1 Hr Ho). auto.
Qed.

(** A program only adds to what happened. *)
Lemma triple_extends {A} i (p : eff Op Reply A) Q h :
  triple i p Q h → triple i p (λ a h', Q a h' ∧ ∃ l, h' = h ++ l) h.
Proof.
  revert h. induction p as [a|op k IH]; simpl; intros h H.
  - intros h1 H1. split; [by apply H|]. destruct H1 as (_ & _ & l & -> & _). by exists l.
  - intros h1 reply l H1 Hr Ho. destruct (H _ _ _ H1 Hr Ho) as [Hi Hk]. split; [done|].
    eapply triple_mono; [by apply IH|]. simpl. intros a h' _ _ [HQ [l' ->]]. split; [done|].
    destruct H1 as (_ & _ & l0 & -> & _). exists (l0 ++ l ++ l'). by rewrite !app_assoc.
Qed.

Lemma triple_bind {A B} i (p : eff Op Reply A) (f : A → eff Op Reply B) Q h :
  triple i p (λ a, triple i (f a) Q) h → triple i (eff_bind p f) Q h.
Proof.
  revert h. induction p as [a|op k IH]; simpl; intros h H.
  - by apply triple_wait.
  - intros h1 reply l H1 Hr Ho. destruct (H _ _ _ H1 Hr Ho). auto.
Qed.

(** Operations that change nothing. *)
Lemma triple_only {A} P i (p : eff Op Reply A) Q h :
  (∀ op h r l, P op → react i op h r l → l = []) → only P p Q → Inv h → OkH h →
  triple i p (λ a h', Q a ∧ meanwhile i h h') h.
Proof.
  intros Hread Hp. revert h. induction p as [a|op k IH]; simpl in *; intros h Hi Ho; [done|].
  destruct Hp as [HP Hk]. intros h1 reply l H1 Hr _. rewrite (Hread _ _ _ _ HP Hr), app_nil_r.
  pose proof H1 as (Hi1 & Ho1 & _). split; [done|].
  eapply triple_mono; [by apply IH|]. simpl. intros a h' _ _ [? ?]. split; [done|by eapply meanwhile_trans].
Qed.

Section soundness.
Context (post : Req → nat → nat → Out → list Entry → Prop).
Hypothesis okh_app : ∀ h l, OkH (h ++ l) → OkH h.
Hypothesis inv_nil : Inv [].
Hypothesis react_author : ∀ i op h reply l, react i op h reply l → Forall (λ e, author e = Some i) l.
Hypothesis outside_inv : ∀ h e, Inv h → outside h e → OkH (h ++ [e]) → author e = None ∧ Inv (h ++ [e]).
Hypothesis program_triple : ∀ r i h,
  Inv h → OkH h → Forall (λ e, author e ≠ Some i) h → triple i (program r) (post r i (length h)) h.

Record machine_inv (s : Machine Op Reply Req Out Entry) : Prop := {
  mi_inv : Inv (history s);
  mi_authors : Forall (λ e, ∀ i, author e = Some i → (i < length (tasks s))%nat) (history s);
  mi_tasks i t : tasks s !! i = Some t → triple i (t_prog t) (post (t_req t) i (t_start t)) (history s);
}.

Lemma machine_inv_step s s' : machine_inv s → machine_step s s' → OkH (history s') → machine_inv s'.
Proof.
  intros [Hi Ha Ht] Hstep Ho. destruct Hstep as [s r|s i r n op k reply l Hp Hr|s e He]; simpl in *.
  - split; simpl; [done| |].
    + eapply Forall_impl; [exact Ha|]. simpl. intros e Hlt i Hei. rewrite length_app. specialize (Hlt i Hei). lia.
    + intros i t [H|[Hlen H]]%lookup_app_Some; [by apply Ht|].
      apply list_lookup_singleton_Some in H as [Hz <-]. apply program_triple; [done..|].
      eapply Forall_impl; [exact Ha|]. simpl. intros e Hlt Hei. specialize (Hlt _ Hei). lia.
  - pose proof (Ht _ _ Hp) as H. simpl in H.
    pose proof (react_author _ _ _ _ _ Hr) as Hl. pose proof (lookup_lt_Some _ _ _ Hp) as Hlt.
    destruct (H _ _ _ (meanwhile_refl i _ Hi (okh_app _ _ Ho)) Hr Ho) as [Hinv Htr].
    split; simpl; [done| |].
    + rewrite length_insert. apply Forall_app. split; [done|]. eapply Forall_impl; [exact Hl|].
      simpl. intros e -> j [= <-]. done.
    + intros j t [(-> & <- & _)|[Hne Hj]]%list_lookup_insert_Some; [done|].
      eapply triple_meanwhile; [by apply Ht|]. split_and!; [done..|]. exists l. split; [done|].
      eapply Forall_impl; [exact Hl|]. simpl. congruence.
  - destruct (outside_inv _ _ Hi He Ho) as [Hne Hinv]. split; simpl; [done| |].
    + apply Forall_app. split; [done|]. apply Forall_singleton. congruence.
    + intros i t Hit. eapply triple_meanwhile; [by apply Ht|]. split_and!; [done..|]. exists [e].
      split; [done|]. apply Forall_singleton. congruence.
Qed.

Lemma machine_step_history s s' : machine_step s s' → ∃ l, history s' = history s ++ l.
Proof. destruct 1; simpl; [exists []; by rewrite app_nil_r|by eexists..]. Qed.

Lemma triple_sound s :
  machine_reachable s → OkH (history s) →
  Inv (history s) ∧ ∀ i r start a,
    tasks s !! i = Some (Build_Task r start (Pure a)) → post r i start a (history s).
Proof.
  intros Hr Ho. assert (machine_inv s) as [Hi _ Ht].
  { induction Hr as [|s s' Hr IH Hstep]; [split; simpl; [done|constructor|done]|].
    eapply machine_inv_step; [|exact Hstep|done]. apply IH.
    destruct (machine_step_history _ _ Hstep) as [l Hl]. rewrite Hl in Ho. by eapply okh_app. }
  split; [done|]. intros i r start a H. apply (Ht _ _ H). by apply meanwhile_refl.
Qed.
End soundness.
End machine.

(** *** Moments of a run, and fewer steps of the outside *)

Section moments.
Context {Op : Type} {Reply : Op → Type} {Req Out Entry : Type}.
Context (react : nat → ∀ op : Op, list Entry → Reply op → list Entry → Prop) (program : Req → eff Op Reply Out).
Implicit Types s : Machine Op Reply Req Out Entry.

(** Where a reaction is at most one entry, every moment of a run is one of a machine. *)
Lemma machine_moment outside s h :
  (∀ i op h r l, react i op h r l → (length l <= 1)%nat) →
  machine_reachable react outside program s → h `prefix_of` history s →
  ∃ s0, machine_reachable react outside program s0 ∧ history s0 = h.
Proof.
  intros Hshort Hr. revert h. induction Hr as [|s s' Hr IH Hstep]; intros h Hp.
  - apply prefix_nil_inv in Hp as ->. eexists. split; [apply machine_start|done].
  - assert (history s' = h ∨ h `prefix_of` history s) as [<-|?]; [|by exists s'; split; [by eapply machine_next|]|by apply IH].
    destruct Hstep as [s r|s i r n op k reply l _ Hl|s e _]; simpl in *; [by right| |].
    + apply Hshort in Hl. destruct l as [|e []]; simpl in *; [right; by rewrite app_nil_r in Hp| |lia].
      apply prefix_snoc in Hp as [->|?]; [by left|by right].
    + apply prefix_snoc in Hp as [->|?]; [by left|by right].
Qed.

(** A run is one of any outside that allows all that the outside did. *)
Lemma machine_restrict (outside outside' : list Entry → Entry → Prop) s :
  (∀ h e, h ++ [e] `prefix_of` history s → outside h e → outside' h e) →
  machine_reachable react outside program s → machine_reachable react outside' program s.
Proof.
  intros Hout Hr. induction Hr as [|s s' Hr IH Hstep]; [apply machine_start|].
  destruct (machine_step_history _ _ _ _ _ Hstep) as [l Hl]. eapply machine_next.
  - apply IH. intros h e Hp. apply Hout. rewrite Hl. by apply prefix_app_r.
  - destruct Hstep; [by constructor|by econstructor|]. constructor. by apply Hout.
Qed.
End moments.

(** ** Arbitrary replies *)

Section replies.
Context {Op : Type} {Reply : Op → Type}.

Lemma only_mono {A} P (p : eff Op Reply A) (Q R : A → Prop) : only P p Q → (∀ a, Q a → R a) → only P p R.
Proof. intros H HQ. induction p as [|op k IH]; simpl in *; [auto|]. destruct H. auto. Qed.

Lemma only_bind {A B} P (p : eff Op Reply A) (f : A → eff Op Reply B) Q R :
  only P p Q → (∀ a, Q a → only P (f a) R) → only P (eff_bind p f) R.
Proof. intros H Hf. induction p as [|op k IH]; simpl in *; [auto|]. destruct H. auto. Qed.

(** Every operation takes at least [tick]; [admits op r t] says that [op] may be
    answered [r] at time [t]. *)
Context (tick : Z) (admits : ∀ op, Reply op → Z → Prop).

Fixpoint timely {A} (t : Z) (p : eff Op Reply A) (Q : Z → A → Prop) : Prop :=
  match p with
  | Pure a => Q t a
  | Perform op k => ∀ t' r, (t + tick ≤ t')%Z → admits op r t' → timely t' (k r) Q
  end.

Lemma timely_mono {A} t (p : eff Op Reply A) (Q R : Z → A → Prop) :
  timely t p Q → (∀ t' a, Q t' a → R t' a) → timely t p R.
Proof. intros H HQ. revert t H. induction p; simpl in *; auto. Qed.

Lemma timely_bind {A B} t (p : eff Op Reply A) (f : A → eff Op Reply B) Q R :
  timely t p Q → (∀ t' a, Q t' a → timely t' (f a) R) → timely t (eff_bind p f) R.
Proof. intros H Hf. revert t H. induction p; simpl in *; auto. Qed.

Lemma timely_later {A} t (p : eff Op Reply A) : (0 ≤ tick)%Z → timely t p (λ t' _, (t ≤ t')%Z).
Proof.
  intros Ht. revert t. induction p as [a|op k IH]; intros t; simpl; [lia|]. intros t' r Hle _.
  eapply timely_mono; [apply IH|]. simpl. lia.
Qed.
End replies.
