(* ===== verification/Kube.v ===== *)
(** * Kubernetes backend: objects and decisions

    [crates/buzz-backend-kubernetes/src]: the names an agent's identity implies
    ([naming.rs]), the create-intent fingerprint ([intent.rs]), the Secret and Pod
    of an attempt ([pod.rs]), how a Pod's status is read ([observe.rs]), what to do
    next ([classify.rs]) and what a preflight pass collects ([gc.rs]).

    Of the API objects the fields that are read or decide something are modelled.
    Error and condition texts are left out. *)

From stdpp Require Import base gmap strings list sorting.
From Stdlib Require Import ZArith Lia Ascii.
From S2P Require Import Prelude Text.

Local Open Scope list_scope.

(** ** API objects *)

Definition StrMap : Type := gmap string string.

(** [None] or the fields that are set. *)
Record ContainerStateWaiting := { w_reason : option string; w_message : option string }.
Record ContainerState := {
  cs_running : bool;
  cs_terminated : bool;
  cs_waiting : option ContainerStateWaiting;
}.
Record ContainerStatus := { cs_name : string; cs_state : option ContainerState }.
Record PodStatus := { ps_phase : option string; ps_container_statuses : option (list ContainerStatus) }.

Record ObjectMeta := {
  m_name : option string;
  m_namespace : option string;
  m_uid : option string;
  m_resource_version : option string;
  m_labels : option StrMap;
  m_annotations : option StrMap;
  m_deletion_timestamp : option Z;
  m_creation_timestamp : option Z;
}.

Record SecretEnvSource := { ses_name : string; ses_optional : option bool }.
Record EnvFromSource := { secret_ref : option SecretEnvSource }.
Record ResourceRequirements := { requests : option StrMap; limits : option StrMap }.
Record VolumeMount := { vm_name : string; mount_path : string }.
Record SecurityContext := {
  allow_privilege_escalation : option bool;
  capabilities_drop : option (list string);
}.
Record Container := {
  c_name : string;
  c_image : option string;
  c_env_from : option (list EnvFromSource);
  c_resources : option ResourceRequirements;
  volume_mounts : option (list VolumeMount);
  c_security_context : option SecurityContext;
}.
Record PodSecurityContext := {
  run_as_non_root : option bool;
  psc_run_as_user : option Z;
  psc_run_as_group : option Z;
  fs_group : option Z;
  seccomp_profile : option string;
}.
(** [vol_empty_dir]: whether it is an [emptyDir]. *)
Record Volume := { vol_name : string; vol_empty_dir : bool }.
Record PodSpec := {
  containers : list Container;
  restart_policy : option string;
  termination_grace_period_seconds : option Z;
  automount_service_account_token : option bool;
  service_account_name : option string;
  p_security_context : option PodSecurityContext;
  volumes : option (list Volume);
}.
Record Pod := { pod_meta : ObjectMeta; pod_spec : option PodSpec; pod_status : option PodStatus }.
Record Secret := { sec_meta : ObjectMeta; string_data : option StrMap; immutable : option bool }.

(** ** Names *)

Definition MANAGED_BY : string := "buzz-backend-kubernetes".
Definition LABEL_MANAGED_BY : string := "app.kubernetes.io/managed-by".
Definition LABEL_BINDING_VERSION : string := "buzz.block.xyz/binding-version".
Definition BINDING_VERSION : string := "1".
Definition LABEL_AGENT_PUBKEY : string := "buzz.block.xyz/agent-pubkey".
Definition ANNOTATION_PUBKEY_FULL : string := "buzz.block.xyz/agent-pubkey-full".
Definition ANNOTATION_CREATE_INTENT : string := "buzz.block.xyz/create-intent".
Definition ANNOTATION_IMAGE : string := "buzz.block.xyz/image".

Record AgentIdentity := { pubkey_hex : string }.

(** [&s[..n]] *)
Fixpoint str_prefix (n : nat) (s : string) : string :=
  match n, s with
  | S n', String c s' => String c (str_prefix n' s')
  | _, _ => ""
  end.

Definition label_pubkey (id : AgentIdentity) : string := str_prefix 32 (pubkey_hex id).
Definition pod_name (id : AgentIdentity) : string := ("buzz-agent-" +:+ str_prefix 12 (pubkey_hex id))%stdpp.
Definition secret_name (id : AgentIdentity) (generation : string) : string :=
  ("buzz-agent-" +:+ str_prefix 12 (pubkey_hex id) +:+ "-" +:+ generation)%stdpp.
Definition labels (id : AgentIdentity) : StrMap :=
  <[LABEL_AGENT_PUBKEY := label_pubkey id]> (<[LABEL_MANAGED_BY := MANAGED_BY]>
    {[ LABEL_BINDING_VERSION := BINDING_VERSION ]}).

(** The label pairs an object must have to match [AgentIdentity::selector]. *)
Definition selector (id : AgentIdentity) : list (string * string) :=
  [(LABEL_AGENT_PUBKEY, label_pubkey id); (LABEL_MANAGED_BY, MANAGED_BY)].

(** ** Create intent *)

Definition RESTART_POLICY : string := "Never".
Definition TERMINATION_GRACE_SECONDS : Z := 60.
Definition WORKSPACE_PATH : string := "/home/agent".
Definition RUN_AS_UID : Z := 10001.
Definition RUN_AS_GID : Z := 10001.
Definition TEMPLATE_VERSION : Z := 1.
Definition SECRET_PLACEHOLDER : string := "<per-attempt-secret>".
Definition START_NONCE_KEY : string := "BUZZ_MANAGED_AGENT_START_NONCE".

Record Resources := { cpu_request : string; memory_request : string; cpu_limit : string; memory_limit : string }.

(** The parsed configuration: what a deploy reads of it. *)
Record ProviderConfig := {
  namespace : string;
  image : string;
  resources : Resources;
  service_account : option string;
}.

Record IntentTemplate := {
  template_version : Z;
  it_namespace : string;
  it_image : string;
  it_cpu_request : string;
  it_memory_request : string;
  it_cpu_limit : string;
  it_memory_limit : string;
  it_service_account : option string;
  it_restart_policy : string;
  it_termination_grace_period_seconds : Z;
  env_keys : list string;
  env_from_secret : string;
  workspace_mount_path : string;
  run_as_user : Z;
  run_as_group : Z;
}.

Definition Fingerprint : Type := string.

(** Of third parties: the key an [nsec] stands for, and the digest of a template's
    JSON. *)
Class KubeOps := {
  from_nsec : string → option string;
  template_digest : IntentTemplate → Fingerprint;
}.
(** A public key is 64 hex characters. *)
Class KubeLaws `{KO : KubeOps} := {
  from_nsec_length nsec pk : from_nsec nsec = Some pk → String.length pk = 64%nat;
}.

Definition intent_template (cfg : ProviderConfig) (keys : list string) : IntentTemplate := {|
  template_version := TEMPLATE_VERSION;
  it_namespace := namespace cfg; it_image := image cfg;
  it_cpu_request := cpu_request (resources cfg); it_memory_request := memory_request (resources cfg);
  it_cpu_limit := cpu_limit (resources cfg); it_memory_limit := memory_limit (resources cfg);
  it_service_account := service_account cfg; it_restart_policy := RESTART_POLICY;
  it_termination_grace_period_seconds := TERMINATION_GRACE_SECONDS;
  env_keys := merge_sort (by_id id) keys;
  env_from_secret := SECRET_PLACEHOLDER; workspace_mount_path := WORKSPACE_PATH;
  run_as_user := RUN_AS_UID; run_as_group := RUN_AS_GID |}.

Definition fingerprint `{KubeOps} (t : IntentTemplate) : Fingerprint := template_digest t.

(** ** The objects of an attempt *)

Definition CONTAINER_NAME : string := "agent".

Definition build_secret (id : AgentIdentity) (ns generation : string) (env : StrMap) : Secret := {|
  sec_meta := {| m_name := Some (secret_name id generation); m_namespace := Some ns; m_uid := None;
    m_resource_version := None; m_labels := Some (labels id);
    m_annotations := Some {[ ANNOTATION_PUBKEY_FULL := pubkey_hex id ]};
    m_deletion_timestamp := None; m_creation_timestamp := None |};
  string_data := Some env; immutable := Some true |}.

Definition WORKSPACE_VOLUME : string := "workspace".

Definition build_pod (id : AgentIdentity) (cfg : ProviderConfig) (generation : string) (fp : Fingerprint) : Pod :=
  let annotations := <[ANNOTATION_PUBKEY_FULL := pubkey_hex id]>
    (<[ANNOTATION_CREATE_INTENT := fp]> {[ ANNOTATION_IMAGE := image cfg ]}) in
  let requests := <["cpu" := cpu_request (resources cfg)]> {[ "memory" := memory_request (resources cfg) ]} in
  let limits := <["cpu" := cpu_limit (resources cfg)]> {[ "memory" := memory_limit (resources cfg) ]} in
  let container := {|
    c_name := CONTAINER_NAME; c_image := Some (image cfg);
    c_env_from := Some [{| secret_ref := Some {| ses_name := secret_name id generation; ses_optional := Some false |} |}];
    c_resources := Some {| requests := Some requests; limits := Some limits |};
    volume_mounts := Some [{| vm_name := WORKSPACE_VOLUME; mount_path := WORKSPACE_PATH |}];
    c_security_context := Some {| allow_privilege_escalation := Some false; capabilities_drop := Some ["ALL"] |} |} in
  {| pod_meta := {| m_name := Some (pod_name id); m_namespace := Some (namespace cfg); m_uid := None;
       m_resource_version := None; m_labels := Some (labels id); m_annotations := Some annotations;
       m_deletion_timestamp := None; m_creation_timestamp := None |};
     pod_spec := Some {|
       containers := [container]; restart_policy := Some RESTART_POLICY;
       termination_grace_period_seconds := Some TERMINATION_GRACE_SECONDS;
       automount_service_account_token := Some false; service_account_name := service_account cfg;
       p_security_context := Some {| run_as_non_root := Some true; psc_run_as_user := Some RUN_AS_UID;
         psc_run_as_group := Some RUN_AS_GID; fs_group := Some RUN_AS_GID; seccomp_profile := Some "RuntimeDefault" |};
       volumes := Some [{| vol_name := WORKSPACE_VOLUME; vol_empty_dir := true |}] |};
     pod_status := None |}.

(** ** Observations *)

Record Fence := { f_uid : string; f_resource_version : string }.

#[export] Instance Fence_eq_dec : EqDecision Fence.
Proof. solve_decision. Defined.

Inductive PullFailure := Unauthorized | ManifestUnknown | ArchMismatch.

#[export] Instance PullFailure_eq_dec : EqDecision PullFailure.
Proof. solve_decision. Defined.

Inductive Startup :=
  | Started
  | Terminated
  | NeverStartedRecoverable
  | NeverStartedProvablyBroken
  | NeverStartedPullFailing (failure : PullFailure).

#[export] Instance Startup_eq_dec : EqDecision Startup.
Proof. solve_decision. Defined.

Record VerifiedPod := {
  vp_name : string;
  vp_fence : Fence;
  deletion_marked : bool;
  startup : Startup;
  recorded_intent : option Fingerprint;
}.

Inductive StartupObservation :=
  | Resolved (s : Startup)
  | ConfigErrorPendingSecretCheck (secret : string).

Definition has_marker (ls : option StrMap) : bool :=
  match ls with
  | None => false
  | Some ls =>
      bool_decide (ls !! LABEL_MANAGED_BY = Some MANAGED_BY) &&
      bool_decide (ls !! LABEL_BINDING_VERSION = Some BINDING_VERSION)
  end.

Definition annotation_matches (annotations : option StrMap) (id : AgentIdentity) : bool :=
  match annotations ≫= (!!) ANNOTATION_PUBKEY_FULL with
  | Some v => bool_decide (v = pubkey_hex id)
  | None => false
  end.

Definition secret_is_ours (secret : Secret) (id : AgentIdentity) : bool :=
  has_marker (m_labels (sec_meta secret)) && annotation_matches (m_annotations (sec_meta secret)) id.

(** The first secret any container takes its environment from. *)
Definition referenced_secret (pod : Pod) : option string :=
  spec ← pod_spec pod;
  head (omap (λ source, ses_name <$> secret_ref source) (concat (default [] ∘ c_env_from <$> containers spec))).

Definition classify_pull_failure (message : string) : option PullFailure :=
  let m := to_ascii_lowercase message in
  if str_contains m "401" || str_contains m "unauthorized" || str_contains m "403" ||
     str_contains m "denied" || str_contains m "authentication required" then Some Unauthorized
  else if str_contains m "manifest unknown" || str_contains m "not found" ||
          str_contains m "manifest_unknown" || str_contains m "repository does not exist" then Some ManifestUnknown
  else if str_contains m "no match for platform" || str_contains m "no matching manifest" then Some ArchMismatch
  else None.

Definition decode_waiting (pod : Pod) (waiting : ContainerStateWaiting) : StartupObservation :=
  let reason := default "" (w_reason waiting) in
  let message := default "" (w_message waiting) in
  if bool_decide (reason = "InvalidImageName") then Resolved NeverStartedProvablyBroken
  else if bool_decide (reason = "ErrImagePull") || bool_decide (reason = "ImagePullBackOff") then
    match classify_pull_failure message with
    | Some failure => Resolved (NeverStartedPullFailing failure)
    | None => Resolved NeverStartedRecoverable
    end
  else if bool_decide (reason = "CreateContainerConfigError") then
    match referenced_secret pod with
    | Some secret => ConfigErrorPendingSecretCheck secret
    | None => Resolved NeverStartedRecoverable
    end
  else Resolved NeverStartedRecoverable.

(** The state of our container, if it is reported. *)
Definition container_state (pod : Pod) : option ContainerState :=
  status ← pod_status pod;
  statuses ← ps_container_statuses status;
  container ← find (λ c, bool_decide (cs_name c = CONTAINER_NAME)) statuses;
  cs_state container.

Definition decode_phase (pod : Pod) : Startup :=
  match pod_status pod ≫= ps_phase with
  | Some phase => if bool_decide (phase = "Succeeded") || bool_decide (phase = "Failed") then Terminated
                  else NeverStartedRecoverable
  | None => NeverStartedRecoverable
  end.

Definition decode_startup (pod : Pod) : StartupObservation :=
  match container_state pod with
  | Some state =>
      if cs_running state then Resolved Started
      else if cs_terminated state then Resolved Terminated
      else match cs_waiting state with
           | Some waiting => decode_waiting pod waiting
           | None => Resolved (decode_phase pod)
           end
  | None => Resolved (decode_phase pod)
  end.

Definition verify (pod : Pod) (id : AgentIdentity) (s : Startup) : option VerifiedPod :=
  if negb (has_marker (m_labels (pod_meta pod))) then None
  else if negb (annotation_matches (m_annotations (pod_meta pod)) id) then None
  else
    name ← m_name (pod_meta pod);
    uid ← m_uid (pod_meta pod);
    rv ← m_resource_version (pod_meta pod);
    Some {| vp_name := name; vp_fence := {| f_uid := uid; f_resource_version := rv |};
            deletion_marked := bool_decide (is_Some (m_deletion_timestamp (pod_meta pod)));
            startup := s;
            recorded_intent := m_annotations (pod_meta pod) ≫= (!!) ANNOTATION_CREATE_INTENT |}.

(** ** The state machine *)

Inductive Action :=
  | ACreate
  | ADelete (name : string) (fence : Fence)
  | AAwaitDisappearance (name : string)
  | ANoOp (agent_id : string)
  | AObserve (name : string)
  | AReport (name : string) (failure : PullFailure).

Definition classify (observed : option VerifiedPod) (desired : Fingerprint) : Action :=
  match observed with
  | None => ACreate
  | Some pod =>
      if deletion_marked pod then AAwaitDisappearance (vp_name pod)
      else
        match startup pod with
        | Started => ANoOp (vp_name pod)
        | Terminated => ADelete (vp_name pod) (vp_fence pod)
        | NeverStartedProvablyBroken => ADelete (vp_name pod) (vp_fence pod)
        | NeverStartedPullFailing failure => AReport (vp_name pod) failure
        | NeverStartedRecoverable =>
            if bool_decide (recorded_intent pod = Some desired) then AObserve (vp_name pod)
            else ADelete (vp_name pod) (vp_fence pod)
        end
  end.

(** ** Collection *)

Definition OPERATION_DEADLINE_SECS : Z := 600.
Definition ORPHAN_SECRET_MIN_AGE_SECS : Z := 2 * OPERATION_DEADLINE_SECS.

Record GcPlan := { plan_pods : list string; plan_secrets : list string }.

(** The orphans among the listed Secrets, added to those of the doomed Pods. *)
Fixpoint sweep_orphans (id : AgentIdentity) (now : Z) (protected : list string) (secrets : list Secret)
    (doomed : list string) : list string :=
  match secrets with
  | [] => doomed
  | secret :: rest =>
      if negb (secret_is_ours secret id) then sweep_orphans id now protected rest doomed
      else
        match m_name (sec_meta secret) with
        | None => sweep_orphans id now protected rest doomed
        | Some name =>
            if bool_decide (name ∈ protected) || bool_decide (name ∈ doomed)
            then sweep_orphans id now protected rest doomed
            else
              match m_creation_timestamp (sec_meta secret) with
              | None => sweep_orphans id now protected rest doomed
              | Some created =>
                  if bool_decide (ORPHAN_SECRET_MIN_AGE_SECS ≤ now - created)%Z
                  then sweep_orphans id now protected rest (doomed ++ [name])
                  else sweep_orphans id now protected rest doomed
              end
        end
  end.

Definition plan (id : AgentIdentity) (pods : list Pod) (secrets : list Secret) (terminated : Pod → bool)
    (now : option Z) : GcPlan :=
  let ours := List.filter (λ p, bool_decide (is_Some (verify p id Started))) pods in
  let doomed_pods := List.filter terminated ours in
  let doomed_names := omap (m_name ∘ pod_meta) doomed_pods in
  let protected :=
    omap referenced_secret (List.filter (λ p, negb (bool_decide (default "" (m_name (pod_meta p)) ∈ doomed_names))) ours) in
  let secrets0 := omap referenced_secret doomed_pods in
  {| plan_pods := doomed_names;
     plan_secrets := match now with
                     | Some now => sweep_orphans id now protected secrets secrets0
                     | None => secrets0
                     end |}.
