(* ===== verification/KubeDeploy.v ===== *)
(** * Kubernetes backend: the deploy loop and the cluster

    [crates/buzz-backend-kubernetes/src/reconcile.rs], as programs over the
    operations of its [Substrate] trait, [deploy_agent] of [main.rs] around it, and
    the cluster they act on ([cluster.rs]): what the API server answers to each
    operation, what it records, and what the kubelet, the garbage collector of the
    cluster and everyone else may do meanwhile.

    Loops take fuel: they end by a clock, which [KubeSafety.deploy_ends] turns into a
    bound on their turns.  Error texts are left out, the reads that only compose
    them are kept. *)

From stdpp Require Import base gmap strings list.
From Stdlib Require Import ZArith Lia Ascii.
From S2P Require Import Prelude Text Effect Kube.

Local Open Scope list_scope.

(** ** The substrate *)

Inductive CreateOutcome := Created | AlreadyExists.
Inductive DeleteOutcome := Accepted | DeleteNotFound | PreconditionFailed.

(** Why a deploy fails. *)
Inductive DeployError :=
  | ApiFailure
  | StartupNotConfirmed
  | PullFailed (failure : PullFailure)
  | OwnAttemptFailed
  | NotOurs
  | WinnerDeleted
  | WinnerFailed
  | StillTerminating
  | BadKey
  | OutOfFuel.

Inductive Op :=
  | EnsureNamespace (ns : string)
  | ListPods (sel : list (string * string))
  | ListSecrets (sel : list (string * string))
  | SecretExists (name : string)
  | CreateSecret (secret : Secret)
  | CreatePod (pod : Pod)
  | DeletePod (name : string) (fence : Fence)
  | DeleteSecret (name : string)
  | GetPod (name : string)
  | Sleep (duration : Z)
  | Elapsed
  | NewGeneration.

Definition Reply (op : Op) : Type :=
  match op with
  | EnsureNamespace _ | CreateSecret _ | DeleteSecret _ => result DeployError unit
  | ListPods _ => result DeployError (list Pod * option Z)
  | ListSecrets _ => result DeployError (list Secret)
  | SecretExists _ => result DeployError bool
  | CreatePod _ => result DeployError CreateOutcome
  | DeletePod _ _ => result DeployError DeleteOutcome
  | GetPod _ => result DeployError (option Pod)
  | Sleep _ => unit
  | Elapsed => Z
  | NewGeneration => string
  end.

Definition prog (A : Type) : Type := eff Op Reply A.
Definition KE (A : Type) : Type := prog (result DeployError A).
#[export] Instance ke_bind : MBind KE := λ A B f p, try_bind p f.

Definition ok {A} (a : A) : KE A := Pure (Ok a).
Definition fail {A} (e : DeployError) : KE A := Pure (Err e).

(** [p; q] where the outcome of [p] is not looked at. *)
Definition then_ {A B} (p : prog A) (q : KE B) : KE B := eff_bind p (λ _, q).

Definition ensure_namespace (ns : string) : KE unit := Perform (EnsureNamespace ns) Pure.
Definition list_pods (sel : list (string * string)) : KE (list Pod * option Z) := Perform (ListPods sel) Pure.
Definition list_secrets (sel : list (string * string)) : KE (list Secret) := Perform (ListSecrets sel) Pure.
Definition secret_exists (name : string) : KE bool := Perform (SecretExists name) Pure.
Definition create_secret (secret : Secret) : KE unit := Perform (CreateSecret secret) Pure.
Definition create_pod (pod : Pod) : KE CreateOutcome := Perform (CreatePod pod) Pure.
Definition delete_pod (name : string) (fence : Fence) : KE DeleteOutcome := Perform (DeletePod name fence) Pure.
Definition delete_secret (name : string) : KE unit := Perform (DeleteSecret name) Pure.
Definition get_pod (name : string) : KE (option Pod) := Perform (GetPod name) Pure.
Definition sleep (duration : Z) : prog unit := Perform (Sleep duration) Pure.
Definition elapsed : prog Z := Perform Elapsed Pure.
Definition new_generation : prog string := Perform NewGeneration Pure.

(** ** The reconciler *)

Definition NANOS : Z := 1000000000.
Definition POLL_INTERVAL : Z := 2 * NANOS.
Definition DEADLINE : Z := OPERATION_DEADLINE_SECS * NANOS.

Definition settle (pod : Pod) : KE Startup :=
  match decode_startup pod with
  | Resolved s => ok s
  | ConfigErrorPendingSecretCheck secret =>
      exists_ ← secret_exists secret;
      ok (if exists_ : bool then NeverStartedRecoverable else NeverStartedProvablyBroken)
  end.

Definition observe_pod (id : AgentIdentity) : KE (option VerifiedPod) :=
  p ← get_pod (pod_name id);
  match p with
  | None => ok None
  | Some pod => s ← settle pod; ok (verify pod id s)
  end.

(** What it reads is text; that it reads is kept. *)
Definition latest_condition (id : AgentIdentity) : prog unit :=
  eff_bind (get_pod (pod_name id)) (λ _, Pure tt).

Definition fail_with {A} (id : AgentIdentity) (e : DeployError) : KE A := then_ (latest_condition id) (fail e).

Fixpoint settle_all (pods : list Pod) (terminated : list string) : KE (list string) :=
  match pods with
  | [] => ok terminated
  | pod :: rest =>
      s ← settle pod;
      match s, m_name (pod_meta pod) with
      | Terminated, Some name => settle_all rest (terminated ++ [name])
      | _, _ => settle_all rest terminated
      end
  end.

Fixpoint collect_pods (names : list string) : KE unit :=
  match names with
  | [] => ok tt
  | name :: rest =>
      p ← get_pod name;
      match p with
      | None => collect_pods rest
      | Some pod =>
          match m_uid (pod_meta pod), m_resource_version (pod_meta pod) with
          | Some uid, Some rv =>
              s ← settle pod;
              if bool_decide (s = Terminated)
              then then_ (delete_pod name {| f_uid := uid; f_resource_version := rv |}) (collect_pods rest)
              else collect_pods rest
          | _, _ => collect_pods rest
          end
      end
  end.

Fixpoint collect_secrets (names : list string) : KE unit :=
  match names with
  | [] => ok tt
  | name :: rest => then_ (delete_secret name) (collect_secrets rest)
  end.

Definition try_preflight_gc (id : AgentIdentity) : KE unit :=
  listed ← list_pods (selector id);
  secrets ← list_secrets (selector id);
  terminated ← settle_all listed.1 [];
  let plan := plan id listed.1 secrets
    (λ pod, match m_name (pod_meta pod) with Some n => bool_decide (n ∈ terminated) | None => false end) listed.2 in
  _ ← collect_pods (plan_pods plan);
  collect_secrets (plan_secrets plan).

Definition preflight_gc (id : AgentIdentity) : prog unit := eff_bind (try_preflight_gc id) (λ _, Pure tt).

Fixpoint await_disappearance (fuel : nat) (name : string) : KE unit :=
  match fuel with
  | O => fail OutOfFuel
  | S fuel' =>
      eff_bind elapsed (λ t,
        if bool_decide (t < DEADLINE)%Z then
          p ← get_pod name;
          match p with
          | None => ok tt
          | Some _ => then_ (sleep POLL_INTERVAL) (await_disappearance fuel' name)
          end
        else fail StillTerminating)
  end.

Definition secret_is_referenced (id : AgentIdentity) (secret : string) : KE bool :=
  listed ← list_pods (selector id);
  ok (bool_decide (secret ∈ omap referenced_secret listed.1)).

Definition drop_own_secret (id : AgentIdentity) (secret : string) : prog unit :=
  eff_bind (secret_is_referenced id secret) (λ r,
    match r with
    | Ok false => eff_bind (delete_secret secret) (λ _, Pure tt)
    | Ok true => Pure tt
    | Err _ => Pure tt
    end).

Fixpoint await_winner (fuel : nat) (id : AgentIdentity) : KE string :=
  match fuel with
  | O => fail OutOfFuel
  | S fuel' =>
      eff_bind elapsed (λ t,
        if bool_decide (DEADLINE ≤ t)%Z then fail_with id StartupNotConfirmed
        else
          observed ← observe_pod id;
          match observed with
          | Some pod =>
              if bool_decide (startup pod = Started) then ok (vp_name pod)
              else if deletion_marked pod then fail WinnerDeleted
              else if bool_decide (startup pod = Terminated) || bool_decide (startup pod = NeverStartedProvablyBroken)
              then fail_with id WinnerFailed
              else then_ (sleep POLL_INTERVAL) (await_winner fuel' id)
          | None => then_ (sleep POLL_INTERVAL) (await_winner fuel' id)
          end)
  end.

Definition adopt_winner (fuel : nat) (id : AgentIdentity) (own_secret : string) : KE string :=
  p ← get_pod (pod_name id);
  match p with
  | None => then_ (drop_own_secret id own_secret) (await_winner fuel id)
  | Some pod =>
      s ← settle pod;
      match verify pod id s with
      | None => then_ (drop_own_secret id own_secret) (fail NotOurs)
      | Some _ => then_ (drop_own_secret id own_secret) (await_winner fuel id)
      end
  end.

(** One attempt: the Secret, then the Pod that names it. *)
Definition attempt (id : AgentIdentity) (cfg : ProviderConfig) (env : StrMap) (desired : Fingerprint)
    : KE (CreateOutcome * string) :=
  eff_bind new_generation (λ generation,
    _ ← create_secret (build_secret id (namespace cfg) generation (<[START_NONCE_KEY := generation]> env));
    outcome ← create_pod (build_pod id cfg generation desired);
    ok (outcome, secret_name id generation)).

Fixpoint deploy_loop (fuel : nat) (id : AgentIdentity) (cfg : ProviderConfig) (env : StrMap)
    (desired : Fingerprint) (created_this_call : bool) : KE string :=
  match fuel with
  | O => fail OutOfFuel
  | S fuel' =>
      let again := deploy_loop fuel' id cfg env desired in
      eff_bind elapsed (λ t,
        if bool_decide (DEADLINE ≤ t)%Z then fail_with id StartupNotConfirmed
        else
          observed ← observe_pod id;
          match classify observed desired with
          | ANoOp agent_id => ok agent_id
          | AObserve _ => then_ (sleep POLL_INTERVAL) (again created_this_call)
          | AReport _ failure => fail (PullFailed failure)
          | AAwaitDisappearance name => _ ← await_disappearance fuel' name; again created_this_call
          | ADelete name fence =>
              if created_this_call then fail_with id OwnAttemptFailed
              else
                outcome ← delete_pod name fence;
                match outcome with
                | Accepted | DeleteNotFound => _ ← await_disappearance fuel' name; again created_this_call
                | PreconditionFailed => then_ (sleep POLL_INTERVAL) (again created_this_call)
                end
          | ACreate =>
              outcome ← attempt id cfg env desired;
              match outcome.1 with
              | Created => then_ (sleep POLL_INTERVAL) (again true)
              | AlreadyExists => adopt_winner fuel' id outcome.2
              end
          end)
  end.

Definition deploy `{KubeOps} (fuel : nat) (id : AgentIdentity) (cfg : ProviderConfig) (env : StrMap) : KE string :=
  _ ← ensure_namespace (namespace cfg);
  then_ (preflight_gc id)
    (deploy_loop fuel id cfg env (fingerprint (intent_template cfg (map fst (map_to_list env)))) false).

(** [deploy_agent] of [main.rs], after the configuration and the environment. *)
Record DeployRequest := { nsec : string; provider_config : ProviderConfig; env : StrMap; fuel : nat }.

Definition deploy_agent `{KubeOps} (r : DeployRequest) : KE string :=
  match from_nsec (nsec r) with
  | None => fail BadKey
  | Some pk => deploy (fuel r) {| pubkey_hex := pk |} (provider_config r) (env r)
  end.
