(* ===== verification/KubeCluster.v ===== *)
(** * Kubernetes backend: the cluster

    What the API server answers to the operations of a deploy ([cluster.rs]) and
    records, and what everyone else does to the same namespace meanwhile.  The
    history is the list of everything that changed it, each entry with who did it
    and the state it left. *)

From stdpp Require Import base gmap strings list.
From Stdlib Require Import ZArith Lia Ascii.
From S2P Require Import Prelude Text Effect Kube KubeDeploy.

Local Open Scope list_scope.

Record Cluster := { c_pods : gmap string Pod; c_secrets : gmap string Secret; c_time : Z }.

Inductive Event :=
  | EPodCreated (pod : Pod)
  | EPodDeleted (pod : Pod)
  | ESecretCreated (name : string)
  | ESecretDeleted (name : string)
  | EGeneration (generation : string)
  | EOutside.

Record Entry := { e_author : option nat; e_event : Event; e_after : Cluster }.

Definition empty_cluster : Cluster := {| c_pods := ∅; c_secrets := ∅; c_time := 0 |}.
Definition state (h : list Entry) : Cluster := match last h with Some e => e_after e | None => empty_cluster end.

(** ** Objects *)

Definition version (pod : Pod) : option string * option string :=
  (m_uid (pod_meta pod), m_resource_version (pod_meta pod)).

(** A resource version is given to one state of one object, ever. *)
Definition fresh_version (h : list Entry) (pod : Pod) : Prop :=
  ∀ e name old, e ∈ h → c_pods (e_after e) !! name = Some old → version old ≠ version pod.

Definition fresh_uid (h : list Entry) (pod : Pod) : Prop :=
  ∀ e name old, e ∈ h → c_pods (e_after e) !! name = Some old → m_uid (pod_meta old) ≠ m_uid (pod_meta pod).

Definition has_version (pod : Pod) : Prop :=
  is_Some (m_uid (pod_meta pod)) ∧ is_Some (m_resource_version (pod_meta pod)).

(** The parts of an object nobody edits. *)
Definition same_identity (pod pod' : Pod) : Prop :=
  m_name (pod_meta pod') = m_name (pod_meta pod) ∧
  m_labels (pod_meta pod') = m_labels (pod_meta pod) ∧
  m_annotations (pod_meta pod') = m_annotations (pod_meta pod) ∧
  pod_spec pod' = pod_spec pod.

(** What admission makes of a Pod. *)
Definition admitted (h : list Entry) (pod pod' : Pod) : Prop :=
  same_identity pod pod' ∧ has_version pod' ∧ fresh_version h pod' ∧ fresh_uid h pod' ∧
  m_deletion_timestamp (pod_meta pod') = None.

(** A Pod whose restart policy is [Never] does not start again. *)
Definition stays_terminated (pod pod' : Pod) : Prop :=
  (pod_spec pod ≫= restart_policy) = Some RESTART_POLICY →
  decode_startup pod = Resolved Terminated → decode_startup pod' = Resolved Terminated.

Definition updated (h : list Entry) (pod pod' : Pod) : Prop :=
  same_identity pod pod' ∧ m_uid (pod_meta pod') = m_uid (pod_meta pod) ∧ has_version pod' ∧
  fresh_version h pod' ∧ stays_terminated pod pod'.

Definition with_pods (f : gmap string Pod → gmap string Pod) (c : Cluster) : Cluster :=
  {| c_pods := f (c_pods c); c_secrets := c_secrets c; c_time := c_time c |}.
Definition with_secrets (f : gmap string Secret → gmap string Secret) (c : Cluster) : Cluster :=
  {| c_pods := c_pods c; c_secrets := f (c_secrets c); c_time := c_time c |}.

(** The server stamps the creation time. *)
Definition stamped (now : Z) (s : Secret) : Secret := {|
  sec_meta := {| m_name := m_name (sec_meta s); m_namespace := m_namespace (sec_meta s); m_uid := m_uid (sec_meta s);
    m_resource_version := m_resource_version (sec_meta s); m_labels := m_labels (sec_meta s);
    m_annotations := m_annotations (sec_meta s); m_deletion_timestamp := None; m_creation_timestamp := Some now |};
  string_data := string_data s; immutable := immutable s |}.

Definition matches (sel : list (string * string)) (ls : option StrMap) : bool :=
  forallb (λ kv, bool_decide ((default ∅ ls) !! kv.1 = Some kv.2)) sel.

(** A deletion removes the Pod or leaves it terminating. *)
Definition deleted (h : list Entry) (name : string) (pod : Pod) (pods pods' : gmap string Pod) : Prop :=
  pods' = delete name pods ∨
  ∃ pod', updated h pod pod' ∧ is_Some (m_deletion_timestamp (pod_meta pod')) ∧ pods' = <[name := pod']> pods.

(** ** The server *)

Definition entry (i : nat) (ev : Event) (c : Cluster) : Entry := {| e_author := Some i; e_event := ev; e_after := c |}.

(** An operation takes effect and is answered, fails without effect, or takes effect
    and the answer is lost. *)
Inductive effect (i : nat) (h : list Entry) : ∀ op : Op, Reply op → list Entry → Prop :=
  | eff_create_secret secret name :
      m_name (sec_meta secret) = Some name → c_secrets (state h) !! name = None →
      effect i h (CreateSecret secret) (Ok tt)
        [entry i (ESecretCreated name) (with_secrets <[name := stamped (c_time (state h)) secret]> (state h))]
  | eff_create_pod pod pod' name :
      m_name (pod_meta pod) = Some name → c_pods (state h) !! name = None → admitted h pod pod' →
      effect i h (CreatePod pod) (Ok Created) [entry i (EPodCreated pod') (with_pods <[name := pod']> (state h))]
  | eff_delete_pod name fence pod pods' :
      c_pods (state h) !! name = Some pod →
      version pod = (Some (f_uid fence), Some (f_resource_version fence)) →
      deleted h name pod (c_pods (state h)) pods' →
      effect i h (DeletePod name fence) (Ok Accepted) [entry i (EPodDeleted pod) (with_pods (λ _, pods') (state h))]
  | eff_delete_secret name :
      effect i h (DeleteSecret name) (Ok tt) [entry i (ESecretDeleted name) (with_secrets (delete name) (state h))].

Inductive react (i : nat) : ∀ op : Op, list Entry → Reply op → list Entry → Prop :=
  | react_namespace ns h r : react i (EnsureNamespace ns) h r []
  | react_sleep d h r : react i (Sleep d) h r []
  | react_elapsed h r : react i Elapsed h r []
  | react_generation h g :
      String.length g = 8%nat → (∀ e, e ∈ h → e_event e ≠ EGeneration g) →
      react i NewGeneration h g [entry i (EGeneration g) (state h)]
  | react_get_pod name h : react i (GetPod name) h (Ok (c_pods (state h) !! name)) []
  | react_get_pod_err name h : react i (GetPod name) h (Err ApiFailure) []
  | react_secret_exists name h :
      react i (SecretExists name) h (Ok (bool_decide (is_Some (c_secrets (state h) !! name)))) []
  | react_secret_exists_err name h : react i (SecretExists name) h (Err ApiFailure) []
  | react_list_pods sel h pods date :
      (∀ pod, pod ∈ pods ↔ ∃ name, c_pods (state h) !! name = Some pod ∧ matches sel (m_labels (pod_meta pod)) = true) →
      date = None ∨ date = Some (c_time (state h)) →
      react i (ListPods sel) h (Ok (pods, date)) []
  | react_list_pods_err sel h : react i (ListPods sel) h (Err ApiFailure) []
  | react_list_secrets sel h secrets :
      (∀ s, s ∈ secrets ↔ ∃ name, c_secrets (state h) !! name = Some s ∧ matches sel (m_labels (sec_meta s)) = true) →
      react i (ListSecrets sel) h (Ok secrets) []
  | react_list_secrets_err sel h : react i (ListSecrets sel) h (Err ApiFailure) []
  | react_effect op h r l : effect i h op r l → react i op h r l
  | react_create_secret_err secret h : react i (CreateSecret secret) h (Err ApiFailure) []
  | react_create_secret_lost secret h r l : effect i h (CreateSecret secret) r l → react i (CreateSecret secret) h (Err ApiFailure) l
  | react_create_pod_exists pod name h :
      m_name (pod_meta pod) = Some name → is_Some (c_pods (state h) !! name) →
      react i (CreatePod pod) h (Ok AlreadyExists) []
  | react_create_pod_err pod h : react i (CreatePod pod) h (Err ApiFailure) []
  | react_create_pod_lost pod h r l : effect i h (CreatePod pod) r l → react i (CreatePod pod) h (Err ApiFailure) l
  | react_delete_pod_gone name fence h :
      c_pods (state h) !! name = None → react i (DeletePod name fence) h (Ok DeleteNotFound) []
  | react_delete_pod_changed name fence h pod :
      c_pods (state h) !! name = Some pod →
      version pod ≠ (Some (f_uid fence), Some (f_resource_version fence)) →
      react i (DeletePod name fence) h (Ok PreconditionFailed) []
  | react_delete_pod_err name fence h : react i (DeletePod name fence) h (Err ApiFailure) []
  | react_delete_pod_lost name fence h r l :
      effect i h (DeletePod name fence) r l → react i (DeletePod name fence) h (Err ApiFailure) l
  | react_delete_secret_err name h : react i (DeleteSecret name) h (Err ApiFailure) []
  | react_delete_secret_lost name h r l :
      effect i h (DeleteSecret name) r l → react i (DeleteSecret name) h (Err ApiFailure) l.

(** ** Everyone else *)

(** Pods come and go and the kubelet reports on them; time passes; Secrets of others
    come, and any go.  No Pod of others takes its environment from a Secret of an
    attempt. *)
Definition outside (h : list Entry) (e : Entry) : Prop :=
  let c := state h in let c' := e_after e in
  e_author e = None ∧ e_event e = EOutside ∧ (c_time c ≤ c_time c')%Z ∧
  (∀ name pod', c_pods c' !! name = Some pod' → c_pods c !! name = Some pod' ∨
     (∃ pod, c_pods c !! name = Some pod ∧ updated h pod pod') ∨
     (c_pods c !! name = None ∧ m_name (pod_meta pod') = Some name ∧ has_version pod' ∧ fresh_version h pod' ∧
      fresh_uid h pod' ∧ ∀ id g, referenced_secret pod' ≠ Some (secret_name id g))) ∧
  (∀ n1 n2 p1 p2, c_pods c' !! n1 = Some p1 → c_pods c' !! n2 = Some p2 → version p1 = version p2 → n1 = n2) ∧
  (∀ name s, c_secrets c' !! name = Some s → c_secrets c !! name = Some s ∨
     (m_name (sec_meta s) = Some name ∧ ∀ id g, name ≠ secret_name id g)).

(** The deploys of any number of agents in the cluster. *)
Definition deploy_machine `{KubeOps} : Machine Op Reply DeployRequest (result DeployError string) Entry → Prop :=
  machine_reachable react outside deploy_agent.

(** A Pod is created within 1200 seconds of the Secret it takes its environment
    from: twice the deadline of the operation that creates both. *)
Definition prompt (h : list Entry) : Prop :=
  ∀ n m e e' name pod, h !! n = Some e → h !! m = Some e' → (n < m)%nat →
    e_event e = ESecretCreated name → e_event e' = EPodCreated pod → referenced_secret pod = Some name →
    (c_time (e_after e') < c_time (e_after e) + ORPHAN_SECRET_MIN_AGE_SECS)%Z.
