(* ===== verification/KubeHistory.v ===== *)
(** * Kubernetes backend: histories of the cluster

    [good] is the invariant of the history: how the cluster evolves, and what made
    each creation and deletion right.  From it: versions name one state of one Pod,
    one Secret serves at most one Pod, and a Secret that is [spent] stays so; what a
    collection pass finds is spent ([plan_spent]). *)

From stdpp Require Import base gmap strings list.
From Stdlib Require Import ZArith Lia Ascii.
From S2P Require Import Prelude Text Effect Kube KubeDeploy KubeCluster.

Local Open Scope list_scope.

(** ** The invariant *)

(** What any entry may do to the Pods and Secrets there are. *)
Record evolves (h : list Entry) (e : Entry) : Prop := {
  ev_time : (c_time (state h) ≤ c_time (e_after e))%Z;
  ev_pods name pod' : c_pods (e_after e) !! name = Some pod' →
    c_pods (state h) !! name = Some pod' ∨
    (∃ pod, c_pods (state h) !! name = Some pod ∧ updated h pod pod') ∨
    (m_name (pod_meta pod') = Some name ∧ has_version pod' ∧ fresh_version h pod' ∧ fresh_uid h pod' ∧
     (e_event e = EPodCreated pod' ∨ ∀ id g, referenced_secret pod' ≠ Some (secret_name id g)));
  ev_distinct n1 n2 p1 p2 : c_pods (e_after e) !! n1 = Some p1 → c_pods (e_after e) !! n2 = Some p2 →
    version p1 = version p2 → n1 = n2;
  ev_secrets name s : c_secrets (e_after e) !! name = Some s →
    c_secrets (state h) !! name = Some s ∨ e_event e = ESecretCreated name ∨
    (m_name (sec_meta s) = Some name ∧ ∀ id g, name ≠ secret_name id g);
}.

(** The attempt an object is of. *)
Definition secret_of (s : Secret) (id : AgentIdentity) (g : string) (now : Z) : Prop :=
  ∃ ns env, s = stamped now (build_secret id ns g env).
Definition pod_of (pod : Pod) (id : AgentIdentity) (g : string) : Prop :=
  ∃ cfg fp, same_identity (build_pod id cfg g fp) pod.

Definition secret_created (h : list Entry) (name : string) (j : option nat) (id : AgentIdentity) (g : string) (now : Z) : Prop :=
  ∃ e s, e ∈ h ∧ e_event e = ESecretCreated name ∧ e_author e = j ∧ name = secret_name id g ∧
    c_time (e_after e) = now ∧ c_secrets (e_after e) !! name = Some s ∧ secret_of s id g now.

Definition pod_created (h : list Entry) (name : string) : Prop :=
  ∃ e pod, e ∈ h ∧ e_event e = EPodCreated pod ∧ referenced_secret pod = Some name.

Definition not_running (pod : Pod) : Prop := decode_startup pod ≠ Resolved Started.

(** Every Pod that takes its environment from the Secret has terminated. *)
Definition harmless (c : Cluster) (name : string) : Prop :=
  ∀ n pod, c_pods c !! n = Some pod → referenced_secret pod = Some name → decode_startup pod = Resolved Terminated.

(** No Pod will be created on the Secret any more. *)
Definition used_or_aged (h : list Entry) (name : string) : Prop :=
  pod_created h name ∨ ∃ j id g now,
    secret_created h name j id g now ∧ (now + ORPHAN_SECRET_MIN_AGE_SECS ≤ c_time (state h))%Z.

Definition event_ok (h : list Entry) (e : Entry) : Prop :=
  match e_event e with
  | EGeneration g => String.length g = 8%nat ∧ ∀ e', e' ∈ h → e_event e' ≠ EGeneration g
  | ESecretCreated name => ∃ id g s,
      name = secret_name id g ∧ (∃ eg, eg ∈ h ∧ e_event eg = EGeneration g ∧ e_author eg = e_author e) ∧
      (∀ e', e' ∈ h → e_event e' ≠ ESecretCreated name) ∧
      c_secrets (e_after e) !! name = Some s ∧ secret_of s id g (c_time (e_after e))
  | EPodCreated pod => ∃ id g now,
      pod_of pod id g ∧ secret_created h (secret_name id g) (e_author e) id g now ∧
      (∃ n, c_pods (e_after e) !! n = Some pod) ∧
      ¬ pod_created h (secret_name id g) ∧ (∀ e', e' ∈ h → e_event e' ≠ ESecretDeleted (secret_name id g))
  | EPodDeleted pod => (∃ name, c_pods (state h) !! name = Some pod) ∧ not_running pod ∧
      (decode_startup pod = Resolved Terminated ∨ ∃ id, is_Some (verify pod id Started))
  | ESecretDeleted name => ∀ id g, name = secret_name id g →
      harmless (state h) name ∧
      (used_or_aged h name ∨ ∃ id' g' now, secret_created h name (e_author e) id' g' now)
  | EOutside => True
  end.

Inductive good : list Entry → Prop :=
  | good_nil : good []
  | good_snoc h e : good h → evolves h e → event_ok h e → good (h ++ [e]).

Lemma history_snoc_inv h e : good (h ++ [e]) → good h ∧ evolves h e ∧ event_ok h e.
Proof.
  inversion 1 as [Hn|h' e' Hg He Hev Heq]; [by destruct h|].
  by apply app_inj_2 in Heq as [-> [= ->]].
Qed.

Lemma history_app h l : good (h ++ l) → good h.
Proof.
  induction l as [|a l IH] using rev_ind; [by rewrite app_nil_r|]. rewrite app_assoc.
  intros [H _]%history_snoc_inv. auto.
Qed.

Lemma state_snoc h e : state (h ++ [e]) = e_after e.
Proof. unfold state. by rewrite last_snoc. Qed.

Lemma prompt_app h l : prompt (h ++ l) → prompt h.
Proof.
  intros H n m e e' name pod Hn Hm. apply H; by apply lookup_app_l_Some.
Qed.

(** ** The evolution of the cluster *)

Lemma good_meta h name pod :
  good h → c_pods (state h) !! name = Some pod → m_name (pod_meta pod) = Some name ∧ has_version pod.
Proof.
  intros Hg. revert name pod. induction Hg as [|h e Hg IH He Hev]; intros name pod; [done|].
  rewrite state_snoc. intros Hp.
  destruct (ev_pods _ _ He _ _ Hp) as [Ho|[(p0 & Ho & (Hn & _) & _ & Hv & _)|(Hn & Hv & _)]].
  - by apply IH.
  - split; [|done]. rewrite Hn. by apply (IH name p0).
  - done.
Qed.

Lemma good_time h l : good (h ++ l) → (c_time (state h) ≤ c_time (state (h ++ l)))%Z.
Proof.
  induction l as [|e l IH] using rev_ind; [by rewrite app_nil_r|]. rewrite app_assoc.
  intros (Hg & He & _)%history_snoc_inv. rewrite state_snoc. pose proof (ev_time _ _ He). specialize (IH Hg). lia.
Qed.

(** The state at an earlier moment. *)
Lemma state_elem h name pod :
  c_pods (state h) !! name = Some pod → ∃ e, e ∈ h ∧ c_pods (e_after e) !! name = Some pod.
Proof.
  induction h as [|e h _] using rev_ind; [done|]. rewrite state_snoc. intros H. exists e. split; [set_solver|done].
Qed.

(** A resource version is of one state of one object. *)
Lemma good_version h l name1 name2 p1 p2 :
  good (h ++ l) → c_pods (state h) !! name1 = Some p1 → c_pods (state (h ++ l)) !! name2 = Some p2 →
  version p1 = version p2 → name1 = name2 ∧ p1 = p2.
Proof.
  revert name2 p2. induction l as [|e l IH] using rev_ind; intros name2 p2.
  - rewrite app_nil_r. intros Hg H1 H2 Hv. assert (name1 = name2) as Hn.
    { destruct h as [|e h _] using rev_ind; [discriminate H1|]. rewrite state_snoc in H1, H2.
      apply history_snoc_inv in Hg as (_ & He & _). by apply (ev_distinct _ _ He _ _ p1 p2). }
    split; [done|]. subst name2. congruence.
  - rewrite app_assoc. intros (Hg & He & _)%history_snoc_inv H1. rewrite state_snoc. intros H2 Hv.
    assert (∀ p, fresh_version (h ++ l) p → version p1 ≠ version p) as Hf.
    { intros p Hf. destruct (state_elem _ _ _ H1) as (e' & He' & Hp'). apply (Hf e' name1); [set_solver|done]. }
    destruct (ev_pods _ _ He _ _ H2) as [Ho|[(p0 & Ho & _ & _ & _ & Hfr & _)|(_ & _ & Hfr & _)]].
    + by apply (IH name2 p2).
    + by destruct (Hf p2 Hfr).
    + by destruct (Hf p2 Hfr).
Qed.

Lemma same_identity_refl p : same_identity p p.
Proof. done. Qed.
Lemma same_identity_trans p q r : same_identity p q → same_identity q r → same_identity p r.
Proof. intros (?&?&?&?) (?&?&?&?). split_and!; congruence. Qed.
Lemma same_identity_secret p q : same_identity p q → referenced_secret q = referenced_secret p.
Proof. intros (_ & _ & _ & H). unfold referenced_secret. by rewrite H. Qed.

(** An object that is there now and was seen before was there all the time. *)
Lemma trace_back h l name pod e n0 old :
  good (h ++ l) → c_pods (state (h ++ l)) !! name = Some pod →
  e ∈ h → c_pods (e_after e) !! n0 = Some old → m_uid (pod_meta old) = m_uid (pod_meta pod) →
  ∃ pod0, c_pods (state h) !! name = Some pod0 ∧ m_uid (pod_meta pod0) = m_uid (pod_meta pod) ∧
    same_identity pod0 pod ∧ stays_terminated pod0 pod.
Proof.
  revert name pod. induction l as [|e' l IH] using rev_ind; intros name pod.
  - rewrite app_nil_r. intros _ Hp _ _ _. exists pod. split_and!; [done..|by intros _ ?].
  - rewrite app_assoc. intros (Hg & He & _)%history_snoc_inv. rewrite state_snoc. intros Hp Hin Hold Huid.
    destruct (ev_pods _ _ He _ _ Hp) as [Ho|[(p0 & Ho & Hs & Hu & _ & _ & Hst)|(_ & _ & _ & Hf & _)]].
    + by apply IH.
    + destruct (IH name p0 Hg Ho Hin Hold) as (p1 & H1 & Hu1 & Hs1 & Hst1); [congruence|].
      exists p1. split_and!; [done|congruence|by apply (same_identity_trans _ p0)|].
      intros Hpol Ht. apply Hst; [|by apply Hst1]. destruct Hs1 as (_ & _ & _ & Hspec). by rewrite Hspec.
    + destruct (Hf e n0 old); [set_solver|done|done].
Qed.

(** A Pod on the Secret of an attempt is one a deploy created. *)
Lemma created_by_deploy h name pod id g :
  good h → c_pods (state h) !! name = Some pod → referenced_secret pod = Some (secret_name id g) →
  ∃ e pod0 n0, e ∈ h ∧ e_event e = EPodCreated pod0 ∧ c_pods (e_after e) !! n0 = Some pod0 ∧
    m_uid (pod_meta pod0) = m_uid (pod_meta pod) ∧ same_identity pod0 pod.
Proof.
  intros Hg. revert name pod. induction Hg as [|h e Hg IH He Hev]; intros name pod; [done|].
  rewrite state_snoc. intros Hp Hr.
  destruct (ev_pods _ _ He _ _ Hp) as [Ho|[(p0 & Ho & Hs & Hu & _)|(_ & _ & _ & _ & [Hc|Hn])]].
  - destruct (IH _ _ Ho Hr) as (e' & pod0 & n0 & ? & ?). exists e', pod0, n0. split; [set_solver|done].
  - rewrite (same_identity_secret _ _ Hs) in Hr.
    destruct (IH _ _ Ho Hr) as (e' & pod0 & n0 & ? & ? & ? & ? & ?). exists e', pod0, n0.
    split_and!; [set_solver|done|done|congruence|by apply (same_identity_trans _ p0)].
  - exists e, pod, name. split_and!; [set_solver|done..].
  - by destruct (Hn id g).
Qed.

Lemma good_event h e : good h → e ∈ h → ∃ h1 h2, h = h1 ++ e :: h2 ∧ good h1 ∧ event_ok h1 e.
Proof.
  intros Hg (h1 & h2 & ->)%list_elem_of_split. exists h1, h2. split; [done|].
  replace (h1 ++ e :: h2) with ((h1 ++ [e]) ++ h2) in Hg by by rewrite <-app_assoc.
  apply history_app, history_snoc_inv in Hg. naive_solver.
Qed.

Lemma good_lookup h n e : good h → h !! n = Some e → good (take n h) ∧ event_ok (take n h) e.
Proof.
  intros Hg Hn. pose proof (take_S_r _ _ _ Hn) as Ht. rewrite <-(take_drop (S n) h), Ht in Hg.
  apply history_app, history_snoc_inv in Hg. naive_solver.
Qed.

(** What can happen once has happened in one entry. *)
Lemma unique_event (P : Event → Prop) h e1 e2 :
  (∀ h e e', good h → event_ok h e → P (e_event e) → e' ∈ h → ¬ P (e_event e')) →
  good h → e1 ∈ h → e2 ∈ h → P (e_event e1) → P (e_event e2) → e1 = e2.
Proof.
  intros Honce Hg. induction Hg as [|h e Hg IH He Hev]; [set_solver|].
  intros [H1|H1]%elem_of_app [H2|H2]%elem_of_app HP1 HP2.
  - by apply IH.
  - apply list_elem_of_singleton in H2 as ->. by destruct (Honce h e e1).
  - apply list_elem_of_singleton in H1 as ->. by destruct (Honce h e e2).
  - apply list_elem_of_singleton in H1 as ->. by apply list_elem_of_singleton in H2 as ->.
Qed.

Lemma unique_secret h e1 e2 name :
  good h → e1 ∈ h → e2 ∈ h → e_event e1 = ESecretCreated name → e_event e2 = ESecretCreated name → e1 = e2.
Proof.
  apply (unique_event (λ ev, ev = ESecretCreated name)). intros h' e e' _ Hev Hn Hin. unfold event_ok in Hev.
  rewrite Hn in Hev. destruct Hev as (? & ? & ? & _ & _ & H & _). by apply H.
Qed.

Lemma unique_generation h e1 e2 g :
  good h → e1 ∈ h → e2 ∈ h → e_event e1 = EGeneration g → e_event e2 = EGeneration g → e1 = e2.
Proof.
  apply (unique_event (λ ev, ev = EGeneration g)). intros h' e e' _ Hev Hn Hin. unfold event_ok in Hev.
  rewrite Hn in Hev. destruct Hev as (_ & H). by apply H.
Qed.

(** *** The objects of attempts *)

Lemma pod_of_secret pod id g : pod_of pod id g → referenced_secret pod = Some (secret_name id g).
Proof. intros (cfg & fp & Hs). by rewrite (same_identity_secret _ _ Hs). Qed.

Lemma pod_of_same pod pod' id g : pod_of pod id g → same_identity pod pod' → pod_of pod' id g.
Proof. intros (cfg & fp & Hs) H. exists cfg, fp. by eapply same_identity_trans. Qed.

Lemma pod_of_policy pod id g : pod_of pod id g → (pod_spec pod ≫= restart_policy) = Some RESTART_POLICY.
Proof. intros (cfg & fp & _ & _ & _ & ->). done. Qed.

Lemma pod_of_name pod id g : pod_of pod id g → m_name (pod_meta pod) = Some (pod_name id).
Proof. by intros (cfg & fp & -> & _). Qed.

Lemma unique_pod h e1 e2 p1 p2 id g :
  good h → e1 ∈ h → e2 ∈ h → e_event e1 = EPodCreated p1 → e_event e2 = EPodCreated p2 →
  referenced_secret p1 = Some (secret_name id g) → referenced_secret p2 = Some (secret_name id g) → e1 = e2.
Proof.
  intros Hg H1 H2 He1 He2 Hr1 Hr2.
  eapply (unique_event (λ ev, ∃ p, ev = EPodCreated p ∧ referenced_secret p = Some (secret_name id g)));
    [|done..|by exists p1|by exists p2].
  intros h' e e' _ Hev (p & Hp & Hr) Hin (p' & Hp' & Hr'). unfold event_ok in Hev. rewrite Hp in Hev.
  destruct Hev as (id' & g' & now & Hof & _ & _ & Hno & _). apply Hno. exists e', p'. split_and!; [done..|].
  rewrite (pod_of_secret _ _ _ Hof) in Hr. congruence.
Qed.

Lemma pod_created_event h e pod :
  good h → e ∈ h → e_event e = EPodCreated pod → ∃ id g now h1 h2,
    h = h1 ++ e :: h2 ∧ good h1 ∧ pod_of pod id g ∧ secret_created h1 (secret_name id g) (e_author e) id g now ∧
    ¬ pod_created h1 (secret_name id g) ∧ (∀ e', e' ∈ h1 → e_event e' ≠ ESecretDeleted (secret_name id g)).
Proof.
  intros Hg Hin Hev. destruct (good_event _ _ Hg Hin) as (h1 & h2 & Hh & Hg1 & Hok). unfold event_ok in Hok.
  rewrite Hev in Hok. destruct Hok as (id & g & now & ? & ? & _ & ? & ?). by exists id, g, now, h1, h2.
Qed.

Lemma secret_created_app h l name j id g now : secret_created h name j id g now → secret_created (h ++ l) name j id g now.
Proof. intros (e & s & Hin & H). exists e, s. split; [set_solver|done]. Qed.

Lemma pod_created_app h l name : pod_created h name → pod_created (h ++ l) name.
Proof. intros (e & pod & Hin & H). exists e, pod. split; [set_solver|done]. Qed.

Lemma secret_of_annotation s id g now :
  secret_of s id g now → m_annotations (sec_meta s) ≫= (!!) ANNOTATION_PUBKEY_FULL = Some (pubkey_hex id).
Proof. intros (ns & env & ->). simpl. apply lookup_singleton_eq. Qed.

Lemma secret_of_id s g g' id id' now now' : secret_of s id g now → secret_of s id' g' now' → id = id'.
Proof.
  intros H%secret_of_annotation H'%secret_of_annotation. destruct id, id'. simpl in *. congruence.
Qed.

(** One Secret name is of one attempt. *)
Lemma secret_created_unique h name j id g now j' id' g' now' :
  good h → secret_created h name j id g now → secret_created h name j' id' g' now' → j = j' ∧ id = id' ∧ now = now'.
Proof.
  intros Hg (e & s & Hin & Hev & <- & _ & <- & Hs & Hof) (e' & s' & Hin' & Hev' & <- & _ & <- & Hs' & Hof').
  pose proof (unique_secret _ _ _ _ Hg Hin Hin' Hev Hev') as <-. split_and!; [done| |done].
  apply (secret_of_id s g g' id id' (c_time (e_after e)) (c_time (e_after e))); [done|]. congruence.
Qed.

(** Who created a Pod that takes its environment from the Secret of an attempt. *)
Lemma created_by h name pod id g :
  good h → c_pods (state h) !! name = Some pod → referenced_secret pod = Some (secret_name id g) →
  ∃ e pod0 n0 id' g' now h1 h2, h = h1 ++ e :: h2 ∧ good h1 ∧ e_event e = EPodCreated pod0 ∧
    c_pods (e_after e) !! n0 = Some pod0 ∧ m_uid (pod_meta pod0) = m_uid (pod_meta pod) ∧ same_identity pod0 pod ∧
    pod_of pod id' g' ∧ secret_name id' g' = secret_name id g ∧
    secret_created h1 (secret_name id g) (e_author e) id' g' now.
Proof.
  intros Hg Hp Hr. destruct (created_by_deploy _ _ _ _ _ Hg Hp Hr) as (e & pod0 & n0 & Hin & Hev & Hn0 & Hu & Hs).
  destruct (pod_created_event _ _ _ Hg Hin Hev) as (id' & g' & now & h1 & h2 & Hh & Hg1 & Hof & Hsc & _ & _).
  pose proof (pod_of_same _ _ _ _ Hof Hs) as Hof'.
  assert (secret_name id' g' = secret_name id g) as Hn by (pose proof (pod_of_secret _ _ _ Hof'); congruence).
  rewrite Hn in Hsc. exists e, pod0, n0, id', g', now, h1, h2. by split_and!.
Qed.

Lemma created_by_created h name pod id g :
  good h → c_pods (state h) !! name = Some pod → referenced_secret pod = Some (secret_name id g) →
  pod_created h (secret_name id g).
Proof.
  intros Hg Hp Hr. destruct (created_by_deploy _ _ _ _ _ Hg Hp Hr) as (e & pod0 & n0 & Hin & Hev & _ & _ & Hs).
  exists e, pod0. split_and!; [done..|]. by rewrite <-(same_identity_secret _ _ Hs).
Qed.

(** At most one Pod takes its environment from the Secret of an attempt. *)
Lemma one_pod_per_secret h n1 n2 p1 p2 id g :
  good h → c_pods (state h) !! n1 = Some p1 → c_pods (state h) !! n2 = Some p2 →
  referenced_secret p1 = Some (secret_name id g) → referenced_secret p2 = Some (secret_name id g) → n1 = n2 ∧ p1 = p2.
Proof.
  intros Hg H1 H2 Hr1 Hr2.
  destruct (created_by_deploy _ _ _ _ _ Hg H1 Hr1) as (e1 & q1 & m1 & Hin1 & Hev1 & _ & _ & Hs1).
  destruct (created_by_deploy _ _ _ _ _ Hg H2 Hr2) as (e2 & q2 & m2 & Hin2 & Hev2 & _ & _ & Hs2).
  assert (e1 = e2) as <-.
  { apply (unique_pod h e1 e2 q1 q2 id g); [done..| |].
    - by rewrite <-(same_identity_secret _ _ Hs1).
    - by rewrite <-(same_identity_secret _ _ Hs2). }
  rewrite Hev1 in Hev2. injection Hev2 as <-.
  destruct (good_meta _ _ _ Hg H1) as [Hm1 _]. destruct (good_meta _ _ _ Hg H2) as [Hm2 _].
  destruct Hs1 as [Hs1 _], Hs2 as [Hs2 _]. assert (n1 = n2) as <- by congruence. split; [done|congruence].
Qed.

(** The Secrets of attempts are theirs. *)
Lemma good_secret h name s :
  good h → c_secrets (state h) !! name = Some s → m_name (sec_meta s) = Some name ∧
    ((∀ id g, name ≠ secret_name id g) ∨ ∃ j id g now, name = secret_name id g ∧ secret_created h name j id g now ∧ secret_of s id g now).
Proof.
  intros Hg. revert name s. induction Hg as [|h e Hg IH He Hev]; intros name s; [discriminate|].
  rewrite state_snoc. intros Hs. destruct (ev_secrets _ _ He _ _ Hs) as [Ho|[Hc|[Hn Hno]]].
  - destruct (IH _ _ Ho) as [Hn [Hno|(j & id & g & now & Hna & Hsc & Hof)]]; split; [done|by left|done|].
    right. exists j, id, g, now. split_and!; [done|by apply secret_created_app|done].
  - unfold event_ok in Hev. rewrite Hc in Hev. destruct Hev as (id & g & s' & -> & _ & _ & Hs' & Hof).
    assert (s' = s) as -> by congruence. split; [by destruct Hof as (ns & env & ->)|].
    right. exists (e_author e), id, g, (c_time (e_after e)). split_and!; [done| |done].
    exists e, s. split_and!; [set_solver|done..].
  - split; [done|by left].
Qed.

(** *** Secrets that are no longer needed *)

(** No Pod was or will be created on a Secret that is too old by now. *)
Lemma aged_not_created h e pod name j id g now :
  evolves h e → prompt (h ++ [e]) → secret_created h name j id g now →
  (now + ORPHAN_SECRET_MIN_AGE_SECS ≤ c_time (state h))%Z → e_event e = EPodCreated pod →
  referenced_secret pod ≠ Some name.
Proof.
  intros He Hp (e0 & s & Hin & Hev & _ & _ & <- & _) Hold Hc Hr.
  apply list_elem_of_lookup in Hin as [n Hn]. pose proof (lookup_lt_Some _ _ _ Hn).
  pose proof (Hp n (length h) e0 e name pod) as H1. pose proof (ev_time _ _ He).
  rewrite (lookup_app_l _ [e]) in H1 by done. specialize (H1 Hn).
  rewrite list_lookup_middle in H1 by done. specialize (H1 eq_refl). specialize (H1 ltac:(done) Hev Hc Hr). lia.
Qed.

Definition spent (h : list Entry) (name : string) : Prop :=
  ∀ id g, name = secret_name id g → harmless (state h) name ∧ used_or_aged h name.

Lemma spent_snoc h e name : good (h ++ [e]) → prompt (h ++ [e]) → spent h name → spent (h ++ [e]) name.
Proof.
  intros Hg' Hp Hs id g Hn. destruct (Hs _ _ Hn) as [Hh Hu]. pose proof Hg' as (Hg & He & Hev)%history_snoc_inv. split.
  - intros n pod. rewrite state_snoc. intros Hpod Hr.
    destruct (ev_pods _ _ He _ _ Hpod) as [Ho|[(p0 & Ho & Hid & _ & _ & _ & Hst)|(_ & _ & _ & _ & [Hc|Hno])]].
    + by apply (Hh n).
    + rewrite (same_identity_secret _ _ Hid) in Hr. apply Hst; [|by apply (Hh n)]. subst name.
      destruct (created_by _ _ _ _ _ Hg Ho Hr) as (? & ? & ? & ? & ? & ? & ? & ? & ? & ? & ? & ? & ? & ? & Hof & _).
      by eapply pod_of_policy.
    + exfalso. destruct Hu as [Hpc|(j & id' & g' & now & Hsc & Hold)].
      * unfold event_ok in Hev. rewrite Hc in Hev. destruct Hev as (id' & g' & now & Hof & _ & _ & Hno & _).
        apply Hno. rewrite (pod_of_secret _ _ _ Hof) in Hr. by injection Hr as ->.
      * by apply (aged_not_created h e pod name j id' g' now).
    + subst name. by destruct (Hno id g).
  - destruct Hu as [Hpc|(j & id' & g' & now & Hsc & Hold)]; [left; by apply pod_created_app|].
    right. exists j, id', g', now. split; [by apply secret_created_app|]. rewrite state_snoc.
    pose proof (ev_time _ _ He). lia.
Qed.

Lemma spent_app h l name : good (h ++ l) → prompt (h ++ l) → spent h name → spent (h ++ l) name.
Proof.
  induction l as [|e l IH] using rev_ind; [by rewrite app_nil_r|]. rewrite app_assoc. intros Hg Hp Hs.
  apply spent_snoc; [done..|]. apply IH; [by eapply history_app|by eapply prompt_app|done].
Qed.

(** A Secret an attempt deleted serves no Pod that has not terminated. *)
Lemma deleted_secret_unneeded h e name pod id g :
  good h → prompt h → e ∈ h → e_event e = ESecretDeleted (secret_name id g) →
  c_pods (state h) !! name = Some pod → referenced_secret pod = Some (secret_name id g) →
  decode_startup pod = Resolved Terminated.
Proof.
  intros Hg Hp Hin Hev Hpod Hr. destruct (list_elem_of_lookup_1 _ _ Hin) as [n Hn].
  destruct (good_lookup _ _ _ Hg Hn) as [Hg1 Hok]. unfold event_ok in Hok. rewrite Hev in Hok.
  destruct (Hok id g eq_refl) as [Hharm _].
  destruct (created_by_deploy _ _ _ _ _ Hg Hpod Hr) as (e0 & pod0 & n0 & Hin0 & Hev0 & _ & _ & Hs).
  rewrite (same_identity_secret _ _ Hs) in Hr.
  destruct (list_elem_of_lookup_1 _ _ Hin0) as [m Hm]. destruct (good_lookup _ _ _ Hg Hm) as [_ Hok0].
  unfold event_ok in Hok0. rewrite Hev0 in Hok0. destruct Hok0 as (id0 & g0 & now & Hof & _ & _ & _ & Hnd).
  assert (secret_name id0 g0 = secret_name id g) as Hname by (pose proof (pod_of_secret _ _ _ Hof); congruence).
  rewrite Hname in Hnd. destruct (decide (m < n)%nat) as [Hlt|Hge].
  - assert (spent (take n h) (secret_name id g)) as Hspent.
    { intros id' g' _. split; [done|]. left. exists e0, pod0. split_and!; [|done..].
      apply list_elem_of_lookup. exists m. by rewrite lookup_take_lt. }
    rewrite <-(take_drop n h) in Hg, Hp. pose proof (spent_app _ _ _ Hg Hp Hspent) as Hsp.
    rewrite take_drop in Hsp. destruct (Hsp id g eq_refl) as [Hh _]. apply (Hh name); [done|].
    by rewrite (same_identity_secret _ _ Hs).
  - exfalso. destruct (decide (m = n)) as [->|Hne]; [congruence|]. apply (Hnd e); [|done].
    apply list_elem_of_lookup. exists n. rewrite lookup_take_lt; [done|lia].
Qed.

(** ** What a collection pass finds *)

Lemma sweep_orphans_elem id now protected secrets doomed name :
  name ∈ sweep_orphans id now protected secrets doomed → name ∈ doomed ∨
    ∃ s created, s ∈ secrets ∧ secret_is_ours s id = true ∧ m_name (sec_meta s) = Some name ∧
      name ∉ protected ∧ name ∉ doomed ∧ m_creation_timestamp (sec_meta s) = Some created ∧
      (created + ORPHAN_SECRET_MIN_AGE_SECS ≤ now)%Z.
Proof.
  revert doomed. induction secrets as [|s rest IH]; simpl; intros doomed; [by left|].
  assert (∀ d, (name ∈ d → name ∈ doomed ∨ m_name (sec_meta s) = Some name) → doomed ⊆ d →
    name ∈ sweep_orphans id now protected rest d → (m_name (sec_meta s) = Some name ∧ name ∈ d) ∨ name ∈ doomed ∨
    ∃ s' created, s' ∈ s :: rest ∧ secret_is_ours s' id = true ∧ m_name (sec_meta s') = Some name ∧
      name ∉ protected ∧ name ∉ doomed ∧ m_creation_timestamp (sec_meta s') = Some created ∧
      (created + ORPHAN_SECRET_MIN_AGE_SECS ≤ now)%Z) as Hgen.
  { intros d Hd Hsub [H|(s' & c & H1 & H2 & H3 & H4 & H5 & H6 & H7)]%IH.
    - destruct (Hd H); [by right; left|by left].
    - right. right. exists s', c. split_and!; [set_solver|done..|set_solver|done|done]. }
  assert (name ∈ sweep_orphans id now protected rest doomed → name ∈ doomed ∨
    ∃ s' created, s' ∈ s :: rest ∧ secret_is_ours s' id = true ∧ m_name (sec_meta s') = Some name ∧
      name ∉ protected ∧ name ∉ doomed ∧ m_creation_timestamp (sec_meta s') = Some created ∧
      (created + ORPHAN_SECRET_MIN_AGE_SECS ≤ now)%Z) as Hskip.
  { intros H. destruct (Hgen doomed) as [[_ ?]|?]; auto. }
  destruct (secret_is_ours s id) eqn:Hours; simpl; [|done].
  destruct (m_name (sec_meta s)) as [n|] eqn:Hn; [|done].
  do 2 (case_bool_decide; simpl; [done|]).
  destruct (m_creation_timestamp (sec_meta s)) as [c|] eqn:Hc; [|done].
  case_bool_decide as Hage; [|done]. intros Hin.
  destruct (Hgen (doomed ++ [n])) as [[Hnn _]|?]; [set_solver|set_solver|done| |done].
  injection Hnn as ->. right. exists s, c. split_and!; [set_solver|done..|lia].
Qed.

Lemma annotation_matches_annotation a id pk :
  a ≫= (!!) ANNOTATION_PUBKEY_FULL = Some pk → annotation_matches a id = true → pk = pubkey_hex id.
Proof. unfold annotation_matches. intros ->. by intros ?%bool_decide_eq_true. Qed.

Lemma built_pod_ours pod name id g :
  pod_of pod id g → m_name (pod_meta pod) = Some name → has_version pod →
  is_Some (verify pod id Started) ∧ matches (selector id) (m_labels (pod_meta pod)) = true.
Proof.
  intros (cfg & fp & Hn & Hl & Ha & _) Hname [[uid Hu] [rv Hrv]]. unfold verify, annotation_matches.
  rewrite Hl, Ha. split; [|simpl; by rewrite !bool_decide_eq_true_2].
  simpl m_labels. replace (has_marker (Some (labels id))) with true by (simpl; by rewrite !bool_decide_eq_true_2).
  replace (m_annotations (pod_meta (build_pod id cfg g fp)) ≫= (!!) ANNOTATION_PUBKEY_FULL)
    with (Some (pubkey_hex id)) by (symmetry; apply lookup_insert_eq).
  rewrite bool_decide_eq_true_2 by done. cbn [negb]. rewrite Hname, Hu, Hrv. simpl. by eexists.
Qed.

Section listing.
Context (h0 l : list Entry) (id : AgentIdentity) (pods : list Pod) (secrets : list Secret).
Context (terminated : Pod → bool) (date : option Z).
Hypothesis Hgood : good (h0 ++ l).
Hypothesis Hprompt : prompt (h0 ++ l).
Hypothesis Hpods : ∀ pod, pod ∈ pods ↔
  ∃ name, c_pods (state h0) !! name = Some pod ∧ matches (selector id) (m_labels (pod_meta pod)) = true.
Hypothesis Hsecrets : ∀ s, s ∈ secrets →
  ∃ name, c_secrets (state (h0 ++ l)) !! name = Some s.
Hypothesis Hterminated : ∀ pod, terminated pod = true →
  ∃ pod', pod' ∈ pods ∧ m_name (pod_meta pod') = m_name (pod_meta pod) ∧ decode_startup pod' = Resolved Terminated.
Hypothesis Hdate : date = None ∨ date = Some (c_time (state h0)).

Lemma listed_name p1 p2 name :
  p1 ∈ pods → p2 ∈ pods → m_name (pod_meta p1) = Some name → m_name (pod_meta p2) = Some name → p1 = p2.
Proof.
  intros (n1 & H1 & _)%Hpods (n2 & H2 & _)%Hpods Hn1 Hn2. pose proof (history_app _ _ Hgood) as Hg.
  destruct (good_meta _ _ _ Hg H1) as [Hm1 _]. destruct (good_meta _ _ _ Hg H2) as [Hm2 _]. congruence.
Qed.

Lemma listed_terminated pod : pod ∈ pods → terminated pod = true → decode_startup pod = Resolved Terminated.
Proof.
  intros Hin (pod' & Hin' & Hn & Hd)%Hterminated.
  pose proof (proj1 (Hpods _) Hin) as (name & Hp & _).
  destruct (good_meta _ _ _ (history_app _ _ Hgood) Hp) as [Hm _].
  rewrite (listed_name pod pod' name); [done..|congruence].
Qed.

(** The Secret of a terminated Pod. *)
Lemma doomed_spent pod name :
  pod ∈ pods → terminated pod = true → referenced_secret pod = Some name → spent (h0 ++ l) name.
Proof.
  intros Hin Ht Hr. pose proof (listed_terminated _ Hin Ht) as Hd. apply spent_app; [done..|].
  pose proof (proj1 (Hpods _) Hin) as (n & Hp & _). pose proof (history_app _ _ Hgood) as Hg.
  intros id' g' ->. split.
  - intros n' pod' Hp' Hr'. by destruct (one_pod_per_secret _ _ _ _ _ _ _ Hg Hp Hp' Hr Hr') as [_ <-].
  - left. by eapply created_by_created.
Qed.

(** A Secret nobody listed needs, too old to be needed by anyone later. *)
Lemma orphan_spent s name now created :
  date = Some now → s ∈ secrets → secret_is_ours s id = true → m_name (sec_meta s) = Some name →
  m_creation_timestamp (sec_meta s) = Some created → (created + ORPHAN_SECRET_MIN_AGE_SECS ≤ now)%Z →
  (∀ pod, pod ∈ pods → is_Some (verify pod id Started) → referenced_secret pod ≠ Some name) →
  spent (h0 ++ l) name.
Proof.
  intros -> Hin Hours Hname Hc Hage Hno id1 g1 ->.
  assert (now = c_time (state h0)) as -> by (destruct Hdate; [done|congruence]).
  destruct (Hsecrets _ Hin) as [n Hs]. destruct (good_secret _ _ _ Hgood Hs) as [Hn Hshape].
  assert (n = secret_name id1 g1) as -> by congruence.
  destruct Hshape as [Hno'|(j & id2 & g2 & now2 & Heq & Hsc & Hof)]; [by destruct (Hno' id1 g1)|].
  apply andb_prop in Hours as [_ Hann].
  apply (annotation_matches_annotation _ _ _ (secret_of_annotation _ _ _ _ Hof)) in Hann.
  assert (id2 = id) as -> by (destruct id2, id; simpl in *; congruence).
  assert (now2 = created) as -> by (destruct Hof as (ns & env & ->); simpl in Hc; congruence).
  pose proof (good_time _ _ Hgood). split.
  - intros m pod Hp Hr. exfalso.
    destruct (created_by _ _ _ _ _ Hgood Hp Hr) as
      (e & pod0 & n0 & id3 & g3 & now3 & h1 & h2 & Hh & _ & Hev & Hn0 & Hu & Hid & Hof3 & _ & Hsc3).
    assert (e ∈ h0 ++ l) as He by (rewrite Hh; set_solver).
    assert (secret_created (h0 ++ l) (secret_name id1 g1) (e_author e) id3 g3 now3) as Hsc3'.
    { rewrite Hh. by apply secret_created_app. }
    destruct (secret_created_unique _ _ _ _ _ _ _ _ _ _ Hgood Hsc Hsc3') as (_ & <- & <-).
    apply elem_of_app in He as [He|He].
    + destruct (trace_back _ _ _ _ _ _ _ Hgood Hp He Hn0 Hu) as (pod1 & Hp1 & _ & Hid1 & _).
      destruct (good_meta _ _ _ (history_app _ _ Hgood) Hp1) as [Hm1 Hv1].
      assert (pod_of pod1 id g3) as Hof1.
      { destruct Hof3 as (cfg & fp & H3). exists cfg, fp. destruct H3 as (?&?&?&?), Hid1 as (?&?&?&?).
        split_and!; congruence. }
      destruct (built_pod_ours _ _ _ _ Hof1 Hm1 Hv1) as [Hver Hsel].
      apply (Hno pod1); [apply Hpods; by exists m|done|]. by rewrite <-(same_identity_secret _ _ Hid1).
    + apply list_elem_of_split in He as (l1 & l2 & ->).
      replace (h0 ++ l1 ++ e :: l2) with (((h0 ++ l1) ++ [e]) ++ l2) in Hgood, Hprompt
        by by rewrite <-!app_assoc.
      destruct (history_snoc_inv _ _ (history_app _ _ Hgood)) as (Hg1 & Hevo & Hok). unfold event_ok in Hok. rewrite Hev in Hok.
      destruct Hok as (id4 & g4 & now4 & Hof4 & Hsc4 & _).
      assert (secret_name id4 g4 = secret_name id1 g1) as Hn4.
      { pose proof (pod_of_secret _ _ _ Hof4). rewrite (same_identity_secret _ _ Hid) in Hr. congruence. }
      rewrite Hn4 in Hsc4.
      assert (secret_created (((h0 ++ l1) ++ [e]) ++ l2) (secret_name id1 g1) (e_author e) id4 g4 now4) as Hsc5
        by by do 2 apply secret_created_app.
      replace (h0 ++ l1 ++ e :: l2) with (((h0 ++ l1) ++ [e]) ++ l2) in Hsc by by rewrite <-!app_assoc.
      destruct (secret_created_unique _ _ _ _ _ _ _ _ _ _ Hgood Hsc Hsc5) as (_ & _ & <-).
      apply history_app in Hgood. apply prompt_app in Hprompt. pose proof (good_time _ _ Hg1).
      apply (aged_not_created _ _ pod0 _ _ _ _ _ Hevo Hprompt Hsc4); [lia|done|].
      by rewrite <-(same_identity_secret _ _ Hid).
  - right. exists j, id, g2, created. split; [done|lia].
Qed.

Lemma plan_spent name : name ∈ plan_secrets (plan id pods secrets terminated date) → spent (h0 ++ l) name.
Proof.
  set (ours := List.filter (λ p, bool_decide (is_Some (verify p id Started))) pods).
  assert (∀ p, p ∈ ours ↔ p ∈ pods ∧ is_Some (verify p id Started)) as Hours.
  { intros p. unfold ours. rewrite !list_elem_of_In, filter_In. by rewrite bool_decide_eq_true. }
  set (doomed := List.filter terminated ours).
  assert (∀ p, p ∈ doomed ↔ p ∈ ours ∧ terminated p = true) as Hdoomed.
  { intros p. unfold doomed. by rewrite !list_elem_of_In, filter_In. }
  assert (name ∈ omap referenced_secret doomed → spent (h0 ++ l) name) as Hd.
  { intros (p & [[Hp _]%Hours Ht]%Hdoomed & Hr)%list_elem_of_omap. by apply (doomed_spent p). }
  unfold plan. simpl. fold ours. fold doomed.
  enough (∀ now, date = Some now → name ∈ sweep_orphans id now
    (omap referenced_secret (List.filter (λ p, negb (bool_decide (default "" (m_name (pod_meta p)) ∈
       omap (m_name ∘ pod_meta) doomed))) ours)) secrets (omap referenced_secret doomed) → spent (h0 ++ l) name) as Hsweep
    by (destruct date; [by apply Hsweep|done]).
  intros now Hnow [H|(s & created & Hin & Hs & Hname & Hprot & Hnd & Hc & Hage)]%sweep_orphans_elem; [by apply Hd|].
  apply (orphan_spent s name now created); try done. intros p Hp Hver Hr.
  assert (p ∈ ours) as Hpo by by apply Hours.
  apply Hprot, list_elem_of_omap. exists p. split; [|done]. rewrite list_elem_of_In, filter_In, <-list_elem_of_In.
  split; [done|]. apply negb_true_iff, bool_decide_eq_false. intros (q & Hq & Hqn)%list_elem_of_omap. simpl in Hqn.
  pose proof (proj1 (Hdoomed _) Hq) as [[Hqp _]%Hours _].
  pose proof (proj1 (Hpods _) Hp) as (n & Hpn & _).
  destruct (good_meta _ _ _ (history_app _ _ Hgood) Hpn) as [Hm _]. rewrite Hm in Hqn. simpl in Hqn.
  assert (p = q) as -> by (by apply (listed_name p q n)).
  apply Hnd, list_elem_of_omap. by exists q.
Qed.
End listing.
