(* ===== verification/KubeSafety.v ===== *)
(** * Kubernetes backend: what any number of deploys can do to the cluster

    Each operation of a deploy extends the history well when it is [allowed]; the
    triples of the programs of [KubeDeploy] show that the operations they reach are.
    From it: a deploy never deletes a Pod whose agent runs, never takes away a Secret
    a Pod needs or will need, and answers with a Pod that had started; it ends by its
    deadline and never deletes what it created. *)

From stdpp Require Import base gmap strings list.
From Stdlib Require Import ZArith Lia Ascii.
From S2P Require Import Prelude Text Effect Kube KubeDeploy KubeCluster KubeHistory.

Local Open Scope list_scope.

(** ** Operations *)

(** The cluster showed [pod] under [name] once [n] entries were there. *)
Definition shown (n : nat) (h : list Entry) (name : string) (pod : Pod) : Prop :=
  ∃ h0 l, h = h0 ++ l ∧ (n ≤ length h0)%nat ∧ c_pods (state h0) !! name = Some pod.

Lemma shown_app n h l name pod : shown n h name pod → shown n (h ++ l) name pod.
Proof. intros (h0 & l0 & -> & H). exists h0, (l0 ++ l). by rewrite app_assoc. Qed.

Lemma shown_at n h name pod : (n ≤ length h)%nat → c_pods (state h) !! name = Some pod → shown n h name pod.
Proof. intros. exists h, []. by rewrite app_nil_r. Qed.

(** What makes the effect of an operation right. *)
Definition may_delete (pod : Pod) : Prop :=
  not_running pod ∧ (decode_startup pod = Resolved Terminated ∨ ∃ id, is_Some (verify pod id Started)).

Definition may_drop (i : nat) (h : list Entry) (name : string) : Prop :=
  ∀ id g, name = secret_name id g → harmless (state h) name ∧
    (used_or_aged h name ∨ ∃ id' g' now, secret_created h name (Some i) id' g' now).

(** The generation [g] is the task's own and no Secret has its name yet. *)
Definition fresh_generation (i : nat) (h : list Entry) (id : AgentIdentity) (g : string) : Prop :=
  (∃ e, e ∈ h ∧ e_event e = EGeneration g ∧ e_author e = Some i) ∧
  ∀ e, e ∈ h → e_event e ≠ ESecretCreated (secret_name id g).

(** The task's own Secret, on which no Pod was created yet. *)
Definition own_secret (i : nat) (h : list Entry) (id : AgentIdentity) (g : string) : Prop :=
  ∃ now, secret_created h (secret_name id g) (Some i) id g now ∧ ¬ pod_created h (secret_name id g) ∧
    ((∀ e, e ∈ h → e_event e ≠ ESecretDeleted (secret_name id g)) ∨
     (now + ORPHAN_SECRET_MIN_AGE_SECS ≤ c_time (state h))%Z).

Definition allowed (i : nat) (h : list Entry) (op : Op) : Prop :=
  match op with
  | CreateSecret s => ∃ id ns g env, s = build_secret id ns g env ∧ fresh_generation i h id g
  | CreatePod p => ∃ id cfg g fp, p = build_pod id cfg g fp ∧ own_secret i h id g
  | DeletePod name fence => ∃ pod,
      shown 0 h name pod ∧ version pod = (Some (f_uid fence), Some (f_resource_version fence)) ∧ may_delete pod
  | DeleteSecret name => may_drop i h name
  | _ => True
  end.

Lemma fresh_elsewhere h name1 p1 p2 :
  c_pods (state h) !! name1 = Some p1 → fresh_version h p2 → version p1 ≠ version p2.
Proof. intros H1 Hf. destruct (state_elem _ _ _ H1) as (e & He & Hp). by apply (Hf e name1). Qed.

(** Versions stay apart when one name gets a fresh one. *)
Lemma distinct_insert h name pod n1 n2 p1 p2 :
  good h → fresh_version h pod →
  <[name := pod]> (c_pods (state h)) !! n1 = Some p1 → <[name := pod]> (c_pods (state h)) !! n2 = Some p2 →
  version p1 = version p2 → n1 = n2.
Proof.
  intros Hg Hf [[<- <-]|[Hn1 H1]]%lookup_insert_Some [[<- <-]|[Hn2 H2]]%lookup_insert_Some Hv; [done| | |].
  - by destruct (fresh_elsewhere h n2 p2 pod H2 Hf).
  - by destruct (fresh_elsewhere h n1 p1 pod H1 Hf).
  - destruct (good_version h [] n1 n2 p1 p2) as [? _]; rewrite ?app_nil_r; done.
Qed.

Lemma distinct_now h n1 n2 p1 p2 :
  good h → c_pods (state h) !! n1 = Some p1 → c_pods (state h) !! n2 = Some p2 → version p1 = version p2 → n1 = n2.
Proof. intros Hg H1 H2 Hv. destruct (good_version h [] n1 n2 p1 p2) as [? _]; rewrite ?app_nil_r; done. Qed.

Lemma effect_evolves i h op r l :
  good h → effect i h op r l → ∃ e, l = [e] ∧ evolves h e ∧ e_author e = Some i.
Proof.
  intros Hg He. destruct He as [s name Hn Hno|pod pod' name Hn Hno Ha|name fence pod pods' Hp Hv Hd|name];
    (eexists; split; [done|split; [|done]]).
  - split; simpl; [lia|by left|intros ????; by apply distinct_now|]. intros n s'. 
    intros [[<- <-]|[_ ?]]%lookup_insert_Some; [by right; left|by left].
  - destruct Ha as (Hid & Hv & Hf & Hu & _). split; simpl; [lia| | |by left].
    + intros n p [[<- <-]|[_ ?]]%lookup_insert_Some; [|by left]. right; right.
      split_and!; [|done..|by left]. destruct Hid as [-> _]. done.
    + intros. by apply (distinct_insert h name pod' n1 n2 p1 p2).
  - destruct Hd as [->|(pod' & Hu & _ & ->)]; (split; simpl; [lia| | |by left]).
    + intros n p [_ ?]%lookup_delete_Some. by left.
    + intros n1 n2 p1 p2 [_ ?]%lookup_delete_Some [_ ?]%lookup_delete_Some. by apply (distinct_now h _ _ p1 p2).
    + intros n p [[<- <-]|[_ ?]]%lookup_insert_Some; [|by left]. right; left. by exists pod.
    + intros. apply (distinct_insert h name pod' n1 n2 p1 p2); try done. apply Hu.
  - split; simpl; [lia|by left|intros ????; by apply distinct_now|]. intros n s [_ ?]%lookup_delete_Some. by left.
Qed.

Lemma no_secret_unused h id g :
  good h → (∀ e, e ∈ h → e_event e ≠ ESecretCreated (secret_name id g)) →
  ¬ pod_created h (secret_name id g) ∧ ∀ e, e ∈ h → e_event e ≠ ESecretDeleted (secret_name id g).
Proof.
  intros Hg Hno.
  assert (∀ h1 l j id' g' now, h = h1 ++ l → ¬ secret_created h1 (secret_name id g) j id' g' now) as Hsc.
  { intros h1 l j id' g' now -> (e & s & Hin & Hev & _). apply (Hno e); [set_solver|done]. }
  assert (∀ h1 l, h = h1 ++ l → ¬ pod_created h1 (secret_name id g)) as Hpc.
  { intros h1 l -> (e & pod & Hin & Hev & Hr).
    destruct (pod_created_event _ _ _ (history_app _ _ Hg) Hin Hev) as (id' & g' & now & h1' & h2 & -> & _ & Hof & Hs & _).
    rewrite (pod_of_secret _ _ _ Hof) in Hr. apply (inj Some) in Hr as Hn. rewrite Hn in Hs.
    apply (Hsc h1' ((e :: h2) ++ l) (e_author e) id' g' now); [by rewrite <-app_assoc|done]. }
  split; [apply (Hpc h []); by rewrite app_nil_r|].
  intros e Hin Hev. destruct (good_event _ _ Hg Hin) as (h1 & h2 & Hh & _ & Hok). unfold event_ok in Hok.
  rewrite Hev in Hok. destruct (Hok id g eq_refl) as [_ [[Hu|(j & id' & g' & now & Hs & _)]|(id' & g' & now & Hs)]].
  - by apply (Hpc h1 (e :: h2)).
  - by apply (Hsc h1 (e :: h2) j id' g' now).
  - by apply (Hsc h1 (e :: h2) (e_author e) id' g' now).
Qed.

(** An allowed operation extends the history well. *)
Lemma react_good i h op r l : good h → prompt (h ++ l) → react i op h r l → allowed i h op → good (h ++ l).
Proof.
  intros Hg Hp Hr Ha.
  assert (l = [] ∨ (∃ g, l = [entry i (EGeneration g) (state h)] ∧ String.length g = 8%nat ∧
    ∀ e, e ∈ h → e_event e ≠ EGeneration g) ∨ ∃ r', effect i h op r' l) as [->|[(g & -> & Hlen & Hno)|[r' He]]]
    by (destruct Hr; eauto 6).
  - by rewrite app_nil_r.
  - apply good_snoc; [done| |done]. split; simpl; [lia|by left|intros ????; by apply distinct_now|by left].
  - destruct (effect_evolves _ _ _ _ _ Hg He) as (e & -> & Hev & _). apply good_snoc; [done..|].
    clear Hr. remember [e] as l eqn:Hl.
    destruct He as [s name Hn Hno|pod pod' name Hn Hno Had|name fence pod pods' Hpod Hv Hd|name];
      injection Hl as <-; simpl in Ha; unfold event_ok; simpl.
    + destruct Ha as (id & ns & g & env & -> & (eg & Hin & Heg & Hau) & Hfr). simpl in Hn. apply (inj Some) in Hn as <-.
      eexists id, g, _. split_and!; [done|by exists eg|by apply Hfr|by apply lookup_insert_eq|by exists ns, env].
    + destruct Ha as (id & cfg & g & fp & -> & now & Hsc & Hpc & Hdel). exists id, g, now.
      assert (pod_of pod' id g) as Hof by (exists cfg, fp; apply Had).
      split_and!; [done|done|exists name; by apply lookup_insert_eq|done|].
      destruct Hdel as [?|Hold]; [done|].
      destruct (aged_not_created _ _ pod' _ _ _ _ _ Hev Hp Hsc Hold eq_refl). by apply pod_of_secret.
    + destruct Ha as (pod0 & (h0 & l0 & -> & _ & Hpod0) & Hv0 & Hmay).
      destruct (good_version h0 l0 name name pod0 pod) as [_ <-]; [done..|congruence|]. split; [by exists name|done].
    + done.
Qed.

(** ** What a task knows stays true while it waits *)

Abbreviation waits := (meanwhile e_author good prompt).
Abbreviation safe := (triple e_author react good prompt).

(** Facts that survive one entry of someone else survive any number. *)
Lemma waits_ind i h h' (K : list Entry → Prop) :
  (∀ h e, good (h ++ [e]) → prompt (h ++ [e]) → e_author e ≠ Some i → K h → K (h ++ [e])) →
  waits i h h' → K h → K h'.
Proof.
  intros Hstep (Hg & Hp & l & -> & Hl) HK. induction l as [|e l IH] using rev_ind; [by rewrite app_nil_r|].
  apply Forall_app in Hl as [Hl He]. rewrite Forall_singleton in He. rewrite app_assoc in Hg, Hp |- *.
  apply Hstep; [done..|]. apply IH; [by eapply prompt_app|by eapply history_app|done].
Qed.

Lemma waits_shown i n h h' name pod : waits i h h' → shown n h name pod → shown n h' name pod.
Proof. intros (_ & _ & l & -> & _). apply shown_app. Qed.

Lemma waits_spent i h h' name : waits i h h' → spent h name → spent h' name.
Proof. intros (Hg & Hp & l & -> & _). by apply spent_app. Qed.

Lemma secret_name_generation id g id' g' :
  String.length g = String.length g' → secret_name id g = secret_name id' g' → g = g'.
Proof.
  unfold secret_name. intros Hlen H.
  assert (∀ p s t, (p +:+ s +:+ "-" +:+ t = (p +:+ s +:+ "-") +:+ t)%stdpp) as Hassoc
    by (intros; by rewrite !string_app_assoc).
  rewrite !Hassoc in H. apply string_app_inj in H; [by destruct H|].
  apply (f_equal String.length) in H. rewrite !(string_length_app (_ +:+ _)) in H. lia.
Qed.

(** Only the one who drew a generation names Secrets by it. *)
Lemma generation_author h e eg id g :
  good (h ++ [e]) → eg ∈ h → e_event eg = EGeneration g → e_event e = ESecretCreated (secret_name id g) →
  e_author e = e_author eg.
Proof.
  intros (Hg & _ & Hok)%history_snoc_inv Hin Heg Hev. unfold event_ok in Hok. rewrite Hev in Hok.
  destruct Hok as (id' & g' & s & Hn & (eg' & Hin' & Heg' & <-) & _).
  assert (∀ eg g, eg ∈ h → e_event eg = EGeneration g → String.length g = 8%nat) as Hlen.
  { intros e0 g0 H0 Hev0. destruct (good_event _ _ Hg H0) as (? & ? & _ & _ & Hok). unfold event_ok in Hok.
    rewrite Hev0 in Hok. apply Hok. }
  apply secret_name_generation in Hn as ->; [by rewrite (unique_generation _ _ _ _ Hg Hin Hin' Heg Heg')|].
  by rewrite (Hlen _ _ Hin Heg), (Hlen _ _ Hin' Heg').
Qed.

Lemma waits_fresh i h h' id g : waits i h h' → fresh_generation i h id g → fresh_generation i h' id g.
Proof.
  intros Hw. apply (waits_ind i h h' (λ h, fresh_generation i h id g)); [|done].
  intros h1 e Hg Hp Hne [(eg & Hin & Heg & Hau) Hno]. split; [exists eg; set_solver|].
  intros e' [He'|He']%elem_of_app; [by apply Hno|]. apply list_elem_of_singleton in He' as ->. intros Hev.
  apply Hne. by rewrite (generation_author _ _ _ _ _ Hg Hin Heg Hev).
Qed.

Lemma waits_own i h h' id g : waits i h h' → own_secret i h id g → own_secret i h' id g.
Proof.
  intros Hw. apply (waits_ind i h h' (λ h, own_secret i h id g)); [|done].
  intros h1 e Hg' Hp Hne (now & Hsc & Hpc & Hdel). pose proof Hg' as (Hg & Hevo & Hok)%history_snoc_inv.
  exists now. rewrite state_snoc. pose proof (ev_time _ _ Hevo) as Ht. split_and!.
  - by apply secret_created_app.
  - intros (e' & pod & [Hin|Hin]%elem_of_app & Hev & Hr); [apply Hpc; by exists e', pod|].
    apply list_elem_of_singleton in Hin as ->. unfold event_ok in Hok. rewrite Hev in Hok.
    destruct Hok as (id' & g' & now' & Hof & Hsc' & _). rewrite (pod_of_secret _ _ _ Hof) in Hr.
    apply (inj Some) in Hr as Hn. rewrite Hn in Hsc'.
    destruct (secret_created_unique _ _ _ _ _ _ _ _ _ _ Hg Hsc Hsc') as (Hj & _). by destruct Hne.
  - destruct Hdel as [Hdel|Hold]; [|right; lia]. unfold event_ok in Hok.
    destruct (e_event e) as [| | |name| |] eqn:Hev; try (left; intros e' [He'|He']%elem_of_app;
      [by apply Hdel|apply list_elem_of_singleton in He' as ->; by rewrite Hev]).
    destruct (decide (name = secret_name id g)) as [->|Hn].
    2: { left. intros e' [He'|He']%elem_of_app; [by apply Hdel|]. apply list_elem_of_singleton in He' as ->.
      rewrite Hev. congruence. }
    destruct (Hok id g eq_refl) as [_ [[Hu|(j & id' & g' & now' & Hs & Hold)]|(id' & g' & now' & Hs)]].
    + done.
    + destruct (secret_created_unique _ _ _ _ _ _ _ _ _ _ Hg Hsc Hs) as (_ & _ & <-). right. lia.
    + destruct (secret_created_unique _ _ _ _ _ _ _ _ _ _ Hg Hsc Hs) as (Hj & _). by destruct Hne.
Qed.

(** ** Triples *)

Lemma safe_op {A} i op (k : Reply op → prog A) Q h :
  (∀ h1, waits i h h1 → allowed i h1 op ∧
    ∀ r l, react i op h1 r l → good (h1 ++ l) → prompt (h1 ++ l) → safe i (k r) Q (h1 ++ l)) →
  safe i (Perform op k) Q h.
Proof.
  intros H h1 r l Hw Hr Hp. destruct (H _ Hw) as [Ha Hk].
  assert (good (h1 ++ l)) as Hg by (eapply react_good; [apply Hw|done..]). auto.
Qed.

(** What a reply tells. *)
Definition tells (i : nat) (h : list Entry) (op : Op) : Reply op → list Entry → Prop :=
  match op with
  | GetPod name => λ r _, ∀ p, r = Ok p → p = c_pods (state h) !! name
  | ListPods sel => λ r _, ∀ pods date, r = Ok (pods, date) →
      (∀ pod, pod ∈ pods ↔ ∃ name, c_pods (state h) !! name = Some pod ∧ matches sel (m_labels (pod_meta pod)) = true) ∧
      (date = None ∨ date = Some (c_time (state h)))
  | ListSecrets sel => λ r _, ∀ secrets s, r = Ok secrets → s ∈ secrets → ∃ name, c_secrets (state h) !! name = Some s
  | NewGeneration => λ g l, l = [entry i (EGeneration g) (state h)]
  | CreateSecret s => λ r l, r = Ok tt → ∃ name, m_name (sec_meta s) = Some name ∧
      l = [entry i (ESecretCreated name) (with_secrets <[name := stamped (c_time (state h)) s]> (state h))]
  | CreatePod _ => λ r l, r = Ok AlreadyExists → l = []
  | _ => λ _ _, True
  end.

Lemma react_tells i op h r l : react i op h r l → tells i h op r l.
Proof.
  destruct 1 as [| | | | | | | |? ? ? ? Hl ?| |? ? ? Hl| |? ? ? ? He| | | | | | | | | | |]; simpl; try done; try congruence.
  - intros ? ? [= <- <-]. done.
  - intros ? s [= <-] (name & ? & _)%Hl. by exists name.
  - destruct He; simpl; try done. intros _. eauto.
Qed.

Definition reads (op : Op) : Prop :=
  match op with
  | CreateSecret _ | CreatePod _ | DeletePod _ _ | DeleteSecret _ | NewGeneration => False
  | _ => True
  end.

Lemma react_reads i op h r l : reads op → react i op h r l → l = [].
Proof. intros Hop Hr. destruct Hr as [| | | | | | | | | | | |? ? ? ? He| | | | | | | | | | |]; try done. by destruct He. Qed.

Lemma reads_allowed i h op : reads op → allowed i h op.
Proof. by destruct op. Qed.

Lemma safe_read {A} i op (k : Reply op → prog A) Q h :
  reads op → (∀ h1 r, waits i h h1 → react i op h1 r [] → safe i (k r) Q h1) → safe i (Perform op k) Q h.
Proof.
  intros Hop Hk. apply safe_op. intros h1 Hw. split; [by apply reads_allowed|]. intros r l Hr Hg Hp.
  pose proof (react_reads _ _ _ _ _ Hop Hr) as ->. rewrite app_nil_r. by apply Hk.
Qed.

(** After a program that only reads. *)
Lemma safe_reads {A B} i (p : prog A) (f : A → prog B) R Q h :
  only reads p R → (∀ a h', R a → waits i h h' → safe i (f a) Q h') → safe i (eff_bind p f) Q h.
Proof.
  intros Hp Hf. apply triple_wait. intros h1 H1. apply triple_bind. eapply triple_mono.
  - eapply triple_only; [by apply react_reads|exact Hp|apply H1..].
  - simpl. intros a h' _ _ [Ha Hw]. apply Hf; [done|by eapply meanwhile_trans].
Qed.

(** Programs that may fail, what holds when they do not. *)
Definition does {A} (i : nat) (p : KE A) (Q : A → list Entry → Prop) (h : list Entry) : Prop :=
  safe i p (λ r h', match r with Ok a => Q a h' | Err _ => True end) h.

Lemma does_fail {A} i e (Q : A → list Entry → Prop) h : does i (fail e) Q h.
Proof. by intros h1 _. Qed.

Lemma does_ok {A} i (a : A) (Q : A → list Entry → Prop) h : (∀ h', waits i h h' → Q a h') → does i (ok a) Q h.
Proof. intros H h1. apply H. Qed.

Lemma does_bind {A B} i (p : KE A) (f : A → KE B) Q h : does i p (λ a, does i (f a) Q) h → does i (p ≫= f) Q h.
Proof.
  intros H. apply triple_bind. eapply triple_mono; [exact H|]. intros [a|e] h' _ _; [done|].
  intros _. apply does_fail.
Qed.

Lemma does_reads {A B} i (p : KE A) (f : A → KE B) R Q h :
  only reads p (λ r, match r with Ok a => R a | Err _ => True end) →
  (∀ a h', R a → waits i h h' → does i (f a) Q h') → does i (p ≫= f) Q h.
Proof.
  intros Hp Hf. apply (safe_reads i p _ _ _ h Hp). intros [a|e] h' Ha Hw; [by apply Hf|apply does_fail].
Qed.

Lemma then_reads {A B} i (p : prog A) (q : KE B) Q h :
  only reads p (λ _, True) → (∀ h', waits i h h' → does i q Q h') → does i (then_ p q) Q h.
Proof. intros Hp Hq. apply (safe_reads i p _ _ _ h Hp). intros _ h1 _. apply Hq. Qed.

(** *** What only reads *)

Definition settled (pod : Pod) (s : Startup) : Prop :=
  decode_startup pod = Resolved s ∨
  ((∃ secret, decode_startup pod = ConfigErrorPendingSecretCheck secret) ∧
   (s = NeverStartedRecoverable ∨ s = NeverStartedProvablyBroken)).

Lemma settled_resolved pod s s' : settled pod s → s = Started ∨ s = Terminated → decode_startup pod = Resolved s' ↔ s' = s.
Proof. intros [->|[[sec ->] [-> | ->]]] [?|?]; naive_solver. Qed.

Lemma settled_not_running pod s : settled pod s → s ≠ Started → not_running pod.
Proof. unfold not_running. intros [->|[[sec ->] _]]; congruence. Qed.

Lemma settle_reads pod : only reads (settle pod) (λ r, match r with Ok s => settled pod s | Err _ => True end).
Proof.
  unfold settle, settled. destruct (decode_startup pod) as [s|sec]; simpl; [by left|].
  split; [done|]. intros [b|e]; simpl; [|done]. right. split; [by eexists|]. destruct b; auto.
Qed.

Lemma fail_with_does {A} i id e (Q : A → list Entry → Prop) h : does i (fail_with id e) Q h.
Proof. apply then_reads; [by repeat split|]. intros. apply does_fail. Qed.

Lemma sleep_reads d : only reads (sleep d) (λ _, True).
Proof. by split. Qed.

Lemma await_disappearance_reads fuel name : only reads (await_disappearance fuel name) (λ _, True).
Proof.
  induction fuel as [|fuel IH]; simpl; [done|]. split; [done|]. intros t. case_bool_decide; simpl; [|done].
  split; [done|]. intros [[pod|]|e]; simpl; [|done..]. split; [done|]. by intros _.
Qed.

Lemma settle_all_reads (P : string → Prop) pods ts :
  (∀ n, n ∈ ts → P n) →
  (∀ pod n, pod ∈ pods → m_name (pod_meta pod) = Some n → decode_startup pod = Resolved Terminated → P n) →
  only reads (settle_all pods ts) (λ r, match r with Ok ts => ∀ n, n ∈ ts → P n | Err _ => True end).
Proof.
  revert ts. induction pods as [|pod rest IH]; intros ts Hts Hpods; simpl; [done|].
  eapply only_bind; [apply settle_reads|]. intros [s|e]; simpl; [|done]. intros Hs.
  assert (∀ ts', (∀ n, n ∈ ts' → P n) →
    only reads (settle_all rest ts') (λ r, match r with Ok ts => ∀ n, n ∈ ts → P n | Err _ => True end)) as Hrest.
  { intros ts' Hts'. apply IH; [done|]. intros. eapply Hpods; [by right|done..]. }
  destruct s; try by apply Hrest. destruct (m_name (pod_meta pod)) as [n|] eqn:Hn; [|by apply Hrest].
  apply Hrest. intros m [Hm|Hm]%elem_of_app; [by apply Hts|]. apply list_elem_of_singleton in Hm as ->.
  apply (Hpods pod); [by left|done|]. by apply (settled_resolved pod Terminated Terminated Hs); [right|].
Qed.

(** *** Collection *)

(** What the task did itself included. *)
Definition later (h h' : list Entry) : Prop := good h' ∧ prompt h' ∧ ∃ l, h' = h ++ l.

Lemma waits_later i h h' : waits i h h' → later h h'.
Proof. intros (? & ? & l & ? & _). split_and!; [done..|by exists l]. Qed.

Lemma later_spent h h' name : later h h' → spent h name → spent h' name.
Proof. intros (? & ? & l & ->). by apply spent_app. Qed.

Lemma does_true {A} i (p : KE A) h : does i p (λ _ _, True) h → safe i p (λ _ h', later h h') h.
Proof.
  intros H. eapply triple_mono; [apply triple_extends, H|]. simpl. by intros a h' ? ? [_ ?].
Qed.

(** Whatever comes of [p]. *)
Lemma then_does {A B} i (p : KE A) (q : KE B) Q h :
  does i p (λ _ _, True) h → (∀ h', later h h' → does i q Q h') → does i (then_ p q) Q h.
Proof.
  intros Hp Hq. apply triple_bind. eapply triple_mono; [by apply does_true|]. simpl. intros a h' _ _. apply Hq.
Qed.

Lemma bind_does {A B} i (p : KE A) (f : A → KE B) Q h :
  does i p (λ _ _, True) h → (∀ a h', later h h' → does i (f a) Q h') → does i (p ≫= f) Q h.
Proof.
  intros Hp Hf. apply triple_bind. eapply triple_mono; [by apply does_true|]. simpl.
  intros [a|e] h' _ _ Hl; [by apply Hf|apply does_fail].
Qed.

Lemma delete_pod_does i name fence pod h :
  shown 0 h name pod → version pod = (Some (f_uid fence), Some (f_resource_version fence)) → may_delete pod →
  does i (delete_pod name fence) (λ _ _, True) h.
Proof.
  intros Hs Hv Hm. apply safe_op. intros h1 Hw. split.
  - exists pod. split_and!; [by eapply waits_shown|done|apply Hm..].
  - intros [|e] l _ _ _; [by apply does_ok|apply does_fail].
Qed.

Lemma delete_secret_does i name h :
  (∀ h', waits i h h' → may_drop i h' name) → does i (delete_secret name) (λ _ _, True) h.
Proof.
  intros Hd. apply safe_op. intros h1 Hw. split; [by apply Hd|].
  intros [|e] l _ _ _; [by apply does_ok|apply does_fail].
Qed.

Lemma collect_pods_does i names h : does i (collect_pods names) (λ _ _, True) h.
Proof.
  revert h. induction names as [|name rest IH]; intros h; simpl; [by apply does_ok|].
  apply safe_read; [done|]. intros h1 r Hw Hr. simpl. destruct r as [[pod|]|e]; [|by apply IH|by apply does_fail].
  assert (c_pods (state h1) !! name = Some pod) as Hpod.
  { symmetry. by apply (react_tells _ _ _ _ _ Hr). }
  destruct (m_uid (pod_meta pod)) as [uid|] eqn:Hu; [|by apply IH].
  destruct (m_resource_version (pod_meta pod)) as [rv|] eqn:Hrv; [|by apply IH].
  eapply does_reads; [apply settle_reads|]. intros s h2 Hs Hw2.
  case_bool_decide as Ht; [|by apply IH]. subst s. apply then_does; [|intros; apply IH].
  apply (delete_pod_does _ _ _ pod).
  - eapply waits_shown; [exact Hw2|]. apply shown_at; [lia|done].
  - unfold version. by rewrite Hu, Hrv.
  - split; [by apply (settled_not_running _ _ Hs)|]. left.
    by apply (settled_resolved pod Terminated Terminated Hs); [right|].
Qed.

Lemma spent_may_drop i h name : spent h name → may_drop i h name.
Proof. intros Hs id g Hn. destruct (Hs id g Hn). auto. Qed.

Lemma collect_secrets_does i names h :
  (∀ name, name ∈ names → spent h name) → does i (collect_secrets names) (λ _ _, True) h.
Proof.
  revert h. induction names as [|name rest IH]; intros h Hs; simpl; [by apply does_ok|].
  apply then_does.
  - apply delete_secret_does. intros h' Hw. apply spent_may_drop. eapply waits_spent; [exact Hw|]. apply Hs. by left.
  - intros h' Hl. apply IH. intros n Hn. eapply later_spent; [exact Hl|]. apply Hs. by right.
Qed.

Lemma try_preflight_gc_does i id h : does i (try_preflight_gc id) (λ _ _, True) h.
Proof.
  unfold try_preflight_gc. apply safe_read; [done|]. intros h1 r Hw1 Hr1. destruct r as [[pods date]|e]; [|by apply does_fail].
  destruct (react_tells _ _ _ _ _ Hr1 pods date eq_refl) as [Hpods Hdate].
  apply safe_read; [done|]. intros h2 r Hw2 Hr2. destruct r as [secrets|e]; [|by apply does_fail].
  pose proof (λ s, react_tells _ _ _ _ _ Hr2 secrets s eq_refl) as Hsecrets.
  eapply does_reads.
  { apply (settle_all_reads (λ n, ∃ pod, pod ∈ pods ∧ m_name (pod_meta pod) = Some n ∧ decode_startup pod = Resolved Terminated)).
    - intros n Hn. by apply not_elem_of_nil in Hn.
    - intros pod n Hin Hn Ht. by exists pod. }
  intros ts h3 Hts Hw3. apply bind_does; [apply collect_pods_does|]. intros _ h4 Hl. apply collect_secrets_does.
  intros name Hname. eapply later_spent; [exact Hl|]. eapply waits_spent; [exact Hw3|].
  destruct Hw2 as (Hg & Hp & l & -> & _).
  eapply (plan_spent h1 l id pods secrets); try done. simpl. intros pod Ht.
  destruct (m_name (pod_meta pod)) as [n|] eqn:Hn; [|done]. apply bool_decide_eq_true in Ht.
  destruct (Hts n Ht) as (pod' & ? & ? & ?). exists pod'. split_and!; [done|congruence|done].
Qed.

(** *** Observation *)

(** A verified Pod of the agent had this startup after [n] entries. *)
Definition observed (n : nat) (h : list Entry) (id : AgentIdentity) (v : VerifiedPod) : Prop :=
  vp_name v = pod_name id ∧ ∃ pod, shown n h (pod_name id) pod ∧ settled pod (startup v) ∧
    verify pod id (startup v) = Some v.

Lemma verify_startup pod id s v : verify pod id s = Some v → startup v = s ∧ m_name (pod_meta pod) = Some (vp_name v) ∧
  version pod = (Some (f_uid (vp_fence v)), Some (f_resource_version (vp_fence v))) ∧
  is_Some (verify pod id Started).
Proof.
  unfold verify, version. do 2 (destruct (negb _); [done|]).
  destruct (m_name (pod_meta pod)), (m_uid (pod_meta pod)), (m_resource_version (pod_meta pod)); try done.
  intros [= <-]. split_and!; try done.
Qed.

Lemma waits_observed i n h h' id v : waits i h h' → observed n h id v → observed n h' id v.
Proof. intros Hw (Hn & pod & Hs & H). split; [done|]. exists pod. split; [by eapply waits_shown|done]. Qed.

Lemma observe_pod_does i id n h :
  (n ≤ length h)%nat →
  does i (observe_pod id) (λ v h', ∀ v', v = Some v' → observed n h' id v') h.
Proof.
  intros Hn. unfold observe_pod. apply safe_read; [done|]. intros h1 r Hw Hr. simpl.
  destruct r as [[pod|]|e]; [|by apply does_ok|by apply does_fail].
  pose proof (react_tells _ _ _ _ _ Hr _ eq_refl) as Hpod.
  eapply does_reads; [apply settle_reads|]. intros s h2 Hs Hw2. apply does_ok. intros h3 Hw3 v Hv.
  pose proof (verify_startup _ _ _ _ Hv) as (<- & Hname & _).
  pose proof (waits_later _ _ _ Hw) as (Hg & _ & l & Hl).
  assert (shown n h1 (pod_name id) pod) as Hshown.
  { apply shown_at; [|done]. rewrite Hl, length_app. lia. }
  split.
  - destruct (good_meta _ _ _ Hg (eq_sym Hpod)) as [Hm _]. congruence.
  - exists pod. split_and!; [|done..]. eapply waits_shown; [exact Hw3|]. by eapply waits_shown.
Qed.

(** The answer of a deploy. *)
Definition started (n : nat) (h : list Entry) (id : AgentIdentity) (name : string) : Prop :=
  name = pod_name id ∧ ∃ pod, shown n h name pod ∧ is_Some (verify pod id Started) ∧ decode_startup pod = Resolved Started.

Lemma observed_started n h id v : observed n h id v → startup v = Started → started n h id (vp_name v).
Proof.
  intros (Hn & pod & Hs & Hset & Hv) Hst. split; [done|]. exists pod. rewrite Hn. split_and!; [done| |].
  - by eapply verify_startup.
  - rewrite Hst in Hset. by apply (settled_resolved _ _ Started Hset); [left|].
Qed.

Lemma waits_started i n h h' id name : waits i h h' → started n h id name → started n h' id name.
Proof. intros Hw (Hn & pod & Hs & H). split; [done|]. exists pod. split; [by eapply waits_shown|done]. Qed.

Lemma ok_started i n h id v :
  observed n h id v → startup v = Started → does i (ok (vp_name v)) (λ name h', started n h' id name) h.
Proof.
  intros Ho Hs. apply does_ok. intros h' Hw. eapply waits_started; [exact Hw|]. by apply observed_started.
Qed.

Lemma later_length n h h' : later h h' → (n ≤ length h)%nat → (n ≤ length h')%nat.
Proof. intros (_ & _ & l & ->). rewrite length_app. lia. Qed.

(** Observing, with the length of the history it is after. *)
Lemma observing i {B} id n (f : option VerifiedPod → KE B) Q h :
  (n ≤ length h)%nat →
  (∀ v h', later h h' → (∀ v', v = Some v' → observed n h' id v') → does i (f v) Q h') → does i (observe_pod id ≫= f) Q h.
Proof.
  intros Hn Hf. apply triple_bind. eapply triple_mono; [apply triple_extends, (observe_pod_does i id n h Hn)|].
  simpl. intros [v|e] h' Hg Hp [Hv Hl]; [by apply Hf|apply does_fail].
Qed.

Lemma await_winner_does i fuel id n h :
  (n ≤ length h)%nat → does i (await_winner fuel id) (λ name h', started n h' id name) h.
Proof.
  revert h. induction fuel as [|fuel IH]; intros h Hn; simpl; [by apply does_fail|].
  apply safe_read; [done|]. intros h1 t Hw _. simpl. pose proof (waits_later _ _ _ Hw) as Hl.
  pose proof (later_length n _ _ Hl Hn) as Hn1.
  case_bool_decide; [apply fail_with_does|]. apply (observing i id n); [done|]. intros v h2 Hl2 Hv.
  pose proof (later_length n _ _ Hl2 Hn1) as Hn2.
  assert (does i (then_ (sleep POLL_INTERVAL) (await_winner fuel id)) (λ name h', started n h' id name) h2) as Hagain.
  { apply then_reads; [apply sleep_reads|]. intros h3 Hw3. apply IH.
    eapply later_length; [by eapply waits_later|done]. }
  destruct v as [v|]; [|done]. specialize (Hv v eq_refl).
  case_bool_decide; [by apply ok_started|]. destruct (deletion_marked v); [apply does_fail|].
  destruct (_ || _); [apply fail_with_does|done].
Qed.

(** *** One attempt *)

Lemma own_may_drop i h id g : good h → own_secret i h id g → may_drop i h (secret_name id g).
Proof.
  intros Hg (now & Hsc & Hpc & _) id' g' Hn. split; [|right; by exists id, g, now].
  intros n pod Hp Hr. destruct Hpc. by eapply created_by_created.
Qed.

Lemma drop_own_secret_does i id g h :
  own_secret i h id g → safe i (drop_own_secret id (secret_name id g)) (λ _ h', later h h') h.
Proof.
  intros Ho. enough (safe i (drop_own_secret id (secret_name id g)) (λ _ _, True) h) as H.
  { eapply triple_mono; [apply triple_extends, H|]. by intros _ h' ? ? [_ ?]. }
  unfold drop_own_secret, secret_is_referenced. apply safe_read; [done|]. intros h1 r Hw _. simpl.
  destruct r as [listed|e]; simpl; [|by intros ??]. destruct (bool_decide _); [by intros ??|].
  change (safe i (eff_bind (delete_secret (secret_name id g)) (λ _, Pure tt)) (λ _ _, True) h1).
  apply triple_bind. eapply triple_mono.
  - apply delete_secret_does. intros h2 Hw2. pose proof (meanwhile_trans _ _ _ _ _ _ _ Hw Hw2) as Hw'.
    apply own_may_drop; [apply Hw'|]. by eapply waits_own.
  - by intros r h' _ _ _ ??.
Qed.

Lemma adopt_winner_does i fuel id g n h :
  (n ≤ length h)%nat → own_secret i h id g →
  does i (adopt_winner fuel id (secret_name id g)) (λ name h', started n h' id name) h.
Proof.
  intros Hn Ho. unfold adopt_winner. apply safe_read; [done|]. intros h1 r Hw _. simpl.
  assert (∀ h' (q : KE string), waits i h h' →
    (∀ h'', (n ≤ length h'')%nat → does i q (λ name h', started n h' id name) h'') →
    does i (then_ (drop_own_secret id (secret_name id g)) q) (λ name h', started n h' id name) h') as Hdrop.
  { intros h' q Hw' Hq. apply triple_bind.
    eapply triple_mono; [apply drop_own_secret_does; by eapply waits_own|]. simpl. intros _ h'' _ _ Hl. apply Hq.
    eapply later_length; [exact Hl|]. eapply later_length; [by eapply waits_later|done]. }
  destruct r as [[pod|]|e]; [| |by apply does_fail].
  - eapply does_reads; [apply settle_reads|]. intros s h2 _ Hw2.
    destruct (verify pod id s); (apply Hdrop; [by eapply meanwhile_trans|]).
    + intros. by apply await_winner_does.
    + intros. apply does_fail.
  - apply Hdrop; [done|]. intros. by apply await_winner_does.
Qed.

Lemma secret_created_own i h id ns g env name :
  good (h ++ [entry i (ESecretCreated name) (with_secrets <[name := stamped (c_time (state h)) (build_secret id ns g env)]> (state h))]) →
  name = secret_name id g → (∀ e, e ∈ h → e_event e ≠ ESecretCreated name) →
  own_secret i (h ++ [entry i (ESecretCreated name) (with_secrets <[name := stamped (c_time (state h)) (build_secret id ns g env)]> (state h))]) id g.
Proof.
  intros Hg' -> Hno. pose proof Hg' as (Hg & _)%history_snoc_inv. destruct (no_secret_unused _ _ _ Hg Hno) as [Hpc Hdel].
  exists (c_time (state h)). split_and!.
  - eexists _, _. split_and!; [apply elem_of_app; right; by apply list_elem_of_singleton|done..|apply lookup_insert_eq|by exists ns, env].
  - intros (e & pod & [Hin|Hin]%elem_of_app & Hev & Hr); [apply Hpc; by exists e, pod|].
    by apply list_elem_of_singleton in Hin as ->.
  - left. intros e [Hin|Hin]%elem_of_app; [by apply Hdel|]. by apply list_elem_of_singleton in Hin as ->.
Qed.

Lemma generation_fresh i h id g :
  good (h ++ [entry i (EGeneration g) (state h)]) → fresh_generation i (h ++ [entry i (EGeneration g) (state h)]) id g.
Proof.
  intros (Hg & _ & Hlen & Hno)%history_snoc_inv.
  split; [eexists; split; [apply elem_of_app; right; by apply list_elem_of_singleton|done]|].
  intros e [Hin|Hin]%elem_of_app; [|by apply list_elem_of_singleton in Hin as ->]. intros Hev.
  destruct (good_event _ _ Hg Hin) as (h1 & h2 & -> & Hg1 & Hok). unfold event_ok in Hok. rewrite Hev in Hok.
  destruct Hok as (id' & g' & s & Hn & (eg & Heg & Hgen & _) & _).
  destruct (good_event _ _ Hg1 Heg) as (? & ? & _ & _ & Hok). unfold event_ok in Hok. rewrite Hgen in Hok.
  apply secret_name_generation in Hn as <-; [|by rewrite Hlen; destruct Hok as [-> _]].
  apply (Hno eg); [set_solver|done].
Qed.

Lemma attempt_does i id cfg env desired h :
  does i (attempt id cfg env desired) (λ r h', later h h' ∧
    (r.1 = AlreadyExists → ∃ g, r.2 = secret_name id g ∧ own_secret i h' id g)) h.
Proof.
  enough (does i (attempt id cfg env desired) (λ r h',
    r.1 = AlreadyExists → ∃ g, r.2 = secret_name id g ∧ own_secret i h' id g) h) as H.
  { eapply triple_mono; [apply triple_extends, H|]. by intros [r|e] h' ? ? [? ?]. }
  apply safe_op. intros h1 Hw1. split; [done|]. intros g l1 Hr1 Hg1 Hp1.
  pose proof (react_tells _ _ _ _ _ Hr1) as ->. pose proof (generation_fresh _ _ id _ Hg1) as Hfr.
  apply safe_op. intros h2 Hw2. pose proof (waits_fresh _ _ _ _ _ Hw2 Hfr) as Hfr2. split.
  { by exists id, (namespace cfg), g, (<[START_NONCE_KEY := g]> env). }
  intros [u|e] l2 Hr2 Hg2 Hp2; [|by apply does_fail]. destruct u.
  destruct (react_tells _ _ _ _ _ Hr2 eq_refl) as (name & Hname & ->). simpl in Hname. apply (inj Some) in Hname as <-.
  pose proof (secret_created_own _ _ _ _ _ _ _ Hg2 eq_refl (proj2 Hfr2)) as Hown.
  apply safe_op. intros h3 Hw3. pose proof (waits_own _ _ _ _ _ Hw3 Hown) as Hown3. split.
  { by exists id, cfg, g, desired. }
  intros [o|e] l3 Hr3 Hg3 Hp3; [|by apply does_fail]. apply does_ok. simpl. intros h4 Hw4 ->.
  rewrite (react_tells _ _ _ _ _ Hr3 eq_refl), app_nil_r in Hw4. exists g. split; [done|]. by eapply waits_own.
Qed.

(** *** The deploy *)

Lemma classify_delete observed desired name fence :
  classify observed desired = ADelete name fence →
  ∃ v, observed = Some v ∧ name = vp_name v ∧ fence = vp_fence v ∧ deletion_marked v = false ∧ startup v ≠ Started.
Proof.
  destruct observed as [v|]; simpl; [|done]. destruct (deletion_marked v) eqn:Hd; [done|].
  destruct (startup v) eqn:Hs; try case_bool_decide; try done; intros [= <- <-]; exists v; by rewrite Hs.
Qed.

Lemma classify_noop observed desired agent :
  classify observed desired = ANoOp agent →
  ∃ v, observed = Some v ∧ agent = vp_name v ∧ deletion_marked v = false ∧ startup v = Started.
Proof.
  destruct observed as [v|]; simpl; [|done]. destruct (deletion_marked v) eqn:Hd; [done|].
  destruct (startup v) eqn:Hs; try case_bool_decide; try done; intros [= <-]. by exists v.
Qed.

Lemma observed_may_delete n h id v :
  observed n h id v → startup v ≠ Started →
  ∃ pod, shown 0 h (vp_name v) pod ∧
    version pod = (Some (f_uid (vp_fence v)), Some (f_resource_version (vp_fence v))) ∧ may_delete pod.
Proof.
  intros (Hn & pod & (h0 & l & -> & _ & Hp) & Hs & Hv) Hne. exists pod.
  pose proof (verify_startup _ _ _ _ Hv) as (_ & _ & Hver & Hst). split_and!.
  - exists h0, l. rewrite Hn. split_and!; [done|lia|done].
  - done.
  - split; [by apply (settled_not_running _ _ Hs)|right; by exists id].
Qed.

Lemma deploy_loop_does i fuel id cfg env desired created n h :
  (n ≤ length h)%nat → does i (deploy_loop fuel id cfg env desired created) (λ name h', started n h' id name) h.
Proof.
  revert created h. induction fuel as [|fuel IH]; intros created h Hn; [apply does_fail|].
  cbn [deploy_loop]. apply safe_read; [done|]. intros h1 t Hw _. pose proof (waits_later _ _ _ Hw) as Hl.
  pose proof (later_length n _ _ Hl Hn) as Hn1. cbn [eff_bind].
  case_bool_decide; [apply fail_with_does|]. apply (observing i id n); [done|]. intros v h2 Hl2 Hv.
  pose proof (later_length n _ _ Hl2 Hn1) as Hn2.
  assert (∀ created' h', (n ≤ length h')%nat → does i (then_ (sleep POLL_INTERVAL)
    (deploy_loop fuel id cfg env desired created')) (λ name h', started n h' id name) h') as Hsleep.
  { intros created' h' Hn'. apply then_reads; [apply sleep_reads|]. intros h3 Hw3. apply IH.
    eapply later_length; [by eapply waits_later|done]. }
  assert (∀ name h', (n ≤ length h')%nat → does i (_ ← await_disappearance fuel name;
    deploy_loop fuel id cfg env desired created) (λ name h', started n h' id name) h') as Hgone.
  { intros name h' Hn'. eapply (does_reads _ _ _ (λ _, True)).
    - eapply only_mono; [apply await_disappearance_reads|]. by intros [u|e] _.
    - intros _ h3 _ Hw3. apply IH. eapply later_length; [by eapply waits_later|done]. }
  destruct (classify v desired) as [|name fence|name|agent|name|name failure] eqn:Hc.
  - eapply does_bind, triple_mono; [apply attempt_does|]. intros [[o s]|e] h3 _ _; [|done]. intros [Hl3 Ho].
    pose proof (later_length n _ _ Hl3 Hn2) as Hn3. simpl in *. destruct o; [by apply Hsleep|].
    destruct (Ho eq_refl) as (g & -> & Hown). by apply adopt_winner_does.
  - destruct created; [apply fail_with_does|].
    destruct (classify_delete _ _ _ _ Hc) as (v' & -> & -> & -> & _ & Hs).
    destruct (observed_may_delete _ _ _ _ (Hv v' eq_refl) Hs) as (pod & Hshown & Hver & Hmay).
    apply bind_does; [by apply (delete_pod_does _ _ _ pod)|]. intros o h3 Hl3.
    pose proof (later_length n _ _ Hl3 Hn2) as Hn3. destruct o; [by apply Hgone..|by apply Hsleep].
  - by apply Hgone.
  - destruct (classify_noop _ _ _ Hc) as (v' & -> & -> & _ & Hs). apply ok_started; [by apply Hv|done].
  - by apply Hsleep.
  - apply does_fail.
Qed.

Section deploys.
Context `{KO : KubeOps}.

Definition deploy_post (r : DeployRequest) (i start : nat) (out : result DeployError string) (h : list Entry) : Prop :=
  match out with
  | Ok name => ∃ pk, from_nsec (nsec r) = Some pk ∧ started start h {| pubkey_hex := pk |} name
  | Err _ => True
  end.

Lemma deploy_agent_triple r i h :
  safe i (deploy_agent r) (deploy_post r i (length h)) h.
Proof.
  unfold deploy_agent. destruct (from_nsec (nsec r)) as [pk|] eqn:Hpk; [|by intros ??].
  eapply (triple_mono _ _ _ _ _ _ (λ out h', match out with Ok name => started (length h) h' _ name | Err _ => True end)).
  2: { intros [name|e] h' _ _ H; [|done]. exists pk. split; [done|exact H]. }
  unfold deploy. apply safe_read; [done|]. intros h1 r1 Hw _. destruct r1 as [u|e]; [|apply does_fail].
  apply triple_bind, triple_bind. eapply triple_mono; [apply does_true, try_preflight_gc_does|]. simpl.
  intros _ h2 _ _ Hl2 h3 Hw3. apply deploy_loop_does.
  eapply later_length; [by eapply waits_later|]. eapply later_length; [exact Hl2|].
  eapply later_length; [by eapply waits_later|done].
Qed.

Lemma outside_good h e : good h → outside h e → prompt (h ++ [e]) → e_author e = None ∧ good (h ++ [e]).
Proof.
  intros Hg (Ha & Hev & Ht & Hp & Hd & Hs) _. split; [done|]. apply good_snoc; [done| |unfold event_ok; by rewrite Hev].
  split; [done| |done|].
  - intros name pod' H. destruct (Hp _ _ H) as [?|[?|(_ & ? & ? & ? & ? & ?)]]; [by left|by right; left|].
    right; right. split_and!; [done..|by right].
  - intros name s H. destruct (Hs _ _ H); auto.
Qed.

Lemma react_author i op h r l : react i op h r l → Forall (λ e, e_author e = Some i) l.
Proof.
  assert (∀ op r' l', effect i h op r' l' → Forall (λ e, e_author e = Some i) l') as He
    by (destruct 1; by constructor).
  destruct 1; try done; try by eapply He. by constructor.
Qed.

(** Every prompt history of deploys is good, and their answers are true. *)
Lemma deploys_sound s :
  deploy_machine s → prompt (history s) →
  good (history s) ∧ ∀ i r start out,
    tasks s !! i = Some (Build_Task r start (Pure out)) → deploy_post r i start out (history s).
Proof.
  apply (triple_sound e_author react outside deploy_agent good prompt deploy_post).
  - apply prompt_app.
  - constructor.
  - apply react_author.
  - apply outside_good.
  - intros r i h _ _ _. apply deploy_agent_triple.
Qed.

(** C11. No deploy ever deletes a Pod whose agent container runs: whatever any number
    of deploys of any agents, the kubelets and everyone else in the namespace do and
    in whatever order, the Pod as it was when a deletion took effect was not running,
    and it had terminated or carried the management marker and the full key of an
    agent; provided every Pod was created within 1200 seconds of its Secret
    ([prompt]). *)
Theorem running_never_deleted s n e pod :
  deploy_machine s → prompt (history s) → history s !! n = Some e → e_event e = EPodDeleted pod →
  (∃ name, c_pods (state (take n (history s))) !! name = Some pod) ∧ may_delete pod.
Proof.
  intros Hm Hp Hn Hev. destruct (deploys_sound _ Hm Hp) as [Hg _].
  destruct (good_lookup _ _ _ Hg Hn) as [_ Hok]. unfold event_ok in Hok. rewrite Hev in Hok.
  destruct Hok as (? & ? & ?). done.
Qed.

(** No deploy deleted the Secret. *)
Definition kept (h : list Entry) (name : string) : Prop := ∀ e, e ∈ h → e_event e ≠ ESecretDeleted name.

(** C15. No deploy takes away a Secret that is needed: while a Pod that takes its
    environment from the Secret of an attempt has not terminated (it runs, waits,
    or pulls its image), no deploy has deleted that Secret, neither before the Pod
    was created nor after, neither its own attempt's nor as an orphan or with
    another Pod it collected; provided every Pod was created within 1200 seconds of
    its Secret ([prompt]). *)
Theorem needed_secret_kept s name pod id g :
  deploy_machine s → prompt (history s) → c_pods (state (history s)) !! name = Some pod →
  referenced_secret pod = Some (secret_name id g) → decode_startup pod ≠ Resolved Terminated →
  kept (history s) (secret_name id g).
Proof.
  intros Hm Hp Hpod Hr Ht e Hin Hev. destruct (deploys_sound _ Hm Hp) as [Hg _].
  by apply Ht, (deleted_secret_unneeded _ _ _ _ _ _ Hg Hp Hin Hev Hpod Hr).
Qed.

(** C22. What a deploy answers is true: when it answers a name, the name is the Pod of
    the agent its key stands for, and at some moment between its request and its
    answer the cluster had a Pod of that name that carried the management marker and
    the agent's full key and whose agent container was running; provided every Pod was
    created within 1200 seconds of its Secret ([prompt]). *)
Theorem deploy_truthful s i r start name :
  deploy_machine s → prompt (history s) → tasks s !! i = Some (Build_Task r start (Pure (Ok name))) →
  ∃ pk, from_nsec (nsec r) = Some pk ∧ started start (history s) {| pubkey_hex := pk |} name.
Proof. intros Hm Hp Ht. destruct (deploys_sound _ Hm Hp) as [_ Hpost]. by apply (Hpost _ _ _ _ Ht). Qed.
End deploys.
