(* ===== verification/KubeTiming.v ===== *)
(** * Kubernetes backend: how long a deploy goes on, and what it leaves alone

    A deploy ends by its clock, whatever the cluster answers: the fuel of its loops
    is a bound on their turns that any clock advancing by [tick] per operation stays
    under.  And once its own create landed it deletes no Pod. *)

From stdpp Require Import base gmap strings list.
From Stdlib Require Import ZArith Lia Ascii.
From S2P Require Import Prelude Text Effect Kube KubeDeploy.

Local Open Scope list_scope.
Local Open Scope Z_scope.

(** ** The deadline *)

(** The clock reads the time, and no reply is the model's own error. *)
Definition honest (op : Op) : Reply op → Z → Prop :=
  match op with
  | Elapsed => λ t now, t = now
  | EnsureNamespace _ | CreateSecret _ | DeleteSecret _ => λ r _, r ≠ Err OutOfFuel
  | ListPods _ => λ r _, r ≠ Err OutOfFuel
  | ListSecrets _ => λ r _, r ≠ Err OutOfFuel
  | SecretExists _ => λ r _, r ≠ Err OutOfFuel
  | CreatePod _ => λ r _, r ≠ Err OutOfFuel
  | DeletePod _ _ => λ r _, r ≠ Err OutOfFuel
  | GetPod _ => λ r _, r ≠ Err OutOfFuel
  | Sleep _ | NewGeneration => λ _ _, True
  end.

Section deadline.
Context (tick : Z).
Hypothesis Htick : 0 < tick.

(** Enough fuel to be at the deadline before it runs out. *)
Definition enough_fuel (fuel : nat) (t : Z) : Prop := (0 < fuel)%nat ∧ DEADLINE ≤ t + Z.of_nat fuel * tick.

Definition ends {A} (t : Z) (p : KE A) : Prop :=
  timely tick honest t p (λ t' r, t ≤ t' ∧ r ≠ Err OutOfFuel).

Lemma ends_ok {A} t (a : A) : ends t (ok a).
Proof. split; [lia|done]. Qed.

Lemma ends_fail {A} t e : e ≠ OutOfFuel → ends t (@fail A e).
Proof. intros H. split; [lia|congruence]. Qed.

Lemma ends_bind {A B} t (p : KE A) (f : A → KE B) :
  ends t p → (∀ a t', t ≤ t' → ends t' (f a)) → ends t (p ≫= f).
Proof.
  intros Hp Hf. eapply timely_bind; [exact Hp|]. simpl. intros t' [a|e] [Ht Hne].
  - eapply timely_mono; [by apply Hf|]. simpl. intros t'' r [? ?]. split; [lia|done].
  - split; [done|congruence].
Qed.

Lemma ends_then {A B} t (p : prog A) (q : KE B) : (∀ t', t ≤ t' → ends t' q) → ends t (then_ p q).
Proof.
  intros Hq. eapply timely_bind; [apply timely_later; lia|]. simpl. intros t' _ Ht.
  eapply timely_mono; [by apply Hq|]. simpl. intros t'' r [? ?]. split; [lia|done].
Qed.

Lemma ends_op {A} t op (k : Reply op → KE A) :
  (∀ t' r, t + tick ≤ t' → honest op r t' → ends t' (k r)) → ends t (Perform op k).
Proof.
  intros Hk t' r Ht Hr. eapply timely_mono; [by apply Hk|]. simpl. intros t'' a [? ?]. split; [lia|done].
Qed.

Lemma ends_fail_with {A} t id e : e ≠ OutOfFuel → ends t (@fail_with A id e).
Proof. intros He. apply ends_then. intros. by apply ends_fail. Qed.

(** One operation whose answer is the program's. *)
Ltac ends_step := apply ends_op; intros ?t' [?r|?e] ?Ht ?Hr; [|by apply ends_fail; intros ->].

Lemma ends_settle t pod : ends t (settle pod).
Proof.
  unfold settle. destruct (decode_startup pod); [apply ends_ok|]. ends_step. apply ends_ok.
Qed.

Lemma ends_observe t id : ends t (observe_pod id).
Proof.
  unfold observe_pod. ends_step. simpl. destruct r as [pod|]; [|apply ends_ok].
  apply ends_bind; [apply ends_settle|]. intros. apply ends_ok.
Qed.

Lemma ends_elapsed {A} t fuel (f : Z → KE A) :
  enough_fuel (S fuel) t →
  (∀ t', t ≤ t' → DEADLINE ≤ t' → ends t' (f t')) →
  (∀ t', t ≤ t' → t' < DEADLINE → enough_fuel fuel t' → ends t' (f t')) →
  ends t (eff_bind elapsed f).
Proof.
  intros [_ Hf] Hlate Hearly. apply ends_op. intros t' r Ht ->. simpl.
  destruct (decide (DEADLINE ≤ t')); [apply Hlate; lia|]. apply Hearly; [lia..|].
  split; [|lia]. destruct fuel; [lia|]. lia.
Qed.

Lemma enough_later fuel t t' : t ≤ t' → enough_fuel fuel t → enough_fuel fuel t'.
Proof. intros ? [? ?]. split; [done|lia]. Qed.

Lemma ends_await_disappearance fuel name t : enough_fuel fuel t → ends t (await_disappearance fuel name).
Proof.
  revert t. induction fuel as [|fuel IH]; intros t Hf; [by destruct Hf; lia|]. cbn [await_disappearance].
  apply (ends_elapsed t fuel); [done|..]; intros t' Ht Hd.
  - rewrite bool_decide_eq_false_2 by lia. by apply ends_fail.
  - intros Hf'. rewrite bool_decide_eq_true_2 by done. ends_step. simpl.
    destruct r; [|apply ends_ok]. apply ends_then. intros. apply IH. eapply enough_later; [|exact Hf']. lia.
Qed.

Lemma ends_await_winner fuel id t : enough_fuel fuel t → ends t (await_winner fuel id).
Proof.
  revert t. induction fuel as [|fuel IH]; intros t Hf; [by destruct Hf; lia|]. cbn [await_winner].
  apply (ends_elapsed t fuel); [done|..]; intros t' Ht Hd.
  - rewrite bool_decide_eq_true_2 by lia. by apply ends_fail_with.
  - intros Hf'. rewrite bool_decide_eq_false_2 by lia. apply ends_bind; [apply ends_observe|]. intros v t'' Ht''.
    assert (ends t'' (then_ (sleep POLL_INTERVAL) (await_winner fuel id))) as Hagain.
    { apply ends_then. intros. apply IH. eapply enough_later; [|exact Hf']. lia. }
    destruct v as [v|]; [|done]. case_bool_decide; [apply ends_ok|].
    destruct (deletion_marked v); [by apply ends_fail|]. destruct (_ || _); [by apply ends_fail_with|done].
Qed.

Lemma ends_adopt_winner fuel id secret t : enough_fuel fuel t → ends t (adopt_winner fuel id secret).
Proof.
  intros Hf. unfold adopt_winner. ends_step. simpl.
  assert (∀ t'', t ≤ t'' → ends t'' (then_ (drop_own_secret id secret) (await_winner fuel id))) as Hwait.
  { intros. apply ends_then. intros. apply ends_await_winner. eapply enough_later; [|exact Hf]. lia. }
  destruct r as [pod|]; [|apply Hwait; lia]. apply ends_bind; [apply ends_settle|]. intros s t'' Ht''.
  destruct (verify pod id s); [apply Hwait; lia|]. apply ends_then. intros. by apply ends_fail.
Qed.

Lemma ends_attempt id cfg env desired t : ends t (attempt id cfg env desired).
Proof.
  unfold attempt. apply ends_op. intros t' g Ht _. simpl. ends_step. simpl. ends_step. apply ends_ok.
Qed.

Lemma ends_deploy_loop fuel id cfg env desired created t :
  enough_fuel fuel t → ends t (deploy_loop fuel id cfg env desired created).
Proof.
  revert created t. induction fuel as [|fuel IH]; intros created t Hf; [by destruct Hf; lia|]. cbn [deploy_loop].
  apply (ends_elapsed t fuel); [done|..]; intros t' Ht Hd.
  - rewrite bool_decide_eq_true_2 by lia. by apply ends_fail_with.
  - intros Hf'. rewrite bool_decide_eq_false_2 by lia. apply ends_bind; [apply ends_observe|]. intros v t2 Ht2.
    assert (∀ created' t'', t' ≤ t'' →
      ends t'' (then_ (sleep POLL_INTERVAL) (deploy_loop fuel id cfg env desired created'))) as Hsleep.
    { intros. apply ends_then. intros. apply IH. eapply enough_later; [|exact Hf']. lia. }
    assert (∀ name t'', t' ≤ t'' → ends t'' (_ ← await_disappearance fuel name;
      deploy_loop fuel id cfg env desired created)) as Hgone.
    { intros. apply ends_bind.
      - apply ends_await_disappearance. eapply enough_later; [|exact Hf']. lia.
      - intros. apply IH. eapply enough_later; [|exact Hf']. lia. }
    destruct (classify v desired) as [|name fence|name|agent|name|name failure].
    + apply ends_bind; [apply ends_attempt|]. intros [[|] secret] t3 Ht3; [apply Hsleep; lia|].
      apply ends_adopt_winner. eapply enough_later; [|exact Hf']. lia.
    + destruct created; [by apply ends_fail_with|]. apply ends_bind; [by ends_step; apply ends_ok|].
      intros o t3 Ht3. destruct o; [apply Hgone; lia..|apply Hsleep; lia].
    + apply Hgone. lia.
    + apply ends_ok.
    + apply Hsleep. lia.
    + by apply ends_fail.
Qed.
End deadline.

(** C39. A deploy ends: if every operation takes at least [tick] and the clock reads
    the time since the start, fuel for [DEADLINE / tick] turns, at least one, is
    enough for every loop of a deploy - its own, waiting for a Pod to disappear and
    waiting for the winner - whatever the cluster answers and however long each
    answer takes: it never runs out of fuel, it answers or reports an error. *)
Theorem deploy_ends `{KubeOps} tick t r :
  0 < tick → 0 ≤ t → (0 < fuel r)%nat → DEADLINE ≤ Z.of_nat (fuel r) * tick →
  timely tick honest t (deploy_agent r) (λ _ out, out ≠ Err OutOfFuel).
Proof.
  intros Htick Ht Hf Hd. enough (ends tick t (deploy_agent r)) as Hends.
  { eapply timely_mono; [exact Hends|]. by intros ? ? [_ ?]. }
  unfold deploy_agent.
  destruct (from_nsec (nsec r)) as [pk|]; [|by apply ends_fail]. unfold deploy.
  apply ends_bind.
  - apply ends_op; [done|]. intros t' [u|e] ? Hr; [apply ends_ok|]. apply ends_fail. by intros ->.
  - intros _ t' Ht'. apply ends_then; [done|]. intros t'' Ht''. apply ends_deploy_loop; [done|]. split; [done|lia].
Qed.

(** ** After the create *)

Definition landed (op : Op) : Reply op → bool :=
  match op with
  | CreatePod _ => λ r, match r with Ok Created => true | _ => false end
  | _ => λ _, false
  end.

Definition deletes_pod (op : Op) : Prop := match op with DeletePod _ _ => True | _ => False end.

(** Whether its create landed, and no Pod deleted since. *)
Fixpoint spares {A} (created : bool) (p : prog A) (Q : bool → A → Prop) : Prop :=
  match p with
  | Pure a => Q created a
  | Perform op k => (created = true → ¬ deletes_pod op) ∧ ∀ r, spares (created || landed op r) (k r) Q
  end.

Lemma spares_mono {A} c (p : prog A) (Q R : bool → A → Prop) :
  spares c p Q → (∀ c' a, Q c' a → R c' a) → spares c p R.
Proof. intros Hp HQ. revert c Hp. induction p as [|op k IH]; simpl; intros c; [auto|]. intros [? ?]. auto. Qed.

Lemma spares_bind {A B} c (p : prog A) (f : A → prog B) Q R :
  spares c p Q → (∀ c' a, Q c' a → spares c' (f a) R) → spares c (eff_bind p f) R.
Proof. intros Hp Hf. revert c Hp. induction p as [|op k IH]; simpl; intros c; [auto|]. intros [? ?]. auto. Qed.

(** Operations that neither create nor delete Pods. *)
Definition keeps (op : Op) : Prop := match op with CreatePod _ | DeletePod _ _ => False | _ => True end.

Lemma spares_keeps {A} c (p : prog A) : only keeps p (λ _, True) → spares c p (λ c' _, c' = c).
Proof.
  induction p as [|op k IH]; simpl; [done|]. intros [Hop Hk].
  split; [intros _; destruct op; simpl in *; tauto|]. intros r.
  assert (landed op r = false) as -> by by destruct op. rewrite orb_false_r. by apply IH.
Qed.

Lemma keeps_always {A} (p : prog A) R : only keeps p R → only keeps p (λ _, True).
Proof. intros H. by eapply only_mono. Qed.

Lemma keeps_then {A B} (p : prog A) (q : KE B) :
  only keeps p (λ _, True) → only keeps q (λ _, True) → only keeps (then_ p q) (λ _, True).
Proof. intros Hp Hq. eapply only_bind; [exact Hp|]. by intros a _. Qed.

Lemma keeps_bind {A B} (p : KE A) (f : A → KE B) :
  only keeps p (λ _, True) → (∀ a, only keeps (f a) (λ _, True)) → only keeps (p ≫= f) (λ _, True).
Proof. intros Hp Hf. eapply only_bind; [exact Hp|]. intros [a|e] _; [apply Hf|done]. Qed.

Lemma keeps_settle pod : only keeps (settle pod) (λ _, True).
Proof. unfold settle. destruct (decode_startup pod); [done|]. split; [done|]. by intros [|]. Qed.

Lemma keeps_observe id : only keeps (observe_pod id) (λ _, True).
Proof.
  apply keeps_bind; [by split|]. intros [pod|]; [|done]. apply keeps_bind; [apply keeps_settle|]. done.
Qed.

Lemma keeps_fail_with {A} id e : only keeps (@fail_with A id e) (λ _, True).
Proof. by repeat split. Qed.

Lemma keeps_await_disappearance fuel name : only keeps (await_disappearance fuel name) (λ _, True).
Proof.
  induction fuel as [|fuel IH]; [done|]. cbn [await_disappearance]. split; [done|]. intros t. simpl.
  case_bool_decide; [|done]. apply keeps_bind; [by split|]. intros [pod|]; [|done]. by apply keeps_then.
Qed.

Lemma keeps_await_winner fuel id : only keeps (await_winner fuel id) (λ _, True).
Proof.
  induction fuel as [|fuel IH]; [done|]. cbn [await_winner]. split; [done|]. intros t. simpl.
  case_bool_decide; [apply keeps_fail_with|]. apply keeps_bind; [apply keeps_observe|].
  intros [v|]; [|by apply keeps_then]. case_bool_decide; [done|]. destruct (deletion_marked v); [done|].
  destruct (_ || _); [apply keeps_fail_with|by apply keeps_then].
Qed.

Lemma keeps_drop_own id secret : only keeps (drop_own_secret id secret) (λ _, True).
Proof.
  eapply only_bind; [by apply (keeps_bind (list_pods _)); [split|]|]. intros [[|]|e] _; by repeat split.
Qed.

Lemma keeps_adopt_winner fuel id secret : only keeps (adopt_winner fuel id secret) (λ _, True).
Proof.
  apply keeps_bind; [by split|]. intros [pod|].
  - apply keeps_bind; [apply keeps_settle|]. intros s.
    destruct (verify pod id s); (apply keeps_then; [apply keeps_drop_own|]); [apply keeps_await_winner|done].
  - apply keeps_then; [apply keeps_drop_own|apply keeps_await_winner].
Qed.

Lemma spares_keeps_true {A} c (p : prog A) : only keeps p (λ _, True) → spares c p (λ _ _, True).
Proof. intros H. eapply spares_mono; [by apply spares_keeps|done]. Qed.

Lemma keeps_first {A B} c (p : KE A) (f : A → KE B) :
  only keeps p (λ _, True) → (∀ a, spares c (f a) (λ _ _, True)) → spares c (p ≫= f) (λ _ _, True).
Proof. intros Hp Hf. eapply spares_bind; [by apply spares_keeps|]. intros c' [a|e] ->; [apply Hf|done]. Qed.

Lemma keeps_first_then {A B} c (p : prog A) (q : KE B) :
  only keeps p (λ _, True) → spares c q (λ _ _, True) → spares c (then_ p q) (λ _ _, True).
Proof. intros Hp Hq. eapply spares_bind; [by apply spares_keeps|]. by intros c' a ->. Qed.

Lemma spares_attempt c id cfg env desired : spares c (attempt id cfg env desired) (λ _ _, True).
Proof.
  unfold attempt. simpl. split; [by intros _ ?|]. intros g. split; [by intros _ ?|]. intros [u|e]; simpl; [|done].
  split; [by intros _ ?|]. by intros [|].
Qed.

(** A collection creates nothing, so it may delete. *)
Definition creates_nothing (op : Op) : Prop := match op with CreatePod _ => False | _ => True end.

Lemma spares_collecting {A} (p : prog A) : only creates_nothing p (λ _, True) → spares false p (λ c _, c = false).
Proof.
  induction p as [|op k IH]; simpl; [done|]. intros [Hop Hk]. split; [done|]. intros r.
  assert (landed op r = false) as -> by by destruct op. by apply IH.
Qed.

Lemma collecting_bind {A B} (p : KE A) (f : A → KE B) :
  only creates_nothing p (λ _, True) → (∀ a, only creates_nothing (f a) (λ _, True)) →
  only creates_nothing (p ≫= f) (λ _, True).
Proof. intros Hp Hf. eapply only_bind; [exact Hp|]. intros [a|e] _; [apply Hf|done]. Qed.

Lemma collecting_settle pod : only creates_nothing (settle pod) (λ _, True).
Proof. unfold settle. destruct (decode_startup pod); [done|]. split; [done|]. by intros [|]. Qed.

Lemma collecting_settle_all pods ts : only creates_nothing (settle_all pods ts) (λ _, True).
Proof.
  revert ts. induction pods as [|pod pods IH]; intros ts; [done|]. simpl.
  apply collecting_bind; [apply collecting_settle|]. intros s. destruct s, (m_name (pod_meta pod)); apply IH.
Qed.

Lemma collecting_pods names : only creates_nothing (collect_pods names) (λ _, True).
Proof.
  induction names as [|name names IH]; [done|]. simpl. split; [done|]. intros [[pod|]|e]; simpl; [|done..].
  destruct (m_uid (pod_meta pod)) as [uid|], (m_resource_version (pod_meta pod)) as [rv|]; try done. apply collecting_bind; [apply collecting_settle|].
  intros s. case_bool_decide; [|done]. by split.
Qed.

Lemma collecting_secrets names : only creates_nothing (collect_secrets names) (λ _, True).
Proof. induction names as [|name names IH]; [done|]. by split. Qed.

Lemma spares_gc id : spares false (preflight_gc id) (λ c _, c = false).
Proof.
  apply spares_collecting. eapply only_bind; [|by intros a _]. apply collecting_bind; [by split|]. intros listed.
  apply collecting_bind; [by split|]. intros secrets. apply collecting_bind; [apply collecting_settle_all|].
  intros ts. apply collecting_bind; [apply collecting_pods|]. intros _. apply collecting_secrets.
Qed.

Lemma spares_deploy_loop fuel id cfg env desired created c :
  (c = true → created = true) → spares c (deploy_loop fuel id cfg env desired created) (λ _ _, True).
Proof.
  revert created c. induction fuel as [|fuel IH]; intros created c Hc; [done|]. cbn [deploy_loop].
  split; [by intros _ ?|]. intros t. simpl eff_bind. cbn [landed]. rewrite orb_false_r.
  case_bool_decide; [apply spares_keeps_true, keeps_fail_with|]. apply keeps_first; [apply keeps_observe|]. intros v.
  assert (∀ created' c', (c' = true → created' = true) → spares c' (then_ (sleep POLL_INTERVAL)
    (deploy_loop fuel id cfg env desired created')) (λ _ _, True)) as Hsleep.
  { intros. apply keeps_first_then; [by split|]. by apply IH. }
  assert (∀ name, spares c (_ ← await_disappearance fuel name; deploy_loop fuel id cfg env desired created)
    (λ _ _, True)) as Hgone.
  { intros. apply keeps_first; [apply keeps_await_disappearance|]. intros _. by apply IH. }
  destruct (classify v desired) as [|name fence|name|agent|name|name failure].
  - eapply spares_bind; [apply spares_attempt|]. intros c' [[[|] s]|e] _; [| |done].
    + by apply Hsleep.
    + apply spares_keeps_true, keeps_adopt_winner.
  - destruct created; [apply spares_keeps_true, keeps_fail_with|].
    assert (c = false) as -> by (destruct c; [by discriminate Hc|done]). split; [done|].
    intros [[| |]|e]; simpl; [apply Hgone..| |done]. by apply Hsleep.
  - apply Hgone.
  - done.
  - by apply Hsleep.
  - done.
Qed.

(** Once the Pod a deploy created has been accepted, that deploy deletes no Pod any
    more, whatever the cluster answers: a Pod that terminates or proves broken at once
    is reported, not replaced, and its collection is left to the next deploy. *)
Theorem no_delete_after_create `{KubeOps} r : spares false (deploy_agent r) (λ _ _, True).
Proof.
  unfold deploy_agent. destruct (from_nsec (nsec r)) as [pk|]; [|done]. apply keeps_first; [by split|]. intros _.
  eapply spares_bind; [apply spares_gc|]. intros c _ ->. by apply spares_deploy_loop.
Qed.
