(* ===== verification/KubeRun.v ===== *)
(** * Kubernetes backend: runs

    An executable scheduler for [deploy_machine] whose runs are reachable, and runs in
    which an agent is deployed, its Pod ends and is replaced while a second deploy of
    the same agent competes: the theorems of [KubeSafety] apply to them.  Two runs
    show what the code does not mean to do. *)

From stdpp Require Import base gmap strings list.
From Stdlib Require Import ZArith Lia Ascii.
From S2P Require Import Prelude Text Effect Kube KubeDeploy KubeCluster KubeSafety KubeTiming.

Local Open Scope list_scope.

(** ** Checks *)

Definition version_fresh (h : list Entry) (pod : Pod) : bool :=
  forallb (λ e, forallb (λ np, negb (bool_decide (version np.2 = version pod))) (map_to_list (c_pods (e_after e)))) h.
Definition uid_fresh (h : list Entry) (pod : Pod) : bool :=
  forallb (λ e, forallb (λ np, negb (bool_decide (m_uid (pod_meta np.2) = m_uid (pod_meta pod))))
    (map_to_list (c_pods (e_after e)))) h.

Lemma over_pods (P : Pod → bool) h e name pod :
  forallb (λ e, forallb (λ np, P np.2) (map_to_list (c_pods (e_after e)))) h = true →
  e ∈ h → c_pods (e_after e) !! name = Some pod → P pod = true.
Proof.
  intros H He Hp. rewrite forallb_forall in H. specialize (H e). rewrite <-list_elem_of_In in H.
  specialize (H He). rewrite forallb_forall in H. apply (H (name, pod)). apply list_elem_of_In. by apply elem_of_map_to_list.
Qed.

Lemma version_fresh_spec h pod : version_fresh h pod = true → fresh_version h pod.
Proof.
  intros H e name old He Hp.
  pose proof (over_pods (λ p, negb (bool_decide (version p = version pod))) h e name old H He Hp) as Hn.
  by apply negb_true_iff, bool_decide_eq_false in Hn.
Qed.

Lemma uid_fresh_spec h pod : uid_fresh h pod = true → fresh_uid h pod.
Proof.
  intros H e name old He Hp.
  pose proof (over_pods (λ p, negb (bool_decide (m_uid (pod_meta p) = m_uid (pod_meta pod)))) h e name old H He Hp) as Hn.
  by apply negb_true_iff, bool_decide_eq_false in Hn.
Qed.

Definition terminated_b (pod : Pod) : bool := match decode_startup pod with Resolved Terminated => true | _ => false end.
Definition stays_terminated_b (pod pod' : Pod) : bool := negb (terminated_b pod) || terminated_b pod'.

Lemma stays_terminated_spec pod pod' : stays_terminated_b pod pod' = true → stays_terminated pod pod'.
Proof.
  unfold stays_terminated_b, stays_terminated, terminated_b. intros H _ Ht. rewrite Ht in H. simpl in H.
  by destruct (decode_startup pod') as [[]|].
Qed.

Definition distinct_b (pods : gmap string Pod) : bool :=
  let l := map_to_list pods in
  forallb (λ x, forallb (λ y, negb (bool_decide (version x.2 = version y.2)) || bool_decide (x.1 = y.1)) l) l.

Lemma distinct_spec pods n1 n2 p1 p2 :
  distinct_b pods = true → pods !! n1 = Some p1 → pods !! n2 = Some p2 → version p1 = version p2 → n1 = n2.
Proof.
  intros H H1 H2 Hv. unfold distinct_b in H. rewrite forallb_forall in H.
  assert (∀ n p, pods !! n = Some p → In (n, p) (map_to_list pods)) as Hin
    by (intros; apply list_elem_of_In; by apply elem_of_map_to_list).
  specialize (H _ (Hin _ _ H1)). rewrite forallb_forall in H. specialize (H _ (Hin _ _ H2)). simpl in H.
  rewrite bool_decide_eq_true_2 in H by done. by apply bool_decide_eq_true in H.
Qed.

(** [prompt], by computation. *)
Definition prompt_pair (e e' : Entry) : bool :=
  match e_event e, e_event e' with
  | ESecretCreated name, EPodCreated pod =>
      negb (bool_decide (referenced_secret pod = Some name)) ||
      bool_decide (c_time (e_after e') < c_time (e_after e) + ORPHAN_SECRET_MIN_AGE_SECS)%Z
  | _, _ => true
  end.
Fixpoint prompt_b (h : list Entry) : bool :=
  match h with [] => true | e :: h' => forallb (prompt_pair e) h' && prompt_b h' end.

Lemma prompt_spec h : prompt_b h = true → prompt h.
Proof.
  induction h as [|e0 h IH]; [by intros _ n m ? ? ? ? Hn|]. simpl. intros [Ha Hb]%andb_prop.
  intros [|n] [|m] e e' name pod Hn Hm Hlt Hev Hev' Hr; simpl in *; try lia.
  - injection Hn as <-. rewrite forallb_forall in Ha. specialize (Ha e').
    rewrite <-list_elem_of_In in Ha. specialize (Ha (list_elem_of_lookup_2 _ _ _ Hm)). unfold prompt_pair in Ha.
    rewrite Hev, Hev', bool_decide_eq_true_2 in Ha by done. by apply bool_decide_eq_true in Ha.
  - eapply (IH Hb n m); try done. lia.
Qed.

(** ** Scheduling *)

(** A name for each length of the history. *)
Definition stamp (h : list Entry) : string := String.concat "" (repeat "i" (length h)).

Definition admit_pod (h : list Entry) (pod : Pod) : Pod := {|
  pod_meta := {| m_name := m_name (pod_meta pod); m_namespace := m_namespace (pod_meta pod);
    m_uid := Some ("u" +:+ stamp h)%stdpp;
    m_resource_version := Some ("v" +:+ stamp h)%stdpp; m_labels := m_labels (pod_meta pod);
    m_annotations := m_annotations (pod_meta pod); m_deletion_timestamp := None; m_creation_timestamp := None |};
  pod_spec := pod_spec pod; pod_status := None |}.

(** The kubelet's report, and a deletion in progress. *)
Definition report (h : list Entry) (status : option PodStatus) (deletion : option Z) (pod : Pod) : Pod := {|
  pod_meta := {| m_name := m_name (pod_meta pod); m_namespace := m_namespace (pod_meta pod);
    m_uid := m_uid (pod_meta pod);
    m_resource_version := Some ("v" +:+ stamp h)%stdpp; m_labels := m_labels (pod_meta pod);
    m_annotations := m_annotations (pod_meta pod); m_deletion_timestamp := deletion;
    m_creation_timestamp := m_creation_timestamp (pod_meta pod) |};
  pod_spec := pod_spec pod; pod_status := status |}.

(** An operation answered as a cluster without failures does; [gone] tells whether a
    deleted Pod disappears at once. *)
Definition answer (i : nat) (gone : bool) (h : list Entry) (now : Z) (op : Op) : option (Reply op * list Entry) :=
  match op with
  | EnsureNamespace _ => Some (Ok tt, [])
  | ListPods sel =>
      Some (Ok (List.filter (λ p, matches sel (m_labels (pod_meta p))) (snd <$> map_to_list (c_pods (state h))),
                Some (c_time (state h))), [])
  | ListSecrets sel =>
      Some (Ok (List.filter (λ s, matches sel (m_labels (sec_meta s))) (snd <$> map_to_list (c_secrets (state h)))), [])
  | SecretExists name => Some (Ok (bool_decide (is_Some (c_secrets (state h) !! name))), [])
  | CreateSecret s =>
      name ← m_name (sec_meta s);
      match c_secrets (state h) !! name with
      | Some _ => Some (Err ApiFailure, [])
      | None => Some (Ok tt, [entry i (ESecretCreated name) (with_secrets <[name := stamped (c_time (state h)) s]> (state h))])
      end
  | CreatePod p =>
      name ← m_name (pod_meta p);
      match c_pods (state h) !! name with
      | Some _ => Some (Ok AlreadyExists, [])
      | None =>
          let p' := admit_pod h p in
          if version_fresh h p' && uid_fresh h p'
          then Some (Ok Created, [entry i (EPodCreated p') (with_pods <[name := p']> (state h))]) else None
      end
  | DeletePod name fence =>
      match c_pods (state h) !! name with
      | None => Some (Ok DeleteNotFound, [])
      | Some p =>
          if bool_decide (version p = (Some (f_uid fence), Some (f_resource_version fence))) then
            if gone then Some (Ok Accepted, [entry i (EPodDeleted p) (with_pods (λ _, delete name (c_pods (state h))) (state h))])
            else
              let p' := report h (pod_status p) (Some (c_time (state h))) p in
              if version_fresh h p' && bool_decide (is_Some (m_uid (pod_meta p))) && stays_terminated_b p p'
              then Some (Ok Accepted, [entry i (EPodDeleted p) (with_pods (λ _, <[name := p']> (c_pods (state h))) (state h))])
              else None
          else Some (Ok PreconditionFailed, [])
      end
  | DeleteSecret name => Some (Ok tt, [entry i (ESecretDeleted name) (with_secrets (delete name) (state h))])
  | GetPod name => Some (Ok (c_pods (state h) !! name), [])
  | Sleep _ => Some (tt, [])
  | Elapsed => Some (now, [])
  | NewGeneration =>
      let g := String (ascii_of_nat (65 + length h)) "0000000" in
      if forallb (λ e, match e_event e with EGeneration g' => negb (bool_decide (g' = g)) | _ => true end) h
      then Some (g, [entry i (EGeneration g) (state h)]) else None
  end.

Lemma report_updated h status deletion pod :
  version_fresh h (report h status deletion pod) = true → is_Some (m_uid (pod_meta pod)) →
  stays_terminated_b pod (report h status deletion pod) = true → updated h pod (report h status deletion pod).
Proof.
  intros Hf Hu Hs. split; [by split_and!|]. split; [done|]. split; [by split; [|by eexists]|].
  split; [by apply version_fresh_spec|by apply stays_terminated_spec].
Qed.

Lemma answer_react i gone h now op r l : answer i gone h now op = Some (r, l) → react i op h r l.
Proof.
  destruct op; simpl.
  - intros [= <- <-]. constructor.
  - intros [= <- <-]. constructor; [|by right]. intros pod. rewrite list_elem_of_In, filter_In, <-list_elem_of_In.
    rewrite list_elem_of_fmap. split.
    + intros [([n p] & -> & Hp%elem_of_map_to_list) Hm]. by exists n.
    + intros (n & Hp & Hm). split; [|done]. exists (n, pod). split; [done|by apply elem_of_map_to_list].
  - intros [= <- <-]. constructor. intros s. rewrite list_elem_of_In, filter_In, <-list_elem_of_In.
    rewrite list_elem_of_fmap. split.
    + intros [([n p] & -> & Hp%elem_of_map_to_list) Hm]. by exists n.
    + intros (n & Hp & Hm). split; [|done]. exists (n, s). split; [done|by apply elem_of_map_to_list].
  - intros [= <- <-]. constructor.
  - destruct (m_name (sec_meta secret)) as [n|] eqn:Hn; [|done]. simpl.
    destruct (c_secrets (state h) !! n) eqn:Hs; intros [= <- <-]; [apply react_create_secret_err|].
    by apply react_effect, eff_create_secret.
  - destruct (m_name (pod_meta pod)) as [n|] eqn:Hn; [|done]. simpl.
    destruct (c_pods (state h) !! n) eqn:Hp; [intros [= <- <-]; by eapply react_create_pod_exists|].
    destruct (_ && _) eqn:Hf; [|done]. apply andb_prop in Hf as [Hf Hu]. intros [= <- <-].
    apply react_effect. apply eff_create_pod; [done..|].
    split_and!; [done|by split; eexists|by apply version_fresh_spec|by apply uid_fresh_spec|done].
  - destruct (c_pods (state h) !! name) as [p|] eqn:Hp; [|intros [= <- <-]; by apply react_delete_pod_gone].
    case_bool_decide as Hv; [|intros [= <- <-]; by eapply react_delete_pod_changed].
    destruct gone; [intros [= <- <-]; apply react_effect; eapply eff_delete_pod; [done..|by left]|].
    destruct (_ && _) eqn:Hf; [|done]. apply andb_prop in Hf as [[Hf Hu%bool_decide_eq_true]%andb_prop Hs].
    intros [= <- <-]. apply react_effect. eapply eff_delete_pod; [done..|]. right.
    eexists. split_and!; [by apply report_updated|by eexists|done].
  - intros [= <- <-]. apply react_effect. constructor.
  - intros [= <- <-]. constructor.
  - intros [= <- <-]. constructor.
  - intros [= <- <-]. constructor.
  - destruct (forallb _ h) eqn:Hno; [|done]. intros [= <- <-]. constructor; [done|]. intros e He Hev. rewrite forallb_forall in Hno. specialize (Hno e).
    rewrite <-list_elem_of_In in Hno. specialize (Hno He). rewrite Hev in Hno. by rewrite bool_decide_eq_true_2 in Hno.
Qed.

(** What the outside does to the cluster, checked. *)
Inductive Outside :=
  | Clock (t : Z)
  | Gone (name : string)
  | Report (name : string) (status : option PodStatus) (deletion : option Z)
  | Foreign (name : string) (pod : Pod).

Definition outside_pods (h : list Entry) (o : Outside) : option (gmap string Pod) :=
  let pods := c_pods (state h) in
  match o with
  | Clock _ => Some pods
  | Gone name => Some (delete name pods)
  | Report name status deletion =>
      p ← pods !! name;
      let p' := report h status deletion p in
      if version_fresh h p' && bool_decide (is_Some (m_uid (pod_meta p))) && stays_terminated_b p p'
      then Some (<[name := p']> pods) else None
  | Foreign name pod =>
      let p' := admit_pod h pod in
      if bool_decide (pods !! name = None) && bool_decide (m_name (pod_meta pod) = Some name) && version_fresh h p' &&
         uid_fresh h p' && bool_decide (referenced_secret p' = None)
      then Some (<[name := p']> pods) else None
  end.

Definition outside_entry (h : list Entry) (o : Outside) : option Entry :=
  pods ← outside_pods h o;
  let now := match o with Clock t => Z.max t (c_time (state h)) | _ => c_time (state h) end in
  if distinct_b pods
  then Some {| e_author := None; e_event := EOutside;
               e_after := {| c_pods := pods; c_secrets := c_secrets (state h); c_time := now |} |}
  else None.

Lemma outside_pods_spec h o pods name pod' :
  outside_pods h o = Some pods → pods !! name = Some pod' → c_pods (state h) !! name = Some pod' ∨
     (∃ pod, c_pods (state h) !! name = Some pod ∧ updated h pod pod') ∨
     (c_pods (state h) !! name = None ∧ m_name (pod_meta pod') = Some name ∧ has_version pod' ∧ fresh_version h pod' ∧
      fresh_uid h pod' ∧ ∀ id g, referenced_secret pod' ≠ Some (secret_name id g)).
Proof.
  destruct o as [t|n|n status deletion|n pod]; simpl.
  - intros [= <-]. by left.
  - intros [= <-] [_ ?]%lookup_delete_Some. by left.
  - destruct (c_pods (state h) !! n) as [p|] eqn:Hp; [|done]. simpl. destruct (_ && _) eqn:Hf; [|done].
    apply andb_prop in Hf as [[Hf Hu%bool_decide_eq_true]%andb_prop Hs]. intros [= <-].
    intros [[<- <-]|[_ ?]]%lookup_insert_Some; [|by left]. right; left. exists p. split; [done|by apply report_updated].
  - destruct (_ && _) eqn:Hf; [|done]. apply andb_prop in Hf as [[[[Hn Hm]%andb_prop Hf]%andb_prop Hu]%andb_prop Hr].
    apply bool_decide_eq_true in Hn, Hm, Hr. intros [= <-].
    intros [[<- <-]|[_ ?]]%lookup_insert_Some; [|by left]. right; right.
    split_and!; [done|done|by split; eexists|by apply version_fresh_spec|by apply uid_fresh_spec|congruence].
Qed.

Lemma outside_entry_spec h o e : outside_entry h o = Some e → outside h e.
Proof.
  unfold outside_entry. destruct (outside_pods h o) as [pods|] eqn:Hp; [|done]. simpl.
  destruct (distinct_b pods) eqn:Hd; [|done]. intros [= <-]. split_and!; simpl; try done.
  - destruct o; lia.
  - intros name pod'. by apply (outside_pods_spec _ o).
  - intros n1 n2 p1 p2. by apply distinct_spec.
  - intros name s ?. by left.
Qed.

Section scheduler.
Context `{KO : KubeOps}.

Abbreviation Sys := (Machine Op Reply DeployRequest (result DeployError string) Entry).

Inductive Cmd := Arrive (r : DeployRequest) | Run (i : nat) (gone : bool) (now : Z) | Other (o : Outside).

Definition schedule1 (s : Sys) (c : Cmd) : option Sys :=
  match c with
  | Arrive r => Some {| history := history s;
                        tasks := tasks s ++ [Build_Task r (length (history s)) (deploy_agent r)] |}
  | Run i gone now =>
      t ← tasks s !! i;
      match t_prog t with
      | Pure _ => None
      | Perform op k =>
          rl ← answer i gone (history s) now op;
          Some {| history := history s ++ rl.2;
                  tasks := <[i := Build_Task (t_req t) (t_start t) (k rl.1)]> (tasks s) |}
      end
  | Other o => e ← outside_entry (history s) o; Some {| history := history s ++ [e]; tasks := tasks s |}
  end.

Fixpoint schedule (s : Sys) (l : list Cmd) : option Sys :=
  match l with [] => Some s | c :: l' => s' ← schedule1 s c; schedule s' l' end.

Lemma schedule1_step s c s' : schedule1 s c = Some s' → machine_step react outside deploy_agent s s'.
Proof.
  destruct c as [r|i gone now|o]; simpl; [intros [= <-]; constructor| |].
  - destruct (tasks s !! i) as [[r n p]|] eqn:Hp; [|done]. simpl. destruct p as [a|op k]; [done|].
    destruct (answer i gone (history s) now op) as [[reply l0]|] eqn:Ha; [|done]. intros [= <-].
    eapply machine_run; [done|]. by eapply answer_react.
  - destruct (outside_entry (history s) o) as [e|] eqn:He; [|done]. intros [= <-].
    apply machine_outside. by eapply outside_entry_spec.
Qed.

Lemma kube_schedule_reachable s l s' : deploy_machine s → schedule s l = Some s' → deploy_machine s'.
Proof.
  revert s. induction l as [|c l IH]; intros s Hr; simpl; [by intros [= <-]|].
  destruct (schedule1 s c) as [s1|] eqn:Hs; [|done]. simpl. apply IH. econstructor; [done|by eapply schedule1_step].
Qed.
End scheduler.

(** ** A deploy, its end, and two that replace it *)

Definition run_ops : KubeOps := {|
  from_nsec nsec := if bool_decide (nsec = "nsec1") then Some (String.concat "" (repeat "a" 64)) else None;
  template_digest t := it_image t |}.
#[local] Existing Instance run_ops.

Lemma kube_laws : KubeLaws.
Proof. split. intros nsec pk. simpl. case_bool_decide; [|done]. by intros [= <-]. Qed.

Definition run_id : AgentIdentity := {| pubkey_hex := String.concat "" (repeat "a" 64) |}.
Definition run_config : ProviderConfig := {|
  namespace := "agents"; image := "sprig@sha256:1"; service_account := None;
  resources := {| cpu_request := "1"; memory_request := "1Gi"; cpu_limit := "2"; memory_limit := "2Gi" |} |}.
Definition run_request : DeployRequest := {| nsec := "nsec1"; provider_config := run_config; env := ∅; fuel := 10 |}.

Definition in_state (phase : string) (s : ContainerState) : option PodStatus :=
  Some {| ps_phase := Some phase; ps_container_statuses := Some [{| cs_name := CONTAINER_NAME; cs_state := Some s |}] |}.
Definition is_running : option PodStatus :=
  in_state "Running" {| cs_running := true; cs_terminated := false; cs_waiting := None |}.
Definition is_terminated : option PodStatus :=
  in_state "Failed" {| cs_running := false; cs_terminated := true; cs_waiting := None |}.

Definition times (n i : nat) : list Cmd := repeat (Run i true 0) n.
Definition start : Machine Op Reply DeployRequest (result DeployError string) Entry := {| history := []; tasks := [] |}.

Definition run_pod : string := pod_name run_id.

Definition replacement : list Cmd :=
  [Arrive run_request] ++ times 9 0 ++ [Other (Report run_pod is_running None)] ++ times 2 0 ++
  [Other (Report run_pod is_terminated None); Arrive run_request; Arrive run_request] ++
  times 3 1 ++ times 4 2 ++ times 3 1 ++ times 2 2 ++ times 4 1 ++ times 5 2 ++ times 1 1 ++
  [Other (Clock 30); Other (Report run_pod is_running None)] ++ times 5 1 ++ times 3 2.

Abbreviation run script := (default start (schedule start script)).

Definition succeeds (script : list Cmd) : bool :=
  match schedule start script with Some s => prompt_b (history s) | None => false end.

Lemma succeeds_spec script : succeeds script = true → deploy_machine (run script) ∧ prompt (history (run script)).
Proof.
  unfold succeeds. intros H. destruct (schedule start script) as [s|] eqn:Hs; [|done].
  split; [eapply kube_schedule_reachable; [constructor|exact Hs]|by apply prompt_spec].
Qed.

Lemma replaced : deploy_machine (run replacement) ∧ prompt (history (run replacement)).
Proof. apply succeeds_spec. by vm_compute. Qed.

(** The second deploy deleted the Pod of the first. *)
Lemma running_never_deleted_witness :
  ∃ e pod, history (run replacement) !! 5%nat = Some e ∧ e_event e = EPodDeleted pod ∧
    (∃ name, c_pods (state (take 5 (history (run replacement)))) !! name = Some pod) ∧ may_delete pod.
Proof.
  destruct replaced as [Hm Hp].
  assert (match history (run replacement) !! 5%nat with
    | Some e => match e_event e with EPodDeleted _ => true | _ => false end | None => false end = true) as H by by vm_compute.
  destruct (history (run replacement) !! 5%nat) as [e|] eqn:He; [|discriminate H].
  destruct (e_event e) as [|pod| | | |] eqn:Hev; try discriminate H.
  exists e, pod. split; [done|]. split; [done|]. exact (running_never_deleted _ 5 e pod Hm Hp He Hev).
Defined.

(** The Pod of the third runs on its Secret; the second deleted its own. *)
Lemma needed_secret_kept_witness :
  ∃ pod, c_pods (state (history (run replacement))) !! run_pod = Some pod ∧
    kept (history (run replacement)) (secret_name run_id "K0000000").
Proof.
  destruct replaced as [Hm Hp].
  assert (match c_pods (state (history (run replacement))) !! run_pod with
    | Some pod => bool_decide (referenced_secret pod = Some (secret_name run_id "K0000000")) && negb (terminated_b pod)
    | None => false end = true) as H by by vm_compute.
  destruct (c_pods (state (history (run replacement))) !! run_pod) as [pod|] eqn:Hpod; [|discriminate H].
  apply andb_prop in H as [Hr Ht]. apply bool_decide_eq_true in Hr. exists pod. split; [done|].
  apply (needed_secret_kept _ run_pod pod run_id "K0000000" Hm Hp Hpod Hr).
  unfold terminated_b in Ht. intros Hd. by rewrite Hd in Ht.
Defined.

(** The second adopted the Pod of the third. *)
Lemma deploy_truthful_witness :
  ∃ pk, from_nsec "nsec1" = Some pk ∧ started 5 (history (run replacement)) {| pubkey_hex := pk |} run_pod.
Proof.
  destruct replaced as [Hm Hp].
  exact (deploy_truthful _ 1 run_request 5 run_pod Hm Hp ltac:(by vm_compute)).
Defined.

Lemma deploy_ends_witness :
  timely (60 * NANOS) honest 0 (deploy_agent run_request) (λ _ out, out ≠ Err OutOfFuel).
Proof. apply deploy_ends; [done|done|simpl; lia|done]. Defined.

(** ** What the code does not mean to do *)

(** The winner of a race is being deleted by the time the loser looks at it. *)
Definition dying : list Cmd :=
  [Arrive run_request; Arrive run_request] ++ times 7 0 ++ times 9 1 ++
  [Other (Report run_pod is_running (Some 0%Z))] ++ times 5 0.

Definition looks (s : Machine Op Reply DeployRequest (result DeployError string) Entry) : bool :=
  match tasks s !! 0%nat, c_pods (state (history s)) !! run_pod, schedule1 s (Run 0 true 0) with
  | Some {| t_prog := Perform (GetPod name) _ |}, Some pod, Some s' =>
      bool_decide (name = run_pod) && bool_decide (is_Some (m_deletion_timestamp (pod_meta pod))) &&
      bool_decide (is_Some (verify pod run_id Started)) &&
      match tasks s' !! 0%nat with
      | Some {| t_prog := Pure (Ok name) |} => bool_decide (name = run_pod)
      | _ => false
      end
  | _, _, _ => false
  end.

(** The loser of a create race answers success for a Pod that is being deleted:
    waiting for the winner, the code looks at whether its container runs before it
    looks at the deletion mark, against the rule the mark is documented with and
    [classify] follows.  In this run two deploys race; when the loser looks at the
    winner's Pod, the Pod is marked, [classify] would have it wait for the Pod to
    disappear, and the loser answers its name. *)
Theorem adopts_dying_winner :
  ∃ s s' pod v, deploy_machine s ∧ prompt (history s) ∧ c_pods (state (history s)) !! run_pod = Some pod ∧
    is_Some (m_deletion_timestamp (pod_meta pod)) ∧ verify pod run_id Started = Some v ∧
    (∀ desired, ∃ name, classify (Some v) desired = AAwaitDisappearance name) ∧
    match t_prog <$> tasks s !! 0%nat with Some (Perform (GetPod name) _) => name = run_pod | _ => False end ∧
    machine_step react outside deploy_agent s s' ∧
    match t_prog <$> tasks s' !! 0%nat with Some (Pure (Ok name)) => name = run_pod | _ => False end.
Proof.
  destruct (succeeds_spec dying ltac:(by vm_compute)) as [Hm Hp].
  assert (looks (run dying) = true) as H by by vm_compute. set (s := run dying) in *. clearbody s.
  unfold looks in H. destruct (tasks s !! 0%nat) as [[r n [a|op k]]|] eqn:Ht; [done| |done].
  destruct op as [| | | | | | | |name| | |]; try done.
  destruct (c_pods (state (history s)) !! run_pod) as [pod|] eqn:Hpod; [|done].
  destruct (schedule1 s (Run 0 true 0)) as [s'|] eqn:Hs; [|done].
  apply andb_prop in H as [[[Hn Hd]%andb_prop Hv]%andb_prop H].
  apply bool_decide_eq_true in Hn as ->. apply bool_decide_eq_true in Hd, Hv. destruct Hv as [v Hv].
  exists s, s', pod, v. split_and!; try done.
  - intros desired. exists (vp_name v). unfold verify in Hv. do 2 (destruct (negb _); [done|]).
    destruct (m_name (pod_meta pod)), (m_uid (pod_meta pod)), (m_resource_version (pod_meta pod)); try done.
    injection Hv as <-. unfold classify. cbn [deletion_marked vp_name]. by rewrite bool_decide_eq_true_2 by exact Hd.
  - by rewrite Ht.
  - by apply schedule1_step in Hs.
  - destruct (tasks s' !! 0%nat) as [[r' n' [[name|e]|op' k']]|]; try done. by apply bool_decide_eq_true in H.
Qed.

(** A terminated Pod of ours is listed, is replaced by someone else's that ends, and is
    read again by its name. *)
Definition foreign_pod : Pod := {|
  pod_meta := {| m_name := Some run_pod; m_namespace := None; m_uid := None; m_resource_version := None; m_labels := None;
    m_annotations := None; m_deletion_timestamp := None; m_creation_timestamp := None |};
  pod_spec := None; pod_status := None |}.

Definition replaced_by_foreign : list Cmd :=
  [Arrive run_request] ++ times 9 0 ++ [Other (Report run_pod is_terminated None); Arrive run_request] ++ times 3 1 ++
  [Other (Gone run_pod); Other (Foreign run_pod foreign_pod); Other (Report run_pod is_terminated None)] ++ times 2 1.

(** A Pod that is of no agent. *)
Definition unmarked (pod : Pod) : Prop :=
  has_marker (m_labels (pod_meta pod)) = false ∧ ∀ id startup, verify pod id startup = None.

Definition deleted_foreign (s : Machine Op Reply DeployRequest (result DeployError string) Entry) : bool :=
  match last (history s) with
  | Some {| e_author := Some _; e_event := EPodDeleted pod |} => negb (has_marker (m_labels (pod_meta pod)))
  | _ => false
  end.

(** The preflight collection deletes a terminated Pod that does not carry the
    management marker: it verifies the Pods it lists, then reads each one it plans to
    delete again by name and deletes what it finds there if that has terminated,
    without verifying it.  In this run the agent's own Pod is replaced by a Pod of
    someone else between the two. *)
Theorem gc_deletes_unmarked_pod :
  ∃ s e pod i, deploy_machine s ∧ prompt (history s) ∧ e ∈ history s ∧ e_author e = Some i ∧ e_event e = EPodDeleted pod ∧
    unmarked pod.
Proof.
  destruct (succeeds_spec replaced_by_foreign ltac:(by vm_compute)) as [Hm Hp].
  assert (deleted_foreign (run replaced_by_foreign) = true) as H by by vm_compute.
  set (s := run replaced_by_foreign) in *. clearbody s. unfold deleted_foreign in H.
  destruct (last (history s)) as [e|] eqn:He; [|done]. apply last_Some in He as [h Hh].
  destruct e as [[i|] [|pod| | | |] after] eqn:Hee; try done. apply negb_true_iff in H.
  exists s, e, pod, i. subst e. split_and!; try done; [rewrite Hh; set_solver|]. split; [done|].
  intros id st. unfold verify. by rewrite H.
Qed.
