(* ===== verification/Directory.v ===== *)
(** * The session directory

    [crates/buzz-relay/src/tunnel/directory.rs]: which runtime of a mesh owns a
    session, arbitrated by Redis.  The scripts are functions on the keys they read
    and write; the methods are programs ([Effect]) that have one evaluated.

    A [Uuid] is its canonical text, a [RuntimeId] its 64 hexadecimal digits; that
    they are is what [uuid_ok] and [runtime_ok] say, over the crates that format them
    ([IdOps]).  Error texts are left out. *)

From stdpp Require Import base gmap strings list.
From Stdlib Require Import ZArith NArith Lia Ascii.
From S2P Require Import Prelude Text Nostr AudioRoom HuddleMedia Effect.

Local Open Scope list_scope.

(** ** Identifiers *)

(** The crates [hex] and [uuid], as far as the code relies on them. *)
Class IdOps := {
  hex_encode : Bytes → string;
  hex_decode : string → option Bytes;
  uuid_of_bytes : Bytes → Uuid;
  uuid_as_bytes : Uuid → Bytes;
}.

Definition byte_ok (b : Z) : bool := (0 <=? b)%Z && (b <? 256)%Z.

(** Two digits a byte, in either case; 36 characters for sixteen bytes, which read back. *)
Class IdLaws `{IdOps} : Prop := {
  hex_decode_digits s bs : hex_decode s = Some bs → chars_all is_ascii_hexdigit s = true;
  hex_decode_length s bs : hex_decode s = Some bs → String.length s = (2 * length bs)%nat;
  uuid_text_length bs : length bs = 16 → String.length (uuid_of_bytes bs) = 36;
  uuid_roundtrip bs :
    length bs = 16 → Forall (λ b, byte_ok b = true) bs → uuid_as_bytes (uuid_of_bytes bs) = bs;
}.

Section identifiers.
Context `{IO : IdOps}.

(** The canonical text of sixteen bytes. *)
Definition uuid_ok (u : Uuid) : bool :=
  bool_decide (length (uuid_as_bytes u) = 16) && forallb byte_ok (uuid_as_bytes u) &&
  bool_decide (uuid_of_bytes (uuid_as_bytes u) = u).

(** [RuntimeId(hex::decode(s)?.try_into()?)], as its [to_hex()]. *)
Definition runtime_of_hex (s : string) : option RuntimeId :=
  bs ← hex_decode s; if bool_decide (length bs = 32) then Some (hex_encode bs) else None.

Definition runtime_ok (r : RuntimeId) : bool := bool_decide (runtime_of_hex r = Some r).
End identifiers.

(** ** Redis *)

(** A value, and its expiry in milliseconds if it has one. *)
Record RedisValue := { rv_text : string; rv_px : option Z }.
Abbreviation Redis := (gmap string RedisValue).

Definition redis_get (key : string) (r : Redis) : option string := rv_text <$> r !! key.
Definition redis_set_px (key value : string) (ttl_ms : Z) (r : Redis) : Redis :=
  <[key := {| rv_text := value; rv_px := Some ttl_ms |}]> r.
Definition redis_pexpire (key : string) (ttl_ms : Z) (r : Redis) : Redis :=
  match r !! key with Some v => <[key := {| rv_text := rv_text v; rv_px := Some ttl_ms |}]> r | None => r end.

Definition i64_max : N := 9223372036854775807.

(** [INCR] of a key that is missing or holds a non-negative integer, keeping its
    expiry; anything else is an error. *)
Definition redis_incr (key : string) (r : Redis) : option (N * Redis) :=
  let text := default "0" (redis_get key r) in
  n ← parse_u64 text;
  if bool_decide (decimal n = text) && (n <? i64_max)%N
  then Some ((n + 1)%N, <[key := {| rv_text := decimal (n + 1); rv_px := r !! key ≫= rv_px |}]> r)
  else None.

(** Lua's [tostring] of a number prints fourteen digits. *)
Definition LUA_EXACT : N := 100000000000000.

(** ** The scripts *)

Definition bar : ascii := "|"%char.

Inductive Script :=
  | Acquire (owner profile : string) (ttl_ms : Z)
  | Renew (owner generation : string) (ttl_ms : Z)
  | Release (owner generation : string).

(** What a script returns; a missing key is the empty string. *)
Definition ScriptReply : Type := string * string * string.

Definition acquire_script (lease_key generation_key owner profile : string) (ttl_ms : Z) (r : Redis)
    : option (ScriptReply * Redis) :=
  match redis_get lease_key r with
  | Some current => Some ("exists", current, default "" (redis_get generation_key r), r)
  | None =>
      '(generation, r) ← redis_incr generation_key r;
      if (generation <? LUA_EXACT)%N then
        let value := owner +:+ String bar (decimal generation +:+ String bar profile) in
        Some ("acquired", value, decimal generation, redis_set_px lease_key value ttl_ms r)
      else None
  end.

(** [string.match(current, '^([^|]+)|([^|]+)|([^|]+)$')] *)
Definition lua_match (current : string) : option (string * string * string) :=
  match split_on bar current with
  | [a; b; c] =>
      if bool_decide (a = "") || bool_decide (b = "") || bool_decide (c = "") then None else Some (a, b, c)
  | _ => None
  end.

(** Whether the lease is the one of [owner] and [generation]. *)
Definition lease_matches (owner generation current : string) : bool :=
  match lua_match current with
  | Some (o, g, _) => bool_decide (o = owner) && bool_decide (g = generation)
  | None => false
  end.

Definition current_generation (current : string) : string :=
  match lua_match current with Some (_, g, _) => g | None => "" end.

Definition renew_script (lease_key generation_key owner generation : string) (ttl_ms : Z) (r : Redis)
    : ScriptReply * Redis :=
  match redis_get lease_key r with
  | None => ("missing", "", default "" (redis_get generation_key r), r)
  | Some current =>
      let known := default (current_generation current) (redis_get generation_key r) in
      if lease_matches owner generation current then ("renewed", current, known, redis_pexpire lease_key ttl_ms r)
      else ("lost", current, known, r)
  end.

Definition release_script (lease_key generation_key owner generation : string) (r : Redis) : ScriptReply * Redis :=
  match redis_get lease_key r with
  | None => ("missing", "", default "" (redis_get generation_key r), r)
  | Some current =>
      let known := default (current_generation current) (redis_get generation_key r) in
      if lease_matches owner generation current then ("released", current, known, delete lease_key r)
      else ("lost", current, known, r)
  end.

Definition validate_script (lease_key generation_key : string) (r : Redis) : string * string :=
  (default "" (redis_get lease_key r), default "" (redis_get generation_key r)).

Definition eval_script (script : Script) (lease_key generation_key : string) (r : Redis) : option (ScriptReply * Redis) :=
  match script with
  | Acquire owner profile ttl => acquire_script lease_key generation_key owner profile ttl r
  | Renew owner generation ttl => Some (renew_script lease_key generation_key owner generation ttl r)
  | Release owner generation => Some (release_script lease_key generation_key owner generation r)
  end.

(** ** Leases *)

Inductive Profile := ReliableStream | RealtimeMedia | HuddleControl.

#[export] Instance Profile_eq_dec : EqDecision Profile.
Proof. solve_decision. Defined.

Definition as_wire_str (p : Profile) : string :=
  match p with
  | ReliableStream => "reliable-stream"
  | RealtimeMedia => "realtime-media"
  | HuddleControl => "huddle-control"
  end.

Definition profile_from_wire (s : string) : option Profile :=
  if bool_decide (s = "reliable-stream") then Some ReliableStream
  else if bool_decide (s = "realtime-media") then Some RealtimeMedia
  else if bool_decide (s = "huddle-control") then Some HuddleControl
  else None.

Record SessionLease := {
  sl_community_id : CommunityId;
  sl_session_id : Uuid;
  sl_owner_runtime_id : RuntimeId;
  sl_generation : Z;
  sl_profile : Profile;
}.

#[export] Instance SessionLease_eq_dec : EqDecision SessionLease.
Proof. solve_decision. Defined.

Definition fenced_header (l : SessionLease) : FencedHeader :=
  MkFenced (sl_session_id l) (sl_generation l) (sl_owner_runtime_id l).

(** [Panic] is not of the code: it stands for the panic of an [expect]. *)
Inductive DirectoryError :=
  | Pool
  | RedisError
  | MalformedLease
  | MalformedGeneration
  | UnexpectedScriptStatus
  | InvalidLeaseTtl
  | CommunityWriteFenced
  | Panic.

Section leases.
Context `{IO : IdOps}.

Definition parse_lease (community session : Uuid) (value : string) : result DirectoryError SessionLease :=
  match split_on bar value with
  | [owner; generation; profile] =>
      match parse_u64 generation, profile_from_wire profile, runtime_of_hex owner with
      | Some g, Some p, Some o =>
          if (g =? 0)%N then Err MalformedLease
          else Ok {| sl_community_id := community; sl_session_id := session; sl_owner_runtime_id := o;
                     sl_generation := Z.of_N g; sl_profile := p |}
      | _, _, _ => Err MalformedLease
      end
  | _ => Err MalformedLease
  end.

Definition parse_optional_lease (community session : Uuid) (value : string)
    : result DirectoryError (option SessionLease) :=
  if bool_decide (value = "") then Ok None
  else match parse_lease community session value with Ok l => Ok (Some l) | Err e => Err e end.

End leases.

Definition parse_optional_generation (value : string) : result DirectoryError (option Z) :=
  if bool_decide (value = "") then Ok None
  else match parse_u64 value with
       | Some g => if (g =? 0)%N then Err MalformedGeneration else Ok (Some (Z.of_N g))
       | None => Err MalformedGeneration
       end.

Definition session_base (community session : Uuid) : string :=
  "buzz:" +:+ community +:+ ":tunnel:" +:+ session.
Definition lease_key (community session : Uuid) : string := session_base community session +:+ ":lease".
Definition generation_key (community session : Uuid) : string := session_base community session +:+ ":generation".

(** ** Programs *)

Inductive StreamRole := Control | Session (fenced : FencedHeader) (profile : Profile).
Record StreamHello := { sh_sender : RuntimeId; sh_role : StreamRole }.

(** A frame of a mesh stream; its payload is bytes here. *)
Abbreviation TunnelFrame := (MeshStreamFrame Bytes).

Inductive TunnelOp :=
  | BeginServingWrite (community : CommunityId)
  | FinishServingWrite
  | Eval (script : Script) (lease generation : string)
  | EvalValidate (lease generation : string)
  | Get (key : string)
  | OpenSessionStream (owner : RuntimeId) (hello : StreamHello)
  | SendFrame (stream : nat) (frame : TunnelFrame)
  | FinishStream (stream : nat)
  | RecvFrame (stream : nat)
  | AwaitTick
  | CancelLost (lease : SessionLease).

Definition TunnelReply (op : TunnelOp) : Type :=
  match op with
  | BeginServingWrite _ | FinishServingWrite => result DirectoryError unit
  | Eval _ _ _ => result DirectoryError ScriptReply
  | EvalValidate _ _ => result DirectoryError (string * string)
  | Get _ => result DirectoryError (option string)
  | OpenSessionStream _ _ => result MeshError nat
  | SendFrame _ _ | FinishStream _ => result MeshError unit
  | RecvFrame _ => result MeshError (option TunnelFrame)
  | AwaitTick => bool
  | CancelLost _ => unit
  end.

Definition tprog (A : Type) : Type := eff TunnelOp TunnelReply A.

(** Programs that fail with a [DirectoryError]. *)
Definition DE (A : Type) : Type := tprog (result DirectoryError A).
#[export] Instance de_bind : MBind DE := λ A B f p, try_bind p f.
Definition de_ok {A} (a : A) : DE A := Pure (Ok a).
Definition de_fail {A} (e : DirectoryError) : DE A := Pure (Err e).
Definition of_result {A} (r : result DirectoryError A) : DE A := Pure r.

(** Programs that fail with a [MeshError]. *)
Definition ME (A : Type) : Type := tprog (result MeshError A).

(** [has_db]: whether writes are fenced by the deletion of the community. *)
Record SessionDirectory := { lease_ttl : Z; has_db : bool }.

Definition i64_max_z : Z := Z.of_N i64_max.
Definition ttl_ms (ttl : Z) : result DirectoryError Z :=
  let ms := (ttl / 1000000)%Z in
  if ((0 <? ms) && (ms <=? i64_max_z))%Z then Ok ms else Err InvalidLeaseTtl.

Definition begin_serving_write (d : SessionDirectory) (community : CommunityId) : DE unit :=
  if has_db d then Perform (BeginServingWrite community) Pure else de_ok tt.
Definition finish_serving_write (d : SessionDirectory) : DE unit :=
  if has_db d then Perform FinishServingWrite Pure else de_ok tt.
Definition eval (script : Script) (lease generation : string) : DE ScriptReply :=
  Perform (Eval script lease generation) Pure.

Inductive AcquireResult := AcquireAcquired (l : SessionLease) | AcquireExists (l : SessionLease).
Inductive RenewResult :=
  | RenewRenewed (l : SessionLease)
  | RenewLost (current : option SessionLease) (known_generation : option Z).
Inductive ReleaseResult :=
  | ReleaseReleased (l : SessionLease)
  | ReleaseNotOwner (current : option SessionLease) (known_generation : option Z).

Section operations.
Context `{IO : IdOps}.

Definition dir_acquire (d : SessionDirectory) (community session : Uuid) (owner : RuntimeId) (profile : Profile)
    : DE AcquireResult :=
  _ ← begin_serving_write d community;
  ms ← of_result (ttl_ms (lease_ttl d));
  reply ← eval (Acquire owner (as_wire_str profile) ms) (lease_key community session) (generation_key community session);
  let '(status, value, _) := reply in
  lease ← of_result (parse_lease community session value);
  _ ← finish_serving_write d;
  if bool_decide (status = "acquired") then de_ok (AcquireAcquired lease)
  else if bool_decide (status = "exists") then de_ok (AcquireExists lease)
  else de_fail UnexpectedScriptStatus.

Definition takeover := dir_acquire.

(** [current.expect('renewed returns lease')] *)
Definition of_current {A} (f : SessionLease → A) (current : option SessionLease) : DE A :=
  match current with Some l => de_ok (f l) | None => de_fail Panic end.

Definition dir_renew (d : SessionDirectory) (l : SessionLease) : DE RenewResult :=
  _ ← begin_serving_write d (sl_community_id l);
  ms ← of_result (ttl_ms (lease_ttl d));
  reply ← eval (Renew (sl_owner_runtime_id l) (decimal (Z.to_N (sl_generation l))) ms)
    (lease_key (sl_community_id l) (sl_session_id l)) (generation_key (sl_community_id l) (sl_session_id l));
  let '(status, value, known) := reply in
  current ← of_result (parse_optional_lease (sl_community_id l) (sl_session_id l) value);
  _ ← finish_serving_write d;
  if bool_decide (status = "renewed") then of_current RenewRenewed current
  else if bool_decide (status = "missing") || bool_decide (status = "lost") then
    g ← of_result (parse_optional_generation known); de_ok (RenewLost current g)
  else de_fail UnexpectedScriptStatus.

Definition dir_release (d : SessionDirectory) (l : SessionLease) : DE ReleaseResult :=
  _ ← begin_serving_write d (sl_community_id l);
  reply ← eval (Release (sl_owner_runtime_id l) (decimal (Z.to_N (sl_generation l))))
    (lease_key (sl_community_id l) (sl_session_id l)) (generation_key (sl_community_id l) (sl_session_id l));
  let '(status, value, known) := reply in
  current ← of_result (parse_optional_lease (sl_community_id l) (sl_session_id l) value);
  _ ← finish_serving_write d;
  if bool_decide (status = "released") then of_current ReleaseReleased current
  else if bool_decide (status = "missing") || bool_decide (status = "lost") then
    g ← of_result (parse_optional_generation known); de_ok (ReleaseNotOwner current g)
  else de_fail UnexpectedScriptStatus.

Definition lookup_lease (community session : Uuid) : DE (option SessionLease) :=
  value ← (Perform (Get (lease_key community session)) Pure : DE (option string));
  match value with
  | None => de_ok None
  | Some v => l ← of_result (parse_lease community session v); de_ok (Some l)
  end.

Definition known_generation (community session : Uuid) : DE (option Z) :=
  value ← (Perform (Get (generation_key community session)) Pure : DE (option string));
  match value with Some v => of_result (parse_optional_generation v) | None => de_ok None end.

(** [known_generation] and the live lease against the fence of a frame. *)
Definition check_fenced (community : CommunityId) (fenced : FencedHeader) (known_from_counter : option Z)
    (current : option SessionLease) : result MeshError unit :=
  let counter := default 0%Z known_from_counter in
  let known := Z.max (default counter (sl_generation <$> current)) counter in
  let g := fh_generation fenced in
  if ((0 <? known) && (g <? known))%Z then Err (StaleGeneration (fh_session_id fenced) g known)
  else
    match current with
    | None => Err (NoActiveLease (fh_session_id fenced) g known (fh_owner_runtime_id fenced))
    | Some l =>
        if negb (g =? sl_generation l)%Z then Err (FutureGeneration (fh_session_id fenced) g (sl_generation l))
        else if negb (bool_decide (fh_owner_runtime_id fenced = sl_owner_runtime_id l)) then
          Err (OwnerMismatch (fh_session_id fenced) g (fh_owner_runtime_id fenced) (sl_owner_runtime_id l))
        else Ok tt
    end.

Definition validate_fenced_header (community : CommunityId) (fenced : FencedHeader) : ME unit :=
  Perform (EvalValidate (lease_key community (fh_session_id fenced)) (generation_key community (fh_session_id fenced)))
    (λ r, Pure
      match r with
      | Err Pool => Err (Transport "")
      | Err _ => Err (HuddleMedia.Redis "")
      | Ok (lease, known) =>
          match parse_optional_generation known with
          | Err _ => Err (Transport "")
          | Ok counter =>
              match parse_optional_lease community (fh_session_id fenced) lease with
              | Err _ => Err (Transport "")
              | Ok current => check_fenced community fenced counter current
              end
          end
      end).
End operations.
