(* ===== verification/Register.v ===== *)
(** * The session directory as a fenced register

    What the directory promises of one session: a counter that only grows and a
    lease that carries the counter ([Register], [register_apply]).  The keys of a
    session represent a register as long as they are well formed ([session_ok]),
    which every script preserves, and every script is the register's operation
    ([acquire_refines], [renew_refines], [release_refines], [check_refines]). *)

From stdpp Require Import base gmap strings list.
From Stdlib Require Import ZArith NArith Lia Ascii.
From S2P Require Import Prelude Text Nostr AudioRoom HuddleMedia Effect Directory.

Local Open Scope list_scope.

(** ** The register *)

Record Register := { rg_counter : Z; rg_lease : option SessionLease }.

Inductive DirRequest :=
  | DAcquire (community : CommunityId) (session : Uuid) (owner : RuntimeId) (profile : Profile)
  | DRenew (l : SessionLease)
  | DRelease (l : SessionLease)
  | DLookup (community : CommunityId) (session : Uuid)
  | DKnown (community : CommunityId) (session : Uuid)
  | DValidate (community : CommunityId) (fenced : FencedHeader).

Inductive DirOutcome :=
  | OAcquire (r : AcquireResult)
  | ORenew (r : RenewResult)
  | ORelease (r : ReleaseResult)
  | OLookup (l : option SessionLease)
  | OKnown (g : option Z)
  | OValidate (r : result MeshError unit).

Definition dr_community (q : DirRequest) : CommunityId :=
  match q with
  | DAcquire c _ _ _ | DLookup c _ | DKnown c _ | DValidate c _ => c
  | DRenew l | DRelease l => sl_community_id l
  end.
Definition dr_session (q : DirRequest) : Uuid :=
  match q with
  | DAcquire _ s _ _ | DLookup _ s | DKnown _ s => s
  | DRenew l | DRelease l => sl_session_id l
  | DValidate _ f => fh_session_id f
  end.

Definition rg_known (reg : Register) : option Z := if (rg_counter reg =? 0)%Z then None else Some (rg_counter reg).

(** The live lease, if it is of the owner and the generation of [l]. *)
Definition holds (reg : Register) (l : SessionLease) : option SessionLease :=
  l' ← rg_lease reg;
  if bool_decide (sl_owner_runtime_id l' = sl_owner_runtime_id l) && (sl_generation l' =? sl_generation l)%Z
  then Some l' else None.

(** Whether a frame may pass: only under the live lease itself. *)
Definition fence_verdict (fenced : FencedHeader) (reg : Register) : result MeshError unit :=
  let s := fh_session_id fenced in let g := fh_generation fenced in let o := fh_owner_runtime_id fenced in
  if (g <? rg_counter reg)%Z then Err (StaleGeneration s g (rg_counter reg))
  else match rg_lease reg with
       | None => Err (NoActiveLease s g (rg_counter reg) o)
       | Some l => if (sl_generation l <? g)%Z then Err (FutureGeneration s g (sl_generation l))
                   else if bool_decide (o = sl_owner_runtime_id l) then Ok tt
                   else Err (OwnerMismatch s g o (sl_owner_runtime_id l))
       end.

Definition register_apply (q : DirRequest) (reg : Register) : DirOutcome * Register :=
  match q with
  | DAcquire c s owner p =>
      match rg_lease reg with
      | Some l => (OAcquire (AcquireExists l), reg)
      | None =>
          let l := {| sl_community_id := c; sl_session_id := s; sl_owner_runtime_id := owner;
                      sl_generation := rg_counter reg + 1; sl_profile := p |} in
          (OAcquire (AcquireAcquired l), {| rg_counter := rg_counter reg + 1; rg_lease := Some l |})
      end
  | DRenew l =>
      match holds reg l with
      | Some l' => (ORenew (RenewRenewed l'), reg)
      | None => (ORenew (RenewLost (rg_lease reg) (rg_known reg)), reg)
      end
  | DRelease l =>
      match holds reg l with
      | Some l' => (ORelease (ReleaseReleased l'), {| rg_counter := rg_counter reg; rg_lease := None |})
      | None => (ORelease (ReleaseNotOwner (rg_lease reg) (rg_known reg)), reg)
      end
  | DLookup _ _ => (OLookup (rg_lease reg), reg)
  | DKnown _ _ => (OKnown (rg_known reg), reg)
  | DValidate _ fenced => (OValidate (fence_verdict fenced reg), reg)
  end.

(** All that can happen to a register. *)
Definition register_step (c s : Uuid) (reg reg' : Register) : Prop :=
  reg' = reg ∨ reg' = {| rg_counter := rg_counter reg; rg_lease := None |} ∨
  (rg_lease reg = None ∧ ∃ owner p, reg' = (register_apply (DAcquire c s owner p) reg).2).

(** ** The keys of a session *)

Section keys.
Context `{IO : IdOps}.

Definition register (c s : Uuid) (r : Redis) : Register := {|
  rg_counter := default 0%Z (Z.of_N <$> (redis_get (generation_key c s) r ≫= parse_u64));
  rg_lease := redis_get (lease_key c s) r ≫= λ v, match parse_lease c s v with Ok l => Some l | Err _ => None end |}.

Definition lease_text (owner : RuntimeId) (n : N) (p : Profile) : string :=
  owner +:+ String bar (decimal n +:+ String bar (as_wire_str p)).

Definition counter_ok (n : N) : Prop := (0 < n)%N ∧ (n < LUA_EXACT)%N.

Definition session_ok (c s : Uuid) (r : Redis) : Prop :=
  match r !! generation_key c s with
  | None => r !! lease_key c s = None
  | Some v =>
      ∃ n, v = {| rv_text := decimal n; rv_px := None |} ∧ counter_ok n ∧
        match r !! lease_key c s with
        | None => True
        | Some v => ∃ owner p ms, runtime_ok owner = true ∧ v = {| rv_text := lease_text owner n p; rv_px := Some ms |}
        end
  end.

(** ** Identifiers *)

Context {IL : IdLaws}.

Lemma uuid_length u : uuid_ok u = true → String.length u = 36%nat.
Proof.
  unfold uuid_ok. intros [[Hl _]%andb_prop <-%bool_decide_eq_true]%andb_prop. apply bool_decide_eq_true in Hl.
  by apply uuid_text_length.
Qed.

Lemma uuid_of_bytes_ok bs :
  length bs = 16 → Forall (λ b, byte_ok b = true) bs → uuid_ok (uuid_of_bytes bs) = true.
Proof.
  intros Hl Hall. unfold uuid_ok. rewrite uuid_roundtrip, !bool_decide_eq_true_2 by done. cbn. rewrite andb_true_r.
  apply forallb_forall. intros b Hb%list_elem_of_In. by eapply Forall_forall in Hall.
Qed.

Lemma keys_inj c s c' s' a a' :
  uuid_ok c = true → uuid_ok s = true → uuid_ok c' = true → uuid_ok s' = true →
  session_base c s +:+ a = session_base c' s' +:+ a' → c = c' ∧ s = s' ∧ a = a'.
Proof.
  unfold session_base. intros Hc%uuid_length Hs%uuid_length Hc'%uuid_length Hs'%uuid_length.
  rewrite <-!string_app_assoc. intros [_ H]%string_app_inj; [|done].
  apply string_app_inj in H as [-> H]; [|congruence]. apply string_app_inj in H as [_ H]; [|done].
  by apply string_app_inj in H as [-> ->]; [|congruence].
Qed.

Lemma lease_key_ne c s c' s' :
  uuid_ok c = true → uuid_ok s = true → uuid_ok c' = true → uuid_ok s' = true → lease_key c s ≠ generation_key c' s'.
Proof. intros Hc Hs Hc' Hs' H. by destruct (keys_inj _ _ _ _ _ _ Hc Hs Hc' Hs' H) as (_ & _ & ?). Qed.

Definition no_bar (s : string) : Prop := string_contains bar s = false.

Lemma runtime_decodes o : runtime_ok o = true → ∃ bs, hex_decode o = Some bs ∧ length bs = 32.
Proof.
  unfold runtime_ok, runtime_of_hex. intros H%bool_decide_eq_true. destruct (hex_decode o) as [bs|]; [|done].
  cbn in H. case_bool_decide; [|done]. by exists bs.
Qed.

Lemma runtime_bar o : runtime_ok o = true → no_bar o.
Proof. intros (bs & Hd & _)%runtime_decodes. apply (chars_all_contains is_ascii_hexdigit); [done|]. by eapply hex_decode_digits. Qed.

Lemma runtime_nonempty o : runtime_ok o = true → o ≠ "".
Proof. intros (bs & Hd & Hl)%runtime_decodes ->. apply hex_decode_length in Hd. rewrite Hl in Hd. discriminate Hd. Qed.

Lemma decimal_digits_bar fuel n acc : no_bar acc → no_bar (decimal_digits fuel n acc).
Proof.
  assert (∀ m, ascii_of_N (48 + m mod 10) ≠ bar) as Hd.
  { intros m H. apply (f_equal N_of_ascii) in H. rewrite N_ascii_embedding in H by (pose proof (N.mod_lt m 10); lia).
    pose proof (N.mod_lt m 10). change (N_of_ascii bar) with 124%N in H. lia. }
  revert n acc. induction fuel as [|fuel IH]; intros n acc Ha; cbn [decimal_digits].
  - unfold no_bar in *. simpl. by rewrite bool_decide_eq_false_2 by apply Hd.
  - assert (no_bar (String (ascii_of_N (48 + n mod 10)) acc)) as Hb.
    { unfold no_bar in *. simpl. by rewrite bool_decide_eq_false_2 by apply Hd. }
    case_match; [done|]. by apply IH.
Qed.

Lemma decimal_bar n : no_bar (decimal n).
Proof. by apply decimal_digits_bar. Qed.

Lemma decimal_ne n : decimal n ≠ "".
Proof. destruct (decimal_nonempty (N.size_nat n) n "") as (m & s & _ & Heq). unfold decimal. by rewrite Heq. Qed.

Lemma exact_u64 n : counter_ok n → (n <= U64_MAX)%N.
Proof. unfold counter_ok, LUA_EXACT, U64_MAX. lia. Qed.

Lemma decimal_inj n m : (n <= U64_MAX)%N → (m <= U64_MAX)%N → decimal n = decimal m → n = m.
Proof. intros Hn%parse_decimal Hm%parse_decimal Heq. congruence. Qed.

(** ** The value of a lease *)

Definition lease_of (c s : Uuid) (owner : RuntimeId) (n : N) (p : Profile) : SessionLease := {|
  sl_community_id := c; sl_session_id := s; sl_owner_runtime_id := owner; sl_generation := Z.of_N n; sl_profile := p |}.

Lemma split_lease_text owner n p :
  runtime_ok owner = true → split_on bar (lease_text owner n p) = [owner; decimal n; as_wire_str p].
Proof.
  intros Ho%runtime_bar. unfold lease_text. rewrite split_on_app by done. rewrite split_on_app by apply decimal_bar.
  rewrite split_on_none by by destruct p. done.
Qed.

Lemma profile_wire p : profile_from_wire (as_wire_str p) = Some p.
Proof. by destruct p. Qed.

Lemma parse_lease_text c s owner n p :
  runtime_ok owner = true → counter_ok n → parse_lease c s (lease_text owner n p) = Ok (lease_of c s owner n p).
Proof.
  intros Ho Hn. unfold parse_lease. rewrite split_lease_text by done.
  rewrite parse_decimal by by apply exact_u64. rewrite profile_wire.
  apply bool_decide_eq_true in Ho. rewrite Ho. destruct Hn. by destruct (N.eqb_spec n 0); [lia|].
Qed.

Lemma lua_match_text owner n p :
  runtime_ok owner = true → lua_match (lease_text owner n p) = Some (owner, decimal n, as_wire_str p).
Proof.
  intros Ho. unfold lua_match. rewrite split_lease_text by done.
  rewrite !bool_decide_eq_false_2; [done|by destruct p|apply decimal_ne|by apply runtime_nonempty].
Qed.

Lemma lease_text_ne owner n p : lease_text owner n p ≠ "".
Proof. unfold lease_text. by destruct owner. Qed.

Lemma parse_optional_text c s owner n p :
  runtime_ok owner = true → counter_ok n →
  parse_optional_lease c s (lease_text owner n p) = Ok (Some (lease_of c s owner n p)).
Proof.
  intros. unfold parse_optional_lease. rewrite bool_decide_eq_false_2 by apply lease_text_ne. by rewrite parse_lease_text.
Qed.

Lemma parse_optional_decimal n : counter_ok n → parse_optional_generation (decimal n) = Ok (Some (Z.of_N n)).
Proof.
  intros Hn. unfold parse_optional_generation. rewrite bool_decide_eq_false_2 by apply decimal_ne.
  rewrite parse_decimal by by apply exact_u64. destruct Hn. by destruct (N.eqb_spec n 0); [lia|].
Qed.

(** The register a session's keys represent, in the three cases there are. *)
Inductive represents (c s : Uuid) (r : Redis) : Register → Prop :=
  | rep_fresh :
      r !! generation_key c s = None → r !! lease_key c s = None →
      represents c s r {| rg_counter := 0; rg_lease := None |}
  | rep_free n :
      r !! generation_key c s = Some {| rv_text := decimal n; rv_px := None |} → r !! lease_key c s = None → counter_ok n →
      represents c s r {| rg_counter := Z.of_N n; rg_lease := None |}
  | rep_held n owner p ms :
      r !! generation_key c s = Some {| rv_text := decimal n; rv_px := None |} →
      r !! lease_key c s = Some {| rv_text := lease_text owner n p; rv_px := Some ms |} →
      counter_ok n → runtime_ok owner = true →
      represents c s r {| rg_counter := Z.of_N n; rg_lease := Some (lease_of c s owner n p) |}.

Lemma session_represents c s r : session_ok c s r → represents c s r (register c s r).
Proof.
  unfold session_ok, register, redis_get. destruct (r !! generation_key c s) as [v|] eqn:Hg.
  - intros (n & -> & Hn & H). cbn. rewrite parse_decimal by by apply exact_u64. cbn.
    destruct (r !! lease_key c s) as [v|] eqn:Hl; cbn; [|by apply rep_free].
    destruct H as (owner & p & ms & Ho & ->). cbn. rewrite parse_lease_text by done. by apply (rep_held _ _ _ n owner p ms).
  - intros Hl. cbn. rewrite Hl. by apply rep_fresh.
Qed.

Lemma represents_session c s r reg : represents c s r reg → session_ok c s r ∧ register c s r = reg.
Proof.
  unfold session_ok, register, redis_get. destruct 1 as [Hg Hl|n Hg Hl Hn|n owner p ms Hg Hl Hn Ho]; rewrite Hg, Hl; cbn.
  - done.
  - rewrite parse_decimal by by apply exact_u64. split; [|done]. by exists n.
  - rewrite parse_decimal by by apply exact_u64. rewrite parse_lease_text by done. split; [|done].
    exists n. split_and!; [done..|]. by exists owner, p, ms.
Qed.

(** ** The scripts are the register's operations *)

Section scripts.
Context (c s : Uuid) (Hc : uuid_ok c = true) (Hs : uuid_ok s = true).

Lemma own_keys_ne : lease_key c s ≠ generation_key c s.
Proof using All. by apply lease_key_ne. Qed.

Lemma redis_incr_fresh r :
  r !! generation_key c s = None →
  redis_incr (generation_key c s) r = Some (1%N, <[generation_key c s := {| rv_text := decimal 1; rv_px := None |}]> r).
Proof. intros H. unfold redis_incr, redis_get. by rewrite H. Qed.

Lemma redis_incr_next r n :
  r !! generation_key c s = Some {| rv_text := decimal n; rv_px := None |} → counter_ok n →
  redis_incr (generation_key c s) r =
    Some ((n + 1)%N, <[generation_key c s := {| rv_text := decimal (n + 1); rv_px := None |}]> r).
Proof.
  intros H Hn. unfold redis_incr, redis_get. rewrite H.
  cbn [fmap option_fmap option_map default from_option rv_text id rv_px mbind option_bind].
  rewrite parse_decimal by by apply exact_u64. cbn [mbind option_bind]. rewrite bool_decide_eq_true_2 by done.
  assert ((n <? i64_max)%N = true) as -> by (apply N.ltb_lt; unfold counter_ok, LUA_EXACT, i64_max in *; lia). done.
Qed.

(** What the reply of [Acquire] says. *)
Definition acquire_reply (out : AcquireResult) (status value : string) : Prop :=
  match out with
  | AcquireAcquired l => status = "acquired" ∧ parse_lease c s value = Ok l
  | AcquireExists l => status = "exists" ∧ parse_lease c s value = Ok l
  end.

Lemma acquire_free r n owner p ms :
  runtime_ok owner = true → r !! lease_key c s = None → (n + 1 <? LUA_EXACT)%N = true →
  let value := lease_text owner (n + 1) p in
  let r' := redis_set_px (lease_key c s) value ms
    (<[generation_key c s := {| rv_text := decimal (n + 1); rv_px := None |}]> r) in
  acquire_reply (AcquireAcquired (lease_of c s owner (n + 1) p)) "acquired" value ∧
  represents c s r' {| rg_counter := Z.of_N (n + 1); rg_lease := Some (lease_of c s owner (n + 1) p) |}.
Proof using All.
  intros Ho Hl Hn%N.ltb_lt value r'. assert (counter_ok (n + 1)) as Hok by (unfold counter_ok; lia). split.
  - split; [done|]. by apply parse_lease_text.
  - apply (rep_held _ _ _ _ owner p ms); [|by unfold r', redis_set_px; rewrite lookup_insert_eq|done|done].
    unfold r', redis_set_px. rewrite lookup_insert_ne by apply own_keys_ne. by rewrite lookup_insert_eq.
Qed.

Lemma acquire_refines r reg owner p ms status value known r' :
  represents c s r reg → runtime_ok owner = true →
  acquire_script (lease_key c s) (generation_key c s) owner (as_wire_str p) ms r = Some (status, value, known, r') →
  ∃ out reg', register_apply (DAcquire c s owner p) reg = (OAcquire out, reg') ∧
    acquire_reply out status value ∧ represents c s r' reg'.
Proof using All.
  intros Hrep Ho. unfold acquire_script, redis_get. pose proof Hrep as Hrep0.
  destruct Hrep as [Hg Hl|n Hg Hl Hn|n o q px Hg Hl Hn Hok]; rewrite Hl; cbn [fmap option_fmap option_map].
  - rewrite redis_incr_fresh by done. intros [= <- <- <- <-]. do 2 eexists. split; [reflexivity|].
    by apply (acquire_free r 0).
  - rewrite (redis_incr_next _ n) by done. cbn [mbind option_bind]. destruct (n + 1 <? LUA_EXACT)%N eqn:Hlt; [|done].
    intros [= <- <- <- <-]. do 2 eexists. split; [reflexivity|]. cbn [rg_counter].
    replace (Z.of_N n + 1)%Z with (Z.of_N (n + 1)) by lia. by apply (acquire_free r n).
  - intros [= <- <- <- <-]. do 2 eexists. split; [reflexivity|]. split; [|done]. split; [done|].
    by apply parse_lease_text.
Qed.

(** *** Renewing and releasing *)

Lemma lease_matches_text n o p owner g :
  runtime_ok o = true → counter_ok n → (0 ≤ g ≤ Z.of_N U64_MAX)%Z →
  lease_matches owner (decimal (Z.to_N g)) (lease_text o n p) = bool_decide (o = owner) && (Z.of_N n =? g)%Z.
Proof.
  intros Ho Hn Hg. unfold lease_matches. rewrite lua_match_text by done. f_equal.
  destruct (Z.eqb_spec (Z.of_N n) g) as [<-|Hne]; [by rewrite N2Z.id, bool_decide_eq_true_2|].
  apply bool_decide_eq_false_2. intros Heq%decimal_inj; [lia|by apply exact_u64|]. unfold U64_MAX in *. lia.
Qed.

Definition changed_reply {A} (done : SessionLease → A) (not : option SessionLease → option Z → A)
    (ok : string) (out : A) (status value known : string) : Prop :=
  (status = ok ∧ ∃ l, out = done l ∧ parse_optional_lease c s value = Ok (Some l)) ∨
  ((status = "missing" ∨ status = "lost") ∧ ∃ current g, out = not current g ∧
     parse_optional_lease c s value = Ok current ∧ parse_optional_generation known = Ok g).

(** A reply that the session's lease, if there is one, is of someone else. *)
Lemma lost_reply {A} (yes : SessionLease → A) not ok status r reg known :
  represents c s r reg → status = "missing" ∨ status = "lost" →
  known = default "" (redis_get (generation_key c s) r) →
  changed_reply yes not ok (not (rg_lease reg) (rg_known reg)) status
    (default "" (redis_get (lease_key c s) r)) known.
Proof.
  intros Hrep Hst ->. right. split; [done|]. exists (rg_lease reg), (rg_known reg). split; [done|]. unfold redis_get, rg_known.
  destruct Hrep as [Hg Hl|n Hg Hl Hn|n o q px Hg Hl Hn Ho]; rewrite Hg, Hl; cbn [fmap option_fmap option_map default
    from_option id rv_text rg_lease rg_counter]; [done|..]; rewrite parse_optional_decimal by done;
    (assert ((Z.of_N n =? 0)%Z = false) as -> by (apply Z.eqb_neq; unfold counter_ok in *; lia)); [done|].
  by rewrite parse_optional_text.
Qed.

(** [Renew] and [Release] are one script but for what they do to the lease they match. *)
Definition matching_script (ok : string) (f : Redis → Redis) (owner generation : string) (r : Redis) : ScriptReply * Redis :=
  match redis_get (lease_key c s) r with
  | None => ("missing", "", default "" (redis_get (generation_key c s) r), r)
  | Some current =>
      let known := default (current_generation current) (redis_get (generation_key c s) r) in
      if lease_matches owner generation current then (ok, current, known, f r) else ("lost", current, known, r)
  end.

Lemma matching_refines {A} (yes : SessionLease → A) not ok f after r reg l status value known r' :
  represents c s r reg → (0 ≤ sl_generation l ≤ Z.of_N U64_MAX)%Z →
  (is_Some (rg_lease reg) → represents c s (f r) after) →
  matching_script ok f (sl_owner_runtime_id l) (decimal (Z.to_N (sl_generation l))) r = (status, value, known, r') →
  ∃ out reg', match holds reg l with
              | Some l' => (yes l', after)
              | None => (not (rg_lease reg) (rg_known reg), reg)
              end = (out, reg') ∧
    changed_reply yes not ok out status value known ∧ represents c s r' reg'.
Proof.
  intros Hrep Hgen Hf. pose proof (lost_reply yes not ok) as Hlost. unfold matching_script.
  pose proof Hrep as Hrep0. destruct Hrep as [Hg Hl|n Hg Hl Hn|n o q px Hg Hl Hn Ho].
  1,2: specialize (Hlost "missing" r _ _ Hrep0 (or_introl eq_refl) eq_refl); revert Hlost; unfold redis_get; rewrite Hl, Hg;
    cbn; intros Hlost [= <- <- <- <-]; do 2 eexists; (split; [reflexivity|]); by split.
  specialize (Hlost "lost" r _ _ Hrep0 (or_intror eq_refl) eq_refl). revert Hlost. unfold redis_get. rewrite Hl, Hg.
  cbn [fmap option_fmap option_map default from_option id rv_text rg_lease]. rewrite lease_matches_text by done.
  intros Hlost. unfold holds. cbn [rg_lease mbind option_bind sl_owner_runtime_id sl_generation lease_of].
  destruct (_ && _); intros [= <- <- <- <-]; do 2 eexists; (split; [reflexivity|]); [|by split]. split; [|by apply Hf].
  left. split; [done|]. eexists. split; [done|]. by apply parse_optional_text.
Qed.

Lemma pexpire_represents r reg ms :
  represents c s r reg → represents c s (redis_pexpire (lease_key c s) ms r) reg.
Proof using All.
  unfold redis_pexpire. intros Hrep. pose proof Hrep as Hrep0.
  destruct Hrep as [Hg Hl|n Hg Hl Hn|n o q px Hg Hl Hn Ho]; rewrite Hl; [done..|].
  apply (rep_held _ _ _ n o q ms); [|by rewrite lookup_insert_eq|done|done].
  by rewrite lookup_insert_ne by apply own_keys_ne.
Qed.

Lemma drop_represents r reg :
  represents c s r reg → represents c s (delete (lease_key c s) r) {| rg_counter := rg_counter reg; rg_lease := None |}.
Proof using All.
  assert (delete (lease_key c s) r !! generation_key c s = r !! generation_key c s) as Hg'
    by by rewrite lookup_delete_ne by apply own_keys_ne.
  destruct 1 as [Hg Hl|n Hg Hl Hn|n o q px Hg Hl Hn Ho]; cbn [rg_counter].
  - apply rep_fresh; [congruence|apply lookup_delete_eq].
  - apply (rep_free _ _ _ n); [congruence|apply lookup_delete_eq|done].
  - apply (rep_free _ _ _ n); [congruence|apply lookup_delete_eq|done].
Qed.

Lemma renew_refines r reg l ms status value known r' :
  represents c s r reg → (0 ≤ sl_generation l ≤ Z.of_N U64_MAX)%Z →
  renew_script (lease_key c s) (generation_key c s) (sl_owner_runtime_id l) (decimal (Z.to_N (sl_generation l))) ms r =
    (status, value, known, r') →
  ∃ out reg', register_apply (DRenew l) reg = (ORenew out, reg') ∧
    changed_reply RenewRenewed RenewLost "renewed" out status value known ∧ represents c s r' reg'.
Proof using All.
  intros Hrep Hgen H. destruct (matching_refines RenewRenewed RenewLost "renewed" (redis_pexpire (lease_key c s) ms) reg
    r reg l status value known r' Hrep Hgen (λ _, pexpire_represents r reg ms Hrep) H) as (out & reg' & Heq & Hout).
  exists out, reg'. split; [|done]. unfold register_apply. destruct (holds reg l); congruence.
Qed.

Lemma release_refines r reg l status value known r' :
  represents c s r reg → (0 ≤ sl_generation l ≤ Z.of_N U64_MAX)%Z →
  release_script (lease_key c s) (generation_key c s) (sl_owner_runtime_id l) (decimal (Z.to_N (sl_generation l))) r =
    (status, value, known, r') →
  ∃ out reg', register_apply (DRelease l) reg = (ORelease out, reg') ∧
    changed_reply ReleaseReleased ReleaseNotOwner "released" out status value known ∧ represents c s r' reg'.
Proof using All.
  intros Hrep Hgen H. destruct (matching_refines ReleaseReleased ReleaseNotOwner "released" (delete (lease_key c s))
    {| rg_counter := rg_counter reg; rg_lease := None |} r reg l status value known r' Hrep Hgen
    (λ _, drop_represents r reg Hrep) H) as (out & reg' & Heq & Hout).
  exists out, reg'. split; [|done]. unfold register_apply. destruct (holds reg l); congruence.
Qed.

(** *** Reading *)

Lemma lookup_reply r reg :
  represents c s r reg → rg_lease reg = (redis_get (lease_key c s) r ≫= λ v, match parse_lease c s v with Ok l => Some l | Err _ => None end) ∧
  match redis_get (lease_key c s) r with Some v => ∃ l, parse_lease c s v = Ok l | None => True end.
Proof.
  unfold redis_get. destruct 1 as [Hg Hl|n Hg Hl Hn|n o q px Hg Hl Hn Ho]; rewrite Hl; [done..|].
  cbn [fmap option_fmap option_map mbind option_bind rv_text rg_lease]. rewrite parse_lease_text by done. naive_solver.
Qed.

Lemma known_reply r reg :
  represents c s r reg →
  match redis_get (generation_key c s) r with
  | Some v => parse_optional_generation v = Ok (rg_known reg)
  | None => rg_known reg = None
  end.
Proof.
  unfold redis_get, rg_known. destruct 1 as [Hg Hl|n Hg Hl Hn|n o q px Hg Hl Hn Ho]; rewrite Hg; [done|..];
    cbn [fmap option_fmap option_map rv_text rg_counter]; rewrite parse_optional_decimal by done;
    (assert ((Z.of_N n =? 0)%Z = false) as -> by (apply Z.eqb_neq; unfold counter_ok in *; lia)); done.
Qed.

(** What [validate_fenced_header] decides from the values of the two keys. *)
Lemma check_refines r reg fenced :
  represents c s r reg → (0 ≤ fh_generation fenced)%Z →
  ∃ counter current,
    parse_optional_generation (validate_script (lease_key c s) (generation_key c s) r).2 = Ok counter ∧
    parse_optional_lease c s (validate_script (lease_key c s) (generation_key c s) r).1 = Ok current ∧
    check_fenced c fenced counter current = fence_verdict fenced reg.
Proof.
  intros Hrep Hf. exists (rg_known reg), (rg_lease reg). split_and!.
  - apply known_reply in Hrep. unfold validate_script. cbn [snd]. destruct (redis_get _ r); [done|]. cbn. by rewrite Hrep.
  - unfold validate_script, redis_get. cbn [fst].
    destruct Hrep as [Hg Hl|n Hg Hl Hn|n o q px Hg Hl Hn Ho]; rewrite Hl; [done..|]. by apply parse_optional_text.
  - unfold check_fenced, fence_verdict, rg_known. destruct Hrep as [Hg Hl|n Hg Hl Hn|n o q px Hg Hl Hn Ho].
    + simpl. by destruct (fh_generation fenced) as [|g|g]; [| |lia].
    + cbn [rg_counter rg_lease]. unfold counter_ok in Hn.
      assert ((Z.of_N n =? 0)%Z = false) as -> by (apply Z.eqb_neq; lia). cbn [default from_option fmap option_fmap option_map id].
      rewrite Z.max_id. by assert ((0 <? Z.of_N n)%Z = true) as -> by (apply Z.ltb_lt; lia).
    + cbn [rg_counter rg_lease]. unfold counter_ok in Hn.
      assert ((Z.of_N n =? 0)%Z = false) as -> by (apply Z.eqb_neq; lia).
      cbn [default from_option fmap option_fmap option_map id lease_of sl_generation sl_owner_runtime_id].
      rewrite Z.max_id. assert ((0 <? Z.of_N n)%Z = true) as -> by (apply Z.ltb_lt; lia). cbn [andb].
      destruct (Z.ltb_spec (fh_generation fenced) (Z.of_N n)) as [|Hge]; [done|].
      destruct (Z.eqb_spec (fh_generation fenced) (Z.of_N n)) as [->|Hne].
      * rewrite Z.ltb_irrefl. cbn [negb]. by case_bool_decide.
      * cbn [negb]. by assert ((Z.of_N n <? fh_generation fenced)%Z = true) as -> by (apply Z.ltb_lt; lia).
Qed.
End scripts.

(** A live lease is of the counter's generation, and lets its own frames pass. *)
Lemma lease_counter c s r reg l :
  represents c s r reg → rg_lease reg = Some l →
  sl_generation l = rg_counter reg ∧ (0 < rg_counter reg)%Z ∧ sl_community_id l = c ∧ sl_session_id l = s ∧
  runtime_ok (sl_owner_runtime_id l) = true.
Proof.
  destruct 1 as [|n|n o p px Hg Hl Hn Ho]; cbn; [done..|]. intros [= <-]. cbn. unfold counter_ok in Hn. split_and!; try done; lia.
Qed.

Lemma fence_verdict_ok c s r reg fenced :
  represents c s r reg →
  (fence_verdict fenced reg = Ok tt ↔ ∃ l, rg_lease reg = Some l ∧ sl_generation l = fh_generation fenced ∧
     sl_owner_runtime_id l = fh_owner_runtime_id fenced).
Proof.
  intros Hrep. unfold fence_verdict. destruct (rg_lease reg) as [l|] eqn:Hl.
  - pose proof (lease_counter _ _ _ _ _ Hrep Hl) as (Hg & _). rewrite <-Hg.
    destruct (Z.ltb_spec (fh_generation fenced) (sl_generation l)); [split; [done|intros (? & [= <-] & ? & _); lia]|].
    destruct (Z.ltb_spec (sl_generation l) (fh_generation fenced)); [split; [done|intros (? & [= <-] & ? & _); lia]|].
    case_bool_decide as Ho.
    + split; [|done]. intros _. exists l. split_and!; [done|lia|done].
    + split; [done|]. intros (? & [= <-] & _ & ?). congruence.
  - split; [by case_match|]. by intros (? & ? & _).
Qed.

(** ** What a script does to the sessions *)

(** The keys of every session are well formed. *)
Definition redis_ok (r : Redis) : Prop := ∀ c s, uuid_ok c = true → uuid_ok s = true → session_ok c s r.

Lemma eval_frame script lk gk r reply r' key :
  eval_script script lk gk r = Some (reply, r') → key ≠ lk → key ≠ gk → r' !! key = r !! key.
Proof.
  intros H Hl Hg. destruct script as [owner profile ms|owner g ms|owner g]; simpl in H.
  - unfold acquire_script in H. destruct (redis_get lk r); [by simplify_eq|].
    unfold redis_incr in H. destruct (parse_u64 _) as [n|]; [|done]. cbn [mbind option_bind] in H.
    destruct (_ && _); [|done]. cbn [mbind option_bind] in H. destruct (n + 1 <? LUA_EXACT)%N; [|done]. injection H as _ <-.
    unfold redis_set_px. by rewrite !lookup_insert_ne.
  - unfold renew_script in H. destruct (redis_get lk r); [|by simplify_eq]. destruct (lease_matches _ _ _); simplify_eq; [|done].
    unfold redis_pexpire. destruct (r !! lk); [|done]. by rewrite lookup_insert_ne.
  - unfold release_script in H. destruct (redis_get lk r); [|by simplify_eq]. destruct (lease_matches _ _ _); simplify_eq; [|done].
    by rewrite lookup_delete_ne.
Qed.
End keys.
