(* ===== verification/Tunnel.v ===== *)
(** * Reliable tunnel streams

    [crates/buzz-relay/src/tunnel/reliable.rs]: how a relay joins a session, the
    frames of its streams, and the task that renews its lease, as programs over the
    session directory and the mesh.  At the end, that the bytes sent on a stream are
    the bytes received on it ([reliable_bytes_arrive]). *)

From stdpp Require Import base gmap strings list.
From Stdlib Require Import ZArith NArith Lia Ascii.
From S2P Require Import Prelude Text Nostr AudioRoom HuddleMedia Effect Directory Register.

Local Open Scope list_scope.

(** ** Wire frames *)

Definition MAX_RELIABLE_PAYLOAD_BYTES : nat := N.to_nat 1048576.

Inductive ReliableStreamError :=
  | EDirectory (e : DirectoryError)
  | EMesh (e : MeshError)
  | ProfileMismatch (session_id : Uuid) (expected actual : Profile)
  | SenderMismatch (peer hello_sender : RuntimeId)
  | UnexpectedStreamRole
  | OwnerIsNotLocal (session_id : Uuid) (owner_runtime_id local_runtime_id : RuntimeId)
  | UnexpectedFrame (frame : string)
  | FrameFenceMismatch (expected actual : FencedHeader)
  | CommunityMismatch (expected actual : CommunityId)
  | MalformedReliableFrame (what : string).

Inductive ReliableWireFrame :=
  | WireData (community : CommunityId) (payload : Bytes)
  | WireGoodbye (community : CommunityId) (reason : GoodbyeReason).

Definition wire_community (f : ReliableWireFrame) : CommunityId :=
  match f with WireData c _ | WireGoodbye c _ => c end.

Definition VERSION : Z := 1.
Definition DATA : Z := 1.
Definition GOODBYE : Z := 2.

Definition to_wire_byte (r : GoodbyeReason) : Z :=
  match r with SessionEnded => 1 | Draining => 2 | GStaleGeneration => 3 end.

Definition from_wire_byte (b : Z) : result ReliableStreamError GoodbyeReason :=
  if (b =? 1)%Z then Ok SessionEnded
  else if (b =? 2)%Z then Ok Draining
  else if (b =? 3)%Z then Ok GStaleGeneration
  else Err (MalformedReliableFrame "unknown goodbye reason").

Section tunnel.
Context `{IO : IdOps}.

Definition wire_encode (f : ReliableWireFrame) : Bytes :=
  match f with
  | WireData c payload => VERSION :: DATA :: uuid_as_bytes c ++ payload
  | WireGoodbye c reason => VERSION :: GOODBYE :: uuid_as_bytes c ++ [to_wire_byte reason]
  end.

Definition wire_decode (bytes : Bytes) : result ReliableStreamError ReliableWireFrame :=
  match bytes with
  | version :: kind :: rest =>
      if (length bytes <? 18)%nat then Err (MalformedReliableFrame "too short")
      else if negb (version =? VERSION)%Z then Err (MalformedReliableFrame "unknown version")
      else
        let c := uuid_of_bytes (take 16 rest) in
        if (kind =? DATA)%Z then Ok (WireData c (drop 16 rest))
        else if (kind =? GOODBYE)%Z then
          match drop 16 rest with
          | [b] => match from_wire_byte b with Ok reason => Ok (WireGoodbye c reason) | Err e => Err e end
          | _ => Err (MalformedReliableFrame "bad goodbye length")
          end
        else Err (MalformedReliableFrame "unknown kind")
  | _ => Err (MalformedReliableFrame "too short")
  end.

(** [bytes.chunks(n)] *)
Fixpoint chunks_from (fuel n : nat) (bytes : Bytes) : list Bytes :=
  match fuel, bytes with
  | S fuel, _ :: _ => take n bytes :: chunks_from fuel n (drop n bytes)
  | _, _ => []
  end.
Definition chunks (n : nat) (bytes : Bytes) : list Bytes := chunks_from (length bytes) n bytes.

(** ** Streams *)

Record ReliableMeshStream := {
  rs_fenced : FencedHeader;
  rs_stream : nat;
  rs_community : option CommunityId;
}.

Definition stream_new (fenced : FencedHeader) (stream : nat) : ReliableMeshStream :=
  {| rs_fenced := fenced; rs_stream := stream; rs_community := None |}.
Definition with_community (st : ReliableMeshStream) (community : CommunityId) : ReliableMeshStream :=
  {| rs_fenced := rs_fenced st; rs_stream := rs_stream st; rs_community := Some community |}.

(** A method of a stream: an error leaves the stream as it is by then. *)
Definition RS (A : Type) : Type := ReliableMeshStream → tprog (result ReliableStreamError A * ReliableMeshStream).
#[export] Instance rs_ret : MRet RS := λ A a st, Pure (Ok a, st).
#[export] Instance rs_bind : MBind RS := λ A B f m st,
  eff_bind (m st) (λ r, match r.1 with Ok a => f a r.2 | Err e => Pure (Err e, r.2) end).
Definition rs_throw {A} (e : ReliableStreamError) : RS A := λ st, Pure (Err e, st).

(** A mesh operation with [?]. *)
Definition rs_mesh {A} (p : ME A) : RS A := λ st,
  eff_bind p (λ r, Pure (match r with Ok a => Ok a | Err e => Err (EMesh e) end, st)).
Definition rs_get : RS ReliableMeshStream := λ st, Pure (Ok st, st).

Definition ensure_outbound_community (community : CommunityId) : RS unit := λ st,
  match rs_community st with
  | Some expected => if bool_decide (expected = community) then Pure (Ok tt, st)
                     else Pure (Err (CommunityMismatch expected community), st)
  | None => Pure (Ok tt, with_community st community)
  end.

Definition send_frame (payload : Bytes) : RS unit :=
  st ← rs_get; rs_mesh (Perform (SendFrame (rs_stream st) (Data (rs_fenced st) payload)) Pure).

Definition stream_finish : RS unit := st ← rs_get; rs_mesh (Perform (FinishStream (rs_stream st)) Pure).

Fixpoint send_chunks (community : CommunityId) (l : list Bytes) : RS unit :=
  match l with
  | [] => mret tt
  | chunk :: l => _ ← send_frame (wire_encode (WireData community chunk)); send_chunks community l
  end.

Definition send_bytes (community : CommunityId) (bytes : Bytes) : RS unit :=
  _ ← ensure_outbound_community community;
  send_chunks community (chunks MAX_RELIABLE_PAYLOAD_BYTES bytes).

Definition send_goodbye (community : CommunityId) (reason : GoodbyeReason) : RS unit :=
  _ ← ensure_outbound_community community;
  _ ← send_frame (wire_encode (WireGoodbye community reason));
  stream_finish.

Inductive ReliableFrame := FrameData (payload : Bytes) | FrameGoodbye (reason : GoodbyeReason).

Definition validate_frame_fence (community : CommunityId) (fenced : FencedHeader) : RS unit := λ st,
  if negb (bool_decide (fenced = rs_fenced st)) then Pure (Err (FrameFenceMismatch (rs_fenced st) fenced), st)
  else
    let mismatch :=
      match rs_community st with
      | Some expected => if bool_decide (expected = community) then None else Some expected
      | None => None
      end in
    match mismatch with
    | Some expected => Pure (Err (CommunityMismatch expected community), st)
    | None =>
        eff_bind (validate_fenced_header community fenced) (λ r,
          match r with
          | Err e => Pure (Err (EMesh e), st)
          | Ok _ => Pure (Ok tt, match rs_community st with None => with_community st community | Some _ => st end)
          end)
    end.

Definition delivered_frame (f : ReliableWireFrame) : ReliableFrame :=
  match f with WireData _ payload => FrameData payload | WireGoodbye _ reason => FrameGoodbye reason end.

Definition recv_validated : RS (option ReliableFrame) :=
  st ← rs_get;
  frame ← rs_mesh (Perform (RecvFrame (rs_stream st)) Pure);
  match frame with
  | None => mret None
  | Some (Data fenced payload) =>
      match wire_decode payload with
      | Err e => rs_throw e
      | Ok f => _ ← validate_frame_fence (wire_community f) fenced; mret (Some (delivered_frame f))
      end
  | Some (Goodbye _ _) => rs_throw (UnexpectedFrame "goodbye")
  | Some Hello => rs_throw (UnexpectedFrame "hello")
  | Some Gossip => rs_throw (UnexpectedFrame "gossip")
  end.

(** ** Joining *)

Record ReliableStreamRouter := { directory : SessionDirectory; local_runtime_id : RuntimeId }.

Inductive ReliableJoin := Owned (l : SessionLease) | Forwarded (l : SessionLease) (stream : ReliableMeshStream).

Definition join_existing (r : ReliableStreamRouter) (session : Uuid) (lease : SessionLease)
    : tprog (result ReliableStreamError ReliableJoin) :=
  if negb (bool_decide (sl_profile lease = ReliableStream)) then
    Pure (Err (ProfileMismatch session ReliableStream (sl_profile lease)))
  else if bool_decide (sl_owner_runtime_id lease = local_runtime_id r) then Pure (Ok (Owned lease))
  else
    let fenced := fenced_header lease in
    let hello := {| sh_sender := local_runtime_id r; sh_role := Session fenced ReliableStream |} in
    Perform (OpenSessionStream (sl_owner_runtime_id lease) hello) (λ r,
      Pure match r with
           | Err e => Err (EMesh e)
           | Ok stream => Ok (Forwarded lease (stream_new fenced stream))
           end).

Definition join (r : ReliableStreamRouter) (community : CommunityId) (session : Uuid)
    : tprog (result ReliableStreamError ReliableJoin) :=
  eff_bind (dir_acquire (directory r) community session (local_runtime_id r) ReliableStream) (λ got,
    match got with
    | Err e => Pure (Err (EDirectory e))
    | Ok (AcquireAcquired lease) => Pure (Ok (Owned lease))
    | Ok (AcquireExists lease) => join_existing r session lease
    end).

Record ReliableInbound := { ri_fenced : FencedHeader; ri_from : RuntimeId; ri_stream : ReliableMeshStream }.

Definition tunnel_accept (r : ReliableStreamRouter) (from : RuntimeId) (hello : StreamHello) (stream : nat)
    : result ReliableStreamError ReliableInbound :=
  if negb (bool_decide (sh_sender hello = from)) then Err (SenderMismatch from (sh_sender hello))
  else
    match sh_role hello with
    | Control => Err UnexpectedStreamRole
    | Session fenced profile =>
        if negb (bool_decide (profile = ReliableStream)) then
          Err (ProfileMismatch (fh_session_id fenced) ReliableStream profile)
        else if negb (bool_decide (fh_owner_runtime_id fenced = local_runtime_id r)) then
          Err (OwnerIsNotLocal (fh_session_id fenced) (fh_owner_runtime_id fenced) (local_runtime_id r))
        else Ok {| ri_fenced := fenced; ri_from := from; ri_stream := stream_new fenced stream |}
    end.

(** ** Renewing *)

(** The loop of the renewer for at most [turns] turns: whether the caller
    cancelled, or [None] when it is still running then. *)
Fixpoint renew_loop (turns : nat) (d : SessionDirectory) (lease : SessionLease) : tprog (option bool) :=
  match turns with
  | O => Pure None
  | S turns =>
      Perform AwaitTick (λ cancelled : bool,
        if cancelled then Pure (Some true)
        else
          eff_bind (dir_renew d lease) (λ r,
            match r with
            | Ok (RenewRenewed _) => renew_loop turns d lease
            | Ok (RenewLost _ _) | Err _ => Perform (CancelLost lease) (λ _, Pure (Some false))
            end))
  end.

(** [spawn_lease_renewer_with_interval]: the task, and whether it has ended. *)
Definition lease_renewer (turns : nat) (d : SessionDirectory) (lease : SessionLease) : tprog bool :=
  eff_bind (renew_loop turns d lease) (λ r,
    match r with
    | None => Pure false
    | Some caller_cancelled =>
        eff_bind (dir_release d lease) (λ r,
          match r with
          | Ok (ReleaseReleased _) => Pure true
          | Ok (ReleaseNotOwner _ _) => Perform (CancelLost lease) (λ _, Pure true)
          | Err _ => if caller_cancelled then Pure true else Perform (CancelLost lease) (λ _, Pure true)
          end)
    end).

(** ** The bytes that arrive *)

Context {IL : IdLaws}.

(** The frames a program puts on the wire, whichever of its sends fail. *)
Definition emits (op : TunnelOp) : TunnelReply op → list TunnelFrame → Prop :=
  match op with
  | SendFrame _ frame => λ reply l, l = match reply with Ok _ => [frame] | Err _ => [] end
  | FinishStream _ => λ _ l, l = []
  | _ => λ _ _, False
  end.

Fixpoint sends {A} (p : tprog A) (l : list TunnelFrame) (a : A) : Prop :=
  match p with
  | Pure b => l = [] ∧ a = b
  | Perform op k => ∃ reply l1 l2, l = l1 ++ l2 ∧ emits op reply l1 ∧ sends (k reply) l2 a
  end.

Fixpoint interp {A} (answer : ∀ op, TunnelReply op) (p : tprog A) : A :=
  match p with Pure a => a | Perform op k => interp answer (k (answer op)) end.

(** A receiver that is handed a frame while the directory is [r]. *)
Definition handed (r : Redis) (frame : TunnelFrame) (op : TunnelOp) : TunnelReply op :=
  match op with
  | BeginServingWrite _ | FinishServingWrite => Ok tt
  | Eval _ _ _ => Err RedisError
  | EvalValidate lease generation => Ok (validate_script lease generation r)
  | Get key => Ok (redis_get key r)
  | OpenSessionStream _ _ => Err Disabled
  | SendFrame _ _ | FinishStream _ => Ok tt
  | RecvFrame _ => Ok (Some frame)
  | AwaitTick => true
  | CancelLost _ => tt
  end.

Fixpoint receive (r : Redis) (frames : list TunnelFrame) (st : ReliableMeshStream)
    : result ReliableStreamError (list ReliableFrame) :=
  match frames with
  | [] => Ok []
  | f :: frames =>
      match interp (handed r f) (recv_validated st) with
      | (Ok None, _) => Ok []
      | (Ok (Some x), st) => match receive r frames st with Ok l => Ok (x :: l) | Err e => Err e end
      | (Err e, _) => Err e
      end
  end.

(** Several writes, then the end of the session. *)
Fixpoint send_session (community : CommunityId) (writes : list Bytes) (reason : GoodbyeReason) : RS unit :=
  match writes with
  | [] => send_goodbye community reason
  | bytes :: writes => _ ← send_bytes community bytes; send_session community writes reason
  end.

(** The stream is free for the community. *)
Definition open_to (community : CommunityId) (st : ReliableMeshStream) : Prop :=
  rs_community st = None ∨ rs_community st = Some community.

Lemma sends_bind {A B} (p : tprog A) (f : A → tprog B) l b :
  sends (eff_bind p f) l b → ∃ a l1 l2, sends p l1 a ∧ sends (f a) l2 b ∧ l = l1 ++ l2.
Proof.
  revert l. induction p as [a|op k IH]; simpl; intros l H; [by exists a, [], l|].
  destruct H as (reply & l1 & l2 & -> & Hem & (a & l3 & l4 & H1 & H2 & ->)%IH).
  exists a, (l1 ++ l3), l4. split_and!; [|done|by rewrite app_assoc]. by exists reply, l1, l3.
Qed.

Lemma interp_bind {A B} answer (p : tprog A) (f : A → tprog B) :
  interp answer (eff_bind p f) = interp answer (f (interp answer p)).
Proof. induction p as [a|op k IH]; [done|apply IH]. Qed.

(** *** Encoding *)

Lemma uuid_bytes u : uuid_ok u = true → length (uuid_as_bytes u) = 16 ∧ uuid_of_bytes (uuid_as_bytes u) = u.
Proof. unfold uuid_ok. intros [[?%bool_decide_eq_true _]%andb_prop ?%bool_decide_eq_true]%andb_prop. done. Qed.

Lemma wire_byte_roundtrip reason : from_wire_byte (to_wire_byte reason) = Ok reason.
Proof. by destruct reason. Qed.

Lemma wire_roundtrip f : uuid_ok (wire_community f) = true → wire_decode (wire_encode f) = Ok f.
Proof.
  intros [Hl Hu]%uuid_bytes. unfold wire_decode, wire_encode. destruct f as [c payload|c reason]; simpl wire_community in *;
    rewrite take_app_length', drop_app_length', Hu by done; simpl length; rewrite length_app, Hl;
    [destruct (Nat.ltb_spec (S (S (16 + length payload))) 18); [lia|done]|].
  simpl. by rewrite wire_byte_roundtrip.
Qed.

Lemma concat_chunks_from fuel n bytes :
  (0 < n)%nat → (length bytes ≤ fuel)%nat → concat (chunks_from fuel n bytes) = bytes ∧
  Forall (λ l, l ≠ [] ∧ (length l ≤ n)%nat) (chunks_from fuel n bytes).
Proof.
  intros Hn. revert bytes. induction fuel as [|fuel IH]; intros [|b bytes]; simpl; try lia; try done.
  intros Hf. destruct (IH (drop n (b :: bytes))) as [H1 H2].
  { rewrite length_drop. simpl. lia. }
  split; [by rewrite H1, take_drop|]. constructor; [|done]. rewrite length_take. split; [by destruct n; [lia|]|lia].
Qed.

Lemma concat_chunks n bytes :
  (0 < n)%nat → concat (chunks n bytes) = bytes ∧ Forall (λ l, l ≠ [] ∧ (length l ≤ n)%nat) (chunks n bytes).
Proof. intros. by apply concat_chunks_from. Qed.

(** *** Sending *)

Definition data_frame (fenced : FencedHeader) (community : CommunityId) (chunk : Bytes) : TunnelFrame :=
  Data fenced (wire_encode (WireData community chunk)).
Definition goodbye_frame (fenced : FencedHeader) (community : CommunityId) (reason : GoodbyeReason) : TunnelFrame :=
  Data fenced (wire_encode (WireGoodbye community reason)).

Lemma sends_rs_bind {A B} (m : RS A) (f : A → RS B) st l out st' :
  sends ((m ≫= f) st) l (out, st') →
  (∃ e, sends (m st) l (Err e, st') ∧ out = Err e) ∨
  (∃ a st1 l1 l2, sends (m st) l1 (Ok a, st1) ∧ sends (f a st1) l2 (out, st') ∧ l = l1 ++ l2).
Proof.
  intros ([[a|e] st1] & l1 & l2 & H1 & H2 & ->)%sends_bind; simpl in H2.
  - right. by exists a, st1, l1, l2.
  - left. destruct H2 as [-> [= -> ->]]. exists e. by rewrite app_nil_r.
Qed.

Lemma sends_frame payload st l out st' :
  sends (send_frame payload st) l (out, st') →
  st' = st ∧ l = match out with Ok _ => [Data (rs_fenced st) payload] | Err _ => [] end.
Proof.
  simpl. intros (reply & l1 & l2 & -> & -> & Hr). destruct reply as [[]|e]; simpl in Hr;
    by destruct Hr as [-> [= -> ->]].
Qed.

Lemma sends_chunks c ls st l out st' :
  sends (send_chunks c ls st) l (out, st') →
  st' = st ∧ ∃ sent, l = data_frame (rs_fenced st) c <$> sent ∧
    match out with Ok _ => sent = ls | Err _ => sent `prefix_of` ls end.
Proof.
  revert l. induction ls as [|chunk ls IH]; intros l.
  - intros [-> [= -> ->]]. split; [done|]. by exists [].
  - intros [(e & [-> ->]%sends_frame & ->)|([] & st1 & l1 & l2 & [-> ->]%sends_frame & H & ->)]%sends_rs_bind.
    + split; [done|]. exists []. split; [done|apply prefix_nil].
    + destruct (IH _ H) as (-> & sent & -> & Hout). split; [done|]. exists (chunk :: sent). split; [done|].
      destruct out; [by subst|by apply prefix_cons].
Qed.

Lemma sends_latch c st l out st' :
  open_to c st → sends (ensure_outbound_community c st) l (out, st') →
  out = Ok tt ∧ l = [] ∧ rs_fenced st' = rs_fenced st ∧ open_to c st'.
Proof.
  unfold ensure_outbound_community, open_to. intros [Hc|Hc]; rewrite Hc.
  - simpl. intros [-> [= -> ->]]. split_and!; [done..|by right].
  - rewrite bool_decide_eq_true_2 by done. simpl. intros [-> [= -> ->]]. split_and!; [done..|by right].
Qed.

Lemma sends_bytes c bytes st l out st' :
  open_to c st → sends (send_bytes c bytes st) l (out, st') →
  rs_fenced st' = rs_fenced st ∧ open_to c st' ∧ ∃ sent, l = data_frame (rs_fenced st) c <$> sent ∧
    match out with
    | Ok _ => sent = chunks MAX_RELIABLE_PAYLOAD_BYTES bytes
    | Err _ => sent `prefix_of` chunks MAX_RELIABLE_PAYLOAD_BYTES bytes
    end.
Proof.
  intros Hc [(e & [? _]%sends_latch & _)|([] & st1 & l1 & l2 & H1 & H2 & ->)]%sends_rs_bind; [done|done|].
  apply sends_latch in H1 as (_ & -> & Hf & Hc1); [|done]. apply sends_chunks in H2 as (-> & sent & -> & Hout).
  split_and!; [done..|]. exists sent. by rewrite Hf.
Qed.

Lemma sends_goodbye c reason st l out st' :
  open_to c st → sends (send_goodbye c reason st) l (out, st') →
  l = [goodbye_frame (rs_fenced st) c reason] ∨ (l = [] ∧ out ≠ Ok tt).
Proof.
  intros Hc [(e & [? _]%sends_latch & _)|([] & st1 & l1 & l2 & H1 & H2 & ->)]%sends_rs_bind; [done|done|].
  apply sends_latch in H1 as (_ & -> & Hf & Hc1); [|done]. simpl app.
  apply sends_rs_bind in H2 as [(e & [-> ->]%sends_frame & ->)|([] & st2 & l3 & l4 & [-> ->]%sends_frame & H & ->)];
    [by right|]. left. simpl in H. destruct H as (reply & l1 & l5 & -> & -> & H). unfold goodbye_frame. rewrite <-Hf.
  by destruct reply; destruct H as [-> _].
Qed.

Lemma sends_session c writes reason st l out st' :
  open_to c st → sends (send_session c writes reason st) l (out, st') →
  ∃ sent, sent `prefix_of` concat (chunks MAX_RELIABLE_PAYLOAD_BYTES <$> writes) ∧
    ((l = data_frame (rs_fenced st) c <$> sent ∧ out ≠ Ok tt) ∨
     (l = (data_frame (rs_fenced st) c <$> sent) ++ [goodbye_frame (rs_fenced st) c reason] ∧
      sent = concat (chunks MAX_RELIABLE_PAYLOAD_BYTES <$> writes))).
Proof.
  revert st l. induction writes as [|bytes writes IH]; intros st l Hc H.
  - exists []. split; [apply prefix_nil|]. apply sends_goodbye in H as [->|[-> ?]]; [by right|by left|done].
  - apply sends_rs_bind in H as [(e & H & ->)|([] & st1 & l1 & l2 & H1 & H2 & ->)].
    + apply sends_bytes in H as (_ & _ & sent & -> & Hp); [|done]. exists sent. split; [by apply prefix_app_r|by left].
    + apply sends_bytes in H1 as (Hf & Hc1 & sent & -> & ->); [|done].
      destruct (IH _ _ Hc1 H2) as (sent & Hp & Hl). rewrite Hf in Hl.
      exists (chunks MAX_RELIABLE_PAYLOAD_BYTES bytes ++ sent). split; [by apply prefix_app|].
      rewrite fmap_app. destruct Hl as [[-> ?]|[-> ->]]; [by left|]. right. by rewrite <-app_assoc.
Qed.

(** *** Receiving *)

(** The fence of the stream is the live lease of its session. *)
Definition live_for (c : CommunityId) (r : Redis) (fenced : FencedHeader) : Prop :=
  uuid_ok (fh_session_id fenced) = true ∧ session_ok c (fh_session_id fenced) r ∧
  ∃ l, rg_lease (register c (fh_session_id fenced) r) = Some l ∧ fenced_header l = fenced.

Lemma validated c r fenced frame :
  live_for c r fenced → interp (handed r frame) (validate_fenced_header c fenced) = Ok tt.
Proof.
  intros (Hu & Hok%session_represents & l & Hl & Hf). pose proof (lease_counter _ _ _ _ _ Hok Hl) as (Hg & Hpos & _ & Hsess & _).
  destruct (check_refines _ _ _ _ fenced Hok) as (counter & current & H1 & H2 & H3); [rewrite <-Hf; simpl; lia|].
  unfold validate_fenced_header. cbn [interp handed]. revert H1 H2.
  destruct (validate_script _ _ _) as [lease known]. cbn [fst snd]. intros -> ->. rewrite H3.
  apply (fence_verdict_ok _ _ _ _ fenced Hok). exists l. split_and!; [done|by rewrite <-Hf..].
Qed.

Lemma receive_frame c r f frames st :
  uuid_ok c = true → wire_community f = c → live_for c r (rs_fenced st) → open_to c st →
  ∃ st', rs_fenced st' = rs_fenced st ∧ open_to c st' ∧
    receive r (Data (rs_fenced st) (wire_encode f) :: frames) st =
      match receive r frames st' with Ok l => Ok (delivered_frame f :: l) | Err e => Err e end.
Proof.
  intros Hc Hf Hlive Hopen. exists (match rs_community st with None => with_community st c | Some _ => st end).
  split; [by destruct (rs_community st)|]. split; [right; destruct Hopen as [H|H]; by rewrite H|].
  unfold receive; fold receive. unfold recv_validated, rs_mesh, rs_get, mbind, rs_bind.
  cbn [eff_bind interp handed fst snd]. rewrite wire_roundtrip by by rewrite Hf. rewrite Hf, interp_bind. unfold validate_frame_fence. rewrite bool_decide_eq_true_2 by done. cbn [negb].
  assert (match rs_community st with Some expected => if bool_decide (expected = c) then None else Some expected
          | None => None end = None) as ->.
  { destruct Hopen as [Ho|Ho]; rewrite Ho; [done|]. by rewrite bool_decide_eq_true_2. }
  rewrite interp_bind, validated by done. reflexivity.
Qed.

Lemma receive_session c r frames st :
  uuid_ok c = true → live_for c r (rs_fenced st) → open_to c st → Forall (λ f, wire_community f = c) frames →
  receive r ((λ f, Data (rs_fenced st) (wire_encode f)) <$> frames) st = Ok (delivered_frame <$> frames).
Proof.
  intros Hc Hlive Hopen Hall. revert st Hlive Hopen. induction Hall as [|f frames Hf Hall IH]; intros st Hlive Hopen; [done|].
  cbn [fmap list_fmap]. destruct (receive_frame c r f ((λ f, Data (rs_fenced st) (wire_encode f)) <$> frames) st Hc Hf Hlive Hopen)
    as (st' & Hfen & Hop & ->). rewrite <-Hfen, IH; [done|by rewrite Hfen|done].
Qed.

(** C27. What is written on a tunnel stream is what is read from it.  Whatever writes
    are made on a stream before the session is ended, and whichever of the mesh sends
    fail, the frames that were sent are all accepted by the other end while the
    stream's fence is the live lease of the session: it gets non-empty blocks of at
    most a mebibyte that, put together, are a prefix of what was written; when the
    writes all succeeded it gets every byte and then the reason the session ended
    for. *)
Theorem reliable_bytes_arrive c writes reason st frames out st' r peer :
  uuid_ok c = true → open_to c st → sends (send_session c writes reason st) frames (out, st') →
  live_for c r (rs_fenced st) → rs_fenced peer = rs_fenced st → open_to c peer →
  ∃ blocks ending, receive r frames peer = Ok ((FrameData <$> blocks) ++ ending) ∧
    Forall (λ b, b ≠ [] ∧ (length b ≤ MAX_RELIABLE_PAYLOAD_BYTES)%nat) blocks ∧
    concat blocks `prefix_of` concat writes ∧
    (ending = [] ∨ ending = [FrameGoodbye reason] ∧ concat blocks = concat writes) ∧
    (out = Ok tt → ending = [FrameGoodbye reason]).
Proof.
  intros Hc Hopen Hs Hlive Hpeer Hpo. apply sends_session in Hs as (sent & Hp & Hl); [|done].
  assert (concat (concat (chunks MAX_RELIABLE_PAYLOAD_BYTES <$> writes)) = concat writes ∧
    Forall (λ b, b ≠ [] ∧ (length b ≤ MAX_RELIABLE_PAYLOAD_BYTES)%nat) (concat (chunks MAX_RELIABLE_PAYLOAD_BYTES <$> writes)))
    as [Hcat Hall].
  { assert (0 < MAX_RELIABLE_PAYLOAD_BYTES)%nat as Hpos by (unfold MAX_RELIABLE_PAYLOAD_BYTES; lia).
    generalize MAX_RELIABLE_PAYLOAD_BYTES, Hpos. intros n Hn. clear -Hn. induction writes as [|w writes [IH1 IH2]]; [done|].
    destruct (concat_chunks n w Hn). cbn. rewrite concat_app. split; [congruence|by apply Forall_app]. }
  assert (Forall (λ b, b ≠ [] ∧ (length b ≤ MAX_RELIABLE_PAYLOAD_BYTES)%nat) sent ∧
          concat sent `prefix_of` concat writes) as [Hsent Hpre].
  { destruct Hp as [rest Hrest]. rewrite <-Hcat, Hrest, concat_app. rewrite Hrest in Hall.
    apply Forall_app in Hall as [? _]. split; [done|by apply prefix_app_r]. }
  assert (∀ l, Forall (λ f, wire_community f = c) (WireData c <$> l)) as Hw by (intros l; by apply Forall_fmap, Forall_true).
  exists sent. destruct Hl as [[-> Hne]|[-> ->]].
  - exists []. pose proof (receive_session c r (WireData c <$> sent) peer Hc) as H.
    rewrite <-!list_fmap_compose in H. rewrite app_nil_r. rewrite Hpeer in H. split_and!; [by apply H|done..|by left|done].
  - exists [FrameGoodbye reason]. pose proof (receive_session c r
      ((WireData c <$> concat (chunks MAX_RELIABLE_PAYLOAD_BYTES <$> writes)) ++ [WireGoodbye c reason]) peer Hc) as H.
    rewrite !fmap_app, <-!list_fmap_compose in H. rewrite Hpeer in H. split_and!; [|done..|by right|done].
    apply H; [done..|]. apply Forall_app. split; [done|by apply Forall_singleton].
Qed.
End tunnel.
