(* ===== verification/TunnelSafety.v ===== *)
(** * What the session directory and the tunnels guarantee

    Any number of relays call the directory, join sessions, receive frames and renew
    leases, at once, on one Redis ([react]); leases run out and Redis holds other
    things ([outside]).  Every directory call behaves as one operation of the
    session's register at one moment of the call ([directory_linearizable]), no
    generation has two owners ([generation_one_owner]), a frame is delivered only
    under the lease it is fenced with ([frames_fenced]), and a lease that is lost is
    reported ([renewer_reports_loss]). *)

From stdpp Require Import base gmap strings list.
From Stdlib Require Import ZArith NArith Lia Ascii.
From S2P Require Import Prelude Text Nostr AudioRoom HuddleMedia Effect Directory Register Tunnel.

Local Open Scope list_scope.

(** ** The world *)

Inductive Event :=
  | EDir
  | EReceived (stream : nat) (frame : TunnelFrame)
  | ESent (stream : nat) (frame : TunnelFrame)
  | EOpened (stream : nat) (owner : RuntimeId) (hello : StreamHello)
  | ETick (cancelled : bool)
  | ELost (l : SessionLease)
  | EOutside.

(** Something that happened, whose task did it, and Redis after it. *)
Record Entry := { e_author : option nat; e_event : Event; e_after : Redis }.

Definition state (h : list Entry) : Redis := from_option e_after ∅ (last h).
Definition entry (i : nat) (ev : Event) (r : Redis) : Entry := {| e_author := Some i; e_event := ev; e_after := r |}.

Definition payload_ok (f : TunnelFrame) : Prop :=
  match f with Data _ payload => Forall (λ b, byte_ok b = true) payload | _ => True end.

Section system.
Context `{IO : IdOps}.

(** A call that fails may have had its effect or not. *)
Definition react (i : nat) (op : TunnelOp) (h : list Entry) : TunnelReply op → list Entry → Prop :=
  let r := state h in
  match op with
  | BeginServingWrite _ | FinishServingWrite => λ reply l, l = [] ∧ reply ≠ Err Panic
  | Eval script lk gk => λ reply l,
      (∃ rep r', eval_script script lk gk r = Some (rep, r') ∧ l = [entry i EDir r'] ∧ reply = Ok rep) ∨
      (∃ e, reply = Err e ∧ e ≠ Panic ∧
        (l = [] ∨ ∃ rep r', eval_script script lk gk r = Some (rep, r') ∧ l = [entry i EDir r']))
  | EvalValidate lk gk => λ reply l,
      (reply = Ok (validate_script lk gk r) ∧ l = [entry i EDir r]) ∨ (∃ e, reply = Err e ∧ e ≠ Panic ∧ l = [])
  | Get key => λ reply l, (reply = Ok (redis_get key r) ∧ l = [entry i EDir r]) ∨ (∃ e, reply = Err e ∧ e ≠ Panic ∧ l = [])
  | OpenSessionStream owner hello => λ reply l,
      match reply with Ok n => l = [entry i (EOpened n owner hello) r] | Err _ => l = [] end
  | SendFrame stream frame => λ reply l,
      l = [entry i (ESent stream frame) r] ∨ (reply ≠ Ok tt ∧ l = [])
  | FinishStream _ => λ _ l, l = []
  | RecvFrame stream => λ reply l,
      match reply with
      | Ok (Some f) => payload_ok f ∧ l = [entry i (EReceived stream f) r]
      | _ => l = []
      end
  | AwaitTick => λ cancelled l, l = [entry i (ETick cancelled) r]
  | CancelLost lease => λ _ l, l = [entry i (ELost lease) r]
  end.

(** The outside: of a session's keys, one that has an expiry may be gone. *)
Definition kept_or_expired (r r' : Redis) (key : string) : Prop :=
  r' !! key = r !! key ∨ (r' !! key = None ∧ ∃ v, r !! key = Some v ∧ is_Some (rv_px v)).
Definition outside (h : list Entry) (e : Entry) : Prop :=
  e_author e = None ∧ e_event e = EOutside ∧ ∀ c s, uuid_ok c = true → uuid_ok s = true →
    kept_or_expired (state h) (e_after e) (lease_key c s) ∧ kept_or_expired (state h) (e_after e) (generation_key c s).

(** ** Requests *)

Definition u64_ok (g : Z) : bool := (0 <=? g)%Z && (g <=? Z.of_N U64_MAX)%Z.

Definition request_ok (q : DirRequest) : bool :=
  uuid_ok (dr_community q) && uuid_ok (dr_session q) &&
  match q with
  | DAcquire _ _ owner _ => runtime_ok owner
  | DRenew l | DRelease l => u64_ok (sl_generation l)
  | DValidate _ f => u64_ok (fh_generation f)
  | _ => true
  end.

Inductive DirFailure := FDirectory (e : DirectoryError) | FMesh (e : MeshError).

Definition dir_out {A} (f : A → DirOutcome) (p : DE A) : tprog (result DirFailure DirOutcome) :=
  eff_bind p (λ r, Pure (match r with Ok a => Ok (f a) | Err e => Err (FDirectory e) end)).

Definition dir_program (d : SessionDirectory) (q : DirRequest) : tprog (result DirFailure DirOutcome) :=
  match q with
  | DAcquire c s owner p => dir_out OAcquire (dir_acquire d c s owner p)
  | DRenew l => dir_out ORenew (dir_renew d l)
  | DRelease l => dir_out ORelease (dir_release d l)
  | DLookup c s => dir_out OLookup (lookup_lease c s)
  | DKnown c s => dir_out OKnown (known_generation c s)
  | DValidate c fenced =>
      eff_bind (validate_fenced_header c fenced) (λ r, Pure
        match r with
        | Err (Transport e) => Err (FMesh (Transport e))
        | Err (HuddleMedia.Redis e) => Err (FMesh (HuddleMedia.Redis e))
        | r => Ok (OValidate r)
        end)
  end.

Inductive Request :=
  | RDirectory (d : SessionDirectory) (q : DirRequest)
  | RJoin (r : ReliableStreamRouter) (community : CommunityId) (session : Uuid)
  | RReceive (st : ReliableMeshStream)
  | RRenewer (turns : nat) (d : SessionDirectory) (lease : SessionLease).

Inductive Outcome :=
  | ODirectory (r : result DirFailure DirOutcome)
  | OJoin (r : result ReliableStreamError ReliableJoin)
  | OReceive (r : result ReliableStreamError (option ReliableFrame)) (st : ReliableMeshStream)
  | ORenewer (ended : bool).

Definition req_ok (r : Request) : bool :=
  match r with
  | RDirectory _ q => request_ok q
  | RJoin r c s => request_ok (DAcquire c s (local_runtime_id r) ReliableStream)
  | RReceive st => uuid_ok (fh_session_id (rs_fenced st)) && u64_ok (fh_generation (rs_fenced st))
  | RRenewer _ _ l => request_ok (DRenew l)
  end.

Definition program (r : Request) : tprog Outcome :=
  match r with
  | RDirectory d q => eff_bind (dir_program d q) (λ r, Pure (ODirectory r))
  | RJoin r c s => eff_bind (join r c s) (λ r, Pure (OJoin r))
  | RReceive st => eff_bind (recv_validated st) (λ r, Pure (OReceive r.1 r.2))
  | RRenewer turns d l => eff_bind (lease_renewer turns d l) (λ r, Pure (ORenewer r))
  end.

(** Requests whose identifiers are ones. *)
Definition Req : Type := { r : Request | req_ok r = true }.

Abbreviation System := (Machine TunnelOp TunnelReply Req Outcome Entry).
Definition relays : System → Prop := machine_reachable react outside (λ r : Req, program (`r)).

(** ** The invariant *)

Context {IL : IdLaws}.

Definition session_step (r r' : Redis) : Prop :=
  ∀ c s, uuid_ok c = true → uuid_ok s = true → register_step c s (register c s r) (register c s r').

Inductive good : list Entry → Prop :=
  | good_nil : good []
  | good_snoc h e : good h → redis_ok (e_after e) → session_step (state h) (e_after e) → good (h ++ [e]).

Definition anything (h : list Entry) : Prop := True.

Lemma tunnel_state_snoc h e : state (h ++ [e]) = e_after e.
Proof. unfold state. by rewrite last_snoc. Qed.

Lemma good_redis h : good h → redis_ok (state h).
Proof. destruct 1; [by intros c s|by rewrite tunnel_state_snoc]. Qed.

Lemma tunnel_good_app h l : good (h ++ l) → good h.
Proof.
  induction l as [|e l IH] using rev_ind; [by rewrite app_nil_r|]. rewrite app_assoc.
  inversion 1 as [Hn|h' e' Hg _ _ Heq]; [by destruct (app_cons_not_nil (h ++ l) [] e)|].
  apply app_inj_2 in Heq as [-> _]; [auto|done].
Qed.

Lemma good_rep h c s :
  good h → uuid_ok c = true → uuid_ok s = true → represents c s (state h) (register c s (state h)).
Proof. intros Hg Hc Hs. apply session_represents. by apply good_redis. Qed.

Lemma good_take h k : good h → good (take k h).
Proof. intros Hg. apply (tunnel_good_app _ (drop k h)). by rewrite take_drop. Qed.

Lemma good_same h i ev : good h → good (h ++ [entry i ev (state h)]).
Proof. intros Hg. constructor; [done|by apply good_redis|]. intros c s _ _. by left. Qed.

Lemma register_same_keys c s r r' :
  r' !! lease_key c s = r !! lease_key c s → r' !! generation_key c s = r !! generation_key c s →
  register c s r' = register c s r ∧ (session_ok c s r → session_ok c s r').
Proof. intros Hl Hg. unfold register, session_ok, redis_get. by rewrite Hl, Hg. Qed.

Lemma apply_step c s q reg :
  dr_community q = c → dr_session q = s → register_step c s reg (register_apply q reg).2.
Proof.
  intros <- <-. destruct q as [c s o p|l|l|c s|c s|c f]; cbn; try by left.
  - destruct (rg_lease reg) eqn:Hl; cbn; [by left|]. right; right. split; [done|]. exists o, p.
    unfold register_apply. by rewrite Hl.
  - destruct (holds reg l); by left.
  - destruct (holds reg l); [by right; left|by left].
Qed.

(** *** Scripts *)

Definition script_of (q : DirRequest) (ms : Z) : option Script :=
  match q with
  | DAcquire _ _ owner p => Some (Acquire owner (as_wire_str p) ms)
  | DRenew l => Some (Renew (sl_owner_runtime_id l) (decimal (Z.to_N (sl_generation l))) ms)
  | DRelease l => Some (Release (sl_owner_runtime_id l) (decimal (Z.to_N (sl_generation l))))
  | _ => None
  end.

Definition replies (q : DirRequest) (out : DirOutcome) (reply : ScriptReply) : Prop :=
  let '(status, value, known) := reply in
  let c := dr_community q in let s := dr_session q in
  match q, out with
  | DAcquire _ _ _ _, OAcquire a => acquire_reply c s a status value
  | DRenew _, ORenew a => changed_reply c s RenewRenewed RenewLost "renewed" a status value known
  | DRelease _, ORelease a => changed_reply c s ReleaseReleased ReleaseNotOwner "released" a status value known
  | _, _ => False
  end.

Definition keys_of (q : DirRequest) : string * string :=
  (lease_key (dr_community q) (dr_session q), generation_key (dr_community q) (dr_session q)).

Lemma request_uuids q : request_ok q = true → uuid_ok (dr_community q) = true ∧ uuid_ok (dr_session q) = true.
Proof. by intros [[??]%andb_prop _]%andb_prop. Qed.

Lemma u64_bounds g : u64_ok g = true → (0 ≤ g ≤ Z.of_N U64_MAX)%Z.
Proof. intros [?%Z.leb_le ?%Z.leb_le]%andb_prop. done. Qed.

Lemma eval_refines q ms script r reg reply r' :
  request_ok q = true → script_of q ms = Some script → represents (dr_community q) (dr_session q) r reg →
  eval_script script (keys_of q).1 (keys_of q).2 r = Some (reply, r') →
  ∃ out reg', register_apply q reg = (out, reg') ∧ replies q out reply ∧
    represents (dr_community q) (dr_session q) r' reg'.
Proof.
  intros Hq Hs Hrep He. destruct (request_uuids q Hq) as [Hc Hse]. apply andb_prop in Hq as [_ Hq].
  destruct reply as [[status value] known].
  destruct q as [c s o p|l|l|c s|c s|c f]; cbn in Hs; try done; injection Hs as <-; cbn in *.
  - destruct (acquire_refines c s Hc Hse r reg o p ms status value known r' Hrep Hq He) as (out & reg' & H1 & H2 & H3).
    exists (OAcquire out), reg'. done.
  - injection He as He. apply u64_bounds in Hq.
    destruct (renew_refines _ _ Hc Hse r reg l ms status value known r' Hrep Hq He) as (out & reg' & H1 & H2 & H3).
    exists (ORenew out), reg'. done.
  - injection He as He. apply u64_bounds in Hq.
    destruct (release_refines _ _ Hc Hse r reg l status value known r' Hrep Hq He) as (out & reg' & H1 & H2 & H3).
    exists (ORelease out), reg'. done.
Qed.

(** The operation of entry [k]. *)
Definition performed (i n : nat) (q : DirRequest) (out : DirOutcome) (h : list Entry) : Prop :=
  let reg r := register (dr_community q) (dr_session q) r in
  ∃ k e, (n ≤ k)%nat ∧ h !! k = Some e ∧ e_author e = Some i ∧
    register_apply q (reg (state (take k h))) = (out, reg (e_after e)).

Lemma eval_good h i q ms script reply r' n :
  good h → (n ≤ length h)%nat → request_ok q = true → script_of q ms = Some script →
  eval_script script (keys_of q).1 (keys_of q).2 (state h) = Some (reply, r') →
  good (h ++ [entry i EDir r']) ∧ ∃ out, performed i n q out (h ++ [entry i EDir r']) ∧ replies q out reply.
Proof.
  intros Hg Hn Hq Hs He. destruct (request_uuids q Hq) as [Hc Hse].
  destruct (eval_refines q ms script _ _ reply r' Hq Hs (good_rep _ _ _ Hg Hc Hse) He) as (out & reg' & Ha & Hr & Hrep).
  apply represents_session in Hrep as [Hok Hreg].
  assert (∀ c s, uuid_ok c = true → uuid_ok s = true → (c = dr_community q ∧ s = dr_session q) ∨
    (r' !! lease_key c s = state h !! lease_key c s ∧ r' !! generation_key c s = state h !! generation_key c s)) as Hother.
  { intros c s Hc' Hs'. destruct (decide (c = dr_community q ∧ s = dr_session q)) as [|Hne]; [by left|]. right.
    split; eapply eval_frame; try done; cbn; intros Heq.
    - by destruct (keys_inj _ _ _ _ _ _ Hc' Hs' Hc Hse Heq) as (-> & -> & _); destruct Hne.
    - by apply (lease_key_ne _ _ _ _ Hc' Hs' Hc Hse) in Heq.
    - symmetry in Heq. by apply (lease_key_ne _ _ _ _ Hc Hse Hc' Hs') in Heq.
    - by destruct (keys_inj _ _ _ _ _ _ Hc' Hs' Hc Hse Heq) as (-> & -> & _); destruct Hne. }
  split.
  - constructor; [done|..].
    + intros c s Hc' Hs'. destruct (Hother c s Hc' Hs') as [[-> ->]|[H1 H2]]; [done|].
      apply (register_same_keys c s (state h)); [done..|]. by apply good_redis.
    + intros c s Hc' Hs'. cbn. destruct (Hother c s Hc' Hs') as [[-> ->]|[H1 H2]].
      * rewrite Hreg. replace reg' with (register_apply q (register (dr_community q) (dr_session q) (state h))).2
          by by rewrite Ha. by apply apply_step.
      * destruct (register_same_keys c s _ _ H1 H2) as [-> _]. by left.
  - exists out. split; [|done]. exists (length h), (entry i EDir r'). split_and!; [done|by rewrite lookup_app_r, Nat.sub_diag|done|].
    rewrite take_app_length. cbn. by rewrite Hreg.
Qed.

Lemma tunnel_outside_good h e : good h → outside h e → anything (h ++ [e]) → e_author e = None ∧ good (h ++ [e]).
Proof.
  intros Hg (Ha & _ & Hk) _. split; [done|].
  assert (∀ c s, uuid_ok c = true → uuid_ok s = true → let r := state h in let r' := e_after e in
    register c s r' = register c s r ∧ session_ok c s r' ∨
    represents c s r' {| rg_counter := rg_counter (register c s r); rg_lease := None |}) as H.
  { intros c s Hc Hs r r'. destruct (Hk c s Hc Hs) as [Hl Hge]. pose proof (good_redis h Hg c s Hc Hs) as Hok.
    assert (r' !! generation_key c s = r !! generation_key c s) as Hg'.
    { destruct Hge as [|(_ & v & Hv & Hpx)]; [done|]. unfold session_ok in Hok. rewrite Hv in Hok.
      destruct Hok as (n & -> & _). by destruct Hpx. }
    destruct Hl as [Hl|[Hl _]].
    - left. destruct (register_same_keys c s r r' Hl Hg') as [? H']. split; [done|by apply H'].
    - right. pose proof (session_represents c s r Hok) as Hrep.
      destruct Hrep as [H1 H2|n H1 H2 Hn|n o p px H1 H2 Hn Ho]; cbn [rg_counter]; rewrite <-Hg' in H1;
        [by apply rep_fresh|by apply (rep_free _ _ _ n)..]. }
  constructor; [done|..]; intros c s Hc Hs; destruct (H c s Hc Hs) as [[Hr Hok]|Hr]; try done.
  - by apply represents_session in Hr as [? _].
  - rewrite Hr. by left.
  - apply represents_session in Hr as [_ Hr]. rewrite Hr. by right; left.
Qed.

(** ** Calls *)

Abbreviation triple := (triple e_author react good anything).
Abbreviation meanwhile := (meanwhile e_author good anything).

Lemma meanwhile_good i h h' : meanwhile i h h' → good h'.
Proof. by intros [? _]. Qed.
Lemma meanwhile_same i h : good h → meanwhile i h h.
Proof. intros. by apply meanwhile_refl. Qed.
Lemma meanwhile_length i h h' : meanwhile i h h' → (length h ≤ length h')%nat.
Proof. intros (_ & _ & l & -> & _). rewrite length_app. lia. Qed.

Lemma performed_app i n q out h l : performed i n q out h → performed i n q out (h ++ l).
Proof.
  intros (k & e & Hn & Hk & H). exists k, e. split; [done|]. pose proof (lookup_lt_Some _ _ _ Hk).
  split; [by apply lookup_app_l_Some|]. by rewrite take_app_le by lia.
Qed.
Lemma performed_meanwhile i j n q out h h' : performed i n q out h → meanwhile j h h' → performed i n q out h'.
Proof. intros H (_ & _ & l & -> & _). by apply performed_app. Qed.

(** Success establishes [P]; nothing panics. *)
Definition ok_post {A} (P : A → list Entry → Prop) (r : result DirectoryError A) (h : list Entry) : Prop :=
  match r with Ok a => P a h | Err e => e ≠ Panic end.

Lemma triple_err {A} i e (P : A → list Entry → Prop) h :
  e ≠ Panic → triple i (Pure (Err e) : DE A) (ok_post P) h.
Proof. by intros ? h1 _. Qed.

Lemma triple_de_bind {A B} i (p : DE A) (f : A → DE B) P Q h :
  triple i p (ok_post P) h → (∀ a h', good h' → P a h' → triple i (f a) (ok_post Q) h') → triple i (p ≫= f) (ok_post Q) h.
Proof.
  intros Hp Hf. apply triple_bind. eapply triple_mono; [exact Hp|]. intros [a|e] h' Hg _ H; simpl in H; [by apply Hf|].
  by apply triple_err.
Qed.

Lemma triple_fence i (op : TunnelOp) (p : DE unit) h :
  good h → (∃ c, p = Perform (BeginServingWrite c) Pure) ∨ p = Perform FinishServingWrite Pure ∨ p = de_ok tt →
  triple i p (ok_post (λ _ h', meanwhile i h h')) h.
Proof.
  intros Hg [[c ->]|[->| ->]]; simpl.
  1,2: intros h1 reply l H1 [-> Hr] _; rewrite app_nil_r; split; [by eapply meanwhile_good|]; intros h2 H2;
    destruct reply as [[]|err]; simpl; [by eapply meanwhile_trans|congruence].
  by intros h1 H1.
Qed.

Lemma triple_begin i d c h : good h → triple i (begin_serving_write d c) (ok_post (λ _ h', meanwhile i h h')) h.
Proof.
  intros Hg. apply (triple_fence i AwaitTick); [done|]. unfold begin_serving_write. destruct (has_db d); [|by right; right].
  left. by eexists.
Qed.
Lemma triple_finish i d h : good h → triple i (finish_serving_write d) (ok_post (λ _ h', meanwhile i h h')) h.
Proof.
  intros Hg. apply (triple_fence i AwaitTick); [done|]. unfold finish_serving_write.
  destruct (has_db d); right; [by left|by right].
Qed.

Lemma triple_result {A} i (r : result DirectoryError A) (P : A → list Entry → Prop) h :
  (∀ a h', r = Ok a → meanwhile i h h' → P a h') → r ≠ Err Panic → triple i (of_result r) (ok_post P) h.
Proof. intros HP Hr h1 H1. destruct r as [a|e]; simpl; [by apply HP|congruence]. Qed.

Lemma triple_ok {A} i (a : A) (P : A → list Entry → Prop) h :
  (∀ h', meanwhile i h h' → P a h') → triple i (de_ok a) (ok_post P) h.
Proof. intros HP h1 H1. by apply HP. Qed.

Lemma triple_eval i q ms script n h :
  good h → (n ≤ length h)%nat → request_ok q = true → script_of q ms = Some script →
  triple i (eval script (keys_of q).1 (keys_of q).2)
    (ok_post (λ reply h', ∃ out, performed i n q out h' ∧ replies q out reply)) h.
Proof.
  intros Hg Hn Hq Hs. simpl. intros h1 reply l H1 Hr _. pose proof (meanwhile_good _ _ _ H1) as Hg1.
  pose proof (meanwhile_length _ _ _ H1) as Hlen.
  destruct Hr as [(rep & r' & He & -> & ->)|(e & -> & Hp & [->|(rep & r' & He & ->)])].
  - destruct (eval_good h1 i q ms script rep r' n Hg1) as [Hg2 (out & Hperf & Hrep)]; [lia|done..|]. split; [done|].
    intros h2 H2. simpl. exists out. split; [by eapply performed_meanwhile|done].
  - rewrite app_nil_r. split; [done|]. by intros h2 _.
  - destruct (eval_good h1 i q ms script rep r' n Hg1) as [Hg2 _]; [lia|done..|]. split; [done|]. by intros h2 _.
Qed.

Lemma ttl_panic d : ttl_ms d ≠ Err Panic.
Proof. unfold ttl_ms. by case_match. Qed.
Lemma parse_lease_panic c s v : parse_lease c s v ≠ Err Panic.
Proof. unfold parse_lease. by repeat case_match. Qed.
Lemma parse_optional_lease_panic c s v : parse_optional_lease c s v ≠ Err Panic.
Proof. unfold parse_optional_lease. pose proof (parse_lease_panic c s v). repeat case_match; congruence. Qed.
Lemma parse_optional_generation_panic v : parse_optional_generation v ≠ Err Panic.
Proof. unfold parse_optional_generation. by repeat case_match. Qed.

(** *** The methods *)

Lemma acquire_triple i d c s o p n h :
  good h → (n ≤ length h)%nat → request_ok (DAcquire c s o p) = true →
  triple i (dir_acquire d c s o p) (ok_post (λ a, performed i n (DAcquire c s o p) (OAcquire a))) h.
Proof.
  intros Hg Hn Hq. unfold dir_acquire. eapply triple_de_bind; [by apply triple_begin|].
  intros [] h1 Hg1 H1. eapply triple_de_bind; [apply (triple_result _ _ (λ ms h', meanwhile i h h')); [|apply ttl_panic]|].
  { intros. by eapply meanwhile_trans. }
  intros ms h2 Hg2 H2. apply meanwhile_length in H2.
  eapply triple_de_bind; [apply (triple_eval i (DAcquire c s o p) ms _ n); [done|lia|done..]|].
  intros [[status value] known] h3 Hg3 (out & Hp & Hr). eapply triple_de_bind.
  { apply (triple_result _ _ (λ l h', good h' ∧ parse_lease c s value = Ok l ∧ performed i n (DAcquire c s o p) out h'));
      [|apply parse_lease_panic]. intros l h4 Hl H4. split_and!; [by eapply meanwhile_good|done|by eapply performed_meanwhile]. }
  intros l h4 Hg4 (_ & Hl & Hp4). eapply triple_de_bind; [by apply triple_finish|]. intros [] h5 Hg5 H5.
  pose proof (performed_meanwhile _ _ _ _ _ _ _ Hp4 H5) as Hp5.
  destruct out as [[l'|l']|a|a|a|a|a]; try done; cbn in Hr; destruct Hr as [-> Hl']; rewrite Hl in Hl'; injection Hl' as ->;
    apply triple_ok; intros h6 H6; by eapply performed_meanwhile.
Qed.

(** The end of [renew] and of [release], from a reply of their script. *)
Definition changed_end {A} (yes : SessionLease → A) (not : option SessionLease → option Z → A) (ok status known : string)
    (current : option SessionLease) : DE A :=
  if bool_decide (status = ok) then of_current yes current
  else if bool_decide (status = "missing") || bool_decide (status = "lost") then
    g ← of_result (parse_optional_generation known); de_ok (not current g)
  else de_fail UnexpectedScriptStatus.

Lemma changed_end_triple {A} i c s (yes : SessionLease → A) not ok status value known current out
    (P : A → list Entry → Prop) h :
  good h → ok ≠ "missing" → ok ≠ "lost" → changed_reply c s yes not ok out status value known →
  parse_optional_lease c s value = Ok current → (∀ h', meanwhile i h h' → P out h') →
  triple i (changed_end yes not ok status known current) (ok_post P) h.
Proof.
  intros Hg Hm Hl Hr Hc HP. unfold changed_end. destruct Hr as [[-> (l & -> & Hl')]|[Hst (cur & g & -> & Hcur & Hgen)]].
  - rewrite bool_decide_eq_true_2 by done. rewrite Hl' in Hc. injection Hc as <-. by apply triple_ok.
  - rewrite bool_decide_eq_false_2 by by destruct Hst as [-> | ->]. rewrite Hcur in Hc. injection Hc as <-.
    assert (bool_decide (status = "missing") || bool_decide (status = "lost") = true) as ->.
    { destruct Hst as [-> | ->]; [done|]. by rewrite orb_true_r. }
    rewrite Hgen. by apply triple_ok.
Qed.

Lemma renew_triple i d l n h :
  good h → (n ≤ length h)%nat → request_ok (DRenew l) = true →
  triple i (dir_renew d l) (ok_post (λ a, performed i n (DRenew l) (ORenew a))) h.
Proof.
  intros Hg Hn Hq. unfold dir_renew. eapply triple_de_bind; [by apply triple_begin|].
  intros [] h1 Hg1 H1. eapply triple_de_bind; [apply (triple_result _ _ (λ ms h', meanwhile i h h')); [|apply ttl_panic]|].
  { intros. by eapply meanwhile_trans. }
  intros ms h2 Hg2 H2. apply meanwhile_length in H2.
  eapply triple_de_bind; [apply (triple_eval i (DRenew l) ms _ n); [done|lia|done..]|].
  intros [[status value] known] h3 Hg3 (out & Hp & Hr).
  destruct out as [|out| | | |]; try done. cbn in Hr. eapply triple_de_bind.
  { apply (triple_result _ _ (λ cur h', parse_optional_lease (sl_community_id l) (sl_session_id l) value = Ok cur ∧
      performed i n (DRenew l) (ORenew out) h')); [|apply parse_optional_lease_panic].
    intros cur h4 Hl H4. split; [done|by eapply performed_meanwhile]. }
  intros cur h4 Hg4 (Hl & Hp4). eapply triple_de_bind; [by apply triple_finish|]. intros [] h5 Hg5 H5.
  apply (changed_end_triple i (sl_community_id l) (sl_session_id l) RenewRenewed RenewLost "renewed" status value known cur out _ _ Hg5); try done.
  intros h6 H6. eapply performed_meanwhile; [|exact H6]. by eapply performed_meanwhile.
Qed.

Lemma release_triple i d l n h :
  good h → (n ≤ length h)%nat → request_ok (DRelease l) = true →
  triple i (dir_release d l) (ok_post (λ a, performed i n (DRelease l) (ORelease a))) h.
Proof.
  intros Hg Hn Hq. unfold dir_release. eapply triple_de_bind; [by apply triple_begin|].
  intros [] h1 Hg1 H1. apply meanwhile_length in H1.
  eapply triple_de_bind; [apply (triple_eval i (DRelease l) 0 _ n); [done|lia|done..]|].
  intros [[status value] known] h3 Hg3 (out & Hp & Hr).
  destruct out as [| |out| | |]; try done. cbn in Hr. eapply triple_de_bind.
  { apply (triple_result _ _ (λ cur h', parse_optional_lease (sl_community_id l) (sl_session_id l) value = Ok cur ∧
      performed i n (DRelease l) (ORelease out) h')); [|apply parse_optional_lease_panic].
    intros cur h4 Hl H4. split; [done|by eapply performed_meanwhile]. }
  intros cur h4 Hg4 (Hl & Hp4). eapply triple_de_bind; [by apply triple_finish|]. intros [] h5 Hg5 H5.
  apply (changed_end_triple i (sl_community_id l) (sl_session_id l) ReleaseReleased ReleaseNotOwner "released" status value known cur out _ _ Hg5); try done.
  intros h6 H6. eapply performed_meanwhile; [|exact H6]. by eapply performed_meanwhile.
Qed.

(** *** Reads *)

Lemma performed_read i q out n h :
  good h → (n ≤ length h)%nat → request_ok q = true →
  register_apply q (register (dr_community q) (dr_session q) (state h)) =
    (out, register (dr_community q) (dr_session q) (state h)) →
  performed i n q out (h ++ [entry i EDir (state h)]).
Proof.
  intros Hg Hn Hq Ha. exists (length h), (entry i EDir (state h)).
  split_and!; [done|by rewrite lookup_app_r, Nat.sub_diag|done|]. by rewrite take_app_length.
Qed.

Lemma get_triple i (key : string) (P : option string → list Entry → Prop) h :
  good h → (∀ h1 h', meanwhile i h h1 → meanwhile i (h1 ++ [entry i EDir (state h1)]) h' → P (redis_get key (state h1)) h') →
  triple i (Perform (Get key) Pure : DE (option string)) (ok_post P) h.
Proof.
  intros Hg HP h1 reply l H1 Hr _. pose proof (meanwhile_good _ _ _ H1) as Hg1.
  destruct Hr as [[-> ->]|(e & -> & He & ->)].
  - split; [by apply good_same|]. intros h2 H2. by apply (HP h1).
  - rewrite app_nil_r. split; [done|]. by intros h2 _.
Qed.

Lemma lookup_triple i c s n h :
  good h → (n ≤ length h)%nat → request_ok (DLookup c s) = true →
  triple i (lookup_lease c s) (ok_post (λ a, performed i n (DLookup c s) (OLookup a))) h.
Proof.
  intros Hg Hn Hq. destruct (request_uuids _ Hq) as [Hc Hs]. unfold lookup_lease. eapply triple_de_bind.
  { apply (get_triple i _ (λ v h', ∃ a, performed i n (DLookup c s) (OLookup a) h' ∧
      match v with Some v => ∃ l, parse_lease c s v = Ok l ∧ a = Some l | None => a = None end)); [done|].
    intros h1 h2 H1 H2. pose proof (meanwhile_good _ _ _ H1) as Hg1. apply meanwhile_length in H1.
    pose proof (good_rep h1 c s Hg1 Hc Hs) as Hrep. destruct (lookup_reply _ _ _ _ Hrep) as [Heq Hv].
    exists (rg_lease (register c s (state h1))). split.
    - eapply performed_meanwhile; [|exact H2]. apply performed_read; [done|lia|done..].
    - destruct (redis_get (lease_key c s) (state h1)) as [v|]; [|done]. destruct Hv as [l Hl]. exists l. split; [done|].
      rewrite Heq. cbn. by rewrite Hl. }
  intros [v|] h' Hg' (a & Hp & Hv).
  - destruct Hv as (l & Hl & ->). eapply triple_de_bind.
    { apply (triple_result _ _ (λ l' h', l' = l ∧ performed i n (DLookup c s) (OLookup (Some l)) h')); [|apply parse_lease_panic].
      intros l' h2 Hl' H2. split; [congruence|by eapply performed_meanwhile]. }
    intros l' h2 _ [-> Hp2]. apply triple_ok. intros h3 H3. by eapply performed_meanwhile.
  - subst a. apply triple_ok. intros h3 H3. by eapply performed_meanwhile.
Qed.

Lemma known_triple i c s n h :
  good h → (n ≤ length h)%nat → request_ok (DKnown c s) = true →
  triple i (known_generation c s) (ok_post (λ a, performed i n (DKnown c s) (OKnown a))) h.
Proof.
  intros Hg Hn Hq. destruct (request_uuids _ Hq) as [Hc Hs]. unfold known_generation. eapply triple_de_bind.
  { apply (get_triple i _ (λ v h', ∃ a, performed i n (DKnown c s) (OKnown a) h' ∧
      match v with Some v => parse_optional_generation v = Ok a | None => a = None end)); [done|].
    intros h1 h2 H1 H2. pose proof (meanwhile_good _ _ _ H1) as Hg1. apply meanwhile_length in H1.
    pose proof (known_reply _ _ _ _ (good_rep h1 c s Hg1 Hc Hs)) as Heq.
    exists (rg_known (register c s (state h1))). split; [|done].
    eapply performed_meanwhile; [|exact H2]. apply performed_read; [done|lia|done..]. }
  intros [v|] h' Hg' (a & Hp & Hv).
  - apply triple_result; [|apply parse_optional_generation_panic]. intros a' h2 Ha H2. rewrite Hv in Ha. injection Ha as <-.
    by eapply performed_meanwhile.
  - subst a. apply triple_ok. intros h3 H3. by eapply performed_meanwhile.
Qed.

(** The verdict on a frame. *)
Definition verdict_of (i n : nat) (c : CommunityId) (fenced : FencedHeader) (r : result MeshError unit) (h : list Entry) : Prop :=
  (∃ e, r = Err (Transport e) ∨ r = Err (HuddleMedia.Redis e)) ∨ performed i n (DValidate c fenced) (OValidate r) h.

Lemma validate_triple i c fenced n h :
  good h → (n ≤ length h)%nat → request_ok (DValidate c fenced) = true →
  triple i (validate_fenced_header c fenced) (verdict_of i n c fenced) h.
Proof.
  intros Hg Hn Hq. destruct (request_uuids _ Hq) as [Hc Hs]. cbn in Hc, Hs.
  intros h1 reply l H1 Hr _. pose proof (meanwhile_good _ _ _ H1) as Hg1. apply meanwhile_length in H1.
  destruct Hr as [[-> ->]|(e & -> & _ & ->)].
  - split; [by apply good_same|]. intros h2 H2. right. eapply performed_meanwhile; [|exact H2].
    apply andb_prop in Hq as Hq'. destruct Hq' as [_ [Hge _]%u64_bounds].
    destruct (check_refines c _ _ _ fenced (good_rep h1 c _ Hg1 Hc Hs) Hge) as (counter & current & E1 & E2 & E3).
    destruct (validate_script _ _ _) as [lease known]. cbn [fst snd] in E1, E2. rewrite E1, E2, E3.
    apply performed_read; [done|lia|done..].
  - rewrite app_nil_r. split; [done|]. intros h2 H2. left. destruct e; eexists; by (left + right).
Qed.

(** ** The requests *)

Definition dir_post (i n : nat) (q : DirRequest) (r : result DirFailure DirOutcome) (h : list Entry) : Prop :=
  match r with
  | Ok out => performed i n q out h
  | Err (FDirectory e) => e ≠ Panic
  | Err (FMesh _) => True
  end.

Lemma dir_out_triple {A} i n q (f : A → DirOutcome) (p : DE A) h :
  triple i p (ok_post (λ a, performed i n q (f a))) h → triple i (dir_out f p) (dir_post i n q) h.
Proof.
  intros Hp. apply triple_bind. eapply triple_mono; [exact Hp|]. intros [a|e] h' _ _ H h1 H1; simpl in *; [|done].
  by eapply performed_meanwhile.
Qed.

Lemma dir_triple i n d q h :
  good h → (n ≤ length h)%nat → request_ok q = true → triple i (dir_program d q) (dir_post i n q) h.
Proof.
  intros Hg Hn Hq. destruct q as [c s o p|l|l|c s|c s|c f]; cbn [dir_program]; try apply dir_out_triple.
  - by apply acquire_triple.
  - by apply renew_triple.
  - by apply release_triple.
  - by apply lookup_triple.
  - by apply known_triple.
  - apply triple_bind. eapply triple_mono; [by apply (validate_triple i c f n)|]. intros r h' _ _ H h1 H1.
    destruct H as [(e & [-> | ->])|H]; [done..|]. pose proof (performed_meanwhile _ _ _ _ _ _ _ H H1).
    by destruct r as [[]|[]].
Qed.

(** A lease the directory held at a moment of the call. *)
Definition held (i n : nat) (c s : Uuid) (l : SessionLease) (h : list Entry) : Prop :=
  ∃ k e, (n ≤ k)%nat ∧ h !! k = Some e ∧ e_author e = Some i ∧ rg_lease (register c s (e_after e)) = Some l.

Lemma performed_acquire i n c s o p a h :
  performed i n (DAcquire c s o p) (OAcquire a) h →
  match a with
  | AcquireAcquired l => held i n c s l h ∧ sl_owner_runtime_id l = o ∧ sl_profile l = p
  | AcquireExists l => held i n c s l h
  end.
Proof.
  intros (k & e & Hn & Hk & Ha & Hr). cbn [dr_community dr_session register_apply] in Hr.
  set (reg := register c s (e_after e)) in *. assert (∀ l, rg_lease reg = Some l → held i n c s l h) as Hh.
  { intros l Hl. by exists k, e. }
  clearbody reg. destruct (rg_lease (register _ _ _)) as [l|] eqn:Hl; simplify_eq; [by apply Hh|].
  split; [by apply Hh|done].
Qed.

Lemma held_app i n c s l h h' : held i n c s l h → held i n c s l (h ++ h').
Proof. intros (k & e & Hn & Hk & H). exists k, e. split_and!; [done|by apply lookup_app_l_Some|apply H..]. Qed.
Lemma held_meanwhile i j n c s l h h' : held i n c s l h → meanwhile j h h' → held i n c s l h'.
Proof. intros H (_ & _ & l' & -> & _). by apply held_app. Qed.

Definition opened (i : nat) (owner : RuntimeId) (hello : StreamHello) (stream : nat) (h : list Entry) : Prop :=
  ∃ e, e ∈ h ∧ e_author e = Some i ∧ e_event e = EOpened stream owner hello.

Lemma opened_meanwhile i owner hello stream h r h' :
  meanwhile i (h ++ [entry i (EOpened stream owner hello) r]) h' → opened i owner hello stream h'.
Proof. intros (_ & _ & l & -> & _). exists (entry i (EOpened stream owner hello) r). split; [set_solver|done]. Qed.

Definition join_post (i n : nat) (r : ReliableStreamRouter) (c s : Uuid)
    (out : result ReliableStreamError ReliableJoin) (h : list Entry) : Prop :=
  match out with
  | Ok (Owned l) => held i n c s l h ∧ sl_owner_runtime_id l = local_runtime_id r ∧ sl_profile l = ReliableStream
  | Ok (Forwarded l st) =>
      held i n c s l h ∧ sl_owner_runtime_id l ≠ local_runtime_id r ∧ sl_profile l = ReliableStream ∧
      rs_fenced st = fenced_header l ∧ rs_community st = None ∧
      opened i (sl_owner_runtime_id l)
        {| sh_sender := local_runtime_id r; sh_role := Session (fenced_header l) ReliableStream |} (rs_stream st) h
  | Err (ProfileMismatch _ _ actual) => ∃ l, held i n c s l h ∧ sl_profile l = actual ∧ actual ≠ ReliableStream
  | Err (EDirectory e) => e ≠ Panic
  | Err (EMesh _) => True
  | Err _ => False
  end.

Lemma join_triple i n r c s h :
  good h → (n ≤ length h)%nat → request_ok (DAcquire c s (local_runtime_id r) ReliableStream) = true →
  triple i (join r c s) (join_post i n r c s) h.
Proof.
  intros Hg Hn Hq. unfold join. apply triple_bind. eapply triple_mono; [by apply (acquire_triple i _ _ _ _ _ n)|].
  intros [[l|l]|e] h1 Hg1 _ H; simpl in H; [| |by intros h2 _].
  - apply performed_acquire in H as (Hh & Ho & Hp). intros h2 H2. split_and!; [by eapply held_meanwhile|done..].
  - apply performed_acquire in H. unfold join_existing. case_bool_decide as Hp; cbn [negb].
    2: { intros h2 H2. exists l. split_and!; [by eapply held_meanwhile|done..]. }
    case_bool_decide as Ho; [intros h2 H2; split_and!; [by eapply held_meanwhile|done..]|].
    intros h2 reply le H2 Hr _. pose proof (meanwhile_good _ _ _ H2) as Hg2. simpl in Hr. destruct reply as [stream|e]; subst le.
    + split; [by apply good_same|]. intros h3 H3. pose proof (held_meanwhile _ _ _ _ _ _ _ _ H H2) as Hh.
      apply (held_app _ _ _ _ _ _ [entry i (EOpened stream (sl_owner_runtime_id l)
        {| sh_sender := local_runtime_id r; sh_role := Session (fenced_header l) ReliableStream |}) (state h2)]) in Hh.
      split_and!; [by eapply held_meanwhile|done..|]. by eapply opened_meanwhile.
    + rewrite app_nil_r. split; [done|]. by intros h3 _.
Qed.

(** *** Receiving *)

Lemma decoded_uuid payload w :
  Forall (λ b, byte_ok b = true) payload → wire_decode payload = Ok w → uuid_ok (wire_community w) = true.
Proof.
  destruct payload as [|version [|kind rest]]; [done..|]. intros Hall. unfold wire_decode.
  destruct (Nat.ltb_spec (length (version :: kind :: rest)) 18) as [|Hlen]; [done|].
  assert (uuid_ok (uuid_of_bytes (take 16 rest)) = true) as Hu.
  { apply uuid_of_bytes_ok; [rewrite length_take; simpl in Hlen; lia|]. apply Forall_take. by inversion Hall as [|? ? ? Hr]; inversion Hr. }
  destruct (negb _); [done|]. destruct (kind =? DATA)%Z; [by intros [= <-]|]. destruct (kind =? GOODBYE)%Z; [|done].
  destruct (drop 16 rest) as [|b [|]]; [done| |done]. destruct (from_wire_byte b); [|done]. by intros [= <-].
Qed.

(** The frame and the lease it was let through under. *)
Definition fenced_delivery (i n : nat) (st : ReliableMeshStream) (f : ReliableFrame) (c : CommunityId) (h : list Entry) : Prop :=
  ∃ j e payload w, (n ≤ j)%nat ∧ h !! j = Some e ∧ e_author e = Some i ∧
    e_event e = EReceived (rs_stream st) (Data (rs_fenced st) payload) ∧
    wire_decode payload = Ok w ∧ wire_community w = c ∧ f = delivered_frame w ∧
    ∃ l, held i (S j) c (fh_session_id (rs_fenced st)) l h ∧ fenced_header l = rs_fenced st.

Definition recv_post (i n : nat) (st : ReliableMeshStream) (out : result ReliableStreamError (option ReliableFrame))
    (st' : ReliableMeshStream) (h : list Entry) : Prop :=
  match out with
  | Ok (Some f) => ∃ c, open_to c st ∧ st' = with_community st c ∧ fenced_delivery i n st f c h
  | _ => st' = st
  end.

(** A frame that passed the fence passed under a live lease. *)
Lemma performed_validate i n c fenced h :
  good h → request_ok (DValidate c fenced) = true → performed i n (DValidate c fenced) (OValidate (Ok tt)) h →
  ∃ l, held i n c (fh_session_id fenced) l h ∧ fenced_header l = fenced.
Proof.
  intros Hg Hq (k & e & Hn & Hk & Ha & Hr). destruct (request_uuids _ Hq) as [Hc Hs]. cbn in Hc, Hs, Hr.
  injection Hr as Hv Hreg. pose proof (good_rep _ c _ (good_take h k Hg) Hc Hs) as Hrep.
  apply (fence_verdict_ok _ _ _ _ fenced Hrep) in Hv as (l & Hl & Hge & Ho). exists l. split.
  - exists k, e. split_and!; try done. etrans; [|exact Hl]. unfold register. cbn [rg_lease]. congruence.
  - destruct (lease_counter _ _ _ _ _ Hrep Hl) as (_ & _ & _ & Hse & _). unfold fenced_header. rewrite Hse, Hge, Ho.
    by destruct fenced.
Qed.


Lemma fence_check_triple i j c fenced st h :
  good h → (j ≤ length h)%nat → uuid_ok c = true → req_ok (RReceive st) = true →
  triple i (validate_frame_fence c fenced st)
    (λ r h', match r.1 with
             | Ok _ => fenced = rs_fenced st ∧ open_to c st ∧ r.2 = with_community st c ∧
                 ∃ l, held i j c (fh_session_id fenced) l h' ∧ fenced_header l = fenced
             | Err _ => r.2 = st
             end) h.
Proof.
  intros Hg Hj Hc [Hs Hge]%andb_prop. unfold validate_frame_fence.
  case_bool_decide as Hf; cbn [negb]; [|by intros h1 _]. subst fenced.
  destruct (match rs_community st with Some _ => _ | None => _ end) as [expected|] eqn:Hm; [by intros h1 _|].
  assert (open_to c st) as Hopen.
  { unfold open_to. destruct (rs_community st) as [c'|]; [|by left]. case_bool_decide; [|done]. subst. by right. }
  assert (request_ok (DValidate c (rs_fenced st)) = true) as Hq by (unfold request_ok; cbn; by rewrite Hc, Hs, Hge).
  apply triple_bind. eapply triple_mono; [by apply (validate_triple i c (rs_fenced st) j)|].
  intros r h1 Hg1 _ Hv. destruct r as [[]|e]; [|by intros h2 _]. intros h2 H2. cbn [fst snd].
  destruct Hv as [(e & [?|?])|Hv]; [done..|]. destruct (performed_validate _ _ _ _ _ Hg1 Hq Hv) as (l & Hh & Hfl).
  split_and!; [done|done| |exists l; split; [by eapply held_meanwhile|done]].
  destruct Hopen as [Ho|Ho]; rewrite Ho; [done|]. destruct st. cbn in Ho. by subst.
Qed.

Lemma recv_triple i n st h :
  good h → (n ≤ length h)%nat → req_ok (RReceive st) = true →
  triple i (recv_validated st) (λ r, recv_post i n st r.1 r.2) h.
Proof.
  intros Hg Hn Hq. unfold recv_validated, mbind, rs_bind, rs_get, rs_mesh. cbn [eff_bind fst snd].
  intros h1 reply l H1 Hr _. pose proof (meanwhile_good _ _ _ H1) as Hg1. apply meanwhile_length in H1.
  simpl in Hr. destruct reply as [[frame|]|e]; cbn [eff_bind fst snd].
  2,3: subst l; rewrite app_nil_r; split; [done|]; by intros h2 _.
  destruct Hr as [Hp ->]. split; [by apply good_same|]. set (ev := entry i (EReceived (rs_stream st) frame) (state h1)).
  destruct frame as [|fenced payload|fenced reason|]; [by intros h2 _| |by intros h2 _..].
  destruct (wire_decode payload) as [w|e] eqn:Hw; [|by intros h2 _]. apply triple_bind. eapply triple_mono.
  { apply triple_extends. apply (fence_check_triple i (S (length h1)) (wire_community w) fenced st).
    - by apply good_same.
    - rewrite length_app. simpl. lia.
    - by eapply decoded_uuid.
    - done. }
  intros [[[]|e] st'] h2 Hg2 _ [Hv [l Hl]]; cbn [fst snd] in *; [|subst; by intros h3 _].
  destruct Hv as (-> & Ho & -> & ls & Hh & Hf). intros h3 H3. exists (wire_community w). split_and!; [done..|].
  exists (length h1), ev, payload, w. split_and!; try done; [lia| |].
  - destruct H3 as (_ & _ & l3 & -> & _). rewrite Hl. apply lookup_app_l_Some, lookup_app_l_Some.
    by rewrite lookup_app_r, Nat.sub_diag.
  - exists ls. split; [by eapply held_meanwhile|done].
Qed.

(** *** Renewing *)

(** Whether the task has said so that the lease is lost, and whether its caller
    had cancelled it. *)
Definition event_of (i : nat) (ev : Event) (h : list Entry) : Prop := ∃ e, e ∈ h ∧ e_author e = Some i ∧ e_event e = ev.

Lemma event_app i ev h l : event_of i ev h → event_of i ev (h ++ l).
Proof. intros (e & ? & ?). exists e. split; [set_solver|done]. Qed.
Lemma event_meanwhile i j ev h h' : event_of i ev h → meanwhile j h h' → event_of i ev h'.
Proof. intros H (_ & _ & l & -> & _). by apply event_app. Qed.
Lemma event_last i ev h r : event_of i ev (h ++ [entry i ev r]).
Proof. exists (entry i ev r). split; [set_solver|done]. Qed.

(** A renewal of the lease was answered with it. *)
Definition renewed (i n : nat) (lease : SessionLease) (h : list Entry) : Prop :=
  ∃ l, held i n (sl_community_id lease) (sl_session_id lease) l h ∧
    sl_owner_runtime_id l = sl_owner_runtime_id lease ∧ sl_generation l = sl_generation lease.

Lemma performed_renewed i n lease l h :
  performed i n (DRenew lease) (ORenew (RenewRenewed l)) h → renewed i n lease h.
Proof.
  intros (k & e & Hn & Hk & Ha & Hr). cbn [register_apply dr_community dr_session] in Hr.
  assert (∀ l0, rg_lease (register (sl_community_id lease) (sl_session_id lease) (e_after e)) = Some l0 →
    held i n (sl_community_id lease) (sl_session_id lease) l0 h) as Hheld by (intros l0 Hl0; by exists k, e).
  revert Hr Hheld. generalize (register (sl_community_id lease) (sl_session_id lease) (e_after e)).
  generalize (register (sl_community_id lease) (sl_session_id lease) (state (take k h))). intros reg reg'.
  unfold holds. destruct (rg_lease reg) as [l0|] eqn:Hl; [|done]. cbn. destruct (_ && _) eqn:Hm; [|done].
  apply andb_prop in Hm as [?%bool_decide_eq_true ?%Z.eqb_eq]. intros [= <- <-] Hheld. exists l0. split; [by apply Hheld|done].
Qed.

Definition renewer_post (i n turns : nat) (lease : SessionLease) (ended : bool) (h : list Entry) : Prop :=
  if ended then event_of i (ELost lease) h ∨ event_of i (ETick true) h
  else turns = 0%nat ∨ renewed i n lease h.

Definition loop_post (i n turns : nat) (lease : SessionLease) (r : option bool) (h : list Entry) : Prop :=
  match r with
  | None => turns = 0%nat ∨ renewed i n lease h
  | Some true => event_of i (ETick true) h
  | Some false => event_of i (ELost lease) h
  end.

Lemma renewed_meanwhile i j n lease h h' : renewed i n lease h → meanwhile j h h' → renewed i n lease h'.
Proof. intros (l & Hh & H) Hm. exists l. split; [by eapply held_meanwhile|done]. Qed.

Lemma renew_loop_triple i n turns d lease h :
  good h → (n ≤ length h)%nat → request_ok (DRenew lease) = true →
  triple i (renew_loop turns d lease) (loop_post i n turns lease) h.
Proof.
  intros Hg Hn Hq. revert h Hg Hn. induction turns as [|turns IH]; intros h Hg Hn; [intros h1 _; by left|].
  cbn [renew_loop]. intros h1 cancelled l H1 Hr _. simpl in Hr. subst l. pose proof (meanwhile_good _ _ _ H1) as Hg1.
  apply meanwhile_length in H1. split; [by apply good_same|]. destruct cancelled.
  { intros h2 H2. eapply event_meanwhile; [apply event_last|exact H2]. }
  apply triple_bind. eapply triple_mono.
  { apply triple_extends. apply (renew_triple i d lease n); [by apply good_same|rewrite length_app; lia|done]. }
  assert (∀ h', good h' → triple i (Perform (CancelLost lease) (λ _, Pure (Some false))) (loop_post i n (S turns) lease) h')
    as Hlost.
  { intros h' Hg' h2 [] l2 H2 Hr _. simpl in Hr. subst l2. split; [by apply good_same, (meanwhile_good _ _ _ H2)|].
    intros h3 H3. eapply event_meanwhile; [apply event_last|exact H3]. }
  intros [[l|cur g]|e] h2 Hg2 _ [Hv [l2 Hl2]]; [|by apply Hlost..]. simpl in Hv. apply performed_renewed in Hv.
  eapply triple_mono.
  { apply triple_extends. apply IH; [done|]. rewrite Hl2, !length_app. lia. }
  intros [[]|] h3 Hg3 _ [H3 [l3 Hl3]]; try done. right.
  destruct Hv as (l' & Hh & H). exists l'. split; [|done]. rewrite Hl3. by apply held_app.
Qed.

Lemma renewer_triple i n turns d lease h :
  good h → (n ≤ length h)%nat → request_ok (DRenew lease) = true →
  triple i (lease_renewer turns d lease) (renewer_post i n turns lease) h.
Proof.
  intros Hg Hn Hq. unfold lease_renewer. apply triple_bind. eapply triple_mono.
  { apply triple_extends. by apply (renew_loop_triple i n). }
  intros [cancelled|] h1 Hg1 _ [H1 [l1 Hl1]].
  2: { intros h2 H2. destruct H1 as [?|H1]; [by left|]. right. by eapply renewed_meanwhile. }
  assert (∀ h', good h' → triple i (Perform (CancelLost lease) (λ _, Pure true)) (renewer_post i n turns lease) h') as Hlost.
  { intros h' Hg' h2 [] l2 H2 Hr _. simpl in Hr. subst l2. split; [by apply good_same, (meanwhile_good _ _ _ H2)|].
    intros h3 H3. left. eapply event_meanwhile; [apply event_last|exact H3]. }
  assert (∀ h', (∃ l, h' = h1 ++ l) → renewer_post i n turns lease true h') as Hend.
  { intros h' [l ->]. destruct cancelled; [right|left]; by apply event_app. }
  apply triple_bind. eapply triple_mono.
  { apply triple_extends. apply (release_triple i d lease (length h1)); [done|lia|done]. }
  intros [[l|cur g]|e] h2 Hg2 _ [_ [l2 ->]]; [|by apply Hlost|destruct cancelled; [|by apply Hlost]];
    (intros h3 (_ & _ & l3 & -> & _); apply Hend; rewrite <-app_assoc; by eexists).
Qed.

(** ** What every run guarantees *)

Definition post (r : Req) (i n : nat) (out : Outcome) (h : list Entry) : Prop :=
  match `r, out with
  | RDirectory _ q, ODirectory res => dir_post i n q res h
  | RJoin rt c s, OJoin res => join_post i n rt c s res h
  | RReceive st, OReceive res st' => recv_post i n st res st' h
  | RRenewer turns _ lease, ORenewer ended => renewer_post i n turns lease ended h
  | _, _ => False
  end.

Lemma pure_triple {A B} i (p : tprog A) (f : A → B) (Q : A → list Entry → Prop) (P : B → list Entry → Prop) h :
  triple i p Q h → (∀ a h', Q a h' → P (f a) h') → triple i (eff_bind p (λ a, Pure (f a))) P h.
Proof.
  intros Hp HP. revert h Hp. induction p as [a|op k IH]; simpl; intros h Hp.
  - intros h1 H1. by apply HP, Hp.
  - intros h1 reply l H1 Hr Ho. destruct (Hp h1 reply l H1 Hr Ho). split; [done|]. by apply IH.
Qed.

Lemma request_triple (r : Req) i h :
  good h → anything h → Forall (λ e, e_author e ≠ Some i) h → triple i (program (`r)) (post r i (length h)) h.
Proof.
  intros Hg _ _. destruct r as [r Hq]. unfold post. cbn [proj1_sig]. destruct r as [d q|rt c s|st|turns d l]; cbn [program].
  - eapply pure_triple; [by apply (dir_triple i (length h))|done].
  - eapply pure_triple; [by apply (join_triple i (length h))|done].
  - eapply pure_triple; [by apply (recv_triple i (length h))|done].
  - eapply pure_triple; [by apply (renewer_triple i (length h))|done].
Qed.

Lemma authored i ev r : Forall (λ e, e_author e = Some i) [entry i ev r].
Proof. by apply Forall_singleton. Qed.

Lemma tunnel_react_author i op h reply l : react i op h reply l → Forall (λ e, e_author e = Some i) l.
Proof.
  pose proof (authored i) as Ha.
  destruct op; cbn.
  - by intros [-> _].
  - by intros [-> _].
  - intros [(rep & r' & _ & -> & _)|(e & _ & _ & [->|(rep & r' & _ & ->)])]; [apply Ha|done|apply Ha].
  - intros [[_ ->]|(e & _ & _ & ->)]; [apply Ha|done].
  - intros [[_ ->]|(e & _ & _ & ->)]; [apply Ha|done].
  - destruct reply; intros ->; [apply Ha|done].
  - intros [->|[_ ->]]; [apply Ha|done].
  - by intros ->.
  - destruct reply as [[f|]|]; [intros [_ ->]; apply Ha|by intros ->..].
  - intros ->. apply Ha.
  - intros ->. apply Ha.
Qed.

Lemma relays_sound m :
  relays m → good (history m) ∧ ∀ i r start out,
    tasks m !! i = Some (Build_Task r start (Pure out)) → post r i start out (history m).
Proof.
  intros Hm. apply (triple_sound e_author react outside (λ r : Req, program (`r)) good anything post); try done.
  - apply good_nil.
  - apply tunnel_react_author.
  - apply tunnel_outside_good.
  - apply request_triple.
Qed.

(** A register through time: the counter does not go back, and while it stands still
    no lease comes up. *)
Lemma register_through h l c s :
  good (h ++ l) → uuid_ok c = true → uuid_ok s = true →
  let reg := register c s (state h) in let reg' := register c s (state (h ++ l)) in
  (rg_counter reg ≤ rg_counter reg')%Z ∧
  (rg_counter reg = rg_counter reg' → ∀ le, rg_lease reg' = Some le → rg_lease reg = Some le).
Proof.
  intros Hg Hc Hs. induction l as [|e l IH] using rev_ind; [by rewrite app_nil_r|]. rewrite app_assoc in Hg.
  specialize (IH (tunnel_good_app _ _ Hg)) as [Hle Hsame]. cbv zeta in *. rewrite app_assoc, tunnel_state_snoc.
  assert (session_step (state (h ++ l)) (e_after e)) as Hstep.
  { inversion Hg as [Hn|h' e' _ _ Hst Heq]; [by destruct (app_cons_not_nil (h ++ l) [] e)|].
    by apply app_inj_2 in Heq as [-> [= ->]]. }
  destruct (Hstep c s Hc Hs) as [-> |[-> |(Hn & o & p & ->)]]; [done|split; [done|by intros _ ?]|].
  unfold register_apply. rewrite Hn. cbn [snd rg_counter rg_lease]. split; lia.
Qed.

Lemma moments_through h n1 n2 c s l1 l2 :
  good h → uuid_ok c = true → uuid_ok s = true → (n1 ≤ n2)%nat →
  rg_lease (register c s (state (take n1 h))) = Some l1 → rg_lease (register c s (state (take n2 h))) = Some l2 →
  (sl_generation l1 ≤ sl_generation l2)%Z ∧ (sl_generation l1 = sl_generation l2 → l1 = l2).
Proof.
  intros Hg Hc Hs Hn H1 H2. pose proof (good_rep _ c s (good_take h n1 Hg) Hc Hs) as R1.
  pose proof (good_rep _ c s (good_take h n2 Hg) Hc Hs) as R2.
  destruct (lease_counter _ _ _ _ _ R1 H1) as [G1 _]. destruct (lease_counter _ _ _ _ _ R2 H2) as [G2 _]. rewrite G1, G2.
  assert (take n2 h = take n1 h ++ drop n1 (take n2 h)) as Ht.
  { rewrite <-(take_drop n1 (take n2 h)) at 1. by rewrite take_take, Nat.min_l. }
  rewrite Ht in *. destruct (register_through (take n1 h) (drop n1 (take n2 h)) c s) as [Hle Hsame]; [|done..|].
  { rewrite <-Ht. by apply good_take. }
  split; [done|]. intros Heq. specialize (Hsame Heq _ H2). congruence.
Qed.

(** A held lease is the register's at a moment. *)
Lemma held_moment i n c s l h : held i n c s l h → ∃ k, rg_lease (register c s (state (take (S k) h))) = Some l.
Proof.
  intros (k & e & _ & Hk & _ & Hl). exists k. rewrite (take_S_r _ _ _ Hk). by rewrite tunnel_state_snoc.
Qed.

Lemma held_unique h i j n n' c s l1 l2 :
  good h → uuid_ok c = true → uuid_ok s = true → held i n c s l1 h → held j n' c s l2 h →
  sl_generation l1 = sl_generation l2 → l1 = l2.
Proof.
  intros Hg Hc Hs (k1 & H1)%held_moment (k2 & H2)%held_moment Heq.
  destruct (decide (S k1 ≤ S k2)%nat).
  - by apply (moments_through h (S k1) (S k2) c s l1 l2).
  - symmetry. apply (moments_through h (S k2) (S k1) c s l2 l1); [done..|lia|done|done|done].
Qed.

(** C9. The session directory is linearizable.  Whatever else the relays do, a call of
    it that answers takes effect at one moment between its beginning and its end: the
    Redis evaluation at that moment is the call's own, and it turns the register the
    session's two keys stand for into the one the register's operation turns it into,
    with the call's answer.  A call that fails never panics on a reply of Redis.  And
    no moment at all, an expiry included, does anything to any session that is not a
    step of its register. *)
Theorem directory_linearizable m :
  relays m →
  (∀ i r start d q res,
     tasks m !! i = Some (Build_Task r start (Pure (ODirectory res))) → `r = RDirectory d q →
     match res with
     | Ok out => performed i start q out (history m)
     | Err (FDirectory e) => e ≠ Panic
     | Err (FMesh _) => True
     end) ∧
  (∀ k e c s, history m !! k = Some e → uuid_ok c = true → uuid_ok s = true →
     register_step c s (register c s (state (take k (history m)))) (register c s (e_after e))).
Proof.
  intros [Hg Hpost]%relays_sound. split.
  - intros i r start d q res Ht Hr. specialize (Hpost _ _ _ _ Ht). unfold post in Hpost. by rewrite Hr in Hpost.
  - intros k e c s Hk Hc Hs. pose proof (good_take _ (S k) Hg) as Hgk. rewrite (take_S_r _ _ _ Hk) in Hgk.
    inversion Hgk as [Hn|h' e' _ _ Hst Heq]; [by destruct (app_cons_not_nil (take k (history m)) [] e)|].
    apply app_inj_2 in Heq as [-> [= ->]]; [|done]. by apply Hst.
Qed.

(** C16. A generation of a session has one owner for ever, and generations only grow.
    At any two moments at which leases of one session are live, the later one is of a
    generation at least as high, and if the generations are the same the leases are.
    So two joins of a session that were both answered that the session is owned here,
    at the same generation, were made on the same relay. *)
Theorem generation_one_owner m c s :
  relays m → uuid_ok c = true → uuid_ok s = true →
  (∀ n1 n2 l1 l2, (n1 ≤ n2)%nat →
     rg_lease (register c s (state (take n1 (history m)))) = Some l1 →
     rg_lease (register c s (state (take n2 (history m)))) = Some l2 →
     (sl_generation l1 ≤ sl_generation l2)%Z ∧ (sl_generation l1 = sl_generation l2 → l1 = l2)) ∧
  (∀ i1 i2 r1 r2 start1 start2 rt1 rt2 l1 l2,
     tasks m !! i1 = Some (Build_Task r1 start1 (Pure (OJoin (Ok (Owned l1))))) → `r1 = RJoin rt1 c s →
     tasks m !! i2 = Some (Build_Task r2 start2 (Pure (OJoin (Ok (Owned l2))))) → `r2 = RJoin rt2 c s →
     sl_generation l1 = sl_generation l2 → local_runtime_id rt1 = local_runtime_id rt2).
Proof.
  intros [Hg Hpost]%relays_sound Hc Hs. split.
  { intros n1 n2 l1 l2 Hn H1 H2. exact (moments_through (history m) n1 n2 c s l1 l2 Hg Hc Hs Hn H1 H2). }
  intros i1 i2 r1 r2 start1 start2 rt1 rt2 l1 l2 T1 R1 T2 R2 Heq.
  apply Hpost in T1, T2. unfold post in T1, T2. rewrite R1 in T1. rewrite R2 in T2.
  destruct T1 as (H1 & <- & _), T2 as (H2 & <- & _). f_equal.
  by apply (held_unique (history m) i1 i2 start1 start2 c s).
Qed.

(** C17. A tunnel delivers only frames of the live lease.  When a receive on a stream
    hands over a frame, the frame came in on that stream during the call under
    exactly the fence the stream is pinned to, and at a moment after it came in the
    directory held a live lease of just that session, generation and owner, in the
    community the frame names, which is the one the stream is latched to from then
    on and was latched to before if it was.  Any other outcome leaves the stream as
    it was. *)
Theorem frames_fenced m i r start st res st' :
  relays m → tasks m !! i = Some (Build_Task r start (Pure (OReceive res st'))) → `r = RReceive st →
  match res with
  | Ok (Some f) => ∃ c j e payload w k e' l,
      open_to c st ∧ st' = with_community st c ∧
      (start ≤ j < k)%nat ∧ history m !! j = Some e ∧ e_author e = Some i ∧
      e_event e = EReceived (rs_stream st) (Data (rs_fenced st) payload) ∧
      wire_decode payload = Ok w ∧ wire_community w = c ∧ f = delivered_frame w ∧
      history m !! k = Some e' ∧ rg_lease (register c (fh_session_id (rs_fenced st)) (e_after e')) = Some l ∧
      fenced_header l = rs_fenced st
  | _ => st' = st
  end.
Proof.
  intros [Hg Hpost]%relays_sound Ht Hr. specialize (Hpost _ _ _ _ Ht). unfold post in Hpost. rewrite Hr in Hpost.
  destruct res as [[f|]|e]; [|done..]. destruct Hpost as (c & Ho & -> & j & e & payload & w & Hj & Hl & Ha & He & Hw & Hc & -> & H).
  destruct H as (l & (k & e' & Hk & Hke & _ & Hle) & Hf). exists c, j, e, payload, w, k, e', l. split_and!; try done.
Qed.

(** A join answers what the directory says.  [Owned] comes with a lease of this
    relay and of the reliable profile that the directory held for the session at a
    moment of the call; [Forwarded] comes with one of another relay, and a stream
    pinned to that lease that was opened to its owner during the call with this
    relay's name and the lease in its hello; a mismatch of profiles is reported of a
    lease that was held.  The other errors are those of the directory and the mesh. *)
Theorem join_truthful m i r start rt c s res :
  relays m → tasks m !! i = Some (Build_Task r start (Pure (OJoin res))) → `r = RJoin rt c s →
  match res with
  | Ok (Owned l) =>
      held i start c s l (history m) ∧ sl_owner_runtime_id l = local_runtime_id rt ∧ sl_profile l = ReliableStream
  | Ok (Forwarded l st) =>
      held i start c s l (history m) ∧ sl_owner_runtime_id l ≠ local_runtime_id rt ∧ sl_profile l = ReliableStream ∧
      rs_fenced st = fenced_header l ∧ rs_community st = None ∧
      opened i (sl_owner_runtime_id l)
        {| sh_sender := local_runtime_id rt; sh_role := Session (fenced_header l) ReliableStream |}
        (rs_stream st) (history m)
  | Err (ProfileMismatch _ _ actual) =>
      ∃ l, held i start c s l (history m) ∧ sl_profile l = actual ∧ actual ≠ ReliableStream
  | Err (EDirectory e) => e ≠ Panic
  | Err (EMesh _) => True
  | Err _ => False
  end.
Proof.
  intros [Hg Hpost]%relays_sound Ht Hr. specialize (Hpost _ _ _ _ Ht). unfold post in Hpost. by rewrite Hr in Hpost.
Qed.

(** A renewer does not lose its lease in silence.  When the task that renews a
    lease has ended, either it has raised the loss signal or its caller had cancelled
    it; and while it has not, it has found, if it had a turn, the lease of its owner and
    generation live in the directory. *)
Theorem renewer_reports_loss m i r start turns d lease ended :
  relays m → tasks m !! i = Some (Build_Task r start (Pure (ORenewer ended))) → `r = RRenewer turns d lease →
  if ended then event_of i (ELost lease) (history m) ∨ event_of i (ETick true) (history m)
  else turns = 0%nat ∨ renewed i start lease (history m).
Proof.
  intros [Hg Hpost]%relays_sound Ht Hr. specialize (Hpost _ _ _ _ Ht). unfold post in Hpost. by rewrite Hr in Hpost.
Qed.
End system.
