(* ===== verification/TunnelRun.v ===== *)
(** * Runs of relays over one session directory

    A scheduler that computes runs of [relays], and a run in which one relay owns a
    session, another forwards to it, the lease runs out and the other takes over. *)

From stdpp Require Import base gmap strings list.
From Stdlib Require Import ZArith NArith Lia Ascii.
From S2P Require Import Prelude Text Nostr AudioRoom HuddleMedia Effect Directory Register Tunnel TunnelSafety.

Local Open Scope list_scope.

(** ** Identifiers *)

Definition hex_digit_of (n : Z) : ascii := ascii_of_N (Z.to_N (if (n <? 10)%Z then 48 + n else 87 + n)).

Fixpoint hex_text (bs : Bytes) : string :=
  match bs with
  | [] => ""
  | b :: bs => String (hex_digit_of (b / 16)) (String (hex_digit_of (b mod 16)) (hex_text bs))
  end%Z.

(** The value of a hexadecimal digit of either case. *)
Definition digit_of_hex (c : ascii) : option Z :=
  let n := Z.of_N (N_of_ascii c) in
  if ((48 <=? n) && (n <=? 57))%Z then Some (n - 48)%Z
  else if ((97 <=? n) && (n <=? 102))%Z then Some (n - 87)%Z
  else if ((65 <=? n) && (n <=? 70))%Z then Some (n - 55)%Z
  else None.

(** [hex::decode] *)
Fixpoint hex_bytes (s : string) : option Bytes :=
  match s with
  | EmptyString => Some []
  | String _ EmptyString => None
  | String a (String b s) =>
      x ← digit_of_hex a; y ← digit_of_hex b; bs ← hex_bytes s; Some ((16 * x + y)%Z :: bs)
  end.

Definition dash : string := "-".

(** [Uuid::from_bytes] and its text. *)
Definition uuid_text (bs : Bytes) : Uuid :=
  hex_text (take 4 bs) +:+ dash +:+ hex_text (take 2 (drop 4 bs)) +:+ dash +:+ hex_text (take 2 (drop 6 bs)) +:+
  dash +:+ hex_text (take 2 (drop 8 bs)) +:+ dash +:+ hex_text (take 6 (drop 10 bs)).

Fixpoint undash (s : string) : string :=
  match s with
  | EmptyString => ""
  | String c s => if bool_decide (c = "-"%char) then undash s else String c (undash s)
  end.

(** [Uuid::as_bytes] *)
Definition uuid_bytes_of (u : Uuid) : Bytes := default [] (hex_bytes (undash u)).

Lemma hex_digit_decode n : (0 ≤ n < 16)%Z → digit_of_hex (hex_digit_of n) = Some n.
Proof.
  intros Hn. assert (n ∈ seqZ 0 16) as H by (apply elem_of_seqZ; lia).
  revert H. clear. intros H. vm_compute seqZ in H. repeat (apply elem_of_cons in H as [->|H]; [done|]). by apply elem_of_nil in H.
Qed.

Lemma hex_text_roundtrip bs : Forall (λ b, byte_ok b = true) bs → hex_bytes (hex_text bs) = Some bs.
Proof.
  induction 1 as [|b bs Hb _ IH]; [done|]. apply andb_prop in Hb as [?%Z.leb_le ?%Z.ltb_lt]. cbn [hex_text hex_bytes].
  rewrite !hex_digit_decode, IH by (Z.to_euclidean_division_equations; lia). cbn. do 2 f_equal.
  pose proof (Z.div_mod b 16). lia.
Qed.

Lemma undash_app a b : undash (a +:+ b) = undash a +:+ undash b.
Proof.
  induction a as [|x a IH]; [done|]. rewrite string_app_cons. simpl. case_bool_decide; [done|].
  by rewrite string_app_cons, IH.
Qed.

Lemma hex_text_app a b : hex_text (a ++ b) = hex_text a +:+ hex_text b.
Proof. induction a as [|x a IH]; [done|]. simpl. rewrite !string_app_cons. by rewrite IH. Qed.

Lemma undash_hex bs : Forall (λ b, byte_ok b = true) bs → undash (hex_text bs) = hex_text bs.
Proof.
  assert (∀ n, (0 ≤ n < 16)%Z → hex_digit_of n ≠ "-"%char) as Hd.
  { intros n Hn Heq. pose proof (hex_digit_decode n Hn) as H. by rewrite Heq in H. }
  induction 1 as [|b bs Hb _ IH]; [done|]. apply andb_prop in Hb as [?%Z.leb_le ?%Z.ltb_lt]. cbn [hex_text undash].
  rewrite !bool_decide_eq_false_2, IH by (apply Hd; Z.to_euclidean_division_equations; lia). done.
Qed.

Lemma uuid_text_roundtrip bs :
  length bs = 16 → Forall (λ b, byte_ok b = true) bs → uuid_bytes_of (uuid_text bs) = bs.
Proof.
  intros Hl Hall. unfold uuid_bytes_of, uuid_text. rewrite !undash_app, !undash_hex by auto using Forall_take, Forall_drop.
  change (undash dash) with "".
  assert (∀ a, "" +:+ a = a) as He by done. rewrite !He, <-!hex_text_app.
  replace (take 4 bs ++ _) with bs; [by rewrite hex_text_roundtrip|].
  destruct bs as [|b1 [|b2 [|b3 [|b4 [|b5 [|b6 [|b7 [|b8 [|b9 [|b10 [|b11 [|b12 [|b13 [|b14 [|b15 [|b16 bs]]]]]]]]]]]]]]]];
    try done. by destruct bs.
Qed.

Lemma hex_bytes_spec n s bs :
  (String.length s ≤ n)%nat → hex_bytes s = Some bs →
  chars_all is_ascii_hexdigit s = true ∧ String.length s = (2 * length bs)%nat.
Proof.
  assert (∀ c y, digit_of_hex c = Some y → is_ascii_hexdigit c = true) as Hd.
  { intros c y. unfold digit_of_hex, is_ascii_hexdigit. destruct c as [[] [] [] [] [] [] [] []]; try done. }
  revert s bs. induction n as [|n IH]; intros [|x [|y s]] bs; simpl; try lia; try done; try by intros _ [= <-].
  intros Hn. destruct (digit_of_hex x) as [a|] eqn:Hx; [|done]. destruct (digit_of_hex y) as [b|] eqn:Hy; [|done].
  simpl. destruct (hex_bytes s) as [bs'|] eqn:Hs; [|done]. intros [= <-].
  destruct (IH s bs') as [H1 H2]; [lia|done|]. rewrite (Hd _ _ Hx), (Hd _ _ Hy), H1, H2. simpl. split; [done|lia].
Qed.

Lemma hex_text_length bs : String.length (hex_text bs) = (2 * length bs)%nat.
Proof. induction bs as [|b bs IH]; [done|]. simpl. rewrite IH. lia. Qed.

Definition run_ids : IdOps := {|
  hex_encode := hex_text; hex_decode := hex_bytes; uuid_of_bytes := uuid_text; uuid_as_bytes := uuid_bytes_of |}.
#[local] Existing Instance run_ids.

#[local] Instance run_id_laws : IdLaws.
Proof.
  split.
  - intros s bs H. by eapply (hex_bytes_spec (String.length s)).
  - intros s bs H. by eapply (hex_bytes_spec (String.length s)).
  - intros bs Hl. cbn. unfold uuid_text. rewrite !string_length_app, !hex_text_length, !length_take, !length_drop, Hl. done.
  - apply uuid_text_roundtrip.
Qed.

(** ** The scheduler *)

(** What the outside hands to an operation. *)
Record Feed := { fd_frame : option TunnelFrame; fd_cancelled : bool }.

Definition payload_ok_b (f : TunnelFrame) : bool :=
  match f with Data _ payload => forallb byte_ok payload | _ => true end.

(** An answer of a world without faults. *)
Definition answer (i : nat) (feed : Feed) (h : list Entry) (op : TunnelOp) : option (TunnelReply op * list Entry) :=
  let r := state h in
  match op with
  | BeginServingWrite _ | FinishServingWrite => Some (Ok tt, [])
  | Eval script lk gk => '(rep, r') ← eval_script script lk gk r; Some (Ok rep, [entry i EDir r'])
  | EvalValidate lk gk => Some (Ok (validate_script lk gk r), [entry i EDir r])
  | Get key => Some (Ok (redis_get key r), [entry i EDir r])
  | OpenSessionStream owner hello => Some (Ok (length h), [entry i (EOpened (length h) owner hello) r])
  | SendFrame stream frame => Some (Ok tt, [entry i (ESent stream frame) r])
  | FinishStream _ => Some (Ok tt, [])
  | RecvFrame stream =>
      match fd_frame feed with
      | Some f => if payload_ok_b f then Some (Ok (Some f), [entry i (EReceived stream f) r]) else None
      | None => Some (Ok None, [])
      end
  | AwaitTick => Some (fd_cancelled feed, [entry i (ETick (fd_cancelled feed)) r])
  | CancelLost l => Some (tt, [entry i (ELost l) r])
  end.

Lemma payload_ok_spec f : payload_ok_b f = true → payload_ok f.
Proof.
  destruct f as [|fenced payload|fenced reason|]; simpl; try done. intros H. apply Forall_forall. intros b Hb.
  by apply (proj1 (forallb_forall _ _) H), list_elem_of_In.
Qed.

Lemma tunnel_answer_react i feed h op reply l : answer i feed h op = Some (reply, l) → react i op h reply l.
Proof.
  destruct op; cbn.
  1,2: by intros [= <- <-].
  - destruct (eval_script _ _ _ _) as [[rep r']|] eqn:He; [|done]. cbn. intros [= <- <-]. left. by exists rep, r'.
  - intros [= <- <-]. by left.
  - intros [= <- <-]. by left.
  - by intros [= <- <-].
  - intros [= <- <-]. by left.
  - by intros [= <- <-].
  - destruct (fd_frame feed) as [f|]; [|by intros [= <- <-]]. destruct (payload_ok_b f) eqn:Hf; [|done].
    intros [= <- <-]. split; [by apply payload_ok_spec|done].
  - by intros [= <- <-].
  - by intros [= <- <-].
Qed.

Abbreviation System := (Machine TunnelOp TunnelReply Req Outcome Entry).

Inductive Cmd := Arrive (r : Req) | Run (i : nat) (feed : Feed) | Expire (key : string).

Definition expire (h : list Entry) (key : string) : option Entry :=
  v ← state h !! key; _ ← rv_px v;
  Some {| e_author := None; e_event := EOutside; e_after := delete key (state h) |}.

Lemma expire_outside h key e : expire h key = Some e → outside h e.
Proof.
  unfold expire. destruct (state h !! key) as [v|] eqn:Hv; [|done]. cbn. destruct (rv_px v) as [px|] eqn:Hp; [|done]. cbn.
  intros [= <-]. assert (∀ k, kept_or_expired (state h) (delete key (state h)) k) as Hk.
  { intros k. destruct (decide (k = key)) as [->|Hne]; [right|left; by rewrite lookup_delete_ne].
    split; [apply lookup_delete_eq|]. exists v. by rewrite Hp. }
  split_and!; [done..|]. intros c s _ _. split; apply Hk.
Qed.

Definition schedule1 (s : System) (c : Cmd) : option System :=
  match c with
  | Arrive r => Some {| history := history s; tasks := tasks s ++ [Build_Task r (length (history s)) (program (`r))] |}
  | Run i feed =>
      t ← tasks s !! i;
      match t_prog t with
      | Pure _ => None
      | Perform op k =>
          rl ← answer i feed (history s) op;
          Some {| history := history s ++ rl.2; tasks := <[i := Build_Task (t_req t) (t_start t) (k rl.1)]> (tasks s) |}
      end
  | Expire key => e ← expire (history s) key; Some {| history := history s ++ [e]; tasks := tasks s |}
  end.

Fixpoint schedule (s : System) (l : list Cmd) : option System :=
  match l with [] => Some s | c :: l' => s' ← schedule1 s c; schedule s' l' end.

Lemma tunnel_schedule1_step s c s' :
  schedule1 s c = Some s' → machine_step react outside (λ r : Req, program (`r)) s s'.
Proof.
  destruct c as [r|i feed|key]; simpl; [intros [= <-]; constructor| |].
  - destruct (tasks s !! i) as [[r n p]|] eqn:Hp; [|done]. simpl. destruct p as [a|op k]; [done|].
    destruct (answer i feed (history s) op) as [[reply l0]|] eqn:Ha; [|done]. intros [= <-].
    eapply machine_run; [done|]. by eapply tunnel_answer_react.
  - destruct (expire (history s) key) as [e|] eqn:He; [|done]. intros [= <-].
    apply machine_outside. by eapply expire_outside.
Qed.

Lemma tunnel_schedule_reachable s l s' : relays s → schedule s l = Some s' → relays s'.
Proof.
  revert s. induction l as [|c l IH]; intros s Hr; simpl; [by intros [= <-]|].
  destruct (schedule1 s c) as [s1|] eqn:Hs; [|done]. simpl. apply IH. econstructor; [done|by eapply tunnel_schedule1_step].
Qed.

(** ** A session that changes hands *)

Definition cafe : Uuid := "00000000-0000-0000-0000-00000000cafe".
Definition beef : Uuid := "00000000-0000-0000-0000-00000000beef".
Definition relay_a : RuntimeId := String.concat "" (repeat "a1" 32).
Definition relay_b : RuntimeId := String.concat "" (repeat "b2" 32).
Definition demo_directory : SessionDirectory := {| lease_ttl := 30000000000; has_db := true |}.
Definition router (runtime : RuntimeId) : ReliableStreamRouter :=
  {| directory := demo_directory; local_runtime_id := runtime |}.
Definition first_lease : SessionLease := lease_of cafe beef relay_a 1 ReliableStream.
Definition pinned : ReliableMeshStream := stream_new (fenced_header first_lease) 0.

Definition request (r : Request) (H : req_ok r = true) : Req := exist _ r H.
Definition joins_a : Req := request (RJoin (router relay_a) cafe beef) ltac:(by vm_compute).
Definition joins_b : Req := request (RJoin (router relay_b) cafe beef) ltac:(by vm_compute).
Definition receives : Req := request (RReceive pinned) ltac:(by vm_compute).
Definition looks_up : Req := request (RDirectory demo_directory (DLookup cafe beef)) ltac:(by vm_compute).
Definition renews : Req := request (RRenewer 2 demo_directory first_lease) ltac:(by vm_compute).

Definition incoming : TunnelFrame :=
  Data (fenced_header first_lease) (wire_encode (WireData cafe [1; 2; 3]%Z)).
Definition feed : Feed := {| fd_frame := Some incoming; fd_cancelled := false |}.
Definition steps (i n : nat) : list Cmd := repeat (Run i feed) n.

(** Relay a acquires, relay b is forwarded to it, a frame comes in, the lease is
    renewed once and then runs out: b acquires the next generation, the renewer is
    told, and a look at the directory shows the lease of b. *)
Definition handover : list Cmd :=
  [Arrive joins_a] ++ steps 0 3 ++ [Arrive joins_b] ++ steps 1 4 ++ [Arrive receives] ++ steps 2 2 ++
  [Arrive renews] ++ steps 3 4 ++ [Expire (lease_key cafe beef); Arrive joins_b] ++ steps 4 3 ++
  steps 3 5 ++ steps 3 4 ++ [Arrive looks_up] ++ steps 5 1.

Definition nothing : System := {| history := []; tasks := [] |}.
Abbreviation run script := (default nothing (schedule nothing script)).

Lemma handed_over : relays (run handover).
Proof.
  assert (match schedule nothing handover with Some _ => true | None => false end = true) as H by by vm_compute.
  destruct (schedule nothing handover) as [s|] eqn:Hs; [|discriminate H].
  eapply tunnel_schedule_reachable; [apply machine_start|exact Hs].
Qed.

Definition second_lease : SessionLease := lease_of cafe beef relay_b 2 ReliableStream.

(** What a task that has ended was asked, when, and what it answered. *)
Definition ended (s : System) (i : nat) : option (Request * nat * Outcome) :=
  match tasks s !! i with
  | Some {| t_req := r; t_start := n; t_prog := Pure a |} => Some (`r, n, a)
  | _ => None
  end.

Lemma ended_task s i q n a :
  ended s i = Some (q, n, a) → ∃ r : Req, tasks s !! i = Some (Build_Task r n (Pure a)) ∧ `r = q.
Proof.
  unfold ended. destruct (tasks s !! i) as [[r n' p]|]; [|done]. cbn. destruct p; [|done]. intros [= <- <- <-]. by exists r.
Qed.

Lemma directory_linearizable_witness :
  performed 5 14 (DLookup cafe beef) (OLookup (Some second_lease)) (history (run handover)).
Proof.
  destruct (ended_task (run handover) 5 (RDirectory demo_directory (DLookup cafe beef)) 14
    (ODirectory (Ok (OLookup (Some second_lease)))) ltac:(by vm_compute)) as (r & Ht & Hr).
  exact (proj1 (directory_linearizable _ handed_over) 5 r 14 _ _ _ Ht Hr).
Defined.

Lemma generation_one_owner_witness :
  rg_lease (register cafe beef (state (take 1 (history (run handover))))) = Some first_lease ∧
  (sl_generation first_lease ≤ sl_generation second_lease)%Z.
Proof.
  assert (rg_lease (register cafe beef (state (take 1 (history (run handover))))) = Some first_lease) as H1 by by vm_compute.
  assert (rg_lease (register cafe beef (state (take 10 (history (run handover))))) = Some second_lease) as H2 by by vm_compute.
  split; [exact H1|].
  exact (proj1 (proj1 (generation_one_owner _ cafe beef handed_over ltac:(by vm_compute) ltac:(by vm_compute))
    1 10 _ _ ltac:(lia) H1 H2)).
Defined.

Lemma frames_fenced_witness : ∃ e payload,
  e ∈ history (run handover) ∧ e_author e = Some 2 ∧ e_event e = EReceived 0 (Data (rs_fenced pinned) payload) ∧
  ∃ w, wire_decode payload = Ok w ∧ FrameData [1; 2; 3]%Z = delivered_frame w.
Proof.
  destruct (ended_task (run handover) 2 (RReceive pinned) 3
    (OReceive (Ok (Some (FrameData [1; 2; 3]%Z))) (with_community pinned cafe)) ltac:(by vm_compute)) as (r & Ht & Hr).
  destruct (frames_fenced _ 2 r 3 pinned _ _ handed_over Ht Hr)
    as (c & j & e & payload & w & k & e' & l & _ & _ & _ & Hj & Ha & He & Hw & _ & Hf & _).
  exists e, payload. exact (conj (list_elem_of_lookup_2 _ _ _ Hj) (conj Ha (conj He (ex_intro _ w (conj Hw Hf))))).
Defined.

Lemma join_truthful_witness :
  held 4 8 cafe beef second_lease (history (run handover)) ∧ sl_owner_runtime_id second_lease = relay_b.
Proof.
  destruct (ended_task (run handover) 4 (RJoin (router relay_b) cafe beef) 8
    (OJoin (Ok (Owned second_lease))) ltac:(by vm_compute)) as (r & Ht & Hr).
  destruct (join_truthful _ 4 r 8 _ _ _ _ handed_over Ht Hr) as (Hh & Ho & _). by split.
Defined.

Lemma renewer_reports_loss_witness :
  event_of 3 (ELost first_lease) (history (run handover)) ∨ event_of 3 (ETick true) (history (run handover)).
Proof.
  destruct (ended_task (run handover) 3 (RRenewer 2 demo_directory first_lease) 5 (ORenewer true) ltac:(by vm_compute))
    as (r & Ht & Hr).
  exact (renewer_reports_loss _ 3 r 5 _ _ _ _ handed_over Ht Hr).
Defined.

(** What is sent when every send succeeds. *)
Fixpoint all_sent {A} (p : tprog A) : option (list TunnelFrame * A) :=
  match p with
  | Pure a => Some ([], a)
  | Perform op k =>
      match op return (TunnelReply op → tprog A) → (TunnelReply op → option (list TunnelFrame * A)) → _ with
      | SendFrame _ frame => λ _ f, '(l, a) ← f (Ok tt); Some (frame :: l, a)
      | FinishStream _ => λ _ f, f (Ok tt)
      | _ => λ _ _, None
      end k (λ reply, all_sent (k reply))
  end.

Lemma all_sent_sends {A} (p : tprog A) l a : all_sent p = Some (l, a) → sends p l a.
Proof.
  revert l. induction p as [b|op k IH]; simpl; intros l; [by intros [= <- <-]|].
  destruct op; try done.
  - destruct (all_sent (k (Ok tt))) as [[l' a']|] eqn:Hk; [|done]. cbn. intros [= <- <-]. exists (Ok tt), [frame], l'.
    split_and!; [done..|by apply IH].
  - intros Hk. exists (Ok tt), [], l. split_and!; [done..|by apply IH].
Qed.

Lemma reliable_bytes_arrive_witness :
  ∃ frames blocks, sends (send_session cafe [[1; 2]; [3]]%Z SessionEnded pinned) frames (Ok tt, with_community pinned cafe) ∧
    receive (state (take 1 (history (run handover)))) frames pinned =
      Ok ((FrameData <$> blocks) ++ [FrameGoodbye SessionEnded]).
Proof.
  set (frames := [data_frame (fenced_header first_lease) cafe [1; 2]%Z; data_frame (fenced_header first_lease) cafe [3]%Z;
    goodbye_frame (fenced_header first_lease) cafe SessionEnded]).
  assert (sends (send_session cafe [[1; 2]; [3]]%Z SessionEnded pinned) frames (Ok tt, with_community pinned cafe)) as Hs.
  { apply all_sent_sends. by vm_compute. }
  assert (live_for cafe (state (take 1 (history (run handover)))) (rs_fenced pinned)) as Hlive.
  { split; [by vm_compute|]. split.
    - apply (good_redis _ (good_take _ 1 (proj1 (relays_sound _ handed_over)))); by vm_compute.
    - exists first_lease. split; [by vm_compute|done]. }
  destruct (reliable_bytes_arrive cafe [[1; 2]; [3]]%Z SessionEnded pinned frames (Ok tt) (with_community pinned cafe)
    _ pinned ltac:(by vm_compute) (or_introl eq_refl) Hs Hlive eq_refl (or_introl eq_refl))
    as (blocks & ending & Hr & _ & _ & _ & Hend).
  exists frames, blocks. split; [exact Hs|]. by rewrite (Hend eq_refl) in Hr.
Defined.
