(* ===== verification/Postgres.v ===== *)
(** * Transactions of a PostgreSQL database

    Programs ([Effect]) whose operations are SQL: single statements on the pool and
    transactions of several, at READ COMMITTED.  A statement sees what is committed
    and its own transaction's writes; the row locks, advisory locks and new unique
    keys it takes are held until the transaction ends, and it waits while another
    transaction holds one of them.  Any statement may fail, which ends its
    transaction; a transaction may be lost at any moment; a commit that fails may
    still have happened.  The logic is one rule per operation ([triple_stmt],
    [triple_commit], ...) for assertions that the locks held keep stable. *)

From stdpp Require Import base gmap list relations.
From Stdlib Require Import ZArith Lia.
From S2P Require Import Prelude Effect.

Local Open Scope list_scope.

(** ** The store *)

(** An open transaction: its [now()], what it wrote, what it holds. *)
Record Txn (Wr Lk : Type) := { x_now : Z; x_writes : list Wr; x_locks : list Lk }.
Arguments x_now {Wr Lk} _.
Arguments x_writes {Wr Lk} _.
Arguments x_locks {Wr Lk} _.
Arguments Build_Txn {Wr Lk} _ _ _.

Record Store (Db Wr Lk : Type) := { committed : Db; opened : gmap nat (Txn Wr Lk) }.
Arguments committed {Db Wr Lk} _.
Arguments opened {Db Wr Lk} _.
Arguments Build_Store {Db Wr Lk} _ _.

Inductive SqlAct (Wr Lk : Type) :=
  | ABegin (now : Z)
  | ADid (ws : list Wr) (ls : list Lk)
  | ACommit
  | ARollback
  | AAuto (ws : list Wr)
  | ALost (i : nat).
Arguments ABegin {Wr Lk} _.
Arguments ADid {Wr Lk} _ _.
Arguments ACommit {Wr Lk}.
Arguments ARollback {Wr Lk}.
Arguments AAuto {Wr Lk} _.
Arguments ALost {Wr Lk} _.

(** What happened, and the task that did it. *)
Abbreviation SqlEntry Wr Lk := (option nat * SqlAct Wr Lk)%type.

(** What a program may do: SQL, and other operations that leave the database alone. *)
Inductive SqlOp (Stmt Ext : Type) :=
  | SqlBegin
  | SqlStmt (s : Stmt)
  | SqlCommit
  | SqlRollback
  | SqlAuto (s : Stmt)
  | Outer (e : Ext).
Arguments SqlBegin {Stmt Ext}.
Arguments SqlStmt {Stmt Ext} _.
Arguments SqlCommit {Stmt Ext}.
Arguments SqlRollback {Stmt Ext}.
Arguments SqlAuto {Stmt Ext} _.
Arguments Outer {Stmt Ext} _.

Section replies.
Context {Stmt Ext : Type} (answer : Stmt → Type) (outer : Ext → Type).

(** [None] is any error of the driver or the server. *)
Definition SqlReply (op : SqlOp Stmt Ext) : Type :=
  match op with
  | SqlBegin | SqlCommit => option unit
  | SqlStmt s | SqlAuto s => option (answer s)
  | SqlRollback => unit
  | Outer e => outer e
  end.
End replies.

Section store.
Context {Db Wr Lk : Type} (apply : Wr → Db → Db).

Definition apply_all (ws : list Wr) (d : Db) : Db := foldl (λ d w, apply w d) d ws.

Definition store_step (st : Store Db Wr Lk) (e : SqlEntry Wr Lk) : Store Db Wr Lk :=
  match e with
  | (Some i, ABegin now) => Build_Store (committed st) (<[i := Build_Txn now [] []]> (opened st))
  | (Some i, ADid ws ls) =>
      Build_Store (committed st)
        (alter (λ x, Build_Txn (x_now x) (x_writes x ++ ws) (x_locks x ++ ls)) i (opened st))
  | (Some i, ACommit) =>
      match opened st !! i with
      | Some x => Build_Store (apply_all (x_writes x) (committed st)) (delete i (opened st))
      | None => st
      end
  | (Some i, ARollback) => Build_Store (committed st) (delete i (opened st))
  | (_, AAuto ws) => Build_Store (apply_all ws (committed st)) (opened st)
  | (None, ALost i) => Build_Store (committed st) (delete i (opened st))
  | _ => st
  end.

Definition store_of (init : Db) (h : list (SqlEntry Wr Lk)) : Store Db Wr Lk :=
  foldl store_step (Build_Store init ∅) h.

(** Nobody but task [i] holds one of [ls]. *)
Definition free_for (i : option nat) (ls : list Lk) (st : Store Db Wr Lk) : Prop :=
  ∀ j x, opened st !! j = Some x → i ≠ Some j → ∀ l, l ∈ ls → l ∉ x_locks x.

Context {Stmt Ext : Type} {answer : Stmt → Type} {outer : Ext → Type}.
(** A statement at a [now()] and a view of the database: what it answers, writes and
    locks; [None] if a constraint refuses it.  What the server is free to choose, such
    as the rows [SKIP LOCKED] passes over, is an argument. *)
Context {Choice : Type} (exec : Choice → Z → Db → ∀ s : Stmt, option (answer s * list Wr * list Lk)).
Context (init : Db).

Definition sql_react (i : nat) (op : SqlOp Stmt Ext) (h : list (SqlEntry Wr Lk))
    : SqlReply answer outer op → list (SqlEntry Wr Lk) → Prop :=
  let st := store_of init h in
  match op return SqlReply answer outer op → list (SqlEntry Wr Lk) → Prop with
  | SqlBegin => λ r l,
      (r = None ∧ l = []) ∨ (∃ now, r = Some tt ∧ opened st !! i = None ∧ l = [(Some i, ABegin now)])
  | SqlStmt s => λ r l,
      (r = None ∧ l = [(Some i, ARollback)]) ∨
      (∃ o x a ws ls, r = Some a ∧ opened st !! i = Some x ∧
         exec o (x_now x) (apply_all (x_writes x) (committed st)) s = Some (a, ws, ls) ∧
         free_for (Some i) ls st ∧ l = [(Some i, ADid ws ls)])
  | SqlCommit => λ r l,
      (r = None ∧ (l = [(Some i, ARollback)] ∨ l = [(Some i, ACommit)])) ∨
      (r = Some tt ∧ is_Some (opened st !! i) ∧ l = [(Some i, ACommit)])
  | SqlRollback => λ _ l, l = [(Some i, ARollback)]
  | SqlAuto s => λ r l,
      (r = None ∧ l = []) ∨
      (∃ o now a ws ls, (r = Some a ∨ r = None) ∧ exec o now (committed st) s = Some (a, ws, ls) ∧
         free_for None ls st ∧ l = [(Some i, AAuto ws)])
  | Outer _ => λ _ l, l = []
  end.

(** Others write what [extern] allows, and connections are lost. *)
Definition sql_outside (extern : Db → Wr → list Lk → Prop) (h : list (SqlEntry Wr Lk)) (e : SqlEntry Wr Lk) : Prop :=
  let st := store_of init h in
  (∃ j, e = (None, ALost j)) ∨
  (∃ w ls, e = (None, AAuto [w]) ∧ extern (committed st) w ls ∧ free_for None ls st).

Lemma store_of_snoc h e : store_of init (h ++ [e]) = store_step (store_of init h) e.
Proof. unfold store_of. by rewrite foldl_app. Qed.

Lemma sql_react_author i op h reply l : sql_react i op h reply l → Forall (λ e : SqlEntry Wr Lk, fst e = Some i) l.
Proof.
  destruct op; simpl; [|intros [[_ ->]|(?&?&?&?&?&_&_&_&_&->)]|intros [[_ [-> | ->]]|(_&_&->)]| | |]; try by intros ->; repeat constructor.
  - intros [[_ ->]|(?&_&_&->)]; by repeat constructor.
  - by repeat constructor.
  - by repeat constructor.
  - by repeat constructor.
  - by repeat constructor.
  - by repeat constructor.
  - intros [[_ ->]|(?&?&?&?&?&_&_&_&->)]; by repeat constructor.
Qed.

Lemma sql_react_short i op h reply l : sql_react i op h reply l → (length l <= 1)%nat.
Proof. destruct op; simpl; naive_solver. Qed.

Lemma apply_all_app ws ws' d : apply_all (ws ++ ws') d = apply_all ws' (apply_all ws d).
Proof. unfold apply_all. by rewrite foldl_app. Qed.
End store.

(** ** Programs *)

Section programs.
Context {Stmt Ext : Type} {answer : Stmt → Type} {outer : Ext → Type} {E : Type} (sqlx : E).
Abbreviation sqlprog := (eff (SqlOp Stmt Ext) (SqlReply answer outer)).

Definition sql_ok {A} (r : option A) : result E A := match r with Some a => Ok a | None => Err sqlx end.

(** [....execute(&mut *tx).await] *)
Definition in_tx (s : Stmt) : sqlprog (result E (answer s)) := eff_bind (perform (SqlStmt s)) (λ r, Pure (sql_ok r)).

(** [....execute(&self.pool).await] *)
Definition on_pool (s : Stmt) : sqlprog (result E (answer s)) := eff_bind (perform (SqlAuto s)) (λ r, Pure (sql_ok r)).

(** [tx.commit().await?; Ok(a)] *)
Definition commit {A} (a : A) : sqlprog (result E A) :=
  eff_bind (perform SqlCommit) (λ r, Pure (match r with Some _ => Ok a | None => Err sqlx end)).

(** [let mut tx = self.pool.begin().await?; ...], rolled back where it returns early. *)
Definition with_tx {A} (body : sqlprog (result E A)) : sqlprog (result E A) :=
  eff_bind (perform SqlBegin) (λ r,
    match r with
    | None => Pure (Err sqlx)
    | Some _ =>
        eff_bind body (λ r,
          match r with
          | Ok a => Pure (Ok a)
          | Err e => eff_bind (perform SqlRollback) (λ _, Pure (Err e))
          end)
    end).
End programs.

Declare Scope sql_scope.
Delimit Scope sql_scope with sql.
Notation "'let?' x := p 'in' q" := (try_bind p (λ x, q))
  (at level 200, x binder, p at level 200, q at level 200, right associativity) : sql_scope.

(** ** The logic *)

Section logic.
Context {Db Wr Lk : Type} (apply : Wr → Db → Db).
Context {Stmt Ext : Type} {answer : Stmt → Type} {outer : Ext → Type}.
Context {Choice : Type} (exec : Choice → Z → Db → ∀ s : Stmt, option (answer s * list Wr * list Lk)).
Context (init : Db).
(** What the committed database may become, and what the holder of some locks may
    count on meanwhile. *)
Context (steps : relation Db) `{Hsteps : !PreOrder steps}.
Context (stable : list Lk → relation Db) `{Hstable : !∀ L, PreOrder (stable L)}.

Abbreviation History := (list (SqlEntry Wr Lk)).
Abbreviation store := (store_of apply init).
Abbreviation sqlprog := (eff (SqlOp Stmt Ext) (SqlReply answer outer)).

(** What the holder of [ls] may do to the database. *)
Definition guaranteed (ls : list Lk) (c c' : Db) : Prop :=
  steps c c' ∧ ∀ L, (∀ l, l ∈ ls → l ∉ L) → stable L c c'.

Definition entry_ok (st : Store Db Wr Lk) (e : SqlEntry Wr Lk) : Prop :=
  match e with
  | (Some i, ADid ws ls) => free_for (Some i) ls st
  | (Some i, ACommit) =>
      ∀ x, opened st !! i = Some x → guaranteed (x_locks x) (committed st) (apply_all apply (x_writes x) (committed st))
  | (_, AAuto ws) => ∃ ls, free_for None ls st ∧ guaranteed ls (committed st) (apply_all apply ws (committed st))
  | _ => True
  end.

Inductive good : History → Prop :=
  | good_nil : good []
  | good_snoc h e : good h → entry_ok (store h) e → good (h ++ [e]).

Lemma good_history_inv h e : good (h ++ [e]) → good h ∧ entry_ok (store h) e.
Proof.
  inversion 1 as [Heq|h' e' H1 H2 Heq]; [by destruct h|]. by apply app_inj_tail in Heq as [-> ->].
Qed.

Lemma good_app_l h l : good (h ++ l) → good h.
Proof.
  induction l as [|e l IH] using rev_ind; [by rewrite app_nil_r|]. rewrite app_assoc.
  intros [? _]%good_history_inv. auto.
Qed.

Lemma locks_apart h i j x y l :
  good h → opened (store h) !! i = Some x → opened (store h) !! j = Some y → i ≠ j → l ∈ x_locks x → l ∉ x_locks y.
Proof.
  intros Hg. revert i j x y l. induction Hg as [|h e Hg IH He]; intros i j x y l; [done|].
  rewrite store_of_snoc. destruct e as [[k|] []]; simpl in *; eauto.
  - intros [(-> & <-)|[? Hi]]%lookup_insert_Some [(-> & <-)|[? Hj]]%lookup_insert_Some Hne; simpl.
    + done.
    + by intros ?%elem_of_nil.
    + intros _. apply not_elem_of_nil.
    + by eapply (IH i j).
  - intros Hi Hj Hne. destruct (decide (i = k)) as [->|]; destruct (decide (j = k)) as [->|]; try done.
    + rewrite lookup_alter_ne in Hj by done. rewrite lookup_alter_eq in Hi.
      destruct (opened (store h) !! k) as [x0|] eqn:Hx; simplify_eq/=. rewrite elem_of_app. intros [?|?]; [by eapply (IH k j)|].
      by eapply He; [done|congruence|].
    + rewrite lookup_alter_ne in Hi by done. rewrite lookup_alter_eq in Hj.
      destruct (opened (store h) !! k) as [y0|] eqn:Hy; simplify_eq/=. rewrite elem_of_app. intros ? [?|?]; [by eapply (IH i k)|].
      by eapply (He _ _ Hi); [congruence|..].
    + rewrite lookup_alter_ne in Hi by done. rewrite lookup_alter_ne in Hj by done. by eapply (IH i j).
  - destruct (opened (store h) !! k) as [x0|]; simpl; [|by eapply (IH i j)].
    rewrite !lookup_delete_Some. intros [_ Hi] [_ Hj]. by eapply (IH i j).
  - rewrite !lookup_delete_Some. intros [_ Hi] [_ Hj]. by eapply (IH i j).
  - rewrite !lookup_delete_Some. intros [_ Hi] [_ Hj]. by eapply (IH i j).
Qed.

Lemma good_steps h : good h → steps init (committed (store h)).
Proof.
  induction 1 as [|h e Hg IH He]; [reflexivity|]. rewrite store_of_snoc.
  destruct e as [[k|] []]; simpl in *; try done.
  - destruct (opened (store h) !! k) as [x|] eqn:Hx; [|done]. etrans; [exact IH|]. by apply He.
  - destruct He as (ls & _ & Hgu). etrans; [exact IH|]. apply Hgu.
  - destruct He as (ls & _ & Hgu). etrans; [exact IH|]. apply Hgu.
Qed.

Lemma good_steps_between h l : good (h ++ l) → steps (committed (store h)) (committed (store (h ++ l))).
Proof.
  induction l as [|e l IH] using rev_ind; [by rewrite app_nil_r|]. rewrite app_assoc. intros [Hg He]%good_history_inv.
  etrans; [by apply IH|]. rewrite store_of_snoc.
  destruct e as [[k|] []]; simpl in *; try done.
  - destruct (opened (store (h ++ l)) !! k) as [x|] eqn:Hx; [|done]. by apply He.
  - destruct He as (ls & _ & Hgu). apply Hgu.
  - destruct He as (ls & _ & Hgu). apply Hgu.
Qed.

(** What others do leaves a transaction's view of its own part alone, or ends it. *)
Lemma stable_step i x h e :
  good (h ++ [e]) → e.1 ≠ Some i → opened (store h) !! i = Some x →
  opened (store (h ++ [e])) !! i = None ∨
  (opened (store (h ++ [e])) !! i = Some x ∧ stable (x_locks x) (committed (store h)) (committed (store (h ++ [e])))).
Proof.
  intros [Hg He]%good_history_inv Hne Hi. rewrite store_of_snoc.
  destruct e as [[k|] []]; simpl in *; try (right; done).
  - right. rewrite lookup_insert_ne by congruence. done.
  - right. rewrite lookup_alter_ne by congruence. done.
  - destruct (opened (store h) !! k) as [y|] eqn:Hk; [|by right]. right.
    simpl. rewrite lookup_delete_ne by congruence. split; [done|]. apply (He _ eq_refl).
    intros l. apply (locks_apart h k i y x l Hg Hk Hi). congruence.
  - right. rewrite lookup_delete_ne by congruence. done.
  - right. split; [done|]. destruct He as (ls & Hf & _ & Hs). apply Hs. intros l. by eapply Hf.
  - right. split; [done|]. destruct He as (ls & Hf & _ & Hs). apply Hs. intros l. by eapply Hf.
  - destruct (decide (i = i0)) as [->|].
    + left. apply lookup_delete_eq.
    + right. by rewrite lookup_delete_ne.
Qed.

Lemma tx_closed_step i (h : History) (e : SqlEntry Wr Lk) : e.1 ≠ Some i → opened (store h) !! i = None → opened (store (h ++ [e])) !! i = None.
Proof.
  intros Hne Hi. rewrite store_of_snoc. destruct e as [[k|] []]; simpl in *; try done.
  - rewrite lookup_insert_ne by congruence. done.
  - rewrite lookup_alter_ne by congruence. done.
  - destruct (opened (store h) !! k); simpl; [|done]. apply lookup_delete_None. by right.
  - apply lookup_delete_None. by right.
  - apply lookup_delete_None. by right.
Qed.

Lemma closed_app i (h l : History) : Forall (λ e, e.1 ≠ Some i) l → opened (store h) !! i = None → opened (store (h ++ l)) !! i = None.
Proof.
  induction l as [|e l IH] using rev_ind; [by rewrite app_nil_r|]. rewrite app_assoc.
  intros [Hl [He _]%Forall_cons]%Forall_app Hi. apply tx_closed_step; [exact He|by apply IH].
Qed.

(** *** Assertions of a transaction *)

(** It is gone, or it is [x] and the database satisfies [P]. *)
Definition held (i : nat) (x : Txn Wr Lk) (P : Db → Prop) (h : History) : Prop :=
  opened (store h) !! i = None ∨ (opened (store h) !! i = Some x ∧ P (committed (store h))).

Definition closed (i : nat) (h : History) : Prop := opened (store h) !! i = None.

(** What the holder of [L] may assert: nothing that others do undoes it. *)
Definition kept (L : list Lk) (P : Db → Prop) : Prop :=
  ∀ c c', steps init c → steps c c' → stable L c c' → P c → P c'.

Abbreviation meanwhile := (meanwhile fst good (λ _ : History, True)).
Abbreviation triple := (triple fst (sql_react apply exec init (outer:=outer)) good (λ _ : History, True)).

Lemma txn_meanwhile i x P h h' : held i x P h → kept (x_locks x) P → meanwhile i h h' → held i x P h'.
Proof.
  intros H HP (Hg & _ & l & -> & Hl). revert Hg Hl. induction l as [|e l IH] using rev_ind; [by rewrite app_nil_r|].
  rewrite app_assoc. intros Hg [Hl [He _]%Forall_cons]%Forall_app.
  destruct (IH (good_app_l _ _ Hg) Hl) as [Hc|[Ho HPc]]; [left; by apply tx_closed_step|].
  destruct (stable_step i x _ _ Hg He Ho) as [?|[? ?]]; [by left|right]. split; [done|].
  eapply HP; [by apply good_steps, (good_app_l _ [e])|by apply good_steps_between|done..].
Qed.

Lemma closed_meanwhile i h h' : closed i h → meanwhile i h h' → closed i h'.
Proof. intros H (_ & _ & l & -> & Hl). by apply closed_app. Qed.

Lemma meanwhile_prefix i h h' : meanwhile i h h' → h `prefix_of` h'.
Proof. intros (_ & _ & l & -> & _). by exists l. Qed.

Lemma triple_perform i op Q h :
  (∀ h1 r l, meanwhile i h h1 → sql_react apply exec init i op h1 r l →
     good (h1 ++ l) ∧ ∀ h2, meanwhile i (h1 ++ l) h2 → Q r h2) →
  triple i (perform op) Q h.
Proof. intros H h1 r l Hm Hr _. by apply H. Qed.

Lemma rolled_back i h : closed i (h ++ [(Some i, ARollback)]).
Proof. unfold closed. rewrite store_of_snoc. apply lookup_delete_eq. Qed.

Lemma committed_closed i h : closed i (h ++ [(Some i, ACommit)]).
Proof.
  unfold closed. rewrite store_of_snoc. simpl. destruct (opened (store h) !! i) eqn:Hi; [apply lookup_delete_eq|done].
Qed.

Lemma triple_tx_begin i Q h :
  closed i h →
  (∀ h', closed i h' → good h' → Q None h') →
  (∀ now h', good h' → h `prefix_of` h' → held i (Build_Txn now [] []) (λ _, True) h' → Q (Some tt) h') →
  triple i (perform SqlBegin) Q h.
Proof.
  intros Hc Hfail Hok. apply triple_perform. intros h1 r l Hm Hr.
  pose proof (closed_meanwhile _ _ _ Hc Hm) as Hc1. pose proof Hm as (Hg & _).
  destruct Hr as [[-> ->]|(now & -> & Hn & ->)].
  - rewrite app_nil_r. split; [done|]. intros h2 H2. apply Hfail; [by eapply closed_meanwhile|apply H2].
  - split; [by constructor|]. intros h2 H2. apply (Hok now); [apply H2| |].
    + etrans; [by eapply meanwhile_prefix|]. etrans; [|by eapply meanwhile_prefix]. by apply prefix_app_r.
    + eapply txn_meanwhile; [|done|exact H2]. right. rewrite store_of_snoc. split; [|done].
      apply lookup_insert_eq.
Qed.

Definition extended (x : Txn Wr Lk) (ws : list Wr) (ls : list Lk) : Txn Wr Lk :=
  Build_Txn (x_now x) (x_writes x ++ ws) (x_locks x ++ ls).

(** A statement whose reply establishes [P'], which the locks held by then keep. *)
Lemma triple_stmt i x P s Q h :
  held i x P h → kept (x_locks x) P →
  (∀ h', closed i h' → good h' → Q None h') →
  (∀ o h1 a ws ls,
     h `prefix_of` h1 → good h1 → P (committed (store h1)) →
     exec o (x_now x) (apply_all apply (x_writes x) (committed (store h1))) s = Some (a, ws, ls) →
     ∃ P', kept (x_locks x ++ ls) P' ∧ P' (committed (store h1)) ∧
       ∀ h', good h' → h1 `prefix_of` h' → held i (extended x ws ls) P' h' → Q (Some a) h') →
  triple i (perform (SqlStmt s)) Q h.
Proof.
  intros Hh HP Hfail Hok. apply triple_perform. intros h1 r l Hm Hr.
  pose proof (txn_meanwhile _ _ _ _ _ Hh HP Hm) as Hh1. pose proof Hm as (Hg & _).
  destruct Hr as [[-> ->]|(o & y & a & ws & ls & -> & Hy & Hex & Hf & ->)].
  - split; [by constructor|]. intros h2 H2. apply Hfail; [|apply H2].
    eapply closed_meanwhile; [apply rolled_back|exact H2].
  - destruct Hh1 as [?|[Hx HP1]]; [congruence|]. rewrite Hx in Hy. injection Hy as <-. split; [by constructor|]. intros h2 H2.
    destruct (Hok o h1 a ws ls) as (P' & HkP & HP' & HQ); [by eapply meanwhile_prefix|done..|].
    apply HQ; [apply H2| |].
    + etrans; [|by eapply meanwhile_prefix]. by apply prefix_app_r.
    + eapply txn_meanwhile; [|exact HkP|exact H2]. right. rewrite store_of_snoc. simpl.
      split; [|done]. rewrite lookup_alter_eq, Hx. done.
Qed.

(** What a commit of [x] was: everything the transaction did, at one moment. *)
Definition committed_at (i : nat) (x : Txn Wr Lk) (P : Db → Prop) (h0 h : History) : Prop :=
  ∃ h1, h0 `prefix_of` h1 ∧ h1 ++ [(Some i, ACommit)] `prefix_of` h ∧ good h1 ∧
    opened (store h1) !! i = Some x ∧ P (committed (store h1)).

Lemma triple_commit i x P Q h :
  held i x P h → kept (x_locks x) P →
  (∀ c, steps init c → P c → guaranteed (x_locks x) c (apply_all apply (x_writes x) c)) →
  (∀ h', closed i h' → good h' → Q None h') →
  (∀ h', closed i h' → good h' → committed_at i x P h h' → Q (Some tt) h') →
  triple i (perform SqlCommit) Q h.
Proof.
  intros Hh HP Hgu Hfail Hok. apply triple_perform. intros h1 r l Hm Hr.
  pose proof (txn_meanwhile _ _ _ _ _ Hh HP Hm) as Hh1. pose proof Hm as (Hg & _).
  assert (good (h1 ++ [(Some i, ACommit)])) as Hgc.
  { constructor; [done|]. intros y Hy. destruct Hh1 as [?|[Hx HP1]]; [congruence|]. rewrite Hx in Hy. injection Hy as <-.
    apply Hgu; [by apply good_steps|done]. }
  destruct Hr as [[-> [-> | ->]]|(-> & [y Hy] & ->)].
  - split; [by constructor|]. intros h2 H2. apply Hfail; [|apply H2].
    eapply closed_meanwhile; [apply rolled_back|exact H2].
  - split; [done|]. intros h2 H2. apply Hfail; [|apply H2].
    eapply closed_meanwhile; [apply committed_closed|exact H2].
  - split; [done|]. intros h2 H2. apply Hok; [|apply H2|].
    + eapply closed_meanwhile; [apply committed_closed|exact H2].
    + destruct Hh1 as [?|[Hx HP1]]; [congruence|]. rewrite Hx in Hy. injection Hy as <-. exists h1. split_and!; try done.
      * by eapply meanwhile_prefix.
      * by eapply meanwhile_prefix.
Qed.

Lemma triple_rollback i Q h : (∀ h', closed i h' → good h' → Q tt h') → triple i (perform SqlRollback) Q h.
Proof.
  intros HQ. apply triple_perform. intros h1 [] l (Hg & _) Hr. simpl in Hr. subst l. split; [by constructor|].
  intros h2 H2. apply HQ; [|apply H2]. eapply closed_meanwhile; [apply rolled_back|exact H2].
Qed.

(** A statement that is its own transaction. *)
Lemma triple_auto i s Q h :
  closed i h →
  (∀ o now c a ws ls, steps init c → exec o now c s = Some (a, ws, ls) → guaranteed ls c (apply_all apply ws c)) →
  (∀ h', closed i h' → good h' → Q None h') →
  (∀ o now h1 a ws ls h', closed i h' → good h' → h `prefix_of` h1 → h1 ++ [(Some i, AAuto ws)] `prefix_of` h' → good h1 →
     exec o now (committed (store h1)) s = Some (a, ws, ls) → Q (Some a) h') →
  triple i (perform (SqlAuto s)) Q h.
Proof.
  intros Hc Hgu Hfail Hok. apply triple_perform. intros h1 r l Hm Hr.
  pose proof (closed_meanwhile _ _ _ Hc Hm) as Hc1. pose proof Hm as (Hg & _).
  destruct Hr as [[-> ->]|(o & now & a & ws & ls & Hr & Hex & Hf & ->)].
  - rewrite app_nil_r. split; [done|]. intros h2 H2. apply Hfail; [by eapply closed_meanwhile|apply H2].
  - assert (good (h1 ++ [(Some i, AAuto ws)])) as Hga.
    { constructor; [done|]. exists ls. split; [done|]. eapply Hgu; [by apply good_steps|done]. }
    split; [done|]. intros h2 H2.
    assert (closed i h2) as Hc2.
    { eapply closed_meanwhile; [|exact H2]. unfold closed. by rewrite store_of_snoc. }
    destruct Hr as [-> | ->]; [|apply Hfail; [done|apply H2]].
    apply (Hok o now h1 a ws ls); try done; [apply H2|by eapply meanwhile_prefix|by eapply meanwhile_prefix].
Qed.

Lemma triple_outer i e Q h :
  (∀ h', meanwhile i h h' → ∀ r, Q r h') → triple i (perform (Outer e)) Q h.
Proof.
  intros HQ. apply triple_perform. intros h1 r l Hm Hr. simpl in Hr. subst l. rewrite app_nil_r. pose proof Hm as (Hg & _).
  split; [done|]. intros h2 H2. apply HQ. by eapply meanwhile_trans.
Qed.

Lemma triple_with_tx {A E} (sqlx : E) i (body : sqlprog (result E A)) Q h :
  closed i h →
  (∀ e h', closed i h' → good h' → Q (Err e) h') →
  (∀ now h', good h' → h `prefix_of` h' → held i (Build_Txn now [] []) (λ _, True) h' →
     triple i body (λ r h2, match r with Ok a => ∀ h3, meanwhile i h2 h3 → Q (Ok a) h3 | Err _ => True end) h') →
  triple i (with_tx sqlx body) Q h.
Proof.
  intros Hc Hfail Hok. apply triple_bind. apply triple_tx_begin; [done| |].
  - intros h' Hc' Hg' h2 H2. apply Hfail; [by eapply closed_meanwhile|apply H2].
  - intros now h' Hg' Hp Hh. apply triple_bind. eapply triple_mono; [by apply (Hok now)|].
    intros [a|e] h2 Hg2 _ H2.
    + intros h3 H3. by apply H2.
    + apply triple_bind, triple_rollback. intros h3 Hc3 Hg3 h4 H4.
      apply Hfail; [by eapply closed_meanwhile|apply H4].
Qed.

(** *** Inside a transaction *)

(** An error only rolls back. *)
Definition body {A E} (Q : A → History → Prop) (r : result E A) (h : History) : Prop :=
  match r with Ok a => Q a h | Err _ => True end.

Lemma triple_try {A B E} i (q : sqlprog (result E A)) (f : A → sqlprog (result E B)) Q h :
  triple i q (body (λ a, triple i (f a) (body Q))) h → triple i (try_bind q f) (body Q) h.
Proof. intros H. apply triple_bind. eapply triple_mono; [exact H|]. by intros [a|e] h' _ _ Hq. Qed.

Lemma triple_answer {A E} i (a : A) Q h :
  (∀ h', meanwhile i h h' → Q a h') → triple i (Pure (Ok a) : sqlprog (result E A)) (body Q) h.
Proof. done. Qed.

Lemma triple_in_tx {E} (sqlx : E) i x P s (Q : answer s → History → Prop) h :
  held i x P h → kept (x_locks x) P →
  (∀ o h1 a ws ls,
     h `prefix_of` h1 → good h1 → P (committed (store h1)) →
     exec o (x_now x) (apply_all apply (x_writes x) (committed (store h1))) s = Some (a, ws, ls) →
     ∃ P', kept (x_locks x ++ ls) P' ∧ P' (committed (store h1)) ∧
       ∀ h', good h' → h1 `prefix_of` h' → held i (extended x ws ls) P' h' → Q a h') →
  triple i (in_tx sqlx s) (body Q) h.
Proof.
  intros Hh HP Hok. apply triple_bind. eapply triple_stmt; [exact Hh|exact HP|done|].
  intros o h1 a ws ls Hp Hg HP1 Hex. destruct (Hok o h1 a ws ls Hp Hg HP1 Hex) as (P' & HP' & HP1' & HQ).
  exists P'. split_and!; [done..|]. intros h' Hg' Hp' Hh' h2 H2.
  apply HQ; [apply H2|etrans; [exact Hp'|by eapply meanwhile_prefix]|by eapply txn_meanwhile].
Qed.

(** The commit at the end of the body. *)
Lemma triple_commit_body {B E} (sqlx : E) i x P (b : B) (Q : B → History → Prop) h :
  held i x P h → kept (x_locks x) P →
  (∀ c, steps init c → P c → guaranteed (x_locks x) c (apply_all apply (x_writes x) c)) →
  (∀ h', closed i h' → good h' → committed_at i x P h h' → Q b h') →
  triple i (commit sqlx b) (body Q) h.
Proof.
  intros Hh HP Hgu HQ. apply triple_bind. eapply triple_commit; [exact Hh|exact HP|exact Hgu|done|].
  intros h' Hc Hg (h1 & H1 & H2 & Hrest) h2 Hm. apply HQ; [by eapply closed_meanwhile|apply Hm|].
  exists h1. split_and!; [done|etrans; [exact H2|by eapply meanwhile_prefix]|apply Hrest..].
Qed.

(** What others may write is guaranteed, so histories stay good. *)
Lemma sql_outside_good extern h e :
  (∀ c w ls, steps init c → extern c w ls → guaranteed ls c (apply w c)) →
  good h → sql_outside apply init extern h e → fst e = None ∧ good (h ++ [e]).
Proof.
  intros Hext Hg [[j ->]|(w & ls & -> & He & Hf)]; (split; [done|]); constructor; try done.
  exists ls. split; [done|]. apply Hext; [by apply good_steps|done].
Qed.
End logic.
