(* ===== verification/PostgresRun.v ===== *)
(** * Runs of programs on a PostgreSQL database

    A scheduler that computes runs of the machine whose tasks are SQL programs
    ([Postgres]), from a script of what happens next ([schedule]); what it computes is
    reachable ([sql_schedule_reachable]). *)

From stdpp Require Import base gmap list.
From S2P Require Import Prelude Effect Postgres.

Local Open Scope list_scope.

Section run.
Context {Db Wr Lk : Type} `{EqDecision Lk} (apply : Wr → Db → Db).
Context {Stmt Ext : Type} {answer : Stmt → Type} {outer : Ext → Type}.
Context {Choice : Type} (exec : Choice → Z → Db → ∀ s : Stmt, option (answer s * list Wr * list Lk)) (choice : Choice).
Context (init : Db).
Context {Call Out : Type} (program : Call → eff (SqlOp Stmt Ext) (SqlReply answer outer) Out).
Context (extern : Db → Wr → list Lk → Prop) (externb : Db → Wr → list Lk → bool).
Context (Hextern : ∀ c w ls, externb c w ls = true → extern c w ls).

Abbreviation SqlMachine := (Machine (SqlOp Stmt Ext) (SqlReply answer outer) Call Out (SqlEntry Wr Lk)).
Abbreviation store := (store_of apply init).
Abbreviation reachable := (machine_reachable (sql_react apply exec init (outer:=outer)) (sql_outside apply init extern) program).

(** How the world answers the next operation of a task: in time, or not at all. *)
Record Reply := { rp_now : Z; rp_ok : bool; rp_outer : ∀ e, outer e }.

Inductive Cmd :=
  | Arrive (c : Call)
  | Run (i : nat) (r : Reply)
  | Outside (w : Wr) (ls : list Lk)
  | Lose (i : nat).

Definition is_free_for (i : option nat) (ls : list Lk) (st : Store Db Wr Lk) : bool :=
  forallb (λ jx : nat * Txn Wr Lk,
    bool_decide (i = Some jx.1) || forallb (λ l, negb (bool_decide (l ∈ x_locks jx.2))) ls) (map_to_list (opened st)).

Lemma is_free_for_spec i ls st : is_free_for i ls st = true → free_for i ls st.
Proof using.
  clear extern externb Hextern. unfold is_free_for. rewrite forallb_forall. intros H j x Hj Hne l Hl Hin.
  specialize (H (j, x)). rewrite <-list_elem_of_In, elem_of_map_to_list in H. specialize (H Hj). simpl in H.
  rewrite bool_decide_eq_false_2 in H by done. cbn [orb] in H. rewrite forallb_forall in H. specialize (H l).
  rewrite <-list_elem_of_In in H. specialize (H Hl). by rewrite bool_decide_eq_true_2 in H.
Qed.

Definition sql_run (i : nat) (op : SqlOp Stmt Ext) (h : list (SqlEntry Wr Lk)) (r : Reply)
    : option (SqlReply answer outer op * list (SqlEntry Wr Lk)) :=
  let st := store h in
  match op return option (SqlReply answer outer op * list (SqlEntry Wr Lk)) with
  | SqlBegin =>
      if negb (rp_ok r) then Some (None, [])
      else if bool_decide (opened st !! i = None) then Some (Some tt, [(Some i, ABegin (rp_now r))]) else None
  | SqlStmt s =>
      if negb (rp_ok r) then Some (None, [(Some i, ARollback)])
      else
        x ← opened st !! i; q ← exec choice (x_now x) (apply_all apply (x_writes x) (committed st)) s;
        if is_free_for (Some i) q.2 st then Some (Some q.1.1, [(Some i, ADid q.1.2 q.2)]) else None
  | SqlCommit =>
      if negb (rp_ok r) then Some (None, [(Some i, ARollback)])
      else if bool_decide (is_Some (opened st !! i)) then Some (Some tt, [(Some i, ACommit)]) else None
  | SqlRollback => Some (tt, [(Some i, ARollback)])
  | SqlAuto s =>
      if negb (rp_ok r) then Some (None, [])
      else
        q ← exec choice (rp_now r) (committed st) s;
        if is_free_for None q.2 st then Some (Some q.1.1, [(Some i, AAuto q.1.2)]) else None
  | Outer e => Some (rp_outer r e, [])
  end.

Lemma sql_run_react i op h r a l : sql_run i op h r = Some (a, l) → sql_react apply exec init (outer:=outer) i op h a l.
Proof using.
  clear extern externb Hextern. unfold sql_run. destruct op; simpl; try destruct (rp_ok r); cbn [negb]; try (intros [= <- <-]; naive_solver).
  - case_bool_decide; [intros [= <- <-]|done]. right. eauto.
  - destruct (opened _ !! i) as [x|] eqn:Hx; [|done]. simpl. destruct (exec _ _ _ s) as [[[b ws] ls]|] eqn:He; [|done]. simpl.
    destruct (is_free_for _ _ _) eqn:Hf; [|done]. intros [= <- <-]. right. exists choice, x, b, ws, ls.
    split_and!; [done..| |done]. by apply is_free_for_spec.
  - case_bool_decide; [intros [= <- <-]|done]. by right.
  - destruct (exec _ _ _ s) as [[[b ws] ls]|] eqn:He; [|done]. simpl.
    destruct (is_free_for _ _ _) eqn:Hf; [|done]. intros [= <- <-]. right. exists choice, (rp_now r), b, ws, ls.
    split_and!; [by left|done| |done]. by apply is_free_for_spec.
Qed.

(** A task that has finished stays as it is. *)
Definition schedule1 (s : SqlMachine) (c : Cmd) : option SqlMachine :=
  match c with
  | Arrive c => Some {| history := history s; tasks := tasks s ++ [Build_Task c (length (history s)) (program c)] |}
  | Run i r =>
      match tasks s !! i with
      | Some (Build_Task c n (Perform op k)) =>
          q ← sql_run i op (history s) r;
          Some {| history := history s ++ q.2; tasks := <[i := Build_Task c n (k q.1)]> (tasks s) |}
      | _ => Some s
      end
  | Outside w ls =>
      let st := store (history s) in
      if externb (committed st) w ls && is_free_for None ls st then
        Some {| history := history s ++ [(None, AAuto [w])]; tasks := tasks s |}
      else None
  | Lose i => Some {| history := history s ++ [(None, ALost i)]; tasks := tasks s |}
  end.

Fixpoint schedule (s : SqlMachine) (l : list Cmd) : option SqlMachine :=
  match l with [] => Some s | c :: l' => s' ← schedule1 s c; schedule s' l' end.

Lemma schedule1_reachable s c s' : reachable s → schedule1 s c = Some s' → reachable s'.
Proof using Hextern.
  intros Hs. destruct c as [c|i r|w ls|i]; cbn [schedule1].
  - intros [= <-]. eapply machine_next; [exact Hs|]. apply machine_arrive.
  - destruct (tasks s !! i) as [[c n [o|op k]]|] eqn:Hi; [by intros [= <-]| |by intros [= <-]].
    destruct (sql_run i op (history s) r) as [[a l]|] eqn:Hr; [|done]. intros [= <-].
    eapply machine_next; [exact Hs|]. eapply machine_run; [exact Hi|]. by eapply sql_run_react.
  - destruct (_ && _) eqn:Hc; [|done]. intros [= <-]. apply andb_true_iff in Hc as [He Hf].
    eapply machine_next; [exact Hs|]. apply machine_outside. right. exists w, ls.
    split_and!; [done|by apply Hextern|by apply is_free_for_spec].
  - intros [= <-]. eapply machine_next; [exact Hs|]. apply machine_outside. left. by exists i.
Qed.

Lemma sql_schedule_reachable s l s' : reachable s → schedule s l = Some s' → reachable s'.
Proof using Hextern.
  revert s. induction l as [|c l IH]; simpl; intros s Hs; [by intros [= <-]|].
  destruct (schedule1 s c) as [s1|] eqn:H1; [|done]. simpl. apply IH. by eapply schedule1_reachable.
Qed.

(** The machine after a script; before it if it cannot be run. *)
Definition nothing : SqlMachine := {| history := []; tasks := [] |}.
Definition after_script (l : list Cmd) : SqlMachine := default nothing (schedule nothing l).

Lemma script_reachable l : match schedule nothing l with Some _ => true | None => false end = true → reachable (after_script l).
Proof using Hextern.
  unfold after_script. intros H. destruct (schedule nothing l) as [s|] eqn:Hs; [|done].
  eapply sql_schedule_reachable; [apply machine_start|exact Hs].
Qed.
End run.

Arguments Build_Reply {Ext outer} _ _ _.
Arguments Arrive {Wr Lk Ext outer Call} _.
Arguments Run {Wr Lk Ext outer Call} _ _.
Arguments Outside {Wr Lk Ext outer Call} _ _.
Arguments Lose {Wr Lk Ext outer Call} _.
