(* ===== verification/Credits.v ===== *)
(** * The credits gateway

    [crates/buzz-db/src/store/credits_gateway.rs], the debit of
    [crates/buzz-db/src/store/payments.rs], and what
    [crates/buzz-relay/src/api/credits_gateway.rs] does with them.  Every function is
    a program of SQL statements ([Postgres]) in the order of the code; a statement is
    its effect on the tables of [migrations/0048] and [0055] ([exec]).

    Columns nobody reads back ([usage], [metadata], [description], [reference]) and error
    texts are left out; of a JSON value only whether it is an object is looked at.  A [BYTEA] key is its lowercase hexadecimal text, which is what
    [decode(_, 'hex')] of the stored account key compares.  Times are microseconds. *)

From stdpp Require Import base gmap strings list sorting.
From Stdlib Require Import ZArith Ascii Lia.
From S2P Require Import Prelude Text Nostr Effect Postgres.

Local Open Scope Z_scope.
Local Open Scope list_scope.

(** ** The tables *)

Abbreviation PublicKey := string.

Record Account := { ac_pubkey : PublicKey; ac_email : string; ac_verified : bool }.

Record AiSession := {
  as_account : Uuid;
  as_community : CommunityId;
  as_agent : PublicKey;
  as_expires : Z;
  as_revoked : bool;
}.

Inductive RequestStatus := StatusPending | StatusSettled | StatusEstimated.
#[export] Instance RequestStatus_eq_dec : EqDecision RequestStatus.
Proof. solve_decision. Defined.

Record AiRequest := {
  rq_account : Uuid;
  rq_session : Uuid;
  rq_upstream : string;
  rq_digest : string;
  rq_reserved : Z;
  rq_charged : option Z;
  rq_generation : option string;
  rq_status : RequestStatus;
  rq_observed : option Z;
  rq_created : Z;
  rq_settled : option Z;
  rq_next_retry : Z;
  rq_attempts : Z;
}.

Inductive EntryType := Purchase | Usage | Refund | Adjustment.
Record LedgerEntry := { le_type : EntryType; le_amount : Z }.

Record CreditDb := {
  accounts : gmap Uuid Account;
  (** the owner of each agent of a community *)
  users : gmap (CommunityId * PublicKey) (option PublicKey);
  (** the communities [assert_community_write_allowed] lets pass *)
  writable : gset CommunityId;
  sessions : gmap Uuid AiSession;
  requests : gmap Uuid AiRequest;
  (** by account and [source_id], which are unique together *)
  ledger : gmap (Uuid * string) LedgerEntry;
}.

Definition empty_db : CreditDb :=
  {| accounts := ∅; users := ∅; writable := ∅; sessions := ∅; requests := ∅; ledger := ∅ |}.

(** *** Sums over a table *)

Definition balance (a : Uuid) (d : CreditDb) : Z :=
  zsum (λ k e, if bool_decide (k.1 = a) then le_amount e else 0) (ledger d).

Definition is_pending (r : AiRequest) : bool := bool_decide (rq_status r = StatusPending).

Definition pending_of (a : Uuid) (d : CreditDb) : Z :=
  zsum (λ _ r, if bool_decide (rq_account r = a) && is_pending r then 1 else 0) (requests d).

(** What a request has charged, or could still. *)
Definition spending (r : AiRequest) : Z := default (rq_reserved r) (rq_charged r).

Definition spent_since (t : Z) (d : CreditDb) : Z :=
  zsum (λ _ r, if t <=? rq_created r then spending r else 0) (requests d).

Definition session_pending (s : Uuid) (d : CreditDb) : bool :=
  existsb (λ kr : Uuid * AiRequest, bool_decide (rq_session kr.2 = s) && is_pending kr.2) (map_to_list (requests d)).

(** *** Writes *)

Inductive Write :=
  | WSession (id : Uuid) (s : AiSession)
  | WRevoke (id : Uuid)
  | WRequest (id : Uuid) (r : AiRequest)
  | WCharged (id : Uuid) (status : RequestStatus) (charged now : Z)
  | WObserved (id : Uuid) (generation : option string) (observed : option Z)
  | WRecovery (id : Uuid) (next_retry attempts : Z)
  | WEntry (account : Uuid) (source : string) (e : LedgerEntry)
  (** of other parts of the system *)
  | WAccount (id : Uuid) (a : Account)
  | WAccountGone (id : Uuid)
  | WUser (community : CommunityId) (agent : PublicKey) (owner : option PublicKey)
  | WWritable (community : CommunityId) (allowed : bool).

Definition set_sessions (m : gmap Uuid AiSession) (d : CreditDb) : CreditDb :=
  {| accounts := accounts d; users := users d; writable := writable d; sessions := m; requests := requests d; ledger := ledger d |}.
Definition set_requests (m : gmap Uuid AiRequest) (d : CreditDb) : CreditDb :=
  {| accounts := accounts d; users := users d; writable := writable d; sessions := sessions d; requests := m; ledger := ledger d |}.
Definition set_ledger (m : gmap (Uuid * string) LedgerEntry) (d : CreditDb) : CreditDb :=
  {| accounts := accounts d; users := users d; writable := writable d; sessions := sessions d; requests := requests d; ledger := m |}.

Definition revoke (s : AiSession) : AiSession :=
  {| as_account := as_account s; as_community := as_community s; as_agent := as_agent s;
     as_expires := as_expires s; as_revoked := true |}.

Definition charge_row (status : RequestStatus) (charged now : Z) (r : AiRequest) : AiRequest :=
  {| rq_account := rq_account r; rq_session := rq_session r; rq_upstream := rq_upstream r; rq_digest := rq_digest r;
     rq_reserved := rq_reserved r; rq_charged := Some charged; rq_generation := rq_generation r; rq_status := status;
     rq_observed := rq_observed r; rq_created := rq_created r; rq_settled := Some now;
     rq_next_retry := rq_next_retry r; rq_attempts := rq_attempts r |}.

Definition observe_row (generation : option string) (observed : option Z) (r : AiRequest) : AiRequest :=
  {| rq_account := rq_account r; rq_session := rq_session r; rq_upstream := rq_upstream r; rq_digest := rq_digest r;
     rq_reserved := rq_reserved r; rq_charged := rq_charged r; rq_generation := generation; rq_status := rq_status r;
     rq_observed := observed; rq_created := rq_created r; rq_settled := rq_settled r;
     rq_next_retry := rq_next_retry r; rq_attempts := rq_attempts r |}.

Definition retry_row (next_retry attempts : Z) (r : AiRequest) : AiRequest :=
  {| rq_account := rq_account r; rq_session := rq_session r; rq_upstream := rq_upstream r; rq_digest := rq_digest r;
     rq_reserved := rq_reserved r; rq_charged := rq_charged r; rq_generation := rq_generation r; rq_status := rq_status r;
     rq_observed := rq_observed r; rq_created := rq_created r; rq_settled := rq_settled r;
     rq_next_retry := next_retry; rq_attempts := attempts |}.

Definition apply (w : Write) (d : CreditDb) : CreditDb :=
  match w with
  | WSession id s => set_sessions (<[id := s]> (sessions d)) d
  | WRevoke id => set_sessions (alter revoke id (sessions d)) d
  | WRequest id r => set_requests (<[id := r]> (requests d)) d
  | WCharged id status charged now => set_requests (alter (charge_row status charged now) id (requests d)) d
  | WObserved id generation observed => set_requests (alter (observe_row generation observed) id (requests d)) d
  | WRecovery id next_retry attempts => set_requests (alter (retry_row next_retry attempts) id (requests d)) d
  | WEntry account source e => set_ledger (<[(account, source) := e]> (ledger d)) d
  | WAccount id a =>
      {| accounts := <[id := a]> (accounts d); users := users d; writable := writable d;
         sessions := sessions d; requests := requests d; ledger := ledger d |}
  | WAccountGone id =>
      {| accounts := delete id (accounts d); users := users d; writable := writable d;
         sessions := sessions d; requests := requests d; ledger := ledger d |}
  | WUser community agent owner =>
      {| accounts := accounts d; users := <[(community, agent) := owner]> (users d); writable := writable d;
         sessions := sessions d; requests := requests d; ledger := ledger d |}
  | WWritable community allowed =>
      {| accounts := accounts d; users := users d;
         writable := if allowed then {[community]} ∪ writable d else writable d ∖ {[community]};
         sessions := sessions d; requests := requests d; ledger := ledger d |}
  end.

(** *** Locks *)

Inductive Lock :=
  | LAccount (id : Uuid)
  | LSession (id : Uuid)
  | LRequest (id : Uuid)
  (** the key of [account_ai_one_session_request] *)
  | LPending (session : Uuid)
  (** the key of [UNIQUE (account_id, source_id)] *)
  | LEntry (account : Uuid) (source : string)
  (** [colony-credits-global-daily-cap] *)
  | LDailyCap.

(** ** The statements *)

Definition minutes (n : Z) : Z := n * 60 * 1000000.
Definition day_us : Z := 24 * 60 * 60 * 1000000.

(** [date_trunc('day', now() AT TIME ZONE 'UTC') AT TIME ZONE 'UTC'] *)
Definition day_start (now : Z) : Z := now - now mod day_us.

Record RecoveryRequest := {
  rr_id : Uuid;
  rr_account : Uuid;
  rr_reserved : Z;
  rr_observed : option Z;
  rr_upstream : string;
  rr_generation : option string;
  rr_created : Z;
}.

Definition recovery_from_row (id : Uuid) (r : AiRequest) : RecoveryRequest :=
  {| rr_id := id; rr_account := rq_account r; rr_reserved := rq_reserved r; rr_observed := rq_observed r;
     rr_upstream := rq_upstream r; rr_generation := rq_generation r; rr_created := rq_created r |}.

Inductive Stmt :=
  | AssertWriteAllowed (community : CommunityId)
  | SelectOwner (owner : PublicKey)
  | SelectOwned (community : CommunityId) (agent owner : PublicKey)
  | RevokeAgentSessions (account : Uuid) (community : CommunityId) (agent : PublicKey)
  | CountSessions (account : Uuid)
  | InsertSession (id account : Uuid) (community : CommunityId) (agent : PublicKey)
  | SelectEmail (owner : PublicKey)
  | RevokeSession (owner : PublicKey) (session : Uuid)
  | SelectPayer (session : Uuid) (community : CommunityId) (agent : PublicKey)
  | SelectExpired (account : Uuid)
  | SelectRequest (id : Uuid)
  | CountPending (account session : Uuid)
  | LockDailyCap
  | SumToday
  | SumBalance (account : Uuid)
  | InsertRequest (id account session : Uuid) (digest : string) (reserve : Z) (upstream : string)
  | InsertEntry (account : Uuid) (type : EntryType) (amount : Z) (source : string)
  | SelectForSettle (id : Uuid)
  | ExistsEntry (account : Uuid) (source : string)
  | SetCharged (id : Uuid) (status : RequestStatus) (charged : Z)
  | SelectAccountOf (id : Uuid)
  | LockAccount (account : Uuid)
  | SelectEntry (account : Uuid) (source : string)
  | UpdateRejected (id : Uuid)
  | UpdateObserved (id : Uuid) (generation : string) (charged : option Z)
  | ClaimDue
  | SelectRecovery (id : Uuid).

Definition answer (s : Stmt) : Type :=
  match s with
  | AssertWriteAllowed _ | RevokeAgentSessions _ _ _ | InsertSession _ _ _ _ | RevokeSession _ _ | LockDailyCap
  | InsertRequest _ _ _ _ _ _ | InsertEntry _ _ _ _ | SetCharged _ _ _ | UpdateRejected _ => unit
  | SelectOwner _ | SelectPayer _ _ _ => option (Uuid * string)
  | SelectOwned _ _ _ | ExistsEntry _ _ | LockAccount _ => bool
  | CountSessions _ | SumToday | SumBalance _ | UpdateObserved _ _ _ => Z
  | SelectEmail _ => option string
  | SelectExpired _ => list (Uuid * Z * option Z)
  | SelectRequest _ | SelectForSettle _ => option AiRequest
  | CountPending _ _ => Z * bool
  | SelectAccountOf _ => option Uuid
  | SelectEntry _ _ => option Z
  | ClaimDue => list RecoveryRequest
  | SelectRecovery _ => option RecoveryRequest
  end.

Definition i64_min : Z := -(2 ^ 63).
Definition i64_max : Z := 2 ^ 63 - 1.
(** [::bigint] of a sum *)
Definition bigint (n : Z) : option Z := if (i64_min <=? n) && (n <=? i64_max) then Some n else None.

(** [account_id = $1], of rows by id *)
Definition rows {V} (p : Uuid → V → bool) (m : gmap Uuid V) : list (Uuid * V) :=
  merge_sort (by_id fst) (base.filter (λ kv, p kv.1 kv.2 = true) (map_to_list m)).

Definition select_owner (owner : PublicKey) (d : CreditDb) : option (Uuid * Account) :=
  head (rows (λ _ a, bool_decide (ac_pubkey a = owner) && ac_verified a) (accounts d)).

Definition payer (now : Z) (session : Uuid) (community : CommunityId) (agent : PublicKey) (d : CreditDb)
    : option (Uuid * string) :=
  s ← sessions d !! session;
  a ← accounts d !! as_account s;
  owner ← users d !! (as_community s, as_agent s);
  if bool_decide (as_community s = community) && bool_decide (as_agent s = agent) && negb (as_revoked s) &&
     (now <? as_expires s) && ac_verified a && bool_decide (owner = Some (ac_pubkey a))
  then Some (as_account s, ac_email a) else None.

Definition expired_holds (now : Z) (account : Uuid) (d : CreditDb) : list (Uuid * AiRequest) :=
  take 4 (rows (λ _ r, bool_decide (rq_account r = account) && is_pending r && (rq_created r <=? now - minutes 15))
            (requests d)).

(** [body_sha256 ~ '^[0-9a-f]{64}$'] *)
Definition is_hex64 (s : string) : bool :=
  (String.length s =? 64)%nat && chars_all is_ascii_hexdigit s && bool_decide (to_ascii_lowercase s = s).

Definition next_retry (now : Z) (r : AiRequest) : Z :=
  if rq_created r <=? now - minutes 15 then now + minutes 1
  else Z.min (rq_created r + minutes 15) (now + Z.min 300 (15 * 2 ^ Z.min (rq_attempts r) 5) * 1000000).

(** The rows of [ClaimDue], but for those [SKIP LOCKED] skips. *)
Definition due (skipped : list Uuid) (now : Z) (d : CreditDb) : list (Uuid * AiRequest) :=
  take 16 (sort_by_key (λ kr : Uuid * AiRequest, rq_next_retry kr.2)
    (rows (λ id r, is_pending r && (rq_next_retry r <=? now) && negb (bool_decide (id ∈ skipped))) (requests d))).

Definition new_request (now : Z) (account session : Uuid) (digest : string) (reserve : Z) (upstream : string) : AiRequest :=
  {| rq_account := account; rq_session := session; rq_upstream := upstream; rq_digest := digest; rq_reserved := reserve;
     rq_charged := None; rq_generation := None; rq_status := StatusPending; rq_observed := None; rq_created := now;
     rq_settled := None; rq_next_retry := now + 15 * 1000000; rq_attempts := 0 |}.

(** Whether another row holds [(upstream_id, generation_id)]. *)
Definition generation_taken (id : Uuid) (upstream generation : string) (d : CreditDb) : bool :=
  existsb (λ kr : Uuid * AiRequest, negb (bool_decide (kr.1 = id)) && bool_decide (rq_upstream kr.2 = upstream) &&
             bool_decide (rq_generation kr.2 = Some generation)) (map_to_list (requests d)).

Definition reply {A} (a : A) (ws : list Write) (ls : list Lock) : option (A * list Write * list Lock) := Some (a, ws, ls).

Definition exec (skipped : list Uuid) (now : Z) (d : CreditDb) (s : Stmt) : option (answer s * list Write * list Lock) :=
  match s return option (answer s * list Write * list Lock) with
  | AssertWriteAllowed community => if bool_decide (community ∈ writable d) then reply tt [] [] else None
  | SelectOwner owner =>
      match select_owner owner d with
      | Some (id, a) => reply (Some (id, ac_email a)) [] [LAccount id]
      | None => reply None [] []
      end
  | SelectOwned community agent owner =>
      reply (bool_decide (users d !! (community, agent) = Some (Some owner))) [] []
  | RevokeAgentSessions account community agent =>
      let ids := (rows (λ _ s, bool_decide (as_account s = account) && bool_decide (as_community s = community) &&
                                 bool_decide (as_agent s = agent)) (sessions d)).*1 in
      reply tt (WRevoke <$> ids) (LSession <$> ids)
  | CountSessions account =>
      reply (zsum (λ _ s, if bool_decide (as_account s = account) && negb (as_revoked s) && (now <? as_expires s)
                          then 1 else 0) (sessions d)) [] []
  | InsertSession id account community agent =>
      if bool_decide (sessions d !! id = None) then
        reply tt [WSession id {| as_account := account; as_community := community; as_agent := agent;
                                 as_expires := now + minutes 120; as_revoked := false |}] [LSession id]
      else None
  | SelectEmail owner => reply (ac_email ∘ snd <$> select_owner owner d) [] []
  | RevokeSession owner session =>
      match s ← sessions d !! session; a ← accounts d !! as_account s;
            if bool_decide (ac_pubkey a = owner) then Some tt else None with
      | Some _ => reply tt [WRevoke session] [LSession session]
      | None => reply tt [] []
      end
  | SelectPayer session community agent =>
      match payer now session community agent d with
      | Some (id, email) => reply (Some (id, email)) [] [LAccount id; LSession session]
      | None => reply None [] []
      end
  | SelectExpired account =>
      let l := expired_holds now account d in
      reply ((λ kr : Uuid * AiRequest, (kr.1, rq_reserved kr.2, rq_observed kr.2)) <$> l) [] (LRequest ∘ fst <$> l)
  | SelectRequest id => reply (requests d !! id) [] []
  | CountPending account session =>
      reply (pending_of account d,
             existsb (λ kr : Uuid * AiRequest, bool_decide (rq_account kr.2 = account) && is_pending kr.2 &&
                        bool_decide (rq_session kr.2 = session)) (map_to_list (requests d))) [] []
  | LockDailyCap => reply tt [] [LDailyCap]
  | SumToday => n ← bigint (spent_since (day_start now) d); reply n [] []
  | SumBalance account => n ← bigint (balance account d); reply n [] []
  | InsertRequest id account session digest reserve upstream =>
      if bool_decide (requests d !! id = None) && negb (session_pending session d) && is_hex64 digest &&
         (0 <? reserve) && (reserve <=? 400000000) && bool_decide (is_Some (accounts d !! account)) &&
         bool_decide (is_Some (sessions d !! session))
      then reply tt [WRequest id (new_request now account session digest reserve upstream)] [LRequest id; LPending session]
      else None
  | InsertEntry account type amount source =>
      if bool_decide (ledger d !! (account, source) = None) && negb (amount =? 0) &&
         bool_decide (is_Some (accounts d !! account)) then
        reply tt [WEntry account source {| le_type := type; le_amount := amount |}] [LEntry account source]
      else None
  | SelectForSettle id =>
      reply (requests d !! id) [] (match requests d !! id with Some _ => [LRequest id] | None => [] end)
  | ExistsEntry account source => reply (bool_decide (is_Some (ledger d !! (account, source)))) [] []
  | SetCharged id status charged =>
      match requests d !! id with
      | Some r =>
          if (0 <=? charged) && (charged <=? rq_reserved r) then reply tt [WCharged id status charged now] [LRequest id]
          else None
      | None => reply tt [] []
      end
  | SelectAccountOf id => reply (rq_account <$> requests d !! id) [] []
  | LockAccount account =>
      if bool_decide (is_Some (accounts d !! account)) then reply true [] [LAccount account] else reply false [] []
  | SelectEntry account source => reply (le_amount <$> ledger d !! (account, source)) [] []
  | UpdateRejected id =>
      match requests d !! id with
      | Some r =>
          if is_pending r && bool_decide (rq_generation r = None) then reply tt [WObserved id None (Some 0)] [LRequest id]
          else reply tt [] []
      | None => reply tt [] []
      end
  | UpdateObserved id generation charged =>
      match requests d !! id with
      | Some r =>
          if bool_decide (rq_generation r = None) || bool_decide (rq_generation r = Some generation) then
            if (default 0 charged <? 0) || generation_taken id (rq_upstream r) generation d then None
            else reply 1 [WObserved id (Some generation) charged] [LRequest id]
          else reply 0 [] []
      | None => reply 0 [] []
      end
  | ClaimDue =>
      let l := due skipped now d in
      reply ((λ kr : Uuid * AiRequest, recovery_from_row kr.1 kr.2) <$> l)
        ((λ kr : Uuid * AiRequest, WRecovery kr.1 (next_retry now kr.2) (Z.min (rq_attempts kr.2 + 1) 16)) <$> l)
        (LRequest ∘ fst <$> l)
  | SelectRecovery id => reply (recovery_from_row id <$> requests d !! id) [] []
  end.

(** ** The policy *)

Record GatewayPolicy := {
  free_ai_accounts : list string;
  free_ai_max_in_flight : Z;
  global_daily_cap_nanousd : option Z;
}.

Definition is_free (p : GatewayPolicy) (email : string) : bool :=
  bool_decide (to_ascii_lowercase (trim email) ∈ free_ai_accounts p).

Definition MAX_IN_FLIGHT : Z := 4.
Definition MAX_SESSIONS : Z := 16.
Definition FREE_AI_MAX_SESSIONS : Z := 128.

Definition i64_saturating_add (a b : Z) : Z := Z.max i64_min (Z.min (a + b) i64_max).

(** ** The programs *)

Inductive Admission :=
  | AdmissionNew (account_id : Uuid)
  | AdmissionPending
  | AdmissionCompleted (charged : Z) (provisional : bool)
  | AdmissionInsufficient
  | AdmissionBusy
  | AdmissionDailyLimit.

(** [Sqlx] is every failure of the database or its driver. *)
Inductive DbError := NotFound | InvalidData | Sqlx.

(** What a provider was observed to have done. *)
Record Observed := { ob_generation : string; ob_charged : option Z; ob_usable : bool }.

Inductive Completion := Rejected | Ambiguous | Answered (observed : option Observed).

(** Operations outside the database. *)
Inductive GatewayOp :=
  | NewUuid
  | Complete (request : Uuid)
  | GenerationCost (generation : string)
  | UtcNow.

Definition gateway_answer (op : GatewayOp) : Type :=
  match op with
  | NewUuid => Uuid
  | Complete _ => Completion
  | GenerationCost _ => option Z
  | UtcNow => Z
  end.

Abbreviation cprog := (eff (SqlOp Stmt GatewayOp) (SqlReply answer gateway_answer)).
Abbreviation dbprog A := (cprog (result DbError A)).

Local Open Scope sql_scope.

Definition tx (s : Stmt) : dbprog (answer s) := in_tx Sqlx s.
Definition pool (s : Stmt) : dbprog (answer s) := on_pool Sqlx s.
Definition fail {A} (e : DbError) : dbprog A := Pure (Err e).
(** [ok_or_else], and [fetch_one] of no row *)
Definition some_or {A} (e : DbError) (r : option A) : dbprog A := Pure (match r with Some a => Ok a | None => Err e end).

(** *** Sessions *)

Definition create_credit_ai_session (p : GatewayPolicy) (owner : PublicKey) (community : CommunityId) (agent : PublicKey)
    : dbprog Uuid :=
  with_tx Sqlx (
    let? _ := tx (AssertWriteAllowed community) in
    let? account := tx (SelectOwner owner) in
    let? account := some_or NotFound account in
    let session_limit := if is_free p account.2 then FREE_AI_MAX_SESSIONS else MAX_SESSIONS in
    let? owned := tx (SelectOwned community agent owner) in
    if negb owned then fail InvalidData
    else
      let? _ := tx (RevokeAgentSessions account.1 community agent) in
      let? active := tx (CountSessions account.1) in
      if session_limit <=? active then fail InvalidData
      else
        eff_bind (perform (Outer NewUuid)) (λ id : Uuid,
          let? _ := tx (InsertSession id account.1 community agent) in
          commit Sqlx id)).

Definition credit_ai_account_is_free (p : GatewayPolicy) (owner : PublicKey) : dbprog bool :=
  if bool_decide (free_ai_accounts p = []) then Pure (Ok false)
  else
    let? email := pool (SelectEmail owner) in
    Pure (Ok (match email with Some email => is_free p email | None => false end)).

Definition revoke_credit_ai_session (owner : PublicKey) (session : Uuid) : dbprog unit := pool (RevokeSession owner session).

(** *** Settling *)

(** [format!("ai:{id}:{what}")] *)
Definition ai_source (what : string) (id : Uuid) : string := ("ai:" +:+ id +:+ ":" +:+ what)%string.

Definition settle_locked (account id : Uuid) (charged : Z) (provisional : bool) : dbprog unit :=
  let? row := tx (SelectForSettle id) in
  let? row := some_or Sqlx row in
  let reserve := rq_reserved row in
  let previous := default 0 (rq_charged row) in
  if negb ((0 <=? charged) && (charged <=? reserve)) || (provisional && negb (charged =? reserve)) then fail InvalidData
  else if bool_decide (rq_status row = StatusSettled) then
    if negb (previous =? charged) then fail InvalidData else Pure (Ok tt)
  else if bool_decide (rq_status row = StatusEstimated) && provisional then Pure (Ok tt)
  else
    let? funded := tx (ExistsEntry account (ai_source "hold" id)) in
    let? _ :=
      (if negb funded then Pure (Ok tt)
       else if is_pending row then
         let? _ := tx (InsertEntry account Adjustment reserve (ai_source "release" id)) in
         if 0 <? charged then tx (InsertEntry account Usage (- charged) (ai_source "usage" id)) else Pure (Ok tt)
       else if charged <? previous then
         tx (InsertEntry account Refund (previous - charged) (ai_source "correction" id))
       else Pure (Ok tt)) in
    tx (SetCharged id (if provisional then StatusEstimated else StatusSettled) charged).

Definition settle_credit_ai_request (id : Uuid) (charged : Z) (provisional : bool) : dbprog unit :=
  with_tx Sqlx (
    let? account := tx (SelectAccountOf id) in
    let? account := some_or Sqlx account in
    let? _ := tx (LockAccount account) in
    let? _ := settle_locked account id charged provisional in
    commit Sqlx tt).

(** *** Admission *)

(** The expired holds, settled at what was observed or at the maximum. *)
Fixpoint settle_expired (account : Uuid) (expired : list (Uuid * Z * option Z)) : dbprog unit :=
  match expired with
  | [] => Pure (Ok tt)
  | (id, maximum, observed) :: expired =>
      let actual := cost ← observed; if cost <=? maximum then Some cost else None in
      let? _ := settle_locked account id (default maximum actual) (bool_decide (actual = None)) in
      settle_expired account expired
  end.

Record AdmitArgs := {
  aa_upstream : string;
  aa_community : CommunityId;
  aa_agent : PublicKey;
  aa_session : Uuid;
  aa_request : Uuid;
  aa_digest : string;
  aa_reserve : Z;
}.

Definition valid_reservation (a : AdmitArgs) : bool :=
  (1 <=? aa_reserve a) && (aa_reserve a <=? 400000000) && (String.length (aa_digest a) =? 64)%nat &&
  negb (String.length (aa_upstream a) =? 0)%nat && (String.length (aa_upstream a) <=? 64)%nat.

(** The request was seen before: [row] is its journal. *)
Definition already_seen (account : Uuid) (a : AdmitArgs) (row : AiRequest) : dbprog Admission :=
  if negb (bool_decide (rq_account row = account)) || negb (bool_decide (rq_session row = aa_session a)) ||
     negb (bool_decide (rq_digest row = aa_digest a)) then fail InvalidData
  else
    commit Sqlx
      (match rq_status row with
       | StatusPending => AdmissionPending
       | status => AdmissionCompleted (default 0 (rq_charged row)) (bool_decide (status = StatusEstimated))
       end).

(** The hold is written, and for a funded account reserved in the ledger. *)
Definition place_hold (account : Uuid) (free : bool) (a : AdmitArgs) : dbprog Admission :=
  let? _ := tx (InsertRequest (aa_request a) account (aa_session a) (aa_digest a) (aa_reserve a) (aa_upstream a)) in
  let? _ := (if free then Pure (Ok tt)
             else tx (InsertEntry account Adjustment (- aa_reserve a) (ai_source "hold" (aa_request a)))) in
  commit Sqlx (AdmissionNew account).

Definition check_balance (account : Uuid) (free : bool) (a : AdmitArgs) : dbprog Admission :=
  if free then place_hold account free a
  else
    let? balance := tx (SumBalance account) in
    if balance <? aa_reserve a then commit Sqlx AdmissionInsufficient else place_hold account free a.

Definition check_cap (p : GatewayPolicy) (account : Uuid) (free : bool) (a : AdmitArgs) : dbprog Admission :=
  match global_daily_cap_nanousd p with
  | None => check_balance account free a
  | Some cap =>
      let? _ := tx LockDailyCap in
      let? spent := tx SumToday in
      if cap <? i64_saturating_add spent (aa_reserve a) then commit Sqlx AdmissionDailyLimit
      else check_balance account free a
  end.

Definition admit_new (p : GatewayPolicy) (account : Uuid) (free : bool) (a : AdmitArgs) : dbprog Admission :=
  let? counts := tx (CountPending account (aa_session a)) in
  let in_flight_limit := if free then free_ai_max_in_flight p else MAX_IN_FLIGHT in
  if (in_flight_limit <=? counts.1) || counts.2 then commit Sqlx AdmissionBusy else check_cap p account free a.

Definition admit_credit_ai_request (p : GatewayPolicy) (a : AdmitArgs) : dbprog Admission :=
  if negb (valid_reservation a) then fail InvalidData
  else
    with_tx Sqlx (
      let? _ := tx (AssertWriteAllowed (aa_community a)) in
      let? account := tx (SelectPayer (aa_session a) (aa_community a) (aa_agent a)) in
      let? account := some_or NotFound account in
      let free := is_free p account.2 in
      let? expired := tx (SelectExpired account.1) in
      let? _ := settle_expired account.1 expired in
      let? row := tx (SelectRequest (aa_request a)) in
      match row with
      | Some row => already_seen account.1 a row
      | None => admit_new p account.1 free a
      end).

(** *** Attribution and recovery *)

Definition reject_credit_ai_request (id : Uuid) : dbprog unit :=
  let? _ := pool (UpdateRejected id) in
  settle_credit_ai_request id 0 false.

Definition observe_credit_ai_usage (id : Uuid) (generation : string) (charged : option Z) (usage_is_object : bool) : dbprog unit :=
  if (String.length generation =? 0)%nat || (200 <? String.length generation)%nat || negb usage_is_object then fail InvalidData
  else
    let? updated := pool (UpdateObserved id generation charged) in
    if negb (updated =? 1) then fail InvalidData else Pure (Ok tt).

Definition claim_credit_ai_recovery : dbprog (list RecoveryRequest) := pool ClaimDue.

Definition credit_ai_recovery_request (id : Uuid) : dbprog RecoveryRequest :=
  let? row := pool (SelectRecovery id) in some_or Sqlx row.

(** *** Debits *)

Inductive CreditDebitOutcome := DebitApplied | DebitDuplicate | DebitInsufficientBalance.

Definition record_account_credit_debit (account : Uuid) (source : string) (amount : Z) (description : string) (metadata_is_object : bool)
    : dbprog CreditDebitOutcome :=
  if (String.length source =? 0)%nat || (200 <? String.length source)%nat || (amount <=? 0) ||
     (String.length description =? 0)%nat || (256 <? String.length description)%nat || negb metadata_is_object then fail InvalidData
  else
    with_tx Sqlx (
      let? exists_ := tx (LockAccount account) in
      if negb exists_ then fail NotFound
      else
        let? existing := tx (SelectEntry account source) in
        match existing with
        | Some existing => if negb (existing =? - amount) then fail InvalidData else commit Sqlx DebitDuplicate
        | None =>
            let? balance := tx (SumBalance account) in
            if balance <? amount then commit Sqlx DebitInsufficientBalance
            else
              let? _ := tx (InsertEntry account Usage (- amount) source) in
              commit Sqlx DebitApplied
        end).

(** ** The gateway *)

Inductive Outcome :=
  | UpstreamRejected
  | UpstreamUnclear
  | AnswerUnreadable
  | DatabaseError (e : DbError)
  | CostUnusable
  | ReplyRefused.

(** [.map_err(f)] *)
Definition map_err {A E} (f : DbError → E) (p : dbprog A) : cprog (result E A) :=
  eff_bind p (λ r, Pure (match r with Ok a => Ok a | Err e => Err (f e) end)).

(** The provider call and the settlement of an admitted request: what was charged. *)
Definition settle_request (request_id : Uuid) (reserve : Z) : cprog (result Outcome Z) :=
  eff_bind (perform (Outer (Complete request_id))) (λ completion : Completion,
    match completion with
    | Rejected => let? _ := map_err DatabaseError (reject_credit_ai_request request_id) in Pure (Err UpstreamRejected)
    | Ambiguous => Pure (Err UpstreamUnclear)
    | Answered None => Pure (Err AnswerUnreadable)
    | Answered (Some observed) =>
        let? _ := map_err DatabaseError (observe_credit_ai_usage request_id (ob_generation observed) (ob_charged observed) true) in
        match (cost ← ob_charged observed; if cost <=? reserve then Some cost else None) with
        | None => Pure (Err CostUnusable)
        | Some charged =>
            let? _ := map_err DatabaseError (settle_credit_ai_request request_id charged false) in
            if ob_usable observed then Pure (Ok charged) else Pure (Err ReplyRefused)
        end
    end).

(** One record of [recover_due], by a gateway with provider [fingerprint] if any. *)
Definition recover_record (fingerprint : option string) (record : RecoveryRequest) : dbprog unit :=
  eff_bind (perform (Outer UtcNow)) (λ now : Z,
    let age := now - rr_created record in
    let within := λ cost : Z, if cost <=? rr_reserved record then Some cost else None in
    let finish := λ actual : option Z,
      match actual with
      | Some charged => settle_credit_ai_request (rr_id record) charged false
      | None =>
          if minutes 15 <=? age then settle_credit_ai_request (rr_id record) (rr_reserved record) true
          else Pure (Ok tt)
      end in
    match rr_observed record ≫= within, rr_generation record with
    | None, Some generation =>
        if (age <? minutes 15) && bool_decide (fingerprint = Some (rr_upstream record)) then
          eff_bind (perform (Outer (GenerationCost generation))) (λ cost : option Z, finish (cost ≫= within))
        else finish None
    | actual, _ => finish actual
    end).

Inductive ReconcileError := AttributionConflict | CostUnknown | ReconcileDatabase (e : DbError).

(** The operator's correction of a request from the provider's own record. *)
Definition reconcile (fingerprint : string) (request_id : Uuid) (generation : string) : cprog (result ReconcileError Z) :=
  let? record := map_err ReconcileDatabase (credit_ai_recovery_request request_id) in
  if negb (bool_decide (rr_upstream record = fingerprint)) ||
     match rr_generation record with Some id => negb (bool_decide (id = generation)) | None => false end ||
     (String.length generation =? 0)%nat || (200 <? String.length generation)%nat
  then Pure (Err AttributionConflict)
  else
    eff_bind (perform (Outer (GenerationCost generation))) (λ cost : option Z,
      match cost with
      | None => Pure (Err CostUnknown)
      | Some charged =>
          let? _ := map_err ReconcileDatabase (observe_credit_ai_usage request_id generation (Some charged) true) in
          let? _ := map_err ReconcileDatabase (settle_credit_ai_request request_id charged false) in
          Pure (Ok charged)
      end).
