(* ===== verification/CreditsSpec.v ===== *)
(** * The credits gateway: what its database may do

    The abstract specification of [Credits]: the moves of the committed tables
    ([gateway_step]), each a single atomic change, and what holds of every database
    they lead to ([books]).  [Past] is what the rest of the system had said by some
    moment, of owners and communities, on which a hold's conditions depend.  [stable]
    is what the holder of some locks may count on while others move. *)

From stdpp Require Import base gmap strings list relations.
From Stdlib Require Import ZArith Ascii Lia.
From S2P Require Import Prelude Text Nostr Effect Postgres Credits.

Local Open Scope Z_scope.
Local Open Scope list_scope.

(** ** The sources of the ledger *)

Definition is_ai (source : string) : bool := starts_with source "ai:".

Definition colon : ascii := ":"%char.

Lemma last_colon (x y v w : string) :
  string_contains colon v = false → string_contains colon w = false →
  x +:+ String colon v = y +:+ String colon w → x = y ∧ v = w.
Proof.
  intros Hv Hw. revert y. induction x as [|c x IH]; intros [|c' y] Heq; simpl in Heq.
  - by injection Heq.
  - injection Heq as <- ->. rewrite string_contains_app in Hv. simpl in Hv. by rewrite orb_true_r in Hv.
  - injection Heq as -> <-. rewrite string_contains_app in Hw. simpl in Hw. by rewrite orb_true_r in Hw.
  - injection Heq as -> Heq. by destruct (IH y Heq) as [-> ->].
Qed.

Lemma ai_source_inj what what' id id' :
  string_contains colon what = false → string_contains colon what' = false →
  ai_source what id = ai_source what' id' → what = what' ∧ id = id'.
Proof.
  unfold ai_source. intros Hw Hw' Heq. simpl in Heq. injection Heq as Heq.
  by destruct (last_colon id id' what what' Hw Hw' Heq) as [-> ->].
Qed.

Lemma ai_source_is_ai what id : is_ai (ai_source what id) = true.
Proof. unfold is_ai. apply starts_with_app. by eexists. Qed.

#[local] Opaque ai_source is_ai.

(** ** The moves *)

Definition apply_ws : list Write → CreditDb → CreditDb := apply_all apply.

(** What every part of the gateway reads of a request; the rest is for recovery. *)
Definition core (r : AiRequest) : Uuid * Uuid * string * string * Z * option Z * RequestStatus * Z :=
  (rq_account r, rq_session r, rq_upstream r, rq_digest r, rq_reserved r, rq_charged r, rq_status r, rq_created r).

Definition entry_amount (a : Uuid) (source : string) (d : CreditDb) : option Z := le_amount <$> ledger d !! (a, source).

Definition funded (a id : Uuid) (d : CreditDb) : bool := bool_decide (is_Some (ledger d !! (a, ai_source "hold" id))).

Definition hold_writes (now : Z) (account : Uuid) (free : bool) (a : AdmitArgs) : list Write :=
  WRequest (aa_request a) (new_request now account (aa_session a) (aa_digest a) (aa_reserve a) (aa_upstream a)) ::
  (if free then [] else [WEntry account (ai_source "hold" (aa_request a)) {| le_type := Adjustment; le_amount := - aa_reserve a |}]).

Definition ledger_writes (account id : Uuid) (reserve previous charged : Z) (pending : bool) : list Write :=
  if pending then
    WEntry account (ai_source "release" id) {| le_type := Adjustment; le_amount := reserve |} ::
    (if 0 <? charged then [WEntry account (ai_source "usage" id) {| le_type := Usage; le_amount := - charged |}] else [])
  else if charged <? previous then
    [WEntry account (ai_source "correction" id) {| le_type := Refund; le_amount := previous - charged |}]
  else [].

Definition final_status (provisional : bool) : RequestStatus := if provisional then StatusEstimated else StatusSettled.

Definition settle_writes (now : Z) (account id : Uuid) (reserve previous charged : Z) (provisional pending is_funded : bool)
    : list Write :=
  (if is_funded then ledger_writes account id reserve previous charged pending else []) ++
  [WCharged id (final_status provisional) charged now].

(** Whether a request of [account] with reserve and previous charge is there to be
    settled at [charged]. *)
Record can_settle (account id : Uuid) (reserve previous charged : Z) (provisional pending : bool) (d : CreditDb) : Prop := {
  cs_row : ∃ r, requests d !! id = Some r ∧ rq_account r = account ∧ rq_reserved r = reserve ∧
    default 0 (rq_charged r) = previous ∧ is_pending r = pending ∧ rq_status r ≠ StatusSettled ∧
    (provisional = true → rq_status r ≠ StatusEstimated);
  cs_charged : 0 ≤ charged ≤ reserve;
  cs_provisional : provisional = true → charged = reserve;
}.

(** *** Who may spend *)

(** What the rest of the system had said by some moment: which owner an agent of a
    community had, and which communities could be written. *)
Record Past := {
  was_owner : CommunityId → PublicKey → PublicKey → Prop;
  was_writable : CommunityId → Prop;
}.

Definition within (past : Past) (d : CreditDb) : Prop :=
  (∀ community agent owner, users d !! (community, agent) = Some (Some owner) → was_owner past community agent owner) ∧
  (∀ community, community ∈ writable d → was_writable past community).

(** The session of the call may still be used by this agent of this community, and
    its account, whose address is verified, is the one that pays. *)
Record entitled (now : Z) (account : Uuid) (ac : Account) (a : AdmitArgs) (d : CreditDb) : Prop := {
  en_session : ∃ s, sessions d !! aa_session a = Some s ∧ as_account s = account ∧ as_community s = aa_community a ∧
    as_agent s = aa_agent a ∧ as_revoked s = false ∧ now < as_expires s;
  en_account : accounts d !! account = Some ac;
  en_verified : ac_verified ac = true;
}.

Section policy.
Context (p : GatewayPolicy) (past : Past).

Definition in_flight_limit (free : bool) : Z := if free then free_ai_max_in_flight p else MAX_IN_FLIGHT.

Definition pend (s : Uuid) (d : CreditDb) (id : Uuid) : bool :=
  match requests d !! id with Some r => bool_decide (rq_session r = s) && is_pending r | None => false end.

Definition mine (a : Uuid) (d : CreditDb) (id : Uuid) : option AiRequest :=
  r ← requests d !! id; if bool_decide (rq_account r = a) then Some r else None.

Definition within_cap (now reserve : Z) (d : CreditDb) : Prop :=
  match global_daily_cap_nanousd p with
  | Some cap => i64_saturating_add (spent_since (day_start now) d) reserve ≤ cap
  | None => True
  end.

Record can_hold (now : Z) (account : Uuid) (free : bool) (a : AdmitArgs) (d : CreditDb) : Prop := {
  ch_reserve : 1 ≤ aa_reserve a ≤ 400000000;
  (** the session and the account are as the locks keep them; who owns the agent and
      whether the community may be written is not locked, and is of a moment before *)
  ch_payer : ∃ ac, entitled now account ac a d ∧ free = is_free p (ac_email ac) ∧
    was_owner past (aa_community a) (aa_agent a) (ac_pubkey ac) ∧ was_writable past (aa_community a);
  ch_absent : requests d !! aa_request a = None;
  ch_session : ∀ id, pend (aa_session a) d id = false;
  ch_flight : pending_of account d < in_flight_limit free;
  ch_cap : within_cap now (aa_reserve a) d;
  ch_balance : free = false → aa_reserve a ≤ balance account d;
  ch_entry : free = false → ledger d !! (account, ai_source "hold" (aa_request a)) = None;
}.

(** Every change of the committed tables is one of these. *)
Inductive gateway_step (d : CreditDb) : CreditDb → Prop :=
  | step_hold now account free a :
      can_hold now account free a d → gateway_step d (apply_ws (hold_writes now account free a) d)
  | step_settle now account id reserve previous charged provisional pending :
      can_settle account id reserve previous charged provisional pending d →
      gateway_step d (apply_ws (settle_writes now account id reserve previous charged provisional pending (funded account id d)) d)
  | step_entry account source e :
      is_ai source = false → ledger d !! (account, source) = None → 0 ≤ balance account d + le_amount e →
      gateway_step d (apply (WEntry account source e) d)
  | step_calm d' :
      (∀ a, is_Some (accounts d !! a) → is_Some (accounts d' !! a) ∨ ∀ id, mine a d id = None) → ledger d' = ledger d → (∀ id, core <$> requests d' !! id = core <$> requests d !! id) →
      (within past d → within past d') → gateway_step d d'.

Definition gateway_steps : relation CreditDb := rtc gateway_step.

#[export] Instance gateway_steps_preorder : PreOrder gateway_steps.
Proof. unfold gateway_steps. apply _. Qed.

(** ** What locks keep *)

Record account_stable (a : Uuid) (c d : CreditDb) : Prop := {
  st_row : accounts d !! a = accounts c !! a;
  st_balance : balance a c ≤ balance a d;
  st_entries : ∀ what id, ledger d !! (a, ai_source what id) = ledger c !! (a, ai_source what id);
  st_mine : ∀ id, core <$> mine a d id = core <$> mine a c id;
}.

Record stable (L : list Lock) (c d : CreditDb) : Prop := {
  st_account a : LAccount a ∈ L → account_stable a c d;
  st_cap t : LDailyCap ∈ L → global_daily_cap_nanousd p ≠ None → spent_since t d ≤ spent_since t c;
  st_request id : LRequest id ∈ L → core <$> requests d !! id = core <$> requests c !! id;
  st_pending s id : LPending s ∈ L → pend s d id = true → pend s c id = true;
  st_entry a source : LEntry a source ∈ L → ledger d !! (a, source) = ledger c !! (a, source);
  st_session s : LSession s ∈ L → sessions d !! s = sessions c !! s;
}.

#[export] Instance account_stable_preorder a : PreOrder (account_stable a).
Proof.
  split; [by split|]. intros x y z [H0 H1 H2 H3] [H0' H4 H5 H6]. split; [congruence|lia| |].
  - intros what id. by rewrite H5.
  - intros id. by rewrite H6.
Qed.

#[export] Instance stable_preorder L : PreOrder (stable L).
Proof.
  split; [split; intros; [reflexivity|lia|done..]|]. intros x y z [A1 B1 C1 D1 E1 F1] [A2 B2 C2 D2 E2 F2]. split.
  - intros a Ha. etrans; [by apply A1|by apply A2].
  - intros t Ht Hc. specialize (B1 t Ht Hc). specialize (B2 t Ht Hc). lia.
  - intros id Hid. rewrite C2 by done. auto.
  - auto.
  - intros a source Hs. rewrite E2 by done. auto.
  - intros s Hs. rewrite F2 by done. auto.
Qed.

(** ** The books *)

(** What a request costs its account: the hold while it is pending, the charge after. *)
Definition owed (a : Uuid) (d : CreditDb) : Z :=
  zsum (λ id r, if bool_decide (rq_account r = a) && funded a id d then spending r else 0) (requests d).

(** The rest of the ledger: purchases, and debits of other services. *)
Definition others (a : Uuid) (d : CreditDb) : Z :=
  zsum (λ k e, if bool_decide (k.1 = a) && negb (is_ai k.2) then le_amount e else 0) (ledger d).

Definition funded_pending (a : Uuid) (d : CreditDb) : Z :=
  zsum (λ id r, if bool_decide (rq_account r = a) && is_pending r && funded a id d then 1 else 0) (requests d).

Definition spent_on (day : Z) (d : CreditDb) : Z :=
  zsum (λ _ r, if day_start (rq_created r) =? day then spending r else 0) (requests d).

(** The ledger rows of one request: hold, release, usage, correction. *)
Definition entries_of (a id : Uuid) (d : CreditDb) : option Z * option Z * option Z * option Z :=
  (entry_amount a (ai_source "hold" id) d, entry_amount a (ai_source "release" id) d,
   entry_amount a (ai_source "usage" id) d, entry_amount a (ai_source "correction" id) d).

Definition positive (n : Z) : option Z := if 0 <? n then Some n else None.

(** The ledger rows a request has left: none if it is free. *)
Definition entries_ok (r : AiRequest) (es : option Z * option Z * option Z * option Z) : Prop :=
  es = (None, None, None, None) ∨
  match rq_status r, rq_charged r with
  | StatusPending, _ => es = (Some (- rq_reserved r), None, None, None)
  | _, Some c =>
      es = (Some (- rq_reserved r), Some (rq_reserved r), Z.opp <$> positive c, None) ∨
      (rq_status r = StatusSettled ∧
       es = (Some (- rq_reserved r), Some (rq_reserved r), Some (- rq_reserved r), positive (rq_reserved r - c)))
  | _, None => False
  end.

Definition charged_ok (r : AiRequest) : Prop :=
  1 ≤ rq_reserved r ∧
  match rq_status r, rq_charged r with
  | StatusPending, None => True
  | StatusSettled, Some c => 0 ≤ c ≤ rq_reserved r
  | StatusEstimated, Some c => c = rq_reserved r
  | _, _ => False
  end.

Record books (d : CreditDb) : Prop := {
  bk_balance a : 0 ≤ balance a d;
  bk_account id r : requests d !! id = Some r → is_Some (accounts d !! rq_account r);
  bk_row id r : requests d !! id = Some r → charged_ok r ∧ entries_ok r (entries_of (rq_account r) id d);
  bk_entry a what id : string_contains colon what = false → is_Some (ledger d !! (a, ai_source what id)) → is_Some (mine a d id);
  bk_sum a : balance a d = others a d - owed a d;
  bk_funded a : funded_pending a d ≤ MAX_IN_FLIGHT;
  bk_pending a : pending_of a d ≤ Z.max MAX_IN_FLIGHT (free_ai_max_in_flight p);
  bk_session id id' s : pend s d id = true → pend s d id' = true → id = id';
  bk_cap cap day : global_daily_cap_nanousd p = Some cap → cap < i64_max → spent_on day d ≤ Z.max 0 cap;
}.
End policy.
