(* ===== verification/CreditsBooks.v ===== *)
(** * The credits gateway: every move keeps the books

    [books] holds of the empty tables and is kept by each [gateway_step]
    ([gateway_books]); requests only move forward ([gateway_forward]). *)

From stdpp Require Import base gmap strings list relations.
From Stdlib Require Import ZArith Ascii Lia.
From S2P Require Import Prelude Text Nostr Effect Postgres Credits CreditsSpec.

Local Open Scope Z_scope.
Local Open Scope list_scope.

#[local] Opaque ai_source is_ai.

Section policy.
Context (p : GatewayPolicy) (past : Past).
Abbreviation books := (books p).
Abbreviation can_hold := (can_hold p past).

Lemma ch_account now account free a d : can_hold now account free a d → is_Some (accounts d !! account).
Proof. intros Hc. destruct (ch_payer _ _ _ _ _ _ _ Hc) as (ac & He & _). exists ac. apply He. Qed.

(** *** What a single write changes *)

Lemma ai_key_ne (a b : Uuid) what what' id id' :
  string_contains colon what = false → string_contains colon what' = false →
  a ≠ b ∨ what ≠ what' ∨ id ≠ id' → (a, ai_source what id) ≠ (b, ai_source what' id').
Proof.
  intros Hw Hw' Hne Heq. pose proof (f_equal fst Heq : a = b) as ->.
  destruct (ai_source_inj _ _ _ _ Hw Hw' (f_equal snd Heq)) as [-> ->]. naive_solver.
Qed.

Lemma balance_entry a s e d b :
  ledger d !! (a, s) = None →
  balance b (apply (WEntry a s e) d) = balance b d + (if bool_decide (a = b) then le_amount e else 0).
Proof. intros Hn. unfold balance. simpl. rewrite zsum_insert by done. simpl. lia. Qed.

Lemma others_entry a s e d b :
  ledger d !! (a, s) = None →
  others b (apply (WEntry a s e) d) = others b d + (if bool_decide (a = b) && negb (is_ai s) then le_amount e else 0).
Proof. intros Hn. unfold others. simpl. rewrite zsum_insert by done. simpl. lia. Qed.

Lemma entry_amount_entry a s e d b s' :
  entry_amount b s' (apply (WEntry a s e) d) =
  if bool_decide ((a, s) = (b, s')) then Some (le_amount e) else entry_amount b s' d.
Proof.
  unfold entry_amount. simpl. case_bool_decide as Hk.
  - rewrite <-Hk. by rewrite lookup_insert_eq.
  - by rewrite lookup_insert_ne.
Qed.

Lemma entry_amount_other a s e d b s' :
  (a, s) ≠ (b, s') → entry_amount b s' (apply (WEntry a s e) d) = entry_amount b s' d.
Proof. intros Hne. rewrite entry_amount_entry. by rewrite (bool_decide_eq_false_2 _ Hne). Qed.

Lemma entry_amount_same a s e d : entry_amount a s (apply (WEntry a s e) d) = Some (le_amount e).
Proof. rewrite entry_amount_entry. by rewrite bool_decide_eq_true_2. Qed.

Lemma entry_amount_None a s d : entry_amount a s d = None → ledger d !! (a, s) = None.
Proof. unfold entry_amount. by destruct (ledger d !! (a, s)). Qed.

Lemma funded_amount a id d : funded a id d = bool_decide (is_Some (entry_amount a (ai_source "hold" id) d)).
Proof. unfold funded, entry_amount. apply bool_decide_ext. by rewrite fmap_is_Some. Qed.

Lemma funded_entry a s e d b id :
  (a, s) ≠ (b, ai_source "hold" id) → funded b id (apply (WEntry a s e) d) = funded b id d.
Proof. intros Hne. by rewrite !funded_amount, entry_amount_other. Qed.

Lemma requests_charge f id r status charged now d :
  requests d !! id = Some r →
  zsum f (requests (apply (WCharged id status charged now) d)) =
  zsum f (requests d) - f id r + f id (charge_row status charged now r).
Proof. apply zsum_alter. Qed.

(** *** A hold *)

Lemma day_start_mono now t : day_start t = day_start now → day_start now ≤ t.
Proof. intros <-. unfold day_start, day_us. pose proof (Z.mod_pos_bound t (24 * 60 * 60 * 1000000)). lia. Qed.

Lemma spent_on_since now d : (∀ id r, requests d !! id = Some r → charged_ok r) → spent_on (day_start now) d ≤ spent_since (day_start now) d.
Proof.
  intros Hok. apply zsum_mono. intros id. destruct (requests d !! id) as [r|] eqn:Hr; simpl; [|lia].
  assert (0 ≤ spending r).
  { destruct (Hok _ _ Hr) as [? Hc]. unfold spending. destruct (rq_status r), (rq_charged r); simpl in *; lia. }
  destruct (day_start (rq_created r) =? day_start now) eqn:Hd; [|by destruct (_ <=? _)].
  apply Z.eqb_eq, day_start_mono in Hd. apply Z.leb_le in Hd. rewrite Hd. lia.
Qed.

Section hold.
Context (now : Z) (account : Uuid) (free : bool) (a : AdmitArgs) (d : CreditDb).
Context (Hbooks : books d) (Hcan : can_hold now account free a d).

Definition held_row : AiRequest := new_request now account (aa_session a) (aa_digest a) (aa_reserve a) (aa_upstream a).
Definition held_db : CreditDb := apply_ws (hold_writes now account free a) d.

Lemma held_requests : requests held_db = <[aa_request a := held_row]> (requests d).
Proof using. clear Hbooks Hcan. unfold held_db, hold_writes. by destruct free. Qed.

Lemma held_accounts : accounts held_db = accounts d.
Proof using. clear Hbooks Hcan. unfold held_db, hold_writes. by destruct free. Qed.

Lemma held_entry b what id :
  string_contains colon what = false →
  entry_amount b (ai_source what id) held_db =
  if bool_decide (free = false ∧ b = account ∧ what = "hold"%string ∧ id = aa_request a) then Some (- aa_reserve a)
  else entry_amount b (ai_source what id) d.
Proof using Hcan.
  intros Hw. unfold held_db, hold_writes. destruct free eqn:Hf.
  - by rewrite bool_decide_eq_false_2 by naive_solver.
  - change (apply_ws _ d) with (apply (WEntry account (ai_source "hold" (aa_request a)) {| le_type := Adjustment; le_amount := - aa_reserve a |})
      (apply (WRequest (aa_request a) held_row) d)).
    rewrite entry_amount_entry. case_bool_decide as Hk.
    + pose proof (f_equal fst Hk : account = b) as ->.
      destruct (ai_source_inj "hold" what (aa_request a) id eq_refl Hw (f_equal snd Hk)) as [<- <-].
      by rewrite bool_decide_eq_true_2.
    + rewrite bool_decide_eq_false_2; [done|]. intros (_ & -> & -> & ->). done.
Qed.

Lemma held_balance b : balance b held_db = balance b d - (if bool_decide (account = b) && negb free then aa_reserve a else 0).
Proof using Hcan.
  unfold held_db, hold_writes. destruct free eqn:Hf.
  - rewrite andb_false_r. unfold balance. simpl. lia.
  - change (apply_ws _ d) with (apply (WEntry account (ai_source "hold" (aa_request a)) {| le_type := Adjustment; le_amount := - aa_reserve a |})
      (apply (WRequest (aa_request a) held_row) d)).
    rewrite balance_entry by (by apply Hcan). rewrite andb_true_r. change (balance b (apply (WRequest _ _) d)) with (balance b d).
    case_bool_decide; simpl; lia.
Qed.

Lemma held_others b : others b held_db = others b d.
Proof using Hcan.
  unfold held_db, hold_writes. destruct free eqn:Hf; [done|].
  change (apply_ws _ d) with (apply (WEntry account (ai_source "hold" (aa_request a)) {| le_type := Adjustment; le_amount := - aa_reserve a |})
    (apply (WRequest (aa_request a) held_row) d)).
  rewrite others_entry by (by apply Hcan). rewrite ai_source_is_ai, andb_false_r. change (others b (apply (WRequest _ _) d)) with (others b d). lia.
Qed.

Lemma absent_entry b what id : requests d !! id = None → string_contains colon what = false → entry_amount b (ai_source what id) d = None.
Proof using Hbooks.
  intros Hn Hw. destruct (entry_amount b (ai_source what id) d) eqn:He; [|done].
  destruct (bk_entry p _ Hbooks b what id Hw) as [r Hr].
  - unfold entry_amount in He. destruct (ledger d !! _); [by eexists|done].
  - unfold mine in Hr. by rewrite Hn in Hr.
Qed.

Lemma held_funded b id :
  funded b id held_db = if bool_decide (free = false ∧ b = account ∧ id = aa_request a) then true else funded b id d.
Proof using Hcan.
  rewrite !funded_amount, held_entry by done.
  rewrite (bool_decide_ext (free = false ∧ b = account ∧ "hold"%string = "hold"%string ∧ id = aa_request a) (free = false ∧ b = account ∧ id = aa_request a)) by (split; [intros (? & ? & _ & ?)|intros (? & ? & ?)]; done).
  destruct (bool_decide (free = false ∧ b = account ∧ id = aa_request a)); [by apply bool_decide_eq_true_2; eexists|done].
Qed.

Lemma held_sum (F : bool → AiRequest → Z) b :
  zsum (λ id r, F (funded b id held_db) r) (requests held_db) =
  F (negb free && bool_decide (b = account)) held_row + zsum (λ id r, F (funded b id d) r) (requests d).
Proof using Hbooks Hcan.
  rewrite held_requests, zsum_insert by apply Hcan. f_equal.
  - f_equal. rewrite held_funded, funded_amount, absent_entry by (done || apply Hcan).
    rewrite (bool_decide_eq_false_2 (is_Some None)) by (by intros []). destruct free; cbn [negb andb].
    + rewrite bool_decide_eq_false_2; [done|]. by intros [].
    + destruct (decide (b = account)) as [->|Hne]; [by rewrite !bool_decide_eq_true_2|].
      rewrite !bool_decide_eq_false_2; [done..|]. by intros (_ & ? & _).
  - apply zsum_agree. intros id. destruct (requests d !! id) as [r|] eqn:Hr; [|done]. simpl. f_equal.
    rewrite held_funded, bool_decide_eq_false_2; [done|]. intros (_ & _ & ->). pose proof (ch_absent p past _ _ _ _ _ Hcan). congruence.
Qed.

Lemma held_lookup id r :
  requests held_db !! id = Some r → (id = aa_request a ∧ r = held_row) ∨ (id ≠ aa_request a ∧ requests d !! id = Some r).
Proof using. rewrite held_requests, lookup_insert_Some. naive_solver. Qed.

Lemma held_entries b id : id ≠ aa_request a → entries_of b id held_db = entries_of b id d.
Proof using Hcan.
  intros Hne. unfold entries_of. rewrite !held_entry by done. by rewrite !bool_decide_eq_false_2 by naive_solver.
Qed.

Lemma held_new_entries :
  entries_of account (aa_request a) held_db = (if free then None else Some (- aa_reserve a), None, None, None).
Proof using Hbooks Hcan.
  unfold entries_of. rewrite !held_entry, !absent_entry by (done || apply Hcan).
  rewrite (bool_decide_ext (free = false ∧ account = account ∧ "hold"%string = "hold"%string ∧ aa_request a = aa_request a) (free = false))
    by (split; [by intros []|done]).
  rewrite (bool_decide_eq_false_2 (_ ∧ _ ∧ "release"%string = _ ∧ _)) by (by intros (_ & _ & ? & _)).
  rewrite (bool_decide_eq_false_2 (_ ∧ _ ∧ "usage"%string = _ ∧ _)) by (by intros (_ & _ & ? & _)).
  rewrite (bool_decide_eq_false_2 (_ ∧ _ ∧ "correction"%string = _ ∧ _)) by (by intros (_ & _ & ? & _)).
  by destruct free.
Qed.

Lemma held_pend s id : pend s held_db id = pend s d id || (bool_decide (s = aa_session a) && bool_decide (id = aa_request a)).
Proof using Hcan.
  unfold pend. rewrite held_requests. destruct (decide (id = aa_request a)) as [->|Hne].
  - rewrite lookup_insert_eq, (ch_absent p past _ _ _ _ _ Hcan). simpl. rewrite (bool_decide_eq_true_2 (aa_request a = _)) by done.
    rewrite !andb_true_r. apply bool_decide_ext. naive_solver.
  - rewrite lookup_insert_ne by congruence. rewrite (bool_decide_eq_false_2 (id = _)) by done. by rewrite andb_false_r, orb_false_r.
Qed.

Lemma books_hold : books held_db.
Proof using Hbooks Hcan.
  pose proof (ch_account _ _ _ _ _ Hcan) as Hacc. pose proof Hcan as [Hres _ Habs Hses Hfl Hcap Hbal Hent]. pose proof Hbooks as [B1 B0 B2 B3 B4 B5 B6 B7 B8]. split.
  - intros b. rewrite held_balance. specialize (B1 b). case_bool_decide as Hb; [|simpl; lia]. subst b.
    destruct free; simpl; [lia|]. specialize (Hbal eq_refl). lia.
  - intros id r Hr. rewrite held_accounts. apply held_lookup in Hr as [[-> ->]|[Hne Hr]]; [done|by eapply B0].
  - intros id r [[-> ->]|[Hne Hr]]%held_lookup.
    + split; [split; [apply Hres|done]|]. simpl. rewrite held_new_entries. destruct free; [by left|by right].
    + rewrite held_entries by done. auto.
  - intros b what id Hw [e He]. unfold mine. rewrite held_requests.
    destruct (decide (id = aa_request a)) as [->|Hne].
    + rewrite lookup_insert_eq. simpl.
      assert (is_Some (entry_amount b (ai_source what (aa_request a)) held_db)) as [x Hx] by (unfold entry_amount; rewrite He; by eexists).
      rewrite held_entry, absent_entry in Hx by done. case_bool_decide as Hb; [|done]. destruct Hb as (_ & -> & _).
      rewrite bool_decide_eq_true_2 by done. by eexists.
    + rewrite lookup_insert_ne by congruence. apply (B3 b what id Hw).
      assert (is_Some (entry_amount b (ai_source what id) held_db)) as Hx by (unfold entry_amount; rewrite He; by eexists).
      rewrite held_entry, bool_decide_eq_false_2 in Hx by naive_solver. unfold entry_amount in Hx. by rewrite fmap_is_Some in Hx.
  - intros b. rewrite held_balance, held_others, B4. unfold owed.
    rewrite (held_sum (λ f r, if bool_decide (rq_account r = b) && f then spending r else 0) b). simpl.
    destruct free; simpl; rewrite ?andb_false_r; [lia|]. case_bool_decide; simpl; [|lia].
    rewrite bool_decide_eq_true_2 by done. unfold spending. simpl. lia.
  - intros b. unfold funded_pending.
    rewrite (held_sum (λ f r, if bool_decide (rq_account r = b) && is_pending r && f then 1 else 0) b).
    specialize (B5 b). fold (funded_pending b d). destruct free; simpl; rewrite ?andb_false_r; [lia|].
    case_bool_decide; simpl; [|lia]. subst b. rewrite bool_decide_eq_true_2 by done. simpl. unfold in_flight_limit in Hfl.
    assert (funded_pending account d ≤ pending_of account d); [|lia].
    apply zsum_mono. intros id. destruct (requests d !! id); simpl; [|lia].
    destruct (bool_decide _ && _); simpl; [|lia]. destruct (funded _ _ _); lia.
  - intros b. unfold pending_of. rewrite held_requests, zsum_insert by done. fold (pending_of b d). specialize (B6 b).
    simpl. case_bool_decide; simpl; [|lia]. subst b. unfold in_flight_limit in Hfl. destruct free; lia.
  - intros id id' s. rewrite !held_pend. intros H1 H2.
    destruct (decide (s = aa_session a)) as [->|Hne].
    + rewrite Hses, bool_decide_eq_true_2 in H1, H2 by done. simpl in H1, H2. apply bool_decide_eq_true in H1, H2. congruence.
    + rewrite (bool_decide_eq_false_2 (s = _)), orb_false_r in H1, H2 by done. eauto.
  - intros cap day Hc Hmax. unfold spent_on. rewrite held_requests, zsum_insert by done. fold (spent_on day d). simpl.
    destruct (day_start now =? day) eqn:Hday; [|by specialize (B8 cap day Hc Hmax)].
    apply Z.eqb_eq in Hday as <-. unfold within_cap, i64_saturating_add in Hcap. rewrite Hc in Hcap.
    pose proof (spent_on_since now d (λ id r Hr, proj1 (B2 id r Hr))). unfold spending. simpl. lia.
Qed.
End hold.

(** *** A settlement *)

Section settle.
Context (now : Z) (account id : Uuid) (reserve previous charged : Z) (provisional pending : bool) (d : CreditDb).
Context (Hbooks : books d) (Hcan : can_settle account id reserve previous charged provisional pending d).

(** The ledger rows of the settlement, and the database with them. *)
Definition settled_rows : list Write :=
  if funded account id d then ledger_writes account id reserve previous charged pending else [].
Definition settled_ledger : CreditDb := apply_ws settled_rows d.
Definition settled_db : CreditDb :=
  apply_ws (settle_writes now account id reserve previous charged provisional pending (funded account id d)) d.

Lemma settled_ledger_requests : requests settled_ledger = requests d.
Proof using.
  clear Hbooks Hcan. unfold settled_ledger, settled_rows, ledger_writes.
  by destruct (funded _ _ _), pending, (0 <? charged), (charged <? previous).
Qed.

Lemma settled_accounts : accounts settled_db = accounts d.
Proof using.
  clear Hbooks Hcan. unfold settled_db, settle_writes, ledger_writes.
  by destruct (funded _ _ _), pending, (0 <? charged), (charged <? previous).
Qed.

Lemma settled_is : settled_db = apply (WCharged id (final_status provisional) charged now) settled_ledger.
Proof using. unfold settled_db, settle_writes, apply_ws. by rewrite apply_all_app. Qed.

Lemma settled_requests : requests settled_db = alter (charge_row (final_status provisional) charged now) id (requests d).
Proof using. rewrite settled_is. simpl. by rewrite settled_ledger_requests. Qed.

Lemma settled_entry_amount b s : entry_amount b s settled_db = entry_amount b s settled_ledger.
Proof using. by rewrite settled_is. Qed.

(** Rows of other requests and accounts, and the hold, stay. *)
Lemma settled_other b what id' :
  string_contains colon what = false → b ≠ account ∨ id' ≠ id ∨ what = "hold"%string ∨ funded account id d = false →
  entry_amount b (ai_source what id') settled_ledger = entry_amount b (ai_source what id') d.
Proof.
  intros Hw Hor. unfold settled_ledger, settled_rows, ledger_writes.
  destruct (funded account id d); [|done].
  assert (∀ w, w ≠ "hold"%string → string_contains colon w = false → (account, ai_source w id) ≠ (b, ai_source what id')) as Hne.
  { intros w Hh Hc. apply ai_key_ne; [done..|]. destruct Hor as [?|[?|[->|?]]]; naive_solver. }
  destruct pending; [destruct (0 <? charged)|destruct (charged <? previous)]; unfold apply_ws, apply_all; cbn [foldl];
    rewrite ?entry_amount_other by (by apply Hne); done.
Qed.

(** What the books say of the row that is settled. *)
Lemma settled_before :
  ∃ r, requests d !! id = Some r ∧ rq_account r = account ∧ rq_reserved r = reserve ∧ 1 ≤ reserve ∧
    spending r = (if pending then reserve else previous) ∧ is_pending r = pending ∧
    (pending = false → previous = reserve ∧ provisional = false) ∧
    (funded account id d = false → entries_of account id d = (None, None, None, None)) ∧
    (funded account id d = true →
       entries_of account id d =
       if pending then (Some (- reserve), None, None, None) else (Some (- reserve), Some reserve, Some (- reserve), None)).
Proof using Hbooks Hcan.
  destruct Hcan as [(r & Hr & Ha & Hre & Hpr & Hpe & Hns & Hne) Hc Hp]. exists r.
  destruct (bk_row _ _ Hbooks _ _ Hr) as [[H1 H2] He]. rewrite Ha, Hre in *. unfold entries_ok in He. rewrite Hre in *.
  rewrite funded_amount. unfold entries_of in *. unfold is_pending in *. unfold spending.
  destruct (rq_status r); [| done |].
  - rewrite bool_decide_eq_true_2 in * by done. subst pending. destruct (rq_charged r); [done|]. split_and!; try done.
    + intros Hf. destruct He as [?|He]; [done|]. injection He as He _ _ _. by rewrite He in Hf.
    + intros Hf. destruct He as [He|He]; [|done]. injection He as He _ _ _. by rewrite He in Hf.
  - rewrite bool_decide_eq_false_2 in * by done. subst pending. destruct (rq_charged r) as [c|]; [|done]. simpl in *. subst c.
    split_and!; try done.
    + intros _. split; [done|]. destruct provisional; [|done]. by destruct Hne.
    + intros Hf. destruct He as [?|[He|[? _]]]; [done| |done]. injection He as He _ _ _. by rewrite He in Hf.
    + intros Hf. destruct He as [He|[He|[? _]]]; [| |done].
      * injection He as He _ _ _. by rewrite He in Hf.
      * rewrite He. unfold positive. by rewrite H2, (proj2 (Z.ltb_lt 0 reserve)) by lia.
Qed.

(** One more ledger row: how the sums change. *)
Ltac entry_sums :=
  repeat (first [rewrite entry_amount_same | rewrite entry_amount_other by (by apply ai_key_ne; [done|done|right; left])]).

Lemma settled_sums b :
  balance b settled_ledger = balance b d + (if bool_decide (account = b) && funded account id d then reserve - charged else 0) ∧
  others b settled_ledger = others b d.
Proof using Hbooks Hcan.
  destruct settled_before as (r & _ & _ & _ & Hpos & _ & _ & Hest & _ & Hes). pose proof (cs_charged _ _ _ _ _ _ _ _ Hcan) as Hch.
  unfold settled_ledger, settled_rows, ledger_writes.
  destruct (funded account id d); [|by rewrite andb_false_r, Z.add_0_r]. specialize (Hes eq_refl). rewrite andb_true_r.
  destruct pending.
  - injection Hes as _ Hr Hu _.
    assert (Hr' := entry_amount_None _ _ _ Hr).
    destruct (0 <? charged) eqn:Hc; unfold apply_ws, apply_all; cbn [foldl].
    + rewrite !balance_entry, !others_entry, !ai_source_is_ai, !andb_false_r
        by (done || apply entry_amount_None; by entry_sums). simpl. case_bool_decide; lia.
    + rewrite balance_entry, others_entry, ai_source_is_ai, andb_false_r by done. apply Z.ltb_ge in Hc. simpl. case_bool_decide; lia.
  - destruct (Hest eq_refl) as [-> _]. injection Hes as _ _ _ Hco. destruct (charged <? reserve) eqn:Hc; unfold apply_ws, apply_all; cbn [foldl].
    + rewrite balance_entry, others_entry, ai_source_is_ai, andb_false_r by (by apply entry_amount_None). simpl. case_bool_decide; lia.
    + apply Z.ltb_ge in Hc. case_bool_decide; lia.
Qed.

Lemma settled_entries :
  entries_of account id settled_ledger =
  if funded account id d then
    if pending then (Some (- reserve), Some reserve, Z.opp <$> positive charged, None)
    else (Some (- reserve), Some reserve, Some (- reserve), positive (reserve - charged))
  else (None, None, None, None).
Proof using Hbooks Hcan.
  destruct settled_before as (r & _ & _ & _ & Hpos & _ & _ & Hest & Hno & Hes). pose proof (cs_charged _ _ _ _ _ _ _ _ Hcan) as Hch.
  destruct (funded account id d) eqn:Hf; [specialize (Hes eq_refl); clear Hno|specialize (Hno eq_refl)].
  - unfold entries_of in *. rewrite settled_other by (done || by right; right; left).
    unfold settled_ledger, settled_rows, ledger_writes. rewrite Hf. destruct pending.
    + injection Hes as Hh Hr Hu Hco. unfold positive.
      destruct (0 <? charged) eqn:Hc; unfold apply_ws, apply_all; cbn [foldl]; entry_sums; by rewrite Hh, ?Hu, Hco.
    + destruct (Hest eq_refl) as [-> _]. injection Hes as Hh Hr Hu Hco. unfold positive.
      destruct (charged <? reserve) eqn:Hc; unfold apply_ws, apply_all; cbn [foldl]; entry_sums; rewrite Hh, Hr, Hu, ?Hco.
      * apply Z.ltb_lt in Hc. by rewrite (proj2 (Z.ltb_lt 0 (reserve - charged))) by lia.
      * apply Z.ltb_ge in Hc. by rewrite (proj2 (Z.ltb_ge 0 (reserve - charged))) by lia.
  - rewrite <-Hno. unfold settled_ledger, settled_rows. by rewrite Hf.
Qed.

Lemma settled_funded b id' : funded b id' settled_db = funded b id' d.
Proof. by rewrite !funded_amount, settled_entry_amount, settled_other by (done || (right; right; by left)). Qed.

Lemma settled_sum (F : bool → AiRequest → Z) b r :
  requests d !! id = Some r →
  zsum (λ id r, F (funded b id settled_db) r) (requests settled_db) =
  zsum (λ id r, F (funded b id d) r) (requests d) - F (funded b id d) r +
  F (funded b id d) (charge_row (final_status provisional) charged now r).
Proof.
  intros Hr. rewrite settled_requests, (zsum_alter _ _ _ r) by done. rewrite settled_funded. f_equal. f_equal.
  apply zsum_agree. intros id'. destruct (requests d !! id') as [r'|]; [|done]. simpl. by rewrite settled_funded.
Qed.

Lemma settled_pend s id' : pend s settled_db id' = true → id' ≠ id ∧ pend s d id' = true.
Proof.
  unfold pend. rewrite settled_requests. destruct (decide (id' = id)) as [->|Hne].
  - rewrite lookup_alter_eq. destruct (requests d !! id); [|done]. simpl.
    intros [_ Hp]%andb_prop. by destruct provisional.
  - by rewrite lookup_alter_ne by congruence.
Qed.

Lemma settled_mine b id' : is_Some (mine b d id') → is_Some (mine b settled_db id').
Proof.
  unfold mine. rewrite settled_requests. destruct (decide (id' = id)) as [->|Hne].
  - rewrite lookup_alter_eq. destruct (requests d !! id) as [r|]; [simpl|done].
    destruct (bool_decide _); [by eexists|by intros []].
  - by rewrite lookup_alter_ne by congruence.
Qed.

Lemma books_settle : books settled_db.
Proof using Hbooks Hcan.
  destruct settled_before as (r & Hr & Ha & Hre & Hpos & Hsp & Hpe & Hest & _ & _).
  pose proof settled_sums as Hsums. pose proof settled_entries as Hes.
  pose proof (cs_charged _ _ _ _ _ _ _ _ Hcan) as Hch. pose proof (cs_provisional _ _ _ _ _ _ _ _ Hcan) as Hpr.
  pose proof Hbooks as [B1 B0 B2 B3 B4 B5 B6 B7 B8].
  assert (spending (charge_row (final_status provisional) charged now r) = charged) as Hsp' by done.
  assert (charged ≤ spending r) as Hle by (rewrite Hsp; destruct pending; [|destruct (Hest eq_refl)]; lia).
  assert (is_pending (charge_row (final_status provisional) charged now r) = false) as Hpe' by (by destruct provisional).
  split.
  - intros b. rewrite settled_is. change (0 ≤ balance b settled_ledger). rewrite (proj1 (Hsums b)). specialize (B1 b). destruct (_ && _); lia.
  - intros id' r'. rewrite settled_requests, settled_accounts. destruct (decide (id' = id)) as [->|Hne].
    + rewrite lookup_alter_eq, Hr. intros [= <-]. simpl. by eapply B0.
    + rewrite lookup_alter_ne by congruence. apply B0.
  - intros id' r'. rewrite settled_requests. destruct (decide (id' = id)) as [->|Hne].
    + rewrite lookup_alter_eq, Hr. intros [= <-]. split.
      * split; simpl; [lia|]. destruct provisional; simpl; lia || (rewrite Hpr by done; lia).
      * unfold entries_of. simpl. rewrite !settled_entry_amount. fold (entries_of (rq_account r) id settled_ledger). rewrite Ha, Hes.
        destruct (funded account id d); [right|by left]. simpl. rewrite Hre.
        destruct pending; [by destruct provisional; left|]. destruct (Hest eq_refl) as [_ ->]. by right.
    + rewrite lookup_alter_ne by congruence. intros Hr'. unfold entries_of. rewrite !settled_entry_amount, !settled_other by (done || by right; left).
      by apply B2.
  - intros b what id' Hw [e He]. apply settled_mine.
    destruct (decide (b = account ∧ id' = id)) as [[-> ->]|Hne].
    + unfold mine. rewrite Hr. simpl. rewrite bool_decide_eq_true_2 by done. by eexists.
    + apply (B3 b what id' Hw). assert (is_Some (entry_amount b (ai_source what id') settled_db)) as Hx by (unfold entry_amount; rewrite He; by eexists).
      rewrite settled_entry_amount, settled_other in Hx by (done || (destruct (decide (b = account)); [right; left; naive_solver|by left])).
      unfold entry_amount in Hx. by rewrite fmap_is_Some in Hx.
  - intros b. rewrite settled_is at 1 2. change (balance b settled_ledger = others b settled_ledger - owed b settled_db).
    destruct (Hsums b) as [-> ->]. rewrite B4. unfold owed.
    rewrite (settled_sum (λ f r, if bool_decide (rq_account r = b) && f then spending r else 0) b r Hr).
    simpl. rewrite Ha, Hsp'. destruct (decide (account = b)) as [<-|]; [|by rewrite bool_decide_eq_false_2 by done; simpl; lia].
    rewrite bool_decide_eq_true_2 by done. simpl. destruct (funded account id d); [|lia].
    rewrite Hsp. destruct pending; [|destruct (Hest eq_refl)]; lia.
  - intros b. unfold funded_pending.
    rewrite (settled_sum (λ f r, if bool_decide (rq_account r = b) && is_pending r && f then 1 else 0) b r Hr).
    rewrite Hpe', andb_false_r. simpl. specialize (B5 b). fold (funded_pending b d). destruct (_ && _ && _); lia.
  - intros b. unfold pending_of. rewrite settled_requests, (zsum_alter _ _ _ r) by done. fold (pending_of b d).
    rewrite Hpe', andb_false_r. specialize (B6 b). destruct (_ && _); lia.
  - intros i1 i2 s [_ H1]%settled_pend [_ H2]%settled_pend. eauto.
  - intros cap day Hc Hmax. unfold spent_on. rewrite settled_requests, (zsum_alter _ _ _ r) by done. fold (spent_on day d).
    specialize (B8 cap day Hc Hmax). rewrite Hsp'. simpl. destruct (_ =? _); lia.
Qed.
End settle.

(** *** Other moves *)

Lemma core_fields r r' :
  core r = core r' →
  rq_account r = rq_account r' ∧ rq_session r = rq_session r' ∧ rq_reserved r = rq_reserved r' ∧ rq_charged r = rq_charged r' ∧
  rq_status r = rq_status r' ∧ rq_created r = rq_created r' ∧ spending r = spending r' ∧ is_pending r = is_pending r'.
Proof. destruct r, r'. intros [=]. subst. done. Qed.

Lemma core_terms r r' : core r = core r' → rq_upstream r = rq_upstream r' ∧ rq_digest r = rq_digest r'.
Proof. destruct r, r'. intros [=]. subst. done. Qed.

#[local] Opaque core.

Definition core_agree (d d' : CreditDb) : Prop := ∀ id, core <$> requests d' !! id = core <$> requests d !! id.

Lemma core_agree_sum (F F' : Uuid → AiRequest → Z) d d' :
  core_agree d d' → (∀ id r r', core r = core r' → F id r = F' id r') → zsum F (requests d') = zsum F' (requests d).
Proof.
  intros Hc HF. apply zsum_agree. intros id. specialize (Hc id).
  destruct (requests d' !! id), (requests d !! id); try done. apply (inj Some) in Hc. simpl. auto.
Qed.

Lemma core_agree_row d d' id r' :
  core_agree d d' → requests d' !! id = Some r' → ∃ r, requests d !! id = Some r ∧ core r = core r'.
Proof. intros Hc Hr. specialize (Hc id). rewrite Hr in Hc. destruct (requests d !! id) as [r|]; [|done]. apply (inj Some) in Hc. eauto. Qed.

Lemma core_agree_pend s d d' id : core_agree d d' → pend s d' id = pend s d id.
Proof.
  intros Hc. unfold pend. specialize (Hc id). destruct (requests d' !! id), (requests d !! id); try done.
  apply (inj Some) in Hc. by destruct (core_fields _ _ Hc) as (_ & -> & _ & _ & _ & _ & _ & ->).
Qed.

Lemma core_agree_mine a d d' id : core_agree d d' → is_Some (mine a d id) → is_Some (mine a d' id).
Proof.
  intros Hc. unfold mine. specialize (Hc id). destruct (requests d' !! id), (requests d !! id); simpl; try done.
  apply (inj Some) in Hc. destruct (core_fields _ _ Hc) as (-> & _). destruct (bool_decide _); [by eexists|by intros []].
Qed.

Lemma books_calm d d' :
  books d → (∀ a, is_Some (accounts d !! a) → is_Some (accounts d' !! a) ∨ ∀ id, mine a d id = None) → ledger d' = ledger d → core_agree d d' → books d'.
Proof.
  intros [B1 B0 B2 B3 B4 B5 B6 B7 B8] Hac Hl Hc.
  assert (∀ a s, entry_amount a s d' = entry_amount a s d) as He by (intros; unfold entry_amount; by rewrite Hl).
  assert (∀ a id, funded a id d' = funded a id d) as Hf by (intros; unfold funded; by rewrite Hl).
  assert (∀ a, balance a d' = balance a d) as Hb by (intros; unfold balance; by rewrite Hl).
  split.
  - intros a. by rewrite Hb.
  - intros id r' Hr'. destruct (core_agree_row _ _ _ _ Hc Hr') as (r & Hr & Hcr).
    destruct (core_fields _ _ Hcr) as (Ha & _). rewrite <-Ha. destruct (Hac _ (B0 _ _ Hr)) as [?|Hm]; [done|].
    specialize (Hm id). unfold mine in Hm. rewrite Hr in Hm. simpl in Hm. by rewrite bool_decide_eq_true_2 in Hm.
  - intros id r' Hr'. destruct (core_agree_row _ _ _ _ Hc Hr') as (r & Hr & Hcr). specialize (B2 id r Hr) as [H1 H2].
    destruct (core_fields _ _ Hcr) as (Ha & _ & Hre & Hch & Hst & _). unfold charged_ok, entries_ok, entries_of in *.
    rewrite !He. by rewrite <-Ha, <-Hre, <-Hch, <-Hst.
  - intros a what id Hw. rewrite Hl. intros Hx. eapply core_agree_mine; [done|]. by apply (B3 a what id).
  - intros a. rewrite Hb, B4. unfold others, owed. rewrite Hl. f_equal. symmetry. apply core_agree_sum; [done|].
    intros id r r' (-> & _ & _ & _ & _ & _ & -> & _)%core_fields. by rewrite Hf.
  - intros a. etrans; [|apply (B5 a)]. apply Z.eq_le_incl, core_agree_sum; [done|].
    intros id r r' (-> & _ & _ & _ & _ & _ & _ & ->)%core_fields. by rewrite Hf.
  - intros a. etrans; [|apply (B6 a)]. apply Z.eq_le_incl, core_agree_sum; [done|].
    intros id r r' (-> & _ & _ & _ & _ & _ & _ & ->)%core_fields. done.
  - intros i1 i2 s. rewrite !(core_agree_pend _ d d') by done. apply B7.
  - intros cap day Hcap Hmax. etrans; [|by apply (B8 cap day)]. apply Z.eq_le_incl, core_agree_sum; [done|].
    intros id r r' (_ & _ & _ & _ & _ & -> & -> & _)%core_fields. done.
Qed.

Lemma funded_sums a d d' :
  requests d' = requests d → (∀ id, funded a id d' = funded a id d) → owed a d' = owed a d ∧ funded_pending a d' = funded_pending a d.
Proof.
  intros Hr Hf. unfold owed, funded_pending. rewrite Hr.
  split; apply zsum_agree; intros id; destruct (requests d !! id); simpl; rewrite ?Hf; done.
Qed.

Lemma books_entry d account source e :
  books d → is_ai source = false → ledger d !! (account, source) = None → 0 ≤ balance account d + le_amount e →
  books (apply (WEntry account source e) d).
Proof.
  intros [B1 B0 B2 B3 B4 B5 B6 B7 B8] Hai Hn Hb.
  assert (∀ a what id, (account, source) ≠ (a, ai_source what id)) as Hne.
  { intros a what id [= -> ->]. by rewrite ai_source_is_ai in Hai. }
  assert (∀ a id, funded a id (apply (WEntry account source e) d) = funded a id d) as Hf by (intros; by apply funded_entry).
  split.
  - intros a. rewrite balance_entry by done. case_bool_decide; [by subst|]. specialize (B1 a). lia.
  - exact B0.
  - intros id r Hr. unfold entries_of. rewrite !entry_amount_other by done. by apply B2.
  - intros a what id Hw. simpl. rewrite lookup_insert_ne by done. apply (B3 a what id Hw).
  - intros a. rewrite balance_entry, others_entry, Hai, andb_true_r, B4 by done.
    destruct (funded_sums a d (apply (WEntry account source e) d) eq_refl (Hf a)) as [-> _]. lia.
  - intros a. by destruct (funded_sums a d (apply (WEntry account source e) d) eq_refl (Hf a)) as [_ ->].
  - exact B6.
  - exact B7.
  - exact B8.
Qed.

Lemma books_empty : books empty_db.
Proof.
  split; try done.
  - intros a what id _ [e He]. done.
  - intros a. unfold pending_of. simpl. rewrite zsum_empty. unfold MAX_IN_FLIGHT. lia.
  - intros cap day _ _. unfold spent_on. simpl. rewrite zsum_empty. lia.
Qed.

Lemma gateway_books d d' : gateway_steps p past d d' → books d → books d'.
Proof.
  induction 1 as [|d d1 d2 Hstep _ IH]; [done|]. intros Hb. apply IH. destruct Hstep.
  - by apply books_hold.
  - by apply books_settle.
  - by apply books_entry.
  - by eapply books_calm.
Qed.

(** *** Owners and communities are others' *)

Definition others_row (w : Write) : Prop := match w with WUser _ _ _ | WWritable _ _ => False | _ => True end.

Lemma others_kept ws d : Forall others_row ws → users (apply_ws ws d) = users d ∧ writable (apply_ws ws d) = writable d.
Proof.
  intros Hw. revert d. induction Hw as [|w ws Hw _ IH]; intros d; [done|].
  change (apply_ws (w :: ws) d) with (apply_ws ws (apply w d)). destruct (IH (apply w d)) as [-> ->]. by destruct w.
Qed.

Lemma within_same d d' : users d' = users d → writable d' = writable d → within past d → within past d'.
Proof. unfold within. by intros -> ->. Qed.

Lemma gateway_within d d' : gateway_steps p past d d' → within past d → within past d'.
Proof.
  induction 1 as [|d d1 d2 Hstep _ IH]; [done|]. intros Hb. apply IH. destruct Hstep; [| | |auto].
  - eapply within_same; [apply others_kept..|exact Hb]; unfold hold_writes; destruct free; by repeat constructor.
  - eapply within_same; [apply others_kept..|exact Hb]; unfold settle_writes, ledger_writes; apply Forall_app;
      (split; [|by repeat constructor]);
      destruct (funded _ _ _), pending, (0 <? charged), (charged <? previous); by repeat constructor.
  - exact Hb.
Qed.

Lemma within_empty : within past empty_db.
Proof. split; [|by intros ? ?%elem_of_empty]. intros ??? H. simpl in H. by rewrite lookup_empty in H. Qed.

(** *** Requests move forward *)

(** What a request was admitted with never changes, and once settled nor does its charge;
    an estimate can only be corrected downwards. *)
Record forward (r r' : AiRequest) : Prop := {
  fw_terms : rq_account r' = rq_account r ∧ rq_session r' = rq_session r ∧ rq_upstream r' = rq_upstream r ∧
    rq_digest r' = rq_digest r ∧ rq_reserved r' = rq_reserved r ∧ rq_created r' = rq_created r;
  fw_settled : rq_status r = StatusSettled → rq_status r' = StatusSettled ∧ rq_charged r' = rq_charged r;
  fw_left : rq_status r ≠ StatusPending → rq_status r' ≠ StatusPending;
  fw_spending : spending r' ≤ spending r;
}.

#[export] Instance forward_preorder : PreOrder forward.
Proof.
  split; [by split|]. intros x y z [(A1 & A2 & A3 & A4 & A5 & A6) B1 C1 D1] [(A1' & A2' & A3' & A4' & A5' & A6') B2 C2 D2]. split.
  - split_and!; congruence.
  - intros H. destruct (B1 H) as [H' E]. destruct (B2 H') as [H'' E']. split; congruence.
  - auto.
  - lia.
Qed.

Lemma forward_step d d' id r : books d → gateway_step p past d d' → requests d !! id = Some r → ∃ r', requests d' !! id = Some r' ∧ forward r r'.
Proof.
  intros Hb Hstep Hr. destruct Hstep as [now account free a Hcan|now account id' reserve previous charged provisional pending Hcan|account source e Hai Hn Hbal|d' Hac Hl Hc Hw].
  - exists r. split; [|done]. change (requests (held_db now account free a d) !! id = Some r).
    rewrite held_requests by done. rewrite lookup_insert_ne; [done|]. intros <-. pose proof (ch_absent p past _ _ _ _ _ Hcan). congruence.
  - change (∃ r', requests (settled_db now account id' reserve previous charged provisional pending d) !! id = Some r' ∧ forward r r').
    rewrite settled_requests by done. destruct (decide (id = id')) as [<-|Hne]; [|rewrite lookup_alter_ne by congruence; by exists r].
    rewrite lookup_alter_eq, Hr. simpl. eexists. split; [done|].
    destruct (settled_before _ _ _ _ _ _ _ _ Hb Hcan) as (r0 & Hr0 & Ha & Hre & Hpos & Hsp & Hpe & Hest & _).
    rewrite Hr in Hr0. injection Hr0 as <-. pose proof (cs_charged _ _ _ _ _ _ _ _ Hcan).
    destruct Hcan as [(r1 & Hr1 & _ & _ & _ & _ & Hns & _) _ _]. rewrite Hr in Hr1. injection Hr1 as <-. split.
    + done.
    + done.
    + intros _. by destruct provisional.
    + change (charged ≤ spending r). rewrite Hsp. destruct pending; [|destruct (Hest eq_refl)]; lia.
  - by exists r.
  - specialize (Hc id). rewrite Hr in Hc. destruct (requests d' !! id) as [r'|]; [|done]. exists r'. split; [done|].
    apply (inj Some) in Hc. destruct (core_fields _ _ Hc) as (Ha & Hse & Hre & Hch & Hst & Hcr & Hsp & _).
    destruct (core_terms _ _ Hc) as [Hu Hdi]. split; [done|by rewrite Hst, Hch|by rewrite Hst|lia].
Qed.

Lemma gateway_forward d d' id r :
  books d → gateway_steps p past d d' → requests d !! id = Some r → ∃ r', requests d' !! id = Some r' ∧ forward r r'.
Proof.
  intros Hb Hs. revert r Hb. induction Hs as [|d d1 d2 Hstep Hs IH]; intros r Hb Hr; [by exists r|].
  destruct (forward_step _ _ _ _ Hb Hstep Hr) as (r1 & Hr1 & H1).
  destruct (IH r1) as (r2 & Hr2 & H2); [|done|].
  - eapply gateway_books; [|exact Hb]. by apply rtc_once.
  - exists r2. split; [done|by etrans].
Qed.
End policy.
