(* ===== verification/CreditsLocks.v ===== *)
(** * The credits gateway: what locks keep

    The writes of a transaction are complete moves of [gateway_step] under the locks
    it holds ([runs]).  They stay that while others move ([runs_stable]), and
    committing them is a move that keeps what every other holder counts on
    ([runs_guaranteed]). *)

From stdpp Require Import base gmap strings list relations.
From Stdlib Require Import ZArith Ascii Lia.
From S2P Require Import Prelude Text Nostr Effect Postgres Credits CreditsSpec CreditsBooks.

Local Open Scope Z_scope.
Local Open Scope list_scope.

#[local] Opaque ai_source is_ai core.

Lemma core_charge r r' status charged now :
  core r = core r' → core (charge_row status charged now r) = core (charge_row status charged now r').
Proof.
  intros Hc. destruct (core_fields _ _ Hc) as (? & ? & ? & ? & ? & ? & _). destruct (core_terms _ _ Hc) as [? ?].
  Transparent core. unfold core, charge_row. simpl. congruence.
Qed.
#[local] Opaque core.

Lemma core_observe generation observed r : core (observe_row generation observed r) = core r.
Proof. done. Qed.

Lemma core_retry next attempts r : core (retry_row next attempts r) = core r.
Proof. done. Qed.

Section locks.
Context (p : GatewayPolicy) (past : Past).
Abbreviation stable := (stable p).
Abbreviation can_hold := (can_hold p past).
Abbreviation gateway_steps := (gateway_steps p past).

(** ** One write *)

(** The locks under which a write commutes with what others do. *)
Definition covers (L : list Lock) (w : Write) : Prop :=
  match w with
  | WSession _ _ | WRevoke _ => True
  | WRequest id _ | WCharged id _ _ _ => LRequest id ∈ L
  | WEntry a s _ => LEntry a s ∈ L
  | _ => False
  end.

(** The locks and conditions under which nobody else notices a write. *)
Definition allowed (L : list Lock) (w : Write) (v : CreditDb) : Prop :=
  match w with
  | WRequest id r =>
      LAccount (rq_account r) ∈ L ∧ LRequest id ∈ L ∧ LPending (rq_session r) ∈ L ∧
      (global_daily_cap_nanousd p ≠ None → LDailyCap ∈ L) ∧ requests v !! id = None
  | WCharged id status charged _ =>
      ∃ r, requests v !! id = Some r ∧ LAccount (rq_account r) ∈ L ∧ LRequest id ∈ L ∧ charged ≤ spending r ∧ status ≠ StatusPending
  | WEntry a s e => ledger v !! (a, s) = None ∧ LEntry a s ∈ L ∧ (LAccount a ∈ L ∨ is_ai s = false ∧ 0 ≤ le_amount e)
  | WAccount a _ | WAccountGone a => LAccount a ∈ L
  | WSession s _ | WRevoke s => LSession s ∈ L
  | _ => True
  end.

(** Nothing anybody counts on depends on more than the ledger, the cores, and the
    rows that are locked. *)
Lemma stable_calm L c d :
  (∀ a, LAccount a ∈ L → accounts d !! a = accounts c !! a) → (∀ s, LSession s ∈ L → sessions d !! s = sessions c !! s) →
  ledger d = ledger c → core_agree c d → stable L c d.
Proof.
  intros Hac Hse Hl Hc. split.
  - intros a Ha. split.
    + by apply Hac.
    + unfold balance. rewrite Hl. lia.
    + intros. by rewrite Hl.
    + intros id. specialize (Hc id). unfold mine. destruct (requests d !! id), (requests c !! id); try done.
      apply (inj Some) in Hc. simpl. destruct (core_fields _ _ Hc) as (-> & _). destruct (bool_decide _); simpl; congruence.
  - intros t _ _. apply Z.eq_le_incl, core_agree_sum; [done|]. intros id r r' (_ & _ & _ & _ & _ & -> & -> & _)%core_fields. done.
  - intros id _. apply Hc.
  - intros s id _. by rewrite (core_agree_pend s c d).
  - intros a s _. by rewrite Hl.
  - exact Hse.
Qed.

Lemma same_calm c d : ledger d = ledger c → requests d = requests c → ledger d = ledger c ∧ core_agree c d.
Proof. intros Hl Hr. split; [done|]. intros id. by rewrite Hr. Qed.

Lemma observed_calm id f c : (∀ r, core (f r) = core r) → core_agree c (set_requests (alter f id (requests c)) c).
Proof.
  intros Hf id'. simpl. destruct (decide (id' = id)) as [->|]; [|by rewrite lookup_alter_ne by congruence].
  rewrite lookup_alter_eq. destruct (requests c !! id); [|done]. simpl. by rewrite Hf.
Qed.

Lemma calm_write w c :
  match w with WRequest _ _ | WCharged _ _ _ _ | WEntry _ _ _ | WAccountGone _ => False | _ => True end →
  (∀ a, is_Some (accounts c !! a) → is_Some (accounts (apply w c) !! a)) ∧
  ledger (apply w c) = ledger c ∧ core_agree c (apply w c).
Proof.
  intros Hw. split.
  { intros a [x Hx]. destruct w; try (by exists x). simpl. rewrite lookup_insert_is_Some'. by right; exists x. }
  destruct w; try done; try (by apply same_calm); (split; [done|]).
  - apply observed_calm. intros. apply core_observe.
  - apply observed_calm. intros. apply core_retry.
Qed.

Lemma mine_insert a c id r id' :
  mine a (apply (WRequest id r) c) id' = if bool_decide (id' = id) then (if bool_decide (rq_account r = a) then Some r else None) else mine a c id'.
Proof.
  unfold mine. simpl. case_bool_decide as Hid; [subst; by rewrite lookup_insert_eq|by rewrite lookup_insert_ne by congruence].
Qed.

Lemma mine_charge a c id status charged now id' :
  mine a (apply (WCharged id status charged now) c) id' =
  if bool_decide (id' = id) then charge_row status charged now <$> mine a c id' else mine a c id'.
Proof.
  unfold mine. simpl. case_bool_decide as Hid; [subst; rewrite lookup_alter_eq|by rewrite lookup_alter_ne by congruence].
  destruct (requests c !! id) as [r|]; [|done]. simpl. by destruct (bool_decide _).
Qed.

Lemma pend_insert s c id r id' :
  pend s (apply (WRequest id r) c) id' = if bool_decide (id' = id) then bool_decide (rq_session r = s) && is_pending r else pend s c id'.
Proof. unfold pend. simpl. case_bool_decide; [subst; by rewrite lookup_insert_eq|by rewrite lookup_insert_ne by congruence]. Qed.

Lemma pend_charge s c id status charged now id' :
  status ≠ StatusPending → pend s (apply (WCharged id status charged now) c) id' = pend s c id' && negb (bool_decide (id' = id)).
Proof.
  intros Hst. unfold pend. simpl. case_bool_decide as Hid; [subst; rewrite lookup_alter_eq|by rewrite lookup_alter_ne, andb_true_r by congruence].
  rewrite andb_false_r. destruct (requests c !! id) as [r|]; [|done]. simpl. unfold is_pending. simpl.
  by rewrite (bool_decide_eq_false_2 (status = _)), andb_false_r by done.
Qed.

(** *** Nobody else notices *)

(** A write that touches neither ledger nor journal, under the locks it takes. *)
Definition calm (L : list Lock) (w : Write) : Prop :=
  match w with
  | WRequest _ _ | WCharged _ _ _ _ | WEntry _ _ _ | WAccountGone _ => False
  | WAccount a _ => LAccount a ∈ L
  | WSession s _ | WRevoke s => LSession s ∈ L
  | _ => True
  end.

Lemma calm_rows L w c :
  calm L w →
  (∀ a, LAccount a ∉ L → accounts (apply w c) !! a = accounts c !! a) ∧
  (∀ s, LSession s ∉ L → sessions (apply w c) !! s = sessions c !! s).
Proof.
  intros Hw. split.
  - intros a Ha. destruct w; try done. simpl in *. rewrite lookup_insert_ne; [done|]. by intros ->.
  - intros s Hs. destruct w; try done; simpl in *; [rewrite lookup_insert_ne|rewrite lookup_alter_ne]; [done| |done|]; by intros ->.
Qed.

Lemma calm_stable L L' w c : calm L w → (∀ l, l ∈ L → l ∉ L') → stable L' c (apply w c).
Proof.
  intros Hw Hd. destruct (calm_rows L w c Hw) as [Ha Hs].
  assert (ledger (apply w c) = ledger c ∧ core_agree c (apply w c)) as [Hl Hc] by (apply calm_write; by destruct w).
  apply stable_calm; [| |done..].
  - intros a Hin. apply Ha. intros Hin'. by apply (Hd _ Hin').
  - intros s Hin. apply Hs. intros Hin'. by apply (Hd _ Hin').
Qed.

Lemma charge_spent t id status charged now r v :
  requests v !! id = Some r → charged ≤ spending r → spent_since t (apply (WCharged id status charged now) v) ≤ spent_since t v.
Proof.
  intros Hr Hle. unfold spent_since. rewrite (requests_charge _ _ r) by done. simpl.
  change (spending (charge_row status charged now r)) with charged. destruct (t <=? rq_created r); lia.
Qed.

Lemma allowed_stable L L' w v : allowed L w v → (∀ l, l ∈ L → l ∉ L') → stable L' v (apply w v).
Proof.
  intros Ha Hd. destruct w; try (by apply (calm_stable L)); simpl in Ha.
  - destruct Ha as (H1 & H2 & H3 & H4 & Hn). split.
    + intros a Ha. split; [done|unfold balance; simpl; lia|done|]. intros id'. rewrite mine_insert. case_bool_decide as Hid; [|done]. subst.
      rewrite bool_decide_eq_false_2; [unfold mine; by rewrite Hn|]. intros <-. by apply (Hd _ H1).
    + intros t Ht Hc. by destruct (Hd _ (H4 Hc)).
    + intros id' Hid. simpl. rewrite lookup_insert_ne; [done|]. intros <-. by apply (Hd _ H2).
    + intros s id' Hs. rewrite pend_insert. case_bool_decide; [|done]. intros [Hp _]%andb_prop. apply bool_decide_eq_true in Hp. subst.
      by destruct (Hd _ H3).
    + done.
    + done.
  - destruct Ha as (r & Hr & H1 & H2 & Hle & Hst). split.
    + intros a Ha. split; [done|unfold balance; simpl; lia|done|]. intros id'. rewrite mine_charge. case_bool_decide as Hid; [|done]. subst.
      unfold mine. rewrite Hr. simpl. rewrite bool_decide_eq_false_2; [done|]. intros <-. by apply (Hd _ H1).
    + intros t Ht Hc. by eapply charge_spent.
    + intros id' Hid. simpl. rewrite lookup_alter_ne; [done|]. intros <-. by apply (Hd _ H2).
    + intros s id' Hs. rewrite pend_charge by done. by intros [Hp _]%andb_prop.
    + done.
    + done.
  - destruct Ha as (Hn & H1 & H2). split.
    + intros a Ha. split; [done| |intros what id; simpl|done].
      * rewrite balance_entry by done. case_bool_decide; [|lia]. subst. destruct H2 as [H2|[_ H2]]; [by destruct (Hd _ H2)|lia].
      * rewrite lookup_insert_ne; [done|]. intros [= -> ->]. destruct H2 as [H2|[H2 _]]; [by destruct (Hd _ H2)|].
        by rewrite ai_source_is_ai in H2.
    + intros t _ _. unfold spent_since. simpl. lia.
    + done.
    + done.
    + intros a s Hs. simpl. rewrite lookup_insert_ne; [done|]. intros [= -> ->]. by apply (Hd _ H1).
    + done.
  - split; [|intros t _ _; unfold spent_since; simpl; lia|done..].
    intros a Hl. split; [|unfold balance; simpl; lia|done..]. simpl. rewrite lookup_delete_ne; [done|]. intros ->. by destruct (Hd _ Ha).
Qed.

(** *** What a holder counts on survives his own writes *)

Lemma stable_apply L w c d : covers L w → stable L c d → stable L (apply w c) (apply w d).
Proof.
  intros Hw [A B C D E F]. destruct w; try done; simpl in Hw.
  - split; [intros a Ha; destruct (A a Ha) as [A0 A1 A2 A3]; by split|done..|].
    intros s' Hs. simpl. rewrite !lookup_insert. case_decide; auto.
  - split; [intros a Ha; destruct (A a Ha) as [A0 A1 A2 A3]; by split|done..|].
    intros s' Hs. simpl. destruct (decide (s' = id)) as [->|]; [by rewrite !lookup_alter_eq, F|].
    rewrite !lookup_alter_ne by congruence. auto.
  - pose proof (C _ Hw) as Hc. split.
    + intros a Ha. destruct (A a Ha) as [A0 A1 A2 A3]. split; [done..|]. intros id'. rewrite !mine_insert. by case_bool_decide.
    + intros t Ht Hcap. specialize (B t Ht Hcap). unfold spent_since in *. simpl.
      destruct (requests d !! id) as [rd|] eqn:Hd, (requests c !! id) as [rc|] eqn:Hc'; try done.
      * apply (inj Some) in Hc. destruct (core_fields _ _ Hc) as (_ & _ & _ & _ & _ & Hcr & Hsp & _).
        rewrite (zsum_replace _ _ _ rd), (zsum_replace _ (requests c) _ rc) by done. rewrite Hcr, Hsp. lia.
      * rewrite !zsum_insert by done. lia.
    + intros id' Hid. simpl. destruct (decide (id' = id)) as [->|]; [by rewrite !lookup_insert_eq|].
      rewrite !lookup_insert_ne by congruence. auto.
    + intros s id' Hs. rewrite !pend_insert. case_bool_decide; auto.
    + done.
    + done.
  - pose proof (C _ Hw) as Hc. split.
    + intros a Ha. destruct (A a Ha) as [A0 A1 A2 A3]. split; [done..|]. intros id'. rewrite !mine_charge. specialize (A3 id').
      case_bool_decide; [|done]. destruct (mine a d id'), (mine a c id'); try done. apply (inj Some) in A3. simpl. f_equal. by apply core_charge.
    + intros t Ht Hcap. specialize (B t Ht Hcap). unfold spent_since in *. simpl.
      destruct (requests d !! id) as [rd|] eqn:Hd, (requests c !! id) as [rc|] eqn:Hc'; try done.
      * apply (inj Some) in Hc. destruct (core_fields _ _ Hc) as (_ & _ & _ & _ & _ & Hcr & Hsp & _).
        rewrite (zsum_alter _ _ _ rd), (zsum_alter _ (requests c) _ rc) by done. simpl.
        change (spending (charge_row status charged now rd)) with (spending (charge_row status charged now rc)). rewrite Hcr, Hsp. lia.
      * assert (∀ (m : gmap Uuid AiRequest), m !! id = None → alter (charge_row status charged now) id m = m) as Hid.
        { intros m Hm. apply map_eq. intros j. destruct (decide (j = id)) as [->|]; [by rewrite lookup_alter_eq, Hm|by rewrite lookup_alter_ne by congruence]. }
        by rewrite !Hid.
    + intros id' Hid. simpl. specialize (C id' Hid). destruct (decide (id' = id)) as [->|]; [|by rewrite !lookup_alter_ne by congruence].
      rewrite !lookup_alter_eq. destruct (requests d !! id), (requests c !! id); try done. apply (inj Some) in C. simpl. f_equal. by apply core_charge.
    + intros s id' Hs. specialize (D s id' Hs). unfold pend in *. simpl. destruct (decide (id' = id)) as [->|]; [|by rewrite !lookup_alter_ne by congruence].
      rewrite !lookup_alter_eq. destruct (requests d !! id), (requests c !! id); try done. apply (inj Some) in Hc. simpl.
      destruct (core_fields _ _ Hc) as (_ & -> & _). done.
    + done.
    + done.
  - pose proof (E _ _ Hw) as He. split.
    + intros a Ha. destruct (A a Ha) as [A0 A1 A2 A3]. split; [done| |intros what id; simpl|done].
      * unfold balance in *. simpl. destruct (ledger c !! (account, source)) as [x|] eqn:Hx.
        -- rewrite (zsum_replace _ (ledger c) _ x), (zsum_replace _ (ledger d) _ x) by congruence. lia.
        -- rewrite !zsum_insert by congruence. lia.
      * destruct (decide ((account, source) = (a, ai_source what id))) as [<-|Hne]; [by rewrite !lookup_insert_eq|by rewrite !lookup_insert_ne].
    + done.
    + done.
    + done.
    + intros a s Hs. simpl. destruct (decide ((account, source) = (a, s))) as [<-|Hne]; [by rewrite !lookup_insert_eq|].
      rewrite !lookup_insert_ne by done. auto.
    + done.
Qed.

Lemma stable_apply_ws L ws c d : Forall (covers L) ws → stable L c d → stable L (apply_ws ws c) (apply_ws ws d).
Proof.
  intros Hw. revert c d. induction Hw as [|w ws Hw _ IH]; intros c d Hs; [done|]. apply IH. by apply stable_apply.
Qed.

(** ** Complete moves under locks *)

Definition entry_locked (L : list Lock) (w : Write) : Prop :=
  match w with WEntry a s _ => LEntry a s ∈ L | _ => True end.

Inductive group (L : list Lock) (v : CreditDb) : list Write → Prop :=
  | group_hold now account free a :
      can_hold now account free a v →
      LAccount account ∈ L → LSession (aa_session a) ∈ L → LRequest (aa_request a) ∈ L → LPending (aa_session a) ∈ L →
      (global_daily_cap_nanousd p ≠ None → LDailyCap ∈ L) → Forall (entry_locked L) (hold_writes now account free a) →
      group L v (hold_writes now account free a)
  | group_settle now account id reserve previous charged provisional pending is_funded :
      can_settle account id reserve previous charged provisional pending v → is_funded = funded account id v →
      LAccount account ∈ L → LRequest id ∈ L →
      Forall (entry_locked L) (settle_writes now account id reserve previous charged provisional pending is_funded) →
      group L v (settle_writes now account id reserve previous charged provisional pending is_funded)
  | group_entry account source e :
      is_ai source = false → ledger v !! (account, source) = None → 0 ≤ balance account v + le_amount e →
      LAccount account ∈ L → LEntry account source ∈ L → group L v [WEntry account source e]
  | group_session w :
      match w with WSession s _ | WRevoke s => LSession s ∈ L | _ => False end → group L v [w].

Inductive runs (L : list Lock) : list Write → CreditDb → Prop :=
  | runs_nil d : runs L [] d
  | runs_snoc ws g d : runs L ws d → group L (apply_ws ws d) g → runs L (ws ++ g) d.

Lemma apply_ws_app ws ws' d : apply_ws (ws ++ ws') d = apply_ws ws' (apply_ws ws d).
Proof. apply apply_all_app. Qed.

Lemma group_step L v g : group L v g → gateway_steps v (apply_ws g v).
Proof.
  intros []; apply rtc_once; [by apply step_hold|subst; by apply step_settle|by apply step_entry|].
  destruct w; try done; (apply step_calm; [auto|done..|by apply within_same]).
Qed.

Lemma group_covers L v g : group L v g → Forall (covers L) g.
Proof.
  intros [now account free a Hc H1 HS H2 H3 H4 He|now account id reserve previous charged provisional pending is_funded Hc Hf H1 H2 He|account source e Hai Hn Hb H1 H2|w Hw].
  - unfold hold_writes in *. apply Forall_cons in He as [_ He]. constructor; [done|]. destruct free; [done|]. by repeat constructor; inversion He.
  - unfold settle_writes in *. apply Forall_app in He as [He _]. apply Forall_app. split; [|by repeat constructor].
    destruct is_funded; [|done]. unfold ledger_writes in *.
    destruct pending, (0 <? charged), (charged <? previous); try done; rewrite ?Forall_cons in *; naive_solver.
  - by repeat constructor.
  - repeat constructor. by destruct w.
Qed.

Lemma mono_entries L L' g : L ⊆ L' → Forall (entry_locked L) g → Forall (entry_locked L') g.
Proof. intros Hs He. eapply Forall_impl; [exact He|]. intros []; simpl; auto. Qed.

Lemma group_mono L L' v g : L ⊆ L' → group L v g → group L' v g.
Proof.
  intros Hs []; try (econstructor; eauto using mono_entries; done).
  apply group_session. by destruct w; try done; apply Hs.
Qed.

Lemma runs_mono L L' ws d : L ⊆ L' → runs L ws d → runs L' ws d.
Proof. intros Hs. induction 1; econstructor; eauto using group_mono. Qed.

Lemma runs_steps L ws d : runs L ws d → gateway_steps d (apply_ws ws d).
Proof. induction 1 as [d|ws g d _ IH Hg]; [constructor|]. rewrite apply_ws_app. etrans; [exact IH|by eapply group_step]. Qed.

Lemma runs_covers L ws d : runs L ws d → Forall (covers L) ws.
Proof. induction 1 as [d|ws g d _ IH Hg]; [constructor|]. apply Forall_app. split; [done|by eapply group_covers]. Qed.

(** *** They stay complete moves *)

Lemma stable_pending_of L a c d : LAccount a ∈ L → stable L c d → pending_of a d = pending_of a c.
Proof.
  intros Ha Hs. destruct (st_account _ _ _ _ Hs a Ha) as [_ _ _ Hm]. apply zsum_agree. intros id. specialize (Hm id). unfold mine in Hm.
  destruct (requests d !! id) as [rd|], (requests c !! id) as [rc|]; simpl in *; try done.
  - do 2 case_bool_decide; try done. apply (inj Some) in Hm. by destruct (core_fields _ _ Hm) as (_ & _ & _ & _ & _ & _ & _ & ->).
  - by case_bool_decide.
  - by case_bool_decide.
Qed.

Lemma stable_absent L id c d : LRequest id ∈ L → stable L c d → requests c !! id = None → requests d !! id = None.
Proof. intros Hi Hs Hn. pose proof (st_request _ _ _ _ Hs id Hi) as H. rewrite Hn in H. by destruct (requests d !! id). Qed.

Lemma stable_row L id c d r :
  LRequest id ∈ L → stable L c d → requests c !! id = Some r → ∃ r', requests d !! id = Some r' ∧ core r' = core r.
Proof.
  intros Hi Hs Hr. pose proof (st_request _ _ _ _ Hs id Hi) as H. rewrite Hr in H. destruct (requests d !! id) as [r'|]; [|done].
  apply (inj Some) in H. eauto.
Qed.

Lemma stable_funded L a id c d : LAccount a ∈ L → stable L c d → funded a id d = funded a id c.
Proof. intros Ha Hs. unfold funded. by rewrite (st_entries _ _ _ (st_account _ _ _ _ Hs a Ha)). Qed.

Lemma can_settle_stable L account id reserve previous charged provisional pending c d :
  LRequest id ∈ L → stable L c d → can_settle account id reserve previous charged provisional pending c →
  can_settle account id reserve previous charged provisional pending d.
Proof.
  intros Hi Hs [(r & Hr & H1 & H2 & H3 & H4 & H5 & H6) Hc Hp]. split; [|done..].
  destruct (stable_row _ _ _ _ _ Hi Hs Hr) as (r' & Hr' & Hc'). exists r'.
  destruct (core_fields _ _ Hc') as (-> & _ & -> & -> & -> & _ & _ & ->). done.
Qed.

Lemma entitled_stable L now account ac a c d :
  LAccount account ∈ L → LSession (aa_session a) ∈ L → stable L c d → entitled now account ac a c → entitled now account ac a d.
Proof.
  intros Ha Hse Hs [H1 H2 H3]. split; [|by rewrite (st_row _ _ _ (st_account _ _ _ _ Hs _ Ha))|done].
  by rewrite (st_session _ _ _ _ Hs _ Hse).
Qed.

Lemma can_hold_stable L now account free a c d :
  LAccount account ∈ L → LSession (aa_session a) ∈ L → LRequest (aa_request a) ∈ L → LPending (aa_session a) ∈ L →
  (global_daily_cap_nanousd p ≠ None → LDailyCap ∈ L) → Forall (entry_locked L) (hold_writes now account free a) →
  stable L c d → can_hold now account free a c → can_hold now account free a d.
Proof.
  intros H1 HS H2 H3 H4 He Hs [C1 C0 C2 C3 C4 C5 C6 C7]. destruct (st_account _ _ _ _ Hs _ H1) as [A0 A1 A2 A3]. split.
  - done.
  - destruct C0 as (ac & Hen & Hrest). exists ac. split; [by eapply entitled_stable|done].
  - by eapply stable_absent.
  - intros id. specialize (C3 id). destruct (pend _ d id) eqn:Hp; [|done]. apply (st_pending _ _ _ _ Hs _ _ H3) in Hp. congruence.
  - by rewrite (stable_pending_of L account c d).
  - unfold within_cap in *. destruct (global_daily_cap_nanousd p) eqn:Hcap; [|done].
    pose proof (st_cap _ _ _ _ Hs (day_start now) (H4 ltac:(done)) ltac:(congruence)). unfold i64_saturating_add in *. lia.
  - intros Hf. specialize (C6 Hf). lia.
  - intros Hf. rewrite A2. auto.
Qed.

Lemma group_stable L g c d : group L c g → stable L c d → group L d g.
Proof.
  intros Hg Hs.
  destruct Hg as [now account free a Hc H1 HS H2 H3 H4 He|now account id reserve previous charged provisional pending is_funded Hc Hf H1 H2 He|account source e Hai Hn Hb H1 H2|w Hw].
  - apply group_hold; [by eapply can_hold_stable|done..].
  - apply group_settle; [by eapply can_settle_stable| |done..]. by rewrite (stable_funded L account id c d).
  - apply group_entry; try done.
    + by rewrite (st_entry _ _ _ _ Hs).
    + pose proof (st_balance _ _ _ (st_account _ _ _ _ Hs _ H1)). lia.
  - by apply group_session.
Qed.

Lemma runs_stable L ws c d : runs L ws c → stable L c d → runs L ws d ∧ stable L (apply_ws ws c) (apply_ws ws d).
Proof.
  intros Hr Hs. split; [|apply stable_apply_ws; [by eapply runs_covers|done]].
  revert d Hs. induction Hr as [c|ws g c Hr IH Hg]; intros d Hs; [constructor|]. constructor; [by apply IH|].
  eapply group_stable; [done|]. apply stable_apply_ws; [by eapply runs_covers|done].
Qed.

(** *** Committing them *)

Fixpoint allowed_all (L : list Lock) (ws : list Write) (v : CreditDb) : Prop :=
  match ws with [] => True | w :: ws => allowed L w v ∧ allowed_all L ws (apply w v) end.

Lemma allowed_all_stable L L' ws v : allowed_all L ws v → (∀ l, l ∈ L → l ∉ L') → stable L' v (apply_ws ws v).
Proof.
  intros Ha Hd. revert v Ha. induction ws as [|w ws IH]; intros v; [done|]. intros [Hw Ha].
  etrans; [by eapply allowed_stable|by apply IH].
Qed.

Lemma allowed_all_app L ws ws' v : allowed_all L (ws ++ ws') v ↔ allowed_all L ws v ∧ allowed_all L ws' (apply_ws ws v).
Proof. revert v. induction ws as [|w ws IH]; intros v; simpl; [naive_solver|]. rewrite IH. naive_solver. Qed.

Lemma settle_allowed L v now account id reserve previous charged provisional pending is_funded :
  books p v → can_settle account id reserve previous charged provisional pending v → is_funded = funded account id v →
  LAccount account ∈ L → LRequest id ∈ L →
  Forall (entry_locked L) (settle_writes now account id reserve previous charged provisional pending is_funded) →
  allowed_all L (settle_writes now account id reserve previous charged provisional pending is_funded) v.
Proof.
  intros Hb Hc -> H1 H2 He. destruct (settled_before _ _ _ _ _ _ _ _ _ Hb Hc) as (r & Hr & Ha & Hre & Hpos & Hsp & _ & Hest & _ & Hes).
  pose proof (cs_charged _ _ _ _ _ _ _ _ Hc) as Hch. unfold settle_writes in *. apply Forall_app in He as [He _].
  apply allowed_all_app. split.
  - destruct (funded account id v); [|done]. specialize (Hes eq_refl). unfold ledger_writes in *. destruct pending.
    + injection Hes as _ Hrel Hus _. apply Forall_cons in He as [He1 He]. split; [split_and!; [by apply entry_amount_None|done|by left]|].
      destruct (0 <? charged); [|done]. apply Forall_cons in He as [He2 _].
      split; [|done]. split_and!; [|done|by left]. apply entry_amount_None. rewrite entry_amount_other; [done|]. apply ai_key_ne; [done..|]. by right; left.
    + injection Hes as _ _ _ Hco. destruct (charged <? previous); [|done]. apply Forall_cons in He as [He1 _].
      split; [|done]. split_and!; [by apply entry_amount_None|done|by left].
  - split; [|done]. exists r. split_and!.
    + change (apply_ws _ v) with (settled_ledger account id reserve previous charged pending v). by rewrite settled_ledger_requests.
    + by rewrite Ha.
    + done.
    + rewrite Hsp. destruct pending; [|destruct (Hest eq_refl)]; lia.
    + by destruct provisional.
Qed.

Lemma group_allowed L v g : books p v → group L v g → allowed_all L g v.
Proof.
  intros Hb [now account free a Hc H1 HS H2 H3 H4 He|now account id reserve previous charged provisional pending is_funded Hc Hf H1 H2 He|account source e Hai Hn Hbal H1 H2|w Hw].
  - unfold hold_writes in *. apply Forall_cons in He as [_ He]. split; [split_and!; try done; by apply Hc|].
    destruct free; [done|]. apply Forall_cons in He as [He _]. split; [|done]. split_and!; [by apply Hc|done|by left].
  - by apply settle_allowed.
  - split; [|done]. split_and!; [done|done|by left].
  - by destruct w.
Qed.

Lemma runs_allowed L ws d : books p d → runs L ws d → allowed_all L ws d.
Proof.
  intros Hb. induction 1 as [d|ws g d Hr IH Hg]; [done|]. apply allowed_all_app. split; [by apply IH|].
  apply group_allowed; [|done]. eapply gateway_books; [by eapply runs_steps|done].
Qed.

Lemma runs_guaranteed L ws c : books p c → runs L ws c → guaranteed gateway_steps stable L c (apply_ws ws c).
Proof. intros Hb Hr. split; [by eapply runs_steps|]. intros L' Hd. by eapply allowed_all_stable, Hd; apply runs_allowed. Qed.
End locks.
