(* ===== verification/CreditsCalls.v ===== *)
(** * The credits gateway: each call among all the others

    Any number of calls ([Call]) of any number of relays run at once on one database,
    while purchases are credited, accounts and agents change, and connections are
    lost ([gateway]).  What a transaction may assert between two of its statements is
    what its own moves led to ([ready]), and its locks keep that; every call is
    verified on its own ([program_spec]). *)

From stdpp Require Import base gmap strings list sorting relations.
From Stdlib Require Import ZArith Ascii Lia.
From S2P Require Import Prelude Text Nostr Effect Postgres Credits CreditsSpec CreditsBooks CreditsLocks.

Local Open Scope Z_scope.
Local Open Scope list_scope.

#[local] Opaque ai_source is_ai core.

(** ** The calls *)

(** The source of a debit is not one of the gateway's own. *)
Definition DebitSource : Type := { source : string | is_ai source = false }.

Inductive Call :=
  | CallCreateSession (owner : PublicKey) (community : CommunityId) (agent : PublicKey)
  | CallIsFree (owner : PublicKey)
  | CallRevoke (owner : PublicKey) (session : Uuid)
  | CallAdmit (a : AdmitArgs)
  | CallReject (id : Uuid)
  | CallObserve (id : Uuid) (generation : string) (charged : option Z) (usage_is_object : bool)
  | CallSettle (id : Uuid) (charged : Z) (provisional : bool)
  | CallClaim
  | CallRecoveryRequest (id : Uuid)
  | CallDebit (account : Uuid) (source : DebitSource) (amount : Z) (description : string) (metadata_is_object : bool)
  | CallSettleRequest (id : Uuid) (reserve : Z)
  | CallRecover (fingerprint : option string) (record : RecoveryRequest)
  | CallReconcile (fingerprint : string) (id : Uuid) (generation : string).

Inductive Out :=
  | OutSession (r : result DbError Uuid)
  | OutFree (r : result DbError bool)
  | OutUnit (r : result DbError unit)
  | OutAdmission (r : result DbError Admission)
  | OutClaimed (r : result DbError (list RecoveryRequest))
  | OutRecord (r : result DbError RecoveryRequest)
  | OutDebit (r : result DbError CreditDebitOutcome)
  | OutCharged (r : result Outcome Z)
  | OutReconciled (r : result ReconcileError Z).

Definition returns {A} (f : A → Out) (q : cprog A) : cprog Out := eff_bind q (λ a, Pure (f a)).

(** The calls that run, and what the database has seen of them. *)
Abbreviation GatewayMachine := (Machine (SqlOp Stmt GatewayOp) (SqlReply answer gateway_answer) Call Out (SqlEntry Write Lock)).

Section calls.
Context (p : GatewayPolicy) (past : Past).

Definition program (c : Call) : cprog Out :=
  match c with
  | CallCreateSession owner community agent => returns OutSession (create_credit_ai_session p owner community agent)
  | CallIsFree owner => returns OutFree (credit_ai_account_is_free p owner)
  | CallRevoke owner session => returns OutUnit (revoke_credit_ai_session owner session)
  | CallAdmit a => returns OutAdmission (admit_credit_ai_request p a)
  | CallReject id => returns OutUnit (reject_credit_ai_request id)
  | CallObserve id generation charged usage => returns OutUnit (observe_credit_ai_usage id generation charged usage)
  | CallSettle id charged provisional => returns OutUnit (settle_credit_ai_request id charged provisional)
  | CallClaim => returns OutClaimed claim_credit_ai_recovery
  | CallRecoveryRequest id => returns OutRecord (credit_ai_recovery_request id)
  | CallDebit account source amount description metadata =>
      returns OutDebit (record_account_credit_debit account (`source) amount description metadata)
  | CallSettleRequest id reserve => returns OutCharged (settle_request id reserve)
  | CallRecover fingerprint record => returns OutUnit (recover_record fingerprint record)
  | CallReconcile fingerprint id generation => returns OutReconciled (reconcile fingerprint id generation)
  end.

(** What the rest of the system writes: purchases and other credits, which are
    positive and never under a source of the gateway; accounts, which are deleted only
    if nothing refers to them; agents; which communities may be written. *)
Definition extern (c : CreditDb) (w : Write) (ls : list Lock) : Prop :=
  match w with
  | WEntry a s e => is_ai s = false ∧ ledger c !! (a, s) = None ∧ 0 ≤ le_amount e ∧ ls = [LEntry a s]
  | WAccount id _ => ls = [LAccount id]
  | WAccountGone id =>
      ls = [LAccount id] ∧ (∀ s x, sessions c !! s = Some x → as_account x ≠ id) ∧
      (∀ r x, requests c !! r = Some x → rq_account x ≠ id) ∧ (∀ s, ledger c !! (id, s) = None)
  | WUser _ _ _ | WWritable _ _ => ls = []
  | _ => False
  end.

Abbreviation History := (list (SqlEntry Write Lock)).

Definition gateway : GatewayMachine → Prop :=
  machine_reachable (sql_react apply exec empty_db (outer:=gateway_answer)) (sql_outside apply empty_db extern) program.

(** The tables after a history. *)
Definition tables (h : History) : CreditDb := committed (store_of apply empty_db h).

(** ** Between two statements *)

Abbreviation steps := (gateway_steps p past).
Abbreviation good := (good apply empty_db steps (stable p)).
Abbreviation triple := (triple fst (sql_react apply exec empty_db (outer:=gateway_answer)) good (λ _ : History, True)).
Abbreviation held := (held apply empty_db).
Abbreviation closed := (closed apply empty_db).
Abbreviation extended := (Postgres.extended (Wr:=Write) (Lk:=Lock)).

#[local] Instance calls_preorder : PreOrder steps := gateway_steps_preorder p past.

Lemma reachable_books c : steps empty_db c → books p c.
Proof. intros Hs. eapply gateway_books; [exact Hs|apply books_empty]. Qed.

Lemma reachable_within c : steps empty_db c → within past c.
Proof. intros Hs. eapply gateway_within; [exact Hs|apply within_empty]. Qed.

Lemma good_reachable h : good h → steps empty_db (tables h).
Proof. intros Hg. unfold tables. by eapply good_steps; [exact _..|]. Qed.

Lemma good_within h : good h → within past (tables h).
Proof. intros Hg. by apply reachable_within, good_reachable. Qed.

Lemma good_books h : good h → books p (tables h).
Proof. intros Hg. by apply reachable_books, good_reachable. Qed.

(** An assertion about what a transaction sees, which the locks [L] keep. *)
Definition view_kept (L : list Lock) (F : CreditDb → Prop) : Prop := ∀ v v', stable p L v v' → F v → F v'.

(** More locks keep no less. *)
Lemma view_kept_mono L L' F : L ⊆ L' → view_kept L F → view_kept L' F.
Proof.
  intros Hl HF v v' [A B C D E G] Hv. apply (HF v v'); [|done]. split; intros; [apply A|apply B|apply C|eapply D|apply E|apply G]; auto.
Qed.

(** Transaction [x] has made the complete moves [ws], which led to [F], and maybe
    written more. *)
Definition inside (i : nat) (x : Txn Write Lock) (ws : list Write) (F : CreditDb → Prop) : History → Prop :=
  held i x (λ c, runs p past (x_locks x) ws c ∧ F (apply_ws ws c)).

Definition ready (i : nat) (x : Txn Write Lock) (F : CreditDb → Prop) : History → Prop := inside i x (x_writes x) F.

Lemma inside_kept L ws F : view_kept L F → kept empty_db steps (stable p) L (λ c, runs p past L ws c ∧ F (apply_ws ws c)).
Proof.
  intros HF c c' _ _ Hs [Hr Hv]. destruct (runs_stable p past L ws c c' Hr Hs) as [Hr' Hs']. split; [done|by eapply HF].
Qed.

Lemma inside_mono i x ws F G h :
  inside i x ws F h → (∀ v, F v → G v) → inside i x ws G h.
Proof. intros [?|[? []]] HG; [by left|right]; eauto. Qed.

(** *** Rules *)

(** Membership and inclusion of the locks held. *)
Ltac locks :=
  simpl;
  lazymatch goal with
  | |- _ ⊆ _ => intros ? ?; locks
  | |- _ ∈ _ =>
      repeat first
        [ assumption | match goal with H : _ ⊆ ?L |- _ ∈ ?L => apply H end
        | apply elem_of_cons; left; reflexivity | apply elem_of_cons; right; solve [locks]
        | apply elem_of_app; left; solve [locks] | apply elem_of_app; right; solve [locks] ]
  end.

Lemma triple_fail {A} i e Q h : triple i (fail e : dbprog A) (body Q) h.
Proof. done. Qed.

Lemma triple_some {A} i e (r : option A) Q h :
  (∀ a h', r = Some a → meanwhile fst good (λ _, True) i h h' → Q a h') → triple i (some_or e r) (body Q) h.
Proof. intros HQ. destruct r; [|done]. apply triple_answer. eauto. Qed.

Section rules.
Implicit Types (x : Txn Write Lock).

(** Any statement, for any assertion. *)
Lemma triple_raw i x P s (Q : answer s → History → Prop) h :
  held i x P h → kept empty_db steps (stable p) (x_locks x) P →
  (∀ o h1 a ws ls,
     h `prefix_of` h1 → good h1 → P (tables h1) → exec o (x_now x) (apply_ws (x_writes x) (tables h1)) s = Some (a, ws, ls) →
     ∃ P', kept empty_db steps (stable p) (x_locks x ++ ls) P' ∧ P' (tables h1) ∧
       ∀ h', good h' → h1 `prefix_of` h' → held i (extended x ws ls) P' h' → Q a h') →
  triple i (tx s) (body Q) h.
Proof.
  intros Hh HP Hok. eapply triple_in_tx; [exact _|exact _|exact Hh|exact HP|exact Hok].
Qed.

(** A statement in the middle of a move. *)
Lemma triple_more i x ws g F s (Q : answer s → History → Prop) h :
  inside i x ws F h → x_writes x = ws ++ g → view_kept (x_locks x) F →
  (∀ o h1 v a ws1 ls,
     h `prefix_of` h1 → good h1 → books p v → v = apply_ws ws (tables h1) → F v →
     exec o (x_now x) (apply_ws g v) s = Some (a, ws1, ls) →
     ∃ F', view_kept (x_locks x ++ ls) F' ∧ F' v ∧
       ∀ h', good h' → h1 `prefix_of` h' → inside i (extended x ws1 ls) ws F' h' → Q a h') →
  triple i (tx s) (body Q) h.
Proof.
  intros Hin Hx HF Hok. eapply triple_raw; [exact Hin|by apply inside_kept|].
  intros o h1 a ws1 ls Hp Hg [Hr Hv] Hex. rewrite Hx, apply_ws_app in Hex.
  destruct (Hok o h1 (apply_ws ws (tables h1)) a ws1 ls) as (F' & HF' & HFv & HQ); try done.
  { eapply gateway_books; [by eapply runs_steps|by apply good_books]. }
  exists (λ c, runs p past (x_locks x ++ ls) ws c ∧ F' (apply_ws ws c)). split_and!; [by apply inside_kept| |done|exact HQ].
  eapply runs_mono; [|exact Hr]. locks.
Qed.

Lemma ready_meanwhile i x F h h' :
  ready i x F h → view_kept (x_locks x) F → meanwhile fst good (λ _, True) i h h' → ready i x F h'.
Proof. intros Hr HF Hm. eapply (txn_meanwhile apply empty_db steps (stable p)); [exact Hr|by apply inside_kept|done]. Qed.

(** The statement that completes a move. *)
Lemma triple_done i x ws g F s (Q : answer s → History → Prop) h :
  inside i x ws F h → x_writes x = ws ++ g → view_kept (x_locks x) F →
  (∀ o h1 v a ws1 ls,
     h `prefix_of` h1 → good h1 → books p v → v = apply_ws ws (tables h1) → F v →
     exec o (x_now x) (apply_ws g v) s = Some (a, ws1, ls) →
     ∃ F', view_kept (x_locks x ++ ls) F' ∧ group p past (x_locks x ++ ls) v (g ++ ws1) ∧ F' (apply_ws (g ++ ws1) v) ∧
       ∀ h', good h' → h1 `prefix_of` h' → ready i (extended x ws1 ls) F' h' → Q a h') →
  triple i (tx s) (body Q) h.
Proof.
  intros Hin Hx HF Hok. eapply triple_raw; [exact Hin|by apply inside_kept|].
  intros o h1 a ws1 ls Hp Hg [Hr Hv] Hex. rewrite Hx, apply_ws_app in Hex.
  destruct (Hok o h1 (apply_ws ws (tables h1)) a ws1 ls) as (F' & HF' & Hgr & HFv & HQ); try done.
  { eapply gateway_books; [by eapply runs_steps|by apply good_books]. }
  assert (x_writes (extended x ws1 ls) = ws ++ g ++ ws1) as Hw by (simpl; by rewrite Hx, app_assoc).
  exists (λ c, runs p past (x_locks x ++ ls) (ws ++ g ++ ws1) c ∧ F' (apply_ws (ws ++ g ++ ws1) c)). split_and!; [by apply inside_kept| | |].
  - constructor; [|done]. eapply runs_mono; [|exact Hr]. locks.
  - by rewrite apply_ws_app.
  - intros h' Hg' Hp' Hh'. apply HQ; [done..|]. unfold ready, inside. by rewrite Hw.
Qed.

(** A statement that writes nothing, between moves. *)
Lemma triple_read i x F s (Q : answer s → History → Prop) h :
  ready i x F h → view_kept (x_locks x) F →
  (∀ o h1 v a ws1 ls,
     h `prefix_of` h1 → good h1 → books p v → v = apply_ws (x_writes x) (tables h1) → F v →
     exec o (x_now x) v s = Some (a, ws1, ls) →
     ws1 = [] ∧ ∃ F', view_kept (x_locks x ++ ls) F' ∧ F' v ∧
       ∀ h', good h' → h1 `prefix_of` h' → ready i (extended x [] ls) F' h' → Q a h') →
  triple i (tx s) (body Q) h.
Proof.
  intros Hin HF Hok. eapply (triple_more i x (x_writes x) []); [exact Hin|by rewrite app_nil_r|done|].
  intros o h1 v a ws1 ls Hp Hg Hb Hv HFv Hex. destruct (Hok o h1 v a ws1 ls Hp Hg Hb Hv HFv Hex) as (-> & F' & HF' & HFv' & HQ).
  exists F'. split_and!; [done..|]. intros h' Hg' Hp' Hin'. apply HQ; [done..|]. unfold ready, inside in *. simpl. by rewrite app_nil_r.
Qed.

(** The end of a call: its moves happen at once, at a moment of the call. *)
Definition done_at (i : nat) (x : Txn Write Lock) (F : CreditDb → Prop) (h0 h : History) : Prop :=
  ∃ h1, h0 `prefix_of` h1 ∧ h1 ++ [(Some i, ACommit)] `prefix_of` h ∧ good h1 ∧
    opened (store_of apply empty_db h1) !! i = Some x ∧
    runs p past (x_locks x) (x_writes x) (tables h1) ∧ F (apply_ws (x_writes x) (tables h1)).

Lemma triple_committed {B} i x F (b : B) (Q : B → History → Prop) h :
  ready i x F h → view_kept (x_locks x) F →
  (∀ h', closed i h' → good h' → done_at i x F h h' → Q b h') →
  triple i (commit Sqlx b) (body Q) h.
Proof.
  intros Hin HF Hok. apply triple_bind. eapply triple_commit; [exact _|exact _|exact Hin|by apply inside_kept| | |].
  - intros c Hc [Hr _]. apply runs_guaranteed; [by apply reachable_books|done].
  - done.
  - intros h' Hc Hg (h1 & H1 & H2 & Hg1 & Ho & [Hr HFv]) h2 Hm. apply Hok; [by eapply closed_meanwhile|apply Hm|].
    exists h1. split_and!; try done. etrans; [exact H2|by eapply meanwhile_prefix].
Qed.
End rules.

(** *** Statements that assert nothing *)

Definition session_write (L : list Lock) (w : Write) : Prop :=
  match w with WSession s _ | WRevoke s => LSession s ∈ L | _ => False end.

Lemma runs_sessions L ws ws' d : runs p past L ws d → Forall (session_write L) ws' → runs p past L (ws ++ ws') d.
Proof.
  intros Hr Hw. revert ws Hr. induction Hw as [|w ws' Hw _ IH]; intros ws Hr; [by rewrite app_nil_r|].
  change (w :: ws') with ([w] ++ ws'). rewrite app_assoc. apply IH. constructor; [done|]. by apply group_session.
Qed.

Lemma triple_assert {B} i x s (f : answer s → dbprog B) R h :
  ready i x (λ _, True) h →
  (∀ o h1 u ws ls, exec o (x_now x) (apply_ws (x_writes x) (tables h1)) s = Some (u, ws, ls) →
     Forall (session_write ls) ws ∧
     ∀ h', good h' → h `prefix_of` h' → ready i (extended x ws ls) (λ _, True) h' → triple i (f u) (body R) h') →
  triple i (try_bind (tx s) f) (body R) h.
Proof.
  intros Hin Hf. apply triple_try. eapply triple_raw; [exact Hin|by apply inside_kept|].
  intros o h1 u ws ls Hp Hg [Hr _] Hex. destruct (Hf o h1 u ws ls Hex) as [Hw Hk].
  exists (λ c, runs p past (x_locks x ++ ls) (x_writes x ++ ws) c ∧ True). split_and!; [by apply (inside_kept _ _ (λ _, True))| |done|].
  - apply runs_sessions; [eapply runs_mono; [|exact Hr]; locks|]. eapply Forall_impl; [exact Hw|].
    intros []; simpl; try done; intros ?; locks.
  - intros h' Hg' Hp' Hh'. apply Hk; [done|by etrans|exact Hh'].
Qed.

(** ** Settling *)

(** [ids] are requests of the account; and [K], of rows settling does not write. *)
Definition mines (K : CreditDb → Prop) (account : Uuid) (ids : list Uuid) (v : CreditDb) : Prop :=
  (∀ id, id ∈ ids → is_Some (mine account v id)) ∧ K v.

(** [K] is about accounts and sessions. *)
Definition of_payer (K : CreditDb → Prop) : Prop :=
  ∀ v v', accounts v' = accounts v → sessions v' = sessions v → K v → K v'.

(** The request is charged; finally, unless that is an estimate. *)
Definition settled_at (id : Uuid) (charged : Z) (provisional : bool) (v : CreditDb) : Prop :=
  ∃ r, requests v !! id = Some r ∧ rq_charged r = Some charged ∧
    if provisional then rq_status r ≠ StatusPending else rq_status r = StatusSettled.

Definition row_is (id : Uuid) (r : AiRequest) (v : CreditDb) : Prop := ∃ r', requests v !! id = Some r' ∧ core r' = core r.

Lemma mines_kept L K account ids : view_kept L K → LAccount account ∈ L → view_kept L (mines K account ids).
Proof.
  intros HK Ha v v' Hs [Hm Hv]. split; [|by eapply HK]. intros id Hid. destruct (st_account _ _ _ _ Hs _ Ha) as [_ _ _ H]. specialize (H id).
  destruct (Hm id Hid) as [r Hr]. rewrite Hr in H. by destruct (mine account v' id).
Qed.

Lemma row_is_kept L id r : LRequest id ∈ L → view_kept L (row_is id r).
Proof.
  intros Hi v v' Hs (r1 & Hr1 & Hc1). destruct (stable_row p _ _ _ _ _ Hi Hs Hr1) as (r2 & Hr2 & Hc2).
  exists r2. split; [done|congruence].
Qed.

Lemma settled_at_kept L id charged provisional : LRequest id ∈ L → view_kept L (settled_at id charged provisional).
Proof.
  intros Hi v v' Hs (r1 & Hr1 & Hc & Hst). destruct (stable_row p _ _ _ _ _ Hi Hs Hr1) as (r2 & Hr2 & Hc2).
  exists r2. destruct (core_fields _ _ Hc2) as (_ & _ & _ & -> & -> & _). done.
Qed.

Lemma funded_kept L account id f : LAccount account ∈ L → view_kept L (λ v, funded account id v = f).
Proof. intros Ha v v' Hs <-. by eapply stable_funded. Qed.

Lemma and_kept L F G : view_kept L F → view_kept L G → view_kept L (λ v, F v ∧ G v).
Proof. intros HF HG v v' Hs [? ?]. split; [by eapply HF|by eapply HG]. Qed.

Lemma settled_mines K account ids now id reserve previous charged provisional pending f v :
  requests (apply_ws (settle_writes now account id reserve previous charged provisional pending f) v) =
    alter (charge_row (final_status provisional) charged now) id (requests v) →
  of_payer K → mines K account ids v →
  mines K account ids (apply_ws (settle_writes now account id reserve previous charged provisional pending f) v).
Proof.
  intros Hr HK [Hm Hv]. split.
  2: { eapply HK; [..|exact Hv]; unfold settle_writes, ledger_writes;
         by destruct f, pending, (0 <? charged), (charged <? previous). }
  intros id' Hid. destruct (Hm id' Hid) as [r H]. unfold mine in *. rewrite Hr.
  destruct (decide (id' = id)) as [->|]; [rewrite lookup_alter_eq|rewrite lookup_alter_ne by congruence; by eexists].
  destruct (requests v !! id); [|done]. simpl in *. destruct (bool_decide _); [by eexists|done].
Qed.

(** The writing half of [settle_locked]. *)
Definition settle_write (account id : Uuid) (r : AiRequest) (charged : Z) (provisional funded : bool) : dbprog unit :=
  (let? _ :=
     (if negb funded then Pure (Ok tt)
      else if is_pending r then
        let? _ := tx (InsertEntry account Adjustment (rq_reserved r) (ai_source "release" id)) in
        if 0 <? charged then tx (InsertEntry account Usage (- charged) (ai_source "usage" id)) else Pure (Ok tt)
      else if charged <? default 0 (rq_charged r) then
        tx (InsertEntry account Refund (default 0 (rq_charged r) - charged) (ai_source "correction" id))
      else Pure (Ok tt)) in
   tx (SetCharged id (final_status provisional) charged))%sql.

Section settle.
Context (i : nat) (K : CreditDb → Prop) (account : Uuid) (ids : list Uuid) (id : Uuid) (charged : Z) (provisional : bool).
Context (HK : of_payer K) (Hid : id ∈ ids).
Implicit Types (x : Txn Write Lock).

Definition settling (r : AiRequest) (f : bool) (v : CreditDb) : Prop :=
  (mines K account ids v ∧ row_is id r v) ∧ funded account id v = f.

Lemma settling_kept L r f : view_kept L K → LAccount account ∈ L → LRequest id ∈ L → view_kept L (settling r f).
Proof. intros HL Ha Hr. apply and_kept; [apply and_kept; [by apply mines_kept|by apply row_is_kept]|by apply funded_kept]. Qed.

(** The checks [settle_locked] makes on the row it read. *)
Record chargeable (r : AiRequest) : Prop := {
  cb_account : rq_account r = account;
  cb_charged : 0 ≤ charged ≤ rq_reserved r;
  cb_provisional : provisional = true → charged = rq_reserved r;
  cb_status : rq_status r ≠ StatusSettled ∧ (provisional = true → rq_status r ≠ StatusEstimated);
}.

(** What remains of the call once it is settled. *)
Definition settled_then (x : Txn Write Lock) (Q : unit → History → Prop) (h : History) : Prop :=
  ∀ x' h', x_now x' = x_now x → x_locks x ⊆ x_locks x' → LRequest id ∈ x_locks x' → good h' → h `prefix_of` h' →
    ready i x' (λ v, mines K account ids v ∧ settled_at id charged provisional v) h' → Q tt h'.

Lemma settled_then_later x x1 Q h h1 :
  settled_then x Q h → x_now x1 = x_now x → x_locks x ⊆ x_locks x1 → h `prefix_of` h1 → settled_then x1 Q h1.
Proof. intros HQ Hn Hl Hp x' h' H1 H2 H3 H4 H5. apply HQ; [congruence|by etrans|done..|by etrans]. Qed.

Ltac locks' := first [assumption | (eapply view_kept_mono; [|eassumption]; locks) | locks].

(** One ledger row of the move. *)
Lemma triple_entry x ws g r f type amount what Q h :
  inside i x ws (settling r f) h → x_writes x = ws ++ g → view_kept (x_locks x) K → LAccount account ∈ x_locks x → LRequest id ∈ x_locks x →
  (∀ h', good h' → h `prefix_of` h' →
     let w := WEntry account (ai_source what id) {| le_type := type; le_amount := amount |} in
     inside i (extended x [w] [LEntry account (ai_source what id)]) ws (settling r f) h' → Q tt h') →
  triple i (tx (InsertEntry account type amount (ai_source what id))) (body Q) h.
Proof.
  intros Hin Hx HL Ha Hr HQ. eapply triple_more; [exact Hin|exact Hx|by apply settling_kept|].
  intros o h1 v [] ws1 ls Hp Hg Hb Hv HF Hex. simpl in Hex. destruct (_ && _); [|done]. injection Hex as <- <-.
  exists (settling r f). split_and!; [apply settling_kept; locks'|apply HF..|]. intros h' Hg' Hp' Hin'.
  apply HQ; [done|by etrans|done].
Qed.

(** The row of the journal, which completes it. *)
Lemma triple_charge x ws g r f Q h :
  inside i x ws (settling r f) h → view_kept (x_locks x) K → LAccount account ∈ x_locks x → LRequest id ∈ x_locks x →
  x_writes x = ws ++ g → Forall (entry_locked (x_locks x)) g →
  g = (if f then ledger_writes account id (rq_reserved r) (default 0 (rq_charged r)) charged (is_pending r) else []) →
  chargeable r → settled_then x Q h →
  triple i (tx (SetCharged id (final_status provisional) charged)) (body Q) h.
Proof.
  intros Hin HL Ha Hr Hx He Hgw [Hac Hch Hpr [Hns Hne]] HQ. eapply triple_done; [exact Hin|exact Hx|by apply settling_kept|].
  intros o h1 v [] ws1 ls Hp Hg Hb Hv [[Hm (r1 & Hr1 & Hc1)] Hf] Hex.
  destruct (core_fields _ _ Hc1) as (Hc1a & _ & Hc1r & Hc1c & Hc1s & _ & _ & Hc1p).
  assert (can_settle account id (rq_reserved r) (default 0 (rq_charged r)) charged provisional (is_pending r) v) as Hcan.
  { split; [|done..]. exists r1. rewrite Hc1a, Hc1r, Hc1c, Hc1s, Hc1p. done. }
  assert (requests (apply_ws g v) = requests v) as Hreq.
  { rewrite Hgw, <-Hf. apply settled_ledger_requests. }
  simpl in Hex. rewrite Hreq, Hr1, Hc1r in Hex.
  rewrite (proj2 (Z.leb_le 0 charged)), (proj2 (Z.leb_le charged _)) in Hex by lia. injection Hex as <- <-.
  assert (g ++ [WCharged id (final_status provisional) charged (x_now x)] =
          settle_writes (x_now x) account id (rq_reserved r) (default 0 (rq_charged r)) charged provisional (is_pending r) f) as Hgs.
  { unfold settle_writes. by rewrite Hgw. }
  assert (requests (apply_ws (settle_writes (x_now x) account id (rq_reserved r) (default 0 (rq_charged r)) charged provisional (is_pending r) f) v) =
          alter (charge_row (final_status provisional) charged (x_now x)) id (requests v)) as Hreq'.
  { rewrite <-Hf. apply settled_requests. }
  exists (λ v, mines K account ids v ∧ settled_at id charged provisional v). rewrite Hgs. split_and!.
  - apply and_kept; [apply mines_kept|apply settled_at_kept]; locks'.
  - apply group_settle; [done|by rewrite Hf|locks..|]. rewrite <-Hgs. apply Forall_app. split; [|by repeat constructor].
    eapply mono_entries; [|exact He]. set_solver.
  - by apply settled_mines.
  - unfold settled_at. rewrite Hreq', lookup_alter_eq, Hr1. eexists. split; [done|]. by destruct provisional.
  - intros h' Hg' Hp' Hin'. eapply HQ; [| | | |by etrans|exact Hin']; [done|locks|locks|done].
Qed.

Lemma settle_write_spec x r f Q h :
  ready i x (settling r f) h → view_kept (x_locks x) K → LAccount account ∈ x_locks x → LRequest id ∈ x_locks x →
  chargeable r → settled_then x Q h →
  triple i (settle_write account id r charged provisional f) (body Q) h.
Proof.
  intros Hin HL Ha Hr Hok HQ. unfold settle_write. apply triple_try.
  assert (∀ x1 g h', inside i x1 (x_writes x) (settling r f) h' → x_now x1 = x_now x → x_locks x ⊆ x_locks x1 → h `prefix_of` h' →
    x_writes x1 = x_writes x ++ g → Forall (entry_locked (x_locks x1)) g →
    g = (if f then ledger_writes account id (rq_reserved r) (default 0 (rq_charged r)) charged (is_pending r) else []) →
    triple i (tx (SetCharged id (final_status provisional) charged)) (body Q) h') as Hend.
  { intros x1 g h' Hi Hn Hl Hp Hw He Hg. eapply triple_charge; [exact Hi|locks'..|exact Hw|done|exact Hg|done|].
    by eapply settled_then_later. }
  assert (∀ h', meanwhile fst good (λ _, True) i h h' →
    (f = true → ledger_writes account id (rq_reserved r) (default 0 (rq_charged r)) charged (is_pending r) = []) →
    triple i (tx (SetCharged id (final_status provisional) charged)) (body Q) h') as Hnone.
  { intros h' Hm Hl. apply (Hend x []); try done.
    - by eapply ready_meanwhile; [exact Hin|apply settling_kept|].
    - by eapply meanwhile_prefix.
    - by rewrite app_nil_r.
    - destruct f; [by rewrite Hl|done]. }
  destruct f; cbn [negb]; [|apply triple_answer; intros h' Hm; by apply Hnone].
  unfold ledger_writes in *. destruct (is_pending r).
  - apply triple_try. eapply (triple_entry x _ []); [exact Hin|by rewrite app_nil_r|done..|]. intros h1 Hg1 Hp1 w1 Hin1.
    destruct (0 <? charged).
    + eapply (triple_entry _ _ [w1]); [exact Hin1|done|locks'..|]. intros h2 Hg2 Hp2 w2 Hin2.
      eapply (Hend _ [w1; w2]); [exact Hin2|done|locks|by etrans| | |done].
      * simpl. by rewrite <-app_assoc.
      * repeat constructor; locks.
    + apply triple_answer. intros h2 Hm.
      eapply (Hend _ [w1]); [eapply (txn_meanwhile apply empty_db steps (stable p)); [exact Hin1| |exact Hm]|..].
      * apply inside_kept, settling_kept; locks'.
      * done.
      * locks.
      * etrans; [exact Hp1|by eapply meanwhile_prefix].
      * done.
      * repeat constructor; locks.
      * done.
  - destruct (charged <? default 0 (rq_charged r)) eqn:Hlt; [|apply triple_answer; intros h' Hm; by apply Hnone].
    eapply (triple_entry x _ []); [exact Hin|by rewrite app_nil_r|done..|]. intros h1 Hg1 Hp1 w1 Hin1.
    eapply (Hend _ [w1]); [exact Hin1|done|locks|done|done| |done]. repeat constructor; locks.
Qed.

(** A request of the account, whose row is locked from here on: charged as asked, or
    an error. *)
Lemma settle_locked_spec x Q h :
  ready i x (mines K account ids) h → view_kept (x_locks x) K → LAccount account ∈ x_locks x → settled_then x Q h →
  triple i (settle_locked account id charged provisional) (body Q) h.
Proof using HK Hid.
  intros Hin HL Ha HQ. unfold settle_locked. apply triple_try.
  eapply triple_read; [exact Hin|by apply mines_kept|].
  intros o h1 v row ws1 ls Hp Hg Hb Hv HF Hex. simpl in Hex. injection Hex as <- <- <-. split; [done|].
  destruct (proj1 HF id Hid) as [r Hr]. unfold mine in Hr. destruct (requests v !! id) as [r0|] eqn:Hrow; [|done].
  simpl in Hr. case_bool_decide as Hac; [|done]. injection Hr as ->.
  pose proof (proj1 (bk_row _ _ Hb _ _ Hrow)) as [Hpos Hrok].
  exists (λ v, mines K account ids v ∧ row_is id r v).
  assert (view_kept (x_locks x ++ [LRequest id]) (λ v, mines K account ids v ∧ row_is id r v)) as Hkept.
  { apply and_kept; [apply mines_kept|apply row_is_kept]; locks'. }
  split_and!; [done|done|by exists r|]. intros h2 Hg2 Hp2 Hin2.
  apply triple_try, triple_some. intros r' h3 [= <-] Hm3.
  pose proof (ready_meanwhile _ _ _ _ _ Hin2 Hkept Hm3) as Hin3.
  assert (settled_then (extended x [] [LRequest id]) Q h3) as HQ3.
  { eapply settled_then_later; [exact HQ|done|locks|]. etrans; [exact Hp|]. etrans; [exact Hp2|by eapply meanwhile_prefix]. }
  clear HQ Hin2 Hm3 Hp2 Hg2.
  assert (∀ h', meanwhile fst good (λ _, True) i h3 h' → rq_charged r = Some charged →
    (if provisional then rq_status r ≠ StatusPending else rq_status r = StatusSettled) → Q tt h') as Hdone.
  { intros h' Hm' Hch Hst. apply (HQ3 (extended x [] [LRequest id])); [done|locks|locks|apply Hm'|by eapply meanwhile_prefix|].
    eapply inside_mono; [by eapply ready_meanwhile|]. intros v' [Hmi (r' & Hr' & Hc')]. split; [done|]. exists r'.
    by destruct (core_fields _ _ Hc') as (_ & _ & _ & -> & -> & _). }
  destruct (negb _ || _) eqn:Hcheck; [apply triple_fail|]. apply orb_false_iff in Hcheck as [Hc1 Hc2].
  apply negb_false_iff, andb_true_iff in Hc1 as [H1%Z.leb_le H2%Z.leb_le].
  assert (provisional = true → charged = rq_reserved r) as Hprov.
  { intros ->. simpl in Hc2. by apply negb_false_iff, Z.eqb_eq in Hc2. }
  case_bool_decide as Hset.
  { destruct (negb (default 0 (rq_charged r) =? charged)) eqn:Hprev; [apply triple_fail|]. apply negb_false_iff, Z.eqb_eq in Hprev.
    apply triple_answer. intros h' Hm'. rewrite Hset in Hrok. destruct (rq_charged r) as [c|] eqn:Hch; [|done]. simpl in Hprev. subst c.
    apply Hdone; [done..|]. destruct provisional; congruence. }
  destruct (bool_decide (rq_status r = StatusEstimated) && provisional) eqn:Hest.
  { apply andb_true_iff in Hest as [Hest%bool_decide_eq_true ->]. apply triple_answer. intros h' Hm'. rewrite Hest in Hrok.
    destruct (rq_charged r) as [c|] eqn:Hch; [|done]. subst c. apply Hdone; [done|by rewrite Hprov|congruence]. }
  apply triple_try. eapply triple_read; [exact Hin3|done|].
  intros o' h4 v' f ws1 ls Hp4 Hg4 Hb4 Hv4 HF4 Hex. simpl in Hex. injection Hex as <- <- <-. split; [done|].
  exists (settling r (funded account id v')). split_and!; [apply settling_kept; locks'|split; [done|done]|].
  intros h5 Hg5 Hp5 Hin5. change (triple i (settle_write account id r charged provisional (funded account id v')) (body Q) h5).
  eapply settle_write_spec; [exact Hin5|locks'|locks|locks| |].
  - split; [done|done|done|]. split; [done|]. intros -> Hs. by rewrite Hs in Hest.
  - eapply settled_then_later; [exact HQ3|done|locks|by etrans].
Qed.
End settle.

(** ** Whole transactions *)

Abbreviation meanwhile := (meanwhile fst good (λ _ : History, True)).

(** A transaction that begins: what it answers holds when it has, or it fails. *)
Lemma triple_tx {A} i (b : dbprog A) (Q : result DbError A → History → Prop) h :
  closed i h → (∀ e h', closed i h' → good h' → Q (Err e) h') →
  (∀ now h', good h' → h `prefix_of` h' → ready i (Build_Txn now [] []) (λ _, True) h' →
     triple i b (body (λ a h2, ∀ h3, meanwhile i h2 h3 → Q (Ok a) h3)) h') →
  triple i (with_tx Sqlx b) Q h.
Proof.
  intros Hc Hfail Hok. eapply triple_with_tx; [exact _|exact _|exact Hc|exact Hfail|]. intros now h' Hg Hp Hh. apply (Hok now); [done..|].
  destruct Hh as [?|[Ho _]]; [by left|right]. split; [done|]. split; [constructor|done].
Qed.

Lemma done_at_later i x F h0 h h' : done_at i x F h0 h → h `prefix_of` h' → done_at i x F h0 h'.
Proof. intros (h1 & H1 & H2 & H3) Hp. exists h1. split_and!; [done|by etrans|apply H3..]. Qed.

Lemma done_at_earlier i x F h0 h0' h : done_at i x F h0' h → h0 `prefix_of` h0' → done_at i x F h0 h.
Proof. intros (h1 & H1 & H2 & H3) Hp. exists h1. split_and!; [by etrans|done|apply H3..]. Qed.

(** The last statement of a transaction. *)
Lemma triple_last {B} i x F (b : B) (Q : result DbError B → History → Prop) h :
  ready i x F h → view_kept (x_locks x) F →
  (∀ h', closed i h' → good h' → done_at i x F h h' → Q (Ok b) h') →
  triple i (commit Sqlx b) (body (λ a h2, ∀ h3, meanwhile i h2 h3 → Q (Ok a) h3)) h.
Proof.
  intros Hin HF HQ. eapply triple_committed; [exact Hin|done|]. intros h2 Hc Hg Hd h3 Hm. apply HQ.
  - by eapply closed_meanwhile.
  - apply Hm.
  - eapply done_at_later; [exact Hd|by eapply meanwhile_prefix].
Qed.

Lemma row_kept id a : kept empty_db steps (stable p) [] (λ c, ∃ r, requests c !! id = Some r ∧ rq_account r = a).
Proof.
  intros c c' Hc Hs _ (r & Hr & Ha). destruct (gateway_forward _ _ _ _ _ _ (reachable_books c Hc) Hs Hr) as (r' & Hr' & Hf).
  exists r'. split; [done|]. destruct (fw_terms _ _ Hf) as (-> & _). done.
Qed.

Lemma settle_call_spec i id charged provisional (Q : result DbError unit → History → Prop) h :
  closed i h → (∀ e h', closed i h' → good h' → Q (Err e) h') →
  (∀ x h', closed i h' → good h' → done_at i x (settled_at id charged provisional) h h' → Q (Ok tt) h') →
  triple i (settle_credit_ai_request id charged provisional) Q h.
Proof.
  intros Hc Hfail HQ. apply triple_tx; [done..|]. intros now h0 Hg0 Hp0 Hin. apply triple_try.
  eapply (triple_raw i _ (λ _, True)); [by destruct Hin as [?|[? _]]; [left|right]|done|].
  intros o h1 a ws ls Hp1 Hg1 _ Hex. simpl in Hex. injection Hex as <- <- <-.
  destruct (requests (tables h1) !! id) as [r|] eqn:Hr; [|exists (λ _, True); split_and!; done].
  exists (λ c, ∃ r', requests c !! id = Some r' ∧ rq_account r' = rq_account r).
  split_and!; [apply row_kept|by exists r|]. intros h2 Hg2 Hp2 Hin2.
  apply triple_try, triple_some. intros a h3 [= <-] Hm3. apply triple_try.
  pose proof (txn_meanwhile apply empty_db steps (stable p) _ _ _ _ _ Hin2 (row_kept id (rq_account r)) Hm3) as Hin3.
  eapply triple_raw; [exact Hin3|apply row_kept|].
  intros o' h4 a ws ls Hp4 Hg4 (r4 & Hr4 & Ha4) Hex. simpl in Hex.
  rewrite bool_decide_eq_true_2 in Hex by (rewrite <-Ha4; by eapply (bk_account _ _ (good_books _ Hg4))). injection Hex as <- <- <-.
  exists (λ c, runs p past [LAccount (rq_account r)] [] c ∧ mines (λ _, True) (rq_account r) [id] (apply_ws [] c)). split_and!.
  - apply (inside_kept [LAccount (rq_account r)] []), mines_kept; [done|]. locks.
  - constructor.
  - split; [|done]. intros id' ->%list_elem_of_singleton. unfold mine. simpl. rewrite Hr4. simpl.
    rewrite Ha4, bool_decide_eq_true_2 by done. by eexists.
  - intros h5 Hg5 Hp5 Hin5. apply triple_try.
    eapply (settle_locked_spec i (λ _, True) (rq_account r) [id]); [done|locks|exact Hin5|done|locks|].
    intros x' h6 _ _ Hl Hg6 Hp6 Hin6.
    eapply (triple_last i x' (settled_at id charged provisional)); [by eapply inside_mono; [exact Hin6|intros v []]|by apply settled_at_kept|].
    intros h' Hc' Hg' Hd. eapply HQ; [done..|]. eapply done_at_earlier; [exact Hd|].
    etrans; [exact Hp0|]. etrans; [exact Hp1|]. etrans; [exact Hp2|]. etrans; [by eapply meanwhile_prefix|].
    etrans; [exact Hp4|]. by etrans.
Qed.

(** ** Admission *)

Lemma settle_expired_spec i K account ids expired x Q h :
  of_payer K → (∀ e, e ∈ expired → e.1.1 ∈ ids) → ready i x (mines K account ids) h → view_kept (x_locks x) K → LAccount account ∈ x_locks x →
  (∀ x' h', x_now x' = x_now x → x_locks x ⊆ x_locks x' → good h' → h `prefix_of` h' → ready i x' (mines K account ids) h' → Q tt h') →
  triple i (settle_expired account expired) (body Q) h.
Proof.
  intros HK. revert x h. induction expired as [|[[id maximum] observed] expired IH]; intros x h Hids Hin HL Ha HQ.
  - apply triple_answer. intros h' Hm. apply (HQ x); [done|done|apply Hm|by eapply meanwhile_prefix|].
    by eapply ready_meanwhile; [|apply mines_kept|].
  - cbn [settle_expired]. apply triple_try. eapply (settle_locked_spec i K account ids id); [done|apply (Hids _ (list_elem_of_here _ _))|exact Hin|done|done|].
    intros x1 h1 Hn Hl _ Hg1 Hp1 Hin1. apply (IH x1).
    + intros e He. apply Hids. by apply elem_of_cons; right.
    + by eapply inside_mono; [exact Hin1|intros v []].
    + eapply view_kept_mono; [|exact HL]. locks.
    + locks.
    + intros x2 h2 Hn2 Hl2 Hg2 Hp2. apply HQ; [congruence|locks|done|by etrans].
Qed.

(** The call was let in: at moments of it the community could be written, and the
    session was that of the agent, whose owner pays from the account [ac]. *)
Record authorized (now : Z) (account : Uuid) (ac : Account) (a : AdmitArgs) (h0 h1 : History) : Prop := {
  az_writable : ∃ hm, h0 `prefix_of` hm ∧ hm `prefix_of` h1 ∧ aa_community a ∈ writable (tables hm);
  az_payer : ∃ hm, h0 `prefix_of` hm ∧ hm `prefix_of` h1 ∧ entitled now account ac a (tables hm) ∧
    users (tables hm) !! (aa_community a, aa_agent a) = Some (Some (ac_pubkey ac));
}.

(** What an answer to the payer [account] says: of the tables [c] before the
    transaction and [c'] after it, and of a moment of the call. *)
Definition answer_true (account : Uuid) (free : bool) (a : AdmitArgs) (adm : Admission) (x : Txn Write Lock) (h0 h1 : History) : Prop :=
  let c := tables h1 in let c' := apply_ws (x_writes x) c in
  let moment := λ P : CreditDb → Prop, ∃ hm, h0 `prefix_of` hm ∧ hm `prefix_of` h1 ∧ P (apply_ws (x_writes x) (tables hm)) in
  match adm with
  | AdmissionNew account' =>
      account' = account ∧ requests c !! aa_request a = None ∧
      row_is (aa_request a) (new_request (x_now x) account (aa_session a) (aa_digest a) (aa_reserve a) (aa_upstream a)) c'
  | AdmissionPending =>
      ∃ r, mine account c' (aa_request a) = Some r ∧ rq_session r = aa_session a ∧ rq_digest r = aa_digest a ∧ rq_status r = StatusPending
  | AdmissionCompleted charged provisional =>
      ∃ r, mine account c' (aa_request a) = Some r ∧ rq_session r = aa_session a ∧ rq_digest r = aa_digest a ∧
        rq_charged r = Some charged ∧ rq_status r = final_status provisional
  | AdmissionBusy =>
      mine account c' (aa_request a) = None ∧
      (in_flight_limit p free ≤ pending_of account c' ∨
       ∃ id r, mine account c' id = Some r ∧ rq_session r = aa_session a ∧ rq_status r = StatusPending)
  | AdmissionInsufficient =>
      mine account c' (aa_request a) = None ∧ free = false ∧ moment (λ v, balance account v < aa_reserve a)
  | AdmissionDailyLimit =>
      mine account c' (aa_request a) = None ∧
      ∃ cap, global_daily_cap_nanousd p = Some cap ∧ moment (λ v, cap < spent_since (day_start (x_now x)) v + aa_reserve a)
  end.

(** Every answer is about the account that pays for the call, which at the commit
    still is as it was when the call was let in. *)
Definition admitted (a : AdmitArgs) (adm : Admission) (x : Txn Write Lock) (h0 h1 : History) : Prop :=
  ∃ account ac, authorized (x_now x) account ac a h0 h1 ∧ entitled (x_now x) account ac a (apply_ws (x_writes x) (tables h1)) ∧
    answer_true account (is_free p (ac_email ac)) a adm x h0 h1.

Definition admit_done (i : nat) (a : AdmitArgs) (adm : Admission) (h0 h : History) : Prop :=
  ∃ x h1, h0 `prefix_of` h1 ∧ h1 ++ [(Some i, ACommit)] `prefix_of` h ∧ good h1 ∧
    opened (store_of apply empty_db h1) !! i = Some x ∧ admitted a adm x h0 h1.

(** What [SelectPayer] found. *)
Lemma payer_entitled now a v account email :
  payer now (aa_session a) (aa_community a) (aa_agent a) v = Some (account, email) →
  ∃ ac, entitled now account ac a v ∧ ac_email ac = email ∧ users v !! (aa_community a, aa_agent a) = Some (Some (ac_pubkey ac)).
Proof.
  unfold payer. destruct (sessions v !! aa_session a) as [se|] eqn:Hse; [|done]. simpl.
  destruct (accounts v !! as_account se) as [ac|] eqn:Hac; [|done]. simpl.
  destruct (users v !! (as_community se, as_agent se)) as [owner|] eqn:Hu; [|done]. simpl.
  destruct (_ && _) eqn:Hc; [|done]. intros [= <- <-]. exists ac. rewrite !andb_true_iff in Hc.
  destruct Hc as [[[[[H1%bool_decide_eq_true H2%bool_decide_eq_true] H3%negb_true_iff] H4%Z.ltb_lt] H5] H6%bool_decide_eq_true].
  split; [|split; [done|]].
  - split; [|done|done]. by exists se.
  - by rewrite <-H1, <-H2, Hu, H6.
Qed.

Lemma entitled_kept L now account ac a :
  LAccount account ∈ L → LSession (aa_session a) ∈ L → view_kept L (entitled now account ac a).
Proof. intros Ha Hse v v' Hs. by eapply entitled_stable. Qed.

Lemma entitled_of_payer now account ac a : of_payer (entitled now account ac a).
Proof. intros v v' Ha Hs [H1 H2 H3]. split; [by rewrite Hs|by rewrite Ha|done]. Qed.

Lemma authorized_later now account ac a h0 h1 h2 : authorized now account ac a h0 h1 → h1 `prefix_of` h2 → authorized now account ac a h0 h2.
Proof.
  intros [(hw & W1 & W2 & W3) (hm & M1 & M2 & M3)] Hp. split; [exists hw|exists hm]; (split; [done|]; split; [by etrans|done]).
Qed.

Lemma absent_before L ws c id r : books p c → runs p past L ws c → WRequest id r ∈ ws → requests c !! id = None.
Proof.
  intros Hb Hr. revert Hb. induction Hr as [c|ws g c Hr IH Hg]; intros Hb; [by intros ?%elem_of_nil|].
  intros [Hw|Hw]%elem_of_app; [by apply IH|].
  destruct (requests c !! id) as [r0|] eqn:H0; [|done]. exfalso.
  destruct (gateway_forward _ _ _ _ _ _ Hb (runs_steps p past _ _ _ Hr) H0) as (r1 & H1 & _).
  destruct Hg as [now account free a Hc _ _ _ _ _|now account id' reserve previous charged provisional pending f _ _ _ _ _|account source e _ _ _ _ _|w Hw'].
  - unfold hold_writes in Hw. apply elem_of_cons in Hw as [[= -> _]|Hw]; [rewrite (ch_absent p past _ _ _ _ _ Hc) in H1; done|].
    destruct free; [by apply elem_of_nil in Hw|by apply list_elem_of_singleton in Hw].
  - unfold settle_writes, ledger_writes in Hw. destruct f, pending, (0 <? charged), (charged <? previous);
      repeat (apply elem_of_cons in Hw as [Hw|Hw]; [done|]); by apply elem_of_nil in Hw.
  - by apply list_elem_of_singleton in Hw.
  - apply list_elem_of_singleton in Hw as <-. done.
Qed.

Section admission.
Context (i : nat) (a : AdmitArgs) (Q : result DbError Admission → History → Prop) (h0 : History).
Context (HQ : ∀ adm h', closed i h' → good h' → admit_done i a adm h0 h' → Q (Ok adm) h').
Context (Hvalid : valid_reservation a = true).
(** The payer, known from the moment [hp] of the call. *)
Context (now : Z) (account : Uuid) (ac : Account) (hp : History).
Context (Hhp : h0 `prefix_of` hp) (Hauth : authorized now account ac a h0 hp).
Context (Howner : was_owner past (aa_community a) (aa_agent a) (ac_pubkey ac)) (Hwritable : was_writable past (aa_community a)).
Implicit Types (x : Txn Write Lock) (free : bool).

Definition answers : result DbError Admission → History → Prop := body (λ adm h2, ∀ h3, meanwhile i h2 h3 → Q (Ok adm) h3).

(** The transaction of the call holds the rows of the payer. *)
Record paying x : Prop := {
  py_now : x_now x = now;
  py_account : LAccount account ∈ x_locks x;
  py_session : LSession (aa_session a) ∈ x_locks x;
}.

Lemma paying_extended x ws ls : paying x → paying (extended x ws ls).
Proof. intros [H1 H2 H3]. split; [done|locks..]. Qed.

Definition with_payer (G : CreditDb → Prop) (v : CreditDb) : Prop := entitled now account ac a v ∧ G v.

Lemma with_payer_kept L G :
  LAccount account ∈ L → LSession (aa_session a) ∈ L → view_kept L G → view_kept L (with_payer G).
Proof. intros Ha Hse HG. apply and_kept; [by apply entitled_kept|done]. Qed.

(** The last commit: what the transaction knows is what the answer says. *)
Lemma admit_last x G adm h :
  ready i x (with_payer G) h → paying x → view_kept (x_locks x) G → hp `prefix_of` h →
  (∀ h1, h `prefix_of` h1 → good h1 → runs p past (x_locks x) (x_writes x) (tables h1) → G (apply_ws (x_writes x) (tables h1)) →
     answer_true account (is_free p (ac_email ac)) a adm x h0 h1) →
  triple i (commit Sqlx adm) answers h.
Proof using HQ Hhp Hauth.
  intros Hin [Hn Ha Hse] HG Hp Hadm. eapply triple_last; [exact Hin|by apply with_payer_kept|].
  intros h' Hc Hg (h1 & H1 & H2 & H3 & H4 & H5 & [H6 H7]).
  apply HQ; [done..|]. exists x, h1. split_and!; [etrans; [exact Hhp|by etrans]|done..|].
  exists account, ac. rewrite Hn. split; [eapply authorized_later; [exact Hauth|by etrans]|]. split; [done|by apply Hadm].
Qed.

(** What the checks established before the hold is placed. *)
Record checked free (v : CreditDb) : Prop := {
  ck_flight : pending_of account v < in_flight_limit p free;
  ck_cap : within_cap p now (aa_reserve a) v;
  ck_balance : free = false → aa_reserve a ≤ balance account v;
}.

Lemma checked_kept L free :
  LAccount account ∈ L → (global_daily_cap_nanousd p ≠ None → LDailyCap ∈ L) → view_kept L (checked free).
Proof.
  intros Ha Hc v v' Hs [H1 H2 H3]. destruct (st_account _ _ _ _ Hs _ Ha) as [_ Hb _ _]. split.
  - by rewrite (stable_pending_of p L account v v').
  - unfold within_cap in *. destruct (global_daily_cap_nanousd p) eqn:Hcap; [|done].
    pose proof (st_cap _ _ _ _ Hs (day_start now) (Hc ltac:(done)) ltac:(congruence)). unfold i64_saturating_add in *. lia.
  - intros Hf. specialize (H3 Hf). lia.
Qed.

(** The row can be inserted: nobody else can insert it, or one of the same session. *)
Record insertable (v : CreditDb) : Prop := {
  is_absent : requests v !! aa_request a = None;
  is_session : ∀ id, pend (aa_session a) v id = false;
}.

Lemma insertable_kept L : LRequest (aa_request a) ∈ L → LPending (aa_session a) ∈ L → view_kept L insertable.
Proof.
  intros Hr Hp v v' Hs [H2 H3]. split.
  - by eapply stable_absent.
  - intros id. specialize (H3 id). destruct (pend _ v' id) eqn:Hpe; [|done]. apply (st_pending _ _ _ _ Hs _ _ Hp) in Hpe. congruence.
Qed.

Lemma session_pending_pend s v : session_pending s v = false → ∀ id, pend s v id = false.
Proof.
  intros Hs id. unfold pend. destruct (requests v !! id) as [r|] eqn:Hr; [|done].
  destruct (_ && _) eqn:He; [|done]. exfalso. apply not_true_iff_false in Hs. apply Hs. unfold session_pending.
  apply existsb_exists. exists (id, r). split; [|done]. by apply list_elem_of_In, elem_of_map_to_list.
Qed.

Lemma insert_exec t v o u ws ls :
  exec o t v (InsertRequest (aa_request a) account (aa_session a) (aa_digest a) (aa_reserve a) (aa_upstream a)) = Some (u, ws, ls) →
  insertable v ∧ ws = [WRequest (aa_request a) (new_request t account (aa_session a) (aa_digest a) (aa_reserve a) (aa_upstream a))] ∧
  ls = [LRequest (aa_request a); LPending (aa_session a)].
Proof.
  simpl. destruct (bool_decide _ && _ && _ && _ && _ && _ && _) eqn:Hc; [|done]. intros [= _ <- <-].
  apply andb_true_iff in Hc as [Hc _]. apply andb_true_iff in Hc as [Hc _].
  apply andb_true_iff in Hc as [Hc _]. apply andb_true_iff in Hc as [Hc _]. apply andb_true_iff in Hc as [Hc _].
  apply andb_true_iff in Hc as [H1%bool_decide_eq_true H2%negb_true_iff]. split; [|done]. split; [done|].
  by apply session_pending_pend.
Qed.

Lemma valid_reserve : 1 ≤ aa_reserve a ≤ 400000000.
Proof using Hvalid.
  unfold valid_reservation in Hvalid. rewrite !andb_true_iff in Hvalid. destruct Hvalid as [[[[H1 H2] _] _] _].
  apply Z.leb_le in H1, H2. lia.
Qed.

(** The hold may be placed: all of [can_hold]. *)
Lemma can_hold_checked free v :
  free = is_free p (ac_email ac) → with_payer (checked free) v → insertable v →
  (free = false → ledger v !! (account, ai_source "hold" (aa_request a)) = None) → can_hold p past now account free a v.
Proof using Hvalid Howner Hwritable.
  intros Hf [Hen [C1 C2 C3]] [I1 I2] Hl. split; try done; [apply valid_reserve|]. by exists ac.
Qed.

Lemma row_new free t v :
  row_is (aa_request a) (new_request t account (aa_session a) (aa_digest a) (aa_reserve a) (aa_upstream a)) (apply_ws (hold_writes t account free a) v).
Proof.
  eexists. split; [|done]. unfold hold_writes. destruct free; simpl; by rewrite lookup_insert_eq.
Qed.

Lemma hold_of_payer free t v : entitled now account ac a v → entitled now account ac a (apply_ws (hold_writes t account free a) v).
Proof. apply entitled_of_payer; unfold hold_writes; by destruct free. Qed.

Definition new_row : AiRequest := new_request now account (aa_session a) (aa_digest a) (aa_reserve a) (aa_upstream a).

(** The commit of a hold. *)
Lemma hold_last x' ws free h :
  x_writes x' = ws ++ hold_writes now account free a → paying x' → LRequest (aa_request a) ∈ x_locks x' →
  ready i x' (with_payer (row_is (aa_request a) new_row)) h →
  hp `prefix_of` h → triple i (commit Sqlx (AdmissionNew account)) answers h.
Proof using HQ Hhp Hauth.
  intros Hw Hpy Hl Hin Hp. eapply admit_last; [exact Hin|done|by apply row_is_kept|done|]. intros h1 Hp1 Hg1 Hr HF.
  split; [done|]. rewrite (py_now _ Hpy). split; [|done].
  eapply absent_before; [by apply good_books|exact Hr|]. rewrite Hw. apply elem_of_app. right. apply elem_of_cons. by left.
Qed.

Lemma place_hold_spec x free h :
  free = is_free p (ac_email ac) → ready i x (with_payer (checked free)) h → paying x → hp `prefix_of` h →
  (global_daily_cap_nanousd p ≠ None → LDailyCap ∈ x_locks x) →
  triple i (place_hold account free a) answers h.
Proof using HQ Hvalid Hhp Hauth Howner Hwritable.
  intros Hfree Hin Hpy Hp Hcap. pose proof Hpy as [Hn Ha Hse]. unfold place_hold. apply triple_try.
  set (w := WRequest (aa_request a) new_row).
  assert (view_kept (x_locks x) (with_payer (checked free))) as Hk by (by apply with_payer_kept, checked_kept).
  destruct free.
  - eapply (triple_done i x (x_writes x) []); [exact Hin|by rewrite app_nil_r|done|].
    intros o h1 v u ws ls Hp1 Hg1 Hb Hv HF Hex. rewrite Hn in Hex. apply insert_exec in Hex as (Hi & -> & ->). fold new_row w.
    exists (with_payer (row_is (aa_request a) new_row)). split_and!.
    + apply with_payer_kept; [locks..|]. apply row_is_kept. locks.
    + apply (group_hold p past _ _ now account true a); try locks; [by apply can_hold_checked| |by repeat constructor].
      intros Hc. specialize (Hcap Hc). locks.
    + split; [apply (hold_of_payer true), HF|apply (row_new true)].
    + intros h2 Hg2 Hp2 Hin2. apply triple_try, triple_answer. intros h3 Hm3.
      eapply (hold_last (extended x [w] _) (x_writes x) true); [done|by apply paying_extended|locks| |].
      * eapply ready_meanwhile; [exact Hin2| |done]. apply with_payer_kept; [locks..|]. apply row_is_kept. locks.
      * etrans; [exact Hp|]. etrans; [exact Hp1|]. etrans; [exact Hp2|by eapply meanwhile_prefix].
  - eapply (triple_more i x (x_writes x) []); [exact Hin|by rewrite app_nil_r|done|].
    intros o h1 v u ws ls Hp1 Hg1 Hb Hv HF Hex. rewrite Hn in Hex. apply insert_exec in Hex as (Hi & -> & ->). fold new_row w.
    exists (λ v, with_payer (checked false) v ∧ insertable v).
    assert (view_kept (x_locks x ++ [LRequest (aa_request a); LPending (aa_session a)])
              (λ v, with_payer (checked false) v ∧ insertable v)) as Hk'.
    { apply and_kept; [eapply view_kept_mono; [|exact Hk]; locks|apply insertable_kept; locks]. }
    split_and!; [done..|]. intros h2 Hg2 Hp2 Hin2. apply triple_try.
    eapply (triple_done i _ (x_writes x) [w]); [exact Hin2|done|done|].
    intros o' h3 v' u' ws ls Hp3 Hg3 Hb3 Hv3 [HF' Hi'] Hex. simpl in Hex.
    destruct (_ && _) eqn:Hc; [|done]. injection Hex as <- <- <-.
    apply andb_true_iff in Hc as [Hc _]. apply andb_true_iff in Hc as [Hnone%bool_decide_eq_true _].
    exists (with_payer (row_is (aa_request a) new_row)). split_and!.
    + apply with_payer_kept; [locks..|]. apply row_is_kept. locks.
    + apply (group_hold p past _ _ now account false a); try locks; [by apply can_hold_checked| |repeat constructor; locks].
      intros Hc'. specialize (Hcap Hc'). locks.
    + split; [apply (hold_of_payer false now), HF'|apply (row_new false)].
    + intros h4 Hg4 Hp4 Hin4.
      eapply (hold_last _ (x_writes x) false); [| | |exact Hin4|].
      * simpl. by rewrite <-app_assoc.
      * by do 2 apply paying_extended.
      * locks.
      * etrans; [exact Hp|]. etrans; [exact Hp1|]. etrans; [exact Hp2|]. by etrans.
Qed.

(** The stages before it. *)
Definition unseen (v : CreditDb) : Prop := mine account v (aa_request a) = None.
Definition in_flight free (v : CreditDb) : Prop := unseen v ∧ pending_of account v < in_flight_limit p free.
Definition capped free (v : CreditDb) : Prop := in_flight free v ∧ within_cap p now (aa_reserve a) v.

Lemma unseen_kept L : LAccount account ∈ L → view_kept L unseen.
Proof.
  intros Ha v v' Hs Hu. unfold unseen in *. destruct (st_account _ _ _ _ Hs _ Ha) as [_ _ _ H]. specialize (H (aa_request a)).
  rewrite Hu in H. by destruct (mine _ v' _).
Qed.

Lemma in_flight_kept L free : LAccount account ∈ L → view_kept L (in_flight free).
Proof.
  intros Ha. apply and_kept; [by apply unseen_kept|]. intros v v' Hs Hp. by rewrite (stable_pending_of p L account v v').
Qed.

Lemma capped_kept L free :
  LAccount account ∈ L → (global_daily_cap_nanousd p ≠ None → LDailyCap ∈ L) → view_kept L (capped free).
Proof.
  intros Ha Hc. apply and_kept; [by apply in_flight_kept|]. intros v v' Hs. unfold within_cap.
  destruct (global_daily_cap_nanousd p) eqn:Hcap; [|done]. intros Hw.
  pose proof (st_cap _ _ _ _ Hs (day_start now) (Hc ltac:(done)) ltac:(congruence)). unfold i64_saturating_add in *. lia.
Qed.

Lemma bigint_Some n m : bigint n = Some m → m = n ∧ i64_min ≤ n ≤ i64_max.
Proof.
  unfold bigint. destruct (_ && _) eqn:Hc; [|done]. intros [= ->]. apply andb_true_iff in Hc as [?%Z.leb_le ?%Z.leb_le]. done.
Qed.

Lemma check_balance_spec x free h :
  free = is_free p (ac_email ac) → ready i x (with_payer (capped free)) h → paying x → hp `prefix_of` h →
  (global_daily_cap_nanousd p ≠ None → LDailyCap ∈ x_locks x) →
  triple i (check_balance account free a) answers h.
Proof using HQ Hvalid Hhp Hauth Howner Hwritable.
  intros Hfree Hin Hpy Hp Hcap. pose proof Hpy as [Hn Ha Hse]. unfold check_balance. destruct free.
  - apply (place_hold_spec x); [done| |done..]. eapply inside_mono; [exact Hin|]. intros v [He [[_ H1] H2]]. by split.
  - apply triple_try. eapply triple_read; [exact Hin|by apply with_payer_kept, capped_kept|].
    intros o h1 v n ws ls Hp1 Hg1 Hb Hv [He HF] Hex. simpl in Hex. destruct (bigint (balance account v)) as [m|] eqn:Hm; [|done].
    injection Hex as <- <- <-. apply bigint_Some in Hm as [-> _]. split; [done|].
    destruct (balance account v <? aa_reserve a) eqn:Hlt.
    + exists (with_payer unseen). split_and!; [apply with_payer_kept; [locks..|]; apply unseen_kept; locks|split; [done|apply HF]|].
      intros h2 Hg2 Hp2 Hin2. apply Z.ltb_lt in Hlt.
      eapply admit_last; [exact Hin2|by apply paying_extended|apply unseen_kept; locks|etrans; [exact Hp|by etrans]|].
      intros h3 Hp3 Hg3 _ Hun. split; [done|]. split; [done|]. exists h1. split_and!; [etrans; [exact Hhp|by etrans]|by etrans|].
      simpl. rewrite app_nil_r. by subst v.
    + apply Z.ltb_ge in Hlt. exists (with_payer (checked false)). split_and!.
      * apply with_payer_kept; [locks..|]. apply checked_kept; [locks|]. intros Hc. specialize (Hcap Hc). locks.
      * destruct HF as [[_ H1] H2]. by split.
      * intros h2 Hg2 Hp2 Hin2. apply place_hold_spec with (x:=extended x [] []);
          [done|exact Hin2|by apply paying_extended|etrans; [exact Hp|by etrans]|].
        intros Hc. specialize (Hcap Hc). locks.
Qed.

Lemma check_cap_spec x free h :
  free = is_free p (ac_email ac) → ready i x (with_payer (in_flight free)) h → paying x → hp `prefix_of` h →
  triple i (check_cap p account free a) answers h.
Proof using HQ Hvalid Hhp Hauth Howner Hwritable.
  intros Hfree Hin Hpy Hp. pose proof Hpy as [Hn Ha Hse]. unfold check_cap. destruct (global_daily_cap_nanousd p) as [cap|] eqn:Hcap.
  - apply triple_try. eapply triple_read; [exact Hin|by apply with_payer_kept, in_flight_kept|].
    intros o h1 v [] ws ls Hp1 Hg1 Hb Hv HF Hex. injection Hex as <- <-. split; [done|].
    exists (with_payer (in_flight free)). split_and!; [apply with_payer_kept; [locks..|]; apply in_flight_kept; locks|apply HF..|].
    intros h2 Hg2 Hp2 Hin2.
    apply triple_try. eapply triple_read; [exact Hin2|apply with_payer_kept; [locks..|]; apply in_flight_kept; locks|].
    intros o' h3 v' n ws ls Hp3 Hg3 Hb3 Hv3 HF3 Hex. simpl in Hex.
    destruct (bigint (spent_since (day_start (x_now x)) v')) as [m|] eqn:Hm; [|done].
    injection Hex as <- <- <-. apply bigint_Some in Hm as [-> Hmin]. split; [done|].
    destruct (cap <? _) eqn:Hlt.
    + exists (with_payer unseen). split_and!; [apply with_payer_kept; [locks..|]; apply unseen_kept; locks|split; apply HF3|].
      intros h4 Hg4 Hp4 Hin4. apply Z.ltb_lt in Hlt.
      eapply admit_last; [exact Hin4|by do 2 apply paying_extended|apply unseen_kept; locks|
        etrans; [exact Hp|]; etrans; [exact Hp1|]; etrans; [exact Hp2|]; by etrans|].
      intros h5 Hp5 Hg5 _ Hun. split; [done|]. exists cap. split; [done|]. exists h3.
      split_and!; [etrans; [exact Hhp|]; etrans; [exact Hp|]; etrans; [exact Hp1|]; by etrans|by etrans|].
      simpl. rewrite !app_nil_r. simpl in Hv3. rewrite app_nil_r in Hv3. rewrite <-Hv3.
      pose proof valid_reserve. unfold i64_saturating_add in Hlt. lia.
    + apply Z.ltb_ge in Hlt. exists (with_payer (capped free)). split_and!.
      * apply with_payer_kept; [locks..|]. apply capped_kept; [locks|intros _; locks].
      * destruct HF3 as [He HF3]. split; [done|]. split; [done|]. unfold within_cap. by rewrite Hcap, <-Hn.
      * intros h4 Hg4 Hp4 Hin4. eapply check_balance_spec; [done|exact Hin4|by do 2 apply paying_extended| |intros _; locks].
        etrans; [exact Hp|]. etrans; [exact Hp1|]. etrans; [exact Hp2|]. by etrans.
  - apply (check_balance_spec x); [done| |done|done|by rewrite Hcap].
    eapply inside_mono; [exact Hin|]. intros v [He Hv]. split; [done|]. split; [done|]. unfold within_cap. by rewrite Hcap.
Qed.

(** The limit is reached, or the session has a request in flight. *)
Definition busy free (v : CreditDb) : Prop :=
  unseen v ∧ (in_flight_limit p free ≤ pending_of account v ∨
    ∃ id r, mine account v id = Some r ∧ rq_session r = aa_session a ∧ rq_status r = StatusPending).

Lemma busy_kept L free : LAccount account ∈ L → view_kept L (busy free).
Proof.
  intros Hl. apply and_kept; [by apply unseen_kept|]. intros v1 v2 Hs. rewrite (stable_pending_of p L account v1 v2) by done.
  intros [?|(id & r & Hr & Hse & Hst)]; [by left|right]. destruct (st_account _ _ _ _ Hs _ Hl) as [_ _ _ Hm]. specialize (Hm id).
  rewrite Hr in Hm. destruct (mine account v2 id) as [r'|] eqn:Hr'; [|done]. apply (inj Some) in Hm.
  destruct (core_fields _ _ Hm) as (_ & Hse' & _ & _ & Hst' & _). exists id, r'. split_and!; [done|congruence..].
Qed.

Lemma admit_new_spec x free h :
  free = is_free p (ac_email ac) → ready i x (with_payer unseen) h → paying x → hp `prefix_of` h →
  triple i (admit_new p account free a) answers h.
Proof using HQ Hvalid Hhp Hauth Howner Hwritable.
  intros Hfree Hin Hpy Hp. pose proof Hpy as [Hn Ha Hse]. unfold admit_new. apply triple_try.
  eapply triple_read; [exact Hin|by apply with_payer_kept, unseen_kept|].
  intros o h1 v counts ws ls Hp1 Hg1 Hb Hv [He HF] Hex. simpl in Hex. injection Hex as <- <- <-. split; [done|].
  fold (in_flight_limit p free). cbn [fst snd].
  destruct (_ || _) eqn:Hbusy.
  - exists (with_payer (busy free)). split; [apply with_payer_kept; [locks..|]; apply busy_kept; locks|].
    split; [split; [exact He|split; [exact HF|]]|].
    + apply orb_true_iff in Hbusy as [?%Z.leb_le|Hex]; [by left|right].
      apply existsb_exists in Hex as ([id r] & Hin'%list_elem_of_In%elem_of_map_to_list & Hc). simpl in Hc.
      apply andb_true_iff in Hc as [Hc Hse'%bool_decide_eq_true]. apply andb_true_iff in Hc as [Hac%bool_decide_eq_true Hpe%bool_decide_eq_true].
      exists id, r. split; [|done]. unfold mine. rewrite Hin'. simpl. by rewrite bool_decide_eq_true_2.
    + intros h2 Hg2 Hp2 Hin2. eapply admit_last; [exact Hin2|by apply paying_extended|apply busy_kept; locks|etrans; [exact Hp|by etrans]|].
      intros h3 _ _ _ Hby. by rewrite <-Hfree.
  - apply orb_false_iff in Hbusy as [Hlt%Z.leb_gt _]. exists (with_payer (in_flight free)).
    split; [apply with_payer_kept; [locks..|]; apply in_flight_kept; locks|]. split; [by split|].
    intros h2 Hg2 Hp2 Hin2. eapply check_cap_spec; [done|exact Hin2|by apply paying_extended|etrans; [exact Hp|by etrans]].
Qed.

(** The request is one of the account, as it was read. *)
Definition known (r : AiRequest) (v : CreditDb) : Prop :=
  ∃ r', mine account v (aa_request a) = Some r' ∧ core r' = core r.

Lemma known_kept L r : LAccount account ∈ L → view_kept L (known r).
Proof.
  intros Ha v v' Hs (r1 & H1 & Hc1). destruct (st_account _ _ _ _ Hs _ Ha) as [_ _ _ H]. specialize (H (aa_request a)).
  rewrite H1 in H. destruct (mine account v' _) as [r2|] eqn:H2; [|done]. apply (inj Some) in H. exists r2. split; [done|congruence].
Qed.

Lemma already_seen_spec x r h :
  ready i x (with_payer (λ v, rq_account r = account → known r v)) h → charged_ok r → paying x → hp `prefix_of` h →
  triple i (already_seen account a r) answers h.
Proof using HQ Hhp Hauth.
  intros Hin Hok Hpy Hp. unfold already_seen. destruct (_ || _) eqn:Hterms; [apply triple_fail|].
  apply orb_false_iff in Hterms as [Hterms Hd%negb_false_iff%bool_decide_eq_true].
  apply orb_false_iff in Hterms as [Hac%negb_false_iff%bool_decide_eq_true Hse%negb_false_iff%bool_decide_eq_true].
  eapply (admit_last x (known r)); [eapply inside_mono; [exact Hin|]|done|apply known_kept, Hpy|done|].
  { intros v [He Hk]. split; auto. }
  intros h1 _ _ _ (r' & Hr' & Hc). destruct (core_fields _ _ Hc) as (_ & Hse' & _ & Hch' & Hst' & _).
  destruct (core_terms _ _ Hc) as [_ Hd']. destruct Hok as [_ Hok].
  destruct (rq_status r) eqn:Hst; simpl; exists r'; (split; [done|]); rewrite Hse', Hd', Hst'; [done|..];
    rewrite Hch'; by destruct (rq_charged r).
Qed.

End admission.

Lemma expired_mine account now v e :
  e ∈ ((λ kr : Uuid * AiRequest, (kr.1, rq_reserved kr.2, rq_observed kr.2)) <$> expired_holds now account v) →
  is_Some (mine account v e.1.1).
Proof.
  intros ([id r] & -> & He)%list_elem_of_fmap. simpl. unfold expired_holds, rows in He.
  apply elem_of_take in He as (k & He & _). apply list_elem_of_lookup_2 in He.
  rewrite merge_sort_Permutation, list_elem_of_filter in He. destruct He as [Hc Hin%elem_of_map_to_list]. simpl in Hc.
  apply andb_true_iff in Hc as [Hc _]. apply andb_true_iff in Hc as [Hac%bool_decide_eq_true _].
  unfold mine. rewrite Hin. simpl. rewrite bool_decide_eq_true_2 by done. by eexists.
Qed.

Lemma admit_spec i a (Q : result DbError Admission → History → Prop) h :
  closed i h → (∀ e h', closed i h' → good h' → Q (Err e) h') →
  (∀ adm h', closed i h' → good h' → admit_done i a adm h h' → Q (Ok adm) h') →
  triple i (admit_credit_ai_request p a) Q h.
Proof.
  intros Hc Hfail HQ. unfold admit_credit_ai_request. destruct (valid_reservation a) eqn:Hvalid; cbn [negb].
  2: { intros h1 Hm. apply Hfail; [by eapply closed_meanwhile|apply Hm]. }
  apply triple_tx; [done..|]. intros now h0 Hg0 Hp0 Hin.
  apply triple_try. eapply triple_read; [exact Hin|done|].
  intros o h1 v1 [] ws ls Hp1 Hg1 _ -> _ Hex. simpl in Hex. destruct (bool_decide _) eqn:Hwr; [|done].
  apply bool_decide_eq_true in Hwr. injection Hex as <- <-. split; [done|].
  exists (λ _, True). split_and!; [done..|]. intros h2 Hg2 Hp2 Hin2.
  apply triple_try. eapply triple_read; [exact Hin2|done|].
  intros o' h3 v3 payer_ ws ls Hp3 Hg3 _ -> _ Hex. simpl in Hex.
  destruct (payer _ _ _ _ _) as [[account email]|] eqn:Hpayer; injection Hex as <- <- <-; (split; [done|]);
    [|exists (λ _, True); split_and!; done].
  apply payer_entitled in Hpayer as (ac & Hen & Hemail & Hown).
  assert (h `prefix_of` h3) as Hh3 by (etrans; [exact Hp0|]; etrans; [exact Hp1|]; by etrans).
  assert (authorized now account ac a h h3) as Hauth.
  { split.
    - exists h1. split; [etrans; [exact Hp0|exact Hp1]|]. split; [etrans; [exact Hp2|exact Hp3]|exact Hwr].
    - exists h3. split; [done|]. split; [done|]. split; [exact Hen|exact Hown]. }
  pose proof (proj1 (good_within h3 Hg3) _ _ _ Hown) as Howner. pose proof (proj2 (good_within h1 Hg1) _ Hwr) as Hwritable.
  set (E := entitled now account ac a) in *. assert (of_payer E) as HE by apply entitled_of_payer.
  assert (view_kept [LAccount account; LSession (aa_session a)] E) as HkE by (apply entitled_kept; locks).
  exists E. split_and!; [exact HkE|exact Hen|]. intros h4 Hg4 Hp4 Hin4.
  apply triple_try, triple_some. intros ae h5 [= <-] Hm5. cbn [fst snd].
  pose proof (ready_meanwhile _ _ _ _ _ Hin4 HkE Hm5) as Hin5. apply triple_try.
  eapply triple_read; [exact Hin5|exact HkE|]. intros o'' h6 v expired ws ls Hp6 Hg6 Hb Hv HEv Hex. simpl in Hex. injection Hex as <- <- <-.
  split; [done|]. set (expired := (λ kr : Uuid * AiRequest, (kr.1, rq_reserved kr.2, rq_observed kr.2)) <$> expired_holds now account v).
  set (ids := (λ e : Uuid * Z * option Z, e.1.1) <$> expired).
  exists (mines E account ids). split_and!.
  - apply mines_kept; [eapply view_kept_mono; [|exact HkE]; simpl; clear; set_solver|locks].
  - split; [|exact HEv]. intros id (e & -> & He)%list_elem_of_fmap. by eapply expired_mine.
  - intros h7 Hg7 Hp7 Hin7. apply triple_try.
    eapply (settle_expired_spec i E account ids); [done| |exact Hin7|eapply view_kept_mono; [|exact HkE]; simpl; clear; set_solver|locks|].
    { intros e He. apply list_elem_of_fmap. by exists e. }
    intros x8 h8 Hn8 Hl8 Hg8 Hp8 Hin8.
    assert (paying a now account x8) as Hpy by (split; [exact Hn8|locks..]). pose proof Hpy as [_ Ha8 Hse8].
    assert (h3 `prefix_of` h8) as Hph.
    { etrans; [exact Hp4|]. etrans; [by eapply meanwhile_prefix|]. etrans; [exact Hp6|]. by etrans. }
    apply triple_try. eapply triple_read; [exact Hin8|by apply mines_kept; [apply entitled_kept|]|].
    intros o9 h9 v9 row ws ls Hp9 Hg9 Hb9 Hv9 [_ HE9] Hex. simpl in Hex. injection Hex as <- <- <-. split; [done|].
    destruct (requests v9 !! aa_request a) as [r|] eqn:Hr.
    + exists (with_payer a now account ac (λ v, rq_account r = account → known a account r v)). split_and!.
      * apply with_payer_kept; [locks..|]. intros v1 v2 Hs Hk Hac. eapply known_kept; [|exact Hs|auto]. locks.
      * split; [exact HE9|]. intros Hac. exists r. split; [|done]. unfold mine. rewrite Hr. simpl. by rewrite bool_decide_eq_true_2.
      * intros h10 Hg10 Hp10 Hin10. eapply (already_seen_spec i a Q h HQ now account ac h3); [done|exact Hauth|exact Hin10| |by apply paying_extended|].
        -- by eapply (bk_row _ _ Hb9).
        -- etrans; [exact Hph|by etrans].
    + exists (with_payer a now account ac (unseen a account)).
      split_and!; [apply with_payer_kept; [locks..|]; apply unseen_kept; locks|split; [exact HE9|unfold unseen, mine; by rewrite Hr]|].
      intros h10 Hg10 Hp10 Hin10.
      eapply (admit_new_spec i a Q h HQ Hvalid now account ac h3); [done|exact Hauth|exact Howner|exact Hwritable|by rewrite Hemail|exact Hin10|by apply paying_extended|].
      etrans; [exact Hph|by etrans].
Qed.

(** ** Statements on the pool *)

Lemma calm_ws L ws c :
  Forall (calm L) ws →
  (∀ a, is_Some (accounts c !! a) → is_Some (accounts (apply_ws ws c) !! a)) ∧
  ledger (apply_ws ws c) = ledger c ∧ core_agree c (apply_ws ws c).
Proof.
  intros Hws. revert c. induction Hws as [|w ws Hw _ IH]; intros c; [done|].
  destruct (calm_write w c) as (A1 & L1 & C1); [by destruct w|]. destruct (IH (apply w c)) as (A2 & L2 & C2).
  change (apply_ws (w :: ws) c) with (apply_ws ws (apply w c)). split_and!; [auto|congruence|]. intros id. by rewrite C2.
Qed.

(** Calm writes are a step, if what they say of owners and communities is known. *)
Lemma calm_guaranteed L c ws :
  Forall (calm L) ws → (within past c → within past (apply_ws ws c)) → guaranteed steps (stable p) L c (apply_ws ws c).
Proof.
  intros Hws Hwi. destruct (calm_ws L ws c Hws) as (Ha & Hl & Hc). split; [apply rtc_once, step_calm; [auto|done..]|].
  intros L' Hd. clear -Hws Hd. revert c. induction Hws as [|w ws Hw _ IH]; intros c; [done|].
  etrans; [by eapply calm_stable|apply (IH (apply w c))].
Qed.

(** The statements that are run on the pool write nothing that counts. *)
Definition pool_stmt (s : Stmt) : bool :=
  match s with
  | SelectEmail _ | RevokeSession _ _ | UpdateRejected _ | UpdateObserved _ _ _ | ClaimDue | SelectRecovery _ => true
  | _ => false
  end.

Lemma pool_calm o now c s a ws ls : pool_stmt s = true → exec o now c s = Some (a, ws, ls) →
  Forall (calm ls) ws ∧ Forall others_row ws.
Proof.
  intros Hs Hex. destruct s; try done; simpl in Hex.
  - by injection Hex as _ <- _.
  - destruct (sessions c !! session ≫= _); injection Hex as _ <- <-; repeat constructor.
  - destruct (requests c !! id) as [r|]; [|by injection Hex as _ <- _].
    destruct (_ && _); injection Hex as _ <- _; by repeat constructor.
  - destruct (requests c !! id) as [r|]; [|by injection Hex as _ <- _].
    destruct (_ || _); [|by injection Hex as _ <- _]. destruct (_ || _); [done|]. injection Hex as _ <- _. by repeat constructor.
  - injection Hex as _ <- _. split; by apply Forall_fmap, Forall_true.
  - by injection Hex as _ <- _.
Qed.

Lemma triple_pool i s (Q : result DbError (answer s) → History → Prop) h :
  pool_stmt s = true → closed i h → (∀ h', closed i h' → good h' → Q (Err Sqlx) h') →
  (∀ a h', closed i h' → good h' → h `prefix_of` h' → Q (Ok a) h') → triple i (pool s) Q h.
Proof.
  intros Hs Hc Hfail HQ. apply triple_bind. eapply triple_auto; [exact _|exact Hc| | |].
  - intros o now c a ws ls _ Hex. apply pool_calm in Hex as [Hc1 Hc2]; [|done].
    apply calm_guaranteed; [done|]. by apply within_same; apply others_kept.
  - intros h' Hc' Hg' h2 H2. apply Hfail; [by eapply closed_meanwhile|apply H2].
  - intros o now h1 a ws ls h' Hc' Hg' Hp1 Hp2 _ _ h2 H2. apply HQ; [by eapply closed_meanwhile|apply H2|].
    etrans; [exact Hp1|]. etrans; [|by eapply meanwhile_prefix]. etrans; [|exact Hp2]. by apply prefix_app_r.
Qed.

(** Outside transactions, an error ends the call. *)
Lemma triple_then {A B E} i (q : cprog (result E A)) (f : A → cprog (result E B)) (Q : result E B → History → Prop) h :
  (∀ e h', closed i h' → good h' → Q (Err e) h') →
  triple i q (λ r h', closed i h' ∧ good h' ∧ match r with Ok a => triple i (f a) Q h' | Err _ => True end) h →
  triple i (try_bind q f) Q h.
Proof.
  intros Hfail H. apply triple_bind. eapply triple_mono; [exact H|]. intros [a|e] h' _ _ (Hc & Hg & Hq); [done|].
  intros h2 H2. apply Hfail; [by eapply closed_meanwhile|apply H2].
Qed.

(** ** The other calls *)

Abbreviation any_end i Q := (∀ r h', closed i h' → good h' → Q r h').

Lemma create_session_spec i owner community agent (Q : result DbError Uuid → History → Prop) h :
  closed i h → any_end i Q → triple i (create_credit_ai_session p owner community agent) Q h.
Proof.
  intros Hc HQ. apply triple_tx; [done|intros; by apply HQ|]. intros now h0 Hg0 Hp0 Hin.
  eapply triple_assert; [exact Hin|]. intros o1 h1 [] ws ls Hex. simpl in Hex. destruct (bool_decide _); [|done].
  injection Hex as <- <-. split; [done|]. intros h2 _ _ Hin2.
  eapply triple_assert; [exact Hin2|]. intros o3 h3 account ws ls Hex. simpl in Hex.
  assert (ws = []) as -> by (destruct (select_owner _ _) as [[]|]; by injection Hex). split; [done|]. clear Hex. intros h4 _ _ Hin4.
  apply triple_try, triple_some. intros [account' email] h5 _ Hm5. cbn [fst snd].
  pose proof (ready_meanwhile _ _ _ _ _ Hin4 (λ _ _ _ _, I) Hm5) as Hin5.
  eapply triple_assert; [exact Hin5|]. intros o6 h6 owned ws ls' Hex. simpl in Hex. injection Hex as _ <- <-. split; [done|].
  intros h7 _ _ Hin7. destruct (negb owned); [apply triple_fail|].
  eapply triple_assert; [exact Hin7|]. intros o8 h8 [] ws ls'' Hex. simpl in Hex. injection Hex as <- <-.
  split; [by apply Forall_fmap, Forall_forall; intros id Hid; by apply list_elem_of_fmap_2|]. intros h9 _ _ Hin9.
  eapply triple_assert; [exact Hin9|]. intros o10 h10 active ws ls'' Hex. simpl in Hex. injection Hex as _ <- <-. split; [done|].
  intros h11 _ _ Hin11. destruct (_ <=? active); [apply triple_fail|].
  apply triple_bind, triple_outer. intros h12 Hm12 id. pose proof (ready_meanwhile _ _ _ _ _ Hin11 (λ _ _ _ _, I) Hm12) as Hin12.
  eapply triple_assert; [exact Hin12|]. intros o13 h13 [] ws ls'' Hex. simpl in Hex. destruct (bool_decide _); [|done].
  injection Hex as <- <-. split; [apply Forall_singleton; simpl; locks|]. intros h14 _ _ Hin14.
  eapply triple_last; [exact Hin14|done|]. intros; by apply HQ.
Qed.

Lemma debit_spec i account source amount description metadata (Q : result DbError CreditDebitOutcome → History → Prop) h :
  is_ai source = false → closed i h → (∀ r h', r ≠ Ok DebitApplied → closed i h' → good h' → Q r h') →
  (∀ x h', closed i h' → good h' → done_at i x (λ v, entry_amount account source v = Some (- amount)) h h' → Q (Ok DebitApplied) h') →
  triple i (record_account_credit_debit account source amount description metadata) Q h.
Proof.
  intros Hai Hc Hother HQ. unfold record_account_credit_debit. destruct (_ || _) eqn:Hv.
  { intros h1 Hm. apply Hother; [done|by eapply closed_meanwhile|apply Hm]. }
  rewrite !orb_false_iff in Hv. destruct Hv as [[[[_ Hpos%Z.leb_gt] _] _] _].
  apply triple_tx; [done|intros; by apply Hother|]. intros now h0 Hg0 Hp0 Hin.
  eapply triple_assert; [exact Hin|]. intros o1 h1 exists_ ws ls Hex. simpl in Hex.
  assert (ws = [] ∧ (exists_ = true → ls = [LAccount account])) as [-> Hls].
  { destruct (bool_decide _); injection Hex as <- <- <-; done. }
  clear Hex. split; [done|]. intros h2 Hg2 Hp2 Hin2. destruct exists_; [|apply triple_fail]. rewrite Hls in Hin2 by done. cbn [negb].
  eapply triple_assert; [exact Hin2|]. intros o3 h3 existing ws ls' Hex. simpl in Hex. injection Hex as <- <- <-.
  split; [done|]. intros h4 Hg4 Hp4 Hin4. destruct (le_amount <$> _) as [e|].
  { destruct (negb _); [apply triple_fail|]. eapply triple_last; [exact Hin4|done|]. intros; by apply Hother. }
  apply triple_try. eapply triple_read; [exact Hin4|done|].
  intros o5 h5 v n ws ls' Hp5 Hg5 Hb5 Hv5 _ Hex. simpl in Hex. destruct (bigint (balance account v)) as [m|] eqn:Hm; [|done].
  injection Hex as <- <- <-. apply bigint_Some in Hm as [-> _]. split; [done|].
  destruct (balance account v <? amount) eqn:Hlt.
  { exists (λ _, True). split_and!; [done..|]. intros h6 _ _ Hin6. eapply triple_last; [exact Hin6|done|]. intros; by apply Hother. }
  apply Z.ltb_ge in Hlt. exists (λ v, amount ≤ balance account v). split_and!.
  - intros v1 v2 Hs. pose proof (st_balance _ _ _ (st_account _ _ _ _ Hs account ltac:(locks))). lia.
  - done.
  - intros h6 Hg6 Hp6 Hin6. apply triple_try. eapply (triple_done i _ _ []); [exact Hin6|by rewrite app_nil_r| |].
    { intros v1 v2 Hs. pose proof (st_balance _ _ _ (st_account _ _ _ _ Hs account ltac:(locks))). lia. }
    intros o7 h7 v7 [] ws ls' Hp7 Hg7 Hb7 Hv7 Hbal Hex. simpl in Hex. destruct (_ && _) eqn:Hok; [|done]. injection Hex as <- <-.
    apply andb_true_iff in Hok as [Hok _]. apply andb_true_iff in Hok as [Hn%bool_decide_eq_true _].
    exists (λ v, entry_amount account source v = Some (- amount)). split_and!.
    + intros v1 v2 Hs He. unfold entry_amount in *. rewrite (st_entry _ _ _ _ Hs); [done|locks].
    + apply group_entry; [done|done|simpl; lia|locks|locks].
    + apply entry_amount_same.
    + intros h8 Hg8 Hp8 Hin8. eapply triple_last; [exact Hin8| |].
      * intros v1 v2 Hs He. unfold entry_amount in *. rewrite (st_entry _ _ _ _ Hs); [done|locks].
      * intros h' Hc' Hg' Hd. eapply HQ; [done..|]. eapply done_at_earlier; [exact Hd|].
        etrans; [exact Hp0|]. etrans; [exact Hp2|]. etrans; [exact Hp4|]. etrans; [exact Hp5|]. etrans; [exact Hp6|]. by etrans.
Qed.

(** A call that ends with the request charged, at a moment of the call. *)
Definition charges {E A} (i : nat) (id : Uuid) (charged : A → Z) (provisional : bool) (h : History) (r : result E A) (h' : History) : Prop :=
  match r with
  | Ok a => ∃ x, done_at i x (settled_at id (charged a) provisional) h h'
  | Err _ => True
  end.

(** The postconditions of calls: they hold once the transaction is closed. *)
Definition ended {A} (i : nat) (P : A → History → Prop) (r : A) (h : History) : Prop := closed i h ∧ good h ∧ P r h.

Lemma settle_charges i id charged provisional h0 h :
  closed i h → h0 `prefix_of` h →
  triple i (settle_credit_ai_request id charged provisional) (ended i (charges i id (λ _, charged) provisional h0)) h.
Proof.
  intros Hc Hp. apply settle_call_spec; [done|done|]. intros x h' Hc' Hg' Hd. split_and!; [done..|]. exists x. by eapply done_at_earlier.
Qed.

Lemma reject_charges i id h : closed i h → triple i (reject_credit_ai_request id) (ended i (charges i id (λ _, 0) false h)) h.
Proof.
  intros Hc. unfold reject_credit_ai_request. apply triple_then; [done|].
  apply triple_pool; [done|done|done|]. intros [] h' Hc' Hg' Hp. split_and!; [done..|]. by apply settle_charges.
Qed.

(** An observation: nothing is asserted, and the call goes on later. *)
Lemma observe_spec i id generation charged usage (Q : result DbError unit → History → Prop) h :
  closed i h → (∀ e h', closed i h' → good h' → Q (Err e) h') →
  (∀ h', closed i h' → good h' → h `prefix_of` h' → Q (Ok tt) h') →
  triple i (observe_credit_ai_usage id generation charged usage) Q h.
Proof.
  intros Hc Hfail HQ. unfold observe_credit_ai_usage. destruct (_ || _).
  { intros h1 Hm. apply Hfail; [by eapply closed_meanwhile|apply Hm]. }
  apply triple_then; [done|]. apply triple_pool; [done|done|done|]. intros n h' Hc' Hg' Hp. split_and!; [done..|].
  destruct (negb _); intros h1 Hm; pose proof (closed_meanwhile _ _ _ _ _ _ _ Hc' Hm); [apply Hfail; [done|apply Hm]|].
  apply HQ; [done|apply Hm|]. etrans; [exact Hp|by eapply meanwhile_prefix].
Qed.

Lemma triple_db {A E} i (f : DbError → E) (q : dbprog A) (Q : result E A → History → Prop) h :
  triple i q (λ r h', ∀ h2, meanwhile i h' h2 → Q (match r with Ok a => Ok a | Err e => Err (f e) end) h2) h →
  triple i (map_err f q) Q h.
Proof. intros H. apply triple_bind. eapply triple_mono; [exact H|]. intros r h' _ _ Hq h2 H2. by apply Hq. Qed.

(** What comes next in a call starts at a later moment, with nothing open. *)
Definition goes_on (i : nat) (h h' : History) : Prop := closed i h' ∧ good h' ∧ h `prefix_of` h'.

Lemma goes_on_meanwhile i h h1 h2 : goes_on i h h1 → meanwhile i h1 h2 → goes_on i h h2.
Proof. intros (Hc & _ & Hp) Hm. split_and!; [by eapply closed_meanwhile|apply Hm|]. etrans; [exact Hp|by eapply meanwhile_prefix]. Qed.

Section gateway_calls.
Context {A E : Type} (i : nat) (h0 : History) (Q : result E A → History → Prop).
Context (Hfail : ∀ e h', closed i h' → good h' → Q (Err e) h').

Lemma observe_then (f : DbError → E) id generation charged usage (k : unit → cprog (result E A)) h :
  goes_on i h0 h → (∀ h', goes_on i h0 h' → triple i (k tt) Q h') →
  triple i (try_bind (map_err f (observe_credit_ai_usage id generation charged usage)) k) Q h.
Proof using Hfail.
  intros (Hc & Hg & Hp) Hk. apply triple_then; [done|]. apply triple_db. apply observe_spec; [done| |].
  - intros e h' Hc' Hg' h2 Hm. split_and!; [by eapply closed_meanwhile|apply Hm|done].
  - intros h' Hc' Hg' Hp' h2 Hm. assert (goes_on i h0 h2) as Ho.
    { eapply goes_on_meanwhile; [|exact Hm]. split_and!; [done..|by etrans]. }
    destruct Ho as (Hc2 & Hg2 & Hp2). split_and!; [done..|]. by apply Hk.
Qed.

Lemma settle_then (f : DbError → E) id charged provisional (k : unit → cprog (result E A)) h :
  goes_on i h0 h →
  (∀ h', goes_on i h0 h' → (∃ x, done_at i x (settled_at id charged provisional) h0 h') → triple i (k tt) Q h') →
  triple i (try_bind (map_err f (settle_credit_ai_request id charged provisional)) k) Q h.
Proof using Hfail.
  intros (Hc & Hg & Hp) Hk. apply triple_then; [done|]. apply triple_db. apply settle_call_spec; [done| |].
  - intros e h' Hc' Hg' h2 Hm. split_and!; [by eapply closed_meanwhile|apply Hm|done].
  - intros x h' Hc' Hg' Hd h2 Hm. pose proof (meanwhile_prefix _ _ _ _ _ _ _ Hm) as Hp2.
    assert (closed i h2) as Hc2 by (by eapply closed_meanwhile). assert (good h2) as Hg2 by apply Hm.
    assert (done_at i x (settled_at id charged provisional) h0 h2) as Hd2.
    { eapply done_at_later; [|exact Hp2]. by eapply done_at_earlier. }
    split_and!; [done..|]. apply Hk; [|by exists x]. split_and!; [done..|].
    destruct Hd2 as (h3 & H1 & H2 & _). etrans; [exact H1|]. etrans; [|exact H2]. by apply prefix_app_r.
Qed.

End gateway_calls.

Lemma settle_request_spec i id reserve (Q : result Outcome Z → History → Prop) h :
  closed i h → (∀ e h', closed i h' → good h' → Q (Err e) h') →
  (∀ charged x h', closed i h' → good h' → charged ≤ reserve → done_at i x (settled_at id charged false) h h' → Q (Ok charged) h') →
  triple i (settle_request id reserve) Q h.
Proof.
  intros Hc Hfail HQ. unfold settle_request. apply triple_bind, triple_outer. intros h1 Hm completion.
  assert (goes_on i h h1) as Hg1.
  { split_and!; [by eapply closed_meanwhile|apply Hm|by eapply meanwhile_prefix]. }
  assert (∀ e h', goes_on i h h' → triple i (Pure (Err e)) Q h') as Herr.
  { intros e h' Hg h2 H2. apply Hfail; by eapply goes_on_meanwhile. }
  destruct completion as [| |[observed|]]; [|by apply Herr|..|by apply Herr].
  - apply triple_then; [done|]. apply triple_db. eapply triple_mono; [apply reject_charges, Hg1|].
    intros r h2 _ _ (Hc2 & Hg2 & _) h3 H3. assert (closed i h3) as Hc3 by (by eapply closed_meanwhile).
    destruct r; split_and!; try done; try apply H3. intros h4 H4. apply Hfail; [by eapply closed_meanwhile|apply H4].
  - apply (observe_then i h Q Hfail DatabaseError); [done|]. intros h2 Hg2.
    destruct (ob_charged observed ≫= _) as [charged|] eqn:Hch; [|by apply Herr].
    assert (charged ≤ reserve) as Hle.
    { destruct (ob_charged observed) as [cost|]; [|done]. simpl in Hch. destruct (cost <=? reserve) eqn:Hl; [|done].
      injection Hch as <-. by apply Z.leb_le. }
    apply (settle_then i h Q Hfail DatabaseError); [done|]. intros h3 Hg3 [x Hd].
    destruct (ob_usable observed); [|by apply Herr]. intros h4 H4. pose proof (goes_on_meanwhile _ _ _ _ Hg3 H4) as (? & ? & ?).
    eapply HQ; [done..|]. eapply done_at_later; [exact Hd|by eapply meanwhile_prefix].
Qed.

Lemma recover_spec i fingerprint record (Q : result DbError unit → History → Prop) h :
  closed i h → any_end i Q → triple i (recover_record fingerprint record) Q h.
Proof.
  intros Hc HQ. unfold recover_record. apply triple_bind, triple_outer. intros h1 Hm now.
  assert (∀ id charged provisional h', closed i h' → triple i (settle_credit_ai_request id charged provisional) Q h') as Hsettle.
  { intros id charged provisional h' Hc'. apply settle_call_spec; [done|intros; by apply HQ|intros; by apply HQ]. }
  assert (∀ actual h', closed i h' → triple i
    (match actual with
     | Some charged => settle_credit_ai_request (rr_id record) charged false
     | None => if minutes 15 <=? now - rr_created record then settle_credit_ai_request (rr_id record) (rr_reserved record) true
               else Pure (Ok tt)
     end) Q h') as Hfinish.
  { intros [charged|] h' Hc'; [by apply Hsettle|]. destruct (_ <=? _); [by apply Hsettle|].
    intros h2 H2. apply HQ; [by eapply closed_meanwhile|apply H2]. }
  assert (closed i h1) as Hc1 by (by eapply closed_meanwhile).
  destruct (rr_observed record ≫= _) as [actual|]; [by apply (Hfinish (Some actual))|].
  destruct (rr_generation record) as [generation|]; [|by apply (Hfinish None)].
  destruct (_ && _); [|by apply (Hfinish None)].
  apply triple_bind, triple_outer. intros h2 Hm2 cost. apply Hfinish. by eapply closed_meanwhile.
Qed.

Lemma reconcile_spec i fingerprint id generation (Q : result ReconcileError Z → History → Prop) h :
  closed i h → (∀ e h', closed i h' → good h' → Q (Err e) h') →
  (∀ charged x h', closed i h' → good h' → done_at i x (settled_at id charged false) h h' → Q (Ok charged) h') →
  triple i (reconcile fingerprint id generation) Q h.
Proof.
  intros Hc Hfail HQ. unfold reconcile. apply triple_wait. intros h0 Hm0.
  assert (goes_on i h h0) as Hg0 by (split_and!; [by eapply closed_meanwhile|apply Hm0|by eapply meanwhile_prefix]).
  assert (∀ e h', goes_on i h h' → triple i (Pure (Err e)) Q h') as Herr.
  { intros e h' Hg h2 H2. apply Hfail; by eapply goes_on_meanwhile. }
  apply triple_then; [done|]. apply triple_db. unfold credit_ai_recovery_request. apply triple_then.
  { intros e h1 Hc1 Hg1 h2 H2. split_and!; [by eapply closed_meanwhile|apply H2|done]. }
  apply triple_pool; [done|apply Hg0|done|]. intros row h1 Hc1 Hg1 Hp1. split_and!; [done..|].
  assert (goes_on i h h1) as Hg1' by (split_and!; [done..|etrans; [apply Hg0|done]]).
  intros h2 H2 h3 H3. pose proof (goes_on_meanwhile _ _ _ _ (goes_on_meanwhile _ _ _ _ Hg1' H2) H3) as Hg3.
  destruct row as [record|]; (split_and!; [apply Hg3..|]); [|done].
  destruct (_ || _); [by apply Herr|]. apply triple_bind, triple_outer. intros h4 H4 [charged|];
    pose proof (goes_on_meanwhile _ _ _ _ Hg3 H4) as Hg4; [|by apply Herr].
  apply (observe_then i h Q Hfail ReconcileDatabase); [done|]. intros h5 Hg5.
  apply (settle_then i h Q Hfail ReconcileDatabase); [done|]. intros h6 Hg6 [x Hd].
  intros h7 H7. pose proof (goes_on_meanwhile _ _ _ _ Hg6 H7) as (? & ? & ?).
  eapply HQ; [done..|]. eapply done_at_later; [exact Hd|by eapply meanwhile_prefix].
Qed.
End calls.
