(* ===== verification/CreditsSafety.v ===== *)
(** * The credits gateway: what holds whatever happens

    The theorems about every run of the gateway ([gateway]): the tables move by
    [gateway_step] alone, so the books hold; and an answer says what happened. *)

From stdpp Require Import base gmap strings list relations.
From Stdlib Require Import ZArith Ascii Lia.
From S2P Require Import Prelude Text Nostr Effect Postgres Credits CreditsSpec CreditsBooks CreditsLocks CreditsCalls.

Local Open Scope Z_scope.
Local Open Scope list_scope.

#[local] Opaque ai_source is_ai core.

(** The charge a call's answer reports: of which request, and whether it is an estimate. *)
Definition charge_of (c : Call) (out : Out) : option (Uuid * Z * bool) :=
  match c, out with
  | CallSettle id charged provisional, OutUnit (Ok tt) => Some (id, charged, provisional)
  | CallReject id, OutUnit (Ok tt) => Some (id, 0, false)
  | CallSettleRequest id _, OutCharged (Ok charged) => Some (id, charged, false)
  | CallReconcile _ id _, OutReconciled (Ok charged) => Some (id, charged, false)
  | _, _ => None
  end.

(** *** What was so *)

(** What the rest of the system had said by the end of a history. *)
Definition past_of (h : list (SqlEntry Write Lock)) : Past :=
  {| was_owner community agent owner := ∃ h0, h0 `prefix_of` h ∧ users (tables h0) !! (community, agent) = Some (Some owner);
     was_writable community := ∃ h0, h0 `prefix_of` h ∧ community ∈ writable (tables h0) |}.

Lemma within_past_of h0 h : h0 `prefix_of` h → within (past_of h) (tables h0).
Proof. intros Hp. split; [intros ??? Hu|intros ? Hw]; by exists h0. Qed.

(** The rest of the system, saying nothing that is not in [past]. *)
Definition extern_in (past : Past) (c : CreditDb) (w : Write) (ls : list Lock) : Prop :=
  extern c w ls ∧ within past (apply w c).

Section safety.
Context (p : GatewayPolicy) (past : Past).

Abbreviation History := (list (SqlEntry Write Lock)).
Abbreviation steps := (gateway_steps p past).
Abbreviation done_at := (done_at p past).
Abbreviation admit_done := (admit_done p past).
Abbreviation good := (good apply empty_db steps (stable p)).
Abbreviation closed := (closed apply empty_db).
Abbreviation triple := (triple fst (sql_react apply exec empty_db (outer:=gateway_answer)) good (λ _ : History, True)).

#[local] Instance safety_preorder : PreOrder steps := gateway_steps_preorder p past.

(** What is promised of a finished call. *)
Definition post (c : Call) (i start : nat) (out : Out) (h : History) : Prop :=
  match c, out with
  | CallAdmit a, OutAdmission (Ok adm) => admit_done i a adm (take start h) h
  | CallDebit account source amount _ _, OutDebit (Ok DebitApplied) =>
      ∃ x, done_at i x (λ v, entry_amount account (`source) v = Some (- amount)) (take start h) h
  | _, _ =>
      match charge_of c out with
      | Some (id, charged, provisional) => ∃ x, done_at i x (settled_at id charged provisional) (take start h) h
      | None => True
      end
  end.

Lemma take_prefix {A} (h h' : list A) : h `prefix_of` h' → take (length h) h' = h.
Proof. intros [l ->]. by rewrite take_app_length. Qed.

Lemma done_prefix i x F h h' : done_at i x F h h' → h `prefix_of` h'.
Proof. intros (h1 & H1 & H2 & _). etrans; [exact H1|]. etrans; [|exact H2]. by apply prefix_app_r. Qed.

Lemma done_from i x F h h' : done_at i x F h h' → done_at i x F (take (length h) h') h'.
Proof. intros Hd. by rewrite (take_prefix h h') by (by eapply done_prefix). Qed.

Lemma admit_from i a adm h h' : admit_done i a adm h h' → admit_done i a adm (take (length h) h') h'.
Proof.
  intros Hd. rewrite (take_prefix h h'); [done|]. destruct Hd as (x & h1 & H1 & H2 & _). etrans; [exact H1|]. etrans; [|exact H2]. by apply prefix_app_r.
Qed.

Lemma done_later i x F h0 h h' : done_at i x F h0 h → h `prefix_of` h' → done_at i x F h0 h'.
Proof. intros (h1 & H1 & H2 & H3) Hp. exists h1. split_and!; [done|by etrans|apply H3..]. Qed.

Lemma admit_later i a adm h0 h h' : admit_done i a adm h0 h → h `prefix_of` h' → admit_done i a adm h0 h'.
Proof. intros (x & h1 & H1 & H2 & H3) Hp. exists x, h1. split; [done|]. split; [by etrans|done]. Qed.

Lemma fresh_closed i (h : History) : Forall (λ e, fst e ≠ Some i) h → closed i h.
Proof. intros Hf. apply (closed_app apply empty_db i [] h Hf). apply lookup_empty. Qed.

(** Whatever holds at the end of a call's program holds of its answer. *)
Lemma triple_returns {A} i (f : A → Out) (q : cprog A) (Q : Out → History → Prop) h :
  triple i q (λ a h', ∀ h2, meanwhile fst good (λ _, True) i h' h2 → Q (f a) h2) h → triple i (returns f q) Q h.
Proof. intros H. apply triple_bind. eapply triple_mono; [exact H|]. intros a h' _ _ Hq h2 H2. by apply Hq. Qed.

Lemma program_spec c i h :
  good h → True → Forall (λ e, fst e ≠ Some i) h → triple i (program p c) (post c i (length h)) h.
Proof.
  intros Hg _ Hf%fresh_closed. destruct c; simpl program; apply triple_returns.
  - by apply create_session_spec.
  - unfold credit_ai_account_is_free. case_bool_decide; [done|]. apply triple_then; [done|].
    apply triple_pool; [done|done|done|]. intros r h1 Hc1 Hg1 _. by split_and!.
  - by apply triple_pool.
  - apply admit_spec; [done|done|]. intros adm h1 _ _ Hd h2 H2. eapply admit_from, admit_later; [exact Hd|by eapply meanwhile_prefix].
  - eapply triple_mono; [by apply reject_charges|]. intros [[]|e] h1 _ _ (_ & _ & Hq) h2 H2; [|done].
    destruct Hq as [x Hd]. exists x. eapply done_from, done_later; [exact Hd|by eapply meanwhile_prefix].
  - by apply observe_spec.
  - apply settle_call_spec; [done|done|]. intros x h1 _ _ Hd h2 H2. exists x.
    eapply done_from, done_later; [exact Hd|by eapply meanwhile_prefix].
  - by apply triple_pool.
  - unfold credit_ai_recovery_request. apply triple_then; [done|]. apply triple_pool; [done|done|done|].
    intros r h1 Hc1 Hg1 _. split_and!; [done..|]. by destruct r.
  - apply debit_spec; [apply (proj2_sig source)|done| |]. 2: { intros x h1 _ _ Hd h2 H2. exists x. eapply done_from, done_later; [exact Hd|by eapply meanwhile_prefix]. }
    by intros [[]|e] h1 Hr _ _ h2 _.
  - apply settle_request_spec; [done|done|]. intros charged x h1 _ _ _ Hd h2 H2. exists x.
    eapply done_from, done_later; [exact Hd|by eapply meanwhile_prefix].
  - by apply recover_spec.
  - apply reconcile_spec; [done|done|]. intros charged x h1 _ _ Hd h2 H2. exists x.
    eapply done_from, done_later; [exact Hd|by eapply meanwhile_prefix].
Qed.

(** ** Every run *)

Lemma extern_guaranteed c w ls : steps empty_db c → extern_in past c w ls → guaranteed steps (stable p) ls c (apply w c).
Proof.
  intros Hc [Hex Hwi]. destruct w; try done.
  - destruct Hex as (Hai & Hn & Hpos & ->). split.
    + apply rtc_once. apply step_entry; [done..|]. pose proof (bk_balance _ _ (reachable_books p past c Hc) account). lia.
    + intros L Hd. eapply (allowed_stable p [LEntry account source]); [|done]. split_and!; [done|by left|by right].
  - simpl in Hex. subst ls. apply (calm_guaranteed p past _ c [WAccount id a]); [|done]. repeat constructor.
  - destruct Hex as (-> & _ & Hr & _). split.
    + apply rtc_once. apply step_calm; [|done..]. intros a [x Ha]. simpl. destruct (decide (a = id)) as [->|Hne].
      * right. intros id'. unfold mine. destruct (requests c !! id') as [r|] eqn:Hrow; [|done]. simpl.
        rewrite bool_decide_eq_false_2; [done|]. by eapply Hr.
      * left. rewrite lookup_delete_ne by done. by exists x.
    + intros L Hd. eapply (allowed_stable p [LAccount id]); [by left|done].
  - simpl in Hex. subst ls. apply (calm_guaranteed p past _ c [WUser community agent owner]); [|done]. repeat constructor.
  - simpl in Hex. subst ls. apply (calm_guaranteed p past _ c [WWritable community allowed]); [|done]. repeat constructor.
Qed.

(** The runs in which nothing else was ever said. *)
Definition gateway_in : GatewayMachine → Prop :=
  machine_reachable (sql_react apply exec empty_db (outer:=gateway_answer)) (sql_outside apply empty_db (extern_in past)) (program p).

Lemma gateway_in_sound s :
  gateway_in s →
  good (history s) ∧ ∀ i c start out, tasks s !! i = Some (Build_Task c start (Pure out)) → post c i start out (history s).
Proof.
  intros Hs. eapply (triple_sound fst (sql_react apply exec empty_db (outer:=gateway_answer)) (sql_outside apply empty_db (extern_in past))
    (program p) good (λ _, True) post); [done|constructor|intros *; apply sql_react_author| |by intros; apply program_spec|exact Hs|done].
  intros h e Hg He _. eapply sql_outside_good; [exact _|exact extern_guaranteed|done..].
Qed.

(** *** Moments of the past *)

Lemma prefix_moves (h h' : History) : good h' → h `prefix_of` h' → steps (tables h) (tables h').
Proof.
  intros Hg [l ->]. unfold tables. by eapply good_steps_between; [exact _..|].
Qed.

Lemma prefix_row (h h' : History) id r :
  good h' → h `prefix_of` h' → requests (tables h) !! id = Some r → ∃ r', requests (tables h') !! id = Some r' ∧ forward r r'.
Proof.
  intros Hg Hp Hr. eapply (gateway_forward p past); [|by apply prefix_moves|done].
  destruct Hp as [l ->]. apply (good_books p past). by eapply good_app_l.
Qed.

Lemma tables_commit i x (h : History) :
  opened (store_of apply empty_db h) !! i = Some x → tables (h ++ [(Some i, ACommit)]) = apply_ws (x_writes x) (tables h).
Proof. intros Ho. unfold tables. rewrite store_of_snoc. simpl. by rewrite Ho. Qed.

Lemma settled_since i x id charged provisional h0 h :
  good h → done_at i x (settled_at id charged provisional) h0 h →
  ∃ r, requests (tables h) !! id = Some r ∧ rq_status r ≠ StatusPending ∧ spending r ≤ charged ∧
    (provisional = false → rq_status r = StatusSettled ∧ rq_charged r = Some charged).
Proof.
  intros Hg (h1 & _ & Hp & _ & Ho & _ & (r & Hr & Hch & Hst)). rewrite <-(tables_commit i x h1 Ho) in Hr.
  destruct (prefix_row _ _ _ _ Hg Hp Hr) as (r' & Hr' & [_ Hset Hleft Hle]). exists r'. split; [done|]. split; [|split].
  - apply Hleft. destruct provisional; [done|congruence].
  - unfold spending in Hle at 2. by rewrite Hch in Hle.
  - intros ->. by rewrite <-Hch; apply Hset.
Qed.

(** A new request is there from its commit on, and was not before. *)
Definition admitted_new (i : nat) (id : Uuid) (h : History) : Prop :=
  ∃ h1, h1 ++ [(Some i, ACommit)] `prefix_of` h ∧ requests (tables h1) !! id = None ∧
    is_Some (requests (tables (h1 ++ [(Some i, ACommit)])) !! id).

Lemma admitted_new_of i a account h0 h : admit_done i a (AdmissionNew account) h0 h → admitted_new i (aa_request a) h.
Proof.
  intros (x & h1 & _ & Hp & _ & Ho & (payer & ac & _ & _ & -> & Hn & (r & Hr & _))). exists h1. split; [done|]. split; [done|].
  rewrite (tables_commit i x h1 Ho). by exists r.
Qed.

Lemma admitted_new_before i j h1 h2 id :
  good h2 → h1 ++ [(Some i, ACommit)] `prefix_of` h2 ++ [(Some j, ACommit)] →
  is_Some (requests (tables (h1 ++ [(Some i, ACommit)])) !! id) → requests (tables h2) !! id = None → i = j.
Proof.
  intros Hg [Heq|Hp]%prefix_snoc [r Hr] Hn; [by apply app_inj_tail in Heq as [_ [= ->]]|].
  destruct (prefix_row _ _ _ _ Hg Hp Hr) as (r' & Hr' & _). congruence.
Qed.

Lemma prefix_good (h h' : History) : good h' → h `prefix_of` h' → good h.
Proof. intros Hg [l ->]. by eapply good_app_l. Qed.

Lemma admitted_new_once i j id h : good h → admitted_new i id h → admitted_new j id h → i = j.
Proof.
  intros Hg (h1 & Hp1 & Hn1 & Hs1) (h2 & Hp2 & Hn2 & Hs2).
  pose proof (good_app_l _ _ _ _ _ _ (prefix_good _ _ Hg Hp1)) as Hg1. pose proof (good_app_l _ _ _ _ _ _ (prefix_good _ _ Hg Hp2)) as Hg2.
  destruct (prefix_weak_total _ _ _ Hp1 Hp2) as [Hp|Hp]; [|symmetry]; by eapply admitted_new_before; [|exact Hp|..].
Qed.

End safety.

#[local] Instance runs_preorder p past : PreOrder (gateway_steps p past) := gateway_steps_preorder p past.

(** ** The theorems *)

Section theorems.
Context (p : GatewayPolicy).

Abbreviation History := (list (SqlEntry Write Lock)).
Abbreviation good past := (good apply empty_db (gateway_steps p past) (stable p)).

(** A run is one in which nothing was said but what it said. *)
Lemma run_within s : gateway p s → gateway_in p (past_of (history s)) s.
Proof.
  apply machine_restrict. intros h e Hp [[j ->]|(w & ls & -> & He & Hf)]; [left; by exists j|].
  right. exists w, ls. split; [done|]. split; [|done]. split; [done|].
  apply within_past_of in Hp. unfold tables in Hp. by rewrite store_of_snoc in Hp.
Qed.

Lemma gateway_sound s :
  gateway p s →
  good (past_of (history s)) (history s) ∧
  ∀ i c start out, tasks s !! i = Some (Build_Task c start (Pure out)) → post p (past_of (history s)) c i start out (history s).
Proof. intros Hs. by apply gateway_in_sound, run_within. Qed.

(** So at every moment of it. *)
Lemma gateway_moment s h : gateway p s → h `prefix_of` history s → good (past_of h) h.
Proof.
  intros Hs Hp. destruct (machine_moment _ _ _ _ h (λ i op h r l, sql_react_short apply exec empty_db i op h r l) Hs Hp) as (s0 & Hs0 & <-).
  by apply gateway_sound.
Qed.

(** The tables after everything that happened. *)
Definition database (s : GatewayMachine) : CreditDb := tables (history s).

(** From any moment to any later one, the tables moved by whole steps, each of them
    allowed by what had been so by then. *)
Definition moved_by_steps (h : History) : Prop :=
  ∀ h0 l l', h = (h0 ++ l) ++ l' → gateway_steps p (past_of (h0 ++ l)) (tables h0) (tables (h0 ++ l)).

(** The admission says what happened since the call came. *)
Definition admission_true (i : nat) (a : AdmitArgs) (adm : Admission) (start : nat) (h : History) : Prop :=
  admit_done p (past_of h) i a adm (take start h) h.

(** C5. At READ COMMITTED, with any number of calls of any number of relays
    interleaved statement by statement, connections lost and commits in doubt, the
    committed tables only ever move by whole [gateway_step]s.  A hold is placed under
    all its conditions at once: the call's session is that agent's in that community,
    neither revoked nor expired; its account, of verified address, pays, and the agent
    had had its key as owner and the community been open to writes by then; the request
    is new, nothing else of the session is pending, and the limit in flight (of a free
    account if the address is listed), the daily cap and, unless free, the balance
    allow it.  A settlement comes with exactly its ledger rows; a credit or debit of
    another service is one the balance covers; and whatever else changes touches
    neither ledger nor journal, what the journal keeps for recovery aside, nor removes
    an account that has requests. *)
Theorem gateway_serializable s : gateway p s → moved_by_steps (history s).
Proof.
  intros Hs h0 l l' Heq. apply (prefix_moves p); [|by apply prefix_app_r]. apply (gateway_moment s); [done|].
  rewrite Heq. by apply prefix_app_r.
Qed.

(** C6. The books balance: an account's balance is never negative, and is what other
    services credited and debited, less what its funded requests hold (the reserve
    while pending, the charge after); and every request is in one of the states of the
    journal with exactly the ledger rows of that state: a hold, then its release and
    the usage, then at most one correction.  A free account's requests have none. *)
Theorem books_balanced s :
  gateway p s → let d := database s in
  (∀ a, 0 ≤ balance a d ∧ balance a d = others a d - owed a d) ∧
  (∀ id r, requests d !! id = Some r → charged_ok r ∧ entries_ok r (entries_of (rq_account r) id d)).
Proof.
  intros [Hg _]%gateway_sound. pose proof (good_books p _ _ Hg) as Hb. split; [|apply (bk_row p _ Hb)].
  intros a. split; [apply (bk_balance p _ Hb)|apply (bk_sum p _ Hb)].
Qed.

(** C14. The limits hold whatever runs at once: the reserves and charges of the requests
    of any one UTC day stay within the global cap, across all accounts, free ones
    included; and at most four funded requests of an account are in flight, at most
    the larger of the two limits of any, and at most one of a session. *)
Theorem limits_hold s :
  gateway p s → let d := database s in
  (∀ cap day, global_daily_cap_nanousd p = Some cap → cap < i64_max → spent_on day d ≤ Z.max 0 cap) ∧
  (∀ a, funded_pending a d ≤ 4 ∧ pending_of a d ≤ Z.max 4 (free_ai_max_in_flight p)) ∧
  (∀ sess id id', pend sess d id = true → pend sess d id' = true → id = id').
Proof.
  intros [Hg _]%gateway_sound. pose proof (good_books p _ _ Hg) as Hb. split; [apply (bk_cap p _ Hb)|split].
  - intros a. split; [apply (bk_funded p _ Hb)|apply (bk_pending p _ Hb)].
  - intros sess id id'. apply (bk_session p _ Hb).
Qed.

(** C19. What an admission answers is so, of the account that pays for it: the one the
    call's session names, which at moments of the call had the agent's owner as its key
    while the community could be written, and which at the commit still has its
    verified address and the session neither revoked nor expired.  A new request was
    not there before the commit and is there, pending, on the caller's terms after it;
    one seen before is this account's own, with the status and charge reported; busy is
    this account at its limit in flight (which depends on its address) or a request of
    it pending on the session; insufficient is this account, not free, with less than
    the reserve at a moment of the call; the daily limit is the cap exceeded at such a
    moment.  A request is admitted as new to one call only. *)
Theorem admit_truthful s i a start adm :
  gateway p s → tasks s !! i = Some (Build_Task (CallAdmit a) start (Pure (OutAdmission (Ok adm)))) →
  admission_true i a adm start (history s) ∧
  ∀ j a' start' account account',
    tasks s !! j = Some (Build_Task (CallAdmit a') start' (Pure (OutAdmission (Ok (AdmissionNew account'))))) →
    aa_request a' = aa_request a → adm = AdmissionNew account → i = j.
Proof.
  intros [Hg Hpost]%gateway_sound Hi. pose proof (Hpost _ _ _ _ Hi) as Hd. split; [exact Hd|].
  intros j a' start' account account' Hj Hid ->. pose proof (Hpost _ _ _ _ Hj) as Hd'.
  eapply admitted_new_once; [exact Hg|by eapply admitted_new_of|]. rewrite <-Hid. by eapply admitted_new_of.
Qed.

(** C12. A call that answers with a charge has it: the request is no longer pending
    and costs its account at most that, and exactly that, for good, unless it was an
    estimate.  So of a settlement, a rejection (nothing), a completed provider call
    and an operator's reconciliation. *)
Theorem charged_as_told s i c start out id charged provisional :
  gateway p s → tasks s !! i = Some (Build_Task c start (Pure out)) → charge_of c out = Some (id, charged, provisional) →
  ∃ r, requests (tables (history s)) !! id = Some r ∧ rq_status r ≠ StatusPending ∧ spending r ≤ charged ∧
    (provisional = false → rq_status r = StatusSettled ∧ rq_charged r = Some charged).
Proof.
  intros [Hg Hpost]%gateway_sound Hi Hc. pose proof (Hpost _ _ _ _ Hi) as Hd. unfold post in Hd. rewrite Hc in Hd.
  destruct c, out; try done; destruct Hd as [x Hd]; by eapply settled_since.
Qed.
End theorems.
