(* ===== verification/CreditsPricing.v ===== *)
(** * The credits gateway: prices, holds and limits

    [crates/buzz-relay/src/api/credits_gateway_metering.rs] (token prices),
    [credits_gateway_limits.rs] (the policy, from the environment), and from
    [credits_gateway_upstream.rs] the hold of a request and the reading of a
    returned cost.  Money is integer nanoUSD throughout, computed in [i128] with
    checked operations; what is charged is exact ([charge_exact],
    [charge_decimal_exact]). *)

From stdpp Require Import base gmap strings list.
From Stdlib Require Import ZArith Ascii Lia.
From S2P Require Import Prelude Text Nostr Effect Postgres Credits CreditsSpec CreditsBooks CreditsLocks CreditsCalls CreditsSafety.

Local Open Scope Z_scope.
Local Open Scope list_scope.

(** ** Integers *)

Definition i128_min : Z := -(2 ^ 127).
Definition i128_max : Z := 2 ^ 127 - 1.

Definition checked (lo hi n : Z) : option Z := if (lo <=? n) && (n <=? hi) then Some n else None.

(** The result of a [checked_] operation of [i128]. *)
Definition i128 : Z → option Z := checked i128_min i128_max.

(** [i64::try_from(n)] *)
Definition to_i64 : Z → option Z := checked i64_min i64_max.

Definition is_ascii_digit (c : ascii) : bool := (48 <=? Z.of_N (N_of_ascii c)) && (Z.of_N (N_of_ascii c) <=? 57).

Fixpoint parse_int_digits (lo hi : Z) (negative : bool) (acc : Z) (s : string) : option Z :=
  match s with
  | EmptyString => Some acc
  | String c s' =>
      if is_ascii_digit c then
        let d := Z.of_N (N_of_ascii c) - 48 in
        let acc := if negative then acc * 10 - d else acc * 10 + d in
        if (lo <=? acc) && (acc <=? hi) then parse_int_digits lo hi negative acc s' else None
      else None
  end.

(** [s.parse()] of a signed integer type: a sign, then digits, no overflow. *)
Definition parse_int (lo hi : Z) (s : string) : option Z :=
  match s with
  | EmptyString => None
  | String "+"%char EmptyString | String "-"%char EmptyString => None
  | String "+"%char s' => parse_int_digits lo hi false 0 s'
  | String "-"%char s' => parse_int_digits lo hi true 0 s'
  | _ => parse_int_digits lo hi false 0 s
  end.

Definition parse_i32 : string → option Z := parse_int (-(2 ^ 31)) (2 ^ 31 - 1).
Definition parse_i64 : string → option Z := parse_int i64_min i64_max.
Definition parse_i128 : string → option Z := parse_int i128_min i128_max.

(** ** Token prices *)

Record TokenPrices := { input_nanousd_per_million : string; output_nanousd_per_million : string }.

Definition openrouter_ceiling : TokenPrices :=
  {| input_nanousd_per_million := "1000000000"; output_nanousd_per_million := "5000000000" |}.

Definition price (raw : string) : option Z :=
  if (String.length raw =? 0)%nat || (20 <? String.length raw)%nat || negb (chars_all is_ascii_digit raw) then None
  else parse_i128 raw.

(** The tokens are [u64]. *)
Definition charge (t : TokenPrices) (input output : Z) : option Z :=
  input ← (p ← price (input_nanousd_per_million t); i128 (input * p));
  output ← (p ← price (output_nanousd_per_million t); i128 (output * p));
  numerator ← (sum ← i128 (input + output); i128 (sum * 12));
  rounded ← i128 (numerator + 9999999);
  to_i64 (Z.quot rounded 10000000).

Definition prices_valid (t : TokenPrices) : bool := bool_decide (is_Some (charge t 1 1)).

Definition is_zero (t : TokenPrices) : bool :=
  forallb (λ raw, negb (String.length raw =? 0)%nat && chars_all (λ c, bool_decide (c = "0"%char)) raw)
    [input_nanousd_per_million t; output_nanousd_per_million t].

(** [get] is [usage.get(_).and_then(Value::as_u64)]. *)
Definition usage_charge (t : TokenPrices) (get : string → option Z) : option Z :=
  input ← get "prompt_tokens"%string; output ← get "completion_tokens"%string; charge t input output.

(** ** The hold of a request *)

Definition MAX_BODY : Z := 1024 * 1024.
Definition MAX_OUTPUT : Z := 4096.

Definition prompt_bound (bytes context_tokens : Z) : Z := Z.min (bytes * 2 + 32768) context_tokens.

Definition hold_prices (openrouter : bool) (prices : option TokenPrices) : option TokenPrices :=
  if openrouter then Some openrouter_ceiling else prices.

(** Of a body of [bytes] bytes; [None] is a refusal. *)
Definition hold_for (openrouter : bool) (prices : option TokenPrices) (bytes context_tokens : Z) : option Z :=
  if MAX_BODY <? bytes then None
  else
    prices ← hold_prices openrouter prices;
    reserve ← charge prices (prompt_bound bytes context_tokens) MAX_OUTPUT;
    let reserve := Z.max reserve 1 in
    if (1 <=? reserve) && (reserve <=? 400000000) then Some reserve else None.

(** Of the models that may answer, in order: the body for each and its prices. *)
Definition request_hold (openrouter : bool) (context_tokens : Z) (chain : list (Z * option TokenPrices)) : option Z :=
  match chain with
  | [] => None
  | primary :: fallbacks =>
      reserve ← hold_for openrouter primary.2 primary.1 context_tokens;
      if openrouter then Some reserve
      else
        foldl (λ reserve fallback, reserve ← reserve; other ← hold_for false fallback.2 fallback.1 context_tokens; Some (Z.max reserve other))
          (Some reserve) fallbacks
  end.

(** ** A returned cost *)

(** [s.split_once([..])] *)
Fixpoint split_once_by (p : ascii → bool) (s : string) : option (string * string) :=
  match s with
  | EmptyString => None
  | String c s' =>
      if p c then Some (EmptyString, s')
      else '(a, b) ← split_once_by p s'; Some (String c a, b)
  end.

Definition exponent_mark (c : ascii) : bool := bool_decide (c = "e"%char) || bool_decide (c = "E"%char).

Definition charge_scaled (digits scale : Z) : option Z :=
  numerator ← i128 (digits * 1200000000);
  result ← (if 0 <=? scale then
              denominator ← i128 (10 ^ scale); rounded ← i128 (numerator + (denominator - 1));
              Some (Z.quot rounded denominator)
            else power ← i128 (10 ^ (- scale)); i128 (numerator * power));
  to_i64 result.

Definition charge_decimal (raw : string) : option Z :=
  if (64 <? String.length raw)%nat || starts_with raw "-" || starts_with raw (String (ascii_of_nat 34) EmptyString) then None
  else
    parts ← match split_once_by exponent_mark raw with
            | Some (number, exponent) => e ← parse_i32 exponent; Some (number, e)
            | None => Some (raw, 0)
            end;
    let '(mantissa, exponent) := parts : string * Z in
    if negb ((-18 <=? exponent) && (exponent <=? 18)) then None
    else
      let '(whole, fraction) := default (mantissa, ""%string) (split_once "."%char mantissa) in
      if (String.length whole =? 0)%nat || (18 <? String.length fraction)%nat ||
         negb (chars_all is_ascii_digit (whole +:+ fraction)) then None
      else
        digits ← parse_i128 (whole +:+ fraction);
        charge_scaled digits (Z.of_nat (String.length fraction) - exponent).

(** What an answer is charged: its returned cost, or by the token table if there is
    no [cost] field at all. *)
Definition observed_charge (cost : option string) (has_cost : bool) (prices : option TokenPrices) (get : string → option Z) : option Z :=
  match cost with
  | Some cost => charge_decimal cost
  | None => if negb has_cost then prices ← prices; usage_charge prices get else None
  end.

(** ** The policy *)

Definition MAX_FREE_ACCOUNTS : nat := 64.
Definition MAX_FREE_IN_FLIGHT : Z := 256.
Definition DEFAULT_FREE_AI_MAX_IN_FLIGHT : Z := 32.

Fixpoint add_accounts (accounts items : list string) : list string :=
  match items with
  | [] => accounts
  | item :: items =>
      let email := to_ascii_lowercase (trim item) in
      if bool_decide (email = ""%string) || bool_decide (email ∈ accounts) then add_accounts accounts items
      else if negb (string_contains "@"%char email) || (254 <? String.length email)%nat then add_accounts accounts items
      else if (length accounts =? MAX_FREE_ACCOUNTS)%nat then accounts
      else add_accounts (accounts ++ [email]) items
  end.

Definition parse_accounts (raw : option string) : list string :=
  add_accounts [] (split_on ","%char (default ""%string raw)).

(** [raw.filter(|raw| !raw.trim().is_empty())] *)
Definition not_blank (raw : option string) : option string :=
  raw ← raw; if bool_decide (trim raw = ""%string) then None else Some raw.

Definition parse_in_flight (raw : option string) : Z :=
  match not_blank raw with
  | None => DEFAULT_FREE_AI_MAX_IN_FLIGHT
  | Some raw =>
      match parse_i64 (trim raw) with
      | Some value => if (1 <=? value) && (value <=? MAX_FREE_IN_FLIGHT) then value else DEFAULT_FREE_AI_MAX_IN_FLIGHT
      | None => DEFAULT_FREE_AI_MAX_IN_FLIGHT
      end
  end.

Definition parse_cap (raw : option string) : option Z :=
  raw ← not_blank raw;
  match parse_i64 (trim raw) with
  | Some value => if 0 <? value then Some value else Some 0
  | None => Some 0
  end.

Definition policy_from_lookup (lookup : string → option string) : GatewayPolicy :=
  {| free_ai_accounts := parse_accounts (lookup "COLONY_FREE_AI_ACCOUNTS"%string);
     free_ai_max_in_flight := parse_in_flight (lookup "COLONY_FREE_AI_MAX_IN_FLIGHT"%string);
     global_daily_cap_nanousd := parse_cap (lookup "COLONY_CREDITS_GLOBAL_DAILY_CAP_NANOUSD"%string) |}.

(** ** Lemmas *)

Lemma checked_Some lo hi n m : checked lo hi n = Some m ↔ m = n ∧ lo ≤ n ≤ hi.
Proof.
  unfold checked. destruct ((lo <=? n) && (n <=? hi)) eqn:H.
  - apply andb_true_iff in H as [?%Z.leb_le ?%Z.leb_le]. naive_solver.
  - apply andb_false_iff in H as [?%Z.leb_gt|?%Z.leb_gt]; (split; [done|lia]).
Qed.

(** The number a text of digits writes. *)
Fixpoint digits_from (acc : Z) (s : string) : Z :=
  match s with
  | EmptyString => acc
  | String c s' => digits_from (acc * 10 + (Z.of_N (N_of_ascii c) - 48)) s'
  end.

Definition digits_value : string → Z := digits_from 0.

Lemma digit_range c : is_ascii_digit c = true → 0 ≤ Z.of_N (N_of_ascii c) - 48 ≤ 9.
Proof. unfold is_ascii_digit. intros [?%Z.leb_le ?%Z.leb_le]%andb_true_iff. lia. Qed.

Lemma digits_bounds acc s :
  chars_all is_ascii_digit s = true →
  acc * 10 ^ Z.of_nat (String.length s) ≤ digits_from acc s < (acc + 1) * 10 ^ Z.of_nat (String.length s).
Proof.
  revert acc. induction s as [|c s IH]; intros acc; cbn [chars_all digits_from String.length]; [lia|].
  intros [Hc%digit_range Hs]%andb_true_iff. specialize (IH (acc * 10 + (Z.of_N (N_of_ascii c) - 48)) Hs).
  rewrite Nat2Z.inj_succ, Z.pow_succ_r by lia. set (k := 10 ^ Z.of_nat (String.length s)) in *.
  assert (0 < k) by (apply Z.pow_pos_nonneg; lia). nia.
Qed.

Lemma digits_above acc s : 0 ≤ acc → chars_all is_ascii_digit s = true → acc ≤ digits_from acc s.
Proof.
  intros Ha Hs. pose proof (digits_bounds acc s Hs) as [Hle _].
  assert (0 < 10 ^ Z.of_nat (String.length s)) by (apply Z.pow_pos_nonneg; lia). nia.
Qed.

Lemma parse_digits_spec lo hi acc s v :
  lo ≤ 0 → 0 ≤ acc ≤ hi → chars_all is_ascii_digit s = true →
  parse_int_digits lo hi false acc s = Some v ↔ v = digits_from acc s ∧ v ≤ hi.
Proof.
  intros Hlo. revert acc. induction s as [|c s IH]; intros acc Hacc; cbn [chars_all digits_from parse_int_digits].
  - intros _. split; [intros [= <-]; lia|by intros [-> _]].
  - intros [Hc Hs]%andb_true_iff. rewrite Hc. pose proof (digit_range c Hc).
    set (acc' := acc * 10 + (Z.of_N (N_of_ascii c) - 48)). assert (0 ≤ acc') by lia.
    rewrite (proj2 (Z.leb_le lo acc')) by lia. destruct (Z.leb_spec acc' hi) as [Hle|Hgt]; simpl; [by apply IH|].
    split; [done|]. intros [-> Hle]. pose proof (digits_above acc' s ltac:(lia) Hs). lia.
Qed.

Lemma parse_i128_digits s v :
  s ≠ EmptyString → chars_all is_ascii_digit s = true → parse_i128 s = Some v ↔ v = digits_value s ∧ v ≤ i128_max.
Proof.
  intros Hne Hs. unfold digits_value. rewrite <-(parse_digits_spec i128_min i128_max 0 s v) by (done || unfold i128_min, i128_max; lia).
  destruct s as [|c s]; [done|]. apply andb_true_iff in Hs as [Hc _].
  by destruct c as [[] [] [] [] [] [] [] []].
Qed.

Lemma digits_small s n : chars_all is_ascii_digit s = true → (String.length s <= n)%nat → 0 ≤ digits_value s < 10 ^ Z.of_nat n.
Proof.
  intros Hs Hn. pose proof (digits_bounds 0 s Hs) as [H1 H2]. unfold digits_value.
  assert (10 ^ Z.of_nat (String.length s) ≤ 10 ^ Z.of_nat n) by (apply Z.pow_le_mono_r; lia). lia.
Qed.

(** [c] is [n / d], rounded up. *)
Definition rounds_up (n d c : Z) : Prop := d * (c - 1) < n ≤ d * c.

Lemma quot_rounds_up n d c : 0 ≤ n → 0 < d → Z.quot (n + (d - 1)) d = c ↔ rounds_up n d c.
Proof.
  intros Hn Hd. rewrite Z.quot_div_nonneg by lia. unfold rounds_up. pose proof (Z.div_mod (n + (d - 1)) d ltac:(lia)) as Hdm.
  pose proof (Z.mod_pos_bound (n + (d - 1)) d ltac:(lia)). split; [intros <-|intros ?]; nia.
Qed.

Lemma rounds_up_mono n n' d c c' : 0 < d → n ≤ n' → rounds_up n d c → rounds_up n' d c' → c ≤ c'.
Proof. unfold rounds_up. nia. Qed.

(** *** Token prices *)

Lemma price_bounds raw v : price raw = Some v → 0 ≤ v < 10 ^ 20.
Proof.
  unfold price. destruct (_ || _) eqn:Hc; [done|].
  apply orb_false_iff in Hc as [Hc Hd%negb_false_iff]. apply orb_false_iff in Hc as [Hne%Nat.eqb_neq Hlen%Nat.ltb_ge].
  intros [-> _]%parse_i128_digits; [|by intros ->|done]. by apply (digits_small raw 20).
Qed.

Definition u64_bounded (n : Z) : Prop := 0 ≤ n < 2 ^ 64.

(** What a charge is, once the prices are read. *)
Lemma charge_computed t input output pi po :
  u64_bounded input → u64_bounded output →
  price (input_nanousd_per_million t) = Some pi → price (output_nanousd_per_million t) = Some po →
  ∀ c, charge t input output = Some c ↔ rounds_up (12 * (input * pi + output * po)) 10000000 c ∧ c ≤ i64_max.
Proof.
  intros Hi Ho Hpi Hpo c. unfold charge. rewrite Hpi, Hpo. simpl. unfold u64_bounded in *.
  pose proof (price_bounds _ _ Hpi). pose proof (price_bounds _ _ Hpo).
  assert (0 ≤ input * pi ∧ 0 ≤ output * po) as [Hi0 Ho0] by nia.
  assert (∀ d, d = input * pi + output * po → rounds_up (12 * d) 10000000 c → c ≤ i64_max → d < 2 ^ 100) as Hsmall.
  { unfold rounds_up, i64_max. intros d _ ? ?. lia. }
  split.
  - destruct (i128 (input * pi)) as [a|] eqn:Ha; [|done]. destruct (i128 (output * po)) as [b|] eqn:Hb; [|done]. simpl.
    apply checked_Some in Ha as [-> _], Hb as [-> _]. destruct (i128 (_ + _)) as [s|] eqn:Hs; [|done]. simpl.
    apply checked_Some in Hs as [-> _]. destruct (i128 (_ * 12)) as [n|] eqn:Hn; [|done]. simpl. apply checked_Some in Hn as [-> _].
    destruct (i128 (_ + 9999999)) as [r|] eqn:Hr; [|done]. simpl. apply checked_Some in Hr as [-> _].
    intros [-> [_ Hmax]]%checked_Some. split; [|done].
    apply quot_rounds_up; [lia|lia|]. f_equal. lia.
  - intros [Hru Hmax]. specialize (Hsmall _ eq_refl Hru Hmax).
    assert (0 ≤ c) as Hc by (unfold rounds_up in Hru; lia).
    apply quot_rounds_up in Hru; [|lia..].
    assert (∀ n, 0 ≤ n < 2 ^ 110 → i128 n = Some n) as H128.
    { intros n Hn. apply checked_Some. unfold i128_min, i128_max. lia. }
    rewrite !H128 by lia. simpl. rewrite H128 by lia. simpl. rewrite H128 by lia. simpl. rewrite H128 by lia. simpl.
    apply checked_Some. rewrite <-Hru. unfold i64_min. split; [f_equal; lia|].
    replace ((input * pi + output * po) * 12 + 9999999) with (12 * (input * pi + output * po) + (10000000 - 1)) by lia. lia.
Qed.

Lemma charge_priced t input output c :
  charge t input output = Some c →
  ∃ pi po, price (input_nanousd_per_million t) = Some pi ∧ price (output_nanousd_per_million t) = Some po.
Proof.
  unfold charge. destruct (price (input_nanousd_per_million t)) as [pi|]; [|done]. simpl. destruct (i128 _); [|done]. simpl.
  destruct (price (output_nanousd_per_million t)) as [po|]; [|done]. eauto.
Qed.

(** A token charge is exact: tokens times prices per million, plus 20 percent,
    rounded up once.  It is refused only if a price is not a number of one to twenty
    digits or the charge does not fit [i64]; the checked steps on the way never
    overflow first. *)
Theorem charge_exact t input output c :
  u64_bounded input → u64_bounded output →
  charge t input output = Some c ↔
  ∃ pi po, price (input_nanousd_per_million t) = Some pi ∧ price (output_nanousd_per_million t) = Some po ∧
    rounds_up (12 * (input * pi + output * po)) 10000000 c ∧ c ≤ i64_max.
Proof.
  intros Hi Ho. split.
  - intros Hc. destruct (charge_priced _ _ _ _ Hc) as (pi & po & Hpi & Hpo). exists pi, po.
    split; [done|]. split; [done|]. by apply (charge_computed t input output pi po).
  - intros (pi & po & Hpi & Hpo & Hc). by apply (charge_computed t input output pi po).
Qed.

Lemma charge_mono t i o i' o' c c' :
  u64_bounded i → u64_bounded o → u64_bounded i' → u64_bounded o' → i ≤ i' → o ≤ o' →
  charge t i o = Some c → charge t i' o' = Some c' → c ≤ c'.
Proof.
  intros Hi Ho Hi' Ho' Hle1 Hle2 Hc Hc'. destruct (charge_priced _ _ _ _ Hc) as (pi & po & Hpi & Hpo).
  apply (charge_computed t i o pi po) in Hc as [Hc _]; [|done..]. apply (charge_computed t i' o' pi po) in Hc' as [Hc' _]; [|done..].
  eapply rounds_up_mono; [|..|exact Hc|exact Hc']; [lia|]. pose proof (price_bounds _ _ Hpi). pose proof (price_bounds _ _ Hpo). nia.
Qed.

(** *** Holds *)

Lemma hold_for_charge openrouter prices bytes context_tokens r :
  hold_for openrouter prices bytes context_tokens = Some r →
  bytes ≤ MAX_BODY ∧ 1 ≤ r ≤ 400000000 ∧
  ∃ t c, hold_prices openrouter prices = Some t ∧ charge t (prompt_bound bytes context_tokens) MAX_OUTPUT = Some c ∧ c ≤ r.
Proof.
  unfold hold_for. destruct (Z.ltb_spec MAX_BODY bytes) as [|Hb]; [done|].
  destruct (hold_prices openrouter prices) as [t|]; [|done]. simpl. destruct (charge t _ _) as [c|] eqn:Hc; [|done]. simpl.
  destruct (_ && _) eqn:Hr; [|done]. intros [= <-]. apply andb_true_iff in Hr as [?%Z.leb_le ?%Z.leb_le].
  split; [done|]. split; [done|]. exists t, c. split; [done|]. split; [done|lia].
Qed.

Lemma fold_holds context_tokens r0 l r :
  foldl (λ reserve fallback, reserve ← reserve; other ← hold_for false (snd fallback) (fst fallback) context_tokens; Some (Z.max reserve other)) r0 l = Some r →
  (∃ s, r0 = Some s ∧ s ≤ r ∧ (1 ≤ s ≤ 400000000 → 1 ≤ r ≤ 400000000)) ∧
  ∀ k, k ∈ l → ∃ s, hold_for false (snd k) (fst k) context_tokens = Some s ∧ s ≤ r.
Proof.
  revert r0. induction l as [|k l IH]; intros r0; simpl.
  - intros ->. split; [by exists r|]. by intros k ?%elem_of_nil.
  - intros [(s & Hs & Hle & Hb) Hl]%IH. destruct r0 as [r0|]; [|done]. simpl in Hs.
    destruct (hold_for false k.2 k.1 context_tokens) as [o|] eqn:Ho; [|done]. simpl in Hs. injection Hs as <-.
    pose proof (hold_for_charge _ _ _ _ _ Ho) as (_ & Hor & _). split; [exists r0; split; [done|]; lia|].
    intros k' [->|Hk']%elem_of_cons; [|by apply Hl]. exists o. split; [done|lia].
Qed.

Lemma request_hold_members openrouter context_tokens chain reserve :
  request_hold openrouter context_tokens chain = Some reserve →
  1 ≤ reserve ≤ 400000000 ∧
  ∀ k, k ∈ (if openrouter then take 1 chain else chain) → ∃ r, hold_for openrouter (snd k) (fst k) context_tokens = Some r ∧ r ≤ reserve.
Proof.
  unfold request_hold. destruct chain as [|k l]; [done|]. destruct (hold_for openrouter k.2 k.1 context_tokens) as [r|] eqn:Hr; [|done]. simpl.
  pose proof (hold_for_charge _ _ _ _ _ Hr) as (_ & Hb & _). destruct openrouter.
  - intros [= <-]. split; [done|]. intros k' ->%list_elem_of_singleton. by exists r.
  - intros [(s & [= <-] & Hle & Hbs) Hl]%fold_holds. split; [by apply Hbs|].
    intros k' [->|Hk']%elem_of_cons; [by exists r|by apply Hl].
Qed.

(** C28. A hold is one the ledger accepts, and covers what it is for: no usage within
    the prompt bound and the output limit is charged more than the reserve, whichever
    model of the chain answers. *)
Theorem hold_covers_usage openrouter context_tokens chain reserve :
  8192 ≤ context_tokens ≤ 312000 → request_hold openrouter context_tokens chain = Some reserve →
  1 ≤ reserve ≤ 400000000 ∧
  ∀ bytes prices t input output c,
    (bytes, prices) ∈ (if openrouter then take 1 chain else chain) → hold_prices openrouter prices = Some t →
    0 ≤ input ≤ prompt_bound bytes context_tokens → 0 ≤ output ≤ MAX_OUTPUT → charge t input output = Some c → c ≤ reserve.
Proof.
  intros Hctx [Hr Hk]%request_hold_members. split; [done|]. intros bytes prices t input output c Hin Ht Hi Ho Hc.
  destruct (Hk _ Hin) as (r & Hh & Hle). destruct (hold_for_charge _ _ _ _ _ Hh) as (_ & _ & (t' & c' & Ht' & Hc' & Hle')).
  simpl in Ht'. rewrite Ht in Ht'. injection Ht' as <-.
  assert (prompt_bound bytes context_tokens ≤ 312000) by (unfold prompt_bound; lia).
  assert (0 ≤ prompt_bound bytes context_tokens) by lia.
  transitivity c'; [|lia]. simpl in Hc'. unfold MAX_OUTPUT in *.
  eapply charge_mono; [..|exact Hc|exact Hc']; unfold u64_bounded; lia.
Qed.

(** *** Returned costs *)

(** [raw] writes [whole.fraction * 10 ^ exponent], as JSON numbers are written. *)
Inductive mantissa_of : string → string → string → Prop :=
  | mantissa_whole whole : mantissa_of whole whole EmptyString
  | mantissa_point whole fraction : mantissa_of (whole +:+ String "."%char fraction) whole fraction.

Inductive number_of : string → string → Z → Prop :=
  | number_plain m : number_of m m 0
  | number_exponent m c x e : exponent_mark c = true → parse_i32 x = Some e → number_of (m +:+ String c x) m e.

Record decimal_of (raw whole fraction : string) (exponent : Z) : Prop := {
  do_mantissa : ∃ m, number_of raw m exponent ∧ mantissa_of m whole fraction;
  do_digits : chars_all is_ascii_digit (whole +:+ fraction) = true;
  do_whole : whole ≠ EmptyString;
  do_length : (String.length raw <= 64)%nat;
  do_fraction : (String.length fraction <= 18)%nat;
  do_exponent : -18 ≤ exponent ≤ 18;
}.

(** Of [digits / 10 ^ scale] dollars: nanoUSD, plus 20 percent, rounded up. *)
Definition scaled_charge (digits scale c : Z) : Prop :=
  if 0 <=? scale then rounds_up (digits * 1200000000) (10 ^ scale) c else c = digits * 1200000000 * 10 ^ (- scale).

Lemma split_once_by_app p a c b :
  chars_all (λ c, negb (p c)) a = true → p c = true → split_once_by p (a +:+ String c b) = Some (a, b).
Proof.
  intros Ha Hc. induction a as [|d a IH]; simpl in *; [by rewrite Hc|].
  apply andb_true_iff in Ha as [Hd%negb_true_iff Ha]. by rewrite Hd, IH.
Qed.

Lemma split_once_by_none p a : chars_all (λ c, negb (p c)) a = true → split_once_by p a = None.
Proof.
  induction a as [|d a IH]; simpl; [done|]. intros [Hd%negb_true_iff Ha]%andb_true_iff. by rewrite Hd, IH.
Qed.

Lemma split_once_by_some p s a b : split_once_by p s = Some (a, b) → ∃ c, p c = true ∧ s = a +:+ String c b.
Proof.
  revert a. induction s as [|d s IH]; intros a; simpl; [done|]. destruct (p d) eqn:Hd; [intros [= <- <-]; eauto|].
  destruct (split_once_by p s) as [[a' b']|]; [|done]. simpl. intros [= <- <-]. destruct (IH _ eq_refl) as (c & Hc & ->). by exists c.
Qed.

Lemma split_once_some sep s a b : split_once sep s = Some (a, b) → s = a +:+ String sep b.
Proof.
  revert a. induction s as [|d s IH]; intros a; simpl; [done|]. case_bool_decide as Hd; [intros [= <- <-]; by subst|].
  destruct (split_once sep s) as [[a' b']|]; [|done]. simpl. intros [= <- <-]. by rewrite (IH _ eq_refl).
Qed.

Lemma split_once_none sep a : string_contains sep a = false → split_once sep a = None.
Proof.
  induction a as [|d a IH]; simpl; [done|]. intros [Hd Ha]%orb_false_iff. by rewrite Hd, IH.
Qed.

Lemma chars_all_app p a b : chars_all p (a +:+ b) = chars_all p a && chars_all p b.
Proof. induction a as [|c a IH]; simpl; [done|]. by rewrite IH, andb_assoc. Qed.

Lemma digit_no_mark c : is_ascii_digit c = true → negb (exponent_mark c) = true.
Proof. by destruct c as [[] [] [] [] [] [] [] []]. Qed.

Lemma digits_no_point s : chars_all is_ascii_digit s = true → string_contains "."%char s = false.
Proof.
  induction s as [|c s IH]; simpl; [done|]. intros [Hc Hs]%andb_true_iff. rewrite IH by done.
  by destruct c as [[] [] [] [] [] [] [] []].
Qed.

Lemma mantissa_split m whole fraction :
  mantissa_of m whole fraction → chars_all is_ascii_digit (whole +:+ fraction) = true →
  chars_all (λ c, negb (exponent_mark c)) m = true ∧ default (m, EmptyString) (split_once "."%char m) = (whole, fraction).
Proof.
  intros Hm Hd. rewrite chars_all_app in Hd. apply andb_true_iff in Hd as [Hw Hf].
  assert (∀ s, chars_all is_ascii_digit s = true → chars_all (λ c, negb (exponent_mark c)) s = true) as Hmark.
  { intros s. apply chars_all_impl. apply digit_no_mark. }
  destruct Hm as [whole|whole fraction].
  - rewrite split_once_none by (by apply digits_no_point). split; [by apply Hmark|done].
  - rewrite split_once_app by (by apply digits_no_point). split; [|done]. rewrite chars_all_app. simpl. by rewrite !Hmark.
Qed.

Lemma charge_scaled_sound digits scale c :
  0 ≤ digits → charge_scaled digits scale = Some c → scaled_charge digits scale c ∧ c ≤ i64_max.
Proof.
  intros Hd. unfold charge_scaled, scaled_charge. destruct (i128 (digits * _)) as [n|] eqn:Hn; [|done]. simpl. apply checked_Some in Hn as [-> _].
  destruct (Z.leb_spec 0 scale) as [Hs|Hs].
  - destruct (i128 (10 ^ scale)) as [k|] eqn:Hk; [|done]. simpl. apply checked_Some in Hk as [-> _].
    destruct (i128 (_ + _)) as [r|] eqn:Hr; [|done]. simpl. apply checked_Some in Hr as [-> _].
    intros [-> [_ Hmax]]%checked_Some. split; [|done].
    apply quot_rounds_up; [lia| |done]. apply Z.pow_pos_nonneg; lia.
  - destruct (i128 (10 ^ (- scale))) as [k|] eqn:Hk; [|done]. simpl. apply checked_Some in Hk as [-> _].
    destruct (i128 (_ * _)) as [r|] eqn:Hr; [|done]. simpl. apply checked_Some in Hr as [-> _]. by intros [-> [_ Hmax]]%checked_Some.
Qed.

Lemma charge_scaled_complete digits scale c :
  0 ≤ digits < 10 ^ 28 → -18 ≤ scale ≤ 36 → scaled_charge digits scale c → c ≤ i64_max → charge_scaled digits scale = Some c.
Proof.
  intros Hd Hs. unfold charge_scaled, scaled_charge.
  assert (∀ n, 0 ≤ n ≤ 10 ^ 38 → i128 n = Some n) as H128.
  { intros n Hn. apply checked_Some. unfold i128_min, i128_max. lia. }
  rewrite (H128 (digits * 1200000000)) by lia. simpl. destruct (Z.leb_spec 0 scale) as [Hp|Hp].
  - assert (0 < 10 ^ scale) by (apply Z.pow_pos_nonneg; lia). assert (10 ^ scale ≤ 10 ^ 36) by (apply Z.pow_le_mono_r; lia).
    intros Hc Hmax. rewrite (H128 (10 ^ scale)) by lia. simpl. rewrite (H128 (_ + _)) by lia. simpl.
    assert (0 ≤ c) by (unfold rounds_up in Hc; nia). apply quot_rounds_up in Hc; [|lia..]. rewrite Hc.
    apply checked_Some. unfold i64_min. lia.
  - assert (0 < 10 ^ (- scale)) by (apply Z.pow_pos_nonneg; lia). assert (10 ^ (- scale) ≤ 10 ^ 18) by (apply Z.pow_le_mono_r; lia).
    intros -> Hmax. rewrite (H128 (10 ^ (- scale))) by lia. simpl. unfold i64_max in Hmax. rewrite H128 by nia. simpl.
    apply checked_Some. unfold i64_min, i64_max. nia.
Qed.

Lemma decimal_parts raw whole fraction e :
  decimal_of raw whole fraction e →
  charge_decimal raw = (digits ← parse_i128 (whole +:+ fraction); charge_scaled digits (Z.of_nat (String.length fraction) - e)).
Proof.
  intros [(m & Hnum & Hman) Hd Hne Hlen Hfl He]. destruct (mantissa_split m whole fraction Hman Hd) as [Hmark Hsplit].
  assert (starts_with raw "-" = false ∧ starts_with raw (String (ascii_of_nat 34) EmptyString) = false) as [Hs1 Hs2].
  { destruct whole as [|d whole]; [done|]. simpl in Hd. apply andb_true_iff in Hd as [Hd _].
    assert (∃ t, raw = String d t) as [t ->].
    { inversion Hman; subst; inversion Hnum; subst; simpl; eauto. }
    by destruct d as [[] [] [] [] [] [] [] []]. }
  unfold charge_decimal. rewrite Hs1, Hs2. rewrite (proj2 (Nat.ltb_ge 64 _) Hlen). cbn [orb].
  assert (match split_once_by exponent_mark raw with
          | Some (number, exponent) => e ← parse_i32 exponent; Some (number, e)
          | None => Some (raw, 0)
          end = Some (m, e)) as ->.
  { destruct Hnum as [m|m c x e Hc Hx]; [by rewrite split_once_by_none|]. by rewrite split_once_by_app, Hx. }
  simpl. rewrite (proj2 (Z.leb_le (-18) e)), (proj2 (Z.leb_le e 18)) by lia. cbn [andb negb]. rewrite Hsplit.
  rewrite Hd, (proj2 (Nat.ltb_ge 18 _) Hfl). by destruct whole.
Qed.

Lemma charge_decimal_read raw c :
  charge_decimal raw = Some c → ∃ whole fraction e, decimal_of raw whole fraction e.
Proof.
  unfold charge_decimal. destruct (_ || _) eqn:Hc; [done|].
  apply orb_false_iff in Hc as [Hc _]. apply orb_false_iff in Hc as [Hlen%Nat.ltb_ge _].
  destruct (match split_once_by exponent_mark raw with
            | Some (number, exponent) => e ← parse_i32 exponent; Some (number, e)
            | None => Some (raw, 0)
            end) as [[m e]|] eqn:Hparts; [|done]. simpl.
  assert (number_of raw m e) as Hnum.
  { destruct (split_once_by exponent_mark raw) as [[number x]|] eqn:Hs.
    - destruct (parse_i32 x) as [e'|] eqn:Hx; [|done]. simpl in Hparts. injection Hparts as <- <-.
      apply split_once_by_some in Hs as (mark & Hm & ->). by constructor.
    - injection Hparts as <- <-. constructor. }
  destruct (negb _) eqn:He; [done|]. apply negb_false_iff, andb_true_iff in He as [?%Z.leb_le ?%Z.leb_le].
  destruct (default (m, EmptyString) (split_once "."%char m)) as [whole fraction] eqn:Hw.
  assert (mantissa_of m whole fraction) as Hman.
  { destruct (split_once "."%char m) as [[w f]|] eqn:Hs; simpl in Hw; injection Hw as <- <-; [|constructor].
    apply split_once_some in Hs as ->. constructor. }
  destruct (_ || _) eqn:Hc; [done|]. intros _.
  apply orb_false_iff in Hc as [Hc Hd%negb_false_iff]. apply orb_false_iff in Hc as [Hne%Nat.eqb_neq Hfl%Nat.ltb_ge].
  exists whole, fraction, e. split; [by exists m|done|by intros ->|done|done|done].
Qed.

(** C32. A returned cost is charged exactly: whatever [charge_decimal] accepts is a
    decimal number of dollars, and the charge is that number of nanoUSD plus 20
    percent, rounded up; and every number of at most 28 digits whose charge fits
    [i64] is accepted. *)
Theorem charge_decimal_exact raw c :
  (charge_decimal raw = Some c →
     ∃ whole fraction e, decimal_of raw whole fraction e ∧
       scaled_charge (digits_value (whole +:+ fraction)) (Z.of_nat (String.length fraction) - e) c ∧ c ≤ i64_max) ∧
  (∀ whole fraction e,
     decimal_of raw whole fraction e → (String.length (whole +:+ fraction) <= 28)%nat →
     scaled_charge (digits_value (whole +:+ fraction)) (Z.of_nat (String.length fraction) - e) c → c ≤ i64_max →
     charge_decimal raw = Some c).
Proof.
  split.
  - intros Hc. destruct (charge_decimal_read raw c Hc) as (whole & fraction & e & Hdec). exists whole, fraction, e.
    split; [done|]. rewrite (decimal_parts _ _ _ _ Hdec) in Hc. destruct Hdec as [_ Hd Hne _ _ _].
    destruct (parse_i128 (whole +:+ fraction)) as [n|] eqn:Hn; [|done]. apply parse_i128_digits in Hn as [-> _]; [|by destruct whole|done].
    apply charge_scaled_sound; [|done]. by apply (digits_small _ _ Hd (le_n _)).
  - intros whole fraction e Hdec Hlen Hc Hmax. rewrite (decimal_parts _ _ _ _ Hdec). destruct Hdec as [_ Hd Hne _ Hfl He].
    pose proof (digits_small _ 28 Hd Hlen) as Hsmall.
    assert (whole +:+ fraction ≠ EmptyString) as Hne' by (by destruct whole).
    rewrite (proj2 (parse_i128_digits _ (digits_value (whole +:+ fraction)) Hne' Hd)).
    + apply charge_scaled_complete; [done| |done|done]. lia.
    + split; [done|]. unfold i128_max. lia.
Qed.

(** *** The policy *)

Lemma add_accounts_sound accounts items :
  NoDup accounts → (length accounts <= MAX_FREE_ACCOUNTS)%nat →
  NoDup (add_accounts accounts items) ∧ (length (add_accounts accounts items) <= MAX_FREE_ACCOUNTS)%nat ∧
  ∀ email, email ∈ add_accounts accounts items →
    email ∈ accounts ∨ (email ≠ ""%string ∧ string_contains "@"%char email = true ∧ (String.length email <= 254)%nat ∧
      ∃ item, item ∈ items ∧ email = to_ascii_lowercase (trim item)).
Proof.
  revert accounts. induction items as [|item items IH]; intros accounts Hnd Hlen; [by split_and!; auto|].
  cbn [add_accounts]. set (email := to_ascii_lowercase (trim item)).
  assert (∀ l, NoDup l → (length l <= MAX_FREE_ACCOUNTS)%nat → (∀ e, e ∈ l → e ∈ accounts ∨
      (e ≠ ""%string ∧ string_contains "@"%char e = true ∧ (String.length e <= 254)%nat ∧ e = email)) →
    NoDup (add_accounts l items) ∧ (length (add_accounts l items) <= MAX_FREE_ACCOUNTS)%nat ∧
    ∀ e, e ∈ add_accounts l items → e ∈ accounts ∨ (e ≠ ""%string ∧ string_contains "@"%char e = true ∧ (String.length e <= 254)%nat ∧
      ∃ item', item' ∈ item :: items ∧ e = to_ascii_lowercase (trim item'))) as Hrest.
  { intros l Hl1 Hl2 Hl3. destruct (IH l Hl1 Hl2) as (A & B & C). split_and!; [done..|]. intros e He.
    destruct (C e He) as [He'|(H1 & H2 & H3 & i & Hi & ->)].
    - destruct (Hl3 e He') as [?|(H1 & H2 & H3 & ->)]; [by left|right]. split_and!; [done..|]. exists item. split; [by left|done].
    - right. split_and!; [done..|]. exists i. split; [by right|done]. }
  destruct (bool_decide (email = _) || _) eqn:Hskip; [apply Hrest; [done..|]; intros e He; by left|].
  apply orb_false_iff in Hskip as [Hne%bool_decide_eq_false Hnew%bool_decide_eq_false].
  destruct (negb _ || _) eqn:Hbad; [apply Hrest; [done..|]; intros e He; by left|].
  apply orb_false_iff in Hbad as [Hat%negb_false_iff Hle%Nat.ltb_ge].
  destruct (_ =? _)%nat eqn:Hfull; [split; [done|]; split; [done|]; intros e He; by left|].
  apply Nat.eqb_neq in Hfull. apply Hrest.
  - apply NoDup_app. split; [done|]. split; [by intros e He ->%list_elem_of_singleton|apply NoDup_singleton].
  - rewrite length_app. simpl. lia.
  - intros e [He| ->%list_elem_of_singleton]%elem_of_app; [by left|by right].
Qed.

Lemma parse_in_flight_bounds raw : 1 ≤ parse_in_flight raw ≤ 256.
Proof.
  unfold parse_in_flight, DEFAULT_FREE_AI_MAX_IN_FLIGHT, MAX_FREE_IN_FLIGHT. destruct (not_blank raw) as [r|]; [|lia].
  destruct (parse_i64 _) as [v|]; [|lia]. destruct (_ && _) eqn:Hv; [|lia]. apply andb_true_iff in Hv as [?%Z.leb_le ?%Z.leb_le]. lia.
Qed.

Lemma parse_cap_closed raw :
  trim raw ≠ ""%string → (∀ v, parse_i64 (trim raw) = Some v → v ≤ 0) → parse_cap (Some raw) = Some 0.
Proof.
  intros Hne Hv. unfold parse_cap, not_blank. simpl. rewrite bool_decide_eq_false_2 by done. simpl.
  destruct (parse_i64 (trim raw)) as [v|]; [|done]. specialize (Hv v eq_refl). by rewrite (proj2 (Z.ltb_ge 0 v)).
Qed.

(** Under a cap of nothing no request is ever admitted. *)
Lemma closed_cap_steps p past cap d d' :
  global_daily_cap_nanousd p = Some cap → cap ≤ 0 → gateway_steps p past d d' → requests d = ∅ → requests d' = ∅.
Proof.
  intros Hcap Hle. induction 1 as [|d d1 d2 Hstep _ IH]; [done|]. intros Hd. apply IH. destruct Hstep as [now account free a Hcan|now account id reserve previous charged provisional pending Hcan| |d1 _ _ Hc _].
  - exfalso. pose proof (ch_cap _ _ _ _ _ _ _ Hcan) as Hw. pose proof (ch_reserve _ _ _ _ _ _ _ Hcan). unfold within_cap in Hw. rewrite Hcap in Hw.
    unfold spent_since, i64_saturating_add, i64_min, i64_max in Hw. rewrite Hd, zsum_empty in Hw. lia.
  - destruct Hcan as [(r & Hr & _) _ _]. by rewrite Hd, lookup_empty in Hr.
  - done.
  - apply map_eq. intros id. specialize (Hc id). rewrite Hd, lookup_empty in *. by destruct (requests d1 !! id).
Qed.

(** C36. The policy read from the environment bounds every run: at most 64 free
    accounts, each a normalised address of the list, at most 256 requests of an
    account in flight; and a daily cap that is set but is not a positive integer
    closes the gateway: no request is ever admitted. *)
Theorem environment_limits lookup s :
  gateway (policy_from_lookup lookup) s →
  let accounts := free_ai_accounts (policy_from_lookup lookup) in
  let d := tables (history s) in
  ((length accounts <= 64)%nat ∧ NoDup accounts ∧
   ∀ email, email ∈ accounts → string_contains "@"%char email = true ∧ (String.length email <= 254)%nat ∧
     ∃ item, item ∈ split_on ","%char (default ""%string (lookup "COLONY_FREE_AI_ACCOUNTS"%string)) ∧ email = to_ascii_lowercase (trim item)) ∧
  (∀ a, pending_of a d ≤ 256) ∧
  (∀ raw, lookup "COLONY_CREDITS_GLOBAL_DAILY_CAP_NANOUSD"%string = Some raw → trim raw ≠ ""%string →
     (∀ v, parse_i64 (trim raw) = Some v → v ≤ 0) → requests d = ∅).
Proof.
  intros Hs accounts d. pose proof (gateway_sound _ s Hs) as [Hg _]. split; [|split].
  - destruct (add_accounts_sound [] (split_on ","%char (default ""%string (lookup "COLONY_FREE_AI_ACCOUNTS"%string)))
      (NoDup_nil_2) ltac:(simpl; lia)) as (H1 & H2 & H3). split; [exact H2|]. split; [exact H1|].
    intros email He. destruct (H3 email He) as [?%elem_of_nil|(_ & Hat & Hlen & Hi)]; [done|]. done.
  - intros a. etrans; [apply (bk_pending _ _ (good_books _ _ _ Hg) a)|]. simpl.
    pose proof (parse_in_flight_bounds (lookup "COLONY_FREE_AI_MAX_IN_FLIGHT"%string)). unfold MAX_IN_FLIGHT. lia.
  - intros raw Hraw Hne Hv. eapply (closed_cap_steps _ _ 0); [|done|by apply good_reachable|done].
    simpl. rewrite Hraw. by apply parse_cap_closed.
Qed.
