(* ===== verification/CreditsRun.v ===== *)
(** * The credits gateway: a run of it

    A run of [gateway], computed by [PostgresRun], in which two admissions on
    one balance overlap, one of them is charged, and an answer is asked for again: the
    input the witnesses of the theorems use. *)

From stdpp Require Import base gmap strings list relations.
From Stdlib Require Import ZArith Ascii Lia.
From S2P Require Import Prelude Text Nostr Effect Postgres PostgresRun Credits CreditsSpec CreditsBooks CreditsLocks CreditsCalls CreditsSafety CreditsPricing.

Local Open Scope Z_scope.
Local Open Scope list_scope.

#[export] Instance Lock_eq_dec : EqDecision Lock.
Proof. solve_decision. Defined.

(** ** What the world answers *)

Definition outer_reply (now : Z) (uuid : Uuid) (completion : Completion) (cost : option Z) (e : GatewayOp) : gateway_answer e :=
  match e with
  | NewUuid => uuid
  | Complete _ => completion
  | GenerationCost _ => cost
  | UtcNow => now
  end.

Definition externb (c : CreditDb) (w : Write) (ls : list Lock) : bool :=
  match w with
  | WEntry a s e => negb (is_ai s) && bool_decide (ledger c !! (a, s) = None) && (0 <=? le_amount e) && bool_decide (ls = [LEntry a s])
  | WAccount id _ => bool_decide (ls = [LAccount id])
  | WAccountGone id =>
      bool_decide (ls = [LAccount id]) && bool_decide (map_Forall (λ _ x, as_account x ≠ id) (sessions c)) &&
      bool_decide (map_Forall (λ _ x, rq_account x ≠ id) (requests c)) && bool_decide (map_Forall (λ k _, k.1 ≠ id) (ledger c))
  | WUser _ _ _ | WWritable _ _ => bool_decide (ls = [])
  | _ => false
  end.

Lemma externb_spec c w ls : externb c w ls = true → extern c w ls.
Proof.
  destruct w; simpl; rewrite ?andb_true_iff, ?negb_true_iff, ?bool_decide_eq_true, ?Z.leb_le; try naive_solver.
  intros [[[-> Hs] Hr] Hl]. split; [done|]. split; [exact Hs|]. split; [exact Hr|].
  intros s. apply eq_None_not_Some. intros [e He]. by apply (Hl _ _ He).
Qed.

(** ** The run *)

Abbreviation GatewayCmd := (@Cmd Write Lock GatewayOp gateway_answer Call).
Abbreviation GatewayReply := (@Reply GatewayOp gateway_answer).

Definition policy : GatewayPolicy :=
  {| free_ai_accounts := ["tester@example.org"]%string; free_ai_max_in_flight := 8; global_daily_cap_nanousd := Some 5000 |}.

Definition ready_at (now : Z) : GatewayReply := Build_Reply now true (outer_reply now "session-1" Ambiguous None).
Definition second : GatewayReply := Build_Reply (minutes 1) true (outer_reply (minutes 1) "session-2" Ambiguous None).
Definition answered : GatewayReply :=
  Build_Reply (minutes 3) true
    (outer_reply (minutes 3) "" (Answered (Some {| ob_generation := "gen-1"; ob_charged := Some 1500; ob_usable := true |})) None).

Definition digest16 : string := "0123456789abcdef".
Definition digest : string := (digest16 +:+ digest16 +:+ digest16 +:+ digest16)%string.

Definition asks (session agent request : string) : AdmitArgs :=
  {| aa_upstream := "provider"; aa_community := "community"%string; aa_agent := agent; aa_session := session;
     aa_request := request; aa_digest := digest; aa_reserve := 2000 |}.

Definition opening : list GatewayCmd :=
  [Outside (WAccount "payer" {| ac_pubkey := "aa"; ac_email := "payer@example.org"; ac_verified := true |}) [LAccount "payer"%string];
   Outside (WUser "community" "agent-1" (Some "aa"%string)) []; Outside (WUser "community" "agent-2" (Some "aa"%string)) [];
   Outside (WWritable "community" true) [];
   Outside (WEntry "payer" "stripe:1" {| le_type := Purchase; le_amount := 3000 |}) [LEntry "payer" "stripe:1"]] ++
  [Arrive (CallCreateSession "aa" "community" "agent-1"); Arrive (CallCreateSession "aa" "community" "agent-2")] ++
  repeat (Run 0 (ready_at (minutes 1))) 20 ++ repeat (Run 1 second) 20.

(** Two admissions overlap; the second waits for the payer and then lacks the balance. *)
Definition overlap : list GatewayCmd :=
  opening ++ [Arrive (CallAdmit (asks "session-1" "agent-1" "request-1")); Arrive (CallAdmit (asks "session-2" "agent-2" "request-2"))] ++
  repeat (Run 3 (ready_at (minutes 2))) 2 ++ repeat (Run 2 (ready_at (minutes 2))) 20 ++ repeat (Run 3 (ready_at (minutes 2))) 20.

(** The first is answered and charged, and asked for again; a transaction is lost;
    an account that nothing refers to is deleted. *)
Definition charged_run : list GatewayCmd :=
  overlap ++ [Arrive (CallSettleRequest "request-1" 2000)] ++ repeat (Run 4 answered) 30 ++
  [Arrive (CallAdmit (asks "session-1" "agent-1" "request-1"))] ++ repeat (Run 5 (ready_at (minutes 4))) 20 ++
  [Arrive (CallDebit "payer" (exist _ "email:1"%string eq_refl) 700 "A sent email" true)] ++ repeat (Run 6 (ready_at (minutes 5))) 3 ++
  [Lose 6; Outside (WAccount "idle" {| ac_pubkey := "bb"; ac_email := "idle@example.org"; ac_verified := true |}) [LAccount "idle"%string];
   Outside (WAccountGone "idle") [LAccount "idle"%string]].

(** The gateway under a cap that is not a number. *)
Definition misread (key : string) : option string :=
  if bool_decide (key = "COLONY_CREDITS_GLOBAL_DAILY_CAP_NANOUSD"%string) then Some "5e9"%string else None.

Definition closed_run : list GatewayCmd :=
  opening ++ [Arrive (CallAdmit (asks "session-1" "agent-1" "request-1"))] ++ repeat (Run 2 (ready_at (minutes 2))) 20.

Abbreviation run_under p script := (after_script apply exec [] empty_db (program p) externb script).
Abbreviation run script := (run_under policy script).

Lemma overlapped : gateway policy (run overlap).
Proof. apply script_reachable; [exact externb_spec|by vm_compute]. Qed.

Lemma charged_ran : gateway policy (run charged_run).
Proof. apply script_reachable; [exact externb_spec|by vm_compute]. Qed.

(** ** The witnesses *)

(** The commit of the first admission, and what came before and after it. *)
Definition before : list (SqlEntry Write Lock) := take 34 (history (run charged_run)).
Definition commit_2 : list (SqlEntry Write Lock) := [(Some 2%nat, ACommit)].
Definition after : list (SqlEntry Write Lock) := drop 35 (history (run charged_run)).

Lemma split_history : history (run charged_run) = (before ++ commit_2) ++ after.
Proof.
  assert (drop 34 (history (run charged_run)) = commit_2 ++ after) as H by (by vm_compute).
  rewrite <-app_assoc. exact (eq_trans (eq_sym (take_drop 34 _)) (f_equal (app before) H)).
Qed.

Lemma gateway_serializable_witness :
  requests (tables before) !! "request-1"%string = None ∧ is_Some (requests (tables (before ++ commit_2)) !! "request-1"%string) ∧
  gateway_steps policy (past_of (before ++ commit_2)) (tables before) (tables (before ++ commit_2)).
Proof.
  split; [by vm_compute|]. split; [by vm_compute; eexists|].
  exact (gateway_serializable policy _ charged_ran before commit_2 after split_history).
Defined.

Lemma books_balanced_witness :
  let d := tables (history (run charged_run)) in
  others "payer" d = 3000 ∧ owed "payer" d = 1500 ∧ balance "payer" d = others "payer" d - owed "payer" d ∧
  ∃ r, requests d !! "request-1"%string = Some r ∧ entries_ok r (entries_of (rq_account r) "request-1" d).
Proof.
  intros d. destruct (books_balanced policy _ charged_ran) as [Hb Hr]. split; [by vm_compute|]. split; [by vm_compute|].
  split; [exact (proj2 (Hb "payer"%string))|]. destruct (requests d !! "request-1"%string) as [r|] eqn:Hreq; [|by vm_compute in Hreq].
  exists r. split; [done|]. by apply Hr.
Defined.

Lemma limits_hold_witness :
  let d := tables (history (run overlap)) in
  spent_on (day_start (minutes 2)) d = 2000 ∧ spent_on (day_start (minutes 2)) d ≤ Z.max 0 5000 ∧
  funded_pending "payer" d = 1 ∧ funded_pending "payer" d ≤ 4.
Proof.
  intros d. destruct (limits_hold policy _ overlapped) as (Hcap & Hflight & _). split; [by vm_compute|].
  split; [exact (Hcap 5000 (day_start (minutes 2)) eq_refl ltac:(by vm_compute))|]. split; [by vm_compute|exact (proj1 (Hflight "payer"%string))].
Defined.

(** The first was let in, and the second refused for what its payer's balance was. *)
Lemma admit_truthful_witness :
  admission_true policy 2 (asks "session-1" "agent-1" "request-1") (AdmissionNew "payer"%string) 21 (history (run charged_run)) ∧
  ∃ now account ac h1 v, entitled now account ac (asks "session-2" "agent-2" "request-2") (tables h1) ∧ balance account v < 2000.
Proof.
  assert (tasks (run charged_run) !! 2%nat = Some (Build_Task (CallAdmit (asks "session-1" "agent-1" "request-1")) 21
    (Pure (OutAdmission (Ok (AdmissionNew "payer"%string)))))) as H by (by vm_compute).
  assert (tasks (run charged_run) !! 3%nat = Some (Build_Task (CallAdmit (asks "session-2" "agent-2" "request-2")) 21
    (Pure (OutAdmission (Ok AdmissionInsufficient))))) as H3 by (by vm_compute).
  split; [exact (proj1 (admit_truthful policy _ _ _ _ _ charged_ran H))|].
  destruct (proj1 (admit_truthful policy _ _ _ _ _ charged_ran H3)) as (x & h1 & _ & _ & _ & _ & (account & ac & Haz & _ & _ & _ & (hm & _ & _ & Hb))).
  destruct Haz as [_ (hp & _ & _ & Hen & _)]. exists (x_now x), account, ac, hp. eexists. split; [exact Hen|exact Hb].
Defined.

Lemma charged_as_told_witness :
  ∃ r, requests (tables (history (run charged_run))) !! "request-1"%string = Some r ∧ rq_status r = StatusSettled ∧ rq_charged r = Some 1500.
Proof.
  assert (tasks (run charged_run) !! 4%nat =
    Some (Build_Task (CallSettleRequest "request-1" 2000) 43 (Pure (OutCharged (Ok 1500))))) as H by (by vm_compute).
  destruct (charged_as_told policy _ _ _ _ _ _ _ _ charged_ran H eq_refl) as (r & Hr & _ & _ & Hs).
  exists r. exact (conj Hr (Hs eq_refl)).
Defined.

(** *** Pricing *)

Definition cheap : TokenPrices := {| input_nanousd_per_million := "100"; output_nanousd_per_million := "700" |}.
Definition dear : TokenPrices := {| input_nanousd_per_million := "200000"; output_nanousd_per_million := "700000" |}.

Lemma charge_exact_witness : ∃ pi po, rounds_up (12 * (1234567 * pi + 89 * po)) 10000000 149.
Proof.
  destruct (proj1 (charge_exact cheap 1234567 89 149 ltac:(by vm_compute) ltac:(by vm_compute)) ltac:(by vm_compute))
    as (pi & po & _ & _ & H & _).
  by exists pi, po.
Defined.

Lemma hold_covers_usage_witness :
  request_hold false 262144 [(5000, Some cheap); (5010, Some dear)] = Some 13710 ∧
  charge dear 40000 4096 = Some 13041 ∧ 13041 ≤ 13710.
Proof.
  assert (request_hold false 262144 [(5000, Some cheap); (5010, Some dear)] = Some 13710) as H by (by vm_compute).
  assert (charge dear 40000 4096 = Some 13041) as Hc by (by vm_compute).
  split; [exact H|]. split; [exact Hc|].
  refine (proj2 (hold_covers_usage false 262144 _ 13710 _ H) 5010 (Some dear) dear 40000 4096 13041 _ eq_refl _ _ Hc);
    [by vm_compute|by right; left|by vm_compute|by vm_compute].
Defined.

Lemma charge_decimal_exact_witness : charge_decimal "1.5E-4" = Some 180000.
Proof.
  apply (proj2 (charge_decimal_exact "1.5E-4" 180000) "1" "5" (-4)); [|by vm_compute; lia|by vm_compute|by vm_compute].
  split; [|by vm_compute|done|vm_compute; lia|vm_compute; lia|lia]. exists "1.5"%string. split.
  - exact (number_exponent "1.5" "E"%char "-4" (-4) eq_refl eq_refl).
  - exact (mantissa_point "1" "5").
Defined.

Lemma environment_limits_witness :
  tasks (run_under (policy_from_lookup misread) closed_run) !! 2%nat =
    Some (Build_Task (CallAdmit (asks "session-1" "agent-1" "request-1")) 21 (Pure (OutAdmission (Ok AdmissionDailyLimit)))) ∧
  requests (tables (history (run_under (policy_from_lookup misread) closed_run))) = ∅.
Proof.
  split; [by vm_compute|].
  assert (gateway (policy_from_lookup misread) (run_under (policy_from_lookup misread) closed_run)) as H by (apply script_reachable; [exact externb_spec|by vm_compute]).
  destruct (environment_limits misread _ H) as (_ & _ & Hclosed).
  apply (Hclosed "5e9"%string); [by vm_compute|by vm_compute|]. intros v Hv. by vm_compute in Hv.
Defined.
