(* ===== verification/Payments.v ===== *)
(** * Credit purchases

    The checkout intents and provider notifications of
    [crates/buzz-db/src/store/payments.rs], for PayFast and Stripe, on the tables of
    [migrations/0048] and [0054].  A function is a program of SQL statements
    ([Postgres]) in the order of the code; a statement is its effect on the tables
    ([pay_exec]).

    Columns nobody decides by ([provider_status] and [updated_at] of an intent,
    descriptions, metadata, the times of a notification) and error texts are left out.
    [length(_)] of SQL counts characters, but every text the checks are about is ASCII
    by then, or was checked more strictly in bytes before. *)

From stdpp Require Import base gmap strings list sorting.
From Stdlib Require Import ZArith Ascii Lia.
From S2P Require Import Prelude Text Nostr Effect Postgres Credits.

Local Open Scope Z_scope.
Local Open Scope list_scope.

(** ** The tables *)

Inductive IntentStatus :=
  | IntentPending | IntentPaid | IntentDelayed | IntentFailed | IntentCancelled | IntentUncertain.
#[export] Instance IntentStatus_eq_dec : EqDecision IntentStatus.
Proof. solve_decision. Defined.

Record PaymentIntentRecord := {
  pi_reference : string;
  pi_account : Uuid;
  pi_key : Uuid;
  pi_pack : string;
  pi_provider : string;
  pi_currency : string;
  pi_charge : Z;
  pi_grant : Z;
  pi_status : IntentStatus;
  pi_payment : option string;
  pi_paid : option Z;
  pi_created : Z;
}.

(** A verified notification, as it is given to the store. *)
Record Notification := {
  no_event : string;
  no_reference : option string;
  no_payment : option string;
  no_status : string;
  no_amount : option Z;
  no_provider : string;
  no_currency : string;
}.

Inductive NoticeResult :=
  | NoticeProcessing | NoticeApplied | NoticeAlreadyApplied | NoticeUnmatched | NoticeUncertain | NoticeDuplicatePayment.
#[export] Instance NoticeResult_eq_dec : EqDecision NoticeResult.
Proof. solve_decision. Defined.

Record CreditEntry := { ce_type : EntryType; ce_amount : Z; ce_reference : option string }.
#[export] Instance EntryType_eq_dec : EqDecision EntryType.
Proof. solve_decision. Defined.

Record PayDb := {
  pay_accounts : gset Uuid;
  (** by account and [source_id], which are unique together *)
  credits : gmap (Uuid * string) CreditEntry;
  intents : gmap string PaymentIntentRecord;
  (** the journal: what was notified, and what came of it *)
  notices : gmap string (Notification * NoticeResult);
}.

Definition empty_pay_db : PayDb := {| pay_accounts := ∅; credits := ∅; intents := ∅; notices := ∅ |}.

(** [status IN ('pending', 'delayed', 'uncertain')] *)
Definition is_open (s : IntentStatus) : bool :=
  match s with IntentPending | IntentDelayed | IntentUncertain => true | _ => false end.

(** *** Writes *)

Inductive PayWrite :=
  | WIntent (i : PaymentIntentRecord)
  | WIntentState (reference : string) (status : IntentStatus) (payment : option string) (amount : option Z)
  | WIntentSession (reference : string) (session : string)
  | WNotice (n : Notification) (r : NoticeResult)
  | WNoticeResult (event : string) (r : NoticeResult)
  | WCredit (account : Uuid) (source : string) (e : CreditEntry)
  (** of other parts of the system *)
  | WPayAccount (id : Uuid)
  | WPayAccountGone (id : Uuid).

(** The row an update of [update_intent_status] leaves. *)
Definition state_row (status : IntentStatus) (payment : option string) (amount : option Z) (i : PaymentIntentRecord)
    : PaymentIntentRecord :=
  {| pi_reference := pi_reference i; pi_account := pi_account i; pi_key := pi_key i; pi_pack := pi_pack i;
     pi_provider := pi_provider i; pi_currency := pi_currency i; pi_charge := pi_charge i; pi_grant := pi_grant i;
     pi_status := status;
     pi_payment := match pi_payment i with Some id => Some id | None => payment end;
     pi_paid := if bool_decide (status = IntentPaid) then amount else pi_paid i;
     pi_created := pi_created i |}.

Definition session_row (session : string) (i : PaymentIntentRecord) : PaymentIntentRecord :=
  {| pi_reference := pi_reference i; pi_account := pi_account i; pi_key := pi_key i; pi_pack := pi_pack i;
     pi_provider := pi_provider i; pi_currency := pi_currency i; pi_charge := pi_charge i; pi_grant := pi_grant i;
     pi_status := pi_status i; pi_payment := Some session; pi_paid := pi_paid i; pi_created := pi_created i |}.

Definition set_intents (m : gmap string PaymentIntentRecord) (d : PayDb) : PayDb :=
  {| pay_accounts := pay_accounts d; credits := credits d; intents := m; notices := notices d |}.
Definition set_notices (m : gmap string (Notification * NoticeResult)) (d : PayDb) : PayDb :=
  {| pay_accounts := pay_accounts d; credits := credits d; intents := intents d; notices := m |}.

Definition pay_apply (w : PayWrite) (d : PayDb) : PayDb :=
  match w with
  | WIntent i => set_intents (<[pi_reference i := i]> (intents d)) d
  | WIntentState reference status payment amount =>
      set_intents (alter (state_row status payment amount) reference (intents d)) d
  | WIntentSession reference session => set_intents (alter (session_row session) reference (intents d)) d
  | WNotice n r => set_notices (<[no_event n := (n, r)]> (notices d)) d
  | WNoticeResult event r => set_notices (alter (λ nr, (nr.1, r)) event (notices d)) d
  | WCredit account source e =>
      {| pay_accounts := pay_accounts d; credits := <[(account, source) := e]> (credits d);
         intents := intents d; notices := notices d |}
  | WPayAccount id =>
      {| pay_accounts := {[id]} ∪ pay_accounts d; credits := credits d; intents := intents d; notices := notices d |}
  | WPayAccountGone id =>
      {| pay_accounts := pay_accounts d ∖ {[id]}; credits := credits d; intents := intents d; notices := notices d |}
  end.

(** *** Locks *)

Inductive PayLock :=
  | LkAccount (id : Uuid)
  | LkIntent (reference : string)
  (** the keys of the unique constraints *)
  | LkKey (account key : Uuid)
  | LkOpen (account : Uuid)
  | LkPayment (payment : string)
  | LkEvent (event : string)
  | LkCredit (account : Uuid) (source : string).

(** ** The statements *)

Definition is_digit (c : ascii) : bool := (48 <=? Z.of_nat (nat_of_ascii c)) && (Z.of_nat (nat_of_ascii c) <=? 57).
Definition is_upper (c : ascii) : bool := (65 <=? Z.of_nat (nat_of_ascii c)) && (Z.of_nat (nat_of_ascii c) <=? 90).
(** [byte.is_ascii_digit() || (b'a'..=b'f').contains(&byte)] *)
Definition is_lower_hex (c : ascii) : bool :=
  is_digit c || (97 <=? Z.of_nat (nat_of_ascii c)) && (Z.of_nat (nat_of_ascii c) <=? 102).

Definition valid_stripe_id (id prefix : string) : bool :=
  starts_with id prefix && (String.length prefix <? String.length id)%nat && (String.length id <=? 200)%nat &&
  chars_all (λ c, is_ascii_alphanumeric c || bool_decide (c = "_"%char)) id.

(** [^[0-9]{1,32}$] *)
Definition payfast_id (id : string) : bool :=
  (1 <=? String.length id)%nat && (String.length id <=? 32)%nat && chars_all is_digit id.

(** [account_payment_intents_provider_payment_id_check] *)
Definition payment_id_ok (provider payment : string) : bool :=
  (bool_decide (provider = "payfast"%string) && payfast_id payment) ||
  (bool_decide (provider = "stripe"%string) && valid_stripe_id payment "cs_").

(** [account_payment_intents_provider_currency_check] *)
Definition provider_currency_ok (provider currency : string) : bool :=
  (bool_decide (provider = "payfast"%string) && bool_decide (currency = "ZAR"%string)) ||
  (bool_decide (provider = "stripe"%string) && bool_decide (currency = "USD"%string)).

Record CreateArgs := {
  ca_account : Uuid;
  ca_reference : string;
  ca_key : Uuid;
  ca_pack : string;
  ca_charge : Z;
  ca_grant : Z;
  ca_provider : string;
  ca_currency : string;
}.

Inductive PayStmt :=
  | LockPayAccount (account : Uuid)
  | SelectIntentByKey (account key : Uuid)
  | SelectOpenIntent (account : Uuid)
  | InsertIntent (a : CreateArgs)
  | SelectAccountIntent (account : Uuid) (reference : string)
  | SelectHistory (account : Uuid) (limit : Z)
  | UpdateSession (reference session : string)
  | InsertNotice (n : Notification)
  | SelectIntent (reference : string)
  | SelectPaymentOwner (payment reference : string)
  | UpdateUncertain (reference : string)
  | InsertPurchase (account : Uuid) (amount : Z) (source reference : string)
  | ExistsPurchase (account : Uuid) (source reference : string) (amount : Z)
  | UpdateIntent (reference : string) (status : IntentStatus) (payment : option string) (amount : option Z)
  | FinishNotice (event : string) (r : NoticeResult).

Definition pay_answer (s : PayStmt) : Type :=
  match s with
  | LockPayAccount _ | InsertNotice _ | InsertPurchase _ _ _ _ | ExistsPurchase _ _ _ _ => bool
  | SelectIntentByKey _ _ | SelectOpenIntent _ | SelectAccountIntent _ _ | SelectIntent _ => option PaymentIntentRecord
  | InsertIntent _ => PaymentIntentRecord
  | SelectHistory _ _ => list PaymentIntentRecord
  | UpdateSession _ _ => Z
  | SelectPaymentOwner _ _ => option string
  | UpdateUncertain _ | UpdateIntent _ _ _ _ | FinishNotice _ _ => unit
  end.

(** The intents that satisfy a condition, by reference. *)
Definition intent_rows (f : PaymentIntentRecord → bool) (d : PayDb) : list PaymentIntentRecord :=
  (base.filter (λ kv : string * PaymentIntentRecord, f kv.2 = true) (map_to_list (intents d))).*2.

Definition intent_by_key (account key : Uuid) (d : PayDb) : option PaymentIntentRecord :=
  head (intent_rows (λ i, bool_decide (pi_account i = account) && bool_decide (pi_key i = key)) d).

(** [ORDER BY created_at DESC LIMIT 1] *)
Definition open_intent (account : Uuid) (d : PayDb) : option PaymentIntentRecord :=
  head (sort_by_key (λ i, - pi_created i) (intent_rows (λ i, bool_decide (pi_account i = account) && is_open (pi_status i)) d)).

(** [ORDER BY created_at DESC, reference DESC] *)
Definition intent_history (account : Uuid) (d : PayDb) : list PaymentIntentRecord :=
  sort_by_key (λ i, - pi_created i)
    (reverse (merge_sort (by_id pi_reference) (intent_rows (λ i, bool_decide (pi_account i = account)) d))).

(** Another intent that has [payment]. *)
Definition payment_owner (payment reference : string) (d : PayDb) : option string :=
  pi_reference <$> head (intent_rows (λ i, bool_decide (pi_payment i = Some payment) && negb (bool_decide (pi_reference i = reference))) d).

(** Another open intent of the account: what [account_payment_intents_one_open_idx] refuses. *)
Definition other_open (account : Uuid) (reference : string) (d : PayDb) : bool :=
  negb (bool_decide (intent_rows (λ i, bool_decide (pi_account i = account) && is_open (pi_status i) &&
                                         negb (bool_decide (pi_reference i = reference))) d = [])).

Definition new_intent (now : Z) (a : CreateArgs) : PaymentIntentRecord :=
  {| pi_reference := ca_reference a; pi_account := ca_account a; pi_key := ca_key a; pi_pack := ca_pack a;
     pi_provider := ca_provider a; pi_currency := ca_currency a; pi_charge := ca_charge a; pi_grant := ca_grant a;
     pi_status := IntentPending; pi_payment := None; pi_paid := None; pi_created := now |}.

Definition pay_reply {A} (a : A) (ws : list PayWrite) (ls : list PayLock) : option (A * list PayWrite * list PayLock) :=
  Some (a, ws, ls).

(** An [UPDATE] of an intent to [state_row], if the constraints allow it. *)
Definition update_intent (reference : string) (i : PaymentIntentRecord) (status : IntentStatus) (payment : option string)
    (amount : option Z) (d : PayDb) : option (unit * list PayWrite * list PayLock) :=
  let fresh := match pi_payment i with Some _ => None | None => payment end in
  let taken := match fresh with
               | Some id => bool_decide (is_Some (payment_owner id reference d)) || negb (payment_id_ok (pi_provider i) id)
               | None => false
               end in
  if taken || (is_open status && other_open (pi_account i) reference d) then None
  else
    pay_reply tt [WIntentState reference status payment amount]
      (LkIntent reference :: match fresh with Some id => [LkPayment id] | None => [] end ++
       if is_open status then [LkOpen (pi_account i)] else []).

Definition pay_exec (_ : unit) (now : Z) (d : PayDb) (s : PayStmt) : option (pay_answer s * list PayWrite * list PayLock) :=
  match s return option (pay_answer s * list PayWrite * list PayLock) with
  | LockPayAccount account =>
      if bool_decide (account ∈ pay_accounts d) then pay_reply true [] [LkAccount account] else pay_reply false [] []
  | SelectIntentByKey account key => pay_reply (intent_by_key account key d) [] []
  | SelectOpenIntent account => pay_reply (open_intent account d) [] []
  | InsertIntent a =>
      if bool_decide (intents d !! ca_reference a = None) && bool_decide (intent_by_key (ca_account a) (ca_key a) d = None) &&
         bool_decide (open_intent (ca_account a) d = None) && bool_decide (ca_account a ∈ pay_accounts d) &&
         provider_currency_ok (ca_provider a) (ca_currency a) && (0 <? ca_charge a) && (0 <? ca_grant a)
      then pay_reply (new_intent now a) [WIntent (new_intent now a)]
             [LkIntent (ca_reference a); LkKey (ca_account a) (ca_key a); LkOpen (ca_account a)]
      else None
  | SelectAccountIntent account reference =>
      pay_reply (i ← intents d !! reference; if bool_decide (pi_account i = account) then Some i else None) [] []
  | SelectHistory account limit => pay_reply (take (Z.to_nat limit) (intent_history account d)) [] []
  | UpdateSession reference session =>
      match intents d !! reference with
      | Some i =>
          if bool_decide (pi_provider i = "stripe"%string) &&
             match pi_payment i with Some id => bool_decide (id = session) | None => true end then
            if bool_decide (is_Some (payment_owner session reference d)) || negb (payment_id_ok (pi_provider i) session) then None
            else pay_reply 1 [WIntentSession reference session] [LkIntent reference; LkPayment session]
          else pay_reply 0 [] []
      | None => pay_reply 0 [] []
      end
  | InsertNotice n =>
      if bool_decide (notices d !! no_event n = None) then pay_reply true [WNotice n NoticeProcessing] [LkEvent (no_event n)]
      else pay_reply false [] []
  | SelectIntent reference =>
      pay_reply (intents d !! reference) [] (match intents d !! reference with Some _ => [LkIntent reference] | None => [] end)
  | SelectPaymentOwner payment reference => pay_reply (payment_owner payment reference d) [] []
  | UpdateUncertain reference =>
      match intents d !! reference with
      | Some i =>
          if bool_decide (pi_status i = IntentPaid) then pay_reply tt [] []
          else update_intent reference i IntentUncertain None None d
      | None => pay_reply tt [] []
      end
  | InsertPurchase account amount source reference =>
      if bool_decide (is_Some (credits d !! (account, source))) then pay_reply false [] []
      else if negb (amount =? 0) && (String.length source <=? 200)%nat && bool_decide (account ∈ pay_accounts d) then
        pay_reply true [WCredit account source {| ce_type := Purchase; ce_amount := amount; ce_reference := Some reference |}]
          [LkCredit account source]
      else None
  | ExistsPurchase account source reference amount =>
      pay_reply (match credits d !! (account, source) with
             | Some e => bool_decide (ce_reference e = Some reference) && (ce_amount e =? amount)
             | None => false
             end) [] []
  | UpdateIntent reference status payment amount =>
      match intents d !! reference with
      | Some i => update_intent reference i status payment amount d
      | None => pay_reply tt [] []
      end
  | FinishNotice event r =>
      pay_reply tt [WNoticeResult event r] (match notices d !! event with Some _ => [LkEvent event] | None => [] end)
  end.

(** ** The programs *)

Inductive CreatePaymentIntentOutcome :=
  | IntentCreated (i : PaymentIntentRecord)
  | IntentExisting (i : PaymentIntentRecord)
  | IntentOpen (i : PaymentIntentRecord).

Inductive PaymentNotificationOutcome :=
  | NotificationApplied | NotificationDuplicate | NotificationUnmatched | NotificationUncertain | NotificationDuplicatePayment.
#[export] Instance PaymentNotificationOutcome_eq_dec : EqDecision PaymentNotificationOutcome.
Proof. solve_decision. Defined.

(** Nothing but SQL. *)
Definition no_answer (op : Empty_set) : Type := match op with end.

Abbreviation payprog A := (eff (SqlOp PayStmt Empty_set) (SqlReply pay_answer no_answer) (result DbError A)).

Local Open Scope sql_scope.

Definition pay_tx (s : PayStmt) : payprog (pay_answer s) := in_tx Sqlx s.
Definition pay_pool (s : PayStmt) : payprog (pay_answer s) := on_pool Sqlx s.
Definition pay_fail {A} (e : DbError) : payprog A := Pure (Err e).

(** *** Checkout *)

Definition valid_terms (a : CreateArgs) : bool :=
  provider_currency_ok (ca_provider a) (ca_currency a) &&
  negb (String.length (ca_reference a) =? 0)%nat && (String.length (ca_reference a) <=? 200)%nat &&
  negb (String.length (ca_pack a) =? 0)%nat && (String.length (ca_pack a) <=? 64)%nat &&
  (0 <? ca_charge a) && (0 <? ca_grant a).

Definition same_terms (a : CreateArgs) (i : PaymentIntentRecord) : bool :=
  bool_decide (pi_provider i = ca_provider a) && bool_decide (pi_currency i = ca_currency a) &&
  bool_decide (pi_pack i = ca_pack a) && (pi_charge i =? ca_charge a) && (pi_grant i =? ca_grant a).

Definition create_account_payment_intent_for_provider (a : CreateArgs) : payprog CreatePaymentIntentOutcome :=
  if negb (valid_terms a) then pay_fail InvalidData
  else
    with_tx Sqlx (
      let? account_exists := pay_tx (LockPayAccount (ca_account a)) in
      if negb account_exists then pay_fail NotFound
      else
        let? row := pay_tx (SelectIntentByKey (ca_account a) (ca_key a)) in
        match row with
        | Some existing => if negb (same_terms a existing) then pay_fail InvalidData else commit Sqlx (IntentExisting existing)
        | None =>
            let? row := pay_tx (SelectOpenIntent (ca_account a)) in
            match row with
            | Some open => commit Sqlx (IntentOpen open)
            | None => let? created := pay_tx (InsertIntent a) in commit Sqlx (IntentCreated created)
            end
        end).

Definition create_account_payment_intent (account : Uuid) (reference : string) (key : Uuid) (pack : string) (charge grant : Z)
    : payprog CreatePaymentIntentOutcome :=
  create_account_payment_intent_for_provider
    {| ca_account := account; ca_reference := reference; ca_key := key; ca_pack := pack; ca_charge := charge; ca_grant := grant;
       ca_provider := "payfast"; ca_currency := "ZAR" |}.

Definition account_payment_intent (account : Uuid) (reference : string) : payprog (option PaymentIntentRecord) :=
  pay_pool (SelectAccountIntent account reference).

Definition open_account_payment_intent (account : Uuid) : payprog (option PaymentIntentRecord) :=
  pay_pool (SelectOpenIntent account).

Definition account_payment_intent_history (account : Uuid) (limit : Z) : payprog (list PaymentIntentRecord) :=
  pay_pool (SelectHistory account (clamp limit 1 100)).

Definition attach_account_checkout_session (reference session : string) : payprog unit :=
  if negb (valid_stripe_id session "cs_") then pay_fail InvalidData
  else
    let? updated := pay_pool (UpdateSession reference session) in
    if negb (updated =? 1) then pay_fail InvalidData else Pure (Ok tt).

(** *** Notifications *)

(** [validate_notification] *)
Definition valid_payfast (n : Notification) : bool :=
  (String.length (no_event n) =? 64)%nat && chars_all is_lower_hex (no_event n) && (String.length (no_status n) <=? 64)%nat &&
  match no_payment n with
  | Some id => negb (String.length id =? 0)%nat && (String.length id <=? 32)%nat && chars_all is_digit id
  | None => true
  end &&
  match no_amount n with Some amount => 0 <=? amount | None => true end.

Definition valid_stripe (n : Notification) : bool :=
  bool_decide (no_provider n = "stripe"%string) && (String.length (no_currency n) =? 3)%nat && chars_all is_upper (no_currency n) &&
  valid_stripe_id (no_event n) "evt_" &&
  match no_payment n with Some id => valid_stripe_id id "cs_" | None => false end &&
  (String.length (no_status n) <=? 64)%nat && match no_amount n with Some amount => 0 <=? amount | None => true end.

Definition valid_notification (n : Notification) : bool :=
  (if bool_decide (no_provider n = "payfast"%string) && bool_decide (no_currency n = "ZAR"%string) then valid_payfast n
   else valid_stripe n) &&
  match no_reference n with Some r => negb (String.length r =? 0)%nat && (String.length r <=? 200)%nat | None => true end.

(** [finish_notification], and the commit. *)
Definition finish (n : Notification) (r : NoticeResult) (o : PaymentNotificationOutcome) : payprog PaymentNotificationOutcome :=
  let? _ := pay_tx (FinishNotice (no_event n) r) in commit Sqlx o.

Definition set_uncertain (n : Notification) (i : PaymentIntentRecord) (payment : option string) : payprog PaymentNotificationOutcome :=
  let? _ := pay_tx (UpdateIntent (pi_reference i) IntentUncertain payment (no_amount n)) in
  finish n NoticeUncertain NotificationUncertain.

Definition upper_char (c : ascii) : ascii :=
  let n := nat_of_ascii c in if (97 <=? n)%nat && (n <=? 122)%nat then ascii_of_nat (n - 32) else c.

Fixpoint to_ascii_uppercase (s : string) : string :=
  match s with EmptyString => EmptyString | String c s => String (upper_char c) (to_ascii_uppercase s) end.

(** What the callback status says, [COMPLETE] apart. *)
Definition callback (status : string) : IntentStatus * NoticeResult :=
  if bool_decide (status = "PENDING"%string) || bool_decide (status = "DELAYED"%string) then (IntentDelayed, NoticeApplied)
  else if bool_decide (status = "FAILED"%string) then (IntentFailed, NoticeApplied)
  else if bool_decide (status = "CANCELLED"%string) || bool_decide (status = "CANCELED"%string) then (IntentCancelled, NoticeApplied)
  else (IntentUncertain, NoticeUncertain).

(** Whether an intent in status [old] takes on [next]. *)
Definition takes (old next : IntentStatus) : bool :=
  negb (bool_decide (old = IntentFailed) || bool_decide (old = IntentCancelled)) ||
  bool_decide (next = IntentPaid) || bool_decide (next = IntentUncertain).

Definition advance (n : Notification) (i : PaymentIntentRecord) (next : IntentStatus) (r : NoticeResult)
    : payprog PaymentNotificationOutcome :=
  let? _ :=
    (if takes (pi_status i) next then pay_tx (UpdateIntent (pi_reference i) next (no_payment n) (no_amount n))
     else Pure (Ok tt)) in
  finish n r (if bool_decide (next = IntentUncertain) then NotificationUncertain else NotificationApplied).

(** [format!("{provider}:{provider_payment_id}")] *)
Definition purchase_source (provider payment : string) : string := (provider +:+ ":" +:+ payment)%string.

(** The whole amount was paid: the credit, once. *)
Definition settle_purchase (n : Notification) (i : PaymentIntentRecord) : payprog PaymentNotificationOutcome :=
  match no_payment n with
  | None => set_uncertain n i None
  | Some payment =>
      let source := purchase_source (no_provider n) payment in
      let? inserted := pay_tx (InsertPurchase (pi_account i) (pi_grant i) source (pi_reference i)) in
      if inserted then advance n i IntentPaid NoticeApplied
      else
        let? same := pay_tx (ExistsPurchase (pi_account i) source (pi_reference i) (pi_grant i)) in
        if same then advance n i IntentPaid NoticeApplied else set_uncertain n i (Some payment)
  end.

Definition apply_callback (n : Notification) (i : PaymentIntentRecord) : payprog PaymentNotificationOutcome :=
  let status := to_ascii_uppercase (no_status n) in
  if bool_decide (status = "COMPLETE"%string) then
    if bool_decide (no_amount n = Some (pi_charge i)) then settle_purchase n i else advance n i IntentUncertain NoticeUncertain
  else advance n i (callback status).1 (callback status).2.

(** Whether the intent has a payment, and another one than the notification's. *)
Definition other_payment (n : Notification) (i : PaymentIntentRecord) : bool :=
  match pi_payment i with Some id => negb (bool_decide (no_payment n = Some id)) | None => false end.

Definition apply_to_intent (n : Notification) (i : PaymentIntentRecord) : payprog PaymentNotificationOutcome :=
  if negb (bool_decide (pi_provider i = no_provider n)) || negb (bool_decide (pi_currency i = no_currency n)) then
    finish n NoticeUncertain NotificationUncertain
  else
    let? owner := (match no_payment n with
                   | Some payment => pay_tx (SelectPaymentOwner payment (pi_reference i))
                   | None => Pure (Ok None)
                   end) in
    match owner with
    | Some _ =>
        let? _ := pay_tx (UpdateUncertain (pi_reference i)) in
        finish n NoticeDuplicatePayment NotificationDuplicatePayment
    | None =>
        if bool_decide (pi_status i = IntentPaid) then
          if bool_decide (pi_payment i = no_payment n) then finish n NoticeAlreadyApplied NotificationDuplicate
          else finish n NoticeDuplicatePayment NotificationDuplicatePayment
        else if other_payment n i then set_uncertain n i (no_payment n)
        else apply_callback n i
    end.

Definition apply_account_payment_notification_for_provider (n : Notification) : payprog PaymentNotificationOutcome :=
  if negb (valid_notification n) then pay_fail InvalidData
  else
    with_tx Sqlx (
      let? inserted := pay_tx (InsertNotice n) in
      if negb inserted then commit Sqlx NotificationDuplicate
      else
        let? row := (match no_reference n with
                     | Some reference => pay_tx (SelectIntent reference)
                     | None => Pure (Ok None)
                     end) in
        match row with
        | None => finish n NoticeUnmatched NotificationUnmatched
        | Some i => apply_to_intent n i
        end).

Definition apply_account_payment_notification (event : string) (reference payment : option string) (status : string) (amount : option Z)
    : payprog PaymentNotificationOutcome :=
  apply_account_payment_notification_for_provider
    {| no_event := event; no_reference := reference; no_payment := payment; no_status := status; no_amount := amount;
       no_provider := "payfast"; no_currency := "ZAR" |}.
