(* ===== verification/PaymentsSpec.v ===== *)
(** * Credit purchases: what the tables may do

    The abstract specification of [Payments]: what a notification does to an intent, as
    one function ([resolve]); the moves of the committed tables ([pay_step]), each a
    single atomic change; and what holds of every database they lead to ([pay_books],
    kept by [pay_step_books]). *)

From stdpp Require Import base gmap strings list relations.
From Stdlib Require Import ZArith Ascii Lia.
From S2P Require Import Prelude Text Nostr Effect Postgres Credits CreditsSpec Payments.

Local Open Scope Z_scope.
Local Open Scope list_scope.

(** ** What a notification does *)

Record Resolution := {
  (** the purchase is entered in the ledger *)
  rs_credit : bool;
  (** the intent's new status, payment and amount *)
  rs_state : option (IntentStatus * option string * option Z);
  rs_result : NoticeResult;
  rs_outcome : PaymentNotificationOutcome;
}.

Definition untouched (r : NoticeResult) (o : PaymentNotificationOutcome) : Resolution :=
  {| rs_credit := false; rs_state := None; rs_result := r; rs_outcome := o |}.

Definition in_doubt (n : Notification) (payment : option string) : Resolution :=
  {| rs_credit := false; rs_state := Some (IntentUncertain, payment, no_amount n); rs_result := NoticeUncertain;
     rs_outcome := NotificationUncertain |}.

(** A verified report that the whole charge was paid. *)
Definition completes (n : Notification) (i : PaymentIntentRecord) : bool :=
  bool_decide (to_ascii_uppercase (no_status n) = "COMPLETE"%string) && bool_decide (no_amount n = Some (pi_charge i)).

Definition on_intent (n : Notification) (i : PaymentIntentRecord) : bool :=
  bool_decide (pi_provider i = no_provider n) && bool_decide (pi_currency i = no_currency n).

(** [owned]: another intent has the payment.  [taken]: the ledger has another row under
    the purchase's source. *)
Definition resolve (n : Notification) (i : PaymentIntentRecord) (owned taken : bool) : Resolution :=
  if negb (on_intent n i) then untouched NoticeUncertain NotificationUncertain
  else if owned then
    {| rs_credit := false;
       rs_state := if bool_decide (pi_status i = IntentPaid) then None else Some (IntentUncertain, None, None);
       rs_result := NoticeDuplicatePayment; rs_outcome := NotificationDuplicatePayment |}
  else if bool_decide (pi_status i = IntentPaid) then
    if bool_decide (pi_payment i = no_payment n) then untouched NoticeAlreadyApplied NotificationDuplicate
    else untouched NoticeDuplicatePayment NotificationDuplicatePayment
  else if other_payment n i then in_doubt n (no_payment n)
  else if completes n i then
    match no_payment n with
    | None => in_doubt n None
    | Some payment =>
        if taken then in_doubt n (Some payment)
        else
          {| rs_credit := true; rs_state := Some (IntentPaid, Some payment, no_amount n); rs_result := NoticeApplied;
             rs_outcome := NotificationApplied |}
    end
  else
    let next := if bool_decide (to_ascii_uppercase (no_status n) = "COMPLETE"%string) then (IntentUncertain, NoticeUncertain)
                else callback (to_ascii_uppercase (no_status n)) in
    {| rs_credit := false;
       rs_state := if takes (pi_status i) next.1 then Some (next.1, no_payment n, no_amount n) else None;
       rs_result := next.2;
       rs_outcome := if bool_decide (next.1 = IntentUncertain) then NotificationUncertain else NotificationApplied |}.

Definition pay_apply_ws : list PayWrite → PayDb → PayDb := apply_all pay_apply.

Definition purchase_entry (i : PaymentIntentRecord) : CreditEntry :=
  {| ce_type := Purchase; ce_amount := pi_grant i; ce_reference := Some (pi_reference i) |}.

Definition purchase_key (n : Notification) (i : PaymentIntentRecord) : Uuid * string :=
  (pi_account i, purchase_source (no_provider n) (default "" (no_payment n))).

(** The writes of a transaction, but for the result. *)
Definition stage_writes (n : Notification) (i : PaymentIntentRecord) (credit : bool)
    (state : option (IntentStatus * option string * option Z)) : list PayWrite :=
  WNotice n NoticeProcessing ::
  (if credit then [WCredit (purchase_key n i).1 (purchase_key n i).2 (purchase_entry i)] else []) ++
  match state with Some (status, payment, amount) => [WIntentState (pi_reference i) status payment amount] | None => [] end.

Definition notify_writes (n : Notification) (i : PaymentIntentRecord) (rs : Resolution) : list PayWrite :=
  stage_writes n i (rs_credit rs) (rs_state rs) ++ [WNoticeResult (no_event n) (rs_result rs)].

Definition journal_writes (n : Notification) : list PayWrite :=
  [WNotice n NoticeProcessing; WNoticeResult (no_event n) NoticeUnmatched].

Definition fresh_payment (i : PaymentIntentRecord) (payment : option string) : option string :=
  match pi_payment i with Some _ => None | None => payment end.

(** Whether the intent [r] has [payment], is open for an account, has a key. *)
Definition pays (payment r : string) (d : PayDb) : Prop := ∃ i, intents d !! r = Some i ∧ pi_payment i = Some payment.
Definition opens (account : Uuid) (r : string) (d : PayDb) : Prop :=
  ∃ i, intents d !! r = Some i ∧ pi_account i = account ∧ is_open (pi_status i) = true.
Definition keyed (account key : Uuid) (r : string) (d : PayDb) : Prop :=
  ∃ i, intents d !! r = Some i ∧ pi_account i = account ∧ pi_key i = key.

(** What a transaction on the notification [n] of the intent [i] has found. *)
Record stage (n : Notification) (i : PaymentIntentRecord) (owned taken credit : bool)
    (state : option (IntentStatus * option string * option Z)) (d : PayDb) : Prop := {
  sg_new : notices d !! no_event n = None;
  sg_intent : intents d !! pi_reference i = Some i;
  sg_owned : owned = true → ∃ r payment, no_payment n = Some payment ∧ r ≠ pi_reference i ∧ pays payment r d;
  sg_taken : taken = true → is_Some (credits d !! purchase_key n i);
  sg_credit : credit = true → credits d !! purchase_key n i = None;
  sg_payment : ∀ status payment amount id, state = Some (status, payment, amount) → fresh_payment i payment = Some id →
    ∀ r, r ≠ pi_reference i → ¬ pays id r d;
  sg_open : ∀ status payment amount, state = Some (status, payment, amount) → is_open status = true →
    ∀ r, r ≠ pi_reference i → ¬ opens (pi_account i) r d;
}.

(** ** The moves *)

Record can_create (a : CreateArgs) (d : PayDb) : Prop := {
  cc_account : ca_account a ∈ pay_accounts d;
  cc_absent : intents d !! ca_reference a = None;
  cc_key r : ¬ keyed (ca_account a) (ca_key a) r d;
  cc_open r : ¬ opens (ca_account a) r d;
  cc_provider : provider_currency_ok (ca_provider a) (ca_currency a) = true;
  cc_charge : 0 < ca_charge a;
  cc_grant : 0 < ca_grant a;
}.

Record can_attach (r session : string) (i : PaymentIntentRecord) (d : PayDb) : Prop := {
  at_intent : intents d !! r = Some i;
  at_provider : pi_provider i = "stripe"%string;
  at_payment : pi_payment i = None ∨ pi_payment i = Some session;
  at_unused : ∀ r', r' ≠ r → ¬ pays session r' d;
}.

(** Every change of the committed tables is one of these. *)
Inductive pay_step (d : PayDb) : PayDb → Prop :=
  | step_create now a : can_create a d → pay_step d (pay_apply (WIntent (new_intent now a)) d)
  | step_attach r session i : can_attach r session i d → pay_step d (pay_apply (WIntentSession r session) d)
  | step_unmatched n : notices d !! no_event n = None → pay_step d (pay_apply_ws (journal_writes n) d)
  | step_notify n i owned taken :
      let rs := resolve n i owned taken in
      no_reference n = Some (pi_reference i) → stage n i owned taken (rs_credit rs) (rs_state rs) d →
      pay_step d (pay_apply_ws (notify_writes n i rs) d)
  | step_credit account source e :
      ce_type e ≠ Purchase → ce_reference e = None → credits d !! (account, source) = None →
      pay_step d (pay_apply (WCredit account source e) d)
  | step_elsewhere d' :
      intents d' = intents d → credits d' = credits d →
      (∀ event x, notices d !! event = Some x → notices d' !! event = Some x) →
      (∀ r i, intents d !! r = Some i → pi_account i ∈ pay_accounts d → pi_account i ∈ pay_accounts d') → pay_step d d'.

Definition pay_steps : relation PayDb := rtc pay_step.

#[export] Instance pay_steps_preorder : PreOrder pay_steps.
Proof. unfold pay_steps. apply _. Qed.

(** ** The books *)

(** What was purchased for an account, and what its paid intents granted. *)
Definition purchased (a : Uuid) (d : PayDb) : Z :=
  zsum (λ k e, if bool_decide (k.1 = a) && bool_decide (ce_type e = Purchase) then ce_amount e else 0) (credits d).

Definition granted (a : Uuid) (d : PayDb) : Z :=
  zsum (λ _ i, if bool_decide (pi_account i = a) && bool_decide (pi_status i = IntentPaid) then pi_grant i else 0) (intents d).

(** The intent was paid in full, and its purchase is in the ledger. *)
Definition paid_for (i : PaymentIntentRecord) (payment : string) (d : PayDb) : Prop :=
  pi_status i = IntentPaid ∧ pi_payment i = Some payment ∧ pi_paid i = Some (pi_charge i) ∧
  credits d !! (pi_account i, purchase_source (pi_provider i) payment) = Some (purchase_entry i).

Record pay_books (d : PayDb) : Prop := {
  pb_reference r i : intents d !! r = Some i → pi_reference i = r;
  pb_account r i : intents d !! r = Some i → pi_account i ∈ pay_accounts d;
  pb_terms r i : intents d !! r = Some i →
    provider_currency_ok (pi_provider i) (pi_currency i) = true ∧ 0 < pi_charge i ∧ 0 < pi_grant i;
  pb_payment r r' payment : pays payment r d → pays payment r' d → r = r';
  pb_open r r' account : opens account r d → opens account r' d → r = r';
  pb_key r r' account key : keyed account key r d → keyed account key r' d → r = r';
  pb_paid r i : intents d !! r = Some i → pi_status i = IntentPaid → ∃ payment, paid_for i payment d;
  pb_credit a source e : credits d !! (a, source) = Some e → ce_type e = Purchase ∨ is_Some (ce_reference e) →
    ∃ r i payment, intents d !! r = Some i ∧ paid_for i payment d ∧ a = pi_account i ∧
      source = purchase_source (pi_provider i) payment ∧ e = purchase_entry i;
  pb_sum a : purchased a d = granted a d;
}.

Lemma pay_books_empty : pay_books empty_pay_db.
Proof.
  split; try done.
  - by intros ??? (? & H & _).
  - by intros ??? (? & H & _).
  - by intros ???? (? & H & _).
Qed.

(** *** Intents only move forward *)

Record intent_forward (i i' : PaymentIntentRecord) : Prop := {
  fw_terms : (pi_reference i', pi_account i', pi_key i', pi_pack i', pi_provider i', pi_currency i', pi_charge i', pi_grant i', pi_created i') =
    (pi_reference i, pi_account i, pi_key i, pi_pack i, pi_provider i, pi_currency i, pi_charge i, pi_grant i, pi_created i);
  fw_payment payment : pi_payment i = Some payment → pi_payment i' = Some payment;
  fw_paid : pi_status i = IntentPaid → i' = i;
}.

#[export] Instance intent_forward_preorder : PreOrder intent_forward.
Proof.
  split; [done|]. intros x y z [A1 B1 C1] [A2 B2 C2]. split; [congruence|auto|].
  intros Hp. pose proof (C1 Hp) as ->. auto.
Qed.
