(* ===== verification/PaymentsBooks.v ===== *)
(** * Credit purchases: every move keeps the books

    [pay_books] is kept by each [pay_step] ([pay_steps_books]), and what is in the tables
    only moves forward ([pay_forward]). *)

From stdpp Require Import base gmap strings list relations.
From Stdlib Require Import ZArith Ascii Lia.
From S2P Require Import Prelude Text Nostr Effect Postgres Credits CreditsSpec Payments PaymentsSpec.

Local Open Scope Z_scope.
Local Open Scope list_scope.

(** ** What a resolution is *)

Lemma callback_unpaid status : (callback status).1 ≠ IntentPaid.
Proof. unfold callback. by repeat case_match. Qed.

Lemma resolve_credit n i owned taken :
  rs_credit (resolve n i owned taken) = true →
  ∃ payment, resolve n i owned taken =
    {| rs_credit := true; rs_state := Some (IntentPaid, Some payment, no_amount n); rs_result := NoticeApplied;
       rs_outcome := NotificationApplied |} ∧
    no_payment n = Some payment ∧ on_intent n i = true ∧ completes n i = true ∧ pi_status i ≠ IntentPaid ∧
    (pi_payment i = None ∨ pi_payment i = Some payment).
Proof.
  unfold resolve. destruct (on_intent n i); simpl; [|done]. destruct owned; [done|].
  case_bool_decide as Hpaid; [by case_bool_decide|]. destruct (other_payment n i) eqn:Ho; [done|].
  destruct (completes n i); [|done]. destruct (no_payment n) as [payment|] eqn:Hn; [|done]. destruct taken; [done|].
  intros _. exists payment. split_and!; try done. unfold other_payment in Ho. rewrite Hn in Ho.
  destruct (pi_payment i) as [id|]; [right|by left]. apply negb_false_iff, bool_decide_eq_true in Ho. congruence.
Qed.

Lemma resolve_state n i owned taken status payment amount :
  rs_state (resolve n i owned taken) = Some (status, payment, amount) →
  pi_status i ≠ IntentPaid ∧ on_intent n i = true ∧ (rs_credit (resolve n i owned taken) = false → status ≠ IntentPaid).
Proof.
  intros Hs. unfold resolve in *. destruct (on_intent n i); simpl in *; [|done].
  destruct owned; simpl in *; [case_bool_decide; [done|by simplify_eq/=]|].
  case_bool_decide as Hpaid; [by case_bool_decide|]. split_and!; [done..|]. intros Hc.
  destruct (other_payment n i); simpl in *; [by simplify_eq|].
  destruct (completes n i); simpl in *.
  - destruct (no_payment n); simpl in *; [destruct taken; simpl in *|]; by simplify_eq.
  - case_bool_decide; simpl in *; (destruct (takes _ _); [|done]); simplify_eq; [done|apply callback_unpaid].
Qed.

Lemma completes_amount n i : completes n i = true → no_amount n = Some (pi_charge i).
Proof. unfold completes. rewrite andb_true_iff, !bool_decide_eq_true. tauto. Qed.

Lemma on_intent_provider n i : on_intent n i = true → no_provider n = pi_provider i.
Proof. unfold on_intent. rewrite andb_true_iff, !bool_decide_eq_true. naive_solver. Qed.

(** ** One intent changes *)

Section update.
Context (d d' : PayDb) (r : string) (i i' : PaymentIntentRecord) (credit : bool).
Context (Hbooks : pay_books d) (Hi : intents d !! r = Some i) (Hunpaid : pi_status i ≠ IntentPaid).
Context (Hfw : intent_forward i i').
Context (Hintents : intents d' = <[r := i']> (intents d)) (Haccounts : pay_accounts d' = pay_accounts d).
Context (Hpayment : ∀ id, pi_payment i' = Some id → pi_payment i = Some id ∨ ∀ r', r' ≠ r → ¬ pays id r' d).
Context (Hopen : is_open (pi_status i') = true → ∀ r', r' ≠ r → ¬ opens (pi_account i) r' d).
Context (Hcredit : if credit then
    ∃ id, pi_status i' = IntentPaid ∧ pi_payment i' = Some id ∧ pi_paid i' = Some (pi_charge i) ∧
      credits d !! (pi_account i, purchase_source (pi_provider i) id) = None ∧
      credits d' = <[(pi_account i, purchase_source (pi_provider i) id) := purchase_entry i]> (credits d)
  else pi_status i' ≠ IntentPaid ∧ credits d' = credits d).

Lemma updated_lookup r' j : intents d' !! r' = Some j → (r' = r ∧ j = i') ∨ (r' ≠ r ∧ intents d !! r' = Some j).
Proof using Hintents.
  intros Hj. rewrite Hintents in Hj. apply lookup_insert_Some in Hj as [[Hr Hj]|[Hr Hj]]; [left|right]; auto.
Qed.

Lemma updated_pays payment r' : pays payment r' d' → (r' = r ∧ pi_payment i' = Some payment) ∨ (r' ≠ r ∧ pays payment r' d).
Proof using Hintents. intros (j & [[-> ->]|[Hne Hj]]%updated_lookup & Hp); [by left|right; split; [done|by exists j]]. Qed.

Lemma updated_terms :
  pi_reference i' = pi_reference i ∧ pi_account i' = pi_account i ∧ pi_key i' = pi_key i ∧ pi_provider i' = pi_provider i ∧
  pi_currency i' = pi_currency i ∧ pi_charge i' = pi_charge i ∧ pi_grant i' = pi_grant i.
Proof using Hfw. destruct Hfw as [Ht _ _]. by simplify_eq/=. Qed.

Lemma updated_opens account r' :
  opens account r' d' → (r' = r ∧ account = pi_account i ∧ is_open (pi_status i') = true) ∨ (r' ≠ r ∧ opens account r' d).
Proof using Hintents Hfw.
  intros (j & [[-> ->]|[Hne Hj]]%updated_lookup & Ha & Ho); [left|right; split; [done|by exists j]].
  destruct updated_terms as (_ & Hac & _). by rewrite <-Hac.
Qed.

Lemma updated_keyed account key r' : keyed account key r' d' → keyed account key r' d.
Proof using Hintents Hfw Hi.
  destruct updated_terms as (_ & Hac & Hk & _).
  intros (j & [[-> ->]|[Hne Hj]]%updated_lookup & Ha & Ho); [exists i; by rewrite <-Hac, <-Hk|by exists j].
Qed.

Lemma updated_credits k e : credits d !! k = Some e → credits d' !! k = Some e.
Proof using Hcredit.
  destruct credit; [|by destruct Hcredit as [_ ->]]. destruct Hcredit as (id & _ & _ & _ & Hn & ->). intros Hk.
  rewrite lookup_insert_ne; [done|]. congruence.
Qed.

Lemma updated_paid_for j payment : paid_for j payment d → paid_for j payment d'.
Proof using Hcredit. intros (? & ? & ? & ?). split_and!; [done..|]. by apply updated_credits. Qed.

Lemma paid_kept r' j : intents d !! r' = Some j → pi_status j = IntentPaid → intents d' !! r' = Some j.
Proof using Hintents Hi Hunpaid. intros Hj Hp. rewrite Hintents. rewrite lookup_insert_ne; [done|]. congruence. Qed.

(** The purchase that was just entered. *)
Lemma updated_purchase : credit = true → ∃ id, paid_for i' id d' ∧ purchase_entry i' = purchase_entry i.
Proof using Hcredit Hfw.
  intros Hc. rewrite Hc in Hcredit. destruct Hcredit as (id & Hs & Hp & Ham & _ & Hcr).
  destruct updated_terms as (Hr & Hac & _ & Hpr & _ & Hch & Hg).
  assert (purchase_entry i' = purchase_entry i) as He by (unfold purchase_entry; by rewrite Hr, Hg).
  exists id. split; [|done]. split_and!; [done|done|by rewrite Hch|]. by rewrite Hac, Hpr, He, Hcr, lookup_insert_eq.
Qed.

Lemma updated_sum a : purchased a d' = granted a d'.
Proof using Hbooks Hi Hunpaid Hfw Hintents Hcredit.
  unfold granted. rewrite Hintents, (zsum_replace _ _ _ i) by done.
  pose proof (pb_sum _ Hbooks a) as Hsum. unfold granted in Hsum. rewrite <-Hsum.
  rewrite (bool_decide_eq_false_2 (pi_status i = _)) by done. rewrite andb_false_r.
  destruct updated_terms as (_ & -> & _ & _ & _ & _ & ->). destruct credit.
  - destruct Hcredit as (id & -> & _ & _ & Hn & Hcr). unfold purchased. rewrite Hcr, zsum_insert by done. simpl.
    case_bool_decide; simpl; lia.
  - destruct Hcredit as [Hs Hcr]. unfold purchased. rewrite Hcr, (bool_decide_eq_false_2 (pi_status i' = _)) by done. rewrite andb_false_r. lia.
Qed.

Lemma update_books : pay_books d'.
Proof using Hbooks Hi Hunpaid Hfw Hintents Haccounts Hpayment Hopen Hcredit.
  pose proof Hbooks as [B1 B2 B3 B4 B5 B6 B7 B8 B9]. destruct updated_terms as (Hr & Hac & Hk & Hpr & Hcu & Hch & Hg). split.
  - intros r' j [[-> ->]|[Hne Hj]]%updated_lookup; [rewrite Hr; by apply B1|by apply B1].
  - intros r' j [[-> ->]|[Hne Hj]]%updated_lookup; rewrite Haccounts; [rewrite Hac|]; by eapply B2.
  - intros r' j [[-> ->]|[Hne Hj]]%updated_lookup; [rewrite Hpr, Hcu, Hch, Hg|]; by eapply B3.
  - assert (∀ id r', r' ≠ r → pi_payment i' = Some id → pays id r' d → False) as Hno.
    { intros id r' Hne Hid Hp. destruct (Hpayment id Hid) as [Hold|Hn]; [|by eapply Hn]. apply Hne. eapply B4; [done|by exists i]. }
    intros r1 r2 payment [[-> H1]|[N1 H1]]%updated_pays [[-> H2]|[N2 H2]]%updated_pays; [done|by edestruct Hno|by edestruct Hno|by eapply B4].
  - intros r1 r2 account [(-> & -> & H1)|[N1 H1]]%updated_opens [(-> & Hx & H2)|[N2 H2]]%updated_opens; [done|..|by eapply B5].
    + by edestruct Hopen.
    + subst account. by edestruct Hopen.
  - intros r1 r2 account key H1%updated_keyed H2%updated_keyed. by eapply B6.
  - intros r' j [[-> ->]|[Hne Hj]]%updated_lookup Hp.
    + pose proof updated_purchase as Hup. destruct credit; [|by destruct Hcredit]. destruct Hup as (id & Hid & _); [done|by exists id].
    + destruct (B7 r' j Hj Hp) as [payment Hpay]. exists payment. by apply updated_paid_for.
  - intros a source e He Ht.
    assert (credits d !! (a, source) = Some e ∨ (∃ id, paid_for i' id d' ∧ a = pi_account i' ∧
      source = purchase_source (pi_provider i') id ∧ e = purchase_entry i')) as [Hold|(id & Hid & -> & -> & ->)].
    { pose proof updated_purchase as Hup. destruct credit; [|destruct Hcredit as [_ Hcr]; left; by rewrite <-Hcr].
      destruct Hup as (id & Hid & Hen); [done|].
      destruct Hcredit as (id' & _ & Hp & _ & _ & Hcr). rewrite Hcr in He. apply lookup_insert_Some in He as [[Heq <-]|[_ ?]]; [right|by left].
      destruct Hid as (Hst & Hpi & Hpa & Hcre). rewrite Hp in Hpi. injection Hpi as ->. injection Heq as <- <-.
      exists id. split_and!; [done|done|by rewrite Hpr|done]. }
    + destruct (B8 a source e Hold Ht) as (r' & j & payment & Hj & Hpay & Heq). exists r', j, payment.
      split_and!; [eapply paid_kept; [done|apply Hpay]|by apply updated_paid_for|apply Heq..].
    + exists r, i', id. split_and!; try done. by rewrite Hintents, lookup_insert_eq.
  - apply updated_sum.
Qed.
End update.

(** ** The moves *)

Section notify.
Context (n : Notification) (i : PaymentIntentRecord) (owned taken : bool) (d : PayDb).
Let rs : Resolution := resolve n i owned taken.
Context (Hstage : stage n i owned taken (rs_credit rs) (rs_state rs) d).

Definition resolved_row : PaymentIntentRecord :=
  match rs_state rs with Some (status, payment, amount) => state_row status payment amount i | None => i end.

Lemma stage_tables credit state :
  let d' := pay_apply_ws (stage_writes n i credit state) d in
  pay_accounts d' = pay_accounts d ∧
  credits d' = (if credit then <[purchase_key n i := purchase_entry i]> (credits d) else credits d) ∧
  intents d' = match state with
               | Some (status, payment, amount) => alter (state_row status payment amount) (pi_reference i) (intents d)
               | None => intents d
               end ∧
  notices d' = <[no_event n := (n, NoticeProcessing)]> (notices d).
Proof using. clear Hstage. unfold stage_writes. destruct credit, state as [[[status payment] amount]|]; done. Qed.

Lemma notify_tables :
  let d' := pay_apply_ws (notify_writes n i rs) d in
  pay_accounts d' = pay_accounts d ∧
  credits d' = (if rs_credit rs then <[purchase_key n i := purchase_entry i]> (credits d) else credits d) ∧
  intents d' = <[pi_reference i := resolved_row]> (intents d) ∧
  notices d' = <[no_event n := (n, rs_result rs)]> (notices d).
Proof using Hstage.
  intros d'. destruct (stage_tables (rs_credit rs) (rs_state rs)) as (A & C & I & N).
  assert (d' = pay_apply (WNoticeResult (no_event n) (rs_result rs)) (pay_apply_ws (stage_writes n i (rs_credit rs) (rs_state rs)) d)) as ->.
  { unfold d', notify_writes, pay_apply_ws. by rewrite apply_all_app. }
  set (v := pay_apply_ws (stage_writes n i (rs_credit rs) (rs_state rs)) d) in *. clearbody v. simpl. rewrite A, C, I, N. split_and!; [done|done| |].
  - unfold resolved_row. pose proof (sg_intent _ _ _ _ _ _ _ Hstage) as Hi. destruct (rs_state rs) as [[[status payment] amount]|].
    + apply map_eq. intros r. destruct (decide (r = pi_reference i)) as [->|].
      * by rewrite lookup_alter_eq, lookup_insert_eq, Hi.
      * by rewrite lookup_alter_ne, lookup_insert_ne by congruence.
    + by rewrite insert_id.
  - by rewrite alter_insert_eq.
Qed.

Lemma resolved_forward : intent_forward i resolved_row.
Proof using.
  clear Hstage. unfold resolved_row. destruct (rs_state rs) as [[[status payment] amount]|] eqn:Hs; [|done].
  apply resolve_state in Hs as (Hne & _). split; [done| |done]. intros id Hid. simpl. by rewrite Hid.
Qed.

Lemma books_notify : pay_books d → pay_books (pay_apply_ws (notify_writes n i rs) d).
Proof using Hstage.
  intros Hb. destruct notify_tables as (A & C & I & _). pose proof (sg_intent _ _ _ _ _ _ _ Hstage) as Hi.
  destruct (rs_state rs) as [[[status payment] amount]|] eqn:Hs.
  - pose proof Hs as (Hne & Hon & Hst)%resolve_state. pose proof resolved_forward as Hfw. pose proof (on_intent_provider _ _ Hon) as Hpr.
    assert (resolved_row = state_row status payment amount i) as Hrow by (unfold resolved_row; by rewrite Hs).
    eapply (update_books d _ (pi_reference i) i resolved_row (rs_credit rs)); try done.
    + rewrite Hrow. simpl. intros id Hid. destruct (pi_payment i) as [id'|] eqn:Hp; [left; congruence|right].
      eapply (sg_payment _ _ _ _ _ _ _ Hstage); [done|]. unfold fresh_payment. by rewrite Hp.
    + rewrite Hrow. intros Ho. by eapply (sg_open _ _ _ _ _ _ _ Hstage).
    + rewrite C. destruct (rs_credit rs) eqn:Hc.
      * destruct (resolve_credit _ _ _ _ Hc) as (id & Heq & Hn & _ & Ham%completes_amount & _ & Hpay).
        fold rs in Heq. rewrite Heq in Hs. injection Hs as <- <- <-. rewrite Hrow. exists id. simpl.
        pose proof (sg_credit _ _ _ _ _ _ _ Hstage eq_refl) as Hno. unfold purchase_key in *. rewrite Hn, Hpr in *. simpl in *.
        split_and!; [done|destruct Hpay as [-> | ->]; done|done|done|done].
      * rewrite Hrow. split; [by apply Hst|done].
  - assert (rs_credit rs = false) as Hc.
    { destruct (rs_credit rs) eqn:Hc; [|done]. apply resolve_credit in Hc as (id & Heq & _). fold rs in Heq. by rewrite Heq in Hs. }
    assert (intents (pay_apply_ws (notify_writes n i rs) d) = intents d) as I'.
    { rewrite I. unfold resolved_row. rewrite Hs. by rewrite insert_id. }
    rewrite Hc in C. destruct Hb as [B1 B2 B3 B4 B5 B6 B7 B8 B9].
    split; unfold pays, opens, keyed, paid_for, purchased, granted; rewrite ?I', ?C, ?A; done.
Qed.
End notify.

Lemma books_frame d d' :
  intents d' = intents d → credits d' = credits d →
  (∀ r i, intents d !! r = Some i → pi_account i ∈ pay_accounts d → pi_account i ∈ pay_accounts d') → pay_books d → pay_books d'.
Proof.
  intros I C A [B1 B2 B3 B4 B5 B6 B7 B8 B9].
  split; unfold pays, opens, keyed, paid_for, purchased, granted; rewrite ?I, ?C; eauto.
Qed.

Lemma books_create now a d : can_create a d → pay_books d → pay_books (pay_apply (WIntent (new_intent now a)) d).
Proof.
  intros [C1 C2 C3 C4 C5 C6 C7] [B1 B2 B3 B4 B5 B6 B7 B8 B9].
  assert (∀ r j, intents (pay_apply (WIntent (new_intent now a)) d) !! r = Some j →
    (r = ca_reference a ∧ j = new_intent now a) ∨ (r ≠ ca_reference a ∧ intents d !! r = Some j)) as Hl.
  { simpl. intros r j. rewrite lookup_insert_Some. naive_solver. }
  split.
  - intros r j [[-> ->]|[_ Hj]]%Hl; [done|by apply B1].
  - intros r j [[-> ->]|[_ Hj]]%Hl; [done|by eapply B2].
  - intros r j [[-> ->]|[_ Hj]]%Hl; [done|by eapply B3].
  - intros r r' payment (j & [[-> ->]|[N Hj]]%Hl & Hp) (j' & [[-> ->]|[N' Hj']]%Hl & Hp'); [done..|].
    eapply B4; [by exists j|by exists j'].
  - intros r r' account (j & [[-> ->]|[N Hj]]%Hl & Ha & Hp) (j' & [[-> ->]|[N' Hj']]%Hl & Ha' & Hp'); [done| | |].
    + destruct (C4 r'). exists j'. simpl in Ha. by rewrite Ha.
    + destruct (C4 r). exists j. simpl in Ha'. by rewrite Ha'.
    + eapply B5; [by exists j|by exists j'].
  - intros r r' account key (j & [[-> ->]|[N Hj]]%Hl & Ha & Hp) (j' & [[-> ->]|[N' Hj']]%Hl & Ha' & Hp'); [done| | |].
    + destruct (C3 r'). exists j'. simpl in Ha, Hp. by rewrite Ha, Hp.
    + destruct (C3 r). exists j. simpl in Ha', Hp'. by rewrite Ha', Hp'.
    + eapply B6; [by exists j|by exists j'].
  - intros r j [[-> ->]|[_ Hj]]%Hl Hp; [done|by eapply B7].
  - intros x source e He Ht. destruct (B8 x source e He Ht) as (r & j & payment & Hj & Hrest). exists r, j, payment. split; [|done].
    simpl. rewrite lookup_insert_ne; [done|]. intros <-. congruence.
  - intros x. unfold granted. simpl. rewrite zsum_insert by done. simpl. rewrite andb_false_r. apply B9.
Qed.

Lemma books_credit account source e d :
  ce_type e ≠ Purchase → ce_reference e = None → credits d !! (account, source) = None → pay_books d →
  pay_books (pay_apply (WCredit account source e) d).
Proof.
  intros Hty Hr Hn [B1 B2 B3 B4 B5 B6 B7 B8 B9].
  assert (∀ j payment, paid_for j payment d → paid_for j payment (pay_apply (WCredit account source e) d)) as Hp.
  { intros j payment (? & ? & ? & Hc). split_and!; [done..|]. simpl. rewrite lookup_insert_ne; [done|]. congruence. }
  split; try done.
  - intros r j Hj Hs. destruct (B7 r j Hj Hs) as [payment ?]. exists payment. auto.
  - intros x s e' He Ht. simpl in He. apply lookup_insert_Some in He as [[[= <- <-] <-]|[_ He]]; [by destruct Ht as [?|[? ?]]; congruence|].
    destruct (B8 x s e' He Ht) as (r & j & payment & Hj & Hpay & Hrest). exists r, j, payment. split_and!; [done|by apply Hp|apply Hrest..].
  - intros x. unfold purchased. simpl. rewrite zsum_insert by done. simpl.
    rewrite (bool_decide_eq_false_2 (ce_type e = _)) by done. rewrite andb_false_r. apply B9.
Qed.

Lemma session_forward session i :
  pi_payment i = None ∨ pi_payment i = Some session → (pi_status i = IntentPaid → pi_payment i ≠ None) →
  intent_forward i (session_row session i).
Proof.
  intros Hp Hpaid. split; [done|naive_solver|]. intros Hs. destruct Hp as [Hp|Hp]; [by destruct (Hpaid Hs)|].
  unfold session_row. rewrite <-Hp. by destruct i.
Qed.

Lemma books_attach r session i d : can_attach r session i d → pay_books d → pay_books (pay_apply (WIntentSession r session) d).
Proof.
  intros [Hi Hpr Hp Hu] Hb.
  assert (intents (pay_apply (WIntentSession r session) d) = <[r := session_row session i]> (intents d)) as I.
  { simpl. apply map_eq. intros r'. destruct (decide (r' = r)) as [->|].
    - by rewrite lookup_alter_eq, lookup_insert_eq, Hi.
    - by rewrite lookup_alter_ne, lookup_insert_ne by congruence. }
  assert (pi_status i = IntentPaid → pi_payment i ≠ None) as Hpaid.
  { intros Hs. destruct (pb_paid _ Hb r i Hi Hs) as (payment & _ & -> & _). done. }
  pose proof (session_forward session i Hp Hpaid) as Hfw. destruct (decide (pi_status i = IntentPaid)) as [Hs|Hs].
  - apply (books_frame d); [|done|auto|exact Hb]. rewrite I, (fw_paid _ _ Hfw Hs). by apply insert_id.
  - eapply (update_books d _ r i _ false); try done.
    + intros id [= <-]. by right.
    + intros Ho r' Hne Ho'. apply Hne. eapply (pb_open _ Hb); [exact Ho'|by exists i].
Qed.

Lemma pay_step_books d d' : pay_step d d' → pay_books d → pay_books d'.
Proof.
  intros [now a Hc|r session i Hc|n Hn|n i owned taken rs Hr Hs|account source e Hty Hr Hn|d'' I C N A] Hb.
  - by apply books_create.
  - by eapply books_attach.
  - by apply (books_frame d); auto.
  - by apply books_notify.
  - by apply books_credit.
  - by apply (books_frame d).
Qed.

Lemma pay_steps_books d d' : pay_steps d d' → pay_books d → pay_books d'.
Proof. induction 1; eauto using pay_step_books. Qed.

(** ** Nothing goes back *)

Record pay_forward (d d' : PayDb) : Prop := {
  pf_intents r i : intents d !! r = Some i → ∃ i', intents d' !! r = Some i' ∧ intent_forward i i';
  pf_credits k e : credits d !! k = Some e → credits d' !! k = Some e;
  pf_notices event x : notices d !! event = Some x → notices d' !! event = Some x;
}.

#[export] Instance pay_forward_preorder : PreOrder pay_forward.
Proof.
  split; [split; [intros r i Hi; by exists i|done..]|]. intros x y z [A1 B1 C1] [A2 B2 C2]. split; [|auto..].
  intros r i Hi. destruct (A1 r i Hi) as (j & Hj & Hf). destruct (A2 r j Hj) as (k & Hk & Hf'). exists k. split; [done|by etrans].
Qed.

Lemma forward_insert (m : gmap string PaymentIntentRecord) s j r i :
  (m !! s = None ∨ ∃ i, m !! s = Some i ∧ intent_forward i j) → m !! r = Some i → ∃ i', <[s := j]> m !! r = Some i' ∧ intent_forward i i'.
Proof.
  intros Hs Hr. destruct (decide (r = s)) as [->|Hne]; [|exists i; by rewrite lookup_insert_ne by congruence].
  rewrite lookup_insert_eq. destruct Hs as [?|(k & Hk & Hf)]; [congruence|]. exists j. split; [done|]. congruence.
Qed.

Lemma pay_step_forward d d' : pay_books d → pay_step d d' → pay_forward d d'.
Proof.
  intros Hb [now a Hc|r session i Hc|n Hn|n i owned taken rs Hr Hs|account source e Hty Hr Hn|d'' I C N A].
  - split; [|done..]. intros r i. apply forward_insert. left. apply Hc.
  - destruct Hc as [Hi Hpr Hp Hu]. split; [|done..]. intros r' j Hj. simpl.
    destruct (decide (r' = r)) as [->|]; [rewrite lookup_alter_eq, Hj|rewrite lookup_alter_ne by congruence; by exists j].
    eexists. split; [done|]. rewrite Hi in Hj. injection Hj as <-. apply session_forward; [done|].
    intros Hst. destruct (pb_paid _ Hb r i Hi Hst) as (payment & _ & -> & _). done.
  - split; [intros r i Hi; by exists i|done|]. intros event x Hx. unfold journal_writes. simpl.
    rewrite lookup_alter_ne, lookup_insert_ne by congruence. done.
  - destruct (notify_tables n i owned taken d Hs) as (_ & C & I & N). fold rs in C, I, N. pose proof (sg_intent _ _ _ _ _ _ _ Hs) as Hi. split.
    + intros r j. rewrite I. apply forward_insert. right. exists i. split; [done|apply resolved_forward].
    + intros k e Hk. rewrite C. destruct (rs_credit rs) eqn:Hc; [|done]. rewrite lookup_insert_ne; [done|].
      intros <-. pose proof (sg_credit _ _ _ _ _ _ _ Hs eq_refl). congruence.
    + intros event x Hx. rewrite N. rewrite lookup_insert_ne; [done|]. intros <-. pose proof (sg_new _ _ _ _ _ _ _ Hs). congruence.
  - split; [intros r i Hi; by exists i| |done]. intros k x Hk. simpl. rewrite lookup_insert_ne; [done|]. congruence.
  - split; [intros r i Hi; rewrite I; by exists i|by rewrite C|done].
Qed.

Lemma pay_steps_forward d d' : pay_books d → pay_steps d d' → pay_forward d d'.
Proof.
  intros Hb Hs. induction Hs as [|x y z Hxy _ IH]; [done|]. etrans; [by apply pay_step_forward|].
  apply IH. by eapply pay_step_books.
Qed.
