(* ===== verification/PaymentsCalls.v ===== *)
(** * Credit purchases: each call among all the others

    Any number of calls ([PayCall]) run at once on one database, while accounts come and
    go, the ledger gets rows of other kinds, and connections are lost ([payments]).
    [pay_stable] is what the holder of some locks may count on meanwhile; [stage_kept]
    says that the locks a notification's transaction takes keep what it has found, and
    every call is verified on its own ([pay_program_spec]). *)

From stdpp Require Import base gmap strings list relations.
From Stdlib Require Import ZArith Ascii Lia.
From S2P Require Import Prelude Text Nostr Effect Postgres Credits CreditsSpec Payments PaymentsSpec PaymentsBooks.

Local Open Scope Z_scope.
Local Open Scope list_scope.

(** ** What locks keep *)

Record pay_stable (L : list PayLock) (c d : PayDb) : Prop := {
  ps_account a : LkAccount a ∈ L → a ∈ pay_accounts c → a ∈ pay_accounts d;
  ps_event event : LkEvent event ∈ L → notices d !! event = notices c !! event;
  ps_intent r : LkIntent r ∈ L → intents d !! r = intents c !! r;
  ps_credit a source : LkCredit a source ∈ L → credits d !! (a, source) = credits c !! (a, source);
  ps_payment payment r : LkPayment payment ∈ L → pays payment r d → pays payment r c;
  ps_open a r : LkOpen a ∈ L → opens a r d → opens a r c;
  ps_key a key r : LkKey a key ∈ L → keyed a key r d → keyed a key r c;
}.

#[export] Instance pay_stable_preorder L : PreOrder (pay_stable L).
Proof.
  split; [by split|]. intros x y z [A1 B1 C1 D1 E1 F1 G1] [A2 B2 C2 D2 E2 F2 G2]. split; eauto; intros.
  - rewrite B2 by done. auto.
  - rewrite C2 by done. auto.
  - rewrite D2 by done. auto.
Qed.

(** The locks under which nobody else notices that the row [r] becomes [j]. *)
Definition row_covered (L : list PayLock) (v : PayDb) (r : string) (j : PaymentIntentRecord) : Prop :=
  LkIntent r ∈ L ∧
  (∀ payment, pi_payment j = Some payment → pays payment r v ∨ LkPayment payment ∈ L) ∧
  (is_open (pi_status j) = true → opens (pi_account j) r v ∨ LkOpen (pi_account j) ∈ L) ∧
  (keyed (pi_account j) (pi_key j) r v ∨ LkKey (pi_account j) (pi_key j) ∈ L).

Lemma pay_stable_of L L' v d :
  (∀ l, l ∈ L → l ∉ L') →
  (∀ a, a ∈ pay_accounts v → a ∈ pay_accounts d ∨ LkAccount a ∈ L) →
  (∀ event, notices d !! event = notices v !! event ∨ LkEvent event ∈ L) →
  (∀ a source, credits d !! (a, source) = credits v !! (a, source) ∨ LkCredit a source ∈ L) →
  (∀ r, intents d !! r = intents v !! r ∨ ∃ j, intents d !! r = Some j ∧ row_covered L v r j) →
  pay_stable L' v d.
Proof.
  intros Hd A N C I. split.
  - intros a Hl Ha. destruct (A a Ha) as [?|H]; [done|by destruct (Hd _ H)].
  - intros event Hl. destruct (N event) as [?|H]; [done|by destruct (Hd _ H)].
  - intros r Hl. destruct (I r) as [?|(j & _ & H & _)]; [done|by destruct (Hd _ H)].
  - intros a source Hl. destruct (C a source) as [?|H]; [done|by destruct (Hd _ H)].
  - intros payment r Hl (j & Hj & Hp). destruct (I r) as [Heq|(j' & Hj' & _ & H & _)]; [exists j; by rewrite <-Heq|].
    rewrite Hj in Hj'. injection Hj' as <-. destruct (H payment Hp) as [?|H']; [done|by destruct (Hd _ H')].
  - intros a r Hl (j & Hj & Ha & Ho). destruct (I r) as [Heq|(j' & Hj' & _ & _ & H & _)]; [exists j; by rewrite <-Heq|].
    rewrite Hj in Hj'. injection Hj' as <-. destruct (H Ho) as [?|H']; rewrite Ha in *; [done|by destruct (Hd _ H')].
  - intros a key r Hl (j & Hj & Ha & Hk). destruct (I r) as [Heq|(j' & Hj' & _ & _ & _ & H)]; [exists j; by rewrite <-Heq|].
    rewrite Hj in Hj'. injection Hj' as <-. destruct H as [?|H']; rewrite Ha, Hk in *; [done|by destruct (Hd _ H')].
Qed.

(** The locks a notification's transaction has taken for what it did. *)
Record stage_locked (L : list PayLock) (n : Notification) (i : PaymentIntentRecord) (credit : bool)
    (state : option (IntentStatus * option string * option Z)) : Prop := {
  sl_event : LkEvent (no_event n) ∈ L;
  sl_intent : LkIntent (pi_reference i) ∈ L;
  sl_credit : credit = true → LkCredit (purchase_key n i).1 (purchase_key n i).2 ∈ L;
  sl_payment : ∀ status payment amount id, state = Some (status, payment, amount) → fresh_payment i payment = Some id → LkPayment id ∈ L;
  sl_open : ∀ status payment amount, state = Some (status, payment, amount) → is_open status = true → LkOpen (pi_account i) ∈ L;
}.

Section notify.
Context (n : Notification) (i : PaymentIntentRecord) (owned taken : bool) (d : PayDb) (L L' : list PayLock).
Let rs : Resolution := resolve n i owned taken.
Context (Hstage : stage n i owned taken (rs_credit rs) (rs_state rs) d) (Hlocked : stage_locked L n i (rs_credit rs) (rs_state rs)).

Lemma resolved_covered : row_covered L d (pi_reference i) (resolved_row n i owned taken).
Proof using Hstage Hlocked.
  pose proof (sg_intent _ _ _ _ _ _ _ Hstage) as Hi. unfold resolved_row. fold rs.
  destruct (rs_state rs) as [[[status payment] amount]|] eqn:Hs; (split; [apply (sl_intent _ _ _ _ _ Hlocked)|]); split_and!.
  - simpl. intros id Hid. destruct (pi_payment i) as [id'|] eqn:Hp; [left; exists i; split; [done|congruence]|right].
    eapply (sl_payment _ _ _ _ _ Hlocked); [done|]. unfold fresh_payment. by rewrite Hp.
  - simpl. intros Ho. right. by eapply (sl_open _ _ _ _ _ Hlocked).
  - left. by exists i.
  - intros id Hid. left. by exists i.
  - intros Ho. left. by exists i.
  - left. by exists i.
Qed.

Lemma notify_guaranteed : no_reference n = Some (pi_reference i) → guaranteed pay_steps pay_stable L d (pay_apply_ws (notify_writes n i rs) d).
Proof using Hstage Hlocked.
  intros Hr. split; [apply rtc_once; by eapply step_notify|]. clear L'. intros L' Hd.
  destruct (notify_tables n i owned taken d Hstage) as (A & C & I & N). fold rs in A, C, I, N.
  eapply (pay_stable_of L); [exact Hd|..].
  - intros a Ha. left. by rewrite A.
  - intros event. rewrite N. destruct (decide (event = no_event n)) as [->|]; [right; apply (sl_event _ _ _ _ _ Hlocked)|left].
    by rewrite lookup_insert_ne by congruence.
  - intros a source. rewrite C. destruct (rs_credit rs) eqn:Hc; [|by left].
    destruct (decide ((a, source) = purchase_key n i)) as [Heq|]; [right|left; by rewrite lookup_insert_ne by congruence].
    pose proof (sl_credit _ _ _ _ _ Hlocked eq_refl) as H. by rewrite <-Heq in H.
  - intros r. rewrite I. destruct (decide (r = pi_reference i)) as [->|]; [right|left; by rewrite lookup_insert_ne by congruence].
    exists (resolved_row n i owned taken). rewrite lookup_insert_eq. split; [done|apply resolved_covered].
Qed.
End notify.

(** ** The calls *)

Inductive PayCall :=
  | CallCreateIntent (a : CreateArgs)
  | CallFindIntent (account : Uuid) (reference : string)
  | CallFindOpen (account : Uuid)
  | CallHistory (account : Uuid) (limit : Z)
  | CallAttach (reference session : string)
  | CallNotify (n : Notification).

Inductive PayOut :=
  | OutCreated (r : result DbError CreatePaymentIntentOutcome)
  | OutIntent (r : result DbError (option PaymentIntentRecord))
  | OutHistory (r : result DbError (list PaymentIntentRecord))
  | OutAttached (r : result DbError unit)
  | OutNotified (r : result DbError PaymentNotificationOutcome).

Abbreviation PaySql := (SqlOp PayStmt Empty_set).
Abbreviation PaySqlReply := (SqlReply pay_answer no_answer).
Abbreviation PayMachine := (Machine PaySql PaySqlReply PayCall PayOut (SqlEntry PayWrite PayLock)).

Definition pay_returns {A} (f : A → PayOut) (q : eff PaySql PaySqlReply A) : eff PaySql PaySqlReply PayOut :=
  eff_bind q (λ a, Pure (f a)).

Definition pay_program (c : PayCall) : eff PaySql PaySqlReply PayOut :=
  match c with
  | CallCreateIntent a => pay_returns OutCreated (create_account_payment_intent_for_provider a)
  | CallFindIntent account reference => pay_returns OutIntent (account_payment_intent account reference)
  | CallFindOpen account => pay_returns OutIntent (open_account_payment_intent account)
  | CallHistory account limit => pay_returns OutHistory (account_payment_intent_history account limit)
  | CallAttach reference session => pay_returns OutAttached (attach_account_checkout_session reference session)
  | CallNotify n => pay_returns OutNotified (apply_account_payment_notification_for_provider n)
  end.

(** What the rest of the system writes: ledger rows of other types, which have no
    reference; accounts, deleted only if nothing refers to them; notifications of site
    subscriptions, which share the journal. *)
Definition pay_extern (c : PayDb) (w : PayWrite) (ls : list PayLock) : Prop :=
  match w with
  | WCredit a source e =>
      ce_type e ≠ Purchase ∧ ce_reference e = None ∧ credits c !! (a, source) = None ∧ ls = [LkCredit a source]
  | WPayAccount id => ls = [LkAccount id]
  | WPayAccountGone id =>
      ls = [LkAccount id] ∧ (∀ r i, intents c !! r = Some i → pi_account i ≠ id) ∧ (∀ source, credits c !! (id, source) = None)
  | WNotice n _ => notices c !! no_event n = None ∧ ls = [LkEvent (no_event n)]
  | _ => False
  end.

Abbreviation PayHistory := (list (SqlEntry PayWrite PayLock)).

Definition payments : PayMachine → Prop :=
  machine_reachable (sql_react pay_apply pay_exec empty_pay_db (outer:=no_answer)) (sql_outside pay_apply empty_pay_db pay_extern) pay_program.

(** The tables after a history. *)
Definition pay_tables (h : PayHistory) : PayDb := committed (store_of pay_apply empty_pay_db h).

(** ** Between two statements *)

Abbreviation good := (good pay_apply empty_pay_db pay_steps pay_stable).
Abbreviation triple := (triple fst (sql_react pay_apply pay_exec empty_pay_db (outer:=no_answer)) good (λ _ : PayHistory, True)).
Abbreviation meanwhile := (meanwhile fst good (λ _ : PayHistory, True)).
Abbreviation held := (held pay_apply empty_pay_db).
Abbreviation closed := (closed pay_apply empty_pay_db).
Abbreviation kept := (kept empty_pay_db pay_steps pay_stable).
Abbreviation extended := (Postgres.extended (Wr:=PayWrite) (Lk:=PayLock)).

Lemma reachable_pay_books c : pay_steps empty_pay_db c → pay_books c.
Proof. intros Hs. eapply pay_steps_books; [exact Hs|apply pay_books_empty]. Qed.

Lemma good_pay_books h : good h → pay_books (pay_tables h).
Proof. intros Hg. apply reachable_pay_books. unfold pay_tables. by eapply good_steps; [exact _..|]. Qed.

Lemma pay_tables_commit i x (h : PayHistory) :
  opened (store_of pay_apply empty_pay_db h) !! i = Some x → pay_tables (h ++ [(Some i, ACommit)]) = pay_apply_ws (x_writes x) (pay_tables h).
Proof. intros Ho. unfold pay_tables. rewrite store_of_snoc. simpl. by rewrite Ho. Qed.

Lemma subseteq_app_l {A} (l k : list A) : l ⊆ l ++ k.
Proof. intros x Hx. apply elem_of_app. by left. Qed.

Lemma pay_stable_mono L L' c d : L ⊆ L' → pay_stable L' c d → pay_stable L c d.
Proof. intros Hs [A B C D E F G]. split; auto. Qed.

Lemma kept_mono L L' P : L ⊆ L' → kept L P → kept L' P.
Proof. intros Hs HP c c' H1 H2 H3. apply HP; [done..|]. by eapply pay_stable_mono. Qed.

Lemma guaranteed_mono L L' c d : L ⊆ L' → guaranteed pay_steps pay_stable L c d → guaranteed pay_steps pay_stable L' c d.
Proof. intros Hs [H1 H2]. split; [done|]. intros K Hd. apply H2. intros l Hl. apply Hd. by apply Hs. Qed.

Lemma stage_locked_mono L L' n i credit state : L ⊆ L' → stage_locked L n i credit state → stage_locked L' n i credit state.
Proof. intros Hs [A B C D E]. split; eauto. Qed.

Lemma unjournalled_kept L n : LkEvent (no_event n) ∈ L → kept L (λ c, notices c !! no_event n = None).
Proof. intros Hl c c' _ _ Hs Hn. by rewrite (ps_event _ _ _ Hs). Qed.

(** What a transaction has found stays so while it holds its locks. *)
Lemma stage_kept L n i owned taken credit state : stage_locked L n i credit state → kept L (stage n i owned taken credit state).
Proof.
  intros [L1 L2 L3 L4 L5] c c' Hc Hs Hst [S1 S2 S3 S4 S5 S6 S7].
  destruct (pay_steps_forward _ _ (reachable_pay_books c Hc) Hs) as [FI FC FN]. split.
  - by rewrite (ps_event _ _ _ Hst).
  - by rewrite (ps_intent _ _ _ Hst).
  - intros Ho. destruct (S3 Ho) as (r & payment & Hp & Hne & (j & Hj & Hpj)). exists r, payment. split_and!; [done..|].
    destruct (FI r j Hj) as (j' & Hj' & Hf). exists j'. split; [done|by apply Hf].
  - intros Ht. destruct (S4 Ht) as [e He]. exists e. by apply FC.
  - intros Hcr. specialize (S5 Hcr). specialize (L3 Hcr). unfold purchase_key in *. by rewrite (ps_credit _ _ _ Hst).
  - intros status payment amount id Hsa Hf r Hne Hp. eapply S6; [done..|]. eapply ps_payment; [exact Hst|by eapply L4|done].
  - intros status payment amount Hsa Hf r Hne Hp. eapply S7; [done..|]. eapply ps_open; [exact Hst|by eapply L5|done].
Qed.

(** Membership of the locks held. *)
Ltac pay_locks :=
  simpl;
  repeat first
    [ assumption | apply elem_of_cons; left; reflexivity | apply elem_of_cons; right; solve [pay_locks]
    | apply elem_of_app; left; solve [pay_locks] | apply elem_of_app; right; solve [pay_locks] ].

(** ** What the statements find *)

Lemma intent_rows_elem f d j : j ∈ intent_rows f d ↔ f j = true ∧ ∃ r, intents d !! r = Some j.
Proof.
  unfold intent_rows. rewrite list_elem_of_fmap. split.
  - intros ([r j'] & -> & H). apply list_elem_of_filter in H as [Hf H%elem_of_map_to_list]. split; [done|by exists r].
  - intros [Hf [r Hr]]. exists (r, j). split; [done|]. apply list_elem_of_filter. split; [done|]. by apply elem_of_map_to_list.
Qed.

Lemma head_Some_elem {A} (l : list A) x : head l = Some x → x ∈ l.
Proof. destruct l; [done|]. intros [= ->]. apply elem_of_cons. by left. Qed.

Lemma payment_owner_Some payment reference d r :
  payment_owner payment reference d = Some r → pay_books d → r ≠ reference ∧ pays payment r d.
Proof.
  unfold payment_owner. intros H Hb. destruct (head _) as [j|] eqn:Hh; [|done]. injection H as <-.
  apply head_Some_elem, intent_rows_elem in Hh as [Hf [r Hr]]. apply andb_true_iff in Hf as [Hp%bool_decide_eq_true Hn].
  apply negb_true_iff, bool_decide_eq_false in Hn. split; [done|]. exists j. split; [|done]. by rewrite (pb_reference _ Hb r j Hr).
Qed.

Lemma payment_owner_None payment reference d :
  bool_decide (is_Some (payment_owner payment reference d)) = false → pay_books d → ∀ r, r ≠ reference → ¬ pays payment r d.
Proof.
  intros Hn%bool_decide_eq_false Hb r Hne (j & Hj & Hp). apply Hn. unfold payment_owner. rewrite fmap_is_Some, head_is_Some.
  assert (j ∈ intent_rows (λ i, bool_decide (pi_payment i = Some payment) && negb (bool_decide (pi_reference i = reference))) d) as Hin.
  { apply intent_rows_elem. rewrite bool_decide_eq_true_2, (pb_reference _ Hb r j Hj), bool_decide_eq_false_2 by done. eauto. }
  intros H. rewrite H in Hin. by apply not_elem_of_nil in Hin.
Qed.

Lemma other_open_false account reference d :
  other_open account reference d = false → pay_books d → ∀ r, r ≠ reference → ¬ opens account r d.
Proof.
  unfold other_open. intros Hn Hb r Hne (j & Hj & Ha & Ho). apply negb_false_iff, bool_decide_eq_true in Hn.
  apply (not_elem_of_nil j). rewrite <-Hn. apply intent_rows_elem.
  rewrite Ha, Ho, (pb_reference _ Hb r j Hj), bool_decide_eq_true_2, bool_decide_eq_false_2 by done. eauto.
Qed.

Lemma head_None_elem {A} (l : list A) : head l = None → l = [].
Proof. by destruct l. Qed.

Lemma open_intent_Some account d j :
  open_intent account d = Some j → ∃ r, intents d !! r = Some j ∧ pi_account j = account ∧ is_open (pi_status j) = true.
Proof.
  unfold open_intent. intros H%head_Some_elem. rewrite sort_by_key_perm, intent_rows_elem in H.
  destruct H as [[Ha%bool_decide_eq_true Ho]%andb_true_iff [r Hr]]. by exists r.
Qed.

Lemma open_intent_None account d r : open_intent account d = None → ¬ opens account r d.
Proof.
  unfold open_intent. intros H%head_None_elem (j & Hj & Ha & Ho). apply (not_elem_of_nil j). rewrite <-H, sort_by_key_perm.
  apply intent_rows_elem. rewrite bool_decide_eq_true_2 by done. eauto.
Qed.

Lemma intent_by_key_Some account key d j :
  intent_by_key account key d = Some j → ∃ r, intents d !! r = Some j ∧ pi_account j = account ∧ pi_key j = key.
Proof.
  unfold intent_by_key. intros [Hf [r Hr]]%head_Some_elem%intent_rows_elem.
  apply andb_true_iff in Hf as [Ha%bool_decide_eq_true Hk%bool_decide_eq_true]. by exists r.
Qed.

Lemma intent_by_key_None account key d r : intent_by_key account key d = None → ¬ keyed account key r d.
Proof.
  unfold intent_by_key. intros H%head_None_elem (j & Hj & Ha & Hk). apply (not_elem_of_nil j). rewrite <-H.
  apply intent_rows_elem. rewrite !bool_decide_eq_true_2 by done. eauto.
Qed.

(** ** A notification *)

(** What a transaction of task [i] on [n] did, at one moment: [m] is the intent it was
    for, and what the resolution turned on. *)
Definition notified (i : nat) (n : Notification) (m : option (PaymentIntentRecord * bool * bool)) (h0 h : PayHistory) : Prop :=
  ∃ h1, h0 `prefix_of` h1 ∧ h1 ++ [(Some i, ACommit)] `prefix_of` h ∧
    let d := pay_tables h1 in let d' := pay_tables (h1 ++ [(Some i, ACommit)]) in
    match m with
    | None => notices d !! no_event n = None ∧ d' = pay_apply_ws (journal_writes n) d
    | Some (j, owned, taken) =>
        let rs := resolve n j owned taken in
        no_reference n = Some (pi_reference j) ∧ stage n j owned taken (rs_credit rs) (rs_state rs) d ∧
        d' = pay_apply_ws (notify_writes n j rs) d
    end.

(** At some moment, between [h0] and [h]. *)
Definition once (P : PayDb → Prop) (h0 h : PayHistory) : Prop := ∃ h1, h0 `prefix_of` h1 ∧ h1 `prefix_of` h ∧ P (pay_tables h1).

(** What the outcome of a notification promises. *)
Definition notification_done (i : nat) (n : Notification) (o : PaymentNotificationOutcome) (h0 h : PayHistory) : Prop :=
  (o = NotificationDuplicate ∧ once (λ d, is_Some (notices d !! no_event n)) h0 h) ∨
  (o = NotificationUnmatched ∧ notified i n None h0 h ∧
     once (λ d, ∀ r, no_reference n = Some r → intents d !! r = None) h0 h) ∨
  (∃ j owned taken, o = rs_outcome (resolve n j owned taken) ∧ notified i n (Some (j, owned, taken)) h0 h).

Lemma triple_pay {B} i x P s (f : pay_answer s → payprog B) (Q : B → PayHistory → Prop) h :
  held i x P h → kept (x_locks x) P →
  (∀ h1 a ws ls,
     h `prefix_of` h1 → good h1 → pay_books (pay_tables h1) → P (pay_tables h1) →
     pay_exec tt (x_now x) (pay_apply_ws (x_writes x) (pay_tables h1)) s = Some (a, ws, ls) →
     ∃ P', kept (x_locks x ++ ls) P' ∧ P' (pay_tables h1) ∧
       ∀ h', good h' → h1 `prefix_of` h' → held i (extended x ws ls) P' h' → triple i (f a) (body Q) h') →
  triple i (try_bind (pay_tx s) f) (body Q) h.
Proof.
  intros Hh HP Hok. apply triple_try. eapply triple_in_tx; [exact _|exact _|exact Hh|exact HP|].
  intros [] h1 a ws ls Hp Hg HP1 Hex. by apply (Hok h1 a ws ls Hp Hg (good_pay_books _ Hg)).
Qed.

Lemma finish_spec i n r o x P (Q : PaymentNotificationOutcome → PayHistory → Prop) h :
  held i x P h → kept (x_locks x) P →
  (∀ c, pay_steps empty_pay_db c → P c →
     guaranteed pay_steps pay_stable (x_locks x) c (pay_apply_ws (x_writes x ++ [WNoticeResult (no_event n) r]) c)) →
  (∀ h', closed i h' → good h' →
     (∃ h1, h `prefix_of` h1 ∧ h1 ++ [(Some i, ACommit)] `prefix_of` h' ∧ P (pay_tables h1) ∧
        pay_tables (h1 ++ [(Some i, ACommit)]) = pay_apply_ws (x_writes x ++ [WNoticeResult (no_event n) r]) (pay_tables h1)) →
     Q o h') →
  triple i (finish n r o) (body Q) h.
Proof.
  intros Hh HP Hgu HQ. eapply triple_pay; [exact Hh|exact HP|]. intros h1 [] ws ls Hp Hg Hb HP1 Hex. simpl in Hex. injection Hex as <- <-.
  exists P. split_and!; [eapply kept_mono, HP; apply subseteq_app_l|done|].
  intros h2 Hg2 Hp2 Hh2. eapply triple_commit_body; [exact _|exact _|exact Hh2| | |].
  - eapply kept_mono, HP. apply subseteq_app_l.
  - intros c Hc HPc. eapply guaranteed_mono; [|by apply Hgu]. apply subseteq_app_l.
  - intros h3 Hc3 Hg3 (h4 & H1 & H2 & Hg4 & Ho & HP4). apply HQ; [done..|]. exists h4. split_and!; [|done..|].
    + etrans; [exact Hp|]. by etrans.
    + rewrite (pay_tables_commit i _ _ Ho). done.
Qed.

Section notify_task.
Context (i : nat) (n : Notification) (j : PaymentIntentRecord) (h0 : PayHistory).
Context (Q : PaymentNotificationOutcome → PayHistory → Prop).
Context (Hreference : no_reference n = Some (pi_reference j)).
Context (HQ : ∀ owned taken h', closed i h' → good h' → notified i n (Some (j, owned, taken)) h0 h' →
  Q (rs_outcome (resolve n j owned taken)) h').
Implicit Types (x : Txn PayWrite PayLock).

(** The transaction has found, and written, this much. *)
Record staged (x : Txn PayWrite PayLock) (owned taken credit : bool) (state : option (IntentStatus * option string * option Z))
    (h : PayHistory) : Prop := {
  sd_held : held i x (stage n j owned taken credit state) h;
  sd_writes : x_writes x = stage_writes n j credit state;
  sd_locked : stage_locked (x_locks x) n j credit state;
  sd_start : h0 `prefix_of` h;
}.

Lemma finish_staged x owned taken credit state r o h :
  staged x owned taken credit state h →
  resolve n j owned taken = {| rs_credit := credit; rs_state := state; rs_result := r; rs_outcome := o |} →
  triple i (finish n r o) (body Q) h.
Proof using Hreference HQ.
  intros [Hh Hw Hl Hp] Hrs. eapply finish_spec; [exact Hh|by apply stage_kept| |].
  - intros c _ Hs. rewrite Hw. pose proof (notify_guaranteed n j owned taken c (x_locks x)) as H. rewrite Hrs in H. by apply H.
  - intros h' Hc Hg (h1 & H1 & H2 & H3 & H4). pose proof (HQ owned taken h' Hc Hg) as H. rewrite Hrs in H. apply H.
    exists h1. split_and!; [by etrans|done|]. rewrite Hrs. split_and!; [done|done|]. by rewrite H4, Hw.
Qed.

(** A statement of the transaction: what it found and wrote takes the stage further. *)
Lemma step_staged x owned taken credit state s (f : pay_answer s → payprog PaymentNotificationOutcome) h :
  staged x owned taken credit state h →
  (∀ h1 v a ws ls,
     pay_books (pay_tables h1) → stage n j owned taken credit state (pay_tables h1) →
     v = pay_apply_ws (stage_writes n j credit state) (pay_tables h1) → pay_exec tt (x_now x) v s = Some (a, ws, ls) →
     ∃ owned' taken' credit' state',
       stage n j owned' taken' credit' state' (pay_tables h1) ∧ stage_locked (x_locks x ++ ls) n j credit' state' ∧
       stage_writes n j credit' state' = stage_writes n j credit state ++ ws ∧
       ∀ x' h', staged x' owned' taken' credit' state' h' → triple i (f a) (body Q) h') →
  triple i (try_bind (pay_tx s) f) (body Q) h.
Proof using.
  clear HQ Hreference. intros [Hh Hw Hl Hp] Hex. eapply triple_pay; [exact Hh|by apply stage_kept|].
  intros h1 a ws ls Hp1 Hg Hb Hst Hx. rewrite Hw in Hx.
  destruct (Hex h1 _ a ws ls Hb Hst eq_refl Hx) as (owned' & taken' & credit' & state' & Hst' & Hl' & Hw' & Hf).
  exists (stage n j owned' taken' credit' state'). split_and!; [by apply stage_kept|done|].
  intros h2 Hg2 Hp2 Hh2. eapply Hf. split; [exact Hh2| |exact Hl'|].
  - simpl. by rewrite Hw, Hw'.
  - etrans; [exact Hp|]. by etrans.
Qed.

(** What a transaction sees of the intents are the committed ones, until it changes its own. *)
Lemma stage_view credit d v :
  v = pay_apply_ws (stage_writes n j credit None) d →
  intents v = intents d ∧ credits v = (if credit then <[purchase_key n j := purchase_entry j]> (credits d) else credits d).
Proof using. clear HQ Hreference. intros ->. by destruct (stage_tables n j d credit None) as (_ & -> & -> & _). Qed.

(** The statement that changes the intent. *)
Lemma update_staged x owned taken credit status payment amount s (f : pay_answer s → payprog PaymentNotificationOutcome) h :
  staged x owned taken credit None h →
  (∀ v a ws ls, intents v !! pi_reference j = Some j → pay_exec tt (x_now x) v s = Some (a, ws, ls) →
     update_intent (pi_reference j) j status payment amount v = Some (tt, ws, ls)) →
  (∀ x' a h', staged x' owned taken credit (Some (status, payment, amount)) h' → triple i (f a) (body Q) h') →
  triple i (try_bind (pay_tx s) f) (body Q) h.
Proof using.
  clear HQ Hreference. intros Hs Hex Hf. eapply step_staged; [exact Hs|]. intros h1 v a ws ls Hb Hst [I _]%stage_view Hx.
  pose proof (sg_intent _ _ _ _ _ _ _ Hst) as Hj. apply Hex in Hx; [|by rewrite I].
  assert (∀ id, payment_owner id (pi_reference j) v = payment_owner id (pi_reference j) (pay_tables h1)) as Hpo.
  { intros id. unfold payment_owner, intent_rows. by rewrite I. }
  assert (∀ a, other_open a (pi_reference j) v = other_open a (pi_reference j) (pay_tables h1)) as Hoo.
  { intros a'. unfold other_open, intent_rows. by rewrite I. }
  unfold update_intent in Hx. fold (fresh_payment j payment) in Hx. destruct (_ || _) eqn:Hok; [done|]. injection Hx as <- <-.
  apply orb_false_iff in Hok as [Htaken Hopen]. rewrite Hoo in Hopen.
  exists owned, taken, credit, (Some (status, payment, amount)). split_and!.
  - destruct Hst as [S1 S2 S3 S4 S5 _ _]. split; try done.
    + intros ? ? ? id [= <- <- <-] Hfr r Hne. rewrite Hfr, Hpo in Htaken. apply orb_false_iff in Htaken as [Htaken _].
      by eapply payment_owner_None.
    + intros ? ? ? [= <- <- <-] Ho r Hne. rewrite Ho in Hopen. by eapply other_open_false.
  - destruct (sd_locked _ _ _ _ _ _ Hs) as [L1 L2 L3 _ _]. split; [pay_locks|pay_locks|intros; apply elem_of_app; left; auto|..].
    + intros ? ? ? id [= <- <- <-] ->. pay_locks.
    + intros ? ? ? [= <- <- <-] ->. pay_locks.
  - unfold stage_writes. simpl. by rewrite app_nil_r.
  - intros x' h' Hs'. by eapply Hf.
Qed.

Lemma set_uncertain_spec x owned taken payment h :
  staged x owned taken false None h → resolve n j owned taken = in_doubt n payment → triple i (set_uncertain n j payment) (body Q) h.
Proof using Hreference HQ.
  intros Hs Hrs. eapply update_staged; [exact Hs| |].
  - intros v [] ws ls Hv Hx. simpl in Hx. by rewrite Hv in Hx.
  - intros x' a h' Hs'. by eapply finish_staged.
Qed.

Lemma advance_spec x owned taken credit next r h :
  staged x owned taken credit None h →
  resolve n j owned taken =
    {| rs_credit := credit; rs_state := if takes (pi_status j) next then Some (next, no_payment n, no_amount n) else None;
       rs_result := r; rs_outcome := if bool_decide (next = IntentUncertain) then NotificationUncertain else NotificationApplied |} →
  triple i (advance n j next r) (body Q) h.
Proof using Hreference HQ.
  intros Hs Hrs. unfold advance. destruct (takes _ _).
  - eapply update_staged; [exact Hs| |].
    + intros v [] ws ls Hv Hx. simpl in Hx. by rewrite Hv in Hx.
    + intros x' a h' Hs'. by eapply finish_staged.
  - by eapply finish_staged.
Qed.

(** No row that is not this purchase looks like it. *)
Lemma other_row_differs v e :
  pay_books v → intents v !! pi_reference j = Some j → pi_status j ≠ IntentPaid → credits v !! purchase_key n j = Some e →
  bool_decide (ce_reference e = Some (pi_reference j)) = false.
Proof using.
  clear HQ. intros Hb Hj Hne He. apply bool_decide_eq_false. intros Hr.
  destruct (pb_credit _ Hb _ _ e He) as (r & k & payment & Hk & (Hpaid & _) & _ & _ & ->); [right; by eexists|].
  simpl in Hr. injection Hr as Hr. rewrite (pb_reference _ Hb r k Hk) in Hr. subst r. congruence.
Qed.

Lemma settle_purchase_spec x h :
  staged x false false false None h → on_intent n j = true → pi_status j ≠ IntentPaid → other_payment n j = false →
  completes n j = true → triple i (settle_purchase n j) (body Q) h.
Proof using Hreference HQ.
  intros Hs Hon Hne Hop Hco. unfold settle_purchase.
  assert (∀ taken, resolve n j false taken =
    match no_payment n with
    | None => in_doubt n None
    | Some payment =>
        if taken then in_doubt n (Some payment)
        else {| rs_credit := true; rs_state := Some (IntentPaid, Some payment, no_amount n); rs_result := NoticeApplied;
                rs_outcome := NotificationApplied |}
    end) as Hrs.
  { intros taken. unfold resolve. by rewrite Hon, (bool_decide_eq_false_2 _ Hne), Hop, Hco. }
  destruct (no_payment n) as [payment|] eqn:Hpay; [|by eapply set_uncertain_spec].
  assert (purchase_key n j = (pi_account j, purchase_source (no_provider n) payment)) as Hkey by (unfold purchase_key; by rewrite Hpay).
  eapply step_staged; [exact Hs|]. intros h1 v inserted ws ls Hb Hst [I C]%stage_view Hx. simpl in Hx. rewrite C, <-Hkey in Hx.
  pose proof (sd_locked _ _ _ _ _ _ Hs) as Hl. case_bool_decide as Htaken.
  - injection Hx as <- <- <-. exists false, true, false, None. split_and!.
    + by destruct Hst as [S1 S2 S3 _ S5 S6 S7]; split.
    + eapply stage_locked_mono, Hl. apply subseteq_app_l.
    + by rewrite app_nil_r.
    + intros x' h' Hs'. eapply step_staged; [exact Hs'|]. intros h2 v' same ws ls Hb' Hst' [I' C']%stage_view Hx. simpl in Hx.
      destruct (sg_taken _ _ _ _ _ _ _ Hst' eq_refl) as [e He]. rewrite C', <-Hkey, He in Hx.
      rewrite (other_row_differs _ e Hb' (sg_intent _ _ _ _ _ _ _ Hst') Hne He) in Hx. injection Hx as <- <- <-.
      exists false, true, false, None. split_and!; [done| |by rewrite app_nil_r|].
      * eapply stage_locked_mono, (sd_locked _ _ _ _ _ _ Hs'). apply subseteq_app_l.
      * intros x2 h3 Hs2. by eapply set_uncertain_spec.
  - destruct (_ && _); [|done]. injection Hx as <- <- <-. exists false, false, true, None. split_and!.
    + destruct Hst as [S1 S2 S3 S4 _ S6 S7]. split; try done. intros _. by apply eq_None_not_Some.
    + destruct Hl as [L1 L2 _ L4 L5]. split; try done; [pay_locks|pay_locks|]. intros _. rewrite Hkey. pay_locks.
    + unfold stage_writes. by rewrite Hkey.
    + intros x' h' Hs'. eapply advance_spec; [exact Hs'|]. rewrite Hrs. rewrite Hpay. unfold takes. simpl. by rewrite orb_true_r.
Qed.

Lemma apply_callback_spec x h :
  staged x false false false None h → on_intent n j = true → pi_status j ≠ IntentPaid → other_payment n j = false →
  triple i (apply_callback n j) (body Q) h.
Proof using Hreference HQ.
  intros Hs Hon Hne Hop. unfold apply_callback.
  assert (completes n j = false → resolve n j false false =
    let next := if bool_decide (to_ascii_uppercase (no_status n) = "COMPLETE"%string) then (IntentUncertain, NoticeUncertain)
                else callback (to_ascii_uppercase (no_status n)) in
    {| rs_credit := false; rs_state := if takes (pi_status j) next.1 then Some (next.1, no_payment n, no_amount n) else None;
       rs_result := next.2;
       rs_outcome := if bool_decide (next.1 = IntentUncertain) then NotificationUncertain else NotificationApplied |}) as Hrs.
  { intros Hco. unfold resolve. by rewrite Hon, (bool_decide_eq_false_2 _ Hne), Hop, Hco. }
  unfold completes in Hrs. destruct (bool_decide (to_ascii_uppercase (no_status n) = _)) eqn:Hst.
  - destruct (bool_decide (no_amount n = _)) eqn:Ham.
    + eapply settle_purchase_spec; [exact Hs|done..|]. unfold completes. by rewrite Hst, Ham.
    + eapply advance_spec; [exact Hs|by apply Hrs].
  - eapply advance_spec; [exact Hs|by apply Hrs].
Qed.

(** Another intent has the payment. *)
Lemma duplicate_spec x h :
  staged x true false false None h → on_intent n j = true →
  triple i (try_bind (pay_tx (UpdateUncertain (pi_reference j))) (λ _, finish n NoticeDuplicatePayment NotificationDuplicatePayment)) (body Q) h.
Proof using Hreference HQ.
  intros Hs Hon. destruct (bool_decide (pi_status j = IntentPaid)) eqn:Hpaid.
  - eapply step_staged; [exact Hs|]. intros h1 v [] ws ls Hb Hst [I C]%stage_view Hx. simpl in Hx.
    rewrite I, (sg_intent _ _ _ _ _ _ _ Hst), Hpaid in Hx. injection Hx as <- <-. exists true, false, false, None.
    split_and!; [done|eapply stage_locked_mono, (sd_locked _ _ _ _ _ _ Hs); apply subseteq_app_l|by rewrite app_nil_r|].
    intros x' h' Hs'. eapply finish_staged; [exact Hs'|]. unfold resolve. by rewrite Hon, Hpaid.
  - eapply update_staged; [exact Hs| |].
    + intros v [] ws ls Hv Hx. simpl in Hx. by rewrite Hv, Hpaid in Hx.
    + intros x' a h' Hs'. eapply finish_staged; [exact Hs'|]. unfold resolve. by rewrite Hon, Hpaid.
Qed.

Lemma apply_to_intent_spec x h : staged x false false false None h → triple i (apply_to_intent n j) (body Q) h.
Proof using Hreference HQ.
  intros Hs. unfold apply_to_intent. destruct (on_intent n j) eqn:Hon.
  2: { assert (negb (bool_decide (pi_provider j = no_provider n)) || negb (bool_decide (pi_currency j = no_currency n)) = true) as ->.
       { unfold on_intent in Hon. by destruct (bool_decide _), (bool_decide _). }
       eapply finish_staged; [exact Hs|]. unfold resolve. by rewrite Hon. }
  assert (negb (bool_decide (pi_provider j = no_provider n)) || negb (bool_decide (pi_currency j = no_currency n)) = false) as ->.
  { unfold on_intent in Hon. by destruct (bool_decide _), (bool_decide _). }
  assert (∀ x h, staged x false false false None h → triple i
    (if bool_decide (pi_status j = IntentPaid) then
       if bool_decide (pi_payment j = no_payment n) then finish n NoticeAlreadyApplied NotificationDuplicate
       else finish n NoticeDuplicatePayment NotificationDuplicatePayment
     else if other_payment n j then set_uncertain n j (no_payment n) else apply_callback n j) (body Q) h) as Hrest.
  { clear x h Hs. intros x h Hs. destruct (bool_decide (pi_status j = IntentPaid)) eqn:Hpaid.
    - destruct (bool_decide (pi_payment j = no_payment n)) eqn:Hsame; (eapply finish_staged; [exact Hs|]);
        unfold resolve; by rewrite Hon, Hpaid, Hsame.
    - destruct (other_payment n j) eqn:Hop.
      + eapply set_uncertain_spec; [exact Hs|]. unfold resolve. by rewrite Hon, Hpaid, Hop.
      + apply bool_decide_eq_false in Hpaid. by eapply apply_callback_spec. }
  destruct (no_payment n) as [payment|] eqn:Hpay; [|exact (Hrest _ _ Hs)].
  eapply step_staged; [exact Hs|]. intros h1 v owner ws ls Hb Hst [I C]%stage_view Hx. simpl in Hx. injection Hx as <- <- <-.
  assert (payment_owner payment (pi_reference j) v = payment_owner payment (pi_reference j) (pay_tables h1)) as ->.
  { unfold payment_owner, intent_rows. by rewrite I. }
  assert (stage_locked (x_locks x ++ []) n j false None) as Hl by (eapply stage_locked_mono, (sd_locked _ _ _ _ _ _ Hs); apply subseteq_app_l).
  destruct (payment_owner _ _ _) as [r|] eqn:Hown.
  - apply payment_owner_Some in Hown as [Hne Hpays]; [|done]. exists true, false, false, None. split_and!; [|done|by rewrite app_nil_r|].
    + destruct Hst as [S1 S2 _ S4 S5 S6 S7]. split; try done. intros _. by exists r, payment.
    + intros x' h' Hs'. by eapply duplicate_spec.
  - exists false, false, false, None. split_and!; [done|done|by rewrite app_nil_r|]. intros x' h' Hs'. by eapply Hrest.
Qed.
End notify_task.

(** *** Whole calls *)

Lemma once_intro (P : PayDb → Prop) h0 h1 h : h0 `prefix_of` h1 → P (pay_tables h1) → h1 `prefix_of` h → once P h0 h.
Proof. intros. by exists h1. Qed.

Lemma once_later (P : PayDb → Prop) h0 h0' h h' : h0 `prefix_of` h0' → h `prefix_of` h' → once P h0' h → once P h0 h'.
Proof. intros H1 H2 (h1 & H3 & H4 & HP). exists h1. split_and!; [by etrans..|done]. Qed.

Lemma notified_later i n m h0 h0' h h' : h0 `prefix_of` h0' → h `prefix_of` h' → notified i n m h0' h → notified i n m h0 h'.
Proof. intros H1 H2 (h1 & H3 & H4 & HP). exists h1. split_and!; [by etrans..|done]. Qed.

Lemma notification_done_later i n o h0 h0' h h' :
  h0 `prefix_of` h0' → h `prefix_of` h' → notification_done i n o h0' h → notification_done i n o h0 h'.
Proof.
  intros H1 H2 [[-> H]|[(-> & H & H')|(j & owned & taken & -> & H)]]; [left|right; left|right; right].
  - split; [done|by eapply once_later].
  - split_and!; [done|by eapply notified_later|by eapply once_later].
  - exists j, owned, taken. split; [done|by eapply notified_later].
Qed.

Lemma guaranteed_nothing L c : guaranteed pay_steps pay_stable L c c.
Proof. split; [done|]. intros L' _. reflexivity. Qed.

Lemma journal_guaranteed L n c :
  LkEvent (no_event n) ∈ L → notices c !! no_event n = None → guaranteed pay_steps pay_stable L c (pay_apply_ws (journal_writes n) c).
Proof.
  intros Hl Hn. split; [by apply rtc_once, step_unmatched|]. intros L' Hd. eapply (pay_stable_of L); [exact Hd|..]; try by left.
  intros event. destruct (decide (event = no_event n)) as [->|]; [by right|left]. simpl.
  by rewrite lookup_alter_ne, lookup_insert_ne by congruence.
Qed.

(** A transaction, whatever it answers. *)
Lemma triple_pay_tx {A} i (b : payprog A) (Q : result DbError A → PayHistory → Prop) h :
  closed i h → (∀ e h', closed i h' → good h' → Q (Err e) h') →
  (∀ now h', good h' → h `prefix_of` h' → held i (Build_Txn now [] []) (λ _, True) h' →
     triple i b (body (λ a h2, ∀ h3, meanwhile i h2 h3 → Q (Ok a) h3)) h') →
  triple i (with_tx Sqlx b) Q h.
Proof.
  intros Hc Hfail Hok. eapply triple_with_tx; [exact _|exact _|exact Hc|exact Hfail|]. intros now h' Hg Hp Hh.
  by apply (Hok now).
Qed.

Lemma notify_spec i n (Q : result DbError PaymentNotificationOutcome → PayHistory → Prop) h :
  closed i h → (∀ e h', closed i h' → good h' → Q (Err e) h') →
  (∀ o h', closed i h' → good h' → notification_done i n o h h' → Q (Ok o) h') →
  triple i (apply_account_payment_notification_for_provider n) Q h.
Proof.
  intros Hc Hfail HQ. unfold apply_account_payment_notification_for_provider. destruct (negb _).
  { intros h1 Hm. apply Hfail; [by eapply closed_meanwhile|apply Hm]. }
  apply triple_pay_tx; [done..|]. intros now h0 Hg0 Hp0 Hh0.
  assert (∀ o h', closed i h' → good h' → notification_done i n o h h' → ∀ h3, meanwhile i h' h3 → Q (Ok o) h3) as HQ'.
  { intros o h' Hc' Hg' Hd h3 Hm. apply HQ; [by eapply closed_meanwhile|apply Hm|].
    eapply notification_done_later; [reflexivity|by eapply meanwhile_prefix|done]. }
  eapply triple_pay; [exact Hh0|done|]. intros h1 inserted ws ls Hp1 Hg1 Hb1 _ Hx. simpl in Hx. case_bool_decide as Hnew.
  2: { injection Hx as <- <- <-. exists (λ _, True). split_and!; [done..|]. intros h2 Hg2 Hp2 Hh2.
       eapply triple_commit_body; [exact _|exact _|exact Hh2|done|intros; apply guaranteed_nothing|].
       intros h3 Hc3 Hg3 (h4 & H1 & H2 & _). apply HQ'; [done..|]. left. split; [done|].
       apply (once_intro _ h h1); [by etrans|by apply not_eq_None_Some|]. etrans; [exact Hp2|]. etrans; [exact H1|].
       etrans; [by eapply prefix_app_r|done]. }
  injection Hx as <- <- <-. exists (λ c, notices c !! no_event n = None). split_and!; [apply unjournalled_kept; pay_locks|done|].
  intros h2 Hg2 Hp2 Hh2. assert (h `prefix_of` h2) as Hp02 by (etrans; [exact Hp0|]; by etrans).
  assert (∀ x h3, held i x (λ c, notices c !! no_event n = None) h3 → x_writes x = [WNotice n NoticeProcessing] →
    LkEvent (no_event n) ∈ x_locks x → h2 `prefix_of` h3 → once (λ d, ∀ r, no_reference n = Some r → intents d !! r = None) h h3 →
    triple i (finish n NoticeUnmatched NotificationUnmatched)
      (body (λ o h', ∀ h3, meanwhile i h' h3 → Q (Ok o) h3)) h3) as Hun.
  { intros x h3 Hh3 Hw Hl Hp3 Ho. eapply finish_spec; [exact Hh3|by apply unjournalled_kept| |].
    - intros c _ Hn. rewrite Hw. by apply journal_guaranteed.
    - intros h' Hc' Hg' (h4 & H1 & H2 & H3 & H4). apply HQ'; [done..|]. right; left. split; [done|split].
      + exists h4. split_and!; [etrans; [exact Hp02|]; by etrans|done|split; [done|by rewrite H4, Hw]].
      + eapply once_later; [reflexivity| |exact Ho]. etrans; [exact H1|]. etrans; [by eapply prefix_app_r|done]. }
  destruct (no_reference n) as [reference|] eqn:Href.
  2: { apply (Hun (extended (Build_Txn now [] []) [WNotice n NoticeProcessing] [LkEvent (no_event n)])); [done|done|pay_locks|done|].
       apply (once_intro _ h h2); done. }
  eapply triple_pay; [exact Hh2|apply unjournalled_kept; pay_locks|]. intros h3 row ws ls Hp3 Hg3 Hb3 Hn3 Hx. simpl in Hx.
  injection Hx as <- <- <-. destruct (intents (pay_tables h3) !! reference) as [j|] eqn:Hj.
  - pose proof (pb_reference _ Hb3 _ _ Hj) as Hr. rewrite <-Hr in *. exists (stage n j false false false None). split_and!.
    + apply stage_kept. split; try done; pay_locks.
    + by split.
    + intros h4 Hg4 Hp4 Hh4. eapply (apply_to_intent_spec i n j h); [by rewrite Href| |split; [exact Hh4|done|split; try done; pay_locks|]].
      * intros owned taken h5 Hc5 Hg5 Hd. apply HQ'; [done..|]. right; right. by exists j, owned, taken.
      * etrans; [exact Hp02|]. by etrans.
  - exists (λ c, notices c !! no_event n = None). split_and!; [apply unjournalled_kept; pay_locks|done|]. intros h4 Hg4 Hp4 Hh4.
    apply (Hun (extended (extended (Build_Txn now [] []) [WNotice n NoticeProcessing] [LkEvent (no_event n)]) [] [])); [exact Hh4|done|pay_locks|by etrans|].
    apply (once_intro _ h h3); [by etrans| |done]. by intros r [= <-].
Qed.

(** What the outcome of a checkout promises. *)
Definition creation_done (i : nat) (a : CreateArgs) (o : CreatePaymentIntentOutcome) (h0 h : PayHistory) : Prop :=
  match o with
  | IntentCreated j =>
      ∃ h1 now, h0 `prefix_of` h1 ∧ h1 ++ [(Some i, ACommit)] `prefix_of` h ∧ j = new_intent now a ∧
        can_create a (pay_tables h1) ∧ pay_tables (h1 ++ [(Some i, ACommit)]) = pay_apply (WIntent j) (pay_tables h1)
  | IntentExisting j =>
      once (λ d, intents d !! pi_reference j = Some j ∧ pi_account j = ca_account a ∧ pi_key j = ca_key a) h0 h ∧ same_terms a j = true
  | IntentOpen j =>
      once (λ d, intents d !! pi_reference j = Some j ∧ pi_account j = ca_account a ∧ is_open (pi_status j) = true) h0 h
  end.

Lemma creation_done_later i a o h0 h0' h h' :
  h0 `prefix_of` h0' → h `prefix_of` h' → creation_done i a o h0' h → creation_done i a o h0 h'.
Proof.
  intros H1 H2. destruct o; simpl.
  - intros (h1 & now & H3 & H4 & Hr). exists h1, now. split_and!; [by etrans..|apply Hr|apply Hr|apply Hr].
  - intros [H ?]. split; [by eapply once_later|done].
  - by eapply once_later.
Qed.

Lemma created_covered L a now c :
  LkIntent (ca_reference a) ∈ L → LkKey (ca_account a) (ca_key a) ∈ L → LkOpen (ca_account a) ∈ L → can_create a c →
  guaranteed pay_steps pay_stable L c (pay_apply (WIntent (new_intent now a)) c).
Proof.
  intros H1 H2 H3 Hc. split; [by apply rtc_once, step_create|]. intros L' Hd. eapply (pay_stable_of L); [exact Hd|by left..|].
  intros r. simpl. destruct (decide (r = ca_reference a)) as [->|]; [right|left; by rewrite lookup_insert_ne by congruence].
  exists (new_intent now a). rewrite lookup_insert_eq. split; [done|]. split; [done|]. split_and!; [done|by right|by right].
Qed.

Lemma can_create_kept L a :
  LkAccount (ca_account a) ∈ L → LkIntent (ca_reference a) ∈ L → LkKey (ca_account a) (ca_key a) ∈ L → LkOpen (ca_account a) ∈ L →
  kept L (can_create a).
Proof.
  intros H1 H2 H3 H4 c d _ _ Hs [C1 C2 C3 C4 C5 C6 C7]. split; try done.
  - by eapply ps_account.
  - by rewrite (ps_intent _ _ _ Hs).
  - intros r Hk. apply (C3 r). by eapply ps_key.
  - intros r Ho. apply (C4 r). by eapply ps_open.
Qed.

(** A commit after nothing was written. *)
Lemma triple_read_only {B} i x (b : B) (Q : B → PayHistory → Prop) h :
  held i x (λ _, True) h → x_writes x = [] → (∀ h', closed i h' → good h' → h `prefix_of` h' → Q b h') →
  triple i (commit Sqlx b) (body Q) h.
Proof.
  intros Hh Hw HQ. eapply triple_commit_body; [exact _|exact _|exact Hh|done| |].
  - intros c _ _. rewrite Hw. apply guaranteed_nothing.
  - intros h' Hc Hg (h1 & H1 & H2 & _). apply HQ; [done..|]. etrans; [exact H1|]. etrans; [by eapply prefix_app_r|done].
Qed.

Lemma create_spec i a (Q : result DbError CreatePaymentIntentOutcome → PayHistory → Prop) h :
  closed i h → (∀ e h', closed i h' → good h' → Q (Err e) h') →
  (∀ o h', closed i h' → good h' → creation_done i a o h h' → Q (Ok o) h') →
  triple i (create_account_payment_intent_for_provider a) Q h.
Proof.
  intros Hc Hfail HQ. unfold create_account_payment_intent_for_provider. destruct (negb _).
  { intros h1 Hm. apply Hfail; [by eapply closed_meanwhile|apply Hm]. }
  apply triple_pay_tx; [done..|]. intros now h0 Hg0 Hp0 Hh0.
  assert (∀ o h', closed i h' → good h' → creation_done i a o h h' → ∀ h3, meanwhile i h' h3 → Q (Ok o) h3) as HQ'.
  { intros o h' Hc' Hg' Hd h3 Hm. apply HQ; [by eapply closed_meanwhile|apply Hm|].
    eapply creation_done_later; [reflexivity|by eapply meanwhile_prefix|done]. }
  eapply triple_pay; [exact Hh0|done|]. intros h1 exists_ ws ls Hp1 Hg1 Hb1 _ Hx. simpl in Hx.
  assert (ws = [] ∧ (exists_ = true → ls = [LkAccount (ca_account a)])) as [-> Hls].
  { destruct (bool_decide _); injection Hx as <- <- <-; done. }
  clear Hx. exists (λ _, True). split_and!; [done..|]. intros h2 Hg2 Hp2 Hh2. destruct exists_; [|done]. rewrite Hls in Hh2 by done. cbn [negb].
  assert (h `prefix_of` h2) as Hp02 by (etrans; [exact Hp0|]; by etrans).
  eapply triple_pay; [exact Hh2|done|]. intros h3 row ws ls' Hp3 Hg3 Hb3 _ Hx. simpl in Hx. injection Hx as <- <- <-.
  exists (λ _, True). split_and!; [done..|]. intros h4 Hg4 Hp4 Hh4.
  destruct (intent_by_key _ _ _) as [j|] eqn:Hk.
  { apply intent_by_key_Some in Hk as (r & Hr & Ha & Hkey). destruct (negb (same_terms a j)) eqn:Hs; [done|].
    eapply triple_read_only; [exact Hh4|done|]. intros h5 Hc5 Hg5 Hp5. apply HQ'; [done..|]. split; [|by apply negb_false_iff].
    apply (once_intro _ h h3); [by etrans| |by etrans]. by rewrite (pb_reference _ Hb3 _ _ Hr). }
  eapply triple_pay; [exact Hh4|done|]. intros h5 row ws ls'' Hp5 Hg5 Hb5 _ Hx. simpl in Hx. injection Hx as <- <- <-.
  exists (λ _, True). split_and!; [done..|]. intros h6 Hg6 Hp6 Hh6.
  assert (h `prefix_of` h5) as Hp05 by (etrans; [exact Hp02|]; etrans; [exact Hp3|]; by etrans).
  destruct (open_intent _ _) as [j|] eqn:Ho.
  { apply open_intent_Some in Ho as (r & Hr & Ha & Hop). eapply triple_read_only; [exact Hh6|done|]. intros h7 Hc7 Hg7 Hp7.
    apply HQ'; [done..|]. apply (once_intro _ h h5); [done| |by etrans]. by rewrite (pb_reference _ Hb5 _ _ Hr). }
  eapply triple_pay; [exact Hh6|done|]. intros h7 created ws ls'' Hp7 Hg7 Hb7 _ Hx. simpl in Hx. destruct (_ && _) eqn:Hok; [|done].
  injection Hx as <- <- <-. rewrite !andb_true_iff, !bool_decide_eq_true, !Z.ltb_lt in Hok.
  destruct Hok as [[[[[[Habs Hkeyed] Hopen] Hacc] Hpr] Hch] Hgr]. exists (can_create a). split_and!; [apply can_create_kept; pay_locks| |].
  { split; try done; intros r; [by apply intent_by_key_None|by apply open_intent_None]. }
  intros h8 Hg8 Hp8 Hh8. eapply triple_commit_body; [exact _|exact _|exact Hh8|apply can_create_kept; pay_locks| |].
  - intros c _ Hcc. apply created_covered; [pay_locks..|done].
  - intros h9 Hc9 Hg9 (h10 & H1 & H2 & Hg10 & Hopened & Hcc). apply HQ'; [done..|]. exists h10, now. split_and!; [|done..|].
    + etrans; [exact Hp05|]. etrans; [exact Hp6|]. etrans; [exact Hp7|]. by etrans.
    + by rewrite (pay_tables_commit i _ _ Hopened).
Qed.

(** ** Statements on the pool *)

Lemma attach_guaranteed c reference session a ws ls o now :
  pay_steps empty_pay_db c → pay_exec o now c (UpdateSession reference session) = Some (a, ws, ls) →
  guaranteed pay_steps pay_stable ls c (pay_apply_ws ws c) ∧ (a = 1 → pays session reference (pay_apply_ws ws c)).
Proof.
  intros Hc%reachable_pay_books Hx. simpl in Hx. destruct (intents c !! reference) as [i|] eqn:Hi.
  2: { injection Hx as <- <- <-. split; [apply guaranteed_nothing|done]. }
  destruct (_ && _) eqn:Hok; [|injection Hx as <- <- <-; split; [apply guaranteed_nothing|done]].
  destruct (_ || _) eqn:Hun; [done|]. injection Hx as <- <- <-. apply orb_false_iff in Hun as [Hun _].
  apply andb_true_iff in Hok as [Hpr%bool_decide_eq_true Hp].
  assert (can_attach reference session i c) as Hcan.
  { split; [done|done| |by apply payment_owner_None]. destruct (pi_payment i) as [id|]; [right|by left].
    apply bool_decide_eq_true in Hp. congruence. }
  split.
  - split; [by apply rtc_once; eapply step_attach|]. intros L' Hd. eapply (pay_stable_of [LkIntent reference; LkPayment session]); [exact Hd|by left..|].
    intros r. simpl. destruct (decide (r = reference)) as [->|]; [right|left; by rewrite lookup_alter_ne by congruence].
    exists (session_row session i). rewrite lookup_alter_eq, Hi. split; [done|]. split_and!; [pay_locks| | |].
    + intros payment [= <-]. right. pay_locks.
    + intros Ho. left. by exists i.
    + left. by exists i.
  - intros _. exists (session_row session i). simpl. by rewrite lookup_alter_eq, Hi.
Qed.

Lemma attach_spec i reference session (Q : result DbError unit → PayHistory → Prop) h :
  closed i h → (∀ e h', closed i h' → good h' → Q (Err e) h') →
  (∀ h', closed i h' → good h' → once (pays session reference) h h' → Q (Ok tt) h') →
  triple i (attach_account_checkout_session reference session) Q h.
Proof.
  intros Hc Hfail HQ. unfold attach_account_checkout_session. destruct (negb _).
  { intros h1 Hm. apply Hfail; [by eapply closed_meanwhile|apply Hm]. }
  apply triple_bind. apply triple_bind. eapply triple_auto; [exact _|exact Hc| | |].
  - intros o now c a ws ls Hs Hx. by eapply attach_guaranteed.
  - intros h' Hc' Hg' h2 H2 h3 H3. apply Hfail; [|apply H3]. by eapply closed_meanwhile, H3; eapply closed_meanwhile, H2.
  - intros o now h1 a ws ls h' Hc' Hg' Hp1 Hp2 Hg1 Hx h2 H2.
    destruct (attach_guaranteed _ _ _ _ _ _ _ _ (good_steps _ _ _ _ _ Hg1) Hx) as [_ Hpays]. simpl.
    destruct (a =? 1) eqn:Ha; simpl; intros h3 H3.
    + assert (closed i h3) as Hc3 by (eapply closed_meanwhile, H3; by eapply closed_meanwhile, H2).
      apply HQ; [done|apply H3|]. exists (h1 ++ [(Some i, AAuto ws)]). split_and!.
      * etrans; [exact Hp1|by eapply prefix_app_r].
      * etrans; [exact Hp2|]. etrans; by eapply meanwhile_prefix.
      * unfold pay_tables. rewrite store_of_snoc. apply Hpays. by apply Z.eqb_eq.
    + apply Hfail; [|apply H3]. eapply closed_meanwhile, H3. by eapply closed_meanwhile, H2.
Qed.

(** A statement that only reads. *)
Lemma read_spec i s (Q : result DbError (pay_answer s) → PayHistory → Prop) h :
  (∀ o now c a ws ls, pay_exec o now c s = Some (a, ws, ls) → ws = []) →
  closed i h → (∀ r h', closed i h' → good h' → Q r h') → triple i (pay_pool s) Q h.
Proof.
  intros Hs Hc HQ. apply triple_bind. eapply triple_auto; [exact _|exact Hc| | |].
  - intros o now c a ws ls _ ->%Hs. apply guaranteed_nothing.
  - intros h' Hc' Hg' h2 H2. apply HQ; [by eapply closed_meanwhile|apply H2].
  - intros o now h1 a ws ls h' Hc' Hg' _ _ _ _ h2 H2. apply HQ; [by eapply closed_meanwhile|apply H2].
Qed.
