(* ===== verification/PaymentsSafety.v ===== *)
(** * Credit purchases: what holds whatever happens

    The theorems about every run of the checkout and of the provider callbacks
    ([payments]): the tables move by [pay_step] alone, so what was purchased is exactly
    what was paid for; and an answer says what happened. *)

From stdpp Require Import base gmap strings list relations.
From Stdlib Require Import ZArith Ascii Lia.
From S2P Require Import Prelude Text Nostr Effect Postgres Credits CreditsSpec Payments PaymentsSpec PaymentsBooks PaymentsCalls.

Local Open Scope Z_scope.
Local Open Scope list_scope.

(** What is promised of a finished call. *)
Definition pay_post (c : PayCall) (i start : nat) (out : PayOut) (h : PayHistory) : Prop :=
  match c, out with
  | CallCreateIntent a, OutCreated (Ok o) => creation_done i a o (take start h) h
  | CallAttach reference session, OutAttached (Ok tt) => once (pays session reference) (take start h) h
  | CallNotify n, OutNotified (Ok o) => notification_done i n o (take start h) h
  | _, _ => True
  end.

Lemma once_prefix P h0 h : once P h0 h → h0 `prefix_of` h.
Proof. intros (h1 & ? & ? & _). by etrans. Qed.

Lemma notified_prefix i n m h0 h : notified i n m h0 h → h0 `prefix_of` h.
Proof. intros (h1 & H1 & H2 & _). etrans; [exact H1|]. etrans; [by eapply prefix_app_r|exact H2]. Qed.

Lemma notification_done_prefix i n o h0 h : notification_done i n o h0 h → h0 `prefix_of` h.
Proof. intros [[_ H]|[(_ & H & _)|(j & owned & taken & _ & H)]]; eauto using once_prefix, notified_prefix. Qed.

Lemma creation_done_prefix i a o h0 h : creation_done i a o h0 h → h0 `prefix_of` h.
Proof.
  destruct o; simpl; [intros (h1 & now & H1 & H2 & _)|intros [H _]|intros H]; eauto using once_prefix.
  etrans; [exact H1|]. etrans; [by eapply prefix_app_r|exact H2].
Qed.

(** What is said of the history a call found is said of the one it started at. *)
Lemma from_start (P : PayHistory → PayHistory → Prop) h h' :
  (P h h' → h `prefix_of` h') → P h h' → P (take (length h) h') h'.
Proof. intros Hp H. destruct (Hp H) as [l ->]. by rewrite take_app_length. Qed.

Lemma pay_fresh_closed i (h : PayHistory) : Forall (λ e, fst e ≠ Some i) h → closed i h.
Proof. intros Hf. apply (closed_app pay_apply empty_pay_db i [] h Hf). apply lookup_empty. Qed.

Lemma triple_pay_returns {A} i (f : A → PayOut) (q : eff PaySql PaySqlReply A) (Q : PayOut → PayHistory → Prop) h :
  triple i q (λ a h', ∀ h2, meanwhile i h' h2 → Q (f a) h2) h → triple i (pay_returns f q) Q h.
Proof. intros H. apply triple_bind. eapply triple_mono; [exact H|]. intros a h' _ _ Hq h2 H2. by apply Hq. Qed.

Lemma pay_program_spec c i h :
  good h → True → Forall (λ e, fst e ≠ Some i) h → triple i (pay_program c) (pay_post c i (length h)) h.
Proof.
  intros Hg _ Hf%pay_fresh_closed. destruct c; simpl pay_program; apply triple_pay_returns.
  - apply create_spec; [done|done|]. intros o h1 _ _ Hd h2 H2. apply (from_start (creation_done i a o)); [apply creation_done_prefix|].
    eapply creation_done_later; [reflexivity|by eapply meanwhile_prefix|done].
  - apply read_spec; [|done|done]. intros o now c a ws ls Hx. by injection Hx.
  - apply read_spec; [|done|done]. intros o now c a ws ls Hx. by injection Hx.
  - apply read_spec; [|done|done]. intros o now c a ws ls Hx. by injection Hx.
  - apply attach_spec; [done|done|]. intros h1 _ _ Hd h2 H2. apply (from_start (once (pays session reference))); [apply once_prefix|].
    eapply once_later; [reflexivity|by eapply meanwhile_prefix|done].
  - apply notify_spec; [done|done|]. intros o h1 _ _ Hd h2 H2. apply (from_start (notification_done i n o)); [apply notification_done_prefix|].
    eapply notification_done_later; [reflexivity|by eapply meanwhile_prefix|done].
Qed.

(** ** Every run *)

Lemma pay_extern_guaranteed c w ls :
  pay_steps empty_pay_db c → pay_extern c w ls → guaranteed pay_steps pay_stable ls c (pay_apply w c).
Proof.
  intros Hc%reachable_pay_books. destruct w; try done; simpl pay_extern.
  - intros [Hn ->]. split.
    + apply rtc_once, step_elsewhere; [done|done| |done]. intros event x Hx. simpl. rewrite lookup_insert_ne; [done|]. congruence.
    + intros L Hd. eapply (pay_stable_of [LkEvent (no_event n)]); [exact Hd|by left| |by left..].
      intros event. simpl. destruct (decide (event = no_event n)) as [->|]; [right; pay_locks|left; by rewrite lookup_insert_ne by congruence].
  - intros (Hty & Hr & Hn & ->). split.
    + by apply rtc_once, step_credit.
    + intros L Hd. eapply (pay_stable_of [LkCredit account source]); [exact Hd|by left|by left| |by left..].
      intros a s. simpl. destruct (decide ((a, s) = (account, source))) as [[= -> ->]|]; [right; pay_locks|left; by rewrite lookup_insert_ne by congruence].
  - intros ->. split.
    + apply rtc_once, step_elsewhere; [done|done|done|]. intros r i _ Ha. simpl. apply elem_of_union. by right.
    + intros L Hd. eapply (pay_stable_of [LkAccount id]); [exact Hd| |by left..]. intros a Ha. left. simpl. apply elem_of_union. by right.
  - intros (-> & Hi & _). split.
    + apply rtc_once, step_elsewhere; [done|done|done|]. intros r i Hr Ha. simpl. apply elem_of_difference. split; [done|].
      intros ?%elem_of_singleton. by eapply Hi.
    + intros L Hd. eapply (pay_stable_of [LkAccount id]); [exact Hd| |by left..]. intros a Ha.
      destruct (decide (a = id)) as [->|]; [right; pay_locks|left]. simpl. apply elem_of_difference. split; [done|]. by intros ?%elem_of_singleton.
Qed.

Lemma payments_sound s :
  payments s →
  good (history s) ∧ ∀ i c start out, tasks s !! i = Some (Build_Task c start (Pure out)) → pay_post c i start out (history s).
Proof.
  intros Hs. eapply (triple_sound fst (sql_react pay_apply pay_exec empty_pay_db (outer:=no_answer)) (sql_outside pay_apply empty_pay_db pay_extern)
    pay_program good (λ _, True) pay_post); [done|constructor|intros *; apply sql_react_author| |by intros; apply pay_program_spec|exact Hs|done].
  intros h e Hg He _. eapply sql_outside_good; [exact _|exact pay_extern_guaranteed|done..].
Qed.

(** *** Moments of the past *)

Lemma pay_prefix_good (h h' : PayHistory) : good h' → h `prefix_of` h' → good h.
Proof. intros Hg [l ->]. by eapply good_app_l. Qed.

Lemma pay_prefix_moves (h h' : PayHistory) : good h' → h `prefix_of` h' → pay_steps (pay_tables h) (pay_tables h').
Proof. intros Hg [l ->]. unfold pay_tables. by eapply good_steps_between; [exact _..|]. Qed.

Lemma pay_prefix_forward (h h' : PayHistory) : good h' → h `prefix_of` h' → pay_forward (pay_tables h) (pay_tables h').
Proof.
  intros Hg Hp. apply pay_steps_forward; [|by apply pay_prefix_moves]. apply good_pay_books. by eapply pay_prefix_good.
Qed.

(** The call's transaction is the one that journalled the event. *)
Definition journalled_by (i : nat) (event : string) (h : PayHistory) : Prop :=
  ∃ h1, h1 ++ [(Some i, ACommit)] `prefix_of` h ∧ notices (pay_tables h1) !! event = None ∧
    is_Some (notices (pay_tables (h1 ++ [(Some i, ACommit)])) !! event).

Lemma notified_journalled i n m h0 h : notified i n m h0 h → journalled_by i (no_event n) h.
Proof.
  intros (h1 & _ & Hp & Hm). exists h1. split; [done|]. destruct m as [[[j owned] taken]|].
  - destruct Hm as (_ & Hs & Hd). split; [by apply Hs|]. rewrite Hd. destruct (notify_tables n j owned taken _ Hs) as (_ & _ & _ & ->).
    rewrite lookup_insert_eq. by eexists.
  - destruct Hm as [Hn Hd]. split; [done|]. rewrite Hd. simpl. rewrite lookup_alter_eq, lookup_insert_eq. by eexists.
Qed.

Lemma journalled_before i j h1 h2 event :
  good h2 → h1 ++ [(Some i, ACommit)] `prefix_of` h2 ++ [(Some j, ACommit)] →
  is_Some (notices (pay_tables (h1 ++ [(Some i, ACommit)])) !! event) → notices (pay_tables h2) !! event = None → i = j.
Proof.
  intros Hg [Heq|Hp]%prefix_snoc [x Hx] Hn; [by apply app_inj_tail in Heq as [_ [= ->]]|].
  pose proof (pf_notices _ _ (pay_prefix_forward _ _ Hg Hp) event x Hx). congruence.
Qed.

Lemma journalled_once i j event h : good h → journalled_by i event h → journalled_by j event h → i = j.
Proof.
  intros Hg (h1 & Hp1 & Hn1 & Hs1) (h2 & Hp2 & Hn2 & Hs2).
  pose proof (good_app_l _ _ _ _ _ _ (pay_prefix_good _ _ Hg Hp1)) as Hg1. pose proof (good_app_l _ _ _ _ _ _ (pay_prefix_good _ _ Hg Hp2)) as Hg2.
  destruct (prefix_weak_total _ _ _ Hp1 Hp2) as [Hp|Hp]; [|symmetry]; by eapply journalled_before; [|exact Hp|..].
Qed.

(** ** The theorems *)

Definition pay_database (s : PayMachine) : PayDb := pay_tables (history s).

(** The outcome says what happened since the call came. *)
Definition outcome_true (i : nat) (n : Notification) (o : PaymentNotificationOutcome) (start : nat) (h : PayHistory) : Prop :=
  notification_done i n o (take start h) h.

Definition checkout_true (i : nat) (a : CreateArgs) (o : CreatePaymentIntentOutcome) (start : nat) (h : PayHistory) : Prop :=
  creation_done i a o (take start h) h.

(** From any earlier moment to now, the tables moved by whole steps. *)
Definition moved_by_pay_steps (h : PayHistory) : Prop := ∀ h0 l, h = h0 ++ l → pay_steps (pay_tables h0) (pay_tables h).

Definition reports_payment (n : Notification) : Prop := to_ascii_uppercase (no_status n) = "COMPLETE"%string.

Lemma resolve_applied n i owned taken :
  rs_outcome (resolve n i owned taken) = NotificationApplied → reports_payment n → rs_credit (resolve n i owned taken) = true.
Proof.
  unfold resolve, reports_payment. intros Ho Hs. destruct (on_intent n i); [|done]. simpl in *. destruct owned; [done|].
  case_bool_decide; [by case_bool_decide|]. destruct (other_payment n i); [done|].
  destruct (completes n i); [|by rewrite bool_decide_eq_true_2 in Ho by done].
  destruct (no_payment n); [|done]. by destruct taken.
Qed.

(** The intent is paid once and for all. *)
Lemma paid_since i n j owned taken h0 h :
  good h → notified i n (Some (j, owned, taken)) h0 h → rs_credit (resolve n j owned taken) = true →
  ∃ k payment, no_reference n = Some (pi_reference k) ∧ intents (pay_tables h) !! pi_reference k = Some k ∧
    no_payment n = Some payment ∧ no_amount n = Some (pi_charge k) ∧ paid_for k payment (pay_tables h).
Proof.
  intros Hg (h1 & _ & Hp & Hr & Hs & Hd) Hc. destruct (resolve_credit _ _ _ _ Hc) as (payment & Heq & Hpay & _ & Ham%completes_amount & _ & Hold).
  pose proof (pay_prefix_forward _ _ Hg Hp) as [FI _ _]. rewrite Hd in FI. destruct (notify_tables n j owned taken _ Hs) as (_ & _ & I & _).
  destruct (FI (pi_reference j) (resolved_row n j owned taken)) as (k & Hk & Hf); [by rewrite I, lookup_insert_eq|].
  assert (resolved_row n j owned taken = state_row IntentPaid (Some payment) (no_amount n) j) as Hrow by (unfold resolved_row; by rewrite Heq).
  assert (k = resolved_row n j owned taken) as -> by (apply Hf; by rewrite Hrow). exists (resolved_row n j owned taken), payment. rewrite Hrow in *. split_and!; try done.
  destruct (pb_paid _ (good_pay_books _ Hg) _ _ Hk eq_refl) as (payment' & Hfor). pose proof Hfor as (_ & Hp' & _).
  enough (payment' = payment) as -> by done. simpl in Hp'. destruct Hold as [Ho|Ho]; rewrite Ho in Hp'; by injection Hp'.
Qed.

(** Whatever runs at once, the committed tables of checkouts and notifications only
    ever move by whole [pay_step]s: an intent created under its account's lock, a
    session attached, or a notification journalled together with exactly what [resolve]
    says of it: the intent's new state and, for a full payment, the credit. *)
Theorem payments_serializable s : payments s → moved_by_pay_steps (history s).
Proof.
  intros [Hg _]%payments_sound h0 l Heq. apply pay_prefix_moves; [done|]. rewrite Heq. by apply prefix_app_r.
Qed.

(** C7. What an account was credited for purchases is exactly what its paid intents
    grant: every purchase row of the ledger is the grant of one intent that was paid in
    full under one payment of its provider, every paid intent has that row, and no
    payment is credited twice.  The rows are positive and under sources the credits
    gateway does not use, as its own books require.  An account has at most one open
    intent. *)
Theorem purchases_exact s :
  payments s → let d := pay_database s in
  (∀ a, purchased a d = granted a d) ∧
  (∀ r i, intents d !! r = Some i → pi_status i = IntentPaid → ∃ payment, paid_for i payment d) ∧
  (∀ a source e, credits d !! (a, source) = Some e → ce_type e = Purchase → is_ai source = false ∧ 0 < ce_amount e ∧
     ∃ i payment, intents d !! pi_reference i = Some i ∧ paid_for i payment d ∧ a = pi_account i ∧
       source = purchase_source (pi_provider i) payment ∧ e = purchase_entry i) ∧
  (∀ r r' payment, pays payment r d → pays payment r' d → r = r') ∧
  (∀ r r' a, opens a r d → opens a r' d → r = r').
Proof.
  intros [Hg _]%payments_sound. pose proof (good_pay_books _ Hg) as Hb. fold (pay_database s) in Hb. split_and!.
  - apply (pb_sum _ Hb).
  - apply (pb_paid _ Hb).
  - intros a source e He Ht. destruct (pb_credit _ Hb a source e He (or_introl Ht)) as (r & i & payment & Hi & Hp & -> & -> & ->).
    destruct (pb_terms _ Hb r i Hi) as (Hpr & _ & Hgr). split_and!; [|done|].
    + unfold provider_currency_ok in Hpr. apply orb_true_iff in Hpr as [[H%bool_decide_eq_true _]%andb_true_iff|[H%bool_decide_eq_true _]%andb_true_iff];
        rewrite H; done.
    + exists i, payment. by rewrite (pb_reference _ Hb r i Hi).
  - apply (pb_payment _ Hb).
  - apply (pb_open _ Hb).
Qed.

(** C13. What a notification answers is so: its transaction did, at one moment, what
    [resolve] says, or nothing because the event was already journalled, or journalled it
    alone because no intent had the reference.  A full payment answered as applied is
    paid for good: the intent is, with that payment and amount, and its credit is in the
    ledger.  Of two calls with one event, one answers that it is a duplicate. *)
Theorem notification_truthful s i n start o :
  payments s → tasks s !! i = Some (Build_Task (CallNotify n) start (Pure (OutNotified (Ok o)))) → let d := pay_database s in
  outcome_true i n o start (history s) ∧
  (o = NotificationApplied → reports_payment n →
     ∃ j payment, no_reference n = Some (pi_reference j) ∧ intents d !! pi_reference j = Some j ∧ no_payment n = Some payment ∧
       no_amount n = Some (pi_charge j) ∧ paid_for j payment d) ∧
  (∀ k n' start' o', tasks s !! k = Some (Build_Task (CallNotify n') start' (Pure (OutNotified (Ok o')))) →
     no_event n' = no_event n → k ≠ i → o = NotificationDuplicate ∨ o' = NotificationDuplicate).
Proof.
  intros [Hg Hpost]%payments_sound Hi. pose proof (Hpost _ _ _ _ Hi) as Hd. simpl in Hd. split_and!; [done| |].
  - intros -> Hs. destruct Hd as [[? _]|[[? _]|(j & owned & taken & Ho & Hn)]]; [done..|].
    eapply paid_since; [done|exact Hn|]. by apply resolve_applied.
  - intros k n' start' o' Hk Hev Hne. pose proof (Hpost _ _ _ _ Hk) as Hd'. simpl in Hd'.
    assert (∀ i n o h0, notification_done i n o h0 (history s) → o = NotificationDuplicate ∨ journalled_by i (no_event n) (history s)) as Hj.
    { intros i' n'' o'' h0 [[-> _]|[(_ & H & _)|(j & owned & taken & _ & H)]]; [by left|right..]; by eapply notified_journalled. }
    destruct (Hj _ _ _ _ Hd) as [->|H1]; [by left|]. destruct (Hj _ _ _ _ Hd') as [->|H2]; [by right|].
    rewrite Hev in H2. destruct Hne. by eapply journalled_once.
Qed.

(** What a checkout answers is so: an intent it created was not there, on the
    caller's terms, with the account without another open one; one it found by the
    idempotency key is the account's, with the same terms; and one that is in the way was
    open at a moment of the call.  The terms never change. *)
Theorem checkout_truthful s i a start o :
  payments s → tasks s !! i = Some (Build_Task (CallCreateIntent a) start (Pure (OutCreated (Ok o)))) →
  checkout_true i a o start (history s) ∧
  ∀ j, (o = IntentCreated j ∨ o = IntentExisting j) →
    ∃ k, intents (pay_database s) !! pi_reference j = Some k ∧ intent_forward j k ∧ same_terms a k = true ∧ pi_account k = ca_account a ∧ pi_key k = ca_key a.
Proof.
  intros [Hg Hpost]%payments_sound Hi. pose proof (Hpost _ _ _ _ Hi) as Hd. split; [exact Hd|]. intros j Ho.
  assert (∃ h1, h1 `prefix_of` history s ∧ intents (pay_tables h1) !! pi_reference j = Some j ∧ same_terms a j = true ∧
    pi_account j = ca_account a ∧ pi_key j = ca_key a) as (h1 & Hp & Hj & Hs & Ha & Hk).
  { destruct Ho as [-> | ->]; simpl in Hd.
    - destruct Hd as (h1 & now & _ & Hp & -> & _ & Htables). exists (h1 ++ [(Some i, ACommit)]). split_and!; try done.
      + rewrite Htables. simpl. by rewrite lookup_insert_eq.
      + unfold same_terms. simpl. rewrite !bool_decide_eq_true_2 by done. by rewrite !Z.eqb_refl.
    - destruct Hd as [(h1 & _ & Hp & Hj & Ha & Hk) Hs]. by exists h1. }
  destruct (pf_intents _ _ (pay_prefix_forward _ _ Hg Hp) _ _ Hj) as (k & Hk' & Hf). exists k. split; [done|]. split; [done|].
  destruct Hf as [Ht _ _]. injection Ht as _ Hac Hke Hpa Hpr Hcu Hch Hgr _. unfold same_terms in *.
  by rewrite Hac, Hke, Hpa, Hpr, Hcu, Hch, Hgr.
Qed.

(** *** What is refused *)

(** A report that puts a failed or cancelled intent in doubt is refused while another
    checkout of the account is open, by the index of open intents; its transaction
    fails, and the event is not journalled. *)
Theorem late_doubt_refused now d i payment amount :
  intents d !! pi_reference i = Some i → other_open (pi_account i) (pi_reference i) d = true →
  pay_exec tt now d (UpdateIntent (pi_reference i) IntentUncertain payment amount) = None ∧
  (pi_status i ≠ IntentPaid → pay_exec tt now d (UpdateUncertain (pi_reference i)) = None).
Proof.
  intros Hi Ho. simpl. rewrite Hi. unfold update_intent. rewrite Ho. cbn [is_open andb]. rewrite !orb_true_r.
  split; [done|]. intros Hs. by rewrite bool_decide_eq_false_2.
Qed.

(** A Stripe session of 194 to 200 characters is valid, but its credit is refused: the
    ledger's source would be longer than 200. *)
Theorem long_session_refused now d account amount session reference :
  valid_stripe_id session "cs_" = true → (194 <= String.length session)%nat →
  credits d !! (account, purchase_source "stripe" session) = None →
  pay_exec tt now d (InsertPurchase account amount (purchase_source "stripe" session) reference) = None.
Proof.
  intros _ Hl Hn. unfold pay_exec. rewrite Hn, bool_decide_eq_false_2 by (by intros []).
  assert ((String.length (purchase_source "stripe" session) <=? 200)%nat = false) as ->.
  { unfold purchase_source. rewrite !string_length_app. apply Nat.leb_gt. simpl. lia. }
  by rewrite andb_false_r.
Qed.
