(* ===== verification/PaymentsRun.v ===== *)
(** * Credit purchases: a run of them

    A run of [payments], computed by [PostgresRun]: a checkout, a second one that finds
    the first open, and the notifications of its payment, twice at once and once more.
    The witnesses of the theorems use it. *)

From stdpp Require Import base gmap strings list relations.
From Stdlib Require Import ZArith Ascii Lia.
From S2P Require Import Prelude Text Nostr Effect Postgres PostgresRun Credits CreditsSpec Payments PaymentsSpec PaymentsBooks PaymentsCalls PaymentsSafety.

Local Open Scope Z_scope.
Local Open Scope list_scope.

#[export] Instance PayLock_eq_dec : EqDecision PayLock.
Proof. solve_decision. Defined.

Definition pay_externb (c : PayDb) (w : PayWrite) (ls : list PayLock) : bool :=
  match w with
  | WCredit a source e =>
      negb (bool_decide (ce_type e = Purchase)) && bool_decide (ce_reference e = None) &&
      bool_decide (credits c !! (a, source) = None) && bool_decide (ls = [LkCredit a source])
  | WPayAccount id => bool_decide (ls = [LkAccount id])
  | WPayAccountGone id =>
      bool_decide (ls = [LkAccount id]) && bool_decide (map_Forall (λ _ i, pi_account i ≠ id) (intents c)) &&
      bool_decide (map_Forall (λ k _, k.1 ≠ id) (credits c))
  | WNotice n _ => bool_decide (notices c !! no_event n = None) && bool_decide (ls = [LkEvent (no_event n)])
  | _ => false
  end.

Lemma pay_externb_spec c w ls : pay_externb c w ls = true → pay_extern c w ls.
Proof.
  destruct w; simpl; rewrite ?andb_true_iff, ?negb_true_iff, ?bool_decide_eq_true, ?bool_decide_eq_false; try naive_solver.
  intros [[-> Hi] Hc]. split; [done|]. split; [exact Hi|]. intros s. apply eq_None_not_Some. intros [e He]. by apply (Hc _ _ He).
Qed.

(** ** The run *)

Abbreviation PayCmd := (@Cmd PayWrite PayLock Empty_set no_answer PayCall).
Abbreviation PayReply := (@Reply Empty_set no_answer).

Definition nobody (e : Empty_set) : no_answer e := match e with end.
Definition in_time (now : Z) : PayReply := Build_Reply now true nobody.

Definition checkout (reference key : string) : CreateArgs :=
  {| ca_account := "payer"%string; ca_reference := reference; ca_key := key; ca_pack := "starter"; ca_charge := 500; ca_grant := 4000;
     ca_provider := "stripe"; ca_currency := "USD" |}.

Definition paid_event (event : string) (amount : Z) : Notification :=
  {| no_event := event; no_reference := Some "checkout-1"%string; no_payment := Some "cs_1"%string; no_status := "complete";
     no_amount := Some amount; no_provider := "stripe"; no_currency := "USD" |}.

(** Two checkouts overlap; the session of the first is attached. *)
Definition checkouts : list PayCmd :=
  [Outside (WPayAccount "payer") [LkAccount "payer"%string];
   Arrive (CallCreateIntent (checkout "checkout-1" "key-1")); Arrive (CallCreateIntent (checkout "checkout-2" "key-2"))] ++
  repeat (Run 0 (in_time 1)) 3 ++ [Run 1 (in_time 2)] ++ repeat (Run 0 (in_time 1)) 4 ++ repeat (Run 1 (in_time 2)) 6 ++
  [Arrive (CallAttach "checkout-1" "cs_1"); Run 2 (in_time 3)].

(** Its payment is reported twice at once, and once more under another event. *)
Definition reports : list PayCmd :=
  checkouts ++
  [Arrive (CallNotify (paid_event "evt_1" 500)); Arrive (CallNotify (paid_event "evt_1" 500))] ++
  repeat (Run 3 (in_time 4)) 5 ++ [Run 4 (in_time 4)] ++ repeat (Run 3 (in_time 4)) 5 ++ repeat (Run 4 (in_time 4)) 5 ++
  [Arrive (CallNotify (paid_event "evt_2" 500))] ++ repeat (Run 5 (in_time 5)) 10 ++
  [Outside (WCredit "payer" "email:1" {| ce_type := Usage; ce_amount := -700; ce_reference := None |}) [LkCredit "payer" "email:1"];
   Arrive (CallCreateIntent (checkout "checkout-1" "key-1"))] ++ repeat (Run 6 (in_time 6)) 8 ++ [Lose 6%nat].

Abbreviation pay_run script := (after_script pay_apply pay_exec tt empty_pay_db pay_program pay_externb script).

Lemma reports_ran : payments (pay_run reports).
Proof. apply script_reachable; [exact pay_externb_spec|by vm_compute]. Qed.

(** ** The witnesses *)

Definition before_payment : PayHistory := take 15 (history (pay_run reports)).
Definition after_payment : PayHistory := drop 15 (history (pay_run reports)).

Lemma split_payment : history (pay_run reports) = before_payment ++ after_payment.
Proof. exact (eq_sym (take_drop 15 (history (pay_run reports)))). Qed.

Lemma payments_serializable_witness :
  credits (pay_tables before_payment) = ∅ ∧ is_Some (credits (pay_tables (before_payment ++ after_payment)) !! ("payer"%string, "stripe:cs_1"%string)) ∧
  pay_steps (pay_tables before_payment) (pay_tables (before_payment ++ after_payment)).
Proof.
  split; [by vm_compute|]. split; [by vm_compute; eexists|].
  pose proof (payments_serializable _ reports_ran before_payment after_payment split_payment) as H. by rewrite split_payment in H.
Defined.

Lemma purchases_exact_witness :
  let d := pay_database (pay_run reports) in
  purchased "payer" d = 4000 ∧ purchased "payer" d = granted "payer" d ∧
  ∃ i payment, intents d !! pi_reference i = Some i ∧ paid_for i payment d ∧ purchase_source (pi_provider i) payment = "stripe:cs_1"%string.
Proof.
  intros d. destruct (purchases_exact _ reports_ran) as (Hsum & _ & Hrows & _). split; [by vm_compute|].
  split; [exact (Hsum "payer"%string)|].
  assert (credits d !! ("payer"%string, "stripe:cs_1"%string) =
    Some {| ce_type := Purchase; ce_amount := 4000; ce_reference := Some "checkout-1"%string |}) as He by (by vm_compute).
  destruct (Hrows _ _ _ He eq_refl) as (_ & _ & i & payment & Hi & Hp & _ & Hs & _).
  exists i, payment. exact (conj Hi (conj Hp (eq_sym Hs))).
Defined.

Lemma notification_truthful_witness :
  let d := pay_database (pay_run reports) in
  (∃ j payment, intents d !! pi_reference j = Some j ∧ paid_for j payment d ∧ Some payment = Some "cs_1"%string) ∧
  (NotificationApplied = NotificationDuplicate ∨ NotificationDuplicate = NotificationDuplicate).
Proof.
  intros d.
  assert (tasks (pay_run reports) !! 3%nat =
    Some (Build_Task (CallNotify (paid_event "evt_1" 500)) 13 (Pure (OutNotified (Ok NotificationApplied))))) as H3 by (by vm_compute).
  assert (tasks (pay_run reports) !! 4%nat =
    Some (Build_Task (CallNotify (paid_event "evt_1" 500)) 13 (Pure (OutNotified (Ok NotificationDuplicate))))) as H4 by (by vm_compute).
  destruct (notification_truthful _ _ _ _ _ reports_ran H3) as (_ & Hpaid & Honce). split.
  - destruct (Hpaid eq_refl eq_refl) as (j & payment & _ & Hj & Hp & _ & Hfor). exists j, payment. split; [exact Hj|]. split; [exact Hfor|].
    by rewrite <-Hp.
  - exact (Honce 4%nat _ _ _ H4 eq_refl ltac:(done)).
Defined.

Lemma checkout_truthful_witness :
  ∃ j k, intents (pay_database (pay_run reports)) !! pi_reference j = Some k ∧ intent_forward j k ∧ pi_status j = IntentPending ∧
    pi_status k = IntentPaid.
Proof.
  assert (tasks (pay_run reports) !! 0%nat =
    Some (Build_Task (CallCreateIntent (checkout "checkout-1" "key-1")) 1
      (Pure (OutCreated (Ok (IntentCreated (new_intent 1 (checkout "checkout-1" "key-1")))))))) as H by (by vm_compute).
  destruct (proj2 (checkout_truthful _ _ _ _ _ reports_ran H) _ (or_introl eq_refl)) as (k & Hk & Hf & _).
  exists (new_intent 1 (checkout "checkout-1" "key-1")), k. split; [exact Hk|]. split; [exact Hf|]. split; [done|].
  assert (pi_status <$> intents (pay_database (pay_run reports)) !! "checkout-1"%string = Some IntentPaid) as Hs by (by vm_compute).
  simpl in Hk. rewrite Hk in Hs. by injection Hs.
Defined.
